(* ===== verification/_CoqProject ===== *)
-Q . S2P
Prelude.v
Core.v
Refine.v
SortSpec.v
ByteSwap.v
Sort.v
HeapSort.v
QuickSort.v
MergeSort.v
QuickPivot.v
QuickSelect.v
IntSort.v
SortFiles.v
Search.v
StringArrays.v
StringSearch.v
Store.v
Containers.v
SList.v
DList.v
Lru.v
BinTree.v
TreeEdit.v
Bst.v
Avl.v
Stack.v
DefaultAllocator.v
Ring.v
RingBuf.v
Queue.v
Deque.v
Array.v
Heap.v
UnionFind.v
Uuid.v
Prng.v
Bytes.v
Pool.v
Arena.v
Buddy.v
Hash.v
Bloom.v
Fenwick.v
SegTree.v
SparseTable.v
Graph.v
GraphSearch.v
Walks.v
BellmanFord.v
FloydWarshall.v
Dijkstra.v
BitIO.v
Huffman.v
Inflate.v
DeflateFormat.v
Deflate.v
Gzip.v
BoyerMoore.v
Delimited.v
Documents.v
Csv.v
Tsv.v
Threads.v
Lfstack.v
Mpmc.v
