(* ===== verification/Prelude.v ===== *)
(** * secure-c-libs: a verification development

    The program is a C17 library: sorting and searching routines, containers,
    allocators, random numbers, and around them parsers, networking,
    compression and numerics.  Every function reports failure by an error
    code or [NULL], takes its memory from an allocator passed as a record of
    callbacks, and works on untyped elements of a given size through pointers
    and comparison callbacks.  This library models the part of it below by
    executable definitions named after the C functions, and proves them
    correct.

    ** How C is modelled

    [Prelude] gives the result type of running code, [res]: a value, undefined
    behaviour ([UB]: an access outside an object, of an indeterminate cell,
    through [NULL] or a dangling pointer, a double free, a signed overflow), or
    lack of fuel ([Fuel]).  [wp m Q] says that [m] returns a value satisfying
    [Q]; so every theorem that concludes [wp] or [= Ok _] includes memory
    safety and termination.  Loops are [loop] (with fuel), [zfor] and
    [zfor_ret] (counted); the fuel written in a definition is an upper bound
    of the number of rounds, and the theorems show that it is enough.  Where
    a loop may not end ([Search], [StringArrays], [Prng], [Arena], [Buddy]) the
    fuel is an argument, and the theorems say for which inputs every fuel is too little;
    in [Inflate] and [Gzip] it is one too, and a bound on the output and the length of the input suffices.
    Integers are [Z] with their wrap-around written out ([u8], [u32], [u64],
    [i32]); arrays are lists indexed by [Z] ([get], [set]).

    [Core] holds what [libs/core] and [libs/common] share: error codes,
    overflow-checked arithmetic, alignment and bit utilities, bounded string
    copies, and the allocator interface.  An [scl_allocator_t] is the function
    of its answers to the successive requests; [world] counts requests and
    live blocks, so leaks show; blocks are lists of cells, indeterminate until
    written.  The class [AllocatorOk] is the contract clients may assume; every
    container theorem is stated over any allocator that satisfies it, and
    [DefaultAllocator] shows that the library's default one does.  [Store] is
    the memory of linked structures (nodes allocated one by one, reached by
    pointers), [Bytes] the memory of allocators (bytes at addresses).

    [Refine] defines refinement of an abstract data type: a step function per
    container, whose operations are the C functions, simulates a specification
    relation, hence so does every sequence of operations ([run_refines]); where
    an operation may only be used in some states, [permitted] says so
    ([run_refines_on]), or [permitted_at] where these are states of the
    implementation ([run_refines_at]).

    ** Files and what their theorems show

    - Sorting ([libs/sort]): [SortSpec] (what sorting means, the reference
      stable sort), [ByteSwap] (the byte loops implement the exchange of two
      elements), [Sort], [HeapSort], [QuickSort], [MergeSort] ([scl_sort.c]:
      ordered permutations, stability, the explicit stack of quick sort never
      overflows, every error branch of merge sort), [QuickPivot]
      ([quick/scl_quick.c]), [IntSort] (counting and radix sorts),
      [SortFiles] (the copies in the per-algorithm files), [QuickSelect]
      (the k-th smallest element, [libs/search/quickselect]).
    - Searching ([libs/search]): [Search] (ten array searches: found elements
      are equal, missing ones are absent, or the inputs on which the code
      hangs or misses), [StringArrays], [StringSearch] (Knuth-Morris-Pratt
      reports exactly the occurrences, Rabin-Karp the first one),
      [BoyerMoore] (exactly the occurrences of patterns of two bytes and more;
      a pattern of one byte is written outside its table).
    - Containers ([libs/structures]), each refined to what it represents, with
      initialisation and destruction: [Stack], [Queue], [Deque], [RingBuf]
      (over [Ring]), [Array], [SList], [DList] to lists; [Heap] to a bag;
      [Bst], [Avl] (over [BinTree] and [TreeEdit], which prove what the trees
      share once over a class of nodes) to ascending lists, with the balance
      and height bounds of the AVL tree; [Hash] to a finite map, where removed
      slots are not taken for keys that are present; [Lru] (whose
      nodes are in a list and in hash chains) to its bindings in the order of
      their use; [Bloom] to a set up to collisions; [UnionFind] to a partition; [Fenwick], [SegTree]
      and [SparseTable] to arrays with range queries; [Graph] to adjacency
      lists.
      [Containers] holds the replies and scans they share.
    - Graph searches ([scl_graph.c], [libs/search]), against [graph_ok], what
      [Graph] promises its readers: [GraphSearch] (breadth-first and
      depth-first traversals visit what is reachable, once), and over the
      weighted walks of [Walks] [BellmanFord] (exact distances, negative
      cycles), [Dijkstra] (exact distances or a reachable negative edge; its
      heap is that of [Heap]) and [FloydWarshall].
    - Allocators ([libs/allocator]), over any backing allocator:
      [DefaultAllocator]; [Pool] and [Arena] (disjoint blocks with their
      contents; an arena grows, and is reset as a whole); [Buddy], whose
      specification is what the code does and not what it is meant to do: one
      block at a time.
    - Compression ([libs/compress/gzip]): [BitIO] (fields written to a stream
      of bits are the ones read back), [Huffman] (exactly the canonical codes
      of RFC 1951 are decoded), [Inflate] (decompression of untrusted bytes
      stays inside its objects, and ends), [DeflateFormat] (it delivers what
      the blocks of the stream say), [Deflate] (the compressor writes the data
      as literals: its search finds no match; the codes for matches agree with
      the format), [Gzip] (the checksums, compression and decompression are
      inverse, what is accepted has been checked; raw and zlib streams).
    - Document readers ([libs/docparse]): [Delimited] (the reader of rows and
      fields that both formats share: a growing buffer fed in pieces, fields
      decoded in place, limits), [Csv], [Tsv] (their fields; each refines the
      text not read yet), [Documents] (reading a whole text gives the rows
      that were written).
    - Concurrency: [Threads] (any interleaving of the atomic actions of any
      number of threads, traces of the events at which operations take effect,
      and the refinement that makes an abstract machine accept them),
      [Lfstack] ([libs/structures/lfstack]: linearizable to a list, no node
      lost or handed out twice), [Mpmc] ([libs/structures/mpmc]: a bounded
      FIFO list, without races on its values); in both a thread left alone
      returns.  Atomics are sequentially consistent, and a load or an exchange
      of two words is one action; runs are shorter than the range of the tag
      of the stack, [2 ^ 64], and than [2 ^ 62] for the positions of the queue.
    - Random numbers ([libs/random]): [Prng] (reversible steps, unbiased
      bounded draws, filling of buffers), [Uuid] (printing and parsing are
      inverse, generated UUIDs are version 4).

    Elements, keys and values are opaque: a container holds values of a type
    [A] where the C code copies [element_size] bytes, and a comparison
    callback is a function [A -> A -> Z] that satisfies [Comparator].  Output
    pointers are modelled by what is written through them, [NULL] by [None].

    ** Parameters

    Code outside the repository is a parameter with its documented behaviour
    as hypothesis: the C library's allocation functions ([DefaultAllocator]),
    the address a backing allocator gives to a chunk ([Pool]: aligned, not
    null, inside the address space; [Buddy]: a multiple of 8), [getrandom] ([Uuid]), [scl_rand] for the
    seeds of [Hash] and [StringSearch], the square root and the floating-point
    fraction of jump and interpolation search ([Search]).  The default limit
    of decompression is a configuration macro and an argument in [Gzip], where
    the theorems on untrusted input take limits of at most 64 MiB, below the
    default, for which the bit count of the reader may overflow.

    ** Not modelled

    - Threads, weaker memory orders and sockets: the concurrent variants of
      structures and allocators, the thread pool, the
      multithreaded merge sort, HTTP, TCP pooling, DDoS protection.
    - Floating point and SIMD: machine learning, distributions, noise, bucket
      sort, A* search, mathematical wrappers.
    - Input and output: logging, the remaining document readers (JSON, XLSX,
      DOCX, PDF, Parquet, table metadata), the test harness; thin wrappers of
      the C library.
    - Declarations: portability and configuration headers.

    ** Planned

    In this order: the slab and TLSF allocators over [Bytes]; the remaining containers (red-black tree and
    B-tree over [BinTree], trie, skip list); the JSON reader as a state
    machine. *)

From stdpp Require Export base list numbers option sorting.
From Stdlib Require Export ZArith Lia.
#[global] Open Scope Z_scope.

(** ** Results of running C code

    [Ok a]: the code returned [a].  [UB]: an access outside the object it
    indexes (or of an indeterminate cell).  [Fuel]: the loop bound given by
    the model ran out; the theorems show that it never does. *)
Inductive res (A : Type) : Type :=
| Ok (a : A)
| UB
| Fuel.
Arguments Ok {A} _.
Arguments UB {A}.
Arguments Fuel {A}.

#[global] Instance res_ret : MRet res := fun A a => Ok a.
#[global] Instance res_bind : MBind res := fun A B f m =>
  match m with Ok a => f a | UB => UB | Fuel => Fuel end.
#[global] Instance res_eq_dec {A} `{EqDecision A} : EqDecision (res A).
Proof. intros [a| |] [b| |]; first [left; congruence | right; congruence | idtac].
  destruct (decide (a = b)); [left | right]; congruence.
Defined.

(** Total-correctness weakest precondition: [wp m Q] says that [m] returns
    (no undefined behaviour, no lack of fuel) a value satisfying [Q]. *)
Definition wp {A} (m : res A) (Q : A -> Prop) : Prop :=
  match m with Ok a => Q a | _ => False end.

Lemma wp_ok {A} (m : res A) Q : wp m Q <-> exists a, m = Ok a /\ Q a.
Proof. destruct m; simpl; naive_solver. Qed.

Lemma wp_mono {A} (m : res A) (P Q : A -> Prop) :
  wp m P -> (forall a, P a -> Q a) -> wp m Q.
Proof. destruct m; simpl; auto. Qed.

Lemma wp_ret {A} (a : A) (Q : A -> Prop) : Q a -> wp (mret a) Q.
Proof. done. Qed.

Lemma wp_bind {A B} (m : res A) (f : A -> res B) Q :
  wp m (fun a => wp (f a) Q) -> wp (m ≫= f) Q.
Proof. destruct m; simpl; auto. Qed.

Lemma bind_Ok {A B} (a : A) (f : A -> res B) : Ok a ≫= f = f a.
Proof. done. Qed.

Lemma wp_conj {A} (m : res A) (P Q : A -> Prop) :
  wp m P -> wp m Q -> wp m (fun a => P a /\ Q a).
Proof. destruct m; simpl; auto. Qed.

(** ** Loops

    [loop fuel f s] iterates [f]: [inl s'] goes round again with [s'], [inr r]
    leaves the loop (a false condition, a [break] or a [return]). *)
Fixpoint loop {St R} (fuel : nat) (f : St -> res (St + R)) (s : St) : res R :=
  match fuel with
  | O => Fuel
  | S fuel =>
      r ← f s;
      match r with
      | inl s' => loop fuel f s'
      | inr r => mret r
      end
  end.

(** The rule for loops: an invariant and a measure that decreases. *)
Lemma wp_loop {St R} (I : St -> Prop) (m : St -> Z) fuel (f : St -> res (St + R)) s Q :
  I s ->
  m s < Z.of_nat fuel ->
  (0 < fuel)%nat ->
  (forall s, I s -> wp (f s) (fun r => match r with
                                | inl s' => I s' /\ 0 <= m s' < m s
                                | inr r => Q r
                                end)) ->
  wp (loop fuel f s) Q.
Proof.
  intros HI Hm Hf Hstep. revert s HI Hm Hf.
  induction fuel as [|fuel IH]; intros s HI Hm Hf; [lia|].
  simpl. apply wp_bind. eapply wp_mono; [by apply Hstep|].
  intros [s'|r] H; [|done]. destruct H as [H1 H2]. apply IH; [done|lia|lia].
Qed.

(** The same with the measure carried by the invariant. *)
Lemma wp_loop_rel {St R} (I : Z -> St -> Prop) m fuel (f : St -> res (St + R)) s Q :
  I m s ->
  m < Z.of_nat fuel ->
  (0 < fuel)%nat ->
  (forall m s, I m s -> wp (f s) (fun r => match r with
                                 | inl s' => exists m', 0 <= m' < m /\ I m' s'
                                 | inr r => Q r
                                 end)) ->
  wp (loop fuel f s) Q.
Proof.
  intros HI Hm Hf Hstep. revert m s HI Hm Hf.
  induction fuel as [|fuel IH]; intros m s HI Hm Hf; [lia|].
  simpl. apply wp_bind. eapply wp_mono; [by apply (Hstep m)|].
  intros [s'|r] H; [|done]. destruct H as (m' & H1 & H2). apply (IH m'); [done|lia|lia].
Qed.

(** A loop that never leaves a set of states does not terminate: no fuel is
    enough. *)
Lemma loop_diverges {St R} (I : St -> Prop) fuel (f : St -> res (St + R)) s :
  (forall s, I s -> exists s', f s = Ok (inl s') /\ I s') -> I s -> loop fuel f s = Fuel.
Proof.
  intros Hf. revert s. induction fuel as [|fuel IH]; intros s HI; [done|].
  destruct (Hf s HI) as (s' & E & HI'). simpl. rewrite E. by apply IH.
Qed.

(** [for (i = lo; i < hi; i++) body] with the loop state threaded. *)
Fixpoint zfor_aux {St} (n : nat) (i : Z) (body : Z -> St -> res St) (s : St) : res St :=
  match n with
  | O => mret s
  | S n => s' ← body i s; zfor_aux n (i + 1) body s'
  end.
Definition zfor {St} (lo hi : Z) (body : Z -> St -> res St) (s : St) : res St :=
  zfor_aux (Z.to_nat (hi - lo)) lo body s.

Lemma wp_zfor_aux {St} (I : Z -> St -> Prop) n i (body : Z -> St -> res St) s Q :
  I i s ->
  (forall j s, i <= j < i + Z.of_nat n -> I j s -> wp (body j s) (I (j + 1))) ->
  (forall s, I (i + Z.of_nat n) s -> Q s) ->
  wp (zfor_aux n i body s) Q.
Proof.
  revert i s. induction n as [|n IH]; intros i s HI Hb HQ; simpl.
  - apply HQ. by replace (i + Z.of_nat 0) with i by lia.
  - apply wp_bind. eapply wp_mono; [apply (Hb i s); [lia|done]|].
    intros s' HI'. apply IH; [done| |].
    + intros j t Hj. apply Hb. lia.
    + intros t. replace (i + 1 + Z.of_nat n) with (i + Z.of_nat (S n)) by lia. apply HQ.
Qed.

(** The rule for counted loops: an invariant indexed by the counter. *)
Lemma wp_zfor {St} (I : Z -> St -> Prop) lo hi (body : Z -> St -> res St) s Q :
  I lo s ->
  (forall i s, lo <= i < hi -> I i s -> wp (body i s) (I (i + 1))) ->
  (forall s, I (Z.max lo hi) s -> Q s) ->
  wp (zfor lo hi body s) Q.
Proof.
  intros HI Hb HQ. apply (wp_zfor_aux I); [done| |].
  - intros j t Hj. apply Hb. lia.
  - intros t. replace (lo + Z.of_nat (Z.to_nat (hi - lo))) with (Z.max lo hi) by lia. apply HQ.
Qed.

(** [for (i = lo; i < hi; i++) body] whose body may leave the loop early. *)
Fixpoint zfor_ret_aux {St R} (n : nat) (i : Z) (body : Z -> St -> res (St + R)) (s : St)
    : res (St + R) :=
  match n with
  | O => mret (inl s)
  | S n => r ← body i s;
           match r with
           | inl s' => zfor_ret_aux n (i + 1) body s'
           | inr r => mret (inr r)
           end
  end.
Definition zfor_ret {St R} (lo hi : Z) (body : Z -> St -> res (St + R)) (s : St) : res (St + R) :=
  zfor_ret_aux (Z.to_nat (hi - lo)) lo body s.

Lemma wp_zfor_ret {St R} (I : Z -> St -> Prop) lo hi (body : Z -> St -> res (St + R)) s Q :
  I lo s ->
  (forall i s, lo <= i < hi -> I i s ->
     wp (body i s) (fun r => match r with inl s' => I (i + 1) s' | inr r => Q (inr r) end)) ->
  (forall s, I (Z.max lo hi) s -> Q (inl s)) ->
  wp (zfor_ret lo hi body s) Q.
Proof.
  unfold zfor_ret. remember (Z.to_nat (hi - lo)) as n eqn:Hn.
  revert lo s Hn. induction n as [|n IH]; intros lo s Hn HI Hb HQ; simpl.
  - apply HQ. by replace (Z.max lo hi) with lo by lia.
  - apply wp_bind. eapply wp_mono; [apply (Hb lo s); [lia|done]|].
    intros [s'|r] H; [|done]. apply IH; [lia|done| |].
    + intros j t Hj. apply Hb. lia.
    + intros t. replace (Z.max (lo + 1) hi) with (Z.max lo hi) by lia. apply HQ.
Qed.

(** ** Loops with equal bodies *)
Lemma loop_ext {St R} fuel (f g : St -> res (St + R)) s :
  (forall s, f s = g s) -> loop fuel f s = loop fuel g s.
Proof.
  intros E. revert s. induction fuel as [|fuel IH]; intros s; [done|]. simpl. rewrite E.
  destruct (g s) as [[s'|r]| |]; [apply IH|done..].
Qed.

Lemma zfor_ext {St} lo hi (f g : Z -> St -> res St) s :
  (forall i s, f i s = g i s) -> zfor lo hi f s = zfor lo hi g s.
Proof.
  intros E. unfold zfor. generalize (Z.to_nat (hi - lo)) as n. intros n. revert lo s.
  induction n as [|n IH]; intros lo s; [done|]. simpl. rewrite E.
  destruct (g lo s) as [s'| |]; [apply IH|done..].
Qed.

(** ** Arrays: lists indexed by [Z] *)
Definition zlen {A} (l : list A) : Z := Z.of_nat (length l).
Definition zlook {A} (l : list A) (i : Z) : option A :=
  if 0 <=? i then l !! Z.to_nat i else None.
Definition zupd {A} (l : list A) (i : Z) (x : A) : list A :=
  if 0 <=? i then <[Z.to_nat i := x]> l else l.

(** Reading and writing a cell: undefined outside the array. *)
Definition get {A} (l : list A) (i : Z) : res A :=
  match zlook l i with Some x => Ok x | None => UB end.
Definition set {A} (l : list A) (i : Z) (x : A) : res (list A) :=
  if (0 <=? i) && (i <? zlen l) then Ok (zupd l i x) else UB.

Section Arrays.
Context {A : Type}.
Implicit Types (l : list A) (i j : Z) (x y : A).

Lemma zlen_nonneg l : 0 <= zlen l.
Proof. unfold zlen. lia. Qed.

Lemma zlen_nil : zlen (@nil A) = 0.
Proof. done. Qed.

Lemma zlen_cons x l : zlen (x :: l) = zlen l + 1.
Proof. unfold zlen. simpl. lia. Qed.

Lemma zlen_app l l' : zlen (l ++ l') = zlen l + zlen l'.
Proof. unfold zlen. rewrite length_app. lia. Qed.

Lemma zlen_zupd l i x : zlen (zupd l i x) = zlen l.
Proof. unfold zlen, zupd. destruct (0 <=? i); [by rewrite length_insert|done]. Qed.

Lemma zlen_replicate n x : zlen (replicate n x) = Z.of_nat n.
Proof. unfold zlen. by rewrite length_replicate. Qed.

Lemma zlook_Some l i x : zlook l i = Some x -> 0 <= i < zlen l.
Proof.
  unfold zlook, zlen. destruct (Z.leb_spec 0 i); [|done].
  intros Hx%lookup_lt_Some. lia.
Qed.

Lemma zlook_lt l i : 0 <= i < zlen l -> exists x, zlook l i = Some x.
Proof.
  unfold zlook, zlen. intros H. destruct (Z.leb_spec 0 i); [|lia].
  apply lookup_lt_is_Some. lia.
Qed.

Lemma zlook_of_nat l n : zlook l (Z.of_nat n) = l !! n.
Proof.
  unfold zlook. destruct (Z.leb_spec 0 (Z.of_nat n)); [|lia]. by rewrite Nat2Z.id.
Qed.

Lemma zlook_ge l i : zlen l <= i -> zlook l i = None.
Proof.
  unfold zlook, zlen. intros H. destruct (Z.leb_spec 0 i); [|done].
  apply lookup_ge_None. lia.
Qed.

Lemma zlook_neg l i : i < 0 -> zlook l i = None.
Proof. unfold zlook. intros H. by destruct (Z.leb_spec 0 i); [lia|]. Qed.

Lemma zlook_zupd l i j x :
  zlook (zupd l i x) j =
    if decide (i = j /\ 0 <= i < zlen l) then Some x else zlook l j.
Proof.
  unfold zlook, zupd, zlen. destruct (Z.leb_spec 0 i), (Z.leb_spec 0 j);
    case_decide as Hd; try done; try lia.
  - destruct Hd as [-> Hd]. rewrite list_lookup_insert_eq; [done|lia].
  - destruct (decide (i = j)) as [->|].
    + rewrite list_insert_ge; [done|]. lia.
    + rewrite list_lookup_insert_ne; [done|lia].
Qed.

Lemma zlook_zupd_eq l i x : 0 <= i < zlen l -> zlook (zupd l i x) i = Some x.
Proof. intros H. rewrite zlook_zupd. by rewrite decide_True. Qed.

Lemma zlook_zupd_ne l i j x : i <> j -> zlook (zupd l i x) j = zlook l j.
Proof. intros H. rewrite zlook_zupd. rewrite decide_False; [done|naive_solver]. Qed.

Lemma zupd_id l i x : zlook l i = Some x -> zupd l i x = l.
Proof.
  unfold zlook, zupd. destruct (0 <=? i); [|done]. apply list_insert_id.
Qed.

Lemma zlook_ext l l' :
  (forall i, zlook l i = zlook l' i) -> l = l'.
Proof.
  intros H. apply list_eq. intros n. specialize (H (Z.of_nat n)).
  unfold zlook in H. destruct (Z.leb_spec 0 (Z.of_nat n)); [|lia].
  by rewrite Nat2Z.id in H.
Qed.

Lemma zlook_app l l' i :
  zlook (l ++ l') i = if i <? zlen l then zlook l i else zlook l' (i - zlen l).
Proof.
  unfold zlook, zlen. destruct (Z.ltb_spec i (Z.of_nat (length l)));
    destruct (Z.leb_spec 0 i); try done; try lia.
  - by rewrite lookup_app_l by lia.
  - destruct (Z.leb_spec 0 (i - Z.of_nat (length l))); [|lia].
    rewrite lookup_app_r by lia. f_equal. lia.
Qed.

Lemma zlook_cons x l i :
  zlook (x :: l) i = if i =? 0 then Some x else zlook l (i - 1).
Proof.
  unfold zlook. destruct (Z.eqb_spec i 0) as [->|]; [done|].
  destruct (Z.leb_spec 0 i), (Z.leb_spec 0 (i - 1)); try done; try lia.
  rewrite lookup_cons_ne_0 by lia. f_equal. lia.
Qed.

Lemma zlook_elem l i x : zlook l i = Some x -> x ∈ l.
Proof.
  unfold zlook. destruct (0 <=? i); [|done]. apply list_elem_of_lookup_2.
Qed.

Lemma elem_zlook l x : x ∈ l -> exists i, zlook l i = Some x.
Proof.
  intros [n Hn]%list_elem_of_lookup. exists (Z.of_nat n). unfold zlook.
  destruct (Z.leb_spec 0 (Z.of_nat n)); [|lia]. by rewrite Nat2Z.id.
Qed.

Lemma wp_get l i (Q : A -> Prop) :
  0 <= i < zlen l -> (forall x, zlook l i = Some x -> Q x) -> wp (get l i) Q.
Proof.
  intros H HQ. unfold get. destruct (zlook_lt l i H) as [x Hx]. rewrite Hx. by apply HQ.
Qed.

Lemma wp_set l i x (Q : list A -> Prop) :
  0 <= i < zlen l -> Q (zupd l i x) -> wp (set l i x) Q.
Proof.
  intros H HQ. unfold set.
  by destruct (Z.leb_spec 0 i), (Z.ltb_spec i (zlen l)); try lia.
Qed.
End Arrays.

Section Slices.
Context {A : Type}.
Implicit Types (l : list A) (i j : Z).

Lemma zlook_take l i j :
  zlook (take (Z.to_nat i) l) j = if j <? i then zlook l j else None.
Proof.
  unfold zlook. destruct (Z.leb_spec 0 j), (Z.ltb_spec j i); try done.
  - apply lookup_take_lt. lia.
  - apply lookup_take_ge. lia.
Qed.

Lemma zlook_drop l i j :
  0 <= i -> zlook (drop (Z.to_nat i) l) j = if 0 <=? j then zlook l (i + j) else None.
Proof.
  intros Hi. unfold zlook. destruct (Z.leb_spec 0 j); [|done].
  destruct (Z.leb_spec 0 (i + j)); [|lia]. rewrite lookup_drop. f_equal. lia.
Qed.

Lemma zlen_take l i : 0 <= i -> zlen (take (Z.to_nat i) l) = Z.min i (zlen l).
Proof. intros. unfold zlen. rewrite length_take. lia. Qed.

Lemma zlen_drop l i : 0 <= i -> zlen (drop (Z.to_nat i) l) = Z.max 0 (zlen l - i).
Proof. intros. unfold zlen. rewrite length_drop. lia. Qed.

Lemma zlook_replicate (n : nat) (x : A) i :
  zlook (replicate n x) i = if (0 <=? i) && (i <? Z.of_nat n) then Some x else None.
Proof.
  unfold zlook. destruct (Z.leb_spec 0 i); simpl; [|done].
  destruct (Z.ltb_spec i (Z.of_nat n)).
  - apply lookup_replicate_2. lia.
  - apply lookup_ge_None. rewrite length_replicate. lia.
Qed.

Lemma zlook_nil i : zlook (@nil A) i = None.
Proof. unfold zlook. by destruct (0 <=? i). Qed.
End Slices.

Lemma zlen_map {A B} (f : A -> B) l : zlen (f <$> l) = zlen l.
Proof. unfold zlen. by rewrite length_fmap. Qed.

Lemma zlook_fmap {A B} (f : A -> B) l i : zlook (f <$> l) i = f <$> zlook l i.
Proof. unfold zlook. destruct (0 <=? i); [|done]. apply list_lookup_fmap. Qed.

(** Exchanging two cells. *)
Definition swap {A} (l : list A) (i j : Z) : res (list A) :=
  x ← get l i; y ← get l j; l' ← set l i y; set l' j x.

Section Swap.
Context {A : Type}.
Implicit Types (l : list A) (i j : Z).

Lemma zswap_perm l i j x y :
  zlook l i = Some x -> zlook l j = Some y -> zupd (zupd l i y) j x ≡ₚ l.
Proof.
  intros Hi Hj. pose proof (zlook_Some _ _ _ Hi). pose proof (zlook_Some _ _ _ Hj).
  apply Permutation_inj. split.
  { apply Nat2Z.inj. change (zlen (zupd (zupd l i y) j x) = zlen l). by rewrite !zlen_zupd. }
  set (a := Z.to_nat i). set (b := Z.to_nat j).
  exists (fun k => if decide (k = a) then b else if decide (k = b) then a else k). split.
  { intros m n H1. simpl in H1. repeat case_decide; lia. }
  intros n. rewrite <- !zlook_of_nat, !zlook_zupd, zlen_zupd.
  destruct (decide (n = a)) as [->|]; [|destruct (decide (n = b)) as [->|]];
    unfold a, b in *; rewrite ?Z2Nat.id by lia;
    repeat case_decide; try lia; destruct_and?; subst; congruence.
Qed.

(** Exchanging two cells is total in range, permutes the array and exchanges
    exactly the two cells. *)
Lemma wp_swap l i j (Q : list A -> Prop) :
  0 <= i < zlen l -> 0 <= j < zlen l ->
  (forall l', zlen l' = zlen l -> l' ≡ₚ l ->
     (forall k, zlook l' k = if decide (k = i) then zlook l j
                             else if decide (k = j) then zlook l i else zlook l k) ->
     Q l') ->
  wp (swap l i j) Q.
Proof.
  intros Hi Hj HQ. unfold swap.
  apply wp_bind, wp_get; [done|]; intros x Hx.
  apply wp_bind, wp_get; [done|]; intros y Hy.
  apply wp_bind, wp_set; [done|]. apply wp_set; [by rewrite zlen_zupd|].
  apply HQ.
  - by rewrite !zlen_zupd.
  - by apply zswap_perm.
  - intros k. rewrite !zlook_zupd, zlen_zupd.
    repeat case_decide; try lia; destruct_and?; subst; congruence.
Qed.
End Swap.

(** ** Machine integers *)
Definition SIZE_MAX : Z := 2 ^ 64 - 1.
Definition u64 (x : Z) : Z := x mod 2 ^ 64.
Definition u32 (x : Z) : Z := x mod 2 ^ 32.
Definition u8 (x : Z) : Z := x mod 2 ^ 8.
Definition i32 (x : Z) : Z := (x + 2 ^ 31) mod 2 ^ 32 - 2 ^ 31.

Definition is_u64 (x : Z) : Prop := 0 <= x < 2 ^ 64.
Definition is_i32 (x : Z) : Prop := - 2 ^ 31 <= x < 2 ^ 31.

Lemma u64_small x : 0 <= x < 2 ^ 64 -> u64 x = x.
Proof. apply Z.mod_small. Qed.

Lemma u64_range x : 0 <= u64 x < 2 ^ 64.
Proof. by apply Z.mod_pos_bound. Qed.

Lemma u32_range x : 0 <= u32 x < 2 ^ 32.
Proof. by apply Z.mod_pos_bound. Qed.

(** Words as the lists of their bits: a word is below [2 ^ 64] when it has no
    higher bit. *)
Lemma is_u64_bits x : is_u64 x <-> 0 <= x /\ forall i, 64 <= i -> Z.testbit x i = false.
Proof.
  unfold is_u64. split.
  - intros Hx. split; [lia|]. intros i Hi. rewrite <- (Z.mod_small x (2 ^ 64)) by lia. apply Z.mod_pow2_bits_high. lia.
  - intros [Hx Hb]. split; [done|]. destruct (Z.eq_dec x 0) as [->|]; [done|].
    apply Z.log2_lt_pow2; [lia|]. destruct (Z.lt_ge_cases (Z.log2 x) 64) as [|Hl]; [done|].
    specialize (Hb _ Hl). rewrite Z.bit_log2 in Hb by lia. done.
Qed.

Lemma u64_lxor a b : is_u64 a -> is_u64 b -> is_u64 (Z.lxor a b).
Proof.
  rewrite !is_u64_bits. intros [Ha1 Ha2] [Hb1 Hb2]. split; [by apply Z.lxor_nonneg|].
  intros i Hi. by rewrite Z.lxor_spec, Ha2, Hb2.
Qed.

Lemma i32_small x : is_i32 x -> i32 x = x.
Proof. unfold is_i32, i32. intros H. rewrite Z.mod_small; lia. Qed.

(** ** Comparators

    A [scl_cmp_func_t] returns a negative, zero or positive [int]; the
    sorting, searching and heap components require of it that it is a total
    preorder, which is what this class states. *)
Class Comparator {A : Type} (cmp : A -> A -> Z) : Prop := {
  cmp_sym : forall x y, cmp x y < 0 <-> 0 < cmp y x;
  cmp_trans : forall x y z, cmp x y <= 0 -> cmp y z <= 0 -> cmp x z <= 0
}.

Section Comparator.
Context {A : Type} (cmp : A -> A -> Z) `{!Comparator cmp}.

Lemma cmp_refl x : cmp x x = 0.
Proof. destruct (cmp_sym x x). lia. Qed.

Lemma cmp_le_ge x y : cmp x y <= 0 <-> 0 <= cmp y x.
Proof. pose proof (cmp_sym x y). pose proof (cmp_sym y x). lia. Qed.

Lemma cmp_eq_sym x y : cmp x y = 0 <-> cmp y x = 0.
Proof. pose proof (cmp_sym x y). pose proof (cmp_sym y x). lia. Qed.

Lemma cmp_total x y : cmp x y <= 0 \/ cmp y x <= 0.
Proof. pose proof (cmp_sym x y). pose proof (cmp_sym y x). lia. Qed.

Lemma cmp_lt_le_trans x y z : cmp x y < 0 -> cmp y z <= 0 -> cmp x z < 0.
Proof.
  intros H1 H2. destruct (Z.lt_ge_cases (cmp x z) 0) as [|H3]; [done|].
  assert (cmp z x <= 0) by (apply cmp_le_ge; lia).
  pose proof (cmp_trans y z x H2 H). apply cmp_le_ge in H0. lia.
Qed.

Lemma cmp_le_lt_trans x y z : cmp x y <= 0 -> cmp y z < 0 -> cmp x z < 0.
Proof.
  intros H1 H2. destruct (Z.lt_ge_cases (cmp x z) 0) as [|H3]; [done|].
  assert (cmp z x <= 0) by (apply cmp_le_ge; lia).
  pose proof (cmp_trans z x y H H1). apply cmp_le_ge in H0. lia.
Qed.

Lemma cmp_eq_l x y z : cmp x y = 0 -> cmp x z <= 0 <-> cmp y z <= 0.
Proof.
  intros H. assert (cmp y x = 0) by by apply cmp_eq_sym.
  split; intros; eapply cmp_trans; eauto; lia.
Qed.
End Comparator.

Arguments cmp_sym {A} cmp {Comparator} x y.
Arguments cmp_trans {A} cmp {Comparator} x y z _ _.

(** The usual three-way comparator on integers. *)
Definition Zcmp (x y : Z) : Z := if x <? y then -1 else if y <? x then 1 else 0.
#[export] Instance Zcmp_comparator : Comparator Zcmp.
Proof.
  split; intros; unfold Zcmp in *;
    repeat match goal with |- context [?a <? ?b] => destruct (Z.ltb_spec a b)
           | _ : context [?a <? ?b] |- _ => destruct (Z.ltb_spec a b) end; lia.
Qed.

Lemma Zcmp_le x y : Zcmp x y <= 0 <-> x <= y.
Proof. unfold Zcmp. destruct (Z.ltb_spec x y), (Z.ltb_spec y x); lia. Qed.

Lemma Zcmp_eq x y : Zcmp x y = 0 <-> x = y.
Proof. unfold Zcmp. destruct (Z.ltb_spec x y), (Z.ltb_spec y x); lia. Qed.

(** ** Automation *)
Create HintDb scl discriminated.
#[export] Hint Resolve zlen_nonneg : scl.
Create Rewrite HintDb zl.
Create Rewrite HintDb zlk.
#[export] Hint Rewrite @zlen_nil @zlen_cons @zlen_app @zlen_zupd @zlen_map
  @zlen_replicate : zl.

#[export] Hint Rewrite @zlook_app @zlook_cons @zlook_take @zlook_nil @zlook_replicate : zlk.
#[export] Hint Rewrite @zlen_take @zlen_drop @zlook_drop using lia : zlk.

(** [zl]: arithmetic up to the lengths of arrays. *)
Ltac zl :=
  autorewrite with zl in *; repeat match goal with
  | l : list ?A |- _ => lazymatch goal with
      | _ : 0 <= zlen l |- _ => fail
      | _ => pose proof (zlen_nonneg l) end
  end; lia.

(** [zdiv]: [lia] with divisions and remainders by constants. *)
Ltac zdiv := Z.to_euclidean_division_equations; lia.

(** [zside]: side conditions on indices and cells; a defined cell bounds its
    index. *)
Ltac zidx :=
  first [ lia | repeat match goal with
                | H : zlook _ _ = Some _ |- _ => apply zlook_Some in H
                end; lia ].
Ltac zside := first [ eassumption | zidx ].

(** [bcase]: case analysis on an innermost boolean test of the goal. *)
Ltac no_if t := lazymatch t with context [match _ with _ => _ end] => fail | _ => idtac end.
Ltac bcase :=
  match goal with
  | |- context [?a <? ?b] => no_if a; no_if b; destruct (Z.ltb_spec a b)
  | |- context [?a <=? ?b] => no_if a; no_if b; destruct (Z.leb_spec a b)
  | |- context [?a =? ?b] => no_if a; no_if b; destruct (Z.eqb_spec a b)
  | |- context [?a >? ?b] => no_if a; no_if b; rewrite (Z.gtb_ltb a b)
  | |- context [?a >=? ?b] => no_if a; no_if b; rewrite (Z.geb_leb a b)
  end.

(** [zlist_ext]: equality of two arrays, cell by cell. *)
Ltac zcells :=
  autorewrite with zlk zl;
  repeat first [ progress autorewrite with zlk zl | bcase | case_decide ];
  try lia; try done; try (f_equal; lia).
Ltac zlist_ext :=
  apply zlook_ext; let i := fresh "i" in intros i; rewrite ?zlook_zupd; zcells.

(** [wstep]: one step of a [wp] goal whose head is a bind, a read, a write or
    a return; the side conditions on indices are left to [zl]. *)
Ltac wstep :=
  match goal with
  | |- wp (_ ≫= _) _ => apply wp_bind
  | |- wp (get _ _) _ => apply wp_get; [first [done | zl] | intros ?x ?Hx]
  | |- wp (set _ _ _) _ => apply wp_set; [first [done | zl] |]
  | |- wp (mret _) _ => apply wp_ret
  | |- wp (Ok _) _ => apply wp_ret
  end.

(** [for (i = hi; i > 0; i--) body]. *)
Definition zfor_down {St} (hi : Z) (body : Z -> St -> res St) (s : St) : res St :=
  zfor 0 hi (fun k => body (hi - k)) s.

Lemma wp_zfor_down {St} (I : Z -> St -> Prop) hi (body : Z -> St -> res St) s Q :
  0 <= hi -> I hi s ->
  (forall i s, 0 < i <= hi -> I i s -> wp (body i s) (I (i - 1))) ->
  (forall s, I 0 s -> Q s) ->
  wp (zfor_down hi body s) Q.
Proof.
  intros Hhi HI Hb HQ. apply (wp_zfor (fun k => I (hi - k))).
  - by rewrite Z.sub_0_r.
  - intros k t Hk Ht. eapply wp_mono; [apply Hb; [lia|done]|].
    intros t'. by replace (hi - k - 1) with (hi - (k + 1)) by lia.
  - intros t. replace (hi - Z.max 0 hi) with 0 by lia. apply HQ.
Qed.

(** ** Slices *)
Definition slice {A} (b : list A) (lo hi : Z) : list A :=
  take (Z.to_nat (hi - lo)) (drop (Z.to_nat lo) b).

Section SliceLemmas.
Context {A : Type}.
Implicit Types (b : list A) (lo mid hi : Z).

Lemma slice_nil b lo hi : hi <= lo -> slice b lo hi = [].
Proof. intros H. unfold slice. by replace (Z.to_nat (hi - lo)) with 0%nat by lia. Qed.

Lemma slice_cons b lo hi x :
  zlook b lo = Some x -> lo < hi -> slice b lo hi = x :: slice b (lo + 1) hi.
Proof.
  intros Hx Hlt. pose proof (zlook_Some _ _ _ Hx). unfold slice.
  apply zlook_ext; intros i. zcells. rewrite <- Hx. f_equal. lia.
Qed.

Lemma slice_app b lo mid hi :
  0 <= lo <= mid -> mid <= hi <= zlen b ->
  slice b lo mid ++ slice b mid hi = slice b lo hi.
Proof. intros H1 H2. unfold slice. zlist_ext. Qed.

Lemma slice_all b : slice b 0 (zlen b) = b.
Proof. unfold slice, zlen. rewrite drop_0. apply take_ge. lia. Qed.

Lemma zlen_slice b lo hi : 0 <= lo <= hi -> hi <= zlen b -> zlen (slice b lo hi) = hi - lo.
Proof. intros H1 H2. unfold slice. autorewrite with zlk zl; lia. Qed.

Lemma zlook_slice b lo hi i :
  0 <= lo -> zlook (slice b lo hi) i = if (0 <=? i) && (i <? hi - lo) then zlook b (lo + i) else None.
Proof. intros H. unfold slice. autorewrite with zlk. repeat bcase; simpl; try done; lia. Qed.

Lemma slice_split b lo hi :
  0 <= lo <= hi -> hi <= zlen b -> b = slice b 0 lo ++ slice b lo hi ++ slice b hi (zlen b).
Proof. intros H1 H2. rewrite !slice_app by lia. by rewrite slice_all. Qed.
End SliceLemmas.
