(* ===== verification/Core.v ===== *)
(** The core type system: error codes, overflow-checked size arithmetic,
    alignment and bit utilities, bounded string copies and the allocator
    interface ([libs/core/scl_common.h], [libs/common/scl_common.c],
    [libs/core/scl_string.c]). *)

From S2P Require Import Prelude.
From stdpp Require Import strings.
#[local] Open Scope Z_scope.

(** ** Error codes *)
Inductive scl_error_t : Type :=
| SCL_OK
| SCL_ERR_NULL_PTR
| SCL_ERR_OUT_OF_MEMORY
| SCL_ERR_SIZE_OVERFLOW
| SCL_ERR_EMPTY
| SCL_ERR_NOT_FOUND
| SCL_ERR_FULL
| SCL_ERR_INVALID_INDEX
| SCL_ERR_INVALID_ARG
| SCL_ERR_DUPLICATE
| SCL_ERR_ALLOC
| SCL_ERR_INVALID_STATE
| SCL_ERR_NOT_IMPLEMENTED
| SCL_ERR_PARSE
| SCL_ERR_UNSUPPORTED
| SCL_ERR_IO
| SCL_ERR_ALIGNMENT
| SCL_ERR_LOCK
| SCL_ERR_TIMEOUT
| SCL_ERR_DEADLOCK
| SCL_ERR_ML_CONVERGENCE
| SCL_ERR_ML_SINGULAR
| SCL_ERR_ML_NO_SOLUTION
| SCL_ERR_ML_EMPTY_CLUSTER
| SCL_ERR_ML_MISSING_DATA
| SCL_ERR_ML_OVERFLOW.
#[export] Instance scl_error_eq_dec : EqDecision scl_error_t.
Proof. solve_decision. Defined.

Definition scl_error_string (err : scl_error_t) : string :=
  match err with
  | SCL_OK => "success"
  | SCL_ERR_NULL_PTR => "null pointer"
  | SCL_ERR_OUT_OF_MEMORY => "out of memory"
  | SCL_ERR_SIZE_OVERFLOW => "size overflow"
  | SCL_ERR_EMPTY => "container empty"
  | SCL_ERR_NOT_FOUND => "not found"
  | SCL_ERR_FULL => "container full"
  | SCL_ERR_INVALID_INDEX => "invalid index"
  | SCL_ERR_INVALID_ARG => "invalid argument"
  | SCL_ERR_DUPLICATE => "duplicate entry"
  | SCL_ERR_ALLOC => "allocator error"
  | SCL_ERR_INVALID_STATE => "invalid state"
  | SCL_ERR_NOT_IMPLEMENTED => "not implemented"
  | SCL_ERR_PARSE => "parse error"
  | SCL_ERR_UNSUPPORTED => "unsupported"
  | SCL_ERR_IO => "I/O error"
  | SCL_ERR_ALIGNMENT => "alignment error"
  | SCL_ERR_LOCK => "lock failed"
  | SCL_ERR_TIMEOUT => "timeout"
  | SCL_ERR_DEADLOCK => "deadlock"
  | SCL_ERR_ML_CONVERGENCE => "ML: solver did not converge"
  | SCL_ERR_ML_SINGULAR => "ML: singular matrix"
  | SCL_ERR_ML_NO_SOLUTION => "ML: no solution found"
  | SCL_ERR_ML_EMPTY_CLUSTER => "ML: empty cluster"
  | SCL_ERR_ML_MISSING_DATA => "ML: missing data (NaN/Inf)"
  | SCL_ERR_ML_OVERFLOW => "ML: numerical overflow"
  end.

(** ** Overflow-safe size arithmetic

    The C functions return [true] on overflow and write [*out] otherwise;
    the model returns [None] on overflow.  The multiplication has two
    builds: the compiler builtin (which also stores the truncated product)
    and the portable division test. *)
Definition scl_add_overflow (a b : Z) : option Z :=
  if a >? u64 (SIZE_MAX - b) then None else Some (u64 (a + b)).

Definition builtin_mul_overflow (a b : Z) : bool * Z := (a * b >? SIZE_MAX, u64 (a * b)).

Definition scl_mul_overflow (a b : Z) : option Z :=
  let '(overflow, out) := builtin_mul_overflow a b in
  if overflow : bool then None else Some out.

Definition scl_mul_overflow_portable (a b : Z) : option Z :=
  if (a >? 0) && (b >? SIZE_MAX / a) then None else Some (u64 (a * b)).

Definition scl_sub_overflow (a b : Z) : option Z :=
  if b >? a then None else Some (u64 (a - b)).

Definition scl_range_in_bounds (total off n : Z) : bool :=
  if off >? total then false else n <=? u64 (total - off).

Definition scl_clamp_len (total off want : Z) : Z :=
  if off >=? total then 0
  else let avail := u64 (total - off) in
       if want <? avail then want else avail.

Definition scl_min_sz (a b : Z) : Z := if a <? b then a else b.
Definition scl_max_sz (a b : Z) : Z := if a >? b then a else b.

(** ** Powers of two and alignment *)

(** [~x] on a [size_t]. *)
Definition lnot64 (x : Z) : Z := u64 (Z.lnot x).

Section CacheLine.
(** [SCL_CACHE_LINE_SIZE] is 128 on ARM64 and 64 elsewhere. *)
Variable SCL_CACHE_LINE_SIZE : Z.

Definition scl_pad_to_cacheline (sz : Z) : Z :=
  let cl := SCL_CACHE_LINE_SIZE in
  Z.land (u64 (u64 (sz + cl) - 1)) (lnot64 (u64 (cl - 1))).
End CacheLine.

Definition scl_is_pow2_sz (v : Z) : bool :=
  negb (v =? 0) && (Z.land v (u64 (v - 1)) =? 0).

Definition scl_is_aligned_sz (v align : Z) : bool :=
  Z.land v (u64 (align - 1)) =? 0.

Definition scl_align_forward (offset align : Z) : Z :=
  let mask := u64 (align - 1) in
  Z.land (u64 (offset + mask)) (lnot64 mask).

Definition scl_bit_ceil_u32 (v : Z) : Z :=
  if v =? 0 then 1
  else
    let v := u32 (v - 1) in
    let v := Z.lor v (Z.shiftr v 1) in
    let v := Z.lor v (Z.shiftr v 2) in
    let v := Z.lor v (Z.shiftr v 4) in
    let v := Z.lor v (Z.shiftr v 8) in
    let v := Z.lor v (Z.shiftr v 16) in
    u32 (v + 1).

Definition scl_bit_ceil_sz (v : Z) : Z :=
  if v =? 0 then 1
  else
    let v := u64 (v - 1) in
    let v := Z.lor v (Z.shiftr v 1) in
    let v := Z.lor v (Z.shiftr v 2) in
    let v := Z.lor v (Z.shiftr v 4) in
    let v := Z.lor v (Z.shiftr v 8) in
    let v := Z.lor v (Z.shiftr v 16) in
    let v := Z.lor v (Z.shiftr v 32) in
    u64 (v + 1).

(** [__builtin_clz] counts the leading zeros of a non-zero [w]-bit word. *)
Definition builtin_clz (w x : Z) : Z := w - 1 - Z.log2 x.

Definition scl_log2_u32 (v : Z) : Z := u32 (31 - builtin_clz 32 (Z.lor v 1)).

Definition scl_log2_sz (v : Z) : Z := u64 ((8 * 8 - 1) - builtin_clz 64 (Z.lor v 1)).

(** The build without the builtin: [while (v > 1) { v >>= 1; r++; }].  A
    [w]-bit word is shifted at most [w] times. *)
Definition log2_portable (w : Z) (v : Z) : res Z :=
  loop (Z.to_nat w + 1)
    (fun '(v, r) => if v >? 1 then mret (inl (Z.shiftr v 1, r + 1)) else mret (inr r))
    (v, 0).

(** ** Bounded string copies

    A C string is an array of bytes holding a terminating [0]. *)
Definition strlen (s : list Z) : res Z :=
  loop (length s + 1)
    (fun n => c ← get s n; if c =? 0 then mret (inr n) else mret (inl (n + 1))) 0.

Definition scl_strlcpy (dst src : list Z) (dsize : Z) : res (list Z * Z) :=
  '(dst, n) ← loop (length src + 1)
    (fun '(dst, n) =>
       if n + 1 <? dsize then
         c ← get src n;
         if c =? 0 then mret (inr (dst, n))
         else dst' ← set dst n c; mret (inl (dst', n + 1))
       else mret (inr (dst, n)))
    (dst, 0);
  if dsize =? 0 then n ← strlen src; mret (dst, n)
  else
    dst ← set dst n 0;
    n ← loop (length src + 1)
      (fun n => c ← get src n; if c =? 0 then mret (inr n) else mret (inl (n + 1))) n;
    mret (dst, n).

Definition scl_strlcat (dst src : list Z) (dsize : Z) : res (list Z * Z) :=
  di ← loop (length dst + 1)
    (fun di => if di <? dsize then
                 c ← get dst di; if c =? 0 then mret (inr di) else mret (inl (di + 1))
               else mret (inr di)) 0;
  if di =? dsize then n ← strlen src; mret (dst, u64 (di + n))
  else
    '(dst, di, si) ← loop (length src + 1)
      (fun '(dst, di, si) =>
         if di + 1 <? dsize then
           c ← get src si;
           if c =? 0 then mret (inr (dst, di, si))
           else dst' ← set dst di c; mret (inl (dst', di + 1, si + 1))
         else mret (inr (dst, di, si)))
      (dst, di, 0);
    dst ← set dst di 0;
    si ← loop (length src + 1)
      (fun si => c ← get src si; if c =? 0 then mret (inr si) else mret (inl (si + 1))) si;
    mret (dst, u64 (di + si)).

(** ** The allocator interface

    An [scl_allocator_t] is a record of callbacks.  What a client can observe
    of it is whether each request is granted, so a callback is modelled by
    its answer to the [k]-th request of a run.  A granted block is an array
    of cells, indeterminate ([None]) until written; [world] counts the
    requests made and the blocks that are live, so that leaks are visible. *)
Inductive realloc_outcome : Type :=
| Granted                   (* a block of the new size, contents kept *)
| Refused                   (* NULL, the old block untouched *)
| Released.                 (* NULL, the old block freed *)

Record scl_allocator_t : Type := {
  malloc_fn : nat -> Z -> Z -> bool;
  calloc_fn : nat -> Z -> Z -> Z -> bool;
  realloc_fn : nat -> bool -> Z -> Z -> Z -> realloc_outcome
}.

Record world : Type := World { w_reqs : nat; w_live : Z }.

Definition block (A : Type) : Type := list (option A).

(** The largest object: [PTRDIFF_MAX] bytes. *)
Definition PTRDIFF_MAX : Z := 2 ^ 63 - 1.

(** [alignof(max_align_t)]. *)
Definition MAX_ALIGN : Z := 16.

Definition fresh_cells {A} (bytes es : Z) (c : option A) : block A :=
  replicate (Z.to_nat (bytes / es)) c.

(** Reading a cell of a block: undefined when it was never written. *)
Definition get_cell {A} (b : block A) (i : Z) : res A :=
  c ← get b i; match c with Some x => mret x | None => UB end.

Section Requests.
Context {A : Type} (al : scl_allocator_t).

(** [es] is the size of a cell: a block of [sz] bytes has [sz / es] cells. *)
Definition scl_alloc (w : world) (sz align es : Z) : option (block A) * world :=
  if malloc_fn al (w_reqs w) sz align
  then (Some (fresh_cells sz es None), World (S (w_reqs w)) (w_live w + 1))
  else (None, World (S (w_reqs w)) (w_live w)).

(** [zero] is the value whose bytes are all zero. *)
Definition scl_calloc (w : world) (cnt sz align : Z) (zero : A) : option (block A) * world :=
  if calloc_fn al (w_reqs w) cnt sz align
  then (Some (replicate (Z.to_nat cnt) (Some zero)), World (S (w_reqs w)) (w_live w + 1))
  else (None, World (S (w_reqs w)) (w_live w)).

(** A pointer to a block owned by a structure: [NULL], live, or dangling
    (its block was freed). *)
Inductive ptr : Type :=
| Null
| Ptr (b : block A)
| Dangling.

(** A granted request keeps the first [min old new] bytes.  The result holds
    the new block, what the old pointer is afterwards, and the world. *)
Definition scl_realloc (w : world) (p : ptr) (old new align es : Z)
    : res (option (block A) * ptr * world) :=
  match p with
  | Dangling => UB
  | _ =>
      let contents := match p with Ptr b => b | _ => [] end in
      let live := match p with Ptr _ => w_live w | _ => w_live w + 1 end in
      match realloc_fn al (w_reqs w) (match p with Ptr _ => true | _ => false end) old new align with
      | Granted =>
          let keep := take (Z.to_nat (scl_min_sz old new / es)) contents in
          mret (Some (keep ++ replicate (Z.to_nat (new / es) - length keep) None), Dangling,
                World (S (w_reqs w)) live)
      | Refused => mret (None, p, World (S (w_reqs w)) (w_live w))
      | Released =>
          mret (None, match p with Ptr _ => Dangling | _ => Null end, World (S (w_reqs w)) (live - 1))
      end
  end.

Definition scl_free (w : world) (p : option (block A)) : world :=
  match p with Some _ => World (w_reqs w) (w_live w - 1) | None => w end.

(** Freeing what a structure owns: a double free is undefined. *)
Definition free_ptr (w : world) (p : ptr) : res world :=
  match p with
  | Null => mret (scl_free w None)
  | Ptr b => mret (scl_free w (Some b))
  | Dangling => UB
  end.

(** Reading and writing element [i] of the block a pointer designates. *)
Definition get_elem (p : ptr) (i : Z) : res A :=
  match p with Ptr b => get_cell b i | _ => UB end.
Definition set_elem (p : ptr) (i : Z) (x : A) : res ptr :=
  match p with Ptr b => b ← set b i (Some x); mret (Ptr b) | _ => UB end.

(** The pointer an allocation returns. *)
Definition to_ptr (b : option (block A)) : ptr :=
  match b with Some b => Ptr b | None => Null end.
End Requests.
Arguments ptr A : clear implicits.
Arguments Null {A}.
Arguments Ptr {A} b.
Arguments Dangling {A}.

(** What clients may assume of an allocator: it grants only objects that
    exist, non-empty and no larger than [PTRDIFF_MAX]. *)
Class AllocatorOk (al : scl_allocator_t) : Prop := {
  malloc_fn_ok : forall k sz align, malloc_fn al k sz align = true -> 0 < sz <= PTRDIFF_MAX;
  calloc_fn_ok : forall k cnt sz align, is_u64 cnt -> is_u64 sz ->
    calloc_fn al k cnt sz align = true -> 0 < cnt /\ 0 < sz /\ cnt * sz <= PTRDIFF_MAX;
  realloc_fn_ok : forall k p old new align,
    realloc_fn al k p old new align = Granted -> 0 < new <= PTRDIFF_MAX;
  realloc_fn_kept : forall k p old new align,
    realloc_fn al k p old new align = Released -> new <= SIZE_MAX -> new = 0
}.

(** An allocator that grants every request of at most a megabyte. *)
Definition small_allocator : scl_allocator_t :=
  {| malloc_fn := fun _ n _ => (0 <? n) && (n <=? 2 ^ 20);
     calloc_fn := fun _ c n _ => (0 <? c) && (0 <? n) && (c * n <=? 2 ^ 20);
     realloc_fn := fun _ _ _ n _ => if (0 <? n) && (n <=? 2 ^ 20) then Granted else Refused |}.

#[export] Instance small_allocator_ok : AllocatorOk small_allocator.
Proof.
  split; simpl; unfold PTRDIFF_MAX.
  - intros _ sz _. rewrite andb_true_iff, Z.ltb_lt, Z.leb_le. lia.
  - intros _ cnt sz _ _ _. rewrite !andb_true_iff, !Z.ltb_lt, Z.leb_le. lia.
  - intros _ _ _ new _. destruct (_ && _) eqn:E; [|done].
    rewrite andb_true_iff, Z.ltb_lt, Z.leb_le in E. lia.
  - intros _ _ _ new _. by destruct (_ && _).
Qed.

(** The default allocator.  [malloc], [posix_memalign] and [realloc] are the
    C library's, given by the sizes they grant at the [k]-th request. *)
Section DefaultAllocator.
Variables (malloc : nat -> Z -> bool) (posix_memalign : nat -> Z -> Z -> bool)
          (realloc : nat -> Z -> bool).
Variable SCL_ALLOC_MAX_SIZE : Z.

Definition def_malloc_fallback (k : nat) (size alignment : Z) : bool :=
  posix_memalign k alignment size.

Definition def_malloc (k : nat) (size alignment : Z) : bool :=
  if (size =? 0) || (size >? SCL_ALLOC_MAX_SIZE) then false
  else if alignment <=? MAX_ALIGN then malloc k size
  else def_malloc_fallback k size alignment.

Definition def_calloc (k : nat) (count size alignment : Z) : bool :=
  if (count =? 0) || (size =? 0) then false
  else match scl_mul_overflow count size with
       | None => false
       | Some total =>
           if total >? SCL_ALLOC_MAX_SIZE then false else def_malloc k total alignment
       end.

Definition granted (ok : bool) : realloc_outcome := if ok then Granted else Refused.

(** [ptr]: the pointer passed is not [NULL].  The over-aligned path is
    [malloc], [memcpy] of [min old_size new_size] bytes and [free], or a
    refusal that keeps the old block. *)
Definition def_realloc (k : nat) (ptr : bool) (old_size new_size alignment : Z)
    : realloc_outcome :=
  if (new_size =? 0) || (new_size >? SCL_ALLOC_MAX_SIZE) then Released
  else if negb ptr then granted (def_malloc k new_size alignment)
  else if alignment <=? MAX_ALIGN then granted (realloc k new_size)
  else granted (def_malloc k new_size alignment).

Definition scl_allocator_default : scl_allocator_t :=
  {| malloc_fn := def_malloc; calloc_fn := def_calloc; realloc_fn := def_realloc |}.
End DefaultAllocator.

(** [scl_strlen], [scl_strdup], [scl_strndup] of [scl_string.c]. *)
Definition scl_strlen (s : option (list Z)) : res Z :=
  match s with None => mret 0 | Some s => strlen s end.

Definition strnlen (s : list Z) (maxlen : Z) : res Z :=
  loop (length s + 1)
    (fun n => if n <? maxlen then
                c ← get s n; if c =? 0 then mret (inr n) else mret (inl (n + 1))
              else mret (inr n)) 0.

(** [memcpy] of the first [n] cells of [src] over a fresh block. *)
Definition memcpy_cells {A} (d : block A) (src : list A) (n : Z) : res (block A) :=
  if (0 <=? n) && (n <=? zlen src) && (n <=? zlen d)
  then mret ((Some <$> take (Z.to_nat n) src) ++ drop (Z.to_nat n) d) else UB.

Definition scl_strdup (al : scl_allocator_t) (w : world) (src : option (list Z))
    : res (option (block Z) * world) :=
  match src with
  | None => mret (None, w)
  | Some src =>
      n ← strlen src;
      match scl_add_overflow n 1 with
      | None => mret (None, w)
      | Some total =>
          match scl_alloc al w total MAX_ALIGN 1 with
          | (None, w) => mret (None, w)
          | (Some d, w) => d ← memcpy_cells d src total; mret (Some d, w)
          end
      end
  end.

Definition scl_strndup (al : scl_allocator_t) (w : world) (src : option (list Z)) (maxlen : Z)
    : res (option (block Z) * world) :=
  match src with
  | None => mret (None, w)
  | Some src =>
      n ← strnlen src maxlen;
      match scl_add_overflow n 1 with
      | None => mret (None, w)
      | Some total =>
          match scl_alloc al w total MAX_ALIGN 1 with
          | (None, w) => mret (None, w)
          | (Some d, w) =>
              d ← memcpy_cells d src n;
              d ← set d n (Some 0);
              mret (Some d, w)
          end
      end
  end.

(** * Theorems *)

(** ** Overflow checks *)
Lemma gtb_false_le a b : (a >? b) = false <-> a <= b.
Proof. rewrite Z.gtb_ltb, Z.ltb_ge. done. Qed.

Lemma scl_add_overflow_spec a b :
  is_u64 a -> is_u64 b ->
  scl_add_overflow a b = if a + b <? 2 ^ 64 then Some (a + b) else None.
Proof.
  unfold is_u64, scl_add_overflow, SIZE_MAX. intros.
  rewrite (u64_small (2 ^ 64 - 1 - b)) by lia.
  repeat bcase; try lia; [by rewrite u64_small by lia|done].
Qed.

Lemma scl_mul_overflow_spec a b :
  is_u64 a -> is_u64 b ->
  scl_mul_overflow a b = if a * b <? 2 ^ 64 then Some (a * b) else None.
Proof.
  unfold is_u64, scl_mul_overflow, builtin_mul_overflow, SIZE_MAX. intros.
  repeat bcase; try lia; try done. f_equal. apply u64_small. nia.
Qed.

Lemma scl_mul_overflow_portable_spec a b :
  is_u64 a -> is_u64 b ->
  scl_mul_overflow_portable a b = if a * b <? 2 ^ 64 then Some (a * b) else None.
Proof.
  unfold is_u64, scl_mul_overflow_portable, SIZE_MAX. intros.
  destruct (Z.gtb_spec a 0); simpl.
  - assert (a * b <= 2 ^ 64 - 1 <-> b <= (2 ^ 64 - 1) / a) by
      (split; intros; [apply Z.div_le_lower_bound; lia |
       pose proof (Z.mul_div_le (2 ^ 64 - 1) a); nia]).
    repeat bcase; try lia; try done. f_equal. apply u64_small. nia.
  - assert (a = 0) as -> by lia. by rewrite Z.mul_0_l.
Qed.

Lemma scl_sub_overflow_spec a b :
  is_u64 a -> is_u64 b ->
  scl_sub_overflow a b = if b <=? a then Some (a - b) else None.
Proof.
  unfold is_u64, scl_sub_overflow. intros. repeat bcase; try lia; try done.
  by rewrite u64_small by lia.
Qed.

(** C38. The overflow-checked operations are exact: a result is returned
    exactly when the mathematical one fits a [size_t], the two builds of the
    multiplication agree, [scl_range_in_bounds] accepts exactly the ranges
    inside the buffer even when [off + n] would wrap, and [scl_clamp_len]
    gives the largest length that both fits and is asked for. *)
Theorem overflow_checks_exact (a b c : Z) (Ha : is_u64 a) (Hb : is_u64 b) (Hc : is_u64 c) :
  scl_add_overflow a b = (if a + b <? 2 ^ 64 then Some (a + b) else None) /\
  scl_sub_overflow a b = (if b <=? a then Some (a - b) else None) /\
  scl_mul_overflow a b = (if a * b <? 2 ^ 64 then Some (a * b) else None) /\
  scl_mul_overflow_portable a b = scl_mul_overflow a b /\
  (scl_range_in_bounds a b c = true <-> b + c <= a) /\
  scl_clamp_len a b c = scl_min_sz c (scl_max_sz 0 (a - b)).
Proof.
  split; [by apply scl_add_overflow_spec|]. split; [by apply scl_sub_overflow_spec|].
  split; [by apply scl_mul_overflow_spec|].
  split; [by rewrite scl_mul_overflow_portable_spec, scl_mul_overflow_spec|].
  unfold is_u64, scl_range_in_bounds, scl_clamp_len, scl_min_sz, scl_max_sz in *. split.
  - destruct (Z.gtb_spec b a); [lia|]. rewrite u64_small by lia.
    rewrite Z.leb_le. lia.
  - rewrite Z.geb_leb, Z.gtb_ltb. destruct (Z.leb_spec a b).
    + repeat bcase; lia.
    + rewrite u64_small by lia. repeat bcase; lia.
Qed.

Lemma overflow_checks_exact_witness :
  is_u64 (2 ^ 64 - 1) /\ is_u64 (2 ^ 63) /\ is_u64 2 /\
  scl_mul_overflow (2 ^ 64 - 1) (2 ^ 63) = None.
Proof.
  assert (is_u64 (2 ^ 64 - 1)) as H1 by (unfold is_u64; lia).
  assert (is_u64 (2 ^ 63)) as H2 by (unfold is_u64; lia).
  assert (is_u64 2) as H3 by (unfold is_u64; lia).
  destruct (overflow_checks_exact _ _ _ H1 H2 H3) as (_ & _ & E & _).
  split; [done|]. split; [done|]. split; [done|]. rewrite E. reflexivity.
Defined.

(** ** Bits *)
Lemma land_lnot64 x m : 0 <= x < 2 ^ 64 -> Z.land x (lnot64 m) = Z.ldiff x m.
Proof.
  intros Hx. unfold lnot64, u64. rewrite <- Z.land_ones by lia.
  rewrite (Z.land_comm (Z.lnot m)), Z.land_assoc, Z.land_ones by lia.
  rewrite Z.mod_small by lia. by rewrite Z.ldiff_land.
Qed.

Lemma align_forward_eq offset k : 0 <= k < 64 -> 0 <= offset -> offset + 2 ^ k - 1 < 2 ^ 64 ->
  scl_align_forward offset (2 ^ k) = (offset + 2 ^ k - 1) / 2 ^ k * 2 ^ k.
Proof.
  intros Hk Ho Hfit. assert (0 < 2 ^ k) as Hp by (apply Z.pow_pos_nonneg; lia).
  assert (2 ^ k < 2 ^ 64) as Hlt by (apply Z.pow_lt_mono_r; lia).
  unfold scl_align_forward. rewrite (u64_small (2 ^ k - 1)) by lia.
  rewrite u64_small by lia. rewrite land_lnot64 by lia.
  replace (2 ^ k - 1) with (Z.ones k) by (rewrite Z.ones_equiv; lia).
  rewrite Z.ldiff_ones_r, Z.shiftl_mul_pow2, Z.shiftr_div_pow2 by lia.
  rewrite Z.ones_equiv. do 2 f_equal. lia.
Qed.

(** For a power-of-two alignment and an offset whose rounding does not
    wrap, [scl_align_forward] returns the least multiple of [align] that is
    at least [offset]; padding to a cache line is the same operation. *)
Theorem scl_align_forward_least (offset k : Z)
  (Hk : 0 <= k < 64) (Ho : 0 <= offset) (Hfit : offset + 2 ^ k - 1 < 2 ^ 64) :
  let r := scl_align_forward offset (2 ^ k) in
  (2 ^ k | r) /\ offset <= r < offset + 2 ^ k /\
  scl_is_aligned_sz r (2 ^ k) = true /\
  (forall m, (2 ^ k | m) -> offset <= m -> r <= m) /\
  scl_pad_to_cacheline (2 ^ k) offset = r.
Proof.
  assert (0 < 2 ^ k) as Hp by (apply Z.pow_pos_nonneg; lia).
  assert (2 ^ k < 2 ^ 64) as Hlt by (apply Z.pow_lt_mono_r; lia).
  pose proof (align_forward_eq offset k Hk Ho Hfit) as E.
  intros r. subst r. pose proof E as E'. rewrite E. clear E.
  set (q := (offset + 2 ^ k - 1) / 2 ^ k).
  pose proof (Z.div_mod (offset + 2 ^ k - 1) (2 ^ k) ltac:(lia)) as Hdm.
  pose proof (Z.mod_pos_bound (offset + 2 ^ k - 1) (2 ^ k) Hp).
  fold q in Hdm. split; [by apply Z.divide_factor_r|]. split; [lia|]. split; [|split].
  - unfold scl_is_aligned_sz. rewrite u64_small by lia.
    replace (2 ^ k - 1) with (Z.ones k) by (rewrite Z.ones_equiv; lia).
    rewrite Z.land_ones, Z_mod_mult by lia. done.
  - intros m [c ->] Hm. apply Z.mul_le_mono_nonneg_r; [lia|].
    enough (q < c + 1) by lia. apply Z.div_lt_upper_bound; lia.
  - unfold scl_pad_to_cacheline. cbv zeta. fold q in E'. rewrite <- E'. unfold scl_align_forward. cbv zeta. f_equal.
    unfold u64. rewrite Zminus_mod_idemp_l, Zplus_mod_idemp_r. f_equal. lia.
Qed.

Lemma scl_align_forward_least_witness :
  scl_align_forward 13 (2 ^ 3) = 16 /\ (2 ^ 3 | scl_align_forward 13 (2 ^ 3)).
Proof.
  split; [reflexivity|]. apply (scl_align_forward_least 13 3); lia.
Defined.

(** [smeared n v w]: [w] is [v] OR-ed with its right shifts by less than [n]. *)
Definition smeared (n v w : Z) : Prop :=
  forall i, 0 <= i -> (Z.testbit w i = true <-> exists d, 0 <= d < n /\ Z.testbit v (i + d) = true).

Lemma smeared_start v : smeared 1 v v.
Proof.
  intros i Hi. split.
  - intros H. exists 0. by rewrite Z.add_0_r.
  - intros (d & Hd & H). by replace (i + d) with i in H by lia.
Qed.

Lemma smeared_double n v w :
  0 <= n -> smeared n v w -> smeared (2 * n) v (Z.lor w (Z.shiftr w n)).
Proof.
  intros Hn H i Hi. rewrite Z.lor_spec, Z.shiftr_spec by lia. rewrite orb_true_iff.
  rewrite (H i) by lia. rewrite (H (i + n)) by lia. split.
  - intros [(d & Hd & E)|(d & Hd & E)]; [exists d | exists (n + d)]; (split; [lia|]).
    + done.
    + by rewrite Z.add_assoc.
  - intros (d & Hd & E). destruct (Z.lt_ge_cases d n); [left; exists d; split; [lia|done]|].
    right. exists (d - n). split; [lia|]. by replace (i + n + (d - n)) with (i + d) by lia.
Qed.

Lemma smeared_ones n v w :
  0 < v < 2 ^ n -> 0 <= w -> smeared n v w -> w = Z.ones (Z.log2 v + 1).
Proof.
  intros Hv Hw H. pose proof (Z.log2_nonneg v).
  assert (Z.log2 v < n) by (apply Z.log2_lt_pow2; lia).
  apply Z.bits_inj'. intros i Hi.
  destruct (Z.lt_ge_cases (Z.log2 v) i).
  - rewrite Z.ones_spec_high by lia. apply not_true_iff_false. rewrite (H i Hi).
    intros (d & Hd & E). rewrite Z.bits_above_log2 in E; [done|lia|lia].
  - rewrite Z.ones_spec_low by lia. apply (H i Hi). exists (Z.log2 v - i). split; [lia|].
    replace (i + (Z.log2 v - i)) with (Z.log2 v) by lia. apply Z.bit_log2. lia.
Qed.

Lemma lor_shiftr_nonneg w n : 0 <= w -> 0 <= Z.lor w (Z.shiftr w n).
Proof. intros. apply Z.lor_nonneg. split; [done|]. by apply Z.shiftr_nonneg. Qed.

#[local] Ltac smear :=
  repeat first [ apply lor_shiftr_nonneg | lia | apply smeared_start
               | apply (smeared_double 32) | apply (smeared_double 16)
               | apply (smeared_double 8) | apply (smeared_double 4)
               | apply (smeared_double 2) | apply (smeared_double 1) ].

(** The common end of the two bit-ceilings: adding one to the smeared word. *)
Lemma smeared_ceil n v w :
  0 < n -> 1 < v < 2 ^ n -> 0 <= w -> smeared n (v - 1) w ->
  (w + 1) mod 2 ^ n = if v <=? 2 ^ (n - 1) then 2 ^ Z.log2_up v else 0.
Proof.
  intros Hn Hv Hw H. rewrite (smeared_ones n (v - 1) w) by (done || lia).
  assert (Z.ones (Z.log2 (v - 1) + 1) + 1 = 2 ^ Z.log2_up v) as ->.
  { rewrite Z.ones_equiv. unfold Z.log2_up. destruct (Z.compare_spec 1 v); try lia.
    rewrite Z.sub_1_r, Z.add_1_r. lia. }
  pose proof (Z.log2_up_nonneg v). destruct (Z.leb_spec v (2 ^ (n - 1))).
  - apply Z.mod_small. split; [lia|]. apply Z.pow_lt_mono_r; [lia|lia|].
    enough (Z.log2_up v <= n - 1) by lia. apply Z.log2_up_le_pow2; lia.
  - assert (Z.log2_up v = n) as ->; [|apply Z_mod_same_full].
    enough (Z.log2_up v <= n /\ n - 1 < Z.log2_up v) by lia. split.
    + apply Z.log2_up_le_pow2; lia.
    + apply Z.log2_up_lt_pow2; lia.
Qed.

(** [v & (v - 1)] is 0 exactly for powers of two. *)
Lemma is_pow2_spec v :
  0 < v < 2 ^ 64 -> scl_is_pow2_sz v = true <-> exists k, 0 <= k /\ v = 2 ^ k.
Proof.
  intros Hv. unfold scl_is_pow2_sz. destruct (Z.eqb_spec v 0); [lia|]. cbn [negb andb].
  rewrite u64_small, Z.eqb_eq by lia. split.
  - intros E. exists (Z.log2 v). pose proof (Z.log2_nonneg v). split; [done|].
    pose proof (Z.log2_spec v ltac:(lia)) as Hs.
    destruct (decide (v = 2 ^ Z.log2 v)) as [|Hne]; [done|exfalso].
    assert (Z.log2 (v - 1) = Z.log2 v) as El by (apply Z.log2_unique; lia).
    assert (Z.testbit (Z.land v (v - 1)) (Z.log2 v) = true) as Hb.
    { rewrite Z.land_spec, Z.bit_log2 by lia. rewrite <- El at 1. pose proof (Z.pow_pos_nonneg 2 (Z.log2 v)).
      by rewrite Z.bit_log2 by lia. }
    by rewrite E, Z.bits_0 in Hb.
  - intros (k & Hk & ->). replace (2 ^ k - 1) with (Z.ones k) by (rewrite Z.ones_equiv; lia).
    rewrite Z.land_ones by lia. apply Z.mod_same. pose proof (Z.pow_pos_nonneg 2 k). lia.
Qed.

Lemma bit_ceil_sz_spec v :
  0 < v < 2 ^ 64 -> scl_bit_ceil_sz v = if v <=? 2 ^ 63 then 2 ^ Z.log2_up v else 0.
Proof.
  intros Hv. unfold scl_bit_ceil_sz. destruct (Z.eqb_spec v 0); [lia|].
  rewrite (u64_small (v - 1)) by lia. destruct (Z.eq_dec v 1) as [->|]; [reflexivity|].
  cbv zeta. unfold u64. apply (smeared_ceil 64); [lia|lia|smear|smear].
Qed.

(** A rounded capacity is a power of two, or 0 when none fits. *)
Lemma bit_ceil_sz_pow v :
  0 < v < 2 ^ 64 ->
  scl_bit_ceil_sz v = 0 \/ exists k, 0 <= k < 64 /\ scl_bit_ceil_sz v = 2 ^ k /\ v <= 2 ^ k.
Proof.
  intros Hv. rewrite bit_ceil_sz_spec by done. bcase; [|by left]. right. exists (Z.log2_up v).
  split; [|split; [done|]].
  - pose proof (Z.log2_up_nonneg v). enough (Z.log2_up v <= 63) by lia. apply Z.log2_up_le_pow2; lia.
  - destruct (Z.eq_dec v 1) as [->|]; [done|]. apply Z.log2_up_spec. lia.
Qed.

(** [scl_bit_ceil_sz] is the least power of two that is at least [v],
    and 0 when that power does not fit a [size_t]; [scl_bit_ceil_u32] is the
    same at 32 bits; [scl_is_pow2_sz] recognises the powers of two. *)
Theorem scl_bit_ceil_least (v : Z) (Hv : 0 < v) :
  (v < 2 ^ 64 ->
   scl_bit_ceil_sz v = if v <=? 2 ^ 63 then 2 ^ Z.log2_up v else 0) /\
  (v < 2 ^ 32 ->
   scl_bit_ceil_u32 v = if v <=? 2 ^ 31 then 2 ^ Z.log2_up v else 0) /\
  (v < 2 ^ 64 -> scl_is_pow2_sz v = true <-> exists k, 0 <= k /\ v = 2 ^ k) /\
  v <= 2 ^ Z.log2_up v /\ (forall k, 0 <= k -> v <= 2 ^ k -> 2 ^ Z.log2_up v <= 2 ^ k).
Proof.
  split; [|split; [|split; [intros; apply is_pow2_spec; lia|split]]].
  - intros Hlt. apply bit_ceil_sz_spec. lia.
  - intros Hlt. unfold scl_bit_ceil_u32. destruct (Z.eqb_spec v 0); [lia|].
    destruct (Z.eq_dec v 1) as [->|]; [reflexivity|].
    assert (u32 (v - 1) = v - 1) as -> by (apply Z.mod_small; lia).
    cbv zeta. unfold u32. apply (smeared_ceil 32); [lia|lia|smear|smear].
  - destruct (Z.eq_dec v 1) as [->|]; [done|]. apply Z.log2_up_spec. lia.
  - intros k Hk Hle. apply Z.pow_le_mono_r; [lia|]. by apply Z.log2_up_le_pow2.
Qed.

Lemma scl_bit_ceil_least_witness :
  scl_bit_ceil_sz 9 = 16 /\ scl_bit_ceil_sz (2 ^ 63 + 1) = 0.
Proof.
  split.
  - rewrite (proj1 (scl_bit_ceil_least 9 ltac:(lia))) by lia. reflexivity.
  - rewrite (proj1 (scl_bit_ceil_least (2 ^ 63 + 1) ltac:(lia))) by lia. reflexivity.
Defined.

(** The two builds of the logarithm agree: the count-leading-zeros
    expression and the shifting loop both return the integer logarithm. *)
Theorem scl_log2_builds_agree (v : Z) :
  (is_u64 v -> log2_portable 64 v = Ok (scl_log2_sz v) /\ scl_log2_sz v = Z.log2 v) /\
  (0 <= v < 2 ^ 32 -> log2_portable 32 v = Ok (scl_log2_u32 v) /\ scl_log2_u32 v = Z.log2 v).
Proof.
  assert (forall w, 0 < w -> 0 <= v < 2 ^ w -> log2_portable w v = Ok (Z.log2 v)) as Hp.
  { intros w Hw Hv. unfold log2_portable.
    assert (wp (loop (Z.to_nat w + 1)
       (fun '(v, r) => if v >? 1 then mret (inl (Z.shiftr v 1, r + 1)) else mret (inr r)) (v, 0))
       (eq (Z.log2 v))) as (a & -> & <-)%wp_ok; [|done].
    apply (wp_loop (fun '(x, r) => 0 <= x /\ r + Z.log2 x = Z.log2 v)
             (fun '(x, r) => Z.log2 x)); [lia| |lia|].
    - destruct (Z.eq_dec v 0) as [->|]; [simpl; lia|].
      assert (Z.log2 v < w) by (apply Z.log2_lt_pow2; lia). lia.
    - intros [x r] [Hx Hr]. destruct (Z.gtb_spec x 1); apply wp_ret.
      + rewrite Z.shiftr_div_pow2 by lia. change (2 ^ 1) with 2.
        pose proof (Z.div_pos x 2 ltac:(lia) ltac:(lia)).
        assert (Z.log2 x = 1 + Z.log2 (x / 2)) as E.
        { change 2 with (2 ^ 1). rewrite <- Z.shiftr_div_pow2, Z.log2_shiftr by lia.
          pose proof (Z.log2_le_mono 2 x ltac:(lia)) as E. change (Z.log2 2) with 1 in E. lia. }
        pose proof (Z.log2_nonneg (x / 2)). lia.
      + assert (Z.log2 x = 0) by (apply Z.log2_null; lia). lia. }
  assert (forall x, 0 <= x -> Z.log2 (Z.lor x 1) = Z.log2 x) as Hl.
  { intros x Hx. rewrite Z.log2_lor by lia. pose proof (Z.log2_nonneg x).
    change (Z.log2 1) with 0. lia. }
  unfold is_u64, scl_log2_sz, scl_log2_u32, builtin_clz. split; intros Hv.
  - rewrite Hp, Hl by lia. pose proof (Z.log2_nonneg v).
    destruct (Z.eq_dec v 0) as [->|]; [done|].
    assert (Z.log2 v < 64) by (apply Z.log2_lt_pow2; lia).
    rewrite u64_small by lia. split; [f_equal|]; lia.
  - rewrite Hp, Hl by lia. pose proof (Z.log2_nonneg v).
    destruct (Z.eq_dec v 0) as [->|]; [done|].
    assert (Z.log2 v < 32) by (apply Z.log2_lt_pow2; lia).
    unfold u32. rewrite Z.mod_small by lia. split; [f_equal|]; lia.
Qed.

Lemma scl_log2_builds_agree_witness : log2_portable 64 1000 = Ok 9 /\ scl_log2_sz 1000 = 9.
Proof.
  assert (is_u64 1000) as H by (unfold is_u64; lia).
  destruct (proj1 (scl_log2_builds_agree 1000) H) as [E1 E2]. split; [|reflexivity].
  rewrite E1. reflexivity.
Defined.

(** ** Bounded string copies *)

(** [src] holds the C string [s]. *)
Definition cstr (src s : list Z) : Prop :=
  exists rest, src = s ++ 0 :: rest /\ (forall i, zlook s i <> Some 0).

Section CStrings.
Variables src s : list Z.
Hypothesis Hsrc : cstr src s.

Lemma cstr_len : zlen s + 1 <= zlen src.
Proof. destruct Hsrc as (rest & -> & _). zl. Qed.

Lemma wp_get_cstr i (Q : Z -> Prop) :
  0 <= i <= zlen s ->
  (forall c, zlook src i = Some c -> (c = 0 /\ i = zlen s) \/
             (c <> 0 /\ i < zlen s /\ zlook s i = Some c) -> Q c) ->
  wp (get src i) Q.
Proof.
  intros Hi HQ. pose proof cstr_len. apply wp_get; [lia|]. intros c Hc. apply HQ; [done|].
  destruct Hsrc as (rest & E & H0). rewrite E in Hc.
  rewrite zlook_app, zlook_cons in Hc. destruct (Z.ltb_spec i (zlen s)).
  - right. split; [|done]. intros ->. by eapply H0.
  - left. destruct (Z.eqb_spec (i - zlen s) 0); [|lia]. split; [congruence|lia].
Qed.

Lemma strlen_from n0 (Q : Z -> Prop) :
  0 <= n0 <= zlen s -> Q (zlen s) ->
  wp (loop (length src + 1)
    (fun n => c ← get src n; if c =? 0 then mret (inr n) else mret (inl (n + 1))) n0) Q.
Proof.
  intros Hn HQ. pose proof cstr_len.
  apply (wp_loop (fun n => 0 <= n <= zlen s) (fun n => zlen s - n));
    [lia|unfold zlen in *; lia|lia|].
  intros n Hn'. apply wp_bind, wp_get_cstr; [done|].
  intros c _ [[-> ->]|(Hc & Hlt & _)]; [done|].
  destruct (Z.eqb_spec c 0); [done|]. simpl. lia.
Qed.

Lemma strlen_spec : strlen src = Ok (zlen s).
Proof.
  assert (wp (strlen src) (eq (zlen s))) as (a & -> & <-)%wp_ok; [|done].
  apply strlen_from; [pose proof (zlen_nonneg s); lia|done].
Qed.
End CStrings.

(** [scl_strlcpy] never leaves [dst[0..dsize)], copies the longest prefix
    of the source that leaves room for the terminator, terminates it, keeps
    the rest of [dst], and returns [strlen(src)]; with [dsize = 0] it writes
    nothing. *)
Theorem scl_strlcpy_spec (dst src s : list Z) (dsize : Z)
  (Hsrc : cstr src s) (Hd : 0 <= dsize <= zlen dst) :
  scl_strlcpy dst src dsize =
    Ok (if dsize =? 0 then dst
        else let k := Z.to_nat (Z.min (dsize - 1) (zlen s)) in
             take k s ++ 0 :: drop (k + 1) dst, zlen s).
Proof.
  pose proof (cstr_len _ _ Hsrc). pose proof (zlen_nonneg s).
  enough (wp (scl_strlcpy dst src dsize) (eq (if dsize =? 0 then dst
        else let k := Z.to_nat (Z.min (dsize - 1) (zlen s)) in
             take k s ++ 0 :: drop (k + 1) dst, zlen s))) as (a & -> & <-)%wp_ok by done.
  unfold scl_strlcpy. apply wp_bind.
  apply (wp_loop (fun '(d, i) => 0 <= i <= zlen s /\ (i = 0 \/ i + 1 <= dsize) /\
                    d = take (Z.to_nat i) s ++ drop (Z.to_nat i) dst)
           (fun '(_, i) => zlen s - i)); [by split; [lia|auto]|unfold zlen in *; lia|lia|].
  intros [d i] (Hi & Hi' & ->).
  assert (forall i' : Z, 0 <= i' <= zlen s -> i' = (if dsize =? 0 then 0 else Z.min (dsize - 1) (zlen s)) ->
    wp (if dsize =? 0 then n ← strlen src; mret (take (Z.to_nat i') s ++ drop (Z.to_nat i') dst, n)
        else dst0 ← set (take (Z.to_nat i') s ++ drop (Z.to_nat i') dst) i' 0;
             n ← loop (length src + 1)
              (fun n => c ← get src n; if c =? 0 then mret (inr n) else mret (inl (n + 1))) i';
             mret (dst0, n))
      (eq (if dsize =? 0 then dst
        else let k := Z.to_nat (Z.min (dsize - 1) (zlen s)) in
             take k s ++ 0 :: drop (k + 1) dst, zlen s))) as Hend.
  { intros i' Hi1 ->. destruct (Z.eqb_spec dsize 0) as [->|Hz].
    - rewrite (strlen_spec _ _ Hsrc). done.
    - wstep. apply wp_set; [autorewrite with zlk zl; lia|]. wstep.
      apply (strlen_from _ _ Hsrc); [lia|]. wstep. f_equal. cbv zeta. set (k := Z.min _ _).
      replace (Z.to_nat k + 1)%nat with (Z.to_nat (k + 1)) by lia. zlist_ext. }
  destruct (Z.ltb_spec (i + 1) dsize).
  - apply wp_bind, (wp_get_cstr _ _ Hsrc); [lia|].
    intros c _ [[-> ->]|(Hc & Hlt & E)].
    + simpl. apply Hend; [lia|]. repeat bcase; lia.
    + destruct (Z.eqb_spec c 0); [done|].
      apply wp_bind, wp_set; [autorewrite with zlk zl; lia|]. apply wp_ret.
      split; [|lia]. split; [lia|]. split; [lia|].
      zlist_ext. by replace i0 with i by lia.
  - apply wp_ret, Hend; [lia|]. repeat bcase; lia.
Qed.

Lemma scl_strlcpy_spec_witness :
  scl_strlcpy [9; 9; 9; 9] [104; 105; 106; 0; 7] 3 = Ok ([104; 105; 0; 9], 3).
Proof.
  rewrite (scl_strlcpy_spec _ _ [104; 105; 106] 3).
  - reflexivity.
  - exists [7]. split; [reflexivity|]. intros i Hi.
    apply zlook_elem in Hi. repeat (apply elem_of_cons in Hi as [Hi|Hi]; [discriminate|]).
    by apply elem_of_nil in Hi.
  - vm_compute. split; discriminate.
Defined.

(** The scan for the end of the destination. *)
Lemma strlcat_scan dst (d : list Z) dsize Q :
  cstr dst d -> 0 <= dsize <= zlen dst ->
  Q (Z.min dsize (zlen d)) ->
  wp (loop (length dst + 1)
    (fun di => if di <? dsize then
                 c ← get dst di; if c =? 0 then mret (inr di) else mret (inl (di + 1))
               else mret (inr di)) 0) Q.
Proof.
  intros Hdst Hs HQ. pose proof (cstr_len _ _ Hdst). pose proof (zlen_nonneg d).
  apply (wp_loop (fun i => 0 <= i <= Z.min dsize (zlen d)) (fun i => zlen dst - i));
    [lia|unfold zlen in *; lia|lia|].
  intros i Hi. destruct (Z.ltb_spec i dsize).
  - apply wp_bind, (wp_get_cstr _ _ Hdst); [lia|]. intros c _ [[-> ->]|(Hc & Hlt & _)].
    + simpl. by replace (zlen d) with (Z.min dsize (zlen d)) by lia.
    + destruct (Z.eqb_spec c 0); [done|]. apply wp_ret. lia.
  - apply wp_ret. by replace i with (Z.min dsize (zlen d)) by lia.
Qed.

(** [scl_strlcat] appends the longest prefix of the source that leaves
    room for the terminator and never leaves [dst[0..dsize)].  With no room at
    all it returns [dsize + strlen(src)] and writes nothing.  Otherwise it
    returns the length of the *resulting* prefix plus [strlen(src)]: the
    appended bytes are counted twice, so the value is not the
    [strlen(dst) + strlen(src)] of BSD [strlcat] unless nothing was copied. *)
Theorem scl_strlcat_spec (dst src d s : list Z) (dsize : Z)
  (Hdst : cstr dst d) (Hsrc : cstr src s) (Hd : 0 <= dsize <= zlen dst)
  (Hfit : 2 * zlen dst + zlen src < 2 ^ 64) :
  scl_strlcat dst src dsize =
    Ok (if dsize <=? zlen d then (dst, dsize + zlen s)
        else let k := Z.min (dsize - 1 - zlen d) (zlen s) in
             (d ++ take (Z.to_nat k) s ++ 0 :: drop (Z.to_nat (zlen d + k + 1)) dst,
              zlen d + k + zlen s)).
Proof.
  pose proof (cstr_len _ _ Hsrc). pose proof (cstr_len _ _ Hdst).
  pose proof (zlen_nonneg s). pose proof (zlen_nonneg d).
  match goal with |- _ = Ok ?r => enough (wp (scl_strlcat dst src dsize) (eq r))
    as (a & -> & <-)%wp_ok by done; set (res := r) end.
  unfold scl_strlcat. apply wp_bind, (strlcat_scan _ d); [done|done|].
  destruct (Z.leb_spec dsize (zlen d)).
  { replace (Z.min dsize (zlen d)) with dsize by lia. rewrite Z.eqb_refl.
    rewrite (strlen_spec _ _ Hsrc). simpl. rewrite u64_small by lia.
    subst res. done. }
  destruct (Z.eqb_spec (Z.min dsize (zlen d)) dsize); [lia|].
  replace (Z.min dsize (zlen d)) with (zlen d) by lia.
  set (k := Z.min (dsize - 1 - zlen d) (zlen s)) in *.
  apply wp_bind.
  apply (wp_loop (fun '(t, di, i) => 0 <= i <= k /\ di = zlen d + i /\
            t = d ++ take (Z.to_nat i) s ++ drop (Z.to_nat (zlen d + i)) dst)
           (fun '(_, _, i) => zlen s - i)); [|unfold zlen in *; lia|lia|].
  { split; [lia|]. split; [lia|]. rewrite Z.add_0_r. simpl.
    destruct Hdst as (rest & E & _). zlist_ext. rewrite E, zlook_app. bcase; [done|lia]. }
  intros [[t di] i] (Hi & -> & ->).
  assert (wp (t0 ← set (d ++ take (Z.to_nat k) s ++ drop (Z.to_nat (zlen d + k)) dst) (zlen d + k) 0;
     si ← loop (length src + 1)
       (fun si => c ← get src si; if c =? 0 then mret (inr si) else mret (inl (si + 1))) k;
     mret (t0, u64 (zlen d + k + si))) (eq res)) as Hend.
  { wstep. apply wp_set; [autorewrite with zlk zl; lia|]. wstep.
    apply (strlen_from _ _ Hsrc); [lia|]. wstep. rewrite u64_small by lia.
    subst res. f_equal. zlist_ext. }
  destruct (Z.ltb_spec (zlen d + i + 1) dsize).
  - apply wp_bind, (wp_get_cstr _ _ Hsrc); [lia|].
    intros c _ [[-> ->]|(Hc & Hlt & E)].
    + simpl. by replace (zlen s) with k by lia.
    + destruct (Z.eqb_spec c 0); [done|].
      apply wp_bind, wp_set; [autorewrite with zlk zl; lia|]. apply wp_ret.
      split; [|lia]. split; [lia|]. split; [lia|].
      zlist_ext. rewrite <- E. f_equal. lia.
  - apply wp_ret. by replace i with k by lia.
Qed.

Lemma scl_strlcat_spec_witness :
  scl_strlcat [97; 98; 0; 9; 9; 9] [99; 100; 0] 6 = Ok ([97; 98; 99; 100; 0; 9], 6).
Proof.
  assert (forall l : list Z, Forall (fun c => c <> 0) l -> forall i, zlook l i <> Some 0) as Hnz.
  { intros l Hl i Hi. apply zlook_elem in Hi. by eapply Forall_forall in Hl. }
  rewrite (scl_strlcat_spec _ _ [97; 98] [99; 100] 6).
  - reflexivity.
  - exists [9; 9; 9]. split; [reflexivity|]. apply Hnz. by repeat constructor.
  - exists []. split; [reflexivity|]. apply Hnz. by repeat constructor.
  - vm_compute. split; discriminate.
  - reflexivity.
Defined.
