(* ===== verification/Refine.v ===== *)
(** Refinement of an abstract data type by an implementation: a step function
    that may have undefined behaviour simulates a relation on abstract states,
    and then so does every sequence of steps.  Also the replies shared by the
    containers and the lemmas on the blocks they own. *)

From S2P Require Import Prelude Core.
#[local] Open Scope Z_scope.

(** What an operation of a container answers: an error code, an element, an
    index or size, or a truth value. *)
Inductive reply (A : Type) : Type :=
| Code (e : scl_error_t)
| Value (x : A)
| Size (n : Z)
| Flag (b : bool).
Arguments Code {A} e.
Arguments Value {A} x.
Arguments Size {A} n.
Arguments Flag {A} b.

(** ** Simulation *)
Section Simulation.
Context {State Spec Op Out : Type}.
Context (step : State -> Op -> res (Out * State)).
Context (spec : Spec -> Op -> Out -> Spec -> Prop).

Fixpoint run (s : State) (ops : list Op) : res (list Out * State) :=
  match ops with
  | [] => mret ([], s)
  | o :: ops =>
      '(out, s) ← step s o;
      '(outs, s) ← run s ops;
      mret (out :: outs, s)
  end.

Inductive trace : Spec -> list Op -> list Out -> Spec -> Prop :=
| trace_nil a : trace a [] [] a
| trace_cons a o out a1 ops outs a2 :
    spec a o out a1 -> trace a1 ops outs a2 -> trace a (o :: ops) (out :: outs) a2.

(** Every step from related states returns, with a reply the specification
    allows and in related states. *)
Class Simulates (rep : State -> Spec -> Prop) : Prop :=
  sim_step : forall s a o, rep s a ->
    wp (step s o) (fun '(out, s') => exists a', spec a o out a' /\ rep s' a').

Lemma run_refines rep `{!Simulates rep} s a ops :
  rep s a -> wp (run s ops) (fun '(outs, s') => exists a', trace a ops outs a' /\ rep s' a').
Proof.
  revert s a. induction ops as [|o ops IH]; intros s a H; simpl.
  - exists a. split; [constructor|done].
  - apply wp_bind. eapply wp_mono; [by apply sim_step|]. intros [out s1] (a1 & H1 & R1).
    apply wp_bind. eapply wp_mono; [by apply IH|]. intros [outs s2] (a2 & H2 & R2).
    exists a2. split; [by econstructor|done].
Qed.

(** The same for sequences that use each operation only where it is allowed:
    [ok] is judged in every abstract state the sequence can have reached. *)
Definition permitted (ok : Spec -> Op -> Prop) (a : Spec) (ops : list Op) : Prop :=
  forall ops1 o ops2 outs a', ops = ops1 ++ o :: ops2 -> trace a ops1 outs a' -> ok a' o.

(** The same where what is allowed also depends on the state of the
    implementation. *)
Definition permitted_at (ok : State -> Spec -> Op -> Prop) (s : State) (a : Spec) (ops : list Op) : Prop :=
  forall ops1 o ops2 outs s' a', ops = ops1 ++ o :: ops2 -> run s ops1 = Ok (outs, s') -> trace a ops1 outs a' ->
    ok s' a' o.

Lemma run_refines_at (ok : State -> Spec -> Op -> Prop) (rep : State -> Spec -> Prop) s a ops :
  (forall s a o, rep s a -> ok s a o -> wp (step s o) (fun '(out, s') => exists a', spec a o out a' /\ rep s' a')) ->
  rep s a -> permitted_at ok s a ops ->
  wp (run s ops) (fun '(outs, s') => exists a', trace a ops outs a' /\ rep s' a').
Proof.
  intros Hstep. revert s a. induction ops as [|o ops IH]; intros s a H Hok; simpl.
  - exists a. split; [constructor|done].
  - assert (ok s a o) as Ho by (apply (Hok [] o ops [] s a); [done|done|constructor]).
    destruct (proj1 (wp_ok _ _) (Hstep _ _ _ H Ho)) as ([out s1] & E & a1 & H1 & R1). rewrite E, bind_Ok.
    apply wp_bind. eapply wp_mono; [apply IH; [exact R1|]|].
    { intros ops1 o' ops2 outs s' a' -> Er T. apply (Hok (o :: ops1) o' ops2 (out :: outs) s'); [done| |by econstructor].
      simpl. by rewrite E, bind_Ok, Er, bind_Ok. }
    intros [outs s2] (a2 & H2 & R2). exists a2. split; [by econstructor|done].
Qed.

Lemma run_refines_on (ok : Spec -> Op -> Prop) (rep : State -> Spec -> Prop) s a ops :
  (forall s a o, rep s a -> ok a o -> wp (step s o) (fun '(out, s') => exists a', spec a o out a' /\ rep s' a')) ->
  rep s a -> permitted ok a ops ->
  wp (run s ops) (fun '(outs, s') => exists a', trace a ops outs a' /\ rep s' a').
Proof.
  intros Hstep H Hok. apply (run_refines_at (fun _ => ok)); [done|done|].
  intros ops1 o ops2 outs s' a' E _ T. by eapply Hok.
Qed.
End Simulation.
Arguments Simulates {State Spec Op Out} step spec rep.

(** ** Blocks *)
Section Blocks.
Context {A : Type}.
Implicit Types (b : block A) (p : ptr A) (x : A).

Lemma wp_get_elem b i x (Q : A -> Prop) :
  zlook b i = Some (Some x) -> Q x -> wp (get_elem (Ptr b) i) Q.
Proof. intros H HQ. unfold get_elem, get_cell, get. by rewrite H. Qed.

Lemma wp_set_elem b i x (Q : ptr A -> Prop) :
  0 <= i < zlen b -> Q (Ptr (zupd b i (Some x))) -> wp (set_elem (Ptr b) i x) Q.
Proof. intros H HQ. unfold set_elem. wstep. by apply wp_set; [|wstep]. Qed.

Lemma zlen_fresh bytes es n (c : option A) :
  0 < es -> bytes = n * es -> 0 <= n -> zlen (fresh_cells bytes es c) = n.
Proof. intros H -> Hn. unfold fresh_cells. rewrite zlen_replicate, Z.div_mul by lia. lia. Qed.

(** A list stored in consecutive cells from the start of a block. *)
Definition stored b (l : list A) : Prop := forall i x, zlook l i = Some x -> zlook b i = Some (Some x).

Lemma stored_nil b : stored b [].
Proof. intros i x H. by rewrite zlook_nil in H. Qed.

Lemma stored_len b l : stored b l -> zlen l <= zlen b.
Proof.
  intros H. destruct (decide (zlen l = 0)); [pose proof (zlen_nonneg b); lia|].
  pose proof (zlen_nonneg l). destruct (zlook_lt l (zlen l - 1)) as [x Hx]; [lia|].
  apply H in Hx. apply zlook_Some in Hx. lia.
Qed.

Lemma stored_snoc b l x :
  zlen l < zlen b -> stored b l -> stored (zupd b (zlen l) (Some x)) (l ++ [x]).
Proof.
  intros Hl H i y Hy. rewrite zlook_app in Hy. pose proof (zlen_nonneg l).
  destruct (Z.ltb_spec i (zlen l)).
  - rewrite zlook_zupd_ne by lia. by apply H.
  - rewrite zlook_cons, zlook_nil in Hy. destruct (Z.eqb_spec (i - zlen l) 0); [|done].
    assert (i = zlen l) as -> by lia. rewrite zlook_zupd_eq by lia. by simplify_eq.
Qed.

Lemma stored_prefix b l x : stored b (l ++ [x]) -> stored b l /\ zlook b (zlen l) = Some (Some x).
Proof.
  intros H. split.
  - intros i y Hy. apply H. rewrite zlook_app. pose proof (zlook_Some _ _ _ Hy). bcase; [done|lia].
  - apply H. rewrite zlook_app. bcase; [lia|]. by rewrite Z.sub_diag.
Qed.

Lemma stored_take b l n : stored b l -> stored b (take n l).
Proof.
  intros H i x Hx. apply H. unfold zlook in *. destruct (0 <=? i); [|done].
  rewrite lookup_take in Hx. by case_decide.
Qed.

Lemma stored_app_l b b' l : stored b l -> stored (b ++ b') l.
Proof.
  intros H i x Hx. apply H in Hx. rewrite zlook_app. pose proof (zlook_Some _ _ _ Hx). by bcase; [|lia].
Qed.

Lemma stored_block b l n : stored b l -> zlen l <= n -> stored (take (Z.to_nat n) b) l.
Proof.
  intros H Hn i x Hx. rewrite zlook_take. pose proof (zlook_Some _ _ _ Hx). bcase; [by apply H|lia].
Qed.

(** Overwriting one stored element. *)
Lemma stored_update b l i x :
  0 <= i < zlen l -> stored b l -> stored (zupd b i (Some x)) (zupd l i x).
Proof.
  intros Hi H j y Hy. pose proof (stored_len _ _ H). rewrite zlook_zupd in Hy. rewrite zlook_zupd.
  repeat case_decide; try lia; [by simplify_eq|]. by apply H.
Qed.
End Blocks.

(** ** Growable blocks

    A block of [cap] elements of [es] bytes, [NULL] when [cap] is 0. *)
Definition owns {A} (p : ptr A) (cap es : Z) (l : list A) : Prop :=
  match p with
  | Null => cap = 0 /\ l = []
  | Ptr b => zlen b = cap /\ 0 < cap /\ cap * es <= PTRDIFF_MAX /\ stored b l
  | Dangling => False
  end.

(** The number of blocks a pointer owns. *)
Definition held {A} (p : ptr A) : Z := match p with Null => 0 | _ => 1 end.

Section Growable.
Context {A : Type} (al : scl_allocator_t) `{!AllocatorOk al}.
Implicit Types (p : ptr A) (l : list A) (w : world).

Lemma owns_len p cap es l : owns p cap es l -> 0 <= zlen l <= cap /\ 0 <= cap /\ (1 <= es -> cap <= PTRDIFF_MAX).
Proof.
  destruct p as [|b|]; simpl; [|intros (<- & H & H2 & S)|done].
  - intros [-> ->]. change (zlen (@nil A)) with 0. unfold PTRDIFF_MAX. lia.
  - pose proof (stored_len _ _ S). pose proof (zlen_nonneg l). unfold PTRDIFF_MAX in *. nia.
Qed.

(** The growth step of the array-backed containers:
    [new_cap = cap == 0 ? 4 : cap * 2] and [scl_realloc]. *)
Definition grow (w : world) (data : ptr A) (capacity es : Z) : res (scl_error_t * ptr A * Z * world) :=
  let new_cap := if capacity =? 0 then 4 else u64 (capacity * 2) in
  let old_bytes := u64 (capacity * es) in
  match scl_mul_overflow new_cap es with
  | None => mret (SCL_ERR_SIZE_OVERFLOW, data, capacity, w)
  | Some new_bytes =>
      '(tmp, data, w) ← scl_realloc al w data old_bytes new_bytes MAX_ALIGN es;
      match tmp with
      | None => mret (SCL_ERR_OUT_OF_MEMORY, data, capacity, w)
      | Some tmp => mret (SCL_OK, Ptr tmp, new_cap, w)
      end
  end.

(** Reallocation to a larger size keeps the contents or changes nothing. *)
Lemma wp_realloc_grow w p cap es l n (Q : option (block A) * ptr A * world -> Prop) :
  1 <= es < 2 ^ 64 -> owns p cap es l -> cap < n -> n * es < 2 ^ 64 ->
  (forall tmp p' w', owns (Ptr tmp) n es l -> w_live w' = w_live w + 1 - held p -> Q (Some tmp, p', w')) ->
  (forall w', w_live w' = w_live w -> Q (None, p, w')) ->
  wp (scl_realloc al w p (cap * es) (n * es) MAX_ALIGN es) Q.
Proof.
  intros Hes Ho Hn Hb HQ1 HQ2. pose proof (owns_len _ _ _ _ Ho).
  assert (p <> Dangling) as Hp by (intros ->; done).
  unfold scl_realloc. set (contents := match p with Ptr b => b | _ => [] end).
  set (live := match p with Ptr _ => w_live w | _ => w_live w + 1 end).
  set (ask := match p with Ptr _ => true | _ => false end).
  assert (live = w_live w + 1 - held p) as Hlive by (unfold live, held; destruct p; [lia|lia|done]).
  assert (stored contents l /\ zlen contents = cap) as [Hst Hcl].
  { unfold contents. destruct p as [|b|]; [|by destruct Ho as (? & _ & _ & ?)|done].
    destruct Ho as [-> ->]. by split; [apply stored_nil|]. }
  assert (scl_min_sz (cap * es) (n * es) = cap * es) as Hmin
    by (unfold scl_min_sz; bcase; [done|nia]).
  destruct (realloc_fn al (w_reqs w) ask (cap * es) (n * es) MAX_ALIGN) eqn:Er.
  - apply realloc_fn_ok in Er. clearbody contents live ask. destruct p as [|b|]; [| |done]; rewrite Hmin; wstep; (apply HQ1; [|exact Hlive]);
      rewrite !Z.div_mul by lia;
      (assert (take (Z.to_nat cap) contents = contents) as -> by
        (apply take_ge; unfold zlen in Hcl; lia)); simpl; unfold zlen in Hcl;
      rewrite zlen_app, zlen_replicate; unfold zlen; (split; [lia|]); (split; [lia|]); (split; [lia|]);
      by apply stored_app_l.
  - destruct p as [|b|]; [| |done]; wstep; by apply HQ2.
  - exfalso. apply realloc_fn_kept in Er; unfold SIZE_MAX in *; nia.
Qed.

Lemma wp_grow w p cap es l (Q : scl_error_t * ptr A * Z * world -> Prop) :
  1 <= es < 2 ^ 64 -> owns p cap es l -> zlen l = cap ->
  (forall b cap' w', owns (Ptr b) cap' es l -> cap < cap' -> w_live w' = w_live w + 1 - held p ->
     Q (SCL_OK, Ptr b, cap', w')) ->
  (forall e w', e = SCL_ERR_SIZE_OVERFLOW \/ e = SCL_ERR_OUT_OF_MEMORY -> w_live w' = w_live w ->
     Q (e, p, cap, w')) ->
  wp (grow w p cap es) Q.
Proof.
  intros Hes Ho Hl HQ1 HQ2. pose proof (owns_len _ _ _ _ Ho) as (_ & Hc & Hc2).
  specialize (Hc2 ltac:(lia)). unfold PTRDIFF_MAX in Hc2. unfold grow. cbv zeta.
  set (n := if cap =? 0 then 4 else _).
  assert (cap < n < 2 ^ 64) as Hn by (unfold n; bcase; [lia|rewrite u64_small by lia; lia]).
  assert (u64 (cap * es) = cap * es) as ->.
  { apply u64_small. destruct p as [|b|]; [destruct Ho as [-> _]; lia| |done].
    destruct Ho as (_ & _ & Hm & _). unfold PTRDIFF_MAX in Hm. lia. }
  rewrite scl_mul_overflow_spec by (unfold is_u64; lia).
  destruct (Z.ltb_spec (n * es) (2 ^ 64)); [|wstep; apply HQ2; auto].
  wstep. eapply (wp_realloc_grow w p cap es l n); try done; [lia| |].
  - intros tmp p' w' Ho' Hw'. wstep. apply HQ1; (done || lia).
  - intros w' Hw'. wstep. apply HQ2; auto.
Qed.

Lemma wp_free_owned w p cap es l (Q : world -> Prop) :
  owns p cap es l -> (forall w', w_live w' = w_live w - held p -> Q w') -> wp (free_ptr w p) Q.
Proof.
  intros Ho HQ. destruct p as [|b|]; [| |done]; simpl; apply HQ; simpl; lia.
Qed.

(** Allocation of an initial block, or of none. *)
Lemma owns_alloc w n es b w' :
  1 <= es -> scl_alloc al w (n * es) MAX_ALIGN es = (b, w') ->
  w_live w' = w_live w + held (to_ptr b) /\
  match b with Some b => owns (Ptr b) n es (@nil A) | None => True end.
Proof.
  intros Hes E. unfold scl_alloc in E. destruct (malloc_fn al (w_reqs w) (n * es) MAX_ALIGN) eqn:Em;
    injection E as <- <-; simpl; [|split; [lia|done]].
  apply malloc_fn_ok in Em. split; [done|].
  split; [apply zlen_fresh; (done || nia)|]. split; [nia|]. split; [lia|apply stored_nil].
Qed.
End Growable.
