(* ===== verification/SortSpec.v ===== *)
(** What sorting means: sortedness of a range, segment-local permutations,
    the reference stable sort [isort] and the uniqueness of its result. *)

From S2P Require Import Prelude.
#[local] Open Scope Z_scope.

(** The reference: insertion into a sorted list, keeping equal elements in
    order. *)
Fixpoint insert_stable {A} (cmp : A -> A -> Z) (x : A) (l : list A) : list A :=
  match l with
  | [] => [x]
  | y :: l' => if cmp x y <=? 0 then x :: y :: l' else y :: insert_stable cmp x l'
  end.
Definition isort {A} (cmp : A -> A -> Z) (l : list A) : list A :=
  foldr (insert_stable cmp) [] l.

(** [l] is in non-decreasing order. *)
Definition ordered {A} (cmp : A -> A -> Z) (l : list A) : Prop :=
  StronglySorted (fun x y => cmp x y <= 0) l.

(** The elements equal to [x], in order. *)
Definition class {A} (cmp : A -> A -> Z) (x : A) (l : list A) : list A :=
  filter (fun y => cmp x y = 0) l.

(** [l'] is [l] with equal elements in their original order. *)
Definition stable {A} (cmp : A -> A -> Z) (l l' : list A) : Prop :=
  forall x, class cmp x l' = class cmp x l.

(** Cells [lo..hi) are in order. *)
Definition srt {A} (cmp : A -> A -> Z) (l : list A) (lo hi : Z) : Prop :=
  forall i j x y, lo <= i -> i < j -> j < hi ->
    zlook l i = Some x -> zlook l j = Some y -> cmp x y <= 0.

(** [b'] is [b] with the cells [lo..hi] permuted among themselves. *)
Record seg_perm {A} (lo hi : Z) (b b' : list A) : Prop := {
  sp_perm : b' ≡ₚ b;
  sp_out : forall k, k < lo \/ hi < k -> zlook b' k = zlook b k;
  sp_in : forall k x, lo <= k <= hi -> zlook b' k = Some x ->
    exists k', lo <= k' <= hi /\ zlook b k' = Some x
}.

Section Spec.
Context {A : Type} (cmp : A -> A -> Z) `{!Comparator cmp}.
Implicit Types (l b : list A).

Lemma zlen_perm l l' : l ≡ₚ l' -> zlen l = zlen l'.
Proof. unfold zlen. by intros ->. Qed.

(** ** The index and list forms of sortedness *)
Lemma srt_ordered l : srt cmp l 0 (zlen l) -> ordered cmp l.
Proof.
  induction l as [|x l IH]; intros H; [constructor|]. constructor.
  - apply IH. intros i j y z Hi Hij Hj Hy Hz. pose proof (zlook_Some _ _ _ Hz).
    apply (H (i + 1) (j + 1)); [lia|lia|zl| |]; rewrite zlook_cons; bcase; try lia;
      [rewrite <- Hy | rewrite <- Hz]; f_equal; lia.
  - apply List.Forall_forall. intros y Hy%list_elem_of_In.
    apply elem_zlook in Hy as [j Hj]. pose proof (zlook_Some _ _ _ Hj).
    apply (H 0 (j + 1)); [lia|lia|zl|done|]. rewrite zlook_cons; bcase; [lia|].
    rewrite <- Hj. f_equal. lia.
Qed.

Lemma ordered_srt l : ordered cmp l -> srt cmp l 0 (zlen l).
Proof.
  induction 1 as [|x l Hs IH Hall]; intros i j y z Hi Hij Hj Hy Hz.
  { by rewrite zlook_nil in Hy. }
  rewrite zlook_cons in Hy, Hz. destruct (Z.eqb_spec j 0); [lia|].
  destruct (Z.eqb_spec i 0) as [->|].
  - apply zlook_elem in Hz. simplify_eq.
    rewrite List.Forall_forall in Hall. by apply Hall, list_elem_of_In.
  - apply (IH (i - 1) (j - 1)); try lia; try done. rewrite zlen_cons in Hj. lia.
Qed.

Lemma srt_ext l l' lo hi :
  (forall k, lo <= k < hi -> zlook l' k = zlook l k) -> srt cmp l lo hi -> srt cmp l' lo hi.
Proof.
  intros E H i j x y Hi Hij Hj Hx Hy. rewrite E in Hx, Hy by lia. by apply (H i j).
Qed.

Lemma srt_weaken l lo hi lo' hi' :
  lo <= lo' -> hi' <= hi -> srt cmp l lo hi -> srt cmp l lo' hi'.
Proof. intros Hlo Hhi H i j x y Hi Hij Hj. apply H; lia. Qed.

(** Extending a sorted prefix by one cell that dominates its last one. *)
Lemma srt_snoc l lo hi :
  srt cmp l lo hi ->
  (forall x y, lo < hi -> zlook l (hi - 1) = Some x -> zlook l hi = Some y -> cmp x y <= 0) ->
  srt cmp l lo (hi + 1).
Proof.
  intros H Hlast i j x y Hi Hij Hj Hx Hy.
  destruct (decide (j < hi)); [by apply (H i j)|].
  assert (j = hi) as -> by lia.
  destruct (zlook_lt l (hi - 1)) as [z Hz].
  { apply zlook_Some in Hx, Hy. lia. }
  destruct (decide (i = hi - 1)) as [->|]; [by apply Hlast; [lia| |]|].
  apply (cmp_trans cmp x z y); [apply (H i (hi - 1)); try done; lia|apply Hlast; try done; lia].
Qed.

Lemma srt_cat l lo mid hi :
  srt cmp l lo mid -> srt cmp l mid hi ->
  (forall i j x y, lo <= i < mid -> mid <= j < hi ->
     zlook l i = Some x -> zlook l j = Some y -> cmp x y <= 0) ->
  srt cmp l lo hi.
Proof.
  intros H1 H2 H i j x y Hi Hij Hj Hx Hy.
  destruct (decide (j < mid)); [by apply (H1 i j)|].
  destruct (decide (mid <= i)); [by apply (H2 i j)|]. apply (H i j); try done; lia.
Qed.

(** ** Segment permutations *)
Lemma seg_perm_refl lo hi b : seg_perm lo hi b b.
Proof. split; eauto. Qed.

Lemma seg_perm_trans lo hi b1 b2 b3 :
  seg_perm lo hi b1 b2 -> seg_perm lo hi b2 b3 -> seg_perm lo hi b1 b3.
Proof.
  intros [P1 O1 I1] [P2 O2 I2]. split.
  - by rewrite P2.
  - intros k Hk. by rewrite O2, O1.
  - intros k x Hk Hx. destruct (I2 k x Hk Hx) as (k' & Hk' & E). eauto.
Qed.

Lemma seg_perm_weaken lo hi lo' hi' b b' :
  lo' <= lo -> hi <= hi' -> seg_perm lo hi b b' -> seg_perm lo' hi' b b'.
Proof.
  intros H1 H2 [P O I]. split; [done| |].
  - intros k Hk. apply O. lia.
  - intros k x Hk Hx. destruct (decide (lo <= k <= hi)) as [Hin|].
    + destruct (I k x Hin Hx) as (k' & Hk' & E). exists k'. split; [lia|done].
    + exists k. split; [done|]. rewrite <- O; [done|lia].
Qed.

Lemma seg_perm_len lo hi b b' : seg_perm lo hi b b' -> zlen b' = zlen b.
Proof. intros [P _ _]. by apply zlen_perm. Qed.

(** An exchange inside a segment. *)
Lemma wp_swap_seg lo hi (b : list A) i j (Q : list A -> Prop) :
  0 <= i < zlen b -> 0 <= j < zlen b -> lo <= i <= hi -> lo <= j <= hi ->
  (forall b', seg_perm lo hi b b' ->
     (forall k, zlook b' k = if decide (k = i) then zlook b j
                             else if decide (k = j) then zlook b i else zlook b k) ->
     Q b') ->
  wp (swap b i j) Q.
Proof.
  intros Hi Hj Hil Hjl HQ. apply wp_swap; [done|done|]. intros b' _ P L.
  apply HQ; [|done]. split; [done| |].
  - intros k Hk. rewrite L. by repeat (case_decide; [lia|]).
  - intros k x Hk. rewrite L. repeat case_decide; eauto.
Qed.

(** ** Split points: everything before [k] is at most everything after. *)
Definition split_at (b : list A) (k : Z) : Prop :=
  forall p q x y, p < k -> k <= q -> zlook b p = Some x -> zlook b q = Some y -> cmp x y <= 0.

Lemma split_all_srt b : (forall k, 0 < k < zlen b -> split_at b k) -> srt cmp b 0 (zlen b).
Proof. intros H i j x y Hi Hij Hj Hx Hy. apply (H j) with i j; zside. Qed.

Lemma split_at_out b k : k <= 0 \/ zlen b <= k -> split_at b k.
Proof. intros Hk p q x y Hp Hq Hx%zlook_Some Hy%zlook_Some. lia. Qed.

Lemma split_at_seg b b' k lo hi :
  split_at b k -> seg_perm lo hi b b' -> k <= lo \/ hi < k -> split_at b' k.
Proof.
  intros H [_ O I] Hk p q x y Hp Hq Hx Hy.
  assert (forall c z, zlook b' c = Some z -> exists c', zlook b c' = Some z /\
            (c < k -> c' < k) /\ (k <= c -> k <= c')) as Hc.
  { intros c z Hz. destruct (decide (lo <= c <= hi)) as [Hin|Hn].
    - destruct (I c z Hin Hz) as (c' & Hc' & E). exists c'. split; [done|lia].
    - exists c. split; [|lia]. rewrite <- O; [done|lia]. }
  destruct (Hc p x Hx) as (p' & Hx' & Hp' & _). destruct (Hc q y Hy) as (q' & Hy' & _ & Hq').
  apply (H p' q'); auto.
Qed.

(** A cell that dominates the segment before it extends a split point. *)
Lemma split_at_max b k :
  split_at b (k + 1) ->
  (forall p x y, p < k -> zlook b p = Some x -> zlook b k = Some y -> cmp x y <= 0) ->
  split_at b k.
Proof.
  intros H Hm p q x y Hp Hq Hx Hy. destruct (decide (q = k)) as [->|].
  - by apply (Hm p).
  - apply (H p q); zside.
Qed.

(** A cell that is below the segment after it extends a split point. *)
Lemma split_at_min b k :
  split_at b k ->
  (forall q x y, k < q -> zlook b k = Some x -> zlook b q = Some y -> cmp x y <= 0) ->
  split_at b (k + 1).
Proof.
  intros H Hm p q x y Hp Hq Hx Hy. destruct (decide (p = k)) as [->|].
  - apply (Hm q); zside.
  - apply (H p q); zside.
Qed.

(** ** The reference sort *)
Lemma insert_stable_perm x l : insert_stable cmp x l ≡ₚ x :: l.
Proof.
  induction l as [|y l IH]; simpl; [done|]. case_match; [done|]. rewrite IH. constructor.
Qed.

Lemma isort_perm l : isort cmp l ≡ₚ l.
Proof. induction l as [|x l IH]; simpl; [done|]. by rewrite insert_stable_perm, IH. Qed.

Lemma insert_stable_ordered x l : ordered cmp l -> ordered cmp (insert_stable cmp x l).
Proof.
  induction 1 as [|y l Hs IH Hall]; simpl.
  { by repeat constructor. }
  destruct (Z.leb_spec (cmp x y) 0).
  - constructor; [by constructor|]. constructor; [done|].
    eapply Forall_impl; [done|]. intros z Hz. by eapply cmp_trans.
  - constructor; [done|]. rewrite insert_stable_perm. constructor; [|done].
    destruct (cmp_total cmp x y); lia.
Qed.

Lemma isort_ordered l : ordered cmp (isort cmp l).
Proof. induction l as [|x l IH]; simpl; [constructor|]. by apply insert_stable_ordered. Qed.

(** ** Stability *)
Lemma class_app x l l' : class cmp x (l ++ l') = class cmp x l ++ class cmp x l'.
Proof. apply filter_app. Qed.

Lemma insert_stable_class z x l :
  ordered cmp l -> class cmp z (insert_stable cmp x l) = class cmp z (x :: l).
Proof.
  unfold class. induction 1 as [|y l Hs IH Hall]; [done|]. cbn [insert_stable].
  destruct (Z.leb_spec (cmp x y) 0); [done|].
  rewrite !filter_cons in *. rewrite IH. repeat case_decide; try done.
  assert (cmp y x < 0) by (apply cmp_sym; done).
  pose proof (cmp_le_lt_trans cmp z y x ltac:(lia) ltac:(done)). lia.
Qed.

Lemma isort_stable l : stable cmp l (isort cmp l).
Proof.
  intros x. induction l as [|y l IH]; [done|]. simpl.
  rewrite insert_stable_class by apply isort_ordered.
  unfold class in *. rewrite !filter_cons. by rewrite IH.
Qed.

(** A sorted, stable rearrangement is unique. *)
Lemma stable_ordered_unique l1 l2 :
  ordered cmp l1 -> ordered cmp l2 -> stable cmp l1 l2 -> l1 = l2.
Proof.
  intros H1. revert l2. induction H1 as [|a l1 Hs1 IH Ha]; intros l2 H2 Hst.
  { destruct l2 as [|b l2]; [done|]. specialize (Hst b). unfold class in Hst.
    rewrite filter_cons_True in Hst by apply (cmp_refl cmp). done. }
  destruct H2 as [|b l2 Hs2 Hb].
  { specialize (Hst a). unfold class in Hst.
    rewrite filter_cons_True in Hst by apply (cmp_refl cmp). done. }
  assert (forall x y l l', Forall (fun z => cmp x z <= 0) l -> stable cmp (x :: l) (y :: l') ->
            cmp x y <= 0) as Hmin.
  { intros x y l l' Hx Hxy. specialize (Hxy y). unfold class in Hxy.
    rewrite filter_cons_True in Hxy by apply (cmp_refl cmp).
    assert (y ∈ filter (fun z => cmp y z = 0) (x :: l)) as Hin by (rewrite <- Hxy; left).
    apply list_elem_of_filter in Hin as [Hc Hin]. apply elem_of_cons in Hin as [->|Hin].
    - by rewrite (cmp_refl cmp).
    - rewrite Forall_forall in Hx. by apply Hx. }
  assert (cmp a b <= 0) as Hab by by eapply Hmin.
  assert (cmp b a <= 0) as Hba by (eapply (Hmin b a l2 l1); [done|intros x; by rewrite Hst]).
  assert (cmp a b = 0) as E by (apply (cmp_le_ge cmp) in Hba; lia).
  assert (a = b) as ->.
  { pose proof (Hst a) as Hc. unfold class in Hc.
    rewrite !filter_cons_True in Hc by (done || apply (cmp_refl cmp)). congruence. }
  f_equal. apply IH; [done|]. intros x. specialize (Hst x). unfold class in *.
  rewrite !filter_cons in Hst. case_decide; congruence.
Qed.

(** Exchanging two neighbours that are strictly out of order keeps every
    class of equal elements in order. *)
Lemma stable_adjacent_swap l l' j x y :
  zlook l (j - 1) = Some y -> zlook l j = Some x -> cmp x y < 0 ->
  (forall k, zlook l' k = if decide (k = j) then zlook l (j - 1)
                          else if decide (k = j - 1) then zlook l j else zlook l k) ->
  stable cmp l l'.
Proof.
  intros Hy Hx Hlt L. pose proof (zlook_Some _ _ _ Hy). pose proof (zlook_Some _ _ _ Hx).
  set (p := take (Z.to_nat (j - 1)) l). set (q := drop (Z.to_nat (j + 1)) l).
  assert (l = p ++ y :: x :: q) as E.
  { subst p q. zlist_ext; try congruence; rewrite <- ?Hx, <- ?Hy; f_equal; lia. }
  assert (l' = p ++ x :: y :: q) as E'.
  { subst p q. apply zlook_ext; intros k. rewrite L. zcells; try congruence;
      rewrite <- ?Hx, <- ?Hy; f_equal; lia. }
  rewrite E, E'. intros z. rewrite !class_app. f_equal. unfold class.
  rewrite !filter_cons. repeat case_decide; try done.
  assert (cmp y z = 0) by by apply (cmp_eq_sym cmp).
  assert (cmp x z = 0) by by apply (cmp_eq_sym cmp).
  pose proof (cmp_trans cmp y z x ltac:(lia) ltac:(lia)).
  apply (cmp_sym cmp) in Hlt. lia.
Qed.

Lemma stable_trans l1 l2 l3 : stable cmp l1 l2 -> stable cmp l2 l3 -> stable cmp l1 l3.
Proof. intros H1 H2 x. by rewrite H2. Qed.

Lemma isort_unique l l' : ordered cmp l' -> stable cmp l l' -> l' = isort cmp l.
Proof.
  intros Ho Hst. apply stable_ordered_unique; [done|apply isort_ordered|].
  intros x. rewrite isort_stable. by rewrite Hst.
Qed.
End Spec.

#[export] Hint Resolve seg_perm_refl : scl.

(** Concrete arrays of integers are checked to be in order by evaluation. *)
Lemma ordered_dec {A} (cmp : A -> A -> Z) l :
  forallb (fun '(x, y) => cmp x y <=? 0) (flat_map (fun n => match drop n l with
     | [] => [] | x :: l' => map (pair x) l' end) (seq 0 (length l))) = true -> ordered cmp l.
Proof.
  induction l as [|x l IH]; intros H; [constructor|]. cbn [length seq flat_map drop] in H.
  rewrite forallb_app in H. apply andb_prop in H as [H1 H2]. constructor.
  - apply IH. rewrite <- seq_shift in H2. rewrite flat_map_concat_map, map_map, <- flat_map_concat_map in H2.
    exact H2.
  - apply Forall_forall. intros y Hy. rewrite forallb_forall in H1.
    apply (Z.leb_le (cmp x y) 0), (H1 (x, y)). apply in_map. by apply list_elem_of_In.
Qed.
Ltac zordered := apply ordered_dec; vm_compute; reflexivity.
