(* ===== verification/ByteSwap.v ===== *)
(** The byte loops that exchange two elements: the word-wise
    [scl_sort_swap] of [libs/sort/scl_sort.c] (also [scl_heap_swap] of
    [libs/structures/heap/scl_heap.c]), the byte-wise [swap] of the
    per-algorithm sort files and [swap_elements] of quickselect, and the proof
    that they implement [Prelude.swap] on the array of elements. *)

From S2P Require Import Prelude.
#[local] Open Scope Z_scope.

(** Reading and writing [n] bytes of a memory. *)
Definition load (mem : list Z) (a n : Z) : res (list Z) :=
  if (0 <=? a) && (a + n <=? zlen mem)
  then mret (take (Z.to_nat n) (drop (Z.to_nat a) mem)) else UB.
Definition store (mem : list Z) (a : Z) (bytes : list Z) : res (list Z) :=
  if (0 <=? a) && (a + zlen bytes <=? zlen mem)
  then mret (take (Z.to_nat a) mem ++ bytes ++ drop (Z.to_nat (a + zlen bytes)) mem) else UB.

(** [memcpy(&t, a, n); memcpy(a, b, n); memcpy(b, &t, n)]. *)
Definition swap_chunk (mem : list Z) (a b n : Z) : res (list Z) :=
  t ← load mem a n;
  u ← load mem b n;
  mem ← store mem a u;
  store mem b t.

(** [if (n & c) { exchange c bytes; a += c; b += c; }]. *)
Definition swap_if (mem : list Z) (a b n c : Z) : res (list Z * Z * Z) :=
  if negb (Z.land n c =? 0) then
    mem ← swap_chunk mem a b c; mret (mem, a + c, b + c)
  else mret (mem, a, b).

Definition scl_sort_swap (mem : list Z) (a b n : Z) : res (list Z) :=
  '(mem, a, b, n) ← loop (S (Z.to_nat n))
    (fun '(mem, a, b, n) =>
       if n >=? 8 then
         mem ← swap_chunk mem a b 8; mret (inl (mem, a + 8, b + 8, n - 8))
       else mret (inr (mem, a, b, n)))
    (mem, a, b, n);
  '(mem, a, b) ← swap_if mem a b n 4;
  '(mem, a, b) ← swap_if mem a b n 2;
  if negb (Z.land n 1 =? 0) then
    t ← get mem a; u ← get mem b; mem ← set mem a u; set mem b t
  else mret mem.

(** [while (element_size--) { t = *a; *a++ = *b; *b++ = t; }]. *)
Definition swap_bytes (mem : list Z) (a b element_size : Z) : res (list Z) :=
  '(mem, _, _) ← zfor 0 element_size
    (fun _ '(mem, a, b) =>
       t ← get mem a; u ← get mem b; mem ← set mem a u; mem ← set mem b t;
       mret (mem, a + 1, b + 1)) (mem, a, b);
  mret mem.

(** [swap_elements] of quickselect: the same by index, nothing when [a == b]. *)
Definition swap_elements (mem : list Z) (a b elem_size : Z) : res (list Z) :=
  if a =? b then mret mem
  else
    zfor 0 elem_size
      (fun i mem =>
         t ← get mem (a + i); u ← get mem (b + i);
         mem ← set mem (a + i) u; set mem (b + i) t) mem.

(** * Theorems *)

(** [m'] is [m] with the [n] bytes at [a] and at [b] exchanged. *)
Definition exchanged (m m' : list Z) (a b n : Z) : Prop :=
  forall k, zlook m' k =
    if (a <=? k) && (k <? a + n) then zlook m (b + (k - a))
    else if (b <=? k) && (k <? b + n) then zlook m (a + (k - b)) else zlook m k.

(** Two regions of [n] bytes of the memory that do not overlap. *)
Definition regions (m : list Z) (a b n : Z) : Prop :=
  0 <= n /\ 0 <= a /\ a + n <= zlen m /\ 0 <= b /\ b + n <= zlen m /\ (a + n <= b \/ b + n <= a).

Ltac bcases := repeat (bcase; simpl; try lia).

Lemma exchanged_nil m a b : exchanged m m a b 0.
Proof. intros k. bcases; done. Qed.

Lemma exchanged_len m m' a b n : regions m a b n -> exchanged m m' a b n -> zlen m' = zlen m.
Proof.
  intros (Hn & Ha & Ha' & Hb & Hb' & Hd) H.
  assert (forall k, is_Some (zlook m' k) <-> is_Some (zlook m k)) as E.
  { intros k. rewrite H. assert (forall i, is_Some (zlook m i) <-> 0 <= i < zlen m) as Hs.
    { intros i. split; [intros [x Hx]; by eapply zlook_Some|apply zlook_lt]. }
    rewrite <- ?Hs. bcases; rewrite !Hs; lia. }
  pose proof (zlen_nonneg m). pose proof (zlen_nonneg m').
  destruct (Z.lt_trichotomy (zlen m') (zlen m)) as [Hl|[Hl|Hl]]; [|done|].
  - destruct (zlook_lt m (zlen m')) as [x Hx]; [lia|].
    destruct (proj2 (E (zlen m')) ltac:(eauto)) as [y Hy]. apply zlook_Some in Hy. lia.
  - destruct (zlook_lt m' (zlen m)) as [x Hx]; [lia|].
    destruct (proj1 (E (zlen m)) ltac:(eauto)) as [y Hy]. apply zlook_Some in Hy. lia.
Qed.

(** Exchanging one chunk and then the rest. *)
Lemma exchanged_app m m1 m2 a b c n :
  regions m a b (c + n) -> 0 <= c -> 0 <= n ->
  exchanged m m1 a b c -> exchanged m1 m2 (a + c) (b + c) n -> exchanged m m2 a b (c + n).
Proof.
  intros (Hn & Ha & Ha' & Hb & Hb' & Hd) Hc Hn' H1 H2 k. rewrite H2.
  bcases; rewrite H1; bcases; try done; f_equal; lia.
Qed.

Lemma wp_load m a n (Q : list Z -> Prop) :
  0 <= n -> 0 <= a -> a + n <= zlen m ->
  (forall t, zlen t = n ->
     (forall k, zlook t k = if (0 <=? k) && (k <? n) then zlook m (a + k) else None) -> Q t) ->
  wp (load m a n) Q.
Proof.
  intros Hn Ha Hb HQ. unfold load.
  destruct (Z.leb_spec 0 a), (Z.leb_spec (a + n) (zlen m)); try lia.
  apply HQ; [autorewrite with zlk; lia|]. intros k. autorewrite with zlk. bcases; done.
Qed.

Lemma wp_store m a t (Q : list Z -> Prop) :
  0 <= a -> a + zlen t <= zlen m ->
  (forall m', zlen m' = zlen m ->
     (forall k, zlook m' k = if (a <=? k) && (k <? a + zlen t) then zlook t (k - a)
                             else zlook m k) -> Q m') ->
  wp (store m a t) Q.
Proof.
  intros Ha Hb HQ. pose proof (zlen_nonneg t). unfold store.
  destruct (Z.leb_spec 0 a), (Z.leb_spec (a + zlen t) (zlen m)); try lia.
  apply HQ; [autorewrite with zlk zl; lia|].
  intros k. autorewrite with zlk zl. bcases; try done; f_equal; lia.
Qed.

Lemma wp_swap_chunk m a b n (Q : list Z -> Prop) :
  regions m a b n -> (forall m', exchanged m m' a b n -> Q m') -> wp (swap_chunk m a b n) Q.
Proof.
  intros (Hn & Ha & Ha' & Hb & Hb' & Hd) HQ. unfold swap_chunk.
  wstep. apply wp_load; [lia|lia|lia|]. intros t Lt Et.
  wstep. apply wp_load; [lia|lia|lia|]. intros u Lu Eu.
  wstep. apply wp_store; [lia|lia|]. intros m1 L1 E1.
  apply wp_store; [lia|lia|]. intros m2 L2 E2. apply HQ. intros k.
  rewrite E2, E1, Et, Eu, Lt, Lu. bcases; try done; f_equal; lia.
Qed.

Lemma wp_swap_byte m a b (Q : list Z -> Prop) :
  regions m a b 1 -> (forall m', exchanged m m' a b 1 -> Q m') ->
  wp (t ← get m a; u ← get m b; m ← set m a u; set m b t) Q.
Proof.
  intros (Hn & Ha & Ha' & Hb & Hb' & Hd) HQ. apply wp_swap; [lia|lia|].
  intros m' _ _ E. apply HQ. intros k. rewrite E.
  bcases; repeat case_decide; try lia; try done; f_equal; lia.
Qed.

Lemma regions_sub m m' a b n c n' :
  regions m a b n -> zlen m' = zlen m -> 0 <= c -> 0 <= n' -> c + n' <= n ->
  regions m' (a + c) (b + c) n'.
Proof. unfold regions. lia. Qed.

Lemma wp_swap_if m0 m a b n c d (Q : list Z * Z * Z -> Prop) :
  regions m0 a b (d + n) -> 0 <= d -> 0 <= n -> (c = 4 \/ c = 2) -> n < 2 * c ->
  exchanged m0 m a b d ->
  (forall m' d', exchanged m0 m' a b d' -> d' + n mod c = d + n -> 0 <= d' ->
     Q (m', a + d', b + d')) ->
  wp (swap_if m (a + d) (b + d) n c) Q.
Proof.
  intros R Hd Hn Hc Hnc E HQ. unfold swap_if.
  assert (regions m0 a b d) as Rd by (unfold regions in *; lia).
  pose proof (exchanged_len _ _ _ _ _ Rd E) as EL.
  assert (Z.land n c = n - n mod c) as Hland.
  { assert (n = 0 \/ n = 1 \/ n = 2 \/ n = 3 \/ n = 4 \/ n = 5 \/ n = 6 \/ n = 7) as Hcase by lia.
    destruct Hc as [-> | ->]; destruct Hcase as [->|[->|[->|[->|[->|[->|[->| ->]]]]]]]; try done; lia. }
  rewrite Hland. destruct (Z.eqb_spec (n - n mod c) 0) as [Hz|Hz]; cbn [negb].
  - wstep. apply HQ; [done|lia|lia].
  - assert (c <= n /\ n mod c = n - c) as [Hle Hm].
    { destruct (Z.lt_ge_cases n c); [rewrite Z.mod_small in Hz; lia|].
      split; [done|]. symmetry. apply (Z.mod_unique_pos n c 1); lia. }
    wstep. apply wp_swap_chunk; [by eapply (regions_sub m0); [exact R|exact EL|lia|lia|lia]|].
    intros m' E'. wstep. replace (a + d + c) with (a + (d + c)) by lia.
    replace (b + d + c) with (b + (d + c)) by lia.
    apply HQ; [|lia|lia]. eapply exchanged_app; [|lia| |done|done]; [|lia].
    unfold regions in *. lia.
Qed.

Lemma wp_scl_sort_swap m a b n (Q : list Z -> Prop) :
  regions m a b n -> (forall m', exchanged m m' a b n -> Q m') -> wp (scl_sort_swap m a b n) Q.
Proof.
  intros R HQ. assert (0 <= n) as Hn by apply R. unfold scl_sort_swap. wstep.
  apply (wp_loop (fun '(m', a', b', n') => exists d, 0 <= d /\ 0 <= n' /\ d + n' = n /\
      a' = a + d /\ b' = b + d /\ exchanged m m' a b d) (fun '(_, _, _, n') => n')); [|lia|lia|].
  { exists 0. rewrite !Z.add_0_r. split; [done|]. split; [done|]. split; [done|]. split; [done|].
    split; [done|]. apply exchanged_nil. }
  intros [[[m' a'] b'] n'] (d & Hd & Hn' & E & -> & -> & X). rewrite Z.geb_leb.
  assert (regions m a b d) as Rd by (unfold regions in *; lia).
  pose proof (exchanged_len _ _ _ _ _ Rd X) as EL.
  destruct (Z.leb_spec 8 n').
  - wstep. apply wp_swap_chunk; [by eapply regions_sub; [exact R|done|lia|lia|lia]|].
    intros m2 X2. wstep. split; [|lia]. exists (d + 8). split; [lia|]. split; [lia|].
    split; [lia|]. split; [lia|]. split; [lia|].
    eapply exchanged_app; [|lia| |done|done]; [|lia]. unfold regions in *. lia.
  - wstep. wstep. apply (wp_swap_if m _ _ _ n'); [by rewrite E|lia|lia|by left|lia|done|].
    intros m4 d4 X4 E4 H4. wstep.
    assert (wp (swap_if m4 (a + d4) (b + d4) n' 2) (fun '(m2, a2, b2) => exists d2,
      exchanged m m2 a b d2 /\ d2 + n' mod 2 = n /\ 0 <= d2 /\ a2 = a + d2 /\ b2 = b + d2))
      as Hx; [|eapply wp_mono; [exact Hx|]].
    { assert (swap_if m4 (a + d4) (b + d4) n' 2 = swap_if m4 (a + d4) (b + d4) (n' mod 4) 2) as ->.
      { unfold swap_if. replace (Z.land n' 2) with (Z.land (n' mod 4) 2); [done|].
        assert (n' = 0 \/ n' = 1 \/ n' = 2 \/ n' = 3 \/ n' = 4 \/ n' = 5 \/ n' = 6 \/ n' = 7)
          as Hc by lia. by destruct Hc as [->|[->|[->|[->|[->|[->|[->| ->]]]]]]]. }
      assert (n' mod 4 < 4 /\ 0 <= n' mod 4 /\ (n' mod 4) mod 2 = n' mod 2) as (H41 & H42 & H43)
        by zdiv.
      apply (wp_swap_if m _ _ _ (n' mod 4)); [by rewrite E4, E|lia|lia|by right|lia|done|].
      intros m2 d2 X2 E2 H2. exists d2. split; [done|]. split; [lia|]. split; [lia|]. done. }
    intros [[m2 a2] b2] (d2 & X2 & E2 & H2 & -> & ->).
    assert (Z.land n' 1 = n' mod 2) as Hl1 by (change 1 with (Z.ones 1); by rewrite Z.land_ones).
    assert (regions m a b d2) as Rd2 by (assert (0 <= n' mod 2) by zdiv; unfold regions in *; lia).
    pose proof (exchanged_len _ _ _ _ _ Rd2 X2) as EL2.
    rewrite Hl1. destruct (Z.eqb_spec (n' mod 2) 0) as [Hz|Hz]; cbn [negb].
    + wstep. apply HQ. by replace n with d2 by lia.
    + assert (n' mod 2 = 1) by zdiv.
      apply wp_swap_byte; [eapply regions_sub; [exact R|done|lia|lia|lia]|]. intros m1 X1. apply HQ.
      replace n with (d2 + 1) by lia. eapply exchanged_app; [|lia| |done|done]; [|lia].
      unfold regions in *. lia.
Qed.

Lemma wp_swap_bytes m a b n (Q : list Z -> Prop) :
  regions m a b n -> (forall m', exchanged m m' a b n -> Q m') -> wp (swap_bytes m a b n) Q.
Proof.
  intros R HQ. assert (0 <= n) as Hn by apply R. unfold swap_bytes. wstep.
  apply (wp_zfor (fun i '(m', a', b') => a' = a + i /\ b' = b + i /\ exchanged m m' a b i)).
  - split; [lia|]. split; [lia|apply exchanged_nil].
  - intros i [[m' a'] b'] Hi (-> & -> & X).
    assert (regions m a b i) as Ri by (unfold regions in *; lia).
    pose proof (exchanged_len _ _ _ _ _ Ri X) as EL.
    enough (wp (t ← get m' (a + i); u ← get m' (b + i); m ← set m' (a + i) u; set m (b + i) t)
      (fun m2 => exchanged m m2 a b (i + 1))) as Hw.
    { unfold get, set in *. destruct (zlook m' (a + i)), (zlook m' (b + i)); simpl in *; try done.
      destruct (_ && _); simpl in *; try done. destruct (_ && _); simpl in *; try done.
      split; [lia|]. split; [lia|done]. }
    apply wp_swap_byte; [eapply regions_sub; [exact R|exact EL|lia|lia|lia]|]. intros m2 X2.
    eapply exchanged_app; [|lia|lia|done|done]. unfold regions in *. lia.
  - intros [[m' a'] b'] (_ & _ & X). wstep. apply HQ. by replace n with (Z.max 0 n) by lia.
Qed.

Lemma wp_swap_elements m a b n (Q : list Z -> Prop) :
  regions m a b n -> a <> b -> (forall m', exchanged m m' a b n -> Q m') ->
  wp (swap_elements m a b n) Q.
Proof.
  intros R Hab HQ. assert (0 <= n) as Hn by apply R. unfold swap_elements.
  destruct (Z.eqb_spec a b); [done|].
  apply (wp_zfor (fun i m' => exchanged m m' a b i)).
  - apply exchanged_nil.
  - intros i m' Hi X. assert (regions m a b i) as Ri by (unfold regions in *; lia).
    pose proof (exchanged_len _ _ _ _ _ Ri X) as EL.
    apply wp_swap_byte; [eapply regions_sub; [exact R|exact EL|lia|lia|lia]|]. intros m2 X2.
    eapply exchanged_app; [|lia|lia|done|done]. unfold regions in *. lia.
  - intros m' X. apply HQ. by replace n with (Z.max 0 n) by lia.
Qed.

(** ** Arrays of elements as byte arrays *)
Definition sized (es : Z) (l : list (list Z)) : Prop := Forall (fun x => zlen x = es) l.

Lemma zlen_concat es l : sized es l -> zlen (concat l) = zlen l * es.
Proof. induction 1 as [|x l Hx Hl IH]; [done|]. simpl. rewrite zlen_app, zlen_cons, IH. lia. Qed.

Lemma zlook_concat es l i x k :
  sized es l -> zlook l i = Some x -> 0 <= k < es -> zlook (concat l) (i * es + k) = zlook x k.
Proof.
  intros Hl. revert i. induction Hl as [|y l Hy Hl IH]; intros i Hi Hk.
  { by rewrite zlook_nil in Hi. }
  pose proof (zlook_Some _ _ _ Hi). rewrite zlook_cons in Hi. simpl. rewrite zlook_app, Hy.
  destruct (Z.eqb_spec i 0) as [Ei|Ei].
  - subst i. simplify_eq. destruct (Z.ltb_spec (0 * zlen x + k) (zlen x)); [f_equal; lia|lia].
  - destruct (Z.ltb_spec (i * es + k) es); [nia|].
    replace (i * es + k - es) with ((i - 1) * es + k) by lia. by apply IH.
Qed.

Lemma sized_lookup es l i x : sized es l -> zlook l i = Some x -> zlen x = es.
Proof. intros H Hx%zlook_elem. unfold sized in H. rewrite Forall_forall in H. by apply H. Qed.

Lemma sized_perm es l l' : l' ≡ₚ l -> sized es l -> sized es l'.
Proof. unfold sized. by intros ->. Qed.

(** Exchanging two elements exchanges their bytes. *)
Lemma swap_exchanged es l l' i j :
  0 < es -> sized es l -> 0 <= i < zlen l -> 0 <= j < zlen l -> i <> j -> l' ≡ₚ l ->
  (forall k, zlook l' k = if decide (k = i) then zlook l j
                          else if decide (k = j) then zlook l i else zlook l k) ->
  exchanged (concat l) (concat l') (i * es) (j * es) es.
Proof.
  intros Hes Hl Hi Hj Hij P E k. pose proof (sized_perm _ _ _ P Hl) as Hl'.
  assert (zlen (concat l') = zlen (concat l)) as EL.
  { rewrite !(zlen_concat es) by done. unfold zlen. by rewrite P. }
  destruct (decide (0 <= k < zlen (concat l))) as [Hk|Hk].
  2:{ rewrite (zlen_concat es) in * by done.
      assert (zlook (concat l') k = None /\ zlook (concat l) k = None) as [-> ->].
      { split; (destruct (decide (k < 0)); [by apply zlook_neg|]);
          apply zlook_ge; rewrite (zlen_concat es) by done; unfold zlen in *; rewrite ?P; lia. }
      bcases; try done; nia. }
  rewrite (zlen_concat es) in Hk by done. clear EL.
  assert (exists q r, k = q * es + r /\ 0 <= r < es) as (q & r & -> & Hr).
  { exists (k / es), (k mod es). pose proof (Z.div_mod k es ltac:(lia)).
    pose proof (Z.mod_pos_bound k es Hes). lia. }
  assert (0 <= q < zlen l) as Hq by nia.
  assert (zlen l' = zlen l) as L by (unfold zlen; by rewrite P).
  destruct (zlook_lt l' q) as [x Hx]; [lia|].
  rewrite (zlook_concat es l' q x r) by done. rewrite E in Hx.
  destruct (decide (q = i)) as [->|Hqi].
  - destruct (Z.leb_spec (i * es) (i * es + r)), (Z.ltb_spec (i * es + r) (i * es + es)); try lia.
    simpl. replace (j * es + (i * es + r - i * es)) with (j * es + r) by lia.
    by rewrite (zlook_concat es l j x r).
  - assert ((i * es <=? q * es + r) && (q * es + r <? i * es + es) = false) as ->.
    { destruct (Z.leb_spec (i * es) (q * es + r)), (Z.ltb_spec (q * es + r) (i * es + es)); try done.
      nia. }
    destruct (decide (q = j)) as [->|Hqj].
    + destruct (Z.leb_spec (j * es) (j * es + r)), (Z.ltb_spec (j * es + r) (j * es + es)); try lia.
      simpl. replace (i * es + (j * es + r - j * es)) with (i * es + r) by lia.
      by rewrite (zlook_concat es l i x r).
    + assert ((j * es <=? q * es + r) && (q * es + r <? j * es + es) = false) as ->.
      { destruct (Z.leb_spec (j * es) (q * es + r)), (Z.ltb_spec (q * es + r) (j * es + es)); try done.
        nia. }
      by rewrite (zlook_concat es l q x r).
Qed.

(** The word-wise exchange of [scl_sort.c], the byte-wise [swap] of the
    per-algorithm files and [swap_elements] of quickselect implement the
    exchange of elements [i] and [j] of an array of [es]-byte elements, for
    every element size: they never leave the array and leave exactly the bytes
    of the array of exchanged elements. *)
Theorem byte_swaps_exchange (l : list (list Z)) (es i j : Z)
  (Hes : 0 < es) (Hl : sized es l) (Hi : 0 <= i < zlen l) (Hj : 0 <= j < zlen l) (Hij : i <> j) :
  exists l', swap l i j = Ok l' /\
    scl_sort_swap (concat l) (i * es) (j * es) es = Ok (concat l') /\
    swap_bytes (concat l) (i * es) (j * es) es = Ok (concat l') /\
    swap_elements (concat l) (i * es) (j * es) es = Ok (concat l').
Proof.
  assert (wp (swap l i j) (fun l' => exchanged (concat l) (concat l') (i * es) (j * es) es))
    as (l' & -> & X)%wp_ok.
  { apply wp_swap; [done|done|]. intros l' _ P E. by apply swap_exchanged. }
  exists l'. split; [done|].
  assert (regions (concat l) (i * es) (j * es) es) as R.
  { unfold regions. rewrite (zlen_concat es) by done. repeat split; nia. }
  assert (forall m, wp m (fun m' => exchanged (concat l) m' (i * es) (j * es) es) ->
            m = Ok (concat l')) as Hdet.
  { intros m (m' & -> & X')%wp_ok. f_equal. apply zlook_ext. intros k. by rewrite X', X. }
  split; [apply Hdet, wp_scl_sort_swap; auto|].
  split; [apply Hdet, wp_swap_bytes; auto|].
  apply Hdet, wp_swap_elements; [done|nia|auto].
Qed.

Lemma byte_swaps_exchange_witness :
  exists l', swap [[1; 2; 3]; [4; 5; 6]; [7; 8; 9]] 0 2 = Ok l' /\
    scl_sort_swap [1; 2; 3; 4; 5; 6; 7; 8; 9] 0 6 3 = Ok (concat l').
Proof.
  destruct (byte_swaps_exchange [[1; 2; 3]; [4; 5; 6]; [7; 8; 9]] 3 0 2) as (l' & E1 & E2 & _).
  - lia.
  - repeat constructor.
  - vm_compute. split; [discriminate|reflexivity].
  - vm_compute. split; [discriminate|reflexivity].
  - lia.
  - exists l'. split; [exact E1|exact E2].
Defined.
