(* ===== verification/Sort.v ===== *)
(** The comparison sorts of [libs/sort/scl_sort.c] and of the per-algorithm
    files [libs/sort/<name>/scl_<name>.c].

    An array of [count] elements of [element_size] bytes is a list of values;
    [cmp] compares two of them.  [None] is a [NULL] pointer.  The elements are
    exchanged by [Prelude.swap]; [ByteSwap.v] shows that the byte loops of the
    code implement that exchange. *)

From S2P Require Import Prelude Core SortSpec.
#[local] Open Scope Z_scope.

Section Sorts.
Context {A : Type}.
Implicit Types (base : list A).

(** ** Insertion, selection, bubble and shell sort *)

(** The inner loop of insertion and shell sort: element [j] sinks by steps of
    [gap] while it is smaller than its predecessor. *)
Definition sink (cmp : A -> A -> Z) (gap : Z) base (i : Z) : res (list A) :=
  loop (S (Z.to_nat i))
    (fun '(base, j) =>
       if j >=? gap then
         x ← get base j; y ← get base (j - gap);
         if cmp x y <? 0 then base ← swap base j (j - gap); mret (inl (base, j - gap))
         else mret (inr base)
       else mret (inr base))
    (base, i).

Definition scl_sort_insertion (base : option (list A)) (count : Z)
    (cmp : option (A -> A -> Z)) : res (scl_error_t * option (list A)) :=
  match base, cmp with
  | Some base, Some cmp =>
      if count <? 2 then mret (SCL_OK, Some base)
      else base ← zfor 1 count (fun i base => sink cmp 1 base i) base;
           mret (SCL_OK, Some base)
  | _, _ => mret (SCL_ERR_NULL_PTR, base)
  end.

Definition min_index (cmp : A -> A -> Z) base (i count : Z) : res Z :=
  zfor (i + 1) count
    (fun j min_idx =>
       x ← get base j; m ← get base min_idx;
       mret (if cmp x m <? 0 then j else min_idx)) i.

Definition scl_sort_selection (base : option (list A)) (count : Z)
    (cmp : option (A -> A -> Z)) : res (scl_error_t * option (list A)) :=
  match base, cmp with
  | Some base, Some cmp =>
      if count <? 2 then mret (SCL_OK, Some base)
      else
        base ← zfor 0 (count - 1)
          (fun i base =>
             min_idx ← min_index cmp base i count;
             if negb (min_idx =? i) then swap base i min_idx else mret base) base;
        mret (SCL_OK, Some base)
  | _, _ => mret (SCL_ERR_NULL_PTR, base)
  end.

Definition bubble_pass (cmp : A -> A -> Z) base (last : Z) : res (list A * bool) :=
  zfor 0 last
    (fun j '(base, swapped) =>
       x ← get base (j + 1); y ← get base j;
       if cmp x y <? 0 then base ← swap base j (j + 1); mret (base, true)
       else mret (base, swapped)) (base, false).

Definition scl_sort_bubble (base : option (list A)) (count : Z)
    (cmp : option (A -> A -> Z)) : res (scl_error_t * option (list A)) :=
  match base, cmp with
  | Some base, Some cmp =>
      if count <? 2 then mret (SCL_OK, Some base)
      else
        r ← zfor_ret 0 (count - 1)
          (fun i base =>
             '(base, swapped) ← bubble_pass cmp base (count - 1 - i);
             if negb swapped then mret (inr base) else mret (inl base)) base;
        mret (SCL_OK, Some (match r with inl base | inr base => base end))
  | _, _ => mret (SCL_ERR_NULL_PTR, base)
  end.

Definition scl_sort_shell (base : option (list A)) (count : Z)
    (cmp : option (A -> A -> Z)) : res (scl_error_t * option (list A)) :=
  match base, cmp with
  | Some base, Some cmp =>
      if count <? 2 then mret (SCL_OK, Some base)
      else
        base ← loop (S (Z.to_nat count))
          (fun '(base, gap) =>
             if gap >? 0 then
               base ← zfor gap count (fun i base => sink cmp gap base i) base;
               mret (inl (base, gap / 2))
             else mret (inr base))
          (base, count / 2);
        mret (SCL_OK, Some base)
  | _, _ => mret (SCL_ERR_NULL_PTR, base)
  end.

(** ** Heap sort *)

(** The node to exchange [root] with: the largest of it and its children. *)
Definition heap_pick (cmp : A -> A -> Z) base (root end_ : Z) : res Z :=
  let child := root * 2 + 1 in
  x ← get base root; c ← get base child;
  let swp := if cmp x c <? 0 then child else root in
  if child + 1 <=? end_ then
    x ← get base swp; c ← get base (child + 1);
    mret (if cmp x c <? 0 then child + 1 else swp)
  else mret swp.

Definition scl_heap_sift_down (cmp : A -> A -> Z) base (start end_ : Z) : res (list A) :=
  loop (S (Z.to_nat end_))
    (fun '(base, root) =>
       if root * 2 + 1 <=? end_ then
         swp ← heap_pick cmp base root end_;
         if swp =? root then mret (inr base)
         else base ← swap base root swp; mret (inl (base, swp))
       else mret (inr base))
    (base, start).

Definition scl_sort_heap (base : option (list A)) (count : Z)
    (cmp : option (A -> A -> Z)) : res (scl_error_t * option (list A)) :=
  match base, cmp with
  | Some base, Some cmp =>
      if count <? 2 then mret (SCL_OK, Some base)
      else
        base ← zfor_down (count / 2)
          (fun i base => scl_heap_sift_down cmp base (i - 1) (count - 1)) base;
        base ← zfor_down (count - 1)
          (fun i base => base ← swap base 0 i; scl_heap_sift_down cmp base 0 (i - 1)) base;
        mret (SCL_OK, Some base)
  | _, _ => mret (SCL_ERR_NULL_PTR, base)
  end.

(** ** Quick sort

    The explicit stack is the array [long stack[256]] with its top index
    [sp]; a push outside the array is undefined behaviour. *)
Definition STACK_LONGS : nat := 256.

Definition push2 (stack : list Z) (sp a b : Z) : res (list Z * Z) :=
  stack ← set stack (sp + 1) a;
  stack ← set stack (sp + 2) b;
  mret (stack, sp + 2).

(** The Lomuto partition of [l..r] around the element at [r]. *)
Definition lomuto (cmp : A -> A -> Z) base (l r : Z) : res (list A * Z) :=
  '(base, i) ← zfor l r
    (fun j '(base, i) =>
       x ← get base j; pivot ← get base r;
       if cmp x pivot <? 0 then
         let i := i + 1 in
         base ← (if negb (i =? j) then swap base i j else mret base);
         mret (base, i)
       else mret (base, i)) (base, l - 1);
  let i := i + 1 in
  base ← (if negb (i =? r) then swap base i r else mret base);
  mret (base, i).

(** Push the larger part first, so that the smaller one is popped next. *)
Definition push_parts (stack : list Z) (sp l i r : Z) : res (list Z * Z) :=
  if i - 1 - l <? r - (i + 1) then
    '(stack, sp) ← push2 stack sp (i + 1) r;
    push2 stack sp l (i - 1)
  else
    '(stack, sp) ← push2 stack sp l (i - 1);
    push2 stack sp (i + 1) r.

Definition scl_sort_quick (base : option (list A)) (count : Z)
    (cmp : option (A -> A -> Z)) : res (scl_error_t * option (list A)) :=
  match base, cmp with
  | Some base, Some cmp =>
      if count <? 2 then mret (SCL_OK, Some base)
      else
        '(stack, sp) ← push2 (replicate STACK_LONGS 0) (-1) 0 (count - 1);
        base ← loop (4 * S (Z.to_nat count))
          (fun '(base, stack, sp) =>
             if sp >=? 0 then
               r ← get stack sp;
               l ← get stack (sp - 1);
               let sp := sp - 2 in
               if l >=? r then mret (inl (base, stack, sp))
               else
                 '(base, i) ← lomuto cmp base l r;
                 '(stack, sp) ← push_parts stack sp l i r;
                 mret (inl (base, stack, sp))
             else mret (inr base))
          (base, stack, sp);
        mret (SCL_OK, Some base)
  | _, _ => mret (SCL_ERR_NULL_PTR, base)
  end.
End Sorts.


(** * Theorems *)
Section Quadratic.
Context {A : Type} (cmp : A -> A -> Z) `{!Comparator cmp}.
Implicit Types (b l : list A).

(** The outcome of a sort: same elements, in order. *)
Definition sorts (l : list A) (r : res (scl_error_t * option (list A))) : Prop :=
  exists l', r = Ok (SCL_OK, Some l') /\ l' ≡ₚ l /\ ordered cmp l'.

Lemma sorts_intro l (m : res (list A)) :
  wp m (fun l' => l' ≡ₚ l /\ srt cmp l' 0 (zlen l')) ->
  sorts l (l' ← m; mret (SCL_OK, Some l')).
Proof.
  intros (l' & -> & HP & Hs)%wp_ok. exists l'. split; [done|]. split; [done|].
  by apply srt_ordered.
Qed.

Lemma ordered_short l : zlen l < 2 -> ordered cmp l.
Proof.
  destruct l as [|x [|y l]]; intros H; [constructor|by repeat constructor|].
  exfalso. zl.
Qed.

Lemma sorts_short l : zlen l < 2 -> sorts l (mret (SCL_OK, Some l)).
Proof. intros H. exists l. split; [done|]. split; [done|by apply ordered_short]. Qed.

(** [sink] never leaves the array and permutes it, whatever the gap. *)
Lemma sink_perm gap b i :
  0 < gap -> 0 <= i < zlen b -> wp (sink cmp gap b i) (fun b' => b' ≡ₚ b).
Proof.
  intros Hg Hi. unfold sink.
  apply (wp_loop (fun '(b', j) => b' ≡ₚ b /\ j <= i /\ 0 <= j) (fun '(_, j) => j));
    [auto with lia|lia|lia|].
  intros [b' j] (P & Hj & Hj0). pose proof (zlen_perm _ _ P).
  rewrite Z.geb_leb. destruct (Z.leb_spec gap j); [|done].
  do 4 wstep. bcase; [|done]. wstep. apply wp_swap; [lia|lia|].
  intros b'' _ P' _. wstep. rewrite P'. split; [split; [done|lia]|lia].
Qed.

(** One step of insertion sort: cell [i] joins the sorted prefix. *)
Lemma sink_insert b i :
  0 <= i < zlen b -> srt cmp b 0 i ->
  wp (sink cmp 1 b i) (fun b' => srt cmp b' 0 (i + 1) /\ b' ≡ₚ b /\ stable cmp b b' /\
                                 forall k, i < k -> zlook b' k = zlook b k).
Proof.
  intros Hi Hs. unfold sink.
  apply (wp_loop (fun '(b', j) => 0 <= j <= i /\ b' ≡ₚ b /\ stable cmp b b' /\
      (forall k, i < k -> zlook b' k = zlook b k) /\
      srt cmp b' 0 j /\ srt cmp b' j (i + 1) /\
      (forall p q x y, p < j -> j < q <= i -> zlook b' p = Some x -> zlook b' q = Some y ->
         cmp x y <= 0)) (fun '(_, j) => j)); [|lia|lia|].
  { split; [lia|]. split; [done|]. split; [done|]. split; [done|]. split; [done|].
    split; [intros p q x y; lia | intros p q x y; lia]. }
  intros [b' j] (Hj & P & St & Out & S1 & S2 & X). pose proof (zlen_perm _ _ P).
  rewrite Z.geb_leb. destruct (Z.leb_spec 1 j).
  2:{ wstep. assert (j = 0) as -> by lia. done. }
  do 4 wstep. rename x0 into y. bcase.
  - wstep. apply wp_swap; [lia|lia|]. intros b'' Hlen P' L. wstep.
    split; [|lia]. split; [lia|]. split; [by rewrite P'|]. split.
    { eapply stable_trans; [done|]. by eapply (stable_adjacent_swap cmp b' b'' j x y). }
    split. { intros k Hk. rewrite L. rewrite !decide_False by lia. by apply Out. }
    split. { apply (srt_ext cmp b'); [|by eapply srt_weaken; [| |apply S1]; lia].
             intros k Hk. rewrite L. by rewrite !decide_False by lia. }
    assert (zlook b'' (j - 1) = Some x) as Ex
      by (rewrite L, decide_False, decide_True by lia; done).
    assert (zlook b'' j = Some y) as Ey by (rewrite L, decide_True by lia; done).
    split.
    + intros p q u v Hp Hpq Hq Hu Hv.
      assert (zlook b' j = Some x /\ zlook b' (j - 1) = Some y) as [E1 E2] by done.
      rewrite L in Hu, Hv. repeat case_decide; try lia; simplify_eq; try lia.
      * eapply (X (j - 1) q); zside.
      * eapply (S2 j q); zside.
      * eapply (S2 p q); zside.
    + intros p q u v Hp Hq Hu Hv. rewrite L in Hu, Hv.
      repeat case_decide; try lia; simplify_eq.
      * eapply (S1 p (j - 1)); zside.
      * eapply (X p q); zside.
  - wstep. split; [|done]. apply (srt_cat cmp b' 0 j); [done|done|].
    intros p q u v Hp Hq Hu Hv. destruct (decide (q = j)) as [->|].
    + simplify_eq. destruct (decide (p = j - 1)) as [->|].
      * simplify_eq. apply (cmp_le_ge cmp). lia.
      * eapply (cmp_trans cmp _ y); [eapply (S1 p (j - 1)); zside|].
        apply (cmp_le_ge cmp). lia.
    + eapply (X p q); zside.
Qed.

(** A full pass with gap 1 sorts, stably. *)
Lemma insertion_pass b :
  wp (zfor 1 (zlen b) (fun i b => sink cmp 1 b i) b)
     (fun b' => srt cmp b' 0 (zlen b') /\ b' ≡ₚ b /\ stable cmp b b').
Proof.
  apply (wp_zfor (fun i b' => srt cmp b' 0 i /\ b' ≡ₚ b /\ stable cmp b b')).
  - split; [intros p q; lia|done].
  - intros i b' Hi (S1 & P & St). pose proof (zlen_perm _ _ P).
    eapply wp_mono; [apply sink_insert; [lia|done]|].
    intros b'' (S2 & P' & St' & _). split; [done|]. split; [by rewrite P'|].
    by eapply stable_trans.
  - intros b' (S1 & P & St). split; [|done]. pose proof (zlen_perm _ _ P).
    intros p q x y Hp Hpq Hq. apply S1; lia.
Qed.

(** ** Bubble sort *)
Lemma bubble_pass_spec b last :
  0 <= last < zlen b ->
  wp (bubble_pass cmp b last) (fun '(b', swapped) =>
    seg_perm 0 last b b' /\ stable cmp b b' /\
    (forall p x y, p < last -> zlook b' p = Some x -> zlook b' last = Some y -> cmp x y <= 0) /\
    (swapped = false -> b' = b /\ srt cmp b 0 (last + 1))).
Proof.
  intros Hl. unfold bubble_pass.
  apply (wp_zfor (fun j '(b', swapped) =>
    seg_perm 0 last b b' /\ stable cmp b b' /\
    (forall p x y, p < j -> zlook b' p = Some x -> zlook b' j = Some y -> cmp x y <= 0) /\
    (swapped = false -> b' = b /\ srt cmp b 0 (j + 1)))).
  - split; [apply seg_perm_refl|]. split; [done|].
    split; [intros p x y Hp Hx%zlook_Some; lia|].
    intros _. split; [done|]. intros p q x y; lia.
  - intros j [b' sw] Hj (SP & St & M & Hsw). pose proof (seg_perm_len _ _ _ _ SP).
    do 4 wstep. rename x0 into y. bcase.
    + wstep. apply (wp_swap_seg 0 last); [lia|lia|lia|lia|]. intros b'' SP' L. wstep.
      split; [by eapply seg_perm_trans|]. split; [|split; [|done]].
      * eapply stable_trans; [done|]. apply (stable_adjacent_swap cmp b' b'' (j + 1) x y);
          try done; [by replace (j + 1 - 1) with j by lia|].
        intros k. rewrite L. replace (j + 1 - 1) with j by lia.
        repeat case_decide; try done; lia.
      * intros p u v Hp Hu Hv. rewrite L in Hu, Hv. repeat case_decide; try lia; simplify_eq.
        -- lia.
        -- apply (M p); zside.
    + wstep. assert (cmp y x <= 0) by (apply (cmp_le_ge cmp); lia).
      split; [done|]. split; [done|]. split.
      * intros p u v Hp Hu Hv. simplify_eq. destruct (decide (p = j)) as [->|]; [by simplify_eq|].
        eapply (cmp_trans cmp _ y); [apply (M p); zside|done].
      * intros E. destruct (Hsw E) as [-> S]. split; [done|]. apply srt_snoc; [done|done|].
        intros u v _ Hu Hv. replace (j + 1 - 1) with j in Hu by lia. by simplify_eq.
  - intros [b' sw]. by rewrite Z.max_r by lia.
Qed.

Lemma wp_bubble b :
  2 <= zlen b ->
  wp (zfor_ret 0 (zlen b - 1)
        (fun i base => '(base, swapped) ← bubble_pass cmp base (zlen b - 1 - i);
                       if negb swapped then mret (inr base) else mret (inl base)) b)
     (fun r => let b' := match r with inl b' | inr b' => b' end in
               srt cmp b' 0 (zlen b') /\ b' ≡ₚ b /\ stable cmp b b').
Proof.
  intros Hb.
  apply (wp_zfor_ret (fun i b' => b' ≡ₚ b /\ stable cmp b b' /\
           forall k, zlen b - i <= k -> split_at cmp b' k)).
  - split; [done|]. split; [done|]. intros k Hk. apply split_at_out. lia.
  - intros i b' Hi (P & St & Hk). pose proof (zlen_perm _ _ P).
    apply wp_bind. eapply wp_mono; [apply bubble_pass_spec; lia|].
    intros [b'' sw] (SP & St' & M & Hsw). pose proof (seg_perm_len _ _ _ _ SP).
    assert (b'' ≡ₚ b) by (by rewrite (sp_perm _ _ _ _ SP)).
    assert (stable cmp b b'') by by eapply stable_trans.
    assert (forall k, zlen b - (i + 1) <= k -> split_at cmp b'' k) as Hk'.
    { assert (forall k, zlen b - i <= k -> split_at cmp b'' k) as Hk2
        by (intros k Hle; eapply split_at_seg; [by apply Hk|done|lia]).
      intros k Hle. destruct (decide (k = zlen b - (i + 1))) as [->|]; [|apply Hk2; lia].
      replace (zlen b - (i + 1)) with (zlen b - 1 - i) by lia.
      apply split_at_max; [apply Hk2; lia|done]. }
    destruct sw; simpl; [done|]. split; [|done]. destruct (Hsw eq_refl) as [-> S].
    apply split_all_srt. intros k Hkr.
    destruct (decide (zlen b - i <= k)); [by apply Hk|].
    intros p q x y Hp Hq Hx Hy. destruct (decide (q < zlen b - i)).
    + apply (S p q); zside.
    + apply (Hk (zlen b - i)) with p q; zside.
  - intros b' (P & St & Hk). split; [|done]. pose proof (zlen_perm _ _ P).
    apply split_all_srt. intros k Hkr. apply Hk. lia.
Qed.

(** ** Selection sort *)
Lemma min_index_spec b i :
  0 <= i < zlen b ->
  wp (min_index cmp b i (zlen b)) (fun m => i <= m < zlen b /\
    forall q x y, i <= q -> zlook b m = Some x -> zlook b q = Some y -> cmp x y <= 0).
Proof.
  intros Hi. unfold min_index.
  apply (wp_zfor (fun j m => i <= m < j /\
    forall q x y, i <= q < j -> zlook b m = Some x -> zlook b q = Some y -> cmp x y <= 0)).
  - split; [lia|]. intros q x y Hq Hx Hy. assert (q = i) as -> by lia. simplify_eq.
    by rewrite (cmp_refl cmp).
  - intros j m Hj (Hm & Hmin). do 5 wstep. rename x0 into y. bcase; (split; [lia|]).
    + intros q u v Hq Hu Hv. simplify_eq. destruct (decide (q = j)) as [->|].
      * simplify_eq. by rewrite (cmp_refl cmp).
      * eapply (cmp_trans cmp _ y); [lia|]. apply (Hmin q); zside.
    + intros q u v Hq Hu Hv. simplify_eq. destruct (decide (q = j)) as [->|].
      * simplify_eq. apply (cmp_le_ge cmp). lia.
      * apply (Hmin q); zside.
  - intros m (Hm & Hmin). split; [lia|]. intros q x y Hq Hx Hy. apply (Hmin q); zside.
Qed.

Lemma wp_selection b :
  2 <= zlen b ->
  wp (zfor 0 (zlen b - 1)
        (fun i base => min_idx ← min_index cmp base i (zlen b);
                       if negb (min_idx =? i) then swap base i min_idx else mret base) b)
     (fun b' => b' ≡ₚ b /\ srt cmp b' 0 (zlen b')).
Proof.
  intros Hb.
  apply (wp_zfor (fun i b' => b' ≡ₚ b /\ forall k, k <= i -> split_at cmp b' k)).
  - split; [done|]. intros k Hk. apply split_at_out. lia.
  - intros i b' Hi (P & Hk). pose proof (zlen_perm _ _ P) as Hlen.
    wstep. rewrite <- Hlen. eapply wp_mono; [apply min_index_spec; lia|].
    intros m (Hm & Hmin).
    assert (forall b'', seg_perm i (zlen b' - 1) b' b'' -> zlook b'' i = zlook b' m ->
      b'' ≡ₚ b /\ forall k, k <= i + 1 -> split_at cmp b'' k) as Hend.
    { intros b'' SP E. split; [by rewrite (sp_perm _ _ _ _ SP)|].
      assert (forall k, k <= i -> split_at cmp b'' k) as Hk2
        by (intros k Hle; eapply split_at_seg; [by apply Hk|done|lia]).
      intros k Hle. destruct (decide (k = i + 1)) as [->|]; [|apply Hk2; lia].
      apply split_at_min; [apply Hk2; lia|]. intros q x y Hq Hx Hy. rewrite E in Hx.
      pose proof (zlook_Some _ _ _ Hy). rewrite (seg_perm_len _ _ _ _ SP) in *.
      destruct (sp_in _ _ _ _ SP q y) as (q' & Hq' & Hy'); [lia|done|].
      apply (Hmin q'); zside. }
    destruct (Z.eqb_spec m i) as [->|]; simpl.
    + apply Hend; [apply seg_perm_refl|done].
    + apply (wp_swap_seg i (zlen b' - 1)); [lia|lia|lia|lia|]. intros b'' SP L.
      apply Hend; [done|]. rewrite L. by rewrite decide_True.
  - intros b' (P & Hk). split; [done|]. pose proof (zlen_perm _ _ P).
    apply split_all_srt. intros k Hkr. apply Hk. lia.
Qed.
End Quadratic.
