(* ===== verification/HeapSort.v ===== *)
(** Correctness of the heap sort of [libs/sort/scl_sort.c]. *)

From S2P Require Import Prelude Core SortSpec Sort.
#[local] Open Scope Z_scope.

Section HeapSort.
Context {A : Type} (cmp : A -> A -> Z) `{!Comparator cmp}.
Implicit Types (b l : list A).

Definition child (i c : Z) : Prop := c = 2 * i + 1 \/ c = 2 * i + 2.

(** Node [i] dominates its children in [..e]. *)
Definition dominates b (e i : Z) : Prop :=
  forall c x y, child i c -> c <= e -> zlook b i = Some x -> zlook b c = Some y -> cmp y x <= 0.

(** The cells from [s] on form a max-heap up to [e]. *)
Definition heap_from b (s e : Z) : Prop := forall i, s <= i -> dominates b e i.

(** A heap except that [root] may be smaller than its children, which its
    parent dominates. *)
Definition heap_but b (s e root : Z) : Prop :=
  (forall i, s <= i -> i <> root -> dominates b e i) /\
  (forall i c x y, s <= i -> child i root -> child root c -> c <= e ->
     zlook b i = Some x -> zlook b c = Some y -> cmp y x <= 0).

(** The choice of the node to exchange with: it dominates [root] and its
    children. *)
Lemma pick_spec b root e (Q : Z -> Prop) :
  0 <= root -> root * 2 + 1 <= e -> e < zlen b ->
  (forall swp, (swp = root \/ child root swp /\ swp <= e) ->
     (forall x y, zlook b swp = Some x -> zlook b root = Some y -> cmp y x <= 0) ->
     (forall c x y, child root c -> c <= e -> zlook b swp = Some x -> zlook b c = Some y ->
        cmp y x <= 0) -> Q swp) ->
  wp (heap_pick cmp b root e) Q.
Proof.
  intros Hr Hc He HQ. unfold heap_pick. cbv zeta. do 2 (wstep; wstep). rename x into vr, x0 into v1.
  set (s1 := if cmp vr v1 <? 0 then root * 2 + 1 else root).
  assert (exists w, zlook b s1 = Some w /\ cmp vr w <= 0 /\ cmp v1 w <= 0 /\
            (s1 = root \/ s1 = root * 2 + 1)) as (w & Hw & H1 & H2 & Hs).
  { subst s1. destruct (Z.ltb_spec (cmp vr v1) 0).
    - exists v1. rewrite (cmp_refl cmp). split; [done|]. split; [lia|]. split; [lia|]. by right.
    - exists vr. rewrite (cmp_refl cmp). split; [done|]. split; [lia|]. split; [|by left].
      apply (cmp_le_ge cmp). lia. }
  destruct (Z.leb_spec (root * 2 + 1 + 1) e).
  - wstep. apply wp_get; [lia|]. intros w' Hw'. simplify_eq. do 2 wstep. rename x into v2. wstep.
    destruct (Z.ltb_spec (cmp w v2) 0).
    + apply HQ; [right; unfold child; lia| |].
      * intros. simplify_eq.
        eapply (cmp_trans cmp _ w); [done|lia].
      * intros c u v [->| ->] Hce Hu Hv; simplify_eq.
        -- replace (2 * root + 1) with (root * 2 + 1) in Hv by lia. simplify_eq.
           eapply (cmp_trans cmp _ w); [done|lia].
        -- replace (2 * root + 2) with (root * 2 + 1 + 1) in Hv by lia. simplify_eq.
           by rewrite (cmp_refl cmp).
    + apply HQ; [unfold child; lia| |].
      * intros. by simplify_eq.
      * intros c u v [->| ->] Hce Hu Hv; simplify_eq.
        -- replace (2 * root + 1) with (root * 2 + 1) in Hv by lia. by simplify_eq.
        -- replace (2 * root + 2) with (root * 2 + 1 + 1) in Hv by lia. simplify_eq.
           apply (cmp_le_ge cmp). lia.
  - wstep. apply HQ; [unfold child; lia| |].
    + intros. by simplify_eq.
    + intros c u v [->| ->] Hce Hu Hv; simplify_eq; [|lia].
      replace (2 * root + 1) with (root * 2 + 1) in Hv by lia. by simplify_eq.
Qed.

Lemma sift_down_spec b s e :
  0 <= s -> 0 <= e < zlen b -> heap_but b s e s ->
  wp (scl_heap_sift_down cmp b s e) (fun b' => seg_perm s e b b' /\ heap_from b' s e).
Proof.
  intros Hs He Hb. unfold scl_heap_sift_down.
  destruct (decide (s <= e)) as [Hse|].
  2:{ simpl. apply wp_bind. bcase; [lia|]. wstep. wstep. split; [apply seg_perm_refl|].
      intros i Hi c x y [->| ->]; lia. }
  apply (wp_loop (fun '(b', root) => s <= root <= e /\ seg_perm s e b b' /\ heap_but b' s e root)
           (fun '(_, root) => e - root)); [|lia|lia|].
  { split; [lia|]. split; [apply seg_perm_refl|done]. }
  intros [b' root] (Hr & SP & H1 & H2). pose proof (seg_perm_len _ _ _ _ SP).
  destruct (Z.leb_spec (root * 2 + 1) e).
  2:{ wstep. split; [done|]. intros i Hi. destruct (decide (i = root)) as [->|]; [|auto].
      intros c x y [->| ->]; lia. }
  wstep. apply pick_spec; [lia|lia|lia|]. intros swp Hswp Hd Hdom.
  destruct (Z.eqb_spec swp root) as [->|Hne].
  - wstep. split; [done|]. intros i Hi. destruct (decide (i = root)) as [->|]; [|auto].
    intros c x y ????. by eapply Hdom.
  - destruct Hswp as [|[Hch Hle]]; [done|].
    assert (root < swp) by (destruct Hch; lia).
    wstep. apply (wp_swap_seg s e); [lia|lia|lia|lia|]. intros b'' SP' L. wstep.
    split; [|lia]. split; [lia|]. split; [by eapply seg_perm_trans|]. split.
    + intros i Hi Hneq c x y Hc Hce Hx Hy. rewrite L in Hx, Hy.
      destruct (decide (i = root)) as [->|Hir].
      * destruct (decide (c = root)); [destruct Hc; lia|].
        destruct (decide (c = swp)) as [->|]; [by apply Hd|by apply (Hdom c)].
      * rewrite decide_False in Hx by done.
        destruct (decide (c = root)) as [->|]; [by apply (H2 i swp)|].
        destruct (decide (c = swp)) as [->|]; [destruct Hc, Hch; lia|].
        by apply (H1 i Hi Hir c).
    + intros i c x y Hi Hci Hc Hce Hx Hy. rewrite L in Hx, Hy.
      assert (i = root) as -> by (destruct Hci, Hch; lia).
      rewrite decide_True in Hx by done.
      rewrite decide_False in Hy by (destruct Hc; lia).
      rewrite decide_False in Hy by (destruct Hc; lia).
      by apply (H1 swp ltac:(lia) Hne c).
Qed.

(** The root of a heap is its maximum. *)
Lemma heap_root_max b e :
  0 <= e < zlen b -> heap_from b 0 e ->
  forall p x y, 0 <= p <= e -> zlook b p = Some x -> zlook b 0 = Some y -> cmp x y <= 0.
Proof.
  intros He H p. induction (Z.lt_wf 0 p) as [p _ IH]. intros x y Hp Hx Hy.
  destruct (decide (p = 0)) as [->|]; [simplify_eq; by rewrite (cmp_refl cmp)|].
  set (i := (p - 1) / 2). assert (0 <= i < p) as Hip by (unfold i; zdiv).
  assert (child i p) as Hc by (unfold child, i; zdiv).
  destruct (zlook_lt b i) as [z Hz]; [lia|].
  eapply (cmp_trans cmp _ z); [by apply (H i (proj1 Hip) p); [|lia| |]|].
  by apply (IH i); [lia|lia| |].
Qed.

Lemma heap_sorts (l : list A) :
  sorts cmp l (scl_sort_heap (Some l) (zlen l) (Some cmp)).
Proof.
  unfold scl_sort_heap. destruct (Z.ltb_spec (zlen l) 2); [by apply sorts_short|].
  remember (zlen l) as n eqn:Hn.
  match goal with |- sorts _ _ (?m ≫= ?f) => enough (wp m (fun b => b ≡ₚ l /\ heap_from b 0 (n - 1)))
    as (b & -> & P & Hh)%wp_ok end.
  - simpl. apply sorts_intro. pose proof (zlen_perm _ _ P).
    apply (wp_zfor_down (fun i b' => b' ≡ₚ l /\ heap_from b' 0 i /\
             forall k, i < k -> split_at cmp b' k)); [lia| | |].
    + split; [done|]. split; [done|]. intros k Hk. apply split_at_out. lia.
    + intros i b' Hi (P' & Hh' & Hk). pose proof (zlen_perm _ _ P').
      wstep. apply (wp_swap_seg 0 i); [lia|lia|lia|lia|]. intros b2 SP L.
      pose proof (seg_perm_len _ _ _ _ SP).
      assert (forall k, i < k -> split_at cmp b2 k) as Hk2
        by (intros k Hki; eapply split_at_seg; [by apply Hk|done|lia]).
      assert (split_at cmp b2 i) as Hki.
      { apply split_at_max; [apply Hk2; lia|]. intros p x y Hp Hx Hy. rewrite L in Hy.
        destruct (decide (i = 0)); [lia|]. try rewrite decide_True in Hy by done.
        pose proof (zlook_Some _ _ _ Hx).
        destruct (sp_in _ _ _ _ SP p x) as (p' & Hp' & Hx'); [lia|done|].
        by apply (heap_root_max b' i ltac:(lia) Hh' p'). }
      eapply wp_mono; [apply (sift_down_spec b2 0 (i - 1)); [lia|lia|split]|].
      * intros j Hj Hne c x y Hc Hce Hx Hy. rewrite L in Hx, Hy.
        repeat case_decide; try (destruct Hc; lia).
        apply (Hh' j Hj c); try done. lia.
      * intros j c x y Hj Hj0. destruct Hj0; lia.
      * intros b3 (SP3 & Hh3). split; [by rewrite (sp_perm _ _ _ _ SP3), (sp_perm _ _ _ _ SP)|].
        split; [done|]. intros k Hki'. eapply split_at_seg; [|done|right; lia].
        destruct (decide (k = i)) as [->|]; [done|apply Hk2; lia].
    + intros b' (P' & _ & Hk). split; [done|]. apply split_all_srt. intros k Hkr. apply Hk. lia.
  - apply (wp_zfor_down (fun i b' => b' ≡ₚ l /\ heap_from b' i (n - 1))); [zdiv| | |].
    + split; [done|]. intros i Hi c x y [->| ->]; zdiv.
    + intros i b' Hi (P & Hh). pose proof (zlen_perm _ _ P).
      eapply wp_mono; [apply (sift_down_spec b' (i - 1) (n - 1)); [lia|lia|split]|].
      * intros j Hj Hne. apply Hh. lia.
      * intros j c x y Hj Hj0. destruct Hj0; lia.
      * intros b2 (SP & Hh2). split; [by rewrite (sp_perm _ _ _ _ SP)|done].
    + done.
Qed.

(** Heap sort sorts: it never leaves the array, terminates, and the
    result is an ordered permutation of the input. *)
Theorem scl_sort_heap_sorts (l : list A) :
  sorts cmp l (scl_sort_heap (Some l) (zlen l) (Some cmp)).
Proof. apply heap_sorts. Qed.
End HeapSort.

Lemma scl_sort_heap_sorts_witness :
  exists l', scl_sort_heap (Some [3; 1; 2]) 3 (Some Zcmp) = Ok (SCL_OK, Some l') /\
             l' ≡ₚ [3; 1; 2] /\ ordered Zcmp l'.
Proof. exact (scl_sort_heap_sorts Zcmp [3; 1; 2]). Defined.
