(* ===== verification/QuickSort.v ===== *)
(** Correctness of the iterative quick sort of [libs/sort/scl_sort.c]: it
    sorts, and its explicit stack of 256 longs never overflows. *)

From S2P Require Import Prelude Core SortSpec Sort.
#[local] Open Scope Z_scope.

Section Lomuto.
Context {A : Type} (cmp : A -> A -> Z) `{!Comparator cmp}.
Implicit Types (b : list A) (l r i : Z).

(** The partition of [l..r] returns the final place [i] of the pivot. *)
Lemma lomuto_spec b l r :
  0 <= l -> l <= r < zlen b ->
  wp (lomuto cmp b l r) (fun '(b', i) =>
    l <= i <= r /\ seg_perm l r b b' /\
    (forall p x y, l <= p < i -> zlook b' p = Some x -> zlook b' i = Some y -> cmp x y <= 0) /\
    (forall p x y, i < p <= r -> zlook b' p = Some x -> zlook b' i = Some y -> cmp y x <= 0)).
Proof.
  intros Hl Hr. unfold lomuto. wstep.
  apply (wp_zfor (fun j '(b', i) =>
    l - 1 <= i < j /\ seg_perm l (r - 1) b b' /\
    (forall p x y, l <= p <= i -> zlook b' p = Some x -> zlook b' r = Some y -> cmp x y <= 0) /\
    (forall p x y, i < p < j -> zlook b' p = Some x -> zlook b' r = Some y -> cmp y x <= 0))).
  - split; [lia|]. split; [apply seg_perm_refl|]. split; intros p x y; lia.
  - intros j [b' i] Hj (Hi & SP & Hlo & Hhi). pose proof (seg_perm_len _ _ _ _ SP).
    do 4 wstep. rename x into v, x0 into pv. bcase.
    + assert (forall b'', seg_perm l (r - 1) b' b'' ->
        (forall k, zlook b'' k = if decide (k = i + 1) then zlook b' j
                                 else if decide (k = j) then zlook b' (i + 1) else zlook b' k) ->
        wp (mret (b'', i + 1)) (fun '(b', i) => l - 1 <= i < j + 1 /\ seg_perm l (r - 1) b b' /\
          (forall p x y, l <= p <= i -> zlook b' p = Some x -> zlook b' r = Some y -> cmp x y <= 0) /\
          (forall p x y, i < p < j + 1 -> zlook b' p = Some x -> zlook b' r = Some y ->
             cmp y x <= 0))) as Hend.
      { intros b'' SP' L. wstep. split; [lia|]. split; [by eapply seg_perm_trans|].
        assert (zlook b'' r = Some pv) as Er by (rewrite L, !decide_False by lia; done).
        split; intros p u w Hp Hu Hw; rewrite Er in Hw; rewrite L in Hu; simplify_eq.
        - destruct (decide (p = i + 1)); [simplify_eq; lia|].
          rewrite decide_False in Hu by lia. apply (Hlo p); [lia|done|done].
        - rewrite decide_False in Hu by lia. destruct (decide (p = j)).
          + apply (Hhi (i + 1)); [lia|done|done].
          + apply (Hhi p); [lia|done|done]. }
      wstep. destruct (Z.eqb_spec (i + 1) j); simpl.
      * apply Hend; [apply seg_perm_refl|]. intros k. subst j. repeat case_decide; congruence.
      * apply (wp_swap_seg l (r - 1)); [lia|lia|lia|lia|]. done.
    + wstep. split; [lia|]. split; [done|]. split; [done|].
      intros p u w Hp Hu Hw. destruct (decide (p = j)) as [->|]; [|by apply (Hhi p); [lia| |]].
      simplify_eq. apply (cmp_le_ge cmp). lia.
  - intros [b' i]. rewrite Z.max_r by lia. intros (Hi & SP & Hlo & Hhi).
    pose proof (seg_perm_len _ _ _ _ SP).
    assert (forall b'', seg_perm l r b' b'' ->
      (forall k, zlook b'' k = if decide (k = i + 1) then zlook b' r
                               else if decide (k = r) then zlook b' (i + 1) else zlook b' k) ->
      wp (mret (b'', i + 1)) (fun '(b', i) => l <= i <= r /\ seg_perm l r b b' /\
        (forall p x y, l <= p < i -> zlook b' p = Some x -> zlook b' i = Some y -> cmp x y <= 0) /\
        (forall p x y, i < p <= r -> zlook b' p = Some x -> zlook b' i = Some y ->
           cmp y x <= 0))) as Hend.
    { intros b'' SP' L. wstep. split; [lia|]. split.
      { eapply seg_perm_trans; [|done]. eapply seg_perm_weaken; [| |done]; lia. }
      assert (zlook b'' (i + 1) = zlook b' r) as Er by (rewrite L, decide_True by lia; done).
      split; intros p x y Hp Hx Hy; rewrite Er in Hy; rewrite L in Hx.
      - rewrite !decide_False in Hx by lia. apply (Hlo p); [lia|done|done].
      - rewrite decide_False in Hx by lia. destruct (decide (p = r)).
        + apply (Hhi (i + 1)); [lia|done|done].
        + apply (Hhi p); [lia|done|done]. }
    wstep. destruct (Z.eqb_spec (i + 1) r); simpl.
    + apply Hend; [apply seg_perm_refl|]. intros k. repeat case_decide; congruence.
    + apply (wp_swap_seg l r); [lia|lia|lia|lia|]. done.
Qed.

(** Both parts of a partition are separated from each other, and from what
    surrounds the segment, by the pivot. *)
Lemma lomuto_splits b b' l i r :
  l <= i <= r -> seg_perm l r b b' -> split_at cmp b l -> split_at cmp b (r + 1) ->
  (forall p x y, l <= p < i -> zlook b' p = Some x -> zlook b' i = Some y -> cmp x y <= 0) ->
  (forall p x y, i < p <= r -> zlook b' p = Some x -> zlook b' i = Some y -> cmp y x <= 0) ->
  split_at cmp b' i /\ split_at cmp b' (i + 1).
Proof.
  intros Hi SP Sl Sr Hlo Hhi.
  assert (split_at cmp b' l) as Sl' by (eapply split_at_seg; [done|done|lia]).
  assert (split_at cmp b' (r + 1)) as Sr' by (eapply split_at_seg; [done|done|lia]).
  assert (forall p x y, p < i -> zlook b' p = Some x -> zlook b' i = Some y -> cmp x y <= 0) as H1.
  { intros p x y Hp Hx Hy. destruct (decide (l <= p)); [apply (Hlo p); (done || lia)|].
    apply (Sl' p i); (done || lia). }
  assert (forall p x y, i < p -> zlook b' p = Some x -> zlook b' i = Some y -> cmp y x <= 0) as H2.
  { intros p x y Hp Hx Hy. destruct (decide (p <= r)); [apply (Hhi p); (done || lia)|].
    apply (Sr' i p); (done || lia). }
  assert (forall p q x y, p < i -> i < q -> zlook b' p = Some x -> zlook b' q = Some y ->
            cmp x y <= 0) as H12.
  { intros p q x y Hp Hq Hx Hy. destruct (zlook_lt b' i) as [z Hz]; [zidx|].
    eapply (cmp_trans cmp _ z); [by eapply H1|by eapply H2]. }
  split; intros p q x y Hp Hq Hx Hy.
  - destruct (decide (q = i)) as [->|]; [by eapply H1|]. eapply H12; [|..|done|done]; lia.
  - destruct (decide (p = i)) as [->|]; [eapply H2; [|done|done]; lia|].
    eapply H12; [| |done|done]; lia.
Qed.
End Lomuto.

(** ** The stack of pending segments *)

(** The pending segments, top first, as they lie on the stack. *)
Fixpoint on_stack (stack : list Z) (sp : Z) (segs : list (Z * Z)) : Prop :=
  match segs with
  | [] => sp = -1
  | (l, r) :: segs =>
      zlook stack sp = Some r /\ zlook stack (sp - 1) = Some l /\ on_stack stack (sp - 2) segs
  end.

Definition size (s : Z * Z) : Z := Z.max 0 (s.2 - s.1 + 1).
Definition total (segs : list (Z * Z)) : Z := foldr (fun s t => size s + t) 0 segs.
Definition disjoint_segs (s t : Z * Z) : Prop := s.2 < t.1 \/ t.2 < s.1.
Fixpoint pairwise_disjoint (segs : list (Z * Z)) : Prop :=
  match segs with
  | [] => True
  | s :: segs => Forall (disjoint_segs s) segs /\ pairwise_disjoint segs
  end.

(** Every segment is non-empty and at least as large as all those above it
    together, [acc] being the size of what is above the list. *)
Fixpoint tower (acc : Z) (segs : list (Z * Z)) : Prop :=
  match segs with
  | [] => True
  | s :: segs => acc <= size s /\ 1 <= size s /\ tower (acc + size s) segs
  end.

Lemma size_nonneg s : 0 <= size s.
Proof. unfold size. lia. Qed.

Lemma total_nonneg segs : 0 <= total segs.
Proof. induction segs as [|s segs IH]; simpl; [done|]. pose proof (size_nonneg s). lia. Qed.

Lemma tower_mono acc acc' segs : acc' <= acc -> tower acc segs -> tower acc' segs.
Proof.
  revert acc acc'. induction segs as [|s segs IH]; intros acc acc' Hle; simpl; [done|].
  intros (H1 & H2 & H3). split; [lia|]. split; [done|]. eapply IH; [|done]. lia.
Qed.

(** A tower of [k] segments needs at least [2^(k-1)] elements. *)
Lemma tower_total acc segs :
  1 <= acc -> tower acc segs -> acc * 2 ^ zlen segs <= acc + total segs.
Proof.
  revert acc. induction segs as [|s segs IH]; intros acc Ha; simpl.
  { rewrite zlen_nil. lia. }
  intros (H1 & H2 & H3). specialize (IH (acc + size s) ltac:(lia) H3).
  rewrite zlen_cons, Z.pow_add_r by (pose proof (zlen_nonneg segs); lia).
  assert (0 < 2 ^ zlen segs) by (apply Z.pow_pos_nonneg; [lia|apply zlen_nonneg]). nia.
Qed.

Lemma tower_height s segs :
  tower (size s) segs -> 1 <= zlen segs -> 2 ^ (zlen segs - 1) <= size s + total segs.
Proof.
  destruct segs as [|t segs]; intros H Hl; [by rewrite zlen_nil in Hl|].
  destruct H as (H1 & H2 & H3). pose proof (size_nonneg s). simpl.
  rewrite zlen_cons. replace (zlen segs + 1 - 1) with (zlen segs) by lia.
  pose proof (tower_total (size s + size t) segs ltac:(lia) H3).
  assert (0 < 2 ^ zlen segs) by (apply Z.pow_pos_nonneg; [lia|apply zlen_nonneg]). nia.
Qed.

Lemma on_stack_sp stack sp segs : on_stack stack sp segs -> sp = 2 * zlen segs - 1.
Proof.
  revert sp. induction segs as [|[l r] segs IH]; intros sp; simpl; [by intros ->|].
  intros (_ & _ & H%IH). rewrite zlen_cons. lia.
Qed.

Lemma on_stack_ext stack stack' sp segs :
  (forall k, k <= sp -> zlook stack' k = zlook stack k) ->
  on_stack stack sp segs -> on_stack stack' sp segs.
Proof.
  revert sp. induction segs as [|[l r] segs IH]; intros sp E; simpl; [done|].
  intros (H1 & H2 & H3). rewrite !E by lia. split; [done|]. split; [done|].
  apply IH; [|done]. intros k Hk. apply E. lia.
Qed.

Lemma wp_push2 stack sp segs a c (Q : list Z * Z -> Prop) :
  on_stack stack sp segs -> 2 * zlen segs + 2 <= zlen stack ->
  (forall stack' sp', zlen stack' = zlen stack -> on_stack stack' sp' ((a, c) :: segs) ->
     Q (stack', sp')) ->
  wp (push2 stack sp a c) Q.
Proof.
  intros Hs Hl HQ. pose proof (on_stack_sp _ _ _ Hs). pose proof (zlen_nonneg segs).
  unfold push2. do 2 (wstep; wstep). wstep. apply HQ; [by rewrite !zlen_zupd|].
  cbn [on_stack]. rewrite !zlook_zupd, !zlen_zupd. split; [|split].
  - by rewrite decide_True by lia.
  - rewrite decide_False, decide_True by lia. done.
  - replace (sp + 2 - 2) with sp by lia. eapply on_stack_ext; [|done].
    intros k Hk. by rewrite !zlook_zupd_ne by lia.
Qed.

(** What replaces a popped segment [l..r] split at [i]. *)
Definition parts (l i r : Z) : list (Z * Z) :=
  if i - 1 - l <? r - (i + 1) then [(l, i - 1); (i + 1, r)] else [(i + 1, r); (l, i - 1)].

Lemma wp_push_parts stack sp segs l i r (Q : list Z * Z -> Prop) :
  on_stack stack sp segs -> 2 * zlen segs + 4 <= zlen stack ->
  (forall stack' sp', zlen stack' = zlen stack -> on_stack stack' sp' (parts l i r ++ segs) ->
     Q (stack', sp')) ->
  wp (push_parts stack sp l i r) Q.
Proof.
  intros Hs Hl HQ. unfold push_parts, parts in *. destruct (i - 1 - l <? r - (i + 1)).
  all: wstep; eapply wp_push2; [done|lia|]; intros st1 sp1 L1 H1.
  all: eapply wp_push2; [done|rewrite zlen_cons; lia|]; intros st2 sp2 L2 H2.
  all: apply HQ; [lia|done].
Qed.

Section Quick.
Context {A : Type} (cmp : A -> A -> Z) `{!Comparator cmp}.
Implicit Types (b : list A).

(** The invariant of the main loop: [segs] is the stack; a position is either
    inside a pending segment or a split point. *)
Record quick_inv (l0 b : list A) (segs : list (Z * Z)) : Prop := {
  qi_perm : b ≡ₚ l0;
  qi_range : Forall (fun s => 0 <= s.1 /\ s.1 <= s.2 + 1 /\ s.2 < zlen l0) segs;
  qi_disj : pairwise_disjoint segs;
  qi_tower : match segs with [] => True | s :: segs => tower (size s) segs end;
  qi_total : total segs <= zlen l0;
  qi_split : forall k, Exists (fun s => s.1 < k <= s.2) segs \/ split_at cmp b k
}.

Lemma quick_inv_skip l0 b l r segs :
  r <= l -> quick_inv l0 b ((l, r) :: segs) -> quick_inv l0 b segs.
Proof.
  intros Hlr [P R D T To S]. split; [done|by inversion R|apply D| | |].
  - destruct segs as [|s segs]; [done|]. destruct T as (_ & _ & T).
    eapply tower_mono; [|done]. pose proof (size_nonneg (l, r)). lia.
  - simpl in To. pose proof (size_nonneg (l, r)). lia.
  - intros k. destruct (S k) as [He|]; [|by right]. apply Exists_cons in He as [He|]; [|by left].
    simpl in He. lia.
Qed.

(** The bounds of the top segment are split points. *)
Lemma quick_inv_bounds l0 b l r segs :
  l < r -> quick_inv l0 b ((l, r) :: segs) -> split_at cmp b l /\ split_at cmp b (r + 1).
Proof.
  intros Hlr [P R [D _] T To S].
  assert (forall k, k = l \/ k = r + 1 -> split_at cmp b k) as H; [|split; apply H; lia].
  intros k Hk. destruct (S k) as [He|]; [|done]. exfalso.
  apply Exists_cons in He as [He|He]; [simpl in He; lia|].
  apply Exists_exists in He as (s & Hs & Hin). rewrite Forall_forall in D.
  specialize (D s Hs). unfold disjoint_segs in D. simpl in D. lia.
Qed.

Lemma parts_tower l i r segs :
  l <= i <= r -> l < r -> tower (size (l, r)) segs ->
  total (parts l i r ++ segs) = total ((l, r) :: segs) - 1 /\
  match parts l i r ++ segs with [] => True | s :: segs' => tower (size s) segs' end.
Proof.
  intros Hi Hlr T. unfold parts. destruct (Z.ltb_spec (i - 1 - l) (r - (i + 1)));
    simpl; unfold size in *; simpl in *; (split; [lia|]); (split; [lia|]); (split; [lia|]);
    (eapply tower_mono; [|done]); lia.
Qed.

Lemma parts_disjoint l i r segs :
  l <= i <= r -> l < r -> pairwise_disjoint ((l, r) :: segs) ->
  pairwise_disjoint (parts l i r ++ segs).
Proof.
  intros Hi Hlr [D1 D2].
  assert (forall l' r', l <= l' -> r' <= r -> Forall (disjoint_segs (l', r')) segs) as H.
  { intros l' r' H1 H2. eapply Forall_impl; [exact D1|]. intros s [E|E]; [left|right];
      unfold disjoint_segs in *; simpl in *; lia. }
  unfold parts. destruct (i - 1 - l <? r - (i + 1)); simpl;
    (split; [constructor; [unfold disjoint_segs; simpl; lia|apply H; lia]|]);
    (split; [apply H; lia|done]).
Qed.

Lemma quick_inv_partition l0 b b' l i r segs :
  l < r -> l <= i <= r -> quick_inv l0 b ((l, r) :: segs) -> seg_perm l r b b' ->
  split_at cmp b' i -> split_at cmp b' (i + 1) ->
  quick_inv l0 b' (parts l i r ++ segs).
Proof.
  intros Hlr Hi [P R D T To S] SP S1 S2.
  destruct (parts_tower l i r segs Hi Hlr T) as [E T'].
  apply Forall_cons in R as [R1 R2]. simpl in R1. split; [|..|done| |].
  - by rewrite (sp_perm _ _ _ _ SP).
  - apply Forall_app. split; [|done]. unfold parts. destruct (_ <? _); rewrite !Forall_cons; simpl; repeat split; (lia || constructor).
  - by apply parts_disjoint.
  - simpl in To, E. lia.
  - intros k. destruct (decide (l < k <= r)) as [Hk|Hk].
    + destruct (decide (k = i)) as [->|]; [by right|].
      destruct (decide (k = i + 1)) as [->|]; [by right|]. left. apply Exists_app. left.
      unfold parts. destruct (_ <? _); rewrite !Exists_cons; simpl; lia.
    + destruct (S k) as [He|Hs].
      * apply Exists_cons in He as [He|He]; [simpl in He; lia|]. left. apply Exists_app. by right.
      * right. eapply split_at_seg; [done|done|lia].
Qed.

(** The whole array is the first range to sort. *)
Lemma quick_inv_start (l0 : list A) : 2 <= zlen l0 -> quick_inv l0 l0 [(0, zlen l0 - 1)].
Proof.
  intros H. split; simpl;
    [done|rewrite !Forall_cons; simpl; repeat split; (lia || constructor)|done|done|unfold size; simpl; lia|].
  intros k. destruct (decide (0 < k <= zlen l0 - 1)); [left; by constructor|right].
  apply split_at_out. lia.
Qed.

(** Below the range on top of the stack there are at most 64 others. *)
Lemma quick_inv_depth (l0 b : list A) s segs :
  zlen l0 < 2 ^ 63 -> quick_inv l0 b (s :: segs) -> zlen segs <= 64.
Proof.
  intros Hlen QI. destruct (decide (1 <= zlen segs)); [|lia].
  pose proof (tower_height s segs (qi_tower _ _ _ QI) ltac:(done)) as Ht.
  pose proof (qi_total _ _ _ QI) as Hto. simpl in Hto.
  pose proof (total_nonneg segs). pose proof (zlen_nonneg l0).
  enough (zlen segs - 1 < 63) by lia. apply (Z.pow_lt_mono_r_iff 2); lia.
Qed.

(** C35. The quick sort of [scl_sort.c] sorts every array of at most
    [LONG_MAX] elements: it terminates with an ordered permutation of its
    input, never leaves the array, and, because the smaller part is always
    processed first, never overflows the 256-entry stack. *)
Theorem scl_sort_quick_sorts (l0 : list A) (Hlen : zlen l0 < 2 ^ 63) :
  sorts cmp l0 (scl_sort_quick (Some l0) (zlen l0) (Some cmp)).
Proof.
  unfold scl_sort_quick. destruct (Z.ltb_spec (zlen l0) 2); [by apply sorts_short|].
  assert (zlen (replicate STACK_LONGS 0) = 256) as H256 by (by rewrite zlen_replicate).
  set (n := zlen l0) in *.
  assert (wp (push2 (replicate STACK_LONGS 0) (-1) 0 (n - 1))
    (fun '(st, sp) => zlen st = 256 /\ on_stack st sp [(0, n - 1)])) as ([st sp] & -> & Hst & Hon)%wp_ok.
  { apply (wp_push2 _ _ []); [done|zl|]. intros st sp L H'. by rewrite L. }
  rewrite bind_Ok. apply sorts_intro.
  apply (wp_loop_rel (fun m '(b, stack, sp) => exists segs,
    on_stack stack sp segs /\ zlen stack = 256 /\ quick_inv l0 b segs /\
    m = 2 * total segs + zlen segs) (2 * n + 1)).
  - exists [(0, n - 1)]. split; [done|]. split; [done|]. split.
    + apply quick_inv_start. lia.
    + unfold total, size, zlen; simpl. lia.
  - unfold n, zlen. lia.
  - lia.
  - intros m [[b stack] sp'] (segs & Hs & Hl & QI & ->). pose proof (on_stack_sp _ _ _ Hs).
    pose proof (qi_perm _ _ _ QI) as P. pose proof (zlen_perm _ _ P).
    pose proof (zlen_nonneg segs). rewrite Z.geb_leb. destruct (Z.leb_spec 0 sp').
    2:{ wstep. destruct segs as [|s segs]; [|pose proof (zlen_cons s segs); pose proof (zlen_nonneg segs); lia].
        split; [done|]. apply split_all_srt. intros k Hk.
        by destruct (qi_split _ _ _ QI k) as [He%Exists_nil|]. }
    destruct segs as [|[l r] segs]; [simpl in Hs; lia|].
    destruct Hs as (E1 & E2 & Hs). pose proof (zlen_cons (l, r) segs) as EL0.
    pose proof (zlen_nonneg segs) as Hnn. pose proof (total_nonneg segs).
    pose proof (size_nonneg (l, r)).
    pose proof (quick_inv_depth _ _ _ _ Hlen QI) as Hdepth.
    wstep. apply wp_get; [lia|]; intros r' Er. wstep. apply wp_get; [lia|]; intros l' El.
    assert (r' = r) as -> by congruence. assert (l' = l) as -> by congruence.
    rewrite Z.geb_leb. destruct (Z.leb_spec r l) as [Hrl|Hrl].
    + wstep. exists (2 * total segs + zlen segs). split; [simpl; lia|].
      exists segs. split; [done|]. split; [done|]. split; [by eapply quick_inv_skip|done].
    + pose proof (qi_range _ _ _ QI) as [R _]%Forall_cons. simpl in R.
      destruct (quick_inv_bounds _ _ _ _ _ Hrl QI) as [B1 B2].
      wstep. eapply wp_mono; [apply (lomuto_spec cmp); lia|]. intros [b' i] (Hi & SP & Hlo & Hhi).
      destruct (lomuto_splits cmp b b' _ _ _ Hi SP B1 B2 Hlo Hhi) as [S1 S2].
      wstep. apply (wp_push_parts stack _ segs); [done|lia|]. intros st' sp2 L' Hs'. wstep.
      destruct (parts_tower _ i _ segs Hi Hrl (qi_tower _ _ _ QI)) as [E _].
      exists (2 * total (parts l i r ++ segs) + zlen (parts l i r ++ segs)).
      assert (zlen (parts l i r ++ segs) = zlen segs + 2) as EL.
      { rewrite zlen_app. unfold parts. destruct (_ <? _); rewrite !zlen_cons, zlen_nil; lia. }
      pose proof (total_nonneg (parts l i r ++ segs)). split; [simpl in *; lia|].
      exists (parts l i r ++ segs). split; [done|]. split; [lia|].
      split; [by eapply quick_inv_partition|done].
Qed.
End Quick.

Lemma scl_sort_quick_sorts_witness :
  exists l', scl_sort_quick (Some [3; 1; 2; 1]) 4 (Some Zcmp) = Ok (SCL_OK, Some l') /\
             l' ≡ₚ [3; 1; 2; 1] /\ ordered Zcmp l'.
Proof. exact (scl_sort_quick_sorts Zcmp [3; 1; 2; 1] eq_refl). Defined.
