(* ===== verification/MergeSort.v ===== *)
(** The bottom-up merge sort of [libs/sort/scl_sort.c] (and of
    [libs/sort/merge/scl_merge.c]), the recursive [msort_seq] used by the
    multithreaded variant, and the agreement of all the stable sorts. *)

From S2P Require Import Prelude Core SortSpec Sort.
#[local] Open Scope Z_scope.

Section MergeDefs.
Context {A : Type}.
Implicit Types (base : list A) (tmp : block A).

(** [tmp[ti++] = base[li++]] until [li] reaches [mid]. *)
Definition copy_run base tmp (li mid ti : Z) : res (block A * Z) :=
  loop (S (Z.to_nat (mid - li)))
    (fun '(tmp, li, ti) =>
       if li <? mid then
         x ← get base li; tmp ← set tmp ti (Some x); mret (inl (tmp, li + 1, ti + 1))
       else mret (inr (tmp, ti)))
    (tmp, li, ti).

(** Merge the sorted runs [li..mid) and [ri..r) of [base] into [tmp]. *)
Definition merge_runs (cmp : A -> A -> Z) base tmp (li mid ri r ti : Z) : res (block A * Z) :=
  '(tmp, li, ri, ti) ← loop (S (Z.to_nat (mid - li + (r - ri))))
    (fun '(tmp, li, ri, ti) =>
       if (li <? mid) && (ri <? r) then
         x ← get base li; y ← get base ri;
         if cmp x y <=? 0
         then tmp ← set tmp ti (Some x); mret (inl (tmp, li + 1, ri, ti + 1))
         else tmp ← set tmp ti (Some y); mret (inl (tmp, li, ri + 1, ti + 1))
       else mret (inr (tmp, li, ri, ti)))
    (tmp, li, ri, ti);
  '(tmp, ti) ← copy_run base tmp li mid ti;
  copy_run base tmp ri r ti.

(** [memcpy(base + off, tmp + from, n)]. *)
Definition copy_back base (off : Z) tmp (from n : Z) : res (list A) :=
  zfor 0 n
    (fun k base =>
       c ← get tmp (from + k);
       match c with Some x => set base (off + k) x | None => UB end) base.

Definition merge_pass (cmp : A -> A -> Z) base tmp (count width : Z) : res (list A * block A) :=
  loop (S (Z.to_nat count))
    (fun '(base, tmp, i) =>
       if i <? count then
         let mid := u64 (i + width) in
         let next := u64 (i + u64 (2 * width)) in
         if mid >=? count then mret (inl (base, tmp, next))
         else
           let r := u64 (i + u64 (2 * width)) in
           let r := if r >? count then count else r in
           '(tmp, ti) ← merge_runs cmp base tmp i mid mid r 0;
           base ← copy_back base i tmp 0 ti;
           mret (inl (base, tmp, next))
       else mret (inr (base, tmp)))
    (base, tmp, 0).

(** [es] is [element_size]. *)
Definition scl_sort_merge (al : scl_allocator_t) (w : world) (base : option (list A))
    (count es : Z) (cmp : option (A -> A -> Z))
    : res (scl_error_t * option (list A) * world) :=
  match base, cmp with
  | Some base, Some cmp =>
      if count <? 2 then mret (SCL_OK, Some base, w)
      else
        match scl_mul_overflow count es with
        | None => mret (SCL_ERR_SIZE_OVERFLOW, Some base, w)
        | Some bytes =>
            match scl_alloc al w bytes MAX_ALIGN es with
            | (None, w) => mret (SCL_ERR_OUT_OF_MEMORY, Some base, w)
            | (Some tmp, w) =>
                '(base, tmp) ← loop 65
                  (fun '(base, tmp, width) =>
                     if width <? count then
                       '(base, tmp) ← merge_pass cmp base tmp count width;
                       mret (inl (base, tmp, u64 (width * 2)))
                     else mret (inr (base, tmp)))
                  (base, tmp, 1);
                mret (SCL_OK, Some base, scl_free w (Some tmp))
            end
        end
  | _, _ => mret (SCL_ERR_NULL_PTR, base, w)
  end.

(** [msort_merge] and [msort_seq] of [scl_merge.c]; [tmp] is indexed like
    [base]. *)
Definition msort_merge (cmp : A -> A -> Z) base (lo mid hi : Z) tmp : res (list A * block A) :=
  '(tmp, ti) ← merge_runs cmp base tmp lo mid mid hi lo;
  base ← copy_back base lo tmp lo (hi - lo);
  mret (base, tmp).

Fixpoint msort_seq (fuel : nat) (cmp : A -> A -> Z) base (lo hi : Z) tmp : res (list A * block A) :=
  match fuel with
  | O => Fuel
  | S fuel =>
      if hi - lo <? 2 then mret (base, tmp)
      else
        let mid := lo + (hi - lo) / 2 in
        '(base, tmp) ← msort_seq fuel cmp base lo mid tmp;
        '(base, tmp) ← msort_seq fuel cmp base mid hi tmp;
        msort_merge cmp base lo mid hi tmp
  end.
End MergeDefs.

(** * Theorems *)

(** The reference merge. *)
Fixpoint merge_ref {A} (cmp : A -> A -> Z) (l1 : list A) : list A -> list A :=
  fix go (l2 : list A) :=
    match l1, l2 with
    | [], _ => l2
    | _, [] => l1
    | x :: l1', y :: l2' =>
        if cmp x y <=? 0 then x :: merge_ref cmp l1' l2 else y :: go l2'
    end.

Section MergeRuns.
Context {A : Type} (cmp : A -> A -> Z) `{!Comparator cmp}.
Implicit Types (b : list A) (tmp : block A) (T : list A).

(** [tmp[t0..ti)] holds the elements [T]. *)
Definition filled tmp (t0 ti : Z) T : Prop :=
  ti = t0 + zlen T /\ slice tmp t0 ti = Some <$> T.

Lemma filled_set tmp t0 ti T x :
  0 <= t0 -> ti < zlen tmp -> filled tmp t0 ti T ->
  filled (zupd tmp ti (Some x)) t0 (ti + 1) (T ++ [x]).
Proof.
  intros H0 Hlt [-> E]. split; [zl|]. pose proof (zlen_nonneg T).
  apply zlook_ext; intros i. rewrite fmap_app, zlook_app, <- E, zlen_slice by lia.
  rewrite !zlook_slice, zlook_zupd by lia. simpl. rewrite zlook_cons, zlook_nil.
  repeat (bcase || case_decide); simpl; try done; try lia.
Qed.

Lemma wp_copy_run b tmp li mid t0 ti T Q :
  0 <= li <= mid -> mid <= zlen b -> 0 <= t0 -> ti + (mid - li) <= zlen tmp ->
  filled tmp t0 ti T ->
  (forall tmp', zlen tmp' = zlen tmp -> filled tmp' t0 (ti + (mid - li)) (T ++ slice b li mid) ->
     Q (tmp', ti + (mid - li))) ->
  wp (copy_run b tmp li mid ti) Q.
Proof.
  intros Hl Hm H0 Ht HF HQ. unfold copy_run.
  apply (wp_loop (fun '(tmp', li', ti') => li <= li' <= mid /\ zlen tmp' = zlen tmp /\
           ti' = ti + (li' - li) /\
           filled tmp' t0 ti' (T ++ slice b li li')) (fun '(_, li', _) => mid - li')); [|lia|lia|].
  - split; [lia|]. split; [done|]. split; [lia|]. by rewrite slice_nil, app_nil_r by lia.
  - intros [[tmp' li'] ti'] (Hl' & L & -> & F). bcase.
    + wstep; wstep. destruct F as [F1 F2]. pose proof (zlen_nonneg (T ++ slice b li li')).
      wstep. wstep. wstep. split; [|lia]. split; [lia|].
      split; [by rewrite zlen_zupd|]. split; [lia|].
      rewrite <- (slice_app b li li' (li' + 1)) by lia.
      rewrite (slice_cons b li' (li' + 1) x), (slice_nil b (li' + 1) (li' + 1)), app_assoc by (done || lia).
      apply filled_set; [done|lia|done].
    + assert (li' = mid) as -> by lia. wstep. by apply HQ.
Qed.

Lemma merge_ref_nil_l (l2 : list A) : merge_ref cmp [] l2 = l2.
Proof. by destruct l2. Qed.

Lemma merge_ref_nil_r (l1 : list A) : merge_ref cmp l1 [] = l1.
Proof. by destruct l1. Qed.

Lemma merge_ref_cons x y (l1 l2 : list A) :
  merge_ref cmp (x :: l1) (y :: l2) =
    if cmp x y <=? 0 then x :: merge_ref cmp l1 (y :: l2) else y :: merge_ref cmp (x :: l1) l2.
Proof. done. Qed.

Lemma merge_ref_perm (l1 l2 : list A) : merge_ref cmp l1 l2 ≡ₚ l1 ++ l2.
Proof.
  revert l2. induction l1 as [|x l1 IH]; intros l2; [by rewrite merge_ref_nil_l|].
  induction l2 as [|y l2 IH2]; [by rewrite app_nil_r|].
  rewrite merge_ref_cons. destruct (cmp x y <=? 0).
  - simpl. by rewrite IH.
  - rewrite IH2. simpl. rewrite <- Permutation_middle. constructor.
Qed.
Lemma merge_ref_ordered (l1 l2 : list A) :
  ordered cmp l1 -> ordered cmp l2 -> ordered cmp (merge_ref cmp l1 l2).
Proof.
  intros H1. revert l2. induction H1 as [|x l1 Hs1 IH1 Hx]; intros l2 H2; [by rewrite merge_ref_nil_l|].
  induction H2 as [|y l2 Hs2 IH2 Hy]; [by constructor|].
  rewrite merge_ref_cons. destruct (Z.leb_spec (cmp x y) 0); constructor; try done.
  - by apply IH1; constructor.
  - rewrite merge_ref_perm. apply Forall_app. split; [done|]. constructor; [done|].
    eapply Forall_impl; [done|]. intros z Hz. by eapply (cmp_trans cmp).
  - rewrite merge_ref_perm. apply Forall_app. split; [|done].
    assert (cmp y x <= 0) by (apply (cmp_le_ge cmp); lia). constructor; [done|].
    eapply Forall_impl; [done|]. intros z Hz. by eapply (cmp_trans cmp).
Qed.

Lemma class_nil z (l : list A) : Forall (fun u => cmp z u <> 0) l -> class cmp z l = [].
Proof. unfold class. induction 1; [done|]. by rewrite filter_cons_False. Qed.

Lemma merge_ref_class z (l1 l2 : list A) :
  ordered cmp l1 -> ordered cmp l2 -> class cmp z (merge_ref cmp l1 l2) = class cmp z (l1 ++ l2).
Proof.
  intros H1. revert l2. induction H1 as [|x l1 Hs1 IH1 Hx]; intros l2 H2; [by rewrite merge_ref_nil_l|].
  induction H2 as [|y l2 Hs2 IH2 Hy]; [by rewrite app_nil_r|].
  rewrite merge_ref_cons. destruct (Z.leb_spec (cmp x y) 0).
  - specialize (IH1 (y :: l2)). unfold class in *. simpl. rewrite !filter_cons.
    rewrite IH1 by by constructor. done.
  - transitivity (class cmp z [y] ++ class cmp z (merge_ref cmp (x :: l1) l2));
      [by rewrite <- (class_app cmp)|].
    rewrite IH2. change (y :: l2) with ([y] ++ l2). rewrite !(class_app cmp).
    rewrite !(assoc_L (++)). f_equal. destruct (decide (cmp z y = 0)).
    + rewrite (class_nil z (x :: l1)); [by rewrite app_nil_r|].
      assert (cmp y x < 0) by (apply (cmp_sym cmp); lia).
      assert (cmp z x < 0) by (eapply (cmp_le_lt_trans cmp _ y); lia).
      constructor; [lia|]. eapply Forall_impl; [done|]. intros u Hu.
      pose proof (cmp_lt_le_trans cmp z x u ltac:(lia) Hu). lia.
    + unfold class at 1 4. by rewrite filter_cons_False, app_nil_r.
Qed.

(** The three loops compute the reference merge. *)
Lemma wp_merge_runs b tmp lo mid r t0 Q :
  0 <= lo <= mid -> mid <= r <= zlen b -> 0 <= t0 -> t0 + (r - lo) <= zlen tmp ->
  (forall tmp', zlen tmp' = zlen tmp ->
     filled tmp' t0 (t0 + (r - lo)) (merge_ref cmp (slice b lo mid) (slice b mid r)) ->
     Q (tmp', t0 + (r - lo))) ->
  wp (merge_runs cmp b tmp lo mid mid r t0) Q.
Proof.
  intros Hlo Hr H0 Ht HQ. unfold merge_runs. apply wp_bind.
  set (M := merge_ref cmp (slice b lo mid) (slice b mid r)) in *.
  apply (wp_loop (fun '(tmp', li, ri, ti) => lo <= li <= mid /\ mid <= ri <= r /\
      zlen tmp' = zlen tmp /\ ti = t0 + (li - lo) + (ri - mid) /\
      exists T, filled tmp' t0 ti T /\ M = T ++ merge_ref cmp (slice b li mid) (slice b ri r))
    (fun '(_, li, ri, _) => mid - li + (r - ri))); [|lia|lia|].
  - split; [lia|]. split; [lia|]. split; [done|]. split; [lia|]. exists [].
    split; [|done]. split; [zl|]. by rewrite slice_nil by lia.
  - intros [[[tmp' li] ri] ti] (Hli & Hri & L & Eti & T & F & EM).
    destruct (Z.ltb_spec li mid), (Z.ltb_spec ri r); cbn [andb].
    { do 4 wstep. rename x into u, x0 into v. rewrite (slice_cons b li mid u) in EM by done.
      rewrite (slice_cons b ri r v), merge_ref_cons in EM by done.
      destruct (cmp u v <=? 0); wstep; wstep; wstep; (split; [|lia]);
        (split; [lia|]); (split; [lia|]); (split; [by rewrite zlen_zupd|]); (split; [lia|]).
      - exists (T ++ [u]). split; [apply filled_set; [done|lia|done]|].
        rewrite EM, <- (assoc_L (++)), (slice_cons b ri r v) by done. done.
      - exists (T ++ [v]). split; [apply filled_set; [done|lia|done]|].
        rewrite EM, <- (assoc_L (++)), (slice_cons b li mid u) by done. done. }
    all: wstep; wstep; eapply (wp_copy_run _ _ _ _ t0 _ T); [lia|lia|lia|lia|done|].
    all: intros tmp1 L1 F1; eapply (wp_copy_run _ _ _ _ t0); [lia|lia|lia|lia|done|].
    all: intros tmp2 L2 F2.
    all: replace (ti + (mid - li) + (r - ri)) with (t0 + (r - lo)) in * by lia; apply HQ; [lia|].
    all: rewrite EM; rewrite <- (assoc_L (++)) in F2.
    + rewrite (slice_nil b ri r) in * by lia. by rewrite merge_ref_nil_r, app_nil_r in *.
    + rewrite (slice_nil b li mid) in * by lia. by rewrite merge_ref_nil_l in *.
    + rewrite (slice_nil b li mid) in * by lia. by rewrite merge_ref_nil_l in *.
Qed.

Lemma wp_copy_back b off tmp t0 n T Q :
  0 <= off -> 0 <= t0 -> off + n <= zlen b -> t0 + n <= zlen tmp -> 0 <= n ->
  filled tmp t0 (t0 + n) T ->
  Q (slice b 0 off ++ T ++ slice b (off + n) (zlen b)) ->
  wp (copy_back b off tmp t0 n) Q.
Proof.
  intros Ho Ht0 Hb Ht Hn [EL ET] HQ. unfold copy_back.
  assert (zlen T = n) as En by lia.
  apply (wp_zfor (fun k b' => 0 <= k <= n /\ zlen b' = zlen b /\
    forall i, zlook b' i = if (off <=? i) && (i <? off + k) then zlook T (i - off) else zlook b i)).
  - split; [lia|]. split; [done|]. intros i. repeat bcase; simpl; try done; lia.
  - intros k b' Hk (_ & L & E). wstep. wstep.
    assert (exists y, zlook T k = Some y /\ x = Some y) as (y & Ey & ->).
    { destruct (zlook_lt T k) as [y Hy]; [lia|]. exists y. split; [done|].
      assert (zlook (slice tmp t0 (t0 + n)) k = zlook (Some <$> T) k) as E2 by by rewrite ET.
      rewrite zlook_slice, zlook_fmap, Hy in E2 by lia.
      destruct (Z.leb_spec 0 k), (Z.ltb_spec k (t0 + n - t0)); simpl in E2; try lia. congruence. }
    wstep. split; [lia|]. split; [by rewrite zlen_zupd|]. intros i.
    rewrite zlook_zupd, E. case_decide as Hd.
    + destruct Hd as [<- _]. repeat bcase; simpl; try lia. rewrite <- Ey. f_equal. lia.
    + repeat bcase; simpl; try done; lia.
  - intros b' (_ & L & E). rewrite Z.max_r in E by lia.
    replace b' with (slice b 0 off ++ T ++ slice b (off + n) (zlen b)); [done|].
    apply zlook_ext; intros i. rewrite E, !zlook_app, !zlook_slice, zlen_slice by lia.
    repeat bcase; simpl; try done; try lia; try (f_equal; lia).
    + by rewrite zlook_neg by lia.
    + by rewrite zlook_ge by lia.
Qed.

(** The effect of merging two adjacent sorted runs of the array. *)
Record merged b b' lo r : Prop := {
  mg_perm : b' ≡ₚ b;
  mg_stable : stable cmp b b';
  mg_srt : srt cmp b' lo r;
  mg_out : forall k, k < lo \/ r <= k -> zlook b' k = zlook b k
}.

Lemma srt_slice b lo hi :
  0 <= lo <= hi -> hi <= zlen b -> srt cmp b lo hi -> ordered cmp (slice b lo hi).
Proof.
  intros H1 H2 H. apply srt_ordered. rewrite zlen_slice by lia.
  intros i j x y Hi Hij Hj Hx Hy. rewrite zlook_slice in Hx, Hy by lia.
  destruct (Z.leb_spec 0 i), (Z.ltb_spec i (hi - lo)), (Z.leb_spec 0 j), (Z.ltb_spec j (hi - lo));
    simpl in *; try lia.
  apply (H (lo + i) (lo + j)); zside.
Qed.

Lemma merged_intro b lo mid r :
  0 <= lo <= mid -> mid <= r <= zlen b -> srt cmp b lo mid -> srt cmp b mid r ->
  merged b (slice b 0 lo ++ merge_ref cmp (slice b lo mid) (slice b mid r) ++
            slice b r (zlen b)) lo r.
Proof.
  intros H1 H2 S1 S2.
  assert (ordered cmp (slice b lo mid)) as O1 by (apply srt_slice; (lia || done)).
  assert (ordered cmp (slice b mid r)) as O2 by (apply srt_slice; (lia || done)).
  set (M := merge_ref cmp (slice b lo mid) (slice b mid r)).
  assert (b = slice b 0 lo ++ (slice b lo mid ++ slice b mid r) ++ slice b r (zlen b)) as E.
  { rewrite (slice_app b lo mid r) by lia. by apply slice_split; lia. }
  assert (M ≡ₚ slice b lo mid ++ slice b mid r) as PM by apply merge_ref_perm.
  assert (zlen M = r - lo) as LM.
  { rewrite (zlen_perm _ _ PM), zlen_app, !zlen_slice by lia. lia. }
  split.
  - rewrite E at 4. by rewrite PM.
  - intros z. rewrite E at 4. rewrite !(class_app cmp). unfold M.
    by rewrite merge_ref_class, (class_app cmp) by done.
  - pose proof (ordered_srt cmp M (merge_ref_ordered _ _ O1 O2)) as SM.
    intros i j x y Hi Hij Hj Hx Hy. rewrite !zlook_app, !zlen_slice in Hx, Hy by lia.
    destruct (Z.ltb_spec i (lo - 0)), (Z.ltb_spec j (lo - 0)); try lia.
    destruct (Z.ltb_spec (i - (lo - 0)) (zlen M)), (Z.ltb_spec (j - (lo - 0)) (zlen M)); try lia.
    eapply SM; [| | |exact Hx|exact Hy]; lia.
  - intros k Hk. rewrite !zlook_app, !zlook_slice, !zlen_slice by lia.
    repeat bcase; simpl; try done; try lia; try (f_equal; lia).
    + by rewrite zlook_neg by lia.
    + by rewrite zlook_ge by lia.
Qed.

Lemma wp_merge_block b tmp lo mid r t0 Q :
  0 <= lo <= mid -> mid <= r <= zlen b -> 0 <= t0 -> t0 + (r - lo) <= zlen tmp ->
  srt cmp b lo mid -> srt cmp b mid r ->
  (forall b' tmp', merged b b' lo r -> zlen tmp' = zlen tmp -> Q (b', tmp')) ->
  wp ('(tmp, ti) ← merge_runs cmp b tmp lo mid mid r t0;
      b' ← copy_back b lo tmp t0 (r - lo); mret (b', tmp)) Q.
Proof.
  intros H1 H2 H0 Ht S1 S2 HQ. wstep. apply wp_merge_runs; [lia|lia|lia|lia|].
  intros tmp' L F. wstep. eapply wp_copy_back; [lia|done|lia|lia|lia|done|]. wstep.
  apply HQ; [|done]. replace (lo + (r - lo)) with r by lia. by apply merged_intro.
Qed.

(** ** The recursive sort of a range *)
Lemma wp_msort_seq fuel b lo hi tmp Q :
  0 <= lo <= hi -> hi <= zlen b -> hi <= zlen tmp -> hi - lo < Z.of_nat fuel ->
  (forall b' tmp', b' ≡ₚ b -> stable cmp b b' -> srt cmp b' lo hi ->
     (forall k, k < lo \/ hi <= k -> zlook b' k = zlook b k) -> zlen tmp' = zlen tmp ->
     Q (b', tmp')) ->
  wp (msort_seq fuel cmp b lo hi tmp) Q.
Proof.
  revert b lo hi tmp Q. induction fuel as [|fuel IH]; intros b lo hi tmp Q H1 H2 H3 Hf HQ; [lia|].
  cbn [msort_seq]. bcase.
  { wstep. apply HQ; try done. intros i j; lia. }
  cbv zeta. set (mid := lo + (hi - lo) / 2). assert (lo < mid < hi) by (unfold mid; zdiv).
  wstep. apply IH; [lia|lia|lia|lia|]. intros b1 t1 P1 St1 S1 O1 L1.
  pose proof (zlen_perm _ _ P1).
  wstep. apply IH; [lia|lia|lia|lia|]. intros b2 t2 P2 St2 S2 O2 L2.
  pose proof (zlen_perm _ _ P2). unfold msort_merge.
  apply wp_merge_block; [lia|lia|lia|lia| |done|].
  { apply (srt_ext cmp b1); [|done]. intros k Hk. apply O2. lia. }
  intros b3 t3 [P3 St3 S3 O3] L3. apply HQ.
  - by rewrite P3, P2.
  - eapply stable_trans; [done|]. by eapply stable_trans.
  - done.
  - intros k Hk. rewrite O3, O2, O1 by lia. done.
  - lia.
Qed.

(** ** The bottom-up passes *)

(** Every block of [width] cells is sorted. *)
Definition blocks_sorted b (width : Z) : Prop :=
  forall m, 0 <= m -> srt cmp b (m * width) (Z.min ((m + 1) * width) (zlen b)).

Lemma merge_step b b' width m0 n :
  0 < width -> n = zlen b -> 0 <= m0 -> merged b b' (m0 * (2 * width)) (Z.min ((m0 + 1) * (2 * width)) n) ->
  (forall m, 0 <= m < m0 -> srt cmp b (m * (2 * width)) (Z.min ((m + 1) * (2 * width)) n)) ->
  (forall m, 2 * m0 <= m -> srt cmp b (m * width) (Z.min ((m + 1) * width) n)) ->
  (forall m, 0 <= m < m0 + 1 -> srt cmp b' (m * (2 * width)) (Z.min ((m + 1) * (2 * width)) n)) /\
  (forall m, 2 * (m0 + 1) <= m -> srt cmp b' (m * width) (Z.min ((m + 1) * width) n)).
Proof.
  intros Hw -> H0 [P St S O] Hd Ht. split; intros m Hm.
  - destruct (decide (m = m0)) as [->|]; [done|].
    apply (srt_ext cmp b); [|by apply Hd; lia]. intros k Hk. apply O. left. nia.
  - apply (srt_ext cmp b); [|by apply Ht; lia]. intros k Hk. apply O. right. nia.
Qed.

Lemma wp_merge_pass b tmp width Q :
  0 < width <= 2 ^ 62 -> zlen b < 2 ^ 63 -> zlen b <= zlen tmp -> blocks_sorted b width ->
  (forall b' tmp', b' ≡ₚ b -> stable cmp b b' -> blocks_sorted b' (2 * width) ->
     zlen tmp' = zlen tmp -> Q (b', tmp')) ->
  wp (merge_pass cmp b tmp (zlen b) width) Q.
Proof.
  intros Hw Hn Ht Hs HQ. unfold merge_pass. set (n := zlen b) in *.
  apply (wp_loop (fun '(b', tmp', i) => b' ≡ₚ b /\ stable cmp b b' /\ zlen tmp' = zlen tmp /\
    exists m0, 0 <= m0 /\ i = m0 * (2 * width) /\
      (forall m, 0 <= m < m0 -> srt cmp b' (m * (2 * width)) (Z.min ((m + 1) * (2 * width)) n)) /\
      (forall m, 2 * m0 <= m -> srt cmp b' (m * width) (Z.min ((m + 1) * width) n)))
    (fun '(_, _, i) => Z.max 0 (n - i))); [|unfold n, zlen; lia|lia|].
  { split; [done|]. split; [done|]. split; [done|]. exists 0. split; [done|]. split; [done|].
    split; [lia|]. intros m Hm. apply Hs. lia. }
  intros [[b1 t1] i] (P & St & L & m0 & H0 & -> & Hd & Htd).
  assert (zlen b1 = n) as Ln by (unfold n; by rewrite (zlen_perm _ _ P)).
  destruct (Z.ltb_spec (m0 * (2 * width)) n) as [Hi|Hi].
  2:{ wstep. apply HQ; [done|done| |done]. intros m Hm. rewrite Ln.
      destruct (decide (m < m0)); [apply Hd; lia|]. intros p q u v; nia. }
  cbv zeta. rewrite (u64_small (2 * width)), !u64_small by nia.
  assert (m0 * (2 * width) + 2 * width = (m0 + 1) * (2 * width)) as En by lia.
  rewrite Z.geb_leb. destruct (Z.leb_spec n (m0 * (2 * width) + width)) as [Hmid|Hmid].
  - wstep. split; [|lia]. split; [done|]. split; [done|]. split; [done|].
    exists (m0 + 1). split; [lia|]. split; [lia|]. split; [|intros m Hm; apply Htd; lia].
    intros m Hm. destruct (decide (m = m0)) as [->|]; [|apply Hd; lia].
    eapply srt_weaken; [| |apply (Htd (2 * m0)); lia]; lia.
  - set (r := if _ >? n then n else _).
    assert (r = Z.min ((m0 + 1) * (2 * width)) n) as Er by (unfold r; repeat bcase; lia).
    clearbody r. subst r. wstep.
    set (r := Z.min ((m0 + 1) * (2 * width)) n) in *.
    assert (m0 * (2 * width) + width <= r <= n) as Hr by lia.
    apply wp_merge_runs; [lia|lia|lia|lia|]. intros t2 L2 F. rewrite Z.add_0_l in *. wstep.
    eapply wp_copy_back; [lia|done|lia|lia|lia|done|]. wstep.
    replace (m0 * (2 * width) + (r - m0 * (2 * width))) with r by lia.
    assert (merged b1 (slice b1 0 (m0 * (2 * width)) ++
      merge_ref cmp (slice b1 (m0 * (2 * width)) (m0 * (2 * width) + width))
        (slice b1 (m0 * (2 * width) + width) r) ++ slice b1 r (zlen b1)) (m0 * (2 * width)) r) as MG.
    { apply merged_intro; [lia|lia| |].
      - eapply srt_weaken; [| |apply (Htd (2 * m0)); lia]; lia.
      - eapply srt_weaken; [| |apply (Htd (2 * m0 + 1)); lia]; lia. }
    set (b2 := _ ++ _) in *. split; [|lia].
    destruct (merge_step b1 b2 width m0 n ltac:(lia) (eq_sym Ln) H0 MG Hd Htd) as [Hd2 Ht2].
    split; [by rewrite (mg_perm _ _ _ _ MG)|].
    split; [eapply stable_trans; [done|apply MG]|]. split; [lia|].
    exists (m0 + 1). split; [lia|]. split; [lia|done].
Qed.

Lemma wp_merge_passes b tmp Q :
  zlen b < 2 ^ 63 -> zlen b <= zlen tmp -> 1 <= zlen b ->
  (forall tmp', Q (isort cmp b, tmp')) ->
  wp (loop 65 (fun '(base, tmp, width) =>
        if width <? zlen b then
          '(base, tmp) ← merge_pass cmp base tmp (zlen b) width;
          mret (inl (base, tmp, u64 (width * 2)))
        else mret (inr (base, tmp))) (b, tmp, 1)) Q.
Proof.
  intros Hn Ht H1 HQ.
  apply (wp_loop_rel (fun m '(b', tmp', width) => exists k, m = 64 - k /\ 0 <= k <= 63 /\
    width = 2 ^ k /\ b' ≡ₚ b /\ stable cmp b b' /\ zlen b <= zlen tmp' /\ blocks_sorted b' width) 64);
    [|lia|lia|].
  - exists 0. split; [lia|]. split; [lia|]. split; [done|]. split; [done|]. split; [done|].
    split; [done|]. intros m Hm i j; lia.
  - intros m [[b1 t1] width] (k & -> & Hk & -> & P & St & L & Bs).
    pose proof (zlen_perm _ _ P) as Lb. rewrite <- Lb.
    assert (0 < 2 ^ k) by (apply Z.pow_pos_nonneg; lia).
    destruct (Z.ltb_spec (2 ^ k) (zlen b1)) as [Hlt|Hge].
    + assert (k <= 62) as Hk62.
      { enough (k < 63) by lia. apply (Z.pow_lt_mono_r_iff 2); lia. }
      assert (2 ^ k <= 2 ^ 62) by (apply Z.pow_le_mono_r; lia).
      wstep. apply wp_merge_pass; [lia|lia|lia|done|]. intros b2 t2 P2 St2 Bs2 L2. wstep.
      exists (64 - (k + 1)). split; [lia|]. exists (k + 1). split; [done|]. split; [lia|].
      rewrite u64_small by lia. rewrite Z.pow_add_r by lia. split; [lia|].
      split; [by rewrite P2|]. split; [by eapply stable_trans|]. split; [lia|].
      by rewrite Z.mul_comm.
    + wstep. replace b1 with (isort cmp b); [apply HQ|]. symmetry.
      apply (isort_unique cmp); [|done]. apply srt_ordered.
      eapply srt_weaken; [| |apply (Bs 0); lia]; lia.
Qed.

Lemma merge_sort_spec (al : scl_allocator_t) (w : world) (b : list A) (es : Z)
  (Hal : AllocatorOk al) (Hes : 1 <= es < 2 ^ 64) (Hb : zlen b < 2 ^ 64) :
  scl_sort_merge al w (Some b) (zlen b) es (Some cmp) =
    let w' := World (S (w_reqs w)) (w_live w) in
    if zlen b <? 2 then Ok (SCL_OK, Some b, w)
    else if zlen b * es >=? 2 ^ 64 then Ok (SCL_ERR_SIZE_OVERFLOW, Some b, w)
    else if malloc_fn al (w_reqs w) (zlen b * es) MAX_ALIGN
         then Ok (SCL_OK, Some (isort cmp b), w')
         else Ok (SCL_ERR_OUT_OF_MEMORY, Some b, w').
Proof.
  unfold scl_sort_merge. destruct (Z.ltb_spec (zlen b) 2); [done|].
  rewrite scl_mul_overflow_spec by (unfold is_u64; lia).
  rewrite Z.geb_leb, Z.leb_antisym. destruct (Z.ltb_spec (zlen b * es) (2 ^ 64)); [|done].
  cbn [negb]. unfold scl_alloc.
  destruct (malloc_fn al (w_reqs w) (zlen b * es) MAX_ALIGN) eqn:Em; [|done].
  apply malloc_fn_ok in Em as [_ Hmax]. unfold PTRDIFF_MAX in Hmax.
  set (tmp := fresh_cells _ _ _).
  assert (zlen tmp = zlen b) as Lt.
  { unfold tmp, fresh_cells. rewrite zlen_replicate, Z.div_mul by lia. lia. }
  match goal with |- ?m ≫= _ = _ => assert (wp m (fun '(b', _) => b' = isort cmp b))
    as ([b' t'] & -> & ->)%wp_ok end.
  { apply wp_merge_passes; [nia|lia|lia|done]. }
  simpl. do 4 f_equal. lia.
Qed.

(** C36. Merge sort on every branch: without an array or a comparator it
    answers [SCL_ERR_NULL_PTR], arrays of fewer than two elements are sorted
    already, a byte count that does not fit in [size_t] or an allocation that
    is refused is reported, each leaving the array as it was; otherwise the
    array becomes the stable sort of its contents, and the scratch buffer is
    freed. *)
Theorem scl_sort_merge_spec (al : scl_allocator_t) (w : world) (base : option (list A)) (count es : Z)
  (c : option (A -> A -> Z)) (Hal : AllocatorOk al) (Hes : 1 <= es < 2 ^ 64) (Hcount : 0 <= count < 2 ^ 64)
  (Hb : forall b, base = Some b -> zlen b = count) (Hc : forall f, c = Some f -> f = cmp) :
  scl_sort_merge al w base count es c =
    let w' := World (S (w_reqs w)) (w_live w) in
    match base, c with
    | Some b, Some _ =>
        if count <? 2 then Ok (SCL_OK, Some b, w)
        else if count * es >=? 2 ^ 64 then Ok (SCL_ERR_SIZE_OVERFLOW, Some b, w)
        else if malloc_fn al (w_reqs w) (count * es) MAX_ALIGN
             then Ok (SCL_OK, Some (isort cmp b), w')
             else Ok (SCL_ERR_OUT_OF_MEMORY, Some b, w')
    | _, _ => Ok (SCL_ERR_NULL_PTR, base, w)
    end.
Proof.
  destruct base as [b|]; [|done]. destruct c as [f|]; [|done].
  rewrite (Hc f eq_refl), <- (Hb b eq_refl). apply merge_sort_spec; [done..|].
  rewrite (Hb b eq_refl). apply Hcount.
Qed.
End MergeRuns.

Section StableSorts.
Context {A : Type} (cmp : A -> A -> Z) `{!Comparator cmp}.
Implicit Types (b : list A).

Lemma insertion_isort b :
  scl_sort_insertion (Some b) (zlen b) (Some cmp) = Ok (SCL_OK, Some (isort cmp b)).
Proof.
  unfold scl_sort_insertion. destruct (Z.ltb_spec (zlen b) 2).
  - do 3 f_equal. apply isort_unique; [done|by apply ordered_short|done].
  - destruct (proj1 (wp_ok _ _) (insertion_pass cmp b)) as (b' & -> & S & P & St).
    rewrite bind_Ok. do 3 f_equal. apply isort_unique; [done|by apply srt_ordered|done].
Qed.

Lemma bubble_isort b :
  scl_sort_bubble (Some b) (zlen b) (Some cmp) = Ok (SCL_OK, Some (isort cmp b)).
Proof.
  unfold scl_sort_bubble. destruct (Z.ltb_spec (zlen b) 2).
  - do 3 f_equal. apply isort_unique; [done|by apply ordered_short|done].
  - destruct (proj1 (wp_ok _ _) (wp_bubble cmp b ltac:(lia))) as (r & -> & S & P & St).
    rewrite bind_Ok. do 3 f_equal. apply isort_unique; [done|by apply srt_ordered|done].
Qed.

Lemma msort_seq_isort b tmp :
  zlen b <= zlen tmp ->
  exists tmp', msort_seq (S (length b)) cmp b 0 (zlen b) tmp = Ok (isort cmp b, tmp').
Proof.
  intros Ht.
  assert (wp (msort_seq (S (length b)) cmp b 0 (zlen b) tmp) (fun '(b', _) => b' = isort cmp b))
    as ([b' t'] & -> & ->)%wp_ok; [|by exists t'].
  pose proof (zlen_nonneg b).
  apply wp_msort_seq; [done|lia|lia|lia|unfold zlen; lia|]. intros b' tmp' P St S _ _.
  apply isort_unique; [done|apply srt_ordered|done]. by rewrite (zlen_perm _ _ P).
Qed.

(** C37. The three stable sorts compute the same function: insertion sort,
    bubble sort and the recursive merge sort all return the reference sort of
    the array, which is ordered, a permutation, and keeps equal elements in
    their original order. *)
Theorem stable_sorts_agree b (tmp : block A) (Htmp : zlen b <= zlen tmp) :
  scl_sort_insertion (Some b) (zlen b) (Some cmp) = Ok (SCL_OK, Some (isort cmp b)) /\
  scl_sort_bubble (Some b) (zlen b) (Some cmp) = Ok (SCL_OK, Some (isort cmp b)) /\
  (exists tmp', msort_seq (S (length b)) cmp b 0 (zlen b) tmp = Ok (isort cmp b, tmp')) /\
  ordered cmp (isort cmp b) /\ isort cmp b ≡ₚ b /\ stable cmp b (isort cmp b).
Proof.
  split; [apply insertion_isort|]. split; [apply bubble_isort|].
  split; [by apply msort_seq_isort|]. split; [by apply isort_ordered|].
  split; [apply isort_perm|by apply isort_stable].
Qed.

Lemma selection_shell_sorts b :
  sorts cmp b (scl_sort_selection (Some b) (zlen b) (Some cmp)) /\
  sorts cmp b (scl_sort_shell (Some b) (zlen b) (Some cmp)).
Proof.
  unfold scl_sort_selection, scl_sort_shell.
  destruct (Z.ltb_spec (zlen b) 2); [by split; apply sorts_short|].
  split; apply sorts_intro; [by apply wp_selection|].
  apply (wp_loop (fun '(b', gap) => b' ≡ₚ b /\ 0 <= gap <= zlen b /\
           (gap = 0 -> srt cmp b' 0 (zlen b'))) (fun '(_, gap) => gap)); [|zdiv|lia|].
  - split; [done|]. split; [zdiv|]. intros; zdiv.
  - intros [b' gap] (P & Hg & S). pose proof (zlen_perm _ _ P) as L. rewrite Z.gtb_ltb.
    destruct (Z.ltb_spec 0 gap); [|wstep; split; [done|apply S; lia]].
    rewrite <- L. wstep. destruct (decide (gap = 1)) as [->|].
    + eapply wp_mono; [apply insertion_pass; done|]. intros b2 (S2 & P2 & _). wstep.
      split; [split; [by rewrite P2|split; [zdiv|done]]|zdiv].
    + apply (wp_zfor (fun _ b2 => b2 ≡ₚ b')); [done| |].
      * intros i b2 Hi P2. eapply wp_mono; [apply sink_perm; [done|]|].
        -- rewrite (zlen_perm _ _ P2). lia.
        -- intros b3 P3. simpl. by rewrite P3.
      * intros b2 P2. wstep. split; [split; [by rewrite P2|split; [zdiv|]]|zdiv].
        intros E. exfalso. zdiv.
Qed.

(** Selection sort and shell sort (whose last gap is 1) return an
    ordered permutation of the array, without leaving it. *)
Theorem selection_and_shell_sort b :
  sorts cmp b (scl_sort_selection (Some b) (zlen b) (Some cmp)) /\
  sorts cmp b (scl_sort_shell (Some b) (zlen b) (Some cmp)).
Proof. apply selection_shell_sorts. Qed.
End StableSorts.

Lemma scl_sort_merge_spec_witness :
  let al := {| malloc_fn := fun _ n _ => (0 <? n) && (n <=? 100);
               calloc_fn := fun _ _ _ _ => false; realloc_fn := fun _ _ _ _ _ => Refused |} in
  scl_sort_merge al (World 0 0) (Some [3; 1; 2]) 3 8 (Some Zcmp) =
    Ok (SCL_OK, Some [1; 2; 3], World 1 0).
Proof.
  intros al. assert (AllocatorOk al) as Hal.
  { split; simpl; try discriminate. intros _ sz _ H%andb_prop. unfold PTRDIFF_MAX.
    rewrite Z.ltb_lt, Z.leb_le in H. lia. }
  refine (scl_sort_merge_spec Zcmp al (World 0 0) (Some [3; 1; 2]) 3 8 (Some Zcmp) Hal ltac:(lia) ltac:(lia) _ _).
  - by intros b [= <-].
  - by intros f [= <-].
Defined.

Lemma stable_sorts_agree_witness :
  scl_sort_bubble (Some [3; 1; 2]) 3 (Some Zcmp) = Ok (SCL_OK, Some [1; 2; 3]).
Proof.
  exact (proj1 (proj2 (stable_sorts_agree Zcmp [3; 1; 2] [None; None; None] ltac:(reflexivity)))).
Defined.

Lemma selection_and_shell_sort_witness :
  exists l', scl_sort_shell (Some [3; 1; 2]) 3 (Some Zcmp) = Ok (SCL_OK, Some l') /\
             l' ≡ₚ [3; 1; 2] /\ ordered Zcmp l'.
Proof. exact (proj2 (selection_and_shell_sort Zcmp [3; 1; 2])). Defined.
