(* ===== verification/QuickPivot.v ===== *)
(** The median-of-three quick sort of [libs/sort/quick/scl_quick.c]
    ([scl_sort_quick_sort]): what holds of it (termination, a permutation, a
    bounded stack, the stable sort on short arrays) and what does not (it does
    not sort longer arrays, because the pivot is followed through a pointer
    into the array after having been moved away). *)

From S2P Require Import Prelude Core SortSpec Sort QuickSort.
#[local] Open Scope Z_scope.

Definition SCL_SORT_QUICK_STACK_KEY_SIZE : Z := 256.

Section Defs.
Context {A : Type}.
Implicit Types (base : list A).

(** The pointer returned is the index of one of the three elements. *)
Definition median_of_three (cmp : A -> A -> Z) base (a b c : Z) : res Z :=
  pa ← get base a; pb ← get base b; pc ← get base c;
  if cmp pa pb <? 0 then
    if cmp pb pc <? 0 then mret b
    else mret (if cmp pa pc <? 0 then c else a)
  else
    if cmp pa pc <? 0 then mret a
    else mret (if cmp pb pc <? 0 then c else b).

(** [while (j >= l && cmp(bp[j], key) > 0) { bp[j + 1] = bp[j]; j--; }]. *)
Definition shift_up (cmp : A -> A -> Z) base (l : Z) (key : A) (j : Z) : res (list A * Z) :=
  loop (S (S (Z.to_nat (j - l))))
    (fun '(base, j) =>
       if j >=? l then
         x ← get base j;
         if cmp x key >? 0 then base ← set base (j + 1) x; mret (inl (base, j - 1))
         else mret (inr (base, j))
       else mret (inr (base, j)))
    (base, j).

(** Insertion sort of [l..r] with the inserted element held in [kptr]. *)
Definition insertion_range (cmp : A -> A -> Z) base (l r : Z) : res (list A) :=
  zfor (l + 1) (r + 1)
    (fun i base =>
       key ← get base i;
       '(base, j) ← shift_up cmp base l key (i - 1);
       set base (j + 1) key) base.

(** The partition loop: [pivot] is the index its pointer points to. *)
Definition partition (cmp : A -> A -> Z) base (l r pivot : Z) : res (list A * Z) :=
  '(base, i) ← zfor l r
    (fun j '(base, i) =>
       x ← get base j; p ← get base pivot;
       if cmp x p <? 0 then
         let i := i + 1 in
         base ← (if negb (i =? j) then swap base i j else mret base);
         mret (base, i)
       else mret (base, i)) (base, l - 1);
  let i := i + 1 in
  base ← (if negb (i =? r) then swap base i r else mret base);
  mret (base, i).

(** [es] is [element_size], [al] the default allocator. *)
Definition scl_sort_quick_sort (al : scl_allocator_t) (w : world) (base : option (list A))
    (count es : Z) (cmp : option (A -> A -> Z)) : res (scl_error_t * option (list A) * world) :=
  match base, cmp with
  | Some base, Some cmp =>
      if count <? 2 then mret (SCL_OK, Some base, w)
      else
        '(stack, sp) ← push2 (replicate STACK_LONGS 0) (-1) 0 (count - 1);
        '(err, base, w) ← loop (4 * S (Z.to_nat count))
          (fun '(base, stack, sp, w) =>
             if sp >=? 0 then
               r ← get stack sp;
               l ← get stack (sp - 1);
               let sp := sp - 2 in
               if l >=? r then mret (inl (base, stack, sp, w))
               else if r - l + 1 <=? 16 then
                 if es >? SCL_SORT_QUICK_STACK_KEY_SIZE then
                   match scl_alloc (A := A) al w es MAX_ALIGN es with
                   | (None, w) => mret (inr (SCL_ERR_OUT_OF_MEMORY, base, w))
                   | (Some heap_key, w) =>
                       base ← insertion_range cmp base l r;
                       mret (inl (base, stack, sp, scl_free w (Some heap_key)))
                   end
                 else
                   base ← insertion_range cmp base l r;
                   mret (inl (base, stack, sp, w))
               else
                 let mid := l + (r - l) / 2 in
                 p_idx ← median_of_three cmp base l mid r;
                 base ← (if negb (p_idx =? r) then swap base p_idx r else mret base);
                 '(base, i) ← partition cmp base l r p_idx;
                 '(stack, sp) ← push_parts stack sp l i r;
                 mret (inl (base, stack, sp, w))
             else mret (inr (SCL_OK, base, w)))
          (base, stack, sp, w);
        mret (err, Some base, w)
  | _, _ => mret (SCL_ERR_NULL_PTR, base, w)
  end.
End Defs.

(** * Theorems *)
Section Pivot.
Context {A : Type} (cmp : A -> A -> Z).
Implicit Types (b : list A).

Lemma wp_median b l mid r :
  0 <= l < zlen b -> 0 <= mid < zlen b -> 0 <= r < zlen b -> l <= mid <= r ->
  wp (median_of_three cmp b l mid r) (fun p => l <= p <= r).
Proof. intros. unfold median_of_three. do 6 wstep. repeat bcase; wstep; lia. Qed.

(** Moving the hole of an insertion is an exchange with the held element. *)
Lemma hole_step b j key x :
  0 <= j -> j + 1 < zlen b -> zlook b j = Some x ->
  zupd (zupd (zupd b (j + 1) x) j key) j key = zupd (zupd b (j + 1) x) j key /\
  zupd (zupd b (j + 1) x) j key ≡ₚ zupd b (j + 1) key.
Proof.
  intros Hj Hl Hx. split; [apply zupd_id, zlook_zupd_eq; rewrite zlen_zupd; lia|].
  rewrite <- (zswap_perm (zupd b (j + 1) key) (j + 1) j key x).
  - replace (zupd (zupd (zupd b (j + 1) key) (j + 1) x) j key)
      with (zupd (zupd b (j + 1) x) j key); [done|]. zlist_ext.
  - apply zlook_zupd_eq. lia.
  - by rewrite zlook_zupd_ne by lia.
Qed.

Lemma wp_insertion_range b l r :
  0 <= l -> r < zlen b -> wp (insertion_range cmp b l r) (fun b' => b' ≡ₚ b).
Proof.
  intros Hl Hr. unfold insertion_range.
  apply (wp_zfor (fun _ b' => b' ≡ₚ b)); [done| |done].
  intros i b1 Hi P. pose proof (zlen_perm _ _ P). wstep. wstep. rename x into key.
  wstep. unfold shift_up.
  apply (wp_loop (fun '(b', j) => l - 1 <= j < i /\ zlen b' = zlen b /\
    zupd b' (j + 1) key ≡ₚ b) (fun '(_, j) => j - l + 1)); [|lia|lia|].
  - split; [lia|]. split; [lia|]. replace (i - 1 + 1) with i by lia. by rewrite zupd_id.
  - intros [b' j] (Hj & L & P'). rewrite Z.geb_leb. destruct (Z.leb_spec l j).
    + do 2 wstep. destruct (_ >? 0).
      * do 3 wstep. split; [|lia]. split; [lia|]. split; [by rewrite zlen_zupd|].
        replace (j - 1 + 1) with j by lia. by rewrite (proj2 (hole_step b' j key x ltac:(lia) ltac:(lia) Hx0)).
      * wstep. by wstep.
    + wstep. by wstep.
Qed.

Lemma wp_partition b l r p :
  0 <= l -> l <= p <= r -> r < zlen b ->
  wp (partition cmp b l r p) (fun '(b', i) => l <= i <= r /\ b' ≡ₚ b).
Proof.
  intros Hl Hp Hr. unfold partition. wstep.
  apply (wp_zfor (fun j '(b', i) => l - 1 <= i < j /\ b' ≡ₚ b)).
  - split; [lia|done].
  - intros j [b' i] Hj (Hi & P). pose proof (zlen_perm _ _ P). do 4 wstep. bcase.
    + wstep. destruct (Z.eqb_spec (i + 1) j); simpl.
      * split; [lia|done].
      * apply wp_swap; [lia|lia|]. intros b'' _ P' _. split; [lia|by rewrite P'].
    + wstep. split; [lia|done].
  - intros [b' i]. rewrite Z.max_r by lia. intros (Hi & P). pose proof (zlen_perm _ _ P).
    wstep. destruct (Z.eqb_spec (i + 1) r); simpl.
    + split; [lia|done].
    + apply wp_swap; [lia|lia|]. intros b'' _ P' _. split; [lia|by rewrite P'].
Qed.
End Pivot.

Section Short.
Context {A : Type} (cmp : A -> A -> Z) `{!Comparator cmp}.
Implicit Types (b : list A).

Lemma get_Some b k v : zlook b k = Some v -> get b k = Ok v.
Proof. unfold get. by intros ->. Qed.

Lemma set_Ok b k v : 0 <= k < zlen b -> set b k v = Ok (zupd b k v).
Proof. intros Hk. unfold set. by destruct (Z.leb_spec 0 k), (Z.ltb_spec k (zlen b)); try lia. Qed.

(** Shifting the predecessors up is sinking by exchanges: the loops agree when
    the sinking array has the held element in the hole. *)
Lemma shift_up_sink_loop fuel b key j :
  -1 <= j < zlen b - 1 ->
  ('(b', j) ← loop fuel (fun '(base, j) =>
       if j >=? 0 then
         x ← get base j;
         if cmp x key >? 0 then base ← set base (j + 1) x; mret (inl (base, j - 1))
         else mret (inr (base, j))
       else mret (inr (base, j))) (b, j); set b' (j + 1) key) =
  loop fuel (fun '(base, j) =>
       if j >=? 1 then
         x ← get base j; y ← get base (j - 1);
         if cmp x y <? 0 then base ← swap base j (j - 1); mret (inl (base, j - 1))
         else mret (inr base)
       else mret (inr base)) (zupd b (j + 1) key, j + 1).
Proof.
  revert b j. induction fuel as [|fuel IH]; intros b j Hj; [done|]. cbn [loop].
  rewrite !Z.geb_leb. destruct (Z.leb_spec 0 j), (Z.leb_spec 1 (j + 1)); try lia.
  2:{ cbn. apply set_Ok. lia. }
  destruct (zlook_lt b j) as [x Hx]; [lia|]. rewrite (get_Some _ _ _ Hx).
  replace (j + 1 - 1) with j by lia.
  assert (get (zupd b (j + 1) key) (j + 1) = Ok key) as E1
    by (apply get_Some, zlook_zupd_eq; lia).
  assert (get (zupd b (j + 1) key) j = Ok x) as E2
    by (apply get_Some; by rewrite zlook_zupd_ne by lia).
  rewrite E1, E2, !bind_Ok.
  assert ((cmp x key >? 0) = (cmp key x <? 0)) as ->.
  { rewrite Z.gtb_ltb. pose proof (cmp_sym cmp key x). repeat bcase; lia. }
  destruct (cmp key x <? 0).
  - assert (swap (zupd b (j + 1) key) (j + 1) j = Ok (zupd (zupd b (j + 1) x) j key)) as ->.
    { unfold swap. rewrite E1, E2, !bind_Ok, !set_Ok, bind_Ok, set_Ok
        by (rewrite ?zlen_zupd; lia). f_equal. zlist_ext. }
    rewrite set_Ok, !bind_Ok by lia. cbn [mret res_ret]. rewrite ?bind_Ok. specialize (IH (zupd b (j + 1) x) (j - 1)).
    rewrite zlen_zupd in IH. rewrite IH by lia. replace (j - 1 + 1) with j by lia. done.
  - cbn. apply set_Ok. lia.
Qed.

Lemma shift_up_sink b key i :
  1 <= i < zlen b -> zlook b i = Some key ->
  ('(b', j) ← shift_up cmp b 0 key (i - 1); set b' (j + 1) key) = sink cmp 1 b i.
Proof.
  intros Hi Hk. unfold shift_up, sink.
  replace (S (S (Z.to_nat (i - 1 - 0)))) with (S (Z.to_nat i)) by lia.
  rewrite shift_up_sink_loop by lia. replace (i - 1 + 1) with i by lia. by rewrite zupd_id.
Qed.

Lemma insertion_range_short b r :
  0 <= r -> r + 1 = zlen b -> insertion_range cmp b 0 r = Ok (isort cmp b).
Proof.
  intros Hr E. assert (wp (insertion_range cmp b 0 r) (fun b' => b' = isort cmp b))
    as (b' & -> & ->)%wp_ok; [|done].
  unfold insertion_range. rewrite E.
  apply (wp_zfor (fun i b' => srt cmp b' 0 i /\ b' ≡ₚ b /\ stable cmp b b')).
  - split; [intros p q; lia|done].
  - intros i b' Hi (S1 & P & St). pose proof (zlen_perm _ _ P). wstep. wstep.
    rewrite shift_up_sink by (done || lia).
    eapply wp_mono; [apply sink_insert; [done|lia|done]|].
    intros b'' (S2 & P' & St' & _). split; [done|]. split; [by rewrite P'|].
    by eapply stable_trans.
  - intros b' (S1 & P & St). apply (isort_unique cmp); [|done]. apply srt_ordered.
    pose proof (zlen_perm _ _ P). eapply srt_weaken; [| |exact S1]; lia.
Qed.
End Short.

Section Main.
Context {A : Type} (cmp : A -> A -> Z).
Implicit Types (b : list A).

(** The pending segments; nothing is known of the order of the elements. *)
Record pending (l0 b : list A) (segs : list (Z * Z)) : Prop := {
  pd_perm : b ≡ₚ l0;
  pd_range : Forall (fun s => 0 <= s.1 /\ s.1 <= s.2 + 1 /\ s.2 < zlen l0) segs;
  pd_tower : match segs with [] => True | s :: segs => tower (size s) segs end;
  pd_total : total segs <= zlen l0
}.

Lemma pending_skip l0 b b' l r segs :
  b' ≡ₚ b -> pending l0 b ((l, r) :: segs) -> pending l0 b' segs.
Proof.
  intros Pb [P R T To]. pose proof (size_nonneg (l, r)). split.
  - by rewrite Pb.
  - by inversion R.
  - destruct segs as [|s segs]; [done|]. destruct T as (_ & _ & T). eapply tower_mono; [|done]. lia.
  - simpl in To. lia.
Qed.

Lemma pending_split l0 b b' l i r segs :
  l < r -> l <= i <= r -> b' ≡ₚ b -> pending l0 b ((l, r) :: segs) ->
  pending l0 b' (parts l i r ++ segs).
Proof.
  intros Hlr Hi Pb [P R T To]. destruct (parts_tower l i r segs Hi Hlr T) as [E T'].
  apply Forall_cons in R as [R1 R2]. simpl in R1. split; [by rewrite Pb| |done|].
  - apply Forall_app. split; [|done]. unfold parts.
    destruct (_ <? _); rewrite !Forall_cons; simpl; repeat split; (lia || constructor).
  - simpl in To, E. lia.
Qed.

Lemma pending_depth l0 b l r segs :
  zlen l0 < 2 ^ 63 -> pending l0 b ((l, r) :: segs) -> zlen segs <= 64.
Proof.
  intros Hn [P R T To]. destruct (decide (1 <= zlen segs)); [|lia].
  pose proof (tower_height (l, r) segs T ltac:(done)) as Ht. simpl in To.
  enough (zlen segs - 1 < 63) by lia. apply (Z.pow_lt_mono_r_iff 2); lia.
Qed.

Lemma pending_measure l i r segs :
  l <= i <= r -> l < r -> tower (size (l, r)) segs ->
  2 * total (parts l i r ++ segs) + zlen (parts l i r ++ segs)
    < 2 * total ((l, r) :: segs) + zlen ((l, r) :: segs).
Proof.
  intros Hi Hlr T. destruct (parts_tower l i r segs Hi Hlr T) as [E _].
  assert (zlen (parts l i r ++ segs) = zlen segs + 2) as ->.
  { rewrite zlen_app. unfold parts. destruct (_ <? _); rewrite !zlen_cons, zlen_nil; lia. }
  rewrite zlen_cons. lia.
Qed.

(** The loop state with measure [m]: the stack holds the pending segments. *)
Definition quick_state (l0 : list A) (w : world) (m : Z) : list A * list Z * Z * world -> Prop :=
  fun '(b, stack, sp, w') => exists segs, on_stack stack sp segs /\ zlen stack = 256 /\
    pending l0 b segs /\ w_live w' = w_live w /\ m = 2 * total segs + zlen segs.

Definition quick_result (l0 : list A) (w : world) (es : Z) : scl_error_t * list A * world -> Prop :=
  fun '(err, b, w') => b ≡ₚ l0 /\ w_live w' = w_live w /\
    (err = SCL_OK \/ err = SCL_ERR_OUT_OF_MEMORY /\ SCL_SORT_QUICK_STACK_KEY_SIZE < es).

(** Partitioning the popped segment [l..r]. *)
Lemma wp_quick_split l0 w b stack sp l r segs p w' :
  on_stack stack sp segs -> zlen stack = 256 -> zlen segs <= 64 -> l < r -> l <= p <= r ->
  pending l0 b ((l, r) :: segs) -> w_live w' = w_live w ->
  wp (base ← (if negb (p =? r) then swap b p r else mret b);
      '(base, i) ← partition cmp base l r p;
      '(stack, sp) ← push_parts stack sp l i r;
      mret (base, stack, sp, w'))
    (fun s => exists m, 0 <= m < 2 * total ((l, r) :: segs) + zlen ((l, r) :: segs) /\
       quick_state l0 w m s).
Proof.
  intros Hs Hl Hd Hlr Hp Pd Hw. pose proof (zlen_perm _ _ (pd_perm _ _ _ Pd)).
  pose proof (pd_range _ _ _ Pd) as [R _]%Forall_cons. simpl in R. apply wp_bind.
  apply (wp_mono _ (fun b1 => b1 ≡ₚ b)).
  { destruct (Z.eqb_spec p r); simpl; [done|]. apply wp_swap; [lia|lia|done]. }
  intros b1 P1. pose proof (zlen_perm _ _ P1). wstep.
  eapply wp_mono; [apply wp_partition; lia|]. intros [b' i] (Hi & P').
  wstep. apply (wp_push_parts stack _ segs); [done|lia|]. intros st' sp2 L' Hs'. wstep.
  pose proof (total_nonneg (parts l i r ++ segs)). pose proof (zlen_nonneg (parts l i r ++ segs)).
  pose proof (pending_measure l i r segs Hi Hlr (pd_tower _ _ _ Pd)).
  eexists. split; [|exists (parts l i r ++ segs); split; [done|]; split; [lia|];
    split; [by eapply (pending_split l0 b); [..|rewrite P'|]|done]]. lia.
Qed.

Lemma scl_sort_quick_sort_runs (al : scl_allocator_t) (w : world) (l0 : list A) (es : Z) :
  zlen l0 < 2 ^ 63 ->
  exists err l' w', scl_sort_quick_sort al w (Some l0) (zlen l0) es (Some cmp) = Ok (err, Some l', w') /\
    quick_result l0 w es (err, l', w').
Proof.
  intros Hlen. unfold scl_sort_quick_sort. destruct (Z.ltb_spec (zlen l0) 2).
  { exists SCL_OK, l0, w. unfold quick_result. auto. }
  set (n := zlen l0) in *.
  assert (wp (push2 (replicate STACK_LONGS 0) (-1) 0 (n - 1))
    (fun '(st, sp) => zlen st = 256 /\ on_stack st sp [(0, n - 1)])) as ([st sp] & -> & Hst & Hon)%wp_ok.
  { apply (wp_push2 _ _ []); [done|done|]. intros st sp L H'. by rewrite L. }
  rewrite bind_Ok.
  match goal with |- context [loop ?f ?body ?s] => enough (wp (loop f body s) (quick_result l0 w es))
    as ([[err b] w'] & -> & HQ)%wp_ok by by exists err, b, w' end.
  apply (wp_loop_rel (quick_state l0 w) (2 * n + 1)); [|unfold n, zlen; lia|lia|].
  { exists [(0, n - 1)]. split; [done|]. split; [done|]. unfold total, size, zlen; simpl.
    split; [|split; [done|lia]]. unfold n in *.
    split; simpl; [done|rewrite !Forall_cons; simpl; repeat split; (lia || constructor)|done|].
    unfold size; simpl; lia. }
  intros m [[[b stack] sp'] w1] (segs & Hs & Hl & Pd & Hw & ->).
  pose proof (on_stack_sp _ _ _ Hs). pose proof (zlen_perm _ _ (pd_perm _ _ _ Pd)).
  pose proof (zlen_nonneg segs). rewrite Z.geb_leb. destruct (Z.leb_spec 0 sp').
  2:{ wstep. split; [apply Pd|]. split; [done|by left]. }
  destruct segs as [|[l r] segs]; [simpl in Hs; lia|].
  pose proof (pending_depth _ _ _ _ _ Hlen Pd) as Hdepth. destruct Hs as (E1 & E2 & Hs).
  pose proof (zlen_cons (l, r) segs). pose proof (total_nonneg segs).
  pose proof (size_nonneg (l, r)). pose proof (zlen_nonneg segs).
  pose proof (pd_range _ _ _ Pd) as [R _]%Forall_cons. simpl in R.
  assert (forall b' w', b' ≡ₚ b -> w_live w' = w_live w ->
    exists m', 0 <= m' < 2 * total ((l, r) :: segs) + zlen ((l, r) :: segs) /\
      quick_state l0 w m' (b', stack, sp' - 2, w')) as Hskip.
  { intros b' w' P' Hw'. exists (2 * total segs + zlen segs). split; [simpl; lia|].
    exists segs. by pose proof (pending_skip _ _ _ _ _ _ P' Pd). }
  wstep. apply wp_get; [lia|]; intros r' Er. wstep. apply wp_get; [lia|]; intros l' El.
  assert (r' = r) as -> by congruence. assert (l' = l) as -> by congruence.
  rewrite Z.geb_leb. destruct (Z.leb_spec r l) as [Hrl|Hrl]; [wstep; by apply Hskip|].
  destruct (Z.leb_spec (r - l + 1) 16).
  - destruct (Z.gtb_spec es SCL_SORT_QUICK_STACK_KEY_SIZE); unfold scl_alloc;
      [destruct (malloc_fn _ _ _ _)|].
    2:{ wstep. split; [apply Pd|]. split; [done|by right]. }
    all: wstep; (eapply wp_mono; [apply wp_insertion_range; lia|]); intros b' P'; wstep;
      apply Hskip; [done|simpl; lia].
  - cbv zeta. wstep. eapply wp_mono; [apply wp_median; zdiv|]. intros p Hp. simpl in Hp.
    pose proof (wp_quick_split l0 w b stack (sp' - 2) l r segs p w1 Hs Hl ltac:(lia) Hrl Hp Pd Hw)
      as (s & E & m' & Hm')%wp_ok.
    destruct (if negb _ then _ else _) as [b1| |]; [|discriminate E..]. rewrite !bind_Ok in *.
    destruct (partition _ _ _ _ _) as [[b2 i]| |]; [|discriminate E..]. rewrite !bind_Ok in *.
    destruct (push_parts _ _ _ _ _) as [[st2 sp2]| |]; [|discriminate E..]. rewrite !bind_Ok in *.
    wstep. exists m'. by injection E as <-.
Qed.
End Main.

(** Up to 16 elements that fit the key buffer the sort is insertion sort. *)
Lemma scl_sort_quick_sort_short {A} (cmp : A -> A -> Z) `{!Comparator cmp} al w (l : list A) es :
  zlen l <= 16 -> es <= SCL_SORT_QUICK_STACK_KEY_SIZE ->
  scl_sort_quick_sort al w (Some l) (zlen l) es (Some cmp) = Ok (SCL_OK, Some (isort cmp l), w).
Proof.
  intros Hl He. unfold scl_sort_quick_sort. destruct (Z.ltb_spec (zlen l) 2).
  { cbn. do 3 f_equal. f_equal. apply (isort_unique cmp); [by apply ordered_short|done]. }
  set (n := zlen l) in *.
  assert (push2 (replicate STACK_LONGS 0) (-1) 0 (n - 1) =
    Ok (zupd (zupd (replicate STACK_LONGS 0) 0 0) 1 (n - 1), 1)) as -> by done.
  rewrite bind_Ok. set (stack := zupd _ _ _).
  assert (get stack 1 = Ok (n - 1) /\ get stack (1 - 1) = Ok 0) as [G1 G2] by done. clearbody stack.
  assert (exists f, (4 * S (Z.to_nat n) = S (S f))%nat) as [f ->]
    by (exists (4 * S (Z.to_nat n) - 2)%nat; lia).
  cbn [loop]. replace (1 >=? 0) with true by done. rewrite G1, bind_Ok, G2, bind_Ok.
  rewrite Z.geb_leb. destruct (Z.leb_spec (n - 1) 0); [lia|].
  destruct (Z.leb_spec (n - 1 - 0 + 1) 16); [|lia].
  destruct (Z.gtb_spec es SCL_SORT_QUICK_STACK_KEY_SIZE); [lia|].
  rewrite insertion_range_short by (done || lia). done.
Qed.

(** The median-of-three quick sort terminates on every array of at most
    [LONG_MAX] elements without leaving the array or its 256-entry stack,
    returns a permutation of it and no allocated block; it fails only when
    the element does not fit its 256-byte key buffer and the allocation of a
    larger one is refused.  Up to 16 elements of at most 256 bytes it returns
    the stable sort of the array. *)
Theorem scl_sort_quick_sort_spec {A} (cmp : A -> A -> Z) `{!Comparator cmp}
  (al : scl_allocator_t) (w : world) (l : list A) (es : Z) (Hlen : zlen l < 2 ^ 63) :
  (exists err l' w', scl_sort_quick_sort al w (Some l) (zlen l) es (Some cmp) = Ok (err, Some l', w') /\
    l' ≡ₚ l /\ w_live w' = w_live w /\
    (err = SCL_OK \/ err = SCL_ERR_OUT_OF_MEMORY /\ SCL_SORT_QUICK_STACK_KEY_SIZE < es)) /\
  (zlen l <= 16 -> es <= SCL_SORT_QUICK_STACK_KEY_SIZE ->
   scl_sort_quick_sort al w (Some l) (zlen l) es (Some cmp) = Ok (SCL_OK, Some (isort cmp l), w)).
Proof. split; [by apply scl_sort_quick_sort_runs|by apply scl_sort_quick_sort_short]. Qed.

(** An allocator that refuses every request. *)
Definition no_memory : scl_allocator_t :=
  {| malloc_fn := fun _ _ _ => false; calloc_fn := fun _ _ _ _ => false;
     realloc_fn := fun _ _ _ _ _ => Refused |}.

Lemma scl_sort_quick_sort_spec_witness :
  exists l', scl_sort_quick_sort no_memory (World 0 0) (Some [3; 1; 2; 1]) 4 8 (Some Zcmp) =
    Ok (SCL_OK, Some l', World 0 0) /\ l' ≡ₚ [3; 1; 2; 1].
Proof.
  destruct (scl_sort_quick_sort_spec Zcmp no_memory (World 0 0) [3; 1; 2; 1] 8 eq_refl) as [_ H].
  exists (isort Zcmp [3; 1; 2; 1]). split; [apply H; vm_compute; discriminate|].
  apply isort_perm.
Defined.

(** Beyond 16 elements it does not sort: an array that is already in order
    comes out of order, because the pivot pointer keeps designating the cell
    the pivot was moved away from. *)
Lemma quick_sort_breaks_order :
  let l := [0; 1; 2; 3; 4; 5; 6; 7; 8; 9; 10; 11; 12; 13; 14; 15; 16] in
  ordered Zcmp l /\
  scl_sort_quick_sort no_memory (World 0 0) (Some l) 17 4 (Some Zcmp) =
    Ok (SCL_OK, Some [0; 1; 2; 3; 4; 5; 6; 7; 9; 8; 10; 11; 12; 13; 14; 15; 16], World 0 0).
Proof.
  split; [|by vm_compute].
  repeat (apply SSorted_cons; [|repeat (apply Forall_cons; split; [by vm_compute|]); apply Forall_nil; done]).
  apply SSorted_nil.
Qed.
