(* ===== verification/QuickSelect.v ===== *)
(** Quickselect ([libs/search/quickselect/scl_quickselect.c]): the k-th
    smallest element, found by partitioning a copy of the array around
    medians of three. *)

From S2P Require Import Prelude Core SortSpec Sort QuickSort.
#[local] Open Scope Z_scope.

Section Defs.
Context {A : Type} (al : scl_allocator_t).
Implicit Types (base copy : list A).

(** [if (cmp(a, b) > 0) swap_elements(a, b)]. *)
Definition order2 (cmp : A -> A -> Z) base (i j : Z) : res (list A) :=
  x ← get base i; y ← get base j; if cmp x y >? 0 then swap base i j else mret base.

Definition median_of_three (cmp : A -> A -> Z) base (lo hi : Z) : res (list A) :=
  let mid := lo + (hi - lo) / 2 in
  base ← order2 cmp base lo mid;
  base ← order2 cmp base mid hi;
  base ← order2 cmp base lo mid;
  swap base mid hi.

Definition partition (cmp : A -> A -> Z) base (lo hi : Z) : res (list A * Z) :=
  base ← (if hi - lo >=? 2 then median_of_three cmp base lo hi else mret base);
  '(base, i) ← zfor lo hi
    (fun j '(base, i) =>
       x ← get base j; pivot ← get base hi;
       if cmp x pivot <? 0 then base ← swap base i j; mret (base, i + 1) else mret (base, i))
    (base, lo);
  base ← swap base i hi;
  mret (base, i).

(** [memcpy] of the first [count] elements. *)
Definition copy_elems base (count : Z) : res (list A) :=
  if count <=? zlen base then mret (take (Z.to_nat count) base) else UB.

Definition scl_search_quickselect (w : world) (base : option (list A)) (count es : Z) (cmp : option (A -> A -> Z))
    (k : Z) (out : bool) : res (scl_error_t * option A * world) :=
  match base, cmp, out with
  | Some base, Some cmp, true =>
      if count =? 0 then mret (SCL_ERR_EMPTY, None, w)
      else if k >=? count then mret (SCL_ERR_INVALID_INDEX, None, w)
      else
        match scl_mul_overflow count es with
        | None => mret (SCL_ERR_SIZE_OVERFLOW, None, w)
        | Some bytes =>
            match scl_alloc (A := A) al w bytes MAX_ALIGN es with
            | (None, w) => mret (SCL_ERR_OUT_OF_MEMORY, None, w)
            | (Some cells, w) =>
                copy ← copy_elems base count;
                copy ← loop (S (Z.to_nat count))
                  (fun '(copy, lo, hi) =>
                     if lo <? hi then
                       '(copy, p) ← partition cmp copy lo hi;
                       if p =? k then mret (inr copy)
                       else if p >? k then mret (inl (copy, lo, if p =? 0 then 0 else p - 1))
                       else mret (inl (copy, p + 1, hi))
                     else mret (inr copy))
                  (copy, 0, count - 1);
                x ← get copy k;
                mret (SCL_OK, Some x, scl_free w (Some cells))
            end
        end
  | _, _, _ => mret (SCL_ERR_NULL_PTR, None, w)
  end.
End Defs.

(** * Theorems *)
Section Select.
Context {A : Type} (cmp : A -> A -> Z) `{!Comparator cmp}.
Implicit Types (b base : list A).

Lemma wp_order2 b lo hi i j (Q : list A -> Prop) : lo <= i <= hi -> lo <= j <= hi -> 0 <= lo -> hi < zlen b ->
  (forall b', seg_perm lo hi b b' -> Q b') -> wp (order2 cmp b i j) Q.
Proof.
  intros Hi Hj Hlo Hhi HQ. unfold order2. do 4 wstep. bcase. bcase.
  - apply (wp_swap_seg lo hi); [lia|lia|lia|lia|]. intros b' SP _. by apply HQ.
  - wstep. apply HQ, seg_perm_refl.
Qed.

Lemma wp_select_median b lo hi (Q : list A -> Prop) : 0 <= lo <= hi -> hi < zlen b ->
  (forall b', seg_perm lo hi b b' -> Q b') -> wp (median_of_three cmp b lo hi) Q.
Proof.
  intros Hlo Hhi HQ. unfold median_of_three. assert (0 <= (hi - lo) / 2 <= hi - lo) by zdiv.
  wstep. apply (wp_order2 b lo hi); [lia..|]. intros b1 S1. pose proof (seg_perm_len _ _ _ _ S1).
  wstep. apply (wp_order2 b1 lo hi); [lia..|]. intros b2 S2. pose proof (seg_perm_len _ _ _ _ S2).
  wstep. apply (wp_order2 b2 lo hi); [lia..|]. intros b3 S3. pose proof (seg_perm_len _ _ _ _ S3).
  apply (wp_swap_seg lo hi); [lia|lia|lia|lia|]. intros b4 S4 _. apply HQ. eauto using seg_perm_trans.
Qed.

(** The pivot ends at its place between the smaller and the other elements. *)
Lemma partition_spec b lo hi : 0 <= lo <= hi -> hi < zlen b ->
  wp (partition cmp b lo hi) (fun '(b', i) => lo <= i <= hi /\ seg_perm lo hi b b' /\
    (forall p x y, lo <= p < i -> zlook b' p = Some x -> zlook b' i = Some y -> cmp x y <= 0) /\
    (forall p x y, i < p <= hi -> zlook b' p = Some x -> zlook b' i = Some y -> cmp y x <= 0)).
Proof.
  intros Hlo Hhi. unfold partition. wstep.
  enough (forall b1, seg_perm lo hi b b1 -> wp ('(base, i) ← zfor lo hi
      (fun j '(base, i) => x ← get base j; pivot ← get base hi;
         if cmp x pivot <? 0 then base ← swap base i j; mret (base, i + 1) else mret (base, i)) (b1, lo);
      base ← swap base i hi; mret (base, i))
    (fun '(b', i) => lo <= i <= hi /\ seg_perm lo hi b b' /\
      (forall p x y, lo <= p < i -> zlook b' p = Some x -> zlook b' i = Some y -> cmp x y <= 0) /\
      (forall p x y, i < p <= hi -> zlook b' p = Some x -> zlook b' i = Some y -> cmp y x <= 0))) as H.
  { bcase. bcase; [apply (wp_select_median b lo hi); [lia|lia|done]|wstep; apply H, seg_perm_refl]. }
  intros b1 S1. wstep. apply (wp_zfor (fun j '(b', i) => lo <= i <= j /\ seg_perm lo hi b b' /\
    (forall p x y, lo <= p < i -> zlook b' p = Some x -> zlook b' hi = Some y -> cmp x y <= 0) /\
    (forall p x y, i <= p < j -> zlook b' p = Some x -> zlook b' hi = Some y -> cmp y x <= 0))).
  - split; [lia|]. split; [done|]. split; intros p x y; lia.
  - intros j [b' i] Hj (Hi & SP & Hl & Hh). pose proof (seg_perm_len _ _ _ _ SP). do 4 wstep. bcase.
    + wstep. apply (wp_swap_seg lo hi); [lia|lia|lia|lia|]. intros b2 S2 L. wstep. split; [lia|].
      split; [by eapply seg_perm_trans|].
      assert (zlook b2 hi = zlook b' hi) as Eh by (rewrite L, !decide_False by lia; done).
      split; intros p u v Hp Hu Hv; rewrite Eh in Hv; rewrite L in Hu.
      * destruct (decide (p = i)); [simplify_eq; lia|]. rewrite decide_False in Hu by lia. by apply (Hl p); [lia| |].
      * rewrite decide_False in Hu by lia. destruct (decide (p = j)); [by apply (Hh i); [lia| |]|by apply (Hh p); [lia| |]].
    + wstep. split; [lia|]. split; [done|]. split; [done|].
      intros p u v Hp Hu Hv. destruct (decide (p = j)) as [->|]; [|by apply (Hh p); [lia| |]].
      simplify_eq. apply (cmp_le_ge cmp). lia.
  - intros [b' i]. rewrite Z.max_r by lia. intros (Hi & SP & Hl & Hh). pose proof (seg_perm_len _ _ _ _ SP).
    wstep. apply (wp_swap_seg lo hi); [lia|lia|lia|lia|]. intros b2 S2 L. wstep. split; [lia|].
    split; [by eapply seg_perm_trans|].
    assert (zlook b2 i = zlook b' hi) as Ei by (rewrite L, decide_True by lia; done).
    split; intros p u v Hp Hu Hv; rewrite Ei in Hv; rewrite L in Hu.
    + rewrite !decide_False in Hu by lia. by apply (Hl p); [lia| |].
    + rewrite decide_False in Hu by lia. destruct (decide (p = hi)); [by apply (Hh i); [lia| |]|by apply (Hh p); [lia| |]].
Qed.

(** [x] has rank [k] in [l]: at most [k] elements are smaller, and more than
    [k] are not greater. *)
Definition rank (l : list A) (k : Z) (x : A) : Prop :=
  x ∈ l /\ zlen (filter (fun y => cmp y x < 0) l) <= k < zlen (filter (fun y => cmp y x <= 0) l).

Lemma filter_all (R : A -> Prop) `{!forall y, Decision (R y)} (l : list A) : (forall y, y ∈ l -> R y) -> filter R l = l.
Proof.
  induction l as [|z l IH]; intros HR; [done|]. rewrite filter_cons_True by (apply HR; left). f_equal. apply IH.
  intros y Hy. apply HR. by right.
Qed.

Lemma filter_none (R : A -> Prop) `{!forall y, Decision (R y)} (l : list A) : (forall y, y ∈ l -> ~ R y) -> filter R l = [].
Proof.
  induction l as [|z l IH]; intros HR; [done|]. rewrite filter_cons_False by (apply HR; left). apply IH.
  intros y Hy. apply HR. by right.
Qed.

Lemma filter_len (R : A -> Prop) `{!forall y, Decision (R y)} (l : list A) : zlen (filter R l) <= zlen l.
Proof. unfold zlen. pose proof (length_filter R l). lia. Qed.

Lemma rank_split base b k x : base ≡ₚ b -> zlook b k = Some x -> split_at cmp b k -> split_at cmp b (k + 1) -> rank base k x.
Proof.
  intros P Hx S1 S2. pose proof (zlook_Some _ _ _ Hx) as Hk. unfold rank. split.
  { rewrite P. by eapply zlook_elem. }
  assert (b = take (Z.to_nat k) b ++ x :: drop (Z.to_nat (k + 1)) b) as E.
  { rewrite <- (take_drop (Z.to_nat (k + 1)) b) at 1. replace (Z.to_nat (k + 1)) with (S (Z.to_nat k)) by lia.
    rewrite (take_S_r _ _ x); [by rewrite <- app_assoc|]. unfold zlook in Hx. by destruct (0 <=? k). }
  assert (forall (R : A -> Prop) `{!forall y, Decision (R y)}, zlen (filter R base) = zlen (filter R b)) as EF.
  { intros R ?. unfold zlen. by rewrite P. }
  rewrite !EF, E. rewrite !filter_app, !zlen_app, !filter_cons.
  rewrite (decide_False (P := cmp x x < 0)) by (rewrite (cmp_refl cmp); lia).
  rewrite (decide_True (P := cmp x x <= 0)) by (rewrite (cmp_refl cmp); lia).
  assert (filter (fun y => cmp y x < 0) (drop (Z.to_nat (k + 1)) b) = []) as ->.
  { apply filter_none. intros y Hy. apply elem_zlook in Hy as [j Hj]. rewrite zlook_drop in Hj by lia.
    destruct (Z.leb_spec 0 j); [|done]. pose proof (S2 k (k + 1 + j) x y ltac:(lia) ltac:(lia) Hx Hj) as Hc.
    apply (cmp_le_ge cmp) in Hc. lia. }
  assert (filter (fun y => cmp y x <= 0) (take (Z.to_nat k) b) = take (Z.to_nat k) b) as ->.
  { apply filter_all. intros y Hy. apply elem_zlook in Hy as [j Hj]. rewrite zlook_take in Hj.
    destruct (Z.ltb_spec j k); [|done]. by apply (S1 j k). }
  pose proof (filter_len (fun y => cmp y x < 0) (take (Z.to_nat k) b)).
  pose proof (zlen_nonneg (filter (fun y => cmp y x <= 0) (drop (Z.to_nat (k + 1)) b))).
  pose proof (zlen_take b k). rewrite !zlen_take by lia. change (zlen (@nil A)) with 0. rewrite zlen_cons. lia.
Qed.

(** ** The selection *)
Lemma quickselect_spec (al : scl_allocator_t) `{!AllocatorOk al} w base count es k :
  1 <= es -> 1 <= count <= zlen base -> count < 2 ^ 64 -> es < 2 ^ 64 -> 0 <= k < count ->
  wp (scl_search_quickselect al w (Some base) count es (Some cmp) k true) (fun '(e, r, w') => w_live w' = w_live w /\
    ((e = SCL_OK /\ exists x, r = Some x /\ rank (take (Z.to_nat count) base) k x) \/
     (e = SCL_ERR_SIZE_OVERFLOW /\ r = None /\ 2 ^ 64 <= count * es) \/
     (e = SCL_ERR_OUT_OF_MEMORY /\ r = None /\ malloc_fn al (w_reqs w) (count * es) MAX_ALIGN = false))).
Proof.
  intros Hes Hc Hc64 Hes64 Hk. unfold scl_search_quickselect.
  destruct (Z.eqb_spec count 0); [lia|]. rewrite Z.geb_leb. destruct (Z.leb_spec count k); [lia|].
  rewrite scl_mul_overflow_spec by (unfold is_u64; lia).
  destruct (Z.ltb_spec (count * es) (2 ^ 64)); [|wstep; split; [done|]; right; left; auto].
  unfold scl_alloc. destruct (malloc_fn al (w_reqs w) (count * es) MAX_ALIGN) eqn:Em; cbv iota;
    [|wstep; split; [done|]; by right; right].
  wstep. unfold copy_elems. destruct (Z.leb_spec count (zlen base)); [|lia]. wstep. wstep.
  set (c0 := take (Z.to_nat count) base). assert (zlen c0 = count) as El by (unfold c0; rewrite zlen_take by lia; lia).
  eapply wp_mono; [apply (wp_loop (fun '(c, lo, hi) => lo <= k <= hi /\ 0 <= lo /\ hi < count /\ zlen c = count /\ c ≡ₚ c0 /\
    split_at cmp c lo /\ split_at cmp c (hi + 1)) (fun '(_, lo, hi) => hi - lo) _ _ _
    (fun c => zlen c = count /\ c ≡ₚ c0 /\ split_at cmp c k /\ split_at cmp c (k + 1))); [|lia|lia|]|].
  - split; [lia|]. split; [lia|]. split; [lia|]. split; [done|]. split; [done|]. split; apply split_at_out; lia.
  - intros [[c lo] hi] (Hlk & Hlo & Hhi & Elc & P & Sl & Sh). cbv beta iota. destruct (Z.ltb_spec lo hi).
    + wstep. eapply wp_mono; [apply partition_spec; lia|]. intros [c' p] (Hp & SP & Hl & Hh).
      destruct (lomuto_splits cmp c c' lo p hi Hp SP Sl Sh Hl Hh) as [S1 S2].
      pose proof (seg_perm_len _ _ _ _ SP). pose proof (sp_perm _ _ _ _ SP) as P'.
      assert (c' ≡ₚ c0) by by etrans.
      cbv beta iota. destruct (Z.eqb_spec p k) as [->|]; [wstep; split; [lia|done]|]. rewrite Z.gtb_ltb. destruct (Z.ltb_spec k p).
      * wstep. destruct (Z.eqb_spec p 0); [lia|]. split; [|lia].
        split; [lia|]. split; [lia|]. split; [lia|]. split; [lia|]. split; [done|].
        split; [eapply split_at_seg; [exact Sl|exact SP|lia]|]. by replace (p - 1 + 1) with p by lia.
      * wstep. split; [|lia]. split; [lia|]. split; [lia|]. split; [lia|]. split; [lia|]. split; [done|].
        split; [done|]. eapply split_at_seg; [exact Sh|exact SP|lia].
    + wstep. assert (lo = k) as -> by lia. assert (hi = k) as -> by lia. done.
  - intros c (Elc & P & S1 & S2). wstep. wstep. wstep. split; [simpl; lia|]. left. split; [done|]. exists x. split; [done|].
    eapply rank_split; [by symmetry|done|done|done].
Qed.
End Select.

(** C32. Quickselect answers the k-th smallest element for every comparator,
    array and rank: an element of the array than which at most k are smaller,
    while more than k are not greater.  It leaves no memory behind, and fails
    only where the copy of the array does not fit into a [size_t] or is
    refused by the allocator; a rank outside the array, an empty array and
    [NULL] arguments are refused first. *)
Theorem quickselect_selects {A} (al : scl_allocator_t) `{!AllocatorOk al} (cmp : A -> A -> Z) `{!Comparator cmp} (w : world)
  (base : list A) (count es k : Z) (Hes : 1 <= es < 2 ^ 64) (Hc : 0 <= count <= zlen base) (Hc64 : count < 2 ^ 64) (Hk : 0 <= k) :
  (exists e r w', scl_search_quickselect al w (Some base) count es (Some cmp) k true = Ok (e, r, w') /\
     w_live w' = w_live w /\
     ((e = SCL_OK /\ exists x, r = Some x /\ rank cmp (take (Z.to_nat count) base) k x) \/
      (e = SCL_ERR_SIZE_OVERFLOW /\ r = None /\ 2 ^ 64 <= count * es) \/
      (e = SCL_ERR_OUT_OF_MEMORY /\ r = None /\ malloc_fn al (w_reqs w) (count * es) MAX_ALIGN = false) \/
      (e = SCL_ERR_EMPTY /\ count = 0) \/ (e = SCL_ERR_INVALID_INDEX /\ 0 < count <= k))) /\
  (forall base' cmp' out, base' = None \/ cmp' = None \/ out = false ->
     scl_search_quickselect (A := A) al w base' count es cmp' k out = Ok (SCL_ERR_NULL_PTR, None, w)).
Proof.
  split.
  - destruct (Z.eq_dec count 0) as [->|Hc0]; [by do 3 eexists; split; [reflexivity|]; split; [done|]; right; right; right; left|].
    destruct (Z.le_gt_cases count k) as [Hge|Hlt].
    { unfold scl_search_quickselect. destruct (Z.eqb_spec count 0); [done|]. rewrite Z.geb_leb. destruct (Z.leb_spec count k); [|lia].
      do 3 eexists. split; [reflexivity|]. split; [done|]. do 4 right. split; [done|lia]. }
    destruct (proj1 (wp_ok _ _) (quickselect_spec cmp al w base count es k ltac:(lia) ltac:(lia) Hc64 ltac:(lia) ltac:(lia)))
      as ([[e r] w'] & E & Hw & H). exists e, r, w'. split; [done|]. split; [done|]. tauto.
  - intros [base'|] [cmp'|] [|] [|[|]]; done.
Qed.

Lemma quickselect_selects_witness :
  exists x w', scl_search_quickselect small_allocator (World 0 0) (Some [5; 1; 4; 1; 3]) 5 4 (Some Zcmp) 2 true = Ok (SCL_OK, Some x, w') /\
    rank Zcmp [5; 1; 4; 1; 3] 2 x.
Proof.
  destruct (quickselect_selects small_allocator Zcmp (World 0 0) [5; 1; 4; 1; 3] 5 4 2) as [(e & r & w' & E & _ & H) _];
    [lia|by vm_compute|lia|lia|].
  destruct H as [(-> & x & -> & H)|[(-> & _)|[(-> & _)|[(-> & _)|(-> & _)]]]]; [by exists x, w'|vm_compute in E; discriminate E..].
Defined.
