(* ===== verification/IntSort.v ===== *)
(** The non-comparison sorts of [int32_t] arrays: counting sort
    ([scl_sort_counting] of [libs/sort/scl_sort.c], [scl_sort_counting_sort] of
    [libs/sort/counting/scl_counting.c]) and LSD radix sort
    ([scl_sort_radix], [scl_sort_radix_sort] of [libs/sort/radix/scl_radix.c]).
    Both are proved equal to the reference stable sort for the order they
    implement, which for radix sort is the unsigned one. *)

From S2P Require Import Prelude Core SortSpec Sort MergeSort QuickSort QuickPivot.
#[local] Open Scope Z_scope.

(** ** Counting sort *)

(** [max - min] on [int]: signed overflow is undefined. *)
Definition int_sub (a b : Z) : res Z :=
  if (- 2 ^ 31 <=? a - b) && (a - b <? 2 ^ 31) then mret (a - b) else UB.

Definition min_max (base : list Z) (count : Z) : res (Z * Z) :=
  v ← get base 0;
  zfor 1 count
    (fun i '(min_val, max_val) =>
       x ← get base i;
       let min_val := if x <? min_val then x else min_val in
       mret (min_val, if x >? max_val then x else max_val)) (v, v).

(** [counts[(size_t)(base[i] - min_val)]++] for every element. *)
Definition count_keys (base : list Z) (counts : block Z) (min_val count : Z) : res (block Z) :=
  zfor 0 count
    (fun i counts =>
       x ← get base i;
       d ← int_sub x min_val;
       c ← get_cell counts (u64 d);
       set counts (u64 d) (Some (u64 (c + 1)))) counts.

(** [val i] is written [counts[i]] times for every bin [i]. *)
Definition emit_keys (val : Z -> Z) (base : list Z) (counts : block Z) (range : Z) : res (list Z) :=
  '(base, _) ← zfor 0 range
    (fun i '(base, idx) =>
       n ← get_cell counts i;
       zfor 0 n (fun _ '(base, idx) => base ← set base idx (val i); mret (base, u64 (idx + 1)))
         (base, idx)) (base, 0);
  mret base.

Definition scl_sort_counting (al : scl_allocator_t) (w : world) (base : option (list Z)) (count : Z)
    : res (scl_error_t * option (list Z) * world) :=
  match base with
  | None => mret (SCL_ERR_NULL_PTR, None, w)
  | Some base =>
      if count <? 2 then mret (SCL_OK, Some base, w)
      else
        '(min_val, max_val) ← min_max base count;
        d ← int_sub max_val min_val;
        match scl_add_overflow (u64 d) 1 with
        | None => mret (SCL_ERR_SIZE_OVERFLOW, Some base, w)
        | Some range =>
            match scl_calloc al w range 8 MAX_ALIGN 0 with
            | (None, w) => mret (SCL_ERR_OUT_OF_MEMORY, Some base, w)
            | (Some counts, w) =>
                counts ← count_keys base counts min_val count;
                base ← emit_keys (fun i => i32 (u64 (u64 min_val + i))) base counts range;
                mret (SCL_OK, Some base, scl_free w (Some counts))
            end
        end
  end.

(** [scl_sort_counting_sort] caps the number of bins and falls back to the
    quick sort of [QuickPivot.v]; [dflt] is the default allocator. *)
Definition MAX_RANGE : Z := 1048576.

Definition scl_counting_i32_cmp (x y : Z) : Z := Z.b2z (x >? y) - Z.b2z (x <? y).

Definition scl_sort_counting_sort (dflt al : scl_allocator_t) (w : world) (base : option (list Z))
    (count : Z) : res (scl_error_t * option (list Z) * world) :=
  match base with
  | None => mret (SCL_ERR_NULL_PTR, None, w)
  | Some base =>
      if count <? 2 then mret (SCL_OK, Some base, w)
      else
        '(min_val, max_val) ← min_max base count;
        d ← int_sub max_val min_val;
        let range := u64 (u64 d + 1) in
        if range >? MAX_RANGE
        then scl_sort_quick_sort dflt w (Some base) count 4 (Some scl_counting_i32_cmp)
        else
          match scl_calloc al w range 8 MAX_ALIGN 0 with
          | (None, w) => mret (SCL_ERR_OUT_OF_MEMORY, Some base, w)
          | (Some counts, w) =>
              counts ← count_keys base counts min_val count;
              base ← emit_keys (fun i => i32 (min_val + i32 i)) base counts range;
              mret (SCL_OK, Some base, scl_free w (Some counts))
          end
  end.

(** ** Radix sort *)

(** [(unsigned char)(v >> shift)], with the arithmetic shift of [int32_t]. *)
Definition digit (shift v : Z) : Z := u8 (Z.shiftr v shift).

Definition count_digits (base : list Z) (count shift : Z) (bucket : list Z) : res (list Z) :=
  zfor 0 count
    (fun i bucket =>
       v ← get base i; c ← get bucket (digit shift v);
       set bucket (digit shift v) (u64 (c + 1))) bucket.

(** Exclusive prefix sums. *)
Definition bucket_starts (bucket : list Z) : res (list Z) :=
  '(bucket, _) ← zfor 0 256
    (fun i '(bucket, total) =>
       old ← get bucket i; bucket ← set bucket i total; mret (bucket, u64 (total + old)))
    (bucket, 0);
  mret bucket.

Definition place_digits (base : list Z) (count shift : Z) (bucket : list Z) (output : block Z)
    : res (list Z * block Z) :=
  zfor 0 count
    (fun i '(bucket, output) =>
       v ← get base i; p ← get bucket (digit shift v);
       bucket ← set bucket (digit shift v) (u64 (p + 1));
       output ← set output p (Some v);
       mret (bucket, output)) (bucket, output).

Definition radix_pass (base : list Z) (output : block Z) (count shift : Z) : res (list Z * block Z) :=
  bucket ← count_digits base count shift (replicate 256 0);
  bucket ← bucket_starts bucket;
  '(_, output) ← place_digits base count shift bucket output;
  base ← copy_back base 0 output 0 count;
  mret (base, output).

Definition scl_sort_radix (al : scl_allocator_t) (w : world) (base : option (list Z)) (count : Z)
    : res (scl_error_t * option (list Z) * world) :=
  match base with
  | None => mret (SCL_ERR_NULL_PTR, None, w)
  | Some base =>
      if count <? 2 then mret (SCL_OK, Some base, w)
      else
        match scl_mul_overflow count 4 with
        | None => mret (SCL_ERR_SIZE_OVERFLOW, Some base, w)
        | Some bytes =>
            match scl_alloc al w bytes MAX_ALIGN 4 with
            | (None, w) => mret (SCL_ERR_OUT_OF_MEMORY, Some base, w)
            | (Some output, w) =>
                '(base, output) ← zfor 0 4
                  (fun k '(base, output) => radix_pass base output count (8 * k)) (base, output);
                mret (SCL_OK, Some base, scl_free w (Some output))
            end
        end
  end.

(** The file [scl_radix.c] holds the same function. *)
Definition scl_sort_radix_sort := scl_sort_radix.

(** * Theorems *)

(** ** Sorting by an integer key *)
Definition kcmp {A} (key : A -> Z) (x y : A) : Z := Zcmp (key x) (key y).
#[export] Instance kcmp_comparator {A} (key : A -> Z) : Comparator (kcmp key).
Proof.
  split; intros; [apply (cmp_sym Zcmp)|]. by eapply (cmp_trans Zcmp).
Qed.

(** The elements of key [0], then those of key [1], up to [n - 1]. *)
Definition bin {A} (key : A -> Z) (l : list A) (b : Z) : list A := filter (fun y => key y = b) l.
Fixpoint bins {A} (key : A -> Z) (l : list A) (n : nat) : list A :=
  match n with
  | O => []
  | S n => bins key l n ++ bin key l (Z.of_nat n)
  end.

Section Bins.
Context {A : Type} (key : A -> Z).
Implicit Types (l : list A).

Lemma bins_elem l n x : x ∈ bins key l n -> x ∈ l /\ 0 <= key x < Z.of_nat n.
Proof.
  induction n as [|n IH]; simpl; [by intros ?%elem_of_nil|].
  intros [H|H]%elem_of_app; [apply IH in H as []; split; [done|lia]|].
  apply list_elem_of_filter in H as [E H]. split; [done|lia].
Qed.

Lemma bins_ordered l n : ordered (kcmp key) (bins key l n).
Proof.
  induction n as [|n IH]; simpl; [constructor|].
  assert (forall b l', ordered (kcmp key) l' -> (forall x, x ∈ l' -> key x <= b) ->
    ordered (kcmp key) (l' ++ bin key l b)) as H.
  { intros b l' Hl' Hle. induction Hl' as [|x l' Hs IH' Hx]; simpl.
    - unfold bin. clear. induction l as [|y l IHl]; [constructor|]. rewrite filter_cons.
      case_decide as E; [|done]. constructor; [done|]. apply Forall_forall.
      intros z [Ez _]%list_elem_of_filter. apply Zcmp_le. lia.
    - constructor; [apply IH'; intros; apply Hle; by right|]. apply Forall_app. split; [done|].
      apply Forall_forall. intros z [Ez _]%list_elem_of_filter. apply Zcmp_le. rewrite Ez.
      apply Hle. left. }
  apply H; [done|]. intros x Hx%bins_elem. lia.
Qed.

Lemma bins_class l n x :
  class (kcmp key) x (bins key l n) =
    if decide (0 <= key x < Z.of_nat n) then class (kcmp key) x l else [].
Proof.
  unfold class. induction n as [|n IH]; simpl.
  { case_decide; [lia|done]. }
  rewrite filter_app, IH. unfold bin. rewrite list_filter_filter.
  assert (forall (P : A -> Prop) `{forall y, Decision (P y)}, (forall y, ~ P y) -> filter P l = []) as He.
  { intros P ? HP. clear -HP. induction l as [|y l IHl]; [done|]. by rewrite filter_cons_False. }
  destruct (decide (key x = Z.of_nat n)) as [E|E].
  - rewrite (decide_False (P := 0 <= key x < Z.of_nat n)), decide_True by lia. simpl.
    apply list_filter_iff. intros y. unfold kcmp. rewrite Zcmp_eq. lia.
  - rewrite (He (fun y => kcmp key x y = 0 /\ key y = Z.of_nat n))
      by (intros y; unfold kcmp; rewrite !Zcmp_eq; lia).
    rewrite app_nil_r. repeat case_decide; try done; lia.
Qed.

(** Distribution by key is the stable sort by key. *)
Lemma bins_isort l n :
  (forall x, x ∈ l -> 0 <= key x < Z.of_nat n) -> bins key l n = isort (kcmp key) l.
Proof.
  intros H. apply (isort_unique _); [apply bins_ordered|]. intros x. rewrite bins_class.
  case_decide as Hd; [done|]. unfold class. symmetry.
  assert (forall l', (forall y, y ∈ l' -> key y <> key x) -> filter (fun y => kcmp key x y = 0) l' = [])
    as He.
  { clear. induction l' as [|y l' IH]; intros H; [done|]. rewrite filter_cons_False.
    - apply IH. intros z Hz. apply H. by right.
    - unfold kcmp. rewrite Zcmp_eq. intros E. by apply (H y); [left|]. }
  apply He. intros y Hy E. rewrite <- E in Hd. by apply Hd, H.
Qed.

Lemma zlen_bins_mono l n m : (n <= m)%nat -> zlen (bins key l n) <= zlen (bins key l m).
Proof. induction 1 as [|m H IH]; [lia|]. simpl. rewrite zlen_app. pose proof (zlen_nonneg (bin key l (Z.of_nat m))). lia. Qed.
End Bins.

Lemma isort_cmp_ext {A} (c1 c2 : A -> A -> Z) l :
  (forall x y, x ∈ l -> y ∈ l -> c1 x y <= 0 <-> c2 x y <= 0) -> isort c1 l = isort c2 l.
Proof.
  induction l as [|x l IH]; intros E; [done|]. simpl.
  rewrite IH by (intros; apply E; by right).
  assert (forall l', (forall y, y ∈ l' -> y ∈ l) -> insert_stable c1 x l' = insert_stable c2 x l') as H.
  { induction l' as [|y l' IH']; intros Hin; [done|]. simpl.
    pose proof (E x y (list_elem_of_here _ _) ltac:(right; apply Hin; left)).
    rewrite IH' by (intros; apply Hin; by right). repeat bcase; try lia; done. }
  apply H. intros y. by rewrite isort_perm.
Qed.

(** ** Counting sort *)
Lemma take_S_zlook {A} (l : list A) i x :
  zlook l i = Some x -> take (Z.to_nat (i + 1)) l = take (Z.to_nat i) l ++ [x].
Proof.
  intros Hx. pose proof (zlook_Some _ _ _ Hx). zlist_ext. rewrite <- Hx. f_equal. lia.
Qed.

Lemma take_zupd_snoc {A} (l : list A) i x :
  0 <= i < zlen l -> take (Z.to_nat (i + 1)) (zupd l i x) = take (Z.to_nat i) l ++ [x].
Proof.
  intros Hi. rewrite (take_S_zlook _ _ x) by (by apply zlook_zupd_eq). f_equal.
  apply zlook_ext; intros k. rewrite !zlook_take, zlook_zupd. zcells.
Qed.

Lemma take_zlen {A} (l : list A) : take (Z.to_nat (zlen l)) l = l.
Proof. unfold zlen. apply take_ge. lia. Qed.

Lemma zlen_bin_le {A} (key : A -> Z) l b : zlen (bin key l b) <= zlen l.
Proof. unfold zlen, bin. pose proof (length_filter (fun y => key y = b) l). lia. Qed.

Lemma bin_snoc {A} (key : A -> Z) l x b :
  bin key (l ++ [x]) b = if decide (key x = b) then bin key l b ++ [x] else bin key l b.
Proof.
  unfold bin. rewrite filter_app, filter_cons, filter_nil. case_decide; [done|apply app_nil_r].
Qed.

Lemma wp_min_max (l : list Z) Q :
  1 <= zlen l ->
  (forall mn mx, mn ∈ l -> mx ∈ l -> (forall x, x ∈ l -> mn <= x <= mx) -> Q (mn, mx)) ->
  wp (min_max l (zlen l)) Q.
Proof.
  intros Hl HQ. unfold min_max. wstep. wstep. rename x into v, Hx into Hv.
  apply (wp_zfor (fun i '(mn, mx) => mn ∈ l /\ mx ∈ l /\
    forall k x, k < i -> zlook l k = Some x -> mn <= x <= mx)).
  - pose proof (zlook_elem _ _ _ Hv). split; [done|]. split; [done|]. intros k x Hk Hx.
    assert (k = 0) as -> by zidx. simplify_eq. lia.
  - intros i [mn mx] Hi (H1 & H2 & H3). wstep. wstep. wstep. pose proof (zlook_elem _ _ _ Hx).
    split; [by destruct (_ <? _)|]. split; [by destruct (_ >? _)|].
    intros k y Hk Hy. destruct (decide (k = i)) as [->|].
    + simplify_eq. repeat bcase; lia.
    + pose proof (H3 k y ltac:(lia) Hy). repeat bcase; lia.
  - intros [mn mx] (H1 & H2 & H3). apply HQ; [done|done|]. intros x Hx.
    apply elem_zlook in Hx as [k Hk]. apply (H3 k); [zidx|done].
Qed.

Section Counting.
Context (l : list Z) (mn range : Z).
Hypothesis Hrange : 0 < range <= 2 ^ 31.
Hypothesis Hmn : - 2 ^ 31 <= mn < 2 ^ 31.
Hypothesis Hkeys : forall x, x ∈ l -> 0 <= x - mn < range.
Hypothesis Hlen : zlen l < 2 ^ 64.
Let key (v : Z) : Z := v - mn.

(** [counts] holds the number of occurrences of each key in [l']. *)
Definition counted (counts : block Z) (l' : list Z) : Prop :=
  zlen counts = range /\
  forall b, 0 <= b < range -> zlook counts b = Some (Some (zlen (bin (fun v => v - mn) l' b))).

Lemma wp_count_keys Q :
  (forall counts, counted counts l -> Q counts) ->
  wp (count_keys l (replicate (Z.to_nat range) (Some 0)) mn (zlen l)) Q.
Proof.
  intros HQ. unfold count_keys.
  apply (wp_zfor (fun i counts => counted counts (take (Z.to_nat i) l))).
  - split; [rewrite zlen_replicate; lia|]. intros b Hb. rewrite zlook_replicate.
    destruct (Z.leb_spec 0 b), (Z.ltb_spec b (Z.of_nat (Z.to_nat range))); try lia. done.
  - intros i counts Hi [L C]. wstep. wstep. pose proof (Hkeys x (zlook_elem _ _ _ Hx)) as Hk.
    unfold int_sub. wstep.
    assert ((- 2 ^ 31 <=? x - mn) && (x - mn <? 2 ^ 31) = true) as -> by (repeat bcase; lia).
    wstep. rewrite u64_small by lia. unfold get_cell. wstep. wstep. wstep.
    rewrite C in Hx0 by lia. simplify_eq. wstep.
    pose proof (zlen_bin_le key (take (Z.to_nat i) l) (x - mn)) as Hle.
    rewrite zlen_take in Hle by lia. pose proof (zlen_nonneg (bin key (take (Z.to_nat i) l) (x - mn))).
    unfold key in *. rewrite u64_small by lia.
    wstep. split; [by rewrite zlen_zupd|]. intros b Hb. rewrite (take_S_zlook l i x Hx), bin_snoc.
    rewrite zlook_zupd, C by lia. do 2 case_decide; try lia; try done.
    subst b. by rewrite zlen_app.
  - intros counts. rewrite Z.max_r by apply zlen_nonneg. rewrite take_zlen. apply HQ.
Qed.

Lemma bin_replicate b : bin (fun v => v - mn) l b = replicate (length (bin (fun v => v - mn) l b)) (mn + b).
Proof.
  unfold bin. clear Hkeys Hlen. induction l as [|x l' IH]; [done|].
  rewrite filter_cons. case_decide; [|done].
  simpl. rewrite IH at 1. f_equal. lia.
Qed.

Lemma bins_all : bins (fun v => v - mn) l (Z.to_nat range) = isort Zcmp l.
Proof.
  rewrite bins_isort by (intros x Hx; pose proof (Hkeys x Hx); lia).
  apply isort_cmp_ext. intros x y _ _. unfold kcmp. rewrite !Zcmp_le. lia.
Qed.

Lemma wp_emit_keys val counts b0 :
  counted counts l -> zlen b0 = zlen l -> (forall i, 0 <= i < range -> val i = mn + i) ->
  wp (emit_keys val b0 counts range) (fun b => b = isort Zcmp l).
Proof.
  intros [L C] Lb Hval. unfold emit_keys. wstep. pose proof bins_all as BA.
  assert (zlen (bins key l (Z.to_nat range)) = zlen l) as LB
    by (unfold key; rewrite BA; apply zlen_perm, isort_perm).
  apply (wp_zfor (fun i '(b, idx) => zlen b = zlen l /\ idx = zlen (bins key l (Z.to_nat i)) /\
    take (Z.to_nat idx) b = bins key l (Z.to_nat i))).
  - split; [done|]. split; [done|]. done.
  - intros i [b idx] Hi (Lb' & -> & E). unfold get_cell. do 3 wstep. rewrite C in Hx by lia.
    simplify_eq. wstep. set (n := zlen (bin _ l i)) in *.
    assert (bins key l (Z.to_nat (i + 1)) = bins key l (Z.to_nat i) ++ bin key l i) as EB.
    { replace (Z.to_nat (i + 1)) with (S (Z.to_nat i)) by lia. simpl. by rewrite Z2Nat.id by lia. }
    assert (zlen (bins key l (Z.to_nat i)) + n <= zlen l) as Hroom.
    { rewrite <- LB. change n with (zlen (bin key l i)). rewrite <- zlen_app, <- EB.
      apply zlen_bins_mono. lia. }
    apply (wp_zfor (fun j '(b, idx) => zlen b = zlen l /\ idx = zlen (bins key l (Z.to_nat i)) + j /\
      take (Z.to_nat idx) b = bins key l (Z.to_nat i) ++ replicate (Z.to_nat j) (mn + i))).
    + split; [done|]. split; [lia|]. by rewrite E, app_nil_r.
    + intros j [b2 idx] Hj (Lb2 & -> & E2). pose proof (zlen_nonneg (bins key l (Z.to_nat i))).
      wstep. wstep. wstep. rewrite u64_small by lia. split; [by rewrite zlen_zupd|].
      split; [lia|]. rewrite Hval by lia. rewrite take_zupd_snoc by lia. rewrite E2, <- (assoc_L (++)).
      f_equal. replace (Z.to_nat (j + 1)) with (Z.to_nat j + 1)%nat by lia. by rewrite replicate_add.
    + intros [b2 idx]. rewrite Z.max_r by apply zlen_nonneg. intros (Lb2 & -> & E2).
      split; [done|]. rewrite EB, zlen_app. split; [done|]. rewrite E2. f_equal.
      unfold n, key, zlen. rewrite Nat2Z.id. symmetry. apply bin_replicate.
  - intros [b idx]. rewrite Z.max_r by lia. intros (Lb' & -> & E). wstep.
    unfold key in *. rewrite <- BA, <- E, LB, <- Lb'. symmetry. apply take_zlen.
Qed.
End Counting.

Lemma int_sub_small a b : 0 <= a - b -> a - b < 2 ^ 31 -> int_sub a b = Ok (a - b).
Proof.
  intros. unfold int_sub.
  by destruct (Z.leb_spec (- 2 ^ 31) (a - b)), (Z.ltb_spec (a - b) (2 ^ 31)); try lia.
Qed.

Lemma int_sub_wide a b : 2 ^ 31 <= a - b -> int_sub a b = UB.
Proof.
  intros. unfold int_sub.
  by destruct (Z.leb_spec (- 2 ^ 31) (a - b)), (Z.ltb_spec (a - b) (2 ^ 31)); try lia.
Qed.

(** Truncating a [size_t] to [int32_t] forgets its wrap-around. *)
Lemma i32_u64 x : i32 (u64 x) = i32 x.
Proof.
  unfold i32, u64. f_equal. rewrite (Z.mod_eq x) by lia.
  replace (x - 2 ^ 64 * (x / 2 ^ 64) + 2 ^ 31) with
    (x + 2 ^ 31 + (- (2 ^ 32 * (x / 2 ^ 64))) * 2 ^ 32) by lia.
  apply Z_mod_plus_full.
Qed.

Lemma u64_add_l x y : u64 (x mod 2 ^ 64 + y) = u64 (x + y).
Proof. apply Zplus_mod_idemp_l. Qed.

Section CountingSpec.
Context (al : scl_allocator_t) (w : world) (l : list Z) (mn mx : Z).
Hypothesis Hl : 2 <= zlen l < 2 ^ 64.
Hypothesis Hi32 : Forall is_i32 l.
Hypothesis Hmn : mn ∈ l.
Hypothesis Hmx : mx ∈ l.
Hypothesis Hb : forall x, x ∈ l -> mn <= x <= mx.

Lemma min_max_eq : min_max l (zlen l) = Ok (mn, mx).
Proof.
  assert (wp (min_max l (zlen l)) (fun p => p = (mn, mx))) as (p & -> & ->)%wp_ok; [|done].
  apply wp_min_max; [lia|]. intros mn' mx' H1 H2 H3.
  pose proof (Hb _ H1). pose proof (Hb _ H2). pose proof (H3 _ Hmn). pose proof (H3 _ Hmx).
  f_equal; lia.
Qed.

Lemma ends_i32 : is_i32 mn /\ is_i32 mx.
Proof. rewrite Forall_forall in Hi32. split; by apply Hi32. Qed.

(** The bins of both counting sorts, once allocated, give the sorted array. *)
Lemma counting_bins {B} val (k : list Z -> block Z -> res B) r :
  mx - mn < 2 ^ 31 -> (forall i, 0 <= i < mx - mn + 1 -> val i = mn + i) ->
  (forall counts, k (isort Zcmp l) counts = r) ->
  (counts ← count_keys l (replicate (Z.to_nat (mx - mn + 1)) (Some 0)) mn (zlen l);
   b ← emit_keys val l counts (mx - mn + 1); k b counts) = r.
Proof.
  intros Hd Hval Hr. destruct ends_i32 as [I1 I2]. unfold is_i32 in *. pose proof (Hb _ Hmn).
  assert (forall x, x ∈ l -> 0 <= x - mn < mx - mn + 1) as Hk
    by (intros x Hx; pose proof (Hb _ Hx); lia).
  assert (wp (count_keys l (replicate (Z.to_nat (mx - mn + 1)) (Some 0)) mn (zlen l))
    (fun counts => counted mn (mx - mn + 1) counts l)) as (counts & -> & C)%wp_ok.
  { apply (wp_count_keys l mn (mx - mn + 1)); try done; lia. }
  rewrite bind_Ok.
  assert (wp (emit_keys val l counts (mx - mn + 1)) (fun b => b = isort Zcmp l))
    as (b & -> & ->)%wp_ok; [|apply Hr].
  apply (wp_emit_keys l mn (mx - mn + 1)); try done; lia.
Qed.
End CountingSpec.

(** Both counting sorts, on an array of at least two [int32_t] whose
    smallest and largest elements are [mn] and [mx]: when [mx - mn] does not
    fit an [int] the subtraction overflows; otherwise a refused allocation
    leaves the array alone and a granted one gives the sorted array with the
    counters freed, every counter access being in bounds.  The capped variant
    hands ranges of more than a million keys to the quick sort. *)
Theorem counting_sorts_spec (dflt al : scl_allocator_t) (w : world) (l : list Z) (mn mx : Z)
  (Hl : 2 <= zlen l < 2 ^ 64) (Hi32 : Forall is_i32 l) (Hmn : mn ∈ l) (Hmx : mx ∈ l)
  (Hb : forall x, x ∈ l -> mn <= x <= mx) :
  let range := mx - mn + 1 in
  let w' := World (S (w_reqs w)) (w_live w) in
  let counting :=
    if calloc_fn al (w_reqs w) range 8 MAX_ALIGN
    then Ok (SCL_OK, Some (isort Zcmp l), w') else Ok (SCL_ERR_OUT_OF_MEMORY, Some l, w') in
  scl_sort_counting al w (Some l) (zlen l) =
    (if 2 ^ 31 <=? mx - mn then UB else counting) /\
  scl_sort_counting_sort dflt al w (Some l) (zlen l) =
    (if 2 ^ 31 <=? mx - mn then UB
     else if MAX_RANGE <? range
     then scl_sort_quick_sort dflt w (Some l) (zlen l) 4 (Some scl_counting_i32_cmp)
     else counting).
Proof.
  intros range w' counting. destruct (ends_i32 l mn mx Hi32 Hmn Hmx) as [I1 I2].
  unfold is_i32 in *. pose proof (Hb _ Hmn). unfold scl_sort_counting, scl_sort_counting_sort.
  destruct (Z.ltb_spec (zlen l) 2); [lia|]. rewrite (min_max_eq l mn mx) by done.
  rewrite !bind_Ok. destruct (Z.leb_spec (2 ^ 31) (mx - mn)); [by rewrite int_sub_wide|].
  rewrite int_sub_small, !bind_Ok, scl_add_overflow_spec, !u64_small
    by (unfold is_u64; rewrite ?u64_small; lia).
  destruct (Z.ltb_spec (mx - mn + 1) (2 ^ 64)); [|lia]. rewrite Z.gtb_ltb. fold range.
  rewrite (u64_small range) by (unfold range; lia).
  unfold scl_calloc, counting, w'. fold range. split; [|destruct (MAX_RANGE <? range); [done|]];
    (destruct (calloc_fn _ _ _ _ _); [|done]);
    (unfold range; apply (counting_bins l mn mx); try done).
  - intros i Hi. unfold u64 at 2. rewrite u64_add_l, i32_u64. apply i32_small. unfold is_i32. lia.
  - intros counts. simpl. do 4 f_equal. lia.
  - intros i Hi. rewrite (i32_small i) by (unfold is_i32; lia). apply i32_small. unfold is_i32. lia.
  - intros counts. simpl. do 4 f_equal. lia.
Qed.

(** ** Radix sort *)
Lemma ordered_filter {A} (cmp : A -> A -> Z) (P : A -> Prop) `{forall x, Decision (P x)} l :
  ordered cmp l -> ordered cmp (filter P l).
Proof.
  induction 1 as [|x l Hs IH Hx]; [constructor|]. rewrite filter_cons. case_decide; [|done].
  constructor; [done|]. apply Forall_forall. intros y [_ Hy]%list_elem_of_filter.
  rewrite Forall_forall in Hx. by apply Hx.
Qed.

Lemma ordered_impl {A} (c1 c2 : A -> A -> Z) l :
  (forall x y, x ∈ l -> y ∈ l -> c1 x y <= 0 -> c2 x y <= 0) -> ordered c1 l -> ordered c2 l.
Proof.
  intros Himp. induction 1 as [|x l Hs IH Hx]; [constructor|]. constructor.
  - apply IH. intros y z Hy Hz. apply Himp; by right.
  - rewrite Forall_forall in *. intros y Hy. apply Himp; [left|by right|by apply Hx].
Qed.

Lemma filter_nil_iff {A} (P : A -> Prop) `{forall x, Decision (P x)} l :
  (forall x, x ∈ l -> ~ P x) -> filter P l = [].
Proof.
  induction l as [|x l IH]; intros Hn; [done|]. rewrite filter_cons_False.
  - apply IH. intros y Hy. apply Hn. by right.
  - apply Hn. left.
Qed.

(** Sorting by the low part and then, stably, by the high part is sorting by
    the combined key. *)
Lemma isort_compose {A} (hi lo comb : A -> Z) l :
  (forall x y, comb x <= comb y <-> hi x < hi y \/ hi x = hi y /\ lo x <= lo y) ->
  isort (kcmp hi) (isort (kcmp lo) l) = isort (kcmp comb) l.
Proof.
  intros Hc. symmetry. set (a := isort (kcmp lo) l). set (r := isort (kcmp comb) l).
  assert (ordered (kcmp comb) r) as Or by (apply isort_ordered, _).
  assert (ordered (kcmp lo) a) as Oa by (apply isort_ordered, _).
  assert (forall c, a ≡ₚ l /\ r ≡ₚ l /\ stable (kcmp c) l (isort (kcmp c) l)) as HP.
  { intros c. split; [apply isort_perm|]. split; [apply isort_perm|apply isort_stable, _]. }
  destruct (HP lo) as (Pa & Pr & Sa). destruct (HP comb) as (_ & _ & Sr). fold a in Sa. fold r in Sr.
  assert (forall x y, kcmp comb x y = 0 <-> kcmp hi x y = 0 /\ kcmp lo x y = 0) as Eq.
  { intros x y. unfold kcmp. rewrite !Zcmp_eq. pose proof (Hc x y). pose proof (Hc y x). lia. }
  apply isort_unique; [apply _| |].
  { eapply ordered_impl; [|exact Or]. intros x y _ _. unfold kcmp. rewrite !Zcmp_le, Hc. lia. }
  intros x. apply (stable_ordered_unique (kcmp lo)).
  - eapply ordered_impl; [|apply ordered_filter, Or]. intros y z Hy Hz.
    apply list_elem_of_filter in Hy as [Hy _], Hz as [Hz _]. unfold kcmp in *.
    rewrite Zcmp_eq in Hy, Hz. rewrite !Zcmp_le, Hc. lia.
  - by apply ordered_filter.
  - intros z. unfold class. rewrite !list_filter_filter.
    transitivity (filter (fun y => kcmp lo z y = 0 /\ kcmp hi x y = 0) l).
    + transitivity (class (kcmp hi) x (class (kcmp lo) z a)).
      { unfold class. rewrite list_filter_filter. apply list_filter_iff. intros; tauto. }
      rewrite Sa. unfold class. rewrite list_filter_filter. apply list_filter_iff. intros; tauto.
    + destruct (decide (Exists (fun y => kcmp lo z y = 0 /\ kcmp hi x y = 0) l)) as [He|Hn].
      * apply Exists_exists in He as (y & _ & Hz & Hx). specialize (Sr y). unfold class in Sr.
        assert (forall l' : list A, filter (fun u => kcmp lo z u = 0 /\ kcmp hi x u = 0) l' =
                           filter (fun u => kcmp comb y u = 0) l') as E.
        { intros l'. apply list_filter_iff. intros u. rewrite Eq. unfold kcmp in *.
          rewrite !Zcmp_eq in *. lia. }
        by rewrite !E.
      * assert (forall l' : list A, l' ≡ₚ l -> filter (fun u => kcmp lo z u = 0 /\ kcmp hi x u = 0) l' = []) as E.
        { intros l' P. apply filter_nil_iff. intros u Hu Hb. apply Hn, Exists_exists.
          exists u. split; [by rewrite <- P|done]. }
        by rewrite !E.
Qed.

Lemma digit_range shift v : 0 <= digit shift v < 256.
Proof. unfold digit, u8. apply Z.mod_pos_bound. lia. Qed.

Section RadixPass.
Context (l : list Z) (shift : Z).
Hypothesis Hlen : zlen l < 2 ^ 64.
Let d := digit shift.

Definition occurrences (bucket : list Z) (l' : list Z) : Prop :=
  zlen bucket = 256 /\ forall b, 0 <= b < 256 -> zlook bucket b = Some (zlen (bin (digit shift) l' b)).

Lemma wp_count_digits Q :
  (forall bucket, occurrences bucket l -> Q bucket) ->
  wp (count_digits l (zlen l) shift (replicate 256 0)) Q.
Proof.
  intros HQ. unfold count_digits.
  apply (wp_zfor (fun i bucket => occurrences bucket (take (Z.to_nat i) l))).
  - split; [done|]. intros b Hb. rewrite zlook_replicate.
    destruct (Z.leb_spec 0 b), (Z.ltb_spec b (Z.of_nat 256)); try lia. done.
  - intros i bucket Hi [L C]. wstep. wstep. rename x into v.
    pose proof (digit_range shift v) as Hd. wstep. wstep. rename x into c.
    rewrite C in Hx0 by done. simplify_eq.
    pose proof (zlen_bin_le d (take (Z.to_nat i) l) (d v)) as Hle. rewrite zlen_take in Hle by lia.
    pose proof (zlen_nonneg (bin d (take (Z.to_nat i) l) (d v))). unfold d in *.
    rewrite u64_small by lia. wstep. split; [by rewrite zlen_zupd|]. intros b Hb.
    rewrite (take_S_zlook l i v Hx), bin_snoc, zlook_zupd, C by lia.
    do 2 case_decide; try lia; try done. subst b. by rewrite zlen_app.
  - intros bucket. rewrite Z.max_r by apply zlen_nonneg. rewrite take_zlen. apply HQ.
Qed.

(** The first place of digit [b]. *)
Definition start (b : Z) : Z := zlen (bins (digit shift) l (Z.to_nat b)).

Lemma start_S b : 0 <= b -> start (b + 1) = start b + zlen (bin d l b).
Proof.
  intros Hb. unfold start. replace (Z.to_nat (b + 1)) with (S (Z.to_nat b)) by lia.
  simpl. rewrite zlen_app. by rewrite Z2Nat.id by lia.
Qed.

Lemma start_mono b b' : b <= b' -> start b <= start b'.
Proof. intros H. apply zlen_bins_mono. lia. Qed.

Lemma bins_256 : bins d l 256 = isort (kcmp d) l.
Proof. apply bins_isort. intros x _. apply digit_range. Qed.

Lemma start_256 : start 256 = zlen l.
Proof. unfold start. fold d. change (Z.to_nat 256) with 256%nat. rewrite bins_256. apply zlen_perm, isort_perm. Qed.

Lemma start_range b : 0 <= b <= 256 -> 0 <= start b <= zlen l.
Proof.
  intros H. split; [apply zlen_nonneg|]. rewrite <- start_256. apply start_mono. lia.
Qed.

Lemma wp_bucket_starts bucket Q :
  occurrences bucket l ->
  (forall b', zlen b' = 256 -> (forall b, 0 <= b < 256 -> zlook b' b = Some (start b)) -> Q b') ->
  wp (bucket_starts bucket) Q.
Proof.
  intros [L C] HQ. unfold bucket_starts. wstep.
  apply (wp_zfor (fun i '(b', total) => zlen b' = 256 /\ total = start i /\
    (forall b, 0 <= b < i -> zlook b' b = Some (start b)) /\
    (forall b, i <= b < 256 -> zlook b' b = zlook bucket b))).
  - split; [done|]. split; [done|]. split; [lia|done].
  - intros i [b' total] Hi (L' & -> & Hlo & Hhi). wstep. wstep. wstep. wstep. wstep.
    rewrite Hhi, C in Hx by lia. simplify_eq. pose proof (start_range (i + 1)) as Hr.
    rewrite start_S in * by lia. unfold d in *. split; [by rewrite zlen_zupd|].
    pose proof (zlen_nonneg (bin (digit shift) l i)). pose proof (start_range i).
    rewrite u64_small by lia. split; [done|]. split.
    + intros b Hb. rewrite zlook_zupd. case_decide as E; [by destruct E as [-> _]|]. apply Hlo. lia.
    + intros b Hb. rewrite zlook_zupd_ne by lia. apply Hhi. lia.
  - intros [b' total] (L' & _ & Hlo & _). wstep. by apply HQ.
Qed.

(** After the elements of [l']: the bin of each digit is filled from its
    start on, and the bucket points to its next free place. *)
Definition placed (bucket : list Z) (out : block Z) (l' : list Z) : Prop :=
  zlen bucket = 256 /\ forall b, 0 <= b < 256 ->
    exists p, zlook bucket b = Some p /\ filled out (start b) p (bin (digit shift) l' b).

Lemma filled_frame (out : block Z) t0 ti T p x :
  0 <= t0 -> ti <= zlen out -> p < t0 \/ ti <= p -> filled out t0 ti T -> filled (zupd out p x) t0 ti T.
Proof.
  intros H0 Hz Hp [E S]. split; [done|]. rewrite <- S. apply zlook_ext. intros i.
  rewrite !zlook_slice by done. repeat bcase; simpl; try done. apply zlook_zupd_ne. lia.
Qed.

Lemma bin_take_le i b : zlen (bin d (take (Z.to_nat i) l) b) <= zlen (bin d l b).
Proof.
  rewrite <- (take_drop (Z.to_nat i) l) at 2. unfold bin. rewrite filter_app, zlen_app.
  pose proof (zlen_nonneg (filter (fun y => d y = b) (drop (Z.to_nat i) l))). lia.
Qed.

Lemma wp_place_digits bucket (out : block Z) Q :
  zlen l <= zlen out -> zlen bucket = 256 ->
  (forall b, 0 <= b < 256 -> zlook bucket b = Some (start b)) ->
  (forall b' out', zlen out' = zlen out -> placed b' out' l -> Q (b', out')) ->
  wp (place_digits l (zlen l) shift bucket out) Q.
Proof.
  intros Hout L C HQ. unfold place_digits.
  apply (wp_zfor (fun i '(b', out') => zlen out' = zlen out /\ placed b' out' (take (Z.to_nat i) l))).
  - split; [done|]. split; [done|]. intros b Hb. exists (start b). split; [by apply C|].
    split; [change (start b = start b + 0); lia|]. rewrite slice_nil by lia. done.
  - intros i [b' out'] Hi (Lo & Lb & P). wstep. wstep. rename x into v.
    pose proof (digit_range shift v) as Hd. wstep. wstep. rename x into p.
    destruct (P _ Hd) as (p' & Hp' & F). simplify_eq. pose proof F as [Ep _].
    pose proof (bin_take_le (i + 1) (d v)) as Hle. rewrite (take_S_zlook l i v Hx), bin_snoc in Hle.
    rewrite decide_True, zlen_app in Hle by done. change (zlen [v]) with 1 in Hle.
    pose proof (start_S (d v) ltac:(unfold d; lia)). pose proof (start_range (d v + 1)).
    pose proof (start_range (d v)). unfold d in *.
    pose proof (zlen_nonneg (bin (digit shift) (take (Z.to_nat i) l) (digit shift v))).
    rewrite u64_small by lia. wstep. wstep. wstep. wstep. wstep. split; [by rewrite zlen_zupd|].
    split; [by rewrite zlen_zupd|]. intros b Hb. rewrite (take_S_zlook l i v Hx), bin_snoc.
    rewrite zlook_zupd. destruct (decide (digit shift v = b)) as [<-|Hne].
    + rewrite decide_True by lia. exists (p + 1). split; [done|].
      apply filled_set; [apply zlen_nonneg|lia|done].
    + rewrite decide_False by lia. destruct (P b Hb) as (q & Hq & Fq). exists q. split; [done|].
      pose proof Fq as [Eq _]. pose proof (start_range b). pose proof (start_range (b + 1)).
      pose proof (start_S b ltac:(lia)). pose proof (bin_take_le i b). unfold d in *.
      apply filled_frame; [lia|lia| |done].
      destruct (decide (digit shift v < b)).
      * pose proof (start_mono (digit shift v + 1) b ltac:(lia)). lia.
      * pose proof (start_mono (b + 1) (digit shift v) ltac:(lia)). lia.
  - intros [b' out']. rewrite Z.max_r by apply zlen_nonneg. rewrite take_zlen.
    intros [Lo P]. by apply HQ.
Qed.

Lemma placed_all bucket (out : block Z) :
  zlen l <= zlen out -> placed bucket out l -> filled out 0 (zlen l) (isort (kcmp d) l).
Proof.
  intros Hout [_ P]. rewrite <- start_256, <- bins_256.
  assert (forall n, (n <= 256)%nat -> filled out 0 (start (Z.of_nat n)) (bins d l n)) as H;
    [|by apply (H 256%nat)].
  induction n as [|n IH]; intros Hn.
  { split; [done|]. by rewrite slice_nil by done. }
  destruct (IH ltac:(lia)) as [E1 E2]. destruct (P (Z.of_nat n) ltac:(lia)) as (p & _ & E3 & E4).
  pose proof (start_S (Z.of_nat n) ltac:(lia)) as ES. unfold d in *. rewrite <- E3 in ES.
  replace (Z.of_nat (S n)) with (Z.of_nat n + 1) by lia.
  pose proof (start_range (Z.of_nat n + 1) ltac:(lia)). pose proof (zlen_nonneg (bin (digit shift) l (Z.of_nat n))).
  pose proof (start_range (Z.of_nat n) ltac:(lia)).
  split; [simpl; rewrite zlen_app; lia|]. simpl. rewrite fmap_app, <- E2, <- E4, ES.
  symmetry. apply slice_app; lia.
Qed.

(** A pass sorts the array, stably, by its digit. *)
Lemma wp_radix_pass (out : block Z) Q :
  zlen l <= zlen out ->
  (forall out', zlen out' = zlen out -> Q (isort (kcmp (digit shift)) l, out')) ->
  wp (radix_pass l out (zlen l) shift) Q.
Proof.
  intros Hout HQ. unfold radix_pass. pose proof (zlen_nonneg l).
  wstep. apply wp_count_digits. intros b1 O1. wstep. apply wp_bucket_starts; [done|].
  intros b2 L2 C2. wstep. apply wp_place_digits; [done..|]. intros b3 out' L3 P3.
  wstep. eapply wp_copy_back; [lia|lia|lia|lia|lia|apply (placed_all b3); [lia|done]|]. wstep.
  rewrite slice_nil, slice_nil by lia. rewrite app_nil_l, app_nil_r. by apply HQ.
Qed.
End RadixPass.

(** The key known after [k] passes: the low [k] bytes. *)
Definition low (k v : Z) : Z := v mod 2 ^ (8 * k).

Lemma low_step k x y :
  0 <= k ->
  low (k + 1) x <= low (k + 1) y <->
  digit (8 * k) x < digit (8 * k) y \/ digit (8 * k) x = digit (8 * k) y /\ low k x <= low k y.
Proof.
  intros Hk. unfold low, digit, u8. replace (8 * (k + 1)) with (8 * k + 8) by lia.
  rewrite Z.pow_add_r, !Z.shiftr_div_pow2 by lia.
  assert (0 < 2 ^ (8 * k)) by (apply Z.pow_pos_nonneg; lia).
  rewrite !Z.rem_mul_r by lia. set (m := 2 ^ (8 * k)) in *.
  pose proof (Z.mod_pos_bound x m ltac:(lia)). pose proof (Z.mod_pos_bound y m ltac:(lia)).
  set (p := (x / m) mod 2 ^ 8). set (q := (y / m) mod 2 ^ 8).
  destruct (Z.lt_trichotomy p q) as [E|[E|E]]; split; intros; nia.
Qed.

Lemma isort_low_0 (l : list Z) : isort (kcmp (low 0)) l = l.
Proof.
  symmetry. apply isort_unique; [apply _| |done]. induction l as [|x l IH]; [constructor|].
  constructor; [done|]. apply Forall_forall. intros y _. apply Zcmp_le. unfold low.
  by rewrite !Z.mod_1_r.
Qed.

Lemma wp_radix_passes (l : list Z) (out : block Z) Q :
  zlen l < 2 ^ 64 -> zlen l <= zlen out ->
  (forall out', Q (isort (kcmp u32) l, out')) ->
  wp (zfor 0 4 (fun k '(base, output) => radix_pass base output (zlen l) (8 * k)) (l, out)) Q.
Proof.
  intros Hl Hout HQ.
  apply (wp_zfor (fun k '(b, out') => zlen out' = zlen out /\ b = isort (kcmp (low k)) l)).
  - split; [done|]. symmetry. apply isort_low_0.
  - intros k [b out'] Hk (L & ->). assert (zlen (isort (kcmp (low k)) l) = zlen l) as E
      by apply zlen_perm, isort_perm.
    rewrite <- E. apply wp_radix_pass; [lia|lia|]. intros out2 L2. split; [lia|].
    apply isort_compose. intros x y. apply low_step. lia.
  - intros [b out'] (_ & ->). apply HQ.
Qed.

(** Radix sort, on every branch: short arrays are answered at once, a
    byte count that overflows or a refused allocation leaves the array alone,
    and otherwise the four passes give the stable sort of the array by its
    elements read as unsigned 32-bit integers, which is their order when none
    of them is negative; every bucket and output access is in bounds and the
    output buffer is freed. *)
Theorem radix_sort_spec (al : scl_allocator_t) (w : world) (l : list Z)
  (Hl : zlen l < 2 ^ 64) (Hi32 : Forall is_i32 l) :
  scl_sort_radix al w (Some l) (zlen l) =
    (let w' := World (S (w_reqs w)) (w_live w) in
     if zlen l <? 2 then Ok (SCL_OK, Some l, w)
     else if zlen l * 4 >=? 2 ^ 64 then Ok (SCL_ERR_SIZE_OVERFLOW, Some l, w)
     else if malloc_fn al (w_reqs w) (zlen l * 4) MAX_ALIGN
          then Ok (SCL_OK, Some (isort (fun x y => Zcmp (u32 x) (u32 y)) l), w')
          else Ok (SCL_ERR_OUT_OF_MEMORY, Some l, w')) /\
  scl_sort_radix_sort al w (Some l) (zlen l) = scl_sort_radix al w (Some l) (zlen l) /\
  (Forall (fun x => 0 <= x) l -> isort (fun x y => Zcmp (u32 x) (u32 y)) l = isort Zcmp l).
Proof.
  split; [|split; [done|]].
  - unfold scl_sort_radix. destruct (Z.ltb_spec (zlen l) 2); [done|].
    rewrite scl_mul_overflow_spec by (unfold is_u64; lia).
    rewrite Z.geb_leb, Z.leb_antisym. destruct (Z.ltb_spec (zlen l * 4) (2 ^ 64)); [|done].
    cbn [negb]. unfold scl_alloc.
    destruct (malloc_fn al (w_reqs w) (zlen l * 4) MAX_ALIGN) eqn:Em; [|done].
    set (tmp := fresh_cells _ _ _).
    assert (zlen tmp = zlen l) as Lt.
    { unfold tmp, fresh_cells. rewrite zlen_replicate, Z.div_mul by lia. lia. }
    match goal with |- ?m ≫= _ = _ => assert (wp m (fun '(b', _) => b' = isort (kcmp u32) l))
      as ([b' t'] & -> & ->)%wp_ok end.
    { apply wp_radix_passes; [done|lia|done]. }
    simpl. do 4 f_equal. lia.
  - intros Hp. apply isort_cmp_ext. rewrite Forall_forall in Hp, Hi32. intros x y Hx Hy.
    pose proof (Hp x Hx). pose proof (Hp y Hy). pose proof (Hi32 x Hx). pose proof (Hi32 y Hy).
    unfold is_i32, u32 in *. rewrite !Zcmp_le, !Z.mod_small by lia. done.
Qed.

(** ** Instances *)

Lemma counting_sorts_spec_witness :
  scl_sort_counting small_allocator (World 0 0) (Some [5; -3; 5; 0]) 4 =
    Ok (SCL_OK, Some [-3; 0; 5; 5], World 1 0).
Proof.
  assert (Forall is_i32 [5; -3; 5; 0]) as Hi by (repeat constructor; unfold is_i32; lia).
  assert (2 <= zlen [5; -3; 5; 0] < 2 ^ 64) as Hl by (vm_compute; split; [discriminate|reflexivity]).
  assert (-3 ∈ [5; -3; 5; 0]) as Hmn by (rewrite !elem_of_cons; auto).
  assert (5 ∈ [5; -3; 5; 0]) as Hmx by (rewrite !elem_of_cons; auto).
  assert (forall x, x ∈ [5; -3; 5; 0] -> -3 <= x <= 5) as Hb
    by (intros x; rewrite !elem_of_cons, elem_of_nil; lia).
  exact (proj1 (counting_sorts_spec small_allocator small_allocator (World 0 0)
    [5; -3; 5; 0] (-3) 5 Hl Hi Hmn Hmx Hb)).
Defined.

Lemma radix_sort_spec_witness :
  scl_sort_radix small_allocator (World 0 0) (Some [300; 7; 65536; 7]) 4 =
    Ok (SCL_OK, Some [7; 7; 300; 65536], World 1 0).
Proof.
  assert (Forall is_i32 [300; 7; 65536; 7]) as Hi by (repeat constructor; unfold is_i32; lia).
  exact (proj1 (radix_sort_spec small_allocator (World 0 0) [300; 7; 65536; 7] eq_refl Hi)).
Defined.

(** Negative elements end up last. *)
Lemma radix_negatives_last :
  scl_sort_radix small_allocator (World 0 0) (Some [1; -1; 0]) 3 = Ok (SCL_OK, Some [0; 1; -1], World 1 0).
Proof. by vm_compute. Qed.

(** A range of more than [INT_MAX] makes counting sort overflow. *)
Lemma counting_wide_overflow :
  scl_sort_counting small_allocator (World 0 0) (Some [- 2 ^ 31; 0; 1]) 3 = UB.
Proof. by vm_compute. Qed.
