(* ===== verification/SortFiles.v ===== *)
(** The per-algorithm files of [libs/sort/<name>/]: each holds a second copy of
    a sort of [libs/sort/scl_sort.c], with the same control structure and the
    byte-wise [swap] of [ByteSwap.v], under the name [scl_sort_<name>_sort]. *)

From S2P Require Import Prelude Core SortSpec Sort HeapSort MergeSort IntSort.
#[local] Open Scope Z_scope.

Section Files.
Context {A : Type}.

Definition scl_sort_bubble_sort := @scl_sort_bubble A.
Definition scl_sort_insertion_sort := @scl_sort_insertion A.
Definition scl_sort_selection_sort := @scl_sort_selection A.
Definition scl_sort_shell_sort := @scl_sort_shell A.
Definition scl_sort_merge_sort := @scl_sort_merge A.

(** [sift_down] and [scl_sort_heap_sort] of [scl_heap_sort.c] compare with
    both children in one loop body. *)
Definition sift_down (cmp : A -> A -> Z) (base : list A) (start end_ : Z) : res (list A) :=
  loop (S (Z.to_nat end_))
    (fun '(base, root) =>
       if root * 2 + 1 <=? end_ then
         let child := root * 2 + 1 in
         x ← get base root; c ← get base child;
         let swp := if cmp x c <? 0 then child else root in
         swp ← (if child + 1 <=? end_ then
                  x ← get base swp; c ← get base (child + 1);
                  mret (if cmp x c <? 0 then child + 1 else swp)
                else mret swp);
         if swp =? root then mret (inr base)
         else base ← swap base root swp; mret (inl (base, swp))
       else mret (inr base))
    (base, start).

Definition scl_sort_heap_sort (base : option (list A)) (count : Z)
    (cmp : option (A -> A -> Z)) : res (scl_error_t * option (list A)) :=
  match base, cmp with
  | Some base, Some cmp =>
      if count <? 2 then mret (SCL_OK, Some base)
      else
        base ← zfor_down (count / 2) (fun i base => sift_down cmp base (i - 1) (count - 1)) base;
        base ← zfor_down (count - 1)
          (fun i base => base ← swap base 0 i; sift_down cmp base 0 (i - 1)) base;
        mret (SCL_OK, Some base)
  | _, _ => mret (SCL_ERR_NULL_PTR, base)
  end.
End Files.

(** * Theorems *)
Section FilesSpec.
Context {A : Type}.

Lemma sift_down_eq (c : A -> A -> Z) (b : list A) start end_ :
  sift_down c b start end_ = scl_heap_sift_down c b start end_.
Proof.
  apply loop_ext. intros [b' root]. destruct (_ <=? end_); [|done]. unfold heap_pick.
  destruct (get b' root) as [x| |]; [|done..].
  destruct (get b' (root * 2 + 1)) as [y| |]; [|done..]. rewrite !bind_Ok. by case_match.
Qed.

Lemma scl_sort_heap_sort_eq base count (c : option (A -> A -> Z)) :
  scl_sort_heap_sort base count c = scl_sort_heap base count c.
Proof.
  unfold scl_sort_heap_sort, scl_sort_heap, zfor_down. destruct base as [b|], c as [c|]; try done.
  destruct (count <? 2); [done|].
  erewrite (zfor_ext 0 (count / 2)) by (intros; apply sift_down_eq).
  destruct (zfor 0 (count / 2) _ _); [|done..]. rewrite !bind_Ok.
  erewrite (zfor_ext 0 (count - 1)); [done|]. intros k s. simpl.
  destruct (swap _ _ _); [|done..]. rewrite !bind_Ok. apply sift_down_eq.
Qed.
End FilesSpec.

(** The copies in the per-algorithm files sort: bubble, insertion and
    merge sort return the reference stable sort of the array (merge sort when
    its scratch buffer is granted, with the buffer freed), selection, shell
    and heap sort an ordered permutation of it. *)
Theorem per_algorithm_files_sort {A} (cmp : A -> A -> Z) `{!Comparator cmp} (b : list A)
  (al : scl_allocator_t) (w : world) (es : Z) (Hal : AllocatorOk al)
  (Hes : 1 <= es < 2 ^ 64) (Hb : zlen b < 2 ^ 64) :
  scl_sort_bubble_sort (Some b) (zlen b) (Some cmp) = Ok (SCL_OK, Some (isort cmp b)) /\
  scl_sort_insertion_sort (Some b) (zlen b) (Some cmp) = Ok (SCL_OK, Some (isort cmp b)) /\
  sorts cmp b (scl_sort_selection_sort (Some b) (zlen b) (Some cmp)) /\
  sorts cmp b (scl_sort_shell_sort (Some b) (zlen b) (Some cmp)) /\
  sorts cmp b (scl_sort_heap_sort (Some b) (zlen b) (Some cmp)) /\
  (2 <= zlen b -> zlen b * es < 2 ^ 64 ->
   malloc_fn al (w_reqs w) (zlen b * es) MAX_ALIGN = true ->
   scl_sort_merge_sort al w (Some b) (zlen b) es (Some cmp) =
     Ok (SCL_OK, Some (isort cmp b), World (S (w_reqs w)) (w_live w))).
Proof.
  split; [by apply bubble_isort|]. split; [by apply insertion_isort|].
  destruct (selection_shell_sorts cmp b) as [H1 H2]. split; [done|]. split; [done|].
  split; [rewrite scl_sort_heap_sort_eq; by apply heap_sorts|]. intros H3 H4 H5.
  unfold scl_sort_merge_sort. rewrite merge_sort_spec by done. cbv zeta.
  destruct (Z.ltb_spec (zlen b) 2); [lia|]. rewrite Z.geb_leb.
  destruct (Z.leb_spec (2 ^ 64) (zlen b * es)); [lia|]. by rewrite H5.
Qed.

Lemma per_algorithm_files_sort_witness :
  scl_sort_merge_sort small_allocator (World 0 0) (Some [3; 1; 2]) 3 8 (Some Zcmp) =
    Ok (SCL_OK, Some [1; 2; 3], World 1 0).
Proof.
  destruct (per_algorithm_files_sort Zcmp [3; 1; 2] small_allocator (World 0 0) 8 _ ltac:(lia) eq_refl)
    as (_ & _ & _ & _ & _ & H).
  exact (H ltac:(by vm_compute) eq_refl eq_refl).
Defined.
