(* ===== verification/Search.v ===== *)
(** The array searches of [libs/search/]: linear, sentinel, binary, jump,
    meta-binary, interpolation, exponential, ternary, unbounded and Fibonacci
    search.

    [None] is a [NULL] pointer; [out] says whether [out_index] is not [NULL];
    the result holds the error code and what was written to [*out_index].
    Searches whose loop may fail to terminate take the number of rounds
    granted to the loop as their first argument. *)

From S2P Require Import Prelude Core SortSpec.
#[local] Open Scope Z_scope.

Section Searches.
Context {A : Type}.
Implicit Types (base : list A) (key : A).

Definition answer : Type := scl_error_t * option Z.

(** [for (i = lo; i < hi; i++) if (cmp(base[i], key) == 0) ...]. *)
Definition scan (cmp : A -> A -> Z) base (lo hi : Z) key : res answer :=
  r ← zfor_ret lo hi
    (fun i _ =>
       x ← get base i;
       if cmp x key =? 0 then mret (inr (SCL_OK, Some i)) else mret (inl tt)) tt;
  mret (match r with inl _ => (SCL_ERR_NOT_FOUND, None) | inr a => a end).

Definition scl_search_linear_search (base : option (list A)) (count : Z) (key : option A)
    (cmp : option (A -> A -> Z)) (out : bool) : res answer :=
  match base, key, cmp, out with
  | Some base, Some key, Some cmp, true =>
      if count =? 0 then mret (SCL_ERR_EMPTY, None) else scan cmp base 0 count key
  | _, _, _, _ => mret (SCL_ERR_NULL_PTR, None)
  end.

Definition scl_search_binary_search (base : option (list A)) (count : Z) (key : option A)
    (cmp : option (A -> A -> Z)) (out : bool) : res answer :=
  match base, key, cmp, out with
  | Some base, Some key, Some cmp, true =>
      if count =? 0 then mret (SCL_ERR_EMPTY, None)
      else
        loop (S (Z.to_nat count))
          (fun '(lo, hi) =>
             if lo <? hi then
               let mid := lo + (hi - lo) / 2 in
               elem ← get base mid;
               let r := cmp elem key in
               if r =? 0 then mret (inr (SCL_OK, Some mid))
               else if r <? 0 then mret (inl (mid + 1, hi)) else mret (inl (lo, mid))
             else mret (inr (SCL_ERR_NOT_FOUND, None)))
          (0, count)
  | _, _, _, _ => mret (SCL_ERR_NULL_PTR, None)
  end.

(** [isqrt count] is [(size_t)scl_sqrt((double)count)], a floating-point
    square root. *)
Definition scl_search_jump_search (isqrt : Z -> Z) (base : option (list A)) (count : Z)
    (key : option A) (cmp : option (A -> A -> Z)) (out : bool) : res answer :=
  match base, key, cmp, out with
  | Some base, Some key, Some cmp, true =>
      if count =? 0 then mret (SCL_ERR_EMPTY, None)
      else
        let step := isqrt count in
        let step := if step =? 0 then 1 else step in
        loop (S (Z.to_nat count))
          (fun prev =>
             if prev <? count then
               let block_end := u64 (prev + step) in
               let block_end := if block_end >? count then count else block_end in
               elem ← get base (block_end - 1);
               if cmp elem key >=? 0 then
                 a ← scan cmp base prev block_end key; mret (inr a)
               else if block_end =? count then mret (inr (SCL_ERR_NOT_FOUND, None))
               else mret (inl block_end)
             else mret (inr (SCL_ERR_NOT_FOUND, None))) 0
  | _, _, _, _ => mret (SCL_ERR_NULL_PTR, None)
  end.

(** The copy of the array with the key in one more cell. *)
Definition scl_search_sentinel_linear_search (al : scl_allocator_t) (w : world)
    (base : option (list A)) (count elem_size : Z) (key : option A)
    (cmp : option (A -> A -> Z)) (out : bool) : res (answer * world) :=
  match base, key, cmp, out with
  | Some base, Some key, Some cmp, true =>
      if count =? 0 then mret ((SCL_ERR_EMPTY, None), w)
      else if elem_size =? 0 then mret ((SCL_ERR_INVALID_ARG, None), w)
      else
        match scl_mul_overflow (u64 (count + 1)) elem_size with
        | None => mret ((SCL_ERR_SIZE_OVERFLOW, None), w)
        | Some bytes =>
            match scl_alloc al w bytes MAX_ALIGN elem_size with
            | (None, w) => mret ((SCL_ERR_OUT_OF_MEMORY, None), w)
            | (Some copy, w) =>
                copy ← memcpy_cells copy base count;
                copy ← set copy count (Some key);
                i ← loop (Z.to_nat count + 2)
                  (fun i =>
                     x ← get_cell copy i;
                     if negb (cmp x key =? 0) then mret (inl (i + 1)) else mret (inr i)) 0;
                let w := scl_free w (Some copy) in
                if i <? count then mret ((SCL_OK, Some i), w)
                else mret ((SCL_ERR_NOT_FOUND, None), w)
            end
        end
  | _, _, _, _ => mret ((SCL_ERR_NULL_PTR, None), w)
  end.

(** ** Searches over [lo <= hi]

    [hi = (mid == 0) ? 0 : mid - 1]. *)
Definition below (mid : Z) : Z := if mid =? 0 then 0 else mid - 1.

Definition binary_search_range (rounds : nat) (cmp : A -> A -> Z) base (lo hi : Z) key : res answer :=
  loop rounds
    (fun '(lo, hi) =>
       if lo <=? hi then
         let mid := lo + (hi - lo) / 2 in
         elem ← get base mid;
         let r := cmp elem key in
         if r =? 0 then mret (inr (SCL_OK, Some mid))
         else if r <? 0 then mret (inl (mid + 1, hi)) else mret (inl (lo, below mid))
       else mret (inr (SCL_ERR_NOT_FOUND, None)))
    (lo, hi).

(** The doubling of the bound, which stops at the first element that is not
    smaller than the key. *)
Definition scl_search_exponential_search (rounds : nat) (base : option (list A)) (count : Z)
    (key : option A) (cmp : option (A -> A -> Z)) (out : bool) : res answer :=
  match base, key, cmp, out with
  | Some base, Some key, Some cmp, true =>
      if count =? 0 then mret (SCL_ERR_EMPTY, None)
      else
        x0 ← get base 0;
        if cmp x0 key =? 0 then mret (SCL_OK, Some 0)
        else if count =? 1 then mret (SCL_ERR_NOT_FOUND, None)
        else
          '(lo, hi) ← loop 65
            (fun bound =>
               if bound <? count then
                 elem ← get base bound;
                 if cmp elem key >=? 0 then
                   mret (inr (bound / 2, if bound >=? count then count - 1 else bound))
                 else if bound >? SIZE_MAX / 2 then mret (inr (bound / 2, count - 1))
                 else mret (inl (u64 (bound * 2)))
               else mret (inr (bound / 2, count - 1))) 1;
          binary_search_range rounds cmp base lo hi key
  | _, _, _, _ => mret (SCL_ERR_NULL_PTR, None)
  end.

Definition scl_search_ternary_search (rounds : nat) (base : option (list A)) (count : Z)
    (key : option A) (cmp : option (A -> A -> Z)) (out : bool) : res answer :=
  match base, key, cmp, out with
  | Some base, Some key, Some cmp, true =>
      if count =? 0 then mret (SCL_ERR_EMPTY, None)
      else
        loop rounds
          (fun '(lo, hi) =>
             if lo <=? hi then
               let mid1 := lo + (hi - lo) / 3 in
               let mid2 := hi - (hi - lo) / 3 in
               e1 ← get base mid1;
               let r1 := cmp e1 key in
               if r1 =? 0 then mret (inr (SCL_OK, Some mid1))
               else
                 e2 ← get base mid2;
                 let r2 := cmp e2 key in
                 if r2 =? 0 then mret (inr (SCL_OK, Some mid2))
                 else if (r1 <? 0) && (r2 >? 0) then mret (inl (mid1 + 1, below mid2))
                 else if r2 <? 0 then mret (inl (mid2 + 1, hi))
                 else mret (inl (lo, below mid1))
             else mret (inr (SCL_ERR_NOT_FOUND, None)))
          (0, count - 1)
  | _, _, _, _ => mret (SCL_ERR_NULL_PTR, None)
  end.

(** The element source of the unbounded search: [getter index], [None] for
    [NULL]. *)
Definition scl_search_unbounded_binary_search (rounds : nat) (cmp : option (A -> A -> Z))
    (key : option A) (out : bool) (getter : option (Z -> option A)) (max_count : Z) : res answer :=
  match cmp, key, out, getter with
  | Some cmp, Some key, true, Some getter =>
      if max_count =? 0 then mret (SCL_ERR_EMPTY, None)
      else
        match getter 0 with
        | None => mret (SCL_ERR_NOT_FOUND, None)
        | Some elem =>
            if cmp elem key =? 0 then mret (SCL_OK, Some 0)
            else
              probe ← loop 66
                (fun '(lo, hi) =>
                   if hi <? max_count then
                     match getter hi with
                     | None => mret (inr (inl (lo, hi)))
                     | Some elem =>
                         let r := cmp elem key in
                         if r =? 0 then mret (inr (inr hi))
                         else if r >? 0 then mret (inr (inl (lo, hi)))
                         else if hi >? SIZE_MAX / 2 then mret (inr (inl (hi, max_count)))
                         else mret (inl (hi, u64 (hi * 2)))
                     end
                   else mret (inr (inl (lo, hi)))) (0, 1);
              match probe with
              | inr i => mret (SCL_OK, Some i)
              | inl (lo, hi) =>
                  let hi := if hi >=? max_count then max_count - 1 else hi in
                  let hi := if hi <? lo then lo else hi in
                  loop rounds
                    (fun '(lo, hi) =>
                       if lo <=? hi then
                         let mid := lo + (hi - lo) / 2 in
                         match getter mid with
                         | None => mret (inl (lo, below mid))
                         | Some elem =>
                             let r := cmp elem key in
                             if r =? 0 then mret (inr (SCL_OK, Some mid))
                             else if r <? 0 then mret (inl (mid + 1, hi))
                             else mret (inl (lo, below mid))
                         end
                       else mret (inr (SCL_ERR_NOT_FOUND, None))) (lo, hi)
              end
        end
  | _, _, _, _ => mret (SCL_ERR_NULL_PTR, None)
  end.

(** ** Fibonacci search *)
Definition fib_start (count : Z) : res (Z * Z * Z) :=
  loop 95
    (fun '(fib, fib1, fib2) =>
       if fib <? count then mret (inl (u64 (fib + fib1), fib, fib1))
       else mret (inr (fib, fib1, fib2)))
    (1, 1, 0).

Definition scl_search_fibonacci_search (base : option (list A)) (count : Z) (key : option A)
    (cmp : option (A -> A -> Z)) (out : bool) : res answer :=
  match base, key, cmp, out with
  | Some base, Some key, Some cmp, true =>
      if count =? 0 then mret (SCL_ERR_EMPTY, None)
      else
        '(fib, fib1, fib2) ← fib_start count;
        r ← loop 95
          (fun '(fib, fib1, fib2, offset) =>
             if fib >? 1 then
               let i := u64 (offset + fib2) in
               let i := if i >=? count then count - 1 else i in
               elem ← get base i;
               let r := cmp elem key in
               if r =? 0 then mret (inr (inr i))
               else if r <? 0 then
                 let fib := fib1 in
                 let fib1 := fib2 in
                 let fib2 := if fib >? fib1 then fib - fib1 else 0 in
                 mret (inl (fib, fib1, fib2, i + 1))
               else
                 let fib := fib2 in
                 let fib1 := u64 (fib1 - fib2) in
                 let fib2 := u64 (fib - fib1) in
                 mret (inl (fib, fib1, fib2, offset))
             else mret (inr (inl (fib1, offset))))
          (fib, fib1, fib2, 0);
        match r with
        | inr i => mret (SCL_OK, Some i)
        | inl (fib1, offset) =>
            if negb (fib1 =? 0) && (offset <? count) then
              elem ← get base offset;
              if cmp elem key =? 0 then mret (SCL_OK, Some offset)
              else mret (SCL_ERR_NOT_FOUND, None)
            else mret (SCL_ERR_NOT_FOUND, None)
        end
  | _, _, _, _ => mret (SCL_ERR_NULL_PTR, None)
  end.
End Searches.

(** ** Searches of integer arrays *)

(** The number of bits of [count]. *)
Definition bit_count (count : Z) : res Z :=
  loop 65 (fun '(bits, tmp) => if negb (tmp =? 0) then mret (inl (bits + 1, Z.shiftr tmp 1))
                               else mret (inr bits)) (0, count).

Definition scl_search_meta_binary_search (arr : option (list Z)) (count key : Z) (out : bool)
    : res answer :=
  match arr, out with
  | Some arr, true =>
      if count =? 0 then mret (SCL_ERR_EMPTY, None)
      else
        bits ← bit_count count;
        pos ← zfor_down bits
          (fun b pos =>
             let mid := u64 (pos + Z.shiftl 1 (b - 1)) in
             if mid >=? count then mret pos
             else x ← get arr mid; mret (if x <=? key then mid else pos)) 0;
        x ← get arr pos;
        if x =? key then mret (SCL_OK, Some pos) else mret (SCL_ERR_NOT_FOUND, None)
  | _, _ => mret (SCL_ERR_NULL_PTR, None)
  end.

(** [fraction key a_lo a_hi width] is the floating-point
    [(size_t)(frac * (double)(hi - lo))], with [frac] clamped to [0..1]. *)
Definition scl_search_interpolation_search (fraction : Z -> Z -> Z -> Z -> Z)
    (arr : option (list Z)) (count key : Z) (out : bool) : res answer :=
  match arr, out with
  | Some arr, true =>
      if count =? 0 then mret (SCL_ERR_EMPTY, None)
      else
        loop (S (Z.to_nat count))
          (fun '(lo, hi) =>
             if lo <=? hi then
               a_lo ← get arr lo;
               if key >=? a_lo then
                 a_hi ← get arr hi;
                 if key <=? a_hi then
                   if lo =? hi then
                     mret (inr (if a_lo =? key then (SCL_OK, Some lo) else (SCL_ERR_NOT_FOUND, None)))
                   else if a_hi =? a_lo then mret (inr (SCL_ERR_NOT_FOUND, None))
                   else
                     let pos := u64 (lo + fraction key a_lo a_hi (hi - lo)) in
                     let pos := if pos <? lo then lo else pos in
                     let pos := if pos >? hi then hi else pos in
                     x ← get arr pos;
                     if x =? key then mret (inr (SCL_OK, Some pos))
                     else if x <? key then mret (inl (pos + 1, hi))
                     else mret (inl (lo, below pos))
                 else mret (inr (SCL_ERR_NOT_FOUND, None))
               else mret (inr (SCL_ERR_NOT_FOUND, None))
             else mret (inr (SCL_ERR_NOT_FOUND, None)))
          (0, count - 1)
  | _, _ => mret (SCL_ERR_NULL_PTR, None)
  end.

(** * Theorems *)

(** What a correct search answers: an index of an equal element, or
    [SCL_ERR_NOT_FOUND] when there is none. *)
Definition found {A} (cmp : A -> A -> Z) (l : list A) (key : A) (a : answer) : Prop :=
  match a with
  | (SCL_OK, Some i) => exists x, zlook l i = Some x /\ cmp x key = 0
  | (SCL_ERR_NOT_FOUND, None) => forall x, x ∈ l -> cmp x key <> 0
  | _ => False
  end.

(** The same, at the first equal element. *)
Definition found_first {A} (cmp : A -> A -> Z) (l : list A) (key : A) (a : answer) : Prop :=
  found cmp l key a /\
  match a with
  | (_, Some i) => forall j x, j < i -> zlook l j = Some x -> cmp x key <> 0
  | _ => True
  end.

(** No element outside [lo..hi) equals the key. *)
Definition outside {A} (cmp : A -> A -> Z) (l : list A) (key : A) (lo hi : Z) : Prop :=
  forall i x, zlook l i = Some x -> i < lo \/ hi <= i -> cmp x key <> 0.

Section Scans.
Context {A : Type} (cmp : A -> A -> Z).
Implicit Types (l : list A) (key : A).

Lemma outside_found l key lo hi :
  hi <= lo -> outside cmp l key lo hi -> found cmp l key (SCL_ERR_NOT_FOUND, None).
Proof. intros H O x Hx. apply elem_zlook in Hx as [i Hi]. apply (O i); [done|lia]. Qed.

Lemma wp_scan l lo hi key (Q : answer -> Prop) :
  0 <= lo <= hi -> hi <= zlen l ->
  (forall i x, lo <= i < hi -> zlook l i = Some x -> cmp x key = 0 ->
     (forall j y, lo <= j < i -> zlook l j = Some y -> cmp y key <> 0) -> Q (SCL_OK, Some i)) ->
  ((forall j y, lo <= j < hi -> zlook l j = Some y -> cmp y key <> 0) ->
     Q (SCL_ERR_NOT_FOUND, None)) ->
  wp (scan cmp l lo hi key) Q.
Proof.
  intros H1 H2 HQ1 HQ2. unfold scan. wstep.
  apply (wp_zfor_ret (fun i _ => forall j y, lo <= j < i -> zlook l j = Some y -> cmp y key <> 0)).
  - intros j y; lia.
  - intros i [] Hi Hb. wstep. wstep. destruct (Z.eqb_spec (cmp x key) 0); wstep.
    + wstep. by eapply HQ1.
    + intros j y Hj Hy. destruct (decide (j = i)) as [->|]; [by simplify_eq|]. apply (Hb j); [lia|done].
  - intros [] Hb. wstep. apply HQ2. intros j y Hj. apply Hb. lia.
Qed.

Lemma linear_first l key :
  1 <= zlen l ->
  wp (scl_search_linear_search (Some l) (zlen l) (Some key) (Some cmp) true) (found_first cmp l key).
Proof.
  intros Hl. unfold scl_search_linear_search. destruct (Z.eqb_spec (zlen l) 0); [lia|].
  apply wp_scan; [lia|lia| |].
  - intros i x Hi Hx E Hb. split; [by exists x|]. intros j y Hj Hy. apply (Hb j); [zidx|done].
  - intros Hb. split; [|done]. intros x Hx. apply elem_zlook in Hx as [i Hi]. apply (Hb i); [zidx|done].
Qed.
End Scans.

Section Ordered.
Context {A : Type} (cmp : A -> A -> Z) `{!Comparator cmp}.
Context (l : list A) (key : A).
Hypothesis Hord : srt cmp l 0 (zlen l).

Lemma less_below mid x i y :
  zlook l mid = Some x -> cmp x key < 0 -> i <= mid -> zlook l i = Some y -> cmp y key < 0.
Proof.
  intros Hx Hlt Hi Hy. destruct (decide (i = mid)) as [->|]; [by simplify_eq|].
  apply (cmp_le_lt_trans cmp _ x); [|done]. apply (Hord i mid); zside.
Qed.

Lemma greater_above mid x i y :
  zlook l mid = Some x -> 0 < cmp x key -> mid <= i -> zlook l i = Some y -> 0 < cmp y key.
Proof.
  intros Hx Hlt Hi Hy. destruct (decide (i = mid)) as [->|]; [by simplify_eq|].
  apply (cmp_sym cmp). apply (cmp_sym cmp) in Hlt. apply (cmp_lt_le_trans cmp _ x); [done|].
  apply (Hord mid i); zside.
Qed.

Lemma outside_low mid x lo hi :
  zlook l mid = Some x -> cmp x key < 0 -> outside cmp l key lo hi -> outside cmp l key (mid + 1) hi.
Proof.
  intros Hx Hlt O i y Hy [Hi|Hi]; [|apply (O i); auto].
  pose proof (less_below mid x i y Hx Hlt ltac:(lia) Hy). lia.
Qed.

Lemma outside_high mid x lo hi :
  zlook l mid = Some x -> 0 < cmp x key -> outside cmp l key lo hi -> outside cmp l key lo mid.
Proof.
  intros Hx Hlt O i y Hy [Hi|Hi]; [apply (O i); auto|].
  pose proof (greater_above mid x i y Hx Hlt ltac:(lia) Hy). lia.
Qed.

Lemma outside_all : outside cmp l key 0 (zlen l).
Proof. intros i x Hx%zlook_Some Hi. lia. Qed.

Lemma binary_found :
  1 <= zlen l ->
  wp (scl_search_binary_search (Some l) (zlen l) (Some key) (Some cmp) true) (found cmp l key).
Proof.
  intros Hl. unfold scl_search_binary_search. destruct (Z.eqb_spec (zlen l) 0); [lia|].
  apply (wp_loop (fun '(lo, hi) => 0 <= lo <= hi /\ hi <= zlen l /\ outside cmp l key lo hi)
    (fun '(lo, hi) => hi - lo)); [|lia|lia|].
  { split; [lia|]. split; [lia|apply outside_all]. }
  intros [lo hi] (H1 & H2 & O). bcase; [|wstep; by apply (outside_found _ _ _ lo hi); [lia|]].
  cbv zeta. set (mid := lo + (hi - lo) / 2). assert (lo <= mid < hi) by (unfold mid; zdiv).
  wstep. wstep. destruct (Z.eqb_spec (cmp x key) 0); [wstep; by exists x|]. bcase; wstep.
  - split; [|lia]. split; [lia|]. split; [lia|]. by eapply outside_low.
  - split; [|lia]. split; [lia|]. split; [lia|]. eapply (outside_high mid x); [done|lia|done].
Qed.

Lemma jump_found isqrt :
  1 <= zlen l < 2 ^ 63 -> 0 <= isqrt (zlen l) <= zlen l ->
  wp (scl_search_jump_search isqrt (Some l) (zlen l) (Some key) (Some cmp) true) (found cmp l key).
Proof.
  intros Hl Hs. unfold scl_search_jump_search. destruct (Z.eqb_spec (zlen l) 0); [lia|]. cbv zeta.
  set (step := if isqrt (zlen l) =? 0 then 1 else isqrt (zlen l)).
  assert (1 <= step <= zlen l) as Hst by (unfold step; bcase; lia). clearbody step.
  apply (wp_loop (fun prev => 0 <= prev < zlen l /\
    forall i x, i < prev -> zlook l i = Some x -> cmp x key < 0) (fun prev => zlen l - prev));
    [|lia|lia|].
  { split; [lia|]. intros i x Hi Hx. zidx. }
  intros prev (H1 & Hlo). bcase; [|lia]. rewrite u64_small by lia.
  set (e := if _ >? _ then _ else _). assert (prev < e <= zlen l) as He by (unfold e; repeat bcase; lia).
  assert (outside cmp l key prev (zlen l)) as O.
  { intros i x Hx [Hi|Hi]; [|zidx]. pose proof (Hlo i x Hi Hx). lia. }
  wstep. wstep. rewrite Z.geb_leb. destruct (Z.leb_spec 0 (cmp x key)).
  - wstep. apply wp_scan; [lia|lia| |].
    + intros i y Hi Hy E Hb. wstep. by exists y.
    + intros Hb. wstep. intros y Hy. apply elem_zlook in Hy as [i Hi].
      destruct (decide (i < prev)); [apply (O i); auto|].
      destruct (decide (i < e)); [apply (Hb i); [lia|done]|].
      destruct (decide (cmp x key = 0)) as [E|E].
      * intros E'. apply (Hb (e - 1) x ltac:(lia) Hx). done.
      * pose proof (greater_above (e - 1) x i y Hx ltac:(lia) ltac:(lia) Hi). lia.
  - destruct (Z.eqb_spec e (zlen l)); wstep.
    + apply (outside_found _ _ _ e (zlen l)); [lia|].
      replace e with (e - 1 + 1) at 1 by lia. by eapply outside_low.
    + split; [|lia]. split; [lia|]. intros i y Hi Hy. apply (less_below (e - 1) x i); try done. lia.
Qed.
End Ordered.

Section Unordered.
Context {A : Type} (cmp : A -> A -> Z) `{!Comparator cmp}.
Implicit Types (l : list A) (key : A).

Lemma memcpy_cells_ok (d : block A) l :
  zlen l <= zlen d ->
  memcpy_cells d l (zlen l) = Ok ((Some <$> l) ++ drop (Z.to_nat (zlen l)) d).
Proof.
  intros H. unfold memcpy_cells. pose proof (zlen_nonneg l).
  destruct (Z.leb_spec 0 (zlen l)), (Z.leb_spec (zlen l) (zlen l)), (Z.leb_spec (zlen l) (zlen d)); try lia.
  cbn. do 3 f_equal. unfold zlen. apply take_ge. lia.
Qed.

(** The scan with a sentinel finds the first equal element of the array, or
    the sentinel. *)
Lemma wp_sentinel_scan l key (copy : block A) :
  zlen copy = zlen l + 1 -> (forall i, zlook copy i = Some <$> zlook (l ++ [key]) i) ->
  wp (loop (Z.to_nat (zlen l) + 2)
        (fun i => x ← get_cell copy i;
                  if negb (cmp x key =? 0) then mret (inl (i + 1)) else mret (inr i)) 0)
     (fun i => 0 <= i <= zlen l /\ (forall j y, j < i -> zlook l j = Some y -> cmp y key <> 0) /\
               forall x, zlook l i = Some x -> cmp x key = 0).
Proof.
  intros L C. pose proof (zlen_nonneg l).
  apply (wp_loop (fun i => 0 <= i <= zlen l /\
    forall j y, j < i -> zlook l j = Some y -> cmp y key <> 0) (fun i => zlen l - i)); [|lia|lia|].
  { split; [lia|]. intros j y Hj Hy. zidx. }
  intros i (Hi & Hb). unfold get_cell. wstep. wstep. wstep. rewrite C, zlook_app in Hx.
  assert (exists y, x = Some y /\ (i < zlen l -> zlook l i = Some y) /\ (i = zlen l -> y = key))
    as (y & -> & Hy & Hk).
  { destruct (Z.ltb_spec i (zlen l)).
    - destruct (zlook_lt l i) as [y Hy]; [lia|]. rewrite Hy in Hx. injection Hx as <-.
      exists y. split; [done|]. split; [intros _; exact Hy|intros; lia].
    - replace (i - zlen l) with 0 in Hx by lia. cbn in Hx. injection Hx as <-. exists key.
      split; [reflexivity|]. split; [intros; lia|done]. }
  wstep. destruct (Z.eqb_spec (cmp y key) 0) as [E|E]; cbn [negb]; wstep.
  - split; [done|]. split; [done|]. intros x Hx'. rewrite Hy in Hx' by zidx. by simplify_eq.
  - assert (i < zlen l).
    { destruct (decide (i = zlen l)); [|lia]. rewrite (Hk ltac:(done)), (cmp_refl cmp) in E. done. }
    split; [|lia]. split; [lia|]. intros j z Hj Hz. destruct (decide (j = i)) as [->|].
    + rewrite Hy in Hz by done. by simplify_eq.
    + by apply (Hb j); [lia|].
Qed.

Lemma sentinel_spec (al : scl_allocator_t) (w : world) l key es :
  1 <= zlen l < 2 ^ 63 -> 1 <= es < 2 ^ 64 -> (zlen l + 1) * es < 2 ^ 64 ->
  malloc_fn al (w_reqs w) ((zlen l + 1) * es) MAX_ALIGN = true ->
  wp (scl_search_sentinel_linear_search al w (Some l) (zlen l) es (Some key) (Some cmp) true)
    (fun '(a, w') => found_first cmp l key a /\ w' = World (S (w_reqs w)) (w_live w)).
Proof.
  intros Hl Hes Hov Hm. unfold scl_search_sentinel_linear_search.
  destruct (Z.eqb_spec (zlen l) 0); [lia|]. destruct (Z.eqb_spec es 0); [lia|].
  rewrite u64_small, scl_mul_overflow_spec by (unfold is_u64; lia).
  destruct (Z.ltb_spec ((zlen l + 1) * es) (2 ^ 64)); [|lia]. unfold scl_alloc. rewrite Hm.
  set (d := fresh_cells _ _ _). assert (zlen d = zlen l + 1) as Ld.
  { unfold d, fresh_cells. rewrite zlen_replicate, Z.div_mul by lia. lia. }
  rewrite memcpy_cells_ok, bind_Ok by lia. set (c := _ ++ _).
  assert (zlen c = zlen l + 1) as Lc.
  { unfold c. rewrite zlen_app, zlen_map, zlen_drop by lia. lia. }
  wstep. wstep. wstep. eapply wp_mono; [apply wp_sentinel_scan; [by rewrite zlen_zupd|]|].
  - intros i. rewrite zlook_zupd, Lc. unfold c. rewrite !zlook_app, zlen_map, zlook_fmap.
    destruct (decide _) as [[<- _]|Hne].
    + destruct (Z.ltb_spec (zlen l) (zlen l)); [lia|]. by rewrite Z.sub_diag.
    + destruct (Z.ltb_spec i (zlen l)); [done|]. rewrite zlook_drop by lia.
      destruct (Z.leb_spec 0 (i - zlen l)); [|lia].
      rewrite !zlook_ge; [done|change (zlen [key]) with 1|]; lia.
  - intros i (Hi & Hb & Hx). simpl. cbv beta in *. destruct (Z.ltb_spec i (zlen l)); wstep.
    + destruct (zlook_lt l i) as [x Hx']; [lia|]. split; [|f_equal; lia].
      split; [by exists x; split; [|apply Hx]|done].
    + split; [|f_equal; lia]. split; [|done]. intros x Hin. apply elem_zlook in Hin as [j Hj].
      apply (Hb j); [zidx|done].
Qed.
End Unordered.

(** The searches that terminate on every input: linear search and the
    sentinel search return the first equal element of any array (the latter
    freeing its copy), binary and jump search an equal element of an ordered
    array, whatever the floating-point square root below [count]; all of them
    answer [SCL_ERR_NOT_FOUND] exactly when there is none, and never leave
    the array. *)
Theorem array_searches_find {A} (cmp : A -> A -> Z) `{!Comparator cmp} (l : list A) (key : A)
  (isqrt : Z -> Z) (al : scl_allocator_t) (w : world) (es : Z)
  (Hl : 1 <= zlen l < 2 ^ 63) (Hsqrt : 0 <= isqrt (zlen l) <= zlen l)
  (Hes : 1 <= es < 2 ^ 64) (Hov : (zlen l + 1) * es < 2 ^ 64)
  (Hal : malloc_fn al (w_reqs w) ((zlen l + 1) * es) MAX_ALIGN = true) :
  (exists a, scl_search_linear_search (Some l) (zlen l) (Some key) (Some cmp) true = Ok a /\
     found_first cmp l key a) /\
  (exists a, scl_search_sentinel_linear_search al w (Some l) (zlen l) es (Some key) (Some cmp) true =
       Ok (a, World (S (w_reqs w)) (w_live w)) /\ found_first cmp l key a) /\
  (ordered cmp l ->
   (exists a, scl_search_binary_search (Some l) (zlen l) (Some key) (Some cmp) true = Ok a /\
      found cmp l key a) /\
   (exists a, scl_search_jump_search isqrt (Some l) (zlen l) (Some key) (Some cmp) true = Ok a /\
      found cmp l key a)).
Proof.
  split; [apply wp_ok, linear_first; lia|]. split.
  - destruct (proj1 (wp_ok _ _) (sentinel_spec cmp al w l key es Hl Hes Hov Hal))
      as ([a w'] & E & F & ->). by exists a.
  - intros Ho%ordered_srt. split; apply wp_ok; [apply binary_found; (done || lia)|by apply jump_found].
Qed.

Section Ranges.
Context {A : Type} (cmp : A -> A -> Z) `{!Comparator cmp}.
Context (l : list A) (key : A).
Hypothesis Hord : srt cmp l 0 (zlen l).
Hypothesis Hlen : 1 <= zlen l < 2 ^ 63.

(** An element that equals the key, if there is one, lies in [lo..hi]. *)
Definition covers (lo hi : Z) : Prop :=
  forall x, x ∈ l -> cmp x key = 0 ->
    exists j y, lo <= j <= hi /\ zlook l j = Some y /\ cmp y key = 0.

Lemma covers_empty lo hi : hi < lo -> covers lo hi -> found cmp l key (SCL_ERR_NOT_FOUND, None).
Proof. intros H C x Hx E. destruct (C x Hx E) as (j & y & Hj & _). lia. Qed.

Lemma covers_low mid x lo hi :
  zlook l mid = Some x -> cmp x key < 0 -> covers lo hi -> covers (mid + 1) hi.
Proof.
  intros Hx Hlt C z Hz E. destruct (C z Hz E) as (j & y & Hj & Hy & Ey). exists j, y.
  split; [|done]. destruct (decide (j <= mid)); [|lia].
  pose proof (less_below cmp l key Hord mid x j y Hx Hlt ltac:(lia) Hy). lia.
Qed.

Lemma covers_high mid x lo hi :
  zlook l mid = Some x -> 0 < cmp x key -> covers lo hi -> covers lo (mid - 1).
Proof.
  intros Hx Hlt C z Hz E. destruct (C z Hz E) as (j & y & Hj & Hy & Ey). exists j, y.
  split; [|done]. destruct (decide (mid <= j)); [|lia].
  pose proof (greater_above cmp l key Hord mid x j y Hx Hlt ltac:(lia) Hy). lia.
Qed.

Lemma covers_all hi : zlen l - 1 <= hi -> covers 0 hi.
Proof. intros H x Hx E. apply elem_zlook in Hx as [j Hj]. exists j, x. split; [zidx|done]. Qed.

Lemma covers_clip lo hi : covers lo hi -> covers lo (Z.min hi (zlen l - 1)).
Proof.
  intros C x Hx E. destruct (C x Hx E) as (j & y & Hj & Hy & Ey). exists j, y. split; [zidx|done].
Qed.

(** The first element is not greater than the key. *)
Definition starts_low : Prop := forall x, zlook l 0 = Some x -> cmp x key <= 0.

Lemma below_first mid x : starts_low -> zlook l mid = Some x -> 0 < cmp x key -> below mid = mid - 1.
Proof.
  intros HL Hx Hgt. unfold below. destruct (Z.eqb_spec mid 0) as [->|]; [|done].
  pose proof (HL x Hx). lia.
Qed.

Lemma range_found rounds lo hi :
  starts_low -> 0 <= lo <= hi + 1 -> hi < zlen l -> hi - lo + 1 < Z.of_nat rounds -> covers lo hi ->
  wp (binary_search_range rounds cmp l lo hi key) (found cmp l key).
Proof.
  intros HL Hlo Hhi Hf C. unfold binary_search_range.
  apply (wp_loop (fun '(lo, hi) => 0 <= lo <= hi + 1 /\ hi < zlen l /\ covers lo hi)
    (fun '(lo, hi) => hi - lo + 1)); [done|done|lia|].
  clear Hlo Hhi Hf C lo hi. intros [lo hi] (H1 & H2 & C).
  bcase; [|wstep; by apply (covers_empty lo hi); [lia|]].
  cbv zeta. set (mid := lo + (hi - lo) / 2). assert (lo <= mid <= hi) by (unfold mid; zdiv).
  wstep. wstep. destruct (Z.eqb_spec (cmp x key) 0); [wstep; by exists x|]. bcase; wstep.
  - split; [|lia]. split; [lia|]. split; [lia|]. by eapply covers_low.
  - rewrite (below_first mid x) by (done || lia). split; [|lia]. split; [lia|]. split; [lia|].
    eapply (covers_high mid x); [done|lia|done].
Qed.

Lemma exponential_found rounds :
  starts_low -> zlen l < Z.of_nat rounds ->
  wp (scl_search_exponential_search rounds (Some l) (zlen l) (Some key) (Some cmp) true)
    (found cmp l key).
Proof.
  intros HL Hf. unfold scl_search_exponential_search. destruct (Z.eqb_spec (zlen l) 0); [lia|].
  wstep. wstep. rename x into x0, Hx into Hx0.
  destruct (Z.eqb_spec (cmp x0 key) 0); [wstep; by exists x0|].
  pose proof (HL x0 Hx0) as H0. destruct (Z.eqb_spec (zlen l) 1).
  { wstep. apply (covers_empty 1 0); [lia|].
    eapply (covers_low 0 x0 0); [done|lia|apply covers_all; lia]. }
  wstep. apply (wp_loop_rel (fun m bound => exists k, 0 <= k <= 63 /\ bound = 2 ^ k /\ m = 63 - k /\
    bound / 2 < zlen l /\ covers (bound / 2) (zlen l - 1)) 63); [|lia|lia|].
  - exists 0. split; [lia|]. split; [done|]. split; [done|]. split; [change (1 / 2) with 0; lia|].
    apply covers_all. lia.
  - intros m bound (k & Hk & -> & -> & Hb & C). assert (0 < 2 ^ k) by (apply Z.pow_pos_nonneg; lia).
    bcase; [|wstep; apply range_found; try done; zdiv].
    wstep. wstep. rewrite Z.geb_leb. destruct (Z.leb_spec 0 (cmp x key)) as [Hge|Hlt].
    + wstep. rewrite Z.geb_leb. destruct (Z.leb_spec (zlen l) (2 ^ k)); [lia|].
      apply range_found; try done; try zdiv. intros z Hz E.
      destruct (decide (cmp x key = 0)); [exists (2 ^ k), x; split; [zdiv|done]|].
      destruct (covers_high (2 ^ k) x _ _ Hx ltac:(lia) C z Hz E) as (j & y & Hj & Hy).
      exists j, y. split; [lia|done].
    + rewrite Z.gtb_ltb. destruct (Z.ltb_spec (SIZE_MAX / 2) (2 ^ k)) as [Hbig|Hsm].
      { exfalso. unfold SIZE_MAX in Hbig. change ((2 ^ 64 - 1) / 2) with (2 ^ 63 - 1) in Hbig. lia. }
      wstep. assert (k <= 62).
      { enough (k < 63) by lia. apply (Z.pow_lt_mono_r_iff 2); lia. }
      assert (2 ^ k * 2 = 2 ^ (k + 1)) as E by (rewrite Z.pow_add_r by lia; done).
      rewrite u64_small by lia. exists (63 - (k + 1)). split; [lia|]. exists (k + 1).
      split; [lia|]. split; [lia|]. split; [lia|]. rewrite Z.div_mul by lia. split; [done|].
      intros z Hz Ez. destruct (covers_low (2 ^ k) x _ _ Hx Hlt C z Hz Ez) as (j & y & Hj & Hy).
      exists j, y. split; [lia|done].
Qed.

Lemma ternary_found rounds :
  starts_low -> zlen l < Z.of_nat rounds ->
  wp (scl_search_ternary_search rounds (Some l) (zlen l) (Some key) (Some cmp) true) (found cmp l key).
Proof.
  intros HL Hf. unfold scl_search_ternary_search. destruct (Z.eqb_spec (zlen l) 0); [lia|].
  apply (wp_loop (fun '(lo, hi) => 0 <= lo <= hi + 1 /\ hi < zlen l /\ covers lo hi)
    (fun '(lo, hi) => hi - lo + 1)); [|lia|lia|].
  { split; [lia|]. split; [lia|]. apply covers_all. lia. }
  intros [lo hi] (H1 & H2 & C).
  bcase; [|wstep; by apply (covers_empty lo hi); [lia|]].
  cbv zeta. set (mid1 := lo + (hi - lo) / 3). set (mid2 := hi - (hi - lo) / 3).
  assert (lo <= mid1 <= mid2 /\ mid2 <= hi) by (unfold mid1, mid2; zdiv). clearbody mid1 mid2.
  wstep. wstep. rename x into x1, Hx into Hx1.
  destruct (Z.eqb_spec (cmp x1 key) 0); [wstep; by exists x1|].
  wstep. wstep. rename x into x2, Hx into Hx2.
  destruct (Z.eqb_spec (cmp x2 key) 0); [wstep; by exists x2|]. rewrite Z.gtb_ltb.
  destruct (Z.ltb_spec (cmp x1 key) 0), (Z.ltb_spec 0 (cmp x2 key)); cbn [andb].
  - wstep. rewrite (below_first mid2 x2) by done. assert (mid1 <> mid2) by (intros ->; simplify_eq; lia).
    split; [|lia]. split; [lia|]. split; [lia|].
    eapply (covers_high mid2 x2); [done|done|]. by eapply covers_low.
  - destruct (Z.ltb_spec (cmp x2 key) 0); [|lia]. wstep. split; [|lia]. split; [lia|]. split; [lia|].
    by eapply covers_low.
  - destruct (Z.ltb_spec (cmp x2 key) 0); [lia|]. wstep. rewrite (below_first mid1 x1) by (done || lia).
    split; [|lia]. split; [lia|]. split; [lia|]. eapply (covers_high mid1 x1); [done|lia|done].
  - pose proof (greater_above cmp l key Hord mid1 x1 mid2 x2 Hx1 ltac:(lia) ltac:(lia) Hx2). lia.
Qed.

(** The probing phase of the unbounded search. *)
Definition unbounded_probe (getter : Z -> option A) (max_count : Z) : res ((Z * Z) + Z) :=
  loop 66
    (fun '(lo, hi) =>
       if hi <? max_count then
         match getter hi with
         | None => mret (inr (inl (lo, hi)))
         | Some elem =>
             let r := cmp elem key in
             if r =? 0 then mret (inr (inr hi))
             else if r >? 0 then mret (inr (inl (lo, hi)))
             else if hi >? SIZE_MAX / 2 then mret (inr (inl (hi, max_count)))
             else mret (inl (hi, u64 (hi * 2)))
         end
       else mret (inr (inl (lo, hi)))) (0, 1).

Lemma wp_unbounded_probe max_count (Q : (Z * Z) + Z -> Prop) :
  zlen l <= max_count ->
  (forall i x, zlook l i = Some x -> cmp x key = 0 -> Q (inr i)) ->
  (forall lo hi, 0 <= lo < zlen l -> lo <= hi -> hi <= Z.max 1 (2 * lo) -> covers lo hi ->
     Q (inl (lo, hi))) ->
  wp (unbounded_probe (fun i => zlook l i) max_count) Q.
Proof.
  intros Hm HQ1 HQ2. unfold unbounded_probe.
  apply (wp_loop_rel (fun m '(lo, hi) => exists k, 0 <= k <= 64 /\ hi = 2 ^ k /\ m = 64 - k /\
    lo = hi / 2 /\ lo < zlen l /\ covers lo (zlen l - 1)) 64); [|lia|lia|].
  - exists 0. split; [lia|]. split; [done|]. split; [done|]. split; [done|]. split; [lia|].
    apply covers_all. lia.
  - intros m [lo hi] (k & Hk & -> & -> & -> & Hlo & C).
    assert (0 < 2 ^ k) by (apply Z.pow_pos_nonneg; lia).
    assert (2 ^ k <= Z.max 1 (2 * (2 ^ k / 2))) as Hw.
    { destruct (decide (k = 0)) as [->|]; [done|].
      assert (2 ^ k = 2 ^ (k - 1) * 2) as E
        by (replace k with (k - 1 + 1) at 1 by lia; rewrite Z.pow_add_r by lia; done).
      rewrite E, Z.div_mul by lia. lia. }
    assert (zlen l <= 2 ^ k -> wp (Ok (inl (2 ^ k / 2, 2 ^ k)) : res ((Z * Z) + Z)) Q) as Hend.
    { intros Hge. apply HQ2; [zdiv|zdiv|done|]. intros z Hz E.
      destruct (C z Hz E) as (j & y & Hj & Hy). exists j, y. split; [lia|done]. }
    bcase; [|wstep; apply Hend; lia].
    destruct (zlook l (2 ^ k)) as [x|] eqn:Hx.
    2:{ wstep. apply Hend. destruct (Z.le_gt_cases (zlen l) (2 ^ k)); [done|].
        destruct (zlook_lt l (2 ^ k)) as [y Hy]; [lia|]. congruence. }
    destruct (Z.eqb_spec (cmp x key) 0); [wstep; by eapply HQ1|]. rewrite !Z.gtb_ltb.
    destruct (Z.ltb_spec 0 (cmp x key)).
    + wstep. apply HQ2; [zdiv|zdiv|done|]. intros z Hz E.
      destruct (covers_high (2 ^ k) x _ _ Hx ltac:(lia) C z Hz E) as (j & y & Hj & Hy).
      exists j, y. split; [lia|done].
    + pose proof (zlook_Some _ _ _ Hx).
      destruct (Z.ltb_spec (SIZE_MAX / 2) (2 ^ k)) as [Hbig|Hsm].
      { exfalso. unfold SIZE_MAX in Hbig. change ((2 ^ 64 - 1) / 2) with (2 ^ 63 - 1) in Hbig. lia. }
      wstep. assert (k <= 62).
      { enough (k < 63) by lia. apply (Z.pow_lt_mono_r_iff 2); lia. }
      assert (2 ^ k * 2 = 2 ^ (k + 1)) as E by (rewrite Z.pow_add_r by lia; done).
      rewrite u64_small by lia. exists (64 - (k + 1)). split; [lia|]. exists (k + 1).
      split; [lia|]. split; [lia|]. split; [lia|].
      rewrite Z.div_mul by lia. split; [done|]. split; [lia|].
      intros z Hz Ez. destruct (covers_low (2 ^ k) x _ _ Hx ltac:(lia) C z Hz Ez) as (j & y & Hj & Hy).
      exists j, y. split; [lia|done].
Qed.

Lemma unbounded_found rounds max_count :
  starts_low -> zlen l <= max_count -> 2 * zlen l + 1 < Z.of_nat rounds ->
  wp (scl_search_unbounded_binary_search rounds (Some cmp) (Some key) true
        (Some (fun i => zlook l i)) max_count) (found cmp l key).
Proof.
  intros HL Hm Hf. unfold scl_search_unbounded_binary_search.
  destruct (Z.eqb_spec max_count 0); [lia|]. destruct (zlook_lt l 0) as [x0 Hx0]; [lia|].
  rewrite Hx0. destruct (Z.eqb_spec (cmp x0 key) 0); [wstep; by exists x0|].
  wstep. apply wp_unbounded_probe; [done|intros i x Hx E; by exists x|].
  intros lo hi Hlo Hle Hhi C. cbv zeta.
  set (hi1 := if hi >=? max_count then max_count - 1 else hi).
  set (hi2 := if hi1 <? lo then lo else hi1).
  assert (covers lo hi2) as C2.
  { intros z Hz E. destruct (covers_clip lo hi C z Hz E) as (j & y & Hj & Hy). exists j, y.
    split; [|done]. unfold hi2, hi1. rewrite Z.geb_leb. repeat bcase; lia. }
  assert (lo <= hi2 <= Z.max 1 (2 * lo)) as H2 by (unfold hi2, hi1; rewrite Z.geb_leb; repeat bcase; lia).
  clearbody hi2. clear hi1 C.
  apply (wp_loop (fun '(lo, hi) => 0 <= lo <= hi + 1 /\ covers lo hi)
    (fun '(lo, hi) => hi - lo + 1)); [split; [lia|done]|lia|lia|].
  clear Hlo Hle Hhi C2 H2 lo hi hi2. intros [lo hi] (H1 & C).
  bcase; [|wstep; by apply (covers_empty lo hi); [lia|]].
  cbv zeta. set (mid := lo + (hi - lo) / 2). assert (lo <= mid <= hi) by (unfold mid; zdiv).
  clearbody mid. destruct (zlook l mid) as [x|] eqn:Hx.
  - destruct (Z.eqb_spec (cmp x key) 0); [wstep; by exists x|]. bcase; wstep.
    + split; [|lia]. split; [lia|]. by eapply covers_low.
    + rewrite (below_first mid x) by (done || lia). split; [|lia]. split; [lia|].
      eapply (covers_high mid x); [done|lia|done].
  - assert (zlen l <= mid).
    { destruct (Z.le_gt_cases (zlen l) mid); [done|].
      destruct (zlook_lt l mid) as [y Hy]; [lia|]. congruence. }
    wstep. unfold below. destruct (Z.eqb_spec mid 0); [lia|]. split; [|lia]. split; [lia|].
    intros z Hz E. destruct (C z Hz E) as (j & y & Hj & Hy & Ey). exists j, y. split; [zidx|done].
Qed.

(** ** Divergence below the first element *)
Hypothesis Hlow : forall x, zlook l 0 = Some x -> 0 < cmp x key.

Lemma all_greater i x : zlook l i = Some x -> 0 < cmp x key.
Proof.
  intros Hx. destruct (zlook_lt l 0) as [x0 Hx0]; [lia|].
  eapply (greater_above cmp l key Hord 0 x0 i x); [done|by apply Hlow|zidx|done].
Qed.

Lemma get_greater i : 0 <= i < zlen l -> exists x, get l i = Ok x /\ 0 < cmp x key.
Proof.
  intros Hi. destruct (zlook_lt l i Hi) as [x Hx]. exists x. split; [unfold get; by rewrite Hx|].
  by eapply all_greater.
Qed.

Lemma ternary_diverges rounds :
  scl_search_ternary_search rounds (Some l) (zlen l) (Some key) (Some cmp) true = Fuel.
Proof.
  unfold scl_search_ternary_search. destruct (Z.eqb_spec (zlen l) 0); [lia|].
  apply (loop_diverges (fun '(lo, hi) => lo = 0 /\ 0 <= hi < zlen l)); [|lia].
  intros [lo hi] (-> & Hhi). destruct (Z.leb_spec 0 hi); [|lia]. cbv zeta.
  set (mid1 := 0 + (hi - 0) / 3). set (mid2 := hi - (hi - 0) / 3).
  assert (0 <= mid1 <= hi /\ 0 <= mid2 <= hi) by (unfold mid1, mid2; zdiv).
  destruct (get_greater mid1) as (x1 & -> & H1); [lia|].
  destruct (get_greater mid2) as (x2 & -> & H2); [lia|]. rewrite !bind_Ok.
  destruct (Z.eqb_spec (cmp x1 key) 0); [lia|].
  destruct (Z.eqb_spec (cmp x2 key) 0); [lia|].
  destruct (Z.ltb_spec (cmp x1 key) 0); [lia|]. cbn [andb].
  destruct (Z.ltb_spec (cmp x2 key) 0); [lia|]. eexists. split; [done|].
  unfold below. split; [done|]. bcase; lia.
Qed.

Lemma exponential_diverges rounds :
  2 <= zlen l ->
  scl_search_exponential_search rounds (Some l) (zlen l) (Some key) (Some cmp) true = Fuel.
Proof.
  intros Hl. unfold scl_search_exponential_search. destruct (Z.eqb_spec (zlen l) 0); [lia|].
  destruct (get_greater 0) as (x0 & -> & H0); [lia|]. rewrite bind_Ok.
  destruct (Z.eqb_spec (cmp x0 key) 0); [lia|]. destruct (Z.eqb_spec (zlen l) 1); [lia|].
  cbn [loop]. destruct (Z.ltb_spec 1 (zlen l)); [|lia].
  destruct (get_greater 1) as (x1 & E1 & H1); [lia|]. rewrite E1, bind_Ok.
  rewrite !Z.geb_leb. destruct (Z.leb_spec 0 (cmp x1 key)); [|lia]. cbn [mret res_ret]. rewrite !bind_Ok.
  destruct (Z.leb_spec (zlen l) 1); [lia|]. unfold binary_search_range. change (1 / 2) with 0.
  apply (loop_diverges (fun '(lo, hi) => lo = 0 /\ (hi = 0 \/ hi = 1))); [|auto].
  intros [lo hi] (-> & Hhi). exists (0, 0). split; [|auto].
  assert (0 + (hi - 0) / 2 = 0) as -> by (destruct Hhi as [->| ->]; done).
  destruct (Z.leb_spec 0 hi); [|lia]. cbv zeta.
  destruct (get_greater 0) as (x & -> & Hx); [lia|]. rewrite bind_Ok.
  destruct (Z.eqb_spec (cmp x key) 0); [lia|]. by destruct (Z.ltb_spec (cmp x key) 0); [lia|].
Qed.

Lemma exponential_alone rounds :
  zlen l = 1 ->
  scl_search_exponential_search rounds (Some l) (zlen l) (Some key) (Some cmp) true =
    Ok (SCL_ERR_NOT_FOUND, None).
Proof.
  intros Hl. unfold scl_search_exponential_search. destruct (Z.eqb_spec (zlen l) 0); [lia|].
  destruct (get_greater 0) as (x0 & -> & H0); [lia|]. rewrite bind_Ok.
  destruct (Z.eqb_spec (cmp x0 key) 0); [lia|]. by destruct (Z.eqb_spec (zlen l) 1); [|lia].
Qed.

(** The probe stops at index 1 at the latest. *)
Lemma unbounded_probe_low max_count :
  unbounded_probe (fun i => zlook l i) max_count = Ok (inl (0, 1)).
Proof.
  unfold unbounded_probe. cbn [loop]. destruct (Z.ltb_spec 1 max_count); [|done].
  destruct (zlook l 1) as [x|] eqn:Hx; [|done]. pose proof (all_greater 1 x Hx).
  destruct (Z.eqb_spec (cmp x key) 0); [lia|]. rewrite Z.gtb_ltb.
  by destruct (Z.ltb_spec 0 (cmp x key)); [|lia].
Qed.

Lemma unbounded_diverges rounds max_count :
  1 <= max_count ->
  scl_search_unbounded_binary_search rounds (Some cmp) (Some key) true (Some (fun i => zlook l i)) max_count = Fuel.
Proof.
  intros Hm. unfold scl_search_unbounded_binary_search.
  destruct (Z.eqb_spec max_count 0); [lia|]. destruct (zlook_lt l 0) as [x0 Hx0]; [lia|].
  rewrite Hx0. pose proof (Hlow x0 Hx0). destruct (Z.eqb_spec (cmp x0 key) 0); [lia|].
  fold (unbounded_probe (fun i => zlook l i) max_count). rewrite unbounded_probe_low, bind_Ok.
  cbv zeta. apply (loop_diverges (fun '(lo, hi) => lo = 0 /\ (hi = 0 \/ hi = 1))).
  - intros [lo hi] (-> & Hhi). exists (0, 0). split; [|auto].
    assert (0 + (hi - 0) / 2 = 0) as -> by (destruct Hhi as [->| ->]; done).
    destruct (Z.leb_spec 0 hi); [|lia]. cbv zeta. rewrite Hx0.
    destruct (Z.eqb_spec (cmp x0 key) 0); [lia|]. by destruct (Z.ltb_spec (cmp x0 key) 0); [lia|].
  - rewrite Z.geb_leb. destruct (Z.leb_spec max_count 1); bcase; split; lia.
Qed.
End Ranges.

(** C39. The searches over inclusive ranges, on an ordered array: when the
    first element is not greater than the key, exponential, ternary and
    unbounded search return within a number of rounds linear in the length
    and answer correctly, without leaving the array.  When the first element
    is greater than the key, [hi = (mid == 0) ? 0 : mid - 1] stays at 0:
    ternary and unbounded search never return, nor does exponential search on
    two elements or more; on one element it answers that the key is not
    there. *)
Theorem range_searches_find_or_hang {A} (cmp : A -> A -> Z) `{!Comparator cmp} (l : list A) (key : A)
  (rounds : nat) (max_count : Z) (Hl : 1 <= zlen l < 2 ^ 63) (Hord : ordered cmp l)
  (Hmax : zlen l <= max_count) :
  ((forall x, zlook l 0 = Some x -> cmp x key <= 0) -> 2 * zlen l + 1 < Z.of_nat rounds ->
   (exists a, scl_search_exponential_search rounds (Some l) (zlen l) (Some key) (Some cmp) true = Ok a /\
      found cmp l key a) /\
   (exists a, scl_search_ternary_search rounds (Some l) (zlen l) (Some key) (Some cmp) true = Ok a /\
      found cmp l key a) /\
   (exists a, scl_search_unbounded_binary_search rounds (Some cmp) (Some key) true
        (Some (fun i => zlook l i)) max_count = Ok a /\ found cmp l key a)) /\
  ((forall x, zlook l 0 = Some x -> 0 < cmp x key) ->
   (2 <= zlen l ->
    scl_search_exponential_search rounds (Some l) (zlen l) (Some key) (Some cmp) true = Fuel) /\
   (zlen l = 1 ->
    scl_search_exponential_search rounds (Some l) (zlen l) (Some key) (Some cmp) true =
      Ok (SCL_ERR_NOT_FOUND, None)) /\
   scl_search_ternary_search rounds (Some l) (zlen l) (Some key) (Some cmp) true = Fuel /\
   scl_search_unbounded_binary_search rounds (Some cmp) (Some key) true
     (Some (fun i => zlook l i)) max_count = Fuel).
Proof.
  apply ordered_srt in Hord. split.
  - intros HL Hf. split; [|split]; apply wp_ok.
    + apply exponential_found; try done; lia.
    + apply ternary_found; try done; lia.
    + by apply unbounded_found.
  - intros Hlow. split; [intros H2; by apply exponential_diverges|].
    split; [intros H1; by apply exponential_alone|].
    split; [by apply ternary_diverges|apply unbounded_diverges; try done; lia].
Qed.

(** ** Meta-binary and interpolation search *)
Section Integers.
Context (arr : list Z) (key : Z).
Hypothesis Hlen : 1 <= zlen arr < 2 ^ 63.
Hypothesis Hord : srt Zcmp arr 0 (zlen arr).

Lemma arr_mono i j x y : i <= j -> zlook arr i = Some x -> zlook arr j = Some y -> x <= y.
Proof.
  intros Hij Hx Hy. destruct (decide (i = j)) as [->|]; [simplify_eq; lia|].
  apply Zcmp_le. apply (Hord i j); zside.
Qed.

Lemma bit_count_spec : wp (bit_count (zlen arr)) (fun bits => 0 <= bits <= 63 /\ zlen arr < 2 ^ bits).
Proof.
  unfold bit_count.
  apply (wp_loop_rel (fun m '(bits, tmp) => 0 <= bits <= 63 /\ m = 64 - bits /\ 0 <= tmp /\
    tmp * 2 ^ bits <= zlen arr < (tmp + 1) * 2 ^ bits) 64); [|lia|lia|].
  { split; [lia|]. split; [done|]. change (2 ^ 0) with 1. lia. }
  intros m [bits tmp] (Hb & -> & Ht & Hr). destruct (Z.eqb_spec tmp 0) as [->|]; simpl; [split; lia|].
  assert (0 < 2 ^ bits) by (apply Z.pow_pos_nonneg; lia).
  assert (bits < 63).
  { apply (Z.pow_lt_mono_r_iff 2); [lia|lia|]. nia. }
  exists (64 - (bits + 1)). split; [lia|]. split; [lia|]. split; [lia|].
  rewrite Z.shiftr_div_pow2, Z.pow_add_r by lia. change (2 ^ 1) with 2.
  pose proof (Z.div_mod tmp 2 ltac:(lia)). pose proof (Z.mod_pos_bound tmp 2 ltac:(lia)). nia.
Qed.

Lemma meta_binary_found :
  wp (scl_search_meta_binary_search (Some arr) (zlen arr) key true) (found Zcmp arr key).
Proof.
  unfold scl_search_meta_binary_search. destruct (Z.eqb_spec (zlen arr) 0); [lia|].
  wstep. eapply wp_mono; [apply bit_count_spec|]. intros bits [Hb Hbits]. wstep.
  apply (wp_zfor_down (fun b pos => 0 <= pos < zlen arr /\
    (pos = 0 \/ forall x, zlook arr pos = Some x -> x <= key) /\
    forall i x, pos + 2 ^ b <= i -> zlook arr i = Some x -> key < x)); [lia| | |].
  - split; [lia|]. split; [by left|]. intros i x Hi Hx. zidx.
  - intros b pos Hbb (Hp & Hle & Hgt). rewrite Z.shiftl_mul_pow2, Z.mul_1_l by lia.
    assert (2 ^ b = 2 * 2 ^ (b - 1)) as E.
    { replace b with (Z.succ (b - 1)) at 1 by lia. apply Z.pow_succ_r. lia. }
    assert (0 < 2 ^ (b - 1)) by (apply Z.pow_pos_nonneg; lia).
    assert (2 ^ (b - 1) <= 2 ^ 62) by (apply Z.pow_le_mono_r; lia).
    cbv zeta. rewrite u64_small by lia. rewrite Z.geb_leb.
    destruct (Z.leb_spec (zlen arr) (pos + 2 ^ (b - 1))).
    + wstep. split; [done|]. split; [done|]. intros i x Hi Hx. zidx.
    + wstep. wstep. wstep. destruct (Z.leb_spec x key).
      * split; [lia|]. split; [right; intros y Hy; by simplify_eq|].
        intros i y Hi Hy. apply (Hgt i); [lia|done].
      * split; [done|]. split; [done|]. intros i y Hi Hy.
        pose proof (arr_mono _ _ _ _ Hi Hx Hy). lia.
  - intros pos (Hp & Hle & Hgt). change (2 ^ 0) with 1 in Hgt. wstep. wstep.
    destruct (Z.eqb_spec x key) as [->|Hne]; wstep.
    + exists key. split; [done|]. by apply Zcmp_eq.
    + intros y Hy. apply elem_zlook in Hy as [i Hi]. intros ->%Zcmp_eq.
      destruct (decide (i <= pos)).
      * pose proof (arr_mono _ _ _ _ l Hi Hx). destruct Hle as [->|Hle].
        -- assert (i = 0) as -> by zidx. by simplify_eq.
        -- pose proof (Hle x Hx). lia.
      * pose proof (Hgt i key ltac:(lia) Hi). lia.
Qed.

(** What interpolation search answers: [complete] says whether a missing
    element is reported only when there is none. *)
Definition interpolated (complete : Prop) (a : answer) : Prop :=
  match a with
  | (SCL_OK, Some i) => zlook arr i = Some key
  | (SCL_ERR_NOT_FOUND, None) => complete -> key ∉ arr
  | _ => False
  end.

Definition strict : Prop :=
  forall i j x y, i < j -> zlook arr i = Some x -> zlook arr j = Some y -> x < y.

Lemma covers_not_found lo hi :
  covers Zcmp arr key lo hi -> (forall j, lo <= j <= hi -> zlook arr j <> Some key) -> key ∉ arr.
Proof.
  intros C Hn Hin. destruct (C key Hin) as (j & y & Hj & Hy & ->%Zcmp_eq); [by apply Zcmp_eq|].
  by apply (Hn j).
Qed.

Lemma interpolation_runs fraction :
  wp (scl_search_interpolation_search fraction (Some arr) (zlen arr) key true) (interpolated strict).
Proof.
  unfold scl_search_interpolation_search. destruct (Z.eqb_spec (zlen arr) 0); [lia|].
  apply (wp_loop (fun '(lo, hi) => 0 <= lo <= hi + 1 /\ hi < zlen arr /\ covers Zcmp arr key lo hi)
    (fun '(lo, hi) => hi - lo + 1)); [|lia|lia|].
  { split; [lia|]. split; [lia|]. apply covers_all. lia. }
  intros [lo hi] (H1 & H2 & C).
  bcase; [|wstep; intros _; eapply covers_not_found; [done|intros; lia]].
  wstep. wstep. rename x into a, Hx into Ha. rewrite Z.geb_leb. destruct (Z.leb_spec a key).
  2:{ wstep. intros _. eapply covers_not_found; [done|]. intros j Hj Hk.
      pose proof (arr_mono lo j a key ltac:(lia) Ha Hk). lia. }
  wstep. wstep. rename x into b, Hx into Hb. destruct (Z.leb_spec key b).
  2:{ wstep. intros _. eapply covers_not_found; [done|]. intros j Hj Hk.
      pose proof (arr_mono j hi key b ltac:(lia) Hk Hb). lia. }
  destruct (Z.eqb_spec lo hi) as [->|].
  { wstep. destruct (Z.eqb_spec a key) as [->|]; [done|]. intros _.
    eapply covers_not_found; [done|]. intros j Hj Hk. assert (j = hi) as -> by lia. congruence. }
  destruct (Z.eqb_spec b a).
  { wstep. intros S. pose proof (S lo hi a b ltac:(lia) Ha Hb). lia. }
  cbv zeta. set (p0 := u64 _). set (p1 := if p0 <? lo then lo else p0).
  set (pos := if p1 >? hi then hi else p1).
  assert (lo <= pos <= hi) by (unfold pos, p1; rewrite Z.gtb_ltb; repeat bcase; lia). clearbody pos.
  wstep. wstep. destruct (Z.eqb_spec x key) as [->|]; [by wstep|]. bcase; wstep.
  - split; [|lia]. split; [lia|]. split; [lia|]. eapply (covers_low Zcmp); [done|done| |done].
    unfold Zcmp. repeat bcase; lia.
  - unfold below. destruct (Z.eqb_spec pos 0) as [->|].
    + assert (lo = 0) as -> by lia. simplify_eq. lia.
    + split; [|lia]. split; [lia|]. split; [lia|]. eapply (covers_high Zcmp); [done|done| |done].
      unfold Zcmp. repeat bcase; lia.
Qed.
End Integers.

(** Meta-binary search finds an equal element of every ordered integer
    array.  Interpolation search, whatever the floating-point probe (it is
    clamped to the range), terminates inside the array and only returns equal
    elements; it finds one when the elements are distinct. *)
Theorem integer_searches_find (arr : list Z) (key : Z) (fraction : Z -> Z -> Z -> Z -> Z)
  (Hl : 1 <= zlen arr < 2 ^ 63) (Hord : ordered Zcmp arr) :
  (exists a, scl_search_meta_binary_search (Some arr) (zlen arr) key true = Ok a /\
     found Zcmp arr key a) /\
  (exists a, scl_search_interpolation_search fraction (Some arr) (zlen arr) key true = Ok a /\
     interpolated arr key (strict arr) a).
Proof.
  apply ordered_srt in Hord. split; apply wp_ok; [by apply meta_binary_found|].
  by apply interpolation_runs.
Qed.

(** A run of equal elements is not searched. *)
Lemma interpolation_misses_equal fraction :
  scl_search_interpolation_search fraction (Some [5; 5]) 2 5 true = Ok (SCL_ERR_NOT_FOUND, None).
Proof. by vm_compute. Qed.

(** ** Fibonacci search *)
Fixpoint fib_pair (n : nat) : Z * Z :=
  match n with O => (0, 1) | S n => let '(a, b) := fib_pair n in (b, a + b) end.
Definition fibo (n : nat) : Z := fst (fib_pair n).

Lemma fibo_SS n : fibo (S (S n)) = fibo (S n) + fibo n.
Proof. unfold fibo. simpl. destruct (fib_pair n). simpl. lia. Qed.

Lemma fibo_nonneg n : 0 <= fibo n /\ 0 <= fibo (S n).
Proof.
  induction n as [|n [IH1 IH2]]; [done|]. split; [done|]. rewrite fibo_SS. lia.
Qed.

Lemma fibo_mono n m : (n <= m)%nat -> fibo n <= fibo m.
Proof.
  induction 1 as [|m H IH]; [lia|]. etransitivity; [done|]. destruct m as [|m]; [done|].
  rewrite fibo_SS. pose proof (fibo_nonneg m). lia.
Qed.

Lemma fibo_pos n : 1 <= fibo (S n).
Proof. apply (fibo_mono 1 (S n)). lia. Qed.

Lemma fibo_93 : 2 ^ 63 < fibo 93 /\ fibo 93 < 2 ^ 64.
Proof. by vm_compute. Qed.

(** The three variables are consecutive Fibonacci numbers, or the pair left
    by the last step down from 2. *)
Definition fib_state (k : nat) (fib fib1 fib2 : Z) : Prop :=
  (1 <= k <= 92)%nat /\ fib = fibo (S k) /\ fib1 = fibo k /\ fib2 = fibo (k - 1).

Lemma fib_start_spec count :
  1 <= count < 2 ^ 63 ->
  wp (fib_start count) (fun '(fib, fib1, fib2) => exists k, fib_state k fib fib1 fib2).
Proof.
  intros Hc. unfold fib_start.
  apply (wp_loop_rel (fun m '(fib, fib1, fib2) => exists k, fib_state k fib fib1 fib2 /\
    m = 93 - Z.of_nat k) 92); [|lia|lia|].
  { exists 1%nat. split; [|lia]. split; [lia|done]. }
  intros m [[fib fib1] fib2] (k & (Hk & -> & -> & ->) & ->). bcase; wstep; [|by exists k].
  assert (k < 92)%nat as Hk'.
  { destruct (decide (k < 92)%nat); [done|]. exfalso.
    pose proof (fibo_mono 93 (S k) ltac:(lia)). pose proof fibo_93. lia. }
  exists (93 - Z.of_nat (S k)). split; [lia|]. exists (S k). split; [|done]. split; [lia|].
  rewrite fibo_SS. replace (S k - 1)%nat with k by lia. split; [|done].
  apply u64_small. pose proof (fibo_mono (S (S k)) 93 ltac:(lia)) as Hm. rewrite fibo_SS in Hm.
  pose proof fibo_93. pose proof (fibo_nonneg k). lia.
Qed.

(** One round: the Fibonacci index goes down, to the end from (2, 1, 1). *)
Lemma fib_down k fib fib1 fib2 :
  fib_state k fib fib1 fib2 -> 1 < fib ->
  (exists k', (k' < k)%nat /\ fib_state k' fib1 fib2 (if fib1 >? fib2 then fib1 - fib2 else 0)) /\
  (u64 (fib1 - fib2) = 0 /\ fib2 = 1 \/
   exists k', (k' < k)%nat /\ fib_state k' fib2 (u64 (fib1 - fib2)) (u64 (fib2 - u64 (fib1 - fib2)))).
Proof.
  intros (Hk & -> & -> & ->) Hf. destruct k as [|[|[|k]]]; [lia|by vm_compute in Hf|..].
  - split; [|by left]. exists 1%nat. split; [lia|]. split; [lia|]. done.
  - replace (S (S (S k)) - 1)%nat with (S (S k)) by lia.
    pose proof (fibo_pos k). pose proof (fibo_nonneg k).
    pose proof (fibo_mono (S (S k)) 93 ltac:(lia)). pose proof fibo_93.
    assert (fibo (S (S (S k))) - fibo (S (S k)) = fibo (S k)) as E1 by (rewrite fibo_SS; lia).
    assert (fibo (S (S k)) - fibo (S k) = fibo k) as E2 by (rewrite fibo_SS; lia).
    pose proof (fibo_mono (S k) (S (S k)) ltac:(lia)). pose proof (fibo_mono k (S k) ltac:(lia)).
    split; [|right].
    + exists (S (S k)). split; [lia|]. split; [lia|]. split; [done|]. split; [done|].
      replace (S (S k) - 1)%nat with (S k) by lia. rewrite E1, Z.gtb_ltb.
      destruct (Z.ltb_spec (fibo (S (S k))) (fibo (S (S (S k))))); [done|]. lia.
    + exists (S k). rewrite E1. rewrite (u64_small (fibo (S k))) by lia. rewrite E2.
      rewrite u64_small by lia. split; [lia|]. split; [lia|]. split; [done|]. split; [done|].
      by replace (S k - 1)%nat with k by lia.
Qed.

(** Fibonacci search terminates on every array without leaving it, no
    Fibonacci number wraps around, and every index it returns holds an equal
    element (it may miss elements: [fibonacci_misses]). *)
Theorem fibonacci_search_sound {A} (cmp : A -> A -> Z) (l : list A) (key : A)
  (Hl : 1 <= zlen l < 2 ^ 63) :
  exists a, scl_search_fibonacci_search (Some l) (zlen l) (Some key) (Some cmp) true = Ok a /\
    (a = (SCL_ERR_NOT_FOUND, None) \/
     exists i x, a = (SCL_OK, Some i) /\ zlook l i = Some x /\ cmp x key = 0).
Proof.
  apply wp_ok. unfold scl_search_fibonacci_search. destruct (Z.eqb_spec (zlen l) 0); [lia|].
  wstep. eapply wp_mono; [by apply fib_start_spec|]. intros [[fib fib1] fib2] [k Hk]. wstep.
  apply (wp_loop_rel (fun m '(fib, fib1, fib2, offset) => 0 <= offset <= zlen l /\
      (m = 0 /\ fib1 = 0 /\ fib = 1 \/
       exists k, fib_state k fib fib1 fib2 /\ m = Z.of_nat k)) (Z.of_nat k)); [|destruct Hk; lia|lia|].
  { split; [lia|]. right. by exists k. }
  clear k fib fib1 fib2 Hk. intros m [[[fib fib1] fib2] offset] (Ho & Hs). rewrite Z.gtb_ltb. bcase.
  - destruct Hs as [(-> & -> & ->)|(k & Hs & ->)]; [lia|].
    assert (0 <= fib2 < 2 ^ 63) as Hf2.
    { destruct Hs as (Hk & _ & _ & ->). split; [apply fibo_nonneg|].
      pose proof (fibo_mono (k - 1) 91 ltac:(lia)). assert (fibo 91 < 2 ^ 63) by by vm_compute. lia. }
    rewrite u64_small by lia. cbv zeta. rewrite Z.geb_leb.
    set (i := if zlen l <=? offset + fib2 then zlen l - 1 else offset + fib2).
    assert (0 <= i < zlen l) by (unfold i; bcase; lia). clearbody i.
    destruct (fib_down k fib fib1 fib2 Hs ltac:(lia)) as [(k1 & Hk1 & S1) H2].
    wstep. wstep. destruct (Z.eqb_spec (cmp x key) 0); [do 2 wstep; right; by exists i, x|].
    bcase; wstep.
    + exists (Z.of_nat k1). split; [lia|]. split; [lia|]. right. by exists k1.
    + destruct H2 as [[E1 E2]|(k2 & Hk2 & S2)].
      * exists 0. split; [destruct Hs; lia|]. split; [done|]. left. by rewrite E1, E2.
      * exists (Z.of_nat k2). split; [lia|]. split; [done|]. right. by exists k2.
  - wstep. destruct (Z.eqb_spec fib1 0); cbn [negb andb]; [wstep; by left|].
    bcase; [|wstep; by left]. wstep. wstep. bcase; wstep; [right; by exists offset, x|by left].
Qed.

Lemma fibonacci_misses :
  scl_search_fibonacci_search (Some [1; 2]) 2 (Some 1) (Some Zcmp) true = Ok (SCL_ERR_NOT_FOUND, None).
Proof. by vm_compute. Qed.

(** ** Instances *)
Lemma grants_forty : malloc_fn {| malloc_fn := fun _ n _ => n =? 40; calloc_fn := fun _ _ _ _ => false;
  realloc_fn := fun _ _ _ _ _ => Refused |} 0 40 MAX_ALIGN = true.
Proof. done. Qed.

Lemma array_searches_find_witness :
  exists a, scl_search_jump_search Z.sqrt (Some [1; 3; 3; 7]) 4 (Some 3) (Some Zcmp) true = Ok a /\
    found Zcmp [1; 3; 3; 7] 3 a.
Proof.
  assert (ordered Zcmp [1; 3; 3; 7]) as Ho by zordered.
  assert (1 <= zlen [1; 3; 3; 7] < 2 ^ 63) as Hl by (vm_compute; split; [discriminate|reflexivity]).
  assert (0 <= Z.sqrt (zlen [1; 3; 3; 7]) <= zlen [1; 3; 3; 7]) as Hs
    by (vm_compute; split; discriminate).
  destruct (array_searches_find Zcmp [1; 3; 3; 7] 3 Z.sqrt _ (World 0 0) 8 Hl Hs ltac:(lia)
    ltac:(reflexivity) grants_forty) as (_ & _ & H).
  exact (proj2 (H Ho)).
Defined.

Lemma range_searches_find_or_hang_witness :
  (exists a, scl_search_ternary_search 20 (Some [2; 4; 6]) 3 (Some 4) (Some Zcmp) true = Ok a /\
     found Zcmp [2; 4; 6] 4 a) /\
  scl_search_exponential_search 20 (Some [2; 4; 6]) 3 (Some 1) (Some Zcmp) true = Fuel /\
  scl_search_unbounded_binary_search 20 (Some Zcmp) (Some 1) true (Some (fun i => zlook [2; 4; 6] i)) 3 = Fuel.
Proof.
  assert (ordered Zcmp [2; 4; 6]) as Ho by zordered.
  assert (1 <= zlen [2; 4; 6] < 2 ^ 63) as Hl by (vm_compute; split; [discriminate|reflexivity]).
  split.
  - destruct (range_searches_find_or_hang Zcmp [2; 4; 6] 4 20 3 Hl Ho ltac:(vm_compute; discriminate))
      as [H _].
    refine (proj1 (proj2 (H _ _))); [|by vm_compute].
    intros x Hx. injection Hx as <-. by vm_compute.
  - destruct (range_searches_find_or_hang Zcmp [2; 4; 6] 1 20 3 Hl Ho ltac:(vm_compute; discriminate))
      as [_ H].
    destruct (H ltac:(intros x Hx; injection Hx as <-; by vm_compute)) as (H1 & _ & _ & H4).
    split; [exact (H1 ltac:(by vm_compute))|exact H4].
Defined.

Lemma integer_searches_find_witness :
  exists a, scl_search_meta_binary_search (Some [1; 3; 7]) 3 7 true = Ok a /\ found Zcmp [1; 3; 7] 7 a.
Proof.
  refine (proj1 (integer_searches_find [1; 3; 7] 7 (fun _ _ _ _ => 0) _ _)).
  - vm_compute. split; [discriminate|reflexivity].
  - zordered.
Defined.

Lemma fibonacci_search_sound_witness :
  exists a, scl_search_fibonacci_search (Some [1; 3; 7]) 3 (Some 3) (Some Zcmp) true = Ok a /\
    (a = (SCL_ERR_NOT_FOUND, None) \/
     exists i x, a = (SCL_OK, Some i) /\ zlook [1; 3; 7] i = Some x /\ Zcmp x 3 = 0).
Proof.
  refine (fibonacci_search_sound Zcmp [1; 3; 7] 3 _). vm_compute. split; [discriminate|reflexivity].
Defined.
