(* ===== verification/StringArrays.v ===== *)
(** Searches of arrays of C strings: linear, binary and exponential
    ([libs/search/linear_string], [binary_string], [exponential_string]).  A C
    string is the list of its bytes before the terminator; [None] is a [NULL]
    pointer. *)

From S2P Require Import Prelude Core SortSpec Search.
#[local] Open Scope Z_scope.

(** [strcmp], comparing unsigned bytes. *)
Fixpoint strcmp (a b : list Z) : Z :=
  match a, b with
  | [], [] => 0
  | [], _ => -1
  | _, [] => 1
  | x :: a, y :: b => if x <? y then -1 else if y <? x then 1 else strcmp a b
  end.

Definition scl_search_linear_string (strs : option (list (option (list Z)))) (count : Z)
    (key : option (list Z)) (out : bool) : res answer :=
  match strs, key, out with
  | Some strs, Some key, true =>
      if count =? 0 then mret (SCL_ERR_EMPTY, None)
      else
        r ← zfor_ret 0 count
          (fun i _ =>
             s ← get strs i;
             match s with
             | None => mret (inl tt)
             | Some s => if strcmp s key =? 0 then mret (inr (SCL_OK, Some i)) else mret (inl tt)
             end) tt;
        mret (match r with inl _ => (SCL_ERR_NOT_FOUND, None) | inr a => a end)
  | _, _, _ => mret (SCL_ERR_NULL_PTR, None)
  end.

Definition scl_search_binary_string (strs : option (list (option (list Z)))) (count : Z)
    (key : option (list Z)) (out : bool) : res answer :=
  match strs, key, out with
  | Some strs, Some key, true =>
      if count =? 0 then mret (SCL_ERR_EMPTY, None)
      else
        loop (S (Z.to_nat count))
          (fun '(lo, hi) =>
             if lo <? hi then
               let mid := lo + (hi - lo) / 2 in
               s ← get strs mid;
               match s with
               | None => mret (inr (SCL_ERR_INVALID_ARG, None))
               | Some s =>
                   let r := strcmp s key in
                   if r =? 0 then mret (inr (SCL_OK, Some mid))
                   else if r <? 0 then mret (inl (mid + 1, hi)) else mret (inl (lo, mid))
               end
             else mret (inr (SCL_ERR_NOT_FOUND, None)))
          (0, count)
  | _, _, _ => mret (SCL_ERR_NULL_PTR, None)
  end.

Definition binary_string_range (rounds : nat) (strs : list (option (list Z))) (lo hi : Z)
    (key : list Z) : res answer :=
  loop rounds
    (fun '(lo, hi) =>
       if lo <=? hi then
         let mid := lo + (hi - lo) / 2 in
         s ← get strs mid;
         match s with
         | None => mret (inr (SCL_ERR_INVALID_ARG, None))
         | Some s =>
             let r := strcmp s key in
             if r =? 0 then mret (inr (SCL_OK, Some mid))
             else if r <? 0 then mret (inl (mid + 1, hi)) else mret (inl (lo, below mid))
         end
       else mret (inr (SCL_ERR_NOT_FOUND, None)))
    (lo, hi).

Definition scl_search_exponential_string (rounds : nat) (strs : option (list (option (list Z))))
    (count : Z) (key : option (list Z)) (out : bool) : res answer :=
  match strs, key, out with
  | Some strs, Some key, true =>
      if count =? 0 then mret (SCL_ERR_EMPTY, None)
      else
        s0 ← get strs 0;
        match s0 with
        | None => mret (SCL_ERR_INVALID_ARG, None)
        | Some s0 =>
            if strcmp s0 key =? 0 then mret (SCL_OK, Some 0)
            else if count =? 1 then mret (SCL_ERR_NOT_FOUND, None)
            else
              r ← loop 65
                (fun bound =>
                   if bound <? count then
                     s ← get strs bound;
                     match s with
                     | None => mret (inr (inr (SCL_ERR_INVALID_ARG, None)))
                     | Some s =>
                         if strcmp s key >=? 0 then mret (inr (inl (bound / 2, bound)))
                         else if bound >? SIZE_MAX / 2 then mret (inr (inl (bound / 2, count - 1)))
                         else mret (inl (u64 (bound * 2)))
                     end
                   else mret (inr (inl (bound / 2, count - 1)))) 1;
              match r with
              | inl (lo, hi) => binary_string_range rounds strs lo hi key
              | inr a => mret a
              end
        end
  | _, _, _ => mret (SCL_ERR_NULL_PTR, None)
  end.

(** * Theorems *)

#[export] Instance strcmp_comparator : Comparator strcmp.
Proof.
  split.
  - induction x as [|a x IH]; intros [|b y]; simpl; try lia. specialize (IH y). repeat bcase; lia.
  - induction x as [|a x IH]; intros [|b y] [|c z]; simpl; try lia. specialize (IH y z).
    repeat bcase; lia.
Qed.

Lemma strcmp_eq a b : strcmp a b = 0 <-> a = b.
Proof.
  revert b. induction a as [|x a IH]; intros [|y b]; simpl; try done. specialize (IH b).
  repeat bcase; split; intros E; try lia; try (injection E as ? ?; lia).
  - assert (x = y) as -> by lia. f_equal. by apply IH.
  - injection E as _ ?. by apply IH.
Qed.

Section Strings.
Context (l : list (list Z)) (key : list Z).

Lemma get_some i : get (Some <$> l) i = (s ← get l i; mret (Some s)).
Proof. unfold get. rewrite zlook_fmap. by destruct (zlook l i). Qed.

(** Without [NULL] elements the string searches are the generic ones. *)
Lemma binary_string_eq count :
  scl_search_binary_string (Some (Some <$> l)) count (Some key) true =
  scl_search_binary_search (Some l) count (Some key) (Some strcmp) true.
Proof.
  unfold scl_search_binary_string, scl_search_binary_search. destruct (count =? 0); [done|].
  apply loop_ext. intros [lo hi]. destruct (lo <? hi); [|done]. cbv zeta. rewrite get_some.
  by destruct (get l _).
Qed.

Lemma binary_string_range_eq rounds lo hi :
  binary_string_range rounds (Some <$> l) lo hi key = binary_search_range rounds strcmp l lo hi key.
Proof.
  apply loop_ext. intros [a b]. destruct (a <=? b); [|done]. cbv zeta. rewrite get_some.
  by destruct (get l _).
Qed.

Lemma exponential_string_eq rounds count :
  scl_search_exponential_string rounds (Some (Some <$> l)) count (Some key) true =
  scl_search_exponential_search rounds (Some l) count (Some key) (Some strcmp) true.
Proof.
  unfold scl_search_exponential_string, scl_search_exponential_search. destruct (count =? 0); [done|].
  rewrite get_some. destruct (get l 0) as [s0| |]; [|done..]. rewrite !bind_Ok.
  destruct (strcmp s0 key =? 0); [done|]. destruct (count =? 1); [done|].
  generalize (count - 1). intros last. generalize 65%nat, 1. induction n as [|n IH]; intros bound; [done|]. cbn [loop].
  destruct (Z.ltb_spec bound count).
  - rewrite get_some. destruct (get l bound) as [s| |]; [|done..]. rewrite !bind_Ok.
    destruct (strcmp s key >=? 0).
    { cbn [mret res_ret]. rewrite !bind_Ok. rewrite Z.geb_leb. destruct (Z.leb_spec count bound); [lia|].
      apply binary_string_range_eq. }
    destruct (bound >? SIZE_MAX / 2); [apply binary_string_range_eq|]. apply IH.
  - apply binary_string_range_eq.
Qed.
End Strings.

(** The answer of a search that skips [NULL] elements: the first string equal
    to the key. *)
Definition string_found_first (strs : list (option (list Z))) (key : list Z) (a : answer) : Prop :=
  match a with
  | (SCL_OK, Some i) => zlook strs i = Some (Some key) /\ forall j, j < i -> zlook strs j <> Some (Some key)
  | (SCL_ERR_NOT_FOUND, None) => Some key ∉ strs
  | _ => False
  end.

Lemma linear_string_first strs key :
  1 <= zlen strs ->
  wp (scl_search_linear_string (Some strs) (zlen strs) (Some key) true) (string_found_first strs key).
Proof.
  intros Hl. unfold scl_search_linear_string. destruct (Z.eqb_spec (zlen strs) 0); [lia|]. wstep.
  apply (wp_zfor_ret (fun i _ => forall j, j < i -> zlook strs j <> Some (Some key))).
  - intros j Hj Hk. zidx.
  - intros i [] Hi Hn. wstep. wstep. destruct x as [s|].
    + destruct (Z.eqb_spec (strcmp s key) 0) as [->%strcmp_eq|Hne]; wstep; [by wstep|].
      intros j Hj Hk. destruct (decide (j = i)) as [->|]; [|by apply (Hn j); [lia|]].
      rewrite Hx in Hk. injection Hk as ->. by apply Hne, strcmp_eq.
    + wstep. intros j Hj Hk. destruct (decide (j = i)) as [->|]; [congruence|]. by apply (Hn j); [lia|].
  - intros [] Hn. wstep. intros Hin. apply elem_zlook in Hin as [i Hi]. by apply (Hn i); [zidx|].
Qed.

(** The string searches: linear search returns the first string equal to
    the key and skips [NULL] elements; on ordered arrays without [NULL]
    elements binary search finds the key exactly when it is there, and so does
    exponential search when the first string is not greater than the key; when
    it is greater, exponential search never returns. *)
Theorem string_searches_find (strs : list (option (list Z))) (l : list (list Z)) (key : list Z)
  (rounds : nat) (Hs : 1 <= zlen strs) (Hl : 1 <= zlen l < 2 ^ 63) (Hord : ordered strcmp l) :
  (exists a, scl_search_linear_string (Some strs) (zlen strs) (Some key) true = Ok a /\
     string_found_first strs key a) /\
  (exists a, scl_search_binary_string (Some (Some <$> l)) (zlen l) (Some key) true = Ok a /\
     found strcmp l key a) /\
  ((forall s, zlook l 0 = Some s -> strcmp s key <= 0) -> zlen l < Z.of_nat rounds ->
   exists a, scl_search_exponential_string rounds (Some (Some <$> l)) (zlen l) (Some key) true = Ok a /\
     found strcmp l key a) /\
  ((forall s, zlook l 0 = Some s -> 0 < strcmp s key) -> 2 <= zlen l ->
   scl_search_exponential_string rounds (Some (Some <$> l)) (zlen l) (Some key) true = Fuel).
Proof.
  apply ordered_srt in Hord. rewrite binary_string_eq, exponential_string_eq.
  split; [by apply wp_ok, linear_string_first|]. split; [|split].
  - apply wp_ok. apply (binary_found strcmp); (done || lia).
  - intros HL Hf. apply wp_ok. by apply (exponential_found strcmp).
  - intros Hlow H2. by apply (exponential_diverges strcmp).
Qed.

Lemma string_searches_find_witness :
  exists a, scl_search_binary_string (Some [Some [97]; Some [98; 99]]) 2 (Some [98; 99]) true = Ok a /\
    found strcmp [[97]; [98; 99]] [98; 99] a.
Proof.
  assert (ordered strcmp [[97]; [98; 99]]) as Ho by zordered.
  assert (1 <= zlen [[97]; [98; 99]] < 2 ^ 63) as Hl by (vm_compute; split; [discriminate|reflexivity]).
  exact (proj1 (proj2 (string_searches_find [Some [97]; Some [98; 99]] [[97]; [98; 99]] [98; 99] 5
    ltac:(by vm_compute) Hl Ho))).
Defined.
