(* ===== verification/StringSearch.v ===== *)
(** Pattern matching in byte strings: Knuth-Morris-Pratt
    ([libs/search/kmp/scl_kmp.c]) and Rabin-Karp
    ([libs/search/rabin_karp/scl_rabin_karp.c]), specified by the list of all
    the places where the pattern occurs. *)

From S2P Require Import Prelude Core MergeSort.
#[local] Open Scope Z_scope.

(** ** Knuth-Morris-Pratt

    [lps] is the prefix table; [cb pos user] is the match callback with the
    state behind its [user] pointer. *)
Definition kmp_table (pat : list Z) (plen : Z) (lps : block Z) : res (block Z) :=
  loop (2 * S (Z.to_nat plen))
    (fun '(lps, len, i) =>
       if i <? plen then
         x ← get pat i; y ← get pat len;
         if x =? y then
           lps ← set lps i (Some (len + 1)); mret (inl (lps, len + 1, i + 1))
         else if negb (len =? 0) then
           len ← get_cell lps (len - 1); mret (inl (lps, len, i))
         else
           lps ← set lps i (Some 0); mret (inl (lps, len, i + 1))
       else mret (inr lps))
    (lps, 0, 1).

Section Kmp.
Context {U : Type}.
Implicit Types (cb : option (Z -> U -> bool * U)) (user : U).

Definition kmp_scan (text : list Z) (tlen : Z) (pat : list Z) (plen : Z) (lps : block Z)
    cb user : res (scl_error_t * Z * U) :=
  loop (2 * S (Z.to_nat tlen))
    (fun '(i, j, count, result, user) =>
       if i <? tlen then
         x ← get pat j; y ← get text i;
         if x =? y then
           let i := i + 1 in
           let j := j + 1 in
           if j =? plen then
             let count := u64 (count + 1) in
             let pos := i - j in
             let '(go, user) := match cb with Some cb => cb pos user | None => (true, user) end in
             if go then j ← get_cell lps (j - 1); mret (inl (i, j, count, SCL_OK, user))
             else mret (inr (SCL_OK, count, user))
           else mret (inl (i, j, count, result, user))
         else if negb (j =? 0) then
           j ← get_cell lps (j - 1); mret (inl (i, j, count, result, user))
         else mret (inl (i + 1, j, count, result, user))
       else mret (inr (result, count, user)))
    (0, 0, 0, SCL_ERR_NOT_FOUND, user).

(** The result holds the error code, [*out_count] and the user state. *)
Definition kmp_core (al : scl_allocator_t) (w : world) (text : option (list Z)) (tlen : Z)
    (pat : option (list Z)) (plen : Z) cb user : res (scl_error_t * option Z * U * world) :=
  match text, pat with
  | Some text, Some pat =>
      if tlen =? 0 then mret (SCL_ERR_EMPTY, None, user, w)
      else if plen =? 0 then mret (SCL_ERR_INVALID_ARG, None, user, w)
      else if plen >? tlen then mret (SCL_ERR_NOT_FOUND, None, user, w)
      else
        match scl_mul_overflow plen 8 with
        | None => mret (SCL_ERR_SIZE_OVERFLOW, None, user, w)
        | Some _ =>
            match scl_calloc al w plen 8 MAX_ALIGN 0 with
            | (None, w) => mret (SCL_ERR_OUT_OF_MEMORY, None, user, w)
            | (Some lps, w) =>
                lps ← kmp_table pat plen lps;
                '(result, count, user) ← kmp_scan text tlen pat plen lps cb user;
                mret (result, Some count, user, scl_free w (Some lps))
            end
        end
  | _, _ => mret (SCL_ERR_NULL_PTR, None, user, w)
  end.

Definition scl_search_kmp_all := kmp_core.
End Kmp.

Definition kmp_first_cb (pos : Z) (user : Z) : bool * Z := (false, pos).

(** [out]: [pos] is not [NULL]; the position is written on success only. *)
Definition scl_search_kmp (al : scl_allocator_t) (w : world) (text : option (list Z)) (tlen : Z)
    (pat : option (list Z)) (plen : Z) (out : bool) : res (scl_error_t * option Z * world) :=
  if negb out then mret (SCL_ERR_NULL_PTR, None, w)
  else
    '(r, _, found, w) ← kmp_core al w text tlen pat plen (Some kmp_first_cb) 0;
    mret (r, match r with SCL_OK => Some found | _ => None end, w).

(** ** Rabin-Karp *)
Definition RK_MOD : Z := 2147483647.

(** [rk_base] after [scl_rabin_karp_seed(seed)]; it is 256 before. *)
Definition scl_rabin_karp_seed (seed : Z) : Z := u64 (Z.land seed 0xFFFF + 256).

(** [int64_t] arithmetic: the remainder truncates towards zero. *)
Definition rk_roll (base h text_hash out_byte in_byte : Z) : Z :=
  let sub := Z.rem (text_hash - u64 (out_byte * h)) RK_MOD in
  let sub := if sub <? 0 then sub + RK_MOD else sub in
  u64 (u64 (sub * base) + in_byte) mod RK_MOD.

(** The byte-wise comparison of the pattern with the window at [i]. *)
Definition rk_equal (text pat : list Z) (plen i : Z) : res bool :=
  r ← zfor_ret 0 plen
    (fun j _ =>
       x ← get text (i + j); y ← get pat j;
       if negb (u8 x =? u8 y) then mret (inr tt) else mret (inl tt)) tt;
  mret (match r with inl _ => true | inr _ => false end).

Definition scl_search_rabin_karp (rk_base : Z) (text : option (list Z)) (tlen : Z)
    (pat : option (list Z)) (plen : Z) (out : bool) : res (scl_error_t * option Z) :=
  match text, pat, out with
  | Some text, Some pat, true =>
      if tlen =? 0 then mret (SCL_ERR_EMPTY, None)
      else if plen =? 0 then mret (SCL_ERR_INVALID_ARG, None)
      else if plen >? tlen then mret (SCL_ERR_NOT_FOUND, None)
      else
        let base := rk_base in
        h ← zfor 0 (plen - 1) (fun _ h => mret (u64 (h * base) mod RK_MOD)) 1;
        '(pat_hash, text_hash) ← zfor 0 plen
          (fun i '(pat_hash, text_hash) =>
             p ← get pat i; t ← get text i;
             mret (u64 (u64 (pat_hash * base) + u8 p) mod RK_MOD,
                   u64 (u64 (text_hash * base) + u8 t) mod RK_MOD)) (0, 0);
        r ← zfor_ret 0 (tlen - plen + 1)
          (fun i text_hash =>
             eq ← (if pat_hash =? text_hash then rk_equal text pat plen i else mret false);
             if eq : bool then mret (inr (SCL_OK, Some i))
             else if i <? tlen - plen then
               o ← get text i; n ← get text (i + plen);
               mret (inl (rk_roll base h text_hash (u8 o) (u8 n)))
             else mret (inl text_hash)) text_hash;
        mret (match r with inl _ => (SCL_ERR_NOT_FOUND, None) | inr a => a end)
  | _, _, _ => mret (SCL_ERR_NULL_PTR, None)
  end.

(** * Theorems *)

(** ** The reference: all the occurrences *)
Definition occurs (text pat : list Z) (p : Z) : Prop := slice text p (p + zlen pat) = pat.

#[export] Instance occurs_dec text pat p : Decision (occurs text pat p).
Proof. unfold occurs. apply _. Defined.

(** The occurrences from position [q] on, in order. *)
Definition occurrences_from (text pat : list Z) (q : Z) : list Z :=
  filter (occurs text pat) (seqZ q (zlen text - zlen pat + 1 - q)).
Definition occurrences (text pat : list Z) : list Z := occurrences_from text pat 0.

(** The callback is run on the occurrences in order until it answers
    [false]; [count] is the number of calls. *)
Fixpoint deliver {U} (cb : Z -> U -> bool * U) (ms : list Z) (count : Z) (user : U) : Z * U :=
  match ms with
  | [] => (count, user)
  | p :: ms => let '(go, user) := cb p user in
               if go : bool then deliver cb ms (count + 1) user else (count + 1, user)
  end.

Section Matching.
Context (pat : list Z).
Hypothesis Hpat : 1 <= zlen pat < 2 ^ 62.
Let plen := zlen pat.

(** The first [k] bytes of the pattern end at position [i] of [s]. *)
Definition ends (s : list Z) (i k : Z) : Prop :=
  0 <= k <= i /\ forall t, 0 <= t < k -> zlook pat t = zlook s (i - k + t).

Lemma ends_0 s i : 0 <= i -> ends s i 0.
Proof. intros H. split; [lia|intros t; lia]. Qed.

Lemma ends_snoc s i k : ends s i k -> zlook pat k = zlook s i -> ends s (i + 1) (k + 1).
Proof.
  intros [H1 H2] E. split; [lia|]. intros t Ht. destruct (decide (t = k)) as [->|].
  - rewrite E. f_equal. lia.
  - rewrite H2 by lia. f_equal. lia.
Qed.

Lemma ends_pred s i k : 0 <= k -> ends s (i + 1) (k + 1) -> ends s i k /\ zlook pat k = zlook s i.
Proof.
  intros Hk [H1 H2]. split; [split; [lia|]|].
  - intros t Ht. rewrite H2 by lia. f_equal. lia.
  - rewrite H2 by lia. f_equal. lia.
Qed.

Lemma ends_border s i j k : ends s i j -> ends s i k -> k <= j -> ends pat j k.
Proof.
  intros [H1 H2] [H3 H4] Hk. split; [lia|]. intros t Ht. rewrite H4, H2 by lia. f_equal. lia.
Qed.

Lemma ends_trans s i j k : ends s i j -> ends pat j k -> ends s i k.
Proof.
  intros [H1 H2] [H3 H4]. split; [lia|]. intros t Ht. rewrite H4, H2 by lia. f_equal. lia.
Qed.

(** [v] is the length of the longest proper border of [pat[0..n)]. *)
Definition longest_border (n v : Z) : Prop :=
  v < n /\ ends pat n v /\ forall k, v < k < n -> ~ ends pat n k.

Definition table (lps : block Z) (n : Z) : Prop :=
  zlen lps = plen /\ forall i, 0 <= i < n -> exists v, zlook lps i = Some (Some v) /\ longest_border (i + 1) v.

Lemma table_set lps n v :
  0 <= n < plen -> table lps n -> longest_border (n + 1) v -> table (zupd lps n (Some v)) (n + 1).
Proof.
  intros Hn [L T] Hv. split; [by rewrite zlen_zupd|]. intros i Hi.
  destruct (decide (i = n)) as [->|].
  - exists v. split; [apply zlook_zupd_eq; lia|done].
  - rewrite zlook_zupd_ne by done. apply T. lia.
Qed.

Lemma wp_table_get lps n i (Q : Z -> Prop) :
  table lps n -> 0 < i <= n -> n <= plen -> (forall v, longest_border i v -> Q v) ->
  wp (get_cell lps (i - 1)) Q.
Proof.
  intros [L T] Hi Hn HQ. destruct (T (i - 1) ltac:(lia)) as (v & Hv & Hb).
  unfold get_cell, get. rewrite Hv. apply HQ. by replace (i - 1 + 1) with i in Hb by lia.
Qed.

Lemma table_0 : table (replicate (Z.to_nat plen) (Some 0)) 1.
Proof.
  split; [rewrite zlen_replicate; unfold plen; lia|]. intros i Hi. assert (i = 0) as -> by lia. exists 0.
  rewrite zlook_replicate. destruct (Z.ltb_spec 0 (Z.of_nat (Z.to_nat plen))); [|unfold plen in *; lia].
  split; [done|]. split; [lia|]. split; [by apply ends_0|]. intros k; lia.
Qed.

Lemma wp_kmp_table Q :
  (forall lps, table lps plen -> Q lps) ->
  wp (kmp_table pat plen (replicate (Z.to_nat plen) (Some 0))) Q.
Proof.
  intros HQ. unfold kmp_table.
  apply (wp_loop (fun '(lps, len, i) => 1 <= i <= plen /\ table lps i /\ 0 <= len < i /\ ends pat i len /\
      forall k, len < k < i -> ends pat i k -> zlook pat k <> zlook pat i)
    (fun '(_, len, i) => 2 * (plen - i) + len)); [|unfold plen; lia|lia|].
  { split; [unfold plen; lia|]. split; [apply table_0|]. split; [lia|]. split; [by apply ends_0|].
    intros k; lia. }
  intros [[lps len] i] (Hi & T & Hl & E & N). bcase.
  2:{ wstep. apply HQ. by replace plen with i by lia. }
  pose proof T as [L _]. unfold plen in *. do 4 wstep. rename x0 into y.
  destruct (Z.eqb_spec x y) as [->|Hne].
  - assert (ends pat (i + 1) (len + 1)) as E' by (apply ends_snoc; [done|congruence]).
    assert (forall k, len + 1 < k < i + 1 -> ~ ends pat (i + 1) k) as N'.
    { intros k Hk Hk'. replace k with (k - 1 + 1) in Hk' by lia.
      apply ends_pred in Hk' as [Hk1 Hk2]; [|lia]. apply (N (k - 1)); [lia|done|done]. }
    do 3 wstep. split; [|lia]. split; [lia|]. split.
    { apply table_set; [unfold plen; lia|done|]. split; [lia|]. split; done. }
    split; [lia|]. split; [done|]. intros k Hk Hk'. by destruct (N' k).
  - destruct (Z.eqb_spec len 0) as [->|]; cbn [negb].
    + assert (forall k, 0 < k < i + 1 -> ~ ends pat (i + 1) k) as N'.
      { intros k Hk Hk'. replace k with (k - 1 + 1) in Hk' by lia.
        apply ends_pred in Hk' as [Hk1 Hk2]; [|lia].
        destruct (decide (k = 1)) as [->|]; [|apply (N (k - 1)); [lia|done|done]].
        change (1 - 1) with 0 in *. congruence. }
      do 3 wstep. split; [|lia]. split; [lia|]. split.
      { apply table_set; [unfold plen; lia|done|]. split; [lia|]. split; [apply ends_0; lia|done]. }
      split; [lia|]. split; [apply ends_0; lia|]. intros k Hk Hk'. by destruct (N' k).
    + wstep. eapply wp_table_get; [done|lia|unfold plen; lia|]. intros v (Hv & Ev & Mv). wstep.
      pose proof Ev as [Hv0 _]. split; [|lia]. split; [lia|]. split; [done|]. split; [lia|].
      split; [by eapply ends_trans|]. intros k Hk Hk'.
      destruct (Z.lt_trichotomy k len) as [Hlt|[->|Hgt]]; [|congruence|apply N; [lia|done]].
      exfalso. apply (Mv k); [lia|]. eapply ends_border; [done|done|lia].
Qed.

(** ** The scan *)
Section Scan.
Context (text : list Z).
Hypothesis Htext : plen <= zlen text < 2 ^ 62.

Lemma ends_occurs i : i <= zlen text -> ends text i plen <-> 0 <= i - plen /\ occurs text pat (i - plen).
Proof.
  intros Hi. unfold ends, occurs, plen in *. split.
  - intros [H1 H2]. split; [lia|]. apply zlook_ext. intros t. rewrite zlook_slice by lia.
    repeat bcase; cbn [andb]; try lia; symmetry;
      first [apply H2; lia|apply zlook_ge; lia|apply zlook_neg; lia].
  - intros [H1 H2]. split; [lia|]. intros t Ht. rewrite <- H2 at 1. rewrite zlook_slice by lia.
    repeat bcase; try lia. done.
Qed.

(** The occurrences that end after position [i]. *)
Definition remaining (i : Z) : list Z := occurrences_from text pat (Z.max 0 (i - plen + 1)).

Lemma remaining_0 : remaining 0 = occurrences text pat.
Proof. unfold remaining, occurrences. f_equal. unfold plen. lia. Qed.

Lemma remaining_end : remaining (zlen text) = [].
Proof.
  unfold remaining, occurrences_from. rewrite (seqZ_nil); [done|]. unfold plen in *. lia.
Qed.

Lemma remaining_hit i :
  i < zlen text -> ends text (i + 1) plen -> remaining i = (i + 1 - plen) :: remaining (i + 1).
Proof.
  intros Hi E. apply ends_occurs in E as [E1 E2]; [|lia]. unfold remaining, occurrences_from.
  unfold plen in *. rewrite (Z.max_r 0), (Z.max_r 0) by lia.
  rewrite seqZ_cons by lia. replace (i - zlen pat + 1) with (i + 1 - zlen pat) by lia.
  rewrite filter_cons_True by done. f_equal. f_equal. f_equal; lia.
Qed.

Lemma remaining_miss i :
  0 <= i < zlen text -> ~ ends text (i + 1) plen -> remaining i = remaining (i + 1).
Proof.
  intros Hi E. rewrite ends_occurs in E by lia. unfold remaining, occurrences_from. unfold plen in *.
  destruct (decide (i + 1 - zlen pat < 0)).
  - by rewrite !Z.max_l by lia.
  - rewrite (Z.max_r 0), (Z.max_r 0) by lia. rewrite seqZ_cons by lia.
    replace (i - zlen pat + 1) with (i + 1 - zlen pat) by lia.
    rewrite filter_cons_False by (intros Ho; apply E; split; [lia|done]). f_equal. f_equal; lia.
Qed.

(** The longest partial match that can still be extended at [i]. *)
Definition partial (i j : Z) : Prop :=
  0 <= j < plen /\ ends text i j /\
  forall k, j < k < plen -> ends text i k -> zlook pat k <> zlook text i.

Lemma partial_next i j :
  0 <= i -> partial i j -> zlook pat j = zlook text i -> j + 1 < plen ->
  partial (i + 1) (j + 1) /\ ~ ends text (i + 1) plen.
Proof.
  intros Hi (Hj & E & N) Heq Hlt. split.
  - split; [lia|]. split; [by apply ends_snoc|]. intros k Hk Hk' _.
    replace k with (k - 1 + 1) in Hk' by lia. apply ends_pred in Hk' as [H1 H2]; [|lia].
    by apply (N (k - 1)); [lia| |].
  - intros Hk'. replace plen with (plen - 1 + 1) in Hk' by lia.
    apply ends_pred in Hk' as [H1 H2]; [|lia]. by apply (N (plen - 1)); [lia| |].
Qed.

Lemma partial_match i j v :
  0 <= i -> partial i j -> zlook pat j = zlook text i -> j + 1 = plen -> longest_border plen v ->
  ends text (i + 1) plen /\ partial (i + 1) v.
Proof.
  intros Hi (Hj & E & N) Heq Hlt (Hv & Ev & Mv). pose proof Ev as [Hv0 _].
  assert (ends text (i + 1) plen) as Ep by (rewrite <- Hlt; by apply ends_snoc).
  split; [done|]. split; [lia|]. split; [by eapply ends_trans|].
  intros k Hk Hk' _. apply (Mv k); [lia|]. eapply ends_border; [done|done|lia].
Qed.

Lemma partial_fall i j v :
  partial i j -> zlook pat j <> zlook text i -> 0 < j -> longest_border j v -> partial i v.
Proof.
  intros (Hj & E & N) Hne Hpos (Hv & Ev & Mv). pose proof Ev as [Hv0 _].
  split; [lia|]. split; [by eapply ends_trans|]. intros k Hk Hk'.
  destruct (Z.lt_trichotomy k j) as [Hlt|[->|Hgt]]; [|done|by apply N; [lia|]].
  exfalso. apply (Mv k); [lia|]. eapply ends_border; [done|done|lia].
Qed.

Lemma partial_skip i :
  0 <= i -> partial i 0 -> zlook pat 0 <> zlook text i ->
  partial (i + 1) 0 /\ ~ ends text (i + 1) plen.
Proof.
  intros Hi (Hj & E & N) Hne.
  assert (forall k, 0 < k <= plen -> ~ ends text (i + 1) k) as Hn.
  { intros k Hk Hk'. replace k with (k - 1 + 1) in Hk' by lia.
    apply ends_pred in Hk' as [H1 H2]; [|lia]. destruct (decide (k = 1)) as [->|].
    - by change (1 - 1) with 0 in H2.
    - by apply (N (k - 1)); [lia| |]. }
  split; [|apply Hn; unfold plen; lia]. split; [done|]. split; [apply ends_0; lia|].
  intros k Hk Hk'. by destruct (Hn k ltac:(lia)).
Qed.

(** [cb] with [NULL] read as a callback that goes on. *)
Definition the_cb {U} (cb : option (Z -> U -> bool * U)) : Z -> U -> bool * U :=
  match cb with Some cb => cb | None => fun _ user => (true, user) end.

Definition verdict (count : Z) : scl_error_t := if count =? 0 then SCL_ERR_NOT_FOUND else SCL_OK.

Lemma wp_kmp_scan {U} lps (cb : option (Z -> U -> bool * U)) (user0 : U) :
  table lps plen ->
  wp (kmp_scan text (zlen text) pat plen lps cb user0)
    (fun '(result, count, user) =>
       (count, user) = deliver (the_cb cb) (occurrences text pat) 0 user0 /\ result = verdict count).
Proof.
  intros T. unfold kmp_scan. pose proof (zlen_nonneg pat).
  apply (wp_loop (fun '(i, j, count, result, user) => 0 <= i <= zlen text /\ 0 <= count <= i /\
      partial i j /\ result = verdict count /\
      deliver (the_cb cb) (occurrences text pat) 0 user0 = deliver (the_cb cb) (remaining i) count user)
    (fun '(i, j, _, _, _) => 2 * (zlen text - i) + j)); [|unfold plen in *; lia|lia|].
  { split; [lia|]. split; [lia|]. split; [|by rewrite remaining_0]. split; [unfold plen; lia|].
    split; [by apply ends_0|]. intros k Hk [H1 _]. lia. }
  intros [[[[i j] count] result] user] (Hi & Hc & P & -> & D). pose proof P as (Hj & _ & _).
  unfold plen in *. bcase.
  2:{ wstep. split; [|done]. rewrite D. replace i with (zlen text) by lia. by rewrite remaining_end. }
  do 4 wstep. rename x0 into y. destruct (Z.eqb_spec x y) as [->|Hne].
  - assert (zlook pat j = zlook text i) as Heq by congruence.
    cbv zeta. destruct (Z.eqb_spec (j + 1) (zlen pat)) as [Ej|Ej].
    + assert (verdict (count + 1) = SCL_OK) as Hv by (unfold verdict; bcase; [lia|done]).
      assert (forall Q : Z -> Prop, (forall v, longest_border (j + 1) v -> Q v) ->
        wp (get_cell lps (j + 1 - 1)) Q) as Hlps
        by (intros Q HQ; eapply wp_table_get; [done|lia|unfold plen; lia|done]).
      assert (exists v, longest_border (j + 1) v) as [v0 Hv0].
      { destruct T as [_ T]. destruct (T j ltac:(unfold plen; lia)) as (v & _ & Hb). by exists v. }
      rewrite Ej in Hv0. destruct (partial_match i j v0 ltac:(lia) P Heq Ej Hv0) as [Ep _].
      rewrite (remaining_hit i ltac:(lia) Ep) in D. rewrite u64_small by lia.
      replace (i + 1 - (j + 1)) with (i + 1 - plen) by (unfold plen; lia).
      change (match cb with Some cb0 => cb0 (i + 1 - plen) user | None => (true, user) end)
        with (match cb with Some cb0 => cb0 (i + 1 - plen) user | None => (true, user) end).
      assert (match cb with Some cb0 => cb0 (i + 1 - plen) user | None => (true, user) end =
              the_cb cb (i + 1 - plen) user) as -> by by destruct cb.
      cbn [deliver] in D. destruct (the_cb cb (i + 1 - plen) user) as [go user'].
      destruct go.
      * wstep. apply Hlps. intros v Hvb. wstep. rewrite Ej in Hvb.
        destruct (partial_match i j v ltac:(lia) P Heq Ej Hvb) as [_ P'].
        pose proof Hvb as (? & [? _] & _). split; [|lia]. split; [lia|]. split; [lia|]. done.
      * wstep. by rewrite D.
    + wstep. destruct (partial_next i j ltac:(lia) P Heq ltac:(unfold plen; lia)) as [P' Hn].
      split; [|lia]. split; [lia|]. split; [lia|]. split; [done|]. split; [done|].
      by rewrite D, remaining_miss by (done || lia).
  - assert (zlook pat j <> zlook text i) as Hd by congruence.
    destruct (Z.eqb_spec j 0) as [->|]; cbn [negb].
    + wstep. destruct (partial_skip i ltac:(lia) P Hd) as [P' Hn].
      split; [|lia]. split; [lia|]. split; [lia|]. split; [done|]. split; [done|].
      by rewrite D, remaining_miss by (done || lia).
    + wstep. eapply wp_table_get; [done|lia|unfold plen; lia|]. intros v Hv. wstep.
      pose proof Hv as (? & [? _] & _). split; [|lia]. split; [lia|]. split; [lia|].
      split; [by eapply partial_fall; [done|done|lia|done]|done].
Qed.
End Scan.
End Matching.

Lemma head_occurrences text pat i :
  0 <= i <= zlen text - zlen pat -> occurs text pat i ->
  (forall j, 0 <= j < i -> ~ occurs text pat j) -> head (occurrences text pat) = Some i.
Proof.
  intros Hi Ho Hn. unfold occurrences, occurrences_from.
  replace (zlen text - zlen pat + 1 - 0) with (i + (zlen text - zlen pat + 1 - i)) by lia.
  rewrite seqZ_app by lia. rewrite filter_app, (seqZ_cons (0 + i)) by lia.
  rewrite (filter_cons_True _ (0 + i)) by done. replace (filter _ (seqZ 0 i)) with (@nil Z); [done|].
  symmetry. destruct (filter _ (seqZ 0 i)) as [|k l] eqn:E; [done|].
  assert (k ∈ filter (occurs text pat) (seqZ 0 i)) as [Hk1 Hk2]%list_elem_of_filter by (rewrite E; left).
  apply elem_of_seqZ in Hk2. by destruct (Hn k ltac:(lia)).
Qed.

Lemma no_occurrences text pat :
  (forall j, 0 <= j <= zlen text - zlen pat -> ~ occurs text pat j) -> occurrences text pat = [].
Proof.
  intros Hn. unfold occurrences, occurrences_from.
  destruct (filter _ _) as [|k l] eqn:E; [done|].
  assert (k ∈ filter (occurs text pat) (seqZ 0 (zlen text - zlen pat + 1 - 0)))
    as [Hk1 Hk2]%list_elem_of_filter by (rewrite E; left).
  apply elem_of_seqZ in Hk2. by destruct (Hn k ltac:(lia)).
Qed.

(** C40. Knuth-Morris-Pratt, once its table is allocated: [scl_search_kmp_all]
    calls the callback on exactly the positions where the pattern occurs
    (overlapping ones included), in increasing order, until it answers
    [false], counts those calls and answers [SCL_ERR_NOT_FOUND] when there are
    none; [scl_search_kmp] returns the first occurrence.  Both loops
    terminate, no access leaves the text, the pattern or the table, and the
    table is freed. *)
Theorem kmp_finds_all {U} (al : scl_allocator_t) (w : world) (text pat : list Z)
  (cb : option (Z -> U -> bool * U)) (user : U)
  (Hpat : 1 <= zlen pat) (Htext : zlen pat <= zlen text < 2 ^ 62)
  (Hov : zlen pat * 8 < 2 ^ 64) (Hal : calloc_fn al (w_reqs w) (zlen pat) 8 MAX_ALIGN = true) :
  let w' := World (S (w_reqs w)) (w_live w) in
  scl_search_kmp_all al w (Some text) (zlen text) (Some pat) (zlen pat) cb user =
    (let '(count, user') := deliver (the_cb cb) (occurrences text pat) 0 user in
     Ok (verdict count, Some count, user', w')) /\
  scl_search_kmp al w (Some text) (zlen text) (Some pat) (zlen pat) true =
    Ok (match head (occurrences text pat) with
        | Some p => (SCL_OK, Some p, w')
        | None => (SCL_ERR_NOT_FOUND, None, w')
        end).
Proof.
  intros w'. assert (forall V (cb : option (Z -> V -> bool * V)) (user : V),
    kmp_core al w (Some text) (zlen text) (Some pat) (zlen pat) cb user =
    (let '(count, user') := deliver (the_cb cb) (occurrences text pat) 0 user in
     Ok (verdict count, Some count, user', w'))) as Hcore.
  { clear cb user. intros V cb user. unfold kmp_core.
    destruct (Z.eqb_spec (zlen text) 0), (Z.eqb_spec (zlen pat) 0), (Z.gtb_spec (zlen pat) (zlen text));
      try lia. rewrite scl_mul_overflow_spec by (unfold is_u64; lia).
    destruct (Z.ltb_spec (zlen pat * 8) (2 ^ 64)); [|lia]. unfold scl_calloc. rewrite Hal.
    destruct (proj1 (wp_ok _ (fun lps => table pat lps (zlen pat)))
      (wp_kmp_table pat ltac:(lia) _ (fun lps H => H))) as (lps & -> & T). rewrite bind_Ok.
    destruct (proj1 (wp_ok _ _) (wp_kmp_scan pat ltac:(lia) text ltac:(lia) lps cb user T))
      as ([[result count] user'] & -> & <- & ->). rewrite bind_Ok. cbn. do 3 f_equal.
    unfold w'. f_equal. lia. }
  split; [apply Hcore|]. unfold scl_search_kmp. cbn [negb]. rewrite Hcore.
  destruct (occurrences text pat) as [|p ms]; done.
Qed.

(** ** Rabin-Karp *)

(** The hash before reduction. *)
Definition poly (base : Z) (l : list Z) : Z := foldl (fun h c => h * base + c) 0 l.

Lemma poly_snoc base l x : poly base (l ++ [x]) = poly base l * base + x.
Proof. unfold poly. by rewrite foldl_app. Qed.

Lemma poly_cons base x l : poly base (x :: l) = x * base ^ zlen l + poly base l.
Proof.
  induction l as [|y l IH] using rev_ind.
  - change (zlen (@nil Z)) with 0. unfold poly. simpl. lia.
  - rewrite app_comm_cons, !poly_snoc, IH, zlen_app. change (zlen [y]) with 1.
    rewrite Z.pow_add_r, Z.pow_1_r by (try apply zlen_nonneg; lia). lia.
Qed.

Lemma rem_fix a : (let s := Z.rem a RK_MOD in if s <? 0 then s + RK_MOD else s) = a mod RK_MOD.
Proof.
  unfold RK_MOD. cbv zeta. pose proof (Z.quot_rem' a 2147483647).
  destruct (Z.le_gt_cases 0 a).
  - pose proof (Z.rem_bound_pos a 2147483647 ltac:(done) ltac:(lia)). bcase; [lia|].
    apply Z.rem_mod_nonneg; lia.
  - assert (- 2147483647 < Z.rem a 2147483647 <= 0) by (pose proof (Z.rem_bound_pos (- a) 2147483647 ltac:(lia) ltac:(lia)) as Hb; rewrite Z.rem_opp_l in Hb by lia; lia). bcase.
    + apply (Z.mod_unique_pos _ _ (Z.quot a 2147483647 - 1)); lia.
    + apply (Z.mod_unique_pos _ _ (Z.quot a 2147483647)); lia.
Qed.

Section RabinKarp.
Context (base : Z) (text pat : list Z).
Hypothesis Hbase : 256 <= base <= 65791.
Hypothesis Hpat : 1 <= zlen pat <= zlen text.
Hypothesis Htext : zlen text < 2 ^ 63.
Hypothesis Htb : Forall (fun c => 0 <= c < 256) text.
Hypothesis Hpb : Forall (fun c => 0 <= c < 256) pat.
Let plen := zlen pat.

Definition rk_hash (l : list Z) : Z := poly base l mod RK_MOD.

Lemma RK_MOD_bound x : 0 <= x mod RK_MOD < RK_MOD.
Proof. by apply Z.mod_pos_bound. Qed.

Lemma byte_at l i x : Forall (fun c => 0 <= c < 256) l -> zlook l i = Some x -> 0 <= x < 256 /\ u8 x = x.
Proof.
  intros H Hx%zlook_elem. rewrite Forall_forall in H. specialize (H x Hx).
  split; [done|]. by apply Z.mod_small.
Qed.

(** One step of the hash. *)
Lemma rk_hash_step l x :
  0 <= x < 256 -> u64 (u64 (rk_hash l * base) + x) mod RK_MOD = rk_hash (l ++ [x]).
Proof.
  intros Hx. unfold rk_hash. rewrite poly_snoc. pose proof (RK_MOD_bound (poly base l)).
  unfold RK_MOD in *. rewrite (u64_small (_ * base)), u64_small by nia.
  rewrite Z.add_mod, Z.mul_mod_idemp_l, <- Z.add_mod by lia. done.
Qed.

(** Sliding the window by one byte. *)
Lemma rk_roll_hash i o n :
  0 <= i -> i + plen < zlen text -> zlook text i = Some o -> zlook text (i + plen) = Some n ->
  rk_roll base (base ^ (plen - 1) mod RK_MOD) (rk_hash (slice text i (i + plen))) (u8 o) (u8 n) =
  rk_hash (slice text (i + 1) (i + 1 + plen)).
Proof.
  intros Hi Hlt Ho Hn. destruct (byte_at _ _ _ Htb Ho) as [Bo ->], (byte_at _ _ _ Htb Hn) as [Bn ->].
  unfold plen in *. unfold rk_roll. rewrite rem_fix. set (m := slice text (i + 1) (i + zlen pat)).
  assert (slice text i (i + zlen pat) = o :: m) as -> by (apply slice_cons; [done|lia]).
  assert (slice text (i + 1) (i + 1 + zlen pat) = m ++ [n]) as ->.
  { unfold m. replace (i + 1 + zlen pat) with (i + zlen pat + 1) by lia.
    rewrite <- (slice_app text (i + 1) (i + zlen pat)) by lia. f_equal.
    rewrite (slice_cons _ _ _ n), slice_nil by (done || lia). done. }
  assert (zlen m = zlen pat - 1) as Lm by (unfold m; rewrite zlen_slice by lia; lia).
  pose proof (RK_MOD_bound (base ^ (zlen pat - 1))). unfold RK_MOD in H.
  rewrite (u64_small (o * _)) by (unfold RK_MOD; nia).
  rewrite <- rk_hash_step by done. do 2 f_equal. f_equal. f_equal. unfold rk_hash.
  rewrite poly_cons, Lm. rewrite Zminus_mod, Zmod_mod, Z.mul_mod_idemp_r, <- Zminus_mod by done.
  f_equal. apply (f_equal (fun z => z mod RK_MOD)). ring.
Qed.

Lemma wp_rk_equal i :
  0 <= i -> i + plen <= zlen text ->
  wp (rk_equal text pat plen i) (fun b => b = bool_decide (occurs text pat i)).
Proof.
  intros Hi Hle. unfold rk_equal, plen in *. wstep.
  apply (wp_zfor_ret (fun j _ => forall t, 0 <= t < j -> zlook pat t = zlook text (i + t))).
  - intros t; lia.
  - intros j [] Hj Ht. do 4 wstep. destruct (byte_at _ _ _ Htb Hx) as [_ ->], (byte_at _ _ _ Hpb Hx0) as [_ ->].
    destruct (Z.eqb_spec x x0) as [->|Hne]; cbn [negb]; wstep.
    + intros t Ht'. destruct (decide (t = j)) as [->|]; [congruence|]. apply Ht. lia.
    + wstep. symmetry. apply bool_decide_eq_false. intros Ho. unfold occurs in Ho.
      apply Hne. assert (zlook (slice text i (i + zlen pat)) j = zlook pat j) as E by by rewrite Ho.
      rewrite zlook_slice in E by lia.
      destruct (Z.leb_spec 0 j), (Z.ltb_spec j (i + zlen pat - i)); try lia. cbn [andb] in E. congruence.
  - intros [] Ht. rewrite Z.max_r in Ht by lia. wstep. symmetry. apply bool_decide_eq_true.
    unfold occurs. apply zlook_ext. intros t. rewrite zlook_slice by lia.
    repeat bcase; cbn [andb]; try lia; symmetry; first [apply Ht; lia|apply zlook_ge; lia|apply zlook_neg; lia].
Qed.

Lemma rk_prepare :
  wp (h ← zfor 0 (plen - 1) (fun _ h => mret (u64 (h * base) mod RK_MOD)) 1;
      '(p, t) ← zfor 0 plen
        (fun i '(pat_hash, text_hash) =>
           p ← get pat i; t ← get text i;
           mret (u64 (u64 (pat_hash * base) + u8 p) mod RK_MOD,
                 u64 (u64 (text_hash * base) + u8 t) mod RK_MOD)) (0, 0);
      mret (h, p, t))
    (fun r => r = (base ^ (plen - 1) mod RK_MOD, rk_hash pat, rk_hash (slice text 0 plen))).
Proof.
  unfold plen. wstep. apply (wp_zfor (fun i h => h = base ^ i mod RK_MOD)).
  - done.
  - intros i h Hi ->. wstep. pose proof (RK_MOD_bound (base ^ i)). rewrite u64_small by (unfold RK_MOD in *; nia).
    rewrite Z.mul_mod_idemp_l by done. by rewrite Z.pow_add_r, Z.pow_1_r by lia.
  - intros h ->. rewrite Z.max_r by lia. wstep.
    apply (wp_zfor (fun i '(p, t) => p = rk_hash (slice pat 0 i) /\ t = rk_hash (slice text 0 i))).
    + by rewrite !slice_nil by lia.
    + intros i [p t] Hi [-> ->]. do 5 wstep. rename x into a, x0 into b.
      destruct (byte_at _ _ _ Hpb Hx) as [Ba ->], (byte_at _ _ _ Htb Hx0) as [Bb ->].
      rewrite !rk_hash_step by done.
      assert (forall (l : list Z) c, zlook l i = Some c -> slice l 0 i ++ [c] = slice l 0 (i + 1)) as E.
      { intros l c Hc. pose proof (zlook_Some _ _ _ Hc). rewrite <- (slice_app l 0 i (i + 1)) by lia.
        f_equal. by rewrite (slice_cons _ _ _ c), slice_nil by (done || lia). }
      by rewrite (E pat), (E text).
    + intros [p t] [-> ->]. rewrite Z.max_r by lia. wstep. by rewrite slice_all.
Qed.

Lemma rabin_karp_first :
  scl_search_rabin_karp base (Some text) (zlen text) (Some pat) plen true =
    Ok (match head (occurrences text pat) with
        | Some p => (SCL_OK, Some p) | None => (SCL_ERR_NOT_FOUND, None) end).
Proof.
  unfold scl_search_rabin_karp, plen in *.
  destruct (Z.eqb_spec (zlen text) 0), (Z.eqb_spec (zlen pat) 0), (Z.gtb_spec (zlen pat) (zlen text)); try lia.
  cbv zeta. pose proof rk_prepare as (r & E & ->)%wp_ok. unfold plen in E.
  destruct (zfor 0 (zlen pat - 1) _ 1) as [h| |]; [|discriminate E..]. rewrite bind_Ok in *.
  destruct (zfor 0 (zlen pat) _ (0, 0)) as [[p t]| |]; [|discriminate E..]. rewrite bind_Ok in *.
  injection E as -> -> ->.
  match goal with |- ?m = Ok ?r => enough (wp m (fun a => a = r)) as (a & -> & ->)%wp_ok by done end.
  wstep. apply (wp_zfor_ret (fun i th => (i <= zlen text - zlen pat -> th = rk_hash (slice text i (i + zlen pat))) /\
    forall j, 0 <= j < i -> ~ occurs text pat j)).
  - split; [done|intros j; lia].
  - intros i th Hi [Hth Hn]. rewrite Hth by lia. wstep.
    set (m := if _ =? _ then _ else _).
    assert (wp m (fun b => b = bool_decide (occurs text pat i))) as (b & -> & ->)%wp_ok.
    { unfold m. destruct (Z.eqb_spec (rk_hash pat) (rk_hash (slice text i (i + zlen pat)))) as [Eh|Eh].
      - apply wp_rk_equal; unfold plen; lia.
      - wstep. symmetry. apply bool_decide_eq_false. intros Ho. apply Eh. by rewrite Ho. }
    cbn [wp]. case_bool_decide as Ho.
    + wstep. wstep. by rewrite (head_occurrences text pat i) by (done || lia).
    + assert (forall j, 0 <= j < i + 1 -> ~ occurs text pat j) as Hn'.
      { intros j Hj. destruct (decide (j = i)) as [->|]; [done|]. apply Hn. lia. }
      bcase; [|wstep; split; [lia|done]]. do 5 wstep. split; [|done]. intros _.
      by apply (rk_roll_hash i x x0); [lia|unfold plen; lia| |].
  - intros th [_ Hn]. wstep. rewrite no_occurrences; [done|]. intros j Hj. apply Hn. lia.
Qed.
End RabinKarp.

Lemma seeded_base seed : 0 <= seed < 2 ^ 64 -> 256 <= scl_rabin_karp_seed seed <= 65791.
Proof.
  intros H. unfold scl_rabin_karp_seed. change 0xFFFF with (Z.ones 16). rewrite Z.land_ones by lia.
  pose proof (Z.mod_pos_bound seed (2 ^ 16) ltac:(lia)). rewrite u64_small by lia. lia.
Qed.

(** Rabin-Karp returns the first occurrence of the pattern, or
    [SCL_ERR_NOT_FOUND] when there is none, for the initial base and for every
    seed: the rolling hash is the hash of the window at every step (with the
    truncating 64-bit remainder), so no occurrence is skipped, and hash
    collisions are rejected by the byte comparison. *)
Theorem rabin_karp_finds_first (rk_base seed : Z) (text pat : list Z)
  (Hbase : rk_base = 256 \/ rk_base = scl_rabin_karp_seed seed) (Hseed : 0 <= seed < 2 ^ 64)
  (Hpat : 1 <= zlen pat <= zlen text) (Htext : zlen text < 2 ^ 63)
  (Htb : Forall (fun c => 0 <= c < 256) text) (Hpb : Forall (fun c => 0 <= c < 256) pat) :
  scl_search_rabin_karp rk_base (Some text) (zlen text) (Some pat) (zlen pat) true =
    Ok (match head (occurrences text pat) with
        | Some p => (SCL_OK, Some p)
        | None => (SCL_ERR_NOT_FOUND, None)
        end).
Proof.
  apply rabin_karp_first; try done. pose proof (seeded_base seed Hseed). destruct Hbase as [->| ->]; lia.
Qed.

Lemma kmp_finds_all_witness :
  scl_search_kmp_all (U := list Z)
    {| malloc_fn := fun _ _ _ => false; calloc_fn := fun _ _ _ _ => true;
       realloc_fn := fun _ _ _ _ _ => Refused |} (World 0 0)
    (Some [97; 97; 97; 98; 97; 97]) 6 (Some [97; 97]) 2
    (Some (fun p user => (true, user ++ [p]))) [] =
    Ok (SCL_OK, Some 3, [0; 1; 4], World 1 0).
Proof.
  refine (proj1 (kmp_finds_all {| malloc_fn := fun _ _ _ => false; calloc_fn := fun _ _ _ _ => true;
       realloc_fn := fun _ _ _ _ _ => Refused |} (World 0 0) [97; 97; 97; 98; 97; 97] [97; 97]
       (Some (fun p user => (true, user ++ [p]))) [] _ _ _ _)).
  - vm_compute. discriminate.
  - vm_compute. split; [discriminate|reflexivity].
  - reflexivity.
  - reflexivity.
Defined.

Lemma rabin_karp_finds_first_witness :
  scl_search_rabin_karp 256 (Some [97; 98; 97; 98]) 4 (Some [98; 97]) 2 true = Ok (SCL_OK, Some 1).
Proof.
  refine (rabin_karp_finds_first 256 0 [97; 98; 97; 98] [98; 97] _ _ _ _ _ _).
  - by left.
  - lia.
  - vm_compute. split; discriminate.
  - reflexivity.
  - repeat constructor; lia.
  - repeat constructor; lia.
Defined.

(** The seeded base exceeds the documented range [256..65535]. *)
Lemma seeded_base_range : scl_rabin_karp_seed 0xFFFF = 65791.
Proof. by vm_compute. Qed.
