(* ===== verification/Store.v ===== *)
(** The store of linked structures: nodes allocated one by one, designated by
    pointers, and reached only through them.  A read or write through [NULL]
    or through a pointer to freed memory is undefined, and so is a double
    free.  A structure owns a list of addresses; everything else in the store
    is its frame. *)

From stdpp Require Import gmap.
From S2P Require Import Prelude Core.
#[local] Open Scope Z_scope.

(** [None] is [NULL]. *)
Notation addr := (option positive).

Record mem (N : Type) : Type := Mem { m_world : world; m_nodes : gmap positive N }.
Arguments Mem {N}.
Arguments m_world {N}.
Arguments m_nodes {N}.

Section Access.
Context {N : Type}.
Implicit Types (m : mem N) (h : gmap positive N) (n : N).

(** An address that designates no node. *)
Definition fresh_addr h : positive := Pos.succ (map_fold (fun a _ k => Pos.max a k) 1%positive h).

Lemma fresh_addr_spec h : h !! fresh_addr h = None.
Proof.
  enough (forall a, is_Some (h !! a) -> (a < fresh_addr h)%positive) as H.
  { destruct (h !! fresh_addr h) eqn:E; [|done]. specialize (H (fresh_addr h) ltac:(eauto)). lia. }
  unfold fresh_addr. induction h as [|b n h Hb Hf IH] using map_first_key_ind; intros a [n' Ha].
  { by rewrite lookup_empty in Ha. }
  rewrite map_fold_insert_first_key by done. destruct (decide (a = b)) as [->|Hne]; [lia|].
  rewrite lookup_insert_ne in Ha by done. specialize (IH a ltac:(eauto)). lia.
Qed.

Definition load m (p : addr) : res N :=
  match p with
  | Some a => match m_nodes m !! a with Some n => mret n | None => UB end
  | None => UB
  end.

Definition store m (p : addr) (n : N) : res (mem N) :=
  match p with
  | Some a =>
      match m_nodes m !! a with
      | Some _ => mret (Mem (m_world m) (<[a := n]> (m_nodes m)))
      | None => UB
      end
  | None => UB
  end.

(** Distinct nodes have distinct addresses, multiples of [MAX_ALIGN] in an
    address space of 2^64 bytes. *)
Definition address_left h : bool := Z.of_nat (size h) <? 2 ^ 64 / MAX_ALIGN.

(** [scl_alloc] of a node of [sz] bytes, filled with [n] before it is used. *)
Definition alloc_node (al : scl_allocator_t) m (sz : Z) (n : N) : addr * mem N :=
  let '(World reqs live) := m_world m in
  if malloc_fn al reqs sz MAX_ALIGN && address_left (m_nodes m) then
    let a := fresh_addr (m_nodes m) in
    (Some a, Mem (World (S reqs) (live + 1)) (<[a := n]> (m_nodes m)))
  else (None, Mem (World (S reqs) live) (m_nodes m)).

(** [scl_free] of a node; [scl_free] ignores [NULL]. *)
Definition free_node m (p : addr) : res (mem N) :=
  match p with
  | Some a =>
      match m_nodes m !! a with
      | Some _ => mret (Mem (World (w_reqs (m_world m)) (w_live (m_world m) - 1)) (delete a (m_nodes m)))
      | None => UB
      end
  | None => mret m
  end.

Lemma wp_load_node m a n (Q : N -> Prop) : m_nodes m !! a = Some n -> Q n -> wp (load m (Some a)) Q.
Proof. intros E HQ. unfold load. by rewrite E. Qed.

Lemma wp_store_node m a n n0 (Q : mem N -> Prop) :
  m_nodes m !! a = Some n0 -> Q (Mem (m_world m) (<[a := n]> (m_nodes m))) -> wp (store m (Some a) n) Q.
Proof. intros E HQ. unfold store. by rewrite E. Qed.

(** ** Ownership *)
Definition live m : Z := w_live (m_world m).

(** [m] holds the nodes [l], which [base] does not have, and agrees with it
    on all others; [c] blocks are live for each. *)
Record holdsn (c : Z) (base m : mem N) (l : list positive) : Prop := {
  holds_nodup : NoDup l;
  holds_new a : a ∈ l -> m_nodes base !! a = None;
  holds_frame a : a ∉ l -> m_nodes m !! a = m_nodes base !! a;
  holds_here a : a ∈ l -> is_Some (m_nodes m !! a);
  holds_live : live m = live base + c * zlen l
}.
Notation holds := (holdsn 1).

Lemma holds_nil c m : holdsn c m m [].
Proof. split; [constructor|..]; try set_solver. rewrite zlen_nil. lia. Qed.

Lemma holds_perm c base m l l' : l ≡ₚ l' -> holdsn c base m l -> holdsn c base m l'.
Proof.
  intros P [H1 H2 H3 H4 H5]. split; [by rewrite <- P|..].
  - intros a Ha. apply H2. by rewrite P.
  - intros a Ha. apply H3. by rewrite P.
  - intros a Ha. apply H4. by rewrite P.
  - rewrite H5. unfold zlen. by rewrite P.
Qed.

(** Nothing is owned any more: the store is what it was. *)
Lemma holds_none c base m : holdsn c base m [] -> m_nodes m = m_nodes base /\ live m = live base.
Proof.
  intros [_ _ H3 _ H5]. split; [|rewrite H5, zlen_nil; lia]. apply map_eq. intros a. apply H3. set_solver.
Qed.

Lemma holds_same c base w h w' l :
  w_live w = w_live w' -> holdsn c base (Mem w h) l -> holdsn c base (Mem w' h) l.
Proof. intros E [H1 H2 H3 H4 H5]. unfold live in *. simpl in *. split; try done. unfold live. simpl. lia. Qed.

Lemma holds_update c base m l a n :
  a ∈ l -> holdsn c base m l -> holdsn c base (Mem (m_world m) (<[a := n]> (m_nodes m))) l.
Proof.
  intros Ha [H1 H2 H3 H4 H5]. split; try done.
  - intros b Hb. simpl. rewrite lookup_insert_ne by (intros ->; done). by apply H3.
  - intros b Hb. simpl. destruct (decide (a = b)) as [->|]; [rewrite lookup_insert_eq; eauto|].
    rewrite lookup_insert_ne by done. by apply H4.
Qed.

(** Owned nodes are among the nodes of the store. *)
Lemma holds_size c base m l : holdsn c base m l -> zlen l <= Z.of_nat (size (m_nodes m)).
Proof.
  intros [H1 _ _ H4 _]. unfold zlen. rewrite <- size_dom, <- (size_list_to_set (C := gset positive) l) by done.
  apply inj_le, subseteq_size. intros a Ha%elem_of_list_to_set. by apply elem_of_dom, H4.
Qed.

(** Taking a new node, and giving one back. *)
Lemma holds_add c base m l w n :
  holdsn c base m l -> w_live w = live m + c ->
  let a := fresh_addr (m_nodes m) in
  a ∉ l /\ m_nodes m !! a = None /\ holdsn c base (Mem w (<[a := n]> (m_nodes m))) (a :: l).
Proof.
  intros [H1 H2 H3 H4 H5] Hw a. pose proof (fresh_addr_spec (m_nodes m)) as Hf. fold a in Hf.
  assert (a ∉ l) as Hn.
  { intros Ha. apply H4 in Ha. rewrite Hf in Ha. by apply is_Some_None in Ha. }
  split; [done|]. split; [done|]. split.
  - by constructor.
  - intros b [->|Hb]%elem_of_cons; [|by apply H2]. by rewrite <- H3.
  - intros b [Hb1 Hb2]%not_elem_of_cons. simpl. rewrite lookup_insert_ne by done. by apply H3.
  - intros b Hb. simpl. destruct (decide (a = b)) as [<-|]; [rewrite lookup_insert_eq; eauto|].
    rewrite lookup_insert_ne by done. apply H4. apply elem_of_cons in Hb as [->|?]; done.
  - unfold live at 1. cbn [m_world]. rewrite zlen_cons, Hw, H5. lia.
Qed.

Lemma holds_remove c base m l a w :
  holdsn c base m (a :: l) -> w_live w = live m - c -> holdsn c base (Mem w (delete a (m_nodes m))) l.
Proof.
  intros [H1 H2 H3 H4 H5] Hw. apply NoDup_cons in H1 as [Ha H1]. split; try done.
  - intros b Hb. apply H2. set_solver.
  - intros b Hb. simpl. destruct (decide (a = b)) as [<-|].
    + rewrite lookup_delete_eq. symmetry. apply H2. set_solver.
    + rewrite lookup_delete_ne by done. apply H3. set_solver.
  - intros b Hb. simpl. rewrite lookup_delete_ne by (intros ->; done). apply H4. set_solver.
  - unfold live at 1. cbn [m_world]. rewrite zlen_cons in H5. lia.
Qed.

Lemma wp_alloc_node al base m l sz n (Q : addr * mem N -> Prop) :
  holds base m l ->
  (forall a m', a ∉ l -> m_nodes m !! a = None -> m_nodes m' = <[a := n]> (m_nodes m) ->
     holds base m' (a :: l) -> zlen l < PTRDIFF_MAX -> Q (Some a, m')) ->
  (forall m', m_nodes m' = m_nodes m -> holds base m' l -> Q (None, m')) ->
  Q (alloc_node al m sz n).
Proof.
  intros H HQ1 HQ2. pose proof (holds_size _ _ _ _ H) as Hsz. unfold alloc_node.
  destruct m as [[reqs lv] h]. cbn [m_world m_nodes] in *. unfold address_left.
  change (2 ^ 64 / MAX_ALIGN) with (2 ^ 60).
  assert (Q (None, Mem (World (S reqs) lv) h)) as Hno by (apply HQ2; [done|by apply (holds_same 1 base (World reqs lv))]).
  destruct (malloc_fn al reqs sz MAX_ALIGN); cbn [andb]; [|done].
  destruct (Z.ltb_spec (Z.of_nat (size h)) (2 ^ 60)); [|done].
  destruct (holds_add 1 base _ l (World (S reqs) (lv + 1)) n H eq_refl) as (Ha & Hn & Hh).
  apply HQ1; try done. unfold PTRDIFF_MAX. lia.
Qed.

Lemma wp_free_node base m l a (Q : mem N -> Prop) :
  holds base m (a :: l) ->
  (forall m', m_nodes m' = delete a (m_nodes m) -> holds base m' l -> Q m') ->
  wp (free_node m (Some a)) Q.
Proof.
  intros H HQ. unfold free_node. destruct (holds_here _ _ _ _ H a) as [n En]; [set_solver|]. rewrite En.
  apply HQ; [done|]. by apply (holds_remove 1 _ _ _ _ _ H).
Qed.
End Access.
Notation holds := (holdsn 1).
