(* ===== verification/Containers.v ===== *)
(** What the containers share: the replies of operations with out-pointers and
    the linear scans of their search functions. *)

From S2P Require Import Prelude Core Search Refine.
#[local] Open Scope Z_scope.

(** The reply of an operation with an out-pointer. *)
Definition value_or {A} (e : scl_error_t) (x : option A) : reply A :=
  match x with Some x => Value x | None => Code e end.
Definition index_or {A} (a : answer) : reply A :=
  match a with (_, Some i) => Size i | (e, None) => Code e end.

Section Helpers.
Context {A : Type}.
Implicit Types (l : list A) (p : ptr A).

(** The scan shared by the [_search] functions: the first stored element
    equal to the key. *)
Lemma wp_search_scan (cmp : A -> A -> Z) (get_at : Z -> res A) l key :
  (forall i x (Q : A -> Prop), zlook l i = Some x -> Q x -> wp (get_at i) Q) ->
  wp (r ← zfor_ret 0 (zlen l)
        (fun i _ => x ← get_at i;
                    if cmp x key =? 0 then mret (inr (SCL_OK, Some i)) else mret (inl tt)) tt;
      mret (match r with inl _ => (SCL_ERR_NOT_FOUND, None) | inr a => a end))
    (found_first cmp l key).
Proof.
  intros Hg. wstep.
  apply (wp_zfor_ret (fun i _ => forall j y, j < i -> zlook l j = Some y -> cmp y key <> 0)).
  - intros j y Hj Hy. zidx.
  - intros i [] Hi Hb. destruct (zlook_lt l i ltac:(lia)) as [x Hx]. wstep. eapply Hg; [done|].
    destruct (Z.eqb_spec (cmp x key) 0); wstep.
    + wstep. split; [by exists x|done].
    + intros j y Hj Hy. destruct (decide (j = i)) as [->|]; [by simplify_eq|]. apply (Hb j); [lia|done].
  - intros [] Hb. wstep. split; [|done]. intros x Hx. apply elem_zlook in Hx as [j Hj].
    apply (Hb j); [zidx|done].
Qed.

Lemma list_last_case (l : list A) : l = [] \/ exists l' x, l = l' ++ [x].
Proof. destruct l as [|x l _] using rev_ind; [by left|right; eauto]. Qed.

Lemma owned_get (p : ptr A) cap es l i x (Q : A -> Prop) :
  owns p cap es l -> zlook l i = Some x -> Q x -> wp (get_elem p i) Q.
Proof.
  intros Ho Hx HQ. destruct p as [|b|]; [|by destruct Ho as (_ & _ & _ & S); eapply wp_get_elem; [apply S|]|done].
  destruct Ho as [_ ->]. by rewrite zlook_nil in Hx.
Qed.

Lemma owns_prefix (p : ptr A) cap es l x : owns p cap es (l ++ [x]) -> owns p cap es l.
Proof.
  destruct p as [|b|]; simpl; [|intros (? & ? & ? & [S _]%stored_prefix); auto|done].
  intros [_ E]. by destruct l.
Qed.
End Helpers.
