(* ===== verification/SList.v ===== *)
(** The singly linked list of [libs/structures/slist/scl_slist.c], over a store
    of nodes, refined to a list. *)

From stdpp Require Import gmap.
From S2P Require Import Prelude Core Store Refine Containers.
#[local] Open Scope Z_scope.

(** [sizeof(scl_slist_node_t)]: the link; the element follows it. *)
Definition SLIST_NODE_SIZE : Z := 8.

Record scl_slist_node_t (A : Type) : Type := SNode { sn_next : addr; sn_data : A }.
Arguments SNode {A}.
Arguments sn_next {A}.
Arguments sn_data {A}.

Record scl_slist_t : Type := SList {
  sl_head : addr;
  sl_tail : addr;
  sl_element_size : Z;
  sl_count : Z
}.

Section Defs.
Context {A : Type} (al : scl_allocator_t).
Notation mem := (mem (scl_slist_node_t A)).
Implicit Types (m : mem) (list : option scl_slist_t).

Definition scl_slist_init list (element_size : Z) : scl_error_t * option scl_slist_t :=
  match list with
  | None => (SCL_ERR_NULL_PTR, None)
  | Some l =>
      if element_size =? 0 then (SCL_ERR_INVALID_ARG, Some l)
      else (SCL_OK, Some (SList None None element_size 0))
  end.

Definition scl_slist_destroy m list : res (option scl_slist_t * mem) :=
  match list with
  | None => mret (None, m)
  | Some (SList head tail es count) =>
      m ← loop (S (Z.to_nat count))
        (fun '(cur, m) =>
           match cur with
           | None => mret (inr m)
           | Some _ =>
               node ← load m cur;
               let next := sn_next node in
               m ← free_node m cur;
               mret (inl (next, m))
           end) (head, m);
      mret (Some (SList None None es 0), m)
  end.

Definition scl_slist_create_node m (data : A) (element_size : Z) : scl_error_t * addr * mem :=
  match scl_add_overflow SLIST_NODE_SIZE element_size with
  | None => (SCL_ERR_SIZE_OVERFLOW, None, m)
  | Some node_sz =>
      match alloc_node al m node_sz (SNode None data) with
      | (None, m) => (SCL_ERR_OUT_OF_MEMORY, None, m)
      | (node, m) => (SCL_OK, node, m)
      end
  end.

Definition scl_slist_push_front m list (element : option A)
    : res (scl_error_t * option scl_slist_t * mem) :=
  match list, element with
  | Some (SList head tail es count), Some element =>
      let '(err, node, m) := scl_slist_create_node m element es in
      if decide (err = SCL_OK) then
        n ← load m node;
        m ← store m node (SNode head (sn_data n));
        let tail := match tail with None => node | _ => tail end in
        mret (SCL_OK, Some (SList node tail es (u64 (count + 1))), m)
      else mret (err, list, m)
  | _, _ => mret (SCL_ERR_NULL_PTR, list, m)
  end.

Definition scl_slist_push_back m list (element : option A)
    : res (scl_error_t * option scl_slist_t * mem) :=
  match list, element with
  | Some (SList head tail es count), Some element =>
      let '(err, node, m) := scl_slist_create_node m element es in
      if decide (err = SCL_OK) then
        '(head, m) ←
          match tail with
          | Some _ => n ← load m tail; m ← store m tail (SNode node (sn_data n)); mret (head, m)
          | None => mret (node, m)
          end;
        mret (SCL_OK, Some (SList head node es (u64 (count + 1))), m)
      else mret (err, list, m)
  | _, _ => mret (SCL_ERR_NULL_PTR, list, m)
  end.

Definition scl_slist_pop_front m list (out : bool)
    : res (scl_error_t * option A * option scl_slist_t * mem) :=
  match list, out with
  | Some (SList head tail es count), true =>
      match head with
      | None => mret (SCL_ERR_EMPTY, None, list, m)
      | Some _ =>
          node ← load m head;
          let x := sn_data node in
          let new_head := sn_next node in
          let tail := match new_head with None => None | _ => tail end in
          m ← free_node m head;
          mret (SCL_OK, Some x, Some (SList new_head tail es (u64 (count - 1))), m)
      end
  | _, _ => mret (SCL_ERR_NULL_PTR, None, list, m)
  end.

Definition scl_slist_front m list (out : bool) : res (scl_error_t * option A) :=
  match list, out with
  | Some l, true =>
      match sl_head l with
      | None => mret (SCL_ERR_EMPTY, None)
      | node => n ← load m node; mret (SCL_OK, Some (sn_data n))
      end
  | _, _ => mret (SCL_ERR_NULL_PTR, None)
  end.

Definition scl_slist_back m list (out : bool) : res (scl_error_t * option A) :=
  match list, out with
  | Some l, true =>
      match sl_tail l with
      | None => mret (SCL_ERR_EMPTY, None)
      | node => n ← load m node; mret (SCL_OK, Some (sn_data n))
      end
  | _, _ => mret (SCL_ERR_NULL_PTR, None)
  end.

Definition scl_slist_count list : Z := match list with Some l => sl_count l | None => 0 end.
Definition scl_slist_empty list : bool := match list with Some l => sl_count l =? 0 | None => true end.

Definition scl_slist_remove m list (element : option A) (cmp : option (A -> A -> Z))
    : res (scl_error_t * option scl_slist_t * mem) :=
  match list, element, cmp with
  | Some (SList head tail es count), Some element, Some cmp =>
      loop (S (Z.to_nat count))
        (fun '(prev, cur) =>
           match cur with
           | None => mret (inr (SCL_ERR_NOT_FOUND, list, m))
           | Some _ =>
               node ← load m cur;
               if cmp (sn_data node) element =? 0 then
                 '(head, m) ←
                   match prev with
                   | Some _ => p ← load m prev; m ← store m prev (SNode (sn_next node) (sn_data p)); mret (head, m)
                   | None => mret (sn_next node, m)
                   end;
                 let tail := if decide (cur = tail) then prev else tail in
                 m ← free_node m cur;
                 mret (inr (SCL_OK, Some (SList head tail es (u64 (count - 1))), m))
               else mret (inl (cur, sn_next node))
           end) (None, head)
  | _, _, _ => mret (SCL_ERR_NULL_PTR, list, m)
  end.

Definition scl_slist_search m list (key : option A) (cmp : option (A -> A -> Z)) (out : bool)
    : res (scl_error_t * option A) :=
  match list, key, cmp, out with
  | Some (SList head tail es count), Some key, Some cmp, true =>
      loop (S (Z.to_nat count))
        (fun cur =>
           match cur with
           | None => mret (inr (SCL_ERR_NOT_FOUND, None))
           | Some _ =>
               node ← load m cur;
               if cmp (sn_data node) key =? 0 then mret (inr (SCL_OK, Some (sn_data node)))
               else mret (inl (sn_next node))
           end) head
  | _, _, _, _ => mret (SCL_ERR_NULL_PTR, None)
  end.
End Defs.

(** ** The operations as one step function *)
Inductive slist_op (A : Type) : Type :=
| LPushFront (element : option A)
| LPushBack (element : option A)
| LPopFront (out : bool)
| LFront (out : bool)
| LBack (out : bool)
| LCount
| LEmpty
| LRemove (element : option A) (cmp : option (A -> A -> Z))
| LSearch (key : option A) (cmp : option (A -> A -> Z)) (out : bool).
Arguments LPushFront {A}.
Arguments LPushBack {A}.
Arguments LPopFront {A}.
Arguments LFront {A}.
Arguments LBack {A}.
Arguments LCount {A}.
Arguments LEmpty {A}.
Arguments LRemove {A}.
Arguments LSearch {A}.

Section Step.
Context {A : Type} (al : scl_allocator_t).

Definition slist_step (st : option scl_slist_t * mem (scl_slist_node_t A)) (op : slist_op A)
    : res (reply A * (option scl_slist_t * mem (scl_slist_node_t A))) :=
  let '(s, m) := st in
  match op with
  | LPushFront x => '(e, s, m) ← scl_slist_push_front al m s x; mret (Code e, (s, m))
  | LPushBack x => '(e, s, m) ← scl_slist_push_back al m s x; mret (Code e, (s, m))
  | LPopFront out => '(e, x, s, m) ← scl_slist_pop_front m s out; mret (value_or e x, (s, m))
  | LFront out => '(e, x) ← scl_slist_front m s out; mret (value_or e x, (s, m))
  | LBack out => '(e, x) ← scl_slist_back m s out; mret (value_or e x, (s, m))
  | LCount => mret (Size (scl_slist_count s), (s, m))
  | LEmpty => mret (Flag (scl_slist_empty s), (s, m))
  | LRemove x cmp => '(e, s, m) ← scl_slist_remove m s x cmp; mret (Code e, (s, m))
  | LSearch key cmp out => '(e, x) ← scl_slist_search m s key cmp out; mret (value_or e x, (s, m))
  end.

(** ** The abstract list.  Removal and search take the first element equal to
    the key. *)
Inductive slist_spec : list A -> slist_op A -> reply A -> list A -> Prop :=
| sls_push_front l x : slist_spec l (LPushFront (Some x)) (Code SCL_OK) (x :: l)
| sls_push_back l x : slist_spec l (LPushBack (Some x)) (Code SCL_OK) (l ++ [x])
| sls_refused l op x e :
    op = LPushFront (Some x) \/ op = LPushBack (Some x) ->
    e = SCL_ERR_SIZE_OVERFLOW \/ e = SCL_ERR_OUT_OF_MEMORY -> slist_spec l op (Code e) l
| sls_pop l x : slist_spec (x :: l) (LPopFront true) (Value x) l
| sls_front l x : slist_spec (x :: l) (LFront true) (Value x) (x :: l)
| sls_back l x : slist_spec (l ++ [x]) (LBack true) (Value x) (l ++ [x])
| sls_none op : op = LPopFront true \/ op = LFront true \/ op = LBack true ->
    slist_spec [] op (Code SCL_ERR_EMPTY) []
| sls_count l : slist_spec l LCount (Size (zlen l)) l
| sls_empty l : slist_spec l LEmpty (Flag (bool_decide (l = []))) l
| sls_remove l1 x l2 key cmp :
    (forall y, y ∈ l1 -> cmp y key <> 0) -> cmp x key = 0 ->
    slist_spec (l1 ++ x :: l2) (LRemove (Some key) (Some cmp)) (Code SCL_OK) (l1 ++ l2)
| sls_search l1 x l2 key cmp :
    (forall y, y ∈ l1 -> cmp y key <> 0) -> cmp x key = 0 ->
    slist_spec (l1 ++ x :: l2) (LSearch (Some key) (Some cmp) true) (Value x) (l1 ++ x :: l2)
| sls_absent l key cmp op :
    op = LRemove (Some key) (Some cmp) \/ op = LSearch (Some key) (Some cmp) true ->
    (forall y, y ∈ l -> cmp y key <> 0) -> slist_spec l op (Code SCL_ERR_NOT_FOUND) l
| sls_null l op :
    match op with
    | LPushFront None | LPushBack None | LPopFront false | LFront false | LBack false
    | LRemove None _ | LRemove _ None | LSearch None _ _ | LSearch _ None _ | LSearch _ _ false => True
    | _ => False
    end -> slist_spec l op (Code SCL_ERR_NULL_PTR) l.
End Step.

(** ** Segments

    [lseg h p ns q]: following the links from [p] meets the nodes [ns]
    (address and element) and arrives at [q]. *)
Section Segments.
Context {A : Type}.
Implicit Types (h : gmap positive (scl_slist_node_t A)) (ns : list (positive * A)).

Fixpoint lseg h (p : addr) ns (q : addr) : Prop :=
  match ns with
  | [] => p = q
  | (a, x) :: ns => p = Some a /\ exists nx, h !! a = Some (SNode nx x) /\ lseg h nx ns q
  end.

Lemma lseg_app h p ns1 ns2 q : lseg h p (ns1 ++ ns2) q <-> exists r, lseg h p ns1 r /\ lseg h r ns2 q.
Proof.
  revert p. induction ns1 as [|[a x] ns1 IH]; intros p; simpl; [naive_solver|].
  setoid_rewrite IH. naive_solver.
Qed.

Lemma lseg_frame h h' p ns q :
  (forall a, a ∈ ns.*1 -> h' !! a = h !! a) -> lseg h p ns q -> lseg h' p ns q.
Proof.
  revert p. induction ns as [|[a x] ns IH]; intros p E; [done|]. simpl.
  intros (-> & nx & Ha & Hs). split; [done|]. exists nx. rewrite E by (simpl; set_solver).
  split; [done|]. apply IH; [|done]. intros b Hb. apply E. simpl. set_solver.
Qed.

Lemma lseg_insert h p ns q a n : a ∉ ns.*1 -> lseg h p ns q -> lseg (<[a := n]> h) p ns q.
Proof. intros Ha. apply lseg_frame. intros b Hb. by rewrite lookup_insert_ne by set_solver. Qed.

Lemma lseg_delete h p ns q a : a ∉ ns.*1 -> lseg h p ns q -> lseg (delete a h) p ns q.
Proof. intros Ha. apply lseg_frame. intros b Hb. by rewrite lookup_delete_ne by set_solver. Qed.

(** Redirecting the link of the last node. *)
Lemma lseg_relink h p ns a x q q' :
  NoDup (ns ++ [(a, x)]).*1 -> lseg h p (ns ++ [(a, x)]) q ->
  lseg (<[a := SNode q' x]> h) p (ns ++ [(a, x)]) q'.
Proof.
  rewrite fmap_app, NoDup_app. intros (_ & Hd & _). rewrite !lseg_app. intros (r & H1 & H2).
  exists r. destruct H2 as (-> & nx & Ha & _). split.
  - apply lseg_insert; [|done]. intros Hin. apply (Hd a Hin). set_solver.
  - split; [done|]. exists q'. by rewrite lookup_insert_eq.
Qed.

Lemma lseg_end h p ns : lseg h p ns None -> (p = None <-> ns = []).
Proof. destruct ns as [|[a x] ns]; simpl; [done|]. intros (-> & _). done. Qed.

Lemma last_snoc_fst ns a x : last (ns ++ [(a, x)]).*1 = Some a.
Proof. rewrite fmap_app. apply last_snoc. Qed.
End Segments.

Lemma nodes_last_case {A} (ns : list (positive * A)) : ns = [] \/ exists ns' a x, ns = ns' ++ [(a, x)].
Proof. destruct ns as [|[a x] ns' _] using rev_ind; [by left|right; eauto]. Qed.

Lemma zlen_fst {A B} (l : list (A * B)) : zlen l.*1 = zlen l.
Proof. apply zlen_map. Qed.
Lemma zlen_snd {A B} (l : list (A * B)) : zlen l.*2 = zlen l.
Proof. apply zlen_map. Qed.

(** The last address after a node was taken out. *)
Lemma last_without (k1 k2 : list positive) c :
  NoDup (k1 ++ c :: k2) ->
  (if decide (Some c = last (k1 ++ c :: k2)) then last k1 else last (k1 ++ c :: k2)) = last (k1 ++ k2).
Proof.
  intros Hd. destruct k2 as [|b k2 _] using rev_ind.
  { rewrite last_snoc, app_nil_r. by destruct (decide _). }
  rewrite app_comm_cons, !app_assoc, !last_snoc. destruct (decide _) as [[= <-]|]; [|done]. exfalso.
  apply NoDup_app in Hd as (_ & _ & [Hc _]%NoDup_cons). apply Hc. set_solver.
Qed.

Section Rep.
Context {A : Type} (al : scl_allocator_t).
Notation mem := (mem (scl_slist_node_t A)).
Context (es : Z) (base : mem).
Implicit Types (m : mem) (ns : list (positive * A)) (l : list A).

Record rep_of (s : scl_slist_t) m ns : Prop := {
  rep_es : sl_element_size s = es;
  rep_seg : lseg (m_nodes m) (sl_head s) ns None;
  rep_tail : sl_tail s = last ns.*1;
  rep_count : sl_count s = zlen ns;
  rep_holds : holds base m ns.*1;
  rep_fits : zlen ns <= PTRDIFF_MAX
}.

Definition slist_rep (st : option scl_slist_t * mem) l : Prop :=
  exists s ns, st.1 = Some s /\ rep_of s st.2 ns /\ ns.*2 = l.

Lemma wp_create m (l : list positive) x (Q : scl_error_t * addr * mem -> Prop) :
  1 <= es < 2 ^ 64 -> holds base m l ->
  (forall a m', a ∉ l -> m_nodes m !! a = None -> m_nodes m' = <[a := SNode None x]> (m_nodes m) ->
     holds base m' (a :: l) -> zlen l < PTRDIFF_MAX -> Q (SCL_OK, Some a, m')) ->
  (forall e m', e = SCL_ERR_SIZE_OVERFLOW \/ e = SCL_ERR_OUT_OF_MEMORY ->
     m_nodes m' = m_nodes m -> holds base m' l -> Q (e, None, m')) ->
  Q (scl_slist_create_node al m x es).
Proof.
  intros Hes H HQ1 HQ2. unfold scl_slist_create_node. destruct (scl_add_overflow _ _) as [sz|]; [|by apply HQ2; auto].
  apply (wp_alloc_node al base m l sz (SNode None x)); [done| |].
  - intros. by apply HQ1.
  - intros. apply HQ2; auto.
Qed.

Lemma wp_slist_push_front s m ns x (Q : scl_error_t * option scl_slist_t * mem -> Prop) :
  1 <= es < 2 ^ 64 -> rep_of s m ns ->
  (forall a s' m', rep_of s' m' ((a, x) :: ns) -> Q (SCL_OK, Some s', m')) ->
  (forall e m', e = SCL_ERR_SIZE_OVERFLOW \/ e = SCL_ERR_OUT_OF_MEMORY -> rep_of s m' ns -> Q (e, Some s, m')) ->
  wp (scl_slist_push_front al m (Some s) (Some x)) Q.
Proof.
  intros Hes [E1 Hs E3 E4 Hh Hf] HQ1 HQ2. destruct s as [hd tl es' cnt]. simpl in *. subst es' tl cnt.
  unfold scl_slist_push_front. apply (wp_create m ns.*1 x); [done|done| |].
  - intros a m' Ha Hn Em Hh' Hz. rewrite zlen_fst in Hz. destruct (decide _); [|done]. wstep.
    eapply wp_load_node; [rewrite Em; apply lookup_insert_eq|]. wstep.
    eapply wp_store_node; [rewrite Em; apply lookup_insert_eq|]. wstep. apply (HQ1 a). simpl.
    rewrite Em, insert_insert_eq. pose proof (zlen_nonneg ns). unfold PTRDIFF_MAX in *. split; simpl; try done.
    + split; [done|]. exists hd. rewrite lookup_insert_eq. split; [done|]. by apply lseg_insert.
    + change (list_fmap _ _ fst ns) with (ns.*1). rewrite last_cons. by destruct (last ns.*1).
    + rewrite u64_small by lia. by rewrite zlen_cons.
    + eapply holds_update in Hh'; [|by left]. rewrite Em, insert_insert_eq in Hh'. exact Hh'.
    + rewrite zlen_cons. unfold PTRDIFF_MAX. lia.
  - intros e m' He Em Hh'. destruct (decide (e = SCL_OK)) as [->|]; [by destruct He|]. wstep.
    apply HQ2; [done|]. split; simpl; (done || by rewrite Em).
Qed.

Lemma wp_slist_push_back s m ns x (Q : scl_error_t * option scl_slist_t * mem -> Prop) :
  1 <= es < 2 ^ 64 -> rep_of s m ns ->
  (forall a s' m', rep_of s' m' (ns ++ [(a, x)]) -> Q (SCL_OK, Some s', m')) ->
  (forall e m', e = SCL_ERR_SIZE_OVERFLOW \/ e = SCL_ERR_OUT_OF_MEMORY -> rep_of s m' ns -> Q (e, Some s, m')) ->
  wp (scl_slist_push_back al m (Some s) (Some x)) Q.
Proof.
  intros Hes [E1 Hs E3 E4 Hh Hf] HQ1 HQ2. destruct s as [hd tl es' cnt]. simpl in *. subst es' tl cnt.
  unfold scl_slist_push_back. apply (wp_create m ns.*1 x); [done|done| |].
  - intros a m' Ha Hn Em Hh' Hz. rewrite zlen_fst in Hz. destruct (decide _); [|done].
    pose proof (zlen_nonneg ns). unfold PTRDIFF_MAX in *.
    assert (forall hd' m'', lseg (m_nodes m'') hd' (ns ++ [(a, x)]) None -> holds base m'' (a :: ns.*1) ->
      Q (SCL_OK, Some (SList hd' (Some a) es (u64 (zlen ns + 1))), m'')) as Hdone.
    { intros hd' m'' Hseg Hh''. apply (HQ1 a). split; simpl; try done.
      - by rewrite last_snoc_fst.
      - rewrite u64_small, zlen_app by lia. done.
      - rewrite fmap_app. eapply holds_perm; [|done]. by rewrite Permutation_app_comm.
      - rewrite zlen_app. change (zlen [(a, x)]) with 1. unfold PTRDIFF_MAX. lia. }
    destruct (nodes_last_case ns) as [->|(ns' & b & y & ->)]; [|rewrite last_snoc_fst in *].
    + simpl in *. subst hd. apply Hdone; [|done]. split; [done|]. exists None.
      by rewrite Em, lookup_insert_eq.
    + assert (b <> a) by (intros ->; apply Ha; rewrite fmap_app; set_solver).
      destruct (proj1 (lseg_app _ _ _ _ _) Hs) as (r & _ & _ & nx & Hb & _).
      wstep. wstep. eapply wp_load_node; [rewrite Em, lookup_insert_ne by done; exact Hb|]. wstep.
      eapply wp_store_node; [rewrite Em, lookup_insert_ne by done; exact Hb|]. wstep. wstep.
      apply Hdone; [|eapply holds_update; [|done]; rewrite fmap_app; set_solver].
      simpl. rewrite Em. rewrite lseg_app. exists (Some a). split.
      * apply (lseg_relink _ _ _ _ _ None); [apply Hh|]. by apply lseg_insert.
      * split; [done|]. exists None. by rewrite lookup_insert_ne, lookup_insert_eq.
  - intros e m' He Em Hh'. destruct (decide (e = SCL_OK)) as [->|]; [by destruct He|]. wstep.
    apply HQ2; [done|]. split; simpl; (done || by rewrite Em).
Qed.

Lemma wp_pop_front s m a x ns (Q : scl_error_t * option A * option scl_slist_t * mem -> Prop) :
  rep_of s m ((a, x) :: ns) ->
  (forall s' m', rep_of s' m' ns -> Q (SCL_OK, Some x, Some s', m')) ->
  wp (scl_slist_pop_front m (Some s) true) Q.
Proof.
  intros [E1 Hs E3 E4 Hh Hf] HQ. destruct s as [hd tl es' cnt]. simpl in *.
  destruct Hs as (-> & nx & Ha & Hs). subst es' tl cnt. pose proof (holds_nodup _ _ _ _ Hh) as [Hn _]%NoDup_cons.
  wstep. eapply wp_load_node; [done|]. wstep. eapply wp_free_node; [done|]. intros m' Em Hh'. wstep.
  pose proof (lseg_end _ _ _ Hs) as He. rewrite zlen_cons in *. pose proof (zlen_nonneg ns).
  unfold PTRDIFF_MAX in *. apply HQ. split; simpl; try done.
  - rewrite Em. by apply lseg_delete.
  - destruct ns as [|[b y] ns]; simpl in *; [by rewrite Hs|]. by destruct Hs as (-> & _).
  - rewrite u64_small by lia. lia.
  - unfold PTRDIFF_MAX. lia.
Qed.

Lemma wp_remove s m ns key cmp (Q : scl_error_t * option scl_slist_t * mem -> Prop) :
  rep_of s m ns ->
  (forall ns1 a x ns2 s' m', ns = ns1 ++ (a, x) :: ns2 -> (forall y, y ∈ ns1.*2 -> cmp y key <> 0) ->
     cmp x key = 0 -> rep_of s' m' (ns1 ++ ns2) -> Q (SCL_OK, Some s', m')) ->
  ((forall y, y ∈ ns.*2 -> cmp y key <> 0) -> Q (SCL_ERR_NOT_FOUND, Some s, m)) ->
  wp (scl_slist_remove m (Some s) (Some key) (Some cmp)) Q.
Proof.
  intros R HQ1 HQ2. pose proof R as [E1 Hs E3 E4 Hh Hf]. destruct s as [hd tl es' cnt]. simpl in E1, Hs, E3, E4.
  subst es' tl cnt. pose proof (zlen_nonneg ns).
  apply (wp_loop_rel (fun k '(prev, cur) => exists ns1 ns2, ns = ns1 ++ ns2 /\ k = zlen ns2 /\
    prev = last ns1.*1 /\ lseg (m_nodes m) hd ns1 cur /\ lseg (m_nodes m) cur ns2 None /\
    (forall y, y ∈ ns1.*2 -> cmp y key <> 0)) (zlen ns)).
  - exists [], ns. simpl. repeat split; (done || set_solver).
  - lia.
  - lia.
  - intros k [prev cur] (ns1 & ns2 & -> & -> & -> & Hs1 & Hs2 & Hno).
    destruct ns2 as [|[c y] ns2]; simpl in Hs2.
    { subst cur. wstep. apply HQ2. by rewrite app_nil_r. }
    destruct Hs2 as (-> & nx & Hc & Hs2). wstep. eapply wp_load_node; [done|]. cbn [sn_data sn_next].
    destruct (Z.eqb_spec (cmp y key) 0) as [Hy|Hy].
    2:{ wstep. exists (zlen ns2). rewrite zlen_cons. pose proof (zlen_nonneg ns2). split; [lia|].
        exists (ns1 ++ [(c, y)]), ns2. rewrite last_snoc_fst, <- app_assoc. repeat split; try done.
        - apply lseg_app. exists (Some c). split; [done|]. split; [done|]. by exists nx.
        - intros z. rewrite fmap_app, elem_of_app. intros [?|?%list_elem_of_singleton]; [by apply Hno|by subst]. }
    pose proof (holds_nodup _ _ _ _ Hh) as Hd. rewrite fmap_app in Hd. simpl in Hd.
    assert (forall hd' m', lseg (m_nodes m') hd' ns1 nx -> lseg (m_nodes m') nx ns2 None ->
      holds base m' (ns1 ++ (c, y) :: ns2).*1 ->
      wp (m' ← free_node m' (Some c);
          mret (inr (A := option positive * option positive) (SCL_OK, Some (SList hd' (if decide (Some c = last (ns1 ++ (c, y) :: ns2).*1)
             then last ns1.*1 else last (ns1 ++ (c, y) :: ns2).*1) es (u64 (zlen (ns1 ++ (c, y) :: ns2) - 1))), m')))
        (fun r => match r with inl _ => False | inr r => Q r end)) as Hdone.
    { intros hd' m' H1 H2 Hh'. wstep. rewrite fmap_app in Hh'. simpl in Hh'.
      eapply wp_free_node; [eapply holds_perm; [|done]; symmetry; apply Permutation_middle|].
      intros m'' Em Hh''. wstep. apply (HQ1 ns1 c y ns2 _ _ eq_refl Hno Hy).
      rewrite zlen_app, zlen_cons in *. pose proof (zlen_nonneg ns1). pose proof (zlen_nonneg ns2).
      unfold PTRDIFF_MAX in *. apply NoDup_app in Hd as (Hd1 & Hd2 & [Hd3 Hd4]%NoDup_cons).
      split; simpl; try done.
      - apply lseg_app. exists nx. rewrite Em. split; apply lseg_delete; try done.
        intros Hin. apply (Hd2 c Hin). set_solver.
      - rewrite !fmap_app. simpl. apply last_without. apply NoDup_app.
        split; [done|]. split; [done|]. by apply NoDup_cons.
      - rewrite u64_small by lia. rewrite zlen_app. lia.
      - by rewrite fmap_app.
      - rewrite zlen_app. unfold PTRDIFF_MAX. lia. }
    wstep. destruct (nodes_last_case ns1) as [->|(ns1' & b & z & ->)]; [|rewrite last_snoc_fst in *].
    + simpl in *. subst hd. eapply wp_mono; [by apply (Hdone nx m)|]. by intros [|].
    + apply NoDup_app in Hd as (Hd1 & Hd2 & [Hd3 Hd4]%NoDup_cons).
      destruct (proj1 (lseg_app _ _ _ _ _) Hs1) as (r & _ & _ & nb & Hb & _).
      wstep. eapply wp_load_node; [done|]. wstep. eapply wp_store_node; [done|]. wstep. cbn [sn_data].
      eapply wp_mono; [apply Hdone|by intros [|]].
      * by apply (lseg_relink _ _ _ _ _ (Some c)).
      * apply lseg_insert; [|done]. intros Hin. apply (Hd2 b); [rewrite fmap_app; set_solver|set_solver].
      * eapply holds_update; [|done]. rewrite !fmap_app. set_solver.
Qed.

Lemma wp_slist_search s m ns key cmp (Q : scl_error_t * option A -> Prop) :
  rep_of s m ns ->
  (forall ns1 a x ns2, ns = ns1 ++ (a, x) :: ns2 -> (forall y, y ∈ ns1.*2 -> cmp y key <> 0) ->
     cmp x key = 0 -> Q (SCL_OK, Some x)) ->
  ((forall y, y ∈ ns.*2 -> cmp y key <> 0) -> Q (SCL_ERR_NOT_FOUND, None)) ->
  wp (scl_slist_search m (Some s) (Some key) (Some cmp) true) Q.
Proof.
  intros [E1 Hs E3 E4 Hh Hf] HQ1 HQ2. destruct s as [hd tl es' cnt]. simpl in E1, Hs, E3, E4. subst es' tl cnt.
  pose proof (zlen_nonneg ns).
  apply (wp_loop_rel (fun k cur => exists ns1 ns2, ns = ns1 ++ ns2 /\ k = zlen ns2 /\
    lseg (m_nodes m) cur ns2 None /\ (forall y, y ∈ ns1.*2 -> cmp y key <> 0)) (zlen ns)).
  - exists [], ns. simpl. repeat split; (done || set_solver).
  - lia.
  - lia.
  - intros k cur (ns1 & ns2 & -> & -> & Hs2 & Hno). destruct ns2 as [|[c y] ns2]; simpl in Hs2.
    { subst cur. wstep. apply HQ2. by rewrite app_nil_r. }
    destruct Hs2 as (-> & nx & Hc & Hs2). wstep. eapply wp_load_node; [done|]. cbn [sn_data sn_next].
    destruct (Z.eqb_spec (cmp y key) 0) as [Hy|Hy]; wstep; [by eapply HQ1|].
    exists (zlen ns2). rewrite zlen_cons. pose proof (zlen_nonneg ns2). split; [lia|].
    exists (ns1 ++ [(c, y)]), ns2. rewrite <- app_assoc. repeat split; try done.
    intros z. rewrite fmap_app, elem_of_app. intros [?|?%list_elem_of_singleton]; [by apply Hno|by subst].
Qed.

Lemma slist_destroy_spec st l :
  slist_rep st l ->
  exists m', scl_slist_destroy st.2 st.1 = Ok (Some (SList None None es 0), m') /\
    m_nodes m' = m_nodes base /\ live m' = live base.
Proof.
  intros (s & ns & E & [E1 Hs E3 E4 Hh Hf] & _). destruct st as [s0 m]. cbn [fst snd] in *. subst s0.
  destruct s as [hd tl es' cnt]. simpl in E1, Hs, E3, E4. subst es' tl cnt.
  enough (wp (scl_slist_destroy m (Some (SList hd (last ns.*1) es (zlen ns))))
    (fun '(s, m') => s = Some (SList None None es 0) /\ m_nodes m' = m_nodes base /\ live m' = live base))
    as ([s' m'] & -> & -> & H)%wp_ok by (by exists m').
  pose proof (zlen_nonneg ns). unfold scl_slist_destroy. wstep.
  apply (wp_loop_rel (fun k '(cur, m) => exists ns, k = zlen ns /\ lseg (m_nodes m) cur ns None /\
    holds base m ns.*1) (zlen ns)).
  - by exists ns.
  - lia.
  - lia.
  - clear. intros k [cur m] (ns & -> & Hs & Hh). destruct ns as [|[a x] ns]; simpl in *.
    { subst cur. simpl. split; [done|]. by apply (holds_none 1). }
    destruct Hs as (-> & nx & Ha & Hs). wstep. eapply wp_load_node; [done|]. wstep.
    pose proof (holds_nodup _ _ _ _ Hh) as [Hn _]%NoDup_cons.
    eapply wp_free_node; [done|]. intros m' Em Hh'. wstep. exists (zlen ns). rewrite zlen_cons.
    pose proof (zlen_nonneg ns). split; [lia|]. exists ns. split; [done|]. split; [|done].
    rewrite Em. by apply lseg_delete.
Qed.


Lemma slist_simulates : 1 <= es < 2 ^ 64 -> Simulates (slist_step (A := A) al) slist_spec slist_rep.
Proof.
  intros Hes [s0 m] l op (s & ns & E & R & <-). cbn [fst snd] in *. subst s0.
  pose proof R as [_ Hseg Htl Hcnt _ _].
  assert (slist_rep (Some s, m) ns.*2) as R0 by (exists s, ns; done).
  destruct op as [[x|]|[x|]|[|]|[|]|[|]| | |[key|] [cmp|]|[key|] [cmp|] [|]];
    try (destruct s; exists ns.*2; split; [by constructor|exact R0]); cbn [slist_step].
  - wstep. eapply wp_slist_push_front; [done..| |].
    + intros a s' m' R'. wstep. exists (x :: ns.*2). split; [constructor|]. by exists s', ((a, x) :: ns).
    + intros e m' He R'. wstep. exists ns.*2. split; [by eapply sls_refused; eauto|]. by exists s, ns.
  - wstep. eapply wp_slist_push_back; [done..| |].
    + intros a s' m' R'. wstep. exists (ns.*2 ++ [x]). split; [constructor|]. exists s', (ns ++ [(a, x)]).
      by rewrite fmap_app.
    + intros e m' He R'. wstep. exists ns.*2. split; [by eapply sls_refused; eauto|]. by exists s, ns.
  - wstep. destruct ns as [|[a x] ns].
    + destruct s as [hd tl es' cnt]. simpl in Hseg. subst hd. simpl. exists []. split; [apply sls_none; auto|done].
    + eapply wp_pop_front; [done|]. intros s' m' R'. wstep. exists ns.*2. split; [constructor|]. by exists s', ns.
  - unfold scl_slist_front. destruct ns as [|[a x] ns]; simpl in Hseg.
    + rewrite Hseg. simpl. exists []. split; [apply sls_none; auto|done].
    + destruct Hseg as (E & nx & Ha & _). rewrite E. wstep. wstep. eapply wp_load_node; [done|]. wstep. wstep.
      exists (x :: ns.*2). split; [constructor|done].
  - unfold scl_slist_back. destruct (nodes_last_case ns) as [->|(ns' & a & x & ->)].
    + simpl in Htl. rewrite Htl. simpl. exists []. split; [apply sls_none; auto|done].
    + rewrite last_snoc_fst in Htl. rewrite Htl.
      destruct (proj1 (lseg_app _ _ _ _ _) Hseg) as (r & _ & _ & nx & Ha & _).
      wstep. wstep. eapply wp_load_node; [done|]. wstep. wstep. rewrite fmap_app in *.
      exists (ns'.*2 ++ [x]). split; [constructor|done].
  - exists ns.*2. split; [|done]. simpl. rewrite Hcnt, <- zlen_snd. constructor.
  - exists ns.*2. split; [|done]. simpl. rewrite Hcnt.
    replace (zlen ns =? 0) with (bool_decide (ns.*2 = [])); [constructor|].
    destruct ns; [done|]. rewrite zlen_cons. pose proof (zlen_nonneg ns). by bcase; [lia|].
  - wstep. eapply wp_remove; [done| |].
    + intros ns1 a x ns2 s' m' -> Hno Hx R'. wstep. exists (ns1 ++ ns2).*2. rewrite !fmap_app.
      split; [by constructor|]. exists s', (ns1 ++ ns2). by rewrite fmap_app.
    + intros Hno. wstep. exists ns.*2. split; [|done]. eapply sls_absent; eauto.
  - wstep. eapply wp_slist_search; [done| |].
    + intros ns1 a x ns2 -> Hno Hx. wstep. exists (ns1 ++ (a, x) :: ns2).*2. split; [|done].
      rewrite fmap_app. by constructor.
    + intros Hno. wstep. exists ns.*2. split; [|done]. eapply sls_absent; eauto.
Qed.
End Rep.

(** C31. The singly linked list refines a list: from a successful
    initialisation, in a store that may hold anything else, every sequence of
    operations, whatever the allocator answers, runs without following [NULL]
    or a dangling pointer, answers as the abstract list does (insertion is
    refused only for lack of memory and then changes nothing, removal takes
    out the first element equal to the key), leaves every other node alone,
    and destroying the list afterwards gives back exactly the nodes and blocks
    there were before. *)
Theorem slist_refines {A} (al : scl_allocator_t) (m0 : mem (scl_slist_node_t A)) (s0 : scl_slist_t)
  (es : Z) (ops : list (slist_op A)) (Hes : 1 <= es < 2 ^ 64) :
  exists s1, scl_slist_init (Some s0) es = (SCL_OK, Some s1) /\
  exists outs s2 m2 l m3, run (slist_step al) (Some s1, m0) ops = Ok (outs, (s2, m2)) /\
    trace slist_spec [] ops outs l /\
    scl_slist_destroy m2 s2 = Ok (Some (SList None None es 0), m3) /\
    m_nodes m3 = m_nodes m0 /\ live m3 = live m0.
Proof.
  exists (SList None None es 0). unfold scl_slist_init. destruct (Z.eqb_spec es 0); [lia|]. split; [done|].
  assert (slist_rep es m0 (Some (SList None None es 0), m0) []) as R.
  { eexists _, []. split; [done|]. split; [|done]. split; try done. apply holds_nil. }
  pose proof (slist_simulates al es m0 Hes) as Sim.
  destruct (proj1 (wp_ok _ _) (run_refines _ _ _ _ [] ops R)) as ([outs [s2 m2]] & E & l & T & R2).
  destruct (slist_destroy_spec _ _ _ _ R2) as (m3 & E3 & H3). by exists outs, s2, m2, l, m3.
Qed.

Lemma slist_refines_witness :
  exists outs l, trace (slist_spec (A := Z)) []
    [LPushFront (Some 1); LPushBack (Some 2); LRemove (Some 1) (Some Zcmp)] outs l.
Proof.
  destruct (slist_refines small_allocator (Mem (World 0 0) ∅) (SList None None 0 0) 8
    [LPushFront (Some 1); LPushBack (Some 2); LRemove (Some 1) (Some Zcmp)] ltac:(lia))
    as (_ & _ & outs & _ & _ & l & _ & _ & T & _).
  exists outs, l. exact T.
Defined.
