(* ===== verification/DList.v ===== *)
(** The doubly linked list of [libs/structures/dlist/scl_dlist.c], over a store
    of nodes, refined to a list. *)

From stdpp Require Import gmap.
From S2P Require Import Prelude Core Store Refine Containers SList.
#[local] Open Scope Z_scope.

(** [sizeof(scl_dlist_node_t)]: two links. *)
Definition DLIST_NODE_SIZE : Z := 16.

Record scl_dlist_node_t (A : Type) : Type := DNode { dn_prev : addr; dn_next : addr; dn_data : A }.
Arguments DNode {A}.
Arguments dn_prev {A}.
Arguments dn_next {A}.
Arguments dn_data {A}.

Record scl_dlist_t : Type := DList {
  dl_head : addr;
  dl_tail : addr;
  dl_element_size : Z;
  dl_count : Z
}.

Section Defs.
Context {A : Type} (al : scl_allocator_t).
Notation mem := (mem (scl_dlist_node_t A)).
Implicit Types (m : mem) (list : option scl_dlist_t).

(** [p->next = q] and [p->prev = q]. *)
Definition set_next m (p q : addr) : res mem := n ← load m p; store m p (DNode (dn_prev n) q (dn_data n)).
Definition set_prev m (p q : addr) : res mem := n ← load m p; store m p (DNode q (dn_next n) (dn_data n)).

(** [if (p) p->next = q; else list->head = q;] *)
Definition link_left m (head p q : addr) : res (addr * mem) :=
  match p with
  | Some _ => m ← set_next m p q; mret (head, m)
  | None => mret (q, m)
  end.

(** [if (p) p->prev = q; else list->tail = q;] *)
Definition link_right m (tail p q : addr) : res (addr * mem) :=
  match p with
  | Some _ => m ← set_prev m p q; mret (tail, m)
  | None => mret (q, m)
  end.

Definition scl_dlist_init list (element_size : Z) : scl_error_t * option scl_dlist_t :=
  match list with
  | None => (SCL_ERR_NULL_PTR, None)
  | Some l =>
      if element_size =? 0 then (SCL_ERR_INVALID_ARG, Some l)
      else (SCL_OK, Some (DList None None element_size 0))
  end.

Definition scl_dlist_destroy m list : res (option scl_dlist_t * mem) :=
  match list with
  | None => mret (None, m)
  | Some (DList head tail es count) =>
      m ← loop (S (Z.to_nat count))
        (fun '(cur, m) =>
           match cur with
           | None => mret (inr m)
           | Some _ =>
               node ← load m cur;
               let next := dn_next node in
               m ← free_node m cur;
               mret (inl (next, m))
           end) (head, m);
      mret (Some (DList None None es 0), m)
  end.

Definition scl_dlist_create_node m (data : A) (element_size : Z) : scl_error_t * addr * mem :=
  match scl_add_overflow DLIST_NODE_SIZE element_size with
  | None => (SCL_ERR_SIZE_OVERFLOW, None, m)
  | Some node_sz =>
      match alloc_node al m node_sz (DNode None None data) with
      | (None, m) => (SCL_ERR_OUT_OF_MEMORY, None, m)
      | (node, m) => (SCL_OK, node, m)
      end
  end.

Definition scl_dlist_push_front m list (element : option A)
    : res (scl_error_t * option scl_dlist_t * mem) :=
  match list, element with
  | Some (DList head tail es count), Some element =>
      let '(err, node, m) := scl_dlist_create_node m element es in
      if decide (err = SCL_OK) then
        m ← set_next m node head;
        '(tail, m) ← link_right m tail head node;
        mret (SCL_OK, Some (DList node tail es (u64 (count + 1))), m)
      else mret (err, list, m)
  | _, _ => mret (SCL_ERR_NULL_PTR, list, m)
  end.

Definition scl_dlist_push_back m list (element : option A)
    : res (scl_error_t * option scl_dlist_t * mem) :=
  match list, element with
  | Some (DList head tail es count), Some element =>
      let '(err, node, m) := scl_dlist_create_node m element es in
      if decide (err = SCL_OK) then
        m ← set_prev m node tail;
        '(head, m) ← link_left m head tail node;
        mret (SCL_OK, Some (DList head node es (u64 (count + 1))), m)
      else mret (err, list, m)
  | _, _ => mret (SCL_ERR_NULL_PTR, list, m)
  end.

Definition scl_dlist_pop_front m list (out : bool)
    : res (scl_error_t * option A * option scl_dlist_t * mem) :=
  match list, out with
  | Some (DList head tail es count), true =>
      match head with
      | None => mret (SCL_ERR_EMPTY, None, list, m)
      | Some _ =>
          node ← load m head;
          let new_head := dn_next node in
          '(tail, m) ← link_right m tail new_head None;
          m ← free_node m head;
          mret (SCL_OK, Some (dn_data node), Some (DList new_head tail es (u64 (count - 1))), m)
      end
  | _, _ => mret (SCL_ERR_NULL_PTR, None, list, m)
  end.

Definition scl_dlist_pop_back m list (out : bool)
    : res (scl_error_t * option A * option scl_dlist_t * mem) :=
  match list, out with
  | Some (DList head tail es count), true =>
      match tail with
      | None => mret (SCL_ERR_EMPTY, None, list, m)
      | Some _ =>
          node ← load m tail;
          let new_tail := dn_prev node in
          '(head, m) ← link_left m head new_tail None;
          m ← free_node m tail;
          mret (SCL_OK, Some (dn_data node), Some (DList head new_tail es (u64 (count - 1))), m)
      end
  | _, _ => mret (SCL_ERR_NULL_PTR, None, list, m)
  end.

Definition scl_dlist_front m list (out : bool) : res (scl_error_t * option A) :=
  match list, out with
  | Some l, true =>
      match dl_head l with
      | None => mret (SCL_ERR_EMPTY, None)
      | node => n ← load m node; mret (SCL_OK, Some (dn_data n))
      end
  | _, _ => mret (SCL_ERR_NULL_PTR, None)
  end.

Definition scl_dlist_back m list (out : bool) : res (scl_error_t * option A) :=
  match list, out with
  | Some l, true =>
      match dl_tail l with
      | None => mret (SCL_ERR_EMPTY, None)
      | node => n ← load m node; mret (SCL_OK, Some (dn_data n))
      end
  | _, _ => mret (SCL_ERR_NULL_PTR, None)
  end.

(** The walk to position [index], from the nearer end. *)
Definition walk_to m (head tail : addr) (cnt index : Z) : res addr :=
  if index <=? cnt / 2 then zfor 0 index (fun _ cur => n ← load m cur; mret (dn_next n)) head
  else zfor index (cnt - 1) (fun _ cur => n ← load m cur; mret (dn_prev n)) tail.

Definition scl_dlist_insert_at m list (index : Z) (element : option A)
    : res (scl_error_t * option scl_dlist_t * mem) :=
  match list, element with
  | Some (DList head tail es count), Some x =>
      if index >? count then mret (SCL_ERR_INVALID_INDEX, list, m)
      else if index =? 0 then scl_dlist_push_front m list element
      else if index =? count then scl_dlist_push_back m list element
      else
        cur ← walk_to m head tail count index;
        let '(err, node, m) := scl_dlist_create_node m x es in
        if decide (err = SCL_OK) then
          c ← load m cur;
          m ← set_prev m node (dn_prev c);
          m ← set_next m node cur;
          c ← load m cur;
          m ← set_next m (dn_prev c) node;
          m ← set_prev m cur node;
          mret (SCL_OK, Some (DList head tail es (u64 (count + 1))), m)
        else mret (err, list, m)
  | _, _ => mret (SCL_ERR_NULL_PTR, list, m)
  end.

Definition scl_dlist_remove_at m list (index : Z) (out : bool)
    : res (scl_error_t * option A * option scl_dlist_t * mem) :=
  match list, out with
  | Some (DList head tail es count), true =>
      if index >=? count then mret (SCL_ERR_INVALID_INDEX, None, list, m)
      else if index =? 0 then scl_dlist_pop_front m list out
      else if index =? u64 (count - 1) then scl_dlist_pop_back m list out
      else
        cur ← walk_to m head tail count index;
        c ← load m cur;
        let x := dn_data c in
        m ← set_next m (dn_prev c) (dn_next c);
        c ← load m cur;
        m ← set_prev m (dn_next c) (dn_prev c);
        m ← free_node m cur;
        mret (SCL_OK, Some x, Some (DList head tail es (u64 (count - 1))), m)
  | _, _ => mret (SCL_ERR_NULL_PTR, None, list, m)
  end.

Definition scl_dlist_remove m list (element : option A) (cmp : option (A -> A -> Z))
    : res (scl_error_t * option scl_dlist_t * mem) :=
  match list, element, cmp with
  | Some (DList head tail es count), Some element, Some cmp =>
      loop (S (Z.to_nat count))
        (fun cur =>
           match cur with
           | None => mret (inr (SCL_ERR_NOT_FOUND, list, m))
           | Some _ =>
               c ← load m cur;
               if cmp (dn_data c) element =? 0 then
                 '(head, m) ← link_left m head (dn_prev c) (dn_next c);
                 c ← load m cur;
                 '(tail, m) ← link_right m tail (dn_next c) (dn_prev c);
                 m ← free_node m cur;
                 mret (inr (SCL_OK, Some (DList head tail es (u64 (count - 1))), m))
               else mret (inl (dn_next c))
           end) head
  | _, _, _ => mret (SCL_ERR_NULL_PTR, list, m)
  end.

Definition scl_dlist_search m list (key : option A) (cmp : option (A -> A -> Z)) (out : bool)
    : res (scl_error_t * option A) :=
  match list, key, cmp, out with
  | Some (DList head tail es count), Some key, Some cmp, true =>
      loop (S (Z.to_nat count))
        (fun cur =>
           match cur with
           | None => mret (inr (SCL_ERR_NOT_FOUND, None))
           | Some _ =>
               node ← load m cur;
               if cmp (dn_data node) key =? 0 then mret (inr (SCL_OK, Some (dn_data node)))
               else mret (inl (dn_next node))
           end) head
  | _, _, _, _ => mret (SCL_ERR_NULL_PTR, None)
  end.

Definition scl_dlist_count list : Z := match list with Some l => dl_count l | None => 0 end.
Definition scl_dlist_empty list : bool := match list with Some l => dl_count l =? 0 | None => true end.
End Defs.

(** ** The operations as one step function *)
Inductive dlist_op (A : Type) : Type :=
| DLPushFront (element : option A)
| DLPushBack (element : option A)
| DLPopFront (out : bool)
| DLPopBack (out : bool)
| DLFront (out : bool)
| DLBack (out : bool)
| DLInsert (index : Z) (element : option A)
| DLRemoveAt (index : Z) (out : bool)
| DLCount
| DLEmpty
| DLRemove (element : option A) (cmp : option (A -> A -> Z))
| DLSearch (key : option A) (cmp : option (A -> A -> Z)) (out : bool).
Arguments DLPushFront {A}.
Arguments DLPushBack {A}.
Arguments DLPopFront {A}.
Arguments DLPopBack {A}.
Arguments DLFront {A}.
Arguments DLBack {A}.
Arguments DLInsert {A}.
Arguments DLRemoveAt {A}.
Arguments DLCount {A}.
Arguments DLEmpty {A}.
Arguments DLRemove {A}.
Arguments DLSearch {A}.

Section Step.
Context {A : Type} (al : scl_allocator_t).

Definition dlist_step (st : option scl_dlist_t * mem (scl_dlist_node_t A)) (op : dlist_op A)
    : res (reply A * (option scl_dlist_t * mem (scl_dlist_node_t A))) :=
  let '(s, m) := st in
  match op with
  | DLPushFront x => '(e, s, m) ← scl_dlist_push_front al m s x; mret (Code e, (s, m))
  | DLPushBack x => '(e, s, m) ← scl_dlist_push_back al m s x; mret (Code e, (s, m))
  | DLPopFront out => '(e, x, s, m) ← scl_dlist_pop_front m s out; mret (value_or e x, (s, m))
  | DLPopBack out => '(e, x, s, m) ← scl_dlist_pop_back m s out; mret (value_or e x, (s, m))
  | DLFront out => '(e, x) ← scl_dlist_front m s out; mret (value_or e x, (s, m))
  | DLBack out => '(e, x) ← scl_dlist_back m s out; mret (value_or e x, (s, m))
  | DLInsert i x => '(e, s, m) ← scl_dlist_insert_at al m s (u64 i) x; mret (Code e, (s, m))
  | DLRemoveAt i out => '(e, x, s, m) ← scl_dlist_remove_at m s (u64 i) out; mret (value_or e x, (s, m))
  | DLCount => mret (Size (scl_dlist_count s), (s, m))
  | DLEmpty => mret (Flag (scl_dlist_empty s), (s, m))
  | DLRemove x cmp => '(e, s, m) ← scl_dlist_remove m s x cmp; mret (Code e, (s, m))
  | DLSearch key cmp out => '(e, x) ← scl_dlist_search m s key cmp out; mret (value_or e x, (s, m))
  end.

(** ** The abstract list *)
Inductive dlist_spec : list A -> dlist_op A -> reply A -> list A -> Prop :=
| dls_push_front l x : dlist_spec l (DLPushFront (Some x)) (Code SCL_OK) (x :: l)
| dls_push_back l x : dlist_spec l (DLPushBack (Some x)) (Code SCL_OK) (l ++ [x])
| dls_insert l1 l2 i x :
    u64 i = zlen l1 -> dlist_spec (l1 ++ l2) (DLInsert i (Some x)) (Code SCL_OK) (l1 ++ x :: l2)
| dls_refused l op x i e :
    op = DLPushFront (Some x) \/ op = DLPushBack (Some x) \/ (op = DLInsert i (Some x) /\ u64 i <= zlen l) ->
    e = SCL_ERR_SIZE_OVERFLOW \/ e = SCL_ERR_OUT_OF_MEMORY -> dlist_spec l op (Code e) l
| dls_pop_front l x : dlist_spec (x :: l) (DLPopFront true) (Value x) l
| dls_pop_back l x : dlist_spec (l ++ [x]) (DLPopBack true) (Value x) l
| dls_front l x : dlist_spec (x :: l) (DLFront true) (Value x) (x :: l)
| dls_back l x : dlist_spec (l ++ [x]) (DLBack true) (Value x) (l ++ [x])
| dls_none op : op = DLPopFront true \/ op = DLPopBack true \/ op = DLFront true \/ op = DLBack true ->
    dlist_spec [] op (Code SCL_ERR_EMPTY) []
| dls_remove_at l1 x l2 i :
    u64 i = zlen l1 -> dlist_spec (l1 ++ x :: l2) (DLRemoveAt i true) (Value x) (l1 ++ l2)
| dls_index l op i :
    ((exists x, op = DLInsert i (Some x)) /\ zlen l < u64 i) \/ (op = DLRemoveAt i true /\ zlen l <= u64 i) ->
    dlist_spec l op (Code SCL_ERR_INVALID_INDEX) l
| dls_count l : dlist_spec l DLCount (Size (zlen l)) l
| dls_empty l : dlist_spec l DLEmpty (Flag (bool_decide (l = []))) l
| dls_remove l1 x l2 key cmp :
    (forall y, y ∈ l1 -> cmp y key <> 0) -> cmp x key = 0 ->
    dlist_spec (l1 ++ x :: l2) (DLRemove (Some key) (Some cmp)) (Code SCL_OK) (l1 ++ l2)
| dls_search l1 x l2 key cmp :
    (forall y, y ∈ l1 -> cmp y key <> 0) -> cmp x key = 0 ->
    dlist_spec (l1 ++ x :: l2) (DLSearch (Some key) (Some cmp) true) (Value x) (l1 ++ x :: l2)
| dls_absent l key cmp op :
    op = DLRemove (Some key) (Some cmp) \/ op = DLSearch (Some key) (Some cmp) true ->
    (forall y, y ∈ l -> cmp y key <> 0) -> dlist_spec l op (Code SCL_ERR_NOT_FOUND) l
| dls_null l op :
    match op with
    | DLPushFront None | DLPushBack None | DLPopFront false | DLPopBack false | DLFront false
    | DLBack false | DLInsert _ None | DLRemoveAt _ false | DLRemove None _ | DLRemove _ None
    | DLSearch None _ _ | DLSearch _ None _ | DLSearch _ _ false => True
    | _ => False
    end -> dlist_spec l op (Code SCL_ERR_NULL_PTR) l.
End Step.

(** ** Segments

    [dseg h pp ns qn]: the nodes [ns] are linked in both directions, between
    [pp] and [qn]. *)
Section Segments.
Context {A : Type}.
Implicit Types (h : gmap positive (scl_dlist_node_t A)) (ns L R : list (positive * A)).

Definition head_or ns (qn : addr) : addr := match ns with [] => qn | (b, _) :: _ => Some b end.
Definition last_or (pp : addr) ns : addr := match last ns.*1 with None => pp | p => p end.

Fixpoint dseg h (pp : addr) ns (qn : addr) : Prop :=
  match ns with
  | [] => True
  | (a, x) :: ns => h !! a = Some (DNode pp (head_or ns qn) x) /\ dseg h (Some a) ns qn
  end.

Lemma last_or_cons pp a x ns : last_or pp ((a, x) :: ns) = last_or (Some a) ns.
Proof. unfold last_or. rewrite fmap_cons, last_cons. simpl. by destruct (last ns.*1). Qed.
Lemma last_or_snoc pp a x ns : last_or pp (ns ++ [(a, x)]) = Some a.
Proof. unfold last_or. by rewrite last_snoc_fst. Qed.
Lemma last_or_None ns : last_or None ns = last ns.*1.
Proof. unfold last_or. by destruct (last ns.*1). Qed.
Lemma head_or_None ns : head_or ns None = head ns.*1.
Proof. by destruct ns as [|[a x] ns]. Qed.

Lemma dseg_app h pp L R qn :
  dseg h pp (L ++ R) qn <-> dseg h pp L (head_or R qn) /\ dseg h (last_or pp L) R qn.
Proof.
  revert pp. induction L as [|[a x] L IH]; intros pp; simpl; [intuition|].
  rewrite IH, last_or_cons. destruct L as [|[b y] L]; simpl; tauto.
Qed.

Lemma dseg_frame h h' pp ns qn :
  (forall a, a ∈ ns.*1 -> h' !! a = h !! a) -> dseg h pp ns qn -> dseg h' pp ns qn.
Proof.
  revert pp. induction ns as [|[a x] ns IH]; intros pp E; [done|]. simpl. intros [Ha Hs].
  rewrite E by (simpl; set_solver). split; [done|]. apply IH; [|done].
  intros b Hb. apply E. simpl. set_solver.
Qed.

Lemma dseg_relink_last h pp L b z q q' :
  NoDup (L ++ [(b, z)]).*1 -> dseg h pp (L ++ [(b, z)]) q ->
  dseg (<[b := DNode (last_or pp L) q' z]> h) pp (L ++ [(b, z)]) q'.
Proof.
  rewrite fmap_app, NoDup_app. intros (_ & Hd & _). rewrite !dseg_app. simpl. intros (H1 & H2 & _).
  rewrite lookup_insert_eq. split; [|done]. eapply dseg_frame; [|done].
  intros a Ha. rewrite lookup_insert_ne; [done|]. intros ->. apply (Hd a Ha). simpl. set_solver.
Qed.

Lemma dseg_relink_first h pp pp' b z R q :
  NoDup ((b, z) :: R).*1 -> dseg h pp ((b, z) :: R) q ->
  dseg (<[b := DNode pp' (head_or R q) z]> h) pp' ((b, z) :: R) q.
Proof.
  simpl. intros [Hb _]%NoDup_cons [H1 H2]. rewrite lookup_insert_eq. split; [done|].
  eapply dseg_frame; [|done]. intros a Ha. rewrite lookup_insert_ne; [done|]. by intros ->.
Qed.

(** The node at a position: its links are the positions beside it. *)
Lemma dseg_at h ns i a x :
  dseg h None ns None -> zlook ns i = Some (a, x) ->
  h !! a = Some (DNode (fst <$> zlook ns (i - 1)) (fst <$> zlook ns (i + 1)) x).
Proof.
  intros Hs Hi. pose proof (zlook_Some _ _ _ Hi) as Hr.
  assert (exists L R, ns = L ++ (a, x) :: R /\ zlen L = i) as (L & R & -> & <-).
  { exists (take (Z.to_nat i) ns), (drop (S (Z.to_nat i)) ns). unfold zlook in Hi.
    destruct (Z.leb_spec 0 i); [|lia]. split; [by rewrite take_drop_middle|].
    unfold zlen in *. rewrite length_take. lia. }
  apply dseg_app in Hs as (_ & Ha & _). rewrite Ha. do 2 f_equal.
  - rewrite last_or_None. destruct (nodes_last_case L) as [->|(L' & b & y & ->)]; [done|].
    rewrite last_snoc_fst, zlen_app, <- app_assoc, zlook_app. change (zlen [(b, y)]) with 1.
    replace (zlen L' + 1 - 1) with (zlen L') by lia. rewrite Z.ltb_irrefl, Z.sub_diag. done.
  - rewrite zlook_app, zlook_cons. pose proof (zlen_nonneg L). repeat bcase; try lia.
    replace (zlen L + 1 - zlen L - 1) with 0 by lia. by destruct R as [|[b y] R].
Qed.
End Segments.

Section Rep.
Context {A : Type} (al : scl_allocator_t).
Notation mem := (mem (scl_dlist_node_t A)).
Context (es : Z) (base : mem).
Implicit Types (m : mem) (ns L R : list (positive * A)) (l : list A).

Lemma head_or_app L R q : head_or (L ++ R) q = head_or L (head_or R q).
Proof. by destruct L as [|[a x] L]. Qed.
Lemma last_or_app p L R : last_or p (L ++ R) = last_or (last_or p L) R.
Proof.
  revert p. induction L as [|[a x] L IH]; intros p; [done|]. simpl. rewrite !last_or_cons. apply IH.
Qed.

(** [m'] differs from [m] only in the contents of the nodes [ks]. *)
Definition relinked m m' (ks : list positive) : Prop :=
  (forall k, (forall a, a ∈ ks -> a ∈ k) -> holds base m k -> holds base m' k) /\
  (forall a, a ∉ ks -> m_nodes m' !! a = m_nodes m !! a).

Lemma relinked_dseg m m' ks p ns q :
  relinked m m' ks -> (forall a, a ∈ ns.*1 -> a ∉ ks) -> dseg (m_nodes m) p ns q -> dseg (m_nodes m') p ns q.
Proof. intros [_ H] Hd. apply dseg_frame. intros a Ha. by apply H, Hd. Qed.

Lemma relinked_update m b n ks : b ∈ ks -> relinked m (Mem (m_world m) (<[b := n]> (m_nodes m))) ks.
Proof.
  intros Hb. split.
  - intros l Hl. apply holds_update. by apply Hl.
  - intros a Ha. simpl. rewrite lookup_insert_ne; [done|]. by intros ->.
Qed.

Lemma wp_set_next m b n q (Q : mem -> Prop) :
  m_nodes m !! b = Some n -> Q (Mem (m_world m) (<[b := DNode (dn_prev n) q (dn_data n)]> (m_nodes m))) ->
  wp (set_next m (Some b) q) Q.
Proof. intros E HQ. unfold set_next. wstep. eapply wp_load_node; [done|]. by eapply wp_store_node. Qed.

Lemma wp_set_prev m b n q (Q : mem -> Prop) :
  m_nodes m !! b = Some n -> Q (Mem (m_world m) (<[b := DNode q (dn_next n) (dn_data n)]> (m_nodes m))) ->
  wp (set_prev m (Some b) q) Q.
Proof. intros E HQ. unfold set_prev. wstep. eapply wp_load_node; [done|]. by eapply wp_store_node. Qed.

(** Redirecting what follows [L], the head of the list included. *)
Lemma wp_link_left m L q q' (Q : addr * mem -> Prop) :
  NoDup L.*1 -> dseg (m_nodes m) None L q ->
  (forall m', relinked m m' L.*1 -> dseg (m_nodes m') None L q' -> Q (head_or L q', m')) ->
  wp (link_left m (head_or L q) (last_or None L) q') Q.
Proof.
  intros Hn Hs HQ. destruct (nodes_last_case L) as [->|(L' & b & z & ->)].
  - simpl. apply HQ; [|done]. by split.
  - rewrite last_or_snoc. pose proof (proj1 (dseg_app _ _ _ _ _) Hs) as [_ [Hb _]].
    unfold link_left. wstep. eapply wp_set_next; [done|]. wstep. cbn [dn_prev dn_data].
    replace (head_or (L' ++ [(b, z)]) q) with (head_or (L' ++ [(b, z)]) q') by by rewrite !head_or_app.
    apply HQ.
    + apply relinked_update. rewrite fmap_app. set_solver.
    + by apply (dseg_relink_last _ _ _ _ _ q).
Qed.

(** Redirecting what precedes [R], the tail of the list included. *)
Lemma wp_link_right m R p p' (Q : addr * mem -> Prop) :
  NoDup R.*1 -> dseg (m_nodes m) p R None ->
  (forall m', relinked m m' R.*1 -> dseg (m_nodes m') p' R None -> Q (last_or p' R, m')) ->
  wp (link_right m (last_or p R) (head_or R None) p') Q.
Proof.
  intros Hn Hs HQ. destruct R as [|[b z] R].
  - simpl. apply HQ; [|done]. by split.
  - pose proof Hs as [Hb _]. cbn [head_or]. unfold link_right. wstep. eapply wp_set_prev; [done|]. wstep.
    cbn [dn_next dn_data]. rewrite last_or_cons, <- (last_or_cons p' b z R). apply HQ.
    + apply relinked_update. simpl. set_solver.
    + by apply (dseg_relink_first _ p).
Qed.

Record dlist_of (s : scl_dlist_t) m ns : Prop := {
  do_es : dl_element_size s = es;
  do_head : dl_head s = head_or ns None;
  do_tail : dl_tail s = last_or None ns;
  do_count : dl_count s = zlen ns;
  do_seg : dseg (m_nodes m) None ns None;
  do_holds : holds base m ns.*1;
  do_fits : zlen ns <= PTRDIFF_MAX
}.

Definition dlist_rep (st : option scl_dlist_t * mem) l : Prop :=
  exists s ns, st.1 = Some s /\ dlist_of s st.2 ns /\ ns.*2 = l.

(** A node [(a, x)] put between [L] and [R]. *)
Lemma dlist_inserted m L R a x :
  dseg (m_nodes m) None L (Some a) -> dseg (m_nodes m) (Some a) R None ->
  m_nodes m !! a = Some (DNode (last_or None L) (head_or R None) x) ->
  holds base m (a :: (L ++ R).*1) -> zlen (L ++ R) < PTRDIFF_MAX ->
  dlist_of (DList (head_or (L ++ (a, x) :: R) None) (last_or None (L ++ (a, x) :: R)) es (u64 (zlen (L ++ R) + 1)))
    m (L ++ (a, x) :: R).
Proof.
  intros H1 H2 Ha Hh Hz. pose proof (zlen_nonneg (L ++ R)). unfold PTRDIFF_MAX in *.
  assert (zlen (L ++ (a, x) :: R) = zlen (L ++ R) + 1) as Ez by (rewrite !zlen_app, zlen_cons; lia).
  split; cbn [dl_element_size dl_head dl_tail dl_count]; try done.
  - rewrite Ez. apply u64_small. lia.
  - apply dseg_app. split; [done|]. by split.
  - eapply holds_perm; [|exact Hh]. rewrite !fmap_app. simpl. by rewrite Permutation_middle.
  - rewrite Ez. unfold PTRDIFF_MAX. lia.
Qed.

(** A node taken from between [L] and [R]. *)
Lemma dlist_removed m L R n :
  dseg (m_nodes m) None L (head_or R None) -> dseg (m_nodes m) (last_or None L) R None ->
  holds base m (L ++ R).*1 -> n = zlen (L ++ R) + 1 -> n <= PTRDIFF_MAX ->
  dlist_of (DList (head_or (L ++ R) None) (last_or None (L ++ R)) es (u64 (n - 1))) m (L ++ R).
Proof.
  intros H1 H2 Hh -> Hz. pose proof (zlen_nonneg (L ++ R)). unfold PTRDIFF_MAX in *.
  split; cbn [dl_element_size dl_head dl_tail dl_count]; try done.
  - rewrite u64_small; lia.
  - by apply dseg_app.
  - unfold PTRDIFF_MAX. lia.
Qed.

(** The neighbours of a node, and that they are other nodes. *)
Lemma dlist_split s m L a x R :
  dlist_of s m (L ++ (a, x) :: R) ->
  dseg (m_nodes m) None L (Some a) /\ dseg (m_nodes m) (Some a) R None /\
  m_nodes m !! a = Some (DNode (last_or None L) (head_or R None) x) /\
  NoDup L.*1 /\ NoDup R.*1 /\ (forall b, b ∈ L.*1 -> b ∉ R.*1) /\ a ∉ L.*1 /\ a ∉ R.*1 /\
  holds base m (a :: (L ++ R).*1) /\ zlen (L ++ (a, x) :: R) = zlen (L ++ R) + 1.
Proof.
  intros [_ _ _ _ Hs Hh _]. apply dseg_app in Hs as (H1 & H2 & H3). pose proof (holds_nodup _ _ _ _ Hh) as Hd.
  rewrite fmap_app in Hd. simpl in Hd. apply NoDup_app in Hd as (Hd1 & Hd2 & [Hd3 Hd4]%NoDup_cons).
  split_and!; try done.
  - intros b Hb Hb'. apply (Hd2 b Hb). set_solver.
  - intros Ha. apply (Hd2 a Ha). set_solver.
  - eapply holds_perm; [|exact Hh]. rewrite !fmap_app. simpl. symmetry. apply Permutation_middle.
  - rewrite !zlen_app, zlen_cons. lia.
Qed.

Lemma wp_dcreate m (k : list positive) x (Q : scl_error_t * addr * mem -> Prop) :
  holds base m k ->
  (forall a m', a ∉ k -> m_nodes m' = <[a := DNode None None x]> (m_nodes m) ->
     holds base m' (a :: k) -> zlen k < PTRDIFF_MAX -> Q (SCL_OK, Some a, m')) ->
  (forall e m', e = SCL_ERR_SIZE_OVERFLOW \/ e = SCL_ERR_OUT_OF_MEMORY ->
     m_nodes m' = m_nodes m -> holds base m' k -> Q (e, None, m')) ->
  Q (scl_dlist_create_node al m x es).
Proof.
  intros H HQ1 HQ2. unfold scl_dlist_create_node. destruct (scl_add_overflow _ _) as [sz|]; [|by apply HQ2; auto].
  apply (wp_alloc_node al base m k sz (DNode None None x)); [done| |].
  - intros. by apply HQ1.
  - intros. apply HQ2; auto.
Qed.

(** What an insertion of [x] between [L] and [R] may answer. *)
Definition inserted (s : scl_dlist_t) L R x (r : scl_error_t * option scl_dlist_t * mem) : Prop :=
  (exists a s', r.1 = (SCL_OK, Some s') /\ dlist_of s' r.2 (L ++ (a, x) :: R)) \/
  (exists e, (e = SCL_ERR_SIZE_OVERFLOW \/ e = SCL_ERR_OUT_OF_MEMORY) /\ r.1 = (e, Some s) /\
     dlist_of s r.2 (L ++ R)).

Lemma insertion_refused s m m' L R x e :
  dlist_of s m (L ++ R) -> e = SCL_ERR_SIZE_OVERFLOW \/ e = SCL_ERR_OUT_OF_MEMORY ->
  m_nodes m' = m_nodes m -> holds base m' (L ++ R).*1 -> inserted s L R x (e, Some s, m').
Proof.
  intros [? ? ? ? ? ? ?] He Em Hh. right. exists e. split; [done|]. split; [done|].
  split; cbn [snd]; by rewrite ?Em.
Qed.

#[local] Ltac refused :=
  intros e m' He Em Hh'; destruct (decide (e = SCL_OK)) as [->|]; [by destruct He|]; wstep;
  match goal with Hins : forall r, inserted _ _ _ _ r -> _ |- _ => apply Hins; by eapply insertion_refused end.

Lemma wp_dpush_front s m ns x Q :
  dlist_of s m ns -> (forall r, inserted s [] ns x r -> Q r) ->
  wp (scl_dlist_push_front al m (Some s) (Some x)) Q.
Proof.
  intros R0 HQ. pose proof R0 as [E1 E2 E3 E4 Hs Hh Hf]. destruct s as [hd tl es' cnt].
  cbn [dl_head dl_tail dl_element_size dl_count] in *. subst es' tl hd cnt.
  unfold scl_dlist_push_front. apply (wp_dcreate m ns.*1 x); [done| |refused].
  intros a m' Ha Em Hh' Hz. rewrite zlen_fst in Hz. destruct (decide _); [|done]. wstep.
  eapply wp_set_next; [rewrite Em; apply lookup_insert_eq|]. cbn [dn_prev dn_data]. wstep.
  rewrite Em, insert_insert_eq. pose proof (holds_nodup _ _ _ _ Hh).
  apply (wp_link_right _ ns None (Some a)); [done| |].
  { eapply dseg_frame; [|done]. intros b Hb. cbn [m_nodes]. rewrite lookup_insert_ne; [done|]. by intros ->. }
  intros m'' Hr Hs'. wstep. apply HQ. left. exists a. eexists. split; [done|].
  rewrite <- last_or_cons with (pp := None) (x := x). apply (dlist_inserted m'' [] ns a x).
  - done.
  - done.
  - rewrite (proj2 Hr) by done. apply lookup_insert_eq.
  - apply Hr; [set_solver|]. eapply holds_update in Hh'; [|by left]. by rewrite Em, insert_insert_eq in Hh'.
  - done.
Qed.

Lemma wp_dpush_back s m ns x Q :
  dlist_of s m ns -> (forall r, inserted s ns [] x r -> Q r) ->
  wp (scl_dlist_push_back al m (Some s) (Some x)) Q.
Proof.
  intros R0 HQ. assert (dlist_of s m (ns ++ [])) as R1 by (by rewrite app_nil_r). pose proof R0 as [E1 E2 E3 E4 Hs Hh Hf]. destruct s as [hd tl es' cnt].
  cbn [dl_head dl_tail dl_element_size dl_count] in *. subst es' tl hd cnt.
  unfold scl_dlist_push_back. apply (wp_dcreate m ns.*1 x); [done| |].
  2:{ intros e m' He Em Hh'. destruct (decide (e = SCL_OK)) as [->|]; [by destruct He|]. wstep.
      apply HQ. eapply insertion_refused; [exact R1|done|done|]. by rewrite app_nil_r. }
  intros a m' Ha Em Hh' Hz. rewrite zlen_fst in Hz. destruct (decide _); [|done]. wstep.
  eapply wp_set_prev; [rewrite Em; apply lookup_insert_eq|]. cbn [dn_next dn_data]. wstep.
  rewrite Em, insert_insert_eq. pose proof (holds_nodup _ _ _ _ Hh).
  apply (wp_link_left _ ns None (Some a)); [done| |].
  { eapply dseg_frame; [|done]. intros b Hb. cbn [m_nodes]. rewrite lookup_insert_ne; [done|]. by intros ->. }
  intros m'' Hr Hs'. wstep. apply HQ. left. exists a. eexists. split; [done|]. cbn [snd].
  rewrite <- (app_nil_r ns) at 2. rewrite <- (last_or_snoc None a x ns).
  rewrite (last_or_snoc None a x ns) at 1. rewrite <- (head_or_app ns [(a, x)] None : _ = head_or ns (Some a)).
  apply (dlist_inserted m'' ns [] a x).
  - done.
  - done.
  - rewrite (proj2 Hr) by done. apply lookup_insert_eq.
  - rewrite app_nil_r. apply Hr; [set_solver|].
    eapply holds_update in Hh'; [|by left]. by rewrite Em, insert_insert_eq in Hh'.
  - by rewrite app_nil_r.
Qed.

(** What the removal of [x] between [L] and [R] answers. *)
Definition removed L R x (r : scl_error_t * option A * option scl_dlist_t * mem) : Prop :=
  exists s', r.1 = (SCL_OK, Some x, Some s') /\ dlist_of s' r.2 (L ++ R).

Lemma wp_dpop_front s m a x R Q :
  dlist_of s m ((a, x) :: R) -> (forall r, removed [] R x r -> Q r) ->
  wp (scl_dlist_pop_front m (Some s) true) Q.
Proof.
  intros R0 HQ. destruct (dlist_split s m [] a x R R0) as (_ & HsR & Ha & _ & HnR & _ & _ & HaR & Hh & Hz).
  destruct R0 as [E1 E2 E3 E4 _ _ Hf]. destruct s as [hd tl es' cnt].
  cbn [dl_head dl_tail dl_element_size dl_count head_or] in *. subst es' tl hd cnt.
  unfold scl_dlist_pop_front. wstep. eapply wp_load_node; [done|]. cbn [dn_next dn_data]. wstep.
  rewrite last_or_cons. apply (wp_link_right _ R (Some a) None); [done|done|]. intros m' Hr Hs'. wstep.
  eapply wp_free_node; [apply (proj1 Hr (a :: R.*1)); [set_solver|exact Hh]|]. intros m'' Em Hh''. wstep. apply HQ.
  eexists. split; [done|]. cbn [app] in *. apply (dlist_removed m'' [] R); try done.
  cbn [snd]. rewrite Em. eapply dseg_frame; [|exact Hs']. intros b Hb. rewrite lookup_delete_ne; [done|]. by intros ->.
Qed.

Lemma wp_dpop_back s m a x L Q :
  dlist_of s m (L ++ [(a, x)]) -> (forall r, removed L [] x r -> Q r) ->
  wp (scl_dlist_pop_back m (Some s) true) Q.
Proof.
  intros R0 HQ. destruct (dlist_split s m L a x [] R0) as (HsL & _ & Ha & HnL & _ & _ & HaL & _ & Hh & Hz).
  destruct R0 as [E1 E2 E3 E4 _ _ Hf]. destruct s as [hd tl es' cnt]. rewrite app_nil_r in Hh, Hz.
  cbn [dl_head dl_tail dl_element_size dl_count head_or] in *. subst es' tl hd cnt.
  rewrite last_or_snoc. unfold scl_dlist_pop_back. wstep. eapply wp_load_node; [done|]. cbn [dn_prev dn_data]. wstep.
  rewrite head_or_app. cbn [head_or]. apply (wp_link_left _ L (Some a) None); [done|done|]. intros m' Hr Hs'. wstep.
  eapply wp_free_node; [apply (proj1 Hr (a :: L.*1)); [set_solver|exact Hh]|]. intros m'' Em Hh''. wstep. apply HQ.
  eexists. split; [done|]. cbn [snd]. rewrite <- (app_nil_r L) at 1. rewrite <- (app_nil_r L) at 2.
  apply (dlist_removed m'' L []); rewrite ?app_nil_r; try done.
  rewrite Em. eapply dseg_frame; [|exact Hs']. intros b Hb. rewrite lookup_delete_ne; [done|]. by intros ->.
Qed.

(** The pointer at a position of the list. *)
Lemma last_or_at ns : last_or None ns = fst <$> zlook ns (zlen ns - 1).
Proof.
  destruct (nodes_last_case ns) as [->|(ns' & a & x & ->)]; [done|]. rewrite last_or_snoc, zlen_app, zlook_app.
  change (zlen [(a, x)]) with 1. replace (zlen ns' + 1 - 1) with (zlen ns') by lia.
  by rewrite Z.ltb_irrefl, Z.sub_diag.
Qed.

Lemma wp_walk_to m ns index (Q : addr -> Prop) :
  dseg (m_nodes m) None ns None -> 0 <= index < zlen ns -> Q (fst <$> zlook ns index) ->
  wp (walk_to m (head_or ns None) (last_or None ns) (zlen ns) index) Q.
Proof.
  intros Hs Hi HQ.
  assert (forall j (f : scl_dlist_node_t A -> addr) P, 0 <= j < zlen ns ->
    (forall a x, zlook ns j = Some (a, x) ->
       P (f (DNode (fst <$> zlook ns (j - 1)) (fst <$> zlook ns (j + 1)) x))) ->
    wp (n ← load m (fst <$> zlook ns j); mret (f n)) P) as Hstep.
  { intros j f P Hj HP. destruct (zlook_lt ns j Hj) as [[a x] Hx]. rewrite Hx. simpl fst. wstep.
    eapply wp_load_node; [by apply dseg_at|]. wstep. by apply (HP a x). }
  unfold walk_to. destruct (index <=? zlen ns / 2).
  - apply (wp_zfor (fun j cur => cur = fst <$> zlook ns j)); [by destruct ns as [|[b y] ns]| |].
    + intros j cur Hj ->. apply (Hstep j dn_next); [lia|done].
    + intros cur ->. by rewrite Z.max_r by lia.
  - apply (wp_zfor (fun j cur => cur = fst <$> zlook ns (zlen ns - 1 - (j - index)))).
    + replace (zlen ns - 1 - (index - index)) with (zlen ns - 1) by lia. apply last_or_at.
    + intros j cur Hj ->. apply (Hstep _ dn_prev); [lia|]. intros a x _. cbn [dn_prev]. do 2 f_equal. lia.
    + intros cur ->. rewrite Z.max_r by lia. by replace (zlen ns - 1 - (zlen ns - 1 - index)) with index by lia.
Qed.

(** A list cut before a position. *)
Lemma cut_at ns i : 0 <= i < zlen ns -> exists L a x R, ns = L ++ (a, x) :: R /\ zlen L = i /\ zlook ns i = Some (a, x).
Proof.
  intros Hi. destruct (zlook_lt ns i Hi) as [[a x] Hx]. exists (take (Z.to_nat i) ns), a, x, (drop (S (Z.to_nat i)) ns).
  split; [|split; [unfold zlen in *; rewrite length_take; lia|done]].
  unfold zlook in Hx. destruct (Z.leb_spec 0 i); [|lia]. by rewrite take_drop_middle.
Qed.

Lemma wp_insert_middle s m L b z c y R x Q :
  dlist_of s m ((L ++ [(b, z)]) ++ (c, y) :: R) ->
  (forall r, inserted s (L ++ [(b, z)]) ((c, y) :: R) x r -> Q r) ->
  wp (let '(err, node, m) := scl_dlist_create_node al m x es in
      if decide (err = SCL_OK) then
        k ← load m (Some c);
        m ← set_prev m node (dn_prev k);
        m ← set_next m node (Some c);
        k ← load m (Some c);
        m ← set_next m (dn_prev k) node;
        m ← set_prev m (Some c) node;
        mret (SCL_OK, Some (DList (dl_head s) (dl_tail s) es (u64 (dl_count s + 1))), m)
      else mret (err, Some s, m)) Q.
Proof.
  intros R0 HQ. set (LL := L ++ [(b, z)]) in *.
  destruct (dlist_split s m LL c y R R0) as (HsL & HsR & Hc & HnL & HnR & HLR & HcL & HcR & Hh0 & Hz0).
  pose proof R0 as [E1 E2 E3 E4 Hs Hh Hf]. rewrite E2, E3, E4.
  apply (wp_dcreate m (LL ++ (c, y) :: R).*1 x); [done| |].
  2:{ intros e m' He Em Hh'. destruct (decide (e = SCL_OK)) as [->|]; [by destruct He|]. wstep.
      apply HQ. by eapply insertion_refused. }
  intros a m1 Ha Em Hh1 Hz. rewrite zlen_fst in Hz. rewrite fmap_app in Ha. simpl in Ha.
  apply not_elem_of_app in Ha as [HaL [Hac HaR]%not_elem_of_cons].
  pose proof (last_or_snoc None b z L) as EL. fold LL in EL. rewrite EL in Hc.
  assert (b ∈ LL.*1) as HbL by (unfold LL; rewrite fmap_app; set_solver).
  assert (a <> b /\ b <> c) as [Hab Hbc] by (split; intros ->; done).
  destruct (proj1 (dseg_app _ _ _ _ _) HsL) as [_ [Hb _]]. cbn [head_or] in Hb.
  destruct (decide _); [|done]. wstep.
  eapply wp_load_node; [rewrite Em, lookup_insert_ne by done; exact Hc|]. wstep. cbn [dn_prev].
  eapply wp_set_prev; [rewrite Em; apply lookup_insert_eq|]. wstep. cbn [dn_next dn_data]. rewrite Em, insert_insert_eq.
  eapply wp_set_next; [apply lookup_insert_eq|]. wstep. cbn [m_nodes m_world dn_prev dn_data]. rewrite insert_insert_eq.
  eapply wp_load_node; [cbn [m_nodes]; rewrite lookup_insert_ne by done; exact Hc|]. wstep. cbn [dn_prev].
  eapply wp_set_next; [cbn [m_nodes]; rewrite lookup_insert_ne by done; exact Hb|]. wstep.
  cbn [m_nodes m_world dn_prev dn_data].
  eapply wp_set_prev; [cbn [m_nodes]; rewrite !lookup_insert_ne by done; exact Hc|]. wstep.
  cbn [m_nodes m_world dn_next dn_data].
  set (h3 := <[c := _]> _). apply HQ. left. exists a. eexists. split; [done|]. cbn [snd].
  replace (head_or (LL ++ (c, y) :: R) None) with (head_or (LL ++ (a, x) :: (c, y) :: R) None)
    by (unfold LL; rewrite <- !app_assoc; rewrite !head_or_app; done).
  replace (last_or None (LL ++ (c, y) :: R)) with (last_or None (LL ++ (a, x) :: (c, y) :: R))
    by (by rewrite !last_or_app, !last_or_cons).
  apply dlist_inserted; try done; cbn [m_nodes].
  - unfold h3. eapply dseg_frame; [intros d Hd; apply lookup_insert_ne; by intros ->|].
    apply (dseg_relink_last _ _ _ _ _ (Some c)); [done|].
    eapply dseg_frame; [|exact HsL]. intros d Hd. apply lookup_insert_ne. by intros ->.
  - unfold h3. apply (dseg_relink_first _ (Some b)); [by apply NoDup_cons|]. split.
    + by rewrite !lookup_insert_ne.
    + eapply dseg_frame; [|exact HsR]. intros d Hd.
      rewrite !lookup_insert_ne; [done|intros ->; done|intros ->; by apply (HLR d)].
  - unfold h3. rewrite !lookup_insert_ne by done. rewrite lookup_insert_eq, EL. done.
  - unfold h3. apply (holds_update 1 base (Mem (m_world m1) _)).
    { rewrite fmap_app. simpl. set_solver. }
    apply (holds_update 1 base (Mem (m_world m1) _)).
    { rewrite fmap_app. simpl. set_solver. }
    eapply holds_update in Hh1; [|by left]. by rewrite Em, insert_insert_eq in Hh1.
Qed.

(** Unlinking a node, at either end or between two others. *)
Lemma wp_unlink s m L c y R (Q : addr * addr * mem -> Prop) :
  dlist_of s m (L ++ (c, y) :: R) ->
  (forall m', m_nodes m' !! c = m_nodes m !! c -> relinked m m' (L ++ R).*1 ->
     dseg (m_nodes m') None L (head_or R None) -> dseg (m_nodes m') (last_or None L) R None ->
     Q (head_or (L ++ R) None, last_or None (L ++ R), m')) ->
  wp ('(head, m) ← link_left m (dl_head s) (last_or None L) (head_or R None);
      k ← load m (Some c);
      '(tail, m) ← link_right m (dl_tail s) (dn_next k) (dn_prev k);
      mret (head, tail, m)) Q.
Proof.
  intros R0 HQ. destruct (dlist_split s m L c y R R0) as (HsL & HsR & Hc & HnL & HnR & HLR & HcL & HcR & Hh & Hz).
  destruct R0 as [E1 E2 E3 E4 Hs _ Hf]. rewrite E2, E3, head_or_app, last_or_app, last_or_cons. cbn [head_or].
  wstep. apply wp_link_left; [done|done|]. intros m1 Hr1 Hs1.
  assert (dseg (m_nodes m1) (Some c) R None) as HsR1.
  { eapply relinked_dseg; [done| |done]. intros a Ha Ha'. by apply (HLR a). }
  wstep. eapply wp_load_node; [by rewrite (proj2 Hr1)|]. cbn [dn_next dn_prev]. wstep.
  apply wp_link_right; [done|done|]. intros m2 Hr2 Hs2. wstep. rewrite <- head_or_app, <- last_or_app. apply HQ.
  - rewrite (proj2 Hr2), (proj2 Hr1); done.
  - destruct Hr1 as [A1 B1], Hr2 as [A2 B2]. rewrite fmap_app. split.
    + intros k Hk Hh'. apply A2; [set_solver|]. apply A1; [set_solver|done].
    + intros a [Ha1 Ha2]%not_elem_of_app. by rewrite B2, B1.
  - eapply relinked_dseg; [exact Hr2|exact HLR|done].
  - done.
Qed.

(** Freeing the node that was unlinked. *)
Lemma wp_free_unlinked s m m' L c y R (Q : mem -> Prop) :
  dlist_of s m (L ++ (c, y) :: R) -> relinked m m' (L ++ R).*1 ->
  dseg (m_nodes m') None L (head_or R None) -> dseg (m_nodes m') (last_or None L) R None ->
  (forall m'', dlist_of (DList (head_or (L ++ R) None) (last_or None (L ++ R)) es (u64 (dl_count s - 1))) m'' (L ++ R) -> Q m'') ->
  wp (free_node m' (Some c)) Q.
Proof.
  intros R0 Hr Hs1 Hs2 HQ. destruct (dlist_split s m L c y R R0) as (_ & _ & Hc & _ & _ & _ & HcL & HcR & Hh & Hz).
  eapply wp_free_node; [apply (proj1 Hr (c :: (L ++ R).*1)); [set_solver|exact Hh]|]. intros m'' Em Hh''. apply HQ.
  rewrite (do_count _ _ _ R0). apply dlist_removed; try done.
  - rewrite Em. eapply dseg_frame; [|done]. intros b Hb. apply lookup_delete_ne. by intros ->.
  - rewrite Em. eapply dseg_frame; [|done]. intros b Hb. apply lookup_delete_ne. by intros ->.
  - apply R0.
Qed.

Lemma wp_dremove s m ns key cmp (Q : scl_error_t * option scl_dlist_t * mem -> Prop) :
  dlist_of s m ns ->
  (forall L a x R s' m', ns = L ++ (a, x) :: R -> (forall y, y ∈ L.*2 -> cmp y key <> 0) ->
     cmp x key = 0 -> dlist_of s' m' (L ++ R) -> Q (SCL_OK, Some s', m')) ->
  ((forall y, y ∈ ns.*2 -> cmp y key <> 0) -> Q (SCL_ERR_NOT_FOUND, Some s, m)) ->
  wp (scl_dlist_remove m (Some s) (Some key) (Some cmp)) Q.
Proof.
  intros R0 HQ1 HQ2. pose proof (do_count _ _ _ R0) as Ec. pose proof (do_head _ _ _ R0) as Eh.
  pose proof (do_es _ _ _ R0) as Ees. destruct s as [hd tl es' cnt] eqn:Es.
  cbn [dl_count dl_head dl_element_size] in Ec, Eh, Ees. subst cnt hd es'. pose proof (zlen_nonneg ns).
  apply (wp_loop_rel (fun k cur => exists L R, ns = L ++ R /\ k = zlen R /\ cur = head_or R None /\
    (forall y, y ∈ L.*2 -> cmp y key <> 0)) (zlen ns)).
  - exists [], ns. simpl. repeat split; (done || set_solver).
  - lia.
  - lia.
  - intros k cur (L & R & -> & -> & -> & Hno). destruct R as [|[c y] R].
    { cbn [head_or]. wstep. apply HQ2. by rewrite app_nil_r. }
    destruct (dlist_split _ m L c y R R0) as (_ & _ & Hc & _). cbn [head_or]. wstep.
    eapply wp_load_node; [done|]. cbn [dn_data dn_prev dn_next]. destruct (Z.eqb_spec (cmp y key) 0) as [Hy|Hy].
    2:{ wstep. exists (zlen R). rewrite zlen_cons. pose proof (zlen_nonneg R). split; [lia|].
        exists (L ++ [(c, y)]), R. rewrite <- app_assoc. repeat split; try done.
        intros z. rewrite fmap_app, elem_of_app. intros [?|?%list_elem_of_singleton]; [by apply Hno|by subst]. }
    set (n := zlen (L ++ (c, y) :: R)) in *. clearbody n.
    epose proof (wp_unlink _ m L c y R (fun '(hd, tl, m') =>
      wp (m ← free_node m' (Some c); mret (SCL_OK, Some (DList hd tl es (u64 (n - 1))), m)) Q) R0) as W.
    cbn [dl_head dl_tail] in W. lazymatch type of W with ?P -> _ => assert P as HP; [|specialize (W HP)] end.
    { intros m' _ Hr Hs1 Hs2. wstep. eapply wp_free_unlinked; [exact R0|done..|]. intros m'' R''. wstep.
      by eapply HQ1. }
    clear HP. unfold mbind, res_bind in *.
    destruct (link_left _ _ _ _) as [[hd' m1]| |]; simpl in *; try done.
    destruct (m_nodes m1 !! c) as [k|]; simpl in *; [|done].
    destruct (link_right _ _ _ _) as [[tl' m2]| |]; simpl in *; try done.
    destruct (m_nodes m2 !! c); simpl in *; done.
Qed.

Lemma wp_dlist_search s m ns key cmp (Q : scl_error_t * option A -> Prop) :
  dlist_of s m ns ->
  (forall L a x R, ns = L ++ (a, x) :: R -> (forall y, y ∈ L.*2 -> cmp y key <> 0) ->
     cmp x key = 0 -> Q (SCL_OK, Some x)) ->
  ((forall y, y ∈ ns.*2 -> cmp y key <> 0) -> Q (SCL_ERR_NOT_FOUND, None)) ->
  wp (scl_dlist_search m (Some s) (Some key) (Some cmp) true) Q.
Proof.
  intros R0 HQ1 HQ2. pose proof (do_count _ _ _ R0) as Ec. pose proof (do_head _ _ _ R0) as Eh.
  destruct s as [hd tl es' cnt]. cbn [dl_count dl_head] in Ec, Eh. subst cnt hd. pose proof (zlen_nonneg ns).
  apply (wp_loop_rel (fun k cur => exists L R, ns = L ++ R /\ k = zlen R /\ cur = head_or R None /\
    (forall y, y ∈ L.*2 -> cmp y key <> 0)) (zlen ns)).
  - exists [], ns. simpl. repeat split; (done || set_solver).
  - lia.
  - lia.
  - intros k cur (L & R & -> & -> & -> & Hno). destruct R as [|[c y] R].
    { cbn [head_or]. wstep. apply HQ2. by rewrite app_nil_r. }
    destruct (dlist_split _ m L c y R R0) as (_ & _ & Hc & _). cbn [head_or]. wstep.
    eapply wp_load_node; [done|]. cbn [dn_data dn_next].
    destruct (Z.eqb_spec (cmp y key) 0) as [Hy|Hy]; wstep; [by eapply HQ1|].
    exists (zlen R). rewrite zlen_cons. pose proof (zlen_nonneg R). split; [lia|].
    exists (L ++ [(c, y)]), R. rewrite <- app_assoc. repeat split; try done.
    intros z. rewrite fmap_app, elem_of_app. intros [?|?%list_elem_of_singleton]; [by apply Hno|by subst].
Qed.

Lemma wp_remove_middle s m L b z c y d v R Q :
  dlist_of s m ((L ++ [(b, z)]) ++ (c, y) :: (d, v) :: R) ->
  (forall r, removed (L ++ [(b, z)]) ((d, v) :: R) y r -> Q r) ->
  wp (k ← load m (Some c);
      let x := dn_data k in
      m ← set_next m (dn_prev k) (dn_next k);
      k ← load m (Some c);
      m ← set_prev m (dn_next k) (dn_prev k);
      m ← free_node m (Some c);
      mret (SCL_OK, Some x, Some (DList (dl_head s) (dl_tail s) es (u64 (dl_count s - 1))), m)) Q.
Proof.
  intros R0 HQ. set (LL := L ++ [(b, z)]) in *.
  destruct (dlist_split _ m LL c y _ R0) as (_ & _ & Hc & _).
  pose proof (last_or_snoc None b z L) as EL. fold LL in EL. rewrite EL in Hc. cbn [head_or] in Hc.
  wstep. eapply wp_load_node; [done|]. cbn [dn_prev dn_next dn_data]. cbv zeta.
  epose proof (wp_unlink s m LL c y ((d, v) :: R) (fun '(hd, tl, m') =>
    wp (m ← free_node m' (Some c); mret (SCL_OK, Some y, Some (DList hd tl es (u64 (dl_count s - 1))), m)) Q) R0) as W.
  lazymatch type of W with ?P -> _ => assert P as HP; [|specialize (W HP)] end.
  { intros m' _ Hr Hs1 Hs2. wstep. eapply wp_free_unlinked; [exact R0|done..|]. intros m'' R''. wstep.
    apply HQ. eexists. split; [done|]. exact R''. }
  clear HP. destruct (dlist_split _ m LL c y _ R0) as (HsL & _ & _ & _ & _ & _ & HcL & _).
  destruct (proj1 (dseg_app _ _ _ _ _) HsL) as [_ [Hb _]].
  assert (b <> c) by (intros ->; apply HcL; unfold LL; rewrite fmap_app; set_solver).
  set (m1 := Mem (m_world m) (<[b := DNode (last_or None L) (Some d) z]> (m_nodes m))).
  assert (set_next m (Some b) (Some d) = Ok m1) as E1 by (unfold set_next, load, store; by rewrite Hb).
  assert (load m1 (Some c) = Ok (DNode (Some b) (Some d) y)) as E2
    by (unfold load, m1; simpl; by rewrite lookup_insert_ne, Hc).
  rewrite EL in W. cbn [head_or] in W. unfold link_left in W. rewrite E1 in *. rewrite !bind_Ok in *.
  rewrite E2 in *. rewrite !bind_Ok in *. cbn [dn_next dn_prev] in *. unfold link_right in W.
  destruct (set_prev m1 (Some d) (Some b)) as [m2| |]; done.
Qed.

Lemma wp_insert_at s m ns i x (Q : scl_error_t * option scl_dlist_t * mem -> Prop) :
  dlist_of s m ns -> 0 <= i ->
  (zlen ns < i -> Q (SCL_ERR_INVALID_INDEX, Some s, m)) ->
  (forall L R r, ns = L ++ R -> zlen L = i -> inserted s L R x r -> Q r) ->
  wp (scl_dlist_insert_at al m (Some s) i (Some x)) Q.
Proof.
  intros R0 Hi HQ1 HQ2. pose proof (do_count _ _ _ R0) as Ec. pose proof (do_head _ _ _ R0) as Eh.
  pose proof (do_tail _ _ _ R0) as Et. pose proof (do_es _ _ _ R0) as Ees. pose proof (do_seg _ _ _ R0) as Hs.
  destruct s as [hd tl es' cnt]. cbn [dl_count dl_head dl_tail dl_element_size] in *. subst hd tl es' cnt.
  unfold scl_dlist_insert_at. rewrite Z.gtb_ltb. destruct (Z.ltb_spec (zlen ns) i); [wstep; by apply HQ1|].
  destruct (Z.eqb_spec i 0) as [->|].
  { eapply wp_dpush_front; [done|]. intros r Hr. by apply (HQ2 [] ns). }
  destruct (Z.eqb_spec i (zlen ns)) as [->|].
  { eapply wp_dpush_back; [done|]. intros r Hr. apply (HQ2 ns []); [by rewrite app_nil_r|done..]. }
  destruct (cut_at ns i ltac:(lia)) as (L & c & y & R & -> & <- & Hc).
  destruct (nodes_last_case L) as [->|(L' & b & z & ->)]; [done|].
  wstep. apply wp_walk_to; [done|pose proof (zlen_nonneg (L' ++ [(b, z)])); lia|].
  rewrite Hc. simpl fst. apply (wp_insert_middle _ _ _ _ _ _ _ _ _ _ R0).
  intros r Hr. by eapply (HQ2 (L' ++ [(b, z)]) ((c, y) :: R)).
Qed.

Lemma wp_remove_at s m ns i (Q : scl_error_t * option A * option scl_dlist_t * mem -> Prop) :
  dlist_of s m ns -> 0 <= i ->
  (zlen ns <= i -> Q (SCL_ERR_INVALID_INDEX, None, Some s, m)) ->
  (forall L a x R r, ns = L ++ (a, x) :: R -> zlen L = i -> removed L R x r -> Q r) ->
  wp (scl_dlist_remove_at m (Some s) i true) Q.
Proof.
  intros R0 Hi HQ1 HQ2. pose proof (do_count _ _ _ R0) as Ec. pose proof (do_head _ _ _ R0) as Eh.
  pose proof (do_tail _ _ _ R0) as Et. pose proof (do_es _ _ _ R0) as Ees. pose proof (do_seg _ _ _ R0) as Hs.
  pose proof (do_fits _ _ _ R0) as Hf. unfold PTRDIFF_MAX in Hf.
  destruct s as [hd tl es' cnt]. cbn [dl_count dl_head dl_tail dl_element_size] in *. subst hd tl es' cnt.
  unfold scl_dlist_remove_at. rewrite Z.geb_leb. destruct (Z.leb_spec (zlen ns) i); [wstep; by apply HQ1|].
  destruct (Z.eqb_spec i 0) as [->|].
  { destruct (cut_at ns 0 ltac:(lia)) as ([|] & c & y & R & -> & El & Hc).
    2:{ rewrite zlen_cons in El. pose proof (zlen_nonneg l). lia. }
    eapply wp_dpop_front; [exact R0|]. intros r Hr. by apply (HQ2 [] c y R). }
  assert (u64 (zlen ns - 1) = zlen ns - 1) as Eu by (apply u64_small; lia).
  rewrite Eu at 1. destruct (Z.eqb_spec i (zlen ns - 1)) as [->|].
  { destruct (nodes_last_case ns) as [->|(L & c & y & ->)]; [done|].
    eapply wp_dpop_back; [exact R0|]. intros r Hr. apply (HQ2 L c y []); [done| |done].
    rewrite zlen_app. change (zlen [(c, y)]) with 1. lia. }
  destruct (cut_at ns i ltac:(lia)) as (L & c & y & R & -> & <- & Hc).
  destruct (nodes_last_case L) as [->|(L' & b & z & ->)]; [done|].
  destruct R as [|[d v] R].
  { rewrite (zlen_app _ [(c, y)]) in *. change (zlen [(c, y)]) with 1 in *. lia. }
  wstep. apply wp_walk_to; [done|pose proof (zlen_nonneg (L' ++ [(b, z)])); lia|].
  rewrite Hc. simpl fst. apply (wp_remove_middle _ _ _ _ _ _ _ _ _ _ _ R0).
  intros r Hr. by eapply (HQ2 (L' ++ [(b, z)]) c y ((d, v) :: R)).
Qed.

Lemma dlist_destroy_spec st l :
  dlist_rep st l ->
  exists m', scl_dlist_destroy st.2 st.1 = Ok (Some (DList None None es 0), m') /\
    m_nodes m' = m_nodes base /\ live m' = live base.
Proof.
  intros (s & ns & E & [E1 E2 E3 E4 Hs Hh Hf] & _). destruct st as [s0 m]. cbn [fst snd] in *. subst s0.
  destruct s as [hd tl es' cnt]. cbn [dl_count dl_head dl_tail dl_element_size] in *. subst hd tl es' cnt.
  enough (wp (scl_dlist_destroy m (Some (DList (head_or ns None) (last_or None ns) es (zlen ns))))
    (fun '(s, m') => s = Some (DList None None es 0) /\ m_nodes m' = m_nodes base /\ live m' = live base))
    as ([s' m'] & -> & -> & H)%wp_ok by (by exists m').
  pose proof (zlen_nonneg ns). unfold scl_dlist_destroy. wstep. generalize (last_or None ns). intros _.
  apply (wp_loop_rel (fun k '(cur, m) => exists p ns, k = zlen ns /\ cur = head_or ns None /\
    dseg (m_nodes m) p ns None /\ holds base m ns.*1) (zlen ns)).
  - by exists None, ns.
  - lia.
  - lia.
  - clear. intros k [cur m] (p & ns & -> & -> & Hs & Hh). destruct ns as [|[a x] ns].
    { cbn [head_or]. wstep. split; [done|]. by apply (holds_none 1). }
    destruct Hs as [Ha Hs]. cbn [head_or]. wstep. eapply wp_load_node; [done|]. wstep.
    pose proof (holds_nodup _ _ _ _ Hh) as [Hn _]%NoDup_cons.
    eapply wp_free_node; [done|]. intros m' Em Hh'. wstep. exists (zlen ns). rewrite zlen_cons.
    pose proof (zlen_nonneg ns). split; [lia|]. exists (Some a), ns. split; [done|]. split; [done|]. split; [|done].
    rewrite Em. eapply dseg_frame; [|done]. intros b Hb. apply lookup_delete_ne. by intros ->.
Qed.

Lemma snd_nil ns : ns.*2 = [] <-> ns = [].
Proof. by destruct ns. Qed.

Lemma dlist_simulates : Simulates (dlist_step (A := A) al) dlist_spec dlist_rep.
Proof.
  intros [s0 m] l op (s & ns & E & R0 & <-). cbn [fst snd] in *. subst s0.
  pose proof (do_head _ _ _ R0) as Eh. pose proof (do_tail _ _ _ R0) as Et. pose proof (do_count _ _ _ R0) as Ec.
  pose proof (do_seg _ _ _ R0) as Hs.
  assert (dlist_rep (Some s, m) ns.*2) as R1 by (exists s, ns; done).
  assert (forall L R x op i, (forall l1 l2, l1 = L.*2 -> l2 = R.*2 -> dlist_spec (l1 ++ l2) op (Code SCL_OK) (l1 ++ x :: l2)) ->
    op = DLPushFront (Some x) \/ op = DLPushBack (Some x) \/ (op = DLInsert i (Some x) /\ u64 i <= zlen (L ++ R)) ->
    forall r, inserted s L R x r -> wp (let '(e, s, m) := r in mret (Code e, (s, m)))
      (fun '(out, st) => exists l', dlist_spec (L ++ R).*2 op out l' /\ dlist_rep st l')) as Hins.
  { intros L R x op' i Hok Hop [[e s'] m'] [(a & s1 & [= -> ->] & R')|(e' & He & [= -> ->] & R')]; cbn [snd] in R'; wstep.
    - exists (L ++ (a, x) :: R).*2. rewrite !fmap_app. split; [by apply Hok|]. exists s1, (L ++ (a, x) :: R). by rewrite fmap_app.
    - exists (L ++ R).*2. split; [|by exists s, (L ++ R)]. eapply (dls_refused _ op' x i); [|done]. by rewrite zlen_snd. }
  assert (forall L R x op, (forall l1 l2, l1 = L.*2 -> l2 = R.*2 -> dlist_spec (l1 ++ x :: l2) op (Value x) (l1 ++ l2)) ->
    forall a r, removed L R x r -> wp (let '(e, y, s, m) := r in mret (value_or e y, (s, m)))
      (fun '(out, st) => exists l', dlist_spec (L ++ (a, x) :: R).*2 op out l' /\ dlist_rep st l')) as Hrem.
  { intros L R x op' Hok a [[[e y] s'] m'] (s1 & [= -> -> ->] & R'). cbn [snd] in R'. wstep.
    exists (L ++ R).*2. rewrite !fmap_app. split; [by apply Hok|]. exists s1, (L ++ R). by rewrite fmap_app. }
  destruct op as [[x|]|[x|]|[|]|[|]|[|]|[|]|i [x|]|i [|]| | |[key|] [cmp|]|[key|] [cmp|] [|]];
    try (destruct s; exists ns.*2; split; [by constructor|exact R1]); cbn [dlist_step].
  - wstep. eapply wp_dpush_front; [done|]. intros r. apply (Hins [] ns x _ 0); [|auto].
    intros l1 l2 -> ->. constructor.
  - wstep. eapply wp_dpush_back; [done|]. intros r Hr. rewrite <- (app_nil_r ns). eapply (Hins ns [] x _ 0); [|auto|done].
    intros l1 l2 -> ->. rewrite app_nil_r. constructor.
  - wstep. destruct ns as [|[a x] ns].
    + destruct s. simpl in Eh. subst. simpl. exists []. split; [apply dls_none; auto|done].
    + eapply wp_dpop_front; [done|]. intros r. apply (Hrem [] ns x). intros l1 l2 -> ->. constructor.
  - wstep. destruct (nodes_last_case ns) as [->|(L & a & x & ->)].
    + destruct s. simpl in Et. subst. simpl. exists []. split; [apply dls_none; auto|done].
    + eapply wp_dpop_back; [done|]. intros r. apply (Hrem L [] x). intros l1 l2 -> ->. rewrite app_nil_r. constructor.
  - unfold scl_dlist_front. destruct ns as [|[a x] ns]; rewrite Eh; cbn [head_or].
    + simpl. exists []. split; [apply dls_none; auto|done].
    + destruct Hs as [Ha _]. wstep. wstep. eapply wp_load_node; [done|]. wstep. wstep.
      exists (x :: ns.*2). split; [constructor|done].
  - unfold scl_dlist_back. destruct (nodes_last_case ns) as [->|(L & a & x & ->)]; rewrite Et.
    + simpl. exists []. split; [apply dls_none; auto|done].
    + rewrite last_or_snoc. apply dseg_app in Hs as [_ [Ha _]]. wstep. wstep. eapply wp_load_node; [done|]. wstep. wstep.
      rewrite fmap_app in *. exists (L.*2 ++ [x]). split; [constructor|done].
  - wstep. pose proof (u64_range i). eapply wp_insert_at; [done|lia| |].
    + intros Hi. wstep. exists ns.*2. split; [|done]. apply (dls_index _ _ i). left. rewrite zlen_snd. eauto.
    + intros L R r -> El. eapply (Hins L R x _ i).
      * intros l1 l2 -> ->. constructor. by rewrite zlen_snd.
      * right. right. split; [done|]. rewrite <- El, zlen_app. pose proof (zlen_nonneg R). lia.
  - wstep. pose proof (u64_range i). eapply wp_remove_at; [done|lia| |].
    + intros Hi. wstep. exists ns.*2. split; [|done]. apply (dls_index _ _ i). right. by rewrite zlen_snd.
    + intros L a x R r -> El. apply (Hrem L R x). intros l1 l2 -> ->. constructor. by rewrite zlen_snd.
  - exists ns.*2. split; [|done]. simpl. rewrite Ec, <- zlen_snd. constructor.
  - exists ns.*2. split; [|done]. simpl. rewrite Ec.
    replace (zlen ns =? 0) with (bool_decide (ns.*2 = [])); [constructor|].
    destruct ns; [done|]. rewrite zlen_cons. pose proof (zlen_nonneg ns). by bcase; [lia|].
  - wstep. eapply wp_dremove; [done| |].
    + intros L a x R s' m' -> Hno Hx R'. wstep. exists (L ++ R).*2. rewrite !fmap_app.
      split; [by constructor|]. exists s', (L ++ R). by rewrite fmap_app.
    + intros Hno. wstep. exists ns.*2. split; [|done]. eapply dls_absent; eauto.
  - wstep. eapply wp_dlist_search; [done| |].
    + intros L a x R -> Hno Hx. wstep. exists (L ++ (a, x) :: R).*2. split; [|done].
      rewrite fmap_app. by constructor.
    + intros Hno. wstep. exists ns.*2. split; [|done]. eapply dls_absent; eauto.
Qed.
End Rep.

(** C22. The doubly linked list keeps its links consistent in both directions
    and refines a list: from a successful initialisation, in a store that may
    hold anything else, every sequence of operations at either end or at an
    index (reached from the nearer end), whatever the allocator answers, runs
    without following [NULL] or a dangling pointer, answers as the abstract
    list does (insertion is refused only for lack of memory and then changes
    nothing, an index out of range is reported), and destroying the list
    afterwards gives back exactly the nodes and blocks there were before. *)
Theorem dlist_refines {A} (al : scl_allocator_t) (m0 : mem (scl_dlist_node_t A)) (s0 : scl_dlist_t)
  (es : Z) (ops : list (dlist_op A)) (Hes : 1 <= es < 2 ^ 64) :
  exists s1, scl_dlist_init (Some s0) es = (SCL_OK, Some s1) /\
  exists outs s2 m2 l m3, run (dlist_step al) (Some s1, m0) ops = Ok (outs, (s2, m2)) /\
    trace dlist_spec [] ops outs l /\
    (exists s ns, s2 = Some s /\ ns.*2 = l /\ dl_head s = head_or ns None /\ dl_tail s = last_or None ns /\
       dl_count s = zlen l /\ dseg (m_nodes m2) None ns None) /\
    scl_dlist_destroy m2 s2 = Ok (Some (DList None None es 0), m3) /\
    m_nodes m3 = m_nodes m0 /\ live m3 = live m0.
Proof.
  exists (DList None None es 0). unfold scl_dlist_init. destruct (Z.eqb_spec es 0); [lia|]. split; [done|].
  assert (dlist_rep es m0 (Some (DList None None es 0), m0) []) as R.
  { eexists _, []. split; [done|]. split; [|done]. split; try done. apply holds_nil. }
  pose proof (dlist_simulates al es m0) as Sim.
  destruct (proj1 (wp_ok _ _) (run_refines _ _ _ _ [] ops R)) as ([outs [s2 m2]] & E & l & T & R2).
  destruct (dlist_destroy_spec _ _ _ _ R2) as (m3 & E3 & H3). exists outs, s2, m2, l, m3.
  split; [done|]. split; [done|]. split; [|done]. destruct R2 as (s & ns & Es & [? ? ? Ec ? ? ?] & El).
  exists s, ns. rewrite Ec, <- El, zlen_snd. done.
Qed.

Lemma dlist_refines_witness :
  exists outs l, trace (dlist_spec (A := Z)) []
    [DLPushFront (Some 1); DLPushBack (Some 3); DLInsert 1 (Some 2); DLRemoveAt 0 true] outs l.
Proof.
  destruct (dlist_refines small_allocator (Mem (World 0 0) ∅) (DList None None 0 0) 8
    [DLPushFront (Some 1); DLPushBack (Some 3); DLInsert 1 (Some 2); DLRemoveAt 0 true] ltac:(lia))
    as (_ & _ & outs & _ & _ & l & _ & _ & T & _).
  exists outs, l. exact T.
Defined.
