(* ===== verification/Lru.v ===== *)
(** The least-recently-used cache of [libs/structures/lru/scl_lru.c]: nodes in a
    doubly linked list from the most to the least recently used one, and in the
    chains of a hash index.  It refines the list of its bindings in that
    order. *)

From stdpp Require Import gmap.
From S2P Require Import Prelude Core Store Refine Containers SList DList.
#[local] Open Scope Z_scope.

(** [sizeof(scl_lru_node_t)] without its data. *)
Definition LRU_NODE_SIZE : Z := 40.

(** A key is its bytes; the value is opaque. *)
Notation key := (list Z).

Record scl_lru_node_t (V : Type) : Type := LNode {
  ln_prev : addr;
  ln_next : addr;
  ln_next_hash : addr;
  ln_key : key;
  ln_value : V
}.
Arguments LNode {V}.
Arguments ln_prev {V}.
Arguments ln_next {V}.
Arguments ln_next_hash {V}.
Arguments ln_key {V}.
Arguments ln_value {V}.

(** [key_cmp] is always [NULL] and never read. *)
Record scl_lru_t : Type := Lru {
  lr_head : addr;
  lr_tail : addr;
  lr_capacity : Z;
  lr_count : Z;
  lr_key_size : Z;
  lr_value_size : Z;
  lr_index : ptr addr;
  lr_index_capacity : Z;
  lr_key_hash : key -> Z -> Z
}.

Definition scl_lru_default_hash (k : key) (key_size : Z) : Z :=
  fold_left (fun h c => u64 (u64 (u64 (Z.shiftl h 5) + h) + c)) (take (Z.to_nat key_size) k) 5381.

Definition with_ends (c : scl_lru_t) (head tail : addr) : scl_lru_t :=
  Lru head tail (lr_capacity c) (lr_count c) (lr_key_size c) (lr_value_size c) (lr_index c) (lr_index_capacity c) (lr_key_hash c).
Definition with_index (c : scl_lru_t) (index : ptr addr) (count : Z) : scl_lru_t :=
  Lru (lr_head c) (lr_tail c) (lr_capacity c) count (lr_key_size c) (lr_value_size c) index (lr_index_capacity c) (lr_key_hash c).

Section Defs.
Context {V : Type} (al : scl_allocator_t).
Notation node := (scl_lru_node_t V).
Notation mem := (mem node).
Implicit Types (m : mem) (c : scl_lru_t) (cache : option scl_lru_t) (n : node).

Definition modify m (p : addr) (f : node -> node) : res mem := n ← load m p; store m p (f n).
Definition put_next (q : addr) n : node := LNode (ln_prev n) q (ln_next_hash n) (ln_key n) (ln_value n).
Definition put_prev (q : addr) n : node := LNode q (ln_next n) (ln_next_hash n) (ln_key n) (ln_value n).
Definition put_next_hash (q : addr) n : node := LNode (ln_prev n) (ln_next n) q (ln_key n) (ln_value n).
Definition put_value (v : V) n : node := LNode (ln_prev n) (ln_next n) (ln_next_hash n) (ln_key n) v.

Definition scl_lru_init m cache (key_size value_size capacity : Z) : scl_error_t * option scl_lru_t * mem :=
  match cache with
  | None => (SCL_ERR_NULL_PTR, None, m)
  | Some c0 =>
      if (key_size =? 0) || (value_size =? 0) || (capacity =? 0) then (SCL_ERR_INVALID_ARG, cache, m)
      else if capacity >? SIZE_MAX / 2
      then (SCL_ERR_SIZE_OVERFLOW, Some (Lru None None capacity 0 key_size value_size (lr_index c0) (lr_index_capacity c0) scl_lru_default_hash), m)
      else
        let index_capacity := capacity * 2 in
        let '(index, w) := scl_calloc (A := addr) al (m_world m) index_capacity 8 MAX_ALIGN None in
        (match index with Some _ => SCL_OK | None => SCL_ERR_OUT_OF_MEMORY end,
         Some (Lru None None capacity 0 key_size value_size (to_ptr index) index_capacity scl_lru_default_hash), Mem w (m_nodes m))
  end.

(** The contents are zeroed before a node is freed. *)
Definition free_nodes m (count : Z) (head : addr) : res mem :=
  loop (S (Z.to_nat count))
    (fun '(cur, m) =>
       match cur with
       | None => mret (inr m)
       | Some _ => n ← load m cur; let next := ln_next n in m ← free_node m cur; mret (inl (next, m))
       end) (head, m).

Definition scl_lru_destroy m cache : res (option scl_lru_t * mem) :=
  match cache with
  | None => mret (None, m)
  | Some c =>
      m ← free_nodes m (lr_count c) (lr_head c);
      w ← free_ptr (m_world m) (lr_index c);
      mret (Some (Lru None None (lr_capacity c) 0 (lr_key_size c) (lr_value_size c) Null (lr_index_capacity c) (lr_key_hash c)), Mem w (m_nodes m))
  end.

Definition scl_lru_detach m c (p : addr) : res (scl_lru_t * mem) :=
  n ← load m p;
  '(head, m) ← match ln_prev n with
               | Some _ => m ← modify m (ln_prev n) (put_next (ln_next n)); mret (lr_head c, m)
               | None => mret (ln_next n, m)
               end;
  n ← load m p;
  '(tail, m) ← match ln_next n with
               | Some _ => m ← modify m (ln_next n) (put_prev (ln_prev n)); mret (lr_tail c, m)
               | None => mret (ln_prev n, m)
               end;
  mret (with_ends c head tail, m).

(** [node->next = head; node->prev = NULL; if (head) head->prev = node;
    head = node; if (!tail) tail = node;] *)
Definition link_front m c (p : addr) : res (scl_lru_t * mem) :=
  m ← modify m p (put_next (lr_head c));
  m ← modify m p (put_prev None);
  m ← match lr_head c with Some _ => modify m (lr_head c) (put_prev p) | None => mret m end;
  mret (with_ends c p (match lr_tail c with None => p | _ => lr_tail c end), m).

Definition scl_lru_move_to_front m c (p : addr) : res (scl_lru_t * mem) :=
  '(c, m) ← scl_lru_detach m c p; link_front m c p.

Definition scl_lru_index_of c (k : key) : Z := lr_key_hash c k (lr_key_size c) mod lr_index_capacity c.

Definition scl_lru_find_node m c (k : key) : res addr :=
  cur ← get_elem (lr_index c) (scl_lru_index_of c k);
  loop (S (Z.to_nat (lr_count c)))
    (fun cur =>
       match cur with
       | Some _ => n ← load m cur; if bool_decide (ln_key n = k) then mret (inr cur) else mret (inl (ln_next_hash n))
       | None => mret (inr None)
       end) cur.

(** [while ( *pp) { if ( *pp == old) { *pp = old->next_hash; break; } pp =
    &( *pp)->next_hash; }]: [pp] points into the index ([None]) or into a node. *)
Definition unlink_hash m c (p : addr) : res (scl_lru_t * mem) :=
  n ← load m p;
  let idx := scl_lru_index_of c (ln_key n) in
  first ← get_elem (lr_index c) idx;
  loop (S (S (Z.to_nat (lr_count c))))
    (fun '(pp, cur) =>
       match cur with
       | None => mret (inr (c, m))
       | Some _ =>
           if decide (cur = p) then
             o ← load m p;
             match pp with
             | None => index ← set_elem (lr_index c) idx (ln_next_hash o); mret (inr (with_index c index (lr_count c), m))
             | Some _ => m ← modify m pp (put_next_hash (ln_next_hash o)); mret (inr (c, m))
             end
           else n ← load m cur; mret (inl (cur, ln_next_hash n))
       end) (None, first).

(** What [scl_lru_evict] and [scl_lru_remove] do to a node. *)
Definition drop_node m c (p : addr) : res (scl_lru_t * mem) :=
  '(c, m) ← scl_lru_detach m c p;
  '(c, m) ← unlink_hash m c p;
  m ← free_node m p;
  mret (with_index c (lr_index c) (u64 (lr_count c - 1)), m).

Definition scl_lru_evict m c : res (scl_lru_t * mem) :=
  match lr_tail c with
  | None => mret (c, m)
  | Some _ => drop_node m c (lr_tail c)
  end.

Definition scl_lru_put m cache (k : option key) (value : option V) : res (scl_error_t * option scl_lru_t * mem) :=
  match cache, k, value with
  | Some c, Some k, Some v =>
      p ← scl_lru_find_node m c k;
      match p with
      | Some _ =>
          m ← modify m p (put_value v);
          '(c, m) ← scl_lru_move_to_front m c p;
          mret (SCL_OK, Some c, m)
      | None =>
          '(c, m) ← (if lr_count c =? lr_capacity c then scl_lru_evict m c else mret (c, m));
          match scl_add_overflow LRU_NODE_SIZE (u64 (lr_key_size c + lr_value_size c)) with
          | None => mret (SCL_ERR_SIZE_OVERFLOW, Some c, m)
          | Some total_sz =>
              match alloc_node al m total_sz (LNode None None None k v) with
              | (None, m) => mret (SCL_ERR_OUT_OF_MEMORY, Some c, m)
              | (p, m) =>
                  if u64 (lr_key_size c + lr_value_size c) <? lr_key_size c + lr_value_size c then UB
                  else
                    '(c, m) ← link_front m c p;
                    let idx := scl_lru_index_of c k in
                    first ← get_elem (lr_index c) idx;
                    m ← modify m p (put_next_hash first);
                    index ← set_elem (lr_index c) idx p;
                    mret (SCL_OK, Some (with_index c index (u64 (lr_count c + 1))), m)
              end
          end
      end
  | _, _, _ => mret (SCL_ERR_NULL_PTR, cache, m)
  end.

Definition scl_lru_get m cache (k : option key) (out : bool) : res (scl_error_t * option V * option scl_lru_t * mem) :=
  match cache, k, out with
  | Some c, Some k, true =>
      p ← scl_lru_find_node m c k;
      match p with
      | None => mret (SCL_ERR_NOT_FOUND, None, cache, m)
      | Some _ =>
          n ← load m p;
          '(c, m) ← scl_lru_move_to_front m c p;
          mret (SCL_OK, Some (ln_value n), Some c, m)
      end
  | _, _, _ => mret (SCL_ERR_NULL_PTR, None, cache, m)
  end.

Definition scl_lru_contains m cache (k : option key) : res bool :=
  match cache, k with
  | Some c, Some k => p ← scl_lru_find_node m c k; mret (match p with Some _ => true | None => false end)
  | _, _ => mret false
  end.

Definition scl_lru_remove m cache (k : option key) : res (scl_error_t * option scl_lru_t * mem) :=
  match cache, k with
  | Some c, Some k =>
      p ← scl_lru_find_node m c k;
      match p with
      | None => mret (SCL_ERR_NOT_FOUND, cache, m)
      | Some _ => '(c, m) ← drop_node m c p; mret (SCL_OK, Some c, m)
      end
  | _, _ => mret (SCL_ERR_NULL_PTR, cache, m)
  end.

Definition scl_lru_clear m cache : res (option scl_lru_t * mem) :=
  match cache with
  | None => mret (None, m)
  | Some c =>
      m ← free_nodes m (lr_count c) (lr_head c);
      index ← zfor 0 (lr_index_capacity c) (fun i index => set_elem index i None) (lr_index c);
      mret (Some (with_index (with_ends c None None) index 0), m)
  end.

Definition scl_lru_count cache : Z := match cache with Some c => lr_count c | None => 0 end.
End Defs.

Inductive lru_op (V : Type) : Type :=
| LPut (k : option key) (v : option V)
| LGet (k : option key) (out : bool)
| LContains (k : option key)
| LRemove (k : option key)
| LClear
| LCount.
Arguments LPut {V}.
Arguments LGet {V}.
Arguments LContains {V}.
Arguments LRemove {V}.
Arguments LClear {V}.
Arguments LCount {V}.

Section Step.
Context {V : Type} (al : scl_allocator_t) (capacity : Z).
Notation state := (option scl_lru_t * mem (scl_lru_node_t V))%type.
Implicit Types (l : list (key * V)).

Definition lru_step (st : state) (op : lru_op V) : res (reply V * state) :=
  let '(c, m) := st in
  match op with
  | LPut k v => '(e, c, m) ← scl_lru_put al m c k v; mret (Code e, (c, m))
  | LGet k out => '(e, v, c, m) ← scl_lru_get m c k out; mret (value_or e v, (c, m))
  | LContains k => b ← scl_lru_contains m c k; mret (Flag b, (c, m))
  | LRemove k => '(e, c, m) ← scl_lru_remove m c k; mret (Code e, (c, m))
  | LClear => '(c, m) ← scl_lru_clear m c; mret (Code SCL_OK, (c, m))
  | LCount => mret (Size (scl_lru_count c), (c, m))
  end.

(** ** The abstract cache: its bindings, the most recently used one first. *)
Definition evicted l : list (key * V) := if zlen l =? capacity then take (length l - 1) l else l.

Inductive lru_spec : list (key * V) -> lru_op V -> reply V -> list (key * V) -> Prop :=
| ls_put_hit l1 l2 k v0 v : lru_spec (l1 ++ (k, v0) :: l2) (LPut (Some k) (Some v)) (Code SCL_OK) ((k, v) :: l1 ++ l2)
| ls_put_new l k v : k ∉ l.*1 -> lru_spec l (LPut (Some k) (Some v)) (Code SCL_OK) ((k, v) :: evicted l)
| ls_put_refused l k v e : k ∉ l.*1 -> e = SCL_ERR_SIZE_OVERFLOW \/ e = SCL_ERR_OUT_OF_MEMORY ->
    lru_spec l (LPut (Some k) (Some v)) (Code e) (evicted l)
| ls_put_null l k v : k = None \/ v = None -> lru_spec l (LPut k v) (Code SCL_ERR_NULL_PTR) l
| ls_get_hit l1 l2 k v : lru_spec (l1 ++ (k, v) :: l2) (LGet (Some k) true) (Value v) ((k, v) :: l1 ++ l2)
| ls_get_miss l k : k ∉ l.*1 -> lru_spec l (LGet (Some k) true) (Code SCL_ERR_NOT_FOUND) l
| ls_get_null l k out : k = None \/ out = false -> lru_spec l (LGet k out) (Code SCL_ERR_NULL_PTR) l
| ls_contains l k : lru_spec l (LContains (Some k)) (Flag (bool_decide (k ∈ l.*1))) l
| ls_contains_null l : lru_spec l (LContains None) (Flag false) l
| ls_remove_hit l1 l2 k v : lru_spec (l1 ++ (k, v) :: l2) (LRemove (Some k)) (Code SCL_OK) (l1 ++ l2)
| ls_remove_miss l k : k ∉ l.*1 -> lru_spec l (LRemove (Some k)) (Code SCL_ERR_NOT_FOUND) l
| ls_remove_null l : lru_spec l (LRemove None) (Code SCL_ERR_NULL_PTR) l
| ls_clear l : lru_spec l LClear (Code SCL_OK) []
| ls_count l : lru_spec l LCount (Size (zlen l)) l.
End Step.

(** ** The two structures threaded through the nodes

    [as_list] shows a store as one of doubly linked nodes, so that the segments
    of [DList] apply; [hash_links] shows the links of the chains. *)
Section Views.
Context {V : Type}.
Notation node := (scl_lru_node_t V).
Notation mem := (mem node).
Notation entry := (positive * (key * V))%type.
Implicit Types (m : mem) (ns L R : list entry) (n : node).

Definition as_list m : gmap positive (scl_dlist_node_t (key * V)) := (fun n => DNode (ln_prev n) (ln_next n) (ln_key n, ln_value n)) <$> m_nodes m.
Definition hash_links m : gmap positive addr := ln_next_hash <$> m_nodes m.

Lemma as_list_at m a n : m_nodes m !! a = Some n -> as_list m !! a = Some (DNode (ln_prev n) (ln_next n) (ln_key n, ln_value n)).
Proof. intros E. unfold as_list. by rewrite lookup_fmap, E. Qed.

Lemma as_list_inv m a p q k v : as_list m !! a = Some (DNode p q (k, v)) -> exists h, m_nodes m !! a = Some (LNode p q h k v).
Proof.
  unfold as_list. rewrite lookup_fmap. destruct (m_nodes m !! a) as [[p' q' h k' v']|]; [|done]. intros [= -> -> -> ->]. by exists h.
Qed.

(** What a change of one node amounts to in the views. *)
Definition changed m (a : positive) n : mem := Mem (m_world m) (<[a := n]> (m_nodes m)).

Lemma as_list_changed m a n : as_list (changed m a n) = <[a := DNode (ln_prev n) (ln_next n) (ln_key n, ln_value n)]> (as_list m).
Proof. unfold as_list, changed. simpl. by rewrite fmap_insert. Qed.

Lemma hash_links_same m a n0 n : m_nodes m !! a = Some n0 -> ln_next_hash n = ln_next_hash n0 -> hash_links (changed m a n) = hash_links m.
Proof. intros E Hn. unfold hash_links, changed. simpl. rewrite fmap_insert, Hn. apply insert_id. by rewrite lookup_fmap, E. Qed.

Lemma as_list_same m a n0 n : m_nodes m !! a = Some n0 -> ln_prev n = ln_prev n0 -> ln_next n = ln_next n0 -> ln_key n = ln_key n0 -> ln_value n = ln_value n0 ->
  as_list (changed m a n) = as_list m.
Proof. intros E H1 H2 H3 H4. rewrite as_list_changed, H1, H2, H3, H4. apply insert_id. unfold as_list. by rewrite lookup_fmap, E. Qed.

Lemma wp_modify m a n f (Q : mem -> Prop) : m_nodes m !! a = Some n -> Q (changed m a (f n)) -> wp (modify m (Some a) f) Q.
Proof. intros E HQ. unfold modify. wstep. eapply wp_load_node; [done|]. by eapply wp_store_node. Qed.

(** [m'] differs from [m] in the list links of the nodes [ks] only. *)
Record relinks (base m m' : mem) (ks : list positive) : Prop := Relinks {
  rk_holds : forall l, (forall a, a ∈ ks -> a ∈ l) -> holds base m l -> holds base m' l;
  rk_others : forall a, a ∉ ks -> m_nodes m' !! a = m_nodes m !! a;
  rk_hash : hash_links m' = hash_links m
}.

Lemma relinks_refl base m ks : relinks base m m ks.
Proof. by split. Qed.

Lemma relinks_trans base m m1 m2 ks1 ks2 : relinks base m m1 ks1 -> relinks base m1 m2 ks2 -> relinks base m m2 (ks1 ++ ks2).
Proof.
  intros [A1 A2 A3] [B1 B2 B3]. split.
  - intros l Hl Hm. apply B1; [set_solver|]. apply A1; [set_solver|done].
  - intros a Ha. rewrite B2, A2 by set_solver. done.
  - by rewrite B3.
Qed.

Lemma relinks_one base m a n0 n : m_nodes m !! a = Some n0 -> ln_next_hash n = ln_next_hash n0 -> relinks base m (changed m a n) [a].
Proof.
  intros E Hn. split.
  - intros l Hl. apply holds_update. apply Hl. by left.
  - intros b Hb. unfold changed. simpl. rewrite lookup_insert_ne; [done|]. intros ->. apply Hb. by left.
  - by eapply hash_links_same.
Qed.

Lemma relinks_seg base m m' ks p ns q : relinks base m m' ks -> (forall a, a ∈ ns.*1 -> a ∉ ks) -> dseg (as_list m) p ns q -> dseg (as_list m') p ns q.
Proof. intros [_ H _] Hd. apply dseg_frame. intros a Ha. unfold as_list. rewrite !lookup_fmap. by rewrite H by auto. Qed.

Lemma seg_at m p L a k v R q : dseg (as_list m) p (L ++ (a, (k, v)) :: R) q -> exists h, m_nodes m !! a = Some (LNode (last_or p L) (head_or R q) h k v).
Proof. intros (_ & Ha & _)%dseg_app. by apply as_list_inv. Qed.

(** Redirecting what follows [L], or precedes [R]. *)
Lemma wp_relink_left base m c L q q' (Q : addr * mem -> Prop) :
  NoDup L.*1 -> dseg (as_list m) None L q -> lr_head c = head_or L q ->
  (forall m', relinks base m m' L.*1 -> dseg (as_list m') None L q' -> Q (head_or L q', m')) ->
  wp (match last_or None L with Some _ => m ← modify m (last_or None L) (put_next q'); mret (lr_head c, m) | None => mret (q', m) end) Q.
Proof.
  intros Hn Hs Hh HQ. destruct (nodes_last_case L) as [->|(L' & b & [k v] & ->)].
  - simpl. apply HQ; [apply relinks_refl|done].
  - rewrite last_or_snoc. destruct (seg_at m None L' b k v [] q Hs) as [h Hb]. wstep. eapply wp_modify; [exact Hb|]. wstep.
    rewrite Hh. replace (head_or (L' ++ [(b, (k, v))]) q) with (head_or (L' ++ [(b, (k, v))]) q') by (by rewrite !head_or_app). apply HQ.
    + eapply (Relinks _ _ _ _); [intros l Hl; apply holds_update, Hl; rewrite fmap_app; apply elem_of_app; right; by left| |by eapply hash_links_same].
      intros a Ha. unfold changed. simpl. rewrite lookup_insert_ne; [done|]. intros ->. apply Ha. rewrite fmap_app. apply elem_of_app. right. by left.
    + rewrite as_list_changed. by apply (dseg_relink_last _ _ _ _ _ q).
Qed.

Lemma wp_relink_right base m c R p p' (Q : addr * mem -> Prop) :
  NoDup R.*1 -> dseg (as_list m) p R None -> lr_tail c = last_or p R ->
  (forall m', relinks base m m' R.*1 -> dseg (as_list m') p' R None -> Q (last_or p' R, m')) ->
  wp (match head_or R None with Some _ => m ← modify m (head_or R None) (put_prev p'); mret (lr_tail c, m) | None => mret (p', m) end) Q.
Proof.
  intros Hn Hs Ht HQ. destruct R as [|[b [k v]] R].
  - simpl. apply HQ; [apply relinks_refl|done].
  - destruct (seg_at m p [] b k v R None Hs) as [h Hb]. cbn [head_or]. wstep. eapply wp_modify; [exact Hb|]. wstep.
    rewrite Ht, last_or_cons, <- (last_or_cons p' b (k, v) R). apply HQ.
    + eapply (Relinks _ _ _ _); [intros l Hl; apply holds_update, Hl; by left| |by eapply hash_links_same].
      intros a Ha. unfold changed. simpl. rewrite lookup_insert_ne; [done|]. intros ->. apply Ha. by left.
    + rewrite as_list_changed. by apply (dseg_relink_first _ p).
Qed.
End Views.

Section Invariant.
Context {V : Type}.
Notation node := (scl_lru_node_t V).
Notation mem := (mem node).
Notation entry := (positive * (key * V))%type.
Context (cap icap ks vs : Z) (hf : key -> Z -> Z) (base : mem).
Implicit Types (m : mem) (ns L R : list entry) (n : node) (c : scl_lru_t) (bucket : Z -> list positive).

Record fields c : Prop := Fields {
  fi_capacity : lr_capacity c = cap;
  fi_index_capacity : lr_index_capacity c = icap;
  fi_key_size : lr_key_size c = ks;
  fi_value_size : lr_value_size c = vs;
  fi_hash : lr_key_hash c = hf
}.

(** The list of the nodes [ns]. *)
Record linked c m ns : Prop := Linked {
  li_head : lr_head c = head_or ns None;
  li_tail : lr_tail c = last_or None ns;
  li_seg : dseg (as_list m) None ns None
}.

Definition slot (k : key) : Z := hf k ks mod icap.

Fixpoint hchain (h : gmap positive addr) (p : addr) (l : list positive) : Prop :=
  match l with [] => p = None | a :: l => p = Some a /\ exists q, h !! a = Some q /\ hchain h q l end.

(** The index: the chain of every slot holds the nodes of [ns] whose keys
    belong there. *)
Record indexed c m ns bucket : Prop := Indexed {
  ix_block : exists b, lr_index c = Ptr b /\ zlen b = icap /\
    forall i, 0 <= i < icap -> exists p, zlook b i = Some (Some p) /\ hchain (hash_links m) p (bucket i);
  ix_nodup : forall i, NoDup (bucket i);
  ix_nodes : forall i a, a ∈ bucket i <-> exists k v, (a, (k, v)) ∈ ns /\ slot k = i
}.

Context (Hicap : 0 < icap) (Hcap : 1 <= cap <= PTRDIFF_MAX).

Lemma slot_range k : 0 <= slot k < icap.
Proof. apply Z.mod_pos_bound. done. Qed.

Lemma hchain_frame h h' p l : (forall a, a ∈ l -> h' !! a = h !! a) -> hchain h p l -> hchain h' p l.
Proof.
  revert p. induction l as [|a l IH]; intros p E; [done|]. intros (-> & q & Hq & Hc). split; [done|]. exists q. split; [by rewrite E by left|].
  apply IH; [|done]. intros b Hb. apply E. by right.
Qed.

(** ** The list *)
Lemma fields_ends c head tail : fields c -> fields (with_ends c head tail).
Proof. by intros []. Qed.
Lemma fields_index c index count : fields c -> fields (with_index c index count).
Proof. by intros []. Qed.

Lemma node_split L a (x : key * V) R : NoDup (L ++ (a, x) :: R).*1 -> NoDup L.*1 /\ NoDup R.*1 /\ (forall b, b ∈ L.*1 -> b ∉ R.*1) /\ a ∉ L.*1 /\ a ∉ R.*1.
Proof.
  rewrite fmap_app, fmap_cons. intros (H1 & H2 & [H3 H4]%NoDup_cons)%NoDup_app. split; [done|]. split; [done|].
  split; [intros b Hb Hb'; apply (H2 b Hb); by right|]. split; [intros Ha; apply (H2 a Ha); by left|done].
Qed.

Lemma wp_detach c m L a k v R (Q : scl_lru_t * mem -> Prop) :
  linked c m (L ++ (a, (k, v)) :: R) -> NoDup (L ++ (a, (k, v)) :: R).*1 ->
  (forall m', relinks base m m' (L ++ R).*1 -> linked (with_ends c (head_or (L ++ R) None) (last_or None (L ++ R))) m' (L ++ R) ->
     Q (with_ends c (head_or (L ++ R) None) (last_or None (L ++ R)), m')) ->
  wp (scl_lru_detach m c (Some a)) Q.
Proof.
  intros [Hh Ht Hs] Hd HQ. destruct (node_split L a (k, v) R Hd) as (NL & NR & HLR & HaL & HaR). pose proof Hs as (S1 & _ & S2)%dseg_app.
  destruct (seg_at m None L a k v R None Hs) as [h Ha]. unfold scl_lru_detach. wstep. eapply wp_load_node; [exact Ha|]. cbn [ln_prev ln_next].
  rewrite head_or_app in Hh. cbn [head_or] in Hh. wstep. apply (wp_relink_left base m c L (Some a) (head_or R None)); [done|exact S1|exact Hh|].
  intros m1 R1 S1'. pose proof (rk_others _ _ _ _ R1 a HaL) as Ha1. rewrite Ha in Ha1. wstep. eapply wp_load_node; [exact Ha1|]. cbn [ln_prev ln_next].
  rewrite last_or_app, last_or_cons in Ht. wstep. apply (wp_relink_right base m1 c R (Some a) (last_or None L)); [done| |exact Ht|].
  { eapply relinks_seg; [exact R1|intros b Hb Hb'; by apply (HLR b)|exact S2]. }
  intros m2 R2 S2'. wstep. rewrite <- head_or_app, <- last_or_app. apply HQ.
  - rewrite fmap_app. by eapply relinks_trans.
  - split; [done|done|]. apply dseg_app. split; [|done]. eapply relinks_seg; [exact R2|exact HLR|exact S1'].
Qed.

Lemma wp_link_front c m ns a n (Q : scl_lru_t * mem -> Prop) :
  linked c m ns -> NoDup ns.*1 -> a ∉ ns.*1 -> m_nodes m !! a = Some n ->
  (forall m', relinks base m m' (a :: ns.*1) -> linked (with_ends c (Some a) (last_or None ((a, (ln_key n, ln_value n)) :: ns))) m' ((a, (ln_key n, ln_value n)) :: ns) ->
     Q (with_ends c (Some a) (last_or None ((a, (ln_key n, ln_value n)) :: ns)), m')) ->
  wp (link_front m c (Some a)) Q.
Proof.
  intros [Hh Ht Hs] Hd Ha Hn HQ. unfold link_front. wstep. eapply wp_modify; [exact Hn|]. set (n1 := put_next (lr_head c) n).
  assert (m_nodes (changed m a n1) !! a = Some n1) as Hn1 by (unfold changed; simpl; apply lookup_insert_eq).
  wstep. eapply wp_modify; [exact Hn1|]. set (n2 := put_prev None n1). set (m2 := changed (changed m a n1) a n2).
  assert (relinks base m m2 [a]) as R2.
  { assert (relinks base m m2 ([a] ++ [a])) as [H1 H2 H3].
    { eapply relinks_trans; [by apply (relinks_one base m a n n1)|by apply (relinks_one base (changed m a n1) a n1 n2)]. }
    split; [intros l Hl; apply H1; set_solver|intros b Hb; apply H2; set_solver|done]. }
  assert (m_nodes m2 !! a = Some n2) as Hn2 by (unfold m2, changed; simpl; apply lookup_insert_eq).
  assert (dseg (as_list m2) None ns None) as Hs2.
  { eapply relinks_seg; [exact R2| |exact Hs]. intros b Hb ->%list_elem_of_singleton. done. }
  assert (last_or None ((a, (ln_key n, ln_value n)) :: ns) = match lr_tail c with None => Some a | _ => lr_tail c end) as Etail.
  { rewrite Ht, last_or_cons. unfold last_or. by destruct (last ns.*1). }
  rewrite Etail in HQ. destruct ns as [|[b [k' v']] ns].
  - rewrite Hh in *. cbn [head_or] in *. wstep. wstep. wstep. apply HQ; [exact R2|]. split; [done| |].
    + cbn [lr_tail with_ends]. by rewrite <- Etail.
    + split; [|done]. rewrite (as_list_at m2 a n2 Hn2). unfold n2, n1. simpl. by rewrite Hh.
  - rewrite Hh in *. cbn [head_or] in *. destruct (seg_at m2 None [] b k' v' ns None Hs2) as [h Hb].
    wstep. eapply wp_modify; [exact Hb|]. wstep. cbn [fmap] in *.
    assert (a <> b) as Hab by (intros ->; apply Ha; by left).
    set (m3 := changed m2 b _). assert (relinks base m m3 ([a] ++ [b])) as R3 by (eapply relinks_trans; [exact R2|by eapply relinks_one]).
    apply HQ.
    + destruct R3 as [H1 H2 H3]. split; [intros l Hl; apply H1; set_solver|intros x Hx; apply H2; set_solver|done].
    + split; [done|cbn [lr_tail with_ends]; by rewrite <- Etail|].
      assert (as_list m3 = <[b := DNode (Some a) (head_or ns None) (k', v')]> (as_list m2)) as Em3 by (unfold m3; by rewrite as_list_changed).
      rewrite Em3. split; [rewrite lookup_insert_ne by done; rewrite (as_list_at m2 a n2 Hn2); unfold n2, n1; simpl; by rewrite Hh|].
      apply (dseg_relink_first _ None); [done|exact Hs2].
Qed.

(** ** The chains *)
Lemma wp_index_get c m ns bucket i (Q : addr -> Prop) : indexed c m ns bucket -> 0 <= i < icap ->
  (forall p, hchain (hash_links m) p (bucket i) -> Q p) -> wp (get_elem (lr_index c) i) Q.
Proof. intros [(b & -> & _ & Hb) _ _] Hi HQ. destruct (Hb i Hi) as (p & Hp & Hc). eapply wp_get_elem; [exact Hp|by apply HQ]. Qed.

Lemma bucket_len c m ns bucket i : indexed c m ns bucket -> (length (bucket i) <= length ns)%nat.
Proof.
  intros [_ N H]. rewrite <- (length_fmap fst ns). apply submseteq_length, NoDup_submseteq; [done|]. intros a (k & v & Hin & _)%H.
  by apply (list_elem_of_fmap_2 fst) in Hin.
Qed.

Lemma entry_at m ns a k v : dseg (as_list m) None ns None -> (a, (k, v)) ∈ ns -> exists p q h, m_nodes m !! a = Some (LNode p q h k v).
Proof.
  intros Hs (L & R & ->)%list_elem_of_split. destruct (seg_at m None L a k v R None Hs) as [h Ha]. eauto.
Qed.

Lemma key_unique (ns : list entry) a b k v v' : NoDup ns.*2.*1 -> (a, (k, v)) ∈ ns -> (b, (k, v')) ∈ ns -> (a, (k, v)) = (b, (k, v')).
Proof.
  intros N (i & Hi)%list_elem_of_lookup (j & Hj)%list_elem_of_lookup. assert (i = j) as ->; [|congruence].
  eapply (NoDup_lookup _ i j k); [exact N| |]; by rewrite !list_lookup_fmap, ?Hi, ?Hj.
Qed.

Lemma wp_lru_find c m ns bucket k (Q : addr -> Prop) :
  fields c -> indexed c m ns bucket -> dseg (as_list m) None ns None -> lr_count c = zlen ns ->
  (forall a v, (a, (k, v)) ∈ ns -> Q (Some a)) -> (k ∉ ns.*2.*1 -> Q None) -> wp (scl_lru_find_node m c k) Q.
Proof.
  intros F I Hs Hcnt HQ1 HQ2. unfold scl_lru_find_node, scl_lru_index_of. rewrite (fi_index_capacity _ F), (fi_key_size _ F), (fi_hash _ F). fold (slot k).
  wstep. eapply wp_index_get; [exact I|apply slot_range|]. intros p Hp. pose proof (bucket_len c m ns bucket (slot k) I) as Hlen.
  apply (wp_loop_rel (fun f cur => exists l1 l2, bucket (slot k) = l1 ++ l2 /\ hchain (hash_links m) cur l2 /\ f = zlen l2 /\
    forall a v, a ∈ l1 -> (a, (k, v)) ∉ ns) (zlen (bucket (slot k)))); [|unfold zlen in *; lia|lia|].
  { exists [], (bucket (slot k)). split_and!; try done. intros a v Ha. by apply elem_of_nil in Ha. }
  intros f cur (l1 & l2 & Eb & Hc & -> & Hno). destruct l2 as [|a l2]; cbn [hchain] in Hc.
  - subst cur. wstep. apply HQ2. intros ([k' v] & E & ([a x] & E2 & Hin)%list_elem_of_fmap)%list_elem_of_fmap. simpl in E, E2. subst x k'.
    rewrite app_nil_r in Eb. apply (Hno a v); [|done]. rewrite <- Eb. apply (ix_nodes _ _ _ _ I). eauto.
  - destruct Hc as (-> & q & Hq & Hc). assert (a ∈ bucket (slot k)) as (k' & v & Hin & Hslot)%(ix_nodes _ _ _ _ I) by (rewrite Eb; apply elem_of_app; right; by left).
    destruct (entry_at m ns a k' v Hs Hin) as (p' & q' & h & Ha). unfold hash_links in Hq. rewrite lookup_fmap, Ha in Hq. injection Hq as <-.
    wstep. eapply wp_load_node; [exact Ha|]. cbn [ln_key ln_next_hash]. case_bool_decide as Hk.
    + subst k'. wstep. by eapply HQ1.
    + wstep. exists (zlen l2). rewrite zlen_cons. split; [pose proof (zlen_nonneg l2); lia|]. exists (l1 ++ [a]), l2. rewrite <- app_assoc.
      split_and!; try done. intros b w [Hb| ->%list_elem_of_singleton]%elem_of_app; [by apply Hno|]. intros Hin2.
      destruct (entry_at m ns a k w Hs Hin2) as (? & ? & ? & Ha2). congruence.
Qed.

Lemma hash_links_changed m a n : hash_links (changed m a n) = <[a := ln_next_hash n]> (hash_links m).
Proof. unfold hash_links, changed. simpl. by rewrite fmap_insert. Qed.

Lemma hchain_relink h p l1 b q l2 l3 : NoDup (l1 ++ [b]) -> b ∉ l3 -> hchain h p (l1 ++ b :: l2) -> hchain h q l3 ->
  hchain (<[b := q]> h) p (l1 ++ b :: l3).
Proof.
  revert p. induction l1 as [|a l1 IH]; intros p N Hb Hc H3; cbn [app hchain] in *.
  - destruct Hc as [-> _]. split; [done|]. exists q. rewrite lookup_insert_eq. split; [done|]. eapply hchain_frame; [|exact H3].
    intros c Hin. rewrite lookup_insert_ne; [done|]. by intros ->.
  - apply NoDup_cons in N as [Ha N]. destruct Hc as (-> & q' & Hq & Hc). split; [done|]. exists q'. split.
    + rewrite lookup_insert_ne; [done|]. intros ->. apply Ha, elem_of_app. right. by left.
    + by apply IH.
Qed.

Definition without (a : positive) (l : list positive) : list positive := filter (fun b => b <> a) l.

Lemma without_id a l : a ∉ l -> without a l = l.
Proof.
  induction l as [|b l IH]; intros Ha; [done|]. apply not_elem_of_cons in Ha as [Hne Ha]. unfold without in *. rewrite filter_cons_True by congruence. by rewrite IH.
Qed.

Lemma without_app a l l' : a ∉ l -> a ∉ l' -> without a (l ++ a :: l') = l ++ l'.
Proof.
  intros H1 H2. unfold without. rewrite filter_app, filter_cons_False by (intros H; by apply H). fold (without a l). fold (without a l').
  by rewrite !without_id.
Qed.

(** Dropping a node from the chains. *)
Lemma indexed_without c c' m m' ns ns' bucket a k v b' :
  indexed c m ns bucket -> NoDup ns.*1 -> ns ≡ₚ (a, (k, v)) :: ns' ->
  lr_index c' = Ptr b' -> zlen b' = icap ->
  (forall i, 0 <= i < icap -> exists p, zlook b' i = Some (Some p) /\ hchain (hash_links m') p (without a (bucket i))) ->
  indexed c' m' ns' (fun i => without a (bucket i)).
Proof.
  intros [H1 H2 H3] N P Eb Hb Hc. rewrite P in N. simpl in N. apply NoDup_cons in N as [Ha N]. split; [by exists b'| |].
  - intros i. apply NoDup_filter, H2.
  - intros i x. unfold without. rewrite list_elem_of_filter, H3. split.
    + intros [Hx (k' & v' & Hin & Hs)]. rewrite P in Hin. apply elem_of_cons in Hin as [[= -> -> ->]|Hin]; [done|]. eauto.
    + intros (k' & v' & Hin & Hs). split; [intros ->; apply Ha; by apply (list_elem_of_fmap_2 fst) in Hin|]. exists k', v'. rewrite P. split; [by right|done].
Qed.

Lemma wp_lru_unlink c m ns ns' bucket a n (Q : scl_lru_t * mem -> Prop) :
  fields c -> indexed c m ns bucket -> m_nodes m !! a = Some n -> NoDup ns.*1 -> ns ≡ₚ (a, (ln_key n, ln_value n)) :: ns' -> zlen ns = lr_count c ->
  (forall b' m', indexed (with_index c (Ptr b') (lr_count c)) m' ns' (fun i => without a (bucket i)) -> as_list m' = as_list m ->
     (forall l, (forall x, x ∈ ns.*1 -> x ∈ l) -> holds base m l -> holds base m' l) -> Q (with_index c (Ptr b') (lr_count c), m')) ->
  wp (unlink_hash m c (Some a)) Q.
Proof.
  intros F I Hn N P Hcnt HQ. unfold unlink_hash. wstep. eapply wp_load_node; [exact Hn|]. cbv zeta. unfold scl_lru_index_of.
  rewrite (fi_index_capacity _ F), (fi_key_size _ F), (fi_hash _ F). fold (slot (ln_key n)). set (s := slot (ln_key n)). pose proof (slot_range (ln_key n)) as Hs. fold s in Hs.
  assert (a ∈ bucket s) as Has by (apply (ix_nodes _ _ _ _ I); exists (ln_key n), (ln_value n); split; [rewrite P; by left|done]).
  assert (forall i, i <> s -> a ∉ bucket i) as Hother.
  { intros i Hi (k & v & Hin & Hk)%(ix_nodes _ _ _ _ I). apply Hi. rewrite P in Hin, N. simpl in N. apply NoDup_cons in N as [Ha _].
    apply elem_of_cons in Hin as [[= -> ->]|Hin]; [by rewrite <- Hk|]. by apply (list_elem_of_fmap_2 fst) in Hin. }
  pose proof (bucket_len c m ns bucket s I) as Hlen. destruct (ix_block _ _ _ _ I) as (b & Eb & Zb & Hb).
  destruct (Hb s Hs) as (p & Hp & Hc). rewrite Eb. wstep. eapply wp_get_elem; [exact Hp|].
  apply (wp_loop_rel (fun f '(pp, cur) => exists l1 l2, bucket s = l1 ++ l2 /\ a ∉ l1 /\ hchain (hash_links m) cur l2 /\ pp = last l1 /\ f = zlen l2)
    (zlen (bucket s))); [by exists [], (bucket s); split_and!; try done; apply not_elem_of_nil|unfold zlen in *; lia|lia|].
  intros f [pp cur] (l1 & l2 & El & Ha1 & Hcur & -> & ->). pose proof (ix_nodup _ _ _ _ I s) as Nb. rewrite El in Nb.
  destruct l2 as [|x l2]; cbn [hchain] in Hcur; [rewrite El, app_nil_r in Has; done|]. destruct Hcur as (-> & q & Hq & Hcur).
  apply NoDup_app in Nb as (N1 & N12 & [Nx N2]%NoDup_cons).
  destruct (decide (Some x = Some a)) as [[= ->]|Hxa].
  - unfold hash_links in Hq. rewrite lookup_fmap, Hn in Hq. injection Hq as <-. wstep. eapply wp_load_node; [exact Hn|].
    destruct (last l1) as [b0|] eqn:Elast.
    + apply last_Some in Elast as [l1' ->]. assert (exists n0, m_nodes m !! b0 = Some n0) as [n0 Hn0].
      { clear -Hc El. rewrite El, <- app_assoc in Hc. clear El. revert p Hc. induction l1' as [|y l1' IH]; intros p Hc; cbn [app hchain] in Hc.
        - destruct Hc as (_ & q & Hq & _). unfold hash_links in Hq. rewrite lookup_fmap in Hq. destruct (m_nodes m !! b0); [eauto|done].
        - destruct Hc as (_ & q & _ & Hc). by eapply IH. }
      wstep. eapply wp_modify; [exact Hn0|]. set (m' := changed m b0 (put_next_hash (ln_next_hash n) n0)).
      assert (b0 ∉ l2) as Hb0 by (intros Hin; apply (N12 b0); [apply elem_of_app; right; by left|by right]).
      wstep. assert (c = with_index c (Ptr b) (lr_count c)) as Ec by (destruct c; simpl in *; by subst). rewrite Ec at 1. apply HQ.
      * eapply (indexed_without c _ m _ ns ns' bucket a); [exact I|exact N|exact P|done|done|]. intros i Hi. destruct (Hb i Hi) as (p' & Hp' & Hc').
        exists p'. split; [done|]. unfold m'. rewrite hash_links_changed. cbn [put_next_hash ln_next_hash].
        destruct (decide (i = s)) as [->|His].
        -- assert (p' = p) as -> by congruence. rewrite El, without_app by done. rewrite El in Hc'. rewrite <- app_assoc in Hc' |- *.
           eapply hchain_relink; [exact N1|exact Hb0|exact Hc'|exact Hcur].
        -- rewrite without_id by auto. eapply hchain_frame; [|exact Hc']. intros y Hy. rewrite lookup_insert_ne; [done|]. intros ->.
           apply His. apply (ix_nodes _ _ _ _ I) in Hy as (k1 & v1 & Hin1 & <-).
           assert (y ∈ bucket s) as (k2 & v2 & Hin2 & <-)%(ix_nodes _ _ _ _ I) by (rewrite El; apply elem_of_app; left; apply elem_of_app; right; by left).
           f_equal. apply list_elem_of_lookup in Hin1 as [i1 Hi1], Hin2 as [i2 Hi2].
           assert (i1 = i2) as ->; [|congruence]. eapply (NoDup_lookup _ i1 i2 y); [exact N| |]; by rewrite list_lookup_fmap, ?Hi1, ?Hi2.
      * unfold m'. by eapply as_list_same.
      * intros l Hl. apply holds_update. apply Hl. assert (b0 ∈ bucket s) as (k2 & v2 & Hin2 & _)%(ix_nodes _ _ _ _ I) by (rewrite El; apply elem_of_app; left; apply elem_of_app; right; by left).
        by apply (list_elem_of_fmap_2 fst) in Hin2.
    + apply last_None in Elast as ->. wstep. eapply wp_set_elem; [lia|]. wstep. apply HQ; [|done|done].
      eapply (indexed_without c _ m _ ns ns' bucket a); [exact I|exact N|exact P|done|by rewrite zlen_zupd|]. intros i Hi. destruct (Hb i Hi) as (p' & Hp' & Hc').
      rewrite zlook_zupd. destruct (decide (s = i /\ _)) as [[-> _]|His].
      * exists (ln_next_hash n). split; [done|]. rewrite El. rewrite (without_app a []) by done. done.
      * exists p'. split; [done|]. rewrite without_id; [done|]. apply Hother. intros ->. apply His. split; [done|lia].
  - assert (exists nx, m_nodes m !! x = Some nx /\ ln_next_hash nx = q) as (nx & Hnx & <-).
    { unfold hash_links in Hq. rewrite lookup_fmap in Hq. destruct (m_nodes m !! x) as [nx|]; [|done]. injection Hq as <-. by exists nx. }
    wstep. eapply wp_load_node; [exact Hnx|]. wstep. exists (zlen l2). rewrite zlen_cons. split; [pose proof (zlen_nonneg l2); lia|].
    exists (l1 ++ [x]), l2. rewrite <- app_assoc. split_and!; try done; [|by rewrite last_snoc].
    intros [Hin| ->%list_elem_of_singleton]%elem_of_app; done.
Qed.

(** ** The invariant *)
Record lru_ok c m ns bucket : Prop := LruOk {
  ok_fields : fields c;
  ok_linked : linked c m ns;
  ok_indexed : indexed c m ns bucket;
  ok_keys : NoDup ns.*2.*1;
  ok_holds : holds base m ns.*1;
  ok_count : lr_count c = zlen ns;
  ok_full : zlen ns <= cap
}.

Lemma indexed_frame c c' m m' ns bucket : lr_index c' = lr_index c -> (forall a, a ∈ ns.*1 -> hash_links m' !! a = hash_links m !! a) ->
  indexed c m ns bucket -> indexed c' m' ns bucket.
Proof.
  intros Ec Em [(b & Eb & Zb & Hb) H2 H3]. split; [|done|done]. exists b. split; [by rewrite Ec|]. split; [done|]. intros i Hi. destruct (Hb i Hi) as (p & Hp & Hc).
  exists p. split; [done|]. eapply hchain_frame; [|exact Hc]. intros a (k & v & Hin & _)%H3. apply Em. by apply (list_elem_of_fmap_2 fst) in Hin.
Qed.

Lemma indexed_same c m ns ns' bucket : (forall a k, (exists v, (a, (k, v)) ∈ ns) <-> exists v, (a, (k, v)) ∈ ns') -> indexed c m ns bucket -> indexed c m ns' bucket.
Proof.
  intros E [H1 H2 H3]. split; [done|done|]. intros i a. rewrite H3. split; intros (k & v & Hin & Hs); destruct (E a k) as [E1 E2].
  - destruct E1 as [v' Hv]; [by exists v|]. by exists k, v'.
  - destruct E2 as [v' Hv]; [by exists v|]. by exists k, v'.
Qed.

Lemma indexed_perm c m ns ns' bucket : ns ≡ₚ ns' -> indexed c m ns bucket -> indexed c m ns' bucket.
Proof. intros P. apply indexed_same. intros a k. by setoid_rewrite P. Qed.

Lemma linked_frame c m m' ns : (forall a, a ∈ ns.*1 -> as_list m' !! a = as_list m !! a) -> linked c m ns -> linked c m' ns.
Proof. intros E [H1 H2 H3]. split; [done|done|]. by eapply dseg_frame. Qed.

Lemma linked_index c m ns index count : linked c m ns -> linked (with_index c index count) m ns.
Proof. by intros []. Qed.

Lemma relinks_index c c' m m' l ns bucket : lr_index c' = lr_index c -> relinks base m m' l -> indexed c m ns bucket -> indexed c' m' ns bucket.
Proof. intros Ec R. apply indexed_frame; [done|]. intros a _. by rewrite (rk_hash _ _ _ _ R). Qed.

Lemma entries_nodup m ns : holds base m ns.*1 -> NoDup ns.*1.
Proof. apply holds_nodup. Qed.

Lemma middle_perm (L R : list entry) a x : L ++ (a, x) :: R ≡ₚ (a, x) :: L ++ R.
Proof. symmetry. apply Permutation_middle. Qed.

Lemma keys_middle (L R : list entry) a k v : NoDup (L ++ (a, (k, v)) :: R).*2.*1 -> NoDup (L ++ R).*2.*1 /\ k ∉ (L ++ R).*2.*1.
Proof. rewrite middle_perm. cbn [fmap list_fmap]. by intros [H1 H2]%NoDup_cons. Qed.

Lemma wp_drop_node c m L a k v R bucket (Q : scl_lru_t * mem -> Prop) :
  lru_ok c m (L ++ (a, (k, v)) :: R) bucket ->
  (forall c' m' bucket', lru_ok c' m' (L ++ R) bucket' -> Q (c', m')) -> wp (drop_node m c (Some a)) Q.
Proof.
  intros [F K I Nk H Cn Fu] HQ. set (ns := L ++ (a, (k, v)) :: R) in *. pose proof (holds_nodup _ _ _ _ H) as Na.
  assert (zlen ns = zlen (L ++ R) + 1) as Ez by (unfold ns; rewrite !zlen_app, zlen_cons; lia). pose proof (zlen_nonneg (L ++ R)) as Hz.
  pose proof (node_split L a (k, v) R Na) as (NL & NR & HLR & HaL & HaR).
  destruct (seg_at m None L a k v R None (li_seg _ _ _ K)) as [h Ha]. unfold drop_node. wstep. eapply (wp_detach c m L a k v R); [exact K|exact Na|].
  intros m1 R1 K1. cbv beta iota. set (c1 := with_ends c _ _) in *. pose proof (rk_others _ _ _ _ R1 a) as Ha1. rewrite Ha in Ha1.
  assert (a ∉ (L ++ R).*1) as HaLR by (rewrite fmap_app; intros [?|?]%elem_of_app; done).
  wstep. eapply (wp_lru_unlink c1 m1 ns (L ++ R) bucket a _); [by apply fields_ends|eapply relinks_index; [|exact R1|exact I]; done|by apply Ha1|exact Na| |done|].
  { cbn [ln_key ln_value]. apply middle_perm. }
  intros b' m2 I2 E2 H2. cbv beta iota. assert (holds base m2 (a :: (L ++ R).*1)) as Hold.
  { apply H2; [intros x Hx; unfold ns in Hx; rewrite middle_perm in Hx; exact Hx|]. apply (rk_holds _ _ _ _ R1); [intros x Hx; by right|].
    eapply holds_perm; [|exact H]. unfold ns. by rewrite middle_perm. }
  wstep. eapply wp_free_node; [exact Hold|]. intros m3 E3 H3. wstep. apply (HQ _ _ (fun i => without a (bucket i))).
  assert (forall b, b ∈ (L ++ R).*1 -> m_nodes m3 !! b = m_nodes m2 !! b) as Hsame by (intros b Hb; rewrite E3, lookup_delete_ne; [done|intros ->; done]).
  split.
  - by apply fields_index, fields_index, fields_ends.
  - do 2 apply linked_index. eapply linked_frame; [|exact K1]. intros b Hb. rewrite <- E2. unfold as_list. rewrite !lookup_fmap. by rewrite Hsame.
  - eapply indexed_frame; [| |exact I2]; [done|]. intros b Hb. unfold hash_links. rewrite !lookup_fmap. by rewrite Hsame.
  - by apply keys_middle in Nk as [? _].
  - exact H3.
  - cbn [lr_count with_index with_ends c1]. rewrite Cn, Ez. apply eq_trans with (zlen (L ++ R)); [|done]. rewrite u64_small; unfold PTRDIFF_MAX in *; lia.
  - lia.
Qed.

Lemma wp_move_to_front c m L a k v R bucket (Q : scl_lru_t * mem -> Prop) :
  lru_ok c m (L ++ (a, (k, v)) :: R) bucket ->
  (forall c' m', lru_ok c' m' ((a, (k, v)) :: L ++ R) bucket -> Q (c', m')) -> wp (scl_lru_move_to_front m c (Some a)) Q.
Proof.
  intros [F K I Nk H Cn Fu] HQ. set (ns := L ++ (a, (k, v)) :: R) in *. pose proof (holds_nodup _ _ _ _ H) as Na.
  pose proof (node_split L a (k, v) R Na) as (NL & NR & HLR & HaL & HaR).
  assert (a ∉ (L ++ R).*1) as HaLR by (rewrite fmap_app; intros [?|?]%elem_of_app; done).
  assert (ns ≡ₚ (a, (k, v)) :: L ++ R) as P by apply middle_perm.
  assert (zlen ns = zlen ((a, (k, v)) :: L ++ R)) as Ez by (unfold zlen; by rewrite P).
  destruct (seg_at m None L a k v R None (li_seg _ _ _ K)) as [h Ha]. unfold scl_lru_move_to_front. wstep. eapply (wp_detach c m L a k v R); [exact K|exact Na|].
  intros m1 R1 K1. cbv beta iota. set (c1 := with_ends c _ _) in *. pose proof (rk_others _ _ _ _ R1 a HaLR) as Ha1. rewrite Ha in Ha1.
  eapply wp_link_front; [exact K1| |exact HaLR|exact Ha1|].
  { rewrite P in Na. by apply NoDup_cons in Na as [_ ?]. }
  cbn [ln_key ln_value]. intros m2 R2 K2. apply HQ. pose proof (relinks_trans _ _ _ _ _ _ R1 R2) as R12. split.
  - by apply fields_ends, fields_ends.
  - exact K2.
  - eapply indexed_perm; [exact P|]. by eapply relinks_index; [|exact R12|exact I].
  - by rewrite <- P.
  - apply (rk_holds _ _ _ _ R12); [|eapply holds_perm; [|exact H]; by rewrite P]. intros x [Hx|Hx]%elem_of_app; [by right|exact Hx].
  - cbn [lr_count with_ends c1]. by rewrite Cn.
  - by rewrite <- Ez.
Qed.

(** Writing the value of a node. *)
Lemma lru_put_value c m L a k v0 v n R bucket :
  lru_ok c m (L ++ (a, (k, v0)) :: R) bucket -> m_nodes m !! a = Some n -> lru_ok c (changed m a (put_value v n)) (L ++ (a, (k, v)) :: R) bucket.
Proof.
  intros [F K I Nk H Cn Fu] Hn. pose proof (holds_nodup _ _ _ _ H) as Na. pose proof (node_split L a (k, v0) R Na) as (NL & NR & HLR & HaL & HaR).
  destruct K as [K1 K2 K3]. destruct (seg_at m None L a k v0 R None K3) as [h Ha]. rewrite Hn in Ha. injection Ha as ->.
  assert (forall b, b ≠ a -> as_list (changed m a (put_value v (LNode (last_or None L) (head_or R None) h k v0))) !! b = as_list m !! b) as Ho
    by (intros b Hb; rewrite as_list_changed, lookup_insert_ne by done; done).
  split; [done| | | | | |].
  - split; [rewrite K1, !head_or_app; done|rewrite K2, !last_or_app; cbn; by rewrite !last_or_cons|]. apply dseg_app in K3 as (S1 & S2 & S3). apply dseg_app.
    split; [|split].
    + eapply dseg_frame; [|exact S1]. intros b Hb. apply Ho. intros ->. done.
    + rewrite as_list_changed, lookup_insert_eq. done.
    + eapply dseg_frame; [|exact S3]. intros b Hb. apply Ho. intros ->. done.
  - eapply indexed_frame; [reflexivity| |].
    { intros b _. by erewrite hash_links_same. }
    eapply indexed_same; [|exact I]. intros b k'. setoid_rewrite middle_perm. setoid_rewrite elem_of_cons.
    split; (intros [w [E|E]]; [injection E as -> -> ->; eexists; by left|exists w; by right]).
  - rewrite !fmap_app in Nk |- *. exact Nk.
  - rewrite fmap_app, fmap_cons in H |- *. apply holds_update; [|exact H]. apply elem_of_app. right. by left.
  - by rewrite Cn, !zlen_app, !zlen_cons.
  - by rewrite !zlen_app, !zlen_cons in Fu |- *.
Qed.

Lemma lru_at c m L a k v R bucket : lru_ok c m (L ++ (a, (k, v)) :: R) bucket -> exists h, m_nodes m !! a = Some (LNode (last_or None L) (head_or R None) h k v).
Proof. intros [_ K _ _ _ _ _]. eapply seg_at, li_seg, K. Qed.

(** A node put at the front and at the head of its chain. *)
Lemma wp_add_node c m ns bucket a k v m0 (Q : scl_error_t * option scl_lru_t * mem -> Prop) :
  lru_ok c m0 ns bucket -> a ∉ ns.*1 -> m_nodes m = <[a := LNode None None None k v]> (m_nodes m0) -> holds base m (a :: ns.*1) -> zlen ns < cap -> k ∉ ns.*2.*1 ->
  (forall c' m' bucket', lru_ok c' m' ((a, (k, v)) :: ns) bucket' -> Q (SCL_OK, Some c', m')) ->
  wp ('(c, m) ← link_front m c (Some a);
      let idx := scl_lru_index_of c k in
      first ← get_elem (lr_index c) idx;
      m ← modify m (Some a) (put_next_hash first);
      index ← set_elem (lr_index c) idx (Some a);
      mret (SCL_OK, Some (with_index c index (u64 (lr_count c + 1))), m)) Q.
Proof.
  intros [F K I Nk H0 Cn Fu] Ha Em H Hroom Hk HQ. assert (forall b, b ∈ ns.*1 -> m_nodes m !! b = m_nodes m0 !! b) as Hsame
    by (intros b Hb; rewrite Em, lookup_insert_ne; [done|intros ->; done]).
  assert (m_nodes m !! a = Some (LNode None None None k v)) as Hn by (rewrite Em; apply lookup_insert_eq).
  wstep. eapply (wp_link_front c m ns a); [|by eapply holds_nodup|exact Ha|exact Hn|].
  { eapply linked_frame; [|exact K]. intros b Hb. unfold as_list. rewrite !lookup_fmap. by rewrite Hsame. }
  cbn [ln_key ln_value]. intros m1 R1 K1. cbv beta iota zeta. set (c1 := with_ends c _ _) in *. unfold scl_lru_index_of. cbn [c1 with_ends lr_key_hash lr_key_size lr_index_capacity lr_index lr_count].
  rewrite (fi_index_capacity _ F), (fi_key_size _ F), (fi_hash _ F). fold (slot k). pose proof (slot_range k) as Hs.
  assert (indexed c1 m1 ns bucket) as I1.
  { eapply relinks_index; [|exact R1|]; [reflexivity|]. eapply indexed_frame; [| |exact I]; [done|]. intros b Hb. unfold hash_links. rewrite !lookup_fmap. by rewrite Hsame. }
  destruct I1 as [(b & Eb & Zb & Hb) Nb Hin]. cbn [c1 with_ends lr_index] in Eb. rewrite Eb. destruct (Hb _ Hs) as (p & Hp & Hc).
  wstep. eapply wp_get_elem; [exact Hp|]. assert (exists h, m_nodes m1 !! a = Some (LNode None (head_or ns None) h k v)) as [h Hn1].
  { destruct (seg_at m1 None [] a k v ns None (li_seg _ _ _ K1)) as [h Hh]. by exists h. }
  wstep. eapply wp_modify; [exact Hn1|]. wstep. eapply wp_set_elem; [lia|]. wstep. set (m2 := changed m1 a _).
  assert (as_list m2 = as_list m1) as Eas by (by apply (as_list_same _ _ _ _ Hn1)).
  assert (forall i, a ∉ bucket i) as Hab by (intros i (k' & v' & Hx & _)%Hin; apply Ha; by apply (list_elem_of_fmap_2 fst) in Hx).
  apply (HQ _ _ (fun i => if decide (i = slot k) then a :: bucket i else bucket i)). split.
  - by apply fields_index, fields_ends.
  - apply linked_index. eapply linked_frame; [|exact K1]. by rewrite Eas.
  - split.
    + exists (zupd b (slot k) (Some (Some a))). split; [done|]. split; [by rewrite zlen_zupd|]. intros i Hi.
      assert (forall q l, a ∉ l -> hchain (hash_links m1) q l -> hchain (hash_links m2) q l) as Hfr.
      { intros q l Hal. apply hchain_frame. intros x Hx. unfold m2. rewrite hash_links_changed, lookup_insert_ne; [done|]. intros ->. done. }
      rewrite zlook_zupd. destruct (decide (i = slot k)) as [->|Hne].
      * rewrite decide_True by (split; [done|lia]). exists (Some a). split; [done|]. split; [done|]. exists p. split; [|by apply Hfr].
        unfold m2. rewrite hash_links_changed. apply lookup_insert_eq.
      * rewrite decide_False by (intros [? _]; congruence). destruct (Hb i Hi) as (q & Hq & Hcq). exists q. split; [done|]. by apply Hfr.
    + intros i. destruct (decide (i = slot k)); [by apply NoDup_cons|done].
    + intros i x. setoid_rewrite elem_of_cons. split.
      * intros Hx. assert ((x = a /\ i = slot k) \/ x ∈ bucket i) as [[-> ->]|(k' & v' & Hx' & Hs')%Hin]
          by (destruct (decide (i = slot k)); [apply elem_of_cons in Hx as [->|]; auto|auto]).
        -- exists k, v. split; [by left|done].
        -- exists k', v'. split; [by right|done].
      * intros (k' & v' & [[= -> -> ->]|Hx] & Hs').
        -- rewrite decide_True by done. by left.
        -- assert (x ∈ bucket i) by (apply Hin; eauto). destruct (decide (i = slot k)); [by right|done].
  - cbn [fmap list_fmap]. by apply NoDup_cons.
  - unfold m2. apply holds_update; [by left|]. apply (rk_holds _ _ _ _ R1); [done|exact H].
  - cbn [lr_count with_index]. rewrite Cn, zlen_cons. pose proof (zlen_nonneg ns). unfold PTRDIFF_MAX in *. rewrite u64_small; lia.
  - rewrite zlen_cons. lia.
Qed.

Lemma wp_free_nodes m ns count (Q : mem -> Prop) :
  dseg (as_list m) None ns None -> holds base m ns.*1 -> zlen ns = count -> (forall m', holds base m' [] -> Q m') -> wp (free_nodes m count (head_or ns None)) Q.
Proof.
  intros Hs H <- HQ. pose proof (zlen_nonneg ns). unfold free_nodes.
  apply (wp_loop_rel (fun f '(cur, m) => exists p ns, cur = head_or ns None /\ dseg (as_list m) p ns None /\ holds base m ns.*1 /\ f = zlen ns) (zlen ns));
    [exists None, ns; done|lia|lia|].
  clear m ns Hs H H0. intros f [cur m] (p & ns & -> & Hs & H & ->). destruct ns as [|[a [k v]] ns].
  - cbn [head_or]. wstep. by apply HQ.
  - cbn [head_or]. pose proof Hs as [Ha Hs']. apply as_list_inv in Ha as [h Ha]. wstep. eapply wp_load_node; [exact Ha|]. cbn [ln_next].
    wstep. eapply wp_free_node; [exact H|]. intros m' Em H'. wstep. exists (zlen ns). rewrite zlen_cons. split; [pose proof (zlen_nonneg ns); lia|].
    exists (Some a), ns. split; [done|]. split; [|done]. eapply dseg_frame; [|exact Hs']. intros b Hb. unfold as_list. rewrite !lookup_fmap, Em, lookup_delete_ne; [done|].
    intros ->. pose proof (holds_nodup _ _ _ _ H) as [Hn _]%NoDup_cons. done.
Qed.

Lemma indexed_empty c m b : lr_index c = Ptr b -> zlen b = icap -> (forall i, 0 <= i < icap -> zlook b i = Some (Some None)) -> indexed c m [] (fun _ => []).
Proof.
  intros Eb Zb Hb. split; [exists b; split; [done|split; [done|]]; intros i Hi; exists None; by rewrite Hb|intros _; constructor|].
  intros i a. split; [by intros ?%elem_of_nil|]. by intros (k & v & ?%elem_of_nil & _).
Qed.

Lemma wp_clear c m ns bucket (Q : option scl_lru_t * mem -> Prop) : lru_ok c m ns bucket ->
  (forall c' m', lru_ok c' m' [] (fun _ => []) -> Q (Some c', m')) -> wp (scl_lru_clear m (Some c)) Q.
Proof.
  intros [F K I Nk H Cn Fu] HQ. unfold scl_lru_clear. rewrite (li_head _ _ _ K). wstep. eapply wp_free_nodes; [apply K|exact H|by rewrite Cn|]. intros m' H'.
  destruct (ix_block _ _ _ _ I) as (b & Eb & Zb & _). rewrite (fi_index_capacity _ F), Eb. wstep.
  apply (wp_zfor (fun j p => exists b, p = Ptr b /\ zlen b = icap /\ forall i, 0 <= i < j -> zlook b i = Some (Some None))).
  - exists b. split; [done|]. split; [done|]. intros i Hi. lia.
  - intros j p Hj (b' & -> & Zb' & Hb'). eapply wp_set_elem; [lia|]. exists (zupd b' j (Some None)). split; [done|]. split; [by rewrite zlen_zupd|].
    intros i Hi. rewrite zlook_zupd. case_decide as Hd; [done|]. apply Hb'. destruct (decide (j = i)); [exfalso; apply Hd; lia|lia].
  - intros p (b' & -> & Zb' & Hb'). wstep. apply HQ. split.
    + by apply fields_index, fields_ends.
    + by split.
    + eapply indexed_empty; [reflexivity|exact Zb'|]. intros i Hi. apply Hb'. lia.
    + constructor.
    + exact H'.
    + done.
    + rewrite zlen_nil. lia.
Qed.

Lemma wp_lru_destroy c m ns bucket : lru_ok c m ns bucket ->
  wp (scl_lru_destroy m (Some c)) (fun '(c', m') => (exists h, c' = Some (Lru None None cap 0 ks vs Null icap h)) /\ m_nodes m' = m_nodes base /\ live m' = live base - 1).
Proof.
  intros [F K I Nk H Cn Fu]. unfold scl_lru_destroy. rewrite (li_head _ _ _ K). wstep. eapply wp_free_nodes; [apply K|exact H|by rewrite Cn|].
  intros m' [E1 E2]%holds_none. destruct (ix_block _ _ _ _ I) as (b & Eb & _ & _). rewrite Eb. wstep. cbn [free_ptr]. wstep.
  split; [exists hf; by rewrite (fi_capacity _ F), (fi_index_capacity _ F), (fi_key_size _ F), (fi_value_size _ F), (fi_hash _ F)|]. split; [done|]. unfold live in *. cbn [m_world scl_free w_live]. lia.
Qed.

(** ** The operations *)
Definition lru_rep (st : option scl_lru_t * mem) (l : list (key * V)) : Prop :=
  exists c ns bucket, st.1 = Some c /\ lru_ok c st.2 ns bucket /\ ns.*2 = l.

Lemma found_split ns a (x : key * V) : (a, x) ∈ ns -> exists L R, ns = L ++ (a, x) :: R.
Proof. apply list_elem_of_split. Qed.

Lemma wp_evict c m ns bucket (Q : scl_lru_t * mem -> Prop) : lru_ok c m ns bucket -> zlen ns = cap ->
  (forall c' m' ns' bucket', lru_ok c' m' ns' bucket' -> zlen ns' < cap -> ns'.*2 = take (length ns.*2 - 1) ns.*2 -> Q (c', m')) -> wp (scl_lru_evict m c) Q.
Proof.
  intros O Hz HQ. unfold scl_lru_evict. rewrite (li_tail _ _ _ (ok_linked _ _ _ _ O)).
  destruct (nodes_last_case ns) as [->|(L & a & [k v] & ->)]; [rewrite zlen_nil in Hz; lia|]. rewrite last_or_snoc.
  eapply wp_drop_node; [exact O|]. rewrite zlen_app in Hz. change (zlen [(a, (k, v))]) with 1 in Hz. rewrite app_nil_r. intros c' m' b' O'. eapply HQ; [exact O'|lia|].
  rewrite fmap_app, length_app. cbn [fmap list_fmap length]. rewrite Nat.add_sub, take_app_length. done.
Qed.

Lemma wp_put_new al c m ns bucket k v (Q : scl_error_t * option scl_lru_t * mem -> Prop) :
  1 <= ks -> 1 <= vs -> ks + vs < 2 ^ 64 -> lru_ok c m ns bucket -> zlen ns < cap -> k ∉ ns.*2.*1 ->
  (forall c' m' a bucket', lru_ok c' m' ((a, (k, v)) :: ns) bucket' -> Q (SCL_OK, Some c', m')) ->
  (forall e m', e = SCL_ERR_SIZE_OVERFLOW \/ e = SCL_ERR_OUT_OF_MEMORY -> lru_ok c m' ns bucket -> Q (e, Some c, m')) ->
  wp (match scl_add_overflow LRU_NODE_SIZE (u64 (lr_key_size c + lr_value_size c)) with
      | None => mret (SCL_ERR_SIZE_OVERFLOW, Some c, m)
      | Some total_sz =>
          match alloc_node al m total_sz (LNode None None None k v) with
          | (None, m) => mret (SCL_ERR_OUT_OF_MEMORY, Some c, m)
          | (p, m) =>
              if u64 (lr_key_size c + lr_value_size c) <? lr_key_size c + lr_value_size c then UB
              else
                '(c, m) ← link_front m c p;
                let idx := scl_lru_index_of c k in
                first ← get_elem (lr_index c) idx;
                m ← modify m p (put_next_hash first);
                index ← set_elem (lr_index c) idx p;
                mret (SCL_OK, Some (with_index c index (u64 (lr_count c + 1))), m)
          end
      end) Q.
Proof.
  intros Hks Hvs Hsum O Hroom Hk HQ1 HQ2. pose proof (ok_fields _ _ _ _ O) as F. rewrite (fi_key_size _ F), (fi_value_size _ F), u64_small by lia.
  rewrite Z.ltb_irrefl. destruct (scl_add_overflow _ _) as [total|]; [|apply HQ2; [by left|exact O]].
  pattern (alloc_node al m total (LNode None None None k v)). eapply wp_alloc_node; [exact (ok_holds _ _ _ _ O)| |].
  - intros a m' Ha _ Em H' _. eapply wp_add_node; [exact O|exact Ha|exact Em|exact H'|exact Hroom|exact Hk|]. intros. by eapply HQ1.
  - intros m' Em H'. apply HQ2; [by right|]. destruct O as [O1 O2 O3 O4 O5 O6 O7]. split; try done.
    + eapply linked_frame; [|exact O2]. intros. unfold as_list. by rewrite Em.
    + eapply indexed_frame; [reflexivity| |exact O3]. intros. unfold hash_links. by rewrite Em.
Qed.

Lemma lru_simulates al : 1 <= ks -> 1 <= vs -> ks + vs < 2 ^ 64 -> Simulates (lru_step al) (lru_spec cap) lru_rep.
Proof.
  intros Hks Hvs Hsum [s m] l op (c & ns & bucket & Es & O & <-). cbn [fst snd] in Es, O. subst s.
  pose proof (ok_fields _ _ _ _ O) as F. pose proof (ok_indexed _ _ _ _ O) as I. pose proof (li_seg _ _ _ (ok_linked _ _ _ _ O)) as Hs. pose proof (ok_count _ _ _ _ O) as Cn.
  assert (forall op' out, lru_spec cap ns.*2 op' out ns.*2 -> exists l', lru_spec cap ns.*2 op' out l' /\ lru_rep (Some c, m) l') as Hsame.
  { intros op' out Hspec. exists ns.*2. split; [done|]. by exists c, ns, bucket. }
  assert (forall c' m' ns' bucket' op' out, lru_ok c' m' ns' bucket' -> lru_spec cap ns.*2 op' out ns'.*2 -> exists l', lru_spec cap ns.*2 op' out l' /\ lru_rep (Some c', m') l') as Hmove.
  { intros c' m' ns' bucket' op' out O' Hspec. exists ns'.*2. split; [done|]. by exists c', ns', bucket'. }
  destruct op as [[k|] [v|]|[k|] [|]|[k|]|[k|]| |]; try (apply Hsame; constructor; auto); cbn [lru_step].
  - wstep. unfold scl_lru_put. wstep. eapply wp_lru_find; [exact F|exact I|exact Hs|exact Cn| |].
    + intros a v0 (L & R & ->)%found_split. destruct (lru_at _ _ _ _ _ _ _ _ O) as [h Ha]. wstep. eapply wp_modify; [exact Ha|].
      pose proof (lru_put_value _ _ _ _ _ _ v _ _ _ O Ha) as O'. wstep. eapply wp_move_to_front; [exact O'|]. intros c' m' O2. wstep. wstep.
      eapply Hmove; [exact O2|]. rewrite fmap_app. cbn [fmap list_fmap]. rewrite fmap_app. constructor.
    + intros Hk. cbv beta iota. wstep. rewrite Cn, (fi_capacity _ F).
      assert (wp (if zlen ns =? cap then scl_lru_evict m c else mret (c, m)) (fun '(c1, m1) =>
        exists ns1 bucket1, lru_ok c1 m1 ns1 bucket1 /\ zlen ns1 < cap /\ ns1.*2 = evicted cap ns.*2)) as Hev.
      { unfold evicted. replace (zlen ns.*2) with (zlen ns) by (symmetry; apply zlen_snd). destruct (Z.eqb_spec (zlen ns) cap) as [Hz|Hz].
        - eapply wp_evict; [exact O|exact Hz|]. intros. eauto.
        - wstep. exists ns, bucket. split; [exact O|]. split; [|done]. pose proof (ok_full _ _ _ _ O). lia. }
      eapply wp_mono; [exact Hev|]. intros [c1 m1] (ns1 & bucket1 & O1 & Hroom & E1). cbv beta iota.
      assert (k ∉ ns1.*2.*1) as Hk1.
      { rewrite E1. unfold evicted. clear Hev. destruct (zlen ns.*2 =? cap); [|exact Hk]. intros Hin. apply Hk. rewrite !fmap_take in Hin. eapply subseteq_take; exact Hin. }
      eapply wp_put_new; [done|done|done|exact O1|exact Hroom|exact Hk1| |].
      * intros c' m' a bucket' O'. wstep. eapply Hmove; [exact O'|]. cbn [fmap list_fmap]. rewrite E1. by apply ls_put_new.
      * intros e m' He O'. wstep. eapply Hmove; [exact O'|]. rewrite E1. by apply ls_put_refused.
  - wstep. unfold scl_lru_get. wstep. eapply wp_lru_find; [exact F|exact I|exact Hs|exact Cn| |].
    + intros a v0 (L & R & ->)%found_split. destruct (lru_at _ _ _ _ _ _ _ _ O) as [h Ha]. wstep. eapply wp_load_node; [exact Ha|]. cbn [ln_value].
      wstep. eapply wp_move_to_front; [exact O|]. intros c' m' O2. wstep. wstep. cbn [value_or].
      eapply Hmove; [exact O2|]. rewrite fmap_app. cbn [fmap list_fmap]. rewrite fmap_app. constructor.
    + intros Hk. cbv beta iota. wstep. apply Hsame. by constructor.
  - wstep. unfold scl_lru_contains. wstep. eapply wp_lru_find; [exact F|exact I|exact Hs|exact Cn| |].
    + intros a v0 Hin. wstep. wstep. apply Hsame. replace true with (bool_decide (k ∈ ns.*2.*1)); [constructor|].
      apply bool_decide_eq_true. apply (list_elem_of_fmap_2 snd), (list_elem_of_fmap_2 fst) in Hin. done.
    + intros Hk. wstep. wstep. apply Hsame. replace false with (bool_decide (k ∈ ns.*2.*1)); [constructor|]. by apply bool_decide_eq_false.
  - wstep. unfold scl_lru_remove. wstep. eapply wp_lru_find; [exact F|exact I|exact Hs|exact Cn| |].
    + intros a v0 (L & R & ->)%found_split. cbv beta iota. wstep. eapply wp_drop_node; [exact O|]. intros c' m' bucket' O2. wstep. wstep.
      eapply Hmove; [exact O2|]. rewrite !fmap_app. cbn [fmap list_fmap]. constructor.
    + intros Hk. cbv beta iota. wstep. wstep. apply Hsame. by constructor.
  - wstep. eapply wp_clear; [exact O|]. intros c' m' O2. wstep. eapply Hmove; [exact O2|]. constructor.
  - wstep. apply Hsame. cbn [scl_lru_count]. rewrite Cn. replace (zlen ns) with (zlen ns.*2) by apply zlen_snd. constructor.
Qed.
End Invariant.

(** C30. The least-recently-used cache refines the list of its bindings, the
    most recently used one first: from a successful initialisation, in a store
    that may hold anything else, every sequence of operations, whatever the
    allocator answers, runs without following [NULL] or a dangling pointer;
    looking a key up and storing under it moves its binding to the front; a new
    binding evicts the last one exactly when the cache is full (also when the
    memory for the new one is then refused); no key is bound twice and no more
    bindings are kept than the capacity.  Destroying the cache gives back
    exactly the nodes and blocks there were before. *)
Theorem lru_refines {V} (al : scl_allocator_t) (m0 : mem (scl_lru_node_t V)) (c0 : scl_lru_t) (ks vs capacity : Z) (ops : list (lru_op V))
  (Hks : 1 <= ks) (Hvs : 1 <= vs) (Hsum : ks + vs < 2 ^ 64) (Hcap : 1 <= capacity < 2 ^ 64) :
  match scl_lru_init al m0 (Some c0) ks vs capacity with
  | (SCL_OK, c1, m1) =>
      exists outs c2 m2 l c3 m3, run (lru_step al) (c1, m1) ops = Ok (outs, (c2, m2)) /\ trace (lru_spec capacity) [] ops outs l /\
        zlen l <= capacity /\ NoDup l.*1 /\
        scl_lru_destroy m2 c2 = Ok (Some c3, m3) /\ lr_head c3 = None /\ lr_index c3 = Null /\ lr_count c3 = 0 /\
        m_nodes m3 = m_nodes m0 /\ live m3 = live m0
  | (e, _, m1) => (e = SCL_ERR_OUT_OF_MEMORY \/ (e = SCL_ERR_SIZE_OVERFLOW /\ 2 ^ 63 <= capacity)) /\ m_nodes m1 = m_nodes m0 /\ live m1 = live m0
  end.
Proof.
  unfold scl_lru_init. destruct (Z.eqb_spec ks 0); [lia|]. destruct (Z.eqb_spec vs 0); [lia|]. destruct (Z.eqb_spec capacity 0); [lia|]. cbn [orb].
  change (SIZE_MAX / 2) with (2 ^ 63 - 1). rewrite Z.gtb_ltb. destruct (Z.ltb_spec (2 ^ 63 - 1) capacity) as [Hbig|Hbig]; [split; [right; split; [done|lia]|done]|].
  unfold scl_calloc. destruct (calloc_fn al _ _ _ _); cbn [to_ptr]; [|split; [by left|done]].
  set (c1 := Lru _ _ _ _ _ _ _ _ _). set (m1 := Mem _ _).
  assert (lru_rep capacity (capacity * 2) ks vs scl_lru_default_hash m1 (Some c1, m1) []) as R.
  { exists c1, [], (fun _ => []). split; [done|]. split; [|done]. cbn [fst snd]. split; [done|done| |constructor|apply holds_nil|done|rewrite zlen_nil; lia].
    eapply indexed_empty; [reflexivity|rewrite zlen_replicate; lia|]. intros i Hi. rewrite zlook_replicate. destruct (Z.leb_spec 0 i), (Z.ltb_spec i (Z.of_nat (Z.to_nat (capacity * 2)))); try lia. done. }
  pose proof (lru_simulates capacity (capacity * 2) ks vs scl_lru_default_hash m1 ltac:(lia) ltac:(unfold PTRDIFF_MAX; lia) al Hks Hvs Hsum) as Sim.
  destruct (proj1 (wp_ok _ _) (run_refines _ _ _ _ [] ops R)) as ([outs [c2 m2]] & E & l & T & (c & ns & bucket & Ec & O & El)).
  cbn [fst snd] in Ec, O. subst c2.
  destruct (proj1 (wp_ok _ _) (wp_lru_destroy _ _ _ _ _ _ _ _ _ _ O)) as ([c3 m3] & E3 & (h & ->) & En & Elive).
  exists outs, (Some c), m2, l, (Lru None None capacity 0 ks vs Null (capacity * 2) h), m3.
  pose proof (ok_full _ _ _ _ _ _ _ _ _ _ O). subst l. rewrite zlen_snd.
  split; [exact E|]. split; [exact T|]. split; [done|]. split; [apply (ok_keys _ _ _ _ _ _ _ _ _ _ O)|]. split; [exact E3|].
  split; [done|]. split; [done|]. split; [done|]. split; [exact En|]. rewrite Elive. unfold live, m1. cbn [m_world w_live]. lia.
Qed.

Lemma lru_refines_witness :
  exists outs l, trace (lru_spec (V := Z) 2) []
    [LPut (Some [1; 0]) (Some 10); LPut (Some [2; 0]) (Some 20); LGet (Some [1; 0]) true; LPut (Some [3; 0]) (Some 30); LRemove (Some [1; 0])] outs l.
Proof.
  pose proof (lru_refines small_allocator (Mem (World 0 0) ∅) (Lru None None 0 0 0 0 Null 0 scl_lru_default_hash) 2 8 2
    [LPut (Some [1; 0]) (Some 10); LPut (Some [2; 0]) (Some 20); LGet (Some [1; 0]) true; LPut (Some [3; 0]) (Some 30); LRemove (Some [1; 0])]
    ltac:(lia) ltac:(lia) ltac:(lia) ltac:(lia)) as H.
  change (scl_lru_init small_allocator (Mem (World 0 0) ∅) (Some (Lru None None 0 0 0 0 Null 0 scl_lru_default_hash)) 2 8 2) with
    (SCL_OK, Some (Lru None None 2 0 2 8 (Ptr (replicate 4 (Some None))) 4 scl_lru_default_hash), Mem (N := scl_lru_node_t Z) (World 1 1) ∅) in H.
  destruct H as (outs & c2 & m2 & l & c3 & m3 & _ & T & _). exists outs, l. exact T.
Defined.

(** ** What the code does not mean to do *)
Section Findings.
Definition started (ks vs capacity : Z) : option scl_lru_t * mem (scl_lru_node_t Z) :=
  let '(_, c, m) := scl_lru_init small_allocator (Mem (World 0 0) ∅) (Some (Lru None None 0 0 0 0 Null 0 scl_lru_default_hash)) ks vs capacity in (c, m).

(** An allocator that grants the index and one node. *)
Definition two_grants : scl_allocator_t :=
  {| malloc_fn := fun i n _ => Nat.ltb i 2; calloc_fn := fun _ _ _ _ => true; realloc_fn := fun _ _ _ _ _ => Refused |}.

(** A cache of one entry evicts it before the memory for the next one is
    refused: the caller is told that nothing was stored, and the old entry is
    gone. *)
Lemma lru_refused_put_evicts :
  (let '(c, m) := started 1 8 1 in '(outs, _) ← run (lru_step two_grants) (c, m) [LPut (Some [1]) (Some 10); LPut (Some [2]) (Some 20); LContains (Some [1]); LCount];
   mret outs) = Ok [Code SCL_OK; Code SCL_ERR_OUT_OF_MEMORY; Flag false; Size 0].
Proof. vm_compute. reflexivity. Qed.
End Findings.
