(* ===== verification/BinTree.v ===== *)
(** Binary search trees over a store of nodes: what the plain, AVL and
    red-black trees ([libs/structures/bst], [avl], [rbtree]) share.  Their
    read-only operations and their destruction are the same text over
    different node types; a class gives the links and the element of a node.
    The operations are specified by the in-order list of the elements. *)

From stdpp Require Import gmap.
From S2P Require Import Prelude Core Store SortSpec Refine Containers.
#[local] Open Scope Z_scope.

(** ** Nodes with two children *)
Class TreeNode (N A : Type) := {
  left : N -> addr;
  right : N -> addr;
  elem : N -> A;
  set_left : N -> addr -> N;
  set_right : N -> addr -> N;
  set_elem : N -> A -> N;
  left_set_left n p : left (set_left n p) = p;
  right_set_left n p : right (set_left n p) = right n;
  elem_set_left n p : elem (set_left n p) = elem n;
  left_set_right n p : left (set_right n p) = left n;
  right_set_right n p : right (set_right n p) = p;
  elem_set_right n p : elem (set_right n p) = elem n;
  left_set_elem n x : left (set_elem n x) = left n;
  right_set_elem n x : right (set_elem n x) = right n;
  elem_set_elem n x : elem (set_elem n x) = x
}.
#[export] Hint Rewrite @left_set_left @right_set_left @elem_set_left @left_set_right @right_set_right
  @elem_set_right @left_set_elem @right_set_elem @elem_set_elem : node.

Record tree_t (A : Type) : Type := Tree {
  t_root : addr;
  t_element_size : Z;
  t_count : Z;
  t_cmp : A -> A -> Z
}.
Arguments Tree {A}.
Arguments t_root {A}.
Arguments t_element_size {A}.
Arguments t_count {A}.
Arguments t_cmp {A}.

(** [INT_MAX]: the stack indices are [int]s. *)
Definition INT_MAX : Z := 2 ^ 31 - 1.

Section Defs.
Context {N A : Type} `{!TreeNode N A} (al : scl_allocator_t).
Notation mem := (mem N).
Implicit Types (m : mem) (tree : option (tree_t A)).

(** [p->field = ...]. *)
Definition update m (p : addr) (f : N -> N) : res mem := n ← load m p; store m p (f n).

Definition tree_init tree (element_size : Z) (cmp : option (A -> A -> Z))
    : scl_error_t * option (tree_t A) :=
  match tree, cmp with
  | Some t, Some cmp =>
      if element_size =? 0 then (SCL_ERR_INVALID_ARG, Some t)
      else (SCL_OK, Some (Tree None element_size 0 cmp))
  | _, _ => (SCL_ERR_NULL_PTR, tree)
  end.

Definition tree_contains m tree (key : option A) : res bool :=
  match tree, key with
  | Some (Tree root es count cmp), Some key =>
      loop (S (Z.to_nat count))
        (fun cur =>
           match cur with
           | None => mret (inr false)
           | Some _ =>
               n ← load m cur;
               let c := cmp key (elem n) in
               if c <? 0 then mret (inl (left n))
               else if c >? 0 then mret (inl (right n))
               else mret (inr true)
           end) root
  | _, _ => mret false
  end.

Definition tree_find m tree (key : option A) (out : bool) : res (scl_error_t * option A) :=
  match tree, key, out with
  | Some (Tree root es count cmp), Some key, true =>
      loop (S (Z.to_nat count))
        (fun cur =>
           match cur with
           | None => mret (inr (SCL_ERR_NOT_FOUND, None))
           | Some _ =>
               n ← load m cur;
               let c := cmp key (elem n) in
               if c <? 0 then mret (inl (left n))
               else if c >? 0 then mret (inl (right n))
               else mret (inr (SCL_OK, Some (elem n)))
           end) root
  | _, _, _ => mret (SCL_ERR_NULL_PTR, None)
  end.

(** The walk to the leftmost ([child := left]) or rightmost node. *)
Definition tree_end m tree (child : N -> addr) (out : bool) : res (scl_error_t * option A) :=
  match tree, out with
  | Some (Tree root es count cmp), true =>
      match root with
      | None => mret (SCL_ERR_EMPTY, None)
      | Some _ =>
          loop (S (Z.to_nat count))
            (fun cur =>
               n ← load m cur;
               match child n with
               | Some _ => mret (inl (child n))
               | None => mret (inr (SCL_OK, Some (elem n)))
               end) root
      end
  | _, _ => mret (SCL_ERR_NULL_PTR, None)
  end.

Definition tree_min m tree (out : bool) : res (scl_error_t * option A) := tree_end m tree left out.
Definition tree_max m tree (out : bool) : res (scl_error_t * option A) := tree_end m tree right out.

Definition tree_count tree : Z := match tree with Some t => t_count t | None => 0 end.
Definition tree_empty tree : bool := match tree with Some t => t_count t =? 0 | None => true end.

(** [visit x ctx] is what the callback makes of [*ctx]; it does not change
    the element.  The stack holds 256 nodes. *)
Definition tree_inorder {U} m tree (visit : option (A -> U -> U)) (ctx : U) : res (scl_error_t * U) :=
  match tree, visit with
  | Some (Tree root es count cmp), Some visit =>
      loop (S (Z.to_nat count))
        (fun '(stack, sp, cur, ctx) =>
           match cur, sp >=? 0 with
           | None, false => mret (inr (SCL_OK, ctx))
           | _, _ =>
               r ← loop (S (Z.to_nat count))
                 (fun '(stack, sp, cur) =>
                    match cur with
                    | None => mret (inr (Some (stack, sp)))
                    | Some _ =>
                        if sp >=? 255 then mret (inr None)
                        else
                          stack ← set stack (sp + 1) (Some cur);
                          n ← load m cur;
                          mret (inl (stack, sp + 1, left n))
                    end) (stack, sp, cur);
               match r with
               | None => mret (inr (SCL_ERR_INVALID_STATE, ctx))
               | Some (stack, sp) =>
                   cur ← get_cell stack sp;
                   n ← load m cur;
                   mret (inl (stack, sp - 1, right n, visit (elem n) ctx))
               end
           end) (replicate 256 (@None addr), -1, root, ctx)
  | _, _ => mret (SCL_ERR_NULL_PTR, ctx)
  end.

(** The blocks of the stack of [tree_destroy] come from the same allocator. *)
Definition with_world m (w : world) : mem := Mem w (m_nodes m).

(** One push of [tree_destroy], doubling the stack when it is full; [None]
    when it cannot grow, and then the old stack is freed. *)
Definition push_grow m (stack : block addr) (cap sp : Z) (cur : addr)
    : res (option (block addr * Z * Z) * mem) :=
  '(r, m) ←
    (if sp >=? INT_MAX then UB else if sp + 1 >=? cap then
       let new_cap := u64 (cap * 2) in
       '(ns, old, w) ← scl_realloc al (m_world m) (Ptr stack) (u64 (cap * 8)) (u64 (new_cap * 8)) MAX_ALIGN 8;
       match ns with
       | None => w ← free_ptr w old; mret (None, with_world m w)
       | Some ns => mret (Some (ns, new_cap), with_world m w)
       end
     else mret (Some (stack, cap), m));
  match r with
  | None => mret (None, m)
  | Some (stack, cap) =>
      stack ← set stack (sp + 1) (Some cur); mret (Some (stack, cap, sp + 1), m)
  end.

(** [free] releases a node, with its element where that is a block of its
    own.  The traversal is in post-order. *)
Definition tree_destroy (free : mem -> addr -> res mem) m tree : res (option (tree_t A) * mem) :=
  match tree with
  | None => mret (None, m)
  | Some (Tree root es count cmp) =>
      match root with
      | None => mret (tree, m)
      | Some _ =>
          match scl_alloc al (m_world m) (64 * 8) MAX_ALIGN 8 with
          | (None, w) => mret (tree, with_world m w)
          | (Some stack, w) =>
              '(stack, m) ← loop (S (3 * Z.to_nat count))
                (fun '(stack, cap, sp, cur, last, m) =>
                   match cur, sp >=? 0 with
                   | None, false => mret (inr (Some stack, m))
                   | _, _ =>
                       '(r, m) ← loop (S (Z.to_nat count))
                         (fun '(stack, cap, sp, cur, m) =>
                            match cur with
                            | None => mret (inr (Some (stack, cap, sp), m))
                            | Some _ =>
                                '(r, m) ← push_grow m stack cap sp cur;
                                match r with
                                | None => mret (inr (None, m))
                                | Some (stack, cap, sp) =>
                                    n ← load m cur;
                                    mret (inl (stack, cap, sp, left n, m))
                                end
                            end) (stack, cap, sp, cur, m);
                       match r with
                       | None => mret (inr (None, m))
                       | Some (stack, cap, sp) =>
                           peek ← get_cell stack sp;
                           n ← load m peek;
                           if decide (right n <> None /\ last <> right n)
                           then mret (inl (stack, cap, sp, right n, last, m))
                           else
                             m ← free m peek;
                             mret (inl (stack, cap, sp - 1, None, peek, m))
                       end
                   end) (stack, 64, -1, root, None, with_world m w);
              match stack with
              | None => mret (tree, m)
              | Some stack =>
                  mret (Some (Tree None es 0 cmp), with_world m (scl_free (m_world m) (Some stack)))
              end
          end
      end
  end.
End Defs.

(** ** The shape of a tree

    A tree carries the addresses of its nodes and what they hold. *)
Inductive tree (N : Type) : Type :=
| TLeaf
| TNode (a : positive) (n : N) (l r : tree N).
Arguments TLeaf {N}.
Arguments TNode {N}.

Section Shape.
Context {N A : Type} `{!TreeNode N A}.
Implicit Types (h : gmap positive N) (t l r : tree N) (n : N) (a b : positive) (p q : addr).

Definition root_of t : addr := match t with TLeaf => None | TNode a _ _ _ => Some a end.

Fixpoint shape h p t : Prop :=
  match t with
  | TLeaf => p = None
  | TNode a n l r => p = Some a /\ h !! a = Some n /\ shape h (left n) l /\ shape h (right n) r
  end.

(** The addresses of the nodes, and the elements in order. *)
Fixpoint addrs t : list positive :=
  match t with TLeaf => [] | TNode a _ l r => a :: addrs l ++ addrs r end.
Fixpoint elems t : list A :=
  match t with TLeaf => [] | TNode _ n l r => elems l ++ elem n :: elems r end.

Lemma zlen_elems t : zlen (elems t) = zlen (addrs t).
Proof. induction t as [|a n l IHl r IHr]; [done|]. simpl. rewrite zlen_app, !zlen_cons, zlen_app. lia. Qed.

Lemma shape_root h p t : shape h p t -> p = root_of t.
Proof. destruct t; simpl; tauto. Qed.

Lemma shape_frame h h' p t :
  (forall a, a ∈ addrs t -> h' !! a = h !! a) -> shape h p t -> shape h' p t.
Proof.
  revert p. induction t as [|a n l IHl r IHr]; intros p E; [done|]. simpl. intros (-> & Ha & Hl & Hr).
  split; [done|]. rewrite E by (simpl; set_solver). split; [done|].
  split; [apply IHl|apply IHr]; try done; intros b Hb; apply E; simpl; set_solver.
Qed.

Lemma shape_insert h p t a n : a ∉ addrs t -> shape h p t -> shape (<[a := n]> h) p t.
Proof. intros Ha. apply shape_frame. intros b Hb. apply lookup_insert_ne. by intros ->. Qed.

Lemma shape_delete h p t a : a ∉ addrs t -> shape h p t -> shape (delete a h) p t.
Proof. intros Ha. apply shape_frame. intros b Hb. apply lookup_delete_ne. by intros ->. Qed.

(** ** Paths

    A path leads from a hole up to the root: at each step the node, the side
    of the hole and the other subtree. *)
Inductive step : Type :=
| InLeft (b : positive) (n : N) (r : tree N)
| InRight (b : positive) (n : N) (l : tree N).
Implicit Types (k : list step).

Definition step_addr (s : step) : positive := match s with InLeft b _ _ | InRight b _ _ => b end.
Definition step_node (s : step) : N := match s with InLeft _ n _ | InRight _ n _ => n end.

Definition plug (s : step) t : tree N :=
  match s with InLeft b n r => TNode b n t r | InRight b n l => TNode b n l t end.
Fixpoint fill k t : tree N := match k with [] => t | s :: k => fill k (plug s t) end.

(** The elements before and after the hole, and the addresses on the path. *)
Fixpoint before k : list A :=
  match k with
  | [] => []
  | InLeft _ _ _ :: k => before k
  | InRight _ n l :: k => before k ++ elems l ++ [elem n]
  end.
Fixpoint after k : list A :=
  match k with
  | [] => []
  | InLeft _ n r :: k => elem n :: elems r ++ after k
  | InRight _ _ _ :: k => after k
  end.
Fixpoint path_addrs k : list positive :=
  match k with
  | [] => []
  | InLeft b _ t :: k | InRight b _ t :: k => b :: addrs t ++ path_addrs k
  end.

Lemma elems_fill k t : elems (fill k t) = before k ++ elems t ++ after k.
Proof.
  revert t. induction k as [|[b n r|b n l] k IH]; intros t; simpl; [by rewrite app_nil_r|..];
    rewrite IH; simpl; by rewrite <- !app_assoc.
Qed.

Lemma addrs_fill k t : addrs (fill k t) ≡ₚ addrs t ++ path_addrs k.
Proof.
  revert t. induction k as [|[b n r|b n l] k IH]; intros t; simpl; [by rewrite app_nil_r|..];
    rewrite IH; simpl; solve_Permutation.
Qed.

(** [path h k root hole]: the path is in the store, from [root], and its hole
    is filled with the pointer [hole]. *)
Fixpoint path h k (root hole : addr) : Prop :=
  match k with
  | [] => root = hole
  | InLeft b n r :: k => h !! b = Some n /\ left n = hole /\ shape h (right n) r /\ path h k root (Some b)
  | InRight b n l :: k => h !! b = Some n /\ right n = hole /\ shape h (left n) l /\ path h k root (Some b)
  end.

Lemma shape_fill h k root t : shape h root (fill k t) <-> path h k root (root_of t) /\ shape h (root_of t) t.
Proof.
  revert t. induction k as [|[b n r|b n l] k IH]; intros t; simpl.
  - split; [intros H; split; [by apply shape_root in H|by rewrite <- (shape_root _ _ _ H)]|]. by intros [-> ?].
  - rewrite IH. simpl. split.
    + intros (Hp & _ & Hb & Hl & Hr). rewrite <- (shape_root _ _ _ Hl). done.
    + intros ((Hb & Hl & Hr & Hp) & Ht). rewrite Hl. done.
  - rewrite IH. simpl. split.
    + intros (Hp & _ & Hb & Hl & Hr). rewrite <- (shape_root _ _ _ Hr). done.
    + intros ((Hb & Hr & Hl & Hp) & Ht). rewrite Hr. done.
Qed.

Lemma path_frame h h' k root hole :
  (forall a, a ∈ path_addrs k -> h' !! a = h !! a) -> path h k root hole -> path h' k root hole.
Proof.
  revert hole. induction k as [|[b n t|b n t] k IH]; intros hole E; [done|..]; simpl; intros (Hb & Hh & Ht & Hp);
    (rewrite E by (simpl; set_solver)); split_and!; try done;
    first [eapply shape_frame; [|exact Ht]|apply IH; [|done]]; intros a Ha; apply E; simpl; set_solver.
Qed.

(** Putting another pointer into the hole. *)
Definition relink (s : step) p : step :=
  match s with
  | InLeft b n r => InLeft b (set_left n p) r
  | InRight b n l => InRight b (set_right n p) l
  end.
Definition relink_path k p : list step := match k with [] => [] | s :: k => relink s p :: k end.

Lemma before_relink k p : before (relink_path k p) = before k.
Proof. destruct k as [|[b n t|b n t] k]; simpl; autorewrite with node; done. Qed.
Lemma after_relink k p : after (relink_path k p) = after k.
Proof. destruct k as [|[b n t|b n t] k]; simpl; autorewrite with node; done. Qed.
Lemma path_addrs_relink k p : path_addrs (relink_path k p) = path_addrs k.
Proof. by destruct k as [|[b n t|b n t] k]. Qed.

Lemma path_relink h s k root hole p :
  NoDup (path_addrs (s :: k)) -> path h (s :: k) root hole ->
  path (<[step_addr s := step_node (relink s p)]> h) (relink s p :: k) root p.
Proof.
  destruct s as [b n t|b n t]; simpl; intros [Hb _]%NoDup_cons (_ & _ & Ht & Hp); autorewrite with node;
    rewrite lookup_insert_eq; split_and!; try done;
    first [apply shape_insert; [set_solver|done]|
           eapply path_frame; [|exact Hp]; intros a Ha; apply lookup_insert_ne; intros ->; set_solver].
Qed.
End Shape.
Arguments step N : clear implicits.

(** ** Searching *)
Section Search.
Context {N A : Type} `{!TreeNode N A} (cmp : A -> A -> Z) `{!Comparator cmp}.
Implicit Types (t l r : tree N) (k : list (step N)) (m : mem N) (xs ys : list A) (key x y : A).

(** In strictly increasing order. *)
Definition ascending xs : Prop := StronglySorted (fun x y => cmp x y < 0) xs.

Lemma ascending_app xs ys :
  ascending (xs ++ ys) <-> ascending xs /\ ascending ys /\ (forall x y, x ∈ xs -> y ∈ ys -> cmp x y < 0).
Proof.
  unfold ascending. rewrite StronglySorted_app. naive_solver.
Qed.

Lemma ascending_cons x xs : ascending (x :: xs) <-> ascending xs /\ (forall y, y ∈ xs -> cmp x y < 0).
Proof.
  rewrite (ascending_app [x] xs). split.
  - intros (_ & H1 & H2). split; [done|]. intros. apply H2; [by left|done].
  - intros (H1 & H2). split; [repeat constructor|]. split; [done|]. intros z y Hz%list_elem_of_singleton. subst. apply H2.
Qed.

(** The key belongs in the hole of the path. *)
Definition placed key k : Prop :=
  (forall y, y ∈ before k -> 0 < cmp key y) /\ (forall y, y ∈ after k -> cmp key y < 0).

Lemma cmp_swap x y : cmp x y < 0 <-> 0 < cmp y x.
Proof. exact (cmp_sym _ x y). Qed.

Lemma cmp_lt_trans x y z : cmp x y < 0 -> cmp y z < 0 -> cmp x z < 0.
Proof. intros H1 H2. eapply (cmp_lt_le_trans cmp); [done|lia]. Qed.

Lemma placed_left key a n l r k :
  ascending (elems (fill k (TNode a n l r))) -> placed key k -> cmp key (elem n) < 0 ->
  placed key (InLeft a n r :: k).
Proof.
  rewrite elems_fill. simpl. intros (_ & (H & _)%ascending_app & _)%ascending_app [H1 H2] Hc.
  apply ascending_app in H as (_ & [_ H]%ascending_cons & _). split; [done|]. simpl.
  intros y [->|[Hy|Hy]%elem_of_app]%elem_of_cons; [done| |by apply H2]. by eapply cmp_lt_trans, H.
Qed.

Lemma placed_right key a n l r k :
  ascending (elems (fill k (TNode a n l r))) -> placed key k -> 0 < cmp key (elem n) ->
  placed key (InRight a n l :: k).
Proof.
  rewrite elems_fill. simpl. intros (_ & (H & _)%ascending_app & _)%ascending_app [H1 H2] Hc.
  apply ascending_app in H as (_ & _ & H). split; [|done]. simpl.
  intros y [Hy|[Hy|Hy%list_elem_of_singleton]%elem_of_app]%elem_of_app; [by apply H1| |by subst].
  apply cmp_swap. eapply cmp_lt_trans; [apply H; [done|by left]|by apply cmp_swap].
Qed.

(** One step down, and what it means to have arrived. *)
Lemma placed_none key k : placed key k -> forall y, y ∈ elems (fill k (@TLeaf N)) -> cmp key y <> 0.
Proof.
  intros [H1 H2] y. rewrite elems_fill. simpl. intros [Hy|Hy]%elem_of_app; [apply H1 in Hy|apply H2 in Hy]; lia.
Qed.

Context (c es : Z) (base : mem N).

Record tree_of (s : tree_t A) m t : Prop := {
  to_es : t_element_size s = es;
  to_cmp : t_cmp s = cmp;
  to_root : t_root s = root_of t;
  to_count : t_count s = zlen (addrs t);
  to_shape : shape (m_nodes m) (root_of t) t;
  to_holds : holdsn c base m (addrs t);
  to_ascending : ascending (elems t);
  to_fits : zlen (addrs t) <= PTRDIFF_MAX
}.

(** The rule of the loops that go down, whatever they carry along: [J] relates
    their state to the position in the tree.  At a node they stop or step to a
    child on the side of the key; below a leaf they stop. *)
Lemma wp_walk {S R} m t0 key (J : S -> list (step N) -> tree N -> Prop) (f : S -> res (S + R)) s0 fuel (Q : R -> Prop) :
  shape (m_nodes m) (root_of t0) t0 -> ascending (elems t0) -> zlen (addrs t0) < Z.of_nat fuel -> J s0 [] t0 ->
  (forall s k, t0 = fill k TLeaf -> placed key k -> J s k TLeaf ->
     wp (f s) (fun o => match o with inl _ => False | inr o => Q o end)) ->
  (forall s k a n l r, t0 = fill k (TNode a n l r) -> placed key k -> J s k (TNode a n l r) ->
     m_nodes m !! a = Some n -> left n = root_of l -> right n = root_of r ->
     wp (f s) (fun o => match o with
       | inl s' => cmp key (elem n) < 0 /\ J s' (InLeft a n r :: k) l \/
                   0 < cmp key (elem n) /\ J s' (InRight a n l :: k) r
       | inr o => Q o
       end)) ->
  wp (loop fuel f s0) Q.
Proof.
  intros Hs Ha Hf HJ HQ1 HQ2. pose proof (zlen_nonneg (addrs t0)).
  apply (wp_loop_rel (fun i s => exists k t, t0 = fill k t /\ J s k t /\ i = zlen (addrs t) /\ placed key k)
    (zlen (addrs t0))); [|lia|lia|].
  - exists [], t0. split_and!; try done. split; simpl; set_solver.
  - intros i s (k & t & -> & Hj & -> & Hp). destruct t as [|a n l r].
    { eapply wp_mono; [by apply (HQ1 s k)|]. by intros [|]. }
    apply shape_fill in Hs as [_ (_ & Hn & Hl & Hr)].
    eapply wp_mono; [by eapply (HQ2 s k); eauto using shape_root|].
    intros [s'|]; [|done]. simpl. rewrite zlen_cons, zlen_app. pose proof (zlen_nonneg (addrs l)). pose proof (zlen_nonneg (addrs r)).
    intros [[Hc Hj']|[Hc Hj']].
    + exists (zlen (addrs l)). split; [lia|]. exists (InLeft a n r :: k), l.
      split; [done|]. split; [done|]. split; [done|]. by eapply placed_left.
    + exists (zlen (addrs r)). split; [lia|]. exists (InRight a n l :: k), r.
      split; [done|]. split; [done|]. split; [done|]. by eapply placed_right.
Qed.

(** The loops that carry nothing. *)
Lemma wp_descend {R} m t0 key (f : addr -> res (addr + R)) fuel (Q : R -> Prop) :
  shape (m_nodes m) (root_of t0) t0 -> ascending (elems t0) -> zlen (addrs t0) < Z.of_nat fuel ->
  (forall k, t0 = fill k TLeaf -> placed key k -> wp (f None) (fun o => match o with inl _ => False | inr o => Q o end)) ->
  (forall k a n l r, t0 = fill k (TNode a n l r) -> placed key k -> m_nodes m !! a = Some n ->
     wp (f (Some a)) (fun o => match o with
       | inl p => cmp key (elem n) < 0 /\ p = left n \/ 0 < cmp key (elem n) /\ p = right n
       | inr o => Q o
       end)) ->
  wp (loop fuel f (root_of t0)) Q.
Proof.
  intros Hs Ha Hf HQ1 HQ2. eapply (wp_walk m t0 key (fun p k t => p = root_of t)); [done..| |].
  - intros p k -> Hp ->. by apply (HQ1 k).
  - intros p k a n l r -> Hp -> Hn El Er. eapply wp_mono; [by eapply (HQ2 k)|].
    intros [p|]; [|done]. by rewrite El, Er.
Qed.

(** What a lookup finds. *)
Definition holds_key xs key : Prop := exists x, x ∈ xs /\ cmp key x = 0.

Lemma wp_contains s m t key (Q : bool -> Prop) :
  tree_of s m t -> (forall b, (b = true <-> holds_key (elems t) key) -> Q b) ->
  wp (tree_contains m (Some s) (Some key)) Q.
Proof.
  intros [_ E2 E3 E4 Hs _ Ha _] HQ. destruct s as [root es' cnt cmp']. simpl in E2, E3, E4. subst.
  apply (wp_descend m t key); [done|done|pose proof (zlen_nonneg (addrs t)); lia| |].
  - intros k -> Hp. wstep. apply HQ. split; [done|]. intros (x & Hx & Hc). by apply (placed_none key k Hp) in Hx.
  - intros k a n l r -> Hp Hn. wstep. eapply wp_load_node; [done|]. cbv zeta. rewrite Z.gtb_ltb.
    destruct (Z.ltb_spec (cmp key (elem n)) 0); [wstep; auto|].
    destruct (Z.ltb_spec 0 (cmp key (elem n))); [wstep; auto|]. wstep. apply HQ. split; [|done]. intros _.
    exists (elem n). rewrite elems_fill. simpl. split; [set_solver|lia].
Qed.

Lemma wp_tree_find s m t key (Q : scl_error_t * option A -> Prop) :
  tree_of s m t ->
  (forall x, x ∈ elems t -> cmp key x = 0 -> Q (SCL_OK, Some x)) ->
  (~ holds_key (elems t) key -> Q (SCL_ERR_NOT_FOUND, None)) ->
  wp (tree_find m (Some s) (Some key) true) Q.
Proof.
  intros [_ E2 E3 E4 Hs _ Ha _] HQ1 HQ2. destruct s as [root es' cnt cmp']. simpl in E2, E3, E4. subst.
  apply (wp_descend m t key); [done|done|pose proof (zlen_nonneg (addrs t)); lia| |].
  - intros k -> Hp. wstep. apply HQ2. intros (x & Hx & Hc). by apply (placed_none key k Hp) in Hx.
  - intros k a n l r -> Hp Hn. wstep. eapply wp_load_node; [done|]. cbv zeta. rewrite Z.gtb_ltb.
    destruct (Z.ltb_spec (cmp key (elem n)) 0); [wstep; auto|].
    destruct (Z.ltb_spec 0 (cmp key (elem n))); [wstep; auto|]. wstep. apply HQ1; [|lia].
    rewrite elems_fill. simpl. set_solver.
Qed.

Lemma wp_min s m t (Q : scl_error_t * option A -> Prop) :
  tree_of s m t ->
  match elems t with x :: _ => Q (SCL_OK, Some x) | [] => Q (SCL_ERR_EMPTY, None) end ->
  wp (tree_min m (Some s) true) Q.
Proof.
  intros [_ _ E3 E4 Hs _ _ _]. destruct s as [root es' cnt cmp']. simpl in E3, E4. subst. intros HQ.
  unfold tree_min, tree_end. destruct t as [|a0 n0 l0 r0]; [exact HQ|]. set (t := TNode a0 n0 l0 r0) in *.
  change (root_of t) with (Some a0) at 1. cbv iota. pose proof (zlen_nonneg (addrs t)).
  apply (wp_loop_rel (fun i p => exists k a n l r, t = fill k (TNode a n l r) /\ p = Some a /\
    i = zlen (addrs (TNode a n l r)) /\ before k = []) (zlen (addrs t))); [|lia|lia|].
  - by exists [], a0, n0, l0, r0.
  - intros i p (k & a & n & l & r & Et & -> & -> & Hk). rewrite Et in Hs. pose proof Hs as [_ (_ & Hn & Hl & _)]%shape_fill.
    wstep. eapply wp_load_node; [done|]. rewrite (shape_root _ _ _ Hl).
    destruct l as [|b n' l' r']; cbn [root_of]; wstep.
    + rewrite Et, elems_fill, Hk in HQ. done.
    + exists (zlen (addrs (TNode b n' l' r'))). split.
      { simpl. repeat rewrite ?zlen_cons, ?zlen_app.
        pose proof (zlen_nonneg (addrs l')). pose proof (zlen_nonneg (addrs r')). pose proof (zlen_nonneg (addrs r)). lia. }
      by exists (InLeft a n r :: k), b, n', l', r'.
Qed.

Lemma wp_max s m t (Q : scl_error_t * option A -> Prop) :
  tree_of s m t ->
  match last (elems t) with Some x => Q (SCL_OK, Some x) | None => Q (SCL_ERR_EMPTY, None) end ->
  wp (tree_max m (Some s) true) Q.
Proof.
  intros [_ _ E3 E4 Hs _ _ _]. destruct s as [root es' cnt cmp']. simpl in E3, E4. subst. intros HQ.
  unfold tree_max, tree_end. destruct t as [|a0 n0 l0 r0]; [exact HQ|]. set (t := TNode a0 n0 l0 r0) in *.
  change (root_of t) with (Some a0) at 1. cbv iota. pose proof (zlen_nonneg (addrs t)).
  apply (wp_loop_rel (fun i p => exists k a n l r, t = fill k (TNode a n l r) /\ p = Some a /\
    i = zlen (addrs (TNode a n l r)) /\ after k = []) (zlen (addrs t))); [|lia|lia|].
  - by exists [], a0, n0, l0, r0.
  - intros i p (k & a & n & l & r & Et & -> & -> & Hk). rewrite Et in Hs. pose proof Hs as [_ (_ & Hn & _ & Hr)]%shape_fill.
    wstep. eapply wp_load_node; [done|]. rewrite (shape_root _ _ _ Hr).
    destruct r as [|b n' l' r']; cbn [root_of]; wstep.
    + rewrite Et, elems_fill, Hk, app_nil_r in HQ. simpl in HQ. by rewrite app_assoc, last_snoc in HQ.
    + exists (zlen (addrs (TNode b n' l' r'))). split.
      { simpl. repeat rewrite ?zlen_cons, ?zlen_app.
        pose proof (zlen_nonneg (addrs l')). pose proof (zlen_nonneg (addrs r')). pose proof (zlen_nonneg (addrs l)). lia. }
      by exists (InRight a n l :: k), b, n', l', r'.
Qed.
End Search.

(** ** In-order traversal

    [depth t]: the nodes waiting on the stack at once. *)
Fixpoint depth {N} (t : tree N) : Z :=
  match t with TLeaf => 0 | TNode _ _ l r => Z.max (1 + depth l) (depth r) end.

Section Inorder.
Context {N A : Type} `{!TreeNode N A} {U : Type} (visit : A -> U -> U).
Implicit Types (t l r : tree N) (m : mem N) (F : list (positive * N * tree N)) (u : U).

Definition visit_all (xs : list A) u : U := fold_left (fun u x => visit x u) xs u.

(** The stack, top first: each waiting node with its right subtree. *)
Definition waiting m (stack : block addr) F : Prop :=
  (forall i a n r, zlook (rev F) i = Some (a, n, r) ->
     zlook stack i = Some (Some (Some a)) /\ m_nodes m !! a = Some n /\ shape (m_nodes m) (right n) r).
Definition rest F : list A := concat (map (fun '(a, n, r) => elem n :: elems r) F).

(** The stack the remaining traversal needs. *)
Fixpoint need F : Z := match F with [] => 0 | (a, n, r) :: F => Z.max (zlen F + depth r) (Z.max (1 + zlen F) (need F)) end.
Definition needs t F : Z := Z.max (zlen F + depth t) (need F).
Definition work t F : Z := zlen (elems t) + zlen (rest F).

Lemma depth_nonneg t : 0 <= depth t.
Proof. induction t; simpl; lia. Qed.

Lemma waiting_push m stack F a n r :
  zlen F < zlen stack -> waiting m stack F -> m_nodes m !! a = Some n -> shape (m_nodes m) (right n) r ->
  waiting m (zupd stack (zlen F) (Some (Some a))) ((a, n, r) :: F).
Proof.
  intros Hl Hw Hn Hr i b n' r' Hi. simpl in Hi. assert (zlen (rev F) = zlen F) as E by (unfold zlen; by rewrite length_rev).
  pose proof (zlen_nonneg F). rewrite zlook_app, zlook_cons, zlook_nil, E in Hi. destruct (Z.ltb_spec i (zlen F)).
  - destruct (Hw _ _ _ _ Hi) as (H1 & H2 & H3). rewrite zlook_zupd_ne by lia. done.
  - destruct (Z.eqb_spec (i - zlen F) 0); [|done]. assert (i = zlen F) as -> by lia. simplify_eq.
    by rewrite zlook_zupd_eq by lia.
Qed.

(** Pushing the left spine of a subtree. *)
Lemma wp_spine m t F stack sp fuel (Q : option (block addr * Z) -> Prop) :
  shape (m_nodes m) (root_of t) t -> waiting m stack F -> zlen stack = 256 -> sp = zlen F - 1 ->
  zlen F <= 256 -> zlen (addrs t) < Z.of_nat fuel -> (root_of t <> None \/ F <> []) ->
  (256 < needs t F -> Q None) ->
  (forall stack' a n r F', waiting m stack' ((a, n, r) :: F') -> zlen stack' = 256 -> 1 + zlen F' <= 256 ->
     elems t ++ rest F = rest ((a, n, r) :: F') ->
     (needs t F <= 256 <-> need ((a, n, r) :: F') <= 256) -> Q (Some (stack', zlen F'))) ->
  wp (loop fuel
        (fun '(stack, sp, cur) =>
           match cur with
           | None => mret (inr (Some (stack, sp)))
           | Some _ =>
               if sp >=? 255 then mret (inr None)
               else
                 stack ← set stack (sp + 1) (Some cur);
                 n ← load m cur;
                 mret (inl (stack, sp + 1, left n))
           end) (stack, sp, root_of t)) Q.
Proof.
  revert F stack sp fuel. induction t as [|a n l IHl r IHr]; intros F stack sp fuel Hs Hw Hl -> HF Hf Hne HQ1 HQ2;
    (destruct fuel as [|fuel]; [match type of Hf with zlen ?l < _ => pose proof (zlen_nonneg l) end; lia|]).
  - simpl. destruct F as [|[[b n] r] F]; [by destruct Hne|]. replace (zlen ((b, n, r) :: F) - 1) with (zlen F) by (rewrite zlen_cons; lia).
    rewrite zlen_cons in HF. apply (HQ2 stack b n r F); try done; [lia|].
    unfold needs. simpl depth. rewrite zlen_cons. pose proof (zlen_nonneg F). pose proof (depth_nonneg r). simpl. lia.
  - destruct Hs as (_ & Hn & Hsl & Hsr). simpl root_of. simpl loop. rewrite Z.geb_leb. pose proof (zlen_nonneg F).
    destruct (Z.leb_spec 255 (zlen F - 1)).
    { apply HQ1. unfold needs. simpl. pose proof (depth_nonneg l). lia. }
    replace (zlen F - 1 + 1) with (zlen F) by lia. wstep. wstep. apply wp_set; [lia|]. wstep. eapply wp_load_node; [done|].
    wstep. rewrite (shape_root _ _ _ Hsl) in Hsl |- *.
    assert (needs l ((a, n, r) :: F) = needs (TNode a n l r) F) as Eneed.
    { unfold needs. simpl. rewrite zlen_cons. pose proof (depth_nonneg l). lia. }
    replace (zlen F) with (zlen ((a, n, r) :: F) - 1) at 2 by (rewrite zlen_cons; lia).
    apply (IHl ((a, n, r) :: F)); try done.
    + apply waiting_push; try done. lia.
    + by rewrite zlen_zupd.
    + rewrite zlen_cons. lia.
    + simpl in Hf. rewrite zlen_cons, zlen_app in Hf. pose proof (zlen_nonneg (addrs r)). lia.
    + by right.
    + by rewrite Eneed.
    + intros stack' a' n' r' F' H1 H2 H3 H4 H5. apply HQ2 with (a := a') (n := n') (r := r'); try done.
      * rewrite <- H4. unfold rest. simpl. by rewrite <- app_assoc.
      * by rewrite <- Eneed.
Qed.

(** What the traversal answers: it visits every element in order, unless the
    stack is too small for the tree, and then it stops after some of them. *)
Definition traversed t u (a : scl_error_t * U) : Prop :=
  (a = (SCL_OK, visit_all (elems t) u) /\ depth t <= 256) \/
  (256 < depth t /\ exists xs ys, elems t = xs ++ ys /\ a = (SCL_ERR_INVALID_STATE, visit_all xs u)).

Lemma waiting_pop m stack a n r F : waiting m stack ((a, n, r) :: F) ->
  waiting m stack F /\ zlook stack (zlen F) = Some (Some (Some a)) /\ m_nodes m !! a = Some n /\
  shape (m_nodes m) (right n) r.
Proof.
  intros Hw. assert (zlen (rev F) = zlen F) as E by (unfold zlen; by rewrite length_rev). split.
  - intros i b n' r' Hi. apply Hw. simpl. rewrite zlook_app. pose proof (zlook_Some _ _ _ Hi). by bcase; [|lia].
  - apply (Hw (zlen F)). simpl. rewrite zlook_app, E, Z.ltb_irrefl, Z.sub_diag. done.
Qed.

Lemma wp_inorder cmp c es base s m t u :
  tree_of cmp c es base s m t -> wp (tree_inorder m (Some s) (Some visit) u) (traversed t u).
Proof.
  intros [_ _ E3 E4 Hs _ _ _]. destruct s as [root es' cnt cmp']. simpl in E3, E4. subst.
  pose proof (zlen_nonneg (addrs t)). pose proof (zlen_elems t).
  apply (wp_loop_rel (fun i '(stack, sp, cur, u') => exists xs t' F, cur = root_of t' /\
    shape (m_nodes m) (root_of t') t' /\ waiting m stack F /\ zlen stack = 256 /\ sp = zlen F - 1 /\ zlen F <= 256 /\
    elems t = xs ++ elems t' ++ rest F /\ u' = visit_all xs u /\ (depth t <= 256 <-> needs t' F <= 256) /\
    i = zlen (elems t' ++ rest F)) (zlen (elems t))); [|lia|lia|].
  - exists [], t, []. simpl. unfold needs, rest. simpl. rewrite app_nil_r, ?zlen_nil. pose proof (depth_nonneg t).
    split_and!; try done; [|lia]. intros i a n r Hi. simpl in Hi. by rewrite zlook_nil in Hi.
  - intros i [[[stack sp] cur] u'] (xs & t' & F & -> & Hs' & Hw & Hl & -> & HF & Ee & -> & Hd & ->).
    assert (root_of t' = None /\ F = [] \/ (root_of t' <> None \/ F <> [])) as [[Hr ->]|Hne].
    { destruct t', F; auto; by right; (left || right). }
    { rewrite Hr. simpl. left. destruct t'; [|done]. rewrite Ee. simpl. unfold rest. simpl. rewrite app_nil_r.
      split; [done|]. apply Hd. unfold needs. simpl. lia. }
    assert (zlen (elems t') <= zlen (elems t)) as Hz.
    { rewrite Ee, !zlen_app. pose proof (zlen_nonneg xs). pose proof (zlen_nonneg (rest F)). lia. }
    rewrite zlen_elems in Hz.
    assert (forall T (X Y : res T) P, wp X P -> wp (match root_of t', zlen F - 1 >=? 0 with
      | None, false => Y | _, _ => X end) P) as Hcase.
    { intros T X Y P HX. destruct (root_of t'); [done|]. rewrite Z.geb_leb. destruct Hne as [?|HF0]; [done|].
      destruct F as [|f F]; [done|]. rewrite zlen_cons. pose proof (zlen_nonneg F). by destruct (Z.leb_spec 0 (zlen F + 1 - 1)); [|lia]. }
    apply Hcase. wstep. eapply (wp_spine m t' F); [done..|lia|done| |].
    + intros Hbig. wstep. right. split; [lia|]. exists xs, (elems t' ++ rest F). done.
    + intros stack' a n r F' Hw' Hl' HF' Er Hn'. destruct (waiting_pop _ _ _ _ _ _ Hw') as (Hw2 & Hst & Hn & Hsr).
      pose proof (zlen_nonneg F'). wstep. unfold get_cell. wstep. apply wp_get; [lia|]. intros ca Hca. rewrite Hst in Hca. injection Hca as <-.
      wstep. wstep. eapply wp_load_node; [done|]. wstep. rewrite Er in Ee |- *.
      exists (zlen (elems r ++ rest F')). split.
      { unfold rest. simpl. rewrite zlen_cons. unfold zlen. lia. }
      exists (xs ++ [elem n]), r, F'. split_and!; try done; [by eapply shape_root|by rewrite <- (shape_root _ _ _ Hsr)|lia|..].
      * rewrite Ee. unfold rest. simpl. by rewrite <- app_assoc.
      * unfold visit_all. by rewrite fold_left_app.
      * rewrite Hd, Hn'. unfold needs. simpl. pose proof (depth_nonneg r). lia.
Qed.
End Inorder.

(** ** Destruction *)
Fixpoint height {N} (t : tree N) : Z :=
  match t with TLeaf => 0 | TNode _ _ l r => 1 + Z.max (height l) (height r) end.

Section Destroy.
Context {N A : Type} `{!TreeNode N A} (al : scl_allocator_t) `{!AllocatorOk al}.
Notation frame := (positive * N * option (tree N))%type.
Implicit Types (t l r : tree N) (m : mem N) (F : list frame) (h : gmap positive N).

Lemma height_nonneg t : 0 <= height t.
Proof. induction t; simpl; lia. Qed.

(** The nodes on the stack, top first: [Some r] while the right subtree is
    still to be visited, [None] once the traversal has turned right. *)
Fixpoint frames h (hole : addr) F : Prop :=
  match F with
  | [] => True
  | (a, n, Some r) :: F => h !! a = Some n /\ shape h (right n) r /\ frames h (Some a) F
  | (a, n, None) :: F => h !! a = Some n /\ right n = hole /\ frames h (Some a) F
  end.

Fixpoint owned F : list positive :=
  match F with
  | [] => []
  | (a, n, Some r) :: F => a :: addrs r ++ owned F
  | (a, n, None) :: F => a :: owned F
  end.

(** What is left to do, and the height of the stack it may need. *)
Fixpoint todo F : Z :=
  match F with
  | [] => 0
  | (a, n, Some r) :: F => 2 + 3 * zlen (addrs r) + todo F
  | (a, n, None) :: F => 1 + todo F
  end.
Fixpoint within (H : Z) F : Prop :=
  match F with
  | [] => True
  | (a, n, Some r) :: F => zlen F + 1 + height r <= H /\ within H F
  | (a, n, None) :: F => within H F
  end.

Definition stacked F : list addr := (fun '(a, _, _) => Some a) <$> rev F.

Lemma zlen_stacked F : zlen (stacked F) = zlen F.
Proof. unfold stacked. rewrite zlen_map. unfold zlen. by rewrite length_rev. Qed.

Lemma stacked_cons a n ph F : stacked ((a, n, ph) :: F) = stacked F ++ [Some a].
Proof. unfold stacked. cbn [rev]. by rewrite fmap_app. Qed.

Lemma zlen_owned F : zlen F <= zlen (owned F).
Proof.
  induction F as [|[[a n] [r|]] F IH]; simpl; [done|..]; rewrite ?zlen_cons, ?zlen_app; [|lia].
  pose proof (zlen_nonneg (addrs r)). lia.
Qed.

Lemma todo_nonneg F : 0 <= todo F.
Proof.
  induction F as [|[[a n] [r|]] F IH]; simpl; [done|..]; [|lia]. pose proof (zlen_nonneg (addrs r)). lia.
Qed.

Lemma frames_frame h h' hole F :
  (forall a, a ∈ owned F -> h' !! a = h !! a) -> frames h hole F -> frames h' hole F.
Proof.
  revert hole. induction F as [|[[a n] [r|]] F IH]; intros hole E; [done|..]; simpl.
  - intros (H1 & H2 & H3). rewrite E by (simpl; set_solver). split; [done|]. split.
    + eapply shape_frame; [|done]. intros b Hb. apply E. simpl. set_solver.
    + apply IH; [|done]. intros b Hb. apply E. simpl. set_solver.
  - intros (H1 & H2 & H3). rewrite E by (simpl; set_solver). split; [done|]. split; [done|].
    apply IH; [|done]. intros b Hb. apply E. simpl. set_solver.
Qed.

Lemma wp_push_grow m stack cap F a n r (Q : option (block addr * Z * Z) * mem N -> Prop) :
  owns (Ptr stack) cap 8 (stacked F) -> 64 <= cap -> zlen F <= INT_MAX ->
  (forall stack' cap' w, owns (Ptr stack') cap' 8 (stacked ((a, n, Some r) :: F)) -> 64 <= cap' ->
     w_live w = live m -> Q (Some (stack', cap', zlen F), with_world m w)) ->
  (forall w, 64 <= zlen F -> w_live w = live m - 1 -> Q (None, with_world m w)) ->
  wp (push_grow al m stack cap (zlen F - 1) (Some a)) Q.
Proof.
  intros Ho Hc Hi HQ1 HQ2. pose proof (zlen_stacked F) as Ez. pose proof (zlen_nonneg F).
  assert (forall stack' cap' w, owns (Ptr stack') cap' 8 (stacked F) -> zlen F < cap' -> 64 <= cap' -> w_live w = live m ->
    wp (stack0 ← set stack' (zlen F - 1 + 1) (Some (Some a)); mret (Some (stack0, cap', zlen F - 1 + 1), with_world m w)) Q) as Hpush.
  { intros stack' cap' w Ho' Hlt Hc' Hw. replace (zlen F - 1 + 1) with (zlen F) by lia.
    pose proof Ho' as (El & Hp & Hb & Hst). wstep. apply wp_set; [lia|]. wstep. apply HQ1; try done.
    unfold stacked. cbn [rev]. rewrite fmap_app. simpl. split_and!; try done; [by rewrite zlen_zupd|].
    rewrite <- Ez. apply (stored_snoc stack' (stacked F)); [lia|done]. }
  unfold push_grow. rewrite !Z.geb_leb. destruct (Z.leb_spec INT_MAX (zlen F - 1)); [lia|].
  pose proof Ho as (El & Hp & Hb & Hst). unfold PTRDIFF_MAX in Hb.
  pose proof (stored_len _ _ Hst) as Hle. rewrite Ez in Hle.
  destruct (Z.leb_spec cap (zlen F - 1 + 1)) as [Hfull|Hroom].
  - rewrite (u64_small (cap * 2)) by lia. rewrite (u64_small (cap * 8)) by lia. rewrite (u64_small (cap * 2 * 8)) by lia.
    wstep. wstep. eapply (wp_realloc_grow al (m_world m) (Ptr stack) cap 8 (stacked F) (cap * 2)); [lia|done|lia|lia|..].
    + intros tmp p' w' Ho' Hw'. simpl in Hw'. wstep. cbn [m_world]. apply (Hpush tmp (cap * 2) w'); try done; try lia. unfold live; lia.
    + intros w' Hw'. cbn [free_ptr scl_free]. wstep. wstep. wstep. wstep. apply HQ2; [lia|]. simpl. unfold live. lia.
  - wstep. wstep. replace m with (with_world m (m_world m)) by by destruct m. apply Hpush; (done || lia).
Qed.

Lemma within_weaken H F : within H F -> forall a n r, zlen F + 1 + height r <= H -> within H ((a, n, Some r) :: F).
Proof. intros Hw a n r Hr. by split. Qed.

(** Pushing the left spine. *)
Lemma wp_dspine H m t F stack cap fuel (Q : option (block addr * Z * Z) * mem N -> Prop) :
  shape (m_nodes m) (root_of t) t -> frames (m_nodes m) (root_of t) F \/ t = TLeaf ->
  owns (Ptr stack) cap 8 (stacked F) -> 64 <= cap ->
  zlen (addrs t) + zlen F <= INT_MAX -> zlen (addrs t) < Z.of_nat fuel ->
  within H F -> zlen F + height t <= H ->
  (forall w, 64 < H -> w_live w = live m - 1 -> Q (None, with_world m w)) ->
  (forall stack' cap' F' w, owns (Ptr stack') cap' 8 (stacked F') -> 64 <= cap' -> w_live w = live m ->
     (t = TLeaf /\ F' = F \/ (exists a n r F0, F' = (a, n, Some r) :: F0) /\ forall hole, frames (m_nodes m) hole F') ->
     owned F' ≡ₚ addrs t ++ owned F -> todo F' <= 3 * zlen (addrs t) + todo F -> within H F' ->
     Q (Some (stack', cap', zlen F' - 1), with_world m w)) ->
  wp (loop fuel
        (fun '(stack, cap, sp, cur, m) =>
           match cur with
           | None => mret (inr (Some (stack, cap, sp), m))
           | Some _ =>
               '(r, m) ← push_grow al m stack cap sp cur;
               match r with
               | None => mret (inr (None, m))
               | Some (stack, cap, sp) =>
                   n ← load m cur;
                   mret (inl (stack, cap, sp, left n, m))
               end
           end) (stack, cap, zlen F - 1, root_of t, m)) Q.
Proof.
  revert m F stack cap fuel Q. induction t as [|a n l IHl r IHr]; intros m F stack cap fuel Q Hs HF Ho Hc Hi Hf Hw Hh HQ1 HQ2;
    (destruct fuel as [|fuel]; [match type of Hf with zlen ?l < _ => pose proof (zlen_nonneg l) end; lia|]).
  - simpl. replace m with (with_world m (m_world m)) by by destruct m. apply HQ2; auto. cbn [addrs]. pose proof (zlen_nonneg (@nil positive)). lia.
  - destruct HF as [HF|]; [|done]. destruct Hs as (_ & Hn & Hsl & Hsr). simpl root_of. simpl loop.
    simpl in Hi, Hh, Hf. rewrite zlen_cons, zlen_app in Hi, Hf.
    pose proof (zlen_nonneg (addrs l)). pose proof (zlen_nonneg (addrs r)). pose proof (zlen_nonneg F).
    pose proof (height_nonneg l). pose proof (height_nonneg r).
    wstep. wstep. eapply (wp_push_grow m stack cap F a n r); [done|done|lia|..].
    2:{ intros w H64 Hlw. wstep. apply HQ1; [lia|done]. }
    intros stack' cap' w Ho' Hc' Hlw. wstep. eapply wp_load_node; [exact Hn|]. wstep.
    rewrite (shape_root _ _ _ Hsl) in Hsl |- *.
    replace (zlen F) with (zlen ((a, n, Some r) :: F) - 1) by (rewrite zlen_cons; lia).
    assert (forall hole, frames (m_nodes m) hole ((a, n, Some r) :: F)) as HF' by (intros hole; by split).
    apply (IHl (with_world m w) ((a, n, Some r) :: F)); try done.
    + left. apply HF'.
    + rewrite zlen_cons. lia.
    + lia.
    + apply within_weaken; [done|lia].
    + rewrite zlen_cons. lia.
    + intros w' H64 Hlw'. apply (HQ1 w'); [done|]. rewrite Hlw'. unfold live. simpl. unfold live in Hlw. lia.
    + intros stack2 cap2 F2 w2 G1 G2 G3 G4 G5 G6 G7. apply (HQ2 stack2 cap2 F2 w2); try done.
      * rewrite G3. unfold live. simpl. done.
      * right. destruct G4 as [[-> ->]|[G4 G8]]; [|by split]. split; [by eauto|done].
      * rewrite G5. simpl. solve_Permutation.
      * simpl in G6. cbn [addrs]. rewrite zlen_cons, zlen_app. lia.
Qed.

Context (c es : Z) (cmp : A -> A -> Z) (base : mem N) (free : mem N -> addr -> res (mem N)).
Hypothesis free_spec : forall base m a ks Q, holdsn c base m (a :: ks) ->
  (forall m', m_nodes m' = delete a (m_nodes m) -> holdsn c base m' ks -> Q m') -> wp (free m (Some a)) Q.

(** The store between two rounds: what the stack and the current subtree
    still hold, with one more block live for the stack. *)
Record destroying t0 stack cap sp cur last m t F : Prop := {
  ds_cur : cur = root_of t;
  ds_sp : sp = zlen F - 1;
  ds_shape : shape (m_nodes m) (root_of t) t;
  ds_frames : frames (m_nodes m) (match t with TLeaf => last | _ => root_of t end) F;
  ds_owns : owns (Ptr stack) cap 8 (stacked F);
  ds_cap : 64 <= cap;
  ds_holds : holdsn c (with_world base (World 0 (live base + 1))) m (addrs t ++ owned F);
  ds_last : match last with Some a => a ∉ addrs t ++ owned F | None => True end;
  ds_within : within (height t0) F /\ zlen F + height t <= height t0;
  ds_size : zlen (addrs t ++ owned F) <= zlen (addrs t0)
}.

(** The second half of a round: turn right, or free the node on top. *)
Lemma wp_dvisit {R} t0 stack cap last m F (Q : block addr * Z * Z * addr * addr * mem N + R -> Prop) :
  F <> [] -> frames (m_nodes m) last F -> owns (Ptr stack) cap 8 (stacked F) -> 64 <= cap ->
  holdsn c (with_world base (World 0 (live base + 1))) m (owned F) ->
  match last with Some a => a ∉ owned F | None => True end ->
  within (height t0) F -> zlen F <= height t0 -> zlen (owned F) <= zlen (addrs t0) ->
  (forall cur last' sp' m' t' F', destroying t0 stack cap sp' cur last' m' t' F' ->
     3 * zlen (addrs t') + todo F' < todo F -> Q (inl (stack, cap, sp', cur, last', m'))) ->
  wp (peek ← get_cell stack (zlen F - 1);
      n ← load m peek;
      if decide (right n <> None /\ last <> right n)
      then mret (inl (stack, cap, zlen F - 1, right n, last, m))
      else m ← free m peek; mret (inl (stack, cap, zlen F - 1 - 1, None, peek, m))) Q.
Proof.
  intros HF Hfr Ho Hc Hh Hl Hw HF0 Hz HQ. destruct F as [|[[a n] ph] F]; [done|]. clear HF.
  assert (stored stack (stacked F) /\ zlook stack (zlen F) = Some (Some (Some a))) as [Hst Htop].
  { destruct Ho as (_ & _ & _ & Hst). rewrite stacked_cons in Hst.
    apply stored_prefix in Hst as [H1 H2]. split; [done|]. rewrite <- H2. f_equal. symmetry. apply zlen_stacked. }
  assert (owns (Ptr stack) cap 8 (stacked F)) as Ho' by (by destruct Ho as (? & ? & ? & _)).
  assert (m_nodes m !! a = Some n) as Hn by (destruct ph; simpl in Hfr; tauto).
  rewrite zlen_cons in *. replace (zlen F + 1 - 1) with (zlen F) by lia.
  unfold get_cell. wstep. unfold get. rewrite Htop. simpl. wstep. eapply wp_load_node; [done|].
  destruct (decide _) as [[Hr1 Hr2]|Hr].
  - destruct ph as [r|]; simpl in Hfr; [|destruct Hfr as (_ & ? & _); congruence].
    destruct Hfr as (_ & Hsr & Hfr). pose proof (shape_root _ _ _ Hsr) as Er. rewrite Er in Hsr, Hr1, Hr2 |- *.
    simpl in Hw. destruct Hw as [Hw1 Hw]. wstep.
    assert (a :: addrs r ++ owned F ≡ₚ addrs r ++ a :: owned F) as P by solve_Permutation.
    apply (HQ (root_of r) last (zlen F) m r ((a, n, None) :: F)).
    + split; try done; cbn [owned].
      * rewrite zlen_cons. lia.
      * destruct r as [|b n' l' r']; [done|]. simpl. by rewrite Er.
      * by rewrite stacked_cons in Ho |- *.
      * by eapply holds_perm.
      * destruct last; [|done]. simpl in Hl. by rewrite <- P.
      * rewrite zlen_cons. split; [done|lia].
      * simpl in Hz. unfold zlen in *. by rewrite <- P.
    + simpl. lia.
  - wstep.
    assert (exists ks, owned ((a, n, ph) :: F) = a :: ks /\ ks = owned F) as (ks & Ek & ->).
    { destruct ph as [r|]; simpl; [|eauto]. destruct Hfr as (_ & Hsr & _). destruct r as [|b n' l' r']; [eauto|].
      simpl in Hsr. destruct Hsr as (Er & _). exfalso. apply Hr. rewrite Er. split; [done|]. intros ->.
      apply Hl. simpl. set_solver. }
    rewrite Ek in *. eapply free_spec; [exact Hh|]. intros m' Em Hh'. wstep.
    pose proof (holds_nodup _ _ _ _ Hh) as [Hna _]%NoDup_cons.
    assert (frames (m_nodes m) (Some a) F /\ within (height t0) F /\ todo F < todo ((a, n, ph) :: F)) as (Hfr' & Hw' & Ht).
    { destruct ph as [r|]; simpl in Hfr, Hw |- *; [pose proof (zlen_nonneg (addrs r))|]; intuition lia. }
    apply (HQ None (Some a) (zlen F - 1) m' TLeaf F); [|cbn [addrs]; change (zlen (@nil positive)) with 0; lia]. rewrite zlen_cons in Hz.
    split; try done; cbn [addrs app height]; [|split; [done|lia]|lia].
    eapply frames_frame; [|exact Hfr']. intros b Hb. rewrite Em. apply lookup_delete_ne. by intros ->.
Qed.

Lemma holds_world m w ks d :
  w_live w = live m + d -> holdsn c base m ks ->
  holdsn c (with_world base (World 0 (live base + d))) (with_world m w) ks.
Proof. intros E [H1 H2 H3 H4 H5]. split; try done. unfold live in *. simpl in *. lia. Qed.

Lemma holds_unworld m w ks d :
  w_live w = live m - d -> holdsn c (with_world base (World 0 (live base + d))) m ks ->
  holdsn c base (with_world m w) ks.
Proof. intros E [H1 H2 H3 H4 H5]. split; try done. unfold live in *. simpl in *. lia. Qed.

(** Destruction frees every node and the stack; if the stack cannot be
    allocated nothing happens, and if it cannot grow past 64 entries the tree
    is left as it was although some of its nodes have been freed. *)
Definition destroyed (s : tree_t A) m t (r : option (tree_t A) * mem N) : Prop :=
  (r.1 = Some (Tree None es 0 cmp) /\ m_nodes r.2 = m_nodes base /\ live r.2 = live base) \/
  (r.1 = Some s /\ (m_nodes r.2 = m_nodes m /\ live r.2 = live m \/ 64 < height t)).

Lemma wp_destroy s m t :
  tree_of cmp c es base s m t -> zlen (addrs t) <= INT_MAX ->
  wp (tree_destroy al free m (Some s)) (destroyed s m t).
Proof.
  intros [E1 E2 E3 E4 Hs Hh _ _] Hi. destruct s as [root es' cnt cmp']. simpl in E1, E2, E3, E4. subst.
  unfold tree_destroy. destruct t as [|a0 n0 l0 r0].
  { simpl. left. split; [done|]. simpl. by apply (holds_none c). }
  set (t0 := TNode a0 n0 l0 r0) in *. change (root_of t0) with (Some a0) at 1. cbv iota.
  assert (root_of t0 <> None) as Hne by done. clearbody t0. pose proof (zlen_nonneg (addrs t0)).
  unfold scl_alloc. destruct (malloc_fn al _ _ _) eqn:Em.
  2:{ wstep. right. split; [done|]. left. done. }
  apply malloc_fn_ok in Em. wstep. set (w1 := World _ _).
  apply (wp_loop_rel (fun i '(stack, cap, sp, cur, last, m') => exists t F, destroying t0 stack cap sp cur last m' t F /\
    i = 3 * zlen (addrs t) + todo F) (3 * zlen (addrs t0))); [|lia|lia|].
  { exists t0, []. split; [|simpl; lia]. split; simpl; try done.
    - split_and!; try done; apply stored_nil.
    - rewrite app_nil_r. by apply (holds_world m w1).
    - rewrite app_nil_r. lia. }
  intros i [[[[[stack cap] sp] cur] last] m'] (t & F & [-> -> Hsh Hfr Ho Hc Hh' Hl [Hw Hht] Hz] & ->).
  assert (root_of t = None /\ F = [] /\ t = TLeaf \/ (root_of t <> None \/ F <> [])) as [(Hr & -> & ->)|Hne'].
  { destruct t, F; auto; by right; (left || right). }
  { simpl. left. cbn [fst snd scl_free]. simpl in Hh'.
    destruct (holds_none _ _ _ (holds_unworld m' (World (w_reqs (m_world m')) (w_live (m_world m') - 1)) [] 1 eq_refl Hh')).
    done. }
  assert (forall T (X Y : res T) P, wp X P -> wp (match root_of t, zlen F - 1 >=? 0 with
    | None, false => Y | _, _ => X end) P) as Hcase.
  { intros T X Y P HX. destruct (root_of t); [done|]. rewrite Z.geb_leb. destruct Hne' as [?|HF0]; [done|].
    destruct F as [|f F]; [done|]. rewrite zlen_cons. pose proof (zlen_nonneg F). by destruct (Z.leb_spec 0 (zlen F + 1 - 1)); [|lia]. }
  pose proof (zlen_owned F). rewrite zlen_app in Hz. pose proof (zlen_nonneg (addrs t)).
  pose proof (zlen_nonneg F). apply Hcase. wstep.
  apply (wp_dspine (height t0) m' t F); try done; try lia.
  - destruct t; auto.
  - intros w H64 Hlw. wstep. wstep. right. split; [done|]. right. done.
  - intros stack' cap' F' w Ho' Hc' Hlw Hcase' P Ht Hw'.
    assert (F' <> [] /\ frames (m_nodes m') last F' /\ zlen F' <= height t0) as (HF' & Hfr' & HzF').
    { destruct Hcase' as [[-> ->]|[(a & n & r & F0 & ->) HF']].
      - destruct Hne' as [?|HF0]; [done|]. split; [done|]. split; [done|]. simpl in Hht. lia.
      - split; [done|]. split; [apply HF'|]. simpl in Hw'. rewrite zlen_cons. pose proof (height_nonneg r). lia. }
    assert (zlen (owned F') = zlen (addrs t) + zlen (owned F)) as Ezo by (unfold zlen; rewrite P, length_app; lia).
    apply (wp_dvisit t0 stack' cap' last (with_world m' w) F'); try done.
    + destruct m' as [w' h']. eapply holds_same; [|eapply holds_perm; [symmetry; exact P|exact Hh']]. done.
    + destruct last; [|done]. by rewrite P.
    + lia.
    + intros cur last' sp' m2 t2 F2 D Hlt. exists (3 * zlen (addrs t2) + todo F2). split.
      { pose proof (todo_nonneg F2). pose proof (zlen_nonneg (addrs t2)). lia. }
      by exists t2, F2.
Qed.
End Destroy.
