(* ===== verification/TreeEdit.v ===== *)
(** Editing binary search trees: replacing the child of a parent, as removal
    and rotations do, and the specification of a search tree as the ascending
    list of its elements.  The read-only operations are shown to implement it
    once for all trees. *)

From stdpp Require Import gmap.
From S2P Require Import Prelude Core Store SortSpec Refine Containers BinTree.
#[local] Open Scope Z_scope.

Section Defs.
Context {N A : Type} `{!TreeNode N A}.

(** [if (!parent) root = p; else if (parent->left == old) parent->left = p;
    else parent->right = p]. *)
Definition replace_child (m : mem N) (root parent old p : addr) : res (addr * mem N) :=
  match parent with
  | None => mret (p, m)
  | Some _ =>
      n ← load m parent;
      m ← (if decide (left n = old) then store m parent (set_left n p)
           else store m parent (set_right n p));
      mret (root, m)
  end.
End Defs.

(** ** Paths, continued *)
Section Paths.
Context {N A : Type} `{!TreeNode N A}.
Implicit Types (h : gmap positive N) (t l r : tree N) (k : list (step N)) (m : mem N).

Definition top k : addr := match k with [] => None | s :: _ => Some (step_addr s) end.

Lemma fill_app k1 k2 t : fill (k1 ++ k2) t = fill k2 (fill k1 t).
Proof. revert t. induction k1 as [|s k1 IH]; intros t; simpl; [done|apply IH]. Qed.

Lemma root_of_fill k t t' : root_of t = root_of t' -> root_of (fill k t) = root_of (fill k t').
Proof. destruct k as [|s k]; [done|]. intros _. simpl. revert t t' s. induction k as [|s' k IH]; intros t t' s; [by destruct s|apply IH]. Qed.

Lemma before_app k1 k2 : before (k1 ++ k2) = before k2 ++ before k1.
Proof. induction k1 as [|[b n r|b n l] k1 IH]; simpl; [by rewrite app_nil_r|done|]. by rewrite IH, <- app_assoc. Qed.
Lemma after_app k1 k2 : after (k1 ++ k2) = after k1 ++ after k2.
Proof. induction k1 as [|[b n r|b n l] k1 IH]; simpl; [done| |done]. by rewrite IH, <- app_assoc. Qed.

Lemma top_relink k p : top (relink_path k p) = top k.
Proof. by destruct k as [|[]]. Qed.

Lemma top_in k b : top k = Some b -> b ∈ path_addrs k.
Proof. destruct k as [|[c n t|c n t] k]; simpl; intros [= <-]; by left. Qed.

Lemma addrs_in_fill k t a : a ∈ addrs t -> a ∈ addrs (fill k t).
Proof. rewrite addrs_fill. set_solver. Qed.

Lemma root_in t a : root_of t = Some a -> a ∈ addrs t.
Proof. destruct t; [done|]. simpl. intros [= ->]. by left. Qed.

(** The node at the top of the path, and the side of the hole. *)
Lemma path_top h k root a :
  path h k root (Some a) -> a ∉ path_addrs k ->
  match k with
  | [] => root = Some a
  | s :: _ => h !! step_addr s = Some (step_node s) /\
      match s with InLeft _ n _ => left n = Some a | InRight _ n _ => left n <> Some a end
  end.
Proof.
  destruct k as [|[b n t|b n t] k]; simpl; [done|by intros (? & ? & _)|].
  intros (Hb & Hr & Ht & _) Ha. split; [done|]. intros E. apply shape_root in Ht. apply Ha.
  right. apply elem_of_app. left. apply root_in. congruence.
Qed.

Lemma wp_replace_child c base m root k a t' ks (Q : addr * mem N -> Prop) :
  path (m_nodes m) k root (Some a) -> a ∉ path_addrs k -> NoDup (path_addrs k) ->
  shape (m_nodes m) (root_of t') t' -> (forall b, b ∈ addrs t' -> b ∉ path_addrs k) ->
  holdsn c base m ks -> (forall b, b ∈ path_addrs k -> b ∈ ks) ->
  (forall root' m', shape (m_nodes m') root' (fill (relink_path k (root_of t')) t') -> holdsn c base m' ks ->
     root' = root_of (fill (relink_path k (root_of t')) t') ->
     (forall b, b ∉ path_addrs k -> m_nodes m' !! b = m_nodes m !! b) -> Q (root', m')) ->
  wp (replace_child m root (top k) (Some a) (root_of t')) Q.
Proof.
  intros Hp Ha Hnd Ht Hd Hh Hks HQ. pose proof (path_top _ _ _ _ Hp Ha) as Htop. unfold replace_child.
  destruct k as [|s k]; simpl top.
  { apply HQ; (done || simpl; by eapply shape_root). }
  destruct Htop as [Hs Hside]. wstep. eapply wp_load_node; [done|]. wstep.
  assert (wp (store m (Some (step_addr s)) (step_node (relink s (root_of t')))) (fun m' => Q (root, m'))) as HS.
  { eapply wp_store_node; [done|].
    assert (shape (<[step_addr s := step_node (relink s (root_of t'))]> (m_nodes m)) root
      (fill (relink_path (s :: k) (root_of t')) t')) as Hsh.
    { simpl relink_path. apply shape_fill. split; [by eapply path_relink|]. apply shape_insert; [|done].
      intros Hin. apply (Hd _ Hin). by apply top_in. }
    apply HQ; try done.
    - apply holds_update; [|done]. apply Hks. by apply top_in.
    - by eapply shape_root.
    - intros b Hb. apply lookup_insert_ne. intros <-. apply Hb. by apply top_in. }
  destruct s as [b n t|b n t]; simpl in Hside, HS |- *; destruct (decide _); try done;
    (eapply wp_mono; [exact HS|]); intros m' HQ'; by wstep.
Qed.

(** ** A tree planted in the store *)
Context (c : Z) (base : mem N).

Record planted m t : Prop := {
  pl_shape : shape (m_nodes m) (root_of t) t;
  pl_holds : holdsn c base m (addrs t)
}.

Lemma planted_nodup m k t :
  planted m (fill k t) -> NoDup (addrs t) /\ NoDup (path_addrs k) /\ forall a, a ∈ addrs t -> a ∉ path_addrs k.
Proof.
  intros [_ Hh]. pose proof (holds_nodup _ _ _ _ Hh) as Hd. rewrite addrs_fill in Hd.
  apply NoDup_app in Hd as (? & ? & ?). auto.
Qed.

Lemma planted_node m k a n l r : planted m (fill k (TNode a n l r)) ->
  m_nodes m !! a = Some n /\ left n = root_of l /\ right n = root_of r.
Proof. intros [[_ (_ & ? & ? & ?)]%shape_fill _]. eauto using shape_root. Qed.

(** Changing a node without its links. *)
Lemma shape_modify h k a n n' l r root :
  NoDup (addrs (fill k (TNode a n l r))) -> shape h root (fill k (TNode a n l r)) ->
  left n' = left n -> right n' = right n ->
  shape (<[a := n']> h) root (fill k (TNode a n' l r)).
Proof.
  rewrite addrs_fill. intros (Hn & Hd & Hk)%NoDup_app Hs El Er. simpl in Hn. apply NoDup_cons in Hn as [Hal Hn].
  apply shape_fill in Hs as [Hp (_ & Ha & Hl & Hr)]. apply shape_fill. split.
  - eapply path_frame; [|exact Hp]. intros b Hb. apply lookup_insert_ne. intros <-. apply (Hd a); [by left|done].
  - simpl. rewrite lookup_insert_eq, El, Er. split_and!; try done; apply shape_insert; (done || set_solver).
Qed.

Lemma addrs_modify k a n n' l r : addrs (fill k (TNode a n' l r)) ≡ₚ addrs (fill k (TNode a n l r)).
Proof. by rewrite !addrs_fill. Qed.

Lemma planted_modify m k a n n' l r :
  planted m (fill k (TNode a n l r)) -> left n' = left n -> right n' = right n ->
  planted (Mem (m_world m) (<[a := n']> (m_nodes m))) (fill k (TNode a n' l r)).
Proof.
  intros [Hs Hh] El Er. split.
  - rewrite (root_of_fill k _ (TNode a n l r)) by done. apply shape_modify with (n := n); try done. apply Hh.
  - eapply holds_perm; [|apply holds_update; [|exact Hh]; apply addrs_in_fill; by left].
    apply addrs_modify.
Qed.

(** The store after a new node, then with that node hung below a leaf. *)
Lemma planted_grown m m1 t a n : planted m t -> a ∉ addrs t -> m_nodes m1 = <[a := n]> (m_nodes m) ->
  shape (m_nodes m1) (root_of t) t.
Proof. intros [Hs _] Ha ->. by apply shape_insert. Qed.

Lemma planted_hang m1 s k a n :
  shape (m_nodes m1) (root_of (fill (s :: k) TLeaf)) (fill (s :: k) TLeaf) -> m_nodes m1 !! a = Some n ->
  holdsn c base m1 (a :: addrs (fill (s :: k) TLeaf)) -> left n = None -> right n = None ->
  planted (Mem (m_world m1) (<[step_addr s := step_node (relink s (Some a))]> (m_nodes m1)))
    (fill (relink s (Some a) :: k) (TNode a n TLeaf TLeaf)).
Proof.
  intros Hs Ha Hh El Er. pose proof (holds_nodup _ _ _ _ Hh) as [Hal Hd]%NoDup_cons.
  rewrite addrs_fill in Hal, Hd. cbn [addrs app] in Hal, Hd.
  assert (step_addr s ∈ path_addrs (s :: k)) as Hin by by apply top_in.
  assert (root_of (fill (relink s (Some a) :: k) (TNode a n TLeaf TLeaf)) = root_of (fill (s :: k) TLeaf)) as Er'.
  { simpl. apply root_of_fill. by destruct s. }
  split.
  - rewrite Er'. apply shape_fill in Hs as [Hp _]. apply shape_fill. split; [by eapply path_relink|].
    simpl. rewrite lookup_insert_ne by (intros E; apply Hal; by rewrite <- E). done.
  - eapply holds_perm; [|apply holds_update; [|exact Hh]; right; rewrite addrs_fill; exact Hin].
    rewrite !addrs_fill. change (relink s (Some a) :: k) with (relink_path (s :: k) (Some a)).
    by rewrite path_addrs_relink.
Qed.

Lemma elems_hang s k a n :
  elems (fill (relink s (Some a) :: k) (TNode a n TLeaf TLeaf)) = before (s :: k) ++ elem n :: after (s :: k).
Proof.
  change (relink s (Some a) :: k) with (relink_path (s :: k) (Some a)).
  by rewrite elems_fill, before_relink, after_relink.
Qed.

Lemma addrs_hang s k a n :
  addrs (fill (relink s (Some a) :: k) (TNode a n TLeaf TLeaf)) ≡ₚ a :: addrs (fill (s :: k) TLeaf).
Proof.
  change (relink s (Some a) :: k) with (relink_path (s :: k) (Some a)).
  by rewrite !addrs_fill, path_addrs_relink.
Qed.

(** Taking out a node with at most one child. *)
Lemma wp_splice (free : mem N -> addr -> res (mem N)) m k a n l r t' (Q : addr * mem N -> Prop) :
  (forall m a ks Q, holdsn c base m (a :: ks) ->
    (forall m', m_nodes m' = delete a (m_nodes m) -> holdsn c base m' ks -> Q m') -> wp (free m (Some a)) Q) ->
  planted m (fill k (TNode a n l r)) -> l = TLeaf /\ t' = r \/ r = TLeaf /\ t' = l ->
  (forall m', planted m' (fill (relink_path k (root_of t')) t') ->
     Q (root_of (fill (relink_path k (root_of t')) t'), m')) ->
  wp (replace_child m (root_of (fill k (TNode a n l r))) (top k) (Some a) (root_of t'))
    (fun '(root, m) => wp (free m (Some a)) (fun m => Q (root, m))).
Proof.
  intros Hfree P Hc HQ. pose proof (planted_nodup _ _ _ P) as (Hd & Hk & Hdis). destruct P as [Hs Hh].
  apply shape_fill in Hs as [Hp (_ & Hn & Hl & Hr)].
  assert (addrs (TNode a n l r) = a :: addrs t') as Ea.
  { destruct Hc as [[-> ->]|[-> ->]]; simpl; [done|by rewrite app_nil_r]. }
  assert (shape (m_nodes m) (root_of t') t') as Ht'.
  { destruct Hc as [[-> ->]|[-> ->]]; [pose proof (shape_root _ _ _ Hr)|pose proof (shape_root _ _ _ Hl)]; congruence. }
  rewrite Ea in *. apply NoDup_cons in Hd as [Hat Hd].
  eapply (wp_replace_child c base m _ k a t'); [exact Hp|apply Hdis; by left|done|done| |exact Hh| |].
  - intros b Hb. apply Hdis. by right.
  - intros b Hb. rewrite addrs_fill. set_solver.
  - intros root' m' Hs' Hh' Er _. eapply (Hfree _ _ (addrs (fill (relink_path k (root_of t')) t'))).
    + eapply holds_perm; [|exact Hh']. by rewrite !addrs_fill, Ea, path_addrs_relink.
    + intros m2 Em Hh2. subst root'. apply HQ. split; [|done]. rewrite Em. apply shape_delete; [|done].
      rewrite addrs_fill, path_addrs_relink, elem_of_app. intros [?|?]; [done|]. apply (Hdis a); [by left|done].
Qed.
End Paths.

(** ** The specification of a search tree *)
Section Spec.
Context {A : Type} (cmp : A -> A -> Z).
Implicit Types (xs ys : list A) (x key : A).

(** Inserting takes the place of an equal element or goes where the order
    puts it; removing takes out the element equal to the key. *)
Definition inserted x xs ys : Prop :=
  exists l1 l2, ys = l1 ++ x :: l2 /\
    (xs = l1 ++ l2 /\ ~ holds_key cmp xs x \/ exists y, xs = l1 ++ y :: l2 /\ cmp x y = 0).
Definition removed key xs ys : Prop :=
  exists l1 y l2, xs = l1 ++ y :: l2 /\ ys = l1 ++ l2 /\ cmp key y = 0.

Inductive tree_query : Type :=
| QContains (key : option A)
| QFind (key : option A) (out : bool)
| QMin (out : bool)
| QMax (out : bool)
| QCount
| QEmpty.

Definition query_spec xs (q : tree_query) (r : reply A) : Prop :=
  match q with
  | QContains (Some key) => exists b, r = Flag b /\ (b = true <-> holds_key cmp xs key)
  | QContains None => r = Flag false
  | QFind (Some key) true =>
      (exists x, x ∈ xs /\ cmp key x = 0 /\ r = Value x) \/
      (~ holds_key cmp xs key /\ r = Code SCL_ERR_NOT_FOUND)
  | QMin true => r = match xs with x :: _ => Value x | [] => Code SCL_ERR_EMPTY end
  | QMax true => r = match last xs with Some x => Value x | None => Code SCL_ERR_EMPTY end
  | QFind _ _ | QMin false | QMax false => r = Code SCL_ERR_NULL_PTR
  | QCount => r = Size (zlen xs)
  | QEmpty => r = Flag (bool_decide (xs = []))
  end.
End Spec.
Arguments tree_query A : clear implicits.

Section Queries.
Context {N A : Type} `{!TreeNode N A} (cmp : A -> A -> Z) `{!Comparator cmp} (c es : Z) (base : mem N).
Implicit Types (t l r : tree N) (k : list (step N)) (m : mem N) (xs ys : list A) (key x y : A) (s : tree_t A).

Definition tree_ask m (tree : option (tree_t A)) (q : tree_query A) : res (reply A) :=
  match q with
  | QContains key => b ← tree_contains m tree key; mret (Flag b)
  | QFind key out => '(e, x) ← tree_find m tree key out; mret (value_or e x)
  | QMin out => '(e, x) ← tree_min m tree out; mret (value_or e x)
  | QMax out => '(e, x) ← tree_max m tree out; mret (value_or e x)
  | QCount => mret (Size (tree_count tree))
  | QEmpty => mret (Flag (tree_empty tree))
  end.

Lemma wp_ask s m t q : tree_of cmp c es base s m t ->
  wp (tree_ask m (Some s) q) (query_spec cmp (elems t) q).
Proof.
  intros R. pose proof R as [_ _ _ Hc _ _ _ _]. destruct q as [[key|]|[key|] [|]|[|]|[|]| |]; cbn [tree_ask];
    try (destruct s; reflexivity).
  - wstep. apply (wp_contains cmp c es base s m t); [done|]. intros b Hb. wstep. by exists b.
  - wstep. apply (wp_tree_find cmp c es base s m t); [done|..].
    + intros x Hx E. wstep. left. by exists x.
    + intros Hn. wstep. by right.
  - wstep. apply (wp_min cmp c es base s m t); [done|]. by destruct (elems t).
  - wstep. apply (wp_max cmp c es base s m t); [done|]. simpl. by destruct (last (elems t)).
  - simpl. by rewrite Hc, zlen_elems.
  - simpl. rewrite Hc, <- zlen_elems. f_equal. destruct (elems t); [done|]. rewrite zlen_cons.
    pose proof (zlen_nonneg l). by bcase; [lia|].
Qed.

(** A searchable tree is a planted one in order, and it stays one when it
    moves to another store. *)
Lemma tree_planted s m t : tree_of cmp c es base s m t -> planted c base m t.
Proof. by intros []. Qed.

Lemma planted_tree m t :
  planted c base m t -> ascending cmp (elems t) -> zlen (addrs t) <= PTRDIFF_MAX ->
  tree_of cmp c es base (Tree (root_of t) es (zlen (addrs t)) cmp) m t.
Proof. by intros [] ? ?. Qed.

Lemma tree_of_same s m m' t : m_nodes m' = m_nodes m -> holdsn c base m' (addrs t) ->
  tree_of cmp c es base s m t -> tree_of cmp c es base s m' t.
Proof. intros E Hh []. split; try done. by rewrite E. Qed.

(** Keeping the order. *)
Lemma inserted_ascending x k : ascending cmp (before k ++ after k) -> placed cmp x k ->
  ascending cmp (before k ++ x :: after k).
Proof.
  rewrite !ascending_app, ascending_cons. intros (H1 & H2 & H3) [H4 H5]. split; [done|]. split; [done|].
  intros y z Hy [->|Hz]%elem_of_cons; [|by apply H3]. apply cmp_swap; [done|]. by apply H4.
Qed.

Lemma replaced_ascending x y xs ys : ascending cmp (xs ++ y :: ys) -> cmp x y = 0 -> ascending cmp (xs ++ x :: ys).
Proof.
  rewrite !ascending_app, !ascending_cons. intros (H1 & (H2 & H3) & H4) E. split; [done|]. split; [split; [done|]|].
  - intros z Hz. eapply (cmp_le_lt_trans cmp); [|by apply H3]. lia.
  - intros z w Hz [->|Hw]%elem_of_cons; [|apply H4; [done|by right]].
    eapply (cmp_lt_le_trans cmp); [apply H4; [done|by left]|]. pose proof (cmp_sym cmp x y). pose proof (cmp_sym cmp y x). lia.
Qed.

Lemma removed_ascending y xs ys : ascending cmp (xs ++ y :: ys) -> ascending cmp (xs ++ ys).
Proof.
  rewrite !ascending_app, ascending_cons. intros (H1 & (H2 & H3) & H4). split; [done|]. split; [done|].
  intros z w Hz Hw. apply H4; [done|by right].
Qed.

(** Insertion below a leaf, and on an equal element. *)
Lemma inserted_at x k : ascending cmp (elems (fill k (TLeaf (N := N)))) -> placed cmp x k ->
  inserted cmp x (elems (fill k (TLeaf (N := N)))) (before k ++ x :: after k) /\ ascending cmp (before k ++ x :: after k).
Proof.
  intros Ha Hp. pose proof Ha as Ha'. rewrite elems_fill in Ha'. split; [|by apply inserted_ascending].
  exists (before k), (after k). split; [done|]. left. split; [by rewrite elems_fill|].
  intros (y & Hy & Hc). by eapply placed_none.
Qed.

Lemma inserted_on x k b n l r :
  ascending cmp (elems (fill k (TNode b n l r))) -> cmp x (elem n) = 0 ->
  inserted cmp x (elems (fill k (TNode b n l r))) (elems (fill k (TNode b (set_elem n x) l r))) /\
  ascending cmp (elems (fill k (TNode b (set_elem n x) l r))).
Proof.
  rewrite !elems_fill. cbn [elems]. rewrite elem_set_elem. intros Ha Hc.
  assert (forall y, before k ++ (elems l ++ y :: elems r) ++ after k = (before k ++ elems l) ++ y :: elems r ++ after k)
    as E by (intros; by rewrite <- !app_assoc). rewrite !E in *. split.
  - exists (before k ++ elems l), (elems r ++ after k). split; [done|]. right. by exists (elem n).
  - by eapply replaced_ascending.
Qed.
End Queries.

(** ** Traversal and destruction in terms of the elements *)
Section Whole.
Context {N A : Type} `{!TreeNode N A} (cmp : A -> A -> Z) (c es : Z) (base : mem N).
Implicit Types (t : tree N) (m : mem N) (xs : list A).

Lemma depth_size t : depth t <= zlen (elems t).
Proof.
  induction t as [|a n l IHl r IHr]; simpl; [done|]. rewrite zlen_app, zlen_cons.
  pose proof (zlen_nonneg (elems l)). pose proof (zlen_nonneg (elems r)). lia.
Qed.

Lemma height_size t : height t <= zlen (elems t).
Proof.
  induction t as [|a n l IHl r IHr]; simpl; [done|]. rewrite zlen_app, zlen_cons.
  pose proof (zlen_nonneg (elems l)). pose proof (zlen_nonneg (elems r)). lia.
Qed.

(** Every element in order; a tree of more than 256 elements may be too deep
    for the stack, and then the traversal stops after some of them. *)
Definition visits {U} xs (visit : A -> U -> U) u (a : scl_error_t * U) : Prop :=
  a = (SCL_OK, visit_all visit xs u) \/
  256 < zlen xs /\ exists xs1 xs2, xs = xs1 ++ xs2 /\ a = (SCL_ERR_INVALID_STATE, visit_all visit xs1 u).

Lemma wp_visits {U} (visit : A -> U -> U) s m t u :
  tree_of cmp c es base s m t -> wp (tree_inorder m (Some s) (Some visit) u) (visits (elems t) visit u).
Proof.
  intros R. eapply wp_mono; [by eapply wp_inorder|]. pose proof (depth_size t).
  intros a [[-> _]|[? ?]]; [by left|right]. split; [lia|done].
Qed.

(** Everything is given back; or the stack could not be allocated and nothing
    changed; or, in a tree of more than 64 elements, it could not grow. *)
Definition destroys (s : tree_t A) m xs (r : option (tree_t A) * mem N) : Prop :=
  r.1 = Some (Tree None es 0 cmp) /\ m_nodes r.2 = m_nodes base /\ live r.2 = live base \/
  r.1 = Some s /\ (m_nodes r.2 = m_nodes m /\ live r.2 = live m \/ 64 < zlen xs).

Lemma wp_destroys al `{!AllocatorOk al} (free : mem N -> addr -> res (mem N)) s m t :
  (forall base m a ks Q, holdsn c base m (a :: ks) ->
    (forall m', m_nodes m' = delete a (m_nodes m) -> holdsn c base m' ks -> Q m') -> wp (free m (Some a)) Q) ->
  tree_of cmp c es base s m t -> zlen (elems t) <= INT_MAX ->
  wp (tree_destroy al free m (Some s)) (destroys s m (elems t)).
Proof.
  intros Hfree R Hz. rewrite zlen_elems in Hz. eapply wp_mono; [by eapply (wp_destroy al c es cmp base free)|].
  pose proof (height_size t). intros r [?|[? [?|?]]]; [by left|right..]; (split; [done|]); [by left|right; lia].
Qed.
End Whole.
