(* ===== verification/Bst.v ===== *)
(** The unbalanced binary search tree of [libs/structures/bst/scl_bst.c],
    refined to the ascending list of its elements. *)

From stdpp Require Import gmap.
From S2P Require Import Prelude Core Store SortSpec Refine Containers BinTree TreeEdit.
#[local] Open Scope Z_scope.

(** [sizeof(scl_bst_node_t)]: two links; the element follows them. *)
Definition BST_NODE_SIZE : Z := 16.

Record scl_bst_node_t (A : Type) : Type := BNode { bn_left : addr; bn_right : addr; bn_data : A }.
Arguments BNode {A}.
Arguments bn_left {A}.
Arguments bn_right {A}.
Arguments bn_data {A}.

#[export] Instance bst_node A : TreeNode (scl_bst_node_t A) A := {|
  left := bn_left; right := bn_right; elem := bn_data;
  set_left n p := BNode p (bn_right n) (bn_data n);
  set_right n p := BNode (bn_left n) p (bn_data n);
  set_elem n x := BNode (bn_left n) (bn_right n) x;
  left_set_left n p := eq_refl;
  right_set_left n p := eq_refl;
  elem_set_left n p := eq_refl;
  left_set_right n p := eq_refl;
  right_set_right n p := eq_refl;
  elem_set_right n p := eq_refl;
  left_set_elem n x := eq_refl;
  right_set_elem n x := eq_refl;
  elem_set_elem n x := eq_refl
|}.

Section Defs.
Context {A : Type} (al : scl_allocator_t).
Notation mem := (mem (scl_bst_node_t A)).
Implicit Types (m : mem) (tree : option (tree_t A)).

(** The operations whose text is shared with the other trees. *)
Definition scl_bst_init tree (element_size : Z) (cmp : option (A -> A -> Z)) : scl_error_t * option (tree_t A) :=
  tree_init tree element_size cmp.
Definition scl_bst_destroy m tree : res (option (tree_t A) * mem) := tree_destroy al free_node m tree.
Definition scl_bst_contains m tree (key : option A) : res bool := tree_contains m tree key.
Definition scl_bst_find m tree (key : option A) (out : bool) : res (scl_error_t * option A) := tree_find m tree key out.
Definition scl_bst_min m tree (out : bool) : res (scl_error_t * option A) := tree_min m tree out.
Definition scl_bst_max m tree (out : bool) : res (scl_error_t * option A) := tree_max m tree out.
Definition scl_bst_count tree : Z := tree_count tree.
Definition scl_bst_empty tree : bool := tree_empty tree.
Definition scl_bst_inorder {U} m tree (visit : option (A -> U -> U)) (ctx : U) : res (scl_error_t * U) :=
  tree_inorder m tree visit ctx.

(** The size of the block is not checked against overflow: when it wraps, the
    copy of the element leaves the block. *)
Definition scl_bst_create_node m (data : A) (element_size : Z) : res (scl_error_t * addr * mem) :=
  match alloc_node al m (u64 (BST_NODE_SIZE + element_size)) (BNode None None data) with
  | (None, m) => mret (SCL_ERR_OUT_OF_MEMORY, None, m)
  | (node, m) =>
      if u64 (BST_NODE_SIZE + element_size) <? BST_NODE_SIZE + element_size then UB
      else mret (SCL_OK, node, m)
  end.

Definition scl_bst_insert m tree (element : option A) : res (scl_error_t * option (tree_t A) * mem) :=
  match tree, element with
  | Some (Tree root es count cmp), Some element =>
      '(err, node, m) ← scl_bst_create_node m element es;
      if decide (err = SCL_OK) then
        match root with
        | None => mret (SCL_OK, Some (Tree node es 1 cmp), m)
        | Some _ =>
            loop (S (Z.to_nat count))
              (fun cur =>
                 n ← load m cur;
                 let c := cmp element (bn_data n) in
                 if c <? 0 then
                   match bn_left n with
                   | None =>
                       m ← store m cur (set_left n node);
                       mret (inr (SCL_OK, Some (Tree root es (u64 (count + 1)) cmp), m))
                   | Some _ => mret (inl (bn_left n))
                   end
                 else if c >? 0 then
                   match bn_right n with
                   | None =>
                       m ← store m cur (set_right n node);
                       mret (inr (SCL_OK, Some (Tree root es (u64 (count + 1)) cmp), m))
                   | Some _ => mret (inl (bn_right n))
                   end
                 else
                   m ← store m cur (set_elem n element);
                   m ← free_node m node;
                   mret (inr (SCL_OK, tree, m))) root
        end
      else mret (err, tree, m)
  | _, _ => mret (SCL_ERR_NULL_PTR, tree, m)
  end.

Definition scl_bst_remove m tree (key : option A) : res (scl_error_t * option (tree_t A) * mem) :=
  match tree, key with
  | Some (Tree root es count cmp), Some key =>
      r ← loop (S (Z.to_nat count))
        (fun '(parent, cur) =>
           match cur with
           | None => mret (inr None)
           | Some _ =>
               n ← load m cur;
               let c := cmp key (bn_data n) in
               if c <? 0 then mret (inl (cur, bn_left n))
               else if c >? 0 then mret (inl (cur, bn_right n))
               else mret (inr (Some (parent, cur)))
           end) (None, root);
      match r with
      | None => mret (SCL_ERR_NOT_FOUND, tree, m)
      | Some (parent, cur) =>
          n ← load m cur;
          '(parent, cur, m) ←
            match bn_left n, bn_right n with
            | Some _, Some _ =>
                '(succ_parent, succ) ← loop (S (Z.to_nat count))
                  (fun '(succ_parent, succ) =>
                     s ← load m succ;
                     match bn_left s with
                     | Some _ => mret (inl (succ, bn_left s))
                     | None => mret (inr (succ_parent, succ))
                     end) (cur, bn_right n);
                s ← load m succ;
                m ← store m cur (set_elem n (bn_data s));
                mret (succ_parent, succ, m)
            | _, _ => mret (parent, cur, m)
            end;
          n ← load m cur;
          let child := match bn_left n with Some _ => bn_left n | None => bn_right n end in
          '(root, m) ← replace_child m root parent cur child;
          m ← free_node m cur;
          mret (SCL_OK, Some (Tree root es (u64 (count - 1)) cmp), m)
      end
  | _, _ => mret (SCL_ERR_NULL_PTR, tree, m)
  end.
End Defs.

(** ** The operations as one step function *)
Definition bst_ask {A} (m : mem (scl_bst_node_t A)) (tree : option (tree_t A)) (q : tree_query A) : res (reply A) :=
  match q with
  | QContains key => b ← scl_bst_contains m tree key; mret (Flag b)
  | QFind key out => '(e, x) ← scl_bst_find m tree key out; mret (value_or e x)
  | QMin out => '(e, x) ← scl_bst_min m tree out; mret (value_or e x)
  | QMax out => '(e, x) ← scl_bst_max m tree out; mret (value_or e x)
  | QCount => mret (Size (scl_bst_count tree))
  | QEmpty => mret (Flag (scl_bst_empty tree))
  end.

Inductive bst_op (A : Type) : Type :=
| BInsert (element : option A)
| BRemove (key : option A)
| BAsk (q : tree_query A).
Arguments BInsert {A}.
Arguments BRemove {A}.
Arguments BAsk {A}.

Section Step.
Context {A : Type} (al : scl_allocator_t) (cmp : A -> A -> Z).

Definition bst_step (st : option (tree_t A) * mem (scl_bst_node_t A)) (op : bst_op A)
    : res (reply A * (option (tree_t A) * mem (scl_bst_node_t A))) :=
  let '(s, m) := st in
  match op with
  | BInsert x => '(e, s, m) ← scl_bst_insert al m s x; mret (Code e, (s, m))
  | BRemove key => '(e, s, m) ← scl_bst_remove m s key; mret (Code e, (s, m))
  | BAsk q => r ← bst_ask m s q; mret (r, (s, m))
  end.

Inductive bst_spec : list A -> bst_op A -> reply A -> list A -> Prop :=
| bs_insert xs ys x : inserted cmp x xs ys -> bst_spec xs (BInsert (Some x)) (Code SCL_OK) ys
| bs_refused xs x : bst_spec xs (BInsert (Some x)) (Code SCL_ERR_OUT_OF_MEMORY) xs
| bs_remove xs ys key : removed cmp key xs ys -> bst_spec xs (BRemove (Some key)) (Code SCL_OK) ys
| bs_absent xs key : ~ holds_key cmp xs key -> bst_spec xs (BRemove (Some key)) (Code SCL_ERR_NOT_FOUND) xs
| bs_null xs op : op = BInsert None \/ op = BRemove None -> bst_spec xs op (Code SCL_ERR_NULL_PTR) xs
| bs_ask xs q r : query_spec cmp xs q r -> bst_spec xs (BAsk q) r xs.
End Step.

Section Proofs.
Context {A : Type} (al : scl_allocator_t) `{!AllocatorOk al} (cmp : A -> A -> Z) `{!Comparator cmp}.
Context (es : Z) (base : mem (scl_bst_node_t A)).
Notation mem := (mem (scl_bst_node_t A)).
Notation tree_of := (tree_of cmp 1 es base).
Implicit Types (m : mem) (t l r : tree (scl_bst_node_t A)) (k : list (step (scl_bst_node_t A))) (x key : A).

Lemma wp_bst_create m t x (Q : scl_error_t * addr * mem -> Prop) :
  1 <= es <= SIZE_MAX - BST_NODE_SIZE -> holds base m (addrs t) ->
  (forall a m', a ∉ addrs t -> m_nodes m' = <[a := BNode None None x]> (m_nodes m) ->
     holds base m' (a :: addrs t) -> zlen (addrs t) < PTRDIFF_MAX -> Q (SCL_OK, Some a, m')) ->
  (forall m', m_nodes m' = m_nodes m -> holds base m' (addrs t) -> Q (SCL_ERR_OUT_OF_MEMORY, None, m')) ->
  wp (scl_bst_create_node al m x es) Q.
Proof.
  intros Hes H HQ1 HQ2. unfold scl_bst_create_node, BST_NODE_SIZE, SIZE_MAX in *. rewrite u64_small by lia.
  apply (wp_alloc_node al base m (addrs t)); [done| |].
  - intros. rewrite Z.ltb_irrefl. wstep. by apply HQ1.
  - intros. wstep. by apply HQ2.
Qed.

(** What an insertion leaves behind. *)
Definition insert_post t x (o : scl_error_t * option (tree_t A) * mem) : Prop :=
  let '(e, s', m') := o in
  exists s1 t', s' = Some s1 /\ tree_of s1 m' t' /\
    (e = SCL_OK /\ inserted cmp x (elems t) (elems t') \/ e = SCL_ERR_OUT_OF_MEMORY /\ elems t' = elems t).

Lemma bst_insert_hang m1 t s k a x root :
  t = fill (s :: k) TLeaf -> placed cmp x (s :: k) -> ascending cmp (elems t) -> zlen (addrs t) < PTRDIFF_MAX ->
  root = root_of t -> shape (m_nodes m1) (root_of t) t -> m_nodes m1 !! a = Some (BNode None None x) ->
  holds base m1 (a :: addrs t) -> m_nodes m1 !! step_addr s = Some (step_node s) ->
  wp (store m1 (Some (step_addr s)) (step_node (relink s (Some a))))
    (fun m => insert_post t x (SCL_OK, Some (Tree root es (u64 (zlen (addrs t) + 1)) cmp), m)).
Proof.
  intros -> Hp Ha Hz -> Hs Hn Hh Hb. eapply wp_store_node; [done|].
  pose proof (planted_hang 1 base m1 s k a _ Hs Hn Hh eq_refl eq_refl) as P.
  pose proof (addrs_hang s k a (BNode None None x)) as Pa. pose proof (zlen_nonneg (addrs (fill (s :: k) TLeaf))).
  assert (zlen (addrs (fill (relink s (Some a) :: k) (TNode a (BNode None None x) TLeaf TLeaf))) =
    zlen (addrs (fill (s :: k) TLeaf)) + 1) as Ez by (unfold zlen in *; rewrite Pa; simpl; lia).
  pose proof (elems_hang s k a (BNode None None x)) as Ee. destruct (inserted_at cmp x (s :: k) Ha Hp) as [Hi Ha'].
  eexists _, _. split; [reflexivity|]. split.
  - unfold PTRDIFF_MAX in *. rewrite u64_small by lia. rewrite <- Ez.
    assert (root_of (fill (s :: k) (TLeaf (N := scl_bst_node_t A))) = root_of (fill (relink s (Some a) :: k) (TNode a (BNode None None x) TLeaf TLeaf))) as ->
      by (simpl; apply root_of_fill; by destruct s).
    apply planted_tree; [exact P|by rewrite Ee|unfold PTRDIFF_MAX; lia].
  - left. split; [done|]. by rewrite Ee.
Qed.

Lemma wp_bst_insert s m t x :
  1 <= es <= SIZE_MAX - BST_NODE_SIZE -> tree_of s m t ->
  wp (scl_bst_insert al m (Some s) (Some x)) (insert_post t x).
Proof.
  intros Hes R. pose proof R as [E1 E2 E3 E4 Hs Hh Ha Hf]. destruct s as [root es' cnt cmp'].
  simpl in E1, E2, E3, E4. subst es' cmp' root cnt. unfold scl_bst_insert. wstep.
  apply (wp_bst_create m t x); [done|done| |].
  2:{ intros m' Em Hh'. simpl. eexists _, t. split; [done|]. split; [by eapply tree_of_same|]. by right. }
  intros a m1 Hat Em Hh' Hz. destruct (decide _); [|done].
  pose proof (planted_grown 1 base m m1 t a _ (tree_planted _ _ _ _ _ _ _ R) Hat Em) as Hs1.
  assert (m_nodes m1 !! a = Some (BNode None None x)) as Hn by by rewrite Em, lookup_insert_eq.
  assert (t = TLeaf \/ t <> TLeaf /\ exists b, root_of t = Some b) as [->|[Hne [b Eb]]] by (destruct t; eauto).
  { simpl. exists (Tree (Some a) es 1 cmp), (TNode a (BNode None None x) TLeaf TLeaf).
    split; [done|]. split.
    - apply (planted_tree cmp 1 es base m1 (TNode a (BNode None None x) TLeaf TLeaf)); [|repeat constructor|done]. split; [|done]. simpl. by rewrite Hn.
    - left. split; [done|]. exists [], []. split; [done|]. left. split; [done|]. intros (y & Hy & _). set_solver. }
  rewrite Eb at 1. cbv iota.
  eapply (wp_walk cmp m1 t x (fun p _ t' => p = root_of t' /\ t' <> TLeaf)); [done..|pose proof (zlen_nonneg (addrs t)); lia|done| |].
  { by intros p k _ _ [_ ?]. }
  intros p k b' n l r Et Hp [-> _] Hb El Er. wstep. eapply wp_load_node; [done|]. cbv zeta. rewrite Z.gtb_ltb.
  change (bn_data n) with (elem n). change (bn_left n) with (left n). change (bn_right n) with (right n).
  pose proof Ha as Ha'. rewrite Et in Ha'. cbn [root_of].
  destruct (Z.ltb_spec (cmp x (elem n)) 0) as [Hlt|].
  { rewrite El. destruct l as [|b2 n2 l2 r2]; [|simpl; auto]. cbn [root_of]. wstep.
    eapply wp_mono; [apply (bst_insert_hang m1 t (InLeft b' n r) k a x (root_of t)); try done; by eapply placed_left|].
    intros m' Hm'. by wstep. }
  destruct (Z.ltb_spec 0 (cmp x (elem n))) as [Hgt|].
  { rewrite Er. destruct r as [|b2 n2 l2 r2]; [|simpl; auto]. cbn [root_of]. wstep.
    eapply wp_mono; [apply (bst_insert_hang m1 t (InRight b' n l) k a x (root_of t)); try done; by eapply placed_right|].
    intros m' Hm'. by wstep. }
  assert (cmp x (elem n) = 0) as Hc by lia. destruct (inserted_on cmp x k b' n l r Ha' Hc) as [Hi Ha2].
  wstep. eapply wp_store_node; [done|]. wstep. set (n' := set_elem n x).
  assert (holds base (Mem (m_world m1) (<[b' := n']> (m_nodes m1))) (a :: addrs t)) as Hh2.
  { apply holds_update; [|done]. right. rewrite Et. apply addrs_in_fill. by left. }
  eapply wp_free_node; [exact Hh2|]. intros m2 Em2 Hh3. wstep.
  assert (tree_of (Tree (root_of t) es (zlen (addrs t)) cmp) m2 (fill k (TNode b' n' l r))) as R2.
  { rewrite Et in Hs1, Hh3, Hf |- *. assert (root_of (fill k (TNode b' n l r)) = root_of (fill k (TNode b' n' l r))) as Er' by by apply root_of_fill.
    assert (zlen (addrs (fill k (TNode b' n l r))) = zlen (addrs (fill k (TNode b' n' l r)))) as Ez by (unfold zlen; by rewrite addrs_modify).
    rewrite Er', Ez in *. apply planted_tree; [|exact Ha2|done].
    split; [|by eapply holds_perm; [apply addrs_modify|]]. rewrite Em2.
    apply shape_delete; [rewrite <- Et in *; rewrite addrs_modify, <- Et|]; [done|].
    apply shape_modify with (n := n); try done. rewrite <- Et. apply Hh. }
  eexists _, _. split; [reflexivity|]. split; [exact R2|]. left. split; [done|]. by rewrite Et.
Qed.

(** What a removal leaves behind. *)
Definition remove_post t key (o : scl_error_t * option (tree_t A) * mem) : Prop :=
  let '(e, s', m') := o in
  exists s1 t', s' = Some s1 /\ tree_of s1 m' t' /\
    (e = SCL_OK /\ removed cmp key (elems t) (elems t') \/
     e = SCL_ERR_NOT_FOUND /\ elems t' = elems t /\ ~ holds_key cmp (elems t) key).

(** The last steps: unlink the node, free it, count down.  [t] is the tree
    before, and [y] the element that goes. *)
Lemma wp_bst_unlink m t k a n l r key y xs ys :
  planted 1 base m (fill k (TNode a n l r)) -> l = TLeaf \/ r = TLeaf ->
  elems t = xs ++ y :: ys -> before k ++ elems l ++ elems r ++ after k = xs ++ ys ->
  ascending cmp (elems t) -> cmp key y = 0 -> zlen (addrs t) <= PTRDIFF_MAX ->
  zlen (addrs t) = zlen (addrs (fill k (TNode a n l r))) ->
  wp (d ← load m (Some a);
      '(root, m) ← replace_child m (root_of (fill k (TNode a n l r))) (top k) (Some a)
        match bn_left d with Some _ => bn_left d | None => bn_right d end;
      m ← free_node m (Some a);
      mret (SCL_OK, Some (Tree root es (u64 (zlen (addrs t) - 1)) cmp), m)) (remove_post t key).
Proof.
  intros P Hlr Et Ee Ha Hy Hf Hz. pose proof (planted_node _ _ _ _ _ _ _ _ P) as (Hn & El & Er).
  wstep. eapply wp_load_node; [done|]. cbv zeta.
  change (bn_left n) with (left n). change (bn_right n) with (right n).
  set (t' := match l with TLeaf => r | _ => l end).
  assert (match left n with Some _ => left n | None => right n end = root_of t') as ->.
  { rewrite El, Er. by destruct l. }
  assert (l = TLeaf /\ t' = r \/ r = TLeaf /\ t' = l) as Hc.
  { destruct l; [by left|]. right. by destruct Hlr as [?| ->]. }
  wstep. eapply wp_mono; [eapply (wp_splice 1 base free_node m k a n l r t'); [|exact P|exact Hc|]|].
  - intros. by eapply wp_free_node.
  - intros m' P'. instantiate (1 := fun '(root, m') => planted 1 base m' (fill (relink_path k (root_of t')) t') /\
      root = root_of (fill (relink_path k (root_of t')) t')). by split.
  - intros [root m1] Hw. wstep. eapply wp_mono; [exact Hw|]. intros m2 [P2 ->]. wstep.
    assert (zlen (addrs (fill (relink_path k (root_of t')) t')) = zlen (addrs t) - 1) as Ez.
    { rewrite Hz. unfold zlen. rewrite !addrs_fill, path_addrs_relink, !length_app. simpl. rewrite length_app.
      destruct Hc as [[-> ->]|[-> ->]]; simpl; lia. }
    pose proof (zlen_nonneg (addrs (fill (relink_path k (root_of t')) t'))).
    assert (elems (fill (relink_path k (root_of t')) t') = xs ++ ys) as Ee'.
    { rewrite elems_fill, before_relink, after_relink, <- Ee. destruct Hc as [[-> ->]|[-> ->]]; done. }
    eexists _, _. split; [done|]. split.
    + unfold PTRDIFF_MAX in *. rewrite u64_small, <- Ez by lia. apply planted_tree; [done| |unfold PTRDIFF_MAX; lia].
      rewrite Ee'. rewrite Et in Ha. by eapply removed_ascending.
    + left. split; [done|]. exists xs, y, ys. by rewrite Ee', Et.
Qed.

(** The leftmost node of a right subtree, with its parent. *)
Lemma wp_successor m t k a n l r fuel (Q : addr * addr -> Prop) :
  planted 1 base m t -> t = fill k (TNode a n l r) -> r <> TLeaf -> zlen (addrs t) < Z.of_nat fuel ->
  (forall k2 b s sr, r = fill k2 (TNode b s TLeaf sr) -> before k2 = [] ->
     Q (top (k2 ++ InRight a n l :: k), Some b)) ->
  wp (loop fuel
       (fun '(succ_parent, succ) =>
          s ← load m succ;
          match bn_left s with
          | Some _ => mret (inl (succ, bn_left s))
          | None => mret (inr (succ_parent, succ))
          end) (Some a, root_of r)) Q.
Proof.
  intros P Et Hr Hf HQ. pose proof (zlen_nonneg (addrs t)).
  apply (wp_loop_rel (fun i '(p, q) => exists k2 b s sl sr, r = fill k2 (TNode b s sl sr) /\ before k2 = [] /\
    p = top (k2 ++ InRight a n l :: k) /\ q = Some b /\ i = zlen (addrs (TNode b s sl sr))) (zlen (addrs r))).
  - destruct r as [|b s sl sr]; [done|]. by exists [], b, s, sl, sr.
  - rewrite Et in Hf. assert (zlen (addrs r) <= zlen (addrs (fill k (TNode a n l r)))); [|lia].
    unfold zlen. rewrite addrs_fill. simpl. rewrite !length_app. simpl. lia.
  - pose proof (zlen_nonneg (addrs r)). lia.
  - intros i [p q] (k2 & b & s & sl & sr & -> & Hk & -> & -> & ->).
    assert (t = fill (k2 ++ InRight a n l :: k) (TNode b s sl sr)) as Et2 by by rewrite Et, fill_app.
    rewrite Et2 in P. pose proof (planted_node _ _ _ _ _ _ _ _ P) as (Hb & El & _).
    wstep. eapply wp_load_node; [done|]. change (bn_left s) with (left s). rewrite El.
    destruct sl as [|b2 s2 l2 r2]; cbn [root_of]; wstep; [by eapply HQ|].
    exists (zlen (addrs (TNode b2 s2 l2 r2))). split.
    { simpl. repeat rewrite ?zlen_cons, ?zlen_app.
      pose proof (zlen_nonneg (addrs l2)). pose proof (zlen_nonneg (addrs r2)). pose proof (zlen_nonneg (addrs sr)). lia. }
    by exists (InLeft b s sr :: k2), b2, s2, l2, r2.
Qed.

Lemma wp_bst_remove s m t key :
  tree_of s m t -> wp (scl_bst_remove m (Some s) (Some key)) (remove_post t key).
Proof.
  intros R. pose proof R as [E1 E2 E3 E4 Hs Hh Ha Hf]. destruct s as [root es' cnt cmp'].
  simpl in E1, E2, E3, E4. subst es' cmp' root cnt. pose proof (zlen_nonneg (addrs t)). unfold scl_bst_remove. wstep.
  eapply (wp_walk cmp m t key (fun '(p, q) k t' => p = top k /\ q = root_of t')); [done..|lia|done| |].
  { intros [p q] k -> Hp [-> ->]. simpl. exists (Tree (root_of (fill k TLeaf)) es (zlen (addrs (fill k TLeaf))) cmp), (fill k TLeaf).
    split; [done|]. split; [done|]. right. split; [done|]. split; [done|]. intros (y & Hy & Hc). by eapply placed_none. }
  intros [p q] k a n l r Et Hp [-> ->] Hn El Er. cbn [root_of]. wstep. eapply wp_load_node; [done|]. cbv zeta. rewrite Z.gtb_ltb.
  change (bn_data n) with (elem n). change (bn_left n) with (left n). change (bn_right n) with (right n).
  destruct (Z.ltb_spec (cmp key (elem n)) 0); [simpl; auto|]. destruct (Z.ltb_spec 0 (cmp key (elem n))); [simpl; auto|].
  assert (cmp key (elem n) = 0) as Hc by lia. wstep. wstep. eapply wp_load_node; [done|].
  change (bn_left n) with (left n). change (bn_right n) with (right n). rewrite El, Er.
  pose proof (tree_planted _ _ _ _ _ _ _ R) as P. rewrite Et in P.
  assert (elems t = (before k ++ elems l) ++ elem n :: elems r ++ after k) as Ee.
  { rewrite Et, elems_fill. simpl. by rewrite <- !app_assoc. }
  assert ((l = TLeaf \/ r = TLeaf) \/ exists b1 n1 l1 r1 b2 n2 l2 r2, l = TNode b1 n1 l1 r1 /\ r = TNode b2 n2 l2 r2)
    as [Hlr|(b1 & n1 & l1 & r1 & b2 & n2 & l2 & r2 & El' & Er')] by (destruct l, r; eauto 12).
  { wstep. assert (forall (X Y : res (addr * addr * mem)), match root_of l, root_of r with Some _, Some _ => X | _, _ => Y end = Y) as ->
      by (intros; destruct Hlr as [-> | ->]; [done|by destruct (root_of l)]).
    wstep. replace (root_of t) with (root_of (fill k (TNode a n l r))) by by rewrite Et.
    apply (wp_bst_unlink m t k a n l r key (elem n) (before k ++ elems l) (elems r ++ after k)); try done.
    - by rewrite <- !app_assoc.
    - by rewrite Et. }
  assert (root_of l = Some b1) as Rl by by rewrite El'. assert (root_of r = Some b2) as Rr by by rewrite Er'.
  rewrite Rl, Rr. wstep. wstep. rewrite <- Rr. eapply (wp_successor m t k a n l r); [by rewrite Et|done|by rewrite Er'|lia|].
  intros k2 b s sr Er2 Hk2. pose proof P as P'.
  assert (fill k (TNode a n l r) = fill (k2 ++ InRight a n l :: k) (TNode b s TLeaf sr)) as Et2 by by rewrite fill_app, Er2.
  rewrite Et2 in P'. pose proof (planted_node _ _ _ _ _ _ _ _ P') as (Hb & _). wstep. eapply wp_load_node; [done|].
  wstep. eapply wp_store_node; [done|]. wstep. set (n' := set_elem n (bn_data s)).
  pose proof (planted_modify 1 base m k a n n' l r P eq_refl eq_refl) as P2.
  assert (fill k (TNode a n' l r) = fill (k2 ++ InRight a n' l :: k) (TNode b s TLeaf sr)) as Et3 by by rewrite fill_app, Er2.
  assert (root_of (fill k (TNode a n' l r)) = root_of t) as Eroot by (rewrite Et; by apply root_of_fill).
  rewrite <- Eroot, Et3. rewrite Et3 in P2.
  replace (top (k2 ++ InRight a n l :: k)) with (top (k2 ++ InRight a n' l :: k)) by by destruct k2.
  apply (wp_bst_unlink _ t _ b s TLeaf sr key (elem n) (before k ++ elems l) (elems r ++ after k)); try done; [by left|..].
  - rewrite before_app, after_app, Hk2, app_nil_r, Er2, elems_fill, Hk2. simpl. by rewrite <- !app_assoc.
  - rewrite <- Et3, Et. unfold zlen. by rewrite addrs_modify.
Qed.

Definition bst_rep (st : option (tree_t A) * mem) (xs : list A) : Prop :=
  exists s t, st.1 = Some s /\ tree_of s st.2 t /\ elems t = xs.

Lemma bst_simulates : 1 <= es <= SIZE_MAX - BST_NODE_SIZE -> Simulates (bst_step al) (bst_spec cmp) bst_rep.
Proof.
  intros Hes [s0 m] xs op (s & t & E & R & <-). cbn [fst snd] in *. subst s0.
  assert (bst_rep (Some s, m) (elems t)) as R0 by (exists s, t; done).
  destruct op as [[x|]|[key|]|q]; cbn [bst_step];
    try (destruct s; exists (elems t); split; [apply bs_null; auto|exact R0]); wstep.
  - eapply wp_mono; [by eapply wp_bst_insert|]. intros [[e s'] m'] (s1 & t' & -> & R' & [[-> Hi]|[-> Et]]); wstep;
      (exists (elems t'); split; [|by exists s1, t']); [by apply bs_insert|rewrite Et; constructor].
  - eapply wp_mono; [by eapply wp_bst_remove|]. intros [[e s'] m'] (s1 & t' & -> & R' & [[-> Hi]|(-> & Et & Hn)]); wstep;
      (exists (elems t'); split; [|by exists s1, t']); [by apply bs_remove|rewrite Et; by constructor].
  - eapply wp_mono; [by eapply (wp_ask cmp 1 es base)|]. intros r Hr. wstep. exists (elems t). split; [by constructor|exact R0].
Qed.
End Proofs.

(** C19. The binary search tree refines the ascending list of its elements:
    from a successful initialisation, whatever the store holds and the
    allocator answers, every sequence of insertions, removals and lookups runs
    without following [NULL] or a dangling pointer and answers as the list
    does (an insertion replaces an equal element and is refused only for lack
    of memory, a removal takes out exactly the element equal to the key).
    Afterwards the in-order traversal visits the elements in ascending order
    (a tree of more than 256 elements may be too deep for its stack), and
    destruction gives back every node, or leaves the tree alone if its stack
    cannot be allocated; only when the stack cannot grow, in a tree of more
    than 64 elements, may it stop half-way.  The element size must leave room
    for the header of a node. *)
Theorem bst_refines {A} (al : scl_allocator_t) `{!AllocatorOk al} (cmp : A -> A -> Z) `{!Comparator cmp}
  (m0 : mem (scl_bst_node_t A)) (s0 : tree_t A) (es : Z) (ops : list (bst_op A))
  (Hes : 1 <= es <= SIZE_MAX - BST_NODE_SIZE) :
  exists s1, scl_bst_init (Some s0) es (Some cmp) = (SCL_OK, Some s1) /\
  exists outs s2 m2 xs, run (bst_step al) (Some s1, m0) ops = Ok (outs, (Some s2, m2)) /\
    trace (bst_spec cmp) [] ops outs xs /\ ascending cmp xs /\
    (forall U (visit : A -> U -> U) u, exists a, scl_bst_inorder m2 (Some s2) (Some visit) u = Ok a /\ visits xs visit u a) /\
    (zlen xs <= INT_MAX -> exists r, scl_bst_destroy al m2 (Some s2) = Ok r /\ destroys cmp es m0 s2 m2 xs r).
Proof.
  exists (Tree None es 0 cmp). unfold scl_bst_init, tree_init. destruct (Z.eqb_spec es 0); [lia|]. split; [done|].
  assert (bst_rep cmp es m0 (Some (Tree None es 0 cmp), m0) []) as R.
  { eexists _, TLeaf. split; [done|]. split; [|done]. split; try done; [apply holds_nil|constructor]. }
  pose proof (bst_simulates al cmp es m0 Hes) as Sim.
  destruct (proj1 (wp_ok _ _) (run_refines _ _ _ _ [] ops R)) as ([outs [s m2]] & E & xs & T & s2 & t & Es & R2 & Ex).
  cbn [fst snd] in *. subst s xs. exists outs, s2, m2, (elems t). split; [done|]. split; [done|]. split; [apply R2|]. split.
  - intros U visit u. apply wp_ok. by eapply wp_visits.
  - intros Hz. apply wp_ok. eapply wp_destroys; try done. intros. by eapply wp_free_node.
Qed.

Lemma bst_refines_witness :
  exists outs xs, trace (bst_spec Zcmp) [] [BInsert (Some 2); BInsert (Some 1); BRemove (Some 2); BAsk QCount] outs xs /\
    ascending Zcmp xs.
Proof.
  destruct (bst_refines small_allocator Zcmp (Mem (World 0 0) ∅) (Tree None 0 0 Zcmp) 8
    [BInsert (Some 2); BInsert (Some 1); BRemove (Some 2); BAsk QCount] ltac:(unfold BST_NODE_SIZE, SIZE_MAX; lia))
    as (_ & _ & outs & _ & _ & xs & _ & T & Ha & _).
  exists outs, xs. split; [exact T|exact Ha].
Defined.

(** An element size that wraps the size of the node around: the block is too
    small for the element copied into it. *)
Lemma bst_node_size_wraps :
  scl_bst_insert small_allocator (Mem (World 0 0) ∅) (Some (Tree None (SIZE_MAX - 7) 0 Zcmp)) (Some 1) = UB.
Proof. vm_compute. reflexivity. Qed.
