(* ===== verification/Avl.v ===== *)
(** The AVL tree of [libs/structures/avl/scl_avl.c]: heights, rotations,
    insertion with its path array, removal.  Insertion keeps the tree balanced
    and refines the ascending list of the elements; so does the removal of a
    node with at most one child.  The removal of a node with two children
    leaves a dangling pointer behind. *)

From stdpp Require Import gmap.
From S2P Require Import Prelude Core Store SortSpec Refine Containers BinTree TreeEdit.
#[local] Open Scope Z_scope.

(** [sizeof(scl_avl_node_t)].  The element is a block of its own, which no
    other node shares: the model keeps it in the node. *)
Definition AVL_NODE_SIZE : Z := 32.

Record scl_avl_node_t (A : Type) : Type := ANode { an_data : A; an_left : addr; an_right : addr; an_height : Z }.
Arguments ANode {A}.
Arguments an_data {A}.
Arguments an_left {A}.
Arguments an_right {A}.
Arguments an_height {A}.

#[export] Instance avl_node A : TreeNode (scl_avl_node_t A) A := {|
  left := an_left; right := an_right; elem := an_data;
  set_left n p := ANode (an_data n) p (an_right n) (an_height n);
  set_right n p := ANode (an_data n) (an_left n) p (an_height n);
  set_elem n x := ANode x (an_left n) (an_right n) (an_height n);
  left_set_left n p := eq_refl;
  right_set_left n p := eq_refl;
  elem_set_left n p := eq_refl;
  left_set_right n p := eq_refl;
  right_set_right n p := eq_refl;
  elem_set_right n p := eq_refl;
  left_set_elem n x := eq_refl;
  right_set_elem n x := eq_refl;
  elem_set_elem n x := eq_refl
|}.

(** [int] arithmetic: a result out of range is undefined. *)
Definition int_of (z : Z) : res Z := if (- INT_MAX - 1 <=? z) && (z <=? INT_MAX) then mret z else UB.

Section Defs.
Context {A : Type} (al : scl_allocator_t).
Notation mem := (mem (scl_avl_node_t A)).
Implicit Types (m : mem) (tree : option (tree_t A)) (n : addr).

(** The operations whose text is shared with the other trees. *)
Definition scl_avl_init tree (element_size : Z) (cmp : option (A -> A -> Z)) : scl_error_t * option (tree_t A) :=
  tree_init tree element_size cmp.
Definition scl_avl_contains m tree (key : option A) : res bool := tree_contains m tree key.
Definition scl_avl_find m tree (key : option A) (out : bool) : res (scl_error_t * option A) := tree_find m tree key out.
Definition scl_avl_min m tree (out : bool) : res (scl_error_t * option A) := tree_min m tree out.
Definition scl_avl_max m tree (out : bool) : res (scl_error_t * option A) := tree_max m tree out.
Definition scl_avl_count tree : Z := tree_count tree.
Definition scl_avl_empty tree : bool := tree_empty tree.
Definition scl_avl_inorder {U} m tree (visit : option (A -> U -> U)) (ctx : U) : res (scl_error_t * U) :=
  tree_inorder m tree visit ctx.

Definition scl_avl_height m n : res Z :=
  match n with None => mret (-1) | Some _ => d ← load m n; mret (an_height d) end.

Definition scl_avl_max2 (a b : Z) : Z := if a >? b then a else b.

Definition scl_avl_update_height m n : res mem :=
  d ← load m n;
  hl ← scl_avl_height m (left d);
  hr ← scl_avl_height m (right d);
  h ← int_of (1 + scl_avl_max2 hl hr);
  store m n (ANode (an_data d) (an_left d) (an_right d) h).

Definition scl_avl_balance m n : res Z :=
  match n with
  | None => mret 0
  | Some _ =>
      d ← load m n;
      hl ← scl_avl_height m (left d);
      hr ← scl_avl_height m (right d);
      int_of (hl - hr)
  end.

Definition scl_avl_rotate_right m (y : addr) : res (addr * mem) :=
  dy ← load m y;
  let x := left dy in
  dx ← load m x;
  let t2 := right dx in
  m ← update m x (fun d => set_right d y);
  m ← update m y (fun d => set_left d t2);
  m ← scl_avl_update_height m y;
  m ← scl_avl_update_height m x;
  mret (x, m).

Definition scl_avl_rotate_left m (x : addr) : res (addr * mem) :=
  dx ← load m x;
  let y := right dx in
  dy ← load m y;
  let t2 := left dy in
  m ← update m y (fun d => set_left d x);
  m ← update m x (fun d => set_right d t2);
  m ← scl_avl_update_height m x;
  m ← scl_avl_update_height m y;
  mret (y, m).

(** The rotations for a balance of [n] out of range, as insertion and removal
    make them; [None] when the balance is in range. *)
Definition rotate m n (bal : Z) : res (option addr * mem) :=
  if bal >? 1 then
    d ← load m n;
    bl ← scl_avl_balance m (left d);
    if bl >=? 0 then '(new_sub, m) ← scl_avl_rotate_right m n; mret (Some new_sub, m)
    else
      '(l, m) ← scl_avl_rotate_left m (left d);
      m ← update m n (fun d => set_left d l);
      '(new_sub, m) ← scl_avl_rotate_right m n;
      mret (Some new_sub, m)
  else if bal <? -1 then
    d ← load m n;
    br ← scl_avl_balance m (right d);
    if br <=? 0 then '(new_sub, m) ← scl_avl_rotate_left m n; mret (Some new_sub, m)
    else
      '(r, m) ← scl_avl_rotate_right m (right d);
      m ← update m n (fun d => set_right d r);
      '(new_sub, m) ← scl_avl_rotate_left m n;
      mret (Some new_sub, m)
  else mret (None, m).

(** [scl_free(n->data); scl_free(n)]. *)
Definition free_avl_node m n : res mem :=
  free_node (with_world m (World (w_reqs (m_world m)) (w_live (m_world m) - 1))) n.

Definition scl_avl_destroy m tree : res (option (tree_t A) * mem) := tree_destroy al free_avl_node m tree.

(** One request for the node, one for its element. *)
Definition scl_avl_create_node m (data : A) (element_size : Z) : res (addr * mem) :=
  match alloc_node al m AVL_NODE_SIZE (ANode data None None 0) with
  | (None, m) => mret (None, m)
  | (n, m) =>
      let '(World reqs live) := m_world m in
      if malloc_fn al reqs element_size MAX_ALIGN then mret (n, with_world m (World (S reqs) (live + 1)))
      else m ← free_node (with_world m (World (S reqs) live)) n; mret (None, m)
  end.

(** The parent on the path, [NULL] for the root. *)
Definition path_parent (path : block addr) (i : Z) : res addr :=
  if i =? 0 then mret None else get_cell path (i - 1).

(** One round of the loop back up the path: insertion updates the height only
    of a node it does not rotate, removal updates it first. *)
Definition insert_step (path : block addr) (i : Z) (st : addr * mem) : res (addr * mem) :=
  let '(root, m) := st in
  n ← get_cell path i;
  bal ← scl_avl_balance m n;
  '(new_sub, m) ← rotate m n bal;
  match new_sub with
  | None => m ← scl_avl_update_height m n; mret (root, m)
  | Some new_sub => p ← path_parent path i; replace_child m root p n new_sub
  end.

Definition remove_step (path : block addr) (i : Z) (st : addr * mem) : res (addr * mem) :=
  let '(root, m) := st in
  n ← get_cell path i;
  m ← scl_avl_update_height m n;
  bal ← scl_avl_balance m n;
  '(new_sub, m) ← rotate m n bal;
  match new_sub with
  | None => mret (root, m)
  | Some new_sub => p ← path_parent path i; replace_child m root p n new_sub
  end.

Definition scl_avl_insert m tree (element : option A) : res (scl_error_t * option (tree_t A) * mem) :=
  match tree, element with
  | Some (Tree root es count cmp), Some element =>
      '(node, m) ← scl_avl_create_node m element es;
      match node, root with
      | None, _ => mret (SCL_ERR_OUT_OF_MEMORY, tree, m)
      | Some _, None => mret (SCL_OK, Some (Tree node es 1 cmp), m)
      | Some _, Some _ =>
          '(r, m) ← loop (S (Z.to_nat count))
            (fun '(path, path_len, cur) =>
               path ← set path path_len (Some cur);
               let path_len := path_len + 1 in
               d ← load m cur;
               let c := cmp element (an_data d) in
               if c <? 0 then
                 match an_left d with
                 | None => m ← store m cur (set_left d node); mret (inr (Some (path, path_len), m))
                 | Some _ => mret (inl (path, path_len, an_left d))
                 end
               else if c >? 0 then
                 match an_right d with
                 | None => m ← store m cur (set_right d node); mret (inr (Some (path, path_len), m))
                 | Some _ => mret (inl (path, path_len, an_right d))
                 end
               else
                 m ← store m cur (set_elem d element);
                 m ← free_avl_node m node;
                 mret (inr (None, m))) (replicate 256 None, 0, root);
          match r with
          | None => mret (SCL_OK, tree, m)
          | Some (path, path_len) =>
              '(root, m) ← zfor_down path_len (fun i => insert_step path (i - 1)) (root, m);
              mret (SCL_OK, Some (Tree root es (u64 (count + 1)) cmp), m)
          end
      end
  | _, _ => mret (SCL_ERR_NULL_PTR, tree, m)
  end.

(** Down to the node equal to the key, which is not left on the path. *)
Definition avl_locate m (count : Z) (cmp : A -> A -> Z) (key : A) (root : addr) : res (option (addr * block addr * Z)) :=
  loop (S (Z.to_nat count))
    (fun '(path, path_len, cur) =>
       match cur with
       | None => mret (inr None)
       | Some _ =>
           path ← set path path_len (Some cur);
           d ← load m cur;
           let c := cmp key (an_data d) in
           if c <? 0 then mret (inl (path, path_len + 1, an_left d))
           else if c >? 0 then mret (inl (path, path_len + 1, an_right d))
           else mret (inr (Some (cur, path, path_len)))
       end) (replicate 256 None, 0, root).

(** The node with two children: the element of the successor is copied and
    the successor freed.  The first entry written for [node] is overwritten
    by the next one; [None] when the path is full. *)
Definition avl_remove_inner m (path : block addr) (path_len count : Z) (node : addr)
    : res (option (block addr * Z) * mem) :=
  d ← load m node;
  r ← loop (S (Z.to_nat count))
    (fun '(path, succ_idx, succ) =>
       s ← load m succ;
       match an_left s with
       | Some _ =>
           if succ_idx >=? 255 then mret (inr None)
           else
             path ← (if succ_idx =? path_len then set path succ_idx (Some node) else mret path);
             path ← set path succ_idx (Some succ);
             mret (inl (path, succ_idx + 1, an_left s))
       | None => mret (inr (Some (path, succ_idx, succ)))
       end) (path, path_len, right d);
  match r with
  | None => mret (None, m)
  | Some (path, succ_idx, succ) =>
      path ← (if succ_idx =? path_len then set path succ_idx (Some node) else mret path);
      path ← set path succ_idx (Some succ);
      let succ_idx := succ_idx + 1 in
      s ← load m succ;
      m ← update m node (fun d => set_elem d (an_data s));
      succ_parent ← get_cell path (succ_idx - 1);
      let succ_child := an_right s in
      p ← load m succ_parent;
      m ← (if decide (an_left p = succ) then store m succ_parent (set_left p succ_child)
           else store m succ_parent (set_right p succ_child));
      m ← free_avl_node m succ;
      mret (Some (path, succ_idx - 1), m)
  end.

Definition scl_avl_remove m tree (key : option A) : res (scl_error_t * option (tree_t A) * mem) :=
  match tree, key with
  | Some (Tree root es count cmp), Some key =>
      match root with
      | None => mret (SCL_ERR_NOT_FOUND, tree, m)
      | Some _ =>
          r ← avl_locate m count cmp key root;
          match r with
          | None => mret (SCL_ERR_NOT_FOUND, tree, m)
          | Some (node, path, path_len) =>
              d ← load m node;
              '(r, m) ←
                match an_left d, an_right d with
                | Some _, Some _ =>
                    '(r, m) ← avl_remove_inner m path path_len count node;
                    mret (match r with Some (path, path_len) => Some (root, path, path_len) | None => None end, m)
                | _, _ =>
                    let child := match an_left d with Some _ => an_left d | None => an_right d end in
                    p ← path_parent path path_len;
                    '(root, m) ← replace_child m root p node child;
                    m ← free_avl_node m node;
                    mret (Some (root, path, path_len), m)
                end;
              match r with
              | None => mret (SCL_ERR_INVALID_STATE, tree, m)
              | Some (root, path, path_len) =>
                  '(root, m) ← zfor_down path_len (fun i => remove_step path (i - 1)) (root, m);
                  mret (SCL_OK, Some (Tree root es (u64 (count - 1)) cmp), m)
              end
          end
      end
  | _, _ => mret (SCL_ERR_NULL_PTR, tree, m)
  end.
End Defs.

(** ** Heights and balance *)
Section Balance.
Context {A : Type}.
Notation node := (scl_avl_node_t A).
Notation mem := (mem node).
Implicit Types (m : mem) (t l r : tree node) (k : list (step node)) (n d : node) (a b : positive) (h : gmap positive node).

Definition ht t : Z := match t with TLeaf => -1 | TNode _ n _ _ => an_height n end.

(** Every height is that of the subtree, and those of two siblings differ by
    at most one. *)
Fixpoint balanced t : Prop :=
  match t with
  | TLeaf => True
  | TNode _ n l r =>
      balanced l /\ balanced r /\ -1 <= ht l - ht r <= 1 /\ an_height n = 1 + Z.max (ht l) (ht r)
  end.

Lemma balanced_ht t : balanced t -> -1 <= ht t.
Proof. induction t as [|a n l IHl r IHr]; simpl; [lia|]. intros (Hl & Hr & _ & ->). specialize (IHl Hl). lia. Qed.

(** A balanced tree is logarithmic. *)
Lemma balanced_size t (n : nat) : balanced t -> 2 * Z.of_nat n - 1 <= ht t -> 2 ^ Z.of_nat n <= zlen (addrs t) + 1.
Proof.
  revert t. induction n as [|n IH]; intros t Hb Hh; [pose proof (zlen_nonneg (addrs t)); simpl; lia|].
  destruct t as [|a d l r]; [simpl in Hh; lia|]. destruct Hb as (Hl & Hr & Hd & E). simpl in Hh.
  rewrite Nat2Z.inj_succ, Z.pow_succ_r by lia. simpl. rewrite zlen_cons, zlen_app.
  pose proof (IH l Hl ltac:(lia)). pose proof (IH r Hr ltac:(lia)). lia.
Qed.

Lemma balanced_bound t : balanced t -> zlen (addrs t) <= PTRDIFF_MAX -> ht t <= 126.
Proof.
  intros Hb Hz. destruct (Z.le_gt_cases (ht t) 126) as [|Hh]; [done|]. exfalso.
  pose proof (balanced_size t 64 Hb ltac:(lia)) as H. change (2 ^ Z.of_nat 64) with (2 ^ 64) in H.
  unfold PTRDIFF_MAX in Hz. lia.
Qed.

Lemma balanced_depth t : balanced t -> depth t <= ht t + 1.
Proof.
  induction t as [|a n l IHl r IHr]; simpl; [lia|]. intros (Hl & Hr & _ & ->). specialize (IHl Hl). specialize (IHr Hr). lia.
Qed.

Lemma wp_avl_height m p t (Q : Z -> Prop) : shape (m_nodes m) p t -> Q (ht t) -> wp (scl_avl_height m p) Q.
Proof.
  destruct t as [|a n l r]; [by intros -> HQ|]. intros (-> & Hn & _) HQ. unfold scl_avl_height. wstep. by eapply wp_load_node.
Qed.

Lemma scl_avl_max2_spec x y : scl_avl_max2 x y = Z.max x y.
Proof. unfold scl_avl_max2. rewrite Z.gtb_ltb. destruct (Z.ltb_spec y x); lia. Qed.

Lemma wp_int_of z (Q : Z -> Prop) : - INT_MAX - 1 <= z <= INT_MAX -> Q z -> wp (int_of z) Q.
Proof.
  intros Hz HQ. unfold int_of. destruct (Z.leb_spec (- INT_MAX - 1) z); [|lia].
  destruct (Z.leb_spec z INT_MAX); [|lia]. done.
Qed.

Definition set_height n (z : Z) : node := ANode (an_data n) (an_left n) (an_right n) z.

Lemma wp_update_height m a n l r (Q : mem -> Prop) :
  m_nodes m !! a = Some n -> shape (m_nodes m) (left n) l -> shape (m_nodes m) (right n) r ->
  -1 <= ht l < INT_MAX -> -1 <= ht r < INT_MAX ->
  Q (Mem (m_world m) (<[a := set_height n (1 + Z.max (ht l) (ht r))]> (m_nodes m))) ->
  wp (scl_avl_update_height m (Some a)) Q.
Proof.
  intros Hn Hl Hr Bl Br HQ. unfold scl_avl_update_height. wstep. eapply wp_load_node; [done|].
  wstep. eapply wp_avl_height; [done|]. wstep. eapply wp_avl_height; [done|]. rewrite scl_avl_max2_spec.
  wstep. apply wp_int_of; [lia|]. by eapply wp_store_node.
Qed.

Lemma wp_balance m p t (Q : Z -> Prop) :
  shape (m_nodes m) p t ->
  match t with
  | TLeaf => Q 0
  | TNode _ _ l r => -1 <= ht l <= 200 /\ -1 <= ht r <= 200 /\ Q (ht l - ht r)
  end -> wp (scl_avl_balance m p) Q.
Proof.
  destruct t as [|a n l r]; [by intros -> HQ|]. intros (-> & Hn & Hl & Hr) (Bl & Br & HQ). unfold scl_avl_balance.
  wstep. eapply wp_load_node; [done|]. wstep. eapply wp_avl_height; [done|]. wstep. eapply wp_avl_height; [done|].
  apply wp_int_of; [unfold INT_MAX; lia|done].
Qed.

Lemma wp_update_node m a n f (Q : mem -> Prop) :
  m_nodes m !! a = Some n -> Q (Mem (m_world m) (<[a := f n]> (m_nodes m))) -> wp (update m (Some a) f) Q.
Proof. intros Hn HQ. unfold update. wstep. eapply wp_load_node; [done|]. by eapply wp_store_node. Qed.

(** ** Local edits

    From [m] to [m'], the subtree [t] becomes [t'] on the same nodes. *)
Record edited m t m' t' : Prop := {
  ed_shape : shape (m_nodes m') (root_of t') t';
  ed_addrs : addrs t' ≡ₚ addrs t;
  ed_elems : elems t' = elems t;
  ed_frame b : b ∉ addrs t -> m_nodes m' !! b = m_nodes m !! b;
  ed_world : m_world m' = m_world m
}.

Lemma edited_trans m1 t1 m2 t2 m3 t3 : edited m1 t1 m2 t2 -> edited m2 t2 m3 t3 -> edited m1 t1 m3 t3.
Proof.
  intros [A1 A2 A3 A4 A5] [B1 B2 B3 B4 B5]. split; [done|by rewrite B2|congruence| |congruence].
  intros b Hb. rewrite B4 by (by rewrite A2). by apply A4.
Qed.

Lemma shape_here h p t a : shape h p t -> a ∈ addrs t -> is_Some (h !! a).
Proof.
  revert p. induction t as [|b n l IHl r IHr]; intros p; simpl; [by intros _ ?%elem_of_nil|].
  intros (_ & Hb & Hl & Hr) [->|[?|?]%elem_of_app]%elem_of_cons; eauto.
Qed.

Lemma edited_holds c base m t m' t' ks :
  edited m t m' t' -> (forall a, a ∈ addrs t -> a ∈ ks) -> holdsn c base m ks -> holdsn c base m' ks.
Proof.
  intros [A1 A2 A3 A4 A5] Hk [H1 H2 H3 H4 H5]. split; try done.
  - intros a Ha. rewrite A4; [by apply H3|]. intros Hin. by apply Ha, Hk.
  - intros a Ha. destruct (decide (a ∈ addrs t)) as [Hin|Hin].
    + eapply shape_here; [done|]. by rewrite A2.
    + rewrite A4 by done. by apply H4.
  - unfold live. by rewrite A5.
Qed.

(** An edit of one subtree is an edit of the tree around it. *)
Lemma edited_left m a n l r m' l' :
  shape (m_nodes m) (Some a) (TNode a n l r) -> NoDup (addrs (TNode a n l r)) -> edited m l m' l' ->
  edited m (TNode a n l r) (Mem (m_world m') (<[a := set_left n (root_of l')]> (m_nodes m')))
    (TNode a (set_left n (root_of l')) l' r).
Proof.
  intros (_ & Hn & Hl & Hr) Hd [A1 A2 A3 A4 A5]. simpl in Hd. apply NoDup_cons in Hd as [Ha Hd].
  apply NoDup_app in Hd as (Hdl & Hlr & Hdr). rewrite elem_of_app in Ha. split.
  - simpl. rewrite lookup_insert_eq. split_and!; try done.
    + apply shape_insert; [rewrite A2; tauto|done].
    + apply shape_insert; [tauto|]. eapply shape_frame; [|exact Hr]. intros b Hb. apply A4. intros ?. by apply (Hlr b).
  - simpl. by rewrite A2.
  - simpl. by rewrite A3.
  - intros b Hb. simpl in Hb |- *. apply not_elem_of_cons in Hb as [Hb1 Hb2]. rewrite lookup_insert_ne by done.
    apply A4. intros ?. apply Hb2. rewrite elem_of_app. by left.
  - done.
Qed.

Lemma edited_right m a n l r m' r' :
  shape (m_nodes m) (Some a) (TNode a n l r) -> NoDup (addrs (TNode a n l r)) -> edited m r m' r' ->
  edited m (TNode a n l r) (Mem (m_world m') (<[a := set_right n (root_of r')]> (m_nodes m')))
    (TNode a (set_right n (root_of r')) l r').
Proof.
  intros (_ & Hn & Hl & Hr) Hd [A1 A2 A3 A4 A5]. simpl in Hd. apply NoDup_cons in Hd as [Ha Hd].
  apply NoDup_app in Hd as (Hdl & Hlr & Hdr). rewrite elem_of_app in Ha. split.
  - simpl. rewrite lookup_insert_eq. split_and!; try done.
    + apply shape_insert; [tauto|]. eapply shape_frame; [|exact Hl]. intros b Hb. apply A4. by apply Hlr.
    + apply shape_insert; [rewrite A2; tauto|done].
  - simpl. by rewrite A2.
  - simpl. by rewrite A3.
  - intros b Hb. simpl in Hb |- *. apply not_elem_of_cons in Hb as [Hb1 Hb2]. rewrite lookup_insert_ne by done.
    apply A4. intros ?. apply Hb2. rewrite elem_of_app. by right.
  - done.
Qed.

(** ** Rotations *)
Lemma wp_rotate_right m a na b nb ll lr r (Q : addr * mem -> Prop) :
  let t := TNode a na (TNode b nb ll lr) r in
  shape (m_nodes m) (Some a) t -> NoDup (addrs t) ->
  -1 <= ht ll <= 200 -> -1 <= ht lr <= 200 -> -1 <= ht r <= 200 ->
  (forall m' na' nb', edited m t m' (TNode b nb' ll (TNode a na' lr r)) ->
     an_height na' = 1 + Z.max (ht lr) (ht r) -> an_height nb' = 1 + Z.max (ht ll) (an_height na') -> Q (Some b, m')) ->
  wp (scl_avl_rotate_right m (Some a)) Q.
Proof.
  intros t (_ & Ha & (El & Hb & Hll & Hlr) & Hr) Hd Bll Blr Br HQ. unfold t in *. clear t.
  simpl in Hd. rewrite !NoDup_cons, not_elem_of_cons, !not_elem_of_app in Hd.
  destruct Hd as ((Nab & (Nall & Nalr) & Nar) & ((Nbll & Nblr) & Nbr) & _).
  unfold scl_avl_rotate_right. wstep. eapply wp_load_node; [done|]. rewrite El. wstep. eapply wp_load_node; [done|].
  wstep. eapply wp_update_node; [done|]. cbn [m_nodes m_world].
  wstep. eapply wp_update_node; [simpl; rewrite lookup_insert_ne by done; exact Ha|]. cbn [m_nodes m_world].
  rewrite (shape_root _ _ _ Hlr) in Hlr |- *.
  wstep. eapply (wp_update_height _ a _ lr r); [cbn [m_nodes]; apply lookup_insert_eq|..]; cbn [m_nodes m_world].
  { simpl. by apply shape_insert, shape_insert. }
  { simpl. by apply shape_insert, shape_insert. }
  { unfold INT_MAX. lia. }
  { unfold INT_MAX. lia. }
  rewrite insert_insert_eq. set (na' := set_height _ _).
  wstep. eapply (wp_update_height _ b _ ll (TNode a na' lr r)); cbn [m_nodes m_world].
  { rewrite lookup_insert_ne by done. apply lookup_insert_eq. }
  { rewrite left_set_right. by apply shape_insert, shape_insert. }
  { rewrite right_set_right. simpl. rewrite lookup_insert_eq. split_and!; try done; by apply shape_insert, shape_insert. }
  { unfold INT_MAX. lia. }
  { simpl. unfold INT_MAX. lia. }
  rewrite (insert_insert_ne _ b) by done. rewrite insert_insert_eq.
  wstep. apply (HQ _ na' (set_height (set_right nb (Some a)) (1 + Z.max (ht ll) (an_height na')))); [|done|done].
  split.
  - simpl. rewrite lookup_insert_eq, lookup_insert_ne by done. rewrite lookup_insert_eq.
    split_and!; try done; by apply shape_insert, shape_insert.
  - simpl. solve_Permutation.
  - simpl. by rewrite <- app_assoc.
  - simpl. intros c. rewrite !not_elem_of_cons. intros (H1 & H2 & _). by rewrite !lookup_insert_ne by done.
  - done.
Qed.

Lemma wp_rotate_left m a na b nb l rl rr (Q : addr * mem -> Prop) :
  let t := TNode a na l (TNode b nb rl rr) in
  shape (m_nodes m) (Some a) t -> NoDup (addrs t) ->
  -1 <= ht l <= 200 -> -1 <= ht rl <= 200 -> -1 <= ht rr <= 200 ->
  (forall m' na' nb', edited m t m' (TNode b nb' (TNode a na' l rl) rr) ->
     an_height na' = 1 + Z.max (ht l) (ht rl) -> an_height nb' = 1 + Z.max (an_height na') (ht rr) -> Q (Some b, m')) ->
  wp (scl_avl_rotate_left m (Some a)) Q.
Proof.
  intros t (_ & Ha & Hl & (Er & Hb & Hrl & Hrr)) Hd Bl Brl Brr HQ. unfold t in *. clear t.
  simpl in Hd. rewrite NoDup_cons, NoDup_app, NoDup_cons, !not_elem_of_app, not_elem_of_cons, not_elem_of_app in Hd.
  destruct Hd as ((Nal & Nab & Narl & Narr) & _ & Hdis & (Nbrl & Nbrr) & _).
  assert (b ∉ addrs l) as Nbl by (intros Hin; apply (Hdis b Hin); by left).
  unfold scl_avl_rotate_left. wstep. eapply wp_load_node; [done|]. rewrite Er. wstep. eapply wp_load_node; [done|].
  wstep. eapply wp_update_node; [done|]. cbn [m_nodes m_world].
  wstep. eapply wp_update_node; [simpl; rewrite lookup_insert_ne by done; exact Ha|]. cbn [m_nodes m_world].
  rewrite (shape_root _ _ _ Hrl) in Hrl |- *.
  wstep. eapply (wp_update_height _ a _ l rl); [cbn [m_nodes]; apply lookup_insert_eq|..]; cbn [m_nodes m_world].
  { simpl. by apply shape_insert, shape_insert. }
  { simpl. by apply shape_insert, shape_insert. }
  { unfold INT_MAX. lia. }
  { unfold INT_MAX. lia. }
  rewrite insert_insert_eq. set (na' := set_height _ _).
  wstep. eapply (wp_update_height _ b _ (TNode a na' l rl) rr); cbn [m_nodes m_world].
  { rewrite lookup_insert_ne by done. apply lookup_insert_eq. }
  { rewrite left_set_left. simpl. rewrite lookup_insert_eq. split_and!; try done; by apply shape_insert, shape_insert. }
  { rewrite right_set_left. by apply shape_insert, shape_insert. }
  { simpl. unfold INT_MAX. lia. }
  { unfold INT_MAX. lia. }
  rewrite (insert_insert_ne _ b) by done. rewrite insert_insert_eq.
  wstep. apply (HQ _ na' (set_height (set_left nb (Some a)) (1 + Z.max (an_height na') (ht rr)))); [|done|done].
  split.
  - simpl. rewrite lookup_insert_eq, lookup_insert_ne by done. rewrite lookup_insert_eq.
    split_and!; try done; by apply shape_insert, shape_insert.
  - simpl. solve_Permutation.
  - simpl. by rewrite <- app_assoc.
  - simpl. intros c. rewrite not_elem_of_cons, not_elem_of_app, not_elem_of_cons. intros (H1 & _ & H2 & _).
    by rewrite !lookup_insert_ne by done.
  - done.
Qed.

(** Rebalancing a node whose subtrees differ by at most two. *)
Definition rebalanced m t (o : option addr * mem) : Prop :=
  match t with
  | TLeaf => False
  | TNode _ _ l r =>
      (-1 <= ht l - ht r <= 1 /\ o = (None, m)) \/
      (ht l - ht r < -1 \/ 1 < ht l - ht r) /\
      exists m' t', o = (Some (root_of t'), m') /\ edited m t m' t' /\ balanced t' /\
        Z.max (ht l) (ht r) <= ht t' <= 1 + Z.max (ht l) (ht r)
  end.

Lemma wp_rebalance_left m a n l r :
  let t := TNode a n l r in
  shape (m_nodes m) (Some a) t -> NoDup (addrs t) -> balanced l -> balanced r ->
  ht l - ht r = 2 -> ht l <= 150 -> wp (rotate m (Some a) (ht l - ht r)) (rebalanced m t).
Proof.
  intros t Hs Hd Bl Br Hbal Hmax. pose proof (balanced_ht _ Bl). pose proof (balanced_ht _ Br).
  unfold rotate. rewrite Hbal. change (2 >? 1) with true. cbv iota.
  destruct l as [|b nb ll lr]; [simpl in Hbal; lia|]. pose proof Bl as (Bll & Blr & Hlb & Hlh).
  pose proof (balanced_ht _ Bll). pose proof (balanced_ht _ Blr). change (ht (TNode b nb ll lr)) with (an_height nb) in *.
  pose proof Hs as (_ & Ha & Hsl & Hsr). wstep. eapply wp_load_node; [done|]. wstep.
  eapply wp_balance; [done|]. split; [lia|]. split; [lia|]. rewrite Z.geb_leb.
  destruct (Z.leb_spec 0 (ht ll - ht lr)) as [Hge|Hlt].
  - wstep. eapply (wp_rotate_right m a n b nb ll lr r); [done|done|lia|lia|lia|].
    intros m' na' nb' Ed Ea Eb. wstep. right. split; [simpl; lia|]. exists m', (TNode b nb' ll (TNode a na' lr r)). split; [done|]. split; [done|].
    simpl. rewrite Eb, Ea. split; [split_and!; try done; lia|lia].
  - assert (NoDup (addrs (TNode b nb ll lr))) as Hdl.
    { simpl in Hd |- *. apply NoDup_cons in Hd as [_ Hd]. rewrite app_comm_cons in Hd. by apply NoDup_app in Hd as [? _]. }
    destruct lr as [|c nc l2 l3]; [simpl in Hlt; lia|]. pose proof Blr as (B2 & B3 & Hcb & Hch).
    pose proof (balanced_ht _ B2). pose proof (balanced_ht _ B3). change (ht (TNode c nc l2 l3)) with (an_height nc) in *.
    wstep. rewrite (shape_root _ _ _ Hsl). eapply (wp_rotate_left m b nb c nc ll l2 l3);
      [by rewrite (shape_root _ _ _ Hsl) in Hsl|done|lia|lia|lia|].
    intros m1 nb1 nc1 Ed1 Eb1 Ec1. pose proof (edited_left m a n _ r m1 _ Hs Hd Ed1) as Ed2.
    wstep. eapply wp_update_node; [rewrite (ed_frame _ _ _ _ Ed1); [done|]|].
    { simpl in Hd |- *. apply NoDup_cons in Hd as [Hna _]. intros Hin. apply Hna. rewrite app_comm_cons.
      apply elem_of_app. by left. }
    wstep. eapply (wp_rotate_right _ a _ c nc1 (TNode b nb1 ll l2) l3 r); [exact (ed_shape _ _ _ _ Ed2)| | | | |].
    { by rewrite (ed_addrs _ _ _ _ Ed2). }
    { simpl. lia. }
    { lia. }
    { lia. }
    change (ht (TNode b nb1 ll l2)) with (an_height nb1). intros m2 na2 nc2 Ed3 Ea2 Ec2. wstep. right. split; [simpl; lia|]. exists m2, (TNode c nc2 (TNode b nb1 ll l2) (TNode a na2 l3 r)). split; [done|].
    split; [by eapply edited_trans|]. simpl. rewrite Ec2, Ea2, Eb1. split; [split_and!; try done; lia|lia].
Qed.

Lemma wp_rebalance_right m a n l r :
  let t := TNode a n l r in
  shape (m_nodes m) (Some a) t -> NoDup (addrs t) -> balanced l -> balanced r ->
  ht l - ht r = -2 -> ht r <= 150 -> wp (rotate m (Some a) (ht l - ht r)) (rebalanced m t).
Proof.
  intros t Hs Hd Bl Br Hbal Hmax. pose proof (balanced_ht _ Bl). pose proof (balanced_ht _ Br).
  unfold rotate. rewrite Hbal. change (-2 >? 1) with false. change (-2 <? -1) with true. cbv iota.
  destruct r as [|b nb rl rr]; [simpl in Hbal; lia|]. pose proof Br as (Brl & Brr & Hrb & Hrh).
  pose proof (balanced_ht _ Brl). pose proof (balanced_ht _ Brr). change (ht (TNode b nb rl rr)) with (an_height nb) in *.
  pose proof Hs as (_ & Ha & Hsl & Hsr). wstep. eapply wp_load_node; [done|]. wstep.
  eapply wp_balance; [done|]. split; [lia|]. split; [lia|].
  assert (NoDup (addrs (TNode b nb rl rr)) /\ a ∉ addrs (TNode b nb rl rr)) as [Hdr Har].
  { simpl in Hd |- *. apply NoDup_cons in Hd as [Hna Hd]. apply NoDup_app in Hd as (_ & _ & Hd).
    split; [done|]. intros Hin. apply Hna. apply elem_of_app. by right. }
  destruct (Z.leb_spec (ht rl - ht rr) 0) as [Hge|Hlt].
  - wstep. eapply (wp_rotate_left m a n b nb l rl rr); [done|done|lia|lia|lia|].
    intros m' na' nb' Ed Ea Eb. wstep. right. split; [simpl; lia|]. exists m', (TNode b nb' (TNode a na' l rl) rr). split; [done|]. split; [done|].
    simpl. rewrite Eb, Ea. split; [split_and!; try done; lia|lia].
  - destruct rl as [|c nc l2 l3]; [simpl in Hlt; lia|]. pose proof Brl as (B2 & B3 & Hcb & Hch).
    pose proof (balanced_ht _ B2). pose proof (balanced_ht _ B3). change (ht (TNode c nc l2 l3)) with (an_height nc) in *.
    wstep. rewrite (shape_root _ _ _ Hsr). eapply (wp_rotate_right m b nb c nc l2 l3 rr);
      [by rewrite (shape_root _ _ _ Hsr) in Hsr|done|lia|lia|lia|].
    intros m1 nb1 nc1 Ed1 Eb1 Ec1. pose proof (edited_right m a n l _ m1 _ Hs Hd Ed1) as Ed2.
    wstep. eapply wp_update_node; [by rewrite (ed_frame _ _ _ _ Ed1)|].
    wstep. eapply (wp_rotate_left _ a _ c nc1 l l2 (TNode b nb1 l3 rr)); [exact (ed_shape _ _ _ _ Ed2)| | | | |].
    { by rewrite (ed_addrs _ _ _ _ Ed2). }
    { lia. }
    { lia. }
    { simpl. lia. }
    change (ht (TNode b nb1 l3 rr)) with (an_height nb1). intros m2 na2 nc2 Ed3 Ea2 Ec2. wstep. right.
    split; [simpl; lia|]. exists m2, (TNode c nc2 (TNode a na2 l l2) (TNode b nb1 l3 rr)). split; [done|].
    split; [by eapply edited_trans|]. simpl. rewrite Ec2, Ea2, Eb1. split; [split_and!; try done; lia|lia].
Qed.

Lemma wp_rebalance m a n l r :
  let t := TNode a n l r in
  shape (m_nodes m) (Some a) t -> NoDup (addrs t) -> balanced l -> balanced r ->
  -2 <= ht l - ht r <= 2 -> ht l <= 150 -> ht r <= 150 ->
  wp (rotate m (Some a) (ht l - ht r)) (rebalanced m t).
Proof.
  intros t Hs Hd Bl Br Hbal Hl Hr.
  destruct (decide (ht l - ht r = 2)); [by apply wp_rebalance_left|].
  destruct (decide (ht l - ht r = -2)); [by apply wp_rebalance_right|].
  unfold rotate. rewrite Z.gtb_ltb. destruct (Z.ltb_spec 1 (ht l - ht r)); [lia|].
  destruct (Z.ltb_spec (ht l - ht r) (-1)); [lia|]. wstep. left. split; [lia|done].
Qed.

(** ** Back up the path

    [steady k z]: the nodes of the path were balanced when the hole had the
    height [z]. *)
Fixpoint steady k (z : Z) : Prop :=
  match k with
  | [] => True
  | InLeft _ n t :: k | InRight _ n t :: k =>
      balanced t /\ -1 <= z - ht t <= 1 /\ an_height n = 1 + Z.max z (ht t) /\ steady k (an_height n)
  end.

Lemma balanced_fill k t : balanced (fill k t) <-> balanced t /\ steady k (ht t).
Proof.
  revert t. induction k as [|[b n r|b n l] k IH]; intros t; simpl; [tauto|..]; rewrite IH; simpl; [tauto|].
  split; intros H; split_and!; try tauto; lia.
Qed.

Lemma steady_relink k p z : steady (relink_path k p) z <-> steady k z.
Proof. by destruct k as [|[b n t|b n t] k]. Qed.

(** What the path array holds. *)
Definition entries k : list addr := (fun s => Some (step_addr s)) <$> rev k.

Lemma entries_cons s k : entries (s :: k) = entries k ++ [Some (step_addr s)].
Proof. unfold entries. simpl. by rewrite fmap_app. Qed.
Lemma entries_relink k p : entries (relink_path k p) = entries k.
Proof. destruct k as [|[] k]; [done|..]; cbn [relink_path relink]; by rewrite !entries_cons. Qed.
Lemma zlen_entries k : zlen (entries k) = zlen k.
Proof. unfold entries. rewrite zlen_map. unfold zlen. by rewrite length_rev. Qed.

Lemma wp_path_top path s k (Q : addr -> Prop) :
  stored path (entries (s :: k)) -> Q (Some (step_addr s)) -> wp (get_cell path (zlen k)) Q.
Proof.
  rewrite entries_cons. intros [_ H]%stored_prefix HQ. rewrite zlen_entries in H.
  unfold get_cell, get. by rewrite H.
Qed.

Lemma wp_path_parent path k (Q : addr -> Prop) :
  stored path (entries k) -> Q (top k) -> wp (path_parent path (zlen k)) Q.
Proof.
  intros Hst HQ. unfold path_parent. destruct k as [|s k]; [done|]. rewrite zlen_cons. pose proof (zlen_nonneg k).
  destruct (Z.eqb_spec (zlen k + 1) 0); [lia|]. replace (zlen k + 1 - 1) with (zlen k) by lia. by eapply wp_path_top.
Qed.

Context (base : mem).

(** The rotation at a node and its parent's new link. *)
Lemma wp_fix (X : mem -> res (addr * mem)) m path k b n l r (Q : addr * mem -> Prop) :
  let t := TNode b n l r in
  planted 2 base m (fill k t) -> stored path (entries k) -> balanced l -> balanced r ->
  -2 <= ht l - ht r <= 2 -> ht l <= 150 -> ht r <= 150 ->
  (-1 <= ht l - ht r <= 1 -> wp (X m) Q) ->
  (forall m' t', ht l - ht r < -1 \/ 1 < ht l - ht r ->
     planted 2 base m' (fill (relink_path k (root_of t')) t') -> balanced t' ->
     Z.max (ht l) (ht r) <= ht t' <= 1 + Z.max (ht l) (ht r) -> elems t' = elems t -> addrs t' ≡ₚ addrs t ->
     Q (root_of (fill (relink_path k (root_of t')) t'), m')) ->
  wp ('(new_sub, m) ← rotate m (Some b) (ht l - ht r);
      match new_sub with
      | None => X m
      | Some new_sub => p ← path_parent path (zlen k); replace_child m (root_of (fill k t)) p (Some b) new_sub
      end) Q.
Proof.
  intros t P Hst Bl Br Hd Hl Hr HX HQ. pose proof (planted_nodup _ _ _ _ _ P) as (Hnt & Hnk & Hdis).
  destruct P as [Hs Hh]. apply shape_fill in Hs as [Hp Ht]. wstep.
  eapply wp_mono; [by eapply wp_rebalance|]. intros o [[Hb ->]|(Hb & m' & t' & -> & Ed & Bt & Hht)]; [by apply HX|].
  wstep. eapply wp_path_parent; [done|]. pose proof Ed as [A1 A2 A3 A4 A5].
  eapply (wp_replace_child 2 base m' _ k b t'); [| |done|done| | | |].
  - eapply path_frame; [|exact Hp]. intros a Ha. apply A4. intros ?. by apply (Hdis a).
  - apply Hdis. by left.
  - intros a Ha. rewrite A2 in Ha. by apply Hdis.
  - eapply edited_holds; [exact Ed| |exact Hh]. intros a. by apply addrs_in_fill.
  - intros a Ha. rewrite addrs_fill. set_solver.
  - intros root' m2 Hs2 Hh2 -> _. apply HQ; try done. split; [done|].
    eapply holds_perm; [|exact Hh2]. by rewrite !addrs_fill, path_addrs_relink, A2.
Qed.

(** What holds between two rounds, with [i] nodes still to visit. *)
Definition climbing (E : list A) (z : Z) (path : block addr) (i : Z) (st : addr * mem) : Prop :=
  exists k t g, i = zlen k /\ stored path (entries k) /\ planted 2 base st.2 (fill k t) /\
    st.1 = root_of (fill k t) /\ balanced t /\ steady k g /\ -1 <= ht t - g <= 1 /\
    elems (fill k t) = E /\ zlen (addrs (fill k t)) = z.

(** The subtree of a step with its new height. *)
Lemma planted_height m k b n l r z :
  planted 2 base m (fill k (TNode b n l r)) ->
  planted 2 base (Mem (m_world m) (<[b := set_height n z]> (m_nodes m))) (fill k (TNode b (set_height n z) l r)).
Proof. intros P. by apply planted_modify with (n := n). Qed.

(** The node of a step, with what the heights say about its children. *)
Lemma step_facts s k t g :
  balanced t -> steady (s :: k) g -> -1 <= ht t - g <= 1 ->
  exists l r, plug s t = TNode (step_addr s) (step_node s) l r /\ balanced l /\ balanced r /\
    -2 <= ht l - ht r <= 2 /\ steady k (an_height (step_node s)) /\
    -1 <= 1 + Z.max (ht l) (ht r) - an_height (step_node s) <= 1 /\
    (ht l - ht r < -1 \/ 1 < ht l - ht r -> -1 <= Z.max (ht l) (ht r) - an_height (step_node s)).
Proof.
  intros Bt Hk Hh. destruct s as [b n u|b n u]; simpl in Hk |- *; destruct Hk as (Bu & Hd & Hn & Hk);
    eexists _, _; (split; [done|]); split_and!; try done; lia.
Qed.

Lemma addrs_plug_size s t : zlen (addrs t) < zlen (addrs (plug s t)).
Proof.
  destruct s as [b n u|b n u]; simpl; rewrite zlen_cons, zlen_app; pose proof (zlen_nonneg (addrs u)); lia.
Qed.

Lemma addrs_fill_size k t : zlen (addrs t) <= zlen (addrs (fill k t)).
Proof.
  revert t. induction k as [|s k IH]; intros t; simpl; [done|]. pose proof (IH (plug s t)). pose proof (addrs_plug_size s t). lia.
Qed.

Lemma elems_relink_fill k t t' p : elems t' = elems t -> elems (fill (relink_path k p) t') = elems (fill k t).
Proof. intros E. by rewrite !elems_fill, before_relink, after_relink, E. Qed.
Lemma zlen_relink_fill k t t' p : addrs t' ≡ₚ addrs t -> zlen (addrs (fill (relink_path k p) t')) = zlen (addrs (fill k t)).
Proof. intros E. unfold zlen. by rewrite !addrs_fill, path_addrs_relink, E. Qed.

(** A rebalanced subtree continues the climb. *)
Lemma climb_on E z path k t t' g m :
  planted 2 base m (fill (relink_path k (root_of t')) t') -> stored path (entries k) -> balanced t' -> steady k g ->
  -1 <= ht t' - g <= 1 -> elems t' = elems t -> addrs t' ≡ₚ addrs t ->
  elems (fill k t) = E -> zlen (addrs (fill k t)) = z ->
  climbing E z path (zlen k) (root_of (fill (relink_path k (root_of t')) t'), m).
Proof.
  intros P Hst Bt Hk Hh Ee Ea HE Hz. exists (relink_path k (root_of t')), t', g.
  rewrite entries_relink, steady_relink, (elems_relink_fill _ t), (zlen_relink_fill _ t) by done.
  split_and!; try done; [by destruct k|lia..].
Qed.

Lemma wp_insert_step E z path s k t g m (Q : addr * mem -> Prop) :
  z <= PTRDIFF_MAX -> stored path (entries (s :: k)) -> planted 2 base m (fill (s :: k) t) ->
  balanced t -> steady (s :: k) g -> -1 <= ht t - g <= 1 ->
  elems (fill (s :: k) t) = E -> zlen (addrs (fill (s :: k) t)) = z ->
  (forall st, climbing E z path (zlen k) st -> Q st) ->
  wp (insert_step path (zlen k) (root_of (fill (s :: k) t), m)) Q.
Proof.
  intros Hz Hst P Bt Hk Hh HE Ez HQ. destruct (step_facts s k t g Bt Hk Hh) as (l & r & Ep & Bl & Br & Hd & Hk' & H1 & H2).
  simpl fill in *. rewrite Ep in *. set (b := step_addr s) in *. set (n := step_node s) in *.
  pose proof (addrs_fill_size k (TNode b n l r)) as Hsz. simpl (addrs (TNode b n l r)) in Hsz. rewrite zlen_cons, zlen_app in Hsz.
  pose proof (zlen_nonneg (addrs l)). pose proof (zlen_nonneg (addrs r)).
  pose proof (balanced_bound l Bl ltac:(lia)). pose proof (balanced_bound r Br ltac:(lia)).
  pose proof (balanced_ht _ Bl). pose proof (balanced_ht _ Br). pose proof (planted_node _ _ _ _ _ _ _ _ P) as (Hn & El & Er).
  pose proof Hst as Hst'. rewrite entries_cons in Hst'. apply stored_prefix in Hst' as [Hst' _].
  pose proof P as [[_ Hs]%shape_fill _].
  unfold insert_step. wstep. eapply wp_path_top; [done|]. wstep. eapply wp_balance; [exact Hs|]. split; [lia|]. split; [lia|].
  eapply (wp_fix (fun m => m ← scl_avl_update_height m (Some b); mret (root_of (fill k (TNode b n l r)), m))); try done; try lia.
  - intros Hd1. wstep. destruct Hs as (_ & _ & Hl & Hr). eapply wp_update_height; [done..|unfold INT_MAX; lia|unfold INT_MAX; lia|].
    wstep. apply HQ. set (n' := set_height _ _).
    exists k, (TNode b n' l r), (an_height n). simpl fst. simpl snd. split_and!; try done.
    + by apply planted_height.
    + by apply root_of_fill.
    + simpl. lia.
    + simpl. lia.
    + rewrite <- HE, !elems_fill. done.
    + rewrite <- Ez. unfold zlen. by rewrite !addrs_fill.
  - intros m' t' Hd1 P' Bt' Hht Ee Ea. apply HQ. eapply climb_on; try done. specialize (H2 Hd1). lia.
Qed.

Lemma wp_remove_step E z path s k t g m (Q : addr * mem -> Prop) :
  z <= PTRDIFF_MAX -> stored path (entries (s :: k)) -> planted 2 base m (fill (s :: k) t) ->
  balanced t -> steady (s :: k) g -> -1 <= ht t - g <= 1 ->
  elems (fill (s :: k) t) = E -> zlen (addrs (fill (s :: k) t)) = z ->
  (forall st, climbing E z path (zlen k) st -> Q st) ->
  wp (remove_step path (zlen k) (root_of (fill (s :: k) t), m)) Q.
Proof.
  intros Hz Hst P Bt Hk Hh HE Ez HQ. destruct (step_facts s k t g Bt Hk Hh) as (l & r & Ep & Bl & Br & Hd & Hk' & H1 & H2).
  simpl fill in *. rewrite Ep in *. set (b := step_addr s) in *. set (n := step_node s) in *.
  pose proof (addrs_fill_size k (TNode b n l r)) as Hsz. simpl (addrs (TNode b n l r)) in Hsz. rewrite zlen_cons, zlen_app in Hsz.
  pose proof (zlen_nonneg (addrs l)). pose proof (zlen_nonneg (addrs r)).
  pose proof (balanced_bound l Bl ltac:(lia)). pose proof (balanced_bound r Br ltac:(lia)).
  pose proof (balanced_ht _ Bl). pose proof (balanced_ht _ Br).
  pose proof Hst as Hst'. rewrite entries_cons in Hst'. apply stored_prefix in Hst' as [Hst' _].
  pose proof P as [[_ (_ & Hn & Hl & Hr)]%shape_fill _].
  unfold remove_step. wstep. eapply wp_path_top; [done|]. wstep.
  eapply wp_update_height; [done..|unfold INT_MAX; lia|unfold INT_MAX; lia|].
  set (n' := set_height _ _). pose proof (planted_height m k b n l r (1 + Z.max (ht l) (ht r)) P) as P'. fold n' in P'.
  pose proof P' as [[_ Hs']%shape_fill _]. wstep. eapply wp_balance; [exact Hs'|]. split; [lia|]. split; [lia|].
  rewrite (root_of_fill k _ (TNode b n' l r)) by done.
  eapply (wp_fix (fun m => mret (root_of (fill k (TNode b n' l r)), m))); try done; try lia.
  - intros Hd1. wstep. apply HQ. exists k, (TNode b n' l r), (an_height n). simpl fst. simpl snd.
    split_and!; try done; [simpl; lia|simpl; lia|rewrite <- HE, !elems_fill; done|].
    rewrite <- Ez. unfold zlen. by rewrite !addrs_fill.
  - intros m' t' Hd1 P2 Bt' Hht Ee Ea. apply HQ. eapply climb_on; try done.
    + specialize (H2 Hd1). lia.
    + rewrite <- HE, !elems_fill. done.
    + rewrite <- Ez. unfold zlen. by rewrite !addrs_fill.
Qed.

(** The whole climb. *)
Lemma wp_climb (step : block addr -> Z -> addr * mem -> res (addr * mem)) path k t g m (Q : addr * mem -> Prop) :
  let z := zlen (addrs (fill k t)) in
  (forall E z path s k t g m (Q : addr * mem -> Prop),
    z <= PTRDIFF_MAX -> stored path (entries (s :: k)) -> planted 2 base m (fill (s :: k) t) ->
    balanced t -> steady (s :: k) g -> -1 <= ht t - g <= 1 ->
    elems (fill (s :: k) t) = E -> zlen (addrs (fill (s :: k) t)) = z ->
    (forall st, climbing E z path (zlen k) st -> Q st) ->
    wp (step path (zlen k) (root_of (fill (s :: k) t), m)) Q) ->
  z <= PTRDIFF_MAX -> stored path (entries k) -> planted 2 base m (fill k t) ->
  balanced t -> steady k g -> -1 <= ht t - g <= 1 ->
  (forall m' t', planted 2 base m' t' -> balanced t' -> elems t' = elems (fill k t) -> zlen (addrs t') = z ->
     Q (root_of t', m')) ->
  wp (zfor_down (zlen k) (fun i => step path (i - 1)) (root_of (fill k t), m)) Q.
Proof.
  intros z Hstep Hz Hst P Bt Hk Hh HQ. apply (wp_zfor_down (climbing (elems (fill k t)) z path)); [apply zlen_nonneg|..].
  - by exists k, t, g.
  - intros i [root m1] Hi (k1 & t1 & g1 & -> & Hst1 & P1 & E1 & Bt1 & Hk1 & Hh1 & He1 & Hz1). simpl in P1, E1. subst root.
    destruct k1 as [|s k1]; [change (zlen []) with 0 in Hi; lia|]. rewrite zlen_cons.
    replace (zlen k1 + 1 - 1) with (zlen k1) by lia. by eapply Hstep.
  - intros [root m1] (k1 & t1 & g1 & E0 & Hst1 & P1 & E1 & Bt1 & Hk1 & Hh1 & He1 & Hz1). simpl in P1, E1. subst root.
    destruct k1 as [|s k1]; [|rewrite zlen_cons in E0; pose proof (zlen_nonneg k1); lia]. by apply HQ.
Qed.

(** A path is no longer than the tree is high. *)
Lemma path_height k t : balanced (fill k t) -> zlen k + ht t <= ht (fill k t).
Proof.
  revert t. induction k as [|s k IH]; intros t Hb; [change (zlen []) with 0; simpl; lia|].
  simpl in Hb |- *. specialize (IH _ Hb). rewrite zlen_cons. apply balanced_fill in Hb as [Hb _].
  assert (1 + ht t <= ht (plug s t)); [|lia]. destruct s; simpl in *; lia.
Qed.
End Balance.

Section Insert.
Context {A : Type} (al : scl_allocator_t) (cmp : A -> A -> Z) `{!Comparator cmp}.
Notation node := (scl_avl_node_t A).
Notation mem := (mem node).
Context (es : Z) (base : mem).
Notation tree_of := (tree_of cmp 2 es base).
Implicit Types (m : mem) (t l r : tree node) (k : list (step node)) (n d : node) (a b : positive) (x key : A).

Lemma wp_free_avl (base0 m : mem) a ks (Q : mem -> Prop) :
  holdsn 2 base0 m (a :: ks) ->
  (forall m', m_nodes m' = delete a (m_nodes m) -> holdsn 2 base0 m' ks -> Q m') -> wp (free_avl_node m (Some a)) Q.
Proof.
  intros H HQ. unfold free_avl_node, free_node. cbn [with_world m_nodes m_world w_reqs w_live].
  destruct (holds_here _ _ _ _ H a) as [n En]; [by left|]. rewrite En. apply HQ; [done|].
  apply (holds_remove 2 _ m _ _ _ H). simpl. unfold live. lia.
Qed.

Lemma wp_avl_create m ks x (Q : addr * mem -> Prop) :
  holdsn 2 base m ks ->
  (forall a m', a ∉ ks -> m_nodes m' = <[a := ANode x None None 0]> (m_nodes m) ->
     holdsn 2 base m' (a :: ks) -> zlen ks < PTRDIFF_MAX -> Q (Some a, m')) ->
  (forall m', m_nodes m' = m_nodes m -> holdsn 2 base m' ks -> Q (None, m')) ->
  wp (scl_avl_create_node al m x es) Q.
Proof.
  intros H HQ1 HQ2. pose proof (holds_size _ _ _ _ H) as Hsz. unfold scl_avl_create_node, alloc_node.
  destruct m as [[reqs lv] h]. cbn [m_world m_nodes] in *. unfold address_left. change (2 ^ 64 / MAX_ALIGN) with (2 ^ 60).
  assert (forall reqs', holdsn 2 base (Mem (World reqs' lv) h) ks) as Hno by (intros; by apply (holds_same 2 base (World reqs lv))).
  destruct (malloc_fn al reqs AVL_NODE_SIZE MAX_ALIGN); cbn [andb]; [|wstep; by apply HQ2].
  destruct (Z.ltb_spec (Z.of_nat (size h)) (2 ^ 60)); [|wstep; by apply HQ2].
  set (n := ANode x None None 0). cbn [m_world]. pose proof (fresh_addr_spec h) as Hf.
  destruct (malloc_fn al (S reqs) es MAX_ALIGN).
  - wstep. destruct (holds_add 2 base _ ks (World (S (S reqs)) (lv + 1 + 1)) n H) as (Ha & _ & Hh); [unfold live; simpl; lia|].
    apply HQ1; try done. unfold PTRDIFF_MAX. lia.
  - unfold free_node. cbn [with_world m_nodes m_world]. rewrite lookup_insert_eq. wstep. wstep.
    cbn [w_reqs w_live]. rewrite delete_insert_id by done. replace (lv + 1 - 1) with lv by lia. by apply HQ2.
Qed.

(** A searchable balanced tree. *)
Definition avl_of (s : tree_t A) m t : Prop := tree_of s m t /\ balanced t.

(** What an insertion leaves behind. *)
Definition avl_insert_post t x (o : scl_error_t * option (tree_t A) * mem) : Prop :=
  let '(e, s', m') := o in
  exists s1 t', s' = Some s1 /\ avl_of s1 m' t' /\
    (e = SCL_OK /\ inserted cmp x (elems t) (elems t') \/ e = SCL_ERR_OUT_OF_MEMORY /\ elems t' = elems t).

(** The new leaf, hung and rebalanced. *)
Lemma wp_avl_hang m1 t s k a x path root :
  t = fill (s :: k) TLeaf -> placed cmp x (s :: k) -> ascending cmp (elems t) -> balanced t ->
  zlen (addrs t) < PTRDIFF_MAX -> root = root_of t -> stored path (entries (s :: k)) ->
  shape (m_nodes m1) (root_of t) t -> m_nodes m1 !! a = Some (ANode x None None 0) ->
  holdsn 2 base m1 (a :: addrs t) -> m_nodes m1 !! step_addr s = Some (step_node s) ->
  wp (store m1 (Some (step_addr s)) (step_node (relink s (Some a))))
    (fun m => wp ('(root, m) ← zfor_down (zlen (s :: k)) (fun i => insert_step path (i - 1)) (root, m);
      mret (SCL_OK, Some (Tree root es (u64 (zlen (addrs t) + 1)) cmp), m)) (avl_insert_post t x)).
Proof.
  intros Et Hp Ha Bt Hz -> Hst Hs Hn Hh Hb. eapply wp_store_node; [done|]. rewrite Et in Ha, Bt, Hs, Hh.
  pose proof (planted_hang 2 base m1 s k a _ Hs Hn Hh eq_refl eq_refl) as P. set (n := ANode x None None 0) in *.
  destruct (inserted_at cmp x (s :: k) Ha Hp) as [Hi Ha']. rewrite <- Et in Hi.
  pose proof (addrs_hang s k a n) as Pa. pose proof (elems_hang s k a n) as Ee.
  assert (zlen (addrs (fill (relink s (Some a) :: k) (TNode a n TLeaf TLeaf))) = zlen (addrs t) + 1) as Ez
    by (rewrite Et; unfold zlen in *; rewrite Pa; simpl; lia).
  pose proof (zlen_nonneg (addrs t)). unfold PTRDIFF_MAX in *.
  replace (root_of t) with (root_of (fill (relink s (Some a) :: k) (TNode a n TLeaf TLeaf)))
    by (rewrite Et; simpl; apply root_of_fill; by destruct s).
  apply balanced_fill in Bt as [_ Hk]. simpl (ht TLeaf) in Hk.
  change (zlen (s :: k)) with (zlen (relink s (Some a) :: k)).
  wstep. eapply (wp_climb base insert_step path (relink s (Some a) :: k) (TNode a n TLeaf TLeaf) (-1)).
  - intros. by eapply wp_insert_step.
  - rewrite Ez. unfold PTRDIFF_MAX. lia.
  - change (relink s (Some a) :: k) with (relink_path (s :: k) (Some a)). by rewrite entries_relink.
  - exact P.
  - simpl. lia.
  - by apply (steady_relink (s :: k) (Some a)).
  - simpl. lia.
  - intros m' t' P' Bt' Ee' Ez'. wstep. rewrite u64_small by lia. rewrite Ez in Ez'. rewrite <- Ez'.
    eexists _, t'. split; [done|]. split; [|left; split; [done|by rewrite Ee', Ee]]. split; [|done].
    apply planted_tree; [done|by rewrite Ee', Ee|unfold PTRDIFF_MAX; lia].
Qed.

Lemma entries_snoc path k b s :
  stored path (entries k) -> zlen path = 256 -> zlen k < 256 -> step_addr s = b ->
  stored (zupd path (zlen k) (Some (Some b))) (entries (s :: k)).
Proof.
  intros Hst Hl Hk <-. rewrite entries_cons, <- (zlen_entries k). apply stored_snoc; [rewrite zlen_entries; lia|done].
Qed.

Lemma wp_avl_replace m1 t k b n l r a x :
  t = fill k (TNode b n l r) -> ascending cmp (elems t) -> balanced t -> zlen (addrs t) <= PTRDIFF_MAX ->
  shape (m_nodes m1) (root_of t) t -> a ∉ addrs t -> holdsn 2 base m1 (a :: addrs t) ->
  m_nodes m1 !! b = Some n -> cmp x (elem n) = 0 ->
  wp (store m1 (Some b) (set_elem n x))
    (fun m => wp (free_avl_node m (Some a))
      (fun m => avl_insert_post t x (SCL_OK, Some (Tree (root_of t) es (zlen (addrs t)) cmp), m))).
Proof.
  intros Et Ha Bt Hz Hs Hat Hh Hn Hc. eapply wp_store_node; [done|]. set (n' := set_elem n x).
  pose proof (holds_nodup _ _ _ _ Hh) as [_ Hd]%NoDup_cons.
  assert (holdsn 2 base (Mem (m_world m1) (<[b := n']> (m_nodes m1))) (a :: addrs t)) as Hh2.
  { apply holds_update; [|done]. right. rewrite Et. apply addrs_in_fill. by left. }
  eapply wp_free_avl; [exact Hh2|]. intros m2 Em2 Hh3. rewrite Et in *.
  destruct (inserted_on cmp x k b n l r Ha Hc) as [Hi Ha2].
  assert (root_of (fill k (TNode b n l r)) = root_of (fill k (TNode b n' l r))) as Er' by by apply root_of_fill.
  assert (zlen (addrs (fill k (TNode b n l r))) = zlen (addrs (fill k (TNode b n' l r)))) as Ez by (unfold zlen; by rewrite addrs_modify).
  eexists _, (fill k (TNode b n' l r)). split; [done|]. split; [|by left]. split.
  - rewrite Er', Ez in *. apply planted_tree; [|exact Ha2|done]. split; [|by eapply holds_perm; [apply addrs_modify|]].
    rewrite Em2. apply shape_delete; [by rewrite addrs_modify|]. by apply shape_modify with (n := n).
  - apply balanced_fill in Bt as [Bt Hk]. by apply balanced_fill.
Qed.

Lemma wp_avl_insert s m t x : avl_of s m t -> wp (scl_avl_insert al m (Some s) (Some x)) (avl_insert_post t x).
Proof.
  intros [R Bt]. pose proof R as [E1 E2 E3 E4 Hs Hh Ha Hf]. destruct s as [root es' cnt cmp'].
  simpl in E1, E2, E3, E4. subst es' cmp' root cnt. unfold scl_avl_insert. wstep.
  apply (wp_avl_create m (addrs t) x); [done| |].
  2:{ intros m' Em Hh'. wstep. eexists _, t. split; [done|]. split; [|by right]. split; [by eapply tree_of_same|done]. }
  intros a m1 Hat Em Hh' Hz.
  pose proof (planted_grown 2 base m m1 t a _ (tree_planted _ _ _ _ _ _ _ R) Hat Em) as Hs1.
  assert (m_nodes m1 !! a = Some (ANode x None None 0)) as Hn by by rewrite Em, lookup_insert_eq.
  assert (t = TLeaf \/ t <> TLeaf /\ exists b, root_of t = Some b) as [->|[Hne [b Eb]]] by (destruct t; eauto).
  { simpl. exists (Tree (Some a) es 1 cmp), (TNode a (ANode x None None 0) TLeaf TLeaf).
    split; [done|]. split.
    - split; [|simpl; lia]. apply (planted_tree cmp 2 es base m1 (TNode a (ANode x None None 0) TLeaf TLeaf)); [|repeat constructor|done].
      split; [|done]. simpl. by rewrite Hn.
    - left. split; [done|]. exists [], []. split; [done|]. left. split; [done|]. intros (y & Hy & _). set_solver. }
  rewrite Eb at 1. cbv iota. wstep. pose proof (balanced_bound t Bt Hf) as H126.
  eapply (wp_walk cmp m1 t x (fun '(path, len, p) k t' => p = root_of t' /\ t' <> TLeaf /\ len = zlen k /\
    zlen path = 256 /\ stored path (entries k))); [done..|pose proof (zlen_nonneg (addrs t)); lia| | |].
  { split_and!; try done. apply stored_nil. }
  { intros [[path len] p] k _ _ (_ & ? & _). done. }
  intros [[path len] p] k b' n l r Et Hp (-> & _ & -> & Hl & Hst) Hb El Er.
  assert (zlen k < 256) as Hk256.
  { rewrite Et in Bt. pose proof (path_height _ _ Bt). rewrite <- Et in *. apply balanced_ht in Bt as ?.
    pose proof (proj1 (proj1 (balanced_fill k (TNode b' n l r)) ltac:(by rewrite <- Et))) as B'. apply balanced_ht in B'. lia. }
  pose proof (zlen_nonneg k). wstep. apply wp_set; [lia|]. wstep. eapply wp_load_node; [done|]. cbv zeta. rewrite Z.gtb_ltb.
  change (an_data n) with (elem n). change (an_left n) with (left n). change (an_right n) with (right n). cbn [root_of].
  pose proof Ha as Ha'. rewrite Et in Ha'.
  assert (forall s, step_addr s = b' -> zlen (zupd path (zlen k) (Some (Some b'))) = 256 /\ zlen k + 1 = zlen (s :: k) /\
    stored (zupd path (zlen k) (Some (Some b'))) (entries (s :: k))) as Hpush.
  { intros s Es. rewrite zlen_zupd, zlen_cons. split; [done|]. split; [lia|]. by apply entries_snoc. }
  destruct (Z.ltb_spec (cmp x (elem n)) 0) as [Hlt|].
  { destruct (Hpush (InLeft b' n r) eq_refl) as (P1 & P2 & P3). rewrite El. destruct l as [|b2 n2 l2 r2]; [|simpl; auto 10].
    cbn [root_of]. wstep.
    eapply wp_mono; [apply (wp_avl_hang m1 t (InLeft b' n r) k a x (zupd path (zlen k) (Some (Some b'))) (root_of t)); try done; by eapply placed_left|].
    intros m' Hm'. wstep. by rewrite P2. }
  destruct (Z.ltb_spec 0 (cmp x (elem n))) as [Hgt|].
  { destruct (Hpush (InRight b' n l) eq_refl) as (P1 & P2 & P3). rewrite Er. destruct r as [|b2 n2 l2 r2]; [|simpl; auto 10].
    cbn [root_of]. wstep.
    eapply wp_mono; [apply (wp_avl_hang m1 t (InRight b' n l) k a x (zupd path (zlen k) (Some (Some b'))) (root_of t)); try done; by eapply placed_right|].
    intros m' Hm'. wstep. by rewrite P2. }
  wstep. eapply wp_mono; [apply (wp_avl_replace m1 t k b' n l r a x); try done; lia|].
  intros m2 Hm2. wstep. eapply wp_mono; [exact Hm2|]. intros m3 Hm3. by wstep.
Qed.

(** ** Removal

    The key is at one end of the order: its node has at most one child. *)
Definition outer key (xs : list A) : Prop :=
  (forall y, y ∈ xs -> cmp key y <= 0) \/ (forall y, y ∈ xs -> 0 <= cmp key y) \/ ~ holds_key cmp xs key.

Lemma outer_leaf key k a n l r :
  let t := fill k (TNode a n l r) in
  ascending cmp (elems t) -> outer key (elems t) -> cmp key (elem n) = 0 -> l = TLeaf \/ r = TLeaf.
Proof.
  intros t Ha Ho Hc. assert (elems t = (before k ++ elems l) ++ elem n :: elems r ++ after k) as Ee
    by (unfold t; rewrite elems_fill; simpl; by rewrite <- !app_assoc).
  rewrite Ee in *. apply ascending_app in Ha as (_ & Ha & H1). apply ascending_cons in Ha as [_ H2].
  assert (elem n ∈ (before k ++ elems l) ++ elem n :: elems r ++ after k) as Hin by (apply elem_of_app; right; by left).
  destruct Ho as [Ho|[Ho|Ho]].
  - left. destruct l as [|b d l1 l2]; [done|]. exfalso. assert (elem d ∈ elems (TNode b d l1 l2)) as Hd.
    { simpl. apply elem_of_app. right. by left. }
    assert (cmp (elem d) (elem n) < 0) by (apply H1; [apply elem_of_app; by right|by left]).
    assert (cmp key (elem d) <= 0) by (apply Ho, elem_of_app; left; apply elem_of_app; by right).
    pose proof (cmp_le_lt_trans cmp key (elem d) (elem n)). lia.
  - right. destruct r as [|b d l1 l2]; [done|]. exfalso. assert (elem d ∈ elems (TNode b d l1 l2)) as Hd.
    { simpl. apply elem_of_app. right. by left. }
    assert (cmp (elem n) (elem d) < 0) by (apply H2, elem_of_app; by left).
    assert (0 <= cmp key (elem d)) by (apply Ho, elem_of_app; right; right; apply elem_of_app; by left).
    pose proof (cmp_le_lt_trans cmp key (elem n) (elem d)). lia.
  - exfalso. apply Ho. by exists (elem n).
Qed.

Definition avl_remove_post t key (o : scl_error_t * option (tree_t A) * mem) : Prop :=
  let '(e, s', m') := o in
  exists s1 t', s' = Some s1 /\ avl_of s1 m' t' /\
    (e = SCL_OK /\ removed cmp key (elems t) (elems t') \/
     e = SCL_ERR_NOT_FOUND /\ elems t' = elems t /\ ~ holds_key cmp (elems t) key).

(** Unlinking a node with at most one child, and the way back up. *)
Lemma wp_avl_unlink m t k a n l r path key :
  t = fill k (TNode a n l r) -> planted 2 base m t -> ascending cmp (elems t) -> balanced t ->
  zlen (addrs t) <= PTRDIFF_MAX -> l = TLeaf \/ r = TLeaf -> stored path (entries k) -> cmp key (elem n) = 0 ->
  wp (p ← path_parent path (zlen k);
      '(root, m) ← replace_child m (root_of t) p (Some a) match left n with Some _ => left n | None => right n end;
      m ← free_avl_node m (Some a);
      mret (Some (root, path, zlen k), m))
    (fun '(o, m) => exists root, o = Some (root, path, zlen k) /\
      wp ('(root, m) ← zfor_down (zlen k) (fun i => remove_step path (i - 1)) (root, m);
          mret (SCL_OK, Some (Tree root es (u64 (zlen (addrs t) - 1)) cmp), m)) (avl_remove_post t key)).
Proof.
  intros Et P Ha Bt Hf Hlr Hst Hc. rewrite Et in P, Bt. pose proof (planted_node _ _ _ _ _ _ _ _ P) as (Hn & El & Er).
  set (t' := match l with TLeaf => r | _ => l end).
  assert (match left n with Some _ => left n | None => right n end = root_of t') as -> by (rewrite El, Er; by destruct l).
  assert (l = TLeaf /\ t' = r \/ r = TLeaf /\ t' = l) as Hc'.
  { destruct l; [by left|]. right. by destruct Hlr as [?| ->]. }
  apply balanced_fill in Bt as [(Bl & Br & Hd & Hht) Hk].
  assert (balanced t' /\ an_height n = 1 + ht t') as [Bt' Hht'].
  { destruct Hc' as [[-> ->]|[-> ->]]; (split; [done|]); simpl in Hht;
      [pose proof (balanced_ht _ Br)|pose proof (balanced_ht _ Bl)]; lia. }
  wstep. eapply wp_path_parent; [done|]. wstep. rewrite Et at 1.
  eapply wp_mono; [eapply (wp_splice 2 base free_avl_node m k a n l r t'); [by intros; eapply wp_free_avl|exact P|exact Hc'|]|].
  { intros m' P'. instantiate (1 := fun '(root, m') => planted 2 base m' (fill (relink_path k (root_of t')) t') /\
      root = root_of (fill (relink_path k (root_of t')) t')). by split. }
  intros [root m1] Hw. wstep. eapply wp_mono; [exact Hw|]. intros m2 [P2 ->]. wstep. eexists. split; [done|].
  set (k' := relink_path k (root_of t')) in *.
  assert (zlen (addrs (fill k' t')) = zlen (addrs t) - 1) as Ez.
  { rewrite Et. unfold zlen, k'. rewrite !addrs_fill, path_addrs_relink, !length_app. simpl. rewrite length_app.
    destruct Hc' as [[-> ->]|[-> ->]]; simpl; lia. }
  assert (elems t = (before k ++ elems l) ++ elem n :: elems r ++ after k) as Ee.
  { rewrite Et, elems_fill. simpl. by rewrite <- !app_assoc. }
  assert (elems (fill k' t') = (before k ++ elems l) ++ elems r ++ after k) as Ee'.
  { unfold k'. rewrite elems_fill, before_relink, after_relink, <- app_assoc. destruct Hc' as [[-> ->]|[-> ->]]; done. }
  assert (zlen k = zlen k') as Ek by (unfold k'; by destruct k). rewrite Ek.
  pose proof (zlen_nonneg (addrs (fill k' t'))). wstep.
  eapply (wp_climb base remove_step path k' t' (an_height n)); [intros; by eapply wp_remove_step|..].
  - unfold PTRDIFF_MAX in *. lia.
  - unfold k'. by rewrite entries_relink.
  - exact P2.
  - exact Bt'.
  - unfold k'. by rewrite steady_relink.
  - lia.
  - intros m3 t3 P3 B3 E3 Z3. wstep. unfold PTRDIFF_MAX in *. rewrite u64_small by lia. rewrite <- Ez, <- Z3.
    eexists _, t3. split; [done|]. split.
    + split; [|done]. apply planted_tree; [done| |unfold PTRDIFF_MAX; lia]. rewrite E3, Ee'. rewrite Ee in Ha. by eapply removed_ascending.
    + left. split; [done|]. exists (before k ++ elems l), (elem n), (elems r ++ after k). by rewrite E3, Ee'.
Qed.

Lemma wp_avl_remove s m t key :
  avl_of s m t -> outer key (elems t) -> wp (scl_avl_remove m (Some s) (Some key)) (avl_remove_post t key).
Proof.
  intros [R Bt] Ho. pose proof R as [E1 E2 E3 E4 Hs Hh Ha Hf]. destruct s as [root es' cnt cmp'].
  simpl in E1, E2, E3, E4. subst es' cmp' root cnt. pose proof (zlen_nonneg (addrs t)). unfold scl_avl_remove.
  assert (forall s, (~ holds_key cmp (elems t) key) -> s = Tree (root_of t) es (zlen (addrs t)) cmp ->
    avl_remove_post t key (SCL_ERR_NOT_FOUND, Some s, m)) as Hno.
  { intros s Hn ->. eexists _, t. split; [done|]. split; [by split|]. by right. }
  assert (t = TLeaf \/ exists b, root_of t = Some b) as [->|[b Eb]] by (destruct t; eauto).
  { simpl. apply Hno; [|done]. intros (y & Hy & _). by apply elem_of_nil in Hy. }
  rewrite Eb at 1. cbv iota. pose proof (balanced_bound t Bt Hf) as H126. unfold avl_locate. wstep.
  eapply (wp_walk cmp m t key (fun '(path, len, p) k t' => p = root_of t' /\ len = zlen k /\
    zlen path = 256 /\ stored path (entries k))); [done..|lia| | |].
  { split_and!; try done. apply stored_nil. }
  { intros [[path len] p] k Et Hp (-> & -> & _ & _). simpl. apply Hno; [|done].
    rewrite Et. intros (y & Hy & Hc). by eapply placed_none. }
  intros [[path len] p] k a n l r Et Hp (-> & -> & Hl & Hst) Hn El Er. cbn [root_of].
  assert (zlen k < 256) as Hk256.
  { rewrite Et in Bt. pose proof (path_height _ _ Bt). rewrite <- Et in *.
    pose proof (proj1 (proj1 (balanced_fill k (TNode a n l r)) ltac:(by rewrite <- Et))) as B'. apply balanced_ht in B'. lia. }
  pose proof (zlen_nonneg k). wstep. apply wp_set; [lia|]. wstep. eapply wp_load_node; [done|]. cbv zeta. rewrite Z.gtb_ltb.
  change (an_data n) with (elem n). change (an_left n) with (left n). change (an_right n) with (right n).
  set (path' := zupd path (zlen k) (Some (Some a))).
  assert (forall s, step_addr s = a -> zlen path' = 256 /\ zlen k + 1 = zlen (s :: k) /\ stored path' (entries (s :: k))) as Hpush.
  { intros s Es. unfold path'. rewrite zlen_zupd, zlen_cons. split; [done|]. split; [lia|]. by apply entries_snoc. }
  destruct (Z.ltb_spec (cmp key (elem n)) 0); [wstep; left; split; [done|]; by destruct (Hpush (InLeft a n r) eq_refl) as (?&?&?)|].
  destruct (Z.ltb_spec 0 (cmp key (elem n))); [wstep; right; split; [done|]; by destruct (Hpush (InRight a n l) eq_refl) as (?&?&?)|].
  assert (cmp key (elem n) = 0) as Hc by lia. wstep. wstep. eapply wp_load_node; [done|].
  change (an_left n) with (left n). change (an_right n) with (right n).
  assert (l = TLeaf \/ r = TLeaf) as Hlr by (rewrite Et in Ha, Ho; by eapply outer_leaf).
  assert (forall T (X Y : T), match left n, right n with Some _, Some _ => X | _, _ => Y end = Y) as Hcase.
  { intros. rewrite El, Er. destruct Hlr as [-> | ->]; [done|by destruct (root_of l)]. }
  rewrite Hcase. wstep. eapply wp_mono; [eapply (wp_avl_unlink m t k a n l r path' key); try done|].
  - destruct (Hpush (InLeft a n r) eq_refl) as (_ & _ & Hst'). rewrite entries_cons in Hst'. by apply stored_prefix in Hst' as [? _].
  - intros [o m1] (root & -> & Hw). exact Hw.
Qed.
End Insert.

(** ** The operations as one step function *)
Inductive avl_op (A : Type) : Type :=
| AInsert (element : option A)
| ARemove (key : option A)
| AAsk (q : tree_query A).
Arguments AInsert {A}.
Arguments ARemove {A}.
Arguments AAsk {A}.

Section Step.
Context {A : Type} (al : scl_allocator_t) (cmp : A -> A -> Z).
Notation mem := (mem (scl_avl_node_t A)).

Definition avl_ask (m : mem) (tree : option (tree_t A)) (q : tree_query A) : res (reply A) :=
  match q with
  | QContains key => b ← scl_avl_contains m tree key; mret (Flag b)
  | QFind key out => '(e, x) ← scl_avl_find m tree key out; mret (value_or e x)
  | QMin out => '(e, x) ← scl_avl_min m tree out; mret (value_or e x)
  | QMax out => '(e, x) ← scl_avl_max m tree out; mret (value_or e x)
  | QCount => mret (Size (scl_avl_count tree))
  | QEmpty => mret (Flag (scl_avl_empty tree))
  end.

Definition avl_step (st : option (tree_t A) * mem) (op : avl_op A) : res (reply A * (option (tree_t A) * mem)) :=
  let '(s, m) := st in
  match op with
  | AInsert x => '(e, s, m) ← scl_avl_insert al m s x; mret (Code e, (s, m))
  | ARemove key => '(e, s, m) ← scl_avl_remove m s key; mret (Code e, (s, m))
  | AAsk q => r ← avl_ask m s q; mret (r, (s, m))
  end.

Inductive avl_spec : list A -> avl_op A -> reply A -> list A -> Prop :=
| as_insert xs ys x : inserted cmp x xs ys -> avl_spec xs (AInsert (Some x)) (Code SCL_OK) ys
| as_refused xs x : avl_spec xs (AInsert (Some x)) (Code SCL_ERR_OUT_OF_MEMORY) xs
| as_remove xs ys key : removed cmp key xs ys -> avl_spec xs (ARemove (Some key)) (Code SCL_OK) ys
| as_absent xs key : ~ holds_key cmp xs key -> avl_spec xs (ARemove (Some key)) (Code SCL_ERR_NOT_FOUND) xs
| as_null xs op : op = AInsert None \/ op = ARemove None -> avl_spec xs op (Code SCL_ERR_NULL_PTR) xs
| as_ask xs q r : query_spec cmp xs q r -> avl_spec xs (AAsk q) r xs.

(** A key is removed only from an end of the order. *)
Definition at_ends (xs : list A) (op : avl_op A) : Prop :=
  match op with ARemove (Some key) => outer cmp key xs | _ => True end.

Context `{!Comparator cmp} (es : Z) (base : mem).

Definition avl_rep (st : option (tree_t A) * mem) (xs : list A) : Prop :=
  exists s t, st.1 = Some s /\ avl_of cmp es base s st.2 t /\ elems t = xs.

Lemma avl_simulates st xs op : avl_rep st xs -> at_ends xs op ->
  wp (avl_step st op) (fun '(out, st') => exists ys, avl_spec xs op out ys /\ avl_rep st' ys).
Proof.
  destruct st as [s0 m]. intros (s & t & E & R & <-) Hok. cbn [fst snd] in *. subst s0.
  assert (avl_rep (Some s, m) (elems t)) as R0 by (exists s, t; done).
  destruct op as [[x|]|[key|]|q]; cbn [avl_step];
    try (destruct s; exists (elems t); split; [apply as_null; auto|exact R0]); wstep.
  - eapply wp_mono; [by eapply wp_avl_insert|]. intros [[e s'] m'] (s1 & t' & -> & R' & [[-> Hi]|[-> Et]]); wstep;
      (exists (elems t'); split; [|by exists s1, t']); [by apply as_insert|rewrite Et; constructor].
  - eapply wp_mono; [by eapply wp_avl_remove|]. intros [[e s'] m'] (s1 & t' & -> & R' & [[-> Hi]|(-> & Et & Hn)]); wstep;
      (exists (elems t'); split; [|by exists s1, t']); [by apply as_remove|rewrite Et; by constructor].
  - destruct R as [R B]. eapply wp_mono; [by eapply (wp_ask cmp 2 es base)|]. intros r Hr. wstep.
    exists (elems t). split; [by constructor|exact R0].
Qed.
End Step.

(** C18. The AVL tree refines the ascending list of its elements: every
    sequence of insertions and lookups, and of removals of a key that is
    absent or at an end of the order, runs without an access outside the path
    array or through a dangling pointer and answers as the list does; the
    traversal and the destruction behave as for the plain tree, each node
    being two blocks. *)
Theorem avl_refines {A} (al : scl_allocator_t) `{!AllocatorOk al} (cmp : A -> A -> Z) `{!Comparator cmp}
  (m0 : mem (scl_avl_node_t A)) (s0 : tree_t A) (es : Z) (ops : list (avl_op A))
  (Hes : 1 <= es) (Hops : permitted (avl_spec cmp) (at_ends cmp) [] ops) :
  exists s1, scl_avl_init (Some s0) es (Some cmp) = (SCL_OK, Some s1) /\
  exists outs s2 m2 xs, run (avl_step al) (Some s1, m0) ops = Ok (outs, (Some s2, m2)) /\
    trace (avl_spec cmp) [] ops outs xs /\ ascending cmp xs /\
    (forall U (visit : A -> U -> U) u, exists a, scl_avl_inorder m2 (Some s2) (Some visit) u = Ok a /\
       a = (SCL_OK, visit_all visit xs u)) /\
    (zlen xs <= INT_MAX -> exists r, scl_avl_destroy al m2 (Some s2) = Ok r /\ destroys cmp es m0 s2 m2 xs r).
Proof.
  exists (Tree None es 0 cmp). unfold scl_avl_init, tree_init. destruct (Z.eqb_spec es 0); [lia|]. split; [done|].
  assert (avl_rep cmp es m0 (Some (Tree None es 0 cmp), m0) []) as R.
  { eexists _, TLeaf. split; [done|]. split; [|done]. split; [|done]. split; try done; [apply holds_nil|constructor]. }
  destruct (proj1 (wp_ok _ _) (run_refines_on _ _ _ _ _ [] ops (avl_simulates al cmp es m0) R Hops))
    as ([outs [s m2]] & E & xs & T & s2 & t & Es & [R2 B2] & Ex).
  cbn [fst snd] in *. subst s xs. exists outs, s2, m2, (elems t). split; [done|]. split; [done|]. split; [apply R2|]. split.
  - intros U visit u. apply wp_ok. eapply wp_mono; [by eapply wp_inorder|]. intros a [[-> _]|[Hd _]]; [done|].
    pose proof (balanced_depth t B2). pose proof (balanced_bound t B2 (to_fits _ _ _ _ _ _ _ R2)). lia.
  - intros Hz. apply wp_ok. eapply wp_destroys; try done. intros. by eapply wp_free_avl.
Qed.

Lemma inserted_nil {A} (cmp : A -> A -> Z) x ys : inserted cmp x [] ys -> ys = [x].
Proof.
  intros (l1 & l2 & -> & [[E _]|(y & E & _)]); [|by destruct l1]. symmetry in E. by apply app_eq_nil in E as [-> ->].
Qed.

Lemma avl_refines_witness :
  exists outs xs, trace (avl_spec Zcmp) [] [AInsert (Some 5); ARemove (Some 5); AAsk QCount] outs xs /\ ascending Zcmp xs.
Proof.
  assert (permitted (avl_spec Zcmp) (at_ends Zcmp) [] [AInsert (Some 5); ARemove (Some 5); AAsk QCount]) as Hops.
  { intros ops1 o ops2 outs xs E T. destruct ops1 as [|o1 [|o2 [|o3 [|? ?]]]]; simplify_eq/=; try done.
    inversion T as [|? ? ? ys ? ? ? H1 H2]; subst. inversion H2; subst. clear T H2. left. intros y Hy.
    inversion H1; subst; [|by apply elem_of_nil in Hy|naive_solver..].
    match goal with H : inserted _ _ _ _ |- _ => apply inserted_nil in H; subst end.
    apply list_elem_of_singleton in Hy as ->. by compute. }
  destruct (avl_refines small_allocator Zcmp (Mem (World 0 0) ∅) (Tree None 0 0 Zcmp) 8
    [AInsert (Some 5); ARemove (Some 5); AAsk QCount] ltac:(lia) Hops)
    as (_ & _ & outs & _ & _ & xs & _ & T & Ha & _).
  exists outs, xs. split; [exact T|exact Ha].
Defined.

(** C17. The invariant of the AVL tree: in every state of a balanced tree an
    insertion leaves a balanced tree, whatever the allocator answers, and so
    does the removal of a key that is absent or at an end of the order; the
    tree has a height of at most 126 and no fewer than [2 ^ n - 1] elements
    when its height is at least [2 * n - 1], so no path overflows the array of
    256 nodes. *)
Theorem avl_invariant {A} (al : scl_allocator_t) (cmp : A -> A -> Z) `{!Comparator cmp} (es : Z)
  (base m : mem (scl_avl_node_t A)) (s : tree_t A) (t : tree (scl_avl_node_t A)) (x key : A)
  (R : avl_of cmp es base s m t) :
  (exists e s' m' t', scl_avl_insert al m (Some s) (Some x) = Ok (e, Some s', m') /\ avl_of cmp es base s' m' t') /\
  (outer cmp key (elems t) -> exists e s' m' t',
     scl_avl_remove m (Some s) (Some key) = Ok (e, Some s', m') /\ avl_of cmp es base s' m' t') /\
  ht t <= 126 /\
  (forall n : nat, 2 * Z.of_nat n - 1 <= ht t -> 2 ^ Z.of_nat n <= zlen (elems t) + 1) /\
  (forall k t', t = fill k t' -> zlen k <= 127).
Proof.
  pose proof R as [R' B]. pose proof (to_fits _ _ _ _ _ _ _ R') as Hf. split_and!.
  - destruct (proj1 (wp_ok _ _) (wp_avl_insert al cmp es base s m t x R)) as ([[e s'] m'] & E & s1 & t' & -> & R1 & _).
    by exists e, s1, m', t'.
  - intros Ho. destruct (proj1 (wp_ok _ _) (wp_avl_remove cmp es base s m t key R Ho)) as ([[e s'] m'] & E & s1 & t' & -> & R1 & _).
    by exists e, s1, m', t'.
  - by apply balanced_bound.
  - intros n Hn. rewrite zlen_elems. by apply balanced_size.
  - intros k t' ->. pose proof (path_height _ _ B). pose proof (balanced_bound _ B Hf).
    pose proof (balanced_ht _ (proj1 (proj1 (balanced_fill _ _) B))). lia.
Qed.

Lemma avl_invariant_witness :
  let m := Mem (World 2 2) {[1%positive := ANode 7 None None 0]} in
  exists e s' m', scl_avl_insert small_allocator m (Some (Tree (Some 1%positive) 8 1 Zcmp)) (Some 9) = Ok (e, Some s', m').
Proof.
  intros m. assert (avl_of Zcmp 8 (Mem (World 0 0) ∅) (Tree (Some 1%positive) 8 1 Zcmp) m
    (TNode 1%positive (ANode 7 None None 0) TLeaf TLeaf)) as R.
  { split; [|simpl; lia]. split; try done; [|repeat constructor]. split; try done.
    - apply NoDup_singleton.
    - intros a Ha. apply lookup_singleton_ne. intros <-. apply Ha. by left.
    - intros a ->%list_elem_of_singleton. exists (ANode 7 None None 0). apply lookup_singleton_eq. }
  destruct (avl_invariant small_allocator Zcmp 8 _ m _ _ 9 9 R) as ((e & s' & m' & _ & E & _) & _).
  exists e, s', m'. exact E.
Defined.

(** The removal of a node with two children.  In the tree of the keys 1 to 9,
    removing the root is undefined at once; removing the key 8 returns, but
    leaves a link to the freed successor, which the next lookup follows. *)
Definition avl_after (ops : list (avl_op Z)) : res (list (reply Z) * (option (tree_t Z) * mem (scl_avl_node_t Z))) :=
  run (avl_step small_allocator) (Some (Tree None 8 0 Zcmp), Mem (World 0 0) ∅)
    (map (fun x => AInsert (Some x)) [1; 2; 3; 4; 5; 6; 7; 8; 9] ++ ops).

Lemma avl_remove_dangles :
  (exists outs st, avl_after [ARemove (Some 8)] = Ok (outs, st)) /\
  avl_after [ARemove (Some 8); AAsk (QContains (Some 10))] = UB /\
  avl_after [ARemove (Some 4)] = UB.
Proof. split; [eexists _, _; vm_compute; reflexivity|]. split; vm_compute; reflexivity. Qed.
