(* ===== verification/Stack.v ===== *)
(** The array-backed stack of [libs/structures/stack/scl_stack.c], refined to
    a list whose last element is the top. *)

From S2P Require Import Prelude Core Search Refine Containers.
#[local] Open Scope Z_scope.

Record scl_stack_t (A : Type) : Type := Stack {
  st_data : ptr A;
  st_element_size : Z;
  st_capacity : Z;
  st_count : Z
}.
Arguments Stack {A}.
Arguments st_data {A}.
Arguments st_element_size {A}.
Arguments st_capacity {A}.
Arguments st_count {A}.

Section Defs.
Context {A : Type} (al : scl_allocator_t).
Implicit Types (w : world) (stack : option (scl_stack_t A)).

(** [stack] is the structure to initialise, whatever it holds. *)
Definition scl_stack_init w stack (element_size initial_capacity : Z)
    : scl_error_t * option (scl_stack_t A) * world :=
  match stack with
  | None => (SCL_ERR_NULL_PTR, None, w)
  | Some s =>
      if element_size =? 0 then (SCL_ERR_INVALID_ARG, Some s, w)
      else
        let s := Stack Null element_size 0 0 in
        if initial_capacity >? 0 then
          match scl_mul_overflow initial_capacity element_size with
          | None => (SCL_ERR_SIZE_OVERFLOW, Some s, w)
          | Some bytes =>
              match scl_alloc al w bytes MAX_ALIGN element_size with
              | (None, w) => (SCL_ERR_OUT_OF_MEMORY, Some s, w)
              | (Some b, w) => (SCL_OK, Some (Stack (Ptr b) element_size initial_capacity 0), w)
              end
          end
        else (SCL_OK, Some s, w)
  end.

Definition scl_stack_destroy w stack : res (option (scl_stack_t A) * world) :=
  match stack with
  | None => mret (None, w)
  | Some s =>
      w ← free_ptr w (st_data s);
      mret (Some (Stack Null (st_element_size s) 0 0), w)
  end.

Definition scl_stack_push w stack (element : option A)
    : res (scl_error_t * option (scl_stack_t A) * world) :=
  match stack, element with
  | Some s, Some element =>
      let cnt := st_count s in
      let es := st_element_size s in
      '(err, data, capacity, w) ←
        (if cnt =? st_capacity s then grow al w (st_data s) (st_capacity s) es
         else mret (SCL_OK, st_data s, st_capacity s, w));
      if decide (err = SCL_OK) then
        data ← set_elem data cnt element;
        mret (SCL_OK, Some (Stack data es capacity (u64 (cnt + 1))), w)
      else mret (err, Some (Stack data es capacity cnt), w)
  | _, _ => mret (SCL_ERR_NULL_PTR, stack, w)
  end.

(** [out]: the out-pointer is not [NULL]; the element is what it receives. *)
Definition scl_stack_pop stack (out : bool) : res (scl_error_t * option A * option (scl_stack_t A)) :=
  match stack, out with
  | Some s, true =>
      if st_count s =? 0 then mret (SCL_ERR_EMPTY, None, stack)
      else
        let s := Stack (st_data s) (st_element_size s) (st_capacity s) (u64 (st_count s - 1)) in
        x ← get_elem (st_data s) (st_count s);
        mret (SCL_OK, Some x, Some s)
  | _, _ => mret (SCL_ERR_NULL_PTR, None, stack)
  end.

Definition scl_stack_peek stack (out : bool) : res (scl_error_t * option A) :=
  match stack, out with
  | Some s, true =>
      if st_count s =? 0 then mret (SCL_ERR_EMPTY, None)
      else x ← get_elem (st_data s) (u64 (st_count s - 1)); mret (SCL_OK, Some x)
  | _, _ => mret (SCL_ERR_NULL_PTR, None)
  end.

Definition scl_stack_count stack : Z := match stack with Some s => st_count s | None => 0 end.
Definition scl_stack_empty stack : bool := match stack with Some s => st_count s =? 0 | None => true end.

Definition scl_stack_search stack (key : option A) (cmp : option (A -> A -> Z)) (out_index : bool)
    : res answer :=
  match stack, key, cmp, out_index with
  | Some s, Some key, Some cmp, true =>
      r ← zfor_ret 0 (st_count s)
        (fun i _ =>
           x ← get_elem (st_data s) i;
           if cmp x key =? 0 then mret (inr (SCL_OK, Some i)) else mret (inl tt)) tt;
      mret (match r with inl _ => (SCL_ERR_NOT_FOUND, None) | inr a => a end)
  | _, _, _, _ => mret (SCL_ERR_NULL_PTR, None)
  end.
End Defs.

(** ** The operations as one step function *)
Inductive stack_op (A : Type) : Type :=
| SPush (element : option A)
| SPop (out : bool)
| SPeek (out : bool)
| SCount
| SEmpty
| SSearch (key : option A) (cmp : option (A -> A -> Z)) (out_index : bool).
Arguments SPush {A}.
Arguments SPop {A}.
Arguments SPeek {A}.
Arguments SCount {A}.
Arguments SEmpty {A}.
Arguments SSearch {A}.

Section Step.
Context {A : Type} (al : scl_allocator_t).

Definition stack_step (st : option (scl_stack_t A) * world) (op : stack_op A)
    : res (reply A * (option (scl_stack_t A) * world)) :=
  let '(s, w) := st in
  match op with
  | SPush x => '(e, s, w) ← scl_stack_push al w s x; mret (Code e, (s, w))
  | SPop out => '(e, x, s) ← scl_stack_pop s out; mret (value_or e x, (s, w))
  | SPeek out => '(e, x) ← scl_stack_peek s out; mret (value_or e x, (s, w))
  | SCount => mret (Size (scl_stack_count s), (s, w))
  | SEmpty => mret (Flag (scl_stack_empty s), (s, w))
  | SSearch key cmp out => a ← scl_stack_search s key cmp out; mret (index_or a, (s, w))
  end.

(** ** The abstract stack: a list, the top last.  A push may be refused for
    lack of memory, and then changes nothing. *)
Inductive stack_spec : list A -> stack_op A -> reply A -> list A -> Prop :=
| spec_push l x : stack_spec l (SPush (Some x)) (Code SCL_OK) (l ++ [x])
| spec_push_refused l x e :
    e = SCL_ERR_SIZE_OVERFLOW \/ e = SCL_ERR_OUT_OF_MEMORY ->
    stack_spec l (SPush (Some x)) (Code e) l
| spec_push_null l : stack_spec l (SPush None) (Code SCL_ERR_NULL_PTR) l
| spec_pop l x : stack_spec (l ++ [x]) (SPop true) (Value x) l
| spec_pop_empty : stack_spec [] (SPop true) (Code SCL_ERR_EMPTY) []
| spec_pop_null l : stack_spec l (SPop false) (Code SCL_ERR_NULL_PTR) l
| spec_peek l x : stack_spec (l ++ [x]) (SPeek true) (Value x) (l ++ [x])
| spec_peek_empty : stack_spec [] (SPeek true) (Code SCL_ERR_EMPTY) []
| spec_peek_null l : stack_spec l (SPeek false) (Code SCL_ERR_NULL_PTR) l
| spec_count l : stack_spec l SCount (Size (zlen l)) l
| spec_empty l : stack_spec l SEmpty (Flag (bool_decide (l = []))) l
| spec_search l key cmp a :
    found_first cmp l key a -> stack_spec l (SSearch (Some key) (Some cmp) true) (index_or a) l
| spec_search_null l key cmp out :
    key = None \/ cmp = None \/ out = false ->
    stack_spec l (SSearch key cmp out) (Code SCL_ERR_NULL_PTR) l.

(** ** The refinement *)
Definition stack_rep (es live0 : Z) (st : option (scl_stack_t A) * world) (l : list A) : Prop :=
  exists s, st.1 = Some s /\ st_element_size s = es /\ st_count s = zlen l /\
    owns (st_data s) (st_capacity s) es l /\ w_live st.2 = live0 + held (st_data s).

Context `{!AllocatorOk al}.

Lemma found_first_reply (cmp : A -> A -> Z) l key a :
  found_first cmp l key a -> stack_spec l (SSearch (Some key) (Some cmp) true) (index_or a) l.
Proof. by constructor. Qed.

Lemma wp_push (s : scl_stack_t A) w live0 es l x (Q : scl_error_t * option (scl_stack_t A) * world -> Prop) :
  1 <= es < 2 ^ 64 -> stack_rep es live0 (Some s, w) l ->
  (forall s' w', stack_rep es live0 (s', w') (l ++ [x]) -> Q (SCL_OK, s', w')) ->
  (forall e s' w', e = SCL_ERR_SIZE_OVERFLOW \/ e = SCL_ERR_OUT_OF_MEMORY ->
     stack_rep es live0 (s', w') l -> Q (e, s', w')) ->
  wp (scl_stack_push al w (Some s) (Some x)) Q.
Proof.
  intros Hes (s0 & [= <-] & E1 & E2 & Ho & Hw) HQ1 HQ2. destruct s as [data ses cap cnt]. simpl in *.
  subst ses cnt. pose proof (owns_len _ _ _ _ Ho) as (Hl & Hc & Hc2). specialize (Hc2 ltac:(lia)).
  unfold PTRDIFF_MAX in Hc2. unfold scl_stack_push. simpl.
  assert (forall b cap' w', owns (Ptr b) cap' es l -> zlen l < cap' ->
    w_live w' = live0 + 1 ->
    wp (data ← set_elem (Ptr b) (zlen l) x; mret (SCL_OK, Some (Stack data es cap' (u64 (zlen l + 1))), w'))
       Q) as Hstore.
  { intros b cap' w' Ho' Hlt Hw'. pose proof Ho' as (Eb & H1 & H2 & S).
    wstep. apply wp_set_elem; [lia|]. wstep. apply HQ1. eexists. split; [done|]. split; [done|].
    simpl. rewrite u64_small by lia. split; [by rewrite zlen_app|].
    split; [split; [by rewrite zlen_zupd|split; [done|split; [done|apply stored_snoc; [lia|done]]]]|done]. }
  wstep. destruct (Z.eqb_spec (zlen l) cap) as [Ec|Ec].
  - eapply (wp_grow al); [done|done|done| |].
    + intros b cap' w' Ho' Hlt Hw'. rewrite decide_True by done. apply Hstore; [done|lia|lia].
    + intros e w' He Hw'. rewrite decide_False by (destruct He; congruence). wstep.
      apply HQ2; [done|]. eexists. split; [done|]. simpl. split; [done|]. split; [done|].
      split; [done|lia].
  - wstep. destruct data as [|b|]; [destruct Ho as [-> ->]; done| |done].
    rewrite decide_True by done. apply Hstore; [done|lia|done].
Qed.

#[export] Instance stack_simulates es live0 :
  1 <= es < 2 ^ 64 -> Simulates stack_step stack_spec (stack_rep es live0).
Proof.
  intros Hes [st w] l op (s & Es & E1 & E2 & Ho & Hw). simpl in Es, Hw. subst st.
  assert (stack_rep es live0 (Some s, w) l) as R by (exists s; auto).
  pose proof (owns_len _ _ _ _ Ho) as (Hl & _ & Hc2). specialize (Hc2 ltac:(lia)). unfold PTRDIFF_MAX in Hc2.
  assert (st_count s =? 0 = bool_decide (l = [])) as Eemp.
  { rewrite E2. destruct l; [done|]. rewrite zlen_cons. pose proof (zlen_nonneg l). by bcase; [lia|]. }
  destruct op as [[x|]|[|]|[|]| | |key cmp out]; simpl.
  - wstep. eapply wp_push; [done|done| |].
    + intros s' w' R'. wstep. exists (l ++ [x]). split; [constructor|done].
    + intros e s' w' He R'. wstep. exists l. split; [by constructor|done].
  - exists l. split; [constructor|done].
  - rewrite Eemp. destruct (list_last_case l) as [->|(l' & x & ->)]; simpl.
    { exists []. split; [constructor|done]. }
    rewrite bool_decide_eq_false_2 by by destruct l'. rewrite E2, zlen_app in *. change (zlen [x]) with 1 in *.
    pose proof (zlen_nonneg l'). rewrite u64_small by lia. replace (zlen l' + 1 - 1) with (zlen l') by lia.
    do 2 wstep. eapply owned_get; [done| |].
    { rewrite zlook_app. bcase; [lia|]. by rewrite Z.sub_diag. }
    wstep. wstep. exists l'. split; [constructor|]. eexists. split; [done|]. simpl.
    split; [done|]. split; [done|]. split; [by eapply owns_prefix|done].
  - exists l. split; [constructor|done].
  - rewrite Eemp. destruct (list_last_case l) as [->|(l' & x & ->)]; simpl.
    { exists []. split; [constructor|done]. }
    rewrite bool_decide_eq_false_2 by by destruct l'. rewrite E2, zlen_app in *. change (zlen [x]) with 1 in *.
    pose proof (zlen_nonneg l'). rewrite u64_small by lia. replace (zlen l' + 1 - 1) with (zlen l') by lia.
    do 2 wstep. eapply owned_get; [done| |].
    { rewrite zlook_app. bcase; [lia|]. by rewrite Z.sub_diag. }
    wstep. wstep. exists (l' ++ [x]). split; [constructor|done].
  - exists l. split; [constructor|done].
  - exists l. unfold scl_stack_count. rewrite E2. split; [constructor|done].
  - exists l. unfold scl_stack_empty. rewrite Eemp. split; [constructor|done].
  - destruct key as [key|], cmp as [cmp|], out; try (exists l; split; [constructor; auto|done]).
    wstep. rewrite E2. eapply wp_mono; [apply (wp_search_scan cmp (get_elem (st_data s)))|].
    + intros i x Q Hx HQ. by eapply owned_get.
    + intros a Ha. wstep. exists l. split; [by constructor|done].
Qed.

(** An initialised stack is empty; a failed initialisation owns nothing. *)
Lemma stack_init_spec w s0 es cap :
  1 <= es < 2 ^ 64 -> 0 <= cap < 2 ^ 64 ->
  let '(e, s, w') := scl_stack_init al w (Some s0) es cap in
  (e = SCL_OK /\ stack_rep es (w_live w) (s, w') []) \/
  ((e = SCL_ERR_SIZE_OVERFLOW /\ 2 ^ 64 <= cap * es \/ e = SCL_ERR_OUT_OF_MEMORY /\ 0 < cap) /\
   w_live w' = w_live w /\ s = Some (Stack Null es 0 0)).
Proof.
  intros Hes Hcap. unfold scl_stack_init. destruct (Z.eqb_spec es 0); [lia|].
  destruct (Z.gtb_spec cap 0).
  2:{ left. split; [done|]. eexists. split; [done|]. simpl. split; [done|]. split; [done|].
      split; [done|lia]. }
  rewrite scl_mul_overflow_spec by (unfold is_u64; lia).
  destruct (Z.ltb_spec (cap * es) (2 ^ 64)); [|right; split; [left|]; auto].
  destruct (scl_alloc al w (cap * es) MAX_ALIGN es) as [b w1] eqn:Ea.
  apply (owns_alloc (A := A) al) in Ea as [Hw Ho]; [|lia]. destruct b as [b|]; simpl in Hw.
  - left. split; [done|]. eexists. split; [done|]. split; [done|]. split; [done|]. split; [done|done].
  - right. split; [right; split; [done|lia]|]. split; [lia|done].
Qed.

Lemma stack_destroy_spec s w es live0 l :
  stack_rep es live0 (s, w) l ->
  exists w', scl_stack_destroy w s = Ok (Some (Stack Null es 0 0), w') /\ w_live w' = live0.
Proof.
  intros (s0 & Es & <- & _ & Ho & Hw). simpl in *. subst s. simpl.
  destruct (st_data s0) as [|b|] eqn:Ed; simpl in *; [| |done]; eexists; (split; [done|]); simpl; lia.
Qed.
End Step.

(** The stack refines a list: after a successful initialisation every
    sequence of pushes, pops, peeks and searches, whatever the allocator
    answers and however its size grows, runs without touching memory it does
    not own, answers as the abstract stack does (a push is refused only for
    lack of memory and then changes nothing), and destroying it afterwards
    returns every block it allocated.  A failed initialisation keeps none. *)
Theorem stack_refines {A} (al : scl_allocator_t) (w : world) (s0 : scl_stack_t A) (es cap : Z)
  (ops : list (stack_op A)) (Hal : AllocatorOk al) (Hes : 1 <= es < 2 ^ 64) (Hcap : 0 <= cap < 2 ^ 64) :
  let '(e, s, w1) := scl_stack_init al w (Some s0) es cap in
  (e = SCL_OK /\
   exists outs s2 w2 l w3, run (stack_step al) (s, w1) ops = Ok (outs, (s2, w2)) /\
     trace stack_spec [] ops outs l /\
     scl_stack_destroy w2 s2 = Ok (Some (Stack Null es 0 0), w3) /\ w_live w3 = w_live w) \/
  ((e = SCL_ERR_SIZE_OVERFLOW /\ 2 ^ 64 <= cap * es \/ e = SCL_ERR_OUT_OF_MEMORY /\ 0 < cap) /\
   w_live w1 = w_live w /\ s = Some (Stack Null es 0 0)).
Proof.
  pose proof (stack_init_spec al w s0 es cap Hes Hcap) as H.
  destruct (scl_stack_init al w (Some s0) es cap) as [[e s] w1]. destruct H as [[-> R]|H]; [left|by right].
  split; [done|]. pose proof (stack_simulates (A := A) al es (w_live w) Hes) as Sim.
  destruct (proj1 (wp_ok _ _) (run_refines _ _ _ (s, w1) [] ops R)) as ([outs [s2 w2]] & E & l & T & R2).
  destruct (stack_destroy_spec s2 w2 es (w_live w) l R2) as (w3 & E3 & Hw3).
  by exists outs, s2, w2, l, w3.
Qed.

Lemma stack_refines_witness :
  exists outs l, trace (stack_spec (A := Z)) [] [SPush (Some 1); SPush (Some 2); SPop true] outs l.
Proof.
  destruct (stack_refines small_allocator (World 0 0) (Stack (Null (A := Z)) 0 0 0) 8 2
    [SPush (Some 1); SPush (Some 2); SPop true] _ ltac:(lia) ltac:(lia)) as [(_ & outs & _ & _ & l & _ & _ & T & _)|(H & _)].
  - exists outs, l. exact T.
  - exfalso. vm_compute in H. destruct H as [[H _]|[H _]]; discriminate H.
Defined.
