(* ===== verification/DefaultAllocator.v ===== *)
(** The default allocator of [libs/common/scl_common.c] over the C library's
    [malloc], [posix_memalign] and [realloc]: the contract that the clients
    are proved against, the exact conditions of each answer, and what a
    build-time cap on the size of allocations does to the contract; also the
    string duplicates of [libs/core/scl_string.c]. *)

From S2P Require Import Prelude Core Refine Stack.
#[local] Open Scope Z_scope.

Section Default.
Variables (malloc : nat -> Z -> bool) (posix_memalign : nat -> Z -> Z -> bool)
          (realloc : nat -> Z -> bool) (cap : Z).

(** The library's functions grant no object larger than [PTRDIFF_MAX]. *)
Hypothesis malloc_bound : forall k n, malloc k n = true -> 0 <= n <= PTRDIFF_MAX.
Hypothesis memalign_bound : forall k a n, posix_memalign k a n = true -> 0 <= n <= PTRDIFF_MAX.
Hypothesis realloc_bound : forall k n, realloc k n = true -> 0 <= n <= PTRDIFF_MAX.
Hypothesis cap_u64 : is_u64 cap.

Notation dmalloc := (def_malloc malloc posix_memalign cap).
Notation dcalloc := (def_calloc malloc posix_memalign cap).
Notation drealloc := (def_realloc malloc posix_memalign realloc cap).
Notation default := (scl_allocator_default malloc posix_memalign realloc cap).

(** The library's answer to a request of [n] bytes. *)
Definition library_grants (k : nat) (n align : Z) : bool :=
  if align <=? MAX_ALIGN then malloc k n else posix_memalign k align n.

Lemma library_bound k n align : library_grants k n align = true -> 0 <= n <= PTRDIFF_MAX.
Proof. unfold library_grants. destruct (_ <=? _); eauto. Qed.

Lemma def_malloc_iff k n align :
  is_u64 n ->
  dmalloc k n align = true <-> 0 < n <= cap /\ library_grants k n align = true.
Proof.
  unfold is_u64, def_malloc, def_malloc_fallback, library_grants. intros Hn. rewrite Z.gtb_ltb.
  destruct (Z.eqb_spec n 0); simpl; [intuition (lia || done)|].
  destruct (Z.ltb_spec cap n); [intuition (lia || done)|]. intuition lia.
Qed.

Lemma def_calloc_iff k cnt sz align :
  is_u64 cnt -> is_u64 sz ->
  dcalloc k cnt sz align = true <->
  0 < cnt /\ 0 < sz /\ cnt * sz <= cap /\ library_grants k (cnt * sz) align = true.
Proof.
  intros Hc Hs. pose proof cap_u64. unfold def_calloc. rewrite scl_mul_overflow_spec by done.
  unfold is_u64 in *. destruct (Z.eqb_spec cnt 0); simpl; [intuition (lia || done)|].
  destruct (Z.eqb_spec sz 0); simpl; [intuition (lia || done)|].
  destruct (Z.ltb_spec (cnt * sz) (2 ^ 64)); [|intuition (lia || done)].
  rewrite Z.gtb_ltb. destruct (Z.ltb_spec cap (cnt * sz)); [intuition (lia || done)|].
  rewrite def_malloc_iff by (unfold is_u64; lia). intuition lia.
Qed.

(** The three answers of [def_realloc]. *)
Lemma def_realloc_cases k p old new align :
  is_u64 new ->
  drealloc k p old new align =
    if (new =? 0) || (cap <? new) then Released
    else if (if p && (align <=? MAX_ALIGN) then realloc k new else library_grants k new align)
    then Granted else Refused.
Proof.
  intros Hn. unfold def_realloc. rewrite Z.gtb_ltb.
  destruct (Z.eqb_spec new 0); simpl; [done|]. destruct (Z.ltb_spec cap new); [done|].
  assert (dmalloc k new align = library_grants k new align) as ->.
  { apply eq_true_iff_eq. rewrite def_malloc_iff by done. unfold is_u64 in *. intuition lia. }
  unfold library_grants. by destruct p, (align <=? MAX_ALIGN).
Qed.

Lemma def_realloc_granted k p old new align :
  drealloc k p old new align = Granted ->
  new <> 0 /\ new <= cap /\ 0 <= new <= PTRDIFF_MAX.
Proof.
  unfold def_realloc, def_malloc, def_malloc_fallback. rewrite Z.gtb_ltb.
  destruct (Z.eqb_spec new 0); simpl; [done|]. destruct (Z.ltb_spec cap new); simpl; [done|].
  intros E. split; [done|]. split; [done|].
  unfold granted in E. repeat case_match; eauto; discriminate.
Qed.

(** Without a build-time cap the contract of [AllocatorOk] holds. *)
Lemma default_allocator_ok : cap = SIZE_MAX -> AllocatorOk default.
Proof.
  intros Hcap. split; simpl.
  - intros k n align H. unfold def_malloc, def_malloc_fallback in H. rewrite Z.gtb_ltb in H.
    destruct (Z.eqb_spec n 0); simpl in H; [done|]. destruct (Z.ltb_spec cap n); [done|].
    assert (library_grants k n align = true) as Hl by done. apply library_bound in Hl. lia.
  - intros k cnt sz align Hc Hs H. apply def_calloc_iff in H as (? & ? & ? & Hl); [|done..].
    apply library_bound in Hl. lia.
  - intros k p old new align H. apply def_realloc_granted in H. lia.
  - intros k p old new align H Hn. unfold def_realloc in H. rewrite Z.gtb_ltb, Hcap in H.
    destruct (Z.eqb_spec new 0); [done|]. destruct (Z.ltb_spec SIZE_MAX new); [lia|].
    simpl in H. exfalso. clear - H. unfold granted in H.
    destruct p, (align <=? MAX_ALIGN); simpl in H; by repeat case_match.
Qed.

(** With a smaller cap, a full stack whose doubled size exceeds it loses its
    block: the push reports [SCL_ERR_OUT_OF_MEMORY], the stack keeps a pointer
    to freed memory, and the next push reallocates that. *)
Lemma capped_push_dangles {A} w (b : block A) es n (x y : A) :
  1 <= es -> 0 < n -> cap < n * 2 * es -> n * 2 * es < 2 ^ 64 ->
  exists w', scl_stack_push default w (Some (Stack (Ptr b) es n n)) (Some x) =
               Ok (SCL_ERR_OUT_OF_MEMORY, Some (Stack Dangling es n n), w') /\
             scl_stack_push (A := A) default w' (Some (Stack Dangling es n n)) (Some y) = UB.
Proof.
  intros Hes Hn Hcap Hfit.
  assert (n * 2 < 2 ^ 64) as Hn2 by nia.
  assert (scl_mul_overflow (n * 2) es = Some (n * 2 * es)) as Hmul.
  { rewrite scl_mul_overflow_spec by (unfold is_u64; nia). by destruct (Z.ltb_spec (n * 2 * es) (2 ^ 64)); [|lia]. }
  assert (forall k p old, drealloc k p old (n * 2 * es) MAX_ALIGN = Released) as Hr.
  { intros k p old. rewrite def_realloc_cases by (unfold is_u64; nia).
    destruct (Z.ltb_spec cap (n * 2 * es)); [by rewrite orb_true_r|lia]. }
  exists (World (S (w_reqs w)) (w_live w - 1)).
  unfold scl_stack_push, grow. cbn [st_count st_capacity st_data st_element_size].
  rewrite Z.eqb_refl. destruct (Z.eqb_spec n 0); [lia|]. rewrite (u64_small (n * 2)) by lia.
  rewrite Hmul. unfold scl_realloc. cbn [realloc_fn scl_allocator_default].
  by rewrite Hr.
Qed.
End Default.

(** C34. Over a C library that grants no object larger than [PTRDIFF_MAX], the
    default allocator grants a request exactly when it is not empty, its size
    (for [calloc] the product, overflow included) is within the build-time
    cap and the library grants that size with the function for that
    alignment; [realloc] releases the old block exactly for an empty request
    or one above the cap, and otherwise keeps it when it refuses.  Without a
    cap it satisfies the contract all the containers are proved against; with
    one it does not: a full stack that cannot double within the cap reports
    [SCL_ERR_OUT_OF_MEMORY] with its block freed but still referenced, and the
    next push is undefined. *)
Theorem default_allocator_spec (malloc : nat -> Z -> bool) (posix_memalign : nat -> Z -> Z -> bool)
  (realloc : nat -> Z -> bool) (cap : Z)
  (Hm : forall k n, malloc k n = true -> 0 <= n <= PTRDIFF_MAX)
  (Ha : forall k a n, posix_memalign k a n = true -> 0 <= n <= PTRDIFF_MAX)
  (Hr : forall k n, realloc k n = true -> 0 <= n <= PTRDIFF_MAX) (Hcap : is_u64 cap) :
  let lib k n align := if align <=? MAX_ALIGN then malloc k n else posix_memalign k align n in
  let default := scl_allocator_default malloc posix_memalign realloc cap in
  (forall k n align, is_u64 n ->
     malloc_fn default k n align = true <-> 0 < n <= cap /\ lib k n align = true) /\
  (forall k cnt sz align, is_u64 cnt -> is_u64 sz ->
     calloc_fn default k cnt sz align = true <->
     0 < cnt /\ 0 < sz /\ cnt * sz <= cap /\ lib k (cnt * sz) align = true) /\
  (forall k p old new align, is_u64 new ->
     realloc_fn default k p old new align =
       if (new =? 0) || (cap <? new) then Released
       else if (if p && (align <=? MAX_ALIGN) then realloc k new else lib k new align)
       then Granted else Refused) /\
  (cap = SIZE_MAX -> AllocatorOk default) /\
  (forall w (b : block Z) es n (x y : Z), 1 <= es -> 0 < n -> cap < n * 2 * es < 2 ^ 64 ->
     exists w', scl_stack_push default w (Some (Stack (Ptr b) es n n)) (Some x) =
                  Ok (SCL_ERR_OUT_OF_MEMORY, Some (Stack Dangling es n n), w') /\
                scl_stack_push (A := Z) default w' (Some (Stack Dangling es n n)) (Some y) = UB).
Proof.
  intros lib default. split; [|split; [|split; [|split]]].
  - intros. by apply def_malloc_iff.
  - intros. by apply def_calloc_iff.
  - intros. by apply def_realloc_cases.
  - by apply default_allocator_ok.
  - intros. apply capped_push_dangles; (done || lia).
Qed.

Lemma default_allocator_spec_witness :
  let lib := fun (_ : nat) n => (0 <=? n) && (n <=? 4096) in
  AllocatorOk (scl_allocator_default lib (fun k _ => lib k) lib SIZE_MAX) /\
  realloc_fn (scl_allocator_default lib (fun k _ => lib k) lib SIZE_MAX) 0 true 8 0 8 = Released.
Proof.
  intros lib.
  assert (forall (k : nat) n, lib k n = true -> 0 <= n <= PTRDIFF_MAX) as H.
  { intros k n. unfold lib, PTRDIFF_MAX. rewrite andb_true_iff, !Z.leb_le. lia. }
  destruct (default_allocator_spec lib (fun k _ => lib k) lib SIZE_MAX H (fun k _ => H k) H
    ltac:(unfold is_u64, SIZE_MAX; lia)) as (_ & _ & Hr & Hok & _).
  split; [by apply Hok|]. apply Hr. unfold is_u64. lia.
Defined.

(** ** Duplicates of strings *)
Section Duplicates.
Context (al : scl_allocator_t) (w : world).
Implicit Types (src s : list Z).

Lemma memcpy_cells_all {A} (d : block A) (src l : list A) :
  zlen l <= zlen src -> zlen l <= zlen d -> l = take (length l) src ->
  memcpy_cells d src (zlen l) = Ok ((Some <$> l) ++ drop (length l) d).
Proof.
  intros Hs Hd E. unfold memcpy_cells. pose proof (zlen_nonneg l).
  destruct (Z.leb_spec 0 (zlen l)); [|lia]. destruct (Z.leb_spec (zlen l) (zlen src)); [|lia].
  destruct (Z.leb_spec (zlen l) (zlen d)); [|lia]. simpl. do 2 f_equal; unfold zlen.
  - rewrite Nat2Z.id. by rewrite <- E.
  - by rewrite Nat2Z.id.
Qed.

(** [strnlen] of a string, or of an unterminated array of at least [maxlen]
    bytes, counts the bytes before the terminator up to [maxlen]. *)
Lemma strnlen_spec src s maxlen :
  0 <= maxlen -> (cstr src s \/ src = s /\ (forall i, zlook s i <> Some 0) /\ maxlen <= zlen s) ->
  strnlen src maxlen = Ok (Z.min maxlen (zlen s)).
Proof.
  intros Hm Hs. pose proof (zlen_nonneg s).
  assert (zlen s <= zlen src) as Hle.
  { destruct Hs as [H'%cstr_len|(-> & _)]; lia. }
  assert (wp (strnlen src maxlen) (eq (Z.min maxlen (zlen s)))) as (a & -> & <-)%wp_ok; [|done].
  apply (wp_loop (fun n => 0 <= n <= Z.min maxlen (zlen s)) (fun n => zlen s - n));
    [lia|unfold zlen in *; lia|lia|].
  intros n Hn. destruct (Z.ltb_spec n maxlen); [|wstep; lia].
  assert (forall c, zlook src n = Some c -> c = 0 /\ n = zlen s \/ c <> 0 /\ n < zlen s) as Hc.
  { intros c Hc. destruct Hs as [(rest & -> & Hz)|(-> & Hz & _)].
    - rewrite zlook_app, zlook_cons in Hc. destruct (Z.ltb_spec n (zlen s)).
      + right. split; [intros ->; by eapply Hz|done].
      + left. destruct (Z.eqb_spec (n - zlen s) 0); [|lia]. split; [congruence|lia].
    - right. split; [intros ->; by eapply Hz|]. apply zlook_Some in Hc. lia. }
  wstep. apply wp_get.
  { destruct Hs as [H'%cstr_len|(-> & _ & ?)]; lia. }
  intros c E. destruct (Hc c E) as [[-> ->]|[Hc0 Hn']]; [simpl; lia|].
  destruct (Z.eqb_spec c 0); [done|]. simpl. lia.
Qed.

Lemma strdup_spec src s :
  cstr src s -> zlen src <= PTRDIFF_MAX ->
  scl_strdup al w (Some src) =
    Ok (if malloc_fn al (w_reqs w) (zlen s + 1) MAX_ALIGN
        then (Some (Some <$> (s ++ [0])), World (S (w_reqs w)) (w_live w + 1))
        else (None, World (S (w_reqs w)) (w_live w))).
Proof.
  intros Hs Hfit. pose proof (cstr_len _ _ Hs). pose proof (zlen_nonneg s). unfold PTRDIFF_MAX in Hfit.
  unfold scl_strdup. rewrite (strlen_spec _ _ Hs), bind_Ok.
  rewrite scl_add_overflow_spec by (unfold is_u64; lia). destruct (Z.ltb_spec (zlen s + 1) (2 ^ 64)); [|lia].
  unfold scl_alloc. destruct (malloc_fn _ _ _ _); [|done].
  assert (zlen s + 1 = zlen (s ++ [0])) as E by (by rewrite zlen_app).
  rewrite E. rewrite memcpy_cells_all.
  - rewrite bind_Ok. do 4 f_equal. rewrite drop_ge, app_nil_r; [done|].
    unfold fresh_cells. rewrite length_replicate, Z.div_1_r. unfold zlen. lia.
  - lia.
  - unfold fresh_cells. rewrite zlen_replicate, Z.div_1_r. lia.
  - destruct Hs as (rest & -> & _). rewrite (app_assoc s [0] rest : s ++ 0 :: rest = _).
    by rewrite take_app_length.
Qed.

Lemma strndup_spec src s maxlen :
  is_u64 maxlen -> zlen src <= PTRDIFF_MAX ->
  (cstr src s \/ src = s /\ (forall i, zlook s i <> Some 0) /\ maxlen <= zlen s) ->
  scl_strndup al w (Some src) maxlen =
    Ok (if malloc_fn al (w_reqs w) (Z.min maxlen (zlen s) + 1) MAX_ALIGN
        then (Some (Some <$> (take (Z.to_nat (Z.min maxlen (zlen s))) s ++ [0])), World (S (w_reqs w)) (w_live w + 1))
        else (None, World (S (w_reqs w)) (w_live w))).
Proof.
  intros Hm Hfit Hs. pose proof (zlen_nonneg s). unfold is_u64, PTRDIFF_MAX in *.
  assert (zlen s <= zlen src /\ take (length s) src = s) as [Hle Ht].
  { destruct Hs as [H'|(-> & _)]; [|by rewrite firstn_all].
    pose proof (cstr_len _ _ H'). split; [lia|]. destruct H' as (rest & -> & _). by rewrite take_app_length. }
  unfold scl_strndup. rewrite (strnlen_spec src s) by (done || lia). rewrite bind_Ok.
  set (cut := take (Z.to_nat (Z.min maxlen (zlen s))) s).
  assert (Z.min maxlen (zlen s) = zlen cut) as E by (unfold cut, zlen in *; rewrite length_take; lia).
  rewrite E. assert (zlen cut <= zlen s) by lia. pose proof (zlen_nonneg cut).
  rewrite scl_add_overflow_spec by (unfold is_u64; lia). destruct (Z.ltb_spec (zlen cut + 1) (2 ^ 64)); [|lia].
  unfold scl_alloc. destruct (malloc_fn _ _ _ _); [|done].
  assert (drop (length cut) (fresh_cells (zlen cut + 1) 1 (@None Z)) = [None]) as Ed.
  { unfold fresh_cells. rewrite Z.div_1_r, drop_replicate. unfold zlen.
    by replace (Z.to_nat _ - _)%nat with 1%nat by lia. }
  rewrite memcpy_cells_all.
  - rewrite Ed, bind_Ok. unfold set. rewrite zlen_app, zlen_map. change (zlen [None]) with 1.
    destruct (Z.leb_spec 0 (zlen cut)); [|lia]. destruct (Z.ltb_spec (zlen cut) (zlen cut + 1)); [|lia].
    simpl. do 4 f_equal. rewrite fmap_app. unfold zupd.
    destruct (Z.leb_spec 0 (zlen cut)); [|lia].
    replace (Z.to_nat (zlen cut)) with (length (Some <$> cut) + 0)%nat
      by (rewrite length_fmap; unfold zlen; lia). by rewrite insert_app_r.
  - lia.
  - unfold fresh_cells. rewrite zlen_replicate, Z.div_1_r. lia.
  - assert (length cut <= length s)%nat as Hc by (unfold zlen in *; lia).
    replace cut with (take (length cut) s) at 1
      by (unfold cut; rewrite length_take, <- take_take; f_equal; apply firstn_all).
    rewrite <- Ht at 1. rewrite take_take. f_equal. lia.
Qed.
End Duplicates.

(** [scl_strlen] is the length of the string and 0 for [NULL];
    [scl_strdup] returns a fresh block holding exactly the string with its
    terminator, so reading the duplicate back gives the string; [scl_strndup]
    one holding its first [maxlen] bytes terminated, and reads at most
    [maxlen] bytes of an unterminated array.  [NULL] and a refused allocation
    give [NULL] and allocate nothing. *)
Theorem string_duplicates (al : scl_allocator_t) (w : world) (src s : list Z) (maxlen : Z)
  (Hs : cstr src s) (Hfit : zlen src <= PTRDIFF_MAX) (Hm : is_u64 maxlen) :
  let refused := World (S (w_reqs w)) (w_live w) in
  let granted := World (S (w_reqs w)) (w_live w + 1) in
  let k := Z.min maxlen (zlen s) in
  let cut := take (Z.to_nat k) s in
  scl_strlen (Some src) = Ok (zlen s) /\ scl_strlen None = Ok 0 /\
  scl_strdup al w (Some src) =
    Ok (if malloc_fn al (w_reqs w) (zlen s + 1) MAX_ALIGN
        then (Some (Some <$> (s ++ [0])), granted) else (None, refused)) /\
  cstr (s ++ [0]) s /\
  scl_strndup al w (Some src) maxlen =
    Ok (if malloc_fn al (w_reqs w) (k + 1) MAX_ALIGN
        then (Some (Some <$> (cut ++ [0])), granted) else (None, refused)) /\
  (maxlen <= zlen s -> scl_strndup al w (Some s) maxlen = scl_strndup al w (Some src) maxlen) /\
  scl_strdup al w None = Ok (None, w) /\ scl_strndup al w None maxlen = Ok (None, w).
Proof.
  pose proof (cstr_len _ _ Hs). pose proof (zlen_nonneg s). intros refused granted k cut.
  split; [by apply strlen_spec|]. split; [done|]. split; [by apply strdup_spec|].
  split. { exists []. split; [done|]. by destruct Hs as (_ & _ & ?). }
  split; [apply strndup_spec; auto|]. split; [|done].
  intros Hle. rewrite (strndup_spec al w src s) by auto. apply strndup_spec; [done|lia|].
  right. split; [done|]. split; [by destruct Hs as (_ & _ & ?)|done].
Qed.

Lemma string_duplicates_witness :
  scl_strdup small_allocator (World 0 0) (Some [104; 105; 0; 9]) =
    Ok (Some [Some 104; Some 105; Some 0], World 1 1) /\
  scl_strndup small_allocator (World 0 0) (Some [104; 105; 0; 9]) 1 =
    Ok (Some [Some 104; Some 0], World 1 1).
Proof.
  assert (cstr [104; 105; 0; 9] [104; 105]) as Hs.
  { exists [9]. split; [done|]. intros i Hi. apply zlook_elem in Hi.
    rewrite !elem_of_cons, elem_of_nil in Hi. lia. }
  destruct (string_duplicates small_allocator (World 0 0) _ _ 1 Hs
    ltac:(vm_compute; discriminate) ltac:(unfold is_u64; lia)) as (_ & _ & E1 & _ & E2 & _).
  split; [exact E1|exact E2].
Defined.
