(* ===== verification/Ring.v ===== *)
(** Circular storage: a list in the cells [(head + i) & mask] of a block whose
    capacity is a power of two.  Shared by the ring buffer, the queue and the
    deque. *)

From S2P Require Import Prelude Core Search Refine Containers.
#[local] Open Scope Z_scope.

(** Masking with [2^k - 1] is the remainder. *)
Lemma land_mask k x : 0 <= k -> Z.land x (2 ^ k - 1) = x mod 2 ^ k.
Proof. intros Hk. rewrite <- Z.land_ones, Z.ones_equiv by done. f_equal. Qed.

(** A wrapped index masks to the same cell: a power of two below [2^64]
    divides [2^64]. *)
Lemma u64_mod_pow k x : 0 <= k <= 64 -> u64 x mod 2 ^ k = x mod 2 ^ k.
Proof.
  intros Hk. unfold u64. replace 64 with (k + (64 - k)) by lia. rewrite Z.pow_add_r by lia.
  pose proof (Z.pow_pos_nonneg 2 k). pose proof (Z.pow_pos_nonneg 2 (64 - k)).
  rewrite Z.rem_mul_r, Z.mul_comm, Z.mod_add, Z.mod_mod by lia. done.
Qed.

Lemma land_mask_u64 k x : 0 <= k <= 64 -> Z.land (u64 x) (2 ^ k - 1) = x mod 2 ^ k.
Proof. intros Hk. rewrite land_mask by lia. by apply u64_mod_pow. Qed.

Lemma mod_shift_inj cap a i j :
  0 <= i < cap -> 0 <= j < cap -> (a + i) mod cap = (a + j) mod cap -> i = j.
Proof.
  intros Hi Hj E. assert ((i - j) mod cap = 0) as E0.
  { replace (i - j) with ((a + i) - (a + j)) by lia. by rewrite Zminus_mod, E, Z.sub_diag. }
  apply Z.mod_divide in E0; [|lia]. destruct E0 as [c E0].
  assert (c = 0) by nia. lia.
Qed.

Section Ring.
Context {A : Type}.
Implicit Types (b : block A) (l : list A) (x : A).

Definition ring b (cap head : Z) l : Prop :=
  zlen b = cap /\ 0 <= head < cap /\ zlen l <= cap /\
  forall i x, zlook l i = Some x -> zlook b ((head + i) mod cap) = Some (Some x).

Lemma ring_stored b l : 0 < zlen b -> stored b l -> ring b (zlen b) 0 l.
Proof.
  intros Hb H. pose proof (stored_len _ _ H). split; [done|]. split; [lia|]. split; [done|].
  intros i x Hx. pose proof (zlook_Some _ _ _ Hx). rewrite Z.mod_small by lia. by apply H.
Qed.

Lemma ring_get b cap head l i x :
  ring b cap head l -> zlook l i = Some x -> zlook b ((head + i) mod cap) = Some (Some x).
Proof. intros (_ & _ & _ & H). apply H. Qed.

Lemma ring_push_back b cap head l x :
  ring b cap head l -> zlen l < cap ->
  ring (zupd b ((head + zlen l) mod cap) (Some x)) cap head (l ++ [x]).
Proof.
  intros (Hb & Hh & Hl & H) Hlt. pose proof (zlen_nonneg l).
  pose proof (Z.mod_pos_bound (head + zlen l) cap ltac:(lia)).
  split; [by rewrite zlen_zupd|]. split; [done|]. split; [rewrite zlen_app; change (zlen [x]) with 1; lia|].
  intros i y Hy. rewrite zlook_app in Hy. destruct (Z.ltb_spec i (zlen l)).
  - pose proof (zlook_Some _ _ _ Hy). rewrite zlook_zupd_ne; [by apply H|].
    intros E. apply mod_shift_inj in E; lia.
  - rewrite zlook_cons, zlook_nil in Hy. destruct (Z.eqb_spec (i - zlen l) 0); [|done].
    assert (i = zlen l) as -> by lia. rewrite zlook_zupd_eq by lia. by simplify_eq.
Qed.

Lemma ring_pop_front b cap head x l :
  ring b cap head (x :: l) -> zlook b head = Some (Some x) /\ ring b cap ((head + 1) mod cap) l.
Proof.
  intros (Hb & Hh & Hl & H). rewrite zlen_cons in Hl. pose proof (zlen_nonneg l). split.
  - rewrite <- (Z.mod_small head cap), <- (Z.add_0_r head) by lia. apply H. by rewrite zlook_cons.
  - split; [done|]. split; [apply Z.mod_pos_bound; lia|]. split; [lia|]. intros i y Hy.
    pose proof (zlook_Some _ _ _ Hy). rewrite Z.add_mod_idemp_l by lia.
    replace (head + 1 + i) with (head + (i + 1)) by lia. apply H. rewrite zlook_cons.
    bcase; [lia|]. by replace (i + 1 - 1) with i by lia.
Qed.

Lemma ring_push_front b cap head l x :
  ring b cap head l -> zlen l < cap ->
  ring (zupd b ((head - 1) mod cap) (Some x)) cap ((head - 1) mod cap) (x :: l).
Proof.
  intros (Hb & Hh & Hl & H) Hlt. pose proof (zlen_nonneg l).
  pose proof (Z.mod_pos_bound (head - 1) cap ltac:(lia)).
  split; [by rewrite zlen_zupd|]. split; [done|]. split; [rewrite zlen_cons; lia|].
  intros i y Hy. pose proof (zlook_Some _ _ _ Hy) as Hi. rewrite zlen_cons in Hi.
  rewrite zlook_cons in Hy. rewrite Z.add_mod_idemp_l by lia. destruct (Z.eqb_spec i 0) as [->|].
  - rewrite Z.add_0_r, zlook_zupd_eq by lia. by simplify_eq.
  - replace (head - 1 + i) with (head + (i - 1)) by lia. rewrite zlook_zupd_ne; [by apply H|].
    intros E. replace (head - 1) with (head - 1 + 0) in E by lia.
    replace (head + (i - 1)) with (head - 1 + i) in E by lia. apply mod_shift_inj in E; lia.
Qed.

Lemma ring_pop_back b cap head l x :
  ring b cap head (l ++ [x]) ->
  zlook b ((head + zlen l) mod cap) = Some (Some x) /\ ring b cap head l.
Proof.
  intros (Hb & Hh & Hl & H). rewrite zlen_app in Hl. change (zlen [x]) with 1 in Hl. split.
  - apply H. rewrite zlook_app. bcase; [lia|]. by rewrite Z.sub_diag.
  - split; [done|]. split; [done|]. split; [lia|]. intros i y Hy. apply H. rewrite zlook_app.
    pose proof (zlook_Some _ _ _ Hy). bcase; [done|lia].
Qed.

(** Overwriting the oldest element of a full ring. *)
Lemma ring_overwrite b cap head y l x :
  ring b cap head (y :: l) -> zlen (y :: l) = cap ->
  ring (zupd b head (Some x)) cap ((head + 1) mod cap) (l ++ [x]).
Proof.
  intros H E. rewrite zlen_cons in E. pose proof (ring_pop_front _ _ _ _ _ H) as [_ H2].
  assert (((head + 1) mod cap + zlen l) mod cap = head) as Eh.
  { destruct H as (_ & Hh & _). rewrite Z.add_mod_idemp_l by lia.
    replace (head + 1 + zlen l) with (head + 1 * cap) by lia.
    rewrite Z.mod_add by lia. apply Z.mod_small. lia. }
  rewrite <- Eh at 1. apply ring_push_back; [done|lia].
Qed.
End Ring.

(** ** The structure fields

    A queue or deque without a block has capacity 0. *)
Definition ring_owned {A} (p : ptr A) (cap mask head es : Z) (l : list A) : Prop :=
  match p with
  | Null => cap = 0 /\ l = []
  | Ptr b => exists k, 0 <= k < 64 /\ cap = 2 ^ k /\ mask = cap - 1 /\ cap * es <= PTRDIFF_MAX /\
               ring b cap head l
  | Dangling => False
  end.

(** The search functions of the ring-based containers. *)
Definition ring_search {A} (data : ptr A) (head mask count : Z) (key : A) (cmp : A -> A -> Z)
    : res (scl_error_t * option Z) :=
  r ← zfor_ret 0 count
    (fun i _ =>
       x ← get_elem data (Z.land (u64 (head + i)) mask);
       if cmp x key =? 0 then mret (inr (SCL_OK, Some i)) else mret (inl tt)) tt;
  mret (match r with inl _ => (SCL_ERR_NOT_FOUND, None) | inr a => a end).

(** The steps on the structure fields. *)
Section Owned.
Context {A : Type}.
Implicit Types (p : ptr A) (l : list A) (x : A).

Lemma ring_owned_len p cap mask head es l :
  1 <= es -> ring_owned p cap mask head es l -> 0 <= zlen l <= cap /\ cap <= PTRDIFF_MAX.
Proof.
  intros Hes H. pose proof (zlen_nonneg l). unfold PTRDIFF_MAX in *.
  destruct p as [|b|]; [destruct H as [-> ->]; split; [done|lia]| |done].
  destruct H as (k & Hk & -> & -> & Hm & _ & _ & Hl & _). unfold PTRDIFF_MAX in Hm.
  pose proof (Z.pow_pos_nonneg 2 k). nia.
Qed.

Lemma wp_ring_get p cap mask head es l i x (Q : A -> Prop) :
  ring_owned p cap mask head es l -> zlook l i = Some x -> Q x ->
  wp (get_elem p (Z.land (u64 (head + i)) mask)) Q.
Proof.
  intros H Hx HQ. destruct p as [|b|]; [destruct H as [_ ->]; by rewrite zlook_nil in Hx| |done].
  destruct H as (k & Hk & -> & -> & _ & R). rewrite land_mask_u64 by lia.
  eapply wp_get_elem; [by eapply ring_get|done].
Qed.

(** The first cell, by its own index. *)
Lemma wp_ring_first p cap mask head es l x (Q : A -> Prop) :
  ring_owned p cap mask head es (x :: l) -> Q x -> wp (get_elem p head) Q.
Proof.
  intros H HQ. destruct p as [|b|]; [by destruct H| |done]. destruct H as (k & Hk & -> & -> & _ & R).
  apply ring_pop_front in R as [E _]. by eapply wp_get_elem.
Qed.

Lemma wp_ring_push_back p cap mask head es l x (Q : ptr A -> Prop) :
  ring_owned p cap mask head es l -> zlen l < cap ->
  (forall p', ring_owned p' cap mask head es (l ++ [x]) -> held p' = held p -> Q p') ->
  wp (set_elem p (Z.land (u64 (head + zlen l)) mask) x) Q.
Proof.
  intros H Hl HQ. destruct p as [|b|]; [destruct H as [-> ->]; done| |done].
  destruct H as (k & Hk & -> & -> & Hm & R). rewrite land_mask_u64 by lia. pose proof R as (Eb & _).
  pose proof (Z.mod_pos_bound (head + zlen l) (2 ^ k) ltac:(lia)).
  apply wp_set_elem; [lia|]. apply HQ; [|done]. exists k. repeat (split; [done|]). by apply ring_push_back.
Qed.

Lemma wp_ring_push_front p cap mask head es l x (Q : ptr A -> Prop) :
  ring_owned p cap mask head es l -> zlen l < cap ->
  (forall p', ring_owned p' cap mask (Z.land (u64 (head - 1)) mask) es (x :: l) ->
     held p' = held p -> Q p') ->
  wp (set_elem p (Z.land (u64 (head - 1)) mask) x) Q.
Proof.
  intros H Hl HQ. destruct p as [|b|]; [destruct H as [-> ->]; done| |done].
  destruct H as (k & Hk & -> & -> & Hm & R). rewrite land_mask_u64 in HQ |- * by lia. pose proof R as (Eb & _).
  pose proof (Z.mod_pos_bound (head - 1) (2 ^ k) ltac:(lia)).
  apply wp_set_elem; [lia|]. apply HQ; [|done]. exists k. repeat (split; [done|]). by apply ring_push_front.
Qed.

Lemma wp_ring_overwrite p cap mask head es y l x (Q : ptr A -> Prop) :
  ring_owned p cap mask head es (y :: l) -> zlen (y :: l) = cap ->
  (forall p', ring_owned p' cap mask (Z.land (u64 (head + 1)) mask) es (l ++ [x]) ->
     held p' = held p -> Q p') ->
  wp (set_elem p head x) Q.
Proof.
  intros H Hl HQ. destruct p as [|b|]; [by destruct H| |done].
  destruct H as (k & Hk & -> & -> & Hm & R). rewrite land_mask_u64 in HQ by lia. pose proof R as (Eb & Hh & _).
  apply wp_set_elem; [lia|]. apply HQ; [|done]. exists k. repeat (split; [done|]).
  by eapply ring_overwrite.
Qed.

Lemma ring_owned_pop_front p cap mask head es x l :
  ring_owned p cap mask head es (x :: l) ->
  ring_owned p cap mask (Z.land (u64 (head + 1)) mask) es l.
Proof.
  intros H. destruct p as [|b|]; [by destruct H| |done]. destruct H as (k & Hk & -> & -> & Hm & R).
  rewrite land_mask_u64 by lia. exists k. repeat (split; [done|]). by apply ring_pop_front in R as [_ R].
Qed.

Lemma ring_owned_pop_back p cap mask head es l x :
  ring_owned p cap mask head es (l ++ [x]) -> ring_owned p cap mask head es l.
Proof.
  intros H. destruct p as [|b|]; [by destruct H as [_ ?%app_nil]; naive_solver| |done].
  destruct H as (k & Hk & -> & -> & Hm & R). exists k. repeat (split; [done|]).
  by apply ring_pop_back in R as [_ R].
Qed.

(** The scan of the search functions. *)
Lemma wp_ring_search p cap mask head es l key cmp :
  ring_owned p cap mask head es l ->
  wp (ring_search p head mask (zlen l) key cmp) (found_first cmp l key).
Proof.
  intros H. apply (wp_search_scan cmp (fun i => get_elem p (Z.land (u64 (head + i)) mask))).
  intros i x Q Hx HQ. by eapply wp_ring_get.
Qed.

Lemma ring_owned_alloc (al : scl_allocator_t) `{!AllocatorOk al} w k es b w' :
  1 <= es -> 0 <= k < 64 -> scl_alloc al w (2 ^ k * es) MAX_ALIGN es = (Some b, w') ->
  w_live w' = w_live w + 1 /\ ring_owned (Ptr b) (2 ^ k) (2 ^ k - 1) 0 es (@nil A).
Proof.
  intros Hes Hk E. apply (owns_alloc (A := A) al) in E as [Hw (E & H0 & Hm & S)]; [|lia].
  split; [done|]. exists k. repeat (split; [done|]). rewrite <- E. apply ring_stored; [lia|done].
Qed.
End Owned.

Section Growth.
Context {A : Type} (al : scl_allocator_t).
Implicit Types (w : world) (l : list A) (data : ptr A).

(** The copy of a full ring to the start of a larger block. *)
Definition grow_ring w data (capacity mask head count es : Z) : res (scl_error_t * ptr A * Z * world) :=
  let new_cap := if capacity =? 0 then 4 else u64 (capacity * 2) in
  match scl_mul_overflow new_cap es with
  | None => mret (SCL_ERR_SIZE_OVERFLOW, data, capacity, w)
  | Some new_bytes =>
      match scl_alloc al w new_bytes MAX_ALIGN es with
      | (None, w) => mret (SCL_ERR_OUT_OF_MEMORY, data, capacity, w)
      | (Some tmp, w) =>
          tmp ← zfor 0 count
            (fun i tmp =>
               x ← get_elem data (Z.land (u64 (head + i)) mask);
               set tmp i (Some x)) tmp;
          w ← free_ptr w data;
          mret (SCL_OK, Ptr tmp, new_cap, w)
      end
  end.

Context `{!AllocatorOk al}.

Lemma wp_grow_ring w data cap mask head es l (Q : scl_error_t * ptr A * Z * world -> Prop) :
  1 <= es < 2 ^ 64 -> ring_owned data cap mask head es l -> zlen l = cap ->
  (forall b cap' w', ring_owned (Ptr b) cap' (u64 (cap' - 1)) 0 es l -> cap < cap' ->
     w_live w' = w_live w + 1 - held data -> Q (SCL_OK, Ptr b, cap', w')) ->
  (forall e w', e = SCL_ERR_SIZE_OVERFLOW \/ e = SCL_ERR_OUT_OF_MEMORY -> w_live w' = w_live w ->
     Q (e, data, cap, w')) ->
  wp (grow_ring w data cap mask head (zlen l) es) Q.
Proof.
  intros Hes H Hl HQ1 HQ2. pose proof (ring_owned_len data cap mask head es l ltac:(lia) H) as [Hlen Hcap].
  unfold PTRDIFF_MAX in Hcap. unfold grow_ring. cbv zeta. set (n := if cap =? 0 then 4 else _).
  assert (exists k, 0 <= k < 64 /\ n = 2 ^ k) as (k & Hk & Hn).
  { subst n. destruct data as [|b|]; [destruct H as [-> _]; by exists 2| |done].
    destruct H as (k & Hk & -> & _). pose proof (Z.pow_pos_nonneg 2 k). bcase; [lia|].
    exists (k + 1). rewrite Z.pow_add_r, u64_small by lia. split; [|done].
    enough (k < 63) by lia. apply (Z.pow_lt_mono_r_iff 2); lia. }
  assert (cap < n < 2 ^ 64) as Hlt by (unfold n; bcase; [lia|rewrite u64_small by lia; lia]). clearbody n.
  rewrite scl_mul_overflow_spec by (unfold is_u64; lia).
  destruct (Z.ltb_spec (n * es) (2 ^ 64)); [|wstep; apply HQ2; auto].
  destruct (scl_alloc al w (n * es) MAX_ALIGN es) as [tmp w1] eqn:Ea.
  eapply (owns_alloc (A := A) al) in Ea as [Hw Ho]; [|lia]. destruct tmp as [tmp|]; simpl in Hw.
  2:{ wstep. apply HQ2; [auto|lia]. }
  destruct Ho as (Et & _ & Hm & _). wstep.
  apply (wp_zfor (fun i t => zlen t = n /\ stored t (take (Z.to_nat i) l))).
  - split; [done|]. rewrite take_0. apply stored_nil.
  - intros i t Hi [Ht S]. destruct (zlook_lt l i ltac:(lia)) as [x Hx]. wstep.
    eapply wp_ring_get; [done..|]. apply wp_set; [lia|]. split; [by rewrite zlen_zupd|].
    assert (take (Z.to_nat (i + 1)) l = take (Z.to_nat i) l ++ [x]) as ->.
    { replace (Z.to_nat (i + 1)) with (Datatypes.S (Z.to_nat i)) by lia. apply take_S_r.
      unfold zlook in Hx. by destruct (0 <=? i). }
    assert (zlen (take (Z.to_nat i) l) = i) as E by (rewrite zlen_take by lia; lia).
    pose proof (stored_snoc t (take (Z.to_nat i) l) x ltac:(lia) S) as S2. by rewrite E in S2.
  - intros t [Ht S]. rewrite Z.max_r, take_ge in S by (unfold zlen in *; lia). wstep.
    assert (wp (free_ptr w1 data) (fun w' => w_live w' = w_live w1 - held data)) as Hf.
    { destruct data as [|b|]; [| |by destruct H]; simpl; lia. }
    eapply wp_mono; [exact Hf|]. intros w2 Hw2. wstep. simpl in Hw2. apply HQ1; [|lia|lia].
    exists k. split; [done|]. split; [done|]. split; [apply u64_small; lia|]. split; [done|].
    rewrite <- Ht. apply ring_stored; [lia|done].
Qed.
End Growth.
