(* ===== verification/RingBuf.v ===== *)
(** The fixed-capacity ring buffer of [libs/structures/ringbuf/scl_ringbuf.c],
    which refuses or overwrites when full, refined to a bounded list. *)

From S2P Require Import Prelude Core Search Refine Containers Ring.
#[local] Open Scope Z_scope.

Record scl_ringbuf_t (A : Type) : Type := RingBuf {
  rb_data : ptr A;
  rb_element_size : Z;
  rb_capacity : Z;
  rb_mask : Z;
  rb_head : Z;
  rb_count : Z;
  rb_overwrite : bool
}.
Arguments RingBuf {A}.
Arguments rb_data {A}.
Arguments rb_element_size {A}.
Arguments rb_capacity {A}.
Arguments rb_mask {A}.
Arguments rb_head {A}.
Arguments rb_count {A}.
Arguments rb_overwrite {A}.

Section Defs.
Context {A : Type} (al : scl_allocator_t).
Implicit Types (w : world) (rb : option (scl_ringbuf_t A)).

(** A refused initialisation leaves the fields as they were, the data pointer
    apart once an allocation was attempted. *)
Definition scl_ringbuf_init w rb (element_size capacity : Z) (overwrite : bool)
    : scl_error_t * option (scl_ringbuf_t A) * world :=
  match rb with
  | None => (SCL_ERR_NULL_PTR, None, w)
  | Some r =>
      if (element_size =? 0) || (capacity =? 0) then (SCL_ERR_INVALID_ARG, Some r, w)
      else
        let cap := scl_bit_ceil_sz capacity in
        match scl_mul_overflow cap element_size with
        | None => (SCL_ERR_SIZE_OVERFLOW, Some r, w)
        | Some bytes =>
            match scl_alloc al w bytes MAX_ALIGN element_size with
            | (None, w) =>
                (SCL_ERR_OUT_OF_MEMORY,
                 Some (RingBuf Null (rb_element_size r) (rb_capacity r) (rb_mask r) (rb_head r)
                         (rb_count r) (rb_overwrite r)), w)
            | (Some b, w) =>
                (SCL_OK, Some (RingBuf (Ptr b) element_size cap (u64 (cap - 1)) 0 0 overwrite), w)
            end
        end
  end.

Definition scl_ringbuf_destroy w rb : res (option (scl_ringbuf_t A) * world) :=
  match rb with
  | None => mret (None, w)
  | Some r =>
      w ← free_ptr w (rb_data r);
      mret (Some (RingBuf Null (rb_element_size r) 0 (rb_mask r) (rb_head r) 0 (rb_overwrite r)), w)
  end.

Definition scl_ringbuf_push rb (element : option A) : res (scl_error_t * option (scl_ringbuf_t A)) :=
  match rb, element with
  | Some (RingBuf data es cap mask head cnt overwrite), Some element =>
      if cnt =? cap then
        if negb overwrite then mret (SCL_ERR_FULL, rb)
        else
          data ← set_elem data head element;
          mret (SCL_OK, Some (RingBuf data es cap mask (Z.land (u64 (head + 1)) mask) cnt overwrite))
      else
        let tail := Z.land (u64 (head + cnt)) mask in
        data ← set_elem data tail element;
        mret (SCL_OK, Some (RingBuf data es cap mask head (u64 (cnt + 1)) overwrite))
  | _, _ => mret (SCL_ERR_NULL_PTR, rb)
  end.

Definition scl_ringbuf_pop rb (out : bool) : res (scl_error_t * option A * option (scl_ringbuf_t A)) :=
  match rb, out with
  | Some (RingBuf data es cap mask head cnt overwrite), true =>
      if cnt =? 0 then mret (SCL_ERR_EMPTY, None, rb)
      else
        x ← get_elem data head;
        mret (SCL_OK, Some x,
              Some (RingBuf data es cap mask (Z.land (u64 (head + 1)) mask) (u64 (cnt - 1)) overwrite))
  | _, _ => mret (SCL_ERR_NULL_PTR, None, rb)
  end.

Definition scl_ringbuf_peek rb (index : Z) (out : bool) : res (scl_error_t * option A) :=
  match rb, out with
  | Some r, true =>
      if index >=? rb_count r then mret (SCL_ERR_INVALID_INDEX, None)
      else
        x ← get_elem (rb_data r) (Z.land (u64 (rb_head r + index)) (rb_mask r));
        mret (SCL_OK, Some x)
  | _, _ => mret (SCL_ERR_NULL_PTR, None)
  end.

Definition scl_ringbuf_count rb : Z := match rb with Some r => rb_count r | None => 0 end.
Definition scl_ringbuf_capacity rb : Z := match rb with Some r => rb_capacity r | None => 0 end.
Definition scl_ringbuf_empty rb : bool := match rb with Some r => rb_count r =? 0 | None => true end.
Definition scl_ringbuf_full rb : bool :=
  match rb with Some r => rb_count r =? rb_capacity r | None => false end.

Definition scl_ringbuf_search rb (key : option A) (cmp : option (A -> A -> Z)) (out_index : bool)
    : res answer :=
  match rb, key, cmp, out_index with
  | Some r, Some key, Some cmp, true =>
      ring_search (rb_data r) (rb_head r) (rb_mask r) (rb_count r) key cmp
  | _, _, _, _ => mret (SCL_ERR_NULL_PTR, None)
  end.
End Defs.

(** ** The operations as one step function

    An index argument is converted to [size_t]. *)
Inductive ringbuf_op (A : Type) : Type :=
| RPush (element : option A)
| RPop (out : bool)
| RPeek (index : Z) (out : bool)
| RCount
| RCapacity
| REmpty
| RFull
| RSearch (key : option A) (cmp : option (A -> A -> Z)) (out_index : bool).
Arguments RPush {A}.
Arguments RPop {A}.
Arguments RPeek {A}.
Arguments RCount {A}.
Arguments RCapacity {A}.
Arguments REmpty {A}.
Arguments RFull {A}.
Arguments RSearch {A}.

Section Step.
Context {A : Type}.

Definition ringbuf_step (rb : option (scl_ringbuf_t A)) (op : ringbuf_op A)
    : res (reply A * option (scl_ringbuf_t A)) :=
  match op with
  | RPush x => '(e, rb) ← scl_ringbuf_push rb x; mret (Code e, rb)
  | RPop out => '(e, x, rb) ← scl_ringbuf_pop rb out; mret (value_or e x, rb)
  | RPeek i out => '(e, x) ← scl_ringbuf_peek rb (u64 i) out; mret (value_or e x, rb)
  | RCount => mret (Size (scl_ringbuf_count rb), rb)
  | RCapacity => mret (Size (scl_ringbuf_capacity rb), rb)
  | REmpty => mret (Flag (scl_ringbuf_empty rb), rb)
  | RFull => mret (Flag (scl_ringbuf_full rb), rb)
  | RSearch key cmp out => a ← scl_ringbuf_search rb key cmp out; mret (index_or a, rb)
  end.

(** ** The abstract ring buffer: a list of at most [cap] elements, the oldest
    first; a push on a full buffer is refused or drops the oldest. *)
Inductive ringbuf_spec (cap : Z) (ow : bool) : list A -> ringbuf_op A -> reply A -> list A -> Prop :=
| spec_rpush l x : zlen l < cap -> ringbuf_spec cap ow l (RPush (Some x)) (Code SCL_OK) (l ++ [x])
| spec_rpush_full l x :
    zlen l = cap -> ow = false -> ringbuf_spec cap ow l (RPush (Some x)) (Code SCL_ERR_FULL) l
| spec_rpush_overwrite y l x :
    zlen (y :: l) = cap -> ow = true ->
    ringbuf_spec cap ow (y :: l) (RPush (Some x)) (Code SCL_OK) (l ++ [x])
| spec_rpush_null l : ringbuf_spec cap ow l (RPush None) (Code SCL_ERR_NULL_PTR) l
| spec_rpop x l : ringbuf_spec cap ow (x :: l) (RPop true) (Value x) l
| spec_rpop_empty : ringbuf_spec cap ow [] (RPop true) (Code SCL_ERR_EMPTY) []
| spec_rpop_null l : ringbuf_spec cap ow l (RPop false) (Code SCL_ERR_NULL_PTR) l
| spec_rpeek l i x : zlook l (u64 i) = Some x -> ringbuf_spec cap ow l (RPeek i true) (Value x) l
| spec_rpeek_out l i :
    zlen l <= u64 i -> ringbuf_spec cap ow l (RPeek i true) (Code SCL_ERR_INVALID_INDEX) l
| spec_rpeek_null l i : ringbuf_spec cap ow l (RPeek i false) (Code SCL_ERR_NULL_PTR) l
| spec_rcount l : ringbuf_spec cap ow l RCount (Size (zlen l)) l
| spec_rcapacity l : ringbuf_spec cap ow l RCapacity (Size cap) l
| spec_rempty l : ringbuf_spec cap ow l REmpty (Flag (bool_decide (l = []))) l
| spec_rfull l : ringbuf_spec cap ow l RFull (Flag (zlen l =? cap)) l
| spec_rsearch l key cmp a :
    found_first cmp l key a -> ringbuf_spec cap ow l (RSearch (Some key) (Some cmp) true) (index_or a) l
| spec_rsearch_null l key cmp out :
    key = None \/ cmp = None \/ out = false ->
    ringbuf_spec cap ow l (RSearch key cmp out) (Code SCL_ERR_NULL_PTR) l.

(** ** The refinement *)
Definition ringbuf_rep (es cap : Z) (ow : bool) (rb : option (scl_ringbuf_t A)) (l : list A) : Prop :=
  exists b k, rb = Some (RingBuf (Ptr b) es cap (cap - 1) k (zlen l) ow) /\
    ring_owned (Ptr b) cap (cap - 1) k es l.

#[export] Instance ringbuf_simulates es cap ow :
  1 <= es -> Simulates ringbuf_step (ringbuf_spec cap ow) (ringbuf_rep es cap ow).
Proof.
  intros Hes rb l op (b & h & -> & Ho).
  assert (forall p h' c l', held p = 1 -> c = zlen l' -> ring_owned p cap (cap - 1) h' es l' ->
    ringbuf_rep es cap ow (Some (RingBuf p es cap (cap - 1) h' c ow)) l') as Hrep.
  { intros [|b'|] h' c l' Hh -> Ho'; [done| |done]. by exists b', h'. }
  pose proof (Hrep (Ptr b) h _ l eq_refl eq_refl Ho) as R. pose proof (zlen_nonneg l).
  pose proof (ring_owned_len (Ptr b) _ _ _ es l Hes Ho) as [Hl Hc]. unfold PTRDIFF_MAX in Hc.
  assert (zlen l =? 0 = bool_decide (l = [])) as Eemp.
  { destruct l as [|x l]; [done|]. rewrite zlen_cons in *. pose proof (zlen_nonneg l). by bcase; [lia|]. }
  assert (forall n, n = 0 \/ zlen l <= n <= zlen l + 1 -> u64 n = n) as Hu by (intros; apply u64_small; lia).
  destruct op as [[x|]|[|]|i [|]| | | | |key cmp out]; simpl.
  - destruct (Z.eqb_spec (zlen l) cap) as [E|E].
    + destruct ow; cbn [negb]; [|exists l; split; [by constructor|done]].
      destruct l as [|y l]; [destruct Ho as (k & ? & -> & _); unfold zlen in E; simpl in E; lia|].
      do 2 wstep. eapply (wp_ring_overwrite (Ptr b)); [done|done|]. intros p' Ho' Hh. wstep. wstep.
      exists (l ++ [x]). split; [by constructor|]. apply Hrep; [done| |done].
      rewrite zlen_app, zlen_cons. done.
    + do 2 wstep. eapply (wp_ring_push_back (Ptr b)); [done|lia|]. intros p' Ho' Hh. wstep. wstep.
      exists (l ++ [x]). split; [constructor; lia|]. apply Hrep; [done| |done].
      rewrite zlen_app, Hu; [done|lia].
  - exists l. split; [constructor|done].
  - rewrite Eemp. destruct l as [|x l]; simpl; [exists []; split; [constructor|done]|].
    do 2 wstep. eapply (wp_ring_first (Ptr b)); [done|]. wstep. wstep. exists l. split; [constructor|].
    apply Hrep; [done| |by eapply ring_owned_pop_front]. rewrite zlen_cons in *.
    pose proof (zlen_nonneg l). rewrite u64_small; lia.
  - exists l. split; [constructor|done].
  - pose proof (u64_range i). rewrite Z.geb_leb.
    destruct (Z.leb_spec (zlen l) (u64 i)); [exists l; split; [by constructor|done]|].
    destruct (zlook_lt l (u64 i) ltac:(lia)) as [x Hx]. do 2 wstep.
    eapply (wp_ring_get (Ptr b)); [done..|]. wstep. wstep.
    exists l. split; [by constructor|done].
  - exists l. split; [constructor|done].
  - exists l. split; [constructor|done].
  - exists l. split; [constructor|done].
  - rewrite Eemp. exists l. split; [constructor|done].
  - exists l. split; [constructor|done].
  - destruct key as [key|], cmp as [cmp|], out; try (exists l; split; [constructor; auto|done]).
    wstep. eapply wp_mono; [by eapply wp_ring_search|].
    intros a Ha. wstep. exists l. split; [by constructor|done].
Qed.
End Step.

(** An initialised buffer is empty and its capacity is the next power of two. *)
Lemma ringbuf_init_spec {A} al `{!AllocatorOk al} w (r : scl_ringbuf_t A) es cap ow :
  1 <= es < 2 ^ 64 -> 0 < cap < 2 ^ 64 ->
  let '(e, rb, w') := scl_ringbuf_init al w (Some r) es cap ow in
  (e = SCL_OK /\ w_live w' = w_live w + 1 /\
   ringbuf_rep es (2 ^ Z.log2_up cap) ow rb []) \/
  ((e = SCL_ERR_SIZE_OVERFLOW \/ e = SCL_ERR_OUT_OF_MEMORY) /\ w_live w' = w_live w).
Proof.
  intros Hes Hcap. unfold scl_ringbuf_init. destruct (Z.eqb_spec es 0); [lia|].
  destruct (Z.eqb_spec cap 0); [lia|]. simpl.
  assert (is_u64 (scl_bit_ceil_sz cap)) as Hu.
  { unfold is_u64. destruct (bit_ceil_sz_pow cap ltac:(lia)) as [->|(k & Hk & -> & _)]; [lia|].
    split; [lia|]. apply Z.pow_lt_mono_r; lia. }
  rewrite scl_mul_overflow_spec by (done || unfold is_u64; lia).
  destruct (Z.ltb_spec (scl_bit_ceil_sz cap * es) (2 ^ 64)); [|right; auto].
  destruct (scl_alloc al w _ MAX_ALIGN es) as [[b|] w1] eqn:Ea.
  2:{ right. apply (owns_alloc (A := A) al) in Ea as [Hw _]; [|lia]. simpl in Hw. split; [auto|lia]. }
  left. split; [done|]. rewrite bit_ceil_sz_spec in * by lia. destruct (Z.leb_spec cap (2 ^ 63)).
  2:{ apply (owns_alloc (A := A) al) in Ea as [_ (_ & ? & _)]; lia. }
  assert (0 <= Z.log2_up cap < 64) as Hk.
  { pose proof (Z.log2_up_nonneg cap). enough (Z.log2_up cap <= 63) by lia. apply Z.log2_up_le_pow2; lia. }
  apply (ring_owned_alloc (A := A) al) in Ea as [Hw Ho]; [|lia|done]. split; [lia|].
  pose proof (Z.pow_pos_nonneg 2 (Z.log2_up cap)). unfold is_u64 in Hu.
  rewrite u64_small by lia. by eexists b, 0.
Qed.

(** The replies for a [NULL] buffer. *)
Definition ringbuf_null_reply {A} (op : ringbuf_op A) : reply A :=
  match op with
  | RCount | RCapacity => Size 0
  | REmpty => Flag true
  | RFull => Flag false
  | _ => Code SCL_ERR_NULL_PTR
  end.

(** The ring buffer refines a bounded list: a buffer of requested capacity
    [cap] holds up to the next power of two of elements, the oldest first; a
    push on a full buffer is refused, or replaces the oldest element in
    overwrite mode; every sequence of operations runs without stray accesses
    and answers as the abstract buffer does; destroying it returns its block
    and a failed initialisation keeps none. *)
Theorem ringbuf_refines {A} (al : scl_allocator_t) (w : world) (r : scl_ringbuf_t A) (es cap : Z)
  (ow : bool) (ops : list (ringbuf_op A)) (Hal : AllocatorOk al)
  (Hes : 1 <= es < 2 ^ 64) (Hcap : 0 < cap < 2 ^ 64) :
  (let '(e, rb, w1) := scl_ringbuf_init al w (Some r) es cap ow in
   (e = SCL_OK /\
    exists outs rb2 l rb3 w3, run ringbuf_step rb ops = Ok (outs, rb2) /\
      trace (ringbuf_spec (2 ^ Z.log2_up cap) ow) [] ops outs l /\ zlen l <= 2 ^ Z.log2_up cap /\
      scl_ringbuf_destroy w1 rb2 = Ok (rb3, w3) /\ w_live w3 = w_live w) \/
   ((e = SCL_ERR_SIZE_OVERFLOW \/ e = SCL_ERR_OUT_OF_MEMORY) /\ w_live w1 = w_live w)) /\
  (forall op, ringbuf_step None op = Ok (ringbuf_null_reply (A := A) op, None)).
Proof.
  split; [|by intros []].
  pose proof (ringbuf_init_spec al w r es cap ow Hes Hcap) as H.
  destruct (scl_ringbuf_init al w (Some r) es cap ow) as [[e rb] w1].
  destruct H as [(-> & Hw & R)|H]; [left|by right]. split; [done|].
  pose proof (ringbuf_simulates (A := A) es (2 ^ Z.log2_up cap) ow ltac:(lia)) as Sim.
  destruct (proj1 (wp_ok _ _) (run_refines _ _ _ rb [] ops R)) as ([outs rb2] & E & l & T & R2).
  destruct R2 as (b & h & -> & Ho). exists outs. eexists _, l, _, _. split; [done|]. split; [done|].
  split; [by apply (ring_owned_len (Ptr b) _ _ _ es l ltac:(lia) Ho)|]. split; [done|]. simpl. lia.
Qed.

Lemma ringbuf_refines_witness :
  exists outs l, trace (ringbuf_spec (A := Z) 2 true) [] [RPush (Some 1); RPush (Some 2); RPush (Some 3); RPop true] outs l.
Proof.
  destruct (ringbuf_refines small_allocator (World 0 0) (RingBuf (Null (A := Z)) 0 0 0 0 0 false) 8 2 true
    [RPush (Some 1); RPush (Some 2); RPush (Some 3); RPop true] _ ltac:(lia) ltac:(lia))
    as [[(_ & outs & _ & l & _ & _ & _ & T & _)|(H & _)] _].
  - exists outs, l. exact T.
  - exfalso. vm_compute in H. destruct H as [H|H]; discriminate H.
Defined.
