(* ===== verification/Queue.v ===== *)
(** The growable circular queue of [libs/structures/queue/scl_queue.c],
    refined to a list whose head is the oldest element. *)

From S2P Require Import Prelude Core Search Refine Containers Ring.
#[local] Open Scope Z_scope.

Record scl_queue_t (A : Type) : Type := Queue {
  q_data : ptr A;
  q_element_size : Z;
  q_capacity : Z;
  q_mask : Z;
  q_head : Z;
  q_tail : Z;
  q_count : Z
}.
Arguments Queue {A}.
Arguments q_data {A}.
Arguments q_element_size {A}.
Arguments q_capacity {A}.
Arguments q_mask {A}.
Arguments q_head {A}.
Arguments q_tail {A}.
Arguments q_count {A}.

Section Defs.
Context {A : Type} (al : scl_allocator_t).
Implicit Types (w : world) (queue : option (scl_queue_t A)).

Definition scl_queue_init w queue (element_size initial_capacity : Z)
    : scl_error_t * option (scl_queue_t A) * world :=
  match queue with
  | None => (SCL_ERR_NULL_PTR, None, w)
  | Some q =>
      if element_size =? 0 then (SCL_ERR_INVALID_ARG, Some q, w)
      else
        let q := Queue Null element_size 0 0 0 0 0 in
        if initial_capacity >? 0 then
          let cap := scl_bit_ceil_sz initial_capacity in
          match scl_mul_overflow cap element_size with
          | None => (SCL_ERR_SIZE_OVERFLOW, Some q, w)
          | Some bytes =>
              match scl_alloc al w bytes MAX_ALIGN element_size with
              | (None, w) => (SCL_ERR_OUT_OF_MEMORY, Some q, w)
              | (Some b, w) => (SCL_OK, Some (Queue (Ptr b) element_size cap (cap - 1) 0 0 0), w)
              end
          end
        else (SCL_OK, Some q, w)
  end.

(** The mask is left as it was. *)
Definition scl_queue_destroy w queue : res (option (scl_queue_t A) * world) :=
  match queue with
  | None => mret (None, w)
  | Some q =>
      w ← free_ptr w (q_data q);
      mret (Some (Queue Null (q_element_size q) 0 (q_mask q) 0 0 0), w)
  end.

Definition scl_queue_enqueue w queue (element : option A)
    : res (scl_error_t * option (scl_queue_t A) * world) :=
  match queue, element with
  | Some q, Some element =>
      let cnt := q_count q in
      let cap := q_capacity q in
      let es := q_element_size q in
      '(err, q, w) ←
        (if cnt =? cap then
           '(err, data, new_cap, w) ← grow_ring al w (q_data q) cap (q_mask q) (q_head q) cnt es;
           mret (err, if decide (err = SCL_OK) then Queue data es new_cap (u64 (new_cap - 1)) 0 cnt cnt else q, w)
         else mret (SCL_OK, q, w));
      if decide (err = SCL_OK) then
        data ← set_elem (q_data q) (q_tail q) element;
        mret (SCL_OK, Some (Queue data es (q_capacity q) (q_mask q) (q_head q)
                              (Z.land (u64 (q_tail q + 1)) (q_mask q)) (u64 (cnt + 1))), w)
      else mret (err, Some q, w)
  | _, _ => mret (SCL_ERR_NULL_PTR, queue, w)
  end.

Definition scl_queue_dequeue queue (out : bool) : res (scl_error_t * option A * option (scl_queue_t A)) :=
  match queue, out with
  | Some q, true =>
      if q_count q =? 0 then mret (SCL_ERR_EMPTY, None, queue)
      else
        x ← get_elem (q_data q) (q_head q);
        mret (SCL_OK, Some x,
              Some (Queue (q_data q) (q_element_size q) (q_capacity q) (q_mask q)
                     (Z.land (u64 (q_head q + 1)) (q_mask q)) (q_tail q) (u64 (q_count q - 1))))
  | _, _ => mret (SCL_ERR_NULL_PTR, None, queue)
  end.

Definition scl_queue_peek queue (out : bool) : res (scl_error_t * option A) :=
  match queue, out with
  | Some q, true =>
      if q_count q =? 0 then mret (SCL_ERR_EMPTY, None)
      else x ← get_elem (q_data q) (q_head q); mret (SCL_OK, Some x)
  | _, _ => mret (SCL_ERR_NULL_PTR, None)
  end.

Definition scl_queue_count queue : Z := match queue with Some q => q_count q | None => 0 end.
Definition scl_queue_empty queue : bool := match queue with Some q => q_count q =? 0 | None => true end.

Definition scl_queue_search queue (key : option A) (cmp : option (A -> A -> Z)) (out_index : bool)
    : res answer :=
  match queue, key, cmp, out_index with
  | Some q, Some key, Some cmp, true => ring_search (q_data q) (q_head q) (q_mask q) (q_count q) key cmp
  | _, _, _, _ => mret (SCL_ERR_NULL_PTR, None)
  end.
End Defs.

(** ** The operations as one step function *)
Inductive queue_op (A : Type) : Type :=
| QEnqueue (element : option A)
| QDequeue (out : bool)
| QPeek (out : bool)
| QCount
| QEmpty
| QSearch (key : option A) (cmp : option (A -> A -> Z)) (out_index : bool).
Arguments QEnqueue {A}.
Arguments QDequeue {A}.
Arguments QPeek {A}.
Arguments QCount {A}.
Arguments QEmpty {A}.
Arguments QSearch {A}.

Section Step.
Context {A : Type} (al : scl_allocator_t).

Definition queue_step (st : option (scl_queue_t A) * world) (op : queue_op A)
    : res (reply A * (option (scl_queue_t A) * world)) :=
  let '(q, w) := st in
  match op with
  | QEnqueue x => '(e, q, w) ← scl_queue_enqueue al w q x; mret (Code e, (q, w))
  | QDequeue out => '(e, x, q) ← scl_queue_dequeue q out; mret (value_or e x, (q, w))
  | QPeek out => '(e, x) ← scl_queue_peek q out; mret (value_or e x, (q, w))
  | QCount => mret (Size (scl_queue_count q), (q, w))
  | QEmpty => mret (Flag (scl_queue_empty q), (q, w))
  | QSearch key cmp out => a ← scl_queue_search q key cmp out; mret (index_or a, (q, w))
  end.

(** ** The abstract queue: a list, the oldest element first. *)
Inductive queue_spec : list A -> queue_op A -> reply A -> list A -> Prop :=
| spec_enqueue l x : queue_spec l (QEnqueue (Some x)) (Code SCL_OK) (l ++ [x])
| spec_enqueue_refused l x e :
    e = SCL_ERR_SIZE_OVERFLOW \/ e = SCL_ERR_OUT_OF_MEMORY ->
    queue_spec l (QEnqueue (Some x)) (Code e) l
| spec_enqueue_null l : queue_spec l (QEnqueue None) (Code SCL_ERR_NULL_PTR) l
| spec_dequeue x l : queue_spec (x :: l) (QDequeue true) (Value x) l
| spec_dequeue_empty : queue_spec [] (QDequeue true) (Code SCL_ERR_EMPTY) []
| spec_dequeue_null l : queue_spec l (QDequeue false) (Code SCL_ERR_NULL_PTR) l
| spec_qpeek x l : queue_spec (x :: l) (QPeek true) (Value x) (x :: l)
| spec_qpeek_empty : queue_spec [] (QPeek true) (Code SCL_ERR_EMPTY) []
| spec_qpeek_null l : queue_spec l (QPeek false) (Code SCL_ERR_NULL_PTR) l
| spec_qcount l : queue_spec l QCount (Size (zlen l)) l
| spec_qempty l : queue_spec l QEmpty (Flag (bool_decide (l = []))) l
| spec_qsearch l key cmp a :
    found_first cmp l key a -> queue_spec l (QSearch (Some key) (Some cmp) true) (index_or a) l
| spec_qsearch_null l key cmp out :
    key = None \/ cmp = None \/ out = false ->
    queue_spec l (QSearch key cmp out) (Code SCL_ERR_NULL_PTR) l.

(** ** The refinement

    The tail is the cell after the last element. *)
Definition queue_rep (es live0 : Z) (st : option (scl_queue_t A) * world) (l : list A) : Prop :=
  exists q, st.1 = Some q /\ q_element_size q = es /\ q_count q = zlen l /\
    ring_owned (q_data q) (q_capacity q) (q_mask q) (q_head q) es l /\
    (0 < q_capacity q -> q_tail q = Z.land (u64 (q_head q + zlen l)) (q_mask q)) /\
    w_live st.2 = live0 + held (q_data q).

Context `{!AllocatorOk al}.

Lemma wp_enqueue (q : scl_queue_t A) w live0 es l x (Q : scl_error_t * option (scl_queue_t A) * world -> Prop) :
  1 <= es < 2 ^ 64 -> queue_rep es live0 (Some q, w) l ->
  (forall q' w', queue_rep es live0 (q', w') (l ++ [x]) -> Q (SCL_OK, q', w')) ->
  (forall e q' w', e = SCL_ERR_SIZE_OVERFLOW \/ e = SCL_ERR_OUT_OF_MEMORY ->
     queue_rep es live0 (q', w') l -> Q (e, q', w')) ->
  wp (scl_queue_enqueue al w (Some q) (Some x)) Q.
Proof.
  intros Hes (q0 & [= <-] & E1 & E2 & Ho & Ht & Hw) HQ1 HQ2.
  destruct q as [data qes cap mask head tail cnt]. simpl in *. subst qes cnt.
  pose proof (ring_owned_len data cap mask head es l ltac:(lia) Ho) as [Hl Hc]. unfold PTRDIFF_MAX in Hc.
  assert (forall p c m h t w', ring_owned p c m h es l -> zlen l < c ->
    t = Z.land (u64 (h + zlen l)) m -> w_live w' = live0 + held p ->
    wp (data ← set_elem p t x;
        mret (SCL_OK, Some (Queue data es c m h (Z.land (u64 (t + 1)) m) (u64 (zlen l + 1))), w')) Q) as Hstore.
  { intros p c m h t w' Ho' Hlt -> Hw'. wstep. eapply wp_ring_push_back; [done|done|].
    intros p' Ho2 Hh. wstep. apply HQ1. eexists. split; [done|]. split; [done|]. simpl.
    pose proof (ring_owned_len p' c m h es _ ltac:(lia) Ho2) as [Hl2 Hc2]. rewrite zlen_app in Hl2 |- *.
    unfold PTRDIFF_MAX in Hc2. change (zlen [x]) with 1 in *. rewrite u64_small by lia.
    split; [done|]. split; [done|]. split; [intros _|lia].
    destruct p' as [|b|]; [destruct Ho2 as [_ ?%app_nil]; naive_solver| |done].
    destruct Ho2 as (k & Hk & -> & -> & _). rewrite !land_mask_u64, Z.add_mod_idemp_l by lia.
    f_equal. lia. }
  unfold scl_queue_enqueue. simpl. wstep. destruct (Z.eqb_spec (zlen l) cap) as [Ec|Ec].
  - wstep. eapply (wp_grow_ring al); [done|done|done| |].
    + intros b cap' w' Ho' Hlt Hw'. wstep. rewrite !decide_True by done. 
      apply (Hstore (Ptr b) cap' (u64 (cap' - 1)) 0 (zlen l) w'); [done|lia| |simpl; lia]. destruct Ho' as (k & Hk & -> & -> & _).
      rewrite land_mask_u64, Z.mod_small by lia. done.
    + intros e w' He Hw'. wstep. rewrite !decide_False by (destruct He; congruence). wstep.
      apply HQ2; [done|]. eexists. split; [done|]. simpl. repeat (split; [done|]). lia.
  - wstep. rewrite decide_True by done. simpl. apply Hstore; [done|lia| |lia]. apply Ht. lia.
Qed.

#[export] Instance queue_simulates es live0 :
  1 <= es < 2 ^ 64 -> Simulates queue_step queue_spec (queue_rep es live0).
Proof.
  intros Hes [st w] l op (q & Es & E1 & E2 & Ho & Ht & Hw). simpl in Es, Hw. subst st.
  assert (queue_rep es live0 (Some q, w) l) as R
    by (exists q; by repeat (split; [done|])).
  pose proof (ring_owned_len (q_data q) _ _ _ es l ltac:(lia) Ho) as [Hl Hc]. unfold PTRDIFF_MAX in Hc.
  assert (q_count q =? 0 = bool_decide (l = [])) as Eemp.
  { rewrite E2. destruct l; [done|]. rewrite zlen_cons. pose proof (zlen_nonneg l). by bcase; [lia|]. }
  destruct op as [[x|]|[|]|[|]| | |key cmp out]; simpl.
  - wstep. eapply wp_enqueue; [done|done| |].
    + intros q' w' R'. wstep. exists (l ++ [x]). split; [constructor|done].
    + intros e q' w' He R'. wstep. exists l. split; [by constructor|done].
  - exists l. split; [constructor|done].
  - rewrite Eemp. destruct l as [|x l]; simpl; [exists []; split; [constructor|done]|].
    do 2 wstep. eapply wp_ring_first; [done|]. wstep. wstep. exists l. split; [constructor|].
    eexists. split; [done|]. simpl. rewrite E2, zlen_cons in *. pose proof (zlen_nonneg l).
    rewrite u64_small by lia. split; [done|]. split; [lia|]. split; [by eapply ring_owned_pop_front|].
    split; [|done]. intros Hc0. rewrite Ht by done.
    destruct (q_data q) as [|b|]; [destruct Ho; lia| |done]. destruct Ho as (k & Hk & -> & -> & _).
    rewrite !land_mask_u64, Z.add_mod_idemp_l by lia. f_equal. lia.
  - exists l. split; [constructor|done].
  - rewrite Eemp. destruct l as [|x l]; simpl; [exists []; split; [constructor|done]|].
    do 2 wstep. eapply wp_ring_first; [done|]. wstep. wstep. exists (x :: l). split; [constructor|].
    exists q. by repeat (split; [done|]).
  - exists l. split; [constructor|done].
  - exists l. unfold scl_queue_count. rewrite E2. split; [constructor|done].
  - exists l. unfold scl_queue_empty. rewrite Eemp. split; [constructor|done].
  - destruct key as [key|], cmp as [cmp|], out; try (exists l; split; [constructor; auto|done]).
    wstep. rewrite E2. eapply wp_mono; [by eapply wp_ring_search|].
    intros a Ha. wstep. exists l. split; [by constructor|done].
Qed.

Lemma queue_init_spec w q0 es cap :
  1 <= es < 2 ^ 64 -> 0 <= cap < 2 ^ 64 ->
  let '(e, q, w') := scl_queue_init al w (Some q0) es cap in
  (e = SCL_OK /\ queue_rep es (w_live w) (q, w') []) \/
  ((e = SCL_ERR_SIZE_OVERFLOW \/ e = SCL_ERR_OUT_OF_MEMORY) /\ 0 < cap /\
   w_live w' = w_live w /\ q = Some (Queue Null es 0 0 0 0 0)).
Proof.
  intros Hes Hcap. unfold scl_queue_init. destruct (Z.eqb_spec es 0); [lia|].
  destruct (Z.gtb_spec cap 0).
  2:{ left. split; [done|]. eexists. split; [done|]. simpl. do 3 (split; [done|]). lia. }
  assert (is_u64 (scl_bit_ceil_sz cap)) as Hu.
  { unfold is_u64. destruct (bit_ceil_sz_pow cap ltac:(lia)) as [->|(k & Hk & -> & _)]; [lia|].
    split; [lia|]. apply Z.pow_lt_mono_r; lia. }
  rewrite scl_mul_overflow_spec by (done || unfold is_u64; lia).
  destruct (Z.ltb_spec (scl_bit_ceil_sz cap * es) (2 ^ 64)); [|right; auto].
  destruct (scl_alloc al w _ MAX_ALIGN es) as [[b|] w1] eqn:Ea.
  - left. split; [done|]. destruct (bit_ceil_sz_pow cap ltac:(lia)) as [E|(k & Hk & E & _)]; rewrite E in *.
    + apply (owns_alloc (A := A) al) in Ea as [_ (_ & ? & _)]; lia.
    + apply (ring_owned_alloc (A := A) al) in Ea as [Hw Ho]; [|lia|done].
      eexists. split; [done|]. simpl. split; [done|]. split; [done|]. split; [done|].
      split; [|lia]. intros _. rewrite land_mask_u64 by lia. pose proof (Z.pow_pos_nonneg 2 k). change (0 + zlen []) with 0. by rewrite Z.mod_0_l by lia.
  - right. apply (owns_alloc (A := A) al) in Ea as [Hw _]; [|lia]. simpl in Hw. split; [auto|].
    split; [lia|]. split; [lia|done].
Qed.
End Step.

(** The replies for a [NULL] queue. *)
Definition queue_null_reply {A} (op : queue_op A) : reply A :=
  match op with QCount => Size 0 | QEmpty => Flag true | _ => Code SCL_ERR_NULL_PTR end.

(** The queue refines a list with the oldest element first: after a
    successful initialisation every sequence of operations, through wrap-around
    and growth and whatever the allocator answers, runs without stray accesses,
    answers as the abstract queue does, and destroying the queue afterwards
    returns every block; a failed initialisation keeps none, and a [NULL] queue
    is refused by every operation. *)
Theorem queue_refines {A} (al : scl_allocator_t) (w : world) (q0 : scl_queue_t A) (es cap : Z)
  (ops : list (queue_op A)) (Hal : AllocatorOk al) (Hes : 1 <= es < 2 ^ 64) (Hcap : 0 <= cap < 2 ^ 64) :
  (let '(e, q, w1) := scl_queue_init al w (Some q0) es cap in
   (e = SCL_OK /\
    exists outs q2 w2 l q3 w3, run (queue_step al) (q, w1) ops = Ok (outs, (q2, w2)) /\
      trace queue_spec [] ops outs l /\
      scl_queue_destroy w2 q2 = Ok (q3, w3) /\ w_live w3 = w_live w) \/
   ((e = SCL_ERR_SIZE_OVERFLOW \/ e = SCL_ERR_OUT_OF_MEMORY) /\ 0 < cap /\
    w_live w1 = w_live w /\ q = Some (Queue Null es 0 0 0 0 0))) /\
  (forall op, queue_step al (None, w) op = Ok (queue_null_reply (A := A) op, (None, w))).
Proof.
  split; [|by intros []].
  pose proof (queue_init_spec al w q0 es cap Hes Hcap) as H.
  destruct (scl_queue_init al w (Some q0) es cap) as [[e q] w1]. destruct H as [[-> R]|H]; [left|by right].
  split; [done|]. pose proof (queue_simulates (A := A) al es (w_live w) Hes) as Sim.
  destruct (proj1 (wp_ok _ _) (run_refines _ _ _ (q, w1) [] ops R)) as ([outs [q2 w2]] & E & l & T & R2).
  destruct R2 as (q1 & Eq & _ & _ & Ho & _ & Hw). simpl in Eq, Hw. subst q2. exists outs, (Some q1), w2, l.
  simpl. destruct (q_data q1) as [|b|]; [| |done]; simpl in *; do 2 eexists; do 3 (split; [done|]); simpl; lia.
Qed.

Lemma queue_refines_witness :
  exists outs l, trace (queue_spec (A := Z)) [] [QEnqueue (Some 1); QEnqueue (Some 2); QDequeue true] outs l.
Proof.
  destruct (queue_refines small_allocator (World 0 0) (Queue (Null (A := Z)) 0 0 0 0 0 0) 8 2
    [QEnqueue (Some 1); QEnqueue (Some 2); QDequeue true] _ ltac:(lia) ltac:(lia))
    as [[(_ & outs & _ & _ & l & _ & _ & _ & T & _)|(H & _)] _].
  - exists outs, l. exact T.
  - exfalso. vm_compute in H. destruct H as [H|H]; discriminate H.
Defined.
