(* ===== verification/Deque.v ===== *)
(** The double-ended queue of [libs/structures/deque/scl_deque.c], refined to a
    list. *)

From S2P Require Import Prelude Core Search Refine Containers Ring.
#[local] Open Scope Z_scope.
#[local] Arguments scl_mul_overflow : simpl never.

Record scl_deque_t (A : Type) : Type := Deque {
  dq_data : ptr A;
  dq_element_size : Z;
  dq_capacity : Z;
  dq_mask : Z;
  dq_head : Z;
  dq_count : Z
}.
Arguments Deque {A}.
Arguments dq_data {A}.
Arguments dq_element_size {A}.
Arguments dq_capacity {A}.
Arguments dq_mask {A}.
Arguments dq_head {A}.
Arguments dq_count {A}.

Section Defs.
Context {A : Type} (al : scl_allocator_t).
Implicit Types (w : world) (deque : option (scl_deque_t A)).

Definition scl_deque_init w deque (element_size initial_capacity : Z)
    : scl_error_t * option (scl_deque_t A) * world :=
  match deque with
  | None => (SCL_ERR_NULL_PTR, None, w)
  | Some d =>
      if element_size =? 0 then (SCL_ERR_INVALID_ARG, Some d, w)
      else
        let d := Deque Null element_size 0 0 0 0 in
        if initial_capacity >? 0 then
          let cap := if initial_capacity <? 4 then 4 else scl_bit_ceil_sz initial_capacity in
          match scl_mul_overflow cap element_size with
          | None => (SCL_ERR_SIZE_OVERFLOW, Some d, w)
          | Some bytes =>
              match scl_alloc al w bytes MAX_ALIGN element_size with
              | (None, w) => (SCL_ERR_OUT_OF_MEMORY, Some d, w)
              | (Some b, w) => (SCL_OK, Some (Deque (Ptr b) element_size cap (u64 (cap - 1)) 0 0), w)
              end
          end
        else (SCL_OK, Some d, w)
  end.

Definition scl_deque_destroy w deque : res (option (scl_deque_t A) * world) :=
  match deque with
  | None => mret (None, w)
  | Some d =>
      w ← free_ptr w (dq_data d);
      mret (Some (Deque Null (dq_element_size d) 0 0 0 0), w)
  end.

Definition scl_deque_grow w (d : scl_deque_t A) : res (scl_error_t * scl_deque_t A * world) :=
  let 'Deque data es capacity mask head count := d in
  '(err, tmp, new_cap, w) ← grow_ring al w data capacity mask head count es;
  mret (err, if decide (err = SCL_OK) then Deque tmp es new_cap (u64 (new_cap - 1)) 0 count else d, w).

(** The growth of a full deque, which starts both pushes. *)
Definition make_room w (d : scl_deque_t A) : res (scl_error_t * scl_deque_t A * world) :=
  if dq_count d =? dq_capacity d then scl_deque_grow w d else mret (SCL_OK, d, w).

Definition scl_deque_push_front w deque (element : option A)
    : res (scl_error_t * option (scl_deque_t A) * world) :=
  match deque, element with
  | Some d, Some element =>
      '(err, d, w) ← make_room w d;
      if decide (err = SCL_OK) then
        let 'Deque data es capacity mask head count := d in
        let head := Z.land (u64 (head - 1)) mask in
        match scl_mul_overflow head es with
        | None => mret (SCL_ERR_SIZE_OVERFLOW, Some (Deque data es capacity mask head count), w)
        | Some _ =>
            data ← set_elem data head element;
            mret (SCL_OK, Some (Deque data es capacity mask head (u64 (count + 1))), w)
        end
      else mret (err, Some d, w)
  | _, _ => mret (SCL_ERR_NULL_PTR, deque, w)
  end.

Definition scl_deque_push_back w deque (element : option A)
    : res (scl_error_t * option (scl_deque_t A) * world) :=
  match deque, element with
  | Some d, Some element =>
      '(err, d, w) ← make_room w d;
      if decide (err = SCL_OK) then
        let 'Deque data es capacity mask head count := d in
        let tail := Z.land (u64 (head + count)) mask in
        match scl_mul_overflow tail es with
        | None => mret (SCL_ERR_SIZE_OVERFLOW, Some d, w)
        | Some _ =>
            data ← set_elem data tail element;
            mret (SCL_OK, Some (Deque data es capacity mask head (u64 (count + 1))), w)
        end
      else mret (err, Some d, w)
  | _, _ => mret (SCL_ERR_NULL_PTR, deque, w)
  end.

Definition scl_deque_pop_front deque (out : bool) : res (scl_error_t * option A * option (scl_deque_t A)) :=
  match deque, out with
  | Some (Deque data es capacity mask head count), true =>
      if count =? 0 then mret (SCL_ERR_EMPTY, None, deque)
      else
        match scl_mul_overflow head es with
        | None => mret (SCL_ERR_SIZE_OVERFLOW, None, deque)
        | Some _ =>
            x ← get_elem data head;
            mret (SCL_OK, Some x,
                  Some (Deque data es capacity mask (Z.land (u64 (head + 1)) mask) (u64 (count - 1))))
        end
  | _, _ => mret (SCL_ERR_NULL_PTR, None, deque)
  end.

Definition scl_deque_pop_back deque (out : bool) : res (scl_error_t * option A * option (scl_deque_t A)) :=
  match deque, out with
  | Some (Deque data es capacity mask head count), true =>
      if count =? 0 then mret (SCL_ERR_EMPTY, None, deque)
      else
        let tail := Z.land (u64 (head + count - 1)) mask in
        match scl_mul_overflow tail es with
        | None => mret (SCL_ERR_SIZE_OVERFLOW, None, deque)
        | Some _ =>
            x ← get_elem data tail;
            mret (SCL_OK, Some x, Some (Deque data es capacity mask head (u64 (count - 1))))
        end
  | _, _ => mret (SCL_ERR_NULL_PTR, None, deque)
  end.

Definition scl_deque_peek_front deque (out : bool) : res (scl_error_t * option A) :=
  match deque, out with
  | Some d, true =>
      if dq_count d =? 0 then mret (SCL_ERR_EMPTY, None)
      else
        match scl_mul_overflow (dq_head d) (dq_element_size d) with
        | None => mret (SCL_ERR_SIZE_OVERFLOW, None)
        | Some _ => x ← get_elem (dq_data d) (dq_head d); mret (SCL_OK, Some x)
        end
  | _, _ => mret (SCL_ERR_NULL_PTR, None)
  end.

Definition scl_deque_peek_back deque (out : bool) : res (scl_error_t * option A) :=
  match deque, out with
  | Some d, true =>
      if dq_count d =? 0 then mret (SCL_ERR_EMPTY, None)
      else
        let tail := Z.land (u64 (dq_head d + dq_count d - 1)) (dq_mask d) in
        match scl_mul_overflow tail (dq_element_size d) with
        | None => mret (SCL_ERR_SIZE_OVERFLOW, None)
        | Some _ => x ← get_elem (dq_data d) tail; mret (SCL_OK, Some x)
        end
  | _, _ => mret (SCL_ERR_NULL_PTR, None)
  end.

Definition scl_deque_count deque : Z := match deque with Some d => dq_count d | None => 0 end.
Definition scl_deque_empty deque : bool := match deque with Some d => dq_count d =? 0 | None => true end.

Definition scl_deque_search deque (key : option A) (cmp : option (A -> A -> Z)) (out_index : bool)
    : res answer :=
  match deque, key, cmp, out_index with
  | Some d, Some key, Some cmp, true => ring_search (dq_data d) (dq_head d) (dq_mask d) (dq_count d) key cmp
  | _, _, _, _ => mret (SCL_ERR_NULL_PTR, None)
  end.
End Defs.

(** ** The operations as one step function *)
Inductive deque_op (A : Type) : Type :=
| DPushFront (element : option A)
| DPushBack (element : option A)
| DPopFront (out : bool)
| DPopBack (out : bool)
| DPeekFront (out : bool)
| DPeekBack (out : bool)
| DCount
| DEmpty
| DSearch (key : option A) (cmp : option (A -> A -> Z)) (out_index : bool).
Arguments DPushFront {A}.
Arguments DPushBack {A}.
Arguments DPopFront {A}.
Arguments DPopBack {A}.
Arguments DPeekFront {A}.
Arguments DPeekBack {A}.
Arguments DCount {A}.
Arguments DEmpty {A}.
Arguments DSearch {A}.

Section Step.
Context {A : Type} (al : scl_allocator_t).
Implicit Types (data : ptr A) (l : list A) (w : world).

Definition deque_step (st : option (scl_deque_t A) * world) (op : deque_op A)
    : res (reply A * (option (scl_deque_t A) * world)) :=
  let '(d, w) := st in
  match op with
  | DPushFront x => '(e, d, w) ← scl_deque_push_front al w d x; mret (Code e, (d, w))
  | DPushBack x => '(e, d, w) ← scl_deque_push_back al w d x; mret (Code e, (d, w))
  | DPopFront out => '(e, x, d) ← scl_deque_pop_front d out; mret (value_or e x, (d, w))
  | DPopBack out => '(e, x, d) ← scl_deque_pop_back d out; mret (value_or e x, (d, w))
  | DPeekFront out => '(e, x) ← scl_deque_peek_front d out; mret (value_or e x, (d, w))
  | DPeekBack out => '(e, x) ← scl_deque_peek_back d out; mret (value_or e x, (d, w))
  | DCount => mret (Size (scl_deque_count d), (d, w))
  | DEmpty => mret (Flag (scl_deque_empty d), (d, w))
  | DSearch key cmp out => a ← scl_deque_search d key cmp out; mret (index_or a, (d, w))
  end.

(** ** The abstract deque: a list, the front first. *)
Inductive deque_spec : list A -> deque_op A -> reply A -> list A -> Prop :=
| spec_push_front l x : deque_spec l (DPushFront (Some x)) (Code SCL_OK) (x :: l)
| spec_push_back l x : deque_spec l (DPushBack (Some x)) (Code SCL_OK) (l ++ [x])
| spec_push_refused l x op e :
    op = DPushFront (Some x) \/ op = DPushBack (Some x) ->
    e = SCL_ERR_SIZE_OVERFLOW \/ e = SCL_ERR_OUT_OF_MEMORY -> deque_spec l op (Code e) l
| spec_pop_front x l : deque_spec (x :: l) (DPopFront true) (Value x) l
| spec_pop_back x l : deque_spec (l ++ [x]) (DPopBack true) (Value x) l
| spec_peek_front x l : deque_spec (x :: l) (DPeekFront true) (Value x) (x :: l)
| spec_peek_back x l : deque_spec (l ++ [x]) (DPeekBack true) (Value x) (l ++ [x])
| spec_deque_empty op :
    op = DPopFront true \/ op = DPopBack true \/ op = DPeekFront true \/ op = DPeekBack true ->
    deque_spec [] op (Code SCL_ERR_EMPTY) []
| spec_deque_null l op :
    op = DPushFront None \/ op = DPushBack None \/ op = DPopFront false \/ op = DPopBack false \/
    op = DPeekFront false \/ op = DPeekBack false ->
    deque_spec l op (Code SCL_ERR_NULL_PTR) l
| spec_dcount l : deque_spec l DCount (Size (zlen l)) l
| spec_dempty l : deque_spec l DEmpty (Flag (bool_decide (l = []))) l
| spec_dsearch l key cmp a :
    found_first cmp l key a -> deque_spec l (DSearch (Some key) (Some cmp) true) (index_or a) l
| spec_dsearch_null l key cmp out :
    key = None \/ cmp = None \/ out = false ->
    deque_spec l (DSearch key cmp out) (Code SCL_ERR_NULL_PTR) l.

(** ** The refinement *)
Definition deque_rep (es live0 : Z) (st : option (scl_deque_t A) * world) (l : list A) : Prop :=
  exists data cap mask head w, st = (Some (Deque data es cap mask head (zlen l)), w) /\
    ring_owned data cap mask head es l /\ w_live w = live0 + held data.

Context `{!AllocatorOk al}.

(** The byte offset of a cell of a granted block does not wrap. *)
Lemma offset_fits data cap mask head es l (i : Z) :
  1 <= es < 2 ^ 64 -> ring_owned data cap mask head es l -> 0 < cap -> 0 <= i < cap ->
  scl_mul_overflow i es = Some (i * es).
Proof.
  intros Hes Ho Hc Hi. pose proof (ring_owned_len data cap mask head es l ltac:(lia) Ho) as [_ Hcap].
  unfold PTRDIFF_MAX in *. rewrite scl_mul_overflow_spec by (unfold is_u64; lia).
  destruct data as [|b|]; [destruct Ho; lia| |done]. destruct Ho as (k & _ & _ & _ & Hm & _).
  unfold PTRDIFF_MAX in Hm. assert (i * es < 2 ^ 64) by nia. by bcase; [|lia].
Qed.

(** A masked index is a cell of the block. *)
Lemma masked_cell (data : ptr A) cap mask head es l i :
  ring_owned data cap mask head es l -> 0 < cap -> 0 <= Z.land (u64 i) mask < cap.
Proof.
  intros Ho Hc. destruct data as [|b|]; [destruct Ho; lia| |done].
  destruct Ho as (k & Hk & -> & -> & _). rewrite land_mask_u64 by lia. by apply Z.mod_pos_bound.
Qed.

Lemma head_cell (data : ptr A) cap mask head es l :
  ring_owned data cap mask head es l -> 0 < cap -> 0 <= head < cap.
Proof.
  intros Ho Hc. destruct data as [|b|]; [destruct Ho; lia| |done].
  by destruct Ho as (k & _ & _ & _ & _ & _ & ? & _).
Qed.

Lemma wp_make_room data cap mask head w live0 es l (Q : scl_error_t * scl_deque_t A * world -> Prop) :
  1 <= es < 2 ^ 64 -> ring_owned data cap mask head es l -> w_live w = live0 + held data ->
  (forall data cap mask head w', ring_owned data cap mask head es l -> zlen l < cap ->
     w_live w' = live0 + held data -> Q (SCL_OK, Deque data es cap mask head (zlen l), w')) ->
  (forall e d w', e = SCL_ERR_SIZE_OVERFLOW \/ e = SCL_ERR_OUT_OF_MEMORY ->
     deque_rep es live0 (Some d, w') l -> Q (e, d, w')) ->
  wp (make_room al w (Deque data es cap mask head (zlen l))) Q.
Proof.
  intros Hes Ho Hw HQ1 HQ2. pose proof (ring_owned_len data cap mask head es l ltac:(lia) Ho) as [Hl _].
  unfold make_room. simpl. destruct (Z.eqb_spec (zlen l) cap) as [Ec|Ec]; [|wstep; apply HQ1; (done || lia)].
  wstep. eapply (wp_grow_ring al); [done|done|done| |].
  - intros b cap' w' Ho' Hlt Hw'. wstep. rewrite decide_True by done. apply HQ1; [done|lia|simpl; lia].
  - intros e w' He Hw'. wstep. rewrite decide_False by (destruct He; congruence). apply HQ2; [done|].
    eexists _, _, _, _, _. split; [done|]. split; [done|lia].
Qed.

Lemma deque_rep_len data es cap mask head c w live0 l :
  ring_owned data cap mask head es l -> c = zlen l -> w_live w = live0 + held data ->
  deque_rep es live0 (Some (Deque data es cap mask head c), w) l.
Proof. intros Ho -> Hw. by exists data, cap, mask, head, w. Qed.

Lemma wp_push_front data cap mask head w live0 es l x Q :
  1 <= es < 2 ^ 64 -> ring_owned data cap mask head es l -> w_live w = live0 + held data ->
  (forall d w', deque_rep es live0 (d, w') (x :: l) -> Q (SCL_OK, d, w')) ->
  (forall e d w', e = SCL_ERR_SIZE_OVERFLOW \/ e = SCL_ERR_OUT_OF_MEMORY ->
     deque_rep es live0 (d, w') l -> Q (e, d, w')) ->
  wp (scl_deque_push_front al w (Some (Deque data es cap mask head (zlen l))) (Some x)) Q.
Proof.
  intros Hes Ho Hw HQ1 HQ2. unfold scl_deque_push_front. wstep. eapply wp_make_room; [done..| |].
  2:{ intros e d w' He R. rewrite decide_False by (destruct He; congruence). wstep. by apply HQ2. }
  clear dependent data cap mask head w. intros data cap mask head w Ho Hlt Hw. rewrite decide_True by done.
  pose proof (zlen_nonneg l). rewrite (offset_fits _ _ _ _ _ _ _ Hes Ho) by (lia || apply (masked_cell _ _ _ _ _ _ _ Ho); lia).
  wstep. eapply wp_ring_push_front; [done|done|]. intros p' Ho' Hh. wstep. apply HQ1.
  pose proof (ring_owned_len _ _ _ _ _ _ (proj1 Hes) Ho) as [_ Hcap]. unfold PTRDIFF_MAX in Hcap.
  apply deque_rep_len; [done| |lia]. rewrite u64_small, zlen_cons by lia. done.
Qed.

Lemma wp_push_back data cap mask head w live0 es l x Q :
  1 <= es < 2 ^ 64 -> ring_owned data cap mask head es l -> w_live w = live0 + held data ->
  (forall d w', deque_rep es live0 (d, w') (l ++ [x]) -> Q (SCL_OK, d, w')) ->
  (forall e d w', e = SCL_ERR_SIZE_OVERFLOW \/ e = SCL_ERR_OUT_OF_MEMORY ->
     deque_rep es live0 (d, w') l -> Q (e, d, w')) ->
  wp (scl_deque_push_back al w (Some (Deque data es cap mask head (zlen l))) (Some x)) Q.
Proof.
  intros Hes Ho Hw HQ1 HQ2. unfold scl_deque_push_back. wstep. eapply wp_make_room; [done..| |].
  2:{ intros e d w' He R. rewrite decide_False by (destruct He; congruence). wstep. by apply HQ2. }
  clear dependent data cap mask head w. intros data cap mask head w Ho Hlt Hw. rewrite decide_True by done.
  pose proof (zlen_nonneg l). rewrite (offset_fits _ _ _ _ _ _ _ Hes Ho) by (lia || apply (masked_cell _ _ _ _ _ _ _ Ho); lia).
  wstep. eapply wp_ring_push_back; [done|done|]. intros p' Ho' Hh. wstep. apply HQ1.
  pose proof (ring_owned_len _ _ _ _ _ _ (proj1 Hes) Ho) as [_ Hcap]. unfold PTRDIFF_MAX in Hcap.
  apply deque_rep_len; [done| |lia]. rewrite u64_small, zlen_app by lia. done.
Qed.

(** Reading the last element. *)
Lemma wp_ring_last (data : ptr A) cap mask head es l x (Q : A -> Prop) :
  ring_owned data cap mask head es (l ++ [x]) -> Q x ->
  wp (get_elem data (Z.land (u64 (head + zlen (l ++ [x]) - 1)) mask)) Q.
Proof.
  intros Ho HQ. rewrite zlen_app. change (zlen [x]) with 1.
  replace (head + (zlen l + 1) - 1) with (head + zlen l) by lia. eapply wp_ring_get; [done| |done].
  rewrite zlook_app. bcase; [lia|]. by rewrite Z.sub_diag.
Qed.

#[export] Instance deque_simulates es live0 :
  1 <= es < 2 ^ 64 -> Simulates deque_step deque_spec (deque_rep es live0).
Proof.
  intros Hes st l op (data & cap & mask & head & w & -> & Ho & Hw).
  pose proof (deque_rep_len _ _ _ _ _ _ w live0 l Ho eq_refl Hw) as R.
  pose proof (ring_owned_len _ _ _ _ _ _ (proj1 Hes) Ho) as [Hl Hc]. unfold PTRDIFF_MAX in Hc.
  assert (zlen l =? 0 = bool_decide (l = [])) as Eemp.
  { destruct l as [|x l]; [done|]. rewrite zlen_cons in *. pose proof (zlen_nonneg l). by bcase; [lia|]. }
  assert (forall i, l <> [] -> scl_mul_overflow (Z.land (u64 i) mask) es = Some (Z.land (u64 i) mask * es)
    /\ scl_mul_overflow head es = Some (head * es)) as Hoff.
  { intros i Hne. assert (0 < cap) by (destruct l; [done|]; rewrite zlen_cons in Hl; pose proof (zlen_nonneg l); lia).
    split; (eapply offset_fits; [done|done|done|]);
      [by eapply masked_cell|by eapply head_cell]. }
  destruct op as [[x|]|[x|]|[|]|[|]|[|]|[|]| | |key cmp out]; cbn -[scl_deque_push_front scl_deque_push_back];
    try (exists l; split; [by constructor; auto 10|done]).
  - wstep. eapply wp_push_front; [done..| |].
    + intros d w' R'. wstep. eexists. split; [constructor|done].
    + intros e d w' He R'. wstep. exists l. split; [econstructor; eauto|done].
  - wstep. eapply wp_push_back; [done..| |].
    + intros d w' R'. wstep. eexists. split; [constructor|done].
    + intros e d w' He R'. wstep. exists l. split; [econstructor; eauto|done].
  - rewrite Eemp. destruct l as [|x l]; simpl; [exists []; split; [constructor; auto|done]|].
    rewrite (proj2 (Hoff 0 ltac:(done))). do 2 wstep. eapply wp_ring_first; [done|]. wstep. wstep.
    exists l. split; [constructor|]. rewrite zlen_cons in *. pose proof (zlen_nonneg l).
    apply deque_rep_len; [by eapply ring_owned_pop_front| |done]. rewrite u64_small; lia.
  - rewrite Eemp. destruct (list_last_case l) as [->|(l' & x & ->)]; simpl;
      [exists []; split; [constructor; auto|done]|].
    rewrite bool_decide_eq_false_2 by by destruct l'. rewrite (proj1 (Hoff _ ltac:(by destruct l'))).
    do 2 wstep. eapply wp_ring_last; [done|]. wstep. wstep.
    exists l'. split; [constructor|]. rewrite zlen_app in *. change (zlen [x]) with 1 in *. pose proof (zlen_nonneg l').
    apply deque_rep_len; [by eapply ring_owned_pop_back| |done]. rewrite u64_small; lia.
  - rewrite Eemp. destruct l as [|x l]; simpl; [exists []; split; [constructor; auto|done]|].
    rewrite (proj2 (Hoff 0 ltac:(done))). do 2 wstep. eapply wp_ring_first; [done|]. wstep. wstep.
    exists (x :: l). split; [constructor|done].
  - rewrite Eemp. destruct (list_last_case l) as [->|(l' & x & ->)]; simpl;
      [exists []; split; [constructor; auto|done]|].
    rewrite bool_decide_eq_false_2 by by destruct l'. rewrite (proj1 (Hoff _ ltac:(by destruct l'))).
    do 2 wstep. eapply wp_ring_last; [done|]. wstep. wstep. exists (l' ++ [x]). split; [constructor|done].
  - rewrite Eemp. exists l. split; [constructor|done].
  - destruct key as [key|], cmp as [cmp|], out; try (exists l; split; [apply spec_dsearch_null; auto|done]).
    wstep. eapply wp_mono; [by eapply wp_ring_search|].
    intros a Ha. wstep. exists l. split; [by constructor|done].
Qed.
End Step.

(** The replies for a [NULL] deque. *)
Definition deque_null_reply {A} (op : deque_op A) : reply A :=
  match op with DCount => Size 0 | DEmpty => Flag true | _ => Code SCL_ERR_NULL_PTR end.

Lemma deque_init_spec {A} al `{!AllocatorOk al} w (d0 : scl_deque_t A) es cap :
  1 <= es < 2 ^ 64 -> 0 <= cap < 2 ^ 64 ->
  let '(e, d, w') := scl_deque_init al w (Some d0) es cap in
  (e = SCL_OK /\ deque_rep es (w_live w) (d, w') []) \/
  ((e = SCL_ERR_SIZE_OVERFLOW \/ e = SCL_ERR_OUT_OF_MEMORY) /\ 0 < cap /\
   w_live w' = w_live w /\ d = Some (Deque Null es 0 0 0 0)).
Proof.
  intros Hes Hcap. unfold scl_deque_init. destruct (Z.eqb_spec es 0); [lia|].
  destruct (Z.gtb_spec cap 0).
  2:{ left. split; [done|]. eexists _, _, _, _, _. split; [done|]. split; [done|simpl; lia]. }
  set (c := if cap <? 4 then 4 else _).
  assert (c = 0 \/ exists k, 0 <= k < 64 /\ c = 2 ^ k) as Hc.
  { unfold c. bcase; [right; by exists 2|].
    destruct (bit_ceil_sz_pow cap ltac:(lia)) as [->|(k & Hk & -> & _)]; [by left|right; by exists k]. }
  clearbody c. assert (is_u64 c) as Hu.
  { unfold is_u64. destruct Hc as [->|(k & Hk & ->)]; [lia|]. split; [lia|]. apply Z.pow_lt_mono_r; lia. }
  rewrite scl_mul_overflow_spec by (done || unfold is_u64; lia).
  destruct (Z.ltb_spec (c * es) (2 ^ 64)); [|right; auto].
  destruct (scl_alloc al w _ MAX_ALIGN es) as [[b|] w1] eqn:Ea.
  - left. split; [done|]. destruct Hc as [->|(k & Hk & ->)].
    + apply (owns_alloc (A := A) al) in Ea as [_ (_ & ? & _)]; lia.
    + apply (ring_owned_alloc (A := A) al) in Ea as [Hw Ho]; [|lia|done].
      apply deque_rep_len; [|done|simpl; lia]. pose proof (Z.pow_pos_nonneg 2 k). unfold is_u64 in Hu.
      by rewrite u64_small by lia.
  - right. apply (owns_alloc (A := A) al) in Ea as [Hw _]; [|lia]. simpl in Hw. split; [auto|].
    split; [lia|]. split; [lia|done].
Qed.

(** The deque refines a list: after a successful initialisation every
    sequence of pushes, pops and peeks at both ends, through wrap-around and
    growth and whatever the allocator answers, runs without stray accesses or
    wrapped offsets, answers as the abstract deque does, and destroying the
    deque afterwards returns every block; a failed initialisation keeps none,
    and a [NULL] deque is refused by every operation. *)
Theorem deque_refines {A} (al : scl_allocator_t) (w : world) (d0 : scl_deque_t A) (es cap : Z)
  (ops : list (deque_op A)) (Hal : AllocatorOk al) (Hes : 1 <= es < 2 ^ 64) (Hcap : 0 <= cap < 2 ^ 64) :
  (let '(e, d, w1) := scl_deque_init al w (Some d0) es cap in
   (e = SCL_OK /\
    exists outs d2 w2 l w3, run (deque_step al) (d, w1) ops = Ok (outs, (d2, w2)) /\
      trace deque_spec [] ops outs l /\
      scl_deque_destroy w2 d2 = Ok (Some (Deque Null es 0 0 0 0), w3) /\ w_live w3 = w_live w) \/
   ((e = SCL_ERR_SIZE_OVERFLOW \/ e = SCL_ERR_OUT_OF_MEMORY) /\ 0 < cap /\
    w_live w1 = w_live w /\ d = Some (Deque Null es 0 0 0 0))) /\
  (forall op, deque_step al (None, w) op = Ok (deque_null_reply (A := A) op, (None, w))).
Proof.
  split; [|by intros []].
  pose proof (deque_init_spec al w d0 es cap Hes Hcap) as H.
  destruct (scl_deque_init al w (Some d0) es cap) as [[e d] w1]. destruct H as [[-> R]|H]; [left|by right].
  split; [done|]. pose proof (deque_simulates (A := A) al es (w_live w) Hes) as Sim.
  destruct (proj1 (wp_ok _ _) (run_refines _ _ _ (d, w1) [] ops R)) as ([outs d2] & E & l & T & R2).
  destruct R2 as (data & c & m & h & w2 & -> & Ho & Hw). exists outs. do 2 eexists. exists l.
  destruct data as [|b|]; [| |done]; simpl in *; eexists; do 3 (split; [done|]); simpl; lia.
Qed.

Lemma deque_refines_witness :
  exists outs l, trace (deque_spec (A := Z)) [] [DPushFront (Some 1); DPushBack (Some 2); DPopFront true] outs l.
Proof.
  destruct (deque_refines small_allocator (World 0 0) (Deque (Null (A := Z)) 0 0 0 0 0) 8 2
    [DPushFront (Some 1); DPushBack (Some 2); DPopFront true] _ ltac:(lia) ltac:(lia))
    as [[(_ & outs & _ & _ & l & _ & _ & T & _)|(H & _)] _].
  - exists outs, l. exact T.
  - exfalso. vm_compute in H. destruct H as [H|H]; discriminate H.
Defined.
