(* ===== verification/Array.v ===== *)
(** The dynamic array of [libs/structures/array/scl_array.c], refined to a list
    with its capacity. *)

From S2P Require Import Prelude Core SortSpec Search Refine Containers.
#[local] Open Scope Z_scope.
#[local] Arguments scl_mul_overflow : simpl never.

Record scl_array_t (A : Type) : Type := Arr {
  a_data : ptr A;
  a_element_size : Z;
  a_capacity : Z;
  a_count : Z
}.
Arguments Arr {A}.
Arguments a_data {A}.
Arguments a_element_size {A}.
Arguments a_capacity {A}.
Arguments a_count {A}.

Section Defs.
Context {A : Type} (al : scl_allocator_t).
Implicit Types (w : world) (arr : option (scl_array_t A)).

Definition scl_array_init w arr (element_size initial_capacity : Z)
    : scl_error_t * option (scl_array_t A) * world :=
  match arr with
  | None => (SCL_ERR_NULL_PTR, None, w)
  | Some a =>
      if element_size =? 0 then (SCL_ERR_INVALID_ARG, Some a, w)
      else
        let a := Arr Null element_size 0 0 in
        if initial_capacity >? 0 then
          match scl_mul_overflow initial_capacity element_size with
          | None => (SCL_ERR_SIZE_OVERFLOW, Some a, w)
          | Some bytes =>
              match scl_alloc al w bytes MAX_ALIGN element_size with
              | (None, w) => (SCL_ERR_OUT_OF_MEMORY, Some a, w)
              | (Some b, w) => (SCL_OK, Some (Arr (Ptr b) element_size initial_capacity 0), w)
              end
          end
        else (SCL_OK, Some a, w)
  end.

Definition scl_array_destroy w arr : res (option (scl_array_t A) * world) :=
  match arr with
  | None => mret (None, w)
  | Some a =>
      w ← free_ptr w (a_data a);
      mret (Some (Arr Null (a_element_size a) 0 0), w)
  end.

Definition scl_array_reserve w arr (new_capacity : Z) : res (scl_error_t * option (scl_array_t A) * world) :=
  match arr with
  | None => mret (SCL_ERR_NULL_PTR, None, w)
  | Some (Arr data es capacity count) =>
      if new_capacity <=? capacity then mret (SCL_OK, arr, w)
      else
        let old_bytes := match scl_mul_overflow capacity es with Some n => n | None => 0 end in
        match scl_mul_overflow new_capacity es with
        | None => mret (SCL_ERR_SIZE_OVERFLOW, arr, w)
        | Some new_bytes =>
            '(tmp, data, w) ← scl_realloc al w data old_bytes new_bytes MAX_ALIGN es;
            match tmp with
            | None => mret (SCL_ERR_OUT_OF_MEMORY, Some (Arr data es capacity count), w)
            | Some tmp => mret (SCL_OK, Some (Arr (Ptr tmp) es new_capacity count), w)
            end
        end
  end.

(** The growth of a full array, which starts [push] and [insert]. *)
Definition array_room w arr : res (scl_error_t * option (scl_array_t A) * world) :=
  match arr with
  | Some a =>
      if a_count a =? a_capacity a then
        let new_cap := if a_capacity a =? 0 then 4 else u64 (a_capacity a * 2) in
        scl_array_reserve w arr new_cap
      else mret (SCL_OK, arr, w)
  | None => mret (SCL_OK, arr, w)
  end.

Definition scl_array_push w arr (element : option A) : res (scl_error_t * option (scl_array_t A) * world) :=
  match arr, element with
  | Some a, Some element =>
      let cnt := a_count a in
      '(err, arr, w) ← array_room w arr;
      match arr with
      | Some (Arr data es capacity _) =>
          if decide (err = SCL_OK) then
            data ← set_elem data cnt element;
            mret (SCL_OK, Some (Arr data es capacity (u64 (cnt + 1))), w)
          else mret (err, arr, w)
      | None => mret (err, None, w)
      end
  | _, _ => mret (SCL_ERR_NULL_PTR, arr, w)
  end.

Definition scl_array_pop arr (out : bool) : res (scl_error_t * option A * option (scl_array_t A)) :=
  match arr, out with
  | Some (Arr data es capacity count), true =>
      if count =? 0 then mret (SCL_ERR_EMPTY, None, arr)
      else
        let count := u64 (count - 1) in
        x ← get_elem data count;
        mret (SCL_OK, Some x, Some (Arr data es capacity count))
  | _, _ => mret (SCL_ERR_NULL_PTR, None, arr)
  end.

Definition scl_array_get arr (index : Z) (out : bool) : res (scl_error_t * option A) :=
  match arr, out with
  | Some a, true =>
      if index >=? a_count a then mret (SCL_ERR_INVALID_INDEX, None)
      else x ← get_elem (a_data a) index; mret (SCL_OK, Some x)
  | _, _ => mret (SCL_ERR_NULL_PTR, None)
  end.

Definition scl_array_set arr (index : Z) (element : option A) : res (scl_error_t * option (scl_array_t A)) :=
  match arr, element with
  | Some (Arr data es capacity count), Some element =>
      if index >=? count then mret (SCL_ERR_INVALID_INDEX, arr)
      else data ← set_elem data index element; mret (SCL_OK, Some (Arr data es capacity count))
  | _, _ => mret (SCL_ERR_NULL_PTR, arr)
  end.

(** [memmove] of [n] cells inside a block. *)
Definition move_cells (b : block A) (dst src n : Z) : res (block A) :=
  if (0 <=? dst) && (0 <=? src) && (0 <=? n) && (dst + n <=? zlen b) && (src + n <=? zlen b) then
    mret (take (Z.to_nat dst) b ++ take (Z.to_nat n) (drop (Z.to_nat src) b) ++ drop (Z.to_nat (dst + n)) b)
  else UB.

Definition move_elems (p : ptr A) (dst src n : Z) : res (ptr A) :=
  match p with Ptr b => b ← move_cells b dst src n; mret (Ptr b) | _ => UB end.

Definition scl_array_insert w arr (index : Z) (element : option A)
    : res (scl_error_t * option (scl_array_t A) * world) :=
  match arr, element with
  | Some a, Some element =>
      if index >? a_count a then mret (SCL_ERR_INVALID_INDEX, arr, w)
      else
        let cnt := a_count a in
        '(err, arr, w) ← array_room w arr;
        match arr with
        | Some (Arr data es capacity _) =>
            if decide (err = SCL_OK) then
              let tail := u64 (cnt - index) in
              data ← (if tail >? 0 then move_elems data (index + 1) index tail else mret data);
              data ← set_elem data index element;
              mret (SCL_OK, Some (Arr data es capacity (u64 (cnt + 1))), w)
            else mret (err, arr, w)
        | None => mret (err, None, w)
        end
  | _, _ => mret (SCL_ERR_NULL_PTR, arr, w)
  end.

Definition scl_array_remove arr (index : Z) (out : bool)
    : res (scl_error_t * option A * option (scl_array_t A)) :=
  match arr, out with
  | Some (Arr data es capacity count), true =>
      if index >=? count then mret (SCL_ERR_INVALID_INDEX, None, arr)
      else
        x ← get_elem data index;
        let tail := u64 (count - index - 1) in
        data ← (if tail >? 0 then move_elems data index (index + 1) tail else mret data);
        mret (SCL_OK, Some x, Some (Arr data es capacity (u64 (count - 1))))
  | _, _ => mret (SCL_ERR_NULL_PTR, None, arr)
  end.

Definition scl_array_shrink w arr : res (scl_error_t * option (scl_array_t A) * world) :=
  match arr with
  | None => mret (SCL_ERR_NULL_PTR, None, w)
  | Some (Arr data es capacity count) =>
      if count =? capacity then mret (SCL_OK, arr, w)
      else
        let old_bytes := match scl_mul_overflow capacity es with Some n => n | None => 0 end in
        match scl_mul_overflow count es with
        | None => mret (SCL_ERR_SIZE_OVERFLOW, arr, w)
        | Some new_bytes =>
            if count =? 0 then
              w ← free_ptr w data; mret (SCL_OK, Some (Arr Null es 0 count), w)
            else
              '(tmp, data, w) ← scl_realloc al w data old_bytes new_bytes MAX_ALIGN es;
              match tmp with
              | None => mret (SCL_ERR_OUT_OF_MEMORY, Some (Arr data es capacity count), w)
              | Some tmp => mret (SCL_OK, Some (Arr (Ptr tmp) es count count), w)
              end
        end
  end.

Definition scl_array_count arr : Z := match arr with Some a => a_count a | None => 0 end.
Definition scl_array_capacity arr : Z := match arr with Some a => a_capacity a | None => 0 end.
Definition scl_array_empty arr : bool := match arr with Some a => a_count a =? 0 | None => true end.

Definition scl_array_linear_search arr (key : option A) (cmp : option (A -> A -> Z)) (out_index : bool)
    : res answer :=
  match arr, key, cmp, out_index with
  | Some a, Some key, Some cmp, true =>
      r ← zfor_ret 0 (a_count a)
        (fun i _ =>
           x ← get_elem (a_data a) i;
           if cmp x key =? 0 then mret (inr (SCL_OK, Some i)) else mret (inl tt)) tt;
      mret (match r with inl _ => (SCL_ERR_NOT_FOUND, None) | inr a => a end)
  | _, _, _, _ => mret (SCL_ERR_NULL_PTR, None)
  end.

Definition scl_array_binary_search arr (key : option A) (cmp : option (A -> A -> Z)) (out_index : bool)
    : res answer :=
  match arr, key, cmp, out_index with
  | Some a, Some key, Some cmp, true =>
      loop (S (Z.to_nat (a_count a)))
        (fun '(lo, hi) =>
           if lo <? hi then
             let mid := lo + (hi - lo) / 2 in
             elem ← get_elem (a_data a) mid;
             let c := cmp elem key in
             if c <? 0 then mret (inl (mid + 1, hi))
             else if c >? 0 then mret (inl (lo, mid))
             else mret (inr (SCL_OK, Some mid))
           else mret (inr (SCL_ERR_NOT_FOUND, None)))
        (0, a_count a)
  | _, _, _, _ => mret (SCL_ERR_NULL_PTR, None)
  end.
End Defs.

(** ** The operations as one step function

    Index and capacity arguments are converted to [size_t]. *)
Inductive array_op (A : Type) : Type :=
| AReserve (new_capacity : Z)
| APush (element : option A)
| APop (out : bool)
| AGet (index : Z) (out : bool)
| ASet (index : Z) (element : option A)
| AInsert (index : Z) (element : option A)
| ARemove (index : Z) (out : bool)
| AShrink
| ACount
| ACapacity
| AEmpty
| ALinear (key : option A) (cmp : option (A -> A -> Z)) (out_index : bool)
| ABinary (key : option A) (cmp : option (A -> A -> Z)) (out_index : bool).
Arguments AReserve {A}.
Arguments APush {A}.
Arguments APop {A}.
Arguments AGet {A}.
Arguments ASet {A}.
Arguments AInsert {A}.
Arguments ARemove {A}.
Arguments AShrink {A}.
Arguments ACount {A}.
Arguments ACapacity {A}.
Arguments AEmpty {A}.
Arguments ALinear {A}.
Arguments ABinary {A}.

Section Step.
Context {A : Type} (al : scl_allocator_t).
Implicit Types (l : list A) (data : ptr A) (b : block A) (w : world).

Definition array_step (st : option (scl_array_t A) * world) (op : array_op A)
    : res (reply A * (option (scl_array_t A) * world)) :=
  let '(a, w) := st in
  match op with
  | AReserve n => '(e, a, w) ← scl_array_reserve al w a (u64 n); mret (Code e, (a, w))
  | APush x => '(e, a, w) ← scl_array_push al w a x; mret (Code e, (a, w))
  | APop out => '(e, x, a) ← scl_array_pop a out; mret (value_or e x, (a, w))
  | AGet i out => '(e, x) ← scl_array_get a (u64 i) out; mret (value_or e x, (a, w))
  | ASet i x => '(e, a) ← scl_array_set a (u64 i) x; mret (Code e, (a, w))
  | AInsert i x => '(e, a, w) ← scl_array_insert al w a (u64 i) x; mret (Code e, (a, w))
  | ARemove i out => '(e, x, a) ← scl_array_remove a (u64 i) out; mret (value_or e x, (a, w))
  | AShrink => '(e, a, w) ← scl_array_shrink al w a; mret (Code e, (a, w))
  | ACount => mret (Size (scl_array_count a), (a, w))
  | ACapacity => mret (Size (scl_array_capacity a), (a, w))
  | AEmpty => mret (Flag (scl_array_empty a), (a, w))
  | ALinear key cmp out => r ← scl_array_linear_search a key cmp out; mret (index_or r, (a, w))
  | ABinary key cmp out => r ← scl_array_binary_search a key cmp out; mret (index_or r, (a, w))
  end.

(** ** The abstract array: a list and a capacity. *)

(** The capacity after room was made for one more element. *)
Definition roomy (l : list A) (c : Z) : Z := if zlen l =? c then (if c =? 0 then 4 else 2 * c) else c.

(** What binary search answers: a position of an equal element, or that there
    is none, which is reliable on an ordered array. *)
Definition bisected (cmp : A -> A -> Z) (l : list A) (key : A) (a : answer) : Prop :=
  match a with
  | (SCL_OK, Some i) => exists x, zlook l i = Some x /\ cmp x key = 0
  | (SCL_ERR_NOT_FOUND, None) =>
      Comparator cmp -> ordered cmp l -> forall x, x ∈ l -> cmp x key <> 0
  | _ => False
  end.

Inductive array_spec : list A * Z -> array_op A -> reply A -> list A * Z -> Prop :=
| spec_reserve l c n : array_spec (l, c) (AReserve n) (Code SCL_OK) (l, Z.max c (u64 n))
| spec_apush l c x : array_spec (l, c) (APush (Some x)) (Code SCL_OK) (l ++ [x], roomy l c)
| spec_insert l c i x :
    u64 i <= zlen l ->
    array_spec (l, c) (AInsert i (Some x)) (Code SCL_OK)
      (take (Z.to_nat (u64 i)) l ++ x :: drop (Z.to_nat (u64 i)) l, roomy l c)
| spec_room_refused l c op e :
    (exists n, op = AReserve n /\ c < u64 n) \/ (exists x, op = APush (Some x) /\ zlen l = c) \/
    (exists i x, op = AInsert i (Some x) /\ zlen l = c /\ u64 i <= zlen l) ->
    e = SCL_ERR_SIZE_OVERFLOW \/ e = SCL_ERR_OUT_OF_MEMORY -> array_spec (l, c) op (Code e) (l, c)
| spec_apop l c x : array_spec (l ++ [x], c) (APop true) (Value x) (l, c)
| spec_apop_empty c : array_spec ([], c) (APop true) (Code SCL_ERR_EMPTY) ([], c)
| spec_aget l c i x : zlook l (u64 i) = Some x -> array_spec (l, c) (AGet i true) (Value x) (l, c)
| spec_aset l c i x :
    u64 i < zlen l -> array_spec (l, c) (ASet i (Some x)) (Code SCL_OK) (zupd l (u64 i) x, c)
| spec_remove l c i x :
    zlook l (u64 i) = Some x ->
    array_spec (l, c) (ARemove i true) (Value x)
      (take (Z.to_nat (u64 i)) l ++ drop (Z.to_nat (u64 i + 1)) l, c)
| spec_bad_index l c op i :
    (op = AGet i true \/ (exists x, op = ASet i (Some x)) \/ op = ARemove i true) /\ zlen l <= u64 i \/
    (exists x, op = AInsert i (Some x)) /\ zlen l < u64 i ->
    array_spec (l, c) op (Code SCL_ERR_INVALID_INDEX) (l, c)
| spec_shrink l c : array_spec (l, c) AShrink (Code SCL_OK) (l, zlen l)
| spec_shrink_refused l c : l <> [] -> zlen l < c -> array_spec (l, c) AShrink (Code SCL_ERR_OUT_OF_MEMORY) (l, c)
| spec_acount l c : array_spec (l, c) ACount (Size (zlen l)) (l, c)
| spec_acapacity l c : array_spec (l, c) ACapacity (Size c) (l, c)
| spec_aempty l c : array_spec (l, c) AEmpty (Flag (bool_decide (l = []))) (l, c)
| spec_alinear l c key cmp a :
    found_first cmp l key a -> array_spec (l, c) (ALinear (Some key) (Some cmp) true) (index_or a) (l, c)
| spec_abinary l c key cmp a :
    bisected cmp l key a -> array_spec (l, c) (ABinary (Some key) (Some cmp) true) (index_or a) (l, c)
| spec_anull l c op :
    op = APush None \/ op = APop false \/ (exists i, op = AGet i false) \/ (exists i, op = ASet i None) \/
    (exists i, op = AInsert i None) \/ (exists i, op = ARemove i false) \/
    (exists key cmp out, (op = ALinear key cmp out \/ op = ABinary key cmp out) /\
       (key = None \/ cmp = None \/ out = false)) ->
    array_spec (l, c) op (Code SCL_ERR_NULL_PTR) (l, c).

(** ** The refinement *)
Definition array_rep (es live0 : Z) (st : option (scl_array_t A) * world) (a : list A * Z) : Prop :=
  exists data w, st = (Some (Arr data es a.2 (zlen a.1)), w) /\ owns data a.2 es a.1 /\
    w_live w = live0 + held data.

Lemma array_rep_intro data es c n w live0 l :
  owns data c es l -> n = zlen l -> w_live w = live0 + held data ->
  array_rep es live0 (Some (Arr data es c n), w) (l, c).
Proof. intros Ho -> Hw. by exists data, w. Qed.

Lemma wp_move b dst src n (Q : block A -> Prop) :
  0 <= dst -> 0 <= src -> 0 <= n -> dst + n <= zlen b -> src + n <= zlen b ->
  (forall b', zlen b' = zlen b ->
     (forall j, zlook b' j = if decide (dst <= j < dst + n) then zlook b (src + (j - dst)) else zlook b j) ->
     Q b') ->
  wp (move_cells b dst src n) Q.
Proof.
  intros H1 H2 H3 H4 H5 HQ. unfold move_cells.
  destruct (Z.leb_spec 0 dst); [|lia]. destruct (Z.leb_spec 0 src); [|lia].
  destruct (Z.leb_spec 0 n); [|lia]. destruct (Z.leb_spec (dst + n) (zlen b)); [|lia].
  destruct (Z.leb_spec (src + n) (zlen b)); [|lia]. simpl. apply HQ.
  - autorewrite with zl zlk. lia.
  - intros j. zcells.
Qed.

(** Making a hole at [i] and filling it. *)
Lemma stored_insert b b' l i x :
  0 <= i <= zlen l -> zlen l < zlen b -> zlen b' = zlen b -> stored b l ->
  (forall j, zlook b' j = if decide (i + 1 <= j < i + 1 + (zlen l - i)) then zlook b (i + (j - (i + 1)))
                          else zlook b j) ->
  stored (zupd b' i (Some x)) (take (Z.to_nat i) l ++ x :: drop (Z.to_nat i) l).
Proof.
  intros Hi Hl Hb S H j y Hy. assert (zlen (take (Z.to_nat i) l) = i) as Et by (rewrite zlen_take by lia; lia).
  rewrite zlook_app, Et, zlook_cons, zlook_take, zlook_drop in Hy by lia.
  rewrite zlook_zupd. destruct (Z.ltb_spec j i).
  - rewrite decide_False by lia. rewrite H, decide_False by lia. by apply S.
  - destruct (Z.eqb_spec (j - i) 0).
    + rewrite decide_True by lia. by simplify_eq.
    + rewrite decide_False by lia. destruct (Z.leb_spec 0 (j - i - 1)); [|lia].
      pose proof (zlook_Some _ _ _ Hy). rewrite H, decide_True by lia. apply S. rewrite <- Hy. f_equal. lia.
Qed.

(** Closing the hole at [i]. *)
Lemma stored_remove b b' l i :
  0 <= i < zlen l -> stored b l ->
  (forall j, zlook b' j = if decide (i <= j < i + (zlen l - i - 1)) then zlook b (i + 1 + (j - i)) else zlook b j) ->
  stored b' (take (Z.to_nat i) l ++ drop (Z.to_nat (i + 1)) l).
Proof.
  intros Hi S H j y Hy. assert (zlen (take (Z.to_nat i) l) = i) as Et by (rewrite zlen_take by lia; lia).
  rewrite zlook_app, Et, zlook_take, zlook_drop in Hy by lia. destruct (Z.ltb_spec j i).
  - rewrite H, decide_False by lia. by apply S.
  - destruct (Z.leb_spec 0 (j - i)); [|lia]. pose proof (zlook_Some _ _ _ Hy).
    rewrite H, decide_True by lia. by apply S.
Qed.

Lemma zlen_insert l i x :
  0 <= i <= zlen l -> zlen (take (Z.to_nat i) l ++ x :: drop (Z.to_nat i) l) = zlen l + 1.
Proof. intros Hi. autorewrite with zl zlk. lia. Qed.

Lemma zlen_remove l i :
  0 <= i < zlen l -> zlen (take (Z.to_nat i) l ++ drop (Z.to_nat (i + 1)) l) = zlen l - 1.
Proof. intros Hi. autorewrite with zl zlk. lia. Qed.

Context `{!AllocatorOk al}.

(** The byte size of an owned block does not overflow. *)
Lemma owns_bytes data cap es l :
  1 <= es < 2 ^ 64 -> owns data cap es l -> scl_mul_overflow cap es = Some (cap * es).
Proof.
  intros Hes Ho. pose proof (owns_len _ _ _ _ Ho) as (_ & Hc & Hc2). specialize (Hc2 ltac:(lia)).
  unfold PTRDIFF_MAX in *. rewrite scl_mul_overflow_spec by (unfold is_u64; lia).
  assert (cap * es < 2 ^ 64); [|by bcase; [|lia]].
  destruct data as [|b|]; [destruct Ho as [-> _]; lia| |done]. destruct Ho as (_ & _ & Hm & _).
  unfold PTRDIFF_MAX in Hm. lia.
Qed.

Lemma wp_array_reserve data es c n w live0 l (Q : scl_error_t * option (scl_array_t A) * world -> Prop) :
  1 <= es < 2 ^ 64 -> is_u64 n -> owns data c es l -> w_live w = live0 + held data ->
  (forall data' w', owns data' (Z.max c n) es l -> w_live w' = live0 + held data' ->
     Q (SCL_OK, Some (Arr data' es (Z.max c n) (zlen l)), w')) ->
  (forall e a w', c < n -> e = SCL_ERR_SIZE_OVERFLOW \/ e = SCL_ERR_OUT_OF_MEMORY ->
     array_rep es live0 (Some a, w') (l, c) -> Q (e, Some a, w')) ->
  wp (scl_array_reserve al w (Some (Arr data es c (zlen l))) n) Q.
Proof.
  intros Hes Hn Ho Hw HQ1 HQ2. unfold scl_array_reserve. destruct (Z.leb_spec n c).
  - wstep. assert (Z.max c n = c) as E by lia. rewrite E in HQ1. by apply HQ1.
  - rewrite (owns_bytes data c es l) by done. pose proof (owns_len _ _ _ _ Ho) as (_ & Hc & _).
    rewrite scl_mul_overflow_spec by (done || unfold is_u64; lia).
    destruct (Z.ltb_spec (n * es) (2 ^ 64)).
    2:{ wstep. apply HQ2; [lia|auto|by apply array_rep_intro]. }
    wstep. apply (wp_realloc_grow al w data c es l n); [done|done|lia|lia| |].
    + intros tmp p' w' Ho' Hw'. wstep. assert (Z.max c n = n) as E by lia. rewrite E in HQ1.
      apply HQ1; [done|]. simpl. lia.
    + intros w' Hw'. wstep. apply HQ2; [lia|auto|]. apply array_rep_intro; [done|done|lia].
Qed.

Lemma wp_array_room data es c w live0 l (Q : scl_error_t * option (scl_array_t A) * world -> Prop) :
  1 <= es < 2 ^ 64 -> owns data c es l -> w_live w = live0 + held data ->
  (forall b w', owns (Ptr b) (roomy l c) es l -> zlen l < roomy l c -> w_live w' = live0 + 1 ->
     Q (SCL_OK, Some (Arr (Ptr b) es (roomy l c) (zlen l)), w')) ->
  (forall e a w', zlen l = c -> e = SCL_ERR_SIZE_OVERFLOW \/ e = SCL_ERR_OUT_OF_MEMORY ->
     array_rep es live0 (Some a, w') (l, c) -> Q (e, Some a, w')) ->
  wp (array_room al w (Some (Arr data es c (zlen l)))) Q.
Proof.
  intros Hes Ho Hw HQ1 HQ2. pose proof (owns_len _ _ _ _ Ho) as (Hl & Hc & Hc2). specialize (Hc2 ltac:(lia)).
  unfold PTRDIFF_MAX in Hc2. unfold array_room. simpl. unfold roomy in HQ1.
  assert (forall d c' w', owns d c' es l -> zlen l < c' -> w_live w' = live0 + held d ->
    exists b, d = Ptr b /\ w_live w' = live0 + 1) as Hp.
  { intros d c' w' Ho' Hlt Hw'. destruct d as [|b|]; [destruct Ho' as [-> _]; lia|by exists b|done]. }
  destruct (Z.eqb_spec (zlen l) c) as [E|E].
  - eapply wp_array_reserve; [done| |done|done| |].
    + unfold is_u64. bcase; [lia|]. apply u64_range.
    + set (n := if c =? 0 then 4 else u64 (c * 2)). set (m := if c =? 0 then 4 else 2 * c) in HQ1.
      assert (Z.max c n = m /\ zlen l < m) as [-> Hlt].
      { unfold n, m. bcase; [lia|]. rewrite u64_small by lia. lia. }
      intros d w' Ho' Hw'. destruct (Hp _ _ _ Ho' Hlt Hw') as (b & -> & Hw2). by apply HQ1.
    + intros e a w' _ He R. by apply HQ2.
  - wstep. destruct (Hp _ _ _ Ho ltac:(lia) Hw) as (b & -> & Hw2). apply HQ1; (done || lia).
Qed.

Lemma wp_shrink_realloc b es c w live0 l (Q : option (block A) * ptr A * world -> Prop) :
  1 <= es < 2 ^ 64 -> owns (Ptr b) c es l -> 0 < zlen l -> w_live w = live0 + 1 ->
  (forall tmp p' w', owns (Ptr tmp) (zlen l) es l -> w_live w' = live0 + 1 -> Q (Some tmp, p', w')) ->
  (forall w', w_live w' = live0 + 1 -> Q (None, Ptr b, w')) ->
  wp (scl_realloc al w (Ptr b) (c * es) (zlen l * es) MAX_ALIGN es) Q.
Proof.
  intros Hes Ho Hl Hw HQ1 HQ2. pose proof (owns_len _ _ _ _ Ho) as (Hlc & _).
  destruct Ho as (Eb & Hc & Hm & S). unfold scl_realloc.
  assert (scl_min_sz (c * es) (zlen l * es) = zlen l * es) as -> by (unfold scl_min_sz; bcase; nia).
  destruct (realloc_fn al _ _ _ _ _) eqn:Er; simpl.
  - rewrite !Z.div_mul by lia. apply HQ1; [|simpl; lia].
    assert (length (take (Z.to_nat (zlen l)) b) = Z.to_nat (zlen l)) as El
      by (rewrite length_take; unfold zlen in *; lia).
    rewrite El, Nat.sub_diag, app_nil_r. split; [unfold zlen in *; lia|]. split; [done|].
    split; [nia|]. by apply stored_block.
  - apply HQ2. simpl. lia.
  - exfalso. unfold PTRDIFF_MAX in Hm. apply realloc_fn_kept in Er; unfold SIZE_MAX; nia.
Qed.

Lemma wp_array_binary data es c l key cmp :
  owns data c es l ->
  wp (scl_array_binary_search (Some (Arr data es c (zlen l))) (Some key) (Some cmp) true) (bisected cmp l key).
Proof.
  intros Ho. pose proof (zlen_nonneg l). unfold scl_array_binary_search. cbn [a_count a_data].
  apply (wp_loop (fun '(lo, hi) => 0 <= lo <= hi /\ hi <= zlen l /\
    (Comparator cmp -> ordered cmp l -> outside cmp l key lo hi)) (fun '(lo, hi) => hi - lo)); [|lia|lia|].
  { split; [lia|]. split; [lia|]. intros _ _. apply outside_all. }
  intros [lo hi] (H1 & H2 & O). bcase.
  2:{ wstep. intros C Ho2. apply (outside_found _ _ _ lo hi); [lia|by apply O]. }
  cbv zeta. set (mid := lo + (hi - lo) / 2). assert (lo <= mid < hi) by (unfold mid; zdiv).
  destruct (zlook_lt l mid ltac:(lia)) as [x Hx]. wstep. eapply owned_get; [done|done|].
  rewrite Z.gtb_ltb. destruct (Z.ltb_spec (cmp x key) 0); [|destruct (Z.ltb_spec 0 (cmp x key))]; wstep.
  - split; [|lia]. split; [lia|]. split; [lia|]. intros C Ho2.
    eapply (outside_low cmp l key); [by apply ordered_srt|done..|by apply O].
  - split; [|lia]. split; [lia|]. split; [lia|]. intros C Ho2.
    eapply (outside_high cmp l key); [by apply ordered_srt|done|done|by apply O].
  - exists x. split; [done|lia].
Qed.

Lemma owned_block data c es l : owns data c es l -> 0 < zlen l -> exists b, data = Ptr b.
Proof.
  intros Ho Hl. destruct data as [|b|]; [destruct Ho as [_ ->]; by unfold zlen in Hl|by exists b|done].
Qed.

Lemma wp_array_insert data es c w live0 l i x (Q : scl_error_t * option (scl_array_t A) * world -> Prop) :
  1 <= es < 2 ^ 64 -> owns data c es l -> w_live w = live0 + held data -> 0 <= i <= zlen l ->
  (forall a w', array_rep es live0 (a, w') (take (Z.to_nat i) l ++ x :: drop (Z.to_nat i) l, roomy l c) ->
     Q (SCL_OK, a, w')) ->
  (forall e a w', zlen l = c -> e = SCL_ERR_SIZE_OVERFLOW \/ e = SCL_ERR_OUT_OF_MEMORY ->
     array_rep es live0 (Some a, w') (l, c) -> Q (e, Some a, w')) ->
  wp (scl_array_insert al w (Some (Arr data es c (zlen l))) i (Some x)) Q.
Proof.
  intros Hes Ho Hw Hi HQ1 HQ2. pose proof (owns_len _ _ _ _ Ho) as (Hl & Hc & Hc2). specialize (Hc2 ltac:(lia)).
  unfold PTRDIFF_MAX in Hc2. unfold scl_array_insert. cbn [a_count]. rewrite Z.gtb_ltb.
  destruct (Z.ltb_spec (zlen l) i); [lia|]. wstep. eapply wp_array_room; [done..| |].
  2:{ intros e [d ? ? ?] w' Hf He R. rewrite decide_False by (destruct He; congruence). wstep. by apply HQ2. }
  intros b w' Hb Hlt Hw'. rewrite decide_True by done. rewrite (u64_small (zlen l - i)), Z.gtb_ltb by lia.
  pose proof Hb as (Eb & Hr & Hm & S).
  assert (forall b', zlen b' = zlen b -> (forall j, zlook b' j =
      if decide (i + 1 <= j < i + 1 + (zlen l - i)) then zlook b (i + (j - (i + 1))) else zlook b j) ->
    wp (data ← set_elem (Ptr b') i x;
        mret (SCL_OK, Some (Arr data es (roomy l c) (u64 (zlen l + 1))), w')) Q) as Hset.
  { intros b' Eb' Hj. wstep. apply wp_set_elem; [lia|]. wstep. apply HQ1. apply array_rep_intro.
    - split; [by rewrite zlen_zupd, Eb'|]. split; [done|]. split; [done|]. by apply (stored_insert b); [|lia| | |].
    - rewrite zlen_insert, u64_small by lia. done.
    - done. }
  destruct (Z.ltb_spec 0 (zlen l - i)).
  - wstep. unfold move_elems. wstep. apply wp_move; [lia..|]. intros b' Eb' Hj. wstep. by apply Hset.
  - wstep. apply Hset; [done|]. intros j. by rewrite decide_False by lia.
Qed.

Lemma wp_array_remove data es c w live0 l i x (Q : scl_error_t * option A * option (scl_array_t A) -> Prop) :
  1 <= es < 2 ^ 64 -> owns data c es l -> w_live w = live0 + held data -> zlook l i = Some x ->
  (forall a, array_rep es live0 (a, w) (take (Z.to_nat i) l ++ drop (Z.to_nat (i + 1)) l, c) ->
     Q (SCL_OK, Some x, a)) ->
  wp (scl_array_remove (Some (Arr data es c (zlen l))) i true) Q.
Proof.
  intros Hes Ho Hw Hx HQ. pose proof (owns_len _ _ _ _ Ho) as (Hl & Hc & Hc2). specialize (Hc2 ltac:(lia)).
  unfold PTRDIFF_MAX in Hc2. pose proof (zlook_Some _ _ _ Hx) as Hi. unfold scl_array_remove. rewrite Z.geb_leb.
  destruct (Z.leb_spec (zlen l) i); [lia|]. wstep. eapply owned_get; [done..|].
  destruct (owned_block _ _ _ _ Ho ltac:(lia)) as [b ->]. destruct Ho as (Eb & Hr & Hm & S).
  rewrite (u64_small (zlen l - i - 1)), Z.gtb_ltb by lia.
  assert (forall b', zlen b' = zlen b -> (forall j, zlook b' j =
      if decide (i <= j < i + (zlen l - i - 1)) then zlook b (i + 1 + (j - i)) else zlook b j) ->
    wp (mret (SCL_OK, Some x, Some (Arr (Ptr b') es c (u64 (zlen l - 1))))) Q) as Hend.
  { intros b' Eb' Hj. wstep. apply HQ, array_rep_intro; [|rewrite zlen_remove, u64_small by lia; done|done].
    split; [by rewrite Eb'|]. split; [done|]. split; [done|]. by eapply stored_remove. }
  destruct (Z.ltb_spec 0 (zlen l - i - 1)).
  - wstep. unfold move_elems. wstep. apply wp_move; [lia..|]. intros b' Eb' Hj. wstep. by apply Hend.
  - wstep. apply Hend; [done|]. intros j. by rewrite decide_False by lia.
Qed.

Lemma wp_array_push data es c w live0 l x (Q : scl_error_t * option (scl_array_t A) * world -> Prop) :
  1 <= es < 2 ^ 64 -> owns data c es l -> w_live w = live0 + held data ->
  (forall a w', array_rep es live0 (a, w') (l ++ [x], roomy l c) -> Q (SCL_OK, a, w')) ->
  (forall e a w', zlen l = c -> e = SCL_ERR_SIZE_OVERFLOW \/ e = SCL_ERR_OUT_OF_MEMORY ->
     array_rep es live0 (Some a, w') (l, c) -> Q (e, Some a, w')) ->
  wp (scl_array_push al w (Some (Arr data es c (zlen l))) (Some x)) Q.
Proof.
  intros Hes Ho Hw HQ1 HQ2. pose proof (owns_len _ _ _ _ Ho) as (Hl & Hc & Hc2). specialize (Hc2 ltac:(lia)).
  unfold PTRDIFF_MAX in Hc2. unfold scl_array_push. cbn [a_count]. wstep. eapply wp_array_room; [done..| |].
  2:{ intros e [d ? ? ?] w' Hf He R. rewrite decide_False by (destruct He; congruence). wstep. by apply HQ2. }
  intros b w' Hb Hlt Hw'. rewrite decide_True by done. pose proof Hb as (Eb & Hr & Hm & S).
  wstep. apply wp_set_elem; [lia|]. wstep. apply HQ1, array_rep_intro; [| |done].
  - split; [by rewrite zlen_zupd|]. split; [done|]. split; [done|]. apply stored_snoc; [lia|done].
  - rewrite u64_small, zlen_app by lia. done.
Qed.

Lemma wp_array_shrink data es c w live0 l (Q : scl_error_t * option (scl_array_t A) * world -> Prop) :
  1 <= es < 2 ^ 64 -> owns data c es l -> w_live w = live0 + held data ->
  (forall a w', array_rep es live0 (a, w') (l, zlen l) -> Q (SCL_OK, a, w')) ->
  (forall a w', l <> [] -> zlen l < c -> array_rep es live0 (a, w') (l, c) ->
     Q (SCL_ERR_OUT_OF_MEMORY, a, w')) ->
  wp (scl_array_shrink al w (Some (Arr data es c (zlen l)))) Q.
Proof.
  intros Hes Ho Hw HQ1 HQ2. pose proof (owns_len _ _ _ _ Ho) as (Hl & Hc & Hc2). specialize (Hc2 ltac:(lia)).
  unfold PTRDIFF_MAX in Hc2. unfold scl_array_shrink. destruct (Z.eqb_spec (zlen l) c) as [E|E].
  { wstep. apply HQ1. rewrite E. by apply array_rep_intro. }
  rewrite (owns_bytes data c es l), scl_mul_overflow_spec by (done || unfold is_u64; lia).
  destruct data as [|b|]; [destruct Ho as [-> ->]; done| |done]. pose proof Ho as (_ & _ & Hm & _).
  unfold PTRDIFF_MAX in Hm. assert (zlen l * es < 2 ^ 64) by nia. destruct (Z.ltb_spec (zlen l * es) (2 ^ 64)); [|lia].
  destruct (Z.eqb_spec (zlen l) 0) as [E0|E0].
  - assert (l = []) as -> by (destruct l; [done|rewrite zlen_cons in E0; pose proof (zlen_nonneg l); lia]).
    simpl. apply HQ1, array_rep_intro; [done|done|simpl in *; lia].
  - wstep. eapply wp_shrink_realloc; [done|done|lia|done| |].
    + intros tmp p' w' Ho' Hw'. wstep. apply HQ1. by apply array_rep_intro.
    + intros w' Hw'. wstep. apply HQ2; [by intros ->|lia|]. by apply array_rep_intro.
Qed.

#[export] Instance array_simulates es live0 :
  1 <= es < 2 ^ 64 -> Simulates array_step array_spec (array_rep es live0).
Proof.
  intros Hes st [l c] op (data & w & -> & Ho & Hw). cbn [fst snd] in Ho, Hw |- *.
  pose proof (array_rep_intro _ _ _ _ w live0 l Ho eq_refl Hw) as R.
  pose proof (owns_len _ _ _ _ Ho) as (Hl & Hc & Hc2). specialize (Hc2 ltac:(lia)). unfold PTRDIFF_MAX in Hc2.
  assert (zlen l =? 0 = bool_decide (l = [])) as Eemp.
  { destruct l as [|x l]; [done|]. rewrite zlen_cons in *. pose proof (zlen_nonneg l). by bcase; [lia|]. }
  destruct op as [n|[x|]|[|]|i [|]|i [x|]|i [x|]|i [|]| | | | |key cmp out|key cmp out]; unfold array_step;
    try pose proof (u64_range i) as Hi;
    try (exists (l, c); split; [apply spec_anull; eauto 10|done]).
  - wstep. pose proof (u64_range n) as Hn. apply (wp_array_reserve data es c (u64 n) w live0); [done|done|done|done| |].
    + intros d w' Ho' Hw'. wstep. eexists. split; [apply spec_reserve|]. by apply array_rep_intro.
    + intros e a w' Hlt He R'. wstep. exists (l, c). split; [apply spec_room_refused; eauto|done].
  - wstep. apply (wp_array_push data es c w live0); [done..| |].
    + intros a w' R'. wstep. eexists. split; [apply spec_apush|done].
    + intros e a w' Hf He R'. wstep. exists (l, c). split; [apply spec_room_refused; eauto 6|done].
  - unfold scl_array_pop. rewrite Eemp. destruct (list_last_case l) as [->|(l' & x & ->)]; simpl.
    { exists ([], c). split; [apply spec_apop_empty|done]. }
    rewrite bool_decide_eq_false_2 by by destruct l'. rewrite zlen_app in *. change (zlen [x]) with 1 in *.
    pose proof (zlen_nonneg l'). rewrite u64_small by lia. replace (zlen l' + 1 - 1) with (zlen l') by lia.
    do 2 wstep. eapply owned_get; [done| |].
    { rewrite zlook_app. bcase; [lia|]. by rewrite Z.sub_diag. }
    wstep. wstep. exists (l', c). split; [apply spec_apop|]. apply array_rep_intro; [by eapply owns_prefix|done|done].
  - unfold scl_array_get. cbn [a_count a_data]. rewrite Z.geb_leb. destruct (Z.leb_spec (zlen l) (u64 i)).
    { exists (l, c). split; [apply (spec_bad_index _ _ _ i); left; eauto|done]. }
    destruct (zlook_lt l (u64 i) ltac:(lia)) as [x Hx]. do 2 wstep. eapply owned_get; [done..|].
    wstep. wstep. exists (l, c). split; [by constructor|done].
  - unfold scl_array_set. rewrite Z.geb_leb. destruct (Z.leb_spec (zlen l) (u64 i)).
    { exists (l, c). split; [apply (spec_bad_index _ _ _ i); left; eauto 10|done]. }
    destruct (owned_block _ _ _ _ Ho ltac:(lia)) as [b ->]. destruct Ho as (Eb & Hr & Hm & S).
    do 2 wstep. apply wp_set_elem; [lia|]. wstep. wstep. eexists. split; [by constructor|].
    apply array_rep_intro; [|by rewrite zlen_zupd|done].
    split; [by rewrite zlen_zupd|]. split; [done|]. split; [done|].
    apply stored_update; [lia|done].
  - destruct (Z.ltb_spec (zlen l) (u64 i)) as [Hgt|Hle].
    { unfold scl_array_insert. cbn [a_count]. rewrite Z.gtb_ltb, (proj2 (Z.ltb_lt _ _) Hgt).
      exists (l, c). split; [apply (spec_bad_index _ _ _ i); right; eauto|done]. }
    wstep. apply (wp_array_insert data es c w live0); [done|done|done|lia| |].
    + intros a w' R'. wstep. eexists. split; [by constructor|done].
    + intros e a w' Hf He R'. wstep. exists (l, c). split; [apply spec_room_refused; eauto 10|done].
  - destruct (Z.leb_spec (zlen l) (u64 i)) as [Hge|Hlt].
    { unfold scl_array_remove. rewrite Z.geb_leb, (proj2 (Z.leb_le _ _) Hge).
      exists (l, c). split; [apply (spec_bad_index _ _ _ i); left; eauto|done]. }
    destruct (zlook_lt l (u64 i) ltac:(lia)) as [x Hx]. wstep.
    apply (wp_array_remove data es c w live0 l (u64 i) x); [done..|]. intros a R'. wstep.
    eexists. split; [by constructor|done].
  - wstep. apply (wp_array_shrink data es c w live0); [done..| |].
    + intros a w' R'. wstep. eexists. split; [apply spec_shrink|done].
    + intros a w' Hne Hlt R'. wstep. exists (l, c). split; [by constructor|done].
  - exists (l, c). split; [constructor|done].
  - exists (l, c). split; [constructor|done].
  - exists (l, c). simpl. rewrite Eemp. split; [constructor|done].
  - destruct key as [key|], cmp as [cmp|], out;
      try (exists (l, c); split; [apply spec_anull; do 6 right; eauto 10|done]).
    wstep. eapply wp_mono; [apply (wp_search_scan cmp (get_elem data))|].
    + intros i x Q Hx HQ. by eapply owned_get.
    + intros a Ha. wstep. exists (l, c). split; [by constructor|done].
  - destruct key as [key|], cmp as [cmp|], out;
      try (exists (l, c); split; [apply spec_anull; do 6 right; eauto 10|done]).
    wstep. eapply wp_mono; [by eapply wp_array_binary|].
    intros a Ha. wstep. exists (l, c). split; [by constructor|done].
Qed.

Lemma array_init_spec w (a0 : scl_array_t A) es cap :
  1 <= es < 2 ^ 64 -> 0 <= cap < 2 ^ 64 ->
  let '(e, a, w') := scl_array_init al w (Some a0) es cap in
  (e = SCL_OK /\ array_rep es (w_live w) (a, w') ([], cap)) \/
  ((e = SCL_ERR_SIZE_OVERFLOW /\ 2 ^ 64 <= cap * es \/ e = SCL_ERR_OUT_OF_MEMORY /\ 0 < cap) /\
   w_live w' = w_live w /\ a = Some (Arr Null es 0 0)).
Proof.
  intros Hes Hcap. unfold scl_array_init. destruct (Z.eqb_spec es 0); [lia|].
  destruct (Z.gtb_spec cap 0).
  2:{ left. split; [done|]. replace cap with 0 by lia. apply array_rep_intro; [done|done|simpl; lia]. }
  rewrite scl_mul_overflow_spec by (unfold is_u64; lia).
  destruct (Z.ltb_spec (cap * es) (2 ^ 64)); [|right; split; [left|]; auto].
  destruct (scl_alloc al w (cap * es) MAX_ALIGN es) as [b w1] eqn:Ea.
  apply (owns_alloc (A := A) al) in Ea as [Hw Ho]; [|lia]. destruct b as [b|]; simpl in Hw.
  - left. split; [done|]. by apply array_rep_intro.
  - right. split; [right; split; [done|lia]|]. split; [lia|done].
Qed.
End Step.

(** The replies for a [NULL] array. *)
Definition array_null_reply {A} (op : array_op A) : reply A :=
  match op with ACount | ACapacity => Size 0 | AEmpty => Flag true | _ => Code SCL_ERR_NULL_PTR end.

(** The dynamic array refines a list with its capacity: after a successful
    initialisation every sequence of operations runs without stray accesses
    and answers as the abstract array does: [insert] and [remove] shift the
    tail, [get] and [set] and the others check their indices, growth doubles
    the capacity, [shrink] reduces it to the length, a refused allocation
    changes nothing, linear search finds the first equal element and binary
    search is correct on ordered arrays; destroying the array returns every
    block, a failed initialisation keeps none, and a [NULL] array is refused
    by every operation. *)
Theorem array_refines {A} (al : scl_allocator_t) (w : world) (a0 : scl_array_t A) (es cap : Z)
  (ops : list (array_op A)) (Hal : AllocatorOk al) (Hes : 1 <= es < 2 ^ 64) (Hcap : 0 <= cap < 2 ^ 64) :
  (let '(e, a, w1) := scl_array_init al w (Some a0) es cap in
   (e = SCL_OK /\
    exists outs a2 w2 l c w3, run (array_step al) (a, w1) ops = Ok (outs, (a2, w2)) /\
      trace array_spec ([], cap) ops outs (l, c) /\ zlen l <= c /\
      scl_array_destroy w2 a2 = Ok (Some (Arr Null es 0 0), w3) /\ w_live w3 = w_live w) \/
   ((e = SCL_ERR_SIZE_OVERFLOW /\ 2 ^ 64 <= cap * es \/ e = SCL_ERR_OUT_OF_MEMORY /\ 0 < cap) /\
    w_live w1 = w_live w /\ a = Some (Arr Null es 0 0))) /\
  (forall op, array_step al (None, w) op = Ok (array_null_reply (A := A) op, (None, w))).
Proof.
  split; [|by intros []].
  pose proof (array_init_spec al w a0 es cap Hes Hcap) as H.
  destruct (scl_array_init al w (Some a0) es cap) as [[e a] w1]. destruct H as [[-> R]|H]; [left|by right].
  split; [done|]. pose proof (array_simulates (A := A) al es (w_live w) Hes) as Sim.
  destruct (proj1 (wp_ok _ _) (run_refines _ _ _ (a, w1) _ ops R)) as ([outs a2] & E & [l c] & T & R2).
  destruct R2 as (data & w2 & -> & Ho & Hw). simpl in Ho, Hw. pose proof (owns_len _ _ _ _ Ho) as (Hl & _).
  exists outs. do 2 eexists. exists l, c.
  destruct data as [|b|]; [| |done]; simpl in *; eexists;
    (split; [done|]); (split; [done|]); (split; [lia|]); (split; [done|]); simpl; lia.
Qed.

Lemma array_refines_witness :
  exists outs s, trace (array_spec (A := Z)) ([], 2) [APush (Some 5); AInsert 0 (Some 4); ARemove 1 true] outs s.
Proof.
  destruct (array_refines small_allocator (World 0 0) (Arr (Null (A := Z)) 0 0 0) 8 2
    [APush (Some 5); AInsert 0 (Some 4); ARemove 1 true] _ ltac:(lia) ltac:(lia))
    as [[(_ & outs & _ & _ & l & c & _ & _ & T & _)|(H & _)] _].
  - exists outs, (l, c). exact T.
  - exfalso. vm_compute in H. destruct H as [[H _]|[H _]]; discriminate H.
Defined.
