(* ===== verification/Heap.v ===== *)
(** The binary heap of [libs/structures/heap/scl_heap.c], refined to a bag of
    elements from which a least one is taken. *)

From S2P Require Import Prelude Core Search Refine Containers.
#[local] Open Scope Z_scope.
#[local] Arguments scl_mul_overflow : simpl never.

Record scl_heap_t (A : Type) : Type := Heap {
  h_data : ptr A;
  h_element_size : Z;
  h_capacity : Z;
  h_count : Z;
  h_cmp : A -> A -> Z
}.
Arguments Heap {A}.
Arguments h_data {A}.
Arguments h_element_size {A}.
Arguments h_capacity {A}.
Arguments h_count {A}.
Arguments h_cmp {A}.

Section Defs.
Context {A : Type} (al : scl_allocator_t).
Implicit Types (w : world) (heap : option (scl_heap_t A)) (data : ptr A).

Definition scl_heap_init w heap (element_size initial_capacity : Z) (cmp : option (A -> A -> Z))
    : scl_error_t * option (scl_heap_t A) * world :=
  match heap, cmp with
  | Some h, Some cmp =>
      if element_size =? 0 then (SCL_ERR_INVALID_ARG, Some h, w)
      else
        let h := Heap Null element_size 0 0 cmp in
        if initial_capacity >? 0 then
          match scl_mul_overflow initial_capacity element_size with
          | None => (SCL_ERR_SIZE_OVERFLOW, Some h, w)
          | Some bytes =>
              match scl_alloc al w bytes MAX_ALIGN element_size with
              | (None, w) => (SCL_ERR_OUT_OF_MEMORY, Some h, w)
              | (Some b, w) => (SCL_OK, Some (Heap (Ptr b) element_size initial_capacity 0 cmp), w)
              end
          end
        else (SCL_OK, Some h, w)
  | _, _ => (SCL_ERR_NULL_PTR, heap, w)
  end.

Definition scl_heap_destroy w heap : res (option (scl_heap_t A) * world) :=
  match heap with
  | None => mret (None, w)
  | Some h =>
      w ← free_ptr w (h_data h);
      mret (Some (Heap Null (h_element_size h) 0 0 (h_cmp h)), w)
  end.

Definition scl_heap_parent (i : Z) : Z := u64 (i - 1) / 2.
Definition scl_heap_left (i : Z) : Z := u64 (2 * i + 1).
Definition scl_heap_right (i : Z) : Z := u64 (2 * i + 2).

(** The loops of the C function are those of [scl_sort_swap]; [ByteSwap.v]
    shows that they exchange two elements. *)
Definition scl_heap_swap data (i j : Z) : res (ptr A) :=
  x ← get_elem data i; y ← get_elem data j;
  data ← set_elem data i y; set_elem data j x.

Definition scl_heap_sift_up (cmp : A -> A -> Z) data (i : Z) : res (ptr A) :=
  loop (S (Z.to_nat i))
    (fun '(data, i) =>
       if i >? 0 then
         let p := scl_heap_parent i in
         x ← get_elem data p; y ← get_elem data i;
         if cmp x y <=? 0 then mret (inr data)
         else data ← scl_heap_swap data i p; mret (inl (data, p))
       else mret (inr data))
    (data, i).

(** The test of one child of a sift-down step. *)
Definition smaller_child (cmp : A -> A -> Z) data (n c smallest : Z) : res Z :=
  if c <? n then
    x ← get_elem data c; y ← get_elem data smallest;
    mret (if cmp x y <? 0 then c else smallest)
  else mret smallest.

Definition scl_heap_sift_down (cmp : A -> A -> Z) data (n i : Z) : res (ptr A) :=
  loop (S (Z.to_nat n))
    (fun '(data, i) =>
       smallest ← smaller_child cmp data n (scl_heap_left i) i;
       smallest ← smaller_child cmp data n (scl_heap_right i) smallest;
       if smallest =? i then mret (inr data)
       else data ← scl_heap_swap data i smallest; mret (inl (data, smallest)))
    (data, i).

Definition scl_heap_push w heap (element : option A)
    : res (scl_error_t * option (scl_heap_t A) * world) :=
  match heap, element with
  | Some (Heap data es capacity cnt cmp), Some element =>
      '(err, data, capacity, w) ←
        (if cnt =? capacity then grow al w data capacity es else mret (SCL_OK, data, capacity, w));
      if decide (err = SCL_OK) then
        data ← set_elem data cnt element;
        data ← scl_heap_sift_up cmp data cnt;
        mret (SCL_OK, Some (Heap data es capacity (u64 (cnt + 1)) cmp), w)
      else mret (err, Some (Heap data es capacity cnt cmp), w)
  | _, _ => mret (SCL_ERR_NULL_PTR, heap, w)
  end.

Definition scl_heap_pop heap (out : bool) : res (scl_error_t * option A * option (scl_heap_t A)) :=
  match heap, out with
  | Some (Heap data es capacity count cmp), true =>
      if count =? 0 then mret (SCL_ERR_EMPTY, None, heap)
      else
        x ← get_elem data 0;
        let count := u64 (count - 1) in
        data ← (if count >? 0 then
                  y ← get_elem data count;
                  data ← set_elem data 0 y;
                  scl_heap_sift_down cmp data count 0
                else mret data);
        mret (SCL_OK, Some x, Some (Heap data es capacity count cmp))
  | _, _ => mret (SCL_ERR_NULL_PTR, None, heap)
  end.

Definition scl_heap_peek heap (out : bool) : res (scl_error_t * option A) :=
  match heap, out with
  | Some h, true =>
      if h_count h =? 0 then mret (SCL_ERR_EMPTY, None)
      else x ← get_elem (h_data h) 0; mret (SCL_OK, Some x)
  | _, _ => mret (SCL_ERR_NULL_PTR, None)
  end.

Definition scl_heap_count heap : Z := match heap with Some h => h_count h | None => 0 end.
Definition scl_heap_empty heap : bool := match heap with Some h => h_count h =? 0 | None => true end.

Definition scl_heap_search heap (key : option A) (cmp : option (A -> A -> Z)) (out_index : bool)
    : res answer :=
  match heap, key, cmp, out_index with
  | Some h, Some key, Some cmp, true =>
      r ← zfor_ret 0 (h_count h)
        (fun i _ =>
           x ← get_elem (h_data h) i;
           if cmp x key =? 0 then mret (inr (SCL_OK, Some i)) else mret (inl tt)) tt;
      mret (match r with inl _ => (SCL_ERR_NOT_FOUND, None) | inr a => a end)
  | _, _, _, _ => mret (SCL_ERR_NULL_PTR, None)
  end.
End Defs.

(** ** The operations as one step function *)
Inductive heap_op (A : Type) : Type :=
| HPush (element : option A)
| HPop (out : bool)
| HPeek (out : bool)
| HCount
| HEmpty
| HSearch (key : option A) (cmp : option (A -> A -> Z)) (out_index : bool).
Arguments HPush {A}.
Arguments HPop {A}.
Arguments HPeek {A}.
Arguments HCount {A}.
Arguments HEmpty {A}.
Arguments HSearch {A}.

Section Step.
Context {A : Type} (al : scl_allocator_t) (cmp : A -> A -> Z).
Implicit Types (l : list A) (b : block A) (w : world).

Definition heap_step (st : option (scl_heap_t A) * world) (op : heap_op A)
    : res (reply A * (option (scl_heap_t A) * world)) :=
  let '(h, w) := st in
  match op with
  | HPush x => '(e, h, w) ← scl_heap_push al w h x; mret (Code e, (h, w))
  | HPop out => '(e, x, h) ← scl_heap_pop h out; mret (value_or e x, (h, w))
  | HPeek out => '(e, x) ← scl_heap_peek h out; mret (value_or e x, (h, w))
  | HCount => mret (Size (scl_heap_count h), (h, w))
  | HEmpty => mret (Flag (scl_heap_empty h), (h, w))
  | HSearch key c out => a ← scl_heap_search h key c out; mret (index_or a, (h, w))
  end.

(** ** The abstract heap: a bag, written as a list up to permutation. *)
Definition least (x : A) (l : list A) : Prop := x ∈ l /\ forall y, y ∈ l -> cmp x y <= 0.

Inductive heap_spec : list A -> heap_op A -> reply A -> list A -> Prop :=
| spec_hpush l l' x : l' ≡ₚ x :: l -> heap_spec l (HPush (Some x)) (Code SCL_OK) l'
| spec_hpush_refused l x e :
    e = SCL_ERR_SIZE_OVERFLOW \/ e = SCL_ERR_OUT_OF_MEMORY ->
    heap_spec l (HPush (Some x)) (Code e) l
| spec_hpush_null l : heap_spec l (HPush None) (Code SCL_ERR_NULL_PTR) l
| spec_hpop l l' x : least x l -> l ≡ₚ x :: l' -> heap_spec l (HPop true) (Value x) l'
| spec_hpop_empty : heap_spec [] (HPop true) (Code SCL_ERR_EMPTY) []
| spec_hpop_null l : heap_spec l (HPop false) (Code SCL_ERR_NULL_PTR) l
| spec_hpeek l x : least x l -> heap_spec l (HPeek true) (Value x) l
| spec_hpeek_empty : heap_spec [] (HPeek true) (Code SCL_ERR_EMPTY) []
| spec_hpeek_null l : heap_spec l (HPeek false) (Code SCL_ERR_NULL_PTR) l
| spec_hcount l : heap_spec l HCount (Size (zlen l)) l
| spec_hempty l : heap_spec l HEmpty (Flag (bool_decide (l = []))) l
| spec_hsearch l key c a :
    found_first c l key a -> heap_spec l (HSearch (Some key) (Some c) true) (index_or a) l
| spec_hsearch_null l key c out :
    key = None \/ c = None \/ out = false ->
    heap_spec l (HSearch key c out) (Code SCL_ERR_NULL_PTR) l.

(** ** The heap order *)
Definition child (i c : Z) : Prop := 0 <= i /\ (c = 2 * i + 1 \/ c = 2 * i + 2).
Definition above l (i c : Z) : Prop := forall x y, zlook l i = Some x -> zlook l c = Some y -> cmp x y <= 0.
Definition heap_ordered l : Prop := forall i c, child i c -> above l i c.

(** A heap apart from the edge above [i], whose parent is above the children
    of [i]. *)
Definition up_hole l (i : Z) : Prop :=
  (forall j c, child j c -> c <> i -> above l j c) /\
  (forall j c, child j i -> child i c -> above l j c).

(** A heap apart from the edges below [i]. *)
Definition down_hole l (i : Z) : Prop :=
  (forall j c, child j c -> j <> i -> above l j c) /\
  (forall j c, child j i -> child i c -> above l j c).

Context `{!Comparator cmp}.

Lemma heap_least l x : heap_ordered l -> zlook l 0 = Some x -> least x l.
Proof.
  intros H Hx. split; [by eapply zlook_elem|]. intros y Hy. apply elem_zlook in Hy as [p Hp].
  pose proof (zlook_Some _ _ _ Hp) as Hr. revert y Hp. induction (Z.lt_wf 0 p) as [p _ IH]. intros y Hy.
  destruct (decide (p = 0)) as [->|]; [simplify_eq; by rewrite (cmp_refl cmp)|].
  set (i := (p - 1) / 2). assert (0 <= i < p) as Hip by (unfold i; zdiv).
  assert (child i p) as Hc by (unfold child, i; split; zdiv).
  destruct (zlook_lt l i) as [z Hz]; [lia|].
  eapply (cmp_trans cmp _ z); [by apply (IH i); [lia|lia|]|by apply (H i p Hc)].
Qed.

(** Exchanging a node with a parent it belongs above. *)
Lemma up_hole_swap l l' i p x y :
  up_hole l i -> child p i -> zlook l p = Some x -> zlook l i = Some y -> 0 < cmp x y ->
  (forall k, zlook l' k = if decide (k = i) then zlook l p else if decide (k = p) then zlook l i else zlook l k) ->
  up_hole l' p.
Proof.
  intros [H1 H2] Hp Hx Hy Hlt L. assert (0 <= p < i) as Hpi by (destruct Hp; lia).
  assert (cmp y x <= 0) as Hyx by (apply (cmp_le_ge cmp); lia). split.
  - intros j c Hc Hne u v Hu Hv. rewrite L in Hu, Hv. assert (0 <= j < c) as Hjc by (destruct Hc; lia).
    destruct (decide (c = i)) as [->|Hci].
    + assert (j = p) as -> by (destruct Hc, Hp; lia). rewrite decide_False, decide_True in Hu by lia.
      by simplify_eq.
    + rewrite decide_False in Hv by done. destruct (decide (j = i)) as [->|Hji].
      { by apply (H2 p c Hp Hc). }
      destruct (decide (j = p)) as [->|Hjp].
      * simplify_eq. eapply (cmp_trans cmp _ x); [done|]. by apply (H1 p c Hc Hci).
      * by apply (H1 j c Hc Hci).
  - intros j c Hj Hc u v Hu Hv. rewrite L in Hu, Hv. assert (0 <= j < p) as Hjp by (destruct Hj; lia).
    assert (0 <= p < c) as Hpc by (destruct Hc; lia).
    rewrite !decide_False in Hu by lia. rewrite (decide_False (P := c = p)) in Hv by lia.
    assert (cmp u x <= 0) as Hux by (apply (H1 j p Hj); [lia|done|done]).
    destruct (decide (c = i)) as [->|Hci]; [by simplify_eq|].
    eapply (cmp_trans cmp _ x); [done|]. by apply (H1 p c Hc Hci).
Qed.

(** Exchanging a node with its smallest child. *)
Lemma down_hole_swap l l' i s x y :
  down_hole l i -> child i s -> zlook l i = Some x -> zlook l s = Some y -> cmp y x <= 0 ->
  (forall c z, child i c -> zlook l c = Some z -> cmp y z <= 0) ->
  (forall k, zlook l' k = if decide (k = i) then zlook l s else if decide (k = s) then zlook l i else zlook l k) ->
  down_hole l' s.
Proof.
  intros [H1 H2] Hs Hx Hy Hyx Hmin L. assert (0 <= i < s) as His by (destruct Hs; lia). split.
  - intros j c Hc Hne u v Hu Hv. rewrite L in Hu, Hv. assert (0 <= j < c) as Hjc by (destruct Hc; lia).
    destruct (decide (j = i)) as [->|Hji].
    + rewrite decide_False in Hv by lia. simplify_eq. destruct (decide (c = s)) as [->|]; [by simplify_eq|].
      by apply (Hmin c).
    + rewrite decide_False in Hu by done. destruct (decide (c = i)) as [->|Hci].
      * by apply (H2 j s Hc Hs).
      * destruct (decide (c = s)) as [->|Hcs]; [destruct Hc, Hs; lia|]. by apply (H1 j c Hc Hji).
  - intros j c Hj Hc u v Hu Hv. assert (j = i) as -> by (destruct Hj, Hs; lia). rewrite L in Hu, Hv.
    assert (0 <= s < c) as Hsc by (destruct Hc; lia). rewrite decide_True in Hu by done.
    rewrite !decide_False in Hv by lia. by apply (H1 s c Hc ltac:(lia)).
Qed.

(** ** The loops on a block *)
Lemma wp_heap_swap b l i j (Q : ptr A -> Prop) :
  stored b l -> 0 <= i < zlen l -> 0 <= j < zlen l ->
  (forall b' l', zlen b' = zlen b -> stored b' l' -> zlen l' = zlen l -> l' ≡ₚ l ->
     (forall k, zlook l' k = if decide (k = i) then zlook l j
                             else if decide (k = j) then zlook l i else zlook l k) -> Q (Ptr b')) ->
  wp (scl_heap_swap (Ptr b) i j) Q.
Proof.
  intros S Hi Hj HQ. pose proof (stored_len _ _ S). destruct (zlook_lt l i Hi) as [x Hx], (zlook_lt l j Hj) as [y Hy].
  unfold scl_heap_swap. wstep. eapply wp_get_elem; [by apply S|]. wstep. eapply wp_get_elem; [by apply S|].
  wstep. apply wp_set_elem; [lia|]. apply wp_set_elem; [rewrite zlen_zupd; lia|].
  assert (wp (swap l i j) (eq (zupd (zupd l i y) j x))) as Hsw.
  { unfold swap, get. rewrite Hx, Hy. simpl. wstep. apply wp_set; [done|]. apply wp_set; [by rewrite zlen_zupd|done]. }
  assert (wp (swap l i j) (fun l' => zlen l' = zlen l /\ l' ≡ₚ l /\
    (forall k, zlook l' k = if decide (k = i) then zlook l j
                            else if decide (k = j) then zlook l i else zlook l k))) as Hsw2
    by (apply wp_swap; auto).
  destruct (proj1 (wp_ok _ _) (wp_conj _ _ _ Hsw Hsw2)) as (l' & _ & E & El & P & L). subst l'.
  apply (HQ _ (zupd (zupd l i y) j x)); [by rewrite !zlen_zupd| |done..].
  apply stored_update; [by rewrite zlen_zupd|]. by apply stored_update.
Qed.

Lemma sift_up_spec b l i (Q : ptr A -> Prop) :
  stored b l -> zlen l < 2 ^ 63 -> 0 <= i < zlen l -> up_hole l i ->
  (forall b' l', zlen b' = zlen b -> stored b' l' -> l' ≡ₚ l -> heap_ordered l' -> Q (Ptr b')) ->
  wp (scl_heap_sift_up cmp (Ptr b) i) Q.
Proof.
  intros Hst Hl Hi Hh HQ. unfold scl_heap_sift_up.
  apply (wp_loop (fun '(p, j) => exists b' l', p = Ptr b' /\ zlen b' = zlen b /\ stored b' l' /\
    zlen l' = zlen l /\ l' ≡ₚ l /\ 0 <= j < zlen l /\ up_hole l' j) (fun '(_, j) => j)); [|lia|lia|].
  { by exists b, l. }
  intros [p j] (b' & l' & -> & Eb & S & El & P & Hj & H). rewrite Z.gtb_ltb. destruct (Z.ltb_spec 0 j).
  2:{ wstep. assert (j = 0) as -> by lia. apply (HQ b' l'); [done..|]. intros k c Hc.
      apply (proj1 H k c Hc). destruct Hc; lia. }
  cbv zeta. assert (scl_heap_parent j = (j - 1) / 2) as -> by (unfold scl_heap_parent; rewrite u64_small; lia).
  set (q := (j - 1) / 2). assert (0 <= q < j) as Hq by (unfold q; zdiv).
  assert (child q j) as Hc by (split; [lia|unfold q; zdiv]).
  destruct (zlook_lt l' q ltac:(lia)) as [x Hx], (zlook_lt l' j ltac:(lia)) as [y Hy].
  wstep. eapply wp_get_elem; [by apply S|]. wstep. eapply wp_get_elem; [by apply S|].
  destruct (Z.leb_spec (cmp x y) 0).
  - wstep. apply (HQ b' l'); [done..|]. intros k c Hkc. destruct (decide (c = j)) as [->|Hne].
    + assert (k = q) as -> by (destruct Hkc, Hc; lia). intros u v Hu Hv. by simplify_eq.
    + by apply (proj1 H).
  - wstep. eapply wp_heap_swap; [done|lia|lia|]. intros b2 l2 Eb2 S2 El2 P2 L. wstep. split; [|lia].
    exists b2, l2. split; [done|]. split; [lia|]. split; [done|]. split; [lia|].
    split; [by rewrite P2|]. split; [lia|]. by eapply up_hole_swap.
Qed.

Lemma wp_smaller_child b l n c s (Q : Z -> Prop) :
  stored b l -> zlen l = n -> 0 <= c -> 0 <= s < n ->
  (c < n -> forall x y, zlook l c = Some x -> zlook l s = Some y -> cmp x y < 0 -> Q c) ->
  ((forall x y, zlook l c = Some x -> zlook l s = Some y -> cmp y x <= 0) -> Q s) ->
  wp (smaller_child cmp (Ptr b) n c s) Q.
Proof.
  intros S Hl Hc Hs HQ1 HQ2. unfold smaller_child. destruct (Z.ltb_spec c n).
  - destruct (zlook_lt l c ltac:(lia)) as [x Hx], (zlook_lt l s ltac:(lia)) as [y Hy].
    wstep. eapply wp_get_elem; [by apply S|]. wstep. eapply wp_get_elem; [by apply S|]. wstep.
    destruct (Z.ltb_spec (cmp x y) 0); [by eapply HQ1|]. apply HQ2. intros u v Hu Hv. simplify_eq.
    apply (cmp_le_ge cmp). lia.
  - wstep. apply HQ2. intros x y Hx. apply zlook_Some in Hx. lia.
Qed.

Lemma heap_sift_down_spec b l (Q : ptr A -> Prop) :
  stored b l -> 0 < zlen l < 2 ^ 63 -> down_hole l 0 ->
  (forall b' l', zlen b' = zlen b -> stored b' l' -> l' ≡ₚ l -> heap_ordered l' -> Q (Ptr b')) ->
  wp (scl_heap_sift_down cmp (Ptr b) (zlen l) 0) Q.
Proof.
  intros Hst Hl Hh HQ. unfold scl_heap_sift_down.
  apply (wp_loop (fun '(p, j) => exists b' l', p = Ptr b' /\ zlen b' = zlen b /\ stored b' l' /\
    zlen l' = zlen l /\ l' ≡ₚ l /\ 0 <= j < zlen l /\ down_hole l' j) (fun '(_, j) => zlen l - j)); [|lia|lia|].
  { exists b, l. do 5 (split; [done|]). split; [lia|done]. }
  intros [p j] (b' & l' & -> & Eb & S & El & P & Hj & H).
  assert (scl_heap_left j = 2 * j + 1) as -> by (unfold scl_heap_left; rewrite u64_small; lia).
  assert (scl_heap_right j = 2 * j + 2) as -> by (unfold scl_heap_right; rewrite u64_small; lia).
  assert (child j (2 * j + 1)) as C1 by (split; [lia|auto]). assert (child j (2 * j + 2)) as C2 by (split; [lia|auto]).
  destruct (zlook_lt l' j ltac:(lia)) as [x Hx].
  assert (forall s y, s = j \/ child j s -> zlook l' s = Some y -> cmp y x <= 0 ->
    (forall c z, child j c -> zlook l' c = Some z -> cmp y z <= 0) ->
    wp (if s =? j then mret (inr (Ptr b'))
        else data ← scl_heap_swap (Ptr b') j s; mret (inl (data, s)))
       (fun r => match r with
        | inl s' => (let '(p, j) := s' in exists b' l', p = Ptr b' /\ zlen b' = zlen b /\ stored b' l' /\
            zlen l' = zlen l /\ l' ≡ₚ l /\ 0 <= j < zlen l /\ down_hole l' j) /\
            0 <= (let '(_, j) := s' in zlen l - j) < zlen l - j
        | inr r => Q r end)) as Hend.
  { intros s y Hs Hy Hyx Hmin. destruct (Z.eqb_spec s j) as [->|Hne].
    - wstep. apply (HQ b' l'); [done..|]. intros k c Hkc. destruct (decide (k = j)) as [->|]; [|by apply (proj1 H)].
      intros u v Hu Hv. simplify_eq. by apply (Hmin c).
    - destruct Hs as [|Hs]; [done|]. pose proof (zlook_Some _ _ _ Hy). wstep.
      eapply wp_heap_swap; [done|lia|lia|]. intros b2 l2 Eb2 S2 El2 P2 L. wstep.
      split; [|destruct Hs; lia]. exists b2, l2. split; [done|]. split; [lia|]. split; [done|]. split; [lia|].
      split; [by rewrite P2|]. split; [lia|]. by eapply down_hole_swap. }
  wstep. apply (wp_smaller_child b' l'); [done|lia|lia|lia| |].
  - intros Hlt y x' Hy Hx' Hyx. simplify_eq. wstep. apply (wp_smaller_child b' l'); [done|lia|lia|lia| |].
    + intros Hlt2 z y' Hz Hy' Hzy. simplify_eq. apply (Hend _ z); [auto|done| |].
      * eapply (cmp_trans cmp _ y); lia.
      * intros c v [_ [->| ->]] Hv; simplify_eq; [lia|by rewrite (cmp_refl cmp)].
    + intros Hmin. apply (Hend _ y); [auto|done|lia|].
      intros c v [_ [->| ->]] Hv; simplify_eq; [by rewrite (cmp_refl cmp)|by apply Hmin].
  - intros Hmin1. wstep. apply (wp_smaller_child b' l'); [done|lia|lia|lia| |].
    + intros Hlt2 z x' Hz Hx' Hzx. simplify_eq. apply (Hend _ z); [auto|done|lia|].
      intros c v [_ [->| ->]] Hv; simplify_eq; [|by rewrite (cmp_refl cmp)].
      eapply (cmp_trans cmp _ x); [lia|by apply Hmin1].
    + intros Hmin2. apply (Hend _ x); [auto|done|by rewrite (cmp_refl cmp)|].
      intros c v [_ [->| ->]] Hv; [by apply Hmin1|by apply Hmin2].
Qed.

(** ** The refinement *)
Definition heap_rep (es live0 : Z) (st : option (scl_heap_t A) * world) (l : list A) : Prop :=
  exists data cap w, st = (Some (Heap data es cap (zlen l) cmp), w) /\ owns data cap es l /\
    heap_ordered l /\ w_live w = live0 + held data.

Lemma heap_rep_intro data es cap n w live0 l :
  owns data cap es l -> heap_ordered l -> n = zlen l -> w_live w = live0 + held data ->
  heap_rep es live0 (Some (Heap data es cap n cmp), w) l.
Proof. intros Ho H -> Hw. by exists data, cap, w. Qed.

Lemma snoc_up_hole l x : heap_ordered l -> up_hole (l ++ [x]) (zlen l).
Proof.
  intros H. assert (forall c z, zlook (l ++ [x]) c = Some z -> c <> zlen l -> zlook l c = Some z) as Hin.
  { intros c z Hz Hne. pose proof (zlook_Some _ _ _ Hz) as Hr. rewrite zlen_app in Hr. change (zlen [x]) with 1 in Hr.
    rewrite zlook_app in Hz. by destruct (Z.ltb_spec c (zlen l)); [|lia]. }
  split.
  - intros j c Hc Hne u v Hu Hv. pose proof (Hin c v Hv Hne) as Hv'. pose proof (zlook_Some _ _ _ Hv').
    apply (H j c Hc); [|done]. apply Hin; [done|]. destruct Hc; lia.
  - intros j c Hj Hc u v Hu Hv. apply zlook_Some in Hv. rewrite zlen_app in Hv. change (zlen [x]) with 1 in Hv.
    destruct Hc; lia.
Qed.

Lemma last_down_hole x y l : heap_ordered ((x :: l) ++ [y]) -> down_hole (y :: l) 0.
Proof.
  intros H. assert (forall i z, i <> 0 -> zlook (y :: l) i = Some z -> zlook ((x :: l) ++ [y]) i = Some z) as Hin.
  { intros i z Hi Hz. pose proof (zlook_Some _ _ _ Hz) as Hr. rewrite zlen_cons in Hr.
    rewrite zlook_app, zlen_cons. rewrite zlook_cons in Hz |- *. repeat bcase; (done || lia). }
  split.
  - intros j c Hc Hne u v Hu Hv. apply (H j c Hc); apply Hin; try done. destruct Hc; lia.
  - intros j c Hj. destruct Hj; lia.
Qed.

Context `{!AllocatorOk al}.

Lemma wp_heap_push data es cap w live0 l x (Q : scl_error_t * option (scl_heap_t A) * world -> Prop) :
  1 <= es < 2 ^ 64 -> owns data cap es l -> heap_ordered l -> w_live w = live0 + held data ->
  (forall h w' l', l' ≡ₚ x :: l -> heap_rep es live0 (h, w') l' -> Q (SCL_OK, h, w')) ->
  (forall e h w', e = SCL_ERR_SIZE_OVERFLOW \/ e = SCL_ERR_OUT_OF_MEMORY ->
     heap_rep es live0 (h, w') l -> Q (e, h, w')) ->
  wp (scl_heap_push al w (Some (Heap data es cap (zlen l) cmp)) (Some x)) Q.
Proof.
  intros Hes Ho Hh Hw HQ1 HQ2. pose proof (owns_len _ _ _ _ Ho) as (Hl & Hc & Hc2). specialize (Hc2 ltac:(lia)).
  unfold PTRDIFF_MAX in Hc2. unfold scl_heap_push.
  assert (forall b cap' w', owns (Ptr b) cap' es l -> zlen l < cap' -> w_live w' = live0 + 1 ->
    wp (data ← set_elem (Ptr b) (zlen l) x; data ← scl_heap_sift_up cmp data (zlen l);
        mret (SCL_OK, Some (Heap data es cap' (u64 (zlen l + 1)) cmp), w')) Q) as Hstore.
  { intros b cap' w' Ho' Hlt Hw'. pose proof (owns_len _ _ _ _ Ho') as (_ & _ & Hc3). specialize (Hc3 ltac:(lia)).
    unfold PTRDIFF_MAX in Hc3. destruct Ho' as (Eb & H1 & H2 & S).
    assert (zlen (l ++ [x]) = zlen l + 1) as El by by rewrite zlen_app.
    wstep. apply wp_set_elem; [lia|]. wstep.
    apply (sift_up_spec _ (l ++ [x])); [apply stored_snoc; [lia|done]|lia|lia|by apply snoc_up_hole|].
    intros b' l' Eb' S' P Hh'. wstep. pose proof (Permutation_length P) as Ep. rewrite zlen_zupd in Eb'.
    assert (zlen l' = zlen l + 1) as El' by (rewrite <- El; unfold zlen; by rewrite Ep).
    apply (HQ1 _ _ l'); [by rewrite P, Permutation_app_comm|]. apply heap_rep_intro; [|done| |done].
    - split; [lia|]. split; [done|]. split; done.
    - rewrite u64_small; lia. }
  wstep. destruct (Z.eqb_spec (zlen l) cap) as [Ec|Ec].
  - eapply (wp_grow al); [done|done|done| |].
    + intros b cap' w' Ho' Hlt Hw'. rewrite decide_True by done. apply Hstore; [done|lia|lia].
    + intros e w' He Hw'. rewrite decide_False by (destruct He; congruence). wstep.
      apply HQ2; [done|]. apply heap_rep_intro; (done || lia).
  - wstep. destruct data as [|b|]; [destruct Ho as [-> ->]; done| |done].
    rewrite decide_True by done. apply Hstore; [done|lia|done].
Qed.

Lemma wp_heap_pop data es cap w live0 x l (Q : scl_error_t * option A * option (scl_heap_t A) -> Prop) :
  1 <= es < 2 ^ 64 -> owns data cap es (x :: l) -> heap_ordered (x :: l) -> w_live w = live0 + held data ->
  (forall h l', l' ≡ₚ l -> heap_rep es live0 (h, w) l' -> Q (SCL_OK, Some x, h)) ->
  wp (scl_heap_pop (Some (Heap data es cap (zlen (x :: l)) cmp)) true) Q.
Proof.
  intros Hes Ho Hh Hw HQ. pose proof (owns_len _ _ _ _ Ho) as (Hl & Hc & Hc2). specialize (Hc2 ltac:(lia)).
  unfold PTRDIFF_MAX in Hc2. rewrite zlen_cons in *. pose proof (zlen_nonneg l).
  destruct data as [|b|]; [by destruct Ho| |done]. pose proof Ho as (Eb & H1 & H2 & S).
  unfold scl_heap_pop. destruct (Z.eqb_spec (zlen l + 1) 0); [lia|]. wstep.
  eapply wp_get_elem; [by apply S; rewrite zlook_cons|]. rewrite u64_small by lia. rewrite Z.gtb_ltb.
  replace (zlen l + 1 - 1) with (zlen l) by lia.
  destruct (list_last_case l) as [->|(t & y & ->)].
  - simpl. apply (HQ _ []); [done|]. apply heap_rep_intro; [|intros i c Hc' u v Hu; by rewrite zlook_nil in Hu|done|done].
    split; [done|]. split; [done|]. split; [done|apply stored_nil].
  - assert (zlen (t ++ [y]) = zlen t + 1) as Et by by rewrite zlen_app. rewrite Et in *. pose proof (zlen_nonneg t).
    destruct (Z.ltb_spec 0 (zlen t + 1)); [|lia]. rewrite app_comm_cons in S. apply stored_prefix in S as [S Sy].
    rewrite zlen_cons in Sy. wstep. wstep. eapply wp_get_elem; [done|]. wstep. apply wp_set_elem; [lia|].
    assert (stored (zupd b 0 (Some y)) (y :: t)) as S'.
    { assert (y :: t = zupd (x :: t) 0 y) as -> by done. apply stored_update; [rewrite zlen_cons; lia|done]. }
    rewrite <- (zlen_cons y t). apply (heap_sift_down_spec _ (y :: t)); [done|rewrite zlen_cons; lia|by eapply last_down_hole|].
    intros b' l' Eb' S2 P Hh'. wstep. rewrite zlen_zupd in Eb'.
    assert (zlen l' = zlen (y :: t)) as El' by (unfold zlen; by rewrite (Permutation_length P)).
    apply (HQ _ l'); [rewrite P; by rewrite <- Permutation_cons_append|].
    apply heap_rep_intro; [|done|done|done]. split; [lia|]. split; [done|]. by split.
Qed.

#[export] Instance heap_simulates es live0 :
  1 <= es < 2 ^ 64 -> Simulates heap_step heap_spec (heap_rep es live0).
Proof.
  intros Hes st l op (data & cap & w & -> & Ho & Hh & Hw).
  pose proof (heap_rep_intro _ _ _ _ w live0 l Ho Hh eq_refl Hw) as R.
  assert (zlen l =? 0 = bool_decide (l = [])) as Eemp.
  { destruct l as [|x l]; [done|]. rewrite zlen_cons in *. pose proof (zlen_nonneg l). by bcase; [lia|]. }
  destruct op as [[x|]|[|]|[|]| | |key c out]; unfold heap_step.
  - wstep. apply (wp_heap_push data es cap w live0); [done..| |].
    + intros h w' l' P R'. wstep. exists l'. split; [by constructor|done].
    + intros e h w' He R'. wstep. exists l. split; [by constructor|done].
  - exists l. split; [constructor|done].
  - destruct l as [|x l]; [exists []; split; [constructor|done]|].
    wstep. apply (wp_heap_pop data es cap w live0); [done..|]. intros h l' P R'. wstep. exists l'.
    split; [|done]. apply spec_hpop; [by apply heap_least|by rewrite P].
  - exists l. split; [constructor|done].
  - destruct l as [|x l]; [exists []; split; [constructor|done]|]. unfold scl_heap_peek. cbn [h_count h_data].
    rewrite Eemp. simpl. do 2 wstep. eapply owned_get; [done|done|]. wstep. wstep. exists (x :: l).
    split; [|done]. apply spec_hpeek. by apply heap_least.
  - exists l. split; [constructor|done].
  - exists l. split; [constructor|done].
  - exists l. simpl. rewrite Eemp. split; [constructor|done].
  - destruct key as [key|], c as [c|], out; try (exists l; split; [constructor; auto|done]).
    wstep. eapply wp_mono; [apply (wp_search_scan c (get_elem data))|].
    + intros i x Q Hx HQ. by eapply owned_get.
    + intros a Ha. wstep. exists l. split; [by constructor|done].
Qed.

Lemma heap_init_spec w (h0 : scl_heap_t A) es cap :
  1 <= es < 2 ^ 64 -> 0 <= cap < 2 ^ 64 ->
  let '(e, h, w') := scl_heap_init al w (Some h0) es cap (Some cmp) in
  (e = SCL_OK /\ heap_rep es (w_live w) (h, w') []) \/
  ((e = SCL_ERR_SIZE_OVERFLOW /\ 2 ^ 64 <= cap * es \/ e = SCL_ERR_OUT_OF_MEMORY /\ 0 < cap) /\
   w_live w' = w_live w /\ h = Some (Heap Null es 0 0 cmp)).
Proof.
  intros Hes Hcap. assert (heap_ordered []) as Hnil by (intros i c _ u v Hu; by rewrite zlook_nil in Hu).
  unfold scl_heap_init. destruct (Z.eqb_spec es 0); [lia|]. destruct (Z.gtb_spec cap 0).
  2:{ left. split; [done|]. apply heap_rep_intro; [done|done|done|simpl; lia]. }
  rewrite scl_mul_overflow_spec by (unfold is_u64; lia).
  destruct (Z.ltb_spec (cap * es) (2 ^ 64)); [|right; split; [left|]; auto].
  destruct (scl_alloc al w (cap * es) MAX_ALIGN es) as [b w1] eqn:Ea.
  apply (owns_alloc (A := A) al) in Ea as [Hw Ho]; [|lia]. destruct b as [b|]; simpl in Hw.
  - left. split; [done|]. by apply heap_rep_intro.
  - right. split; [right; split; [done|lia]|]. split; [lia|done].
Qed.
End Step.

(** The replies for a [NULL] heap. *)
Definition heap_null_reply {A} (op : heap_op A) : reply A :=
  match op with HCount => Size 0 | HEmpty => Flag true | _ => Code SCL_ERR_NULL_PTR end.

(** The heap refines a bag: over a total preorder, after a successful
    initialisation every sequence of pushes, pops, peeks and searches runs
    without stray accesses and terminates, a pop or peek answers a least
    element, a pop removes exactly the element it answers, a push is refused
    only for lack of memory and then changes nothing, and destroying the heap
    returns every block; a failed initialisation keeps none, and a [NULL] heap
    is refused by every operation. *)
Theorem heap_refines {A} (al : scl_allocator_t) (cmp : A -> A -> Z) (w : world) (h0 : scl_heap_t A)
  (es cap : Z) (ops : list (heap_op A)) (Hcmp : Comparator cmp) (Hal : AllocatorOk al)
  (Hes : 1 <= es < 2 ^ 64) (Hcap : 0 <= cap < 2 ^ 64) :
  (let '(e, h, w1) := scl_heap_init al w (Some h0) es cap (Some cmp) in
   (e = SCL_OK /\
    exists outs h2 w2 l w3, run (heap_step al) (h, w1) ops = Ok (outs, (h2, w2)) /\
      trace (heap_spec cmp) [] ops outs l /\
      scl_heap_destroy w2 h2 = Ok (Some (Heap Null es 0 0 cmp), w3) /\ w_live w3 = w_live w) \/
   ((e = SCL_ERR_SIZE_OVERFLOW /\ 2 ^ 64 <= cap * es \/ e = SCL_ERR_OUT_OF_MEMORY /\ 0 < cap) /\
    w_live w1 = w_live w /\ h = Some (Heap Null es 0 0 cmp))) /\
  (forall op, heap_step al (None, w) op = Ok (heap_null_reply (A := A) op, (None, w))).
Proof.
  split; [|by intros []].
  pose proof (heap_init_spec al cmp w h0 es cap Hes Hcap) as H.
  destruct (scl_heap_init al w (Some h0) es cap (Some cmp)) as [[e h] w1]. destruct H as [[-> R]|H]; [left|by right].
  split; [done|]. pose proof (heap_simulates (A := A) al cmp es (w_live w) Hes) as Sim.
  destruct (proj1 (wp_ok _ _) (run_refines _ _ _ (h, w1) _ ops R)) as ([outs h2] & E & l & T & R2).
  destruct R2 as (data & c & w2 & -> & Ho & _ & Hw). exists outs. do 2 eexists. exists l.
  destruct data as [|b|]; [| |done]; simpl in *; eexists; do 3 (split; [done|]); simpl; lia.
Qed.

Lemma heap_refines_witness :
  exists outs l, trace (heap_spec Zcmp) [] [HPush (Some 5); HPush (Some 4); HPop true] outs l.
Proof.
  destruct (heap_refines small_allocator Zcmp (World 0 0) (Heap (Null (A := Z)) 0 0 0 Zcmp) 8 2
    [HPush (Some 5); HPush (Some 4); HPop true] _ _ ltac:(lia) ltac:(lia))
    as [[(_ & outs & _ & _ & l & _ & _ & T & _)|(H & _)] _].
  - exists outs, l. exact T.
  - exfalso. vm_compute in H. destruct H as [[H _]|[H _]]; discriminate H.
Defined.
