(* ===== verification/UnionFind.v ===== *)
(** Disjoint sets with path halving and union by rank
    ([libs/structures/unionfind/scl_unionfind.c]), refined to a map from each
    element to the representative of its set. *)

From stdpp Require Import gmap.
From S2P Require Import Prelude Core Refine Containers.
#[local] Open Scope Z_scope.

Record scl_unionfind_t : Type := UnionFind {
  uf_parent : ptr Z;
  uf_rank : ptr Z;
  uf_count : Z;
  uf_sets : Z
}.

Section Defs.
Context (al : scl_allocator_t).
Implicit Types (w : world) (uf : option scl_unionfind_t).

(** A released block leaves the field that held it dangling. *)
Definition after_free {A} (p : ptr A) : ptr A := match p with Null => Null | _ => Dangling end.

Definition scl_unionfind_init w uf (count : Z) : res (scl_error_t * option scl_unionfind_t * world) :=
  match uf with
  | None => mret (SCL_ERR_NULL_PTR, None, w)
  | Some u =>
      if count =? 0 then mret (SCL_ERR_INVALID_ARG, Some u, w)
      else
        let '(parent, w) := scl_alloc al w (u64 (count * 8)) MAX_ALIGN 8 in
        let '(rank, w) := scl_calloc al w count 8 MAX_ALIGN 0 in
        match parent, rank with
        | Some parent, Some rank =>
            parent ← zfor 0 count (fun i parent => set parent i (Some i)) parent;
            mret (SCL_OK, Some (UnionFind (Ptr parent) (Ptr rank) count count), w)
        | _, _ =>
            w ← free_ptr w (to_ptr parent);
            w ← free_ptr w (to_ptr rank);
            mret (SCL_ERR_OUT_OF_MEMORY,
                  Some (UnionFind (after_free (to_ptr parent)) (after_free (to_ptr rank))
                          (uf_count u) (uf_sets u)), w)
        end
  end.

Definition scl_unionfind_destroy w uf : res (option scl_unionfind_t * world) :=
  match uf with
  | None => mret (None, w)
  | Some u =>
      w ← free_ptr w (uf_parent u);
      w ← free_ptr w (uf_rank u);
      mret (Some (UnionFind Null Null 0 0), w)
  end.

(** At most [count] rounds: the rank grows along the path. *)
Definition scl_unionfind_find uf (x : Z) : res (Z * option scl_unionfind_t) :=
  match uf with
  | Some (UnionFind parent rank count sets) =>
      if x >=? count then mret (SIZE_MAX, uf)
      else
        '(x, parent) ← loop (S (Z.to_nat count))
          (fun '(x, parent) =>
             p ← get_elem parent x;
             if negb (p =? x) then
               p ← get_elem parent x;
               g ← get_elem parent p;
               parent ← set_elem parent x g;
               x ← get_elem parent x;
               mret (inl (x, parent))
             else mret (inr (x, parent)))
          (x, parent);
        mret (x, Some (UnionFind parent rank count sets))
  | None => mret (SIZE_MAX, uf)
  end.

(** The linking of two distinct roots. *)
Definition link (u : scl_unionfind_t) (rx ry : Z) : res scl_unionfind_t :=
  let 'UnionFind parent rank count sets := u in
  a ← get_elem rank rx; b ← get_elem rank ry;
  '(parent, rank) ←
    (if a <? b then parent ← set_elem parent rx ry; mret (parent, rank)
     else
       a ← get_elem rank rx; b ← get_elem rank ry;
       if a >? b then parent ← set_elem parent ry rx; mret (parent, rank)
       else
         parent ← set_elem parent ry rx;
         a ← get_elem rank rx;
         rank ← set_elem rank rx (u64 (a + 1));
         mret (parent, rank));
  mret (UnionFind parent rank count (u64 (sets - 1))).

Definition scl_unionfind_union uf (x y : Z) : res (scl_error_t * option scl_unionfind_t) :=
  match uf with
  | None => mret (SCL_ERR_NULL_PTR, uf)
  | Some u =>
      if (x >=? uf_count u) || (y >=? uf_count u) then mret (SCL_ERR_INVALID_INDEX, uf)
      else
        '(rx, uf) ← scl_unionfind_find uf x;
        '(ry, uf) ← scl_unionfind_find uf y;
        if rx =? ry then mret (SCL_OK, uf)
        else
          match uf with
          | Some u => u ← link u rx ry; mret (SCL_OK, Some u)
          | None => UB
          end
  end.

(** [connected] casts its argument's [const] away and compresses paths too. *)
Definition scl_unionfind_connected uf (x y : Z) : res (bool * option scl_unionfind_t) :=
  match uf with
  | Some u =>
      if (x >=? uf_count u) || (y >=? uf_count u) then mret (false, uf)
      else
        '(rx, uf) ← scl_unionfind_find uf x;
        '(ry, uf) ← scl_unionfind_find uf y;
        mret (rx =? ry, uf)
  | None => mret (false, uf)
  end.

Definition scl_unionfind_count uf : Z := match uf with Some u => uf_count u | None => 0 end.
Definition scl_unionfind_sets uf : Z := match uf with Some u => uf_sets u | None => 0 end.
End Defs.

(** ** The operations as one step function

    The elements are converted to [size_t]. *)
Inductive uf_op : Type :=
| UFind (x : Z)
| UUnion (x y : Z)
| UConnected (x y : Z)
| UCount
| USets.

Definition uf_step (uf : option scl_unionfind_t) (op : uf_op) : res (reply Z * option scl_unionfind_t) :=
  match op with
  | UFind x => '(r, uf) ← scl_unionfind_find uf (u64 x); mret (Value r, uf)
  | UUnion x y => '(e, uf) ← scl_unionfind_union uf (u64 x) (u64 y); mret (Code e, uf)
  | UConnected x y => '(b, uf) ← scl_unionfind_connected uf (u64 x) (u64 y); mret (Flag b, uf)
  | UCount => mret (Size (scl_unionfind_count uf), uf)
  | USets => mret (Size (scl_unionfind_sets uf), uf)
  end.

(** ** The abstract partition

    [root !! x] is the representative of the set of [x]; a union merges two
    sets and keeps one of their representatives. *)
Definition merged (root : list Z) (a b c : Z) : list Z := (fun r => if (r =? a) || (r =? b) then c else r) <$> root.

(** The representatives. *)
Definition labels (root : list Z) : gset Z := list_to_set root.

Inductive uf_spec : list Z -> uf_op -> reply Z -> list Z -> Prop :=
| spec_find root x r : zlook root (u64 x) = Some r -> uf_spec root (UFind x) (Value r) root
| spec_find_out root x : zlen root <= u64 x -> uf_spec root (UFind x) (Value SIZE_MAX) root
| spec_union root x y a b c :
    zlook root (u64 x) = Some a -> zlook root (u64 y) = Some b -> c = a \/ c = b ->
    uf_spec root (UUnion x y) (Code SCL_OK) (merged root a b c)
| spec_union_out root x y :
    zlen root <= u64 x \/ zlen root <= u64 y -> uf_spec root (UUnion x y) (Code SCL_ERR_INVALID_INDEX) root
| spec_connected root x y a b :
    zlook root (u64 x) = Some a -> zlook root (u64 y) = Some b ->
    uf_spec root (UConnected x y) (Flag (a =? b)) root
| spec_connected_out root x y :
    zlen root <= u64 x \/ zlen root <= u64 y -> uf_spec root (UConnected x y) (Flag false) root
| spec_ucount root : uf_spec root UCount (Size (zlen root)) root
| spec_usets root : uf_spec root USets (Size (Z.of_nat (size (labels root)))) root.

(** ** The refinement

    The forest: every element and its parent have the same representative,
    representatives are the elements that are their own parents, and ranks
    grow towards them.  The ranks are bounded by the number of unions. *)
Record forest (parent rank root : list Z) : Prop := {
  f_len : zlen parent = zlen root /\ zlen rank = zlen root;
  f_root : forall x r, zlook root x = Some r -> zlook parent r = Some r /\ zlook root r = Some r;
  f_self : forall x, zlook parent x = Some x -> zlook root x = Some x;
  f_parent : forall x p, zlook parent x = Some p -> zlook root p = zlook root x;
  f_rank : forall x p a b, zlook parent x = Some p -> p <> x ->
    zlook rank x = Some a -> zlook rank p = Some b -> a < b;
  f_bound : forall x a, zlook rank x = Some a -> 0 <= a <= zlen root - Z.of_nat (size (labels root))
}.

Definition cells (p : ptr Z) (l : list Z) : Prop := exists b, p = Ptr b /\ zlen b = zlen l /\ stored b l.

Definition uf_rep (uf : option scl_unionfind_t) (root : list Z) : Prop :=
  exists pp rp parent rank, cells pp parent /\ cells rp rank /\ forest parent rank root /\
    zlen root < 2 ^ 63 /\ root <> [] /\
    uf = Some (UnionFind pp rp (zlen root) (Z.of_nat (size (labels root)))).

Lemma wp_cells_get p l i x (Q : Z -> Prop) :
  cells p l -> zlook l i = Some x -> Q x -> wp (get_elem p i) Q.
Proof. intros (b & -> & _ & S) Hx HQ. by eapply wp_get_elem; [apply S|]. Qed.

Lemma wp_cells_set p l i x (Q : ptr Z -> Prop) :
  cells p l -> 0 <= i < zlen l -> (forall p', cells p' (zupd l i x) -> Q p') -> wp (set_elem p i x) Q.
Proof.
  intros (b & -> & E & S) Hi HQ. apply wp_set_elem; [lia|]. apply HQ. eexists. split; [done|].
  split; [by rewrite !zlen_zupd|]. by apply stored_update.
Qed.

(** Path halving keeps the forest. *)
Lemma forest_halve parent rank root x p g :
  forest parent rank root -> zlook parent x = Some p -> p <> x -> zlook parent p = Some g ->
  forest (zupd parent x g) rank root /\ g <> x.
Proof.
  intros F Hp Hne Hg. pose proof (f_len _ _ _ F) as [L1 L2].
  pose proof (zlook_Some _ _ _ Hp) as Hx. pose proof (zlook_Some _ _ _ Hg) as Hpr.
  pose proof (f_parent _ _ _ F x p Hp) as Ep. pose proof (f_parent _ _ _ F p g Hg) as Eg.
  assert (is_Some (zlook root g)) as [r Hr].
  { rewrite Eg, Ep. apply zlook_lt. lia. }
  pose proof (zlook_Some _ _ _ Hr) as Hgr.
  destruct (zlook_lt rank x ltac:(lia)) as [a Ha], (zlook_lt rank p ltac:(lia)) as [b Hb],
    (zlook_lt rank g ltac:(lia)) as [c Hc].
  assert (a < b) as Hab by by apply (f_rank _ _ _ F x p).
  assert (b <= c) as Hbc.
  { destruct (decide (g = p)) as [->|Hgp]; [by simplify_eq|]. enough (b < c) by lia. by apply (f_rank _ _ _ F p g). }
  assert (g <> x) as Hgx by (intros ->; simplify_eq; lia).
  split; [|done]. split.
  - by rewrite zlen_zupd.
  - intros y s Hs. destruct (f_root _ _ _ F y s Hs) as [H1 H2]. split; [|done].
    rewrite zlook_zupd_ne; [done|]. intros ->. by simplify_eq.
  - intros y Hy. rewrite zlook_zupd in Hy. case_decide as D; [|by apply (f_self _ _ _ F)].
    destruct D as [<- _]. by simplify_eq.
  - intros y q Hq. rewrite zlook_zupd in Hq. case_decide as D; [|by apply (f_parent _ _ _ F)].
    destruct D as [<- _]. simplify_eq. by rewrite Eg, Ep.
  - intros y q u v Hq Hqy Hu Hv. rewrite zlook_zupd in Hq. case_decide as D; [|by apply (f_rank _ _ _ F y q)].
    destruct D as [<- _]. simplify_eq. lia.
  - apply (f_bound _ _ _ F).
Qed.

Lemma labels_in root x r : zlook root x = Some r -> r ∈ labels root.
Proof. intros H. apply elem_of_list_to_set. by eapply zlook_elem. Qed.

Lemma labels_nonempty root x r : zlook root x = Some r -> 0 < Z.of_nat (size (labels root)).
Proof.
  intros H. apply labels_in in H. enough (size (labels root) <> 0%nat) by lia.
  intros E%size_empty_inv%leibniz_equiv. rewrite E in H. by apply not_elem_of_empty in H.
Qed.

Lemma wp_find pp rp parent rank root x r sets (Q : Z * option scl_unionfind_t -> Prop) :
  cells pp parent -> forest parent rank root -> zlook root x = Some r ->
  (forall pp' parent', cells pp' parent' -> forest parent' rank root ->
     Q (r, Some (UnionFind pp' rp (zlen root) sets))) ->
  wp (scl_unionfind_find (Some (UnionFind pp rp (zlen root) sets)) x) Q.
Proof.
  intros Hc HF Hr HQ. unfold scl_unionfind_find. pose proof (zlook_Some _ _ _ Hr) as Hx.
  rewrite Z.geb_leb. destruct (Z.leb_spec (zlen root) x); [lia|]. wstep.
  pose proof (labels_nonempty _ _ _ Hr) as Hs.
  destruct (f_len _ _ _ HF) as [_ L]. destruct (zlook_lt rank x ltac:(lia)) as [a0 Ha0].
  pose proof (f_bound _ _ _ HF x a0 Ha0).
  apply (wp_loop_rel (fun m '(y, p) => exists parent' a, cells p parent' /\ forest parent' rank root /\
     zlook root y = Some r /\ zlook rank y = Some a /\ m = zlen root - a) (zlen root - a0)); [|lia|lia|].
  { by exists parent, a0. }
  intros m [y p] (parent' & a & Hc' & F & Hy & Ha & ->). pose proof (f_len _ _ _ F) as [L1 _].
  pose proof (zlook_Some _ _ _ Hy). destruct (zlook_lt parent' y ltac:(lia)) as [q Hq].
  wstep. eapply wp_cells_get; [done..|]. destruct (Z.eqb_spec q y) as [->|Hne]; cbn [negb].
  - wstep. wstep. pose proof (f_self _ _ _ F y Hq). simplify_eq. by eapply HQ.
  - pose proof (f_parent _ _ _ F y q Hq) as Eq. rewrite Hy in Eq. pose proof (zlook_Some _ _ _ Eq).
    destruct (zlook_lt parent' q ltac:(lia)) as [g Hg]. destruct (forest_halve _ _ _ _ _ _ F Hq Hne Hg) as [F' Hgy].
    pose proof (f_parent _ _ _ F q g Hg) as Eg. rewrite Eq in Eg. pose proof (zlook_Some _ _ _ Eg).
    do 2 (wstep; eapply wp_cells_get; [done..|]). wstep. eapply wp_cells_set; [done|lia|]. intros p' Hp'.
    assert (zlook (zupd parent' y g) y = Some g) as Hg' by (apply zlook_zupd_eq; lia).
    wstep. eapply wp_cells_get; [done..|]. wstep. destruct (zlook_lt rank g ltac:(lia)) as [c Hc2].
    pose proof (f_rank _ _ _ F' y g a c Hg' Hgy Ha Hc2). pose proof (f_bound _ _ _ F g c Hc2).
    exists (zlen root - c). split; [lia|]. by exists (zupd parent' y g), c.
Qed.

(** ** Linking *)
Lemma merged_look root a b c x :
  zlook (merged root a b c) x = (fun r => if (r =? a) || (r =? b) then c else r) <$> zlook root x.
Proof. apply zlook_fmap. Qed.

Lemma zlen_merged root a b c : zlen (merged root a b c) = zlen root.
Proof. apply zlen_map. Qed.

(** A merge removes exactly the other representative. *)
Lemma labels_merged root a b c d :
  a <> b -> (c = a /\ d = b \/ c = b /\ d = a) -> a ∈ root -> b ∈ root ->
  labels (merged root a b c) = labels root ∖ {[d]}.
Proof.
  intros Hab Hcd Ha Hb. apply set_eq. intros z. unfold labels, merged.
  rewrite elem_of_difference, not_elem_of_singleton, !elem_of_list_to_set, list_elem_of_fmap. split.
  - intros (r & -> & Hr). destruct (Z.eqb_spec r a), (Z.eqb_spec r b); simpl; naive_solver.
  - intros [Hz Hne]. destruct (decide (z = c)) as [->|].
    + exists a. rewrite Z.eqb_refl. done.
    + exists z. destruct (Z.eqb_spec z a), (Z.eqb_spec z b); simpl; naive_solver.
Qed.

Lemma size_merged root a b c :
  a <> b -> c = a \/ c = b -> a ∈ root -> b ∈ root ->
  Z.of_nat (size (labels (merged root a b c))) = Z.of_nat (size (labels root)) - 1.
Proof.
  intros Hab Hc Ha Hb.
  assert (forall d, d ∈ root -> Z.of_nat (size (labels root ∖ {[d]})) = Z.of_nat (size (labels root)) - 1) as Hd.
  { intros d Hd. assert (d ∈ labels root) as Hin by by apply elem_of_list_to_set.
    rewrite size_difference by set_solver. rewrite size_singleton.
    enough (size (labels root) <> 0%nat) by lia. intros E%size_empty_inv%leibniz_equiv.
    rewrite E in Hin. by apply not_elem_of_empty in Hin. }
  destruct Hc as [->| ->].
  - rewrite (labels_merged _ _ _ _ b) by auto. by apply Hd.
  - rewrite (labels_merged _ _ _ _ a) by auto. by apply Hd.
Qed.

(** Making [s] the parent of the root [d], when the ranks allow it. *)
Lemma forest_link parent rank rank' root d s a b :
  forest parent rank root -> d <> s -> d ∈ root -> s ∈ root ->
  zlook rank d = Some a -> zlook rank' s = Some b -> a < b ->
  (forall x, x <> s -> zlook rank' x = zlook rank x) -> zlen rank' = zlen rank ->
  (forall u, zlook rank s = Some u -> u <= b <= u + 1) ->
  forest (zupd parent d s) rank' (merged root d s s).
Proof.
  intros F Hds Hd Hs Ha Hb Hab Hr' Hl' Hbu. pose proof (f_len _ _ _ F) as [L1 L2].
  assert (forall r, r ∈ root -> zlook parent r = Some r /\ zlook root r = Some r) as Hroot.
  { intros r Hr. apply elem_zlook in Hr as [x Hx]. by apply (f_root _ _ _ F x). }
  destruct (Hroot d Hd) as [Hpd Hrd], (Hroot s Hs) as [Hps Hrs].
  pose proof (zlook_Some _ _ _ Hpd). pose proof (zlook_Some _ _ _ Hps). split.
  - rewrite zlen_zupd, zlen_merged. lia.
  - intros x r Hr. rewrite merged_look in Hr. destruct (zlook root x) as [t|] eqn:Et; simpl in Hr; [|done].
    pose proof (zlook_elem _ _ _ Et) as Ht. destruct (Hroot t Ht) as [Ht1 Ht2]. rewrite merged_look.
    assert ((fun q => if (q =? d) || (q =? s) then s else q) <$> Some s = Some s) as Es
      by (simpl; by rewrite Z.eqb_refl, orb_true_r).
    destruct (decide (t = d \/ t = s)) as [Hts|Hts].
    + assert (r = s) as -> by (destruct Hts as [->| ->]; rewrite Z.eqb_refl, ?orb_true_r in Hr; by simplify_eq).
      by rewrite zlook_zupd_ne, Hrs.
    + rewrite (proj2 (Z.eqb_neq t d)), (proj2 (Z.eqb_neq t s)) in Hr by naive_solver. simpl in Hr. injection Hr as <-.
      rewrite zlook_zupd_ne, Ht2 by naive_solver. split; [done|]. simpl.
      by rewrite (proj2 (Z.eqb_neq t d)), (proj2 (Z.eqb_neq t s)) by naive_solver.
  - intros x Hx. rewrite zlook_zupd in Hx. rewrite merged_look. case_decide as D.
    + destruct D as [<- _]. by simplify_eq.
    + pose proof (f_self _ _ _ F x Hx) as E. rewrite E. simpl.
      assert (x <> d) by (intros ->; naive_solver). rewrite (proj2 (Z.eqb_neq x d)) by done. simpl.
      by destruct (Z.eqb_spec x s) as [->|].
  - intros x p Hp. rewrite zlook_zupd in Hp. rewrite !merged_look. case_decide as D.
    + destruct D as [<- _]. simplify_eq. rewrite Hrd, Hrs. simpl. by rewrite !Z.eqb_refl, orb_true_r.
    + by rewrite (f_parent _ _ _ F x p Hp).
  - intros x p u v Hp Hne Hu Hv. rewrite zlook_zupd in Hp. case_decide as D.
    + destruct D as [<- _]. simplify_eq. rewrite Hr' in Hu by done. by simplify_eq.
    + destruct (decide (x = s)) as [->|]; [by simplify_eq|]. rewrite Hr' in Hu by done.
      destruct (decide (p = s)) as [->|].
      * simplify_eq. destruct (zlook_lt rank s) as [w Hw]; [lia|]. pose proof (Hbu w Hw).
        pose proof (f_rank _ _ _ F x s u w Hp Hne Hu Hw). lia.
      * rewrite Hr' in Hv by done. by apply (f_rank _ _ _ F x p).
  - intros x u Hu. rewrite zlen_merged, size_merged by auto. destruct (decide (x = s)) as [->|].
    + simplify_eq. destruct (zlook_lt rank s) as [w Hw]; [lia|]. pose proof (Hbu w Hw).
      pose proof (f_bound _ _ _ F s w Hw). lia.
    + rewrite Hr' in Hu by done. pose proof (f_bound _ _ _ F x u Hu). lia.
Qed.

Lemma merged_comm root a b c : merged root a b c = merged root b a c.
Proof. unfold merged. apply list_fmap_ext. intros i r _. by rewrite orb_comm. Qed.

Lemma wp_link pp rp parent rank root rx ry (Q : scl_unionfind_t -> Prop) :
  cells pp parent -> cells rp rank -> forest parent rank root -> zlen root < 2 ^ 63 ->
  rx <> ry -> rx ∈ root -> ry ∈ root ->
  (forall u c, c = rx \/ c = ry -> uf_rep (Some u) (merged root rx ry c) -> Q u) ->
  wp (link (UnionFind pp rp (zlen root) (Z.of_nat (size (labels root)))) rx ry) Q.
Proof.
  intros Hp Hr F Hn Hne Hx Hy HQ. pose proof (f_len _ _ _ F) as [L1 L2].
  assert (forall r, r ∈ root -> 0 <= r < zlen root) as Hin.
  { intros r Hr'. apply elem_zlook in Hr' as [x Hx']. destruct (f_root _ _ _ F x r Hx') as [_ Hr2]. zidx. }
  pose proof (Hin rx Hx). pose proof (Hin ry Hy).
  destruct (zlook_lt rank rx ltac:(lia)) as [a Ha], (zlook_lt rank ry ltac:(lia)) as [b Hb].
  pose proof (f_bound _ _ _ F rx a Ha). pose proof (f_bound _ _ _ F ry b Hb).
  assert (1 <= Z.of_nat (size (labels root))) as Hs1.
  { apply elem_zlook in Hx as [i Hi]. pose proof (labels_nonempty _ _ _ Hi). lia. }
  assert (Z.of_nat (size (labels root)) <= zlen root) as Hs2 by lia.
  assert (forall pp' rp' parent' rank' c, c = rx \/ c = ry -> cells pp' parent' -> cells rp' rank' ->
    forest parent' rank' (merged root rx ry c) ->
    Q (UnionFind pp' rp' (zlen root) (u64 (Z.of_nat (size (labels root)) - 1)))) as Hend.
  { intros pp' rp' parent' rank' c Hc Hp' Hr' F'. apply (HQ _ c); [done|].
    exists pp', rp', parent', rank'. rewrite zlen_merged, (size_merged root rx ry c) by done.
    rewrite u64_small by lia. do 3 (split; [done|]). split; [done|]. split; [|done].
    intros E. apply (f_equal length) in E. unfold merged in E. rewrite length_fmap in E.
    unfold zlen in H. simpl in E. lia. }
  unfold link. do 2 (wstep; eapply wp_cells_get; [done..|]).
  destruct (Z.ltb_spec a b).
  - do 2 wstep. eapply wp_cells_set; [done|lia|]. intros pp' Hp'. wstep. wstep.
    eapply (Hend _ _ _ _ ry); [auto|done|done|].
    eapply forest_link; [done..|]. intros u Hu. simplify_eq. lia.
  - wstep. wstep. eapply wp_cells_get; [done..|]. wstep. eapply wp_cells_get; [done..|].
    rewrite Z.gtb_ltb. destruct (Z.ltb_spec b a).
    + wstep. eapply wp_cells_set; [done|lia|]. intros pp' Hp'. wstep. wstep.
      eapply (Hend _ _ _ _ rx); [auto|done|done|]. rewrite merged_comm.
      eapply forest_link; [done..|]. intros u Hu. simplify_eq. lia.
    + assert (a = b) as -> by lia. wstep. eapply wp_cells_set; [done|lia|]. intros pp' Hp'. wstep.
      eapply wp_cells_get; [done..|]. wstep. eapply wp_cells_set; [done|lia|]. intros rp' Hr'. wstep. wstep.
      eapply (Hend _ _ _ _ rx); [auto|done|done|]. rewrite merged_comm, (u64_small (b + 1)) by lia.
      eapply forest_link; [done|done|done|done|done|apply zlook_zupd_eq; lia|lia| |by rewrite zlen_zupd|].
      * intros x Hxr. by apply zlook_zupd_ne.
      * intros u Hu. simplify_eq. lia.
Qed.

Lemma merged_same root a c : c = a -> merged root a a c = root.
Proof.
  intros ->. unfold merged. rewrite <- (list_fmap_id root) at 2. apply list_fmap_ext. intros i r _.
  by destruct (Z.eqb_spec r a) as [->|].
Qed.

#[export] Instance uf_simulates : Simulates uf_step uf_spec uf_rep.
Proof.
  intros uf root op (pp & rp & parent & rank & Hp & Hr & F & Hn & Hne & ->).
  set (n := Z.of_nat (size (labels root))).
  assert (forall pp parent, cells pp parent -> forest parent rank root ->
    uf_rep (Some (UnionFind pp rp (zlen root) n)) root) as Hrep.
  { intros pp' parent' Hp' F'. by exists pp', rp, parent', rank. }
  pose proof (Hrep _ _ Hp F) as R.
  assert (forall x, zlen root <= u64 x \/ exists r, zlook root (u64 x) = Some r) as Hcase.
  { intros x. pose proof (u64_range x). destruct (decide (zlen root <= u64 x)); [by left|right; apply zlook_lt; lia]. }
  destruct op as [x|x y|x y| |]; unfold uf_step.
  - destruct (Hcase x) as [Hx|[r Hx]].
    + unfold scl_unionfind_find. rewrite Z.geb_leb, (proj2 (Z.leb_le _ _) Hx). exists root.
      split; [by constructor|done].
    + wstep. eapply wp_find; [done..|]. intros pp' parent' Hp' F'. wstep. exists root. split; [by apply spec_find|by eapply Hrep].
  - unfold scl_unionfind_union. cbn [uf_count]. rewrite !Z.geb_leb.
    destruct (Hcase x) as [Hx|[a Hx]]; [rewrite (proj2 (Z.leb_le _ _) Hx); exists root; split; [constructor; auto|done]|].
    destruct (Hcase y) as [Hy|[b Hy]].
    { rewrite (proj2 (Z.leb_le _ _) Hy), orb_true_r. exists root; split; [constructor; auto|done]. }
    pose proof (zlook_Some _ _ _ Hx). pose proof (zlook_Some _ _ _ Hy).
    destruct (Z.leb_spec (zlen root) (u64 x)); [lia|]. destruct (Z.leb_spec (zlen root) (u64 y)); [lia|]. simpl.
    wstep. wstep. eapply wp_find; [done..|]. intros pp1 parent1 Hp1 F1. wstep. eapply wp_find; [done..|].
    intros pp2 parent2 Hp2 F2. destruct (Z.eqb_spec a b) as [->|Hab].
    + wstep. wstep. exists (merged root b b b). split; [by eapply spec_union; auto|]. rewrite merged_same by done.
      by eapply Hrep.
    + wstep. eapply wp_link; [done|done|done|done|done|by eapply zlook_elem|by eapply zlook_elem|].
      intros u c Hc Ru. wstep. wstep. eexists. split; [by eapply spec_union|done].
  - unfold scl_unionfind_connected. cbn [uf_count]. rewrite !Z.geb_leb.
    destruct (Hcase x) as [Hx|[a Hx]]; [rewrite (proj2 (Z.leb_le _ _) Hx); exists root; split; [constructor; auto|done]|].
    destruct (Hcase y) as [Hy|[b Hy]].
    { rewrite (proj2 (Z.leb_le _ _) Hy), orb_true_r. exists root; split; [constructor; auto|done]. }
    pose proof (zlook_Some _ _ _ Hx). pose proof (zlook_Some _ _ _ Hy).
    destruct (Z.leb_spec (zlen root) (u64 x)); [lia|]. destruct (Z.leb_spec (zlen root) (u64 y)); [lia|]. simpl.
    wstep. wstep. eapply wp_find; [done..|]. intros pp1 parent1 Hp1 F1. wstep. eapply wp_find; [done..|].
    intros pp2 parent2 Hp2 F2. wstep. wstep. exists root. split; [by constructor|by eapply Hrep].
  - exists root. split; [constructor|done].
  - exists root. split; [constructor|done].
Qed.

(** ** Initialisation *)
Definition singletons (n : Z) : list Z := Z.of_nat <$> seq 0 (Z.to_nat n).

Lemma singletons_look n i : zlook (singletons n) i = if (0 <=? i) && (i <? n) then Some i else None.
Proof.
  unfold singletons. rewrite zlook_fmap. unfold zlook. destruct (Z.leb_spec 0 i); simpl; [|done].
  destruct (Z.ltb_spec i n).
  - rewrite lookup_seq_lt by lia. simpl. f_equal. lia.
  - by rewrite lookup_seq_ge by lia.
Qed.

Lemma zlen_singletons n : 0 <= n -> zlen (singletons n) = n.
Proof. intros Hn. unfold singletons. rewrite zlen_map. unfold zlen. rewrite length_seq. lia. Qed.

Lemma singletons_forest n rank :
  0 <= n -> zlen rank = n -> (forall i a, zlook rank i = Some a -> a = 0) ->
  forest (singletons n) rank (singletons n) /\ Z.of_nat (size (labels (singletons n))) = n.
Proof.
  intros Hn Hl Hz. assert (forall x r, zlook (singletons n) x = Some r -> r = x) as Hs.
  { intros x r. rewrite singletons_look. by destruct (_ && _); intros; simplify_eq. }
  assert (Z.of_nat (size (labels (singletons n))) = n) as Esz.
  { unfold labels. rewrite size_list_to_set.
    - unfold singletons. rewrite length_fmap, length_seq. lia.
    - apply NoDup_fmap_2; [apply _|apply NoDup_seq]. }
  split; [split|done].
  - rewrite Hl, zlen_singletons; done.
  - intros x r Hr. pose proof (Hs x r Hr) as ->. done.
  - done.
  - intros x p Hp. pose proof (Hs x p Hp) as ->. done.
  - intros x p a b Hp Hne. by pose proof (Hs x p Hp).
  - intros x a Ha. rewrite Esz, zlen_singletons by done. pose proof (Hz x a Ha). lia.
Qed.

(** The bytes asked for the parents, [count * sizeof(size_t)] without an
    overflow check. *)
Lemma parent_bytes n : u64 (n * 8) = n mod 2 ^ 61 * 8.
Proof. unfold u64. replace (2 ^ 64) with (2 ^ 61 * 8) by lia. apply Z.mul_mod_distr_r; lia. Qed.

Lemma stored_replicate n (x : Z) : stored (replicate n (Some x)) (replicate n x).
Proof.
  intros i y Hy. rewrite zlook_replicate in Hy. rewrite zlook_replicate. destruct (_ && _); [by simplify_eq|done].
Qed.

Lemma wp_fill n (b : block Z) (Q : block Z -> Prop) :
  zlen b = n -> (forall b', zlen b' = n -> stored b' (singletons n) -> Q b') ->
  wp (zfor 0 n (fun i parent => set parent i (Some i)) b) Q.
Proof.
  intros Hb HQ. pose proof (zlen_nonneg b).
  apply (wp_zfor (fun i b' => zlen b' = n /\ stored b' (singletons i))).
  - split; [done|]. apply stored_nil.
  - intros i b' Hi [Eb S]. apply wp_set; [lia|]. split; [by rewrite zlen_zupd|].
    intros j y Hy. rewrite singletons_look in Hy. destruct (Z.leb_spec 0 j), (Z.ltb_spec j (i + 1)); try done.
    simpl in Hy. simplify_eq. rewrite zlook_zupd. case_decide; [destruct_and?; by subst|].
    apply S. rewrite singletons_look. destruct (Z.leb_spec 0 y), (Z.ltb_spec y i); try lia; done.
  - intros b' [Eb S]. apply HQ; [done|]. by rewrite Z.max_r in S by lia.
Qed.

Lemma uf_init_spec (al : scl_allocator_t) `{!AllocatorOk al} w u n :
  0 < n < 2 ^ 64 ->
  wp (scl_unionfind_init al w (Some u) n) (fun '(e, uf, w') =>
    (e = SCL_OK /\ uf_rep uf (singletons n) /\ w_live w' = w_live w + 2) \/
    (e = SCL_ERR_OUT_OF_MEMORY /\ w_live w' = w_live w /\
     (malloc_fn al (w_reqs w) (u64 (n * 8)) MAX_ALIGN = true \/
      calloc_fn al (S (w_reqs w)) n 8 MAX_ALIGN = true -> scl_unionfind_destroy w' uf = UB))).
Proof.
  intros Hn. unfold scl_unionfind_init. destruct (Z.eqb_spec n 0); [lia|].
  destruct (scl_alloc al w (u64 (n * 8)) MAX_ALIGN 8) as [parent w1] eqn:Ea.
  destruct (scl_calloc al w1 n 8 MAX_ALIGN 0) as [rank w2] eqn:Ec.
  assert (w_reqs w1 = S (w_reqs w) /\ malloc_fn al (w_reqs w) (u64 (n * 8)) MAX_ALIGN = bool_decide (is_Some parent))
    as [Er Em].
  { unfold scl_alloc in Ea. destruct (malloc_fn _ _ _ _); injection Ea as <- <-; by rewrite bool_decide_decide. }
  rewrite parent_bytes in Ea. apply (owns_alloc (A := Z) al) in Ea as [Hw1 Ho]; [|lia]. rewrite Em.
  unfold scl_calloc in Ec. rewrite Er in Ec. destruct (calloc_fn al _ n 8 MAX_ALIGN) eqn:Ecf; injection Ec as <- <-.
  - apply calloc_fn_ok in Ecf as (_ & _ & Hm); [|unfold is_u64; lia..]. unfold PTRDIFF_MAX in Hm. rewrite Z.mod_small in Ho by lia.
    destruct parent as [b|]; simpl in Hw1.
    + destruct Ho as (Eb & _). wstep. apply wp_fill; [done|]. intros b' Eb' S. wstep. left. split; [done|].
      split; [|simpl; lia]. destruct (singletons_forest n (replicate (Z.to_nat n) 0)) as [F Esz];
        [lia|rewrite zlen_replicate; lia|intros i a Ha; rewrite zlook_replicate in Ha; destruct (_ && _); by simplify_eq|].
      exists (Ptr b'), (Ptr (replicate (Z.to_nat n) (Some 0))), (singletons n), (replicate (Z.to_nat n) 0).
      rewrite Esz, zlen_singletons by lia. split; [exists b'; rewrite zlen_singletons by lia; done|].
      split; [eexists; split; [done|]; rewrite !zlen_replicate; split; [done|apply stored_replicate]|].
      split; [done|]. split; [lia|]. split; [|done]. intros E. apply (f_equal zlen) in E.
      rewrite zlen_singletons, zlen_nil in E by lia. lia.
    + simpl. right. split; [done|]. split; [simpl; lia|done].
  - destruct parent as [b|]; simpl in *; right; (split; [done|]); (split; [lia|]); [done|].
    intros [?|?]; done.
Qed.

Lemma uf_destroy_spec w uf root :
  uf_rep uf root ->
  exists w', scl_unionfind_destroy w uf = Ok (Some (UnionFind Null Null 0 0), w') /\ w_live w' = w_live w - 2.
Proof.
  intros (pp & rp & parent & rank & (b & -> & _) & (b' & -> & _) & _ & _ & _ & ->).
  eexists. split; [done|]. simpl. lia.
Qed.

(** The replies for a [NULL] structure. *)
Definition uf_null_reply (op : uf_op) : reply Z :=
  match op with
  | UFind _ => Value SIZE_MAX
  | UUnion _ _ => Code SCL_ERR_NULL_PTR
  | UConnected _ _ => Flag false
  | UCount | USets => Size 0
  end.

(** The disjoint-set forest refines a partition of [0..n) into sets with a
    representative each: after a successful initialisation, every sequence of
    finds, unions and connectivity tests terminates without stray accesses;
    [find] answers the representative (path halving is invisible), [union]
    merges two sets and keeps one of their representatives, [connected]
    compares them, [sets] counts the sets, and indices outside are refused.
    Destroying the structure returns both blocks.  When the initialisation
    runs out of memory it returns what it had allocated but leaves the freed
    pointers in the structure, so that destroying it then frees them twice. *)
Theorem unionfind_refines (al : scl_allocator_t) (w : world) (u : scl_unionfind_t) (n : Z)
  (ops : list uf_op) (Hal : AllocatorOk al) (Hn : 0 < n < 2 ^ 64) :
  (exists e uf w1, scl_unionfind_init al w (Some u) n = Ok (e, uf, w1) /\
    ((e = SCL_OK /\
      exists outs uf2 root w2, run uf_step uf ops = Ok (outs, uf2) /\
        trace uf_spec (singletons n) ops outs root /\
        scl_unionfind_destroy w1 uf2 = Ok (Some (UnionFind Null Null 0 0), w2) /\ w_live w2 = w_live w) \/
     (e = SCL_ERR_OUT_OF_MEMORY /\ w_live w1 = w_live w /\
      (malloc_fn al (w_reqs w) (u64 (n * 8)) MAX_ALIGN = true \/
       calloc_fn al (S (w_reqs w)) n 8 MAX_ALIGN = true -> scl_unionfind_destroy w1 uf = UB)))) /\
  (forall op, uf_step None op = Ok (uf_null_reply op, None)).
Proof.
  split; [|by intros []].
  destruct (proj1 (wp_ok _ _) (uf_init_spec al w u n Hn)) as ([[e uf] w1] & E & H). exists e, uf, w1.
  split; [done|]. destruct H as [(-> & R & Hw)|H]; [left|by right]. split; [done|].
  destruct (proj1 (wp_ok _ _) (run_refines _ _ _ uf _ ops R)) as ([outs uf2] & E2 & root & T & R2).
  destruct (uf_destroy_spec w1 uf2 root R2) as (w2 & E3 & Hw2). exists outs, uf2, root, w2.
  do 3 (split; [done|]). lia.
Qed.

Lemma unionfind_refines_witness :
  exists outs root, trace uf_spec [0; 1; 2] [UUnion 0 1; UFind 1; USets] outs root.
Proof.
  destruct (unionfind_refines small_allocator (World 0 0) (UnionFind Null Null 0 0) 3
    [UUnion 0 1; UFind 1; USets] _ ltac:(lia)) as [(e & uf & w1 & E & [(_ & outs & _ & root & _ & _ & T & _)|(H & _)]) _].
  - exists outs, root. exact T.
  - exfalso. vm_compute in E. rewrite H in E. discriminate E.
Defined.
