(* ===== verification/Uuid.v ===== *)
(** UUIDs ([libs/random/uuid/scl_rand_uuid.c]): generation, the textual form
    and its parser, comparison.  Printing and parsing are inverse to each
    other, up to the case of the digits. *)

From S2P Require Import Prelude Core StringArrays.
#[local] Open Scope Z_scope.

(** A [scl_rand_uuid_t] is the list of its 16 bytes. *)
Definition scl_rand_uuid_t : Type := list Z.
Definition is_uuid (u : scl_rand_uuid_t) : Prop := zlen u = 16 /\ forall i b, zlook u i = Some b -> 0 <= b < 256.

(** [rnd]: the bytes the system wrote, at most 16; fewer when the call failed
    or was interrupted. *)
Definition get_random_bytes (rnd : list Z) (u : scl_rand_uuid_t) : scl_rand_uuid_t := rnd ++ drop (length rnd) u.

Definition scl_rand_uuid_generate (rnd : list Z) (uuid : option scl_rand_uuid_t)
    : res (scl_error_t * option scl_rand_uuid_t) :=
  match uuid with
  | None => mret (SCL_ERR_NULL_PTR, None)
  | Some u =>
      let u := get_random_bytes rnd u in
      b ← get u 6; u ← set u 6 (Z.lor 0x40 (Z.land b 0x0f));
      b ← get u 8; u ← set u 8 (Z.lor 0x80 (Z.land b 0x3f));
      mret (SCL_OK, Some u)
  end.

(** ["0123456789abcdef"] *)
Definition hex_chars : list Z := [48; 49; 50; 51; 52; 53; 54; 55; 56; 57; 97; 98; 99; 100; 101; 102].

Definition dash_before (i : Z) : bool := (i =? 4) || (i =? 6) || (i =? 8) || (i =? 10).

Definition scl_rand_uuid_to_string (uuid : option scl_rand_uuid_t) (out : option (list Z))
    : res (scl_error_t * option (list Z)) :=
  match uuid, out with
  | Some u, Some out =>
      '(out, _) ← zfor 0 16
        (fun i '(out, pos) =>
           '(out, pos) ← (if dash_before i then out ← set out pos 45; mret (out, pos + 1) else mret (out, pos));
           b ← get u i; c ← get hex_chars (Z.land (Z.shiftr b 4) 0xf); out ← set out pos c;
           b ← get u i; c ← get hex_chars (Z.land b 0xf); out ← set out (pos + 1) c;
           mret (out, pos + 2))
        (out, 0);
      out ← set out 36 0;
      mret (SCL_OK, Some out)
  | _, _ => mret (SCL_ERR_NULL_PTR, out)
  end.

Definition hex_val (c : Z) : Z :=
  if (48 <=? c) && (c <=? 57) then c - 48
  else if (97 <=? c) && (c <=? 102) then c - 97 + 10
  else if (65 <=? c) && (c <=? 70) then c - 65 + 10
  else -1.

Definition scl_rand_uuid_from_string (str : option (list Z)) (uuid : option scl_rand_uuid_t)
    : res (scl_error_t * option scl_rand_uuid_t) :=
  match str, uuid with
  | Some str, Some u =>
      r ← zfor_ret 0 16
        (fun i '(u, si) =>
           r ← (if dash_before i then c ← get str si; mret (negb (c =? 45), si + 1) else mret (false, si));
           let '(bad, si) := r in
           if bad : bool then mret (inr u)
           else
             c ← get str si; let hi := hex_val c in
             c ← get str (si + 1); let lo := hex_val c in
             if (hi <? 0) || (lo <? 0) then mret (inr u)
             else u ← set u i (u8 (Z.lor (Z.shiftl hi 4) lo)); mret (inl (u, si + 2)))
        (u, 0);
      match r with
      | inl (u, _) => mret (SCL_OK, Some u)
      | inr u => mret (SCL_ERR_INVALID_ARG, Some u)
      end
  | _, _ => mret (SCL_ERR_NULL_PTR, uuid)
  end.

(** [memcmp] of two objects of the same size. *)
Definition scl_rand_uuid_compare (a b : option scl_rand_uuid_t) : Z :=
  match a, b with
  | None, None => 0
  | None, Some _ => -1
  | Some _, None => 1
  | Some a, Some b => strcmp a b
  end.

Definition scl_rand_uuid_is_nil (uuid : option scl_rand_uuid_t) : res bool :=
  match uuid with
  | None => mret true
  | Some u =>
      r ← zfor_ret 0 16 (fun i s => b ← get u i; if negb (b =? 0) then mret (inr false) else mret (inl s)) tt;
      mret (match r with inl _ => true | inr b => b end)
  end.

(** ** The textual form *)
Definition hex_digit (d : Z) : Z := if d <? 10 then 48 + d else 87 + d.
Definition piece (i b : Z) : list Z := (if dash_before i then [45] else []) ++ [hex_digit (b / 16); hex_digit (b mod 16)].
Fixpoint text_from (i : Z) (u : list Z) : list Z :=
  match u with [] => [] | b :: u => piece i b ++ text_from (i + 1) u end.
Definition uuid_text (u : scl_rand_uuid_t) : list Z := text_from 0 u.

(** The letters of hexadecimal digits in lower case. *)
Definition lower (c : Z) : Z := if (65 <=? c) && (c <=? 70) then c + 32 else c.

Lemma hex_chars_digit d (Q : Z -> Prop) : 0 <= d < 16 -> Q (hex_digit d) -> wp (get hex_chars d) Q.
Proof.
  intros Hd HQ. assert (zlook hex_chars d = Some (hex_digit d)) as E.
  { assert (exists n : nat, d = Z.of_nat n /\ (n < 16)%nat) as (n & -> & Hn) by (exists (Z.to_nat d); lia).
    do 16 (destruct n as [|n]; [done|]). lia. }
  unfold get. by rewrite E.
Qed.

(** A digit has its value, in either case; other characters have none. *)
Lemma hex_val_digit c d : 0 <= d < 16 -> lower c = hex_digit d <-> hex_val c = d.
Proof.
  unfold lower, hex_digit, hex_val. intros Hd. split; repeat (bcase; simpl andb; cbv iota; try lia).
Qed.

Lemma hex_val_range c : hex_val c = -1 \/ 0 <= hex_val c < 16.
Proof. unfold hex_val. repeat (bcase; simpl andb; cbv iota; try lia). Qed.

Lemma lower_dash c : lower c = 45 <-> c = 45.
Proof. unfold lower. repeat (bcase; simpl andb; cbv iota; try lia). Qed.

Lemma nibbles b : 0 <= b < 256 -> Z.land (Z.shiftr b 4) 0xf = b / 16 /\ Z.land b 0xf = b mod 16.
Proof.
  intros Hb. change 0xf with (Z.ones 4). rewrite !Z.land_ones, Z.shiftr_div_pow2 by lia. split; [|done].
  apply Z.mod_small. change (2 ^ 4) with 16. zdiv.
Qed.

Lemma lor_shiftl n hi lo : 0 <= n -> 0 <= lo < 2 ^ n -> Z.lor (Z.shiftl hi n) lo = hi * 2 ^ n + lo.
Proof.
  intros Hn Hl. rewrite <- Z.lxor_lor, <- Z.add_nocarry_lxor, Z.shiftl_mul_pow2; [done|lia|..];
    (apply Z.bits_inj'; intros i Hi; rewrite Z.land_spec, Z.shiftl_spec, Z.bits_0 by lia;
     destruct (Z.lt_ge_cases i n); [by rewrite Z.testbit_neg_r by lia|]; rewrite <- (Z.mod_small lo (2 ^ n)) by done;
     rewrite Z.mod_pow2_bits_high by lia; apply andb_false_r).
Qed.

Lemma join_nibbles hi lo : 0 <= hi < 16 -> 0 <= lo < 16 -> u8 (Z.lor (Z.shiftl hi 4) lo) = 16 * hi + lo.
Proof. intros Hh Hl. rewrite lor_shiftl by lia. unfold u8. rewrite Z.mod_small; lia. Qed.

Lemma text_from_app i u v : text_from i (u ++ v) = text_from i u ++ text_from (i + zlen u) v.
Proof.
  revert i. induction u as [|b u IH]; intros i; simpl; [by rewrite Z.add_0_r|].
  rewrite IH, zlen_cons, app_assoc. do 2 f_equal. lia.
Qed.

Lemma text_one i b : text_from i [b] = piece i b.
Proof. apply app_nil_r. Qed.

Lemma piece_len i b : length (piece i b) = if dash_before i then 3%nat else 2%nat.
Proof. unfold piece. by destruct (dash_before i). Qed.

Lemma text_len i u v : zlen u = zlen v -> length (text_from i u) = length (text_from i v).
Proof.
  revert i v. induction u as [|b u IH]; intros i [|c v]; rewrite ?zlen_cons; intros El; try done;
    [rewrite zlen_nil in El; pose proof (zlen_nonneg v); lia|rewrite zlen_nil in El; pose proof (zlen_nonneg u); lia|].
  cbn [text_from]. rewrite !length_app, !piece_len, (IH (i + 1) v) by lia. done.
Qed.

(** Writing the cell after a written prefix. *)
Lemma wp_set_prefix {A} (t o : list A) i x (Q : list A -> Prop) :
  i = zlen t -> zlen t < zlen o -> Q ((t ++ [x]) ++ drop (length (t ++ [x])) o) -> wp (set (t ++ drop (length t) o) i x) Q.
Proof.
  intros -> Hl HQ. unfold zlen in *. apply wp_set; [unfold zlen; rewrite length_app, length_drop; lia|].
  destruct (drop (length t) o) as [|y o'] eqn:E.
  { apply (f_equal length) in E. rewrite length_drop in E. simpl in E. lia. }
  assert (o' = drop (length (t ++ [x])) o) as ->.
  { rewrite length_app. simpl. replace (length t + 1)%nat with (1 + length t)%nat by lia. by rewrite Nat.add_comm, <- drop_drop, E. }
  unfold zupd. destruct (Z.leb_spec 0 (Z.of_nat (length t))); [|lia]. rewrite Nat2Z.id, insert_app_r_alt, Nat.sub_diag by lia. simpl.
  by rewrite <- app_assoc in HQ.
Qed.

Lemma wp_zlook {A} (l : list A) i x (Q : A -> Prop) : zlook l i = Some x -> Q x -> wp (get l i) Q.
Proof. intros E HQ. unfold get. by rewrite E. Qed.

Lemma take_snoc {A} (l : list A) i x : zlook l i = Some x -> take (Z.to_nat (i + 1)) l = take (Z.to_nat i) l ++ [x].
Proof.
  unfold zlook. destruct (Z.leb_spec 0 i); [|done]. intros E. replace (Z.to_nat (i + 1)) with (S (Z.to_nat i)) by lia.
  by apply take_S_r.
Qed.

(** The first [i] bytes of a UUID print as the first characters of its text. *)
Lemma text_snoc u i b : 0 <= i -> zlook u i = Some b ->
  text_from 0 (take (Z.to_nat (i + 1)) u) = text_from 0 (take (Z.to_nat i) u) ++ piece i b.
Proof.
  intros Hi Hb. pose proof (zlook_Some _ _ _ Hb). rewrite (take_snoc _ _ _ Hb), text_from_app, zlen_take by lia. simpl.
  rewrite app_nil_r. do 2 f_equal. lia.
Qed.

Lemma prefix_len u i : 0 <= i <= zlen u ->
  zlen (text_from 0 (take (Z.to_nat i) u)) = zlen (text_from 0 (replicate (Z.to_nat i) 0)).
Proof. intros Hi. unfold zlen. f_equal. apply text_len. rewrite zlen_take, zlen_replicate by lia. lia. Qed.

Lemma uuid_text_len u : zlen u = 16 -> zlen (uuid_text u) = 36.
Proof. intros Hu. unfold zlen, uuid_text. rewrite (text_len 0 u (replicate 16 0)); done. Qed.

Lemma text_prefix u i : 0 <= i <= zlen u -> zlen (text_from 0 (take (Z.to_nat i) u)) <= zlen (uuid_text u).
Proof.
  intros Hi. unfold uuid_text. rewrite <- (take_drop (Z.to_nat i) u) at 2. rewrite text_from_app, zlen_app.
  pose proof (zlen_nonneg (text_from (0 + zlen (take (Z.to_nat i) u)) (drop (Z.to_nat i) u))). lia.
Qed.

Lemma to_string_spec u out : is_uuid u -> 37 <= zlen out ->
  scl_rand_uuid_to_string (Some u) (Some out) = Ok (SCL_OK, Some (uuid_text u ++ 0 :: drop 37 out)).
Proof.
  intros [Hu Hb] Ho.
  enough (wp (scl_rand_uuid_to_string (Some u) (Some out))
    (eq (SCL_OK, Some (uuid_text u ++ 0 :: drop 37 out)))) as (a & -> & <-)%wp_ok by done.
  unfold scl_rand_uuid_to_string. wstep.
  apply (wp_zfor (fun i '(o, pos) => let t := text_from 0 (take (Z.to_nat i) u) in
    o = t ++ drop (length t) out /\ pos = zlen t)); [done| |].
  - intros i [o pos] Hi [-> ->]. destruct (zlook_lt u i) as [b Eb]; [lia|]. specialize (Hb i b Eb).
    destruct (nibbles b Hb) as [E1 E2]. pose proof (text_prefix u (i + 1) ltac:(lia)) as Hp.
    rewrite (uuid_text_len u Hu) in Hp. cbv zeta. rewrite (text_snoc u i b) in * by (done || lia).
    set (t := text_from 0 (take (Z.to_nat i) u)) in *. unfold piece in *. rewrite !zlen_app in Hp.
    assert (forall t', t' = t ++ (if dash_before i then [45] else []) ->
      wp (b ← get u i; c ← get hex_chars (Z.land (Z.shiftr b 4) 0xf); out ← set (t' ++ drop (length t') out) (zlen t') c;
          b ← get u i; c ← get hex_chars (Z.land b 0xf); out ← set out (zlen t' + 1) c; mret (out, zlen t' + 2))
        (fun '(o, pos) => let t := t ++ (if dash_before i then [45] else []) ++ [hex_digit (b / 16); hex_digit (b mod 16)] in
           o = t ++ drop (length t) out /\ pos = zlen t)) as Hrest.
    { intros t' Et. pose proof (f_equal zlen Et) as El. rewrite zlen_app in El. change (zlen [_; _]) with 2 in Hp.
      wstep. apply (wp_zlook _ _ b); [done|]. wstep. rewrite E1. apply hex_chars_digit; [zdiv|]. wstep.
      apply wp_set_prefix; [done|lia|]. wstep. apply (wp_zlook _ _ b); [done|]. wstep. rewrite E2.
      apply hex_chars_digit; [zdiv|]. wstep. apply wp_set_prefix; [by rewrite zlen_app|rewrite zlen_app; change (zlen [_]) with 1; lia|].
      wstep. assert ((t' ++ [hex_digit (b / 16)]) ++ [hex_digit (b mod 16)] =
        t ++ (if dash_before i then [45] else []) ++ [hex_digit (b / 16); hex_digit (b mod 16)]) as ->
        by by rewrite Et, <- !app_assoc.
      split; [done|]. rewrite !zlen_app. change (zlen [hex_digit (b / 16); hex_digit (b mod 16)]) with 2. lia. }
    revert Hp Hrest. change (zlen [hex_digit (b / 16); hex_digit (b mod 16)]) with 2.
    destruct (dash_before i); intros Hp Hrest; wstep.
    + change (zlen [45]) with 1 in Hp. wstep. apply wp_set_prefix; [done|lia|]. wstep. specialize (Hrest (t ++ [45]) eq_refl).
      rewrite (zlen_app t [45]) in Hrest. exact Hrest.
    + wstep. rewrite app_nil_r in Hrest. by apply Hrest.
  - intros [o pos] [-> ->]. rewrite take_ge by (unfold zlen in *; lia). fold (uuid_text u). wstep.
    pose proof (uuid_text_len u Hu). apply wp_set_prefix; [lia|lia|]. wstep. rewrite <- app_assoc. simpl.
    rewrite length_app. unfold zlen in *. replace (length (uuid_text u) + length [0%Z])%nat with 37%nat by (simpl; lia). done.
Qed.

(** The position of the text of byte [i]. *)
Definition pos_of (i : Z) : Z := zlen (text_from 0 (replicate (Z.to_nat i) 0)).

Lemma pos_take u i : 0 <= i <= zlen u -> zlen (text_from 0 (take (Z.to_nat i) u)) = pos_of i.
Proof. apply prefix_len. Qed.

Lemma pos_of_all v : zlen (text_from 0 v) = pos_of (zlen v).
Proof. pose proof (zlen_nonneg v). rewrite <- (pos_take v (zlen v)) by lia. rewrite take_ge; [done|]. unfold zlen. lia. Qed.

Lemma pos_S i : 0 <= i -> pos_of (i + 1) = pos_of i + (if dash_before i then 3 else 2).
Proof.
  intros Hi. unfold pos_of. replace (Z.to_nat (i + 1)) with (Z.to_nat i + 1)%nat by lia.
  rewrite replicate_add, text_from_app, zlen_app, zlen_replicate. simpl text_from at 2. rewrite app_nil_r.
  unfold zlen at 2. rewrite piece_len. replace (0 + Z.of_nat (Z.to_nat i)) with i by lia. by destruct (dash_before i).
Qed.

Lemma pos_le i j : 0 <= i <= j -> pos_of i <= pos_of j.
Proof.
  intros Hij. unfold pos_of. replace (Z.to_nat j) with (Z.to_nat i + Z.to_nat (j - i))%nat by lia.
  rewrite replicate_add, text_from_app, zlen_app.
  pose proof (zlen_nonneg (text_from (0 + zlen (replicate (Z.to_nat i) 0)) (replicate (Z.to_nat (j - i)) 0))). lia.
Qed.

(** The characters of byte [i] in the text. *)
Lemma text_at u i b k : zlook u i = Some b -> 0 <= k < (if dash_before i then 3 else 2) ->
  zlook (uuid_text u) (pos_of i + k) = zlook (piece i b) k.
Proof.
  intros Hb Hk. pose proof (zlook_Some _ _ _ Hb). unfold uuid_text.
  assert (u = take (Z.to_nat (i + 1)) u ++ drop (Z.to_nat (i + 1)) u) as Eu by by rewrite take_drop.
  rewrite Eu, text_from_app, (text_snoc u i b) by (done || lia). rewrite <- app_assoc.
  assert (zlen (piece i b) = if dash_before i then 3 else 2) as El by (unfold zlen; rewrite piece_len; by destruct (dash_before i)).
  rewrite zlook_app, pos_take by lia. destruct (Z.ltb_spec (pos_of i + k) (pos_of i)); [lia|].
  replace (pos_of i + k - pos_of i) with k by lia. rewrite zlook_app, El.
  destruct (Z.ltb_spec k (if dash_before i then 3 else 2)); [done|lia].
Qed.

Lemma spelled str u i b k : lower <$> take 36 str = uuid_text u -> zlook u i = Some b -> 0 <= i < 16 ->
  0 <= k < (if dash_before i then 3 else 2) -> lower <$> zlook str (pos_of i + k) = zlook (piece i b) k.
Proof.
  intros E Hb Hi Hk. rewrite <- (text_at u i b k Hb Hk), <- E, zlook_fmap. f_equal. change 36%nat with (Z.to_nat 36).
  rewrite zlook_take. pose proof (pos_le (i + 1) 16). rewrite pos_S in * by lia. change (pos_of 16) with 36 in *.
  destruct (Z.ltb_spec (pos_of i + k) 36); [done|]. destruct (dash_before i); lia.
Qed.

Lemma digit_bound c b : 0 <= b < 256 -> lower c = hex_digit (b / 16) \/ lower c = hex_digit (b mod 16) -> 0 <= hex_val c.
Proof.
  intros Hb [E|E].
  - apply hex_val_digit in E; zdiv.
  - apply hex_val_digit in E; zdiv.
Qed.

Section Parse.
Context (str : list Z) (u0 : scl_rand_uuid_t).
Hypothesis Hs : 36 <= zlen str.

(** No UUID is spelled by the string. *)
Definition refused : Prop := forall u, is_uuid u -> lower <$> take 36 str <> uuid_text u.
(** What the parser knows after [i] bytes. *)
Definition parsed (i : Z) (u : list Z) (si : Z) : Prop :=
  si = pos_of i /\ exists v, zlen v = i /\ (forall j b, zlook v j = Some b -> 0 <= b < 256) /\
    u = v ++ drop (length v) u0 /\ lower <$> take (Z.to_nat si) str = text_from 0 v.

Lemma refused_at i : 0 <= i < 16 ->
  (forall u b, lower <$> take 36 str = uuid_text u -> zlook u i = Some b -> 0 <= b < 256 -> False) -> refused.
Proof. intros Hi Hr u [Hu1 Hu2] E. destruct (zlook_lt u i) as [b Hb]; [lia|]. by eapply Hr; eauto. Qed.

Lemma spelled_digits i p pre u b x y : 0 <= i < 16 -> pos_of i + zlen pre = p -> pos_of (i + 1) = p + 2 ->
  piece i = (fun b => pre ++ [hex_digit (b / 16); hex_digit (b mod 16)]) ->
  zlook str p = Some x -> zlook str (p + 1) = Some y ->
  lower <$> take 36 str = uuid_text u -> zlook u i = Some b -> 0 <= b < 256 -> 0 <= hex_val x /\ 0 <= hex_val y.
Proof.
  intros Hi Epre Enext Epiece Hx Hy E Hb Hr. pose proof (zlen_nonneg pre). rewrite pos_S in Enext by lia.
  pose proof (spelled str u i b (zlen pre) E Hb ltac:(lia) ltac:(lia)) as S1.
  pose proof (spelled str u i b (zlen pre + 1) E Hb ltac:(lia) ltac:(lia)) as S2.
  rewrite Epre, Hx, Epiece, zlook_app, Z.ltb_irrefl, Z.sub_diag in S1. injection S1 as S1.
  rewrite Z.add_assoc, Epre, Hy, Epiece, zlook_app in S2. destruct (Z.ltb_spec (zlen pre + 1) (zlen pre)); [lia|].
  replace (zlen pre + 1 - zlen pre) with 1 in S2 by lia. injection S2 as S2. split; eapply digit_bound; eauto.
Qed.

(** The two digits of byte [i], once its dash has been read. *)
Lemma wp_digits i p pre v (Q : scl_rand_uuid_t * Z + scl_rand_uuid_t -> Prop) :
  0 <= i < 16 -> zlen u0 = 16 -> zlen v = i -> (forall j b, zlook v j = Some b -> 0 <= b < 256) ->
  lower <$> take (Z.to_nat p) str = text_from 0 v ++ pre ->
  pos_of i + zlen pre = p -> pos_of (i + 1) = p + 2 ->
  piece i = (fun b => pre ++ [hex_digit (b / 16); hex_digit (b mod 16)]) ->
  (forall u, parsed (i + 1) u (p + 2) -> Q (inl (u, p + 2))) -> (forall u, refused -> Q (inr u)) ->
  wp (c ← get str p; let hi := hex_val c in c ← get str (p + 1); let lo := hex_val c in
      if (hi <? 0) || (lo <? 0) then mret (inr (v ++ drop (length v) u0))
      else u ← set (v ++ drop (length v) u0) i (u8 (Z.lor (Z.shiftl hi 4) lo)); mret (inl (u, p + 2))) Q.
Proof.
  intros Hi Hu0 Ev Hv Ep Epre Enext Epiece HQ1 HQ2. pose proof (zlen_nonneg pre).
  pose proof (pos_le (i + 1) 16 ltac:(lia)) as Hp. change (pos_of 16) with 36 in Hp.
  pose proof (pos_le 0 i ltac:(lia)) as Hp0. change (pos_of 0) with 0 in Hp0.
  wstep. wstep. cbv zeta. wstep. wstep.
  pose proof (fun u b => spelled_digits i p pre u b x x0 Hi Epre Enext Epiece Hx Hx0) as Hdig.
  destruct (hex_val_range x) as [Ex|Hx1].
  { rewrite Ex. apply HQ2, (refused_at i Hi). intros u b E Hb Hr. destruct (Hdig u b E Hb Hr); lia. }
  destruct (hex_val_range x0) as [Ex|Hx2].
  { rewrite Ex, orb_true_r. apply HQ2, (refused_at i Hi). intros u b E Hb Hr. destruct (Hdig u b E Hb Hr); lia. }
  destruct (Z.ltb_spec (hex_val x) 0); [lia|]. destruct (Z.ltb_spec (hex_val x0) 0); [lia|]. simpl orb. cbv iota.
  rewrite join_nibbles by done. wstep. apply wp_set_prefix; [done|lia|]. wstep. apply HQ1. split; [done|].
  exists (v ++ [16 * hex_val x + hex_val x0]). split; [rewrite zlen_app; change (zlen [_]) with 1; lia|].
  split; [|split; [done|]].
  - intros j b. rewrite zlook_app. destruct (Z.ltb_spec j (zlen v)); [apply Hv|].
    intros Hj. apply zlook_elem, list_elem_of_singleton in Hj as ->. lia.
  - replace (Z.to_nat (p + 2)) with (Z.to_nat (p + 1 + 1)) by lia.
    rewrite (take_snoc _ _ _ Hx0), (take_snoc _ _ _ Hx), !fmap_app, Ep, text_from_app, text_one, Z.add_0_l, Ev, Epiece,
      <- !app_assoc. do 2 f_equal.
    replace ((16 * hex_val x + hex_val x0) / 16) with (hex_val x) by zdiv.
    replace ((16 * hex_val x + hex_val x0) mod 16) with (hex_val x0) by zdiv.
    simpl. f_equal; [|f_equal]; by apply hex_val_digit.
Qed.

Lemma from_string_spec : zlen u0 = 16 ->
  wp (scl_rand_uuid_from_string (Some str) (Some u0)) (fun '(e, r) =>
    (e = SCL_OK /\ exists u, r = Some u /\ is_uuid u /\ lower <$> take 36 str = uuid_text u) \/
    (e = SCL_ERR_INVALID_ARG /\ is_Some r /\ refused)).
Proof.
  intros Hu0. unfold scl_rand_uuid_from_string. wstep. apply (wp_zfor_ret (fun i '(u, si) => parsed i u si)).
  - split; [done|]. exists []. split; [done|]. split; [|done]. intros j b. by rewrite zlook_nil.
  - intros i [u si] Hi (-> & v & Ev & Hv & -> & Et). pose proof (pos_le (i + 1) 16 ltac:(lia)) as Hp.
    rewrite pos_S in Hp by lia. change (pos_of 16) with 36 in Hp.
    pose proof (pos_le 0 i ltac:(lia)) as Hp0. change (pos_of 0) with 0 in Hp0.
    wstep. destruct (dash_before i) eqn:Ed.
    + wstep. wstep. wstep. destruct (Z.eqb_spec x 45) as [->|Hne]; simpl negb; cbv iota.
      * apply (wp_digits i _ [45]); [done|done|done|done| |done|rewrite pos_S, Ed; lia| |done|intros; wstep; by right].
        -- by rewrite (take_snoc _ _ _ Hx), fmap_app, Et.
        -- unfold piece. by rewrite Ed.
      * wstep. right. split; [done|]. split; [done|]. apply (refused_at i Hi). intros u b E Hb _.
        pose proof (spelled str u i b 0 E Hb ltac:(lia)) as S1. rewrite Ed in S1.
        specialize (S1 ltac:(lia)). rewrite Z.add_0_r, Hx in S1. unfold piece in S1. rewrite Ed in S1. injection S1 as S1.
        by apply Hne, lower_dash.
    + wstep. apply (wp_digits i _ []); [done|done|done|done|by rewrite app_nil_r|apply Z.add_0_r|rewrite pos_S, Ed; lia| |done|intros; wstep; by right].
      unfold piece. by rewrite Ed.
  - intros [u si] (-> & v & Ev & Hv & -> & Et). wstep. left. split; [done|]. exists v.
    rewrite drop_ge, app_nil_r by (unfold zlen in *; lia). split; [done|]. by split.
Qed.
End Parse.

Lemma hex_digit_inj d e : 0 <= d < 16 -> 0 <= e < 16 -> hex_digit d = hex_digit e -> d = e.
Proof. unfold hex_digit. intros Hd He. repeat bcase; lia. Qed.

Lemma text_from_inj u v i : (forall j b, zlook u j = Some b -> 0 <= b < 256) -> (forall j b, zlook v j = Some b -> 0 <= b < 256) ->
  zlen u = zlen v -> text_from i u = text_from i v -> u = v.
Proof.
  revert i v. induction u as [|b u IH]; intros i [|c v] Hu Hv El E; rewrite ?zlen_cons in El; try done;
    [rewrite zlen_nil in El; pose proof (zlen_nonneg v); lia|rewrite zlen_nil in El; pose proof (zlen_nonneg u); lia|].
  pose proof (Hu 0 b eq_refl). pose proof (Hv 0 c eq_refl). cbn [text_from] in E.
  apply app_inj_1 in E as [E1 E2]; [|by rewrite !piece_len].
  unfold piece in E1. apply app_inv_head in E1. injection E1 as Eh El'.
  apply hex_digit_inj in Eh; [|zdiv..]. apply hex_digit_inj in El'; [|zdiv..]. f_equal; [zdiv|].
  apply (IH (i + 1)); [| |lia|done].
  - intros j d Hj. apply (Hu (j + 1)). rewrite zlook_cons. pose proof (zlook_Some _ _ _ Hj). destruct (Z.eqb_spec (j + 1) 0); [lia|].
    by replace (j + 1 - 1) with j by lia.
  - intros j d Hj. apply (Hv (j + 1)). rewrite zlook_cons. pose proof (zlook_Some _ _ _ Hj). destruct (Z.eqb_spec (j + 1) 0); [lia|].
    by replace (j + 1 - 1) with j by lia.
Qed.

Lemma lower_text i u : (forall j b, zlook u j = Some b -> 0 <= b < 256) -> lower <$> text_from i u = text_from i u.
Proof.
  revert i. induction u as [|b u IH]; intros i Hu; [done|]. cbn [text_from]. rewrite fmap_app, IH.
  - f_equal. pose proof (Hu 0 b eq_refl). assert (forall d, 0 <= d < 16 -> lower (hex_digit d) = hex_digit d) as Hd.
    { intros d Hd. unfold lower, hex_digit. repeat (bcase; simpl andb; cbv iota; try lia). }
    unfold piece. rewrite fmap_app. simpl. rewrite !Hd by zdiv. by destruct (dash_before i).
  - intros j d Hj. apply (Hu (j + 1)). rewrite zlook_cons. pose proof (zlook_Some _ _ _ Hj). destruct (Z.eqb_spec (j + 1) 0); [lia|].
    by replace (j + 1 - 1) with j by lia.
Qed.

(** C25. Printing and parsing UUIDs are inverse to each other.  A UUID prints as
    its 36 characters and a terminator, writing nothing beyond them, and
    parsing that text gives it back.  A string of at least 36 characters is
    parsed exactly when, with its hexadecimal letters in lower case, it starts
    with the text of a UUID, which is then the result, and is refused
    otherwise. *)
Theorem uuid_roundtrip (u old : scl_rand_uuid_t) (out str : list Z)
  (Hu : is_uuid u) (Hold : zlen old = 16) (Hout : 37 <= zlen out) (Hstr : 36 <= zlen str) :
  (exists o, scl_rand_uuid_to_string (Some u) (Some out) = Ok (SCL_OK, Some o) /\ o = uuid_text u ++ 0 :: drop 37 out /\
     scl_rand_uuid_from_string (Some o) (Some old) = Ok (SCL_OK, Some u)) /\
  ((exists v o, scl_rand_uuid_from_string (Some str) (Some old) = Ok (SCL_OK, Some v) /\ is_uuid v /\
      scl_rand_uuid_to_string (Some v) (Some out) = Ok (SCL_OK, Some o) /\ take 36 o = lower <$> take 36 str) \/
   (exists r, scl_rand_uuid_from_string (Some str) (Some old) = Ok (SCL_ERR_INVALID_ARG, Some r) /\ refused str)).
Proof.
  assert (forall v, is_uuid v -> take 36 (uuid_text v ++ 0 :: drop 37 out) = uuid_text v) as Ht.
  { intros v [Hv _]. apply uuid_text_len in Hv. rewrite take_app_le, take_ge by (unfold zlen in *; lia). done. }
  split.
  - eexists. split; [by apply to_string_spec|]. split; [done|].
    pose proof (uuid_text_len u (proj1 Hu)). pose proof (from_string_spec (uuid_text u ++ 0 :: drop 37 out) old) as W.
    rewrite zlen_app, zlen_cons in W. specialize (W ltac:(pose proof (zlen_nonneg (drop 37 out)); lia) Hold).
    apply wp_ok in W as ([e r] & E & W). rewrite E. rewrite Ht in W by done. unfold uuid_text in W at 1.
    rewrite lower_text in W by apply Hu. destruct W as [(-> & v & -> & Hv & Ev)|(_ & _ & Hr)].
    + destruct Hu as [Hu1 Hu2], Hv as [Hv1 Hv2]. by rewrite (text_from_inj u v 0 Hu2 Hv2 ltac:(congruence) Ev).
    + exfalso. apply (Hr u Hu). rewrite Ht by done. unfold uuid_text. by rewrite lower_text by apply Hu.
  - pose proof (from_string_spec str old Hstr Hold) as W. apply wp_ok in W as ([e r] & E & W). rewrite E.
    destruct W as [(-> & v & -> & Hv & Ev)|(-> & [r' ->] & Hr)]; [left|right; eauto].
    eexists v, _. split; [done|]. split; [done|]. split; [by apply to_string_spec|]. by rewrite Ht.
Qed.

Lemma uuid_roundtrip_witness :
  exists v, scl_rand_uuid_from_string (Some (uuid_text (replicate 16 0xAB) ++ 0 :: drop 37 (replicate 40 7))) (Some (replicate 16 0))
    = Ok (SCL_OK, Some v) /\ v = replicate 16 0xAB.
Proof.
  destruct (uuid_roundtrip (replicate 16 0xAB) (replicate 16 0) (replicate 40 7) (replicate 40 0)) as [(o & _ & -> & E) _].
  - split; [done|]. intros i b. rewrite zlook_replicate. destruct (_ && _); [|done]. intros [= <-]. lia.
  - done.
  - vm_compute. discriminate.
  - vm_compute. discriminate.
  - exists (replicate 16 0xAB). split; [exact E|done].
Defined.

Lemma is_uuid_zupd u i b : is_uuid u -> 0 <= b < 256 -> is_uuid (zupd u i b).
Proof.
  intros [Hl Hu] Hb. split; [by rewrite zlen_zupd|]. intros j c. rewrite zlook_zupd. case_decide; [by intros [= <-]|apply Hu].
Qed.

(** C28. Generation always succeeds with a well-formed version 4 UUID: sixteen
    bytes, four version bits 0100 and two variant bits 10, hence a [4] as
    fifteenth character of its text, never the nil UUID, and equal in the
    comparison only to itself.  The other bits are the random ones; where the
    system delivered fewer bytes than asked for, which goes unnoticed, they
    are what the caller's object held before. *)
Theorem uuid_generated_v4 (rnd : list Z) (old : scl_rand_uuid_t) (Hold : is_uuid old)
  (Hrnd : zlen rnd <= 16 /\ forall i b, zlook rnd i = Some b -> 0 <= b < 256) :
  exists v, scl_rand_uuid_generate rnd (Some old) = Ok (SCL_OK, Some v) /\ is_uuid v /\
    (exists b6 b8, zlook v 6 = Some b6 /\ zlook v 8 = Some b8 /\ b6 / 16 = 4 /\ b8 / 64 = 2) /\
    (forall i, i <> 6 -> i <> 8 -> zlook v i = zlook (get_random_bytes rnd old) i) /\
    zlook (uuid_text v) 14 = Some 52 /\ scl_rand_uuid_is_nil (Some v) = Ok false /\
    (forall v', scl_rand_uuid_compare (Some v) (Some v') = 0 <-> v' = v).
Proof.
  destruct Hold as [Ho1 Ho2], Hrnd as [Hr1 Hr2]. set (u := get_random_bytes rnd old).
  assert (is_uuid u) as [Hu1 Hu2].
  { unfold u, get_random_bytes. split; [unfold zlen in *; rewrite length_app, length_drop; lia|].
    intros i b. rewrite zlook_app. destruct (Z.ltb_spec i (zlen rnd)); [apply Hr2|]. intros Hb.
    rewrite <- (Nat2Z.id (length rnd)), zlook_drop in Hb by lia. destruct (_ <=? _); [|done]. by apply Ho2 in Hb. }
  destruct (zlook_lt u 6 ltac:(lia)) as [b6 E6]. destruct (zlook_lt u 8 ltac:(lia)) as [b8 E8].
  assert (Z.lor 0x40 (Z.land b6 0x0f) = 64 + b6 mod 16) as L6.
  { change 0x0f with (Z.ones 4). rewrite Z.land_ones by lia. change 0x40 with (Z.shiftl 4 4). rewrite lor_shiftl by (try apply Z.mod_pos_bound; lia). done. }
  assert (Z.lor 0x80 (Z.land b8 0x3f) = 128 + b8 mod 64) as L8.
  { change 0x3f with (Z.ones 6). rewrite Z.land_ones by lia. change 0x80 with (Z.shiftl 2 6). rewrite lor_shiftl by (try apply Z.mod_pos_bound; lia). done. }
  set (v := (zupd (zupd u 6 (64 + b6 mod 16)) 8 (128 + b8 mod 64)) : scl_rand_uuid_t).
  assert (is_uuid v) as Hv by (apply is_uuid_zupd; [apply is_uuid_zupd; [done|zdiv]|zdiv]).
  assert (zlook v 6 = Some (64 + b6 mod 16)) as V6 by (unfold v; by rewrite zlook_zupd_ne, zlook_zupd_eq by lia).
  assert (zlook v 8 = Some (128 + b8 mod 64)) as V8 by (unfold v; rewrite zlook_zupd_eq; rewrite ?zlen_zupd; done || lia).
  exists v. split; [|split; [exact Hv|]; split; [|split; [|split; [|split]]]].
  - enough (wp (scl_rand_uuid_generate rnd (Some old)) (eq (SCL_OK, Some v))) as (? & -> & <-)%wp_ok by done.
    unfold scl_rand_uuid_generate. fold u. cbv zeta.
    wstep. apply (wp_zlook _ _ b6); [done|]. wstep. apply wp_set; [lia|]. rewrite L6.
    wstep. apply (wp_zlook _ _ b8); [by rewrite zlook_zupd_ne|]. wstep. apply wp_set; [rewrite zlen_zupd; lia|]. by rewrite L8.
  - exists (64 + b6 mod 16), (128 + b8 mod 64). split_and!; [done|done|zdiv|zdiv].
  - intros i H6 H8. unfold v. by rewrite !zlook_zupd_ne by done.
  - change 14 with (pos_of 6 + 1). rewrite (text_at v 6 _ 1 V6) by (cbn; lia). unfold piece. cbn.
    replace ((64 + b6 mod 16) / 16) with 4 by zdiv. done.
  - enough (wp (scl_rand_uuid_is_nil (Some v)) (eq false)) as (? & -> & <-)%wp_ok by done.
    unfold scl_rand_uuid_is_nil. wstep. destruct Hv as [Hv1 Hv2].
    apply (wp_zfor_ret (fun i _ => i <= 6)); [lia| |intros _ H; lia].
    intros i s Hi Hi6. wstep. wstep. destruct (Z.eqb_spec x 0) as [->|]; cbn; [|done].
    destruct (Z.eq_dec i 6) as [->|]; [|lia]. rewrite V6 in Hx. injection Hx as Hx. zdiv.
  - intros v'. cbn. rewrite strcmp_eq. naive_solver.
Qed.

Lemma uuid_generated_v4_witness :
  exists v, scl_rand_uuid_generate [] (Some (replicate 16 0)) = Ok (SCL_OK, Some v) /\ zlook (uuid_text v) 14 = Some 52.
Proof.
  destruct (uuid_generated_v4 [] (replicate 16 0)) as (v & E & _ & _ & _ & H & _).
  - split; [done|]. intros i b. rewrite zlook_replicate. destruct (_ && _); [|done]. intros [= <-]. lia.
  - split; [done|]. intros i b. by rewrite zlook_nil.
  - exists v. split; [exact E|exact H].
Defined.

(** The parser reads two characters before looking at either, so it reads one
    past the terminator of a string that ends between two bytes. *)
Lemma uuid_parse_overreads :
  scl_rand_uuid_from_string (Some [0]) (Some (replicate 16 0)) = UB /\
  scl_rand_uuid_from_string (Some [48; 49; 0]) (Some (replicate 16 0)) = UB.
Proof. split; reflexivity. Qed.
