(* ===== verification/Prng.v ===== *)
(** The xoshiro256** generator of [libs/random/prng/scl_rand_prng.c]: seeding
    with splitmix64, steps, bounded and fractional draws, jumps, filling of
    buffers. *)

From S2P Require Import Prelude Core.
#[local] Open Scope Z_scope.

(** The four words of the state, [uint64_t]s. *)
Record scl_rand_prng_t : Type := Rng { s0 : Z; s1 : Z; s2 : Z; s3 : Z }.

Definition rotl (x k : Z) : Z := Z.lor (u64 (Z.shiftl x k)) (Z.shiftr x (64 - k)).

Definition splitmix64_next (state : Z) : Z * Z :=
  let state := u64 (state + 0x9e3779b97f4a7c15) in
  let z := state in
  let z := u64 (Z.lxor z (Z.shiftr z 30) * 0xbf58476d1ce4e5b9) in
  let z := u64 (Z.lxor z (Z.shiftr z 27) * 0x94d049bb133111eb) in
  (Z.lxor z (Z.shiftr z 31), state).

Definition scl_rand_prng_init (rng : option scl_rand_prng_t) (seed : Z) : scl_error_t * option scl_rand_prng_t :=
  match rng with
  | None => (SCL_ERR_NULL_PTR, None)
  | Some _ =>
      let '(a, sm) := splitmix64_next seed in
      let '(b, sm) := splitmix64_next sm in
      let '(c, sm) := splitmix64_next sm in
      let '(d, sm) := splitmix64_next sm in
      (SCL_OK, Some (Rng a b c d))
  end.

Definition scl_rand_prng_init_array (rng : option scl_rand_prng_t) (state : option (list Z))
    : res (scl_error_t * option scl_rand_prng_t) :=
  match rng, state with
  | Some _, Some st =>
      a ← get st 0; b ← get st 1; c ← get st 2; d ← get st 3; mret (SCL_OK, Some (Rng a b c d))
  | _, _ => mret (SCL_ERR_NULL_PTR, rng)
  end.

(** One step: the result and the next state. *)
Definition step (s : scl_rand_prng_t) : Z * scl_rand_prng_t :=
  let result := u64 (rotl (u64 (s1 s * 5)) 7 * 9) in
  let t := u64 (Z.shiftl (s1 s) 17) in
  let w2 := Z.lxor (s2 s) (s0 s) in
  let w3 := Z.lxor (s3 s) (s1 s) in
  let w1 := Z.lxor (s1 s) w2 in
  let w0 := Z.lxor (s0 s) w3 in
  (result, Rng w0 w1 (Z.lxor w2 t) (rotl w3 45)).

Definition scl_rand_prng_next (rng : option scl_rand_prng_t) : Z * option scl_rand_prng_t :=
  match rng with
  | None => (0, None)
  | Some s => let '(r, s) := step s in (r, Some s)
  end.

(** The numerator of the result, whose denominator is [2 ^ 53]. *)
Definition scl_rand_prng_next_double (rng : option scl_rand_prng_t) : Z * option scl_rand_prng_t :=
  match rng with
  | None => (0, None)
  | Some s => let '(r, s) := step s in (Z.shiftr r 11, Some s)
  end.

(** [rounds] draws are granted to the loop. *)
Definition scl_rand_prng_next_bounded (rounds : nat) (rng : option scl_rand_prng_t) (bound : Z)
    : res (Z * option scl_rand_prng_t) :=
  match rng with
  | None => mret (0, None)
  | Some s =>
      if bound =? 0 then mret (0, Some s)
      else
        let threshold := u64 (- bound) mod bound in
        '(val, s) ← loop rounds
          (fun s => let '(val, s) := step s in if val <? threshold then mret (inl s) else mret (inr (val, s))) s;
        mret (val mod bound, Some s)
  end.

Definition JUMP : list Z := [0x180ec6d33cfd0aba; 0xd5a61266f0c9392c; 0xa9582618e03fc9aa; 0x39abdc4539b888b8].

Definition rng_xor (a b : scl_rand_prng_t) : scl_rand_prng_t :=
  Rng (Z.lxor (s0 a) (s0 b)) (Z.lxor (s1 a) (s1 b)) (Z.lxor (s2 a) (s2 b)) (Z.lxor (s3 a) (s3 b)).

Definition scl_rand_prng_jump (rng : option scl_rand_prng_t) : res (option scl_rand_prng_t) :=
  match rng with
  | None => mret None
  | Some s =>
      '(acc, _) ← zfor 0 4
        (fun i st => j ← get JUMP i;
           zfor 0 64 (fun b '(acc, s) =>
             mret (if Z.land j (Z.shiftl 1 b) =? 0 then acc else rng_xor acc s, snd (step s))) st)
        (Rng 0 0 0 0, s);
      mret (Some acc)
  end.

Definition scl_rand_prng_get_state (rng : option scl_rand_prng_t) (out_state : option (list Z)) : res (option (list Z)) :=
  match rng, out_state with
  | Some s, Some o => o ← set o 0 (s0 s); o ← set o 1 (s1 s); o ← set o 2 (s2 s); o ← set o 3 (s3 s); mret (Some o)
  | _, _ => mret out_state
  end.

(** The bytes of a word in memory, and copying the first [n] of them. *)
Definition le_bytes (v : Z) : list Z := (fun k : nat => Z.shiftr v (8 * Z.of_nat k) mod 256) <$> seq 0 8.
Definition copy_bytes (p : list Z) (i v n : Z) : res (list Z) :=
  zfor 0 n (fun k p => b ← get (le_bytes v) k; set p (i + k) b) p.

Definition scl_rand_prng_fill (rng : option scl_rand_prng_t) (buf : option (list Z)) (len : Z)
    : res (option (list Z) * option scl_rand_prng_t) :=
  match rng, buf with
  | Some s, Some p =>
      '(p, i, s) ← loop (S (Z.to_nat (len / 8)))
        (fun '(p, i, s) =>
           if u64 (i + 8) <=? len then
             let '(val, s) := step s in
             p ← copy_bytes p i val 8;
             mret (inl (p, u64 (i + 8), s))
           else mret (inr (p, i, s))) (p, 0, s);
      if i <? len then
        let '(val, s) := step s in
        p ← copy_bytes p i val (len - i);
        mret (Some p, Some s)
      else mret (Some p, Some s)
  | _, _ => mret (buf, rng)
  end.

(** ** States *)
Definition is_state (s : scl_rand_prng_t) : Prop := is_u64 (s0 s) /\ is_u64 (s1 s) /\ is_u64 (s2 s) /\ is_u64 (s3 s).

Lemma u64_bits x i : 0 <= i -> Z.testbit (u64 x) i = (i <? 64) && Z.testbit x i.
Proof.
  intros Hi. unfold u64. destruct (Z.ltb_spec i 64); [rewrite Z.mod_pow2_bits_low by lia; done|by rewrite Z.mod_pow2_bits_high by lia].
Qed.

Lemma rotl_bits x k i : 0 < k < 64 -> is_u64 x -> 0 <= i ->
  Z.testbit (rotl x k) i = if i <? k then Z.testbit x (i - k + 64) else (i <? 64) && Z.testbit x (i - k).
Proof.
  intros Hk Hx Hi. apply is_u64_bits in Hx as [_ Hx]. unfold rotl. rewrite Z.lor_spec, u64_bits, Z.shiftl_spec, Z.shiftr_spec by lia.
  replace (i + (64 - k)) with (i - k + 64) by lia. destruct (Z.ltb_spec i k).
  - rewrite Z.testbit_neg_r by lia. by rewrite andb_false_r.
  - rewrite (Hx (i - k + 64)) by lia. by rewrite orb_false_r.
Qed.

Lemma rotl_u64 x k : 0 < k < 64 -> is_u64 x -> is_u64 (rotl x k).
Proof.
  intros Hk Hx. rewrite is_u64_bits. split.
  - unfold rotl. apply Z.lor_nonneg. split; [apply u64_range|apply Z.shiftr_nonneg; apply Hx].
  - intros i Hi. rewrite rotl_bits by (done || lia). destruct (Z.ltb_spec i k); [lia|]. by destruct (Z.ltb_spec i 64); [lia|].
Qed.

Lemma rotl_rotl x k : 0 < k < 64 -> is_u64 x -> rotl (rotl x k) (64 - k) = x.
Proof.
  intros Hk Hx. apply Z.bits_inj'. intros i Hi. rewrite rotl_bits by (lia || by apply rotl_u64).
  pose proof (proj2 (proj1 (is_u64_bits x) Hx)) as Hh. destruct (Z.ltb_spec i (64 - k)).
  - rewrite rotl_bits by (done || lia). destruct (Z.ltb_spec (i - (64 - k) + 64) k); [lia|].
    destruct (Z.ltb_spec (i - (64 - k) + 64) 64); [|lia]. simpl. f_equal. lia.
  - destruct (Z.ltb_spec i 64); simpl; [|by rewrite Hh by lia].
    rewrite rotl_bits by (done || lia). destruct (Z.ltb_spec (i - (64 - k)) k); [|lia]. f_equal. lia.
Qed.

(** ** Steps are reversible *)
Definition smear (x : Z) : Z := Z.lxor x (u64 (Z.shiftl x 17)).
Definition unsmear (y : Z) : Z :=
  Z.lxor (Z.lxor y (u64 (Z.shiftl y 17))) (Z.lxor (u64 (Z.shiftl y 34)) (u64 (Z.shiftl y 51))).
Definition unstep (a : scl_rand_prng_t) : scl_rand_prng_t :=
  let w3 := rotl (s3 a) 19 in
  let w0 := Z.lxor (s0 a) w3 in
  let w1 := unsmear (Z.lxor (s1 a) (s2 a)) in
  Rng w0 w1 (Z.lxor (Z.lxor w1 (s1 a)) w0) (Z.lxor w3 w1).

Lemma shl_bits x n i : 0 <= i -> Z.testbit (u64 (Z.shiftl x n)) i = (i <? 64) && Z.testbit x (i - n).
Proof. intros Hi. rewrite u64_bits, Z.shiftl_spec by done. done. Qed.

Lemma shl_u64 x n : is_u64 (u64 (Z.shiftl x n)).
Proof. apply u64_range. Qed.

Lemma high_bit x i : is_u64 x -> 64 <= i -> Z.testbit x i = false.
Proof. intros [_ H]%is_u64_bits. apply H. Qed.

Ltac zbits := apply Z.bits_inj'; let i := fresh "i" in let Hi := fresh "Hi" in intros i Hi;
  rewrite ?Z.lxor_spec, ?shl_bits, ?Z.lxor_spec by done.

(** Bits of negative index are [false], so the sums telescope. *)
Lemma unsmear_smear x : is_u64 x -> unsmear (smear x) = x.
Proof.
  intros Hx. unfold unsmear. zbits. destruct (Z.ltb_spec i 64); cbn [andb].
  - assert (forall j, j < 64 -> Z.testbit (smear x) j = xorb (Z.testbit x j) (Z.testbit x (j - 17))) as E.
    { intros j Hj. destruct (Z.lt_ge_cases j 0); [by rewrite !Z.testbit_neg_r by lia|].
      unfold smear. rewrite Z.lxor_spec, shl_bits by lia. by destruct (Z.ltb_spec j 64); [|lia]. }
    rewrite !E by lia. replace (i - 17 - 17) with (i - 34) by lia. replace (i - 34 - 17) with (i - 51) by lia.
    rewrite (Z.testbit_neg_r x (i - 51 - 17)) by lia.
    by destruct (Z.testbit x i), (Z.testbit x (i - 17)), (Z.testbit x (i - 34)), (Z.testbit x (i - 51)).
  - unfold smear. rewrite Z.lxor_spec, shl_bits by done. destruct (Z.ltb_spec i 64); [lia|]. by destruct (Z.testbit x i).
Qed.

Lemma smear_unsmear y : is_u64 y -> smear (unsmear y) = y.
Proof.
  intros Hy. unfold smear. zbits.
  assert (forall j, j < 64 -> Z.testbit (unsmear y) j =
    xorb (xorb (Z.testbit y j) (Z.testbit y (j - 17))) (xorb (Z.testbit y (j - 34)) (Z.testbit y (j - 51)))) as E.
  { intros j Hj. destruct (Z.lt_ge_cases j 0); [by rewrite !Z.testbit_neg_r by lia|].
    unfold unsmear. rewrite !Z.lxor_spec, !shl_bits by lia. by destruct (Z.ltb_spec j 64); [|lia]. }
  destruct (Z.ltb_spec i 64); cbn [andb].
  - rewrite !E by lia. replace (i - 17 - 17) with (i - 34) by lia. replace (i - 17 - 34) with (i - 51) by lia.
    rewrite (Z.testbit_neg_r y (i - 17 - 51)) by lia.
    by destruct (Z.testbit y i), (Z.testbit y (i - 17)), (Z.testbit y (i - 34)), (Z.testbit y (i - 51)).
  - unfold unsmear. rewrite !Z.lxor_spec, !shl_bits by done. destruct (Z.ltb_spec i 64); [lia|]. by destruct (Z.testbit y i).
Qed.

Lemma unsmear_u64 y : is_u64 y -> is_u64 (unsmear y).
Proof. intros Hy. unfold unsmear. auto using u64_lxor, shl_u64. Qed.

Lemma lxor_cancel a b : Z.lxor (Z.lxor a b) b = a.
Proof. by rewrite Z.lxor_assoc, Z.lxor_nilpotent, Z.lxor_0_r. Qed.

Lemma lxor_cancel_l a b : Z.lxor (Z.lxor b a) b = a.
Proof. by rewrite (Z.lxor_comm b a), lxor_cancel. Qed.

Lemma step_state s : is_state s -> is_state (snd (step s)).
Proof.
  intros (H0 & H1 & H2 & H3). split; [|split; [|split]]; cbn; repeat (apply u64_lxor || apply shl_u64 || (apply rotl_u64; [lia|]) || done).
Qed.

Lemma unstep_state s : is_state s -> is_state (unstep s).
Proof.
  intros (H0 & H1 & H2 & H3).
  split; [|split; [|split]]; cbn; repeat (apply unsmear_u64 || apply u64_lxor || apply unsmear_u64 || (apply rotl_u64; [lia|]) || done).
Qed.

Lemma unstep_step s : is_state s -> unstep (snd (step s)) = s.
Proof.
  destruct s as [a b c d]. intros (H0 & H1 & H2 & H3). cbn in *. unfold unstep. cbn.
  assert (rotl (rotl (Z.lxor d b) 45) 19 = Z.lxor d b) as -> by (apply (rotl_rotl _ 45); [lia|by apply u64_lxor]).
  assert (Z.lxor (Z.lxor b (Z.lxor c a)) (Z.lxor (Z.lxor c a) (u64 (Z.shiftl b 17))) = smear b) as ->.
  { unfold smear. by rewrite <- Z.lxor_assoc, lxor_cancel. }
  rewrite unsmear_smear by done. f_equal.
  - apply lxor_cancel.
  - rewrite lxor_cancel, <- Z.lxor_assoc, Z.lxor_nilpotent, Z.lxor_0_l. apply lxor_cancel.
  - apply lxor_cancel.
Qed.

Lemma step_unstep s : is_state s -> snd (step (unstep s)) = s.
Proof.
  destruct s as [a b c d]. intros (H0 & H1 & H2 & H3). cbn in *.
  set (x := unsmear (Z.lxor b c)). set (w3 := rotl d 19).
  assert (is_u64 (Z.lxor b c)) as Hbc by by apply u64_lxor.
  assert (Z.lxor (Z.lxor (Z.lxor x b) (Z.lxor a w3)) (Z.lxor a w3) = Z.lxor x b) as -> by apply lxor_cancel.
  assert (Z.lxor (Z.lxor w3 x) x = w3) as -> by apply lxor_cancel. f_equal.
  - apply lxor_cancel.
  - by rewrite <- Z.lxor_assoc, Z.lxor_nilpotent, Z.lxor_0_l.
  - pose proof (smear_unsmear _ Hbc) as E. unfold smear in E. fold x in E.
    rewrite (Z.lxor_comm x b), Z.lxor_assoc, E. by rewrite <- Z.lxor_assoc, Z.lxor_nilpotent, Z.lxor_0_l.
  - by apply (rotl_rotl d 19).
Qed.

(** ** Steps are linear, so they commute with jumps *)
Lemma rotl_lxor a b k : 0 < k < 64 -> is_u64 a -> is_u64 b -> rotl (Z.lxor a b) k = Z.lxor (rotl a k) (rotl b k).
Proof.
  intros Hk Ha Hb. zbits. rewrite !rotl_bits by (done || by apply u64_lxor). rewrite !Z.lxor_spec.
  destruct (i <? k), (i <? 64); done.
Qed.

Lemma shl_lxor a b n : u64 (Z.shiftl (Z.lxor a b) n) = Z.lxor (u64 (Z.shiftl a n)) (u64 (Z.shiftl b n)).
Proof. zbits. rewrite ?Z.lxor_spec. by destruct (i <? 64). Qed.

Lemma lxor_swap a b c d : Z.lxor (Z.lxor a b) (Z.lxor c d) = Z.lxor (Z.lxor a c) (Z.lxor b d).
Proof. rewrite !Z.lxor_assoc. f_equal. by rewrite <- !Z.lxor_assoc, (Z.lxor_comm b c). Qed.

Lemma rng_xor_state a b : is_state a -> is_state b -> is_state (rng_xor a b).
Proof. intros (? & ? & ? & ?) (? & ? & ? & ?). split; [|split; [|split]]; by apply u64_lxor. Qed.

Lemma step_xor a b : is_state a -> is_state b -> snd (step (rng_xor a b)) = rng_xor (snd (step a)) (snd (step b)).
Proof.
  intros (? & Ha & ? & Ha3) (? & Hb & ? & Hb3). unfold step, rng_xor. cbn [s0 s1 s2 s3 snd].
  rewrite shl_lxor, (lxor_swap (s3 a) (s3 b)), (lxor_swap (s2 a) (s2 b)).
  rewrite rotl_lxor by (lia || by apply u64_lxor). f_equal; apply lxor_swap.
Qed.

Lemma zfor_related {St} (R : St -> St -> Prop) lo hi (body : Z -> St -> res St) p q :
  (forall i p q, lo <= i < hi -> R p q -> exists p' q', body i p = Ok p' /\ body i q = Ok q' /\ R p' q') -> R p q ->
  exists p' q', zfor lo hi body p = Ok p' /\ zfor lo hi body q = Ok q' /\ R p' q'.
Proof.
  intros Hb. unfold zfor. remember (Z.to_nat (hi - lo)) as n eqn:Hn. revert lo p q Hn Hb.
  induction n as [|n IH]; intros lo p q Hn Hb HR; [by exists p, q|]. simpl.
  destruct (Hb lo p q ltac:(lia) HR) as (p' & q' & -> & -> & HR'). simpl. apply IH; [lia| |done].
  intros i p1 q1 Hi. apply Hb. lia.
Qed.

(** Two runs of the jump, the second one step ahead. *)
Definition ahead (p q : scl_rand_prng_t * scl_rand_prng_t) : Prop :=
  is_state p.1 /\ is_state p.2 /\ q = (snd (step p.1), snd (step p.2)).

Lemma jump_next s : is_state s -> exists j, scl_rand_prng_jump (Some s) = Ok (Some j) /\ is_state j /\
  scl_rand_prng_jump (Some (snd (step s))) = Ok (Some (snd (step j))).
Proof.
  intros Hs. unfold scl_rand_prng_jump.
  destruct (zfor_related ahead 0 4
    (fun i st => j ← get JUMP i;
       zfor 0 64 (fun b '(acc, s) =>
         mret (if Z.land j (Z.shiftl 1 b) =? 0 then acc else rng_xor acc s, snd (step s))) st)
    (Rng 0 0 0 0, s) (Rng 0 0 0 0, snd (step s))) as ([a b] & q & E1 & E2 & Ha & Hb & ->).
  - intros i p q Hi HR. destruct (zlook_lt JUMP i Hi) as [j Ej]. unfold get. rewrite Ej. cbn [mbind res_bind].
    apply zfor_related; [|done]. intros b [acc t] q' _ (Hacc & Ht & ->). cbn [fst snd] in *.
    eexists _, _. split; [done|]. split; [done|]. split; [|split; [by apply step_state|]]; cbn [fst snd].
    + destruct (_ =? 0); [done|by apply rng_xor_state].
    + destruct (_ =? 0); [done|by rewrite step_xor].
  - split; [by repeat split|]. split; [exact Hs|]. cbn [fst snd]. f_equal.
  - exists a. rewrite E1, E2. split; [reflexivity|]. split; [exact Ha|reflexivity].
Qed.

(** C26. The generator's state is never lost: every step maps states of four
    64-bit words to such states and can be undone, in both orders, so no two
    states are confused and only the all-zero state steps to the all-zero
    state; a jump commutes with a step; a state read out with [get_state] and
    installed with [init_array] is the same state; seeding and drawing yield
    64-bit words, and fractional draws numerators below [2 ^ 53]. *)
Theorem prng_reversible (s : scl_rand_prng_t) (o : list Z) (Hs : is_state s) (Ho : zlen o = 4) :
  is_state (snd (step s)) /\ unstep (snd (step s)) = s /\ is_state (unstep s) /\ snd (step (unstep s)) = s /\
  (snd (step s) = Rng 0 0 0 0 -> s = Rng 0 0 0 0) /\
  (exists j, scl_rand_prng_jump (Some s) = Ok (Some j) /\ is_state j /\
     scl_rand_prng_jump (snd (scl_rand_prng_next (Some s))) = Ok (snd (scl_rand_prng_next (Some j)))) /\
  (exists o', scl_rand_prng_get_state (Some s) (Some o) = Ok (Some o') /\
     forall r, scl_rand_prng_init_array (Some r) (Some o') = Ok (SCL_OK, Some s)) /\
  (forall r seed, is_u64 seed -> exists s', scl_rand_prng_init (Some r) seed = (SCL_OK, Some s') /\ is_state s') /\
  0 <= fst (scl_rand_prng_next_double (Some s)) < 2 ^ 53.
Proof.
  split; [by apply step_state|]. split; [by apply unstep_step|]. split; [by apply unstep_state|].
  split; [by apply step_unstep|]. split; [|split; [|split; [|split]]].
  - intros E. rewrite <- (unstep_step s Hs), E. done.
  - exact (jump_next s Hs).
  - destruct s as [a b c d], o as [|w0 [|w1 [|w2 [|w3 [|? ?]]]]]; try done; [|unfold zlen in Ho; simpl in Ho; lia].
    by eexists.
  - intros r seed _. eexists. split; [done|].
    assert (forall z, is_u64 z -> is_u64 (Z.lxor z (Z.shiftr z 31))) as Hz.
    { intros z Hz. apply u64_lxor; [done|]. unfold is_u64 in *. rewrite Z.shiftr_div_pow2 by lia. zdiv. }
    split; [|split; [|split]]; apply Hz, u64_range.
  - cbn. rewrite Z.shiftr_div_pow2 by lia. pose proof (u64_range (rotl (u64 (s1 s * 5)) 7 * 9)). zdiv.
Qed.

Lemma prng_reversible_witness : unstep (snd (step (Rng 1 2 3 4))) = Rng 1 2 3 4.
Proof.
  destruct (prng_reversible (Rng 1 2 3 4) [0; 0; 0; 0]) as (_ & H & _); [|done|exact H].
  split; [|split; [|split]]; (split; [discriminate|reflexivity]).
Defined.

(** ** Draws *)
Definition after (n : nat) (s : scl_rand_prng_t) : scl_rand_prng_t := Nat.iter n (fun s => snd (step s)) s.
Definition draw (s : scl_rand_prng_t) (n : nat) : Z := fst (step (after n s)).

Lemma after_S n s : after (S n) s = after n (snd (step s)).
Proof. unfold after. by rewrite Nat.iter_succ_r. Qed.

Lemma draw_S s n : draw (snd (step s)) n = draw s (S n).
Proof. unfold draw. by rewrite after_S. Qed.

Lemma draw_0 s : draw s 0 = fst (step s).
Proof. done. Qed.

(** The rejection loop waits for the first accepted draw. *)
Lemma bounded_loop s threshold n rounds :
  (forall m, (m < n)%nat -> draw s m < threshold) -> (n < rounds)%nat -> threshold <= draw s n ->
  loop rounds (fun s => let '(val, s) := step s in if val <? threshold then mret (inl s) else mret (inr (val, s))) s
    = Ok (draw s n, after (S n) s).
Proof.
  revert s rounds. induction n as [|n IH]; intros s [|rounds] Hm Hr Hn; try lia; cbn [loop];
    pose proof (draw_0 s) as E0; pose proof (draw_S s) as E1;
    destruct (step s) as [val s'] eqn:E; cbn [fst snd] in *.
  - rewrite <- E0. destruct (Z.ltb_spec (draw s 0) threshold); [lia|]. change (after 1 s) with (snd (step s)). by rewrite E.
  - rewrite <- E0. destruct (Z.ltb_spec (draw s 0) threshold); [|specialize (Hm 0%nat ltac:(lia)); lia].
    cbn [mbind res_bind mret res_ret]. rewrite (IH s' rounds); [|intros m Hlt; rewrite E1; apply Hm; lia|lia|by rewrite E1].
    rewrite E1. do 2 f_equal. pose proof (after_S (S n) s) as E3. by rewrite E3, E.
Qed.

Lemma bounded_starves s threshold rounds : (forall m, (m < rounds)%nat -> draw s m < threshold) ->
  loop rounds (fun s => let '(val, s) := step s in if val <? threshold then mret (inl s) else mret (inr (val, s))) s = Fuel.
Proof.
  revert s. induction rounds as [|rounds IH]; intros s Hm; [done|]. cbn [loop].
  pose proof (draw_0 s) as E0; pose proof (draw_S s) as E1. destruct (step s) as [val s'] eqn:E; cbn [fst snd] in *.
  rewrite <- E0. destruct (Z.ltb_spec (draw s 0) threshold); [|specialize (Hm 0%nat ltac:(lia)); lia].
  cbn [mbind res_bind mret res_ret]. apply IH. intros m Hlt. rewrite E1. apply Hm. lia.
Qed.

Lemma threshold_spec bound : 0 < bound < 2 ^ 64 -> u64 (- bound) mod bound = 2 ^ 64 mod bound.
Proof.
  intros Hb. unfold u64. replace ((- bound) mod 2 ^ 64) with (2 ^ 64 - bound).
  - rewrite Zminus_mod, Z.mod_same, Z.sub_0_r, Z.mod_mod by lia. done.
  - apply (Z.mod_unique_pos _ _ (-1)); lia.
Qed.

Lemma zero_draws m : draw (Rng 0 0 0 0) m = 0.
Proof.
  unfold draw. assert (after m (Rng 0 0 0 0) = Rng 0 0 0 0) as ->; [|reflexivity].
  induction m as [|m IH]; [done|]. change (after (S m) (Rng 0 0 0 0)) with (snd (step (after m (Rng 0 0 0 0)))). by rewrite IH.
Qed.

(** C27. A bounded draw answers, as soon as the generator draws a word not
    below the threshold [2 ^ 64 mod bound], that word modulo the bound, with
    the state right after that draw, and never answers before.  Draws so
    accepted are unbiased: for some [q], every residue comes from exactly [q]
    accepted words.  A generator in the all-zero state, which [init_array]
    accepts, never gets out of the loop unless the bound divides [2 ^ 64]. *)
Theorem bounded_draw_waits (s : scl_rand_prng_t) (bound : Z) (n rounds : nat) (Hb : 0 < bound < 2 ^ 64)
  (Hm : forall m, (m < n)%nat -> draw s m < 2 ^ 64 mod bound) :
  (2 ^ 64 mod bound <= draw s n -> (n < rounds)%nat ->
     scl_rand_prng_next_bounded rounds (Some s) bound = Ok (draw s n mod bound, Some (after (S n) s))) /\
  ((rounds <= n)%nat -> scl_rand_prng_next_bounded rounds (Some s) bound = Fuel) /\
  (exists q, 0 < q /\ forall r, 0 <= r < bound -> forall v, 2 ^ 64 mod bound <= v < 2 ^ 64 ->
     v mod bound = r <-> exists k, 0 <= k < q /\ v = 2 ^ 64 mod bound + k * bound + (r - 2 ^ 64 mod bound) mod bound) /\
  (2 ^ 64 mod bound <> 0 -> scl_rand_prng_next_bounded rounds (Some (Rng 0 0 0 0)) bound = Fuel).
Proof.
  assert (forall t, scl_rand_prng_next_bounded rounds (Some t) bound =
    '(val, t) ← loop rounds (fun s => let '(val, s) := step s in
       if val <? 2 ^ 64 mod bound then mret (inl s) else mret (inr (val, s))) t; mret (val mod bound, Some t)) as E.
  { intros t. unfold scl_rand_prng_next_bounded. destruct (Z.eqb_spec bound 0); [lia|]. cbv zeta. by rewrite threshold_spec. }
  split; [|split; [|split]].
  - intros Hn Hr. by rewrite E, (bounded_loop s _ n).
  - intros Hr. rewrite E, bounded_starves; [done|]. intros m Hlt. apply Hm. lia.
  - set (t := 2 ^ 64 mod bound) in *. exists (2 ^ 64 / bound). pose proof (Z.div_mod (2 ^ 64) bound ltac:(lia)) as Ed. fold t in Ed.
    pose proof (Z.mod_pos_bound (2 ^ 64) bound ltac:(lia)) as Ht. fold t in Ht.
    split; [apply Z.div_str_pos; lia|]. intros r Hr v Hv. split.
    + intros <-. exists ((v - t) / bound). pose proof (Z.div_mod (v - t) bound ltac:(lia)) as Ev.
      split.
      * split; [apply Z.div_pos; lia|]. apply Z.div_lt_upper_bound; lia.
      * rewrite Zminus_mod_idemp_l. lia.
    + intros (k & Hk & ->). replace (t + k * bound + (r - t) mod bound) with ((r - t) mod bound + t + k * bound) by lia.
      rewrite Z.mod_add, Zplus_mod_idemp_l by lia. replace (r - t + t) with r by lia. by apply Z.mod_small.
  - intros Ht. pose proof (Z.mod_pos_bound (2 ^ 64) bound ltac:(lia)). rewrite E, bounded_starves; [done|].
    intros m _. rewrite zero_draws. lia.
Qed.

Lemma bounded_draw_waits_witness :
  scl_rand_prng_next_bounded 1 (Some (Rng 1 2 3 4)) 10 = Ok (draw (Rng 1 2 3 4) 0 mod 10, Some (after 1 (Rng 1 2 3 4))) /\
  scl_rand_prng_next_bounded 1 (Some (Rng 0 0 0 0)) 10 = Fuel.
Proof.
  destruct (bounded_draw_waits (Rng 1 2 3 4) 10 0 1) as (H1 & _ & _ & H4); [lia|lia|].
  split; [apply H1; [vm_compute; discriminate|lia]|apply H4; vm_compute; discriminate].
Defined.

(** ** Filling buffers *)
Definition stream (s : scl_rand_prng_t) (n : nat) : list Z := mjoin ((fun m => le_bytes (draw s m)) <$> seq 0 n).

Lemma stream_S s n : stream s (S n) = stream s n ++ le_bytes (draw s n).
Proof. unfold stream. rewrite seq_S, fmap_app, join_app. f_equal. Qed.

Lemma stream_len s n : zlen (stream s n) = 8 * Z.of_nat n.
Proof.
  induction n as [|n IH]; [done|]. rewrite stream_S, zlen_app, IH. change (zlen (le_bytes _)) with 8. lia.
Qed.

Lemma wp_copy_bytes p i v n (Q : list Z -> Prop) : 0 <= i -> 0 <= n <= 8 -> i + n <= zlen p ->
  (forall p', zlen p' = zlen p ->
     (forall j, zlook p' j = if (i <=? j) && (j <? i + n) then zlook (le_bytes v) (j - i) else zlook p j) -> Q p') ->
  wp (copy_bytes p i v n) Q.
Proof.
  intros Hi Hn Hp HQ. unfold copy_bytes. assert (zlen (le_bytes v) = 8) as Hl by done.
  apply (wp_zfor (fun k p' => zlen p' = zlen p /\
    forall j, zlook p' j = if (i <=? j) && (j <? i + k) then zlook (le_bytes v) (j - i) else zlook p j)).
  - split; [done|]. intros j. by destruct (Z.leb_spec i j), (Z.ltb_spec j (i + 0)); [lia|..].
  - intros k p' Hk [El Ep]. wstep. wstep. apply wp_set; [lia|]. split; [by rewrite zlen_zupd|].
    intros j. rewrite zlook_zupd, Ep. case_decide as Hd.
    + destruct Hd as [<- _]. destruct (Z.leb_spec i (i + k)), (Z.ltb_spec (i + k) (i + (k + 1))); try lia. simpl.
      by replace (i + k - i) with k by lia.
    + destruct (Z.leb_spec i j), (Z.ltb_spec j (i + k)), (Z.ltb_spec j (i + (k + 1))); try done; lia.
  - intros p' [El Ep]. rewrite Z.max_r in Ep by lia. by apply HQ.
Qed.

(** [fill] writes exactly the first [len] bytes of the buffer: the bytes,
    least significant first, of as many successive draws as are needed, the
    last one cut short, and leaves the generator after these draws. *)
Theorem prng_fill_spec (s : scl_rand_prng_t) (p : list Z) (len : Z) (Hlen : 0 <= len <= zlen p) (Hp : zlen p < 2 ^ 63) :
  scl_rand_prng_fill (Some s) (Some p) len =
    Ok (Some (take (Z.to_nat len) (stream s (Z.to_nat ((len + 7) / 8))) ++ drop (Z.to_nat len) p),
        Some (after (Z.to_nat ((len + 7) / 8)) s)).
Proof.
  set (k := Z.to_nat ((len + 7) / 8)).
  enough (wp (scl_rand_prng_fill (Some s) (Some p) len)
    (eq (Some (take (Z.to_nat len) (stream s k) ++ drop (Z.to_nat len) p), Some (after k s)))) as (? & -> & <-)%wp_ok by done.
  unfold scl_rand_prng_fill. wstep.
  apply (wp_loop_rel (fun m '(p', i, t) => exists n : nat, i = 8 * Z.of_nat n /\ i <= len /\ t = after n s /\ m = (len - i) / 8 /\
    zlen p' = zlen p /\ forall j, zlook p' j = if (0 <=? j) && (j <? i) then zlook (stream s n) j else zlook p j) (len / 8)).
  - exists 0%nat. split_and!; try done; [lia|f_equal; lia|]. intros j. by destruct (Z.leb_spec 0 j), (Z.ltb_spec j 0); [lia|..].
  - assert (0 <= len / 8) by (apply Z.div_pos; lia). lia.
  - lia.
  - intros m [[p' i] t] (n & Ei & Hi & -> & -> & El & Ep). rewrite u64_small by lia.
    destruct (Z.leb_spec (i + 8) len).
    + destruct (step (after n s)) as [val t] eqn:E.
      assert (val = draw s n) as -> by (unfold draw; by rewrite E). assert (t = after (S n) s) as -> by (change (after (S n) s) with (snd (step (after n s))); by rewrite E).
      wstep. apply wp_copy_bytes; [lia|lia|lia|]. intros p2 El2 Ep2. wstep. exists ((len - (i + 8)) / 8). split; [zdiv|].
      exists (S n). split_and!; [lia|lia|done|done|lia|]. intros j. rewrite Ep2, Ep, stream_S, zlook_app, stream_len.
      destruct (Z.leb_spec 0 j), (Z.leb_spec i j), (Z.ltb_spec j (i + 8)), (Z.ltb_spec j i), (Z.ltb_spec j (8 * Z.of_nat n));
        simpl; try lia; try done. f_equal; lia.
    + wstep. assert (len - i < 8) by lia. destruct (Z.ltb_spec i len).
      * destruct (step (after n s)) as [val t] eqn:E.
        assert (val = draw s n) as -> by (unfold draw; by rewrite E). assert (t = after (S n) s) as -> by (change (after (S n) s) with (snd (step (after n s))); by rewrite E).
        wstep. apply wp_copy_bytes; [lia|lia|lia|]. intros p2 El2 Ep2. wstep. assert (k = S n) as -> by (unfold k; zdiv).
        do 2 f_equal. symmetry. apply zlook_ext. intros j.
        destruct (Z.lt_ge_cases j 0); [by rewrite !zlook_neg by lia|]. rewrite Ep2, Ep, zlook_app, zlen_take, zlook_take, zlook_drop, stream_len by lia.
        rewrite Z.min_l, stream_S, zlook_app, stream_len by lia.
        destruct (Z.leb_spec 0 j); [|lia].
        destruct (Z.leb_spec i j), (Z.ltb_spec j (i + (len - i))), (Z.ltb_spec j i), (Z.ltb_spec j len), (Z.leb_spec 0 (j - len)), (Z.ltb_spec j (8 * Z.of_nat n));
          simpl; try lia; try done; f_equal; lia.
      * wstep. assert (k = n) as -> by (unfold k; zdiv). do 2 f_equal. symmetry. apply zlook_ext. intros j.
        destruct (Z.lt_ge_cases j 0); [by rewrite !zlook_neg by lia|]. rewrite Ep, zlook_app, zlen_take, zlook_take, zlook_drop, stream_len by lia. rewrite Z.min_l by lia.
        destruct (Z.leb_spec 0 j); [|lia].
        destruct (Z.ltb_spec j i), (Z.ltb_spec j len), (Z.leb_spec 0 (j - len)); simpl; try lia; try done; f_equal; lia.
Qed.

Lemma prng_fill_spec_witness :
  scl_rand_prng_fill (Some (Rng 1 2 3 4)) (Some [9; 9; 9]) 2 =
    Ok (Some (take 2 (stream (Rng 1 2 3 4) 1) ++ [9]), Some (after 1 (Rng 1 2 3 4))).
Proof. apply (prng_fill_spec (Rng 1 2 3 4) [9; 9; 9] 2); vm_compute; [split; discriminate|reflexivity]. Defined.
