(* ===== verification/Bytes.v ===== *)
(** Memory by the byte: what the allocators of [libs/allocator/] do to the
    chunks they manage.  A chunk is a block of bytes at an address; pointers
    are stored in it in eight bytes, least significant first, at aligned
    addresses; [memset] and [memcpy] fill and copy its cells. *)

From S2P Require Import Prelude Core.
#[local] Open Scope Z_scope.

(** Reading a pointer at an address inside the chunk at [base]: undefined when it
    is not aligned or not written. *)
Definition load_ptr (base : Z) (b : block Z) (a : Z) : res Z :=
  if a mod 8 =? 0 then zfor 0 8 (fun k v => c ← get_cell b (a - base + k); mret (v + Z.shiftl c (8 * k))) 0 else UB.
Definition store_ptr (base : Z) (b : block Z) (a v : Z) : res (block Z) :=
  if a mod 8 =? 0 then zfor 0 8 (fun k b => set b (a - base + k) (Some (Z.shiftr v (8 * k) mod 256))) b else UB.

(** [memset] and [memcpy] on the cells of a chunk. *)
Definition fill_cells (b : block Z) (off n c : Z) : res (block Z) :=
  zfor 0 n (fun k b => set b (off + k) (Some c)) b.
Definition copy_cells (b : block Z) (dst src n : Z) : res (block Z) :=
  zfor 0 n (fun k b => c ← get b (src + k); set b (dst + k) c) b.

(** The cells from [off] on hold the bytes of [v]. *)
Definition word_at (b : block Z) (off v : Z) : Prop :=
  forall k, 0 <= k < 8 -> zlook b (off + k) = Some (Some (Z.shiftr v (8 * k) mod 256)).

Lemma wp_get_cell {A} (b : block A) i x (Q : A -> Prop) : zlook b i = Some (Some x) -> Q x -> wp (get_cell b i) Q.
Proof. intros E HQ. unfold get_cell, get. by rewrite E. Qed.

(** Writing cells one after the other. *)
Lemma wp_writes (b : block Z) off n (f : Z -> option Z) (body : Z -> block Z -> res (block Z)) (Q : block Z -> Prop) :
  0 <= off -> 0 <= n -> off + n <= zlen b ->
  (forall k b' (P : block Z -> Prop), 0 <= k < n -> zlen b' = zlen b ->
     (forall j, off <= j < off + k \/ zlook b' j = zlook b j) -> P (zupd b' (off + k) (f k)) -> wp (body k b') P) ->
  (forall b', zlen b' = zlen b ->
     (forall j, zlook b' j = if (off <=? j) && (j <? off + n) then Some (f (j - off)) else zlook b j) -> Q b') ->
  wp (zfor 0 n body b) Q.
Proof.
  intros Ho Hn Hb Hbody HQ.
  apply (wp_zfor (fun k b' => zlen b' = zlen b /\
    forall j, zlook b' j = if (off <=? j) && (j <? off + k) then Some (f (j - off)) else zlook b j)).
  - split; [done|]. intros j. by destruct (Z.leb_spec off j), (Z.ltb_spec j (off + 0)); [lia|..].
  - intros k b' Hk [El Eb]. apply Hbody; [done|done| |].
    + intros j. rewrite Eb. destruct (Z.leb_spec off j), (Z.ltb_spec j (off + k)); simpl; auto.
    + split; [by rewrite zlen_zupd|]. intros j. rewrite zlook_zupd, Eb. case_decide as Hd.
      * destruct Hd as [<- _]. destruct (Z.leb_spec off (off + k)), (Z.ltb_spec (off + k) (off + (k + 1))); try lia. simpl.
        do 2 f_equal. lia.
      * destruct (Z.leb_spec off j), (Z.ltb_spec j (off + k)), (Z.ltb_spec j (off + (k + 1))); try done; lia.
  - intros b' [El Eb]. rewrite Z.max_r in Eb by lia. by apply HQ.
Qed.

Lemma wp_store_ptr base b a v (Q : block Z -> Prop) :
  a mod 8 = 0 -> base <= a -> a - base + 8 <= zlen b ->
  (forall b', zlen b' = zlen b -> word_at b' (a - base) v ->
     (forall j, j < a - base \/ a - base + 8 <= j -> zlook b' j = zlook b j) -> Q b') ->
  wp (store_ptr base b a v) Q.
Proof.
  intros Ha Hb Hl HQ. unfold store_ptr. rewrite Ha. simpl.
  apply (wp_writes b (a - base) 8 (fun k => Some (Z.shiftr v (8 * k) mod 256))); [lia|lia|lia| |].
  - intros k b' P Hk El _ HP. apply wp_set; [lia|done].
  - intros b' El Eb. apply HQ; [done| |].
    + intros k Hk. rewrite Eb. destruct (Z.leb_spec (a - base) (a - base + k)), (Z.ltb_spec (a - base + k) (a - base + 8)); try lia.
      simpl. do 4 f_equal. lia.
    + intros j Hj. rewrite Eb. by destruct (Z.leb_spec (a - base) j), (Z.ltb_spec j (a - base + 8)); [lia|..].
Qed.

(** The bytes of a word add up to it. *)
Lemma wp_load_ptr base b a v (Q : Z -> Prop) :
  a mod 8 = 0 -> is_u64 v -> word_at b (a - base) v -> Q v -> wp (load_ptr base b a) Q.
Proof.
  intros Ha Hv Hw HQ. unfold load_ptr. rewrite Ha. simpl.
  apply (wp_zfor (fun k x => x = v mod 2 ^ (8 * k))).
  - by rewrite Z.mod_1_r.
  - intros k x Hk ->. wstep. eapply wp_get_cell; [apply Hw; lia|]. wstep.
    rewrite Z.shiftl_mul_pow2, Z.shiftr_div_pow2 by lia. replace (8 * (k + 1)) with (8 * k + 8) by lia.
    rewrite Z.pow_add_r, Z.rem_mul_r by lia. change (2 ^ 8) with 256. lia.
  - intros x ->. change (8 * Z.max 0 8) with 64. by rewrite Z.mod_small.
Qed.

Lemma wp_fill_cells b off n c (Q : block Z -> Prop) :
  0 <= off -> 0 <= n -> off + n <= zlen b ->
  (forall b', zlen b' = zlen b ->
     (forall j, zlook b' j = if (off <=? j) && (j <? off + n) then Some (Some c) else zlook b j) -> Q b') ->
  wp (fill_cells b off n c) Q.
Proof.
  intros Ho Hn Hl HQ. apply (wp_writes b off n (fun _ => Some c)); [done..| |done].
  intros k b' P Hk El _ HP. apply wp_set; [lia|done].
Qed.

Lemma wp_copy_cells b dst src n (Q : block Z -> Prop) :
  0 <= dst -> 0 <= src -> 0 <= n -> dst + n <= zlen b -> src + n <= zlen b -> dst + n <= src \/ src + n <= dst ->
  (forall b', zlen b' = zlen b ->
     (forall j, zlook b' j = if (dst <=? j) && (j <? dst + n) then zlook b (src + (j - dst)) else zlook b j) -> Q b') ->
  wp (copy_cells b dst src n) Q.
Proof.
  intros Hd Hs Hn Hld Hls Hdis HQ.
  apply (wp_writes b dst n (fun k => default None (zlook b (src + k)))); [done..| |].
  - intros k b' P Hk El Eb HP. destruct (zlook_lt b (src + k)) as [c Ec]; [lia|]. rewrite Ec in HP.
    wstep. apply wp_get; [lia|]. intros c' Ec'. destruct (Eb (src + k)) as [|E]; [lia|]. rewrite E, Ec in Ec'. injection Ec' as <-.
    apply wp_set; [lia|done].
  - intros b' El Eb. apply HQ; [done|]. intros j. rewrite Eb.
    destruct (Z.leb_spec dst j), (Z.ltb_spec j (dst + n)); simpl; try done.
    destruct (zlook_lt b (src + (j - dst))) as [c ->]; [lia|done].
Qed.

(** A word survives writes elsewhere. *)
Lemma word_at_frame b b' off v : (forall j, off <= j < off + 8 -> zlook b' j = zlook b j) -> word_at b off v -> word_at b' off v.
Proof. intros E Hw k Hk. rewrite E by lia. by apply Hw. Qed.

(** ** Bits of a byte *)
Lemma clear_bit c k j : 0 <= k -> 0 <= j -> Z.testbit (Z.land c (Z.lnot (Z.shiftl 1 k))) j = (if k =? j then false else Z.testbit c j).
Proof.
  intros Hk Hj. rewrite Z.land_spec, Z.lnot_spec, Z.shiftl_1_l, Z.pow2_bits_eqb by lia.
  destruct (k =? j); simpl; [apply andb_false_r|apply andb_true_r].
Qed.

Lemma set_bit c k j : 0 <= k -> 0 <= j -> Z.testbit (Z.lor c (Z.shiftl 1 k)) j = (if k =? j then true else Z.testbit c j).
Proof.
  intros Hk Hj. rewrite Z.lor_spec, Z.shiftl_1_l, Z.pow2_bits_eqb by lia.
  destruct (k =? j); [apply orb_true_r|apply orb_false_r].
Qed.

Lemma test_bit c k : 0 <= k -> (Z.land c (Z.shiftl 1 k) =? 0) = negb (Z.testbit c k).
Proof.
  intros Hk. rewrite Z.shiftl_1_l. destruct (Z.testbit c k) eqn:E; simpl.
  - apply Z.eqb_neq. intros E0. apply (f_equal (fun x => Z.testbit x k)) in E0.
    by rewrite Z.land_spec, Z.pow2_bits_true, E, Z.bits_0 in E0.
  - apply Z.eqb_eq. apply Z.bits_inj'. intros j Hj. rewrite Z.land_spec, Z.pow2_bits_eqb, Z.bits_0 by lia.
    destruct (Z.eqb_spec k j) as [<-|]; [by rewrite E|apply andb_false_r].
Qed.

Lemma u8_bit x k : 0 <= k < 8 -> Z.testbit (u8 x) k = Z.testbit x k.
Proof. intros Hk. unfold u8. by rewrite Z.mod_pow2_bits_low by lia. Qed.
