(* ===== verification/Pool.v ===== *)
(** The pool allocator of [libs/allocator/pool/scl_alloc_pool.c]: blocks of one
    size in a chunk, with the list of the free ones threaded through their
    first words and a bitmap that detects double frees.  Addresses are
    numbers, 0 is [NULL], and the chunk is modelled byte by byte, what the
    holders of blocks write into them included. *)

From stdpp Require Import gmap.
From S2P Require Import Prelude Core Refine Bytes.
#[local] Open Scope Z_scope.

(** [p_chunk] is the address of the chunk and [p_memory] its bytes. *)
Record pool_state_t : Type := Pool {
  p_chunk : Z;
  p_memory : block Z;
  p_free_list : Z;
  p_free_bitmap : block Z;
  p_block_size : Z;
  p_total_blocks : Z;
  p_free_count : Z
}.

Definition with_pool (s : pool_state_t) (memory : block Z) (free_list : Z) (bitmap : block Z) (count : Z) : pool_state_t :=
  Pool (p_chunk s) memory free_list bitmap (p_block_size s) (p_total_blocks s) count.

Definition pool_malloc_fn (state : option pool_state_t) (size alignment : Z) : res (Z * option pool_state_t) :=
  match state with
  | None => mret (0, None)
  | Some p =>
      if (size =? 0) || (size >? p_block_size p) then mret (0, Some p)
      else if p_free_list p =? 0 then mret (0, Some p)
      else
        let block := p_free_list p in
        next ← load_ptr (p_chunk p) (p_memory p) block;
        let idx := (block - p_chunk p) / p_block_size p in
        c ← get_cell (p_free_bitmap p) (idx / 8);
        bitmap ← set (p_free_bitmap p) (idx / 8) (Some (Z.land c (Z.lnot (Z.shiftl 1 (idx mod 8)))));
        mret (block, Some (with_pool p (p_memory p) next bitmap (u64 (p_free_count p - 1))))
  end.

Definition pool_free_fn (state : option pool_state_t) (ptr : Z) : res (option pool_state_t) :=
  match state with
  | None => mret None
  | Some p =>
      let start := p_chunk p in
      let end_ := start + p_block_size p * p_total_blocks p in
      if ptr =? 0 then mret (Some p)
      else if (ptr <? start) || (ptr >=? end_) then mret (Some p)
      else
        let offset := ptr - start in
        if negb (offset mod p_block_size p =? 0) then mret (Some p)
        else
          let idx := offset / p_block_size p in
          let mask := Z.shiftl 1 (idx mod 8) in
          c ← get_cell (p_free_bitmap p) (idx / 8);
          if negb (Z.land c mask =? 0) then mret (Some p)
          else
            bitmap ← set (p_free_bitmap p) (idx / 8) (Some (Z.lor c mask));
            if p_free_count p >=? p_total_blocks p
            then mret (Some (with_pool p (p_memory p) (p_free_list p) bitmap (p_free_count p)))
            else
              memory ← store_ptr start (p_memory p) ptr (p_free_list p);
              mret (Some (with_pool p memory ptr bitmap (u64 (p_free_count p + 1))))
  end.

Definition with_memory (p : pool_state_t) (memory : block Z) : pool_state_t :=
  with_pool p memory (p_free_list p) (p_free_bitmap p) (p_free_count p).

Definition pool_calloc_fn (state : option pool_state_t) (count size alignment : Z) : res (Z * option pool_state_t) :=
  match scl_mul_overflow count size with
  | None => mret (0, state)
  | Some total =>
      '(ptr, state) ← pool_malloc_fn state total alignment;
      match state with
      | Some p =>
          if ptr =? 0 then mret (ptr, Some p)
          else
            memory ← fill_cells (p_memory p) (ptr - p_chunk p) total 0;
            mret (ptr, Some (with_memory p memory))
      | None => mret (ptr, None)
      end
  end.

Definition pool_realloc_fn (state : option pool_state_t) (ptr old_size new_size alignment : Z)
    : res (Z * option pool_state_t) :=
  if ptr =? 0 then pool_malloc_fn state new_size alignment
  else if new_size =? 0 then state ← pool_free_fn state ptr; mret (0, state)
  else
    '(new_ptr, state) ← pool_malloc_fn state new_size alignment;
    match state with
    | Some p =>
        if new_ptr =? 0 then mret (new_ptr, Some p)
        else
          let copy := if old_size <? new_size then old_size else new_size in
          memory ← copy_cells (p_memory p) (new_ptr - p_chunk p) (ptr - p_chunk p) copy;
          state ← pool_free_fn (Some (with_memory p memory)) ptr;
          mret (new_ptr, state)
    | None => mret (new_ptr, None)
    end.

(** [chunk] is the address the backing allocator gives to the chunk. *)
Definition scl_alloc_pool_create (backing : option scl_allocator_t) (w : world) (chunk block_size block_count alignment : Z)
    : res (option pool_state_t * world) :=
  match backing with
  | None => mret (None, w)
  | Some b =>
      if (block_size =? 0) || (block_count =? 0) then mret (None, w)
      else
        let alignment := if alignment =? 0 then MAX_ALIGN else alignment in
        if negb (scl_is_pow2_sz alignment) then mret (None, w)
        else
          let block_size := scl_align_forward block_size alignment in
          let block_size := if block_size <? 8 then 8 else block_size in
          let '(state, w) := scl_alloc (A := Z) b w 56 MAX_ALIGN 1 in
          match state with
          | None => mret (None, w)
          | Some _ =>
              match scl_mul_overflow block_size block_count with
              | None => mret (None, scl_free w state)
              | Some total =>
                  let '(mem, w) := scl_alloc b w total alignment 1 in
                  match mem with
                  | None => mret (None, scl_free w state)
                  | Some memory =>
                      '(memory, prev) ← zfor 0 block_count
                        (fun i '(memory, prev) =>
                           let block := chunk + i * block_size in
                           memory ← store_ptr chunk memory block prev;
                           mret (memory, block)) (memory, 0);
                      let bitmap_bytes := u64 (block_count + 7) / 8 in
                      let '(bitmap, w) := scl_alloc (A := Z) b w bitmap_bytes MAX_ALIGN 1 in
                      match bitmap with
                      | None => mret (None, scl_free (scl_free w mem) state)
                      | Some bitmap =>
                          bitmap ← fill_cells bitmap 0 bitmap_bytes 255;
                          let '(alloc, w) := scl_alloc (A := Z) b w 40 MAX_ALIGN 1 in
                          match alloc with
                          | None => mret (None, scl_free (scl_free w mem) state)
                          | Some _ => mret (Some (Pool chunk memory prev bitmap block_size block_count block_count), w)
                          end
                      end
                  end
              end
          end
  end.

(** The bitmap and the chunk are never [NULL]; the state and the interface
    are freed with them. *)
Definition scl_alloc_pool_destroy (w : world) (alloc : option pool_state_t) : world :=
  match alloc with
  | None => w
  | Some p => scl_free (scl_free (scl_free (scl_free w (Some (p_free_bitmap p))) (Some (p_memory p))) (Some [None : option Z])) (Some [None : option Z])
  end.

(** ** The invariant *)
Section Pool.
Context (base bs n : Z).
Hypothesis base_aligned : base mod 8 = 0.
Hypothesis bs_aligned : bs mod 8 = 0.
Hypothesis base_pos : 0 < base.
Hypothesis bs_pos : 8 <= bs.
Hypothesis n_pos : 1 <= n.
Hypothesis chunk_fits : base + bs * n <= 2 ^ 64.

Definition addr (i : Z) : Z := base + i * bs.
Definition contents (memory : block Z) (i : Z) : block Z := slice memory (i * bs) (i * bs + bs).

(** The free list: the indices of the free blocks, from its head. *)
Fixpoint chain (memory : block Z) (fl : list Z) (p : Z) : Prop :=
  match fl with
  | [] => p = 0
  | i :: fl => p = addr i /\ exists next, is_u64 next /\ word_at memory (i * bs) next /\ chain memory fl next
  end.

Record pool_ok (s : pool_state_t) (fl : list Z) (held : gmap Z (block Z)) : Prop := {
  po_chunk : p_chunk s = base;
  po_size : p_block_size s = bs;
  po_total : p_total_blocks s = n;
  po_memory : zlen (p_memory s) = bs * n;
  po_nodup : NoDup fl;
  po_range : forall i, i ∈ fl -> 0 <= i < n;
  po_chain : chain (p_memory s) fl (p_free_list s);
  po_bitmap : zlen (p_free_bitmap s) = (n + 7) / 8 /\ forall i, 0 <= i < n ->
    exists c, zlook (p_free_bitmap s) (i / 8) = Some (Some c) /\ Z.testbit c (i mod 8) = bool_decide (i ∈ fl);
  po_count : p_free_count s = zlen fl;
  po_held : forall a c, held !! a = Some c <-> exists i, 0 <= i < n /\ i ∉ fl /\ a = addr i /\ c = contents (p_memory s) i;
  po_split : Z.of_nat (size held) + zlen fl = n
}.

Lemma addr_inj i j : addr i = addr j -> i = j.
Proof. unfold addr. nia. Qed.

Lemma addr_pos i : 0 <= i -> 0 < addr i.
Proof. unfold addr. nia. Qed.

Lemma addr_aligned i : addr i mod 8 = 0.
Proof. unfold addr. rewrite Zplus_mod, Zmult_mod, base_aligned, bs_aligned, Z.mul_0_r. done. Qed.

(** Cells of different blocks are different. *)
Lemma block_apart i j : i <> j -> i * bs + bs <= j * bs \/ j * bs + bs <= i * bs.
Proof. intros H. destruct (Z.lt_ge_cases i j); [left|right]; nia. Qed.

Lemma block_fits i : 0 <= i < n -> 0 <= i * bs /\ i * bs + bs <= bs * n.
Proof. intros H. nia. Qed.

Lemma chain_frame b b' fl p : (forall i j, i ∈ fl -> i * bs <= j < i * bs + bs -> zlook b' j = zlook b j) ->
  chain b fl p -> chain b' fl p.
Proof.
  revert p. induction fl as [|i fl IH]; intros p E; [done|]. intros (-> & next & Hu & Hw & Hc). split; [done|].
  exists next. split; [done|]. split.
  - eapply word_at_frame; [|exact Hw]. intros j Hj. apply (E i); [left|lia].
  - apply IH; [|done]. intros j k Hj. apply E. by right.
Qed.

Lemma chain_null b fl p : (forall i, i ∈ fl -> 0 <= i) -> chain b fl p -> p = 0 <-> fl = [].
Proof.
  destruct fl as [|i fl]; [done|]. intros Hr (-> & _). specialize (Hr i ltac:(left)). pose proof (addr_pos i Hr). split; [lia|done].
Qed.

Lemma contents_frame b b' i j : zlen b' = zlen b ->
  (forall k, (k < i * bs \/ i * bs + bs <= k) -> zlook b' k = zlook b k) -> i <> j -> 0 <= j -> contents b' j = contents b j.
Proof.
  intros El E Hij Hj. apply zlook_ext. intros k. unfold contents. rewrite !zlook_slice by nia.
  destruct ((0 <=? k) && _) eqn:Hk; [|done]. apply E. pose proof (block_apart i j Hij). lia.
Qed.

Lemma contents_len b i : 0 <= i < n -> zlen b = bs * n -> zlen (contents b i) = bs.
Proof. intros Hi Hb. unfold contents. pose proof (block_fits i Hi). rewrite zlen_slice by lia. lia. Qed.

(** ** The bitmap *)
Definition bits_of (bm : block Z) (fl : list Z) : Prop :=
  zlen bm = (n + 7) / 8 /\ forall i, 0 <= i < n ->
    exists c, zlook bm (i / 8) = Some (Some c) /\ Z.testbit c (i mod 8) = bool_decide (i ∈ fl).

Lemma bits_update bm fl fl' i c c' :
  bits_of bm fl -> 0 <= i < n -> zlook bm (i / 8) = Some (Some c) ->
  (forall j, 0 <= j -> Z.testbit c' j = if i mod 8 =? j then bool_decide (i ∈ fl') else Z.testbit c j) ->
  (forall j, j <> i -> j ∈ fl' <-> j ∈ fl) -> bits_of (zupd bm (i / 8) (Some c')) fl'.
Proof.
  intros [El Hb] Hi Hc Ht Hf. split; [by rewrite zlen_zupd|]. intros j Hj. destruct (Hb j Hj) as (d & Ed & Hd).
  pose proof (zlook_Some _ _ _ Hc). rewrite zlook_zupd. destruct (decide (i / 8 = j / 8 /\ 0 <= i / 8 < zlen bm)) as [Hij|Hij].
  - destruct Hij as [Hij _]. exists c'. split; [done|]. rewrite Ht by zdiv. destruct (Z.eqb_spec (i mod 8) (j mod 8)).
    + assert (j = i) as -> by zdiv. done.
    + rewrite <- Hij, Hc in Ed. injection Ed as <-. rewrite Hd. apply bool_decide_ext. rewrite Hf; [done|congruence].
  - exists d. split; [done|]. rewrite Hd. apply bool_decide_ext. rewrite Hf; [done|]. intros ->. apply Hij. split; [done|lia].
Qed.

(** ** Steps *)
Lemma pool_take s i fl held next bm :
  pool_ok s (i :: fl) held -> bits_of bm fl -> chain (p_memory s) fl next ->
  pool_ok (with_pool s (p_memory s) next bm (u64 (p_free_count s - 1))) fl (<[addr i := contents (p_memory s) i]> held) /\
  held !! addr i = None /\ 0 <= i < n.
Proof.
  intros [H1 H2 H3 H4 Hnd Hr Hc Hb Hcnt Hheld Hsp] Hbm Hch.
  apply NoDup_cons in Hnd as [Hni Hnd]. pose proof (Hr i ltac:(left)) as Hi.
  assert (held !! addr i = None) as Hn.
  { destruct (held !! addr i) as [c|] eqn:E; [|done]. apply Hheld in E as (j & _ & Hj & Ej & _). apply addr_inj in Ej as <-.
    exfalso. apply Hj. left. }
  split; [|done]. pose proof (zlen_nonneg fl). rewrite zlen_cons in *.
  assert (n < 2 ^ 64) as Hn64 by nia.
  split; simpl; try done.
  - intros j Hj. apply Hr. by right.
  - rewrite Hcnt, u64_small by lia. lia.
  - intros a c. rewrite lookup_insert. case_decide as Ha.
    + subst a. split.
      * intros [= <-]. by exists i.
      * intros (j & _ & _ & Ej & ->). by apply addr_inj in Ej as <-.
    + rewrite Hheld. split; intros (j & Hj & Hjf & -> & ->); exists j; split_and!; try done; set_solver.
  - rewrite map_size_insert_None by done. lia.
Qed.

Lemma wp_pool_malloc s fl held size al (Q : Z * option pool_state_t -> Prop) :
  0 <= size -> pool_ok s fl held ->
  (size = 0 \/ bs < size \/ fl = [] -> Q (0, Some s)) ->
  (forall i fl' s', fl = i :: fl' -> 0 < size <= bs -> 0 <= i < n -> held !! addr i = None -> p_memory s' = p_memory s ->
     pool_ok s' fl' (<[addr i := contents (p_memory s) i]> held) -> Q (addr i, Some s')) ->
  wp (pool_malloc_fn (Some s) size al) Q.
Proof.
  intros Hs H HQ1 HQ2. pose proof H as [H1 H2 H3 H4 Hnd Hr Hc Hb Hcnt Hheld Hsp].
  unfold pool_malloc_fn. rewrite H2, Z.gtb_ltb.
  destruct (Z.eqb_spec size 0), (Z.ltb_spec bs size); cbn [orb]; try (wstep; auto; fail).
  assert (forall i, i ∈ fl -> 0 <= i) as Hr0 by (intros i Hi; apply Hr in Hi; lia).
  destruct (Z.eqb_spec (p_free_list s) 0) as [E|E].
  { wstep. apply HQ1. right. right. by apply (chain_null (p_memory s) fl (p_free_list s)). }
  destruct fl as [|i fl]; [by simpl in Hc|].
  destruct Hc as (Ep & next & Hu & Hw & Hc). pose proof (Hr i ltac:(left)) as Hi. pose proof (block_fits i Hi).
  rewrite Ep, H1. wstep. apply (wp_load_ptr base _ _ next); [apply addr_aligned|done| |].
  { unfold addr. by replace (base + i * bs - base) with (i * bs) by lia. }
  cbv zeta. replace ((addr i - base) / bs) with i by (unfold addr; replace (base + i * bs - base) with (i * bs) by lia; by rewrite Z.div_mul by lia).
  destruct Hb as [Hbl Hb]. destruct (Hb i Hi) as (c & Ec & Hbit).
  wstep. apply (wp_get_cell _ _ c); [done|]. wstep.
  apply wp_set; [by eapply zlook_Some|]. wstep.
  pose proof (NoDup_cons_1_1 _ _ Hnd) as Hni.
  destruct (pool_take s i fl held next (zupd (p_free_bitmap s) (i / 8) (Some (Z.land c (Z.lnot (Z.shiftl 1 (i mod 8)))))) H) as (H' & Hn & _).
  - apply (bits_update _ (i :: fl) _ _ c); [by split|done|done| |set_solver].
    intros j Hj. rewrite clear_bit by zdiv. by rewrite (bool_decide_eq_false_2 _ Hni).
  - done.
  - apply (HQ2 i fl); [done|lia|done|done|done|exact H'].
Qed.

Lemma not_held s fl held a : pool_ok s fl held -> (forall i, 0 <= i < n -> i ∉ fl -> a <> addr i) -> held !! a = None.
Proof.
  intros H Ha. destruct (held !! a) as [c|] eqn:E; [|done]. apply (po_held _ _ _ H) in E as (i & Hi & Hif & -> & _).
  by destruct (Ha i Hi Hif).
Qed.

Lemma pool_put s i fl held memory bm :
  pool_ok s fl held -> 0 <= i < n -> i ∉ fl -> bits_of bm (i :: fl) ->
  zlen memory = zlen (p_memory s) -> word_at memory (i * bs) (p_free_list s) ->
  (forall j, j < i * bs \/ i * bs + 8 <= j -> zlook memory j = zlook (p_memory s) j) ->
  pool_ok (with_pool s memory (addr i) bm (u64 (p_free_count s + 1))) (i :: fl) (delete (addr i) held).
Proof.
  intros [H1 H2 H3 H4 Hnd Hr Hc Hb Hcnt Hheld Hsp] Hi Hif Hbm El Hw Efr.
  assert (held !! addr i = Some (contents (p_memory s) i)) as Hh by (apply Hheld; by exists i).
  pose proof (zlen_nonneg fl). assert (n < 2 ^ 64) as Hn64 by nia. assert (size held <> 0)%nat as Hsz.
  { intros E. apply map_size_empty_inv in E as ->. by rewrite lookup_empty in Hh. }
  split; simpl; try done.
  - by rewrite El.
  - by apply NoDup_cons.
  - intros j [->|Hj]%elem_of_cons; [done|by apply Hr].
  - split; [done|]. exists (p_free_list s). split; [|split; [done|]].
    + destruct fl as [|j fl]; [by simpl in Hc; rewrite Hc|]. destruct Hc as (-> & _). pose proof (Hr j ltac:(left)).
      unfold is_u64, addr. nia.
    + eapply chain_frame; [|exact Hc]. intros j k Hj Hk. apply Efr.
      assert (i <> j) as Hne by (intros ->; done). pose proof (block_apart i j Hne). lia.
  - rewrite Hcnt, zlen_cons, u64_small; lia.
  - intros a c. rewrite lookup_delete_Some, Hheld. split.
    + intros (Hne & j & Hj & Hjf & -> & ->). exists j. assert (i <> j) as Hij by (intros ->; done).
      split_and!; try done; [lia|lia|set_solver|]. symmetry. apply (contents_frame _ _ i); [done| |done|lia].
      intros k Hk. apply Efr. lia.
    + intros (j & Hj & [Hne Hjf]%not_elem_of_cons & -> & ->). split; [by intros ?%addr_inj|]. exists j.
      split_and!; try done; [lia|lia|]. apply (contents_frame _ _ i); [done| |done|lia]. intros k Hk. apply Efr. lia.
  - rewrite map_size_delete_Some by eauto. rewrite zlen_cons. lia.
Qed.

Lemma wp_pool_free s fl held a (Q : option pool_state_t -> Prop) :
  pool_ok s fl held -> (forall s' fl', pool_ok s' fl' (delete a held) -> Q (Some s')) -> wp (pool_free_fn (Some s) a) Q.
Proof.
  intros H HQ. pose proof H as [H1 H2 H3 H4 Hnd Hr Hc Hb Hcnt Hheld Hsp].
  assert ((forall i, 0 <= i < n -> i ∉ fl -> a <> addr i) -> Q (Some s)) as Hno.
  { intros Ha. apply (HQ s fl). rewrite delete_id; [done|]. by eapply not_held. }
  unfold pool_free_fn. rewrite H1, H2, H3. cbv zeta.
  destruct (Z.eqb_spec a 0) as [->|Ha0].
  { wstep. apply Hno. intros i Hi _. pose proof (addr_pos i). lia. }
  rewrite Z.geb_leb. destruct (Z.ltb_spec a base), (Z.leb_spec (base + bs * n) a); cbn [orb];
    try (wstep; apply Hno; intros i Hi _; unfold addr; nia).
  destruct (Z.eqb_spec ((a - base) mod bs) 0) as [Em|Em]; cbn [negb].
  2:{ wstep. apply Hno. intros i Hi _ ->. apply Em. unfold addr. replace (base + i * bs - base) with (i * bs) by lia. apply Z_mod_mult. }
  set (i := (a - base) / bs). assert (a = addr i) as Ea.
  { unfold addr, i. pose proof (Z.div_mod (a - base) bs ltac:(lia)). lia. }
  assert (0 <= i < n) as Hi by (unfold addr in Ea; nia). pose proof (block_fits i Hi).
  destruct Hb as [Hbl Hb]. destruct (Hb i Hi) as (c & Ec & Hbit). wstep. apply (wp_get_cell _ _ c); [done|].
  rewrite test_bit, Hbit, negb_involutive by zdiv. case_bool_decide as Hif.
  { wstep. apply Hno. intros j Hj Hjf Ej. rewrite Ea in Ej. apply addr_inj in Ej as <-. done. }
  wstep. apply wp_set; [by eapply zlook_Some|]. rewrite Hcnt, Z.geb_leb.
  assert (held !! a = Some (contents (p_memory s) i)) as Hh by (apply Hheld; by exists i).
  assert (size held <> 0)%nat as Hsz by (intros E; apply map_size_empty_inv in E as ->; by rewrite lookup_empty in Hh).
  destruct (Z.leb_spec n (zlen fl)); [lia|]. wstep.
  assert (a - base = i * bs) as Eo by (rewrite Ea; unfold addr; lia).
  apply wp_store_ptr; [rewrite Ea; apply addr_aligned|lia|lia|]. rewrite Eo. intros memory El Hw Efr. wstep.
  rewrite <- Hcnt. eapply HQ. rewrite Ea. apply (pool_put s i fl held); try done.
  apply (bits_update _ fl _ _ c); [by split|done|done| |set_solver].
  intros j Hj. rewrite set_bit by zdiv. rewrite bool_decide_eq_true_2; [done|left].
Qed.

(** Writing inside a held block. *)
Lemma pool_write s fl held i memory :
  pool_ok s fl held -> 0 <= i < n -> i ∉ fl -> zlen memory = zlen (p_memory s) ->
  (forall j, j < i * bs \/ i * bs + bs <= j -> zlook memory j = zlook (p_memory s) j) ->
  pool_ok (with_memory s memory) fl (<[addr i := contents memory i]> held).
Proof.
  intros [H1 H2 H3 H4 Hnd Hr Hc Hb Hcnt Hheld Hsp] Hi Hif El Efr.
  assert (held !! addr i = Some (contents (p_memory s) i)) as Hh by (apply Hheld; by exists i).
  split; simpl; try done.
  - by rewrite El.
  - eapply chain_frame; [|exact Hc]. intros j k Hj Hk. apply Efr.
    assert (i <> j) as Hne by (intros ->; done). pose proof (block_apart i j Hne). lia.
  - intros a c. rewrite lookup_insert. case_decide as Ha.
    + subst a. split; [intros [= <-]; by exists i|]. intros (j & _ & _ & Ej & ->). by apply addr_inj in Ej as <-.
    + rewrite Hheld. split; intros (j & Hj & Hjf & -> & ->); exists j; split_and!; try done; try lia;
        [symmetry|]; (apply (contents_frame _ _ i); [done|exact Efr|intros ->; done|lia]).
  - rewrite map_size_insert_Some; [done|]. eauto.
Qed.
End Pool.

(** ** The operations, and what their users do with the blocks *)
Inductive pool_op : Type :=
| PMalloc (size alignment : Z)
| PCalloc (count size alignment : Z)
| PRealloc (ptr old_size new_size alignment : Z)
| PFree (ptr : Z)
| PWrite (ptr off v : Z)
| PRead (ptr off : Z).

Inductive pool_reply : Type :=
| Pointer (p : Z)
| Done
| Cell (c : option Z).

Definition pool_step (st : option pool_state_t) (op : pool_op) : res (pool_reply * option pool_state_t) :=
  match op with
  | PMalloc size al => '(p, st) ← pool_malloc_fn st size al; mret (Pointer p, st)
  | PCalloc count size al => '(p, st) ← pool_calloc_fn st count size al; mret (Pointer p, st)
  | PRealloc p old new al => '(q, st) ← pool_realloc_fn st p old new al; mret (Pointer q, st)
  | PFree p => st ← pool_free_fn st p; mret (Done, st)
  | PWrite p off v =>
      match st with
      | Some s => memory ← set (p_memory s) (p - p_chunk s + off) (Some v); mret (Done, Some (with_memory s memory))
      | None => UB
      end
  | PRead p off =>
      match st with
      | Some s => c ← get (p_memory s) (p - p_chunk s + off); mret (Cell c, st)
      | None => UB
      end
  end.

(** ** What a pool promises

    The abstract state maps the address of every block held to its contents. *)
Section Spec.
Context (base bs n align : Z).
Notation pool_map := (gmap Z (block Z)).
Implicit Types (held : pool_map) (c : block Z).

Definition fits held (size : Z) : Prop := 0 < size <= bs /\ Z.of_nat (base.size held) < n.

(** A block inside the chunk, aligned, and apart from every block held. *)
Definition fresh held (p : Z) : Prop :=
  p <> 0 /\ (align | p) /\ base <= p /\ p + bs <= base + bs * n /\
  forall q c, held !! q = Some c -> p + bs <= q \/ q + bs <= p.

Inductive alloc_spec held (size : Z) (init : block Z -> Prop) : Z -> pool_map -> Prop :=
| as_granted p c : fits held size -> fresh held p -> zlen c = bs -> init c -> alloc_spec held size init p (<[p := c]> held)
| as_refused : ~ fits held size -> alloc_spec held size init 0 held.

Inductive pool_spec : pool_map -> pool_op -> pool_reply -> pool_map -> Prop :=
| ps_malloc held size al p held' :
    alloc_spec held size (fun _ => True) p held' -> pool_spec held (PMalloc size al) (Pointer p) held'
| ps_calloc held count size al p held' :
    alloc_spec held (count * size) (fun c => forall k, 0 <= k < count * size -> zlook c k = Some (Some 0)) p held' ->
    pool_spec held (PCalloc count size al) (Pointer p) held'
| ps_realloc_null held old new al p held' :
    alloc_spec held new (fun _ => True) p held' -> pool_spec held (PRealloc 0 old new al) (Pointer p) held'
| ps_realloc_zero held p c old al : p <> 0 -> held !! p = Some c ->
    pool_spec held (PRealloc p old 0 al) (Pointer 0) (delete p held)
| ps_realloc_moved held p c old new al q c' : p <> 0 -> held !! p = Some c ->
    fits held new -> fresh held q -> zlen c' = bs ->
    (forall k, 0 <= k < Z.min old new -> zlook c' k = zlook c k) ->
    pool_spec held (PRealloc p old new al) (Pointer q) (delete p (<[q := c']> held))
| ps_realloc_refused held p c old new al : p <> 0 -> new <> 0 -> held !! p = Some c -> ~ fits held new ->
    pool_spec held (PRealloc p old new al) (Pointer 0) held
| ps_free held p : pool_spec held (PFree p) Done (delete p held)
| ps_write held p c off v : held !! p = Some c -> pool_spec held (PWrite p off v) Done (<[p := zupd c off (Some v)]> held)
| ps_read held p c off x : held !! p = Some c -> zlook c off = Some x -> pool_spec held (PRead p off) (Cell x) held.

(** Sizes are [size_t]s; only held blocks are used or reallocated.  Any pointer
    may be freed. *)
Definition pool_allowed held (op : pool_op) : Prop :=
  match op with
  | PMalloc size _ => is_u64 size
  | PCalloc count size _ => is_u64 count /\ is_u64 size
  | PRealloc p old new _ => is_u64 old /\ is_u64 new /\ (p = 0 \/ is_Some (held !! p))
  | PFree _ => True
  | PWrite p off _ | PRead p off => is_Some (held !! p) /\ 0 <= off < bs
  end.
End Spec.

Section Refines.
Context (base bs n align : Z).
Hypothesis align_8 : (8 | align).
Hypothesis base_align : (align | base).
Hypothesis bs_align : (align | bs).
Hypothesis base_pos : 0 < base.
Hypothesis bs_pos : 8 <= bs.
Hypothesis n_pos : 1 <= n.
Hypothesis chunk_fits : base + bs * n <= 2 ^ 64.

Definition pool_rep (st : option pool_state_t) (held : gmap Z (block Z)) : Prop :=
  exists s fl, st = Some s /\ pool_ok base bs n s fl held.

Lemma base_8 : base mod 8 = 0.
Proof. apply Z.mod_divide; [lia|]. by eapply Z.divide_trans. Qed.
Lemma bs_8 : bs mod 8 = 0.
Proof. apply Z.mod_divide; [lia|]. by eapply Z.divide_trans. Qed.

Lemma addr_fresh s fl held i : pool_ok base bs n s fl held -> 0 <= i < n -> held !! addr base bs i = None ->
  fresh base bs n align held (addr base bs i).
Proof.
  intros H Hi Hn. pose proof (addr_pos base bs base_pos bs_pos i ltac:(lia)). split; [lia|]. split.
  { unfold addr. apply Z.divide_add_r; [done|]. by apply Z.divide_mul_r. }
  split; [unfold addr; nia|]. split; [unfold addr; nia|].
  intros q c Hq. pose proof Hq as Hq'. apply (po_held _ _ _ _ _ _ H) in Hq' as (j & Hj & _ & -> & _).
  assert (i <> j) as Hne by (intros ->; congruence). pose proof (block_apart bs bs_pos i j Hne). unfold addr. lia.
Qed.

(** Granted exactly when something of the size fits. *)
Lemma fits_iff s fl held size : pool_ok base bs n s fl held -> fits bs n held size <-> 0 < size <= bs /\ fl <> [].
Proof.
  intros H. pose proof (po_split _ _ _ _ _ _ H) as Hs. unfold fits. destruct fl as [|i fl].
  - rewrite zlen_nil in Hs. split; [lia|]. by intros [_ ?].
  - rewrite zlen_cons in Hs. pose proof (zlen_nonneg fl). split; intros [? _]; (split; [lia|]); [done|lia].
Qed.

Lemma wp_malloc s fl held size al (Q : Z * option pool_state_t -> Prop) :
  is_u64 size -> pool_ok base bs n s fl held ->
  (~ fits bs n held size -> Q (0, Some s)) ->
  (forall i fl' s', 0 <= i < n -> i ∉ fl' -> held !! addr base bs i = None -> fits bs n held size -> p_memory s' = p_memory s ->
     pool_ok base bs n s' fl' (<[addr base bs i := contents bs (p_memory s) i]> held) -> Q (addr base bs i, Some s')) ->
  wp (pool_malloc_fn (Some s) size al) Q.
Proof.
  intros Hs H HQ1 HQ2. pose proof (fits_iff s fl held size H) as Hf. unfold is_u64 in Hs.
  apply (wp_pool_malloc base bs n base_8 bs_8 base_pos bs_pos n_pos chunk_fits s fl held size al); [lia|done| |].
  - intros Hno. apply HQ1. rewrite Hf. intros [? Hfl]. destruct Hno as [|[|]]; [lia|lia|done].
  - intros i fl' s' -> Hsz Hi Hn Em H'. apply (HQ2 i fl'); try done.
    + intros Hin. pose proof (po_held _ _ _ _ _ _ H' (addr base bs i) (contents bs (p_memory s) i)) as [Hh _].
      rewrite lookup_insert_eq in Hh. destruct (Hh eq_refl) as (j & _ & Hj & Ej & _). by apply addr_inj in Ej as <-.
    + apply Hf. split; [lia|done].
Qed.

Lemma pool_reset s fl held i c memory : pool_ok base bs n s fl (<[addr base bs i := c]> held) -> 0 <= i < n -> i ∉ fl ->
  zlen memory = zlen (p_memory s) ->
  (forall j, j < i * bs \/ i * bs + bs <= j -> zlook memory j = zlook (p_memory s) j) ->
  pool_ok base bs n (with_memory s memory) fl (<[addr base bs i := contents bs memory i]> held).
Proof.
  intros H Hi Hif El E. rewrite <- (insert_insert_eq held (addr base bs i) (contents bs memory i) c).
  by eapply pool_write.
Qed.

Lemma off_addr i : addr base bs i - base = i * bs.
Proof. unfold addr. lia. Qed.

Notation spec := (pool_spec base bs n align).
Notation after_op held op := (fun '(out, st') => exists held', spec held op out held' /\ pool_rep st' held').

Lemma sim_malloc s fl held size al (op : pool_op) : is_u64 size -> pool_ok base bs n s fl held ->
  (forall p held', alloc_spec base bs n align held size (fun _ => True) p held' -> spec held op (Pointer p) held') ->
  wp ('(p, st) ← pool_malloc_fn (Some s) size al; mret (Pointer p, st)) (after_op held op).
Proof.
  intros Hs H Hop. wstep. apply (wp_malloc s fl held size al); [done|done| |].
  - intros Hno. wstep. exists held. split; [by apply Hop, as_refused|by exists s, fl].
  - intros i fl' s' Hi Hif Hn Hf Em H'. wstep. eexists. split; [apply Hop, as_granted; [done| |  |done]|by exists s', fl'].
    + by eapply addr_fresh.
    + eapply contents_len; try done. by rewrite (po_memory _ _ _ _ _ _ H).
Qed.

Lemma sim_calloc s fl held count size al : is_u64 count -> is_u64 size -> pool_ok base bs n s fl held ->
  wp (pool_step (Some s) (PCalloc count size al)) (after_op held (PCalloc count size al)).
Proof.
  intros Hc Hs H. cbn [pool_step]. unfold pool_calloc_fn. rewrite scl_mul_overflow_spec by done. wstep.
  assert (Hno : ~ fits bs n held (count * size) -> exists held', spec held (PCalloc count size al) (Pointer 0) held' /\ pool_rep (Some s) held').
  { intros Hf. exists held. split; [by constructor; apply as_refused|by exists s, fl]. }
  unfold is_u64 in *. destruct (Z.ltb_spec (count * size) (2 ^ 64)).
  2:{ wstep. wstep. apply Hno. intros [? _]. nia. }
  wstep. apply (wp_malloc s fl held (count * size) al); [unfold is_u64; nia|done| |].
  - intros Hf. cbv beta iota. cbn [Z.eqb]. wstep. wstep. by apply Hno.
  - intros i fl' s' Hi Hif Hn Hf Em H'. pose proof (addr_pos base bs base_pos bs_pos i ltac:(lia)).
    cbv beta iota. destruct (Z.eqb_spec (addr base bs i) 0); [lia|]. pose proof (po_chunk _ _ _ _ _ _ H') as E. rewrite E, off_addr.
    pose proof (po_memory _ _ _ _ _ _ H') as El. pose proof (block_fits bs n bs_pos i Hi).
    wstep. destruct Hf as [Hf Hf']. apply wp_fill_cells; [lia|lia|lia|]. intros memory El' Eb. wstep. wstep.
    eexists. split; [constructor; apply (as_granted _ _ _ _ _ _ _ _ (contents bs memory i)); [by split|by eapply addr_fresh|..]|].
    + apply (contents_len bs n); try done. by rewrite El', El.
    + intros k Hk. unfold contents. rewrite zlook_slice, Eb by lia.
      destruct (Z.leb_spec 0 k), (Z.ltb_spec k (i * bs + bs - i * bs)), (Z.leb_spec (i * bs) (i * bs + k)), (Z.ltb_spec (i * bs + k) (i * bs + count * size));
        try lia; done.
    + exists (with_memory s' memory), fl'. split; [done|]. eapply pool_reset; try done.
      intros j Hj. rewrite Eb. destruct (Z.leb_spec (i * bs) j), (Z.ltb_spec j (i * bs + count * size)); try lia; done.
Qed.

Lemma sim_realloc s fl held p old new al : is_u64 old -> is_u64 new -> pool_ok base bs n s fl held -> p <> 0 ->
  is_Some (held !! p) -> new <> 0 ->
  wp (pool_step (Some s) (PRealloc p old new al)) (after_op held (PRealloc p old new al)).
Proof.
  intros Ho Hs H Hp [c Hh] Hnew. cbn [pool_step]. unfold pool_realloc_fn.
  destruct (Z.eqb_spec p 0); [done|]. destruct (Z.eqb_spec new 0); [done|].
  wstep. wstep. apply (wp_malloc s fl held new al); [done|done| |].
  { intros Hf. cbv beta iota. cbn [Z.eqb]. wstep. wstep. exists held. split; [by eapply ps_realloc_refused|by exists s, fl]. }
  intros i fl' s' Hi Hif Hn Hf Em H'. pose proof (addr_pos base bs base_pos bs_pos i ltac:(lia)).
  cbv beta iota. destruct (Z.eqb_spec (addr base bs i) 0); [lia|]. pose proof (po_chunk _ _ _ _ _ _ H') as E.
  pose proof (po_memory _ _ _ _ _ _ H') as El. pose proof (block_fits bs n bs_pos i Hi).
  pose proof Hh as Hh'. apply (po_held _ _ _ _ _ _ H) in Hh' as (j & Hj & Hjf & -> & Ec).
  assert (i <> j) as Hij by (intros ->; congruence). pose proof (block_apart bs bs_pos i j Hij).
  pose proof (block_fits bs n bs_pos j Hj). rewrite E, !off_addr. unfold is_u64 in *. destruct Hf as [Hf Hf'].
  replace (if old <? new then old else new) with (Z.min old new) by (destruct (Z.ltb_spec old new); lia).
  wstep. apply wp_copy_cells; [lia|lia|lia|lia|lia|lia|]. intros memory El' Eb.
  assert (pool_ok base bs n (with_memory s' memory) fl' (<[addr base bs i := contents bs memory i]> held)) as Hok2.
  { eapply pool_reset; try done. intros k Hk. rewrite Eb.
    destruct (Z.leb_spec (i * bs) k), (Z.ltb_spec k (i * bs + Z.min old new)); try lia; done. }
  wstep. eapply (wp_pool_free base bs n); [apply base_8|apply bs_8|done|done|done|done|done|]. intros s3 fl3 Hok3. wstep. wstep.
  eexists. split; [|by exists s3, fl3]. eapply (ps_realloc_moved _ _ _ _ _ _ _ _ _ _ _ (contents bs memory i)); [done|exact Hh|by split|by eapply addr_fresh| |].
  - apply (contents_len bs n); try done. by rewrite El', El.
  - intros k Hk. rewrite Ec. unfold contents. rewrite !zlook_slice, Eb by lia.
    destruct (Z.leb_spec 0 k), (Z.ltb_spec k (i * bs + bs - i * bs)), (Z.ltb_spec k (j * bs + bs - j * bs)); try lia; simpl.
    destruct (Z.leb_spec (i * bs) (i * bs + k)), (Z.ltb_spec (i * bs + k) (i * bs + Z.min old new)); try lia; simpl.
    rewrite Em. f_equal. lia.
Qed.

Lemma pool_simulates st held op : pool_rep st held -> pool_allowed bs held op -> wp (pool_step st op) (after_op held op).
Proof.
  intros (s & fl & -> & H) Hok. destruct op as [size al|count size al|p old new al|p|p off v|p off]; cbn [pool_allowed] in Hok.
  - eapply sim_malloc; [done|done|]. intros p held' A. by constructor.
  - destruct Hok. by eapply sim_calloc.
  - destruct Hok as (Ho & Hs & Hp). destruct (Z.eq_dec p 0) as [->|Hp0].
    + cbn [pool_step]. change (pool_realloc_fn (Some s) 0 old new al) with (pool_malloc_fn (Some s) new al).
      eapply sim_malloc; [done|done|]. intros p held' A. by constructor.
    + destruct Hp as [|Hp]; [done|]. destruct (Z.eq_dec new 0) as [->|]; [|by eapply sim_realloc].
      cbn [pool_step]. unfold pool_realloc_fn. destruct (Z.eqb_spec p 0); [done|]. cbn [Z.eqb]. wstep. wstep.
      eapply (wp_pool_free base bs n); [apply base_8|apply bs_8|done|done|done|done|done|]. intros s' fl' H'. wstep. wstep.
      destruct Hp as [c Hh]. eexists. split; [by eapply ps_realloc_zero|by exists s', fl'].
  - cbn [pool_step]. wstep. eapply (wp_pool_free base bs n); [apply base_8|apply bs_8|done|done|done|done|done|]. intros s' fl' H'. wstep.
    eexists. split; [constructor|by exists s', fl'].
  - destruct Hok as [[c Hh] Hoff]. cbn [pool_step]. pose proof (po_chunk _ _ _ _ _ _ H) as E.
    pose proof (po_memory _ _ _ _ _ _ H) as El.
    pose proof Hh as Hh'. apply (po_held _ _ _ _ _ _ H) in Hh' as (i & Hi & Hif & -> & ->). pose proof (block_fits bs n bs_pos i Hi).
    rewrite E, off_addr. wstep. apply wp_set; [lia|]. wstep. eexists. split; [by eapply ps_write|].
    exists (with_memory s (zupd (p_memory s) (i * bs + off) (Some v))), fl. split; [done|].
    assert (zupd (contents bs (p_memory s) i) off (Some v) = contents bs (zupd (p_memory s) (i * bs + off) (Some v)) i) as ->.
    { apply zlook_ext. intros k. unfold contents. rewrite zlook_zupd, !zlook_slice, zlook_zupd, zlen_slice by lia.
      repeat case_decide; destruct_and?; repeat (bcase; simpl); try done; try lia. }
    eapply (pool_write base bs n); try done; [apply zlen_zupd|]. intros j Hj. rewrite zlook_zupd_ne by lia. done.
  - destruct Hok as [[c Hh] Hoff]. cbn [pool_step]. pose proof (po_chunk _ _ _ _ _ _ H) as E.
    pose proof (po_memory _ _ _ _ _ _ H) as El.
    pose proof Hh as Hh'. apply (po_held _ _ _ _ _ _ H) in Hh' as (i & Hi & Hif & -> & ->). pose proof (block_fits bs n bs_pos i Hi).
    rewrite E, off_addr. wstep. wstep. wstep. exists held. split; [|by exists s, fl]. econstructor; [exact Hh|].
    unfold contents. rewrite zlook_slice by lia. destruct (Z.leb_spec 0 off), (Z.ltb_spec off (i * bs + bs - i * bs)); try lia. done.
Qed.
End Refines.

(** ** Creation *)
Fixpoint down (m : nat) : list Z := match m with O => [] | S m => Z.of_nat m :: down m end.

Lemma elem_down m i : i ∈ down m <-> 0 <= i < Z.of_nat m.
Proof.
  induction m as [|m IH]; [split; [by intros ?%elem_of_nil|lia]|]. cbn [down]. rewrite elem_of_cons, IH. lia.
Qed.

Lemma down_NoDup m : NoDup (down m).
Proof. induction m as [|m IH]; [constructor|]. apply NoDup_cons. split; [|done]. rewrite elem_down. lia. Qed.

Lemma down_len m : zlen (down m) = Z.of_nat m.
Proof. induction m as [|m IH]; [done|]. cbn [down]. rewrite zlen_cons, IH. lia. Qed.

Section Create.
Context (base bs n align : Z).
Hypothesis align_8 : (8 | align).
Hypothesis base_align : (align | base).
Hypothesis bs_align : (align | bs).
Hypothesis base_pos : 0 < base.
Hypothesis bs_pos : 8 <= bs.
Hypothesis n_pos : 1 <= n.
Hypothesis chunk_fits : base + bs * n <= 2 ^ 64.

Lemma wp_thread memory (Q : block Z * Z -> Prop) : zlen memory = bs * n ->
  (forall memory' p, zlen memory' = bs * n -> chain base bs memory' (down (Z.to_nat n)) p -> Q (memory', p)) ->
  wp (zfor 0 n (fun i '(memory, prev) =>
        let block := base + i * bs in memory ← store_ptr base memory block prev; mret (memory, block)) (memory, 0)) Q.
Proof.
  intros Hl HQ. apply (wp_zfor (fun i '(m, p) => zlen m = bs * n /\ is_u64 p /\ chain base bs m (down (Z.to_nat i)) p)).
  - split; [done|]. split; [by vm_compute|done].
  - intros i [m p] Hi (El & Hp & Hc). cbv zeta. fold (addr base bs i). wstep. pose proof (block_fits bs n bs_pos i ltac:(lia)).
    apply wp_store_ptr; [apply addr_aligned; [by eapply base_8|by eapply bs_8]|unfold addr; lia|unfold addr; lia|].
    rewrite off_addr. intros m' El' Hw Efr. wstep. split; [lia|]. split; [unfold is_u64, addr; nia|].
    replace (Z.to_nat (i + 1)) with (S (Z.to_nat i)) by lia. cbn [down chain]. rewrite Z2Nat.id by lia. split; [done|].
    exists p. split; [done|]. split; [done|]. apply (chain_frame base bs bs_pos m m'); [|exact Hc]. intros j k Hj Hk. apply elem_down in Hj. apply Efr.
    left. nia.
  - intros [m p] (El & _ & Hc). rewrite Z.max_r in Hc by lia. by apply HQ.
Qed.

Lemma pool_fresh memory bitmap p : zlen memory = bs * n -> chain base bs memory (down (Z.to_nat n)) p ->
  zlen bitmap = (n + 7) / 8 -> (forall j, 0 <= j < zlen bitmap -> zlook bitmap j = Some (Some 255)) ->
  pool_ok base bs n (Pool base memory p bitmap bs n n) (down (Z.to_nat n)) ∅.
Proof.
  intros Hl Hc Hb Hbits. split; simpl; try done.
  - apply down_NoDup.
  - intros i Hi. apply elem_down in Hi. lia.
  - split; [done|]. intros i Hi. exists 255. split; [apply Hbits; zdiv|].
    rewrite bool_decide_eq_true_2 by (apply elem_down; lia). change 255 with (Z.ones 8). apply Z.ones_spec_low. zdiv.
  - rewrite down_len. lia.
  - intros a c. rewrite lookup_empty. split; [done|]. intros (i & Hi & Hni & _). exfalso. apply Hni, elem_down. lia.
  - rewrite down_len, map_size_empty. lia.
Qed.
End Create.

Lemma round_block bs0 k : 3 <= k < 63 -> 1 <= bs0 -> bs0 + 2 ^ k <= 2 ^ 64 ->
  let bs := (bs0 + 2 ^ k - 1) / 2 ^ k * 2 ^ k in
  scl_align_forward bs0 (2 ^ k) = bs /\ bs0 <= bs /\ 8 <= bs /\ (8 | 2 ^ k) /\ (2 ^ k | bs) /\ bs < 2 ^ 64 /\ (bs <? 8) = false.
Proof.
  intros Hk Hb Hf bs. assert (8 <= 2 ^ k) as H8 by (change 8 with (2 ^ 3); apply Z.pow_le_mono_r; lia).
  pose proof (Z.div_mod (bs0 + 2 ^ k - 1) (2 ^ k) ltac:(lia)). pose proof (Z.mod_pos_bound (bs0 + 2 ^ k - 1) (2 ^ k) ltac:(lia)).
  fold bs. assert (2 ^ k * ((bs0 + 2 ^ k - 1) / 2 ^ k) = bs) by (unfold bs; lia).
  assert (1 <= (bs0 + 2 ^ k - 1) / 2 ^ k) by (apply Z.div_le_lower_bound; lia). assert (8 <= bs) by nia.
  split_and!; [apply align_forward_eq; lia|lia|done| |by exists ((bs0 + 2 ^ k - 1) / 2 ^ k)|lia|by apply Z.ltb_ge].
  exists (2 ^ (k - 3)). change 8 with (2 ^ 3). rewrite <- Z.pow_add_r by lia. f_equal. lia.
Qed.

Lemma pow2_align alignment k : (alignment = 0 /\ k = 4) \/ (alignment = 2 ^ k /\ 3 <= k < 63) ->
  (if alignment =? 0 then MAX_ALIGN else alignment) = 2 ^ k /\ 3 <= k < 63 /\ scl_is_pow2_sz (2 ^ k) = true.
Proof.
  intros H. assert (3 <= k < 63) as Hk by lia. split; [|split; [done|]].
  - destruct H as [[-> ->]|[-> _]]; [done|]. by destruct (Z.eqb_spec (2 ^ k) 0); [lia|].
  - assert (0 < 2 ^ k < 2 ^ 64) by (split; [lia|apply Z.pow_lt_mono_r; lia]). apply is_pow2_spec; [done|]. exists k. lia.
Qed.

Lemma alloc_bytes (b : scl_allocator_t) `{!AllocatorOk b} w sz al mem w' : scl_alloc (A := Z) b w sz al 1 = (mem, w') ->
  match mem with
  | Some m => zlen m = sz /\ 0 < sz <= PTRDIFF_MAX /\ w_live w' = w_live w + 1
  | None => w_live w' = w_live w /\ malloc_fn b (w_reqs w) sz al = false
  end.
Proof.
  unfold scl_alloc. destruct (malloc_fn b (w_reqs w) sz al) eqn:E; intros [= <- <-]; [|done].
  apply malloc_fn_ok in E. split; [|done]. unfold fresh_cells. rewrite zlen_replicate, Z.div_1_r. lia.
Qed.

Lemma pool_create_spec (b : scl_allocator_t) `{!AllocatorOk b} w chunk bs0 n alignment k :
  (alignment = 0 /\ k = 4) \/ (alignment = 2 ^ k /\ 3 <= k < 63) -> 1 <= bs0 -> bs0 + 2 ^ k <= 2 ^ 64 -> 1 <= n < 2 ^ 64 ->
  let bs := (bs0 + 2 ^ k - 1) / 2 ^ k * 2 ^ k in
  (bs * n <= PTRDIFF_MAX -> 0 < chunk /\ (2 ^ k | chunk) /\ chunk + bs * n <= 2 ^ 64) ->
  wp (scl_alloc_pool_create (Some b) w chunk bs0 n alignment) (fun '(st, w') =>
    match st with
    | Some _ => pool_rep chunk bs n st ∅ /\ w_live w' = w_live w + 4 /\ bs * n <= PTRDIFF_MAX
    | None => w_live w' = w_live w \/ (w_live w' = w_live w + 1 /\ exists r, malloc_fn b r 40 MAX_ALIGN = false)
    end).
Proof.
  intros Hal Hbs Hfit Hn bs Hch. destruct (pow2_align alignment k Hal) as (Ea & Hk & Hpow).
  destruct (round_block bs0 k Hk Hbs Hfit) as (Er & Hle & H8 & Hd8 & Hdbs & Hbs64 & Elt). fold bs in Er, Hle, H8, Hdbs, Hbs64, Elt.
  unfold scl_alloc_pool_create. destruct (Z.eqb_spec bs0 0); [lia|]. destruct (Z.eqb_spec n 0); [lia|]. cbn [orb].
  rewrite Ea, Hpow. cbn [negb]. cbv zeta. rewrite Er, Elt.
  destruct (scl_alloc b w 56 MAX_ALIGN 1) as [st w1] eqn:E1. apply alloc_bytes in E1; [|done].
  destruct st as [st|]; [destruct E1 as (_ & _ & L1)|wstep; left; lia].
  rewrite scl_mul_overflow_spec by (unfold is_u64; lia). destruct (Z.ltb_spec (bs * n) (2 ^ 64)); [|wstep; left; simpl; lia].
  destruct (scl_alloc b w1 (bs * n) (2 ^ k) 1) as [mem w2] eqn:E2. apply alloc_bytes in E2; [|done].
  destruct mem as [mem|]; [destruct E2 as (Z2 & Hmax & L2)|wstep; left; simpl; lia].
  destruct Hch as (Hc0 & Hcd & Hcf); [lia|]. wstep.
  apply (wp_thread chunk bs n (2 ^ k)); try done; try lia. intros mem' p Zm Hc.
  rewrite (u64_small (n + 7)) by nia.
  destruct (scl_alloc b w2 ((n + 7) / 8) MAX_ALIGN 1) as [bm w3] eqn:E3. apply alloc_bytes in E3; [|done].
  destruct bm as [bm|]; [destruct E3 as (Z3 & _ & L3)|wstep; left; simpl; lia]. wstep.
  apply wp_fill_cells; [lia|zdiv|lia|]. intros bm' El Eb.
  destruct (scl_alloc b w3 40 MAX_ALIGN 1) as [a w4] eqn:E4. apply alloc_bytes in E4; [|done].
  destruct a as [a|]; wstep.
  - split; [|split; [lia|lia]]. eexists _, _. split; [done|]. apply (pool_fresh chunk bs n (2 ^ k)); try done; [lia|lia|].
    intros j Hj. rewrite Eb. destruct (Z.leb_spec 0 j), (Z.ltb_spec j (0 + (n + 7) / 8)); try lia; done.
  - right. simpl. split; [lia|]. exists (w_reqs w3). apply E4.
Qed.

(** C24. The pool allocator hands out blocks of its chunk as a set of blocks
    held.  Over any backing allocator that gives it an aligned chunk, for
    every request for a pool whose blocks are aligned to at least a pointer,
    either all four of its objects are allocated, or none is kept (apart from
    the bitmap when the very last request is refused).  From then on every
    sequence of requests, frees, and reads and writes inside held blocks goes
    through without stray access: a request is granted exactly when it asks
    for between one byte and a block and some block is not held, with an
    aligned block apart from all the held ones; the contents of held blocks
    change only by their holders' writes; [calloc] clears and [realloc] keeps
    what it has to; and freeing [NULL], a foreign or interior pointer or a
    block already free changes nothing.  Destroying the pool returns all its
    memory. *)
Theorem pool_refines (b : scl_allocator_t) `{!AllocatorOk b} (w : world) (chunk bs0 n alignment k : Z) (ops : list pool_op)
  (Hal : (alignment = 0 /\ k = 4) \/ (alignment = 2 ^ k /\ 3 <= k < 63))
  (Hbs : 1 <= bs0 /\ bs0 + 2 ^ k <= 2 ^ 64) (Hn : 1 <= n < 2 ^ 64) :
  let bs := (bs0 + 2 ^ k - 1) / 2 ^ k * 2 ^ k in
  (bs * n <= PTRDIFF_MAX -> 0 < chunk /\ (2 ^ k | chunk) /\ chunk + bs * n <= 2 ^ 64) ->
  permitted (pool_spec chunk bs n (2 ^ k)) (pool_allowed bs) ∅ ops ->
  exists st w1, scl_alloc_pool_create (Some b) w chunk bs0 n alignment = Ok (st, w1) /\
    match st with
    | Some _ => w_live w1 = w_live w + 4 /\
        exists outs st2 held, run pool_step st ops = Ok (outs, st2) /\
          trace (pool_spec chunk bs n (2 ^ k)) ∅ ops outs held /\ w_live (scl_alloc_pool_destroy w1 st2) = w_live w
    | None => w_live w1 = w_live w \/ (w_live w1 = w_live w + 1 /\ exists r, malloc_fn b r 40 MAX_ALIGN = false)
    end.
Proof.
  intros bs Hch Hops. destruct Hbs as [Hbs Hfit].
  destruct (round_block bs0 k ltac:(lia) Hbs Hfit) as (_ & _ & H8 & Hd8 & Hdbs & _). fold bs in H8, Hdbs.
  destruct (proj1 (wp_ok _ _) (pool_create_spec b w chunk bs0 n alignment k Hal Hbs Hfit Hn Hch)) as ([st w1] & E & H).
  fold bs in H. exists st, w1. split; [done|]. destruct st as [s|]; [|done]. destruct H as (R & Hw & Hmax).
  destruct (Hch Hmax) as (Hc0 & Hcd & Hcf). split; [done|].
  destruct (proj1 (wp_ok _ _) (run_refines_on pool_step _ _ (pool_rep chunk bs n) _ _ ops
    (pool_simulates chunk bs n (2 ^ k) Hd8 Hcd Hdbs Hc0 H8 ltac:(lia) Hcf) R Hops)) as ([outs st2] & E2 & held & T & R2).
  exists outs, st2, held. split; [done|]. split; [done|]. destruct R2 as (s2 & fl & -> & _). simpl. lia.
Qed.

Lemma pool_refines_witness :
  exists outs held, trace (pool_spec 4096 16 2 (2 ^ 4)) ∅ [PMalloc 10 0; PMalloc 16 0; PMalloc 1 0; PFree 4100; PFree 4112; PCalloc 2 4 0] outs held.
Proof.
  destruct (pool_refines small_allocator (World 0 0) 4096 10 2 0 4
    [PMalloc 10 0; PMalloc 16 0; PMalloc 1 0; PFree 4100; PFree 4112; PCalloc 2 4 0]) as (st & w1 & E & H).
  - by left.
  - split; [done|by vm_compute].
  - by vm_compute.
  - intros _. split; [done|]. split; [by exists 256|by vm_compute].
  - intros [|? [|? [|? [|? [|? [|? [|? ?]]]]]]] o ops2 outs a' [=]; simplify_eq; intros _; simpl; unfold is_u64; (done || lia).
  - destruct st as [s|]; [|exfalso; vm_compute in E; discriminate E].
    destruct H as (_ & outs & _ & held & _ & T & _). exists outs, held. exact T.
Defined.

(** A failing last request of the creation leaks the bitmap. *)
Lemma pool_create_leaks :
  let b := {| malloc_fn := fun k n _ => (k <? 3)%nat && (0 <? n); calloc_fn := fun _ _ _ _ => false; realloc_fn := fun _ _ _ _ _ => Refused |} in
  scl_alloc_pool_create (Some b) (World 0 0) 4096 16 2 0 = Ok (None, World 4 1).
Proof. vm_compute. reflexivity. Qed.

(** Blocks smaller than the alignment of a pointer are misaligned for the link
    stored in them. *)
Lemma pool_misaligned_links : scl_alloc_pool_create (Some small_allocator) (World 0 0) 4096 9 2 1 = UB.
Proof. vm_compute. reflexivity. Qed.
