(* ===== verification/Arena.v ===== *)
(** The arena allocator of [libs/allocator/arena/scl_alloc_arena.c]: buffers
    filled from the bottom, a list of them that grows by doubling, nothing
    freed before a reset.  A pointer is the buffer it points into, named by the
    request that obtained it, and an offset. *)

From stdpp Require Import gmap.
From S2P Require Import Prelude Core Refine Bytes.
#[local] Open Scope Z_scope.

Notation pointer := (nat * Z)%type.

(** A buffer of the backing allocator: the alignment it was requested with and
    its bytes. *)
Record buffer : Type := Buffer { bf_align : Z; bf_cells : block Z }.
Notation buffers := (gmap nat buffer).

(** The struct lies in the node list; its buffer is found by name. *)
Record arena_node_t : Type := ANode {
  an_buffer : nat;
  an_offset : Z;
  an_capacity : Z;
  an_bytes_used : Z
}.

#[export] Instance arena_node_eq_dec : EqDecision arena_node_t.
Proof. solve_decision. Defined.

(** [ar_nodes] is the list from [head]; [ar_current] the position of [current]
    in it. *)
Record arena_state_t : Type := Arena {
  ar_nodes : list arena_node_t;
  ar_current : nat;
  ar_max_capacity : Z;
  ar_total_allocated : Z
}.

Definition SIZEOF_ARENA_NODE : Z := 40.
Definition SIZEOF_ARENA_STATE : Z := 40.
Definition SIZEOF_ALLOCATOR : Z := 40.

(** ** Memory *)

(** [memset] and [memcpy] through a pointer: the object must have the bytes. *)
Definition splice (b : block Z) (off : Z) (l : block Z) : block Z := slice b 0 off ++ l ++ slice b (off + zlen l) (zlen b).

Definition in_object (b : block Z) (off n : Z) : bool := (0 <=? off) && (0 <=? n) && (off + n <=? zlen b).

Definition write_bytes (m : buffers) (p : pointer) (l : block Z) : res buffers :=
  match m !! p.1 with
  | Some (Buffer al b) => if in_object b p.2 (zlen l) then mret (<[p.1 := Buffer al (splice b p.2 l)]> m) else UB
  | None => UB
  end.

Definition read_bytes (m : buffers) (p : pointer) (n : Z) : res (block Z) :=
  match m !! p.1 with
  | Some (Buffer al b) => if in_object b p.2 n then mret (slice b p.2 (p.2 + n)) else UB
  | None => UB
  end.

Definition memset (m : buffers) (p : pointer) (c n : Z) : res buffers := write_bytes m p (replicate (Z.to_nat n) (Some c)).

(** Overlapping ranges are undefined behaviour. *)
Definition memcpy (m : buffers) (dst src : pointer) (n : Z) : res buffers :=
  if bool_decide (dst.1 = src.1) && (dst.2 <? src.2 + n) && (src.2 <? dst.2 + n) then UB
  else l ← read_bytes m src n; write_bytes m dst l.

(** ** The allocator *)
Section Arena.
Context (backing : scl_allocator_t) (fuel : nat) (debug : bool).
Implicit Types (s : arena_state_t) (m : buffers) (w : world).

Definition arena_align_up (offset align : Z) : Z :=
  let mask := u64 (align - 1) in Z.land (u64 (offset + mask)) (lnot64 mask).

Definition arena_node_create m w (capacity alignment : Z) : option arena_node_t * buffers * world :=
  let '(node, w) := scl_alloc (A := Z) backing w SIZEOF_ARENA_NODE MAX_ALIGN 1 in
  match node with
  | None => (None, m, w)
  | Some _ =>
      let name := w_reqs w in
      let '(b, w) := scl_alloc (A := Z) backing w capacity alignment 1 in
      match b with
      | None => (None, m, scl_free w node)
      | Some cells => (Some (ANode name 0 capacity 0), <[name := Buffer alignment cells]> m, w)
      end
  end.

(** [while (new_cap < need) new_cap *= 2]. *)
Definition grow_capacity (new_cap need : Z) : res Z :=
  loop fuel (fun c => if c <? need then mret (inl (u64 (c * 2))) else mret (inr c)) new_cap.

(** What is left of the request once the node that serves it is known. *)
Definition bump s (i : nat) (cur : arena_node_t) (aligned size : Z) : pointer * arena_state_t :=
  let cur' := ANode (an_buffer cur) (aligned + size) (an_capacity cur) (u64 (an_bytes_used cur + size)) in
  ((an_buffer cur, aligned), Arena (<[i := cur']> (ar_nodes s)) i (ar_max_capacity s) (ar_total_allocated s)).

Definition arena_malloc_fn (st : option arena_state_t) m w (size alignment : Z)
    : res (option pointer * option arena_state_t * buffers * world) :=
  match st with
  | None => mret (None, st, m, w)
  | Some s =>
      if size =? 0 then mret (None, st, m, w)
      else
        let alignment := if alignment =? 0 then MAX_ALIGN else alignment in
        match ar_nodes s !! ar_current s with
        | None => UB
        | Some cur =>
            let aligned := arena_align_up (an_offset cur) alignment in
            if (aligned >? an_capacity cur) || (size >? an_capacity cur - aligned) then
              new_cap ← grow_capacity (u64 (an_capacity cur * 2)) (u64 (size + alignment));
              if (ar_max_capacity s >? 0) && (u64 (ar_total_allocated s + new_cap) >? ar_max_capacity s)
              then mret (None, st, m, w)
              else
                let '(node, m, w) := arena_node_create m w new_cap alignment in
                match node with
                | None => mret (None, st, m, w)
                | Some node =>
                    let i := S (ar_current s) in
                    let nodes := take i (ar_nodes s) ++ node :: drop i (ar_nodes s) in
                    let '(p, s) := bump (Arena nodes i (ar_max_capacity s) (u64 (ar_total_allocated s + new_cap))) i node 0 size in
                    mret (Some p, Some s, m, w)
                end
            else
              let '(p, s) := bump s (ar_current s) cur aligned size in mret (Some p, Some s, m, w)
        end
  end.

Definition arena_calloc_fn st m w (count size alignment : Z) : res (option pointer * option arena_state_t * buffers * world) :=
  match scl_mul_overflow count size with
  | None => mret (None, st, m, w)
  | Some total =>
      '(p, st, m, w) ← arena_malloc_fn st m w total alignment;
      match p with
      | Some q => m ← memset m q 0 total; mret (p, st, m, w)
      | None => mret (None, st, m, w)
      end
  end.

Definition arena_realloc_fn st m w (ptr : option pointer) (old_size new_size alignment : Z)
    : res (option pointer * option arena_state_t * buffers * world) :=
  match ptr with
  | None => arena_malloc_fn st m w new_size alignment
  | Some p =>
      if new_size =? 0 then mret (None, st, m, w)
      else
        '(q, st, m, w) ← arena_malloc_fn st m w new_size alignment;
        match q with
        | Some q' => m ← memcpy m q' p (if old_size <? new_size then old_size else new_size); mret (q, st, m, w)
        | None => mret (None, st, m, w)
        end
  end.

Definition arena_free_fn st (ptr : option pointer) : option arena_state_t := st.

(** Every node is emptied; debug builds poison what was used. *)
Fixpoint reset_nodes (nodes : list arena_node_t) m : res (list arena_node_t * buffers) :=
  match nodes with
  | [] => mret ([], m)
  | cur :: nodes =>
      m ← (if debug then memset m (an_buffer cur, 0) 170 (an_offset cur) else mret m);
      '(nodes, m) ← reset_nodes nodes m;
      mret (ANode (an_buffer cur) 0 (an_capacity cur) 0 :: nodes, m)
  end.

Definition scl_alloc_arena_reset st m : res (option arena_state_t * buffers) :=
  match st with
  | None => mret (None, m)
  | Some s =>
      '(nodes, m) ← reset_nodes (ar_nodes s) m;
      mret (Some (Arena nodes 0 (ar_max_capacity s) (ar_total_allocated s)), m)
  end.

Fixpoint destroy_nodes (nodes : list arena_node_t) m w : res (buffers * world) :=
  match nodes with
  | [] => mret (m, w)
  | cur :: nodes =>
      m ← (if debug then memset m (an_buffer cur, 0) 187 (an_capacity cur) else mret m);
      match m !! an_buffer cur with
      | None => UB
      | Some b => destroy_nodes nodes (delete (an_buffer cur) m) (scl_free (scl_free w (Some (bf_cells b))) (Some [None : option Z]))
      end
  end.

Definition scl_alloc_arena_destroy st m w : res (buffers * world) :=
  match st with
  | None => mret (m, w)
  | Some s =>
      '(m, w) ← destroy_nodes (ar_nodes s) m w;
      mret (m, scl_free (scl_free w (Some [None : option Z])) (Some [None : option Z]))
  end.

(** [bytes_used], [bytes_wasted] and [node_count]; [out] says whether there is
    somewhere to store them. *)
Definition scl_alloc_arena_stats st (out : bool) : option (Z * Z * Z) :=
  match st with
  | Some s =>
      if out then
        Some (fold_left (fun '(used, wasted, count) cur =>
          (u64 (used + an_bytes_used cur), u64 (wasted + u64 (an_capacity cur - an_bytes_used cur)), u64 (count + 1))) (ar_nodes s) (0, 0, 0))
      else None
  | None => None
  end.
End Arena.

(** What was allocated is given back when a later step fails. *)
Definition scl_alloc_arena_create (backing : option scl_allocator_t) (m : buffers) (w : world) (capacity max_capacity alignment : Z)
    : option arena_state_t * buffers * world :=
  match backing with
  | None => (None, m, w)
  | Some b =>
      if capacity =? 0 then (None, m, w)
      else
        let alignment := if alignment =? 0 then MAX_ALIGN else alignment in
        if negb (scl_is_pow2_sz alignment) then (None, m, w)
        else
          let '(state, w) := scl_alloc (A := Z) b w SIZEOF_ARENA_STATE MAX_ALIGN 1 in
          match state with
          | None => (None, m, w)
          | Some _ =>
              let '(head, m, w) := arena_node_create b m w capacity alignment in
              match head with
              | None => (None, m, scl_free w state)
              | Some head =>
                  let '(alloc, w) := scl_alloc (A := Z) b w SIZEOF_ALLOCATOR MAX_ALIGN 1 in
                  match alloc with
                  | None =>
                      let w := scl_free w (option_map bf_cells (m !! an_buffer head)) in
                      (None, delete (an_buffer head) m, scl_free (scl_free w (Some [None : option Z])) state)
                  | Some _ => (Some (Arena [head] 0 max_capacity (u64 (0 + capacity))), m, w)
                  end
              end
          end
  end.

(** ** Operations and specification

    The abstract arena: the contents of the blocks handed out since the last
    reset, their total size, the memory held by the arena, and the room left in
    the current buffer. *)
Record arena_abs : Type := Abs { ab_held : gmap pointer (block Z); ab_used : Z; ab_total : Z; ab_room : Z }.

Inductive arena_op : Type :=
| AMalloc (size alignment : Z)
| ACalloc (count size alignment : Z)
| ARealloc (ptr : option pointer) (old_size new_size alignment : Z)
| AFree (ptr : option pointer)
| AReset
| AStats (out : bool)
| AWrite (ptr : pointer) (off v : Z)
| ARead (ptr : pointer) (off : Z).

Inductive arena_reply : Type :=
| Pointer (p : option pointer)
| Done
| Stats (s : option (Z * Z * Z))
| Cell (c : option Z).

Section Step.
Context (backing : scl_allocator_t) (fuel : nat) (debug : bool).
Notation state := (option arena_state_t * buffers * world)%type.

Definition arena_step (st : state) (op : arena_op) : res (arena_reply * state) :=
  let '(s, m, w) := st in
  match op with
  | AMalloc size al => '(p, s, m, w) ← arena_malloc_fn backing fuel s m w size al; mret (Pointer p, (s, m, w))
  | ACalloc count size al => '(p, s, m, w) ← arena_calloc_fn backing fuel s m w count size al; mret (Pointer p, (s, m, w))
  | ARealloc p old new al => '(q, s, m, w) ← arena_realloc_fn backing fuel s m w p old new al; mret (Pointer q, (s, m, w))
  | AFree p => mret (Done, (arena_free_fn s p, m, w))
  | AReset => '(s, m) ← scl_alloc_arena_reset debug s m; mret (Done, (s, m, w))
  | AStats out => mret (Stats (scl_alloc_arena_stats s out), (s, m, w))
  | AWrite p off v => m ← write_bytes m (p.1, p.2 + off) [Some v]; mret (Done, (s, m, w))
  | ARead p off => l ← read_bytes m (p.1, p.2 + off) 1; c ← get l 0; mret (Cell c, (s, m, w))
  end.
End Step.

Definition effective (al : Z) : Z := if al =? 0 then MAX_ALIGN else al.

Section Spec.
Context (cap0 max : Z).
Implicit Types (a : arena_abs) (c : block Z).

Definition apart (held : gmap pointer (block Z)) (p : pointer) (size : Z) : Prop :=
  forall q c, held !! q = Some c -> q.1 = p.1 -> p.2 + size <= q.2 \/ q.2 + zlen c <= p.2.

(** A block is refused only when it does not fit the current buffer; the
    memory held grows within the limit. *)
Inductive arena_grant a (size al : Z) (init : block Z -> Prop) : option pointer -> arena_abs -> Prop :=
| ag_granted p c total room :
    0 < size -> zlen c = size -> init c -> 0 <= p.2 -> (effective al | p.2) -> apart (ab_held a) p size ->
    ab_room a - (size + effective al - 1) <= room -> 0 <= room ->
    total = ab_total a \/ (ab_total a < total /\ (0 < max -> total <= max)) ->
    arena_grant a size al init (Some p) (Abs (<[p := c]> (ab_held a)) (ab_used a + size) total room)
| ag_refused : size = 0 \/ ab_room a < size + effective al - 1 -> arena_grant a size al init None a.

Inductive arena_spec : arena_abs -> arena_op -> arena_reply -> arena_abs -> Prop :=
| as_malloc a size al p a' : arena_grant a size al (fun _ => True) p a' -> arena_spec a (AMalloc size al) (Pointer p) a'
| as_calloc a count size al p a' :
    arena_grant a (count * size) al (fun c => c = replicate (Z.to_nat (count * size)) (Some 0)) p a' ->
    arena_spec a (ACalloc count size al) (Pointer p) a'
| as_realloc_null a old new al p a' :
    arena_grant a new al (fun _ => True) p a' -> arena_spec a (ARealloc None old new al) (Pointer p) a'
| as_realloc_zero a p old al : arena_spec a (ARealloc (Some p) old 0 al) (Pointer None) a
| as_realloc a p c old new al q a' : new <> 0 -> ab_held a !! p = Some c ->
    arena_grant a new al (fun c' => forall k, 0 <= k < Z.min old new -> zlook c' k = zlook c k) q a' ->
    arena_spec a (ARealloc (Some p) old new al) (Pointer q) a'
| as_free a p : arena_spec a (AFree p) Done a
| as_reset a : arena_spec a AReset Done (Abs ∅ 0 (ab_total a) cap0)
| as_stats a count : 1 <= count -> arena_spec a (AStats true) (Stats (Some (u64 (ab_used a), u64 (ab_total a - ab_used a), u64 count))) a
| as_stats_null a : arena_spec a (AStats false) (Stats None) a
| as_write a p c off v : ab_held a !! p = Some c ->
    arena_spec a (AWrite p off v) Done (Abs (<[p := zupd c off (Some v)]> (ab_held a)) (ab_used a) (ab_total a) (ab_room a))
| as_read a p c off x : ab_held a !! p = Some c -> zlook c off = Some x -> arena_spec a (ARead p off) (Cell x) a.

(** Alignments are powers of two, sizes stay clear of the upper half of
    [size_t], and only blocks handed out are used. *)
Definition align_ok (al : Z) : Prop := al = 0 \/ exists k, 0 <= k <= 62 /\ al = 2 ^ k.
Definition request_ok (size al : Z) : Prop := align_ok al /\ 0 <= size /\ size + effective al <= 2 ^ 63.

Definition arena_allowed a (op : arena_op) : Prop :=
  match op with
  | AMalloc size al => request_ok size al
  | ACalloc count size al => is_u64 count /\ is_u64 size /\ align_ok al /\ (request_ok (count * size) al \/ 2 ^ 64 <= count * size)
  | ARealloc p old new al => request_ok new al /\
      match p with Some p => exists c, ab_held a !! p = Some c /\ 0 <= old <= zlen c | None => True end
  | AWrite p off _ | ARead p off => exists c, ab_held a !! p = Some c /\ 0 <= off < zlen c
  | _ => True
  end.
End Spec.

(** * Memory lemmas *)
Lemma zlen_splice b off l : 0 <= off -> off + zlen l <= zlen b -> zlen (splice b off l) = zlen b.
Proof. intros Ho Hl. pose proof (zlen_nonneg l). unfold splice. rewrite !zlen_app, !zlen_slice by lia. lia. Qed.

Lemma zlook_splice b off l i : 0 <= off -> off + zlen l <= zlen b ->
  zlook (splice b off l) i = if (off <=? i) && (i <? off + zlen l) then zlook l (i - off) else zlook b i.
Proof.
  intros Ho Hl. pose proof (zlen_nonneg l). unfold splice. rewrite zlook_app, zlen_slice, zlook_app, !zlook_slice by lia. rewrite Z.sub_0_r.
  destruct (Z.ltb_spec i off), (Z.leb_spec off i); try lia; simpl.
  - destruct (Z.leb_spec 0 i); simpl; [by f_equal|]. symmetry. apply zlook_neg. lia.
  - destruct (Z.ltb_spec (i - off) (zlen l)), (Z.ltb_spec i (off + zlen l)); try lia; try done.
    destruct (Z.leb_spec 0 (i - off - zlen l)), (Z.ltb_spec (i - off - zlen l) (zlen b - (off + zlen l))); simpl; try lia.
    + f_equal. lia.
    + symmetry. apply zlook_ge. lia.
Qed.

Lemma splice_all c l : zlen l = zlen c -> splice c 0 l = l.
Proof. intros E. unfold splice. rewrite Z.add_0_l, E, (slice_nil c 0 0), (slice_nil c (zlen c)) by lia. simpl. by rewrite app_nil_r. Qed.

Lemma splice_one c off x : 0 <= off < zlen c -> splice c off [x] = zupd c off x.
Proof.
  intros Ho. apply zlook_ext. intros i. rewrite zlook_splice, zlook_zupd by (change (zlen [x]) with 1; lia). change (zlen [x]) with 1.
  destruct (Z.leb_spec off i), (Z.ltb_spec i (off + 1)); simpl; try (rewrite decide_False by lia; done).
  rewrite decide_True by lia. assert (i - off = 0) as -> by lia. done.
Qed.

(** Slices of a changed buffer: inside the change, and apart from it. *)
Lemma slice_splice_in b off l o n : 0 <= o <= off -> off + zlen l <= o + n -> o + n <= zlen b ->
  slice (splice b off l) o (o + n) = splice (slice b o (o + n)) (off - o) l.
Proof.
  intros H1 H2 H3. pose proof (zlen_nonneg l). apply zlook_ext. intros i.
  rewrite zlook_slice, !zlook_splice, zlook_slice by (rewrite ?zlen_slice; lia).
  destruct (Z.leb_spec 0 i), (Z.ltb_spec i (o + n - o)), (Z.leb_spec off (o + i)), (Z.ltb_spec (o + i) (off + zlen l)),
    (Z.leb_spec (off - o) i), (Z.ltb_spec i (off - o + zlen l)); try lia; simpl; try done. f_equal. lia.
Qed.

Lemma slice_splice_out b off l o n : 0 <= off -> off + zlen l <= zlen b -> 0 <= o -> 0 <= n -> o + n <= zlen b ->
  o + n <= off \/ off + zlen l <= o -> slice (splice b off l) o (o + n) = slice b o (o + n).
Proof.
  intros H1 H2 H3 H4 H5 Hd. pose proof (zlen_nonneg l). apply zlook_ext. intros i. rewrite !zlook_slice, zlook_splice by lia.
  destruct (Z.leb_spec 0 i), (Z.ltb_spec i (o + n - o)), (Z.leb_spec off (o + i)), (Z.ltb_spec (o + i) (off + zlen l)); try lia; done.
Qed.

(** * The invariant *)
Fixpoint total_of (f : arena_node_t -> Z) (nodes : list arena_node_t) : Z :=
  match nodes with [] => 0 | nd :: nodes => f nd + total_of f nodes end.

Lemma total_of_app f l l' : total_of f (l ++ l') = total_of f l + total_of f l'.
Proof. induction l as [|nd l IH]; simpl; lia. Qed.

Lemma total_of_insert f l i nd nd' : l !! i = Some nd -> total_of f (<[i := nd']> l) = total_of f l - f nd + f nd'.
Proof.
  intros E. rewrite insert_take_drop by (by eapply lookup_lt_Some). rewrite <- (take_drop_middle l i nd E) at 3. rewrite !total_of_app. simpl. lia.
Qed.

Lemma total_of_le f g l : Forall (fun nd => 0 <= f nd <= g nd) l -> 0 <= total_of f l <= total_of g l.
Proof. induction 1; simpl; lia. Qed.

Record node_ok (m : buffers) (nd : arena_node_t) : Prop := NodeOk {
  no_capacity : 1 <= an_capacity nd <= PTRDIFF_MAX;
  no_offset : 0 <= an_offset nd <= an_capacity nd;
  no_used : 0 <= an_bytes_used nd <= an_offset nd;
  no_buffer : exists al cells, m !! an_buffer nd = Some (Buffer al cells) /\ zlen cells = an_capacity nd
}.

Section Invariant.
Context (cap0 max : Z).

(** The bytes of a block lie in a buffer, below its offset. *)
Definition block_at (nodes : list arena_node_t) (m : buffers) (p : pointer) (c : block Z) : Prop :=
  0 < zlen c /\ 0 <= p.2 /\ exists nd al cells, nd ∈ nodes /\ an_buffer nd = p.1 /\ m !! p.1 = Some (Buffer al cells) /\
    p.2 + zlen c <= an_offset nd /\ c = slice cells p.2 (p.2 + zlen c).

Record arena_ok (s : arena_state_t) (m : buffers) (reqs : nat) (a : arena_abs) : Prop := ArenaOk {
  ao_nodes : Forall (node_ok m) (ar_nodes s);
  ao_names : NoDup (an_buffer <$> ar_nodes s);
  ao_dom : forall name, is_Some (m !! name) -> name ∈ an_buffer <$> ar_nodes s;
  ao_fresh : forall nd, nd ∈ ar_nodes s -> (an_buffer nd < reqs)%nat;
  ao_current : exists cur, ar_nodes s !! ar_current s = Some cur /\ ab_room a = an_capacity cur - an_offset cur;
  ao_head : exists hd tl, ar_nodes s = hd :: tl /\ an_capacity hd = cap0;
  ao_max : ar_max_capacity s = max;
  ao_total : ar_total_allocated s = u64 (ab_total a) /\ ab_total a = total_of an_capacity (ar_nodes s);
  ao_limit : 0 < max -> ab_total a <= Z.max max cap0;
  ao_used : ab_used a = total_of an_bytes_used (ar_nodes s);
  ao_held : forall p c, ab_held a !! p = Some c -> block_at (ar_nodes s) m p c;
  ao_apart : forall p c, ab_held a !! p = Some c -> apart (delete p (ab_held a)) p (zlen c)
}.

Lemma same_name nodes nd nd' : NoDup (an_buffer <$> nodes) -> nd ∈ nodes -> nd' ∈ nodes -> an_buffer nd = an_buffer nd' -> nd = nd'.
Proof.
  intros N (i & Hi)%list_elem_of_lookup (j & Hj)%list_elem_of_lookup E.
  assert (i = j) as ->; [|congruence]. eapply (NoDup_lookup _ i j (an_buffer nd)); [exact N| |]; by rewrite list_lookup_fmap, ?Hi, ?Hj; simpl; rewrite ?E.
Qed.

(** Writing inside a held block. *)
Lemma wp_write_held s m reqs a p c off l (Q : buffers -> Prop) :
  arena_ok s m reqs a -> ab_held a !! p = Some c -> 0 <= off -> off + zlen l <= zlen c ->
  (forall m', arena_ok s m' reqs (Abs (<[p := splice c off l]> (ab_held a)) (ab_used a) (ab_total a) (ab_room a)) -> Q m') ->
  wp (write_bytes m (p.1, p.2 + off) l) Q.
Proof.
  intros I Hp Ho Hl HQ. destruct (ao_held _ _ _ _ I p c Hp) as (Hc & Hp0 & nd & al & cells & Hnd & En & Em & Hle & Ec).
  pose proof (proj1 (Forall_forall _ _) (ao_nodes _ _ _ _ I) nd Hnd) as [Hcap Hoff Hused (al' & cells' & Em' & Hlen)].
  rewrite En, Em in Em'. injection Em' as <- <-. pose proof (zlen_nonneg l). unfold write_bytes. simpl. rewrite Em.
  assert (in_object cells (p.2 + off) (zlen l) = true) as ->.
  { unfold in_object. destruct (Z.leb_spec 0 (p.2 + off)), (Z.leb_spec 0 (zlen l)), (Z.leb_spec (p.2 + off + zlen l) (zlen cells)); lia || done. }
  wstep. apply HQ. assert (zlen (splice cells (p.2 + off) l) = zlen cells) as Els by (apply zlen_splice; lia).
  assert (zlen (splice c off l) = zlen c) as Elc by (apply zlen_splice; lia).
  destruct I as [I1 I2 I3 I4 I5 I6 I7 I8 I9 I10 I11 I12]. split; try done; cbn [ab_held].
  - eapply Forall_impl; [exact I1|]. intros nd' [H1 H2 H3 (al' & cells' & Em' & Hlen')]. split; try done.
    destruct (decide (an_buffer nd' = p.1)) as [E|E].
    + rewrite E in *. rewrite Em in Em'. injection Em' as <- <-. exists al, (splice cells (p.2 + off) l). rewrite lookup_insert_eq. by rewrite Els.
    + exists al', cells'. by rewrite lookup_insert_ne.
  - intros name Hname. apply I3. destruct (decide (name = p.1)) as [->|]; [by rewrite Em|by rewrite lookup_insert_ne in Hname].
  - intros q d. rewrite lookup_insert. case_decide as Hq.
    + intros [= <-]. subst q. split; [lia|]. split; [done|]. exists nd, al, (splice cells (p.2 + off) l). rewrite lookup_insert_eq, Elc.
      split_and!; try done. rewrite slice_splice_in by lia. rewrite <- Ec. by replace (p.2 + off - p.2) with off by lia.
    + intros Hd. destruct (I11 q d Hd) as (Hd0 & Hq0 & nd' & al' & cells' & Hnd' & En' & Em' & Hle' & Ed). split; [done|]. split; [done|].
      pose proof (proj1 (Forall_forall _ _) I1 nd' Hnd') as [_ Hoff' _ (al2 & cells2 & Em2 & Hlen2)]. rewrite En', Em' in Em2. injection Em2 as <- <-.
      destruct (decide (q.1 = p.1)) as [E|E].
      * rewrite E, Em in Em'. injection Em' as <- <-. exists nd', al, (splice cells (p.2 + off) l). rewrite E, lookup_insert_eq.
        split_and!; try done; [by rewrite En'|]. rewrite slice_splice_out; [done|lia..|].
        destruct (I12 q d Hd p c) as [|]; [by rewrite lookup_delete_ne|done|lia|lia].
      * exists nd', al', cells'. by rewrite lookup_insert_ne.
  - assert (forall r e, <[p := splice c off l]> (ab_held a) !! r = Some e -> exists e', ab_held a !! r = Some e' /\ zlen e' = zlen e) as Hsame.
    { intros r e. rewrite lookup_insert. case_decide as Hr; [|intros He; by exists e]. intros [= <-]. subst r. by exists c. }
    intros q d Hqd q' d' [Hne Hd']%lookup_delete_Some E.
    destruct (Hsame _ _ Hqd) as (e & He & <-), (Hsame _ _ Hd') as (e' & He' & <-).
    apply (I12 q e He q' e'); [by rewrite lookup_delete_ne|done].
Qed.

Lemma read_held s m reqs a p c off n : arena_ok s m reqs a -> ab_held a !! p = Some c -> 0 <= off -> 0 <= n -> off + n <= zlen c ->
  read_bytes m (p.1, p.2 + off) n = Ok (slice c off (off + n)).
Proof.
  intros I Hp Ho Hn Hl. destruct (ao_held _ _ _ _ I p c Hp) as (Hc & Hp0 & nd & al & cells & Hnd & En & Em & Hle & Ec).
  pose proof (proj1 (Forall_forall _ _) (ao_nodes _ _ _ _ I) nd Hnd) as [Hcap Hoff Hused (al' & cells' & Em' & Hlen)].
  rewrite En, Em in Em'. injection Em' as <- <-. unfold read_bytes. simpl. rewrite Em. unfold in_object.
  destruct (Z.leb_spec 0 (p.2 + off)), (Z.leb_spec 0 n), (Z.leb_spec (p.2 + off + n) (zlen cells)); try lia. simpl. f_equal.
  rewrite Ec. apply zlook_ext. intros i. rewrite !zlook_slice by lia.
  destruct (Z.leb_spec 0 i), (Z.ltb_spec i (p.2 + off + n - (p.2 + off))), (Z.ltb_spec i (off + n - off)); try lia; simpl; try done.
  destruct (Z.leb_spec 0 (off + i)), (Z.ltb_spec (off + i) (p.2 + zlen c - p.2)); try lia. simpl. f_equal. lia.
Qed.

(** Taking bytes from the current buffer. *)
Lemma arena_bump s m reqs a cur aligned size :
  arena_ok s m reqs a -> ar_nodes s !! ar_current s = Some cur -> an_offset cur <= aligned -> 0 < size -> aligned + size <= an_capacity cur ->
  exists c, zlen c = size /\ apart (ab_held a) (an_buffer cur, aligned) size /\
    arena_ok (bump s (ar_current s) cur aligned size).2 m reqs
      (Abs (<[(an_buffer cur, aligned) := c]> (ab_held a)) (ab_used a + size) (ab_total a) (an_capacity cur - (aligned + size))).
Proof.
  intros I Hcur Hal Hsz Hfit. destruct I as [I1 I2 I3 I4 I5 I6 I7 I8 I9 I10 I11 I12].
  pose proof (list_elem_of_lookup_2 _ _ _ Hcur) as Hin. pose proof (proj1 (Forall_forall _ _) I1 cur Hin) as Nc.
  pose proof Nc as [Hcap Hoff Hused (al & cells & Em & Hlen)].
  set (c := slice cells aligned (aligned + size)). assert (zlen c = size) as Hc by (unfold c; rewrite zlen_slice; lia).
  set (cur' := ANode (an_buffer cur) (aligned + size) (an_capacity cur) (u64 (an_bytes_used cur + size))).
  assert (u64 (an_bytes_used cur + size) = an_bytes_used cur + size) as Eu by (apply u64_small; unfold PTRDIFF_MAX in *; lia).
  assert (an_buffer <$> <[ar_current s := cur']> (ar_nodes s) = an_buffer <$> ar_nodes s) as Enames.
  { rewrite list_fmap_insert. apply list_insert_id. by rewrite list_lookup_fmap, Hcur. }
  assert (apart (ab_held a) (an_buffer cur, aligned) size) as Hap.
  { intros q d Hq E. simpl in *. destruct (I11 q d Hq) as (Hd & Hq0 & nd & al' & cells' & Hnd & En & _ & Hle & _).
    assert (nd = cur) as -> by (apply (same_name (ar_nodes s)); [done..|by rewrite En]). right. lia. }
  exists c. split; [done|]. split; [done|]. unfold bump. cbn [snd]. fold cur'. split; cbn [ar_nodes ar_current ar_max_capacity ar_total_allocated ab_held ab_used ab_total ab_room]; try done.
  - apply Forall_insert; [done|]. split; unfold cur'; cbn; rewrite ?Eu; try lia. by exists al, cells.
  - by rewrite Enames.
  - by rewrite Enames.
  - intros nd Hnd. apply (list_elem_of_fmap_2 an_buffer) in Hnd. rewrite Enames in Hnd. apply list_elem_of_fmap in Hnd as (nd' & -> & Hnd'). by apply I4.
  - exists cur'. split; [apply list_lookup_insert_eq; by eapply lookup_lt_Some|done].
  - destruct I6 as (hd & tl & E & Ecap). rewrite E in *. destruct (ar_current s) as [|i]; simpl.
    + exists cur', tl. split; [done|]. simpl in Hcur. injection Hcur as ->. done.
    + by exists hd, (<[i := cur']> tl).
  - split; [apply I8|]. rewrite (total_of_insert _ _ _ cur) by done. destruct I8 as [_ ->]. unfold cur'. cbn. lia.
  - rewrite (total_of_insert _ _ _ cur) by done. rewrite <- I10. unfold cur'. cbn. lia.
  - assert (forall p d, block_at (ar_nodes s) m p d -> block_at (<[ar_current s := cur']> (ar_nodes s)) m p d) as Hmono.
    { intros p d (Hd & Hp0 & nd & al' & cells' & Hnd & En & Em' & Hle & Ed). split; [done|]. split; [done|].
      destruct (decide (nd = cur)) as [->|Hne].
      - exists cur', al', cells'. split_and!; try done; [|unfold cur'; cbn; lia]. apply list_elem_of_insert. by eapply lookup_lt_Some.
      - exists nd, al', cells'. split_and!; try done. apply list_elem_of_lookup in Hnd as [i Hi].
        apply list_elem_of_lookup. exists i. rewrite list_lookup_insert_ne; [done|]. intros <-. congruence. }
    intros p d. rewrite lookup_insert. case_decide as Hp; [|intros Hd; by apply Hmono, I11].
    intros [= <-]. subst p. split; [lia|]. split; [simpl; lia|]. exists cur', al, cells. simpl. rewrite Hc.
    split_and!; try done. apply list_elem_of_insert. by eapply lookup_lt_Some.
  - intros p d. rewrite lookup_insert. case_decide as Hp.
    + intros [= <-]. subst p. intros q e [Hne Hq]%lookup_delete_Some E. rewrite lookup_insert_ne in Hq by done. rewrite Hc. by apply Hap.
    + intros Hd q e [Hne Hq]%lookup_delete_Some E. rewrite lookup_insert in Hq. case_decide as Hq'.
      * injection Hq as <-. subst q. rewrite Hc. pose proof (Hap p d Hd (eq_sym E)). lia.
      * apply (I12 p d Hd); [by rewrite lookup_delete_ne|done].
Qed.

(** A new buffer after the current one. *)
Lemma arena_add_node s m reqs a cap al cells reqs' :
  arena_ok s m reqs a -> zlen cells = cap -> 1 <= cap <= PTRDIFF_MAX -> (reqs <= reqs')%nat -> (0 < max -> ab_total a + cap <= max) ->
  arena_ok (Arena (take (S (ar_current s)) (ar_nodes s) ++ ANode reqs' 0 cap 0 :: drop (S (ar_current s)) (ar_nodes s)) (S (ar_current s))
              (ar_max_capacity s) (u64 (ab_total a + cap))) (<[reqs' := Buffer al cells]> m) (S reqs')
    (Abs (ab_held a) (ab_used a) (ab_total a + cap) cap).
Proof.
  intros I Hlen Hcap Hreqs Hlim. destruct I as [I1 I2 I3 I4 I5 I6 I7 I8 I9 I10 I11 I12].
  set (i := S (ar_current s)). set (nd0 := ANode reqs' 0 cap 0). destruct I5 as (cur & Hcur & _). pose proof (lookup_lt_Some _ _ _ Hcur) as Hlt.
  assert (take i (ar_nodes s) ++ nd0 :: drop i (ar_nodes s) ≡ₚ nd0 :: ar_nodes s) as P by (rewrite <- Permutation_middle, take_drop; done).
  assert (length (take i (ar_nodes s)) = i) as Ei by (rewrite length_take; unfold i; lia).
  assert (forall nd, nd ∈ ar_nodes s -> an_buffer nd <> reqs') as Hne by (intros nd Hnd%I4; lia).
  assert (forall nd, nd ∈ ar_nodes s -> <[reqs' := Buffer al cells]> m !! an_buffer nd = m !! an_buffer nd) as Hm by (intros nd Hnd; apply lookup_insert_ne; intros E; by apply (Hne nd)).
  split; cbn [ar_nodes ar_current ar_max_capacity ar_total_allocated ab_held ab_used ab_total ab_room]; try done.
  - rewrite P. constructor.
    + split; cbn; try lia. exists al, cells. by rewrite lookup_insert_eq.
    + apply Forall_forall. intros nd Hnd. pose proof (proj1 (Forall_forall _ _) I1 nd Hnd) as [H1 H2 H3 H4]. split; try done. by rewrite Hm.
  - rewrite P. simpl. constructor; [|done]. intros (nd & E & Hnd)%list_elem_of_fmap. by apply (Hne nd).
  - intros name Hname. rewrite P. simpl. destruct (decide (name = reqs')) as [->|Hn]; [by left|right]. apply I3. by rewrite lookup_insert_ne in Hname.
  - intros nd. rewrite P. intros [->|Hnd]%elem_of_cons; [simpl; lia|]. pose proof (I4 nd Hnd). lia.
  - exists nd0. split; [|simpl; lia]. rewrite lookup_app_r by lia. by rewrite Ei, Nat.sub_diag.
  - destruct I6 as (hd & tl & -> & Ecap). by exists hd, (take (ar_current s) tl ++ nd0 :: drop (ar_current s) tl).
  - split; [done|]. rewrite total_of_app. simpl. destruct I8 as [_ ->]. rewrite <- (take_drop i (ar_nodes s)) at 1. rewrite total_of_app. lia.
  - lia.
  - rewrite total_of_app. simpl. rewrite I10. rewrite <- (take_drop i (ar_nodes s)) at 1. rewrite total_of_app. lia.
  - intros p c Hp. destruct (I11 p c Hp) as (Hc & Hp0 & nd & al' & cells' & Hnd & En & Em & Hle & Ec). split; [done|]. split; [done|].
    exists nd, al', cells'. rewrite P. split; [by right|]. split; [done|]. rewrite <- En, Hm, En by done. done.
Qed.
End Invariant.

(** ** Alignment and growth *)
Lemma effective_pow al : align_ok al -> exists k, 0 <= k <= 62 /\ effective al = 2 ^ k.
Proof.
  unfold effective. intros [->|(k & Hk & ->)]; [by exists 4|]. exists k. split; [done|]. destruct (Z.eqb_spec (2 ^ k) 0); [lia|done].
Qed.

Lemma effective_pos al : align_ok al -> 1 <= effective al <= 2 ^ 62.
Proof. intros (k & Hk & ->)%effective_pow. split; [lia|]. apply Z.pow_le_mono_r; lia. Qed.

Lemma align_up_spec off al : align_ok al -> 0 <= off <= PTRDIFF_MAX ->
  let r := arena_align_up off (effective al) in off <= r < off + effective al /\ (effective al | r).
Proof.
  intros Hal Ho r. pose proof (effective_pos al Hal) as Hp. destruct (effective_pow al Hal) as (k & Hk & E). unfold PTRDIFF_MAX in Ho.
  assert (r = (off + 2 ^ k - 1) / 2 ^ k * 2 ^ k) as ->.
  { unfold r. rewrite E. unfold arena_align_up. apply (align_forward_eq off k); lia. }
  rewrite E in *. pose proof (Z.div_mod (off + 2 ^ k - 1) (2 ^ k) ltac:(lia)). pose proof (Z.mod_pos_bound (off + 2 ^ k - 1) (2 ^ k) ltac:(lia)).
  split; [lia|]. by exists ((off + 2 ^ k - 1) / 2 ^ k).
Qed.

Lemma wp_grow_capacity fuel c need (Q : Z -> Prop) :
  (64 <= fuel)%nat -> 2 <= c < 2 ^ 64 -> need <= 2 ^ 63 -> (forall r, c <= r < 2 ^ 64 -> need <= r -> Q r) -> wp (grow_capacity fuel c need) Q.
Proof.
  intros Hf Hc Hn HQ. assert (Z.log2 c < 64) as Hlog by (apply (proj1 (Z.log2_lt_pow2 c 64 ltac:(lia))); lia).
  apply (wp_loop_rel (fun m r => c <= r < 2 ^ 64 /\ m = 64 - Z.log2 r /\ 1 <= Z.log2 r <= 63) (64 - Z.log2 c)); [| |lia|].
  - split; [lia|]. split; [done|]. split; [|lia]. pose proof (Z.log2_le_mono 2 c ltac:(lia)) as Hm. change (Z.log2 2) with 1 in Hm. lia.
  - pose proof (Z.log2_le_mono 2 c ltac:(lia)) as Hm. change (Z.log2 2) with 1 in Hm. lia.
  - intros m r (Hr & -> & Hl). destruct (Z.ltb_spec r need); wstep; [|by apply HQ].
    rewrite u64_small by lia. assert (Z.log2 (r * 2) = Z.log2 r + 1) as E by (rewrite Z.mul_comm, Z.log2_double; lia).
    assert (Z.log2 r < 63) as Hl' by (apply (proj1 (Z.log2_lt_pow2 r 63 ltac:(lia))); lia).
    exists (64 - Z.log2 (r * 2)). split; [lia|]. split; [lia|]. split; [done|lia].
Qed.

(** ** The operations *)
Section Operations.
Context (cap0 max : Z) (backing : scl_allocator_t) (fuel : nat) (debug : bool) (live0 : Z).
Context `{!AllocatorOk backing} (Hfuel : (64 <= fuel)%nat) (Hmax : max <= 2 ^ 63) (Hcap0 : 1 <= cap0 <= PTRDIFF_MAX).
Notation state := (option arena_state_t * buffers * world)%type.

(** The arena, its interface and every node with its buffer are live. *)
Definition arena_rep (st : state) (a : arena_abs) : Prop :=
  exists s m w, st = (Some s, m, w) /\ arena_ok cap0 max s m (w_reqs w) a /\ w_live w = live0 + 2 + 2 * zlen (ar_nodes s).

Lemma alloc_object w sz al b w' : scl_alloc (A := Z) backing w sz al 1 = (b, w') ->
  match b with
  | Some c => zlen c = sz /\ 0 < sz <= PTRDIFF_MAX /\ w_live w' = w_live w + 1
  | None => w_live w' = w_live w
  end /\ w_reqs w' = S (w_reqs w).
Proof.
  unfold scl_alloc. destruct (malloc_fn backing (w_reqs w) sz al) eqn:E; intros [= <- <-]; [|done].
  apply malloc_fn_ok in E. split; [|done]. unfold fresh_cells. rewrite zlen_replicate, Z.div_1_r. simpl. lia.
Qed.

Lemma node_create m w capacity al nd m' w' : arena_node_create backing m w capacity al = (nd, m', w') ->
  match nd with
  | Some nd => exists cells, zlen cells = capacity /\ 1 <= capacity <= PTRDIFF_MAX /\ nd = ANode (S (w_reqs w)) 0 capacity 0 /\
      m' = <[S (w_reqs w) := Buffer al cells]> m /\ w_reqs w' = S (S (w_reqs w)) /\ w_live w' = w_live w + 2
  | None => m' = m /\ w_live w' = w_live w /\ (w_reqs w <= w_reqs w')%nat
  end.
Proof.
  unfold arena_node_create. destruct (scl_alloc backing w _ _ 1) as [n w1] eqn:E1. apply alloc_object in E1 as [L1 R1].
  destruct n as [n|]; [destruct L1 as (_ & _ & L1)|intros [= <- <- <-]; split_and!; try done; lia].
  destruct (scl_alloc backing w1 capacity al 1) as [b w2] eqn:E2. apply alloc_object in E2 as [L2 R2].
  destruct b as [b|]; intros [= <- <- <-].
  - destruct L2 as (Hz & Hc & L2). exists b. rewrite R1. split_and!; try done; lia.
  - simpl. split_and!; [done|lia|lia].
Qed.

(** More requests do not hurt. *)
Lemma arena_ok_reqs s m reqs reqs' a : (reqs <= reqs')%nat -> arena_ok cap0 max s m reqs a -> arena_ok cap0 max s m reqs' a.
Proof. intros H [I1 I2 I3 I4 I5 I6 I7 I8 I9 I10 I11 I12]. split; try done. intros nd Hnd. pose proof (I4 nd Hnd). lia. Qed.

Lemma arena_total s m reqs a : arena_ok cap0 max s m reqs a -> 0 <= ab_used a <= ab_total a.
Proof.
  intros I. rewrite (ao_used _ _ _ _ _ _ I), (proj2 (ao_total _ _ _ _ _ _ I)). apply total_of_le.
  eapply Forall_impl; [apply (ao_nodes _ _ _ _ _ _ I)|]. intros nd [H1 H2 H3 _]. lia.
Qed.

Definition granted (a : arena_abs) (size al : Z) (s : arena_state_t) m w (p : pointer) (c : block Z) total room : Prop :=
  0 < size /\ zlen c = size /\ 0 <= p.2 /\ (effective al | p.2) /\ apart (ab_held a) p size /\
  ab_room a - (size + effective al - 1) <= room /\ 0 <= room /\ (total = ab_total a \/ ab_total a < total /\ (0 < max -> total <= max)) /\
  arena_rep (Some s, m, w) (Abs (<[p := c]> (ab_held a)) (ab_used a + size) total room) /\
  (forall q d off n, ab_held a !! q = Some d -> 0 <= off -> 0 <= n -> off + n <= zlen d -> read_bytes m (q.1, q.2 + off) n = Ok (slice d off (off + n))).

Lemma wp_arena_malloc st a size al (Q : option pointer * option arena_state_t * buffers * world -> Prop) :
  arena_rep st a -> request_ok size al ->
  (forall st', arena_rep st' a -> size = 0 \/ ab_room a < size + effective al - 1 -> Q (None, st'.1.1, st'.1.2, st'.2)) ->
  (forall s m w p c total room, granted a size al s m w p c total room -> Q (Some p, Some s, m, w)) ->
  wp (arena_malloc_fn backing fuel st.1.1 st.1.2 st.2 size al) Q.
Proof.
  intros (s & m & w & -> & I & Hw) (Hal & Hsz & Hfit) HQ1 HQ2. pose proof (effective_pos al Hal) as Hep.
  assert (forall w', w_live w' = w_live w -> (w_reqs w <= w_reqs w')%nat -> arena_rep (Some s, m, w') a) as Hsame.
  { intros w' Hl Hr. exists s, m, w'. split; [done|]. split; [by eapply arena_ok_reqs|lia]. }
  unfold arena_malloc_fn. cbn [fst snd]. destruct (Z.eqb_spec size 0).
  { wstep. apply (HQ1 (Some s, m, w)); [by apply Hsame|by left]. }
  fold (effective al). destruct (ao_current _ _ _ _ _ _ I) as (cur & Hcur & Hroom). rewrite Hcur.
  pose proof (proj1 (Forall_forall _ _) (ao_nodes _ _ _ _ _ _ I) cur (list_elem_of_lookup_2 _ _ _ Hcur)) as [Hcap Hoff _ _].
  destruct (align_up_spec (an_offset cur) al Hal ltac:(lia)) as [Hr Hd]. cbv zeta in Hr, Hd.
  set (aligned := arena_align_up (an_offset cur) (effective al)) in *. cbv zeta. unfold PTRDIFF_MAX in *.
  assert ((aligned >? an_capacity cur) || (size >? an_capacity cur - aligned) = (an_capacity cur <? aligned + size)) as ->.
  { rewrite !Z.gtb_ltb. destruct (Z.ltb_spec (an_capacity cur) aligned), (Z.ltb_spec (an_capacity cur - aligned) size), (Z.ltb_spec (an_capacity cur) (aligned + size)); simpl; lia || done. }
  destruct (Z.ltb_spec (an_capacity cur) (aligned + size)) as [Hbig|Hsmall].
  - assert (ab_room a < size + effective al - 1) as Hno by lia. rewrite (u64_small (size + effective al)), u64_small by lia.
    wstep. apply wp_grow_capacity; [done|lia|lia|]. intros new_cap Hnew Hneed.
    destruct ((ar_max_capacity s >? 0) && (u64 (ar_total_allocated s + new_cap) >? ar_max_capacity s)) eqn:Elim.
    { wstep. apply (HQ1 (Some s, m, w)); [by apply Hsame|by right]. }
    destruct (arena_node_create backing m w new_cap (effective al)) as [[nd m'] w'] eqn:En. apply node_create in En.
    destruct nd as [nd|]; [|destruct En as (-> & Hl & Hreq); wstep; apply (HQ1 (Some s, m, w')); [by apply Hsame|by right]].
    destruct En as (cells & Hz & Hcap2 & -> & -> & Hreq & Hl).
    destruct (ao_total _ _ _ _ _ _ I) as [Etot Esum]. rewrite (ao_max _ _ _ _ _ _ I) in Elim.
    pose proof (arena_total _ _ _ _ I) as Hpos.
    assert (0 < max -> ab_total a + new_cap <= max) as Hlim.
    { intros Hm. pose proof (ao_limit _ _ _ _ _ _ I Hm). unfold PTRDIFF_MAX in *. rewrite Etot, (u64_small (ab_total a)), u64_small in Elim by lia.
      rewrite !Z.gtb_ltb in Elim. destruct (Z.ltb_spec 0 max), (Z.ltb_spec max (ab_total a + new_cap)); simpl in Elim; lia || done. }
    pose proof (arena_add_node cap0 max s m (w_reqs w) a new_cap (effective al) cells (S (w_reqs w)) I Hz Hcap2 ltac:(lia) Hlim) as I2.
    assert (u64 (ar_total_allocated s + new_cap) = u64 (ab_total a + new_cap)) as -> by (rewrite Etot; unfold u64; by rewrite Z.add_mod_idemp_l by lia).
    set (s2 := Arena (take (S (ar_current s)) _ ++ _) _ _ _) in I2 |- *. set (m2 := <[S (w_reqs w) := _]> m) in I2 |- *.
    assert (ar_nodes s2 !! ar_current s2 = Some (ANode (S (w_reqs w)) 0 new_cap 0)) as Hcur2.
    { unfold s2. simpl. rewrite lookup_app_r; rewrite length_take; pose proof (lookup_lt_Some _ _ _ Hcur); [|lia]. by replace (_ - _)%nat with 0%nat by lia. }
    destruct (arena_bump cap0 max s2 m2 (S (S (w_reqs w))) _ _ 0 size I2 Hcur2 ltac:(simpl; lia) ltac:(lia) ltac:(simpl; lia)) as (c & Hc & Hap & I3).
    cbn [bump]. wstep. eapply HQ2. cbn [an_buffer an_capacity ab_held ab_used ab_total ab_room] in Hap, I3.
    split; [lia|]. split; [exact Hc|]. split; [simpl; lia|]. split; [apply Z.divide_0_r|]. split; [exact Hap|].
    split; [|split; [|split; [right; split; [|exact Hlim]|split]]]; [| | |eexists _, m2, w'; split; [done|]; rewrite Hreq; split; [exact I3|]|].
    + lia.
    + lia.
    + lia.
    + unfold bump, s2. simpl. unfold zlen in *. rewrite length_insert, length_app. simpl. rewrite length_take, length_drop.
      pose proof (lookup_lt_Some _ _ _ Hcur). lia.
    + intros q d off k Hq Ho Hk Hl'. by apply (read_held cap0 max s2 m2 _ _ q d off k I2).
  - destruct (arena_bump cap0 max s m (w_reqs w) a cur aligned size I Hcur ltac:(lia) ltac:(lia) ltac:(lia)) as (c & Hc & Hap & I').
    destruct (bump s (ar_current s) cur aligned size) as [p s'] eqn:Eb. injection Eb as <- <-. wstep. eapply HQ2.
    split; [lia|]. split; [exact Hc|]. split; [simpl; lia|]. split; [exact Hd|]. split; [exact Hap|].
    split; [|split; [|split; [by left|split]]]; [| |eexists _, m, w; split; [done|]; split; [exact I'|]|].
    + lia.
    + lia.
    + unfold bump. simpl. unfold zlen. by rewrite length_insert.
    + intros q d off k Hq Ho Hk Hl. by apply (read_held cap0 max s m (w_reqs w) a).
Qed.

Notation spec := (arena_spec cap0 max).
Notation after_op a op := (fun '(out, st') => exists a', spec a op out a' /\ arena_rep st' a').
Notation step := (arena_step backing fuel debug).

Lemma granted_spec a size al s m w p c total room (init : block Z -> Prop) :
  granted a size al s m w p c total room -> init c ->
  arena_grant max a size al init (Some p) (Abs (<[p := c]> (ab_held a)) (ab_used a + size) total room).
Proof. intros (H1 & H2 & H3 & H4 & H5 & H6 & H7 & H8 & _) Hi. by apply ag_granted. Qed.

Lemma arena_sim_malloc st a size al op : arena_rep st a -> request_ok size al ->
  (forall p a', arena_grant max a size al (fun _ => True) p a' -> spec a op (Pointer p) a') ->
  wp ('(p, s, m, w) ← arena_malloc_fn backing fuel st.1.1 st.1.2 st.2 size al; mret (Pointer p, (s, m, w))) (after_op a op).
Proof.
  intros R Hok Hop. wstep. apply (wp_arena_malloc st a); [done|done| |].
  - intros [[s m] w] R' Hno. wstep. exists a. split; [by apply Hop, ag_refused|done].
  - intros s m w p c total room Hg. wstep. eexists. split; [apply Hop; by eapply granted_spec|apply Hg].
Qed.

Lemma rep_write s m w a p c off l (Q : buffers -> Prop) :
  arena_rep (Some s, m, w) a -> ab_held a !! p = Some c -> 0 <= off -> off + zlen l <= zlen c ->
  (forall m', arena_rep (Some s, m', w) (Abs (<[p := splice c off l]> (ab_held a)) (ab_used a) (ab_total a) (ab_room a)) -> Q m') ->
  wp (write_bytes m (p.1, p.2 + off) l) Q.
Proof.
  intros (s' & m' & w' & [= <- <- <-] & I & Hw) Hp Ho Hl HQ. eapply wp_write_held; [exact I|exact Hp|done|done|].
  intros m' I'. apply HQ. by exists s, m', w.
Qed.

(** Overwriting a whole new block. *)
Lemma rep_init s m w a p c l used total room (Q : buffers -> Prop) :
  arena_rep (Some s, m, w) (Abs (<[p := c]> (ab_held a)) used total room) -> zlen l <= zlen c ->
  (forall m', arena_rep (Some s, m', w) (Abs (<[p := splice c 0 l]> (ab_held a)) used total room) -> Q m') ->
  wp (write_bytes m p l) Q.
Proof.
  intros R Hl HQ. assert (p = (p.1, p.2 + 0)) as Ep by (destruct p; simpl; by rewrite Z.add_0_r). rewrite Ep at 1.
  eapply (rep_write s m w _ p c 0 l); [exact R|simpl; by rewrite lookup_insert_eq|done|lia|].
  intros m' R'. apply HQ. simpl in R'. by rewrite insert_insert_eq in R'.
Qed.

Lemma arena_sim_calloc st a count size al : arena_rep st a -> arena_allowed a (ACalloc count size al) ->
  wp (step st (ACalloc count size al)) (after_op a (ACalloc count size al)).
Proof.
  intros R (Hc & Hs & Hal & Hfit). destruct st as [[s m] w]. cbn [arena_step]. unfold arena_calloc_fn.
  rewrite scl_mul_overflow_spec by done. destruct (Z.ltb_spec (count * size) (2 ^ 64)) as [Hlt|Hge].
  - destruct Hfit as [Hok|]; [|lia]. wstep. wstep. apply (wp_arena_malloc (s, m, w) a _ al); [done|done| |].
    + intros [[s' m'] w'] R' Hno. wstep. wstep. exists a. split; [by apply as_calloc, ag_refused|done].
    + intros s' m' w' p c total room Hg. pose proof Hg as (H1 & H2 & H3 & H4 & H5 & H6 & H7 & H8 & R' & _).
      wstep. unfold memset. assert (zlen (replicate (Z.to_nat (count * size)) (Some 0)) = zlen c) as El by (rewrite zlen_replicate; lia).
      eapply rep_init; [exact R'|lia|]. intros m2 R2. wstep. wstep. eexists. split; [|exact R2].
      apply as_calloc. rewrite splice_all by done. apply ag_granted; (done || lia).
  - wstep. wstep. exists a. split; [|done]. apply as_calloc, ag_refused. right. pose proof (effective_pos al Hal).
    destruct R as (s' & m' & w' & _ & I & _). destruct (ao_current _ _ _ _ _ _ I) as (cur & Hcur & ->).
    pose proof (proj1 (Forall_forall _ _) (ao_nodes _ _ _ _ _ _ I) cur (list_elem_of_lookup_2 _ _ _ Hcur)) as [Hcap Hoff _ _].
    unfold PTRDIFF_MAX in *. lia.
Qed.

Lemma arena_sim_realloc st a p c old new al : arena_rep st a -> request_ok new al -> new <> 0 -> ab_held a !! p = Some c -> 0 <= old <= zlen c ->
  wp (step st (ARealloc (Some p) old new al)) (after_op a (ARealloc (Some p) old new al)).
Proof.
  intros R Hok Hnew Hp Hold. destruct st as [[s m] w]. cbn [arena_step]. unfold arena_realloc_fn. destruct (Z.eqb_spec new 0); [done|].
  wstep. wstep. apply (wp_arena_malloc (s, m, w) a new al); [done|done| |].
  - intros [[s' m'] w'] R' Hno. wstep. wstep. exists a. split; [by eapply as_realloc; [..|by apply ag_refused]|done].
  - intros s' m' w' q c' total room Hg. pose proof Hg as (H1 & H2 & H3 & H4 & H5 & H6 & H7 & H8 & R' & Hread).
    cbv beta iota. replace (if old <? new then old else new) with (Z.min old new) by (destruct (Z.ltb_spec old new); lia).
    wstep. unfold memcpy. pose proof (H5 p c Hp) as Hap. set (k := Z.min old new) in *. assert (0 <= k <= zlen c /\ k <= zlen c') as Hk by lia.
    assert (bool_decide (q.1 = p.1) && (q.2 <? p.2 + k) && (p.2 <? q.2 + k) = false) as ->.
    { case_bool_decide as E; [|done]. pose proof (Hap (eq_sym E)). destruct (Z.ltb_spec q.2 (p.2 + k)), (Z.ltb_spec p.2 (q.2 + k)); simpl; lia || done. }
    pose proof (Hread p c 0 k Hp ltac:(lia) ltac:(lia) ltac:(lia)) as Er. rewrite Z.add_0_r, <- surjective_pairing in Er. change (0 + k) with k in Er. rewrite Er. wstep. wstep.
    assert (zlen (slice c 0 k) = k) as El by (rewrite zlen_slice; lia).
    eapply rep_init; [exact R'|lia|]. intros m2 R2. wstep. wstep. eexists. split; [|exact R2].
    eapply as_realloc; [done|exact Hp|]. assert (zlen (splice c' 0 (slice c 0 k)) = new) as Els by (rewrite zlen_splice; lia).
    apply ag_granted; [done|done| |done..]. intros i Hi. rewrite zlook_splice, El, zlook_slice by lia.
    destruct (Z.leb_spec 0 i), (Z.ltb_spec i (0 + k)), (Z.leb_spec 0 (i - 0)), (Z.ltb_spec (i - 0) (k - 0)); try lia. simpl. f_equal. lia.
Qed.

(** Resetting: the buffers stay, and nothing else. *)
Lemma wp_reset_nodes nodes m (Q : list arena_node_t * buffers -> Prop) :
  Forall (node_ok m) nodes ->
  (forall nodes' m', Forall (node_ok m') nodes' -> an_buffer <$> nodes' = an_buffer <$> nodes -> an_capacity <$> nodes' = an_capacity <$> nodes ->
     Forall (fun nd => an_offset nd = 0 /\ an_bytes_used nd = 0) nodes' ->
     (forall name al b, m !! name = Some (Buffer al b) -> exists b', m' !! name = Some (Buffer al b') /\ zlen b' = zlen b) ->
     (forall name, is_Some (m' !! name) -> is_Some (m !! name)) -> Q (nodes', m')) ->
  wp (reset_nodes debug nodes m) Q.
Proof.
  revert m Q. induction nodes as [|cur nodes IH]; intros m Q N HQ; cbn [reset_nodes].
  - wstep. apply HQ; try done. intros name al b E. by exists b.
  - apply Forall_cons in N as [Nc N]. pose proof Nc as [Hcap Hoff Hused (al & cells & Em & Hlen)].
    assert (forall (m1 : buffers), (forall name al b, m !! name = Some (Buffer al b) -> exists b', m1 !! name = Some (Buffer al b') /\ zlen b' = zlen b) ->
      (forall name, is_Some (m1 !! name) -> is_Some (m !! name)) ->
      wp ('(nodes, m) ← reset_nodes debug nodes m1; mret (ANode (an_buffer cur) 0 (an_capacity cur) 0 :: nodes, m)) Q) as Hrest.
    { intros m1 Hm1 Hd1. wstep. apply IH.
      - eapply Forall_impl; [exact N|]. intros nd [H1 H2 H3 (al' & b & E & Hb)]. split; try done.
        destruct (Hm1 _ _ _ E) as (b' & E' & Hb'). exists al', b'. split; [done|lia].
      - intros nodes' m' N' E1 E2 Z Hm' Hd'. wstep. apply HQ.
        + constructor; [|done]. split; cbn; try lia. destruct (Hm1 _ _ _ Em) as (b1 & E1' & Hb1). destruct (Hm' _ _ _ E1') as (b2 & E2' & Hb2).
          exists al, b2. split; [done|lia].
        + by rewrite !fmap_cons, E1.
        + by rewrite !fmap_cons, E2.
        + by constructor.
        + intros name al' b E. destruct (Hm1 _ _ _ E) as (b1 & E1' & Hb1). destruct (Hm' _ _ _ E1') as (b2 & E2' & Hb2). exists b2. split; [done|lia].
        + intros name Hn. by apply Hd1, Hd'. }
    wstep. destruct debug; [|wstep; apply Hrest; [intros name al' b E; by exists b|done]].
    unfold memset, write_bytes. cbn [fst snd]. rewrite Em. unfold in_object. rewrite zlen_replicate.
    destruct (Z.leb_spec 0 0), (Z.leb_spec 0 (Z.of_nat (Z.to_nat (an_offset cur)))), (Z.leb_spec (0 + Z.of_nat (Z.to_nat (an_offset cur))) (zlen cells)); try lia. cbn [andb]. wstep.
    apply Hrest.
    + intros name al' b E. rewrite lookup_insert. case_decide as Hn; [subst name|by exists b]. rewrite Em in E. injection E as <- <-.
      eexists. split; [done|]. apply zlen_splice; [lia|]. rewrite zlen_replicate. lia.
    + intros name. rewrite lookup_insert. case_decide as Hn; [subst name|done]. intros _. by rewrite Em.
Qed.

Lemma total_fmap (f : arena_node_t -> Z) (nodes nodes' : list arena_node_t) : f <$> nodes = f <$> nodes' -> total_of f nodes = total_of f nodes'.
Proof.
  revert nodes'. induction nodes as [|nd nodes IH]; intros [|nd' nodes'] E; try done. rewrite !fmap_cons in E. injection E as E1 E2. simpl. rewrite E1. f_equal. by apply IH.
Qed.

Lemma sim_reset st a : arena_rep st a -> wp (step st AReset) (after_op a AReset).
Proof.
  intros (s & m & w & -> & I & Hw). cbn [arena_step]. unfold scl_alloc_arena_reset. wstep. wstep.
  apply wp_reset_nodes; [apply I|]. intros nodes' m' N E1 E2 Z Hm Hd. wstep. wstep.
  eexists. split; [apply as_reset|]. eexists _, m', w. split; [done|].
  assert (length nodes' = length (ar_nodes s)) as Elen by (pose proof (f_equal length E1) as H; by rewrite !length_fmap in H).
  split; [|simpl; unfold zlen in *; lia]. destruct I as [I1 I2 I3 I4 I5 I6 I7 I8 I9 I10 I11 I12].
  destruct I6 as (hd & tl & Enodes & Ecap). destruct nodes' as [|hd' tl']; [by rewrite Enodes in Elen|].
  assert (an_capacity hd' = cap0) as Ecap' by (rewrite Enodes, !fmap_cons in E2; injection E2 as E2 _; congruence).
  split; cbn [ar_nodes ar_current ar_max_capacity ar_total_allocated ab_held ab_used ab_total ab_room]; try done.
  - by rewrite E1.
  - intros name Hn. rewrite E1. by apply I3, Hd.
  - intros nd Hnd. apply (list_elem_of_fmap_2 an_buffer) in Hnd. rewrite E1 in Hnd. apply list_elem_of_fmap in Hnd as (nd' & -> & Hnd'). by apply I4.
  - exists hd'. split; [done|]. apply Forall_cons in Z as [[-> _] _]. lia.
  - by exists hd', tl'.
  - split; [apply I8|]. rewrite (proj2 I8). by apply total_fmap.
  - clear -Z. induction Z as [|nd nodes [_ E] _ IH]; simpl; lia.
Qed.

Definition stats_of (acc : Z * Z * Z) (nodes : list arena_node_t) : Z * Z * Z :=
  fold_left (fun '(used, wasted, count) cur =>
    (u64 (used + an_bytes_used cur), u64 (wasted + u64 (an_capacity cur - an_bytes_used cur)), u64 (count + 1))) nodes acc.

Lemma stats_total nodes u v c : stats_of (u64 u, u64 v, u64 c) nodes =
  (u64 (u + total_of an_bytes_used nodes), u64 (v + (total_of an_capacity nodes - total_of an_bytes_used nodes)), u64 (c + zlen nodes)).
Proof.
  revert u v c. induction nodes as [|nd nodes IH]; intros u v c.
  - unfold stats_of. cbn [fold_left total_of]. change (zlen (@nil arena_node_t)) with 0. by rewrite Z.sub_diag, !Z.add_0_r.
  - unfold stats_of in *. cbn [fold_left]. rewrite zlen_cons. simpl total_of.
    assert (forall x y, u64 (u64 x + y) = u64 (x + y)) as El by (intros x y; unfold u64; by rewrite Z.add_mod_idemp_l by lia).
    assert (forall x y, u64 (x + u64 y) = u64 (x + y)) as Er by (intros x y; unfold u64; by rewrite Z.add_mod_idemp_r by lia).
    rewrite !El, Er, IH. f_equal; [f_equal|]; f_equal; lia.
Qed.

Lemma arena_simulates st a op : arena_rep st a -> arena_allowed a op -> wp (step st op) (after_op a op).
Proof.
  intros R Hok. destruct op as [size al|count size al|p old new al|p| |out|p off v|p off].
  - destruct st as [[s m] w]. apply (arena_sim_malloc (s, m, w)); [done|done|]. intros p a' H. by apply as_malloc.
  - by apply arena_sim_calloc.
  - destruct Hok as [Hok Hp]. destruct p as [p|].
    + destruct Hp as (c & Hp & Hold). destruct (Z.eq_dec new 0) as [->|Hnew]; [|by eapply arena_sim_realloc].
      destruct st as [[s m] w]. cbn [arena_step]. unfold arena_realloc_fn. cbn [Z.eqb]. wstep. wstep. wstep. exists a. split; [apply as_realloc_zero|done].
    + destruct st as [[s m] w]. apply (arena_sim_malloc (s, m, w)); [done|done|]. intros p a' H. by apply as_realloc_null.
  - destruct st as [[s m] w]. cbn [arena_step]. wstep. exists a. split; [apply as_free|done].
  - by apply sim_reset.
  - destruct R as (s & m & w & -> & I & Hw). cbn [arena_step]. wstep. exists a. split; [|by exists s, m, w].
    destruct out; [|apply as_stats_null]. unfold scl_alloc_arena_stats. pose proof (stats_total (ar_nodes s) 0 0 0) as E. unfold stats_of in E.
    change (u64 0) with 0 in E. rewrite E.
    destruct (ao_head _ _ _ _ _ _ I) as (hd & tl & En & _).
    pose proof (as_stats cap0 max a (zlen (ar_nodes s))) as H. rewrite (ao_used _ _ _ _ _ _ I), (proj2 (ao_total _ _ _ _ _ _ I)) in H. rewrite !Z.add_0_l in *.
    apply H. rewrite En, zlen_cons. pose proof (zlen_nonneg tl). lia.
  - destruct Hok as (c & Hp & Ho). destruct R as (s & m & w & -> & I & Hw). cbn [arena_step]. wstep.
    eapply (rep_write s m w a p c off [Some v]); [by exists s, m, w|done|lia|change (zlen [Some v]) with 1; lia|]. intros m' R'. wstep.
    rewrite splice_one in R' by done. eexists. split; [by apply (as_write _ _ _ _ c)|exact R'].
  - destruct Hok as (c & Hp & Ho). destruct R as (s & m & w & -> & I & Hw). cbn [arena_step].
    rewrite (read_held cap0 max s m (w_reqs w) a p c off 1) by (done || lia). destruct (zlook_lt c off Ho) as [x Hx].
    assert (zlook (slice c off (off + 1)) 0 = Some x) as E0.
    { rewrite zlook_slice by lia. destruct (Z.ltb_spec 0 (off + 1 - off)); [|lia]. simpl. by rewrite Z.add_0_r. }
    wstep. wstep. wstep. unfold get. rewrite E0. wstep. wstep. exists a. split; [by apply (as_read _ _ _ _ c)|by exists s, m, w].
Qed.

(** ** Creation and destruction *)
Lemma arena_create_spec m w alignment : (forall name, is_Some (m !! name) -> False) -> w_live w = live0 ->
  match scl_alloc_arena_create (Some backing) m w cap0 max alignment with
  | (Some s, m', w') => arena_rep (Some s, m', w') (Abs ∅ 0 cap0 cap0)
  | (None, m', w') => m' = m /\ w_live w' = w_live w
  end.
Proof.
  intros Hm Hl. unfold scl_alloc_arena_create. destruct (Z.eqb_spec cap0 0); [lia|]. fold (effective alignment).
  destruct (scl_is_pow2_sz (effective alignment)); cbn [negb]; [|done].
  destruct (scl_alloc backing w _ _ 1) as [st w1] eqn:E1. apply alloc_object in E1 as [L1 R1].
  destruct st as [st|]; [|split; [done|lia]]. destruct L1 as (_ & _ & L1).
  destruct (arena_node_create backing m w1 cap0 (effective alignment)) as [[hd m'] w2] eqn:E2. apply node_create in E2.
  destruct hd as [hd|]; [|destruct E2 as (-> & L2 & _); split; [done|simpl; lia]]. destruct E2 as (cells & Hz & Hcap & -> & -> & R2 & L2).
  destruct (scl_alloc backing w2 _ _ 1) as [al w3] eqn:E3. apply alloc_object in E3 as [L3 R3]. cbn [an_buffer].
  destruct al as [al|].
  - destruct L3 as (_ & _ & L3). eexists _, _, w3. split; [done|]. split; [|simpl; change (zlen [_]) with 1; lia].
    split; cbn [ar_nodes ar_current ar_max_capacity ar_total_allocated ab_held ab_used ab_total ab_room]; try done.
    + constructor; [|done]. split; cbn; try lia. exists (effective alignment), cells. by rewrite lookup_insert_eq.
    + apply NoDup_singleton.
    + intros name Hn. rewrite lookup_insert in Hn. case_decide as E; [subst name; by left|]. by destruct (Hm name).
    + intros nd ->%list_elem_of_singleton. simpl. lia.
    + eexists. split; [done|]. simpl. lia.
    + by eexists _, [].
    + split; [f_equal; lia|simpl; lia].
    + intros _. lia.
  - split; [|rewrite lookup_insert_eq; simpl; lia]. apply map_eq. intros name. rewrite lookup_delete, lookup_insert.
    case_decide as E; [subst name|done]. destruct (m !! S (w_reqs w1)) eqn:E; [|done]. destruct (Hm (S (w_reqs w1))). by rewrite E.
Qed.

Lemma wp_destroy_nodes nodes m w (Q : buffers * world -> Prop) :
  Forall (node_ok m) nodes -> NoDup (an_buffer <$> nodes) ->
  (forall m' w', (forall name, is_Some (m' !! name) -> is_Some (m !! name) /\ name ∉ an_buffer <$> nodes) ->
     w_live w' = w_live w - 2 * zlen nodes -> Q (m', w')) ->
  wp (destroy_nodes debug nodes m w) Q.
Proof.
  revert m w. induction nodes as [|cur nodes IH]; intros m w N Hnd HQ; cbn [destroy_nodes].
  - wstep. apply HQ; [|change (zlen []) with 0; lia]. intros name Hn. split; [done|]. by intros ?%elem_of_nil.
  - rewrite fmap_cons in Hnd. apply Forall_cons in N as [[Hcap Hoff Hused (al & cells & Em & Hlen)] N]. apply NoDup_cons in Hnd as [Hnew Hnd].
    assert (forall b m1, m1 = <[an_buffer cur := Buffer al b]> m -> wp (match m1 !! an_buffer cur with
        | None => UB
        | Some b => destroy_nodes debug nodes (delete (an_buffer cur) m1) (scl_free (scl_free w (Some (bf_cells b))) (Some [None : option Z]))
        end) Q) as Hrest.
    { intros b m1 ->. rewrite lookup_insert_eq, delete_insert_eq. apply IH; [|done|].
      - apply Forall_forall. intros nd Hin. pose proof (proj1 (Forall_forall _ _) N nd Hin) as [H1 H2 H3 H4]. split; try done.
        rewrite lookup_delete_ne; [done|]. intros E. apply Hnew. rewrite E. by apply list_elem_of_fmap_2.
      - intros m' w' Hm' Hw'. apply HQ; [|simpl in Hw'; rewrite zlen_cons; lia]. intros name Hn. apply Hm' in Hn as [Hn Hnot].
        apply lookup_delete_is_Some in Hn as [Hne Hn]. split; [done|]. rewrite fmap_cons. by intros [->|]%elem_of_cons. }
    wstep. destruct debug.
    + unfold memset, write_bytes. cbn [fst snd]. rewrite Em. unfold in_object. rewrite zlen_replicate.
      destruct (Z.leb_spec 0 0), (Z.leb_spec 0 (Z.of_nat (Z.to_nat (an_capacity cur)))), (Z.leb_spec (0 + Z.of_nat (Z.to_nat (an_capacity cur))) (zlen cells)); try lia. cbn [andb]. wstep.
      by eapply Hrest.
    + wstep. apply (Hrest cells). by rewrite insert_id.
Qed.

Lemma destroy_spec st a : arena_rep st a -> wp (scl_alloc_arena_destroy debug st.1.1 st.1.2 st.2) (fun '(m, w) =>
  (forall name, is_Some (m !! name) -> False) /\ w_live w = live0).
Proof.
  intros (s & m & w & -> & I & Hw). unfold scl_alloc_arena_destroy. cbn [fst snd]. wstep. apply wp_destroy_nodes; [apply I|apply I|].
  intros m' w' Hm' Hw'. wstep. split; [|simpl; lia]. intros name [Hn Hnot]%Hm'. by apply Hnot, (ao_dom _ _ _ _ _ _ I).
Qed.
End Operations.

(** C23. The arena over any backing allocator hands out blocks as a growing set of
    them.  Creation allocates all its objects or keeps none.  Every sequence of
    requests, resets, statistics, and reads and writes inside blocks then goes
    through without stray access: granted blocks are aligned in their buffer and
    apart from all the blocks handed out since the last reset, whose contents
    only their holders change; [calloc] clears and [realloc] copies; a request
    is refused only when it does not fit the current buffer, so a fresh arena
    serves its whole capacity; the buffers stay within the limit; a reset makes
    room for the first buffer again; the statistics are exact.  Destroying the
    arena returns everything. *)
Theorem arena_refines (b : scl_allocator_t) `{!AllocatorOk b} (w : world) (cap0 max alignment : Z) (fuel : nat) (debug : bool) (ops : list arena_op)
  (Hfuel : (64 <= fuel)%nat) (Hmax : max <= 2 ^ 63) (Hcap : 1 <= cap0 <= PTRDIFF_MAX)
  (Hops : permitted (arena_spec cap0 max) arena_allowed (Abs ∅ 0 cap0 cap0) ops) :
  match scl_alloc_arena_create (Some b) ∅ w cap0 max alignment with
  | (None, m, w1) => m = ∅ /\ w_live w1 = w_live w
  | (Some s, m, w1) => exists outs s2 m2 w2 a w3,
      run (arena_step b fuel debug) (Some s, m, w1) ops = Ok (outs, (s2, m2, w2)) /\
      trace (arena_spec cap0 max) (Abs ∅ 0 cap0 cap0) ops outs a /\
      scl_alloc_arena_destroy debug s2 m2 w2 = Ok (∅, w3) /\ w_live w3 = w_live w
  end.
Proof.
  assert (forall name, is_Some ((∅ : buffers) !! name) -> False) as Hempty by (intros name; rewrite lookup_empty; by intros []).
  pose proof (arena_create_spec cap0 max b fuel (w_live w) Hfuel Hcap ∅ w alignment Hempty eq_refl) as Hc.
  destruct (scl_alloc_arena_create (Some b) ∅ w cap0 max alignment) as [[[s|] m] w1]; [|done].
  destruct (proj1 (wp_ok _ _) (run_refines_on (arena_step b fuel debug) _ _ (arena_rep cap0 max (w_live w)) _ _ ops
    (arena_simulates cap0 max b fuel debug (w_live w) Hfuel Hmax Hcap) Hc Hops)) as ([outs [[s2 m2] w2]] & E & a & T & R).
  destruct (proj1 (wp_ok _ _) (destroy_spec cap0 max fuel debug (w_live w) Hfuel _ _ R)) as ([m3 w3] & E3 & Hm3 & Hw3).
  exists outs, s2, m2, w2, a, w3. split; [exact E|]. split; [exact T|]. split; [|exact Hw3]. cbn [fst snd] in E3. rewrite E3. do 2 f_equal.
  apply map_eq. intros name. rewrite lookup_empty. destruct (m3 !! name) eqn:En; [|done]. destruct (Hm3 name). by rewrite En.
Qed.

Lemma arena_refines_witness :
  exists outs a, trace (arena_spec 64 0) (Abs ∅ 0 64 64) [AMalloc 10 8; ACalloc 2 5 0; AMalloc 100 16; AStats true; AReset; AMalloc 64 1] outs a.
Proof.
  pose proof (arena_refines small_allocator (World 0 0) 64 0 16 64 true
    [AMalloc 10 8; ACalloc 2 5 0; AMalloc 100 16; AStats true; AReset; AMalloc 64 1] ltac:(lia) ltac:(lia) ltac:(by vm_compute)) as H.
  assert (align_ok 8 /\ align_ok 0 /\ align_ok 16 /\ align_ok 1) as (H8 & H0 & H16 & H1).
  { unfold align_ok. split; [right; by exists 3|]. split; [by left|]. split; [right; by exists 4|]. right. by exists 0. }
  destruct (scl_alloc_arena_create (Some small_allocator) ∅ (World 0 0) 64 0 16) as [[[s|] m] w1] eqn:E; [|exfalso; vm_compute in E; discriminate E].
  destruct H as (outs & _ & _ & _ & a & _ & _ & T & _); [|by exists outs, a].
  intros [|? [|? [|? [|? [|? [|? [|? ?]]]]]]] o ops2 outs a' [=]; simplify_eq; intros _; simpl; unfold request_ok, is_u64, effective; simpl; split_and?; try done; try lia.
  left. split_and!; (done || lia).
Defined.

(** ** What the arena gets wrong *)
Definition arena_64 (w : world) : option arena_state_t * buffers * world := scl_alloc_arena_create (Some small_allocator) ∅ w 64 192 16.

(** [size + alignment] wraps: a request of almost the whole address space is
    granted a buffer of 128 bytes. *)
Lemma arena_size_wraps :
  let '(s, m, w) := arena_64 (World 0 0) in
  match arena_malloc_fn small_allocator 64 s m w (2 ^ 64 - 8) 16 with
  | Ok (Some p, Some s, m, _) => p = (5%nat, 0) /\ option_map (fun b => zlen (bf_cells b)) (m !! 5%nat) = Some 128 /\
      an_offset <$> ar_nodes s = [0; 2 ^ 64 - 8]
  | _ => False
  end.
Proof. vm_compute. done. Qed.

(** [new_cap] doubles to 0 and stays there. *)
Lemma arena_growth_hangs fuel :
  let '(s, m, w) := arena_64 (World 0 0) in arena_malloc_fn small_allocator fuel s m w (2 ^ 63 + 1) 16 = Fuel.
Proof.
  assert (forall c, (exists j, 0 <= j <= 64 /\ c = u64 (2 ^ j)) -> grow_capacity fuel c (2 ^ 63 + 17) = Fuel) as H.
  { intros c Hc. apply (loop_diverges (fun c => exists j, 0 <= j <= 64 /\ c = u64 (2 ^ j))); [|exact Hc].
    intros c' (j & Hj & ->). destruct (Z.eq_dec j 64) as [->|Hne].
    - exists 0. split; [done|]. by exists 64.
    - assert (0 < 2 ^ j <= 2 ^ 63) as Hle by (split; [apply Z.pow_pos_nonneg; lia|apply Z.pow_le_mono_r; lia]). rewrite u64_small by lia. destruct (Z.ltb_spec (2 ^ j) (2 ^ 63 + 17)); [|lia].
      eexists. split; [done|]. exists (j + 1). split; [lia|]. rewrite Z.pow_add_r by lia. done. }
  assert (grow_capacity fuel 128 (2 ^ 63 + 17) = Fuel) as Hg by (apply H; by exists 7).
  destruct (arena_64 (World 0 0)) as [[s m] w] eqn:E. assert (s = Some (Arena [ANode 2 0 64 0] 0 192 64)) as -> by (vm_compute in E; by injection E).
  unfold arena_malloc_fn. cbn [ar_nodes ar_current lookup list_lookup an_offset an_capacity ar_max_capacity ar_total_allocated].
  destruct (2 ^ 63 + 1 =? 0) eqn:E0; [by vm_compute in E0|].
  destruct ((_ >? 64) || _) eqn:E1; [|by vm_compute in E1]. change (u64 (64 * 2)) with 128. change (u64 (2 ^ 63 + 1 + _)) with (2 ^ 63 + 17).
  by rewrite Hg.
Qed.

(** After a reset the second buffer is never used again, so the same requests
    run into the limit. *)
Lemma arena_reset_forgets :
  let '(s, m, w) := arena_64 (World 0 0) in
  match run (arena_step small_allocator 64 false) (s, m, w) [AMalloc 60 1; AMalloc 100 1; AReset; AMalloc 60 1; AMalloc 100 1] with
  | Ok (outs, _) => outs = [Pointer (Some (2%nat, 0)); Pointer (Some (5%nat, 0)); Done; Pointer (Some (2%nat, 0)); Pointer None]
  | _ => False
  end.
Proof. vm_compute. done. Qed.

(** Only offsets are aligned: a buffer obtained for a request of alignment 1
    then serves one of alignment 16. *)
Lemma arena_misaligns :
  let '(s, m, w) := arena_64 (World 0 0) in
  match run (arena_step small_allocator 64 false) (s, m, w) [AMalloc 64 1; AMalloc 1 1; AMalloc 16 16] with
  | Ok (outs, (_, m, _)) => outs = [Pointer (Some (2%nat, 0)); Pointer (Some (5%nat, 0)); Pointer (Some (5%nat, 16))] /\
      bf_align <$> m !! 5%nat = Some 1
  | _ => False
  end.
Proof. vm_compute. done. Qed.
