(* ===== verification/Buddy.v ===== *)
(** The buddy allocator of [libs/allocator/buddy/scl_alloc_buddy.c]: blocks of
    powers of two in a pool, each with a header that holds its order and its
    link in the list of free blocks of that order.  Addresses are numbers, 0
    is [NULL], and the pool is modelled byte by byte. *)

From S2P Require Import Prelude Core Refine Bytes.
#[local] Open Scope Z_scope.

Definition BUDDY_MAX_ORDER : Z := 20.
Definition BUDDY_HDR_SZ : Z := 16.
Definition BUDDY_MIN_BLOCK : Z := Z.shiftl 1 4.

(** [bd_memory] are the bytes of the pool at address [bd_pool]; a free list is
    the address of its first block. *)
Record buddy_state_t : Type := Buddy {
  bd_pool : Z;
  bd_memory : block Z;
  bd_pool_size : Z;
  bd_pool_alignment : Z;
  bd_max_order : Z;
  bd_free_lists : list Z
}.

Definition with_lists (s : buddy_state_t) (memory : block Z) (lists : list Z) : buddy_state_t :=
  Buddy (bd_pool s) memory (bd_pool_size s) (bd_pool_alignment s) (bd_max_order s) lists.

(** An [unsigned int] at an address, least significant byte first. *)
Definition load_uint (base : Z) (b : block Z) (a : Z) : res Z :=
  if a mod 4 =? 0 then zfor 0 4 (fun k v => c ← get_cell b (a - base + k); mret (v + Z.shiftl c (8 * k))) 0 else UB.
Definition store_uint (base : Z) (b : block Z) (a v : Z) : res (block Z) :=
  if a mod 4 =? 0 then zfor 0 4 (fun k b => set b (a - base + k) (Some (Z.shiftr v (8 * k) mod 256))) b else UB.

(** The two fields of a [scl_buddy_node_t]. *)
Definition next_of (pool : Z) (m : block Z) (a : Z) : res Z := load_ptr pool m a.
Definition order_of (pool : Z) (m : block Z) (a : Z) : res Z := load_uint pool m (a + 8).
Definition set_node (pool : Z) (m : block Z) (a next order : Z) : res (block Z) :=
  m ← store_ptr pool m a next; store_uint pool m (a + 8) order.

Section Buddy.
Context (fuel : nat).

(** [while (s < size) { s <<= 1; order++; }] *)
Definition buddy_order_for_size (size : Z) : res Z :=
  loop fuel (fun '(s, order) => if s <? size then mret (inl (u64 (Z.shiftl s 1), u32 (order + 1))) else mret (inr order)) (1, 0).

(** The first order from [current] on with a free block. *)
Definition first_order (lists : list Z) (max_order current : Z) : res Z :=
  loop (S (S (Z.to_nat max_order)))
    (fun current =>
       if current <=? max_order then
         l ← get lists current;
         if l =? 0 then mret (inl (u32 (current + 1))) else mret (inr current)
       else mret (inr current)) current.

(** Halving the block found down to the order asked for. *)
Definition split_blocks (pool order : Z) (memory : block Z) (lists : list Z) (current : Z) : res (block Z * list Z) :=
  loop (S (Z.to_nat current))
    (fun '(memory, lists, current) =>
       if current >? order then
         let current := current - 1 in
         block ← get lists (current + 1);
         next ← next_of pool memory block;
         lists ← set lists (current + 1) next;
         let block2 := block + Z.shiftl 1 current in
         l ← get lists current;
         memory ← set_node pool memory block l current;
         memory ← set_node pool memory block2 0 current;
         lists ← set lists current block2;
         mret (inl (memory, lists, current))
       else mret (inr (memory, lists))) (memory, lists, current).

Definition buddy_malloc_fn (state : option buddy_state_t) (size alignment : Z) : res (Z * option buddy_state_t) :=
  match state with
  | None => mret (0, None)
  | Some b =>
      if size =? 0 then mret (0, state)
      else if alignment >? bd_pool_alignment b then mret (0, state)
      else
        let actual := u64 (size + BUDDY_HDR_SZ) in
        order ← buddy_order_for_size actual;
        if order >? bd_max_order b then mret (0, state)
        else
          let order := if order <? 4 then 4 else order in
          current ← first_order (bd_free_lists b) (bd_max_order b) order;
          if current >? bd_max_order b then mret (0, state)
          else
            '(memory, lists) ← split_blocks (bd_pool b) order (bd_memory b) (bd_free_lists b) current;
            node ← get lists order;
            next ← next_of (bd_pool b) memory node;
            lists ← set lists order next;
            memory ← set_node (bd_pool b) memory node 0 order;
            mret (node + BUDDY_HDR_SZ, Some (with_lists b memory lists))
  end.

(** The search of a free list for the buddy: its predecessor and itself. *)
Definition find_buddy (pool : Z) (memory : block Z) (size buddy order head : Z) : res (option Z) :=
  loop (S (Z.to_nat size))
    (fun '(prev, cur) =>
       if negb (cur =? 0) then
         here ← (if cur =? buddy then o ← order_of pool memory cur; mret (o =? order) else mret false);
         if here : bool then mret (inr (Some prev))
         else next ← next_of pool memory cur; mret (inl (cur, next))
       else mret (inr None)) (0, head).

(** Merging upwards while the buddy is free. *)
Definition merge_blocks (b : buddy_state_t) (memory : block Z) (blk order : Z) : res (block Z * list Z * Z * Z) :=
  loop (S (Z.to_nat (bd_max_order b)))
    (fun '(memory, lists, blk, order, o) =>
       if o <? bd_max_order b then
         let block_sz := Z.shiftl 1 o in
         let idx := (blk - bd_pool b) / block_sz in
         let buddy_block := bd_pool b + Z.lxor idx 1 * block_sz in
         head ← get lists o;
         found ← find_buddy (bd_pool b) memory (bd_pool_size b) buddy_block o head;
         match found with
         | None => mret (inr (memory, lists, blk, order))
         | Some prev =>
             next ← next_of (bd_pool b) memory buddy_block;
             '(memory, lists) ← (if negb (prev =? 0) then
                                   memory ← store_ptr (bd_pool b) memory prev next; mret (memory, lists)
                                 else lists ← set lists o next; mret (memory, lists));
             let blk := if blk >? buddy_block then buddy_block else blk in
             mret (inl (memory, lists, blk, o + 1, o + 1))
         end
       else mret (inr (memory, lists, blk, order)))
    (memory, bd_free_lists b, blk, order, order).

Definition buddy_free_fn (state : option buddy_state_t) (ptr : Z) : res (option buddy_state_t) :=
  match state with
  | None => mret None
  | Some b =>
      if ptr =? 0 then mret state
      else
        let node := ptr - BUDDY_HDR_SZ in
        order ← order_of (bd_pool b) (bd_memory b) node;
        memory ← fill_cells (bd_memory b) (node - bd_pool b) (Z.shiftl 1 order) 0;
        '(memory, lists, block, order) ← merge_blocks b memory node order;
        l ← get lists order;
        memory ← set_node (bd_pool b) memory block l order;
        lists ← set lists order block;
        mret (Some (with_lists b memory lists))
  end.

Definition buddy_calloc_fn (state : option buddy_state_t) (count size alignment : Z) : res (Z * option buddy_state_t) :=
  match scl_mul_overflow count size with
  | None => mret (0, state)
  | Some total =>
      '(ptr, state) ← buddy_malloc_fn state total alignment;
      match state with
      | Some b =>
          if ptr =? 0 then mret (ptr, Some b)
          else
            memory ← fill_cells (bd_memory b) (ptr - bd_pool b) total 0;
            mret (ptr, Some (with_lists b memory (bd_free_lists b)))
      | None => mret (ptr, None)
      end
  end.

Definition buddy_realloc_fn (state : option buddy_state_t) (ptr old_size new_size alignment : Z) : res (Z * option buddy_state_t) :=
  if ptr =? 0 then buddy_malloc_fn state new_size alignment
  else if new_size =? 0 then state ← buddy_free_fn state ptr; mret (0, state)
  else
    '(new_ptr, state) ← buddy_malloc_fn state new_size alignment;
    match state with
    | Some b =>
        if new_ptr =? 0 then mret (new_ptr, Some b)
        else
          let copy := if old_size <? new_size then old_size else new_size in
          memory ← copy_cells (bd_memory b) (new_ptr - bd_pool b) (ptr - bd_pool b) copy;
          state ← buddy_free_fn (Some (with_lists b memory (bd_free_lists b))) ptr;
          mret (new_ptr, state)
    | None => mret (new_ptr, None)
    end.
End Buddy.

(** [chunk] is the address the backing allocator gives to the pool. *)
Definition scl_alloc_buddy_create (backing : option scl_allocator_t) (w : world) (chunk total_size alignment : Z)
    : res (option buddy_state_t * world) :=
  match backing with
  | None => mret (None, w)
  | Some b =>
      if total_size =? 0 then mret (None, w)
      else
        let alignment := if alignment =? 0 then MAX_ALIGN else alignment in
        if negb (scl_is_pow2_sz alignment) then mret (None, w)
        else
          let pool_sz := scl_bit_ceil_sz total_size in
          let pool_sz := if pool_sz <? BUDDY_MIN_BLOCK then BUDDY_MIN_BLOCK else pool_sz in
          let max_order := scl_log2_sz pool_sz in
          if max_order >? BUDDY_MAX_ORDER then mret (None, w)
          else
            let '(state, w) := scl_alloc (A := Z) b w 208 MAX_ALIGN 1 in
            match state with
            | None => mret (None, w)
            | Some _ =>
                let '(pool, w) := scl_alloc (A := Z) b w pool_sz alignment 1 in
                match pool with
                | None => mret (None, scl_free w state)
                | Some memory =>
                    memory ← set_node chunk memory chunk 0 max_order;
                    lists ← set (replicate (Z.to_nat (BUDDY_MAX_ORDER + 1)) 0) max_order chunk;
                    let '(alloc, w) := scl_alloc (A := Z) b w 40 MAX_ALIGN 1 in
                    match alloc with
                    | None => mret (None, scl_free (scl_free w (Some memory)) state)
                    | Some _ => mret (Some (Buddy chunk memory pool_sz alignment max_order lists), w)
                    end
                end
            end
  end.

(** The pool is never [NULL]. *)
Definition scl_alloc_buddy_destroy (w : world) (alloc : option buddy_state_t) : world :=
  match alloc with
  | None => w
  | Some s => scl_free (scl_free (scl_free w (Some (bd_memory s))) (Some [None : option Z])) (Some [None : option Z])
  end.

(** ** Fields in memory *)
Definition uint_at (b : block Z) (off v : Z) : Prop :=
  forall k, 0 <= k < 4 -> zlook b (off + k) = Some (Some (Z.shiftr v (8 * k) mod 256)).

Lemma wp_store_uint base b a v (Q : block Z -> Prop) :
  a mod 4 = 0 -> base <= a -> a - base + 4 <= zlen b ->
  (forall b', zlen b' = zlen b -> uint_at b' (a - base) v ->
     (forall j, j < a - base \/ a - base + 4 <= j -> zlook b' j = zlook b j) -> Q b') ->
  wp (store_uint base b a v) Q.
Proof.
  intros Ha Hb Hl HQ. unfold store_uint. rewrite Ha. simpl.
  apply (wp_writes b (a - base) 4 (fun k => Some (Z.shiftr v (8 * k) mod 256))); [lia|lia|lia| |].
  - intros k b' P Hk El _ HP. apply wp_set; [lia|done].
  - intros b' El Eb. apply HQ; [done| |].
    + intros k Hk. rewrite Eb. destruct (Z.leb_spec (a - base) (a - base + k)), (Z.ltb_spec (a - base + k) (a - base + 4)); try lia.
      simpl. do 4 f_equal. lia.
    + intros j Hj. rewrite Eb. by destruct (Z.leb_spec (a - base) j), (Z.ltb_spec j (a - base + 4)); [lia|..].
Qed.

Lemma wp_load_uint base b a v (Q : Z -> Prop) :
  a mod 4 = 0 -> 0 <= v < 2 ^ 32 -> uint_at b (a - base) v -> Q v -> wp (load_uint base b a) Q.
Proof.
  intros Ha Hv Hw HQ. unfold load_uint. rewrite Ha. simpl.
  apply (wp_zfor (fun k x => x = v mod 2 ^ (8 * k))).
  - by rewrite Z.mod_1_r.
  - intros k x Hk ->. wstep. eapply wp_get_cell; [apply Hw; lia|]. wstep.
    rewrite Z.shiftl_mul_pow2, Z.shiftr_div_pow2 by lia. replace (8 * (k + 1)) with (8 * k + 8) by lia.
    rewrite Z.pow_add_r, Z.rem_mul_r by lia. change (2 ^ 8) with 256. lia.
  - intros x ->. change (8 * Z.max 0 4) with 32. by rewrite Z.mod_small.
Qed.

Lemma wp_set_node base b a next order (Q : block Z -> Prop) :
  a mod 8 = 0 -> base <= a -> a - base + 16 <= zlen b ->
  (forall b', zlen b' = zlen b -> word_at b' (a - base) next -> uint_at b' (a - base + 8) order ->
     (forall j, j < a - base \/ a - base + 16 <= j -> zlook b' j = zlook b j) -> Q b') ->
  wp (set_node base b a next order) Q.
Proof.
  intros Ha Hb Hl HQ. unfold set_node. wstep. apply wp_store_ptr; [done|lia|lia|]. intros b1 L1 W1 F1.
  apply wp_store_uint; [zdiv|lia|lia|]. intros b2 L2 W2 F2. apply HQ; [lia| | |].
  - eapply word_at_frame; [|exact W1]. intros j Hj. apply F2. lia.
  - by replace (a - base + 8) with (a + 8 - base) by lia.
  - intros j Hj. rewrite F2, F1 by lia. done.
Qed.

(** ** What a buddy allocator turns out to be

    Splitting a block keeps its upper half only, so there is never more than one
    block, at the end of the pool: free, or handed out with its contents. *)
Inductive buddy_abs : Type :=
| Idle (order : Z)
| Held (order : Z) (c : block Z).

Inductive buddy_op : Type :=
| BMalloc (size alignment : Z)
| BCalloc (count size alignment : Z)
| BRealloc (ptr old_size new_size alignment : Z)
| BFree (ptr : Z)
| BWrite (ptr off v : Z)
| BRead (ptr off : Z).

Inductive buddy_reply : Type :=
| Pointer (p : Z)
| Done
| Cell (c : option Z).

Definition buddy_step (fuel : nat) (st : option buddy_state_t) (op : buddy_op) : res (buddy_reply * option buddy_state_t) :=
  match op with
  | BMalloc size al => '(p, st) ← buddy_malloc_fn fuel st size al; mret (Pointer p, st)
  | BCalloc count size al => '(p, st) ← buddy_calloc_fn fuel st count size al; mret (Pointer p, st)
  | BRealloc p old new al => '(q, st) ← buddy_realloc_fn fuel st p old new al; mret (Pointer q, st)
  | BFree p => st ← buddy_free_fn st p; mret (Done, st)
  | BWrite p off v =>
      match st with
      | Some s => memory ← set (bd_memory s) (p - bd_pool s + off) (Some v); mret (Done, Some (with_lists s memory (bd_free_lists s)))
      | None => UB
      end
  | BRead p off =>
      match st with
      | Some s => c ← get (bd_memory s) (p - bd_pool s + off); mret (Cell c, st)
      | None => UB
      end
  end.

(** The order of the block a request needs. *)
Definition need (size : Z) : Z := Z.max 4 (Z.log2_up (size + BUDDY_HDR_SZ)).

Section Buddy.
Context (base K align : Z).

Definition start (o : Z) : Z := 2 ^ K - 2 ^ o.
Definition payload (o : Z) : Z := base + start o + BUDDY_HDR_SZ.

Inductive buddy_grant (a : buddy_abs) (size al : Z) (init : block Z -> Prop) : Z -> buddy_abs -> Prop :=
| bg_granted o c : a = Idle o -> 0 < size -> al <= align -> need size <= o -> zlen c = 2 ^ need size - BUDDY_HDR_SZ -> init c ->
    buddy_grant a size al init (payload (need size)) (Held (need size) c)
| bg_refused : size = 0 \/ align < al \/ (forall o, a = Idle o -> o < need size) -> buddy_grant a size al init 0 a.

Inductive buddy_spec : buddy_abs -> buddy_op -> buddy_reply -> buddy_abs -> Prop :=
| bs_malloc a size al p a' : buddy_grant a size al (fun _ => True) p a' -> buddy_spec a (BMalloc size al) (Pointer p) a'
| bs_calloc a count size al p a' :
    buddy_grant a (count * size) al (fun c => forall k, 0 <= k < count * size -> zlook c k = Some (Some 0)) p a' ->
    buddy_spec a (BCalloc count size al) (Pointer p) a'
| bs_realloc_null a old new al p a' : buddy_grant a new al (fun _ => True) p a' -> buddy_spec a (BRealloc 0 old new al) (Pointer p) a'
| bs_realloc_zero o c old al : buddy_spec (Held o c) (BRealloc (payload o) old 0 al) (Pointer 0) (Idle o)
| bs_realloc_refused o c old new al : new <> 0 -> buddy_spec (Held o c) (BRealloc (payload o) old new al) (Pointer 0) (Held o c)
| bs_free o c : buddy_spec (Held o c) (BFree (payload o)) Done (Idle o)
| bs_free_null a : buddy_spec a (BFree 0) Done a
| bs_write o c off v : buddy_spec (Held o c) (BWrite (payload o) off v) Done (Held o (zupd c off (Some v)))
| bs_read o c off x : zlook c off = Some x -> buddy_spec (Held o c) (BRead (payload o) off) (Cell x) (Held o c).

(** Sizes stay clear of the upper half of [size_t], and only the block handed
    out is used and freed. *)
Definition size_ok (size : Z) : Prop := 0 <= size /\ size + BUDDY_HDR_SZ <= 2 ^ 63.
Definition buddy_allowed (a : buddy_abs) (op : buddy_op) : Prop :=
  match op with
  | BMalloc size al => size_ok size
  | BCalloc count size al => is_u64 count /\ is_u64 size /\ (size_ok (count * size) \/ 2 ^ 64 <= count * size)
  | BRealloc p _ new _ => size_ok new /\ (p = 0 \/ exists o c, a = Held o c /\ p = payload o)
  | BFree p => p = 0 \/ exists o c, a = Held o c /\ p = payload o
  | BWrite p off _ | BRead p off => exists o c, a = Held o c /\ p = payload o /\ 0 <= off < zlen c
  end.

Context (base_pos : 0 < base) (base_aligned : base mod 8 = 0) (K_range : 4 <= K <= 20).

(** The free lists: [a] at order [o], nothing elsewhere. *)
Definition only (lists : list Z) (o a : Z) : Prop :=
  zlen lists = 21 /\ forall j, 0 <= j < 21 -> zlook lists j = Some (if j =? o then a else 0).

Record buddy_ok (s : buddy_state_t) (a : buddy_abs) : Prop := BuddyOk {
  bo_pool : bd_pool s = base;
  bo_size : bd_pool_size s = 2 ^ K;
  bo_align : bd_pool_alignment s = align;
  bo_max : bd_max_order s = K;
  bo_memory : zlen (bd_memory s) = 2 ^ K;
  bo_state : match a with
    | Idle o => 4 <= o <= K /\ only (bd_free_lists s) o (base + start o) /\ word_at (bd_memory s) (start o) 0
    | Held o c => 4 <= o <= K /\ only (bd_free_lists s) 0 0 /\ uint_at (bd_memory s) (start o + 8) o /\
        c = slice (bd_memory s) (start o + BUDDY_HDR_SZ) (2 ^ K)
    end
}.

Lemma start_facts o : 4 <= o <= K -> 0 <= start o /\ start o + 2 ^ o = 2 ^ K /\ 16 <= 2 ^ o <= 2 ^ 20 /\ start o mod 8 = 0.
Proof.
  intros Ho. assert (2 ^ 4 <= 2 ^ o) by (apply Z.pow_le_mono_r; lia). assert (2 ^ o <= 2 ^ K) by (apply Z.pow_le_mono_r; lia).
  assert (2 ^ o <= 2 ^ 20) by (apply Z.pow_le_mono_r; lia). unfold start. split; [lia|]. split; [lia|]. split; [lia|].
  replace K with (3 + (K - 3)) by lia. replace o with (3 + (o - 3)) by lia. rewrite !Z.pow_add_r by lia.
  replace (2 ^ 3 * 2 ^ (K - 3) - 2 ^ 3 * 2 ^ (o - 3)) with ((2 ^ (K - 3) - 2 ^ (o - 3)) * 8) by lia. apply Z_mod_mult.
Qed.

Lemma addr_mod o : 4 <= o <= K -> (base + start o) mod 8 = 0.
Proof. intros Ho. destruct (start_facts o Ho) as (_ & _ & _ & E). rewrite Zplus_mod, base_aligned, E. done. Qed.

Lemma start_half o : 5 <= o <= K -> start o + 2 ^ (o - 1) = start (o - 1).
Proof. intros Ho. unfold start. replace o with (o - 1 + 1) at 1 by lia. rewrite Z.pow_add_r by lia. lia. Qed.

Lemma only_get lists o a j (Q : Z -> Prop) : only lists o a -> 0 <= j < 21 -> Q (if j =? o then a else 0) -> wp (get lists j) Q.
Proof. intros [_ H] Hj HQ. unfold get. by rewrite H. Qed.

Lemma only_move lists o a j b (Q : list Z -> Prop) : only lists o a -> 0 <= j < 21 -> j = o \/ a = 0 ->
  (forall lists', only lists' j b -> Q lists') -> wp (set lists j b) Q.
Proof.
  intros [El H] Hj Hja HQ. apply wp_set; [lia|]. apply HQ. split; [by rewrite zlen_zupd|]. intros i Hi. rewrite zlook_zupd, El, H by done.
  destruct (Z.eqb_spec i j) as [->|]; [by rewrite decide_True by lia|]. rewrite decide_False by lia. f_equal. destruct (Z.eqb_spec i o); [|done]. lia.
Qed.

Lemma only_none lists o o' : only lists o 0 -> only lists o' 0.
Proof. intros [El H]. split; [done|]. intros j Hj. rewrite H by done. by destruct (j =? o), (j =? o'). Qed.

(** ** The loops *)
Lemma wp_order_for_size fuel size (Q : Z -> Prop) : (65 <= fuel)%nat -> 1 <= size <= 2 ^ 63 -> Q (Z.log2_up size) -> wp (buddy_order_for_size fuel size) Q.
Proof.
  intros Hf Hs HQ. apply (wp_loop_rel (fun m '(s, k) => 0 <= k <= 63 /\ s = 2 ^ k /\ m = 64 - k /\ (k = 0 \/ 2 ^ (k - 1) < size)) 64); [|lia|lia|].
  - split; [lia|]. split; [done|]. split; [done|by left].
  - intros m [s k] (Hk & -> & -> & Hlow). destruct (Z.ltb_spec (2 ^ k) size); wstep.
    + assert (k < 63) as Hk63 by (destruct (Z.eq_dec k 63) as [->|]; lia). exists (64 - (k + 1)). split; [lia|]. rewrite Z.shiftl_mul_pow2 by lia.
      assert (2 ^ k * 2 ^ 1 = 2 ^ (k + 1)) as E by (rewrite Z.pow_add_r by lia; done). rewrite E.
      assert (0 < 2 ^ (k + 1) <= 2 ^ 63) by (split; [apply Z.pow_pos_nonneg; lia|apply Z.pow_le_mono_r; lia]).
      rewrite u64_small by lia. unfold u32. rewrite Z.mod_small by lia. split_and!; try lia; try done. right. by replace (k + 1 - 1) with k by lia.
    + destruct Hlow as [->|Hlow].
      * assert (size = 1) as -> by (change (2 ^ 0) with 1 in *; lia). done.
      * destruct (Z.eq_dec size 1) as [->|]; [assert (0 < 2 ^ (k - 1) \/ k = 0) as [|] by (destruct (Z.eq_dec k 0); [by right|left; apply Z.pow_pos_nonneg; lia]); [lia|by subst k]|].
        assert (0 < k) by (destruct (Z.eq_dec k 0) as [->|]; [change (2 ^ 0) with 1 in *; lia|lia]).
        rewrite (Z.log2_up_unique size k) in HQ by (try replace (Z.pred k) with (k - 1) by lia; lia). done.
Qed.

Lemma wp_first_order lists o a o0 (Q : Z -> Prop) : only lists o a -> a <> 0 -> 4 <= o0 <= o -> o <= K -> Q o -> wp (first_order lists K o0) Q.
Proof.
  intros Hl Ha Ho HoK HQ. apply (wp_loop_rel (fun m c => o0 <= c <= o /\ m = o - c) (o - o0)); [lia|lia|lia|].
  intros m c (Hc & ->). destruct (Z.leb_spec c K); [|lia]. wstep. eapply only_get; [exact Hl|lia|].
  destruct (Z.eqb_spec c o) as [->|Hne].
  - destruct (Z.eqb_spec a 0); [done|]. by wstep.
  - cbn [Z.eqb]. wstep. unfold u32. rewrite Z.mod_small by lia. exists (o - (c + 1)). lia.
Qed.

Lemma wp_first_order_none lists o0 (Q : Z -> Prop) : only lists 0 0 -> 4 <= o0 <= K + 1 -> Q (K + 1) -> wp (first_order lists K o0) Q.
Proof.
  intros Hl Ho HQ. apply (wp_loop_rel (fun m c => o0 <= c <= K + 1 /\ m = K + 1 - c) (K + 1 - o0)); [lia|lia|lia|].
  intros m c (Hc & ->). destruct (Z.leb_spec c K).
  - wstep. eapply only_get; [exact Hl|lia|]. destruct (c =? 0); cbn [Z.eqb]; wstep; unfold u32; rewrite Z.mod_small by lia; exists (K + 1 - (c + 1)); lia.
  - wstep. by replace c with (K + 1) by lia.
Qed.

Lemma wp_split memory lists o o' (Q : block Z * list Z -> Prop) : only lists o (base + start o) -> word_at memory (start o) 0 ->
  zlen memory = 2 ^ K -> 4 <= o' <= o -> o <= K ->
  (forall memory' lists', zlen memory' = 2 ^ K -> only lists' o' (base + start o') -> word_at memory' (start o') 0 -> Q (memory', lists')) ->
  wp (split_blocks base o' memory lists o) Q.
Proof.
  intros Hl Hw Hm Ho HoK HQ.
  apply (wp_loop_rel (fun m '(mem, ls, c) => o' <= c <= o /\ m = c - o' /\ zlen mem = 2 ^ K /\ only ls c (base + start c) /\ word_at mem (start c) 0) (o - o'));
    [split; [lia|split; [done|split; [exact Hm|split; [exact Hl|exact Hw]]]]|lia|lia|].
  intros m [[mem ls] c] (Hc & -> & Hz & Hls & Hwc). destruct (Z.gtb_spec c o'); [|wstep; assert (c = o') as -> by lia; by apply HQ].
  destruct (start_facts c ltac:(lia)) as (S1 & S2 & S3 & S4). destruct (start_facts (c - 1) ltac:(lia)) as (T1 & T2 & T3 & T4). pose proof (start_half c ltac:(lia)) as Sh.
  cbv zeta. rewrite Z.sub_add. wstep. eapply only_get; [exact Hls|lia|]. rewrite Z.eqb_refl.
  wstep. apply (wp_load_ptr base _ _ 0); [apply addr_mod; lia|unfold is_u64; lia|by replace (base + start c - base) with (start c) by lia|].
  wstep. eapply only_move; [exact Hls|lia|by left|]. intros ls1 Hls1. wstep. eapply only_get; [exact Hls1|lia|].
  destruct (Z.eqb_spec (c - 1) c); [lia|].
  wstep. apply wp_set_node; [apply addr_mod; lia|lia|lia|]. intros mem1 L1 W1 U1 F1.
  rewrite Z.shiftl_1_l. replace (base + start c + 2 ^ (c - 1)) with (base + start (c - 1)) by lia.
  wstep. apply wp_set_node; [apply addr_mod; lia|lia|lia|]. intros mem2 L2 W2 U2 F2.
  wstep. eapply only_move; [exact Hls1|lia|by right|]. intros ls2 Hls2. wstep. exists (c - 1 - o'). split; [lia|].
  split; [lia|]. split; [lia|]. split; [lia|]. split; [exact Hls2|]. by replace (start (c - 1)) with (base + start (c - 1) - base) by lia.
Qed.

(** ** The operations *)
Lemma need_facts size : size_ok size -> 0 < size -> 4 <= need size /\ 1 <= size + BUDDY_HDR_SZ <= 2 ^ need size /\ u64 (size + BUDDY_HDR_SZ) = size + BUDDY_HDR_SZ.
Proof.
  unfold size_ok, need, BUDDY_HDR_SZ. intros [_ Hs] Hp. split; [lia|]. split; [|apply u64_small; lia]. split; [lia|].
  pose proof (Z.log2_up_spec (size + 16) ltac:(lia)). assert (2 ^ Z.log2_up (size + 16) <= 2 ^ Z.max 4 (Z.log2_up (size + 16))) by (apply Z.pow_le_mono_r; lia). lia.
Qed.

Lemma held_ok s memory lists o : buddy_ok s (Idle o) \/ (exists c, buddy_ok s (Held o c)) -> 4 <= o <= K -> only lists 0 0 ->
  zlen memory = 2 ^ K -> uint_at memory (start o + 8) o ->
  buddy_ok (with_lists s memory lists) (Held o (slice memory (start o + BUDDY_HDR_SZ) (2 ^ K))).
Proof.
  intros H Ho Hl Hm Hu. assert (bd_pool s = base /\ bd_pool_size s = 2 ^ K /\ bd_pool_alignment s = align /\ bd_max_order s = K) as (H1 & H2 & H3 & H4).
  { destruct H as [[]|[c []]]; done. }
  split; try done.
Qed.

Lemma same_pool s a a' memory lists : buddy_ok s a -> zlen memory = 2 ^ K ->
  match a' with
  | Idle o => 4 <= o <= K /\ only lists o (base + start o) /\ word_at memory (start o) 0
  | Held o c => 4 <= o <= K /\ only lists 0 0 /\ uint_at memory (start o + 8) o /\ c = slice memory (start o + BUDDY_HDR_SZ) (2 ^ K)
  end -> buddy_ok (with_lists s memory lists) a'.
Proof. intros [H1 H2 H3 H4 _ _] Hm Hs. by split. Qed.

Lemma buddy_wp_malloc fuel s a size al (Q : Z * option buddy_state_t -> Prop) : (65 <= fuel)%nat -> buddy_ok s a -> size_ok size ->
  (size = 0 \/ align < al \/ (forall o, a = Idle o -> o < need size) -> Q (0, Some s)) ->
  (forall o c s', a = Idle o -> 0 < size -> al <= align -> need size <= o -> zlen c = 2 ^ need size - BUDDY_HDR_SZ ->
     4 <= need size <= K -> buddy_ok s' (Held (need size) c) -> Q (payload (need size), Some s')) ->
  wp (buddy_malloc_fn fuel (Some s) size al) Q.
Proof.
  intros Hf B Hsz HQ1 HQ2. pose proof B as [H1 H2 H3 H4 H5 H6]. unfold buddy_malloc_fn. destruct (Z.eqb_spec size 0); [wstep; auto|].
  rewrite H3, Z.gtb_ltb. destruct (Z.ltb_spec align al); [wstep; auto|]. destruct (need_facts size Hsz) as (N4 & Nfit & Eu); [unfold size_ok in Hsz; lia|].
  cbv zeta. rewrite Eu. unfold size_ok in Hsz. wstep. apply wp_order_for_size; [done|lia|]. set (o1 := Z.log2_up (size + BUDDY_HDR_SZ)).
  pose proof (Z.log2_up_nonneg (size + BUDDY_HDR_SZ)) as Hnn. fold o1 in Hnn. assert (need size = Z.max 4 o1) as En by done.
  rewrite H4, Z.gtb_ltb. destruct (Z.ltb_spec K o1).
  { wstep. apply HQ1. right. right. intros o ->. destruct H6 as (Ho & _). lia. }
  assert ((if o1 <? 4 then 4 else o1) = need size) as -> by (destruct (Z.ltb_spec o1 4); lia).
  destruct a as [o|o c].
  - destruct H6 as (Ho & Hl & Hw). destruct (start_facts o Ho) as (S1 & _). destruct (Z.le_gt_cases (need size) o) as [Hle|Hgt].
    + wstep. eapply wp_first_order; [exact Hl|lia|lia|lia|]. rewrite Z.gtb_ltb. destruct (Z.ltb_spec K o); [lia|]. rewrite H1.
      wstep. apply wp_split; [done|done|done|lia|lia|]. intros mem lists Hm Hls Hwd. destruct (start_facts (need size) ltac:(lia)) as (T1 & T2 & T3 & T4).
      wstep. eapply only_get; [exact Hls|lia|]. rewrite Z.eqb_refl. wstep.
      apply (wp_load_ptr base _ _ 0); [apply addr_mod; lia|unfold is_u64; lia|by replace (base + start (need size) - base) with (start (need size)) by lia|].
      wstep. eapply only_move; [exact Hls|lia|by left|]. intros lists' Hls'.
      wstep. apply wp_set_node; [apply addr_mod; lia|lia|lia|]. intros mem' Hm' _ Hu' _. wstep.
      replace (base + start (need size) - base + 8) with (start (need size) + 8) in Hu' by lia.
      eapply (HQ2 o (slice mem' (start (need size) + BUDDY_HDR_SZ) (2 ^ K))); [done|lia|lia|lia| | |].
      * unfold BUDDY_HDR_SZ in *. rewrite zlen_slice by lia. lia.
      * lia.
      * apply (same_pool s (Idle o)); [done|lia|]. split; [lia|]. split; [by eapply only_none|done].
    + assert (forall o', Idle o = Idle o' -> o' < need size) as Hno by (intros o' [= <-]; done).
      wstep. apply (wp_loop_rel (fun m c => need size <= c <= K + 1 /\ m = K + 1 - c) (K + 1 - need size)); [lia|lia|lia|].
      intros m c (Hc & ->). destruct (Z.leb_spec c K).
      * wstep. eapply only_get; [exact Hl|lia|]. destruct (Z.eqb_spec c o); [lia|]. cbn [Z.eqb]. wstep. unfold u32. rewrite Z.mod_small by lia.
        exists (K + 1 - (c + 1)). lia.
      * wstep. rewrite Z.gtb_ltb. destruct (Z.ltb_spec K c); [|lia]. wstep. apply HQ1. auto.
  - destruct H6 as (Ho & Hl & _). wstep. apply wp_first_order_none; [done|lia|]. rewrite Z.gtb_ltb. destruct (Z.ltb_spec K (K + 1)); [|lia].
    wstep. apply HQ1. right. right. done.
Qed.

Lemma wp_free s o c (Q : option buddy_state_t -> Prop) : buddy_ok s (Held o c) -> (forall s', buddy_ok s' (Idle o) -> Q (Some s')) ->
  wp (buddy_free_fn (Some s) (payload o)) Q.
Proof.
  intros B HQ. pose proof B as [H1 H2 H3 H4 H5 (Ho & Hl & Hu & Hc)]. destruct (start_facts o Ho) as (S1 & S2 & S3 & S4). pose proof (addr_mod o Ho) as Ha.
  unfold buddy_free_fn. assert (payload o - BUDDY_HDR_SZ = base + start o) as Ep by (unfold payload; lia).
  destruct (Z.eqb_spec (payload o) 0) as [E0|_]; [unfold BUDDY_HDR_SZ in *; lia|]. cbv zeta. rewrite Ep, H1.
  wstep. eapply (wp_load_uint base _ _ o); [zdiv|lia|by replace (base + start o + 8 - base) with (start o + 8) by lia|].
  rewrite Z.shiftl_1_l. wstep. apply wp_fill_cells; [lia|lia|lia|]. intros mem Hm _.
  wstep. apply (wp_mono _ (fun '(mem', ls, blk, o') => mem' = mem /\ ls = bd_free_lists s /\ blk = base + start o /\ o' = o)).
  { unfold merge_blocks. rewrite H1, H2, H4. cbn [loop]. destruct (Z.ltb_spec o K); [|wstep; by wstep].
    wstep. wstep. eapply only_get; [exact Hl|lia|]. destruct (o =? 0); (wstep; unfold find_buddy; cbn [loop Z.eqb negb]; wstep; wstep; wstep; wstep; done). }
  intros [[[mem' ls] blk] o'] (-> & -> & -> & ->). cbv beta iota. wstep. eapply only_get; [exact Hl|lia|].
  wstep. apply wp_set_node; [done|lia|lia|]. intros mem2 Hm2 Hw2 _ _. wstep. eapply only_move; [exact Hl|lia|by right|]. intros ls Hls. wstep.
  apply HQ. apply (same_pool s (Held o c)); [done|lia|]. split; [done|]. split; [done|].
  replace (base + start o - base) with (start o) in Hw2 by lia. by destruct (o =? 0).
Qed.

(** Writing in the block handed out. *)
Lemma held_write s o c memory : buddy_ok s (Held o c) -> zlen memory = 2 ^ K ->
  (forall j, j < start o + BUDDY_HDR_SZ -> zlook memory j = zlook (bd_memory s) j) ->
  buddy_ok (with_lists s memory (bd_free_lists s)) (Held o (slice memory (start o + BUDDY_HDR_SZ) (2 ^ K))).
Proof.
  intros B Hm Hj. pose proof (bo_state _ _ B) as (Ho & Hl & Hu & Hc). apply (same_pool s (Held o c)); [done|done|].
  split; [done|]. split; [done|]. split; [|done]. intros k Hk. rewrite Hj by (unfold BUDDY_HDR_SZ; lia). by apply Hu.
Qed.

Definition buddy_rep (st : option buddy_state_t) (a : buddy_abs) : Prop := exists s, st = Some s /\ buddy_ok s a.
Notation after_op a op := (fun '(out, st') => exists a', buddy_spec a op out a' /\ buddy_rep st' a').

Lemma buddy_sim_malloc fuel s a size al op : (65 <= fuel)%nat -> buddy_ok s a -> size_ok size ->
  (forall p a', buddy_grant a size al (fun _ => True) p a' -> buddy_spec a op (Pointer p) a') ->
  wp ('(p, st) ← buddy_malloc_fn fuel (Some s) size al; mret (Pointer p, st)) (after_op a op).
Proof.
  intros Hf B Hs Hop. wstep. apply (buddy_wp_malloc fuel s a); [done..| |].
  - intros Hno. wstep. exists a. split; [by apply Hop, bg_refused|by exists s].
  - intros o c s' Ea Hp Hal Hn Hc _ B'. wstep. eexists. split; [by apply Hop, (bg_granted _ _ _ _ o)|by exists s'].
Qed.

Lemma payload_pos o : 4 <= o <= K -> 0 < payload o.
Proof. intros Ho. destruct (start_facts o Ho). unfold payload, BUDDY_HDR_SZ. lia. Qed.

Lemma buddy_sim_calloc fuel s a count size al : (65 <= fuel)%nat -> buddy_ok s a -> buddy_allowed a (BCalloc count size al) ->
  wp (buddy_step fuel (Some s) (BCalloc count size al)) (after_op a (BCalloc count size al)).
Proof.
  intros Hf B (Hc & Hs & Hfit). cbn [buddy_step]. unfold buddy_calloc_fn. rewrite scl_mul_overflow_spec by done. wstep.
  destruct (Z.ltb_spec (count * size) (2 ^ 64)) as [Hlt|Hge].
  - destruct Hfit as [Hok|]; [|lia]. wstep. apply (buddy_wp_malloc fuel s a); [done..| |].
    + intros Hno. cbv beta iota. cbn [Z.eqb]. wstep. wstep. exists a. split; [by apply bs_calloc, bg_refused|by exists s].
    + intros o c s' Ea Hp Hal Hn Hz Hr B'. cbv beta iota. pose proof (payload_pos (need (count * size)) Hr).
      destruct (Z.eqb_spec (payload (need (count * size))) 0); [lia|]. rewrite (bo_pool _ _ B').
      set (o' := need (count * size)) in *. destruct (start_facts o' Hr) as (S1 & S2 & S3 & S4).
      assert (payload o' - base = start o' + BUDDY_HDR_SZ) as -> by (unfold payload; lia).
      destruct (need_facts (count * size) Hok Hp) as (_ & Hn16 & _). fold o' in Hn16. pose proof (bo_memory _ _ B') as Hm.
      assert (count * size + BUDDY_HDR_SZ <= 2 ^ o') as Hfits by lia. unfold BUDDY_HDR_SZ in *.
      wstep. apply wp_fill_cells; [lia|lia|lia|]. intros mem Hm' Hcells. wstep. wstep.
      eexists. split; [|eexists; split; [done|]; apply (held_write s' o' c mem B'); [lia|]].
      * apply bs_calloc. apply (bg_granted a (count * size) al _ o); [done|lia|done|done| |].
        -- unfold BUDDY_HDR_SZ. rewrite zlen_slice by lia. fold o'. lia.
        -- intros k Hk. unfold BUDDY_HDR_SZ. rewrite zlook_slice, Hcells by lia.
           destruct (Z.leb_spec 0 k), (Z.ltb_spec k (2 ^ K - (start o' + 16))), (Z.leb_spec (start o' + 16) (start o' + 16 + k)), (Z.ltb_spec (start o' + 16 + k) (start o' + 16 + count * size)); try lia; done.
      * intros j Hj. unfold BUDDY_HDR_SZ in Hj. rewrite Hcells. destruct (Z.leb_spec (start o' + 16) j); [lia|done].
  - wstep. wstep. exists a. split; [|by exists s]. apply bs_calloc, bg_refused. right. right. intros o ->.
    pose proof (bo_state _ _ B) as (Ho & _). unfold need, BUDDY_HDR_SZ. assert (64 <= Z.log2_up (count * size + 16)); [|lia].
    rewrite <- (Z.log2_up_pow2 64) by lia. apply Z.log2_up_le_mono. lia.
Qed.

Lemma buddy_simulates fuel st a op : (65 <= fuel)%nat -> buddy_rep st a -> buddy_allowed a op -> wp (buddy_step fuel st op) (after_op a op).
Proof.
  intros Hf (s & -> & B) Hok. destruct op as [size al|count size al|p old new al|p|p off v|p off]; cbn [buddy_allowed] in Hok.
  - apply (buddy_sim_malloc fuel s); [done..|]. intros p a' H. by apply bs_malloc.
  - by apply buddy_sim_calloc.
  - destruct Hok as [Hnew Hp]. cbn [buddy_step]. unfold buddy_realloc_fn. destruct (Z.eqb_spec p 0) as [->|Hp0].
    + apply (buddy_sim_malloc fuel s); [done..|]. intros p a' H. by apply bs_realloc_null.
    + destruct Hp as [|(o & c & -> & ->)]; [done|]. destruct (Z.eqb_spec new 0) as [->|Hn0].
      * wstep. wstep. apply (wp_free s o c); [done|]. intros s' B'. wstep. wstep. exists (Idle o). split; [constructor|by exists s'].
      * wstep. wstep. apply (buddy_wp_malloc fuel s (Held o c)); [done..| |done]. intros _. cbv beta iota. cbn [Z.eqb]. wstep. wstep.
        exists (Held o c). split; [by constructor|by exists s].
  - cbn [buddy_step]. destruct Hok as [->|(o & c & -> & ->)].
    + wstep. unfold buddy_free_fn. cbn [Z.eqb]. wstep. wstep. exists a. split; [constructor|by exists s].
    + wstep. apply (wp_free s o c); [done|]. intros s' B'. wstep. exists (Idle o). split; [constructor|by exists s'].
  - destruct Hok as (o & c & -> & -> & Hoff). cbn [buddy_step]. pose proof (bo_state _ _ B) as (Ho & Hl & Hu & Hc). pose proof (bo_memory _ _ B) as Hm.
    destruct (start_facts o Ho) as (S1 & S2 & S3 & S4). rewrite (bo_pool _ _ B). assert (payload o - base + off = start o + BUDDY_HDR_SZ + off) as -> by (unfold payload; lia).
    unfold BUDDY_HDR_SZ in *. rewrite Hc, zlen_slice in Hoff by lia. wstep. apply wp_set; [lia|]. wstep. eexists. split; [apply bs_write|].
    eexists. split; [done|]. assert (zupd c off (Some v) = slice (zupd (bd_memory s) (start o + 16 + off) (Some v)) (start o + 16) (2 ^ K)) as ->.
    { rewrite Hc. apply zlook_ext. intros k. rewrite zlook_zupd, !zlook_slice, zlook_zupd, zlen_slice by lia.
      destruct (decide (off = k)) as [->|Hne].
      - rewrite !decide_True by lia. destruct (Z.leb_spec 0 k), (Z.ltb_spec k (2 ^ K - (start o + 16))); lia || done.
      - by rewrite !decide_False by lia. }
    apply (held_write s o c); [done|by rewrite zlen_zupd|]. intros j Hj. unfold BUDDY_HDR_SZ in Hj. rewrite zlook_zupd. by rewrite decide_False by lia.
  - destruct Hok as (o & c & -> & -> & Hoff). cbn [buddy_step]. pose proof (bo_state _ _ B) as (Ho & Hl & Hu & Hc). pose proof (bo_memory _ _ B) as Hm.
    destruct (start_facts o Ho) as (S1 & S2 & S3 & S4). rewrite (bo_pool _ _ B). assert (payload o - base + off = start o + BUDDY_HDR_SZ + off) as -> by (unfold payload; lia).
    destruct (zlook_lt c off Hoff) as [x Hx]. unfold BUDDY_HDR_SZ in *. assert (zlook (bd_memory s) (start o + 16 + off) = Some x) as E.
    { rewrite Hc, zlook_slice in Hx by lia. rewrite Hc, zlen_slice in Hoff by lia.
      destruct (Z.leb_spec 0 off), (Z.ltb_spec off (2 ^ K - (start o + 16))); try lia. done. }
    wstep. unfold get. rewrite E. wstep. wstep. exists (Held o c). split; [by constructor|by exists s].
Qed.
End Buddy.

(** ** Creation *)
Lemma log2_size k : 0 <= k <= 63 -> scl_log2_sz (2 ^ k) = k.
Proof.
  intros Hk. unfold scl_log2_sz, builtin_clz. rewrite Z.log2_lor, Z.log2_pow2 by lia. change (Z.log2 1) with 0. rewrite u64_small by lia. lia.
Qed.

(** The pool's order: too big a size wraps to the smallest pool. *)
Definition pool_order (total_size : Z) : Z := if total_size <=? 2 ^ 63 then Z.max 4 (Z.log2_up total_size) else 4.

Lemma pool_order_spec total_size : 1 <= total_size < 2 ^ 64 ->
  4 <= pool_order total_size <= 63 /\
  (let pool_sz := scl_bit_ceil_sz total_size in if pool_sz <? BUDDY_MIN_BLOCK then BUDDY_MIN_BLOCK else pool_sz) = 2 ^ pool_order total_size.
Proof.
  intros Ht. rewrite bit_ceil_sz_spec by lia. unfold pool_order. change BUDDY_MIN_BLOCK with (2 ^ 4).
  destruct (Z.leb_spec total_size (2 ^ 63)); [|by vm_compute]. cbv zeta. pose proof (Z.log2_up_nonneg total_size).
  assert (Z.log2_up total_size <= 63) by (rewrite <- (Z.log2_up_pow2 63) by lia; by apply Z.log2_up_le_mono).
  split; [lia|]. destruct (Z.ltb_spec (2 ^ Z.log2_up total_size) (2 ^ 4)) as [Hlt|Hge].
  - apply Z.pow_lt_mono_r_iff in Hlt; [|lia|lia]. by rewrite Z.max_l by lia.
  - apply Z.pow_le_mono_r_iff in Hge; [|lia|lia]. by rewrite Z.max_r by lia.
Qed.

Lemma alloc_cells (b : scl_allocator_t) `{!AllocatorOk b} w sz al mem w' : scl_alloc (A := Z) b w sz al 1 = (mem, w') ->
  match mem with
  | Some m => zlen m = sz /\ w_live w' = w_live w + 1
  | None => w_live w' = w_live w
  end.
Proof.
  unfold scl_alloc. destruct (malloc_fn b (w_reqs w) sz al) eqn:E; intros [= <- <-]; [|done].
  apply malloc_fn_ok in E. unfold fresh_cells. rewrite zlen_replicate, Z.div_1_r. simpl. lia.
Qed.

Lemma buddy_create_spec (b : scl_allocator_t) `{!AllocatorOk b} w chunk total_size alignment :
  let K := pool_order total_size in let align := if alignment =? 0 then MAX_ALIGN else alignment in
  1 <= total_size < 2 ^ 64 -> (K <= 20 -> 0 < chunk /\ chunk mod 8 = 0) ->
  wp (scl_alloc_buddy_create (Some b) w chunk total_size alignment) (fun '(st, w') =>
    match st with
    | Some _ => K <= 20 /\ buddy_rep chunk K align st (Idle K) /\ w_live w' = w_live w + 3
    | None => w_live w' = w_live w
    end).
Proof.
  intros K align Ht Hch. destruct (pool_order_spec total_size Ht) as [HK Ep]. fold K in HK, Ep.
  unfold scl_alloc_buddy_create. destruct (Z.eqb_spec total_size 0); [lia|]. fold align. destruct (scl_is_pow2_sz align); cbn [negb]; [|by wstep].
  cbv zeta in Ep |- *. rewrite Ep, log2_size by lia. rewrite Z.gtb_ltb. destruct (Z.ltb_spec BUDDY_MAX_ORDER K) as [|HK20]; [by wstep|].
  unfold BUDDY_MAX_ORDER in HK20. destruct (Hch HK20) as (Hc0 & Hc8).
  destruct (scl_alloc b w 208 _ 1) as [st w1] eqn:E1. apply alloc_cells in E1; [|done]. destruct st as [st|]; [|wstep; lia].
  destruct (scl_alloc b w1 (2 ^ K) _ 1) as [mem w2] eqn:E2. apply alloc_cells in E2; [|done]. destruct mem as [mem|]; [|wstep; simpl; lia].
  destruct E1 as [_ L1], E2 as [Z2 L2]. assert (16 <= 2 ^ K) by (change 16 with (2 ^ 4); apply Z.pow_le_mono_r; lia).
  wstep. apply wp_set_node; [done|lia|lia|]. intros mem' Hm Hw _ _. rewrite Z.sub_diag in Hw.
  wstep. apply wp_set; [rewrite zlen_replicate; unfold BUDDY_MAX_ORDER; lia|].
  destruct (scl_alloc b w2 40 _ 1) as [al w3] eqn:E3. apply alloc_cells in E3; [|done]. destruct al as [al|]; wstep; [|simpl; lia].
  split; [done|]. split; [|lia]. eexists. split; [done|]. split; try done; cbn; [lia|]. split; [lia|].
  assert (start K K = 0) as -> by (unfold start; lia). split; [|done]. rewrite Z.add_0_r. split; [by rewrite zlen_zupd|].
  intros j Hj. rewrite zlook_zupd, zlook_replicate, zlen_replicate. change (Z.of_nat (Z.to_nat (BUDDY_MAX_ORDER + 1))) with 21.
  destruct (Z.eqb_spec j K) as [->|]; [by rewrite decide_True by lia|]. rewrite decide_False by lia.
  destruct (Z.leb_spec 0 j), (Z.ltb_spec j 21); try lia. done.
Qed.

(** What the code does, and not what its comments promise of coalescing: the
    buddy allocator over any backing allocator hands out one block at a time.  Creation makes a pool of the next power of two (of sixteen bytes for
    sizes above [2 ^ 63], and none above [2 ^ 20]), or keeps nothing.  From then
    on every sequence of requests, frees of the block handed out, and reads and
    writes inside it goes through without stray access: a request is granted
    exactly when no block is out and it fits the block left, with the upper part
    of that block, cleared for [calloc]; and a freed block, never merged, is all
    that is left for later requests.  Destroying the allocator returns all its
    memory. *)
Theorem buddy_refines (b : scl_allocator_t) `{!AllocatorOk b} (w : world) (chunk total_size alignment : Z) (fuel : nat) (ops : list buddy_op) :
  let K := pool_order total_size in let align := if alignment =? 0 then MAX_ALIGN else alignment in
  (65 <= fuel)%nat -> 1 <= total_size < 2 ^ 64 -> (K <= 20 -> 0 < chunk /\ chunk mod 8 = 0) ->
  permitted (buddy_spec chunk K align) (buddy_allowed chunk K) (Idle K) ops ->
  exists st w1, scl_alloc_buddy_create (Some b) w chunk total_size alignment = Ok (st, w1) /\
    match st with
    | Some _ => exists outs st2 a, run (buddy_step fuel) st ops = Ok (outs, st2) /\ trace (buddy_spec chunk K align) (Idle K) ops outs a /\
        w_live (scl_alloc_buddy_destroy w1 st2) = w_live w
    | None => w_live w1 = w_live w
    end.
Proof.
  intros K align Hf Ht Hch Hops. destruct (proj1 (wp_ok _ _) (buddy_create_spec b w chunk total_size alignment Ht Hch)) as ([st w1] & E & H).
  fold K align in H. exists st, w1. split; [done|]. destruct st as [s|]; [|done]. destruct H as (HK & R & Hw). destruct (Hch HK) as (Hc0 & Hc8).
  destruct (pool_order_spec total_size Ht) as [HK4 _]. fold K in HK4.
  destruct (proj1 (wp_ok _ _) (run_refines_on (buddy_step fuel) _ _ (buddy_rep chunk K align) _ _ ops
    (fun st a op => buddy_simulates chunk K align Hc0 Hc8 ltac:(lia) fuel st a op Hf) R Hops)) as ([outs st2] & E2 & a & T & R2).
  exists outs, st2, a. split; [done|]. split; [done|]. destruct R2 as (s2 & -> & _). simpl. lia.
Qed.

Lemma buddy_refines_witness :
  exists outs a, trace (buddy_spec 4096 6 16) (Idle 6) [BFree 0; BCalloc 2 4 16; BMalloc 1 0; BRealloc 0 0 7 16; BFree 0] outs a.
Proof.
  destruct (buddy_refines small_allocator (World 0 0) 4096 50 0 65 [BFree 0; BCalloc 2 4 16; BMalloc 1 0; BRealloc 0 0 7 16; BFree 0]) as (st & w1 & E & H).
  - lia.
  - lia.
  - intros _. by vm_compute.
  - intros [|? [|? [|? [|? [|? [|? ?]]]]]] o ops2 outs a' [=]; simplify_eq; intros _; simpl; unfold size_ok, is_u64, BUDDY_HDR_SZ;
      (split_and?; solve [lia|by left|left; lia]).
  - destruct st as [s|]; [|exfalso; vm_compute in E; discriminate E].
    destruct H as (outs & _ & a & _ & T & _). exists outs, a. exact T.
Defined.

(** ** What the buddy allocator gets wrong *)
Definition buddy_1024 : res (option buddy_state_t * world) := scl_alloc_buddy_create (Some small_allocator) (World 0 0) 4096 1024 64.

(** While one byte is handed out nothing else is, and once it is back only its
    small block is left of the pool. *)
Lemma buddy_loses_halves :
  ('(s, _) ← buddy_1024; '(outs, _) ← run (buddy_step 65) s [BMalloc 1 8; BMalloc 1 8; BFree 5104; BMalloc 100 8]; mret outs) =
  Ok [Pointer 5104; Pointer 0; Done; Pointer 0].
Proof. vm_compute. reflexivity. Qed.

(** The size of the header is added without an overflow check: a request of
    almost the whole address space gets a block without a payload. *)
Lemma buddy_size_wraps : ('(s, _) ← buddy_1024; '(p, _) ← buddy_malloc_fn 65 s (2 ^ 64 - 8) 8; mret p) = Ok (4096 + 1024).
Proof. vm_compute. reflexivity. Qed.

(** [s <<= 1] reaches 0 before it reaches a size above [2 ^ 63]. *)
Lemma buddy_order_hangs fuel size : 2 ^ 63 < size -> buddy_order_for_size fuel size = Fuel.
Proof.
  intros Hs. apply (loop_diverges (fun '(s, k) => s = 0 \/ exists j, 0 <= j <= 63 /\ s = 2 ^ j)); [|right; by exists 0].
  intros [s k] Hj. assert (s <? size = true) as ->.
  { apply Z.ltb_lt. destruct Hj as [->|(j & Hj & ->)]; [lia|]. assert (2 ^ j <= 2 ^ 63) by (apply Z.pow_le_mono_r; lia). lia. }
  eexists. split; [done|]. destruct Hj as [->|(j & Hj & ->)]; [by left|]. rewrite Z.shiftl_mul_pow2, <- Z.pow_add_r by lia.
  destruct (Z.eq_dec j 63) as [->|]; [by left|right]. exists (j + 1). split; [lia|].
  apply u64_small. split; [apply Z.pow_nonneg; lia|apply Z.pow_lt_mono_r; lia].
Qed.

(** An alignment the pool has is accepted, but the header in front of the
    block breaks it. *)
Lemma buddy_misaligns : ('(s, _) ← buddy_1024; '(p, _) ← buddy_malloc_fn 65 s 1 64; mret (p mod 64)) = Ok 48.
Proof. vm_compute. reflexivity. Qed.
