(* ===== verification/Hash.v ===== *)
(** The open-addressing hash map of [libs/structures/hash/scl_hash.c]: linear
    probing over flat arrays of keys, values and slot states, with tombstones.
    It refines a finite map as long as an insertion of a key that is present
    comes to it before it comes to a removed slot ([meets]); otherwise the
    removed slot takes a second entry for the key. *)

From stdpp Require Import gmap.
From S2P Require Import Prelude Core Refine Containers Ring UnionFind.
#[local] Open Scope Z_scope.

(** The states of a slot, [int]s of 4 bytes. *)
Definition SCL_HASH_EMPTY : Z := 0.
Definition SCL_HASH_OCCUPIED : Z := 1.
Definition SCL_HASH_TOMBSTONE : Z := 2.

Record scl_hash_t (K V : Type) : Type := Hash {
  h_keys : ptr K;
  h_values : ptr V;
  h_states : ptr Z;
  h_capacity : Z;
  h_mask : Z;
  h_count : Z;
  h_hash_func : K -> Z;
  h_eq_func : K -> K -> bool;
  h_seed : Z;
  h_key_size : Z;
  h_value_size : Z
}.
Arguments Hash {K V}.
Arguments h_keys {K V}.
Arguments h_values {K V}.
Arguments h_states {K V}.
Arguments h_capacity {K V}.
Arguments h_mask {K V}.
Arguments h_count {K V}.
Arguments h_hash_func {K V}.
Arguments h_eq_func {K V}.
Arguments h_seed {K V}.
Arguments h_key_size {K V}.
Arguments h_value_size {K V}.

Definition scl_hash_djb2 (key : list Z) (len : Z) : res Z :=
  zfor 0 len (fun i h => c ← get key i; mret (u64 (u64 (u64 (Z.shiftl h 5) + h) + c))) 5381.

Section Defs.
Context {K V : Type} `{!EqDecision K} (al : scl_allocator_t) (zero_key : K) (zero_value : V).
Notation hash := (scl_hash_t K V).
Implicit Types (w : world) (ht : option hash) (t : hash).

(** [memcmp] of the contents of two keys. *)
Definition scl_hash_eq_mem (a b : K) : bool := bool_decide (a = b).

(** The slot where the search for a key starts, and the one after [idx]. *)
Definition home (hf : K -> Z) (seed mask : Z) (key : K) : Z := Z.land (Z.lxor (hf key) seed) mask.
Definition next_slot (mask idx : Z) : Z := Z.land (u64 (idx + 1)) mask.

(** One round of the search for a free slot of the new arrays. *)
Definition next_free (new_states : block Z) (new_mask idx : Z) : res (Z + Z) :=
  s ← get_cell new_states idx;
  if s =? SCL_HASH_OCCUPIED then mret (inl (next_slot new_mask idx)) else mret (inr idx).

(** Copying one occupied slot into the new arrays. *)
Definition rehash_slot t (new_cap new_mask i : Z) (new : block K * block V * block Z)
    : res (block K * block V * block Z) :=
  let '(new_keys, new_vals, new_states) := new in
  s ← get_elem (h_states t) i;
  if s =? SCL_HASH_OCCUPIED then
    k ← get_elem (h_keys t) i;
    idx ← loop (S (Z.to_nat new_cap)) (next_free new_states new_mask)
      (home (h_hash_func t) (h_seed t) new_mask k);
    new_keys ← set new_keys idx (Some k);
    v ← get_elem (h_values t) i;
    new_vals ← set new_vals idx (Some v);
    new_states ← set new_states idx (Some SCL_HASH_OCCUPIED);
    mret (new_keys, new_vals, new_states)
  else mret new.

(** The old keys and values are zeroed before they are freed. *)
Definition scl_hash_grow w t : res (scl_error_t * hash * world) :=
  let cap := h_capacity t in
  if cap >? SIZE_MAX / 2 then mret (SCL_ERR_SIZE_OVERFLOW, t, w)
  else
    let new_cap := if cap =? 0 then 16 else u64 (cap * 2) in
    let new_mask := u64 (new_cap - 1) in
    match scl_mul_overflow new_cap (h_key_size t), scl_mul_overflow new_cap (h_value_size t),
          scl_mul_overflow new_cap 4 with
    | Some ksz_total, Some vsz_total, Some ssz_total =>
        let '(new_keys, w) := scl_alloc (A := K) al w ksz_total MAX_ALIGN (h_key_size t) in
        let '(new_vals, w) := scl_alloc (A := V) al w vsz_total MAX_ALIGN (h_value_size t) in
        let '(new_states, w) := scl_alloc (A := Z) al w ssz_total MAX_ALIGN 4 in
        match new_keys, new_vals, new_states with
        | Some new_keys, Some new_vals, Some new_states =>
            let new_states := replicate (length new_states) (Some SCL_HASH_EMPTY) in
            '(new_keys, new_vals, new_states) ←
              zfor 0 cap (rehash_slot t new_cap new_mask) (new_keys, new_vals, new_states);
            w ← free_ptr w (h_keys t);
            w ← free_ptr w (h_values t);
            w ← free_ptr w (h_states t);
            mret (SCL_OK,
                  Hash (Ptr new_keys) (Ptr new_vals) (Ptr new_states) new_cap new_mask (h_count t)
                    (h_hash_func t) (h_eq_func t) (h_seed t) (h_key_size t) (h_value_size t), w)
        | _, _, _ =>
            mret (SCL_ERR_OUT_OF_MEMORY, t, scl_free (scl_free (scl_free w new_keys) new_vals) new_states)
        end
    | _, _, _ => mret (SCL_ERR_SIZE_OVERFLOW, t, w)
    end.

(** [rand]: the two results of [scl_rand]. *)
Definition scl_hash_init w ht (key_size value_size initial_buckets : Z) (hf : option (K -> Z))
    (eq : option (K -> K -> bool)) (rand : Z * Z) : res (scl_error_t * option hash * world) :=
  match ht with
  | None => mret (SCL_ERR_NULL_PTR, None, w)
  | Some t =>
      match hf with
      | None => mret (SCL_ERR_INVALID_ARG, Some t, w)
      | Some hf =>
          if (key_size =? 0) || (value_size =? 0) || (initial_buckets =? 0)
          then mret (SCL_ERR_INVALID_ARG, Some t, w)
          else
            let cap := scl_bit_ceil_sz initial_buckets in
            let '(keys, w) := scl_calloc al w cap key_size MAX_ALIGN zero_key in
            let '(values, w) := scl_calloc al w cap value_size MAX_ALIGN zero_value in
            let '(states, w) := scl_calloc al w cap 4 MAX_ALIGN SCL_HASH_EMPTY in
            match keys, values, states with
            | Some keys, Some values, Some states =>
                let seed := Z.lor (Z.shiftl (u32 (fst rand)) 32) (u32 (snd rand)) in
                mret (SCL_OK,
                      Some (Hash (Ptr keys) (Ptr values) (Ptr states) cap (u64 (cap - 1)) 0 hf
                              match eq with Some eq => eq | None => scl_hash_eq_mem end
                              seed key_size value_size), w)
            | _, _, _ =>
                mret (SCL_ERR_OUT_OF_MEMORY,
                      Some (Hash (after_free (to_ptr keys)) (after_free (to_ptr values)) (after_free (to_ptr states))
                              (h_capacity t) (h_mask t) (h_count t) (h_hash_func t) (h_eq_func t) (h_seed t)
                              (h_key_size t) (h_value_size t)),
                      scl_free (scl_free (scl_free w keys) values) states)
            end
      end
  end.

Definition scl_hash_destroy w ht : res (option hash * world) :=
  match ht with
  | None => mret (None, w)
  | Some t =>
      w ← free_ptr w (h_keys t);
      w ← free_ptr w (h_values t);
      w ← free_ptr w (h_states t);
      mret (Some (Hash Null Null Null 0 (h_mask t) 0 (h_hash_func t) (h_eq_func t) (h_seed t)
                    (h_key_size t) (h_value_size t)), w)
  end.

Definition with_slots t (keys : ptr K) (values : ptr V) (states : ptr Z) (count : Z) : hash :=
  Hash keys values states (h_capacity t) (h_mask t) count (h_hash_func t) (h_eq_func t) (h_seed t)
    (h_key_size t) (h_value_size t).

(** The probing loop of [insert]: the slot of the key or the first free one. *)
Definition put t (key : K) (value : V) : res (scl_error_t * hash) :=
  let start := home (h_hash_func t) (h_seed t) (h_mask t) key in
  loop (S (Z.to_nat (h_capacity t)))
    (fun idx =>
       st ← get_elem (h_states t) idx;
       if (st =? SCL_HASH_EMPTY) || (st =? SCL_HASH_TOMBSTONE) then
         keys ← set_elem (h_keys t) idx key;
         values ← set_elem (h_values t) idx value;
         states ← set_elem (h_states t) idx SCL_HASH_OCCUPIED;
         mret (inr (SCL_OK, with_slots t keys values states (u64 (h_count t + 1))))
       else
         k ← get_elem (h_keys t) idx;
         if h_eq_func t k key then
           values ← set_elem (h_values t) idx value;
           mret (inr (SCL_OK, with_slots t (h_keys t) values (h_states t) (h_count t)))
         else
           let idx := next_slot (h_mask t) idx in
           if idx =? start then mret (inr (SCL_ERR_FULL, t)) else mret (inl idx)) start.

Definition scl_hash_insert w ht (key : option K) (value : option V) : res (scl_error_t * option hash * world) :=
  match ht, key, value with
  | Some t, Some key, Some value =>
      '(err, t, w) ←
        (if u64 (h_count t * 3) >=? u64 (h_capacity t * 2) then scl_hash_grow w t else mret (SCL_OK, t, w));
      if decide (err = SCL_OK) then '(e, t) ← put t key value; mret (e, Some t, w)
      else mret (err, Some t, w)
  | _, _, _ => mret (SCL_ERR_NULL_PTR, ht, w)
  end.

(** Whether [put] comes to the key before it comes to a free slot, and whether
    the table grows first. *)
Definition meets t (key : K) : res bool :=
  let start := home (h_hash_func t) (h_seed t) (h_mask t) key in
  loop (S (Z.to_nat (h_capacity t)))
    (fun idx =>
       st ← get_elem (h_states t) idx;
       if st =? SCL_HASH_OCCUPIED then
         k ← get_elem (h_keys t) idx;
         if h_eq_func t k key then mret (inr true)
         else
           let idx := next_slot (h_mask t) idx in
           if idx =? start then mret (inr false) else mret (inl idx)
       else mret (inr false)) start.
Definition grows t : bool := u64 (h_count t * 3) >=? u64 (h_capacity t * 2).

(** The probing loop of [get], [remove] and [contains]: the slot of the key. *)
Definition probe t (key : K) : res (option Z) :=
  let start := home (h_hash_func t) (h_seed t) (h_mask t) key in
  loop (S (Z.to_nat (h_capacity t)))
    (fun idx =>
       st ← get_elem (h_states t) idx;
       if st =? SCL_HASH_EMPTY then mret (inr None)
       else
         found ← (if st =? SCL_HASH_OCCUPIED then k ← get_elem (h_keys t) idx; mret (h_eq_func t k key)
                  else mret false);
         if found : bool then mret (inr (Some idx))
         else
           let idx := next_slot (h_mask t) idx in
           if idx =? start then mret (inr None) else mret (inl idx)) start.

Definition scl_hash_get ht (key : option K) (out_value : bool) : res (scl_error_t * option V) :=
  match ht, key, out_value with
  | Some t, Some key, true =>
      r ← probe t key;
      match r with
      | Some idx => v ← get_elem (h_values t) idx; mret (SCL_OK, Some v)
      | None => mret (SCL_ERR_NOT_FOUND, None)
      end
  | _, _, _ => mret (SCL_ERR_NULL_PTR, None)
  end.

Definition scl_hash_remove ht (key : option K) : res (scl_error_t * option hash) :=
  match ht, key with
  | Some t, Some key =>
      r ← probe t key;
      match r with
      | Some idx =>
          states ← set_elem (h_states t) idx SCL_HASH_TOMBSTONE;
          mret (SCL_OK, Some (with_slots t (h_keys t) (h_values t) states (u64 (h_count t - 1))))
      | None => mret (SCL_ERR_NOT_FOUND, ht)
      end
  | _, _ => mret (SCL_ERR_NULL_PTR, ht)
  end.

Definition scl_hash_contains ht (key : option K) : res bool :=
  match ht, key with
  | Some t, Some key => r ← probe t key; mret (match r with Some _ => true | None => false end)
  | _, _ => mret false
  end.

Definition scl_hash_count ht : Z := match ht with Some t => h_count t | None => 0 end.
End Defs.

(** ** Slots

    The contents of the table, and the order in which a search visits it. *)
Inductive slot (K V : Type) : Type :=
| SEmpty
| STomb
| SOcc (k : K) (v : V).
Arguments SEmpty {K V}.
Arguments STomb {K V}.
Arguments SOcc {K V}.

Section Slots.
Context {K V : Type} `{Countable K} (hf : K -> Z) (seed : Z).
Implicit Types (S : list (slot K V)) (k : K) (v : V) (M : gmap K V) (i j d e n : Z).

Definition slot_pair (s : slot K V) : option (K * V) := match s with SOcc k v => Some (k, v) | _ => None end.
Definition pairs S : list (K * V) := omap slot_pair S.

(** The slot at distance [d] from the start of the search for [k], in a table
    of [n] slots. *)
Definition at_dist n k d : Z := (Z.lxor (hf k) seed + d) mod n.

(** No search meets an empty slot before its key. *)
Definition reachable S : Prop :=
  forall k v d, 0 <= d < zlen S -> zlook S (at_dist (zlen S) k d) = Some (SOcc k v) ->
  forall e, 0 <= e < d -> zlook S (at_dist (zlen S) k e) <> Some SEmpty.

Record wf S : Prop := {
  wf_keys : NoDup (pairs S).*1;
  wf_reach : reachable S
}.

Lemma at_dist_range n k d : 0 < n -> 0 <= at_dist n k d < n.
Proof. apply Z.mod_pos_bound. Qed.

(** Every slot is visited at exactly one distance. *)
Lemma at_dist_onto n k i : 0 <= i < n -> exists d, 0 <= d < n /\ at_dist n k d = i.
Proof.
  intros Hi. exists ((i - Z.lxor (hf k) seed) mod n). split; [by apply Z.mod_pos_bound; lia|].
  unfold at_dist. rewrite Zplus_mod_idemp_r. replace (Z.lxor (hf k) seed + (i - Z.lxor (hf k) seed)) with i by lia.
  by apply Z.mod_small.
Qed.

Lemma at_dist_inj n k d e : 0 <= d < n -> 0 <= e < n -> at_dist n k d = at_dist n k e -> d = e.
Proof.
  intros Hd He Heq. unfold at_dist in Heq.
  assert ((d - e) mod n = 0) as E.
  { replace (d - e) with ((Z.lxor (hf k) seed + d) - (Z.lxor (hf k) seed + e)) by lia.
    rewrite Zminus_mod, Heq, Z.sub_diag. by apply Z.mod_0_l; lia. }
  apply Z.mod_divide in E as [q E]; [|lia]. assert (q = 0) by nia. lia.
Qed.

(** Replacing the slot at [i]. *)
Lemma slots_split S i s : zlook S i = Some s ->
  exists S1 S2, S = S1 ++ s :: S2 /\ zlen S1 = i /\ forall s', zupd S i s' = S1 ++ s' :: S2.
Proof.
  intros Hs. pose proof (zlook_Some _ _ _ Hs) as Hi. unfold zlook in Hs. destruct (Z.leb_spec 0 i); [|lia].
  exists (take (Z.to_nat i) S), (drop (Datatypes.S (Z.to_nat i)) S). split; [by rewrite take_drop_middle|].
  split; [rewrite zlen_take by lia; lia|]. intros s'. unfold zupd. destruct (Z.leb_spec 0 i); [|lia].
  apply insert_take_drop. unfold zlen in Hi. lia.
Qed.

Lemma pairs_cons s S : pairs (s :: S) = match slot_pair s with Some p => p :: pairs S | None => pairs S end.
Proof. done. Qed.
Lemma pairs_app S1 S2 : pairs (S1 ++ S2) = pairs S1 ++ pairs S2.
Proof. apply omap_app. Qed.

Lemma pairs_put S i s k v : zlook S i = Some s -> slot_pair s = None -> pairs (zupd S i (SOcc k v)) ≡ₚ (k, v) :: pairs S.
Proof.
  intros (S1 & S2 & -> & _ & E)%slots_split Hs. rewrite E, !pairs_app. simpl. rewrite Hs.
  by rewrite Permutation_middle.
Qed.

Lemma pairs_take S i k v : zlook S i = Some (SOcc k v) -> pairs S ≡ₚ (k, v) :: pairs (zupd S i STomb).
Proof.
  intros (S1 & S2 & -> & _ & E)%slots_split. rewrite E, !pairs_app. simpl. by rewrite Permutation_middle.
Qed.

Lemma elem_pairs S k v : (k, v) ∈ pairs S <-> exists i, zlook S i = Some (SOcc k v).
Proof.
  unfold pairs. rewrite list_elem_of_omap. split.
  - intros (s & Hs & E). destruct s; simplify_eq/=. by apply elem_zlook.
  - intros [i Hi]. exists (SOcc k v). split; [by eapply zlook_elem|done].
Qed.

Lemma pairs_size S : zlen (pairs S) <= zlen S.
Proof.
  induction S as [|s S IH]; [done|]. rewrite pairs_cons, zlen_cons. destruct (slot_pair s); rewrite ?zlen_cons; lia.
Qed.

(** A table that is not full has a free slot. *)
Lemma free_slot S : zlen (pairs S) < zlen S -> exists i s, zlook S i = Some s /\ slot_pair s = None.
Proof.
  induction S as [|s S IH]; [unfold zlen; simpl; lia|].
  intros Hl. rewrite pairs_cons in Hl. destruct (slot_pair s) eqn:E.
  - rewrite !zlen_cons in Hl. destruct IH as (i & s' & Hi & Hs); [lia|]. exists (i + 1), s'.
    rewrite zlook_cons. pose proof (zlook_Some _ _ _ Hi). destruct (Z.eqb_spec (i + 1) 0); [lia|].
    by replace (i + 1 - 1) with i by lia.
  - by exists 0, s.
Qed.

(** ** What the table maps *)
Definition content S : gmap K V := list_to_map (pairs S).

Lemma content_spec S k v : wf S -> content S !! k = Some v <-> exists i, zlook S i = Some (SOcc k v).
Proof. intros [Hk _]. rewrite <- elem_pairs. symmetry. by apply elem_of_list_to_map. Qed.

Lemma content_none S k : content S !! k = None -> forall i v, zlook S i <> Some (SOcc k v).
Proof.
  intros Hn%not_elem_of_list_to_map_2 i v Hi. apply Hn. apply list_elem_of_fmap. exists (k, v). split; [done|].
  apply elem_pairs. eauto.
Qed.

Lemma content_size S : wf S -> zlen (pairs S) = Z.of_nat (size (content S)).
Proof.
  intros [Hk _]. unfold content, zlen. by rewrite map_size_list_to_map.
Qed.

Lemma wf_one S i k v v' j : wf S -> zlook S i = Some (SOcc k v) -> zlook S j = Some (SOcc k v') -> i = j.
Proof.
  intros [Hk _] Hi Hj. destruct (decide (i = j)) as [|Hne]; [done|]. exfalso.
  pose proof (pairs_take _ _ _ _ Hi) as P. rewrite P in Hk. simpl in Hk. apply NoDup_cons in Hk as [Hk _]. apply Hk.
  apply list_elem_of_fmap. exists (k, v'). split; [done|]. apply elem_pairs. exists j. by rewrite zlook_zupd_ne.
Qed.

Lemma reach_zupd S i s :
  s <> SEmpty -> reachable S ->
  (forall k v d, s = SOcc k v -> 0 <= d < zlen S -> at_dist (zlen S) k d = i ->
     forall e, 0 <= e < d -> zlook S (at_dist (zlen S) k e) <> Some SEmpty) ->
  reachable (zupd S i s).
Proof.
  intros Hs Hr Hn k v d. rewrite zlen_zupd. intros Hd Hk e He.
  assert (zlook S (at_dist (zlen S) k e) <> Some SEmpty).
  { rewrite zlook_zupd in Hk. case_decide as Hc; [|by eapply Hr]. destruct Hc as [Ei _].
    injection Hk as Es. eapply Hn; [exact Es|exact Hd|congruence|done]. }
  rewrite zlook_zupd. case_decide; [congruence|done].
Qed.

Lemma wf_put S d s k v :
  wf S -> 0 <= d < zlen S -> zlook S (at_dist (zlen S) k d) = Some s -> slot_pair s = None ->
  (forall e, 0 <= e < d -> zlook S (at_dist (zlen S) k e) <> Some SEmpty) -> content S !! k = None ->
  let S' := zupd S (at_dist (zlen S) k d) (SOcc k v) in
  wf S' /\ content S' = <[k := v]> (content S) /\ pairs S' ≡ₚ (k, v) :: pairs S.
Proof.
  intros [Hk Hr] Hd Hs Hp He Hn S'. pose proof (pairs_put _ _ _ k v Hs Hp) as P.
  assert (k ∉ (pairs S).*1) as Hkn by by apply not_elem_of_list_to_map_2.
  assert (NoDup (pairs S').*1) as Hk' by (unfold S'; rewrite P; simpl; by apply NoDup_cons).
  split; [|split; [|exact P]].
  - split; [done|]. apply reach_zupd; [done|done|]. intros k' v' d' [= <- <-] Hd' Ed. apply at_dist_inj in Ed as ->; done.
  - unfold content. by rewrite (list_to_map_proper _ _ Hk' P).
Qed.

Lemma wf_update S i k v0 v :
  wf S -> zlook S i = Some (SOcc k v0) ->
  let S' := zupd S i (SOcc k v) in
  wf S' /\ content S' = <[k := v]> (content S) /\ zlen (pairs S') = zlen (pairs S).
Proof.
  intros H1 Hs S'. pose proof H1 as [Hk Hr]. pose proof (pairs_take _ _ _ _ Hs) as P.
  assert (zlook (zupd S i STomb) i = Some (@STomb K V)) as Ht by (apply zlook_zupd_eq; by eapply zlook_Some).
  pose proof (pairs_put _ _ _ k v Ht eq_refl) as P'.
  assert (zupd (zupd S i STomb) i (SOcc k v) = S') as ES.
  { unfold S', zupd. destruct (0 <=? i); [|done]. apply list_insert_insert_eq. }
  rewrite ES in P'. rewrite P in Hk.
  assert (NoDup (pairs S').*1) as Hk' by by rewrite P'.
  split; [|split].
  - split; [done|]. apply reach_zupd; [done|done|]. intros k' v' d' [= <- <-] Hd' Ed. subst i. by eapply Hr.
  - unfold content. rewrite (list_to_map_proper _ _ Hk' P'), (list_to_map_proper (pairs S) _ (wf_keys _ H1) P). simpl. by rewrite insert_insert_eq.
  - unfold zlen. by rewrite P', P.
Qed.

Lemma wf_remove S i k v :
  wf S -> zlook S i = Some (SOcc k v) ->
  let S' := zupd S i STomb in
  wf S' /\ content S' = delete k (content S) /\ zlen (pairs S) = zlen (pairs S') + 1.
Proof.
  intros H1 Hs S'. pose proof H1 as [Hk Hr]. pose proof (pairs_take _ _ _ _ Hs) as P. rewrite P in Hk. simpl in Hk.
  apply NoDup_cons in Hk as [Hkn Hk']. split; [|split].
  - split; [done|]. by apply reach_zupd.
  - unfold content. rewrite (list_to_map_proper (pairs S) _ (wf_keys _ H1) P). simpl. rewrite delete_insert_id; [done|]. by apply not_elem_of_list_to_map_1.
  - unfold zlen. rewrite P. simpl. unfold S'. lia.
Qed.
End Slots.

Section Table.
Context {K V : Type} `{Countable K} (al : scl_allocator_t) `{!AllocatorOk al}.
Context (hf : K -> Z) (eq : K -> K -> bool) (seed ksz vsz : Z).
Hypothesis eq_spec : forall a b, eq a b = true <-> a = b.
Notation hash := (scl_hash_t K V).
Notation at_dist := (at_dist hf seed).
Notation wf := (wf hf seed).
Implicit Types (S : list (slot K V)) (k key : K) (v : V) (M : gmap K V) (i j d e n : Z) (t : hash) (w : world).

Definition code (s : slot K V) : Z :=
  match s with SEmpty => SCL_HASH_EMPTY | SOcc _ _ => SCL_HASH_OCCUPIED | STomb => SCL_HASH_TOMBSTONE end.

(** The arrays hold the slots. *)
Record arrays (kb : block K) (vb : block V) (sb : block Z) S : Prop := {
  ar_keys : zlen kb = zlen S;
  ar_vals : zlen vb = zlen S;
  ar_states : zlen sb = zlen S;
  ar_slots i s : zlook S i = Some s -> zlook sb i = Some (Some (code s)) /\
    match s with SOcc k v => zlook kb i = Some (Some k) /\ zlook vb i = Some (Some v) | _ => True end
}.

Record table_of t S : Prop := {
  ta_arrays : exists kb vb sb, h_keys t = Ptr kb /\ h_values t = Ptr vb /\ h_states t = Ptr sb /\ arrays kb vb sb S;
  ta_pow : exists j, 0 <= j <= 61 /\ zlen S = 2 ^ j;
  ta_cap : h_capacity t = zlen S;
  ta_mask : h_mask t = zlen S - 1;
  ta_count : h_count t = zlen (pairs S);
  ta_hash : h_hash_func t = hf;
  ta_eq : h_eq_func t = eq;
  ta_seed : h_seed t = seed;
  ta_sizes : h_key_size t = ksz /\ h_value_size t = vsz;
  ta_wf : wf S
}.

Lemma home_dist n j k : 0 <= j -> n = 2 ^ j -> home hf seed (n - 1) k = at_dist n k 0.
Proof. intros Hj ->. unfold home, Hash.at_dist. by rewrite land_mask, Z.add_0_r. Qed.

Lemma next_dist n j k d : 0 <= j <= 61 -> n = 2 ^ j -> next_slot (n - 1) (at_dist n k d) = at_dist n k (d + 1).
Proof.
  intros Hj ->. unfold next_slot, Hash.at_dist. rewrite land_mask_u64 by lia.
  rewrite Zplus_mod_idemp_l. f_equal. lia.
Qed.

Lemma dist_wrap n k d : 0 <= d < n -> at_dist n k (d + 1) = at_dist n k 0 <-> d + 1 = n.
Proof.
  intros Hd. split.
  - intros E. destruct (decide (d + 1 < n)) as [Hlt|]; [|lia]. apply at_dist_inj in E; lia.
  - intros ->. unfold Hash.at_dist. rewrite <- Zplus_mod_idemp_r, Z.mod_same by lia. done.
Qed.

(** All slots are visited. *)
Lemma visited_all (P : slot K V -> Prop) S k :
  (forall d, 0 <= d < zlen S -> forall s, zlook S (at_dist (zlen S) k d) = Some s -> P s) ->
  forall i s, zlook S i = Some s -> P s.
Proof.
  intros Hp i s Hs. pose proof (zlook_Some _ _ _ Hs) as Hi.
  destruct (at_dist_onto hf seed (zlen S) k i Hi) as (d & Hd & <-). by eapply Hp.
Qed.

Lemma absent S k : wf S -> (forall i v, zlook S i <> Some (SOcc k v)) -> content S !! k = None.
Proof.
  intros Hw Hn. destruct (content S !! k) as [v|] eqn:E; [|done]. apply (content_spec hf seed) in E as [i Hi]; [|done].
  by apply Hn in Hi.
Qed.

(** A slot that ends a search without the key. *)
Lemma absent_at S k d : wf S -> 0 <= d < zlen S -> zlook S (at_dist (zlen S) k d) = Some SEmpty ->
  (forall e, 0 <= e < d -> forall v, zlook S (at_dist (zlen S) k e) <> Some (SOcc k v)) -> content S !! k = None.
Proof.
  intros Hw Hd He Hn. apply absent; [done|]. intros i v Hi. pose proof (zlook_Some _ _ _ Hi) as Hib.
  destruct (at_dist_onto hf seed (zlen S) k i Hib) as (d' & Hd' & <-). destruct (decide (d' < d)); [by eapply Hn; [|done]; lia|].
  destruct (decide (d' = d)) as [->|]; [by rewrite He in Hi|]. eapply (wf_reach _ _ _ Hw); [exact Hd'|exact Hi| |exact He]. lia.
Qed.

Lemma wp_get_slot t S i s (Q : Z -> Prop) : table_of t S -> zlook S i = Some s -> Q (code s) -> wp (get_elem (h_states t) i) Q.
Proof.
  intros [(kb & vb & sb & _ & _ & -> & [_ _ _ Ha]) _ _ _ _ _ _ _ _ _] Hs HQ. destruct (Ha _ _ Hs) as [Hi _].
  by eapply wp_get_elem.
Qed.

Lemma wp_get_slot_key t S i k v (Q : K -> Prop) : table_of t S -> zlook S i = Some (SOcc k v) -> Q k -> wp (get_elem (h_keys t) i) Q.
Proof.
  intros [(kb & vb & sb & -> & _ & _ & [_ _ _ Ha]) _ _ _ _ _ _ _ _ _] Hs HQ. destruct (Ha _ _ Hs) as (_ & Hi & _).
  by eapply wp_get_elem.
Qed.

Lemma wp_get_slot_value t S i k v (Q : V -> Prop) : table_of t S -> zlook S i = Some (SOcc k v) -> Q v -> wp (get_elem (h_values t) i) Q.
Proof.
  intros [(kb & vb & sb & _ & -> & _ & [_ _ _ Ha]) _ _ _ _ _ _ _ _ _] Hs HQ. destruct (Ha _ _ Hs) as (_ & _ & Hi).
  by eapply wp_get_elem.
Qed.

(** A search in progress: every slot met so far satisfies [P]. *)
Definition met (P : slot K V -> Prop) S key d : Prop :=
  forall e s, 0 <= e < d -> zlook S (at_dist (zlen S) key e) = Some s -> P s.
Definition searching P S key i idx : Prop :=
  exists d, i = zlen S - d /\ 0 <= d < zlen S /\ idx = at_dist (zlen S) key d /\ met P S key d.

Lemma met_start P S key : 0 < zlen S -> searching P S key (zlen S) (at_dist (zlen S) key 0).
Proof. intros Hn. exists 0. split; [lia|]. split; [lia|]. split; [done|]. intros e s He. lia. Qed.

(** On to the next slot, or all the way round. *)
Lemma wp_advance {R} P S key j d s (r : R) (Q : R -> Prop) :
  0 <= j <= 61 -> zlen S = 2 ^ j -> 0 <= d < zlen S -> met P S key d ->
  zlook S (at_dist (zlen S) key d) = Some s -> P s ->
  ((forall i s, zlook S i = Some s -> P s) -> Q r) ->
  wp (let idx := next_slot (zlen S - 1) (at_dist (zlen S) key d) in
      if idx =? at_dist (zlen S) key 0 then mret (inr r) else mret (inl idx))
    (fun o => match o with
       | inl idx => exists i, 0 <= i < zlen S - d /\ searching P S key i idx
       | inr r => Q r
       end).
Proof.
  intros Hj En Hd Hm Hs HP HQ. cbv zeta. rewrite (next_dist (zlen S) j) by done.
  assert (met P S key (d + 1)) as Hm'.
  { intros e s' He Hs'. destruct (decide (e = d)) as [->|]; [by simplify_eq|]. eapply Hm; [|done]. lia. }
  pose proof (dist_wrap (zlen S) key d Hd) as Hw. destruct (Z.eqb_spec (at_dist (zlen S) key (d + 1)) (at_dist (zlen S) key 0)) as [E|E].
  - wstep. apply HQ, (visited_all P S key). apply Hw in E. intros e He s'. apply Hm'. lia.
  - wstep. exists (zlen S - (d + 1)). split; [lia|]. exists (d + 1). split; [done|]. split; [|done].
    assert (d + 1 <> zlen S) by (intros ?; apply E; by apply Hw). lia.
Qed.

Lemma wp_probe t S key (Q : option Z -> Prop) :
  table_of t S ->
  (forall i v, zlook S i = Some (SOcc key v) -> Q (Some i)) ->
  (content S !! key = None -> Q None) ->
  wp (probe t key) Q.
Proof.
  intros T HQ1 HQ2. pose proof T as [_ (j & Hj & En) Ec Em _ Eh Ee Es _ Hw]. unfold probe. rewrite Eh, Es, Em, Ec.
  assert (0 < zlen S) by (rewrite En; apply Z.pow_pos_nonneg; lia).
  rewrite (home_dist (zlen S) j) by (done || lia). set (P := fun s => s <> SEmpty /\ forall v, s <> SOcc key v).
  apply (wp_loop_rel (searching P S key) (zlen S)); [by apply met_start|lia|lia|].
  intros i idx (d & -> & Hd & -> & Hm). pose proof (at_dist_range hf seed (zlen S) key d ltac:(lia)) as Hr.
  destruct (zlook_lt S _ Hr) as [s Hs]. wstep. eapply wp_get_slot; [done..|].
  assert (forall s, zlook S (at_dist (zlen S) key d) = Some s -> P s -> wp (let idx := next_slot (zlen S - 1) (at_dist (zlen S) key d) in
      if idx =? at_dist (zlen S) key 0 then mret (inr None) else mret (inl idx))
    (fun o => match o with inl idx => exists i, 0 <= i < zlen S - d /\ searching P S key i idx | inr r => Q r end)) as Hgo.
  { intros s' Hs' HP. eapply wp_advance; try done. intros Hall. apply HQ2, absent; [done|].
    intros i v Hi. destruct (Hall _ _ Hi) as [_ Hx]. by apply (Hx v). }
  destruct s as [| |k v]; simpl.
  - apply HQ2. eapply absent_at; [done|exact Hd|done|]. intros e He v Hv. destruct (Hm _ _ He Hv) as [_ Hx]. by apply (Hx v).
  - apply (Hgo STomb); [done|]. split; [done|]. by intros v.
  - wstep. wstep. eapply wp_get_slot_key; [done..|]. wstep. rewrite Ee. destruct (eq k key) eqn:Ek.
    + apply eq_spec in Ek as ->. wstep. by eapply HQ1.
    + apply (Hgo (SOcc k v)); [done|]. split; [done|]. intros v' [= -> ->]. by rewrite (proj2 (eq_spec key key)) in Ek.
Qed.

Lemma arrays_write kb vb sb S i s k v :
  arrays kb vb sb S -> zlook S i = Some s ->
  arrays (zupd kb i (Some k)) (zupd vb i (Some v)) (zupd sb i (Some SCL_HASH_OCCUPIED)) (zupd S i (SOcc k v)).
Proof.
  intros [H1 H2 H3 H4] Hs. pose proof (zlook_Some _ _ _ Hs). split; rewrite ?zlen_zupd; try done.
  intros j s'. rewrite !zlook_zupd. intros Hs'. repeat case_decide; try lia; [|by apply H4].
  simplify_eq. done.
Qed.

Lemma arrays_value kb vb sb S i k v0 v :
  arrays kb vb sb S -> zlook S i = Some (SOcc k v0) -> arrays kb (zupd vb i (Some v)) sb (zupd S i (SOcc k v)).
Proof.
  intros [H1 H2 H3 H4] Hs. pose proof (zlook_Some _ _ _ Hs). split; rewrite ?zlen_zupd; try done.
  intros j s'. rewrite !zlook_zupd. intros Hs'. repeat case_decide; try lia; [|by apply H4].
  destruct_and?; simplify_eq. by destruct (H4 _ _ Hs) as (? & ? & _).
Qed.

Lemma arrays_tomb kb vb sb S i s :
  arrays kb vb sb S -> zlook S i = Some s -> arrays kb vb (zupd sb i (Some SCL_HASH_TOMBSTONE)) (zupd S i STomb).
Proof.
  intros [H1 H2 H3 H4] Hs. pose proof (zlook_Some _ _ _ Hs). split; rewrite ?zlen_zupd; try done.
  intros j s'. rewrite !zlook_zupd. intros Hs'. repeat case_decide; try lia; [|by apply H4].
  by simplify_eq.
Qed.

Definition clean S : Prop := forall i, zlook S i <> Some STomb.

Lemma clean_zupd S i s : s <> STomb -> clean S -> clean (zupd S i s).
Proof. intros Hs Hc j. rewrite zlook_zupd. case_decide; [congruence|apply Hc]. Qed.

Lemma table_size t S : table_of t S -> 0 < zlen S <= 2 ^ 61.
Proof.
  intros [_ (j & Hj & ->) _ _ _ _ _ _ _ _]. split; [apply Z.pow_pos_nonneg; lia|]. apply Z.pow_le_mono_r; lia.
Qed.

(** The table after a write to one slot. *)
Lemma table_with t S S' kb vb sb c :
  table_of t S -> zlen S' = zlen S -> arrays kb vb sb S' -> wf S' -> c = zlen (pairs S') ->
  table_of (with_slots t (Ptr kb) (Ptr vb) (Ptr sb) c) S'.
Proof.
  intros [_ Hp Hc Hm _ Hh He Hs Hz _] El Ha Hw ->. split; simpl; try done; rewrite ?El; try done. by exists kb, vb, sb.
Qed.

(** The key is in the table, with no free slot on the way to it. *)
Definition in_reach S key : Prop :=
  exists d v, 0 <= d < zlen S /\ zlook S (at_dist (zlen S) key d) = Some (SOcc key v) /\
    forall e s, 0 <= e < d -> zlook S (at_dist (zlen S) key e) = Some s -> slot_pair s <> None.

Lemma wp_meets t S key : table_of t S -> wp (meets t key) (fun b => b = true -> in_reach S key).
Proof.
  intros T. pose proof (table_size _ _ T) as Hsz. pose proof T as [_ (j & Hj & En) Ec Em _ Eh Ee Es _ _].
  unfold meets. rewrite Eh, Es, Em, Ec, (home_dist (zlen S) j) by (done || lia).
  set (P := fun s : slot K V => slot_pair s <> None).
  apply (wp_loop_rel (searching P S key) (zlen S)); [by apply met_start; lia|lia|lia|].
  intros i idx (d & -> & Hd & -> & Hm). pose proof (at_dist_range hf seed (zlen S) key d ltac:(lia)) as Hr.
  destruct (zlook_lt S _ Hr) as [s Hs]. wstep. eapply wp_get_slot; [done..|]. destruct s as [| |k v]; simpl; [done..|].
  wstep. eapply wp_get_slot_key; [done..|]. rewrite Ee. destruct (eq k key) eqn:Ekk.
  - apply eq_spec in Ekk as ->. wstep. intros _. exists d, v. split; [done|]. split; [done|]. exact Hm.
  - apply (wp_advance P S key j d (SOcc k v)); try done.
Qed.

Lemma wp_put t S key v (Q : scl_error_t * hash -> Prop) :
  table_of t S -> zlen (pairs S) < zlen S -> content S !! key = None \/ clean S \/ in_reach S key ->
  (forall t' S', table_of t' S' -> content S' = <[key := v]> (content S) -> zlen S' = zlen S ->
     (clean S -> clean S') -> Q (SCL_OK, t')) ->
  wp (put t key v) Q.
Proof.
  intros T Hfree Hok HQ. pose proof (table_size _ _ T) as Hsz.
  pose proof T as [(kb & vb & sb & Ek & Ev & Est & Ar) (j & Hj & En) Ec Em Ecnt Eh Ee Es _ Hw].
  unfold put. rewrite Eh, Es, Em, Ec. rewrite (home_dist (zlen S) j) by (done || lia).
  set (P := fun s => exists k v, s = SOcc k v /\ k <> key).
  apply (wp_loop_rel (searching P S key) (zlen S)); [by apply met_start; lia|lia|lia|].
  intros i idx (d & -> & Hd & -> & Hm). pose proof (at_dist_range hf seed (zlen S) key d ltac:(lia)) as Hr.
  destruct (zlook_lt S _ Hr) as [s Hs]. pose proof Ar as [H1 H2 H3 _]. wstep. eapply wp_get_slot; [done..|].
  assert (slot_pair s = None -> wp (keys ← set_elem (h_keys t) (at_dist (zlen S) key d) key;
         values ← set_elem (h_values t) (at_dist (zlen S) key d) v;
         states ← set_elem (h_states t) (at_dist (zlen S) key d) SCL_HASH_OCCUPIED;
         mret (inr (A := Z) (SCL_OK, with_slots t keys values states (u64 (h_count t + 1)))))
    (fun o => match o with inl _ => False | inr r => Q r end)) as Hput.
  { intros Hsp. assert (content S !! key = None) as Habs.
    { destruct Hok as [|[Hc|(d' & v' & Hd' & Hk' & Hall)]]; [done| |].
      2:{ exfalso. destruct (Z.lt_trichotomy d d') as [Hlt|[->|Hlt]].
          - by apply (Hall d s); [lia|..].
          - rewrite Hs in Hk'. by simplify_eq.
          - destruct (Hm d' _ ltac:(lia) Hk') as (k & ? & [= <- <-] & Hne). done. }
      destruct s; [|by apply Hc in Hs|done]. eapply absent_at; [done|exact Hd|done|].
      intros e He v' Hv. destruct (Hm _ _ He Hv) as (k' & ? & [= <- <-] & ?). done. }
    rewrite Ek, Ev, Est. wstep. apply wp_set_elem; [lia|]. wstep. apply wp_set_elem; [lia|]. wstep. apply wp_set_elem; [lia|]. wstep.
    destruct (wf_put hf seed S d s key v Hw Hd Hs Hsp) as (Hw' & Ec' & P'); [|done|].
    { intros e He E. destruct (Hm _ _ He E) as (? & ? & ? & _). done. }
    assert (zlen (pairs (zupd S (at_dist (zlen S) key d) (SOcc key v))) = zlen (pairs S) + 1) as Ez by (unfold zlen; rewrite P'; simpl; lia).
    eapply HQ; [|exact Ec'|by rewrite zlen_zupd|by apply clean_zupd]. eapply table_with; [done|by rewrite zlen_zupd| |done|].
    - by eapply arrays_write.
    - rewrite Ecnt, Ez. pose proof (zlen_nonneg (pairs S)). rewrite u64_small; lia. }
  destruct s as [| |k v0]; simpl.
  - eapply wp_mono; [by apply Hput|]. by intros [|].
  - eapply wp_mono; [by apply Hput|]. by intros [|].
  - wstep. eapply wp_get_slot_key; [done..|]. rewrite Ee. destruct (eq k key) eqn:Ekk.
    + apply eq_spec in Ekk as ->. rewrite Ev. wstep. apply wp_set_elem; [lia|]. wstep.
      destruct (wf_update hf seed S _ key v0 v Hw Hs) as (Hw' & Ec' & Ez).
      eapply HQ; [|exact Ec'|by rewrite zlen_zupd|by apply clean_zupd]. rewrite Ek, Est, Ecnt, <- Ez.
      eapply table_with; [done|by rewrite zlen_zupd|by eapply arrays_value|done|done].
    + apply (wp_advance P S key j d (SOcc k v0)); try done.
      { exists k, v0. split; [done|]. intros ->. by rewrite (proj2 (eq_spec key key)) in Ekk. }
      intros Hall. destruct (free_slot S Hfree) as (i & s & Hi & Hsp). destruct (Hall _ _ Hi) as (? & ? & -> & _). done.
Qed.

(** ** Growing *)
Lemma wp_next_free kb vb sb S k j fuel (Q : Z -> Prop) :
  arrays kb vb sb S -> clean S -> 0 <= j <= 61 -> zlen S = 2 ^ j -> zlen (pairs S) < zlen S -> zlen S < Z.of_nat fuel ->
  (forall d, 0 <= d < zlen S -> zlook S (at_dist (zlen S) k d) = Some SEmpty ->
     (forall e, 0 <= e < d -> zlook S (at_dist (zlen S) k e) <> Some SEmpty) -> Q (at_dist (zlen S) k d)) ->
  wp (loop fuel (next_free sb (zlen S - 1)) (at_dist (zlen S) k 0)) Q.
Proof.
  intros [_ _ _ Ha] Hc Hj En Hfree Hf HQ. destruct (free_slot S Hfree) as (i0 & s0 & Hi0 & Hs0).
  destruct (at_dist_onto hf seed (zlen S) k i0) as (d0 & Hd0 & <-); [by eapply zlook_Some|].
  apply (wp_loop_rel (fun i idx => exists d, i = d0 - d /\ 0 <= d <= d0 /\ idx = at_dist (zlen S) k d /\
    forall e, 0 <= e < d -> zlook S (at_dist (zlen S) k e) <> Some SEmpty) d0); [|lia|lia|].
  { exists 0. split; [lia|]. split; [lia|]. split; [done|]. lia. }
  intros i idx (d & -> & Hd & -> & Hm). pose proof (at_dist_range hf seed (zlen S) k d ltac:(lia)) as Hr.
  destruct (zlook_lt S _ Hr) as [s Hs]. destruct (Ha _ _ Hs) as [Hst _]. unfold next_free, get_cell. wstep. wstep.
  unfold get. rewrite Hst. wstep. wstep. destruct s as [| |k' v']; simpl.
  - by apply HQ; [lia|..].
  - by apply Hc in Hs.
  - rewrite (next_dist (zlen S) j) by done. assert (d <> d0) by (intros ->; rewrite Hi0 in Hs; by simplify_eq).
    exists (d0 - (d + 1)). split; [lia|]. exists (d + 1). split; [done|]. split; [lia|]. split; [done|].
    intros e He. destruct (decide (e = d)) as [->|]; [congruence|]. apply Hm. lia.
Qed.

Lemma wp_rehash_slot t S S' kb vb sb j i (Q : block K * block V * block Z -> Prop) :
  table_of t S -> arrays kb vb sb S' -> wf S' -> clean S' -> 0 <= j <= 61 -> zlen S' = 2 ^ j -> zlen S < zlen S' ->
  0 <= i < zlen S -> pairs S' ≡ₚ pairs (take (Z.to_nat i) S) ->
  (forall kb' vb' sb' S2, arrays kb' vb' sb' S2 -> wf S2 -> clean S2 -> zlen S2 = zlen S' ->
     pairs S2 ≡ₚ pairs (take (Z.to_nat (i + 1)) S) -> Q (kb', vb', sb')) ->
  wp (rehash_slot t (zlen S') (zlen S' - 1) i (kb, vb, sb)) Q.
Proof.
  intros T Ar Hw Hc Hj En Hlt Hi P HQ. destruct (zlook_lt S i Hi) as [s Hs]. pose proof T as [_ _ _ _ _ Eh _ Es _ HwS].
  assert (pairs (take (Z.to_nat (i + 1)) S) = pairs (take (Z.to_nat i) S) ++ pairs [s]) as Et.
  { rewrite <- pairs_app. f_equal. rewrite Z2Nat.inj_add by lia. replace (Z.to_nat i + Z.to_nat 1)%nat with (Datatypes.S (Z.to_nat i)) by lia.
    apply take_S_r. unfold zlook in Hs. by destruct (Z.leb_spec 0 i); [|lia]. }
  unfold rehash_slot. wstep. eapply wp_get_slot; [done..|]. destruct s as [| |k v]; cbn [code];
    [change (SCL_HASH_EMPTY =? SCL_HASH_OCCUPIED) with false|change (SCL_HASH_TOMBSTONE =? SCL_HASH_OCCUPIED) with false|
     rewrite Z.eqb_refl]; cbv iota.
  - eapply HQ; try done. by rewrite Et, app_nil_r.
  - eapply HQ; try done. by rewrite Et, app_nil_r.
  - wstep. eapply wp_get_slot_key; [done..|]. rewrite Eh, Es, (home_dist (zlen S') j) by (done || lia).
    assert (pairs S ≡ₚ pairs (take (Z.to_nat i) S) ++ (k, v) :: pairs (drop (Datatypes.S (Z.to_nat i)) S)) as PS.
    { change ((k, v) :: pairs (drop (Datatypes.S (Z.to_nat i)) S)) with (pairs (SOcc k v :: drop (Datatypes.S (Z.to_nat i)) S)).
      rewrite <- pairs_app, take_drop_middle; [done|]. unfold zlook in Hs. by destruct (Z.leb_spec 0 i); [|lia]. }
    assert (content S' !! k = None) as Hn.
    { apply not_elem_of_list_to_map_1. rewrite P. pose proof (wf_keys _ _ _ HwS) as Hd. rewrite PS, fmap_app in Hd.
      apply NoDup_app in Hd as (_ & Hd & _). intros Hin. apply (Hd _ Hin). simpl. by left. }
    assert (zlen (pairs S') < zlen S') as Hfree.
    { unfold zlen at 1. rewrite P. pose proof (pairs_size (take (Z.to_nat i) S)). rewrite zlen_take in * by lia. unfold zlen in *. lia. }
    wstep. eapply (wp_next_free kb vb sb S' k j); [done..|lia|]. intros d Hd He Hno.
    pose proof Ar as [H1 H2 H3 _]. pose proof (at_dist_range hf seed (zlen S') k d ltac:(lia)) as Hr.
    wstep. apply wp_set; [lia|]. wstep. eapply wp_get_slot_value; [done..|]. wstep. apply wp_set; [lia|]. wstep. apply wp_set; [lia|]. wstep.
    destruct (wf_put hf seed S' d SEmpty k v Hw Hd He eq_refl Hno Hn) as (Hw2 & _ & P2).
    eapply HQ; [by eapply arrays_write|exact Hw2|by apply clean_zupd|by rewrite zlen_zupd|].
    rewrite P2, Et, P. simpl. by rewrite Permutation_app_comm.
Qed.

Lemma wp_rehash t S kb vb j n (Q : block K * block V * block Z -> Prop) :
  table_of t S -> n = 2 ^ j -> 0 <= j <= 61 -> zlen S < n -> zlen kb = n -> zlen vb = n ->
  (forall kb' vb' sb' S2, arrays kb' vb' sb' S2 -> wf S2 -> clean S2 -> zlen S2 = n ->
     pairs S2 ≡ₚ pairs S -> Q (kb', vb', sb')) ->
  wp (zfor 0 (zlen S) (rehash_slot t n (n - 1)) (kb, vb, replicate (Z.to_nat n) (Some SCL_HASH_EMPTY))) Q.
Proof.
  intros T En Hj Hlt Hk Hv HQ. pose proof (zlen_nonneg S).
  apply (wp_zfor (fun i '(kb, vb, sb) => exists S2, arrays kb vb sb S2 /\ wf S2 /\ clean S2 /\ zlen S2 = n /\
    pairs S2 ≡ₚ pairs (take (Z.to_nat i) S))).
  - exists (replicate (Z.to_nat n) SEmpty).
    assert (pairs (replicate (Z.to_nat n) (@SEmpty K V)) = []) as E0.
    { generalize (Z.to_nat n). intros m. induction m as [|m IH]; [done|]. exact IH. }
    split; [|split; [|split; [|split]]].
    + split; rewrite ?zlen_replicate; try lia. intros i s. rewrite !zlook_replicate. destruct (_ && _); [|done].
      intros [= <-]. done.
    + split; [rewrite E0; constructor|]. intros k v d _ Hd. rewrite zlook_replicate in Hd. by destruct (_ && _).
    + intros i Hi. rewrite zlook_replicate in Hi. by destruct (_ && _).
    + rewrite zlen_replicate. lia.
    + by rewrite E0, take_0.
  - intros i [[kb1 vb1] sb1] Hi (S2 & Ar & Hw & Hc & El & P). rewrite <- El.
    eapply (wp_rehash_slot t S S2 kb1 vb1 sb1 j i); try done; [congruence|lia|].
    intros kb' vb' sb' S3 Ar3 Hw3 Hc3 El3 P3. exists S3. split_and!; done || congruence.
  - intros [[kb1 vb1] sb1] (S2 & Ar & Hw & Hc & El & P). apply (HQ _ _ _ S2); try done.
    rewrite Z.max_r in P by lia. rewrite take_ge in P; [done|]. unfold zlen. lia.
Qed.

Lemma free_blocks_live {X Y U} w (p : ptr X) (q : ptr Y) (r : ptr U) (Q : world -> Prop) :
  p <> Dangling -> q <> Dangling -> r <> Dangling ->
  (forall w', w_live w' = w_live w - held p - held q - held r -> Q w') ->
  wp (w ← free_ptr w p; w ← free_ptr w q; free_ptr w r) Q.
Proof.
  intros Hp Hq Hr HQ. destruct p, q, r; try done; simpl; apply HQ; simpl; lia.
Qed.

Lemma wp_hash_grow w t S (Q : scl_error_t * hash * world -> Prop) :
  1 <= ksz < 2 ^ 64 -> 1 <= vsz < 2 ^ 64 -> table_of t S ->
  (forall t' S' w', table_of t' S' -> content S' = content S -> zlen S' = 2 * zlen S ->
     zlen (pairs S') = zlen (pairs S) -> clean S' -> w_live w' = w_live w -> Q (SCL_OK, t', w')) ->
  (forall err w', err = SCL_ERR_SIZE_OVERFLOW \/ err = SCL_ERR_OUT_OF_MEMORY -> w_live w' = w_live w -> Q (err, t, w')) ->
  wp (scl_hash_grow al w t) Q.
Proof.
  intros Hks Hvs T HQ1 HQ2. pose proof (table_size _ _ T) as Hsz.
  pose proof T as [(kb & vb & sb & Ek & Ev & Est & Ar) (j & Hj & En) Ec Em Ecnt Eh Ee Es [Ez1 Ez2] Hw].
  unfold scl_hash_grow. cbv zeta. rewrite Ec, Ez1, Ez2. rewrite Z.gtb_ltb.
  destruct (Z.ltb_spec (SIZE_MAX / 2) (zlen S)) as [Hbig|_]; [wstep; by apply HQ2; auto|].
  destruct (Z.eqb_spec (zlen S) 0) as [|_]; [lia|]. rewrite (u64_small (zlen S * 2)) by lia. rewrite (u64_small (zlen S * 2 - 1)) by lia.
  set (n := zlen S * 2). rewrite !scl_mul_overflow_spec by (unfold is_u64, n; lia).
  destruct (Z.ltb_spec (n * ksz) (2 ^ 64)); [|wstep; by apply HQ2; auto].
  destruct (Z.ltb_spec (n * vsz) (2 ^ 64)); [|wstep; by apply HQ2; auto].
  destruct (Z.ltb_spec (n * 4) (2 ^ 64)); [|wstep; by apply HQ2; auto].
  destruct (scl_alloc al w (n * ksz) MAX_ALIGN ksz) as [nk w1] eqn:E1.
  destruct (scl_alloc al w1 (n * vsz) MAX_ALIGN vsz) as [nv w2] eqn:E2.
  destruct (scl_alloc al w2 (n * 4) MAX_ALIGN 4) as [ns w3] eqn:E3.
  apply (owns_alloc (A := K) al) in E1 as [L1 O1]; [|lia]. apply (owns_alloc (A := V) al) in E2 as [L2 O2]; [|lia].
  apply (owns_alloc (A := Z) al) in E3 as [L3 O3]; [|lia].
  assert (Q (SCL_ERR_OUT_OF_MEMORY, t, scl_free (scl_free (scl_free w3 nk) nv) ns)) as Hoom.
  { apply HQ2; [auto|]. destruct nk, nv, ns; simpl in *; lia. }
  destruct nk as [nk|]; [|wstep; exact Hoom]. destruct nv as [nv|]; [|wstep; exact Hoom]. destruct ns as [ns|]; [|wstep; exact Hoom].
  simpl in L1, L2, L3. destruct O1 as (Z1 & _), O2 as (Z2 & _), O3 as (Z3 & _ & Z4 & _).
  assert (n = 2 ^ (j + 1)) as En' by (unfold n; rewrite En, Z.pow_add_r by lia; done).
  assert (j + 1 <= 61) as Hj1.
  { destruct (Z.le_gt_cases (j + 1) 61) as [|Hj1]; [done|]. exfalso. assert (2 ^ 62 <= n) by (rewrite En'; apply Z.pow_le_mono_r; lia).
    unfold PTRDIFF_MAX in Z4. lia. }
  replace (length ns) with (Z.to_nat n) by (unfold zlen in Z3; lia). wstep.
  eapply (wp_rehash t S nk nv (j + 1) n); [done|done|lia|lia|done|done|].
  intros kb' vb' sb' S2 Ar2 Hw2 Hc2 El2 P2. rewrite Ek, Ev, Est. simpl. cbn [scl_free].
  assert (content S2 = content S) as Ecnt2 by (unfold content; apply list_to_map_proper; [apply Hw2|exact P2]).
  assert (zlen (pairs S2) = zlen (pairs S)) as Ep by (unfold zlen; by rewrite P2).
  eapply (HQ1 _ S2); [|done|lia|done|done|simpl; lia].
  split; simpl; try done; [by exists kb', vb', sb'|exists (j + 1); split; [lia|congruence]|lia|congruence].
Qed.

Lemma wp_hash_insert w t S key v (Q : scl_error_t * option hash * world -> Prop) :
  1 <= ksz < 2 ^ 64 -> 1 <= vsz < 2 ^ 64 -> table_of t S ->
  content S !! key = None \/ clean S \/ in_reach S key \/ grows t = true ->
  (forall t' S' w', table_of t' S' -> content S' = <[key := v]> (content S) -> (clean S -> clean S') ->
     w_live w' = w_live w -> Q (SCL_OK, Some t', w')) ->
  (forall err w', err = SCL_ERR_SIZE_OVERFLOW \/ err = SCL_ERR_OUT_OF_MEMORY -> w_live w' = w_live w -> Q (err, Some t, w')) ->
  wp (scl_hash_insert al w (Some t) (Some key) (Some v)) Q.
Proof.
  intros Hks Hvs T Hok HQ1 HQ2. pose proof (table_size _ _ T) as Hsz. pose proof (pairs_size S) as Hps.
  pose proof (zlen_nonneg (pairs S)). pose proof T as [_ _ Ec _ Ecnt _ _ _ _ _].
  unfold grows in Hok. unfold scl_hash_insert. rewrite Ec, Ecnt, !u64_small, Z.geb_leb in * by lia. wstep.
  destruct (Z.leb_spec (zlen S * 2) (zlen (pairs S) * 3)).
  - eapply wp_hash_grow; [done..| |].
    + intros t' S' w' T' Ec' El' Ep' Hc' Hw'. destruct (decide _); [|done]. wstep.
      eapply wp_put; [done|lia|by right; left|]. intros t2 S2 T2 Ec2 El2 Hc2. wstep. eapply HQ1; [done|by rewrite Ec2, Ec'|auto|done].
    + intros e w' He Hw'. destruct (decide (e = SCL_OK)) as [->|]; [by destruct He|]. wstep. by apply HQ2.
  - wstep. destruct (decide _); [|done]. wstep. eapply wp_put; [done|lia|naive_solver|].
    intros t2 S2 T2 Ec2 El2 Hc2. wstep. by eapply HQ1.
Qed.
End Table.

(** ** The operations as one step function *)
Inductive hash_op (K V : Type) : Type :=
| HInsert (key : option K) (value : option V)
| HGet (key : option K) (out_value : bool)
| HRemove (key : option K)
| HContains (key : option K)
| HCount.
Arguments HInsert {K V}.
Arguments HGet {K V}.
Arguments HRemove {K V}.
Arguments HContains {K V}.
Arguments HCount {K V}.

Section Step.
Context {K V : Type} `{Countable K} (al : scl_allocator_t).
Notation hash := (scl_hash_t K V).
Implicit Types (k : K) (v : V) (M : gmap K V) (dirty : bool).

Definition hash_step (st : option hash * world) (op : hash_op K V) : res (reply V * (option hash * world)) :=
  let '(ht, w) := st in
  match op with
  | HInsert key value => '(e, ht, w) ← scl_hash_insert al w ht key value; mret (Code e, (ht, w))
  | HGet key out => '(e, x) ← scl_hash_get ht key out; mret (value_or e x, (ht, w))
  | HRemove key => '(e, ht) ← scl_hash_remove ht key; mret (Code e, (ht, w))
  | HContains key => b ← scl_hash_contains ht key; mret (Flag b, (ht, w))
  | HCount => mret (Size (scl_hash_count ht), (ht, w))
  end.

(** A finite map, and whether anything was ever removed from it. *)
Inductive hash_spec : gmap K V * bool -> hash_op K V -> reply V -> gmap K V * bool -> Prop :=
| hs_insert M dirty k v : hash_spec (M, dirty) (HInsert (Some k) (Some v)) (Code SCL_OK) (<[k := v]> M, dirty)
| hs_refused M dirty k v e : e = SCL_ERR_SIZE_OVERFLOW \/ e = SCL_ERR_OUT_OF_MEMORY ->
    hash_spec (M, dirty) (HInsert (Some k) (Some v)) (Code e) (M, dirty)
| hs_get M dirty k v : M !! k = Some v -> hash_spec (M, dirty) (HGet (Some k) true) (Value v) (M, dirty)
| hs_get_none M dirty k : M !! k = None ->
    hash_spec (M, dirty) (HGet (Some k) true) (Code SCL_ERR_NOT_FOUND) (M, dirty)
| hs_remove M dirty k v : M !! k = Some v -> hash_spec (M, dirty) (HRemove (Some k)) (Code SCL_OK) (delete k M, true)
| hs_remove_none M dirty k : M !! k = None ->
    hash_spec (M, dirty) (HRemove (Some k)) (Code SCL_ERR_NOT_FOUND) (M, dirty)
| hs_contains M dirty k :
    hash_spec (M, dirty) (HContains (Some k)) (Flag (bool_decide (is_Some (M !! k)))) (M, dirty)
| hs_contains_null M dirty : hash_spec (M, dirty) (HContains None) (Flag false) (M, dirty)
| hs_count M dirty : hash_spec (M, dirty) HCount (Size (Z.of_nat (size M))) (M, dirty)
| hs_null M dirty op :
    match op with
    | HInsert None _ | HInsert _ None | HGet None _ | HGet _ false | HRemove None => True
    | _ => False
    end -> hash_spec (M, dirty) op (Code SCL_ERR_NULL_PTR) (M, dirty).

(** Once something was removed, a key that is present is only inserted when
    the search for a free slot comes to it first or the table is about to
    grow, which drops the removed slots. *)
Definition in_place (st : option hash * world) (a : gmap K V * bool) (op : hash_op K V) : Prop :=
  match op, st.1 with
  | HInsert (Some k) (Some v), Some t => a.2 = false \/ a.1 !! k = None \/ meets t k = Ok true \/ grows t = true
  | _, _ => True
  end.

Context `{!AllocatorOk al} (hf : K -> Z) (eq : K -> K -> bool) (seed ksz vsz live0 : Z).
Hypothesis eq_spec : forall a b, eq a b = true <-> a = b.
Hypothesis Hksz : 1 <= ksz < 2 ^ 64.
Hypothesis Hvsz : 1 <= vsz < 2 ^ 64.

Definition hash_rep (st : option hash * world) (a : gmap K V * bool) : Prop :=
  exists t S, st.1 = Some t /\ table_of hf eq seed ksz vsz t S /\ content S = a.1 /\ (a.2 = false -> clean S) /\
    w_live st.2 = live0 + 3.

Lemma hash_simulates st a op : hash_rep st a -> in_place st a op ->
  wp (hash_step st op) (fun '(out, st') => exists a', hash_spec a op out a' /\ hash_rep st' a').
Proof.
  destruct st as [ht w], a as [M dirty]. intros (t & S & E & T & EM & Hc & Hw) Hok. cbn [fst snd] in *. subst ht M.
  assert (hash_rep (Some t, w) (content S, dirty)) as R0 by by exists t, S.
  pose proof (ta_wf _ _ _ _ _ _ _ T) as HwS.
  destruct op as [[k|] [v|]|[k|] [|]|[k|]|[k|]|]; cbn [hash_step];
    try (exists (content S, dirty); split; [by constructor|exact R0]); wstep.
  - eapply (wp_hash_insert al hf eq seed ksz vsz eq_spec w t S k v); [done|done|done|..].
    { destruct Hok as [Hd|[|[Hm|]]]; [right; left; by apply Hc|by left| |by right; right; right].
      right; right; left. destruct (proj1 (wp_ok _ _) (wp_meets hf eq seed ksz vsz eq_spec t S k T)) as (b & E & Hb).
      apply Hb. congruence. }
    + intros t' S' w' T' Ec' Hc' Hw'. wstep. exists (<[k := v]> (content S), dirty). split; [constructor|].
      exists t', S'. simpl. split_and!; try done; [auto|lia].
    + intros e w' He Hw'. wstep. exists (content S, dirty). split; [by constructor|]. exists t, S. simpl. split_and!; (done || lia).
  - unfold scl_hash_get. wstep. eapply (wp_probe hf eq seed ksz vsz eq_spec t S k); [done| |].
    + intros i v Hi. wstep. eapply wp_get_slot_value; [done..|]. wstep. wstep. exists (content S, dirty).
      split; [|exact R0]. constructor. apply (content_spec hf seed); eauto.
    + intros Hn. wstep. wstep. exists (content S, dirty). split; [by constructor|exact R0].
  - unfold scl_hash_remove. wstep. eapply (wp_probe hf eq seed ksz vsz eq_spec t S k); [done| |].
    + intros i v Hi. pose proof T as [(kb & vb & sb & Ek & Ev & Est & Ar) _ _ _ Ecnt _ _ _ _ _].
      destruct (wf_remove hf seed S i k v HwS Hi) as (Hw' & Ec' & Ep). rewrite Est. wstep.
      apply wp_set_elem; [rewrite (ar_states _ _ _ _ Ar); by eapply zlook_Some|]. wstep. wstep.
      exists (delete k (content S), true). split; [econstructor; apply (content_spec hf seed); eauto|].
      eexists _, (zupd S i STomb). split; [done|]. split; [|simpl; by split_and!].
      rewrite Ek, Ev. eapply table_with; [done|by rewrite zlen_zupd|by eapply arrays_tomb|done|].
      rewrite Ecnt. pose proof (zlen_nonneg (pairs (zupd S i STomb))). pose proof (pairs_size S).
      pose proof (table_size _ _ _ _ _ _ _ T). rewrite u64_small; lia.
    + intros Hn. wstep. wstep. exists (content S, dirty). split; [by constructor|exact R0].
  - unfold scl_hash_contains. wstep. eapply (wp_probe hf eq seed ksz vsz eq_spec t S k); [done| |].
    + intros i v Hi. wstep. wstep. exists (content S, dirty). split; [|exact R0].
      assert (content S !! k = Some v) as E by (apply (content_spec hf seed); eauto).
      replace true with (bool_decide (is_Some (content S !! k))) at 1; [constructor|]. rewrite E. done.
    + intros Hn. wstep. wstep. exists (content S, dirty). split; [|exact R0].
      replace false with (bool_decide (is_Some (content S !! k))) at 1; [constructor|]. by rewrite Hn.
  - exists (content S, dirty). split; [|exact R0]. simpl. rewrite (ta_count _ _ _ _ _ _ _ T), (content_size hf seed) by done.
    constructor.
Qed.

Lemma hash_destroy_spec ht w a : hash_rep (ht, w) a ->
  exists ht' w', scl_hash_destroy w ht = Ok (ht', w') /\ w_live w' = live0.
Proof.
  intros (t & S & E & [(kb & vb & sb & Ek & Ev & Est & _) _ _ _ _ _ _ _ _ _] & _ & _ & Hw). cbn [fst snd] in *. subst ht.
  unfold scl_hash_destroy. rewrite Ek, Ev, Est. simpl. eexists _, _. split; [done|]. simpl in *. lia.
Qed.
End Step.

(** A fresh table. *)
Lemma hash_fresh {K V} `{Countable K} (hf : K -> Z) eq seed ksz vsz (zk : K) (zv : V) j :
  0 <= j <= 61 ->
  table_of hf eq seed ksz vsz
    (Hash (Ptr (replicate (Z.to_nat (2 ^ j)) (Some zk))) (Ptr (replicate (Z.to_nat (2 ^ j)) (Some zv)))
       (Ptr (replicate (Z.to_nat (2 ^ j)) (Some SCL_HASH_EMPTY))) (2 ^ j) (2 ^ j - 1) 0 hf eq seed ksz vsz)
    (replicate (Z.to_nat (2 ^ j)) SEmpty) /\
  content (replicate (Z.to_nat (2 ^ j)) (SEmpty (K := K) (V := V))) = ∅.
Proof.
  intros Hj. assert (0 < 2 ^ j) by (apply Z.pow_pos_nonneg; lia).
  assert (pairs (replicate (Z.to_nat (2 ^ j)) (SEmpty (K := K) (V := V))) = []) as E0.
  { generalize (Z.to_nat (2 ^ j)). intros m. induction m as [|m IH]; [done|]. exact IH. }
  split; [|unfold content; by rewrite E0].
  assert (zlen (replicate (Z.to_nat (2 ^ j)) (SEmpty (K := K) (V := V))) = 2 ^ j) as El by (rewrite zlen_replicate; lia).
  split; simpl; try done; rewrite ?El, ?E0; try done.
  - eexists _, _, _. split; [done|]. split; [done|]. split; [done|]. split; rewrite ?zlen_replicate; try done.
    intros i s. rewrite !zlook_replicate. destruct (_ && _); [|done]. by intros [= <-].
  - by exists j.
  - split; [rewrite E0; constructor|]. intros k v d _ Hd. rewrite zlook_replicate in Hd. by destruct (_ && _).
Qed.

Lemma hash_init_spec {K V} `{Countable K} (al : scl_allocator_t) `{!AllocatorOk al} (zk : K) (zv : V) w (t0 : scl_hash_t K V)
    ksz vsz buckets hf eq rand :
  1 <= ksz < 2 ^ 64 -> 1 <= vsz < 2 ^ 64 -> 1 <= buckets < 2 ^ 64 ->
  wp (scl_hash_init al zk zv w (Some t0) ksz vsz buckets (Some hf) eq rand) (fun '(e, ht, w1) =>
    (e = SCL_OK /\ exists seed,
       hash_rep hf (match eq with Some eq => eq | None => scl_hash_eq_mem end) seed ksz vsz (w_live w) (ht, w1) (∅, false)) \/
    (e = SCL_ERR_OUT_OF_MEMORY /\ w_live w1 = w_live w /\
     (calloc_fn al (w_reqs w) (scl_bit_ceil_sz buckets) ksz MAX_ALIGN = true -> scl_hash_destroy w1 ht = UB))).
Proof.
  intros Hk Hv Hb. unfold scl_hash_init. set (cap := scl_bit_ceil_sz buckets).
  destruct (Z.eqb_spec ksz 0); [lia|]. destruct (Z.eqb_spec vsz 0); [lia|].
  destruct (Z.eqb_spec buckets 0); [lia|]. cbn [orb]. fold cap. unfold scl_calloc. cbn [w_reqs w_live].
  destruct (calloc_fn al (w_reqs w) cap ksz MAX_ALIGN) eqn:C1; cbn [w_reqs w_live];
  destruct (calloc_fn al (S (w_reqs w)) cap vsz MAX_ALIGN) eqn:C2; cbn [w_reqs w_live];
  destruct (calloc_fn al (S (S (w_reqs w))) cap 4 MAX_ALIGN) eqn:C3; cbn [w_reqs w_live];
    try (wstep; right; simpl; split; [done|]; split; [lia|]; (done || by intros)).
  wstep. left. split; [done|].
  destruct (bit_ceil_sz_pow buckets ltac:(lia)) as [E|(j & Hj & E & _)]; fold cap in E.
  { exfalso. apply calloc_fn_ok in C3; unfold is_u64; lia. }
  assert (cap < 2 ^ 64) by (rewrite E; apply Z.pow_lt_mono_r; lia).
  assert (0 < cap) by (rewrite E; lia).
  apply calloc_fn_ok in C3 as (_ & _ & C3); [|unfold is_u64; lia..]. unfold PTRDIFF_MAX in C3.
  assert (j <= 61).
  { destruct (Z.le_gt_cases j 61) as [|Hj1]; [done|]. exfalso. assert (2 ^ 62 <= 2 ^ j) by (apply Z.pow_le_mono_r; lia). lia. }
  rewrite (u64_small (cap - 1)) by lia. rewrite E. eexists.
  destruct (hash_fresh (V := V) hf (match eq with Some eq => eq | None => scl_hash_eq_mem end)
    (Z.lor (Z.shiftl (u32 (fst rand)) 32) (u32 (snd rand))) ksz vsz zk zv j) as [T Ec]; [lia|].
  eexists _, _. split; [done|]. split; [exact T|]. split; [exact Ec|]. simpl. split; [|lia].
  intros _ i. rewrite zlook_replicate. by destruct (_ && _).
Qed.

Lemma djb2_step h c : u64 (u64 (u64 (Z.shiftl h 5) + h) + c) = u64 (33 * h + c).
Proof.
  rewrite Z.shiftl_mul_pow2 by lia. unfold u64. rewrite (Zplus_mod_idemp_l (h * 2 ^ 5) h), (Zplus_mod_idemp_l (h * 2 ^ 5 + h) c).
  f_equal. lia.
Qed.

Lemma djb2_spec bytes :
  scl_hash_djb2 bytes (zlen bytes) = Ok (fold_left (fun h c => u64 (33 * h + c)) bytes 5381).
Proof.
  enough (wp (scl_hash_djb2 bytes (zlen bytes)) (fun h => h = fold_left (fun h c => u64 (33 * h + c)) bytes 5381)) as W.
  { apply wp_ok in W as (h & -> & ->). done. }
  unfold scl_hash_djb2.
  apply (wp_zfor (fun i h => h = fold_left (fun h c => u64 (33 * h + c)) (take (Z.to_nat i) bytes) 5381)).
  - done.
  - intros i h Hi ->. destruct (zlook_lt bytes i) as [c Hc]; [lia|]. wstep. apply wp_get; [lia|]. intros c' Hc'. simplify_eq. wstep.
    unfold zlook in Hc. destruct (Z.leb_spec 0 i); [|lia]. replace (Z.to_nat (i + 1)) with (S (Z.to_nat i)) by lia.
    rewrite (take_S_r _ _ _ Hc), fold_left_app. apply djb2_step.
  - intros h ->. by rewrite take_ge by (unfold zlen; lia).
Qed.

(** C29. The open-addressing hash map refines a finite map: whatever the hash
    function, the random seed and the allocator, after a successful
    initialisation every sequence of insertions, lookups, removals, membership
    tests and counts terminates without stray accesses and answers as the map
    does, provided that once something has been removed a key that is present
    is only inserted where the search for a free slot comes to it before it
    comes to a removed slot, or where the table grows first; it is never full,
    and insertion is refused only when the table
    cannot grow, leaving it unchanged.  Destroying it returns its blocks.
    When the initialisation runs out of memory after its first block was
    granted, the table is left with freed pointers, which destroying it frees
    again.  The library's own hash of a byte string is total. *)
Theorem hash_refines {K V} `{Countable K} (al : scl_allocator_t) `{!AllocatorOk al} (zero_key : K) (zero_value : V)
  (w : world) (t0 : scl_hash_t K V) (ksz vsz buckets : Z) (hf : K -> Z) (eq : option (K -> K -> bool)) (rand : Z * Z)
  (ops : list (hash_op K V))
  (Hksz : 1 <= ksz < 2 ^ 64) (Hvsz : 1 <= vsz < 2 ^ 64) (Hb : 1 <= buckets < 2 ^ 64)
  (Heq : match eq with Some eq => forall a b, eq a b = true <-> a = b | None => True end) :
  (exists e ht w1, scl_hash_init al zero_key zero_value w (Some t0) ksz vsz buckets (Some hf) eq rand = Ok (e, ht, w1) /\
    ((e = SCL_OK /\ (permitted_at (hash_step al) hash_spec in_place (ht, w1) (∅, false) ops ->
      exists outs ht2 w2 M ht3 w3, run (hash_step al) (ht, w1) ops = Ok (outs, (ht2, w2)) /\
        trace hash_spec (∅, false) ops outs M /\ scl_hash_destroy w2 ht2 = Ok (ht3, w3) /\ w_live w3 = w_live w)) \/
     (e = SCL_ERR_OUT_OF_MEMORY /\ w_live w1 = w_live w /\
      (calloc_fn al (w_reqs w) (scl_bit_ceil_sz buckets) ksz MAX_ALIGN = true -> scl_hash_destroy w1 ht = UB)))) /\
  (forall bytes, scl_hash_djb2 bytes (zlen bytes) = Ok (fold_left (fun h c => u64 (33 * h + c)) bytes 5381)).
Proof.
  split; [|apply djb2_spec].
  destruct (proj1 (wp_ok _ _) (hash_init_spec al zero_key zero_value w t0 ksz vsz buckets hf eq rand Hksz Hvsz Hb))
    as ([[e ht] w1] & E & R). exists e, ht, w1. split; [done|]. destruct R as [(-> & seed & R)|R]; [left|by right]. split; [done|]. intros Hops.
  set (f := match eq with Some eq => eq | None => scl_hash_eq_mem end) in *.
  assert (forall a b, f a b = true <-> a = b) as Hf.
  { unfold f. destruct eq as [eq|]; [exact Heq|]. intros a b. unfold scl_hash_eq_mem. apply bool_decide_eq_true. }
  destruct (proj1 (wp_ok _ _) (run_refines_at (hash_step al) hash_spec in_place _ _ _ ops
    (hash_simulates al hf f seed ksz vsz (w_live w) Hf Hksz Hvsz) R Hops)) as ([outs [ht2 w2]] & E2 & M & T & R2).
  destruct (hash_destroy_spec _ _ _ _ _ _ _ _ _ R2) as (ht3 & w3 & E3 & Hw3).
  by exists outs, ht2, w2, M, ht3, w3.
Qed.

(** All keys have the same home.  Key 2 is updated after key 3 behind it was
    removed. *)
Lemma hash_refines_witness :
  let ops := [HInsert (Some 1) (Some 10); HInsert (Some 2) (Some 20); HInsert (Some 3) (Some 30); HRemove (Some 3);
              HInsert (Some 2) (Some 21)] in
  exists outs M, trace hash_spec (∅, false) ops outs M.
Proof.
  intros ops.
  destruct (hash_refines small_allocator 0 0 (World 0 0) (Hash Null Null Null 0 0 0 id Z.eqb 0 8 8) 8 8 8 (fun _ => 0) (Some Z.eqb)
    (1, 2) ops ltac:(lia) ltac:(lia) ltac:(lia) Z.eqb_eq) as [(e & ht & w1 & E & [(_ & R)|(H & _)]) _].
  - destruct R as (outs & _ & _ & M & _ & _ & _ & T & _); [|exists outs, M; exact T].
    vm_compute in E. injection E as <- <- <-. unfold ops. clear. intros ops1 o ops2 outs s' a' Eo.
    destruct ops1 as [|? [|? [|? [|? [|? ops1]]]]]; simpl in Eo; [..|by destruct ops1]; injection Eo; clear Eo; intros; subst;
      [..|match goal with Er : run _ _ _ = _ |- _ => vm_compute in Er; injection Er as <- <- end;
          right; right; left; by vm_compute].
    all: match goal with T : trace _ _ _ _ _ |- _ => revert T end; clear; intros T.
    all: unfold in_place; first [exact I|destruct (s'.1); [left|exact I]].
    all: repeat match goal with T : trace _ _ (_ :: _) _ _ |- _ => inversion T; clear T; subst end.
    all: match goal with T : trace _ _ [] _ _ |- _ => inversion T; clear T; subst end.
    all: repeat match goal with HS : hash_spec (_, false) (HInsert _ _) _ _ |- _ => inversion HS; clear HS; subst end; done.
  - exfalso. vm_compute in E. rewrite H in E. discriminate E.
Defined.

(** A table where a removed slot takes a second entry for a present key: with
    both keys in the same chain, removing 1 and inserting 2 again stores 2
    twice, so that removing 2 leaves its older value in place. *)
Lemma hash_insert_duplicates :
  match scl_hash_init small_allocator 0 0 (World 0 0) (Some (Hash Null Null Null 0 0 0 id Z.eqb 0 8 8)) 8 8 4
          (Some (fun _ => 0)) (Some Z.eqb) (1, 2) with
  | Ok (_, ht, w) =>
      match run (hash_step small_allocator) (ht, w)
              [HInsert (Some 1) (Some 10); HInsert (Some 2) (Some 20); HRemove (Some 1); HInsert (Some 2) (Some 21);
               HCount; HRemove (Some 2); HGet (Some 2) true] with
      | Ok (outs, _) => outs = [Code SCL_OK; Code SCL_OK; Code SCL_OK; Code SCL_OK; Size 2; Code SCL_OK; Value 20]
      | _ => False
      end
  | _ => False
  end.
Proof. vm_compute. reflexivity. Qed.
