(* ===== verification/Bloom.v ===== *)
(** The Bloom filter of [libs/structures/bloom/scl_bloom.c], refined to the
    list of the items inserted since it was last cleared. *)

From S2P Require Import Prelude Core Refine Bytes.
#[local] Open Scope Z_scope.

(** The library's hash of a byte string. *)
Definition scl_bloom_hash_murmur (data : list Z) (len seed : Z) : res Z :=
  zfor 0 len
    (fun i h =>
       c ← get data i;
       let h := Z.lxor h c in
       let h := u64 (h * 0x9e3779b97f4a7c15) in
       mret (Z.lxor h (Z.shiftr h 47))) seed.

(** An item is a value of [K]; the hash callback takes it with a seed. *)
Record scl_bloom_t (K : Type) : Type := BloomFilter {
  bf_bits : ptr Z;
  bf_bit_count : Z;
  bf_byte_count : Z;
  bf_num_hashes : Z;
  bf_hash_func : K -> Z -> Z;
  bf_inserted : Z
}.
Arguments BloomFilter {K}.
Arguments bf_bits {K}.
Arguments bf_bit_count {K}.
Arguments bf_byte_count {K}.
Arguments bf_num_hashes {K}.
Arguments bf_hash_func {K}.
Arguments bf_inserted {K}.

Definition scl_bloom_set_bit (bits : ptr Z) (idx : Z) : res (ptr Z) :=
  c ← get_elem bits (idx / 8);
  set_elem bits (idx / 8) (u8 (Z.lor c (Z.shiftl 1 (idx mod 8)))).

Definition scl_bloom_test_bit (bits : ptr Z) (idx : Z) : res bool :=
  c ← get_elem bits (idx / 8); mret (negb (Z.land (Z.shiftr c (idx mod 8)) 1 =? 0)).

Section Defs.
Context {K : Type} (al : scl_allocator_t).
Notation bloom := (scl_bloom_t K).

(** The floating-point arithmetic is a parameter: [rate_ok] says whether the
    rate is inside (0, 1), [bits_d] is the number of bits, [None] when it is
    outside the range of [size_t], and [hashes_d] the number of hashes for a
    number of bits. *)
Definition scl_bloom_init (w : world) (bf : option bloom) (expected_items : Z) (rate_ok : bool) (bits_d : option Z)
    (hashes_d : Z -> Z) (hash_func : option (K -> Z -> Z)) : res (scl_error_t * option bloom * world) :=
  match bf with
  | None => mret (SCL_ERR_NULL_PTR, None, w)
  | Some f =>
      match hash_func with
      | None => mret (SCL_ERR_INVALID_ARG, Some f, w)
      | Some h =>
          if (expected_items =? 0) || negb rate_ok then mret (SCL_ERR_INVALID_ARG, Some f, w)
          else
            match bits_d with
            | None => mret (SCL_ERR_INVALID_ARG, Some f, w)
            | Some bits =>
                let bits := if bits =? 0 then 1 else bits in
                let num_hashes := hashes_d bits in
                let num_hashes := if num_hashes <? 1 then 1 else num_hashes in
                let num_hashes := if num_hashes >? 64 then 64 else num_hashes in
                match scl_add_overflow bits 7 with
                | None => mret (SCL_ERR_SIZE_OVERFLOW, Some f, w)
                | Some bits_padded =>
                    let bytes := bits_padded / 8 in
                    let '(b, w) := scl_calloc al w bytes 1 MAX_ALIGN 0 in
                    match b with
                    | None =>
                        mret (SCL_ERR_OUT_OF_MEMORY,
                              Some (BloomFilter Null (bf_bit_count f) (bf_byte_count f) (bf_num_hashes f) (bf_hash_func f) (bf_inserted f)), w)
                    | Some b => mret (SCL_OK, Some (BloomFilter (Ptr b) bits bytes num_hashes h 0), w)
                    end
                end
            end
      end
  end.

Definition with_bits (f : bloom) (bits : ptr Z) (inserted : Z) : bloom :=
  BloomFilter bits (bf_bit_count f) (bf_byte_count f) (bf_num_hashes f) (bf_hash_func f) inserted.

Definition scl_bloom_destroy (w : world) (bf : option bloom) : res (option bloom * world) :=
  match bf with
  | None => mret (None, w)
  | Some f => w ← free_ptr w (bf_bits f); mret (Some (BloomFilter Null 0 0 (bf_num_hashes f) (bf_hash_func f) 0), w)
  end.

Definition scl_bloom_insert (bf : option bloom) (data : option K) : res (scl_error_t * option bloom) :=
  match bf, data with
  | Some f, Some k =>
      bits ← zfor 0 (bf_num_hashes f)
        (fun i bits => scl_bloom_set_bit bits (bf_hash_func f k i mod bf_bit_count f)) (bf_bits f);
      mret (SCL_OK, Some (with_bits f bits (u64 (bf_inserted f + 1))))
  | _, _ => mret (SCL_ERR_NULL_PTR, bf)
  end.

Definition scl_bloom_maybe_contains (bf : option bloom) (data : option K) : res bool :=
  match bf, data with
  | Some f, Some k =>
      r ← zfor_ret 0 (bf_num_hashes f)
        (fun i s =>
           b ← scl_bloom_test_bit (bf_bits f) (bf_hash_func f k i mod bf_bit_count f);
           if negb b then mret (inr false) else mret (inl s)) tt;
      mret (match r with inl _ => true | inr b => b end)
  | _, _ => mret false
  end.

Definition scl_bloom_clear (bf : option bloom) : res (option bloom) :=
  match bf with
  | None => mret None
  | Some f =>
      bits ← zfor 0 (bf_byte_count f) (fun i bits => set_elem bits i 0) (bf_bits f);
      mret (Some (with_bits f bits 0))
  end.

Definition scl_bloom_count (bf : option bloom) : Z := match bf with Some f => bf_inserted f | None => 0 end.
End Defs.

(** ** Operations and specification *)
Inductive bloom_op (K : Type) : Type :=
| BInsert (k : option K)
| BContains (k : option K)
| BClear
| BCount.
Arguments BInsert {K}.
Arguments BContains {K}.
Arguments BClear {K}.
Arguments BCount {K}.

Section Spec.
Context {K : Type} (h : K -> Z -> Z) (m num : Z).
Notation bloom := (scl_bloom_t K).
Implicit Types (S : list K) (k : K) (b : block Z).

Definition bloom_step (bf : option bloom) (op : bloom_op K) : res (reply K * option bloom) :=
  match op with
  | BInsert k => '(e, bf) ← scl_bloom_insert bf k; mret (Code e, bf)
  | BContains k => r ← scl_bloom_maybe_contains bf k; mret (Flag r, bf)
  | BClear => bf ← scl_bloom_clear bf; mret (Code SCL_OK, bf)
  | BCount => mret (Size (scl_bloom_count bf), bf)
  end.

(** The bit [i] is one of the bits of an inserted item. *)
Definition marked S (i : Z) : Prop := exists k j, k ∈ S /\ 0 <= j < num /\ h k j mod m = i.
(** All the bits of [k] are bits of inserted items. *)
Definition covered S k : Prop := forall j, 0 <= j < num -> marked S (h k j mod m).

(** The state is the list of insertions since the last clear.  The answer to a
    membership test is whether the bits of the item are covered; so it is
    [true] for every inserted item. *)
Inductive bloom_spec : list K -> bloom_op K -> reply K -> list K -> Prop :=
| bs_insert S k : bloom_spec S (BInsert (Some k)) (Code SCL_OK) (k :: S)
| bs_insert_null S : bloom_spec S (BInsert None) (Code SCL_ERR_NULL_PTR) S
| bs_contains S k r : (r = true <-> covered S k) -> (k ∈ S -> r = true) -> bloom_spec S (BContains (Some k)) (Flag r) S
| bs_contains_null S : bloom_spec S (BContains None) (Flag false) S
| bs_clear S : bloom_spec S BClear (Code SCL_OK) []
| bs_count S : bloom_spec S BCount (Size (u64 (zlen S))) S.

(** The filter holds exactly the bits of the insertions. *)
Definition bits_ok b (P : Z -> Prop) : Prop :=
  zlen b = (m + 7) / 8 /\ forall i, 0 <= i < m ->
    exists c, zlook b (i / 8) = Some (Some c) /\ (Z.testbit c (i mod 8) = true <-> P i).

Definition bloom_rep (bf : option bloom) S : Prop :=
  exists b, bf = Some (BloomFilter (Ptr b) m ((m + 7) / 8) num h (u64 (zlen S))) /\ bits_ok b (marked S).

Hypothesis m_pos : 1 <= m.

Lemma wp_set_bit b P i (Q : ptr Z -> Prop) : bits_ok b P -> 0 <= i < m ->
  (forall b', bits_ok b' (fun j => j = i \/ P j) -> Q (Ptr b')) -> wp (scl_bloom_set_bit (Ptr b) i) Q.
Proof.
  intros [El Hb] Hi HQ. destruct (Hb i Hi) as (c & Ec & _). unfold scl_bloom_set_bit. wstep.
  eapply wp_get_elem; [exact Ec|]. apply wp_set_elem; [by eapply zlook_Some|]. apply HQ.
  split; [by rewrite zlen_zupd|]. intros j Hj. destruct (Hb j Hj) as (d & Ed & Hd).
  pose proof (zlook_Some _ _ _ Ec). rewrite zlook_zupd. case_decide as Hij.
  - destruct Hij as [Hij _]. eexists. split; [done|]. rewrite u8_bit, set_bit by zdiv.
    destruct (Z.eqb_spec (i mod 8) (j mod 8)).
    + assert (j = i) as -> by zdiv. naive_solver.
    + rewrite <- Hij, Ec in Ed. injection Ed as <-. rewrite Hd. split; [auto|]. intros [->|]; [congruence|done].
  - exists d. split; [done|]. rewrite Hd. split; [auto|]. intros [->|]; [|done]. exfalso. apply Hij. split; [done|lia].
Qed.

Lemma wp_test_bit b P i (Q : bool -> Prop) : bits_ok b P -> 0 <= i < m -> (forall r, (r = true <-> P i) -> Q r) ->
  wp (scl_bloom_test_bit (Ptr b) i) Q.
Proof.
  intros [El Hb] Hi HQ. destruct (Hb i Hi) as (c & Ec & Hc). unfold scl_bloom_test_bit. wstep.
  eapply wp_get_elem; [exact Ec|]. wstep. apply HQ. rewrite <- Hc.
  assert (Z.land (Z.shiftr c (i mod 8)) 1 = Z.b2z (Z.testbit c (i mod 8))) as ->.
  { change 1 with (Z.ones 1) at 1. rewrite Z.land_ones by lia. rewrite Z.testbit_spec', Z.shiftr_div_pow2 by zdiv. done. }
  by destruct (Z.testbit c (i mod 8)).
Qed.

Lemma bits_ext b P P' : (forall i, 0 <= i < m -> P i <-> P' i) -> bits_ok b P -> bits_ok b P'.
Proof.
  intros E [El Hb]. split; [done|]. intros i Hi. destruct (Hb i Hi) as (c & Ec & Hc). exists c. split; [done|]. by rewrite Hc, E.
Qed.

Lemma marked_cons S k i : marked (k :: S) i <-> marked S i \/ exists j, 0 <= j < num /\ h k j mod m = i.
Proof.
  unfold marked. split.
  - intros (k' & j & [->|Hk]%elem_of_cons & Hj & E); [right|left]; eauto.
  - intros [(k' & j & Hk & Hj & E)|(j & Hj & E)].
    + exists k', j. split; [by right|done].
    + exists k, j. split; [left|done].
Qed.

Lemma bloom_sim : Simulates bloom_step bloom_spec bloom_rep.
Proof.
  intros bf S op (b & -> & Hb). assert (bloom_rep (Some (BloomFilter (Ptr b) m ((m + 7) / 8) num h (u64 (zlen S)))) S) as R by by exists b.
  assert (forall k j, 0 <= h k j mod m < m) as Hr by (intros; apply Z.mod_pos_bound; lia).
  destruct op as [[k|]|[k|]| |]; cbn [bloom_step]; 
    try (exists S; split; [constructor|exact R]).
  - unfold scl_bloom_insert. wstep. wstep. cbn [bf_num_hashes bf_bits bf_hash_func bf_bit_count].
    apply (wp_zfor (fun i p => exists b', p = Ptr b' /\ bits_ok b' (fun x => (exists j, 0 <= j < i /\ h k j mod m = x) \/ marked S x))).
    + exists b. split; [done|]. eapply bits_ext; [|exact Hb]. intros i _. split; [auto|]. intros [(j & Hj & _)|]; [lia|done].
    + intros i p Hi (b' & -> & Hb'). eapply wp_set_bit; [exact Hb'|apply Hr|]. intros b2 Hb2. exists b2. split; [done|].
      eapply bits_ext; [|exact Hb2]. intros x _. split.
      * intros [->|[(j & Hj & E)|]]; [left; exists i; split; [lia|done]|left; exists j; split; [lia|done]|by right].
      * intros [(j & Hj & E)|]; [|auto]. destruct (decide (j = i)) as [->|]; [by left|right; left; exists j; split; [lia|done]].
    + intros p (b' & -> & Hb'). wstep. wstep. exists (k :: S). split; [constructor|]. exists b'. split.
      * unfold with_bits. simpl. do 2 f_equal. rewrite zlen_cons. unfold u64. by rewrite Zplus_mod_idemp_l.
      * eapply bits_ext; [|exact Hb']. intros x _. rewrite marked_cons. split.
        -- intros [(j & Hj & E)|]; [right; exists j; split; [lia|done]|by left].
        -- intros [|(j & Hj & E)]; [by right|left; exists j; split; [lia|done]].
  - unfold scl_bloom_maybe_contains. wstep. wstep. cbn [bf_num_hashes bf_bits bf_hash_func bf_bit_count].
    apply (wp_zfor_ret (fun i _ => forall j, 0 <= j < i -> marked S (h k j mod m))).
    + intros j Hj. lia.
    + intros i s Hi HI. wstep. eapply wp_test_bit; [exact Hb|apply Hr|]. intros [|] Er; simpl.
      * intros j Hj. destruct (decide (j = i)) as [->|]; [by apply Er|apply HI; lia].
      * assert (~ covered S k) as Hn by (intros Hc; specialize (Hc i Hi); apply Er in Hc; done).
        exists S. split; [|exact R]. constructor; [naive_solver|]. intros Hk. exfalso. apply Hn. intros j Hj. by exists k, j.
    + intros _ HI. simpl. exists S. split; [|exact R]. constructor; [|done]. split; [|done]. intros _ j Hj. apply HI. lia.
  - unfold scl_bloom_clear. wstep. wstep. cbn [bf_byte_count bf_bits]. destruct Hb as [El Hb].
    apply (wp_zfor (fun i p => exists b', p = Ptr b' /\ zlen b' = zlen b /\ forall j, 0 <= j < i -> zlook b' j = Some (Some 0))).
    + exists b. split; [done|]. split; [done|]. intros j Hj. lia.
    + intros i p Hi (b' & -> & El' & Hz). apply wp_set_elem; [lia|]. eexists. split; [done|]. split; [by rewrite zlen_zupd|].
      intros j Hj. rewrite zlook_zupd. case_decide; [done|]. apply Hz. lia.
    + intros p (b' & -> & El' & Hz). wstep. wstep. exists []. split; [constructor|]. exists b'. split; [done|].
      split; [lia|]. intros i Hi. exists 0. split; [apply Hz; zdiv|]. rewrite Z.bits_0. split; [done|]. by intros (k & j & Hk%elem_of_nil & _).
Qed.
End Spec.

Lemma bloom_init_spec {K} (al : scl_allocator_t) `{!AllocatorOk al} w (f : scl_bloom_t K) items bits hashes_d h :
  items <> 0 -> 0 <= bits < 2 ^ 64 ->
  let m := Z.max 1 bits in let num := Z.min 64 (Z.max 1 (hashes_d m)) in
  wp (scl_bloom_init al w (Some f) items true (Some bits) hashes_d (Some h)) (fun '(e, bf, w') =>
    (e = SCL_OK /\ bloom_rep h m num bf [] /\ w_live w' = w_live w + 1) \/
    (e = SCL_ERR_SIZE_OVERFLOW /\ 2 ^ 64 <= m + 7 /\ w_live w' = w_live w) \/
    (e = SCL_ERR_OUT_OF_MEMORY /\ w_live w' = w_live w /\ exists bf', scl_bloom_destroy w' bf = Ok (bf', w'))).
Proof.
  intros Hi Hb m num. unfold scl_bloom_init. destruct (Z.eqb_spec items 0); [done|]. cbn [orb negb].
  assert ((if bits =? 0 then 1 else bits) = m) as -> by (unfold m; destruct (Z.eqb_spec bits 0); lia). cbv zeta.
  assert ((let n := if hashes_d m <? 1 then 1 else hashes_d m in if n >? 64 then 64 else n) = num) as <-.
  { unfold num. cbv zeta. rewrite Z.gtb_ltb. destruct (Z.ltb_spec (hashes_d m) 1).
    - simpl. lia.
    - destruct (Z.ltb_spec 64 (hashes_d m)); lia. }
  assert (1 <= m < 2 ^ 64) as Hm by lia. rewrite scl_add_overflow_spec by (unfold is_u64; lia).
  destruct (Z.ltb_spec (m + 7) (2 ^ 64)); [|wstep; right; left; auto].
  unfold scl_calloc. destruct (calloc_fn al (w_reqs w) ((m + 7) / 8) 1 MAX_ALIGN) eqn:Ec; wstep.
  - left. split; [done|]. split; [|simpl; lia]. eexists. split; [done|]. split; [rewrite zlen_replicate; zdiv|].
    intros i Him. exists 0. split.
    + rewrite zlook_replicate. destruct (Z.leb_spec 0 (i / 8)), (Z.ltb_spec (i / 8) (Z.of_nat (Z.to_nat ((m + 7) / 8)))); try zdiv. done.
    + rewrite Z.bits_0. split; [done|]. by intros (k & j & Hk%elem_of_nil & _).
  - right. right. split; [done|]. split; [simpl; lia|]. by eexists.
Qed.

(** C33. The Bloom filter holds the list of the items inserted since it was
    last cleared: for every sequence of operations, over any hash function,
    size and allocator, its answers are those of that list; membership is
    affirmed exactly when every bit of the item is a bit of an inserted one,
    so there are no false negatives, and the count is that of the insertions.
    No access is stray, and destroying the filter, initialised or not, leaves
    no memory behind.  The library's hash of bytes is a word for every
    string. *)
Theorem bloom_refines {K} (al : scl_allocator_t) `{!AllocatorOk al} (w : world) (f : scl_bloom_t K) (items bits : Z)
  (hashes_d : Z -> Z) (h : K -> Z -> Z) (ops : list (bloom_op K)) (Hi : items <> 0) (Hb : 0 <= bits < 2 ^ 64) :
  let m := Z.max 1 bits in let num := Z.min 64 (Z.max 1 (hashes_d m)) in
  (exists e bf w1, scl_bloom_init al w (Some f) items true (Some bits) hashes_d (Some h) = Ok (e, bf, w1) /\
    ((e = SCL_OK /\ exists outs bf2 S bf3 w2, run bloom_step bf ops = Ok (outs, bf2) /\
        trace (bloom_spec h m num) [] ops outs S /\ scl_bloom_destroy w1 bf2 = Ok (bf3, w2) /\ w_live w2 = w_live w) \/
     (e = SCL_ERR_SIZE_OVERFLOW /\ 2 ^ 64 <= m + 7 /\ w_live w1 = w_live w) \/
     (e = SCL_ERR_OUT_OF_MEMORY /\ w_live w1 = w_live w /\ exists bf', scl_bloom_destroy w1 bf = Ok (bf', w1)))) /\
  (forall bytes seed, is_u64 seed -> (forall i c, zlook bytes i = Some c -> 0 <= c < 256) ->
     exists x, scl_bloom_hash_murmur bytes (zlen bytes) seed = Ok x /\ is_u64 x).
Proof.
  intros m num. split.
  - destruct (proj1 (wp_ok _ _) (bloom_init_spec al w f items bits hashes_d h Hi Hb)) as ([[e bf] w1] & E & H).
    exists e, bf, w1. split; [done|]. destruct H as [(-> & R & Hw)|H]; [left|by right]. split; [done|].
    destruct (proj1 (wp_ok _ _) (run_refines bloom_step _ _ (Simulates0 := bloom_sim h m num ltac:(lia)) bf [] ops R))
      as ([outs bf2] & E2 & S & T & (b & -> & _)).
    eexists outs, _, S, _, (World (w_reqs w1) (w_live w1 - 1)). split; [done|]. split; [done|]. split; [reflexivity|]. simpl. lia.
  - intros bytes seed Hs Hc. apply wp_ok. unfold scl_bloom_hash_murmur. apply (wp_zfor (fun _ x => is_u64 x)); [done| |done].
    intros i x Hi' Hx. wstep. wstep. wstep. pose proof (u64_range (Z.lxor x x0 * 0x9e3779b97f4a7c15)) as Hr.
    revert Hr. generalize (u64 (Z.lxor x x0 * 0x9e3779b97f4a7c15)). intros y Hr. apply u64_lxor; [done|].
    rewrite Z.shiftr_div_pow2 by lia. unfold is_u64. zdiv.
Qed.

Lemma bloom_refines_witness :
  exists outs S, trace (bloom_spec (fun k i => k * 7 + i) 20 3) [] [BInsert (Some 4); BContains (Some 4); BContains (Some 5); BCount] outs S.
Proof.
  destruct (bloom_refines small_allocator (World 0 0) (BloomFilter Null 0 0 0 (fun k _ => k) 0) 5 20 (fun _ => 3) (fun k i => k * 7 + i)
    [BInsert (Some 4); BContains (Some 4); BContains (Some 5); BCount]) as [(e & bf & w1 & E & H) _]; [done|lia|].
  destruct H as [(_ & outs & _ & S & _ & _ & _ & T & _)|[(H & _)|(H & _)]].
  - exists outs, S. exact T.
  - exfalso. vm_compute in E. rewrite H in E. discriminate E.
  - exfalso. vm_compute in E. rewrite H in E. discriminate E.
Defined.
