(* ===== verification/Fenwick.v ===== *)
(** The Fenwick tree of [libs/structures/fenwick/scl_fenwick.c], refined to an
    array with point updates and range sums. *)

From S2P Require Import Prelude Core Refine Containers UnionFind.
#[local] Open Scope Z_scope.

(** [i & -i] on a [size_t]. *)
Definition lowbit (i : Z) : Z := Z.land i (u64 (- i)).

(** [add a b] and [sub a b] are what the callbacks store in [*out]. *)
Record scl_fenwick_t (A : Type) : Type := Fenwick {
  fw_tree : ptr A;
  fw_scratch : ptr A;
  fw_n : Z;
  fw_element_size : Z;
  fw_add : A -> A -> A;
  fw_sub : A -> A -> A
}.
Arguments Fenwick {A}.
Arguments fw_tree {A}.
Arguments fw_scratch {A}.
Arguments fw_n {A}.
Arguments fw_element_size {A}.
Arguments fw_add {A}.
Arguments fw_sub {A}.

Section Defs.
Context {A : Type} (al : scl_allocator_t).
Implicit Types (w : world) (fw : option (scl_fenwick_t A)).

(** [zero] is the value whose bytes are all zero. *)
Definition scl_fenwick_init w fw (n element_size : Z) (data : option (list A)) (zero : A)
    (add sub : option (A -> A -> A)) : res (scl_error_t * option (scl_fenwick_t A) * world) :=
  match fw, add, sub, data with
  | Some f, Some add, Some sub, Some src =>
      if (n =? 0) || (element_size =? 0) then mret (SCL_ERR_INVALID_ARG, Some f, w)
      else if n =? SIZE_MAX then mret (SCL_ERR_SIZE_OVERFLOW, Some f, w)
      else
        let '(tree, w) := scl_calloc al w (n + 1) element_size MAX_ALIGN zero in
        let '(scratch, w) := scl_alloc al w element_size MAX_ALIGN element_size in
        match tree, scratch with
        | Some tree, Some scratch =>
            tree ← zfor 1 (n + 1) (fun i tree => x ← get src (i - 1); set tree i (Some x)) tree;
            tree ← zfor 1 (n + 1)
              (fun i tree =>
                 let j := u64 (i + lowbit i) in
                 if j <=? n then
                   a ← get_cell tree j; b ← get_cell tree i; set tree j (Some (add a b))
                 else mret tree) tree;
            mret (SCL_OK, Some (Fenwick (Ptr tree) (Ptr scratch) n element_size add sub), w)
        | _, _ =>
            w ← free_ptr w (to_ptr tree);
            w ← free_ptr w (to_ptr scratch);
            mret (SCL_ERR_OUT_OF_MEMORY,
                  Some (Fenwick (after_free (to_ptr tree)) (after_free (to_ptr scratch)) (fw_n f)
                          (fw_element_size f) (fw_add f) (fw_sub f)), w)
        end
  | _, _, _, _ => mret (SCL_ERR_NULL_PTR, fw, w)
  end.

Definition scl_fenwick_destroy w fw : res (option (scl_fenwick_t A) * world) :=
  match fw with
  | None => mret (None, w)
  | Some f =>
      w ← free_ptr w (fw_tree f);
      w ← free_ptr w (fw_scratch f);
      mret (Some (Fenwick Null Null 0 (fw_element_size f) (fw_add f) (fw_sub f)), w)
  end.

Definition scl_fenwick_update fw (idx : Z) (delta : option A) : res (scl_error_t * option (scl_fenwick_t A)) :=
  match fw, delta with
  | Some (Fenwick tree scratch n es add sub), Some delta =>
      if idx >=? n then mret (SCL_ERR_INVALID_INDEX, fw)
      else
        tree ← loop (S (Z.to_nat n))
          (fun '(tree, i) =>
             if i <=? n then
               a ← get_elem tree i;
               tree ← set_elem tree i (add a delta);
               mret (inl (tree, u64 (i + lowbit i)))
             else mret (inr tree)) (tree, idx + 1);
        mret (SCL_OK, Some (Fenwick tree scratch n es add sub))
  | _, _ => mret (SCL_ERR_NULL_PTR, fw)
  end.

(** [acc] is [*out] once the flag [first] is cleared. *)
Definition scl_fenwick_prefix fw (idx : Z) (out : bool) : res (scl_error_t * option A) :=
  match fw, out with
  | Some (Fenwick tree scratch n es add sub), true =>
      if idx >=? n then mret (SCL_ERR_INVALID_INDEX, None)
      else
        acc ← loop (S (S (Z.to_nat n)))
          (fun '(acc, i) =>
             if i >? 0 then
               x ← get_elem tree i;
               mret (inl (Some (match acc with None => x | Some a => add a x end), u64 (i - lowbit i)))
             else mret (inr acc)) (None, idx + 1);
        mret (match acc with None => SCL_ERR_EMPTY | Some _ => SCL_OK end, acc)
  | _, _ => mret (SCL_ERR_NULL_PTR, None)
  end.

(** The prefix below the range goes through the scratch element. *)
Definition scl_fenwick_range_query fw (l r : Z) (out : bool)
    : res (scl_error_t * option A * option (scl_fenwick_t A)) :=
  match fw, out with
  | Some (Fenwick tree scratch n es add sub), true =>
      if (l >? r) || (r >=? n) then mret (SCL_ERR_INVALID_ARG, None, fw)
      else
        '(err, acc) ← scl_fenwick_prefix fw r true;
        match err, acc with
        | SCL_OK, Some acc =>
            if l >? 0 then
              '(err, low) ← scl_fenwick_prefix fw (l - 1) true;
              match err, low with
              | SCL_OK, Some low =>
                  scratch ← set_elem scratch 0 low;
                  low ← get_elem scratch 0;
                  mret (SCL_OK, Some (sub acc low), Some (Fenwick tree scratch n es add sub))
              | err, _ => mret (err, Some acc, fw)
              end
            else mret (SCL_OK, Some acc, fw)
        | err, _ => mret (err, acc, fw)
        end
  | _, _ => mret (SCL_ERR_NULL_PTR, None, fw)
  end.
End Defs.

(** ** The operations as one step function

    The indices are converted to [size_t]. *)
Inductive fenwick_op (A : Type) : Type :=
| FUpdate (idx : Z) (delta : option A)
| FPrefix (idx : Z) (out : bool)
| FRange (l r : Z) (out : bool).
Arguments FUpdate {A}.
Arguments FPrefix {A}.
Arguments FRange {A}.

Definition fenwick_step {A} (fw : option (scl_fenwick_t A)) (op : fenwick_op A)
    : res (reply A * option (scl_fenwick_t A)) :=
  match op with
  | FUpdate i d => '(e, fw) ← scl_fenwick_update fw (u64 i) d; mret (Code e, fw)
  | FPrefix i out => '(e, x) ← scl_fenwick_prefix fw (u64 i) out; mret (value_or e x, fw)
  | FRange l r out => '(e, x, fw) ← scl_fenwick_range_query fw (u64 l) (u64 r) out; mret (value_or e x, fw)
  end.

(** ** The lowest set bit *)
Lemma odd_part i : 0 < i -> exists v q, 0 <= v /\ 0 <= q /\ i = 2 ^ v * (2 * q + 1).
Proof.
  intros Hi. induction (Z.lt_wf 0 i) as [i _ IH]. destruct (Z.Even_or_Odd i) as [[j ->]|[j ->]].
  - destruct (IH j) as (v & q & Hv & Hq & ->); [lia|lia|]. exists (v + 1), q.
    rewrite Z.pow_add_r by lia. split; [lia|]. split; [done|]. lia.
  - exists 0, j. split; [done|]. split; [lia|]. lia.
Qed.

Lemma land_opp_odd q : Z.land (2 * q + 1) (- (2 * q + 1)) = 1.
Proof.
  replace (- (2 * q + 1)) with (Z.lnot (2 * q)) by (unfold Z.lnot; lia).
  apply Z.bits_inj'. intros n Hn. rewrite Z.land_spec, Z.lnot_spec by done.
  destruct (decide (n = 0)) as [->|].
  - rewrite Z.testbit_odd_0, Z.testbit_even_0. done.
  - replace n with (Z.succ (n - 1)) by lia. rewrite Z.testbit_odd_succ, Z.testbit_even_succ by lia.
    rewrite andb_negb_r. symmetry. change 1 with (2 ^ 0). apply Z.pow2_bits_false. lia.
Qed.

Lemma lowbit_spec i :
  0 < i < 2 ^ 64 -> exists v q, 0 <= v /\ 0 <= q /\ i = 2 ^ v * (2 * q + 1) /\ lowbit i = 2 ^ v.
Proof.
  intros Hi. destruct (odd_part i) as (v & q & Hv & Hq & E); [lia|]. exists v, q. do 3 (split; [done|]).
  unfold lowbit, u64. rewrite <- Z.land_ones, (Z.land_comm (- i)), Z.land_assoc, Z.land_ones by lia.
  rewrite Z.mod_small by lia. rewrite E.
  replace (- (2 ^ v * (2 * q + 1))) with (- (2 * q + 1) * 2 ^ v) by lia. rewrite (Z.mul_comm (2 ^ v)).
  rewrite <- !Z.shiftl_mul_pow2, <- Z.shiftl_land, land_opp_odd, Z.shiftl_mul_pow2 by lia. lia.
Qed.

(** Powers of two are comparable up to a factor. *)
Lemma pow_gap u v : 0 <= u -> 0 <= v -> 2 ^ v < 2 ^ u -> exists c, 2 ^ u = 2 ^ v * (2 * c) /\ 0 < c.
Proof.
  intros Hu Hv H. apply Z.pow_lt_mono_r_iff in H; [|lia|lia]. exists (2 ^ (u - v - 1)).
  split; [|apply Z.pow_pos_nonneg; lia]. change 2 with (2 ^ 1) at 3. rewrite <- !Z.pow_add_r by lia. f_equal. lia.
Qed.

Lemma mul_lt_inv m a b : 0 < m -> m * a < m * b -> a < b.
Proof. intros Hm H. by apply Z.mul_lt_mono_pos_l in H. Qed.

(** [scaled m a b] compares multiples of [m]. *)
Ltac scaled m a b := assert (a < b) by (apply (mul_lt_inv m); [lia|nia]).

Lemma pow2_pos v : 0 <= v -> 0 < 2 ^ v.
Proof. intros. apply Z.pow_pos_nonneg; lia. Qed.

Lemma lowbit_range i : 0 < i < 2 ^ 64 -> 1 <= lowbit i <= i.
Proof.
  intros Hi. destruct (lowbit_spec i Hi) as (v & q & Hv & Hq & E & ->).
  pose proof (pow2_pos v Hv). nia.
Qed.

(** Nothing between [i] and [i + lowbit i] covers [i]. *)
Lemma lowbit_gap i j : 0 < i -> i < j < i + lowbit i -> j < 2 ^ 64 -> i <= j - lowbit j.
Proof.
  intros Hi Hj Hmax. destruct (lowbit_spec i ltac:(lia)) as (v & q & Hv & Hq & Ei & Eli).
  destruct (lowbit_spec j ltac:(lia)) as (u & p & Hu & Hp & Ej & ->). rewrite Eli in Hj.
  pose proof (pow2_pos v Hv). pose proof (pow2_pos u Hu).
  destruct (Z.lt_trichotomy (2 ^ u) (2 ^ v)) as [H1|[H1|H1]].
  - destruct (pow_gap v u Hv Hu H1) as (c & Ec & Hc). rewrite Ec in *.
    scaled (2 ^ u) (2 * c * (2 * q + 1)) (2 * p + 1). nia.
  - rewrite H1 in *. scaled (2 ^ v) (2 * q + 1) (2 * p + 1). scaled (2 ^ v) (2 * p + 1) (2 * q + 2). lia.
  - destruct (pow_gap u v Hu Hv H1) as (c & Ec & Hc). rewrite Ec in *.
    scaled (2 ^ v) (2 * q + 1) (2 * c * (2 * p + 1)). scaled (2 ^ v) (2 * c * (2 * p + 1)) (2 * q + 2). lia.
Qed.

(** The sum of an odd and an even multiple of a power of two. *)
Lemma lowbit_even m k v : 0 <= v -> 0 < k < 2 ^ 64 -> k = 2 ^ v * (2 * m) -> 2 * 2 ^ v <= lowbit k.
Proof.
  intros Hv Hk E. destruct (lowbit_spec k Hk) as (u & p & Hu & Hp & Ej & ->).
  pose proof (pow2_pos v Hv). pose proof (pow2_pos u Hu).
  destruct (Z.lt_trichotomy (2 ^ u) (2 ^ v)) as [H1|[H1|H1]].
  - destruct (pow_gap v u Hv Hu H1) as (c & Ec & Hc). rewrite Ec in *. exfalso.
    assert (2 * p + 1 = 2 * (c * (2 * m))) by (apply (Z.mul_reg_l _ _ (2 ^ u)); lia). lia.
  - rewrite H1 in *. exfalso. assert (2 * p + 1 = 2 * m) by (apply (Z.mul_reg_l _ _ (2 ^ v)); lia). lia.
  - destruct (pow_gap u v Hu Hv H1) as (c & Ec & Hc). rewrite Ec in *. nia.
Qed.

Lemma lowbit_bound i : 0 <= i -> 0 <= lowbit i.
Proof. intros Hi. apply Z.land_nonneg. by left. Qed.

(** The next node covers at least twice as much. *)
Lemma lowbit_next i : 0 < i -> i + lowbit i < 2 ^ 64 -> 2 * lowbit i <= lowbit (i + lowbit i).
Proof.
  intros Hi Hmax. pose proof (lowbit_bound i ltac:(lia)).
  destruct (lowbit_spec i ltac:(lia)) as (v & q & Hv & Hq & Ei & Eli). rewrite Eli in *.
  apply (lowbit_even (q + 1)); [done|lia|lia].
Qed.

(** The nodes that feed [j] just before [i = j - 2^v] end at [i - lowbit i]. *)
Lemma lowbit_prev i :
  0 < i -> i + lowbit i < 2 ^ 64 -> i - lowbit i <> i + lowbit i - lowbit (i + lowbit i) ->
  0 < i - lowbit i /\ lowbit (i - lowbit i) = 2 * lowbit i.
Proof.
  intros Hi Hmax Hne. pose proof (lowbit_next i Hi Hmax) as Hn. pose proof (lowbit_bound i ltac:(lia)).
  destruct (lowbit_spec i ltac:(lia)) as (v & q & Hv & Hq & Ei & Eli). rewrite Eli in *.
  pose proof (pow2_pos v Hv).
  destruct (lowbit_spec (i + 2 ^ v) ltac:(lia)) as (u & p & Hu & Hp & Ej & Elj). rewrite Elj in *.
  assert (2 ^ (v + 1) = 2 * 2 ^ v) as E1 by (rewrite Z.pow_add_r by lia; lia).
  destruct (pow_gap u (v + 1) Hu ltac:(lia) ltac:(lia)) as (d & Ed & Hd). rewrite Ed, E1 in *.
  assert (i = 2 ^ v * (4 * d * (2 * p + 1) - 1)) as Ei2 by lia.
  assert (i - 2 ^ v = 2 ^ v * (4 * d * (2 * p + 1) - 2)) as Ek by lia.
  assert (0 < 4 * d * (2 * p + 1) - 2) as Hpos by nia.
  assert (0 < i - 2 ^ v) by nia. split; [done|].
  destruct (lowbit_spec (i - 2 ^ v) ltac:(lia)) as (t & s & Ht & Hs & Et & ->).
  pose proof (pow2_pos t Ht). set (x := 2 * d * (2 * p + 1) - 1) in *.
  assert (i - 2 ^ v = 2 ^ (v + 1) * x) as Ex by (unfold x; lia).
  assert (exists y, x = 2 * y + 1) as [y Ey] by (exists (d * (2 * p + 1) - 1); unfold x; lia).
  clearbody x. rewrite <- E1 in *. pose proof (pow2_pos (v + 1) ltac:(lia)).
  destruct (Z.lt_trichotomy (2 ^ t) (2 ^ (v + 1))) as [G|[G|G]]; [|done|]; exfalso.
  - destruct (pow_gap (v + 1) t ltac:(lia) Ht G) as (g & Eg & Hg). rewrite Eg in Ex.
    assert (2 * s + 1 = 2 * (g * x)) by (apply (Z.mul_reg_l _ _ (2 ^ t)); lia). lia.
  - destruct (pow_gap t (v + 1) Ht ltac:(lia) G) as (g & Eg & Hg). rewrite Eg in Et.
    assert (x = 2 * (g * (2 * s + 1))) by (apply (Z.mul_reg_l _ _ (2 ^ (v + 1))); lia). lia.
Qed.

(** No node feeding [j] lies strictly between. *)
Lemma lowbit_between i c :
  0 < i -> i + lowbit i < 2 ^ 64 -> i - lowbit i < c < i -> 0 < c -> c + lowbit c <> i + lowbit i.
Proof.
  intros Hi Hmax Hc Hpos E. pose proof (lowbit_bound i ltac:(lia)).
  destruct (lowbit_spec i ltac:(lia)) as (v & q & Hv & Hq & Ei & Eli). rewrite Eli in *.
  destruct (lowbit_spec c ltac:(lia)) as (u & p & Hu & Hp & Ec & Elc). rewrite Elc in *.
  pose proof (pow2_pos v Hv). pose proof (pow2_pos u Hu).
  destruct (pow_gap u v Hu Hv ltac:(lia)) as (d & Ed & Hd). nia.
Qed.

(** Even nodes are fed by their predecessor. *)
Lemma lowbit_odd i : 0 < i -> 1 < lowbit (i + 1) -> i + 1 < 2 ^ 64 -> lowbit i = 1.
Proof.
  intros Hi Hl Hmax. destruct (lowbit_spec (i + 1) ltac:(lia)) as (u & p & Hu & Hp & Ec & Elc). rewrite Elc in Hl.
  destruct (lowbit_spec i ltac:(lia)) as (v & q & Hv & Hq & Ei & ->).
  destruct (pow_gap u 0 Hu ltac:(lia) Hl) as (d & Ed & Hd).
  destruct (decide (2 ^ v = 1)) as [|Hne]; [done|]. pose proof (pow2_pos v Hv).
  destruct (pow_gap v 0 Hv ltac:(lia) ltac:(simpl; lia)) as (g & Eg & Hg).
  exfalso. rewrite Ed in Ec. rewrite Eg in Ei. change (2 ^ 0) with 1 in *. lia.
Qed.

(** ** Sums

    What the theorems assume of the callbacks: [add] is a commutative monoid
    operation and [sub] undoes it. *)
Class Summable {A : Type} (add sub : A -> A -> A) (e : A) : Prop := {
  add_assoc : forall x y z, add x (add y z) = add (add x y) z;
  add_comm : forall x y, add x y = add y x;
  add_id : forall x, add e x = x;
  sub_add : forall x y, sub (add x y) y = x
}.

Section Sums.
Context {A : Type} (add sub : A -> A -> A) (e : A) `{!Summable add sub e}.
Implicit Types (a l : list A).

Definition total l : A := foldr add e l.

Lemma add_id_r x : add x e = x.
Proof. by rewrite (add_comm (Summable := _)), (add_id (Summable := _)). Qed.

Lemma total_app l l' : total (l ++ l') = add (total l) (total l').
Proof.
  induction l as [|x l IH]; simpl; [by rewrite (add_id (Summable := _))|].
  by rewrite IH, (add_assoc (Summable := _)).
Qed.

(** The sum of the elements at the positions [lo..hi). *)
Definition sum a lo hi : A := total (slice a lo hi).

Lemma sum_split a lo mid hi :
  0 <= lo <= mid -> mid <= hi <= zlen a -> sum a lo hi = add (sum a lo mid) (sum a mid hi).
Proof. intros H1 H2. unfold sum. by rewrite <- total_app, slice_app. Qed.

Lemma sum_empty a lo hi : hi <= lo -> sum a lo hi = e.
Proof. intros H. unfold sum. by rewrite slice_nil. Qed.

Lemma sum_one a i x : zlook a i = Some x -> sum a i (i + 1) = x.
Proof.
  intros H. unfold sum. rewrite (slice_cons _ _ _ x), slice_nil by (done || lia). simpl. apply add_id_r.
Qed.

Lemma sum_other a p x lo hi :
  0 <= lo -> p < lo \/ hi <= p -> sum (zupd a p x) lo hi = sum a lo hi.
Proof.
  intros Hlo Hp. unfold sum. f_equal. apply zlook_ext; intros i. rewrite !zlook_slice by done.
  destruct (Z.leb_spec 0 i), (Z.ltb_spec i (hi - lo)); simpl; try done. rewrite zlook_zupd_ne; [done|lia].
Qed.

(** A point update adds the change to the sums that cover it. *)
Lemma sum_update a p x d lo hi :
  zlook a p = Some x -> 0 <= lo -> lo <= p < hi -> hi <= zlen a ->
  sum (zupd a p (add x d)) lo hi = add (sum a lo hi) d.
Proof.
  intros Hx H1 H2 H3. pose proof (zlen_zupd a p (add x d)).
  rewrite (sum_split _ lo p hi), (sum_split _ p (p + 1) hi) by lia.
  rewrite (sum_split a lo p hi), (sum_split a p (p + 1) hi) by lia.
  rewrite (sum_other a p _ lo p), (sum_other a p _ (p + 1) hi) by lia.
  rewrite (sum_one _ _ (add x d)) by (apply zlook_zupd_eq; zidx). rewrite (sum_one a p x) by done.
  rewrite <- !(add_assoc (Summable := _)). f_equal. f_equal. apply (add_comm (Summable := _)).
Qed.

(** ** The tree invariant: node [k] holds the sum of the [lowbit k] elements
    that end at position [k - 1]. *)
Definition tree_of (t : block A) a : Prop :=
  zlen t = zlen a + 1 /\
  forall k, 1 <= k <= zlen a -> zlook t k = Some (Some (sum a (k - lowbit k) k)).

(** The state of node [k] when the nodes before [i] were added to their
    parents: it covers up to [b]. *)
Definition fed (i k b : Z) : Prop :=
  k - lowbit k <= b < k /\
  (b = k - lowbit k \/ 0 < b < i /\ b + lowbit b = k) /\
  (forall c, 0 < c < i -> c + lowbit c = k -> c <= b).

Lemma fed_start k : 0 < k < 2 ^ 64 -> fed 1 k (k - lowbit k).
Proof.
  intros Hk. pose proof (lowbit_range k Hk). split; [lia|]. split; [by left|]. intros c Hc. lia.
Qed.

(** When all its children are added, a node is complete. *)
Lemma fed_full i b : 0 < i < 2 ^ 64 -> fed i i b -> b = i - 1.
Proof.
  intros Hi (H1 & H2 & H3). pose proof (lowbit_range i Hi) as Hl.
  destruct (decide (lowbit i = 1)); [lia|].
  assert (1 < i) by lia. assert (lowbit (i - 1) = 1) as E.
  { apply lowbit_odd; [lia| |]; replace (i - 1 + 1) with i by lia; lia. }
  pose proof (H3 (i - 1) ltac:(lia) ltac:(lia)). lia.
Qed.

(** The parent covers up to where the node starts. *)
Lemma fed_parent i b : 0 < i -> i + lowbit i < 2 ^ 64 -> fed i (i + lowbit i) b -> b = i - lowbit i.
Proof.
  intros Hi Hm (H1 & H2 & H3). pose proof (lowbit_next i Hi Hm) as Hn. pose proof (lowbit_bound i ltac:(lia)).
  pose proof (lowbit_range i ltac:(lia)) as Hl. set (j := i + lowbit i) in *.
  assert (i - lowbit i <= b) as Hle.
  { destruct (decide (i - lowbit i = j - lowbit j)) as [->|Hne]; [lia|].
    destruct (lowbit_prev i Hi Hm Hne) as [Hp El]. apply H3; [lia|]. rewrite El. unfold j. lia. }
  destruct (decide (b = i - lowbit i)) as [|Hne]; [done|exfalso].
  destruct H2 as [->|[Hb1 Hb2]]; [lia|]. by apply (lowbit_between i b Hi Hm); [lia|lia|].
Qed.

Lemma fed_step i b :
  0 < i -> i + lowbit i < 2 ^ 64 -> fed i (i + lowbit i) b -> fed (i + 1) (i + lowbit i) i.
Proof.
  intros Hi Hm F. pose proof (lowbit_next i Hi Hm) as Hn. pose proof (lowbit_bound i ltac:(lia)).
  pose proof (lowbit_range i ltac:(lia)) as Hl. split; [lia|]. split; [right; lia|]. intros c Hc _. lia.
Qed.

Lemma fed_other i k b : 0 < i -> k <> i + lowbit i -> fed i k b -> fed (i + 1) k b.
Proof.
  intros Hi Hk (H1 & H2 & H3). split; [done|]. split; [destruct H2; [by left|right; lia]|].
  intros c Hc E. destruct (decide (c = i)) as [->|]; [lia|]. apply H3; [lia|done].
Qed.

(** The state of the construction before round [i]. *)
Definition building (t : block A) a (i : Z) : Prop :=
  zlen t = zlen a + 1 /\
  forall k, 1 <= k <= zlen a -> exists b, fed i k b /\
    zlook t k = Some (Some (add (sum a (k - 1) k) (sum a (k - lowbit k) b))).

Lemma building_done t a i k :
  zlen a < 2 ^ 63 -> building t a i -> 1 <= k <= i -> k <= zlen a ->
  zlook t k = Some (Some (sum a (k - lowbit k) k)).
Proof.
  intros Hn (Ht & H) Hk Hka. destruct (H k ltac:(lia)) as (b & F & ->). do 2 f_equal.
  assert (fed k k b) as Fk.
  { destruct F as (F1 & F2 & F3). split; [done|]. split; [destruct F2; [by left|right; lia]|].
    intros c Hc. apply F3. lia. }
  apply fed_full in Fk as ->; [|lia]. pose proof (lowbit_range k ltac:(lia)).
  rewrite (add_comm (Summable := _)), <- sum_split by lia. done.
Qed.

Lemma building_step t a i :
  zlen a < 2 ^ 63 -> building t a i -> 1 <= i <= zlen a ->
  wp (let j := u64 (i + lowbit i) in
      if j <=? zlen a then x ← get_cell t j; y ← get_cell t i; set t j (Some (add x y)) else mret t)
     (fun t' => building t' a (i + 1)).
Proof.
  intros Hn HB Hi. pose proof (building_done t a i i Hn HB ltac:(lia) ltac:(lia)) as Ht.
  destruct HB as [El H]. pose proof (lowbit_range i ltac:(lia)) as Hl. cbv zeta. rewrite u64_small by lia.
  destruct (Z.leb_spec (i + lowbit i) (zlen a)).
  - destruct (H (i + lowbit i) ltac:(lia)) as (b & F & Hj). pose proof F as F'.
    apply fed_parent in F' as ->; [|lia|lia]. wstep. unfold get_cell at 1, get. rewrite Hj. simpl.
    wstep. unfold get_cell, get. rewrite Ht. simpl. apply wp_set; [lia|].
    split; [by rewrite zlen_zupd|]. intros k Hk. destruct (decide (k = i + lowbit i)) as [->|Hne].
    + exists i. split; [by eapply fed_step; [lia|lia|]|]. rewrite zlook_zupd_eq by lia. do 2 f_equal.
      pose proof (lowbit_next i ltac:(lia) ltac:(lia)). pose proof (lowbit_range (i + lowbit i) ltac:(lia)).
      rewrite <- (add_assoc (Summable := _)), <- sum_split by lia. done.
    + destruct (H k Hk) as (b & Fk & Ek). exists b. split; [by apply fed_other; [lia| |]|].
      by rewrite zlook_zupd_ne.
  - wstep. split; [done|]. intros k Hk. destruct (H k Hk) as (b & Fk & Ek). exists b.
    split; [apply fed_other; [lia|lia|done]|done].
Qed.
End Sums.

(** ** The refinement *)
Section Refinement.
Context {A : Type} (add sub : A -> A -> A) (e : A).
Implicit Types (a : list A) (t : block A).

(** The abstract array: point updates and range sums. *)
Inductive fenwick_spec : list A -> fenwick_op A -> reply A -> list A -> Prop :=
| spec_fupdate a i d x :
    zlook a (u64 i) = Some x -> fenwick_spec a (FUpdate i (Some d)) (Code SCL_OK) (zupd a (u64 i) (add x d))
| spec_fprefix a i :
    u64 i < zlen a -> fenwick_spec a (FPrefix i true) (Value (sum add e a 0 (u64 i + 1))) a
| spec_frange a l r :
    u64 l <= u64 r < zlen a ->
    fenwick_spec a (FRange l r true) (Value (sum add e a (u64 l) (u64 r + 1))) a
| spec_fout a op i :
    (exists d, op = FUpdate i (Some d)) \/ op = FPrefix i true -> zlen a <= u64 i ->
    fenwick_spec a op (Code SCL_ERR_INVALID_INDEX) a
| spec_fbad a l r :
    u64 r < u64 l \/ zlen a <= u64 r -> fenwick_spec a (FRange l r true) (Code SCL_ERR_INVALID_ARG) a
| spec_fnull a op :
    (exists i, op = FUpdate i None) \/ (exists i, op = FPrefix i false) \/ (exists l r, op = FRange l r false) ->
    fenwick_spec a op (Code SCL_ERR_NULL_PTR) a.

Definition fenwick_rep (es : Z) (fw : option (scl_fenwick_t A)) a : Prop :=
  exists t s, fw = Some (Fenwick (Ptr t) (Ptr s) (zlen a) es add sub) /\
    tree_of add e t a /\ zlen s = 1 /\ zlen a < 2 ^ 63.

Context `{!Summable add sub e}.

Lemma wp_prefix t s a es i (Q : scl_error_t * option A -> Prop) :
  tree_of add e t a -> zlen a < 2 ^ 63 -> 0 <= i < zlen a ->
  Q (SCL_OK, Some (sum add e a 0 (i + 1))) ->
  wp (scl_fenwick_prefix (Some (Fenwick (Ptr t) s (zlen a) es add sub)) i true) Q.
Proof.
  intros [Et Ht] Hn Hi HQ. unfold scl_fenwick_prefix. rewrite Z.geb_leb.
  destruct (Z.leb_spec (zlen a) i); [lia|]. wstep.
  apply (wp_loop (fun '(acc, j) => 0 <= j <= zlen a /\
    match acc with
    | None => j = i + 1
    | Some x => j < i + 1 /\ add x (sum add e a 0 j) = sum add e a 0 (i + 1)
    end) (fun '(_, j) => j)); [lia|lia|lia|].
  intros [acc j] [Hj Hacc]. rewrite Z.gtb_ltb. destruct (Z.ltb_spec 0 j).
  - pose proof (lowbit_range j ltac:(lia)). wstep. eapply wp_get_elem; [by apply Ht; lia|]. wstep.
    rewrite u64_small by lia. split; [|lia]. split; [lia|].
    assert (sum add e a 0 j = add (sum add e a (j - lowbit j) j) (sum add e a 0 (j - lowbit j))) as Es.
    { rewrite (add_comm (sub := sub) (e := e)), <- (sum_split add sub e) by lia. done. }
    destruct acc as [x|]; [destruct Hacc as [Hlt Hacc]|subst j]; (split; [lia|]).
    + by rewrite <- (add_assoc (sub := sub) (e := e)), <- Es.
    + by rewrite <- Es.
  - wstep. wstep. destruct acc as [x|]; [|lia]. destruct Hacc as [_ Hacc].
    rewrite sum_empty, (add_id_r add sub e) in Hacc by lia. by rewrite Hacc.
Qed.

Lemma wp_update t s a es i d x (Q : scl_error_t * option (scl_fenwick_t A) -> Prop) :
  tree_of add e t a -> zlen a < 2 ^ 63 -> zlook a i = Some x ->
  (forall t', tree_of add e t' (zupd a i (add x d)) ->
     Q (SCL_OK, Some (Fenwick (Ptr t') s (zlen a) es add sub))) ->
  wp (scl_fenwick_update (Some (Fenwick (Ptr t) s (zlen a) es add sub)) i (Some d)) Q.
Proof.
  intros [Et Ht] Hn Hx HQ. pose proof (zlook_Some _ _ _ Hx) as Hi. unfold scl_fenwick_update.
  rewrite Z.geb_leb. destruct (Z.leb_spec (zlen a) i); [lia|]. set (a' := zupd a i (add x d)) in *.
  assert (zlen a' = zlen a) as El by apply zlen_zupd.
  assert (forall lo hi, 0 <= lo -> i < lo \/ hi <= i -> sum add e a' lo hi = sum add e a lo hi) as Hout
    by (intros lo hi; apply sum_other).
  wstep. apply (wp_loop (fun '(p, j) => exists t', p = Ptr t' /\ zlen t' = zlen a + 1 /\
      0 < j < 2 ^ 64 /\ j - lowbit j <= i < j /\
      forall k, 1 <= k <= zlen a ->
        zlook t' k = Some (Some (sum add e (if k <? j then a' else a) (k - lowbit k) k)))
    (fun '(_, j) => Z.max 0 (zlen a + 1 - j))); [|lia|lia|].
  { exists t. pose proof (lowbit_range (i + 1) ltac:(lia)). split; [done|]. split; [done|]. split; [lia|].
    split; [lia|]. intros k Hk. rewrite Ht by done. do 2 f_equal. pose proof (lowbit_range k ltac:(lia)).
    bcase; [|done]. symmetry. apply Hout; lia. }
  intros [p j] (t' & -> & Et' & Hj & Hc & HT). pose proof (lowbit_range j ltac:(lia)).
  destruct (Z.leb_spec j (zlen a)).
  - wstep. eapply wp_get_elem; [by apply HT; lia|]. rewrite Z.ltb_irrefl.
    wstep. apply wp_set_elem; [lia|]. wstep. rewrite u64_small by lia. split; [|lia].
    pose proof (lowbit_next j ltac:(lia) ltac:(lia)).
    exists (zupd t' j (Some (add (sum add e a (j - lowbit j) j) d))). split; [done|].
    split; [by rewrite zlen_zupd|]. split; [lia|]. split; [lia|]. intros k Hk.
    pose proof (lowbit_range k ltac:(lia)). destruct (decide (k = j)) as [->|Hne].
    + rewrite zlook_zupd_eq by lia. bcase; [|lia]. unfold a'. by rewrite (sum_update add sub e _ _ x) by (done || lia).
    + rewrite zlook_zupd_ne, HT by done. do 2 f_equal. destruct (Z.ltb_spec k j), (Z.ltb_spec k (j + lowbit j));
        try done; try lia. pose proof (lowbit_gap j k ltac:(lia) ltac:(lia) ltac:(lia)). symmetry. apply Hout; lia.
  - wstep. wstep. apply HQ. split; [lia|]. intros k Hk. rewrite HT by lia. by bcase; [|lia].
Qed.

#[export] Instance fenwick_simulates es : Simulates fenwick_step fenwick_spec (fenwick_rep es).
Proof.
  intros fw a op (t & s & -> & Ht & Es & Hn).
  assert (fenwick_rep es (Some (Fenwick (Ptr t) (Ptr s) (zlen a) es add sub)) a) as R by by exists t, s.
  destruct op as [i [d|]|i [|]|l r [|]]; unfold fenwick_step;
    try (exists a; split; [apply spec_fnull; eauto 6|done]).
  - pose proof (u64_range i). destruct (Z.leb_spec (zlen a) (u64 i)) as [Hge|Hlt].
    + unfold scl_fenwick_update. rewrite Z.geb_leb, (proj2 (Z.leb_le _ _) Hge).
      exists a. split; [apply (spec_fout _ _ i); eauto|done].
    + destruct (zlook_lt a (u64 i) ltac:(lia)) as [x Hx]. wstep. apply (wp_update t (Ptr s) a es (u64 i) d x); [done|done|done|].
      intros t' Ht'. wstep. eexists. split; [by constructor|]. exists t', s. by rewrite zlen_zupd.
  - pose proof (u64_range i). destruct (Z.leb_spec (zlen a) (u64 i)) as [Hge|Hlt].
    + unfold scl_fenwick_prefix. rewrite Z.geb_leb, (proj2 (Z.leb_le _ _) Hge).
      exists a. split; [apply (spec_fout _ _ i); eauto|done].
    + wstep. apply wp_prefix; [done|done|lia|]. wstep. exists a. split; [by constructor|done].
  - pose proof (u64_range l). pose proof (u64_range r). unfold scl_fenwick_range_query.
    rewrite Z.gtb_ltb, Z.geb_leb. destruct (Z.ltb_spec (u64 r) (u64 l)); cbn [orb].
    { exists a. split; [constructor; auto|done]. }
    destruct (Z.leb_spec (zlen a) (u64 r)); [exists a; split; [constructor; auto|done]|].
    wstep. wstep. apply wp_prefix; [done|done|lia|]. rewrite Z.gtb_ltb. destruct (Z.ltb_spec 0 (u64 l)).
    + wstep. apply wp_prefix; [done|done|lia|]. replace (u64 l - 1 + 1) with (u64 l) by lia.
      wstep. apply wp_set_elem; [lia|]. wstep. eapply wp_get_elem; [apply zlook_zupd_eq; lia|]. wstep. wstep.
      exists a. split.
      * rewrite (sum_split add sub e a 0 (u64 l)), (add_comm (add := add) (sub := sub) (e := e)),
          (sub_add (add := add) (sub := sub) (e := e)) by lia.
        constructor. lia.
      * eexists t, _. split; [done|]. by rewrite zlen_zupd.
    + wstep. wstep. assert (u64 l = 0) as El by lia. exists a. split; [|done].
      rewrite <- El at 1. constructor. lia.
Qed.
End Refinement.

(** ** Initialisation *)
Section Init.
Context {A : Type} (al : scl_allocator_t) (add sub : A -> A -> A) (e zero : A).
Context `{!AllocatorOk al} `{!Summable add sub e}.
Implicit Types (w : world) (a : list A).

(** The copy of the data into the nodes. *)
Lemma wp_load_tree a t (Q : block A -> Prop) :
  zlen t = zlen a + 1 -> zlen a < 2 ^ 63 ->
  (forall t', building add e t' a 1 -> Q t') ->
  wp (zfor 1 (zlen a + 1) (fun i tree => x ← get a (i - 1); set tree i (Some x)) t) Q.
Proof.
  intros Ht Hn HQ. pose proof (zlen_nonneg a).
  apply (wp_zfor (fun i t' => zlen t' = zlen a + 1 /\ forall k, 1 <= k < i -> zlook t' k = Some (zlook a (k - 1)))).
  - split; [done|]. lia.
  - intros i t' Hi [Et H']. wstep. wstep. apply wp_set; [lia|]. split; [by rewrite zlen_zupd|]. intros k Hk.
    destruct (decide (k = i)) as [->|]; [by rewrite zlook_zupd_eq, Hx by lia|].
    rewrite zlook_zupd_ne by done. apply H'. lia.
  - intros t' [Et H']. apply HQ. split; [done|]. intros k Hk. exists (k - lowbit k).
    split; [apply fed_start; lia|]. rewrite (sum_empty add e a (k - lowbit k)), (add_id_r add sub e) by lia.
    rewrite H' by lia. f_equal. destruct (zlook_lt a (k - 1) ltac:(lia)) as [x Hx]. rewrite Hx. f_equal.
    pose proof (sum_one add sub e a (k - 1) x Hx) as E. replace (k - 1 + 1) with k in E by lia. done.
Qed.

Lemma wp_build a t (Q : block A -> Prop) :
  building add e t a 1 -> zlen a < 2 ^ 63 -> (forall t', tree_of add e t' a -> Q t') ->
  wp (zfor 1 (zlen a + 1)
        (fun i tree =>
           let j := u64 (i + lowbit i) in
           if j <=? zlen a then x ← get_cell tree j; y ← get_cell tree i; set tree j (Some (add x y))
           else mret tree) t) Q.
Proof.
  intros HB Hn HQ. pose proof (zlen_nonneg a). apply (wp_zfor (fun i t' => building add e t' a i)); [done| |].
  - intros i t' Hi HB'. apply (building_step add sub e); [done|done|lia].
  - intros t' HB'. rewrite Z.max_r in HB' by lia. apply HQ. split; [by destruct HB'|].
    intros k Hk. eapply (building_done add sub e); [done|done|lia|lia].
Qed.

Lemma fenwick_init_spec w f a es :
  1 <= es < 2 ^ 64 -> 1 <= zlen a < 2 ^ 64 - 1 ->
  wp (scl_fenwick_init al w (Some f) (zlen a) es (Some a) zero (Some add) (Some sub)) (fun '(err, fw, w') =>
    (err = SCL_OK /\ fenwick_rep add sub e es fw a /\ w_live w' = w_live w + 2) \/
    (err = SCL_ERR_OUT_OF_MEMORY /\ w_live w' = w_live w /\
     (calloc_fn al (w_reqs w) (zlen a + 1) es MAX_ALIGN = true \/
      malloc_fn al (S (w_reqs w)) es MAX_ALIGN = true -> scl_fenwick_destroy w' fw = UB))).
Proof.
  intros Hes Hn. unfold scl_fenwick_init. destruct (Z.eqb_spec (zlen a) 0); [lia|].
  destruct (Z.eqb_spec es 0); [lia|]. cbn [orb]. unfold SIZE_MAX. destruct (Z.eqb_spec (zlen a) (2 ^ 64 - 1)); [lia|].
  unfold scl_calloc. destruct (calloc_fn al (w_reqs w) (zlen a + 1) es MAX_ALIGN) eqn:Ec; unfold scl_alloc; cbn [w_reqs].
  - apply calloc_fn_ok in Ec as (_ & _ & Hm); [|unfold is_u64; lia..]. unfold PTRDIFF_MAX in Hm.
    destruct (malloc_fn al (S (w_reqs w)) es MAX_ALIGN).
    + wstep. apply wp_load_tree; [rewrite zlen_replicate; lia|nia|]. intros t1 HB. wstep.
      apply wp_build; [done|nia|]. intros t2 HT. wstep. left. split; [done|]. split; [|simpl; lia].
      exists t2, (fresh_cells es es None). split; [done|]. split; [done|]. split; [|nia].
      apply zlen_fresh; lia.
    + right. split; [done|]. split; [simpl; lia|done].
  - destruct (malloc_fn al (S (w_reqs w)) es MAX_ALIGN); right; (split; [done|]); (split; [simpl; lia|]); [done|].
    intros [?|?]; done.
Qed.
End Init.

(** The replies for a [NULL] tree. *)
Definition fenwick_null_reply {A} (op : fenwick_op A) : reply A := Code SCL_ERR_NULL_PTR.

(** The Fenwick tree refines an array with point updates and range sums,
    for every commutative [add] undone by [sub]: the linear construction
    builds the tree of the data, and then every sequence of updates, prefix
    and range queries terminates without stray accesses, an update adds to
    one element, a query answers the sum of its range, and bad indices are
    refused.  Destroying the tree returns both blocks.  When the
    initialisation runs out of memory it returns what it had allocated but
    leaves the freed pointers in the structure, so that destroying it then
    frees them twice. *)
Theorem fenwick_refines {A} (al : scl_allocator_t) (add sub : A -> A -> A) (e zero : A) (w : world)
  (f : scl_fenwick_t A) (a : list A) (es : Z) (ops : list (fenwick_op A))
  (Hal : AllocatorOk al) (Hadd : Summable add sub e)
  (Hes : 1 <= es < 2 ^ 64) (Hn : 1 <= zlen a < 2 ^ 64 - 1) :
  (exists err fw w1,
    scl_fenwick_init al w (Some f) (zlen a) es (Some a) zero (Some add) (Some sub) = Ok (err, fw, w1) /\
    ((err = SCL_OK /\
      exists outs fw2 a2 fw3 w2, run fenwick_step fw ops = Ok (outs, fw2) /\
        trace (fenwick_spec add e) a ops outs a2 /\
        scl_fenwick_destroy w1 fw2 = Ok (fw3, w2) /\ w_live w2 = w_live w) \/
     (err = SCL_ERR_OUT_OF_MEMORY /\ w_live w1 = w_live w /\
      (calloc_fn al (w_reqs w) (zlen a + 1) es MAX_ALIGN = true \/
       malloc_fn al (S (w_reqs w)) es MAX_ALIGN = true -> scl_fenwick_destroy w1 fw = UB)))) /\
  (forall op, fenwick_step None op = Ok (fenwick_null_reply (A := A) op, None)).
Proof.
  split; [|by intros []].
  destruct (proj1 (wp_ok _ _) (fenwick_init_spec al add sub e zero w f a es Hes Hn)) as ([[err fw] w1] & E & H).
  exists err, fw, w1. split; [done|]. destruct H as [(-> & R & Hw)|H]; [left|by right]. split; [done|].
  pose proof (fenwick_simulates add sub e es) as Sim.
  destruct (proj1 (wp_ok _ _) (run_refines _ _ _ fw _ ops R)) as ([outs fw2] & E2 & a2 & T & R2).
  destruct R2 as (t & s & -> & _). exists outs. eexists. exists a2. do 2 eexists.
  do 3 (split; [done|]). simpl. lia.
Qed.

#[export] Instance Z_summable : Summable Z.add Z.sub 0.
Proof. split; intros; lia. Qed.

Lemma fenwick_refines_witness :
  exists outs a, trace (fenwick_spec Z.add 0) [5; 6; 7] [FUpdate 1 (Some 10); FRange 1 2 true] outs a.
Proof.
  destruct (fenwick_refines small_allocator Z.add Z.sub 0 0 (World 0 0) (Fenwick Null Null 0 0 Z.add Z.sub)
    [5; 6; 7] 8 [FUpdate 1 (Some 10); FRange 1 2 true] _ _ ltac:(lia) ltac:(vm_compute; split; congruence))
    as [(err & fw & w1 & E & [(_ & outs & _ & a & _ & _ & _ & T & _)|(H & _)]) _].
  - exists outs, a. exact T.
  - exfalso. vm_compute in E. rewrite H in E. discriminate E.
Defined.
