(* ===== verification/SegTree.v ===== *)
(** The iterative segment tree of [libs/structures/segtree/scl_segtree.c],
    refined to an array with point assignments and range queries. *)

From S2P Require Import Prelude Core Refine Containers.
#[local] Open Scope Z_scope.

(** [combine a b] is what the callback stores in [*out]. *)
Record scl_segtree_t (A : Type) : Type := SegTree {
  sg_data : ptr A;
  sg_n : Z;
  sg_size : Z;
  sg_element_size : Z;
  sg_combine : A -> A -> A
}.
Arguments SegTree {A}.
Arguments sg_data {A}.
Arguments sg_n {A}.
Arguments sg_size {A}.
Arguments sg_element_size {A}.
Arguments sg_combine {A}.

Section Defs.
Context {A : Type} (al : scl_allocator_t).
Implicit Types (w : world) (tree : option (scl_segtree_t A)).

(** The least power of two that is at least [n], or an overflow. *)
Definition leaf_count (n : Z) : res (option Z) :=
  size ← loop 65
    (fun size =>
       if size <? n then
         if size >? SIZE_MAX / 2 then mret (inr None) else mret (inl (u64 (Z.shiftl size 1)))
       else mret (inr (Some size))) 1;
  mret (match size with Some size => if size >? SIZE_MAX / 2 then None else Some size | None => None end).

(** [combine] of the two children into node [i]. *)
Definition pull (combine : A -> A -> A) (data : ptr A) (i : Z) : res (ptr A) :=
  a ← get_elem data (2 * i); b ← get_elem data (2 * i + 1);
  set_elem data i (combine a b).

(** [zero] is the value whose bytes are all zero. *)
Definition scl_segtree_init w tree (n element_size : Z) (data : option (list A)) (zero : A)
    (combine : option (A -> A -> A)) : res (scl_error_t * option (scl_segtree_t A) * world) :=
  match tree, combine, data with
  | Some t, Some combine, Some src =>
      if (n =? 0) || (element_size =? 0) then mret (SCL_ERR_INVALID_ARG, Some t, w)
      else
        size ← leaf_count n;
        match size with
        | None => mret (SCL_ERR_SIZE_OVERFLOW, Some t, w)
        | Some size =>
            match scl_calloc al w (2 * size) element_size MAX_ALIGN zero with
            | (None, w) =>
                mret (SCL_ERR_OUT_OF_MEMORY,
                      Some (SegTree Null (sg_n t) (sg_size t) (sg_element_size t) (sg_combine t)), w)
            | (Some b, w) =>
                b ← zfor 0 n (fun i b => x ← get src i; set b (size + i) (Some x)) b;
                data ← zfor_down (size - 1) (fun i data => pull combine data i) (Ptr b);
                mret (SCL_OK, Some (SegTree data n size element_size combine), w)
            end
        end
  | _, _, _ => mret (SCL_ERR_NULL_PTR, tree, w)
  end.

Definition scl_segtree_destroy w tree : res (option (scl_segtree_t A) * world) :=
  match tree with
  | None | Some (SegTree Null _ _ _ _) => mret (tree, w)
  | Some t =>
      w ← free_ptr w (sg_data t);
      mret (Some (SegTree Null 0 0 (sg_element_size t) (sg_combine t)), w)
  end.

Definition scl_segtree_update tree (idx : Z) (val : option A) : res (scl_error_t * option (scl_segtree_t A)) :=
  match tree, val with
  | Some (SegTree data n size es combine), Some val =>
      if idx >=? n then mret (SCL_ERR_INVALID_INDEX, tree)
      else
        let p := u64 (size + idx) in
        data ← set_elem data p val;
        data ← loop (S (Z.to_nat p))
          (fun '(data, p) =>
             if p >=? 1 then data ← pull combine data p; mret (inl (data, Z.shiftr p 1))
             else mret (inr data)) (data, Z.shiftr p 1);
        mret (SCL_OK, Some (SegTree data n size es combine))
  | _, _ => mret (SCL_ERR_NULL_PTR, tree)
  end.

(** The nodes that make up the range [l..r): those of the left end in order,
    those of the right end in reverse order, in two arrays of 64 entries. *)
Definition collect_left (l li : Z) (lefts : block Z) : res (Z * Z * block Z) :=
  if negb (Z.land l 1 =? 0) then
    lefts ← set lefts li (Some l); mret (u64 (l + 1), li + 1, lefts)
  else mret (l, li, lefts).

Definition collect_right (r ri : Z) (rights : block Z) : res (Z * Z * block Z) :=
  if negb (Z.land r 1 =? 0) then
    let r := u64 (r - 1) in
    rights ← set rights ri (Some r); mret (r, ri + 1, rights)
  else mret (r, ri, rights).

Definition collect (l r : Z) : res (Z * block Z * Z * block Z) :=
  loop 65
    (fun '(l, r, li, lefts, ri, rights) =>
       if l <? r then
         '(l, li, lefts) ← collect_left l li lefts;
         '(r, ri, rights) ← collect_right r ri rights;
         mret (inl (Z.shiftr l 1, Z.shiftr r 1, li, lefts, ri, rights))
       else mret (inr (li, lefts, ri, rights)))
    (l, r, 0, replicate 64 None, 0, replicate 64 None).

(** [acc] is [*out] once the flag [first] is cleared. *)
Definition accumulate (combine : A -> A -> A) (data : ptr A) (nodes : block Z) (i : Z) (acc : option A)
    : res (option A) :=
  idx ← get_cell nodes i;
  x ← get_elem data idx;
  mret (Some (match acc with None => x | Some a => combine a x end)).

Definition scl_segtree_query tree (l r : Z) (out : bool) : res (scl_error_t * option A) :=
  match tree, out with
  | Some (SegTree data n size es combine), true =>
      if (l >=? r) || (r >? n) then mret (SCL_ERR_INVALID_ARG, None)
      else
        '(li, lefts, ri, rights) ← collect (u64 (l + size)) (u64 (r + size));
        acc ← zfor 0 li (accumulate combine data lefts) None;
        acc ← zfor_down ri (fun i => accumulate combine data rights (i - 1)) acc;
        mret (match acc with None => SCL_ERR_EMPTY | Some _ => SCL_OK end, acc)
  | _, _ => mret (SCL_ERR_NULL_PTR, None)
  end.
End Defs.

(** ** The operations as one step function

    The indices are converted to [size_t]. *)
Inductive segtree_op (A : Type) : Type :=
| GUpdate (idx : Z) (val : option A)
| GQuery (l r : Z) (out : bool).
Arguments GUpdate {A}.
Arguments GQuery {A}.

Definition segtree_step {A} (tree : option (scl_segtree_t A)) (op : segtree_op A)
    : res (reply A * option (scl_segtree_t A)) :=
  match op with
  | GUpdate i v => '(e, tree) ← scl_segtree_update tree (u64 i) v; mret (Code e, tree)
  | GQuery l r out => '(e, x) ← scl_segtree_query tree (u64 l) (u64 r) out; mret (value_or e x, tree)
  end.

(** ** Combinations of non-empty ranges

    [combine] has no unit; [None] stands for the empty combination. *)
Class Associative {A : Type} (combine : A -> A -> A) : Prop :=
  combine_assoc : forall x y z, combine x (combine y z) = combine (combine x y) z.

Section Combine.
Context {A : Type} (combine : A -> A -> A) `{!Associative combine}.
Implicit Types (a l : list A) (x y z : option A).

Definition ocombine x y : option A :=
  match x, y with
  | Some u, Some v => Some (combine u v)
  | Some _, None => x
  | None, _ => y
  end.

Lemma ocombine_assoc x y z : ocombine x (ocombine y z) = ocombine (ocombine x y) z.
Proof. destruct x, y, z; simpl; try done. by rewrite combine_assoc. Qed.

Lemma ocombine_none_r x : ocombine x None = x.
Proof. by destruct x. Qed.

Definition ototal (xs : list (option A)) : option A := foldr ocombine None xs.

Lemma ototal_app xs ys : ototal (xs ++ ys) = ocombine (ototal xs) (ototal ys).
Proof. induction xs as [|x xs IH]; simpl; [done|]. by rewrite IH, ocombine_assoc. Qed.

(** The combination of the elements at the positions [lo..hi). *)
Definition range a lo hi : option A := ototal (Some <$> slice a lo hi).

Lemma range_split a lo mid hi :
  0 <= lo <= mid -> mid <= hi <= zlen a -> range a lo hi = ocombine (range a lo mid) (range a mid hi).
Proof. intros H1 H2. unfold range. by rewrite <- ototal_app, <- fmap_app, slice_app. Qed.

Lemma range_empty a lo hi : hi <= lo -> range a lo hi = None.
Proof. intros H. unfold range. by rewrite slice_nil. Qed.

Lemma range_one a i (v : A) : zlook a i = Some v -> range a i (i + 1) = Some v.
Proof. intros H. unfold range. by rewrite (slice_cons _ _ _ v), slice_nil by (done || lia). Qed.

Lemma range_some a lo hi : 0 <= lo < hi -> hi <= zlen a -> exists v : A, range a lo hi = Some v.
Proof.
  intros H1 H2. destruct (zlook_lt a lo ltac:(lia)) as [x Hx].
  rewrite (range_split a lo (lo + 1)), (range_one a lo x) by (done || lia).
  simpl. destruct (range a (lo + 1) hi); eauto.
Qed.

Lemma range_other a p v lo hi : 0 <= lo -> p < lo \/ hi <= p -> range (zupd a p v) lo hi = range a lo hi.
Proof.
  intros Hlo Hp. unfold range. f_equal. f_equal. apply zlook_ext; intros i. rewrite !zlook_slice by done.
  destruct (Z.leb_spec 0 i), (Z.ltb_spec i (hi - lo)); simpl; try done. rewrite zlook_zupd_ne; [done|lia].
Qed.

Lemma range_app a l lo hi : 0 <= lo -> hi <= zlen a -> range (a ++ l) lo hi = range a lo hi.
Proof.
  intros Hlo Hhi. unfold range. f_equal. f_equal. apply zlook_ext; intros i. rewrite !zlook_slice by done.
  destruct (Z.leb_spec 0 i), (Z.ltb_spec i (hi - lo)); simpl; try done. rewrite zlook_app.
  by destruct (Z.ltb_spec (lo + i) (zlen a)); [|lia].
Qed.

(** ** The tree invariant

    With [2^D] leaves [leaves], the node [k] at height [h] combines the
    leaves [k * 2^h - 2^D .. (k + 1) * 2^h - 2^D). *)
Definition at_height (D h k : Z) : Prop := 0 <= h <= D /\ 2 ^ D <= k * 2 ^ h < 2 * 2 ^ D.

Definition node_value (D h k : Z) (leaves : list A) : option A :=
  range leaves (k * 2 ^ h - 2 ^ D) ((k + 1) * 2 ^ h - 2 ^ D).

Definition node_ok (t : block A) (D h k : Z) (leaves : list A) : Prop :=
  exists v : A, zlook t k = Some (Some v) /\ node_value D h k leaves = Some v.

Definition tree_ok (t : block A) (D : Z) (leaves : list A) : Prop :=
  zlen t = 2 * 2 ^ D /\ zlen leaves = 2 ^ D /\ forall h k, at_height D h k -> node_ok t D h k leaves.

Lemma pow_pos h : 0 <= h -> 0 < 2 ^ h.
Proof. intros. apply Z.pow_pos_nonneg; lia. Qed.

(** The span of a node fits the leaves. *)
Lemma height_span D h k : at_height D h k -> (k + 1) * 2 ^ h <= 2 * 2 ^ D /\ 1 <= k < 2 * 2 ^ D.
Proof.
  intros [Hh Hk]. pose proof (pow_pos h (proj1 Hh)). pose proof (pow_pos D ltac:(lia)).
  assert (2 ^ D = 2 ^ h * 2 ^ (D - h)) as E by (rewrite <- Z.pow_add_r by lia; f_equal; lia).
  pose proof (pow_pos (D - h) ltac:(lia)). rewrite E in *. split; [|split; nia].
  assert (k < 2 * 2 ^ (D - h)); [|nia]. apply (Z.mul_lt_mono_pos_r (2 ^ h)); lia.
Qed.

Lemma height_children D h k :
  at_height D h k -> 0 < h -> at_height D (h - 1) (2 * k) /\ at_height D (h - 1) (2 * k + 1) /\ k < 2 ^ D.
Proof.
  intros H Hh. pose proof (height_span _ _ _ H) as [Hs _]. destruct H as [H1 H2].
  assert (2 ^ h = 2 * 2 ^ (h - 1)) as E by (rewrite <- Z.pow_succ_r by lia; f_equal; lia).
  pose proof (pow_pos (h - 1) ltac:(lia)). unfold at_height. rewrite E in *.
  split; [|split]; [split; [lia|nia]..|]. nia.
Qed.

Lemma height_leaf D h k : at_height D h k -> 2 ^ D <= k -> h = 0.
Proof.
  intros [H1 H2] Hk. destruct (decide (h = 0)) as [|Hne]; [done|].
  assert (2 ^ 1 <= 2 ^ h) by (apply Z.pow_le_mono_r; lia). change (2 ^ 1) with 2 in *. nia.
Qed.

(** Combining two children gives their parent. *)
Lemma node_parent D h k leaves :
  at_height D h k -> 0 < h -> zlen leaves = 2 ^ D ->
  node_value D h k leaves = ocombine (node_value D (h - 1) (2 * k) leaves) (node_value D (h - 1) (2 * k + 1) leaves).
Proof.
  intros H Hh Hl. pose proof (height_span _ _ _ H) as [Hs _]. pose proof H as [H1 H2].
  assert (2 ^ h = 2 * 2 ^ (h - 1)) as E by (rewrite <- Z.pow_succ_r by lia; f_equal; lia).
  pose proof (pow_pos (h - 1) ltac:(lia)). unfold node_value.
  rewrite (range_split leaves _ ((2 * k + 1) * 2 ^ (h - 1) - 2 ^ D)) by nia. f_equal; f_equal; nia.
Qed.

Lemma wp_pull t D h k leaves (Q : ptr A -> Prop) :
  at_height D h k -> 0 < h -> zlen leaves = 2 ^ D -> zlen t = 2 * 2 ^ D ->
  node_ok t D (h - 1) (2 * k) leaves -> node_ok t D (h - 1) (2 * k + 1) leaves ->
  (forall v, node_value D h k leaves = Some v -> Q (Ptr (zupd t k (Some v)))) ->
  wp (pull combine (Ptr t) k) Q.
Proof.
  intros H Hh Hl Ht (x & Hx & Ex) (y & Hy & Ey) HQ. pose proof (height_span _ _ _ H) as [_ Hk].
  unfold pull. wstep. eapply wp_get_elem; [done|]. wstep. eapply wp_get_elem; [done|].
  apply wp_set_elem; [lia|]. apply HQ. rewrite node_parent by done. by rewrite Ex, Ey.
Qed.
End Combine.

(** ** Heights *)
Lemma height_unique D h h' k : at_height D h k -> at_height D h' k -> h = h'.
Proof.
  assert (forall g g', g < g' -> at_height D g k -> at_height D g' k -> False) as Hlt.
  { intros g g' Hg [H1 H2] [H3 H4]. assert (2 ^ g' = 2 ^ g * 2 ^ (g' - g)) as E
      by (rewrite <- Z.pow_add_r by lia; f_equal; lia).
    assert (2 ^ 1 <= 2 ^ (g' - g)) by (apply Z.pow_le_mono_r; lia). change (2 ^ 1) with 2 in *.
    pose proof (pow_pos g ltac:(lia)). nia. }
  intros H H'. destruct (Z.lt_trichotomy h h') as [Hl|[Hl|Hl]]; [exfalso; eauto|done|exfalso; eauto].
Qed.

Lemma height_exists D k : 0 <= D -> 1 <= k < 2 * 2 ^ D -> exists h, at_height D h k.
Proof.
  intros HD Hk. exists (D - Z.log2 k). pose proof (Z.log2_spec k ltac:(lia)) as Hs. pose proof (Z.log2_nonneg k).
  assert (Z.log2 k <= D) as Hl.
  { enough (Z.log2 k < D + 1) by lia. apply Z.log2_lt_pow2; [lia|]. rewrite Z.pow_add_r by lia. lia. }
  split; [lia|]. pose proof (pow_pos (D - Z.log2 k) ltac:(lia)).
  assert (2 ^ D = 2 ^ Z.log2 k * 2 ^ (D - Z.log2 k)) as E by (rewrite <- Z.pow_add_r by lia; f_equal; lia).
  rewrite Z.pow_succ_r in Hs by lia. nia.
Qed.

(** The ancestor of leaf [i] at height [h]. *)
Definition ancestor (D i h : Z) : Z := (2 ^ D + i) / 2 ^ h.

Lemma ancestor_height D i h : 0 <= h <= D -> 0 <= i < 2 ^ D -> at_height D h (ancestor D i h).
Proof.
  intros Hh Hi. split; [done|]. unfold ancestor. pose proof (pow_pos h (proj1 Hh)).
  pose proof (Z.div_mod (2 ^ D + i) (2 ^ h) ltac:(lia)) as E.
  pose proof (Z.mod_pos_bound (2 ^ D + i) (2 ^ h) ltac:(lia)). split; [|lia].
  assert (2 ^ D = 2 ^ h * 2 ^ (D - h)) as E2 by (rewrite <- Z.pow_add_r by lia; f_equal; lia).
  rewrite E2 at 1. rewrite (Z.mul_comm (2 ^ h)). apply Z.mul_le_mono_nonneg_r; [lia|].
  apply Z.div_le_lower_bound; lia.
Qed.

Lemma not_ancestor D i h k :
  0 <= h -> k <> ancestor D i h -> i < k * 2 ^ h - 2 ^ D \/ (k + 1) * 2 ^ h - 2 ^ D <= i.
Proof.
  intros Hh Hne. pose proof (pow_pos h Hh).
  destruct (decide (k * 2 ^ h <= 2 ^ D + i < (k + 1) * 2 ^ h)) as [Hin|]; [|lia].
  exfalso. apply Hne. unfold ancestor. apply (Z.div_unique _ _ _ (2 ^ D + i - k * 2 ^ h)); lia.
Qed.

Lemma ancestor_next D i h : 0 <= h -> Z.shiftr (ancestor D i h) 1 = ancestor D i (h + 1).
Proof.
  intros Hh. unfold ancestor. pose proof (pow_pos h Hh).
  rewrite Z.shiftr_div_pow2, Z.div_div, <- Z.pow_add_r by lia. done.
Qed.

Section Updates.
Context {A : Type} (combine : A -> A -> A) `{!Associative combine}.
Implicit Types (a leaves : list A) (t : block A).

(** A node that does not cover the changed leaf keeps its value. *)
Lemma node_value_other D h k leaves i v :
  at_height D h k -> zlen leaves = 2 ^ D -> k <> ancestor D i h ->
  node_value combine D h k (zupd leaves i v) = node_value combine D h k leaves.
Proof. intros [H1 H2] Hl Hne. apply range_other; [lia|]. apply not_ancestor; [lia|done]. Qed.

(** The state of an update below height [h]. *)
Definition updating t D (leaves : list A) (i h : Z) : Prop :=
  zlen t = 2 * 2 ^ D /\
  forall h' k, at_height D h' k -> h' < h \/ k <> ancestor D i h' -> node_ok combine t D h' k leaves.

Lemma update_start t D leaves i v :
  tree_ok combine t D leaves -> 0 <= D -> 0 <= i < 2 ^ D ->
  updating (zupd t (2 ^ D + i) (Some v)) D (zupd leaves i v) i 1.
Proof.
  intros (Ht & Hl & H) HD Hi. split; [by rewrite zlen_zupd|]. intros h' k Hk Hc.
  assert (ancestor D i 0 = 2 ^ D + i) as E0 by (unfold ancestor; by rewrite Z.pow_0_r, Z.div_1_r).
  destruct (decide (k = 2 ^ D + i)) as [->|Hne].
  - assert (h' = 0) as -> by (eapply height_leaf; [done|lia]). exists v. split; [apply zlook_zupd_eq; lia|].
    unfold node_value. rewrite Z.pow_0_r.
    replace ((2 ^ D + i) * 1 - 2 ^ D) with i by lia. replace ((2 ^ D + i + 1) * 1 - 2 ^ D) with (i + 1) by lia.
    apply range_one, zlook_zupd_eq. lia.
  - destruct (H h' k Hk) as (x & Hx & Ex). exists x. split; [by rewrite zlook_zupd_ne|].
    rewrite node_value_other; [done|done|done|].
    destruct Hc as [Hc|Hc]; [|done]. destruct Hk as [Hh' _]. assert (h' = 0) as -> by lia. lia.
Qed.

Lemma wp_update_loop t D leaves i (Q : ptr A -> Prop) :
  0 <= D -> 0 <= i < 2 ^ D -> zlen leaves = 2 ^ D -> updating t D leaves i 1 ->
  (forall t', tree_ok combine t' D leaves -> Q (Ptr t')) ->
  wp (loop (S (Z.to_nat (2 ^ D + i)))
        (fun '(data, p) =>
           if p >=? 1 then data ← pull combine data p; mret (inl (data, Z.shiftr p 1)) else mret (inr data))
        (Ptr t, Z.shiftr (2 ^ D + i) 1)) Q.
Proof.
  intros HD Hi Hl HU HQ.
  assert (forall h, 0 <= h -> 0 <= ancestor D i h <= 2 ^ D + i) as Hanc.
  { intros h Hh. unfold ancestor. pose proof (pow_pos h Hh). split; [apply Z.div_pos; lia|apply Z.div_le_upper_bound; nia]. }
  assert (Z.shiftr (2 ^ D + i) 1 = ancestor D i 1) as E1 by (by rewrite Z.shiftr_div_pow2). rewrite E1.
  apply (wp_loop (fun '(p, k) => exists t' h, p = Ptr t' /\ 1 <= h /\ k = ancestor D i h /\ updating t' D leaves i h)
    (fun '(_, k) => k)).
  { by exists t, 1. }
  { pose proof (Hanc 1 ltac:(lia)). lia. }
  { lia. }
  intros [p k] (t' & h & -> & Hh & -> & Ht' & H). rewrite Z.geb_leb. pose proof (Hanc h ltac:(lia)).
  destruct (Z.leb_spec 1 (ancestor D i h)).
  - assert (h <= D) as HhD.
    { destruct (decide (h <= D)) as [|Hgt]; [done|exfalso]. unfold ancestor in *.
      assert (2 ^ (D + 1) <= 2 ^ h) by (apply Z.pow_le_mono_r; lia). rewrite Z.pow_add_r in * by lia.
      rewrite Z.div_small in *; lia. }
    pose proof (ancestor_height D i h ltac:(lia) Hi) as Hat.
    destruct (height_children _ _ _ Hat ltac:(lia)) as (C1 & C2 & _).
    wstep. eapply (wp_pull combine t' D h); [done|lia|done|done|apply H; [done|lia]|apply H; [done|lia]|].
    intros v Hv. wstep. rewrite ancestor_next by lia. pose proof (Hanc (h + 1) ltac:(lia)).
    split; [|rewrite <- ancestor_next, Z.shiftr_div_pow2 by lia; zdiv].
    eexists _, (h + 1). split; [done|]. split; [lia|]. split; [done|]. split; [by rewrite zlen_zupd|].
    intros h' k Hk Hc. destruct (decide (k = ancestor D i h)) as [->|Hne].
    + assert (h' = h) as -> by by eapply height_unique. exists v. split; [|done].
      pose proof (height_span _ _ _ Hat) as [_ ?]. apply zlook_zupd_eq. lia.
    + destruct (H h' k Hk) as (x & Hx & Ex).
      { destruct (decide (h' = h)) as [->|]; [by right|]. destruct Hc as [Hc|Hc]; [left; lia|by right]. }
      exists x. split; [by rewrite zlook_zupd_ne|done].
  - wstep. apply HQ. split; [done|]. split; [done|]. intros h' k Hk. apply H; [done|left].
    destruct (decide (h <= D)) as [HhD|]; [|destruct Hk; lia].
    pose proof (ancestor_height D i h ltac:(lia) Hi) as Hat. pose proof (height_span _ _ _ Hat). lia.
Qed.

(** ** Construction *)
Definition leaves_set t D leaves : Prop :=
  zlen t = 2 * 2 ^ D /\ zlen leaves = 2 ^ D /\
  forall i, 0 <= i < 2 ^ D -> zlook t (2 ^ D + i) = Some (zlook leaves i).

Lemma wp_build_tree t D leaves (Q : ptr A -> Prop) :
  0 <= D -> leaves_set t D leaves -> (forall t', tree_ok combine t' D leaves -> Q (Ptr t')) ->
  wp (zfor_down (2 ^ D - 1) (fun i data => pull combine data i) (Ptr t)) Q.
Proof.
  intros HD (Ht & Hl & HL) HQ. pose proof (pow_pos D HD).
  apply (wp_zfor_down (fun i p => exists t', p = Ptr t' /\ zlen t' = 2 * 2 ^ D /\
    forall h k, at_height D h k -> i < k -> node_ok combine t' D h k leaves)); [lia| | |].
  - exists t. split; [done|]. split; [done|]. intros h k Hk Hi.
    pose proof (height_span _ _ _ Hk) as [_ Hr].
    assert (h = 0) as -> by (eapply height_leaf; [done|lia]).
    destruct (zlook_lt leaves (k - 2 ^ D) ltac:(lia)) as [x Hx]. exists x. split.
    + rewrite <- Hx, <- HL by lia. f_equal. lia.
    + unfold node_value. rewrite Z.pow_0_r. replace (k * 1 - 2 ^ D) with (k - 2 ^ D) by lia.
      replace ((k + 1) * 1 - 2 ^ D) with (k - 2 ^ D + 1) by lia. by apply range_one.
  - intros i p Hi (t' & -> & Ht' & H'). destruct (height_exists D i HD ltac:(lia)) as [h Hh].
    assert (0 < h) as Hpos.
    { destruct Hh as [H1 H2]. destruct (decide (h = 0)) as [->|]; [rewrite Z.pow_0_r in *; lia|lia]. }
    destruct (height_children _ _ _ Hh Hpos) as (C1 & C2 & _).
    eapply (wp_pull combine t' D h); [done|done|done|done|apply H'; [done|lia]|apply H'; [done|lia]|].
    intros v Hv. eexists. split; [done|]. split; [by rewrite zlen_zupd|]. intros g k Hk Hik.
    destruct (decide (k = i)) as [->|Hne].
    + assert (g = h) as -> by by eapply height_unique. exists v. split; [apply zlook_zupd_eq; lia|done].
    + destruct (H' g k Hk ltac:(lia)) as (x & Hx & Ex). exists x. split; [by rewrite zlook_zupd_ne|done].
  - intros p (t' & -> & Ht' & H'). apply HQ. split; [done|]. split; [done|]. intros h k Hk. apply H'; [done|].
    pose proof (height_span _ _ _ Hk). lia.
Qed.
End Updates.

(** ** Queries *)
Section Queries.
Context {A : Type} (combine : A -> A -> A) `{!Associative combine}.
Context (t : block A) (D : Z) (leaves : list A).
Hypothesis Htree : tree_ok combine t D leaves.
Hypothesis HD : 0 <= D <= 62.

Definition node (k : Z) : option A := match zlook t k with Some c => c | None => None end.
Definition nodes_total (ks : list Z) : option A := ototal combine (node <$> ks).
Definition defined (ks : list Z) : Prop := Forall (fun k => exists x, zlook t k = Some (Some x)) ks.

Lemma nodes_total_app ks ks' : nodes_total (ks ++ ks') = ocombine combine (nodes_total ks) (nodes_total ks').
Proof. unfold nodes_total. by rewrite fmap_app, ototal_app. Qed.

Lemma nodes_total_one k : nodes_total [k] = node k.
Proof. unfold nodes_total. simpl. apply ocombine_none_r. Qed.

(** The position of the left edge of node [k] at height [h]. *)
Definition edge (h k : Z) : Z := k * 2 ^ h - 2 ^ D.

Lemma node_range h k : at_height D h k -> node k = range combine leaves (edge h k) (edge h (k + 1)).
Proof.
  intros Hk. destruct Htree as (_ & _ & H). destruct (H h k Hk) as (x & Hx & Ex).
  unfold node. rewrite Hx. by rewrite <- Ex.
Qed.

Lemma node_defined h k : at_height D h k -> exists x, zlook t k = Some (Some x).
Proof. intros Hk. destruct Htree as (_ & _ & H). destruct (H h k Hk) as (x & Hx & _). by exists x. Qed.

Lemma land_1 x : 0 <= x -> Z.land x 1 = x mod 2.
Proof. intros _. change 1 with (Z.ones 1). by rewrite Z.land_ones. Qed.

Lemma edge_half h k : 0 <= h -> k mod 2 = 0 -> edge (h + 1) (Z.shiftr k 1) = edge h k.
Proof.
  intros Hh Hk. unfold edge. rewrite Z.shiftr_div_pow2, Z.pow_add_r by lia. change (2 ^ 1) with 2.
  assert (k = 2 * (k / 2)) as E by zdiv. rewrite E at 2. lia.
Qed.

(** What the collection has gathered at height [h] with bounds [l] and [r]. *)
Definition gathered (l0 r0 h l r li ri : Z) (lefts rights : block Z) : Prop :=
  exists L R, zlen L = li /\ zlen R = ri /\ zlen lefts = 64 /\ zlen rights = 64 /\
    stored lefts L /\ stored rights R /\ defined L /\ defined R /\
    l0 <= edge h l /\ 0 <= edge h l /\ edge h r <= r0 /\ l <= r /\
    nodes_total L = range combine leaves l0 (edge h l) /\
    nodes_total (reverse R) = range combine leaves (edge h r) r0.

(** A node inside the bounds. *)
Lemma inside_height h l r k r0 :
  0 <= h -> 0 <= edge h l -> edge h r <= r0 -> r0 <= 2 ^ D -> l <= k < r -> l < r -> at_height D h k.
Proof.
  unfold edge. intros Hh Hl Hr Hr0 Hk Hlr. pose proof (pow_pos h Hh). pose proof (pow_pos D ltac:(lia)).
  assert (1 <= l) by nia. assert (k * 2 ^ h + 2 ^ h <= 2 * 2 ^ D) by nia.
  assert (h <= D).
  { assert (2 * 2 ^ h <= 2 * 2 ^ D) as Hpw by nia. apply (Z.pow_le_mono_r_iff 2); lia. }
  split; [lia|nia].
Qed.

Lemma wp_collect_left l0 r0 h l r li ri lefts rights (Q : Z * Z * block Z -> Prop) :
  gathered l0 r0 h l r li ri lefts rights -> 0 <= h -> l < r -> 0 <= l0 -> r0 <= 2 ^ D -> li <= h ->
  (forall l' li' lefts', l' mod 2 = 0 -> (l' = l /\ li' = li \/ l' = l + 1 /\ li' = li + 1 /\ l mod 2 = 1) ->
     gathered l0 r0 h l' r li' ri lefts' rights -> Q (l', li', lefts')) ->
  wp (collect_left l li lefts) Q.
Proof.
  intros (L & R & El & Er & E1 & E2 & S1 & S2 & D1 & D2 & H1 & H2 & H3 & H4 & T1 & T2) Hh Hlr Hl0 Hr0 Hli HQ.
  pose proof (inside_height h l r l r0 Hh H2 H3 Hr0 ltac:(lia) Hlr) as Hk. pose proof (pow_pos h Hh).
  pose proof (height_span _ _ _ Hk) as [_ Hb]. assert (0 < 2 ^ D <= 2 ^ 62) as HDb.
  { split; [apply pow_pos; lia|apply Z.pow_le_mono_r; lia]. }
  unfold collect_left. rewrite land_1 by lia. destruct (Z.eqb_spec (l mod 2) 0) as [E0|E0]; cbn [negb].
  - wstep. apply HQ; [done|auto|]. by exists L, R.
  - pose proof (zlen_nonneg L). pose proof (proj1 Hk). wstep. apply wp_set; [lia|]. wstep.
    rewrite u64_small by lia. apply HQ; [zdiv|right; split; [done|split; [done|zdiv]]|].
    exists (L ++ [l]), R. split; [rewrite zlen_app; change (zlen [l]) with 1; lia|]. split; [done|].
    split; [by rewrite zlen_zupd|]. split; [done|].
    split; [rewrite <- El; apply stored_snoc; [lia|done]|]. split; [done|].
    split; [apply Forall_app; split; [done|constructor; [by eapply node_defined|done]]|]. split; [done|].
    assert (edge h l <= edge h (l + 1)) by (unfold edge; nia). do 2 (split; [lia|]). split; [done|].
    split; [lia|]. split; [|done]. destruct Htree as (_ & Ell & _).
    pose proof (height_span _ _ _ Hk) as [Hs _].
    rewrite nodes_total_app, nodes_total_one, T1, (node_range h l) by done.
    rewrite <- range_split; [done|done|lia|]. rewrite Ell. unfold edge in *. lia.
Qed.

Lemma wp_collect_right l0 r0 h l r li ri lefts rights (Q : Z * Z * block Z -> Prop) :
  gathered l0 r0 h l r li ri lefts rights -> 0 <= h <= D -> 1 <= l -> l mod 2 = 0 -> 0 <= l0 -> r0 <= 2 ^ D ->
  ri <= h ->
  (forall r' ri' rights', r' mod 2 = 0 -> 0 <= r' -> ri' <= ri + 1 ->
     gathered l0 r0 h l r' li ri' lefts rights' -> Q (r', ri', rights')) ->
  wp (collect_right r ri rights) Q.
Proof.
  intros (L & R & El & Er & E1 & E2 & S1 & S2 & D1 & D2 & H1 & H2 & H3 & H4 & T1 & T2) Hh Hl1 Hl Hl0 Hr0 Hri HQ.
  unfold collect_right. rewrite land_1 by lia. pose proof (pow_pos h (proj1 Hh)).
  assert (0 < 2 ^ D <= 2 ^ 62) as HDb by (split; [apply pow_pos; lia|apply Z.pow_le_mono_r; lia]).
  destruct (Z.eqb_spec (r mod 2) 0) as [E0|E0]; cbn [negb].
  - wstep. apply HQ; [done|lia|lia|]. by exists L, R.
  - assert (l < r) as Hlr by (destruct (decide (l = r)) as [->|]; [done|lia]).
    pose proof (inside_height h l r (r - 1) r0 (proj1 Hh) H2 H3 Hr0 ltac:(lia) Hlr) as Hk.
    pose proof (height_span _ _ _ Hk) as [Hs Hb]. pose proof (zlen_nonneg R).
    cbv zeta. rewrite u64_small by lia. wstep. apply wp_set; [lia|]. wstep.
    apply HQ; [zdiv|lia|lia|]. exists L, (R ++ [r - 1]). split; [done|].
    split; [rewrite zlen_app; change (zlen [r - 1]) with 1; lia|]. split; [done|].
    split; [by rewrite zlen_zupd|]. split; [done|].
    split; [rewrite <- Er; apply stored_snoc; [lia|done]|]. split; [done|].
    split; [apply Forall_app; split; [done|constructor; [by eapply node_defined|done]]|].
    assert (edge h (r - 1) <= edge h r /\ edge h l <= edge h (r - 1)) by (unfold edge; nia).
    do 3 (split; [lia|]). split; [lia|]. split; [done|]. destruct Htree as (_ & Ell & _).
    rewrite reverse_snoc. change (r - 1 :: reverse R) with ([r - 1] ++ reverse R).
    rewrite nodes_total_app, nodes_total_one, T2, (node_range h (r - 1)) by done.
    replace (r - 1 + 1) with r by lia. rewrite <- range_split; [done|done|lia|lia].
Qed.

Lemma wp_collect l0 r0 (Q : Z * block Z * Z * block Z -> Prop) :
  0 <= l0 <= r0 -> r0 <= 2 ^ D ->
  (forall L R lefts rights, stored lefts L -> stored rights R -> defined L -> defined R ->
     ocombine combine (nodes_total L) (nodes_total (reverse R)) = range combine leaves l0 r0 ->
     Q (zlen L, lefts, zlen R, rights)) ->
  wp (collect (l0 + 2 ^ D) (r0 + 2 ^ D)) Q.
Proof.
  intros Hlr Hr0 HQ. unfold collect.
  apply (wp_loop_rel (fun m '(l, r, li, lefts, ri, rights) => exists h, m = 64 - h /\ 0 <= h /\ 0 <= r /\
     li <= h /\ ri <= h /\ gathered l0 r0 h l r li ri lefts rights) 64); [|lia|lia|].
  - exists 0. pose proof (pow_pos D ltac:(lia)). do 5 (split; [lia|]). exists [], []. unfold edge. rewrite Z.pow_0_r.
    do 4 (split; [done|]). split; [apply stored_nil|]. split; [apply stored_nil|]. do 2 (split; [constructor|]).
    do 4 (split; [lia|]). by rewrite !range_empty by lia.
  - intros m [[[[[l r] li] lefts] ri] rights] (h & -> & Hh & Hr & Hli & Hri & G).
    destruct (Z.ltb_spec l r).
    + pose proof G as (L & R & _ & _ & _ & _ & _ & _ & _ & _ & _ & H2 & H3 & _).
      pose proof (inside_height h l r l r0 Hh H2 H3 Hr0 ltac:(lia) ltac:(lia)) as Hk.
      pose proof (height_span _ _ _ Hk) as [_ Hb]. destruct Hk as [HhD _].
      wstep. eapply wp_collect_left; [done|done|lia|lia|done|lia|]. intros l' li' lefts' El' Hl' G'.
      wstep. eapply wp_collect_right; [done|lia|lia|done|lia|done|lia|]. intros r' ri' rights' Er' Hr' Hri' G2.
      wstep. exists (64 - (h + 1)). split; [lia|]. exists (h + 1). split; [done|]. split; [lia|].
      rewrite !Z.shiftr_div_pow2 by lia. change (2 ^ 1) with 2. split; [apply Z.div_pos; lia|].
      do 2 (split; [lia|]). destruct G2 as (L2 & R2 & G1 & G3 & G4 & G5 & S1 & S2 & D1 & D2 & G6 & G7 & G8 & G9 & T1 & T2).
      pose proof (edge_half h l' Hh El') as Ee1. pose proof (edge_half h r' Hh Er') as Ee2.
      rewrite !Z.shiftr_div_pow2 in Ee1, Ee2 by lia. change (2 ^ 1) with 2 in *.
      exists L2, R2. rewrite Ee1, Ee2. do 8 (split; [done|]). do 3 (split; [lia|]).
      split; [apply Z.div_le_mono; lia|]. done.
    + wstep. destruct G as (L & R & <- & <- & _ & _ & S1 & S2 & D1 & D2 & H1 & H2 & H3 & H4 & T1 & T2).
      apply HQ; [done..|]. rewrite T1, T2. assert (l = r) as -> by lia.
      destruct Htree as (_ & Ell & _). rewrite <- range_split; [done|done|lia|lia].
Qed.

Lemma wp_accumulate ks (nodes : block Z) i acc (Q : option A -> Prop) :
  stored nodes ks -> defined ks -> 0 <= i < zlen ks ->
  (forall k, zlook ks i = Some k -> Q (ocombine combine acc (node k))) ->
  wp (accumulate combine (Ptr t) nodes i acc) Q.
Proof.
  intros S Hd Hi HQ. destruct (zlook_lt ks i Hi) as [k Hk].
  assert (exists x, zlook t k = Some (Some x)) as [x Hx].
  { eapply (proj1 (Forall_forall _ _) Hd). by eapply zlook_elem. }
  unfold accumulate. wstep. unfold get_cell, get. rewrite (S i k Hk). simpl. wstep. eapply wp_get_elem; [done|].
  wstep. specialize (HQ k Hk). unfold node in HQ. rewrite Hx in HQ. by destruct acc.
Qed.

Lemma wp_query_loops L R lefts rights (Q : option A -> Prop) :
  stored lefts L -> stored rights R -> defined L -> defined R ->
  Q (ocombine combine (nodes_total L) (nodes_total (reverse R))) ->
  wp (zfor 0 (zlen L) (accumulate combine (Ptr t) lefts) None)
     (fun acc => wp (zfor_down (zlen R) (fun i => accumulate combine (Ptr t) rights (i - 1)) acc) Q).
Proof.
  intros S1 S2 D1 D2 HQ.
  apply (wp_zfor (fun i acc => acc = nodes_total (take (Z.to_nat i) L))); [done| |].
  - intros i acc Hi ->. eapply wp_accumulate; [done|done|done|]. intros k Hk.
    replace (Z.to_nat (i + 1)) with (S (Z.to_nat i)) by lia.
    rewrite (take_S_r _ _ k), nodes_total_app, nodes_total_one; [done|].
    unfold zlook in Hk. by destruct (0 <=? i).
  - intros acc ->. pose proof (zlen_nonneg L). rewrite Z.max_r, take_ge by (unfold zlen in *; lia).
    apply (wp_zfor_down (fun i acc => acc = ocombine combine (nodes_total L)
        (nodes_total (reverse (drop (Z.to_nat i) R))))); [apply zlen_nonneg| | |].
    + rewrite drop_ge by (unfold zlen; lia). change (nodes_total (reverse [])) with (@None A).
      by rewrite ocombine_none_r.
    + intros i acc Hi ->. eapply wp_accumulate; [done|done|lia|]. intros k Hk.
      rewrite (drop_S _ k (Z.to_nat (i - 1))) by (unfold zlook in Hk; by destruct (0 <=? i - 1)).
      replace (S (Z.to_nat (i - 1))) with (Z.to_nat i) by lia.
      by rewrite reverse_cons, nodes_total_app, nodes_total_one, ocombine_assoc.
    + intros acc ->. done.
Qed.
End Queries.

(** ** The refinement *)
Section Refinement.
Context {A : Type} (combine : A -> A -> A).
Implicit Types (a : list A) (t : block A).

(** The abstract array: point assignments and combinations of ranges. *)
Inductive segtree_spec : list A -> segtree_op A -> reply A -> list A -> Prop :=
| spec_gupdate a i v :
    u64 i < zlen a -> segtree_spec a (GUpdate i (Some v)) (Code SCL_OK) (zupd a (u64 i) v)
| spec_gupdate_out a i v :
    zlen a <= u64 i -> segtree_spec a (GUpdate i (Some v)) (Code SCL_ERR_INVALID_INDEX) a
| spec_gquery a l r x :
    u64 l < u64 r <= zlen a -> range combine a (u64 l) (u64 r) = Some x ->
    segtree_spec a (GQuery l r true) (Value x) a
| spec_gquery_bad a l r :
    u64 r <= u64 l \/ zlen a < u64 r -> segtree_spec a (GQuery l r true) (Code SCL_ERR_INVALID_ARG) a
| spec_gnull a op :
    (exists i, op = GUpdate i None) \/ (exists l r, op = GQuery l r false) ->
    segtree_spec a op (Code SCL_ERR_NULL_PTR) a.

(** Unused leaves follow the data. *)
Definition segtree_rep (es : Z) (tree : option (scl_segtree_t A)) a : Prop :=
  exists t D zs, tree = Some (SegTree (Ptr t) (zlen a) (2 ^ D) es combine) /\ 0 <= D <= 62 /\
    tree_ok combine t D (a ++ zs).

Context `{!Associative combine}.

Lemma zupd_app_l a zs i (v : A) : i < zlen a -> zupd (a ++ zs) i v = zupd a i v ++ zs.
Proof.
  intros Hi. apply zlook_ext; intros j. rewrite zlook_zupd, !zlook_app, zlook_zupd, zlen_zupd, zlen_app.
  pose proof (zlen_nonneg zs). repeat case_decide; repeat bcase; try done; try lia.
Qed.

#[export] Instance segtree_simulates es : Simulates segtree_step segtree_spec (segtree_rep es).
Proof.
  intros tree a op (t & D & zs & -> & HD & HT).
  assert (segtree_rep es (Some (SegTree (Ptr t) (zlen a) (2 ^ D) es combine)) a) as R by by exists t, D, zs.
  pose proof HT as (Ht & Hl & _). rewrite zlen_app in Hl. pose proof (zlen_nonneg zs). pose proof (zlen_nonneg a).
  assert (0 < 2 ^ D <= 2 ^ 62) as HDb by (split; [apply pow_pos; lia|apply Z.pow_le_mono_r; lia]).
  destruct op as [i [v|]|l r [|]]; unfold segtree_step; try (exists a; split; [apply spec_gnull; eauto|done]).
  - pose proof (u64_range i). unfold scl_segtree_update. rewrite Z.geb_leb.
    destruct (Z.leb_spec (zlen a) (u64 i)); [exists a; split; [by constructor|done]|].
    rewrite u64_small by lia. wstep. wstep. apply wp_set_elem; [lia|]. wstep.
    eapply (wp_update_loop combine); [|split; [apply u64_range|]| |by eapply update_start; [|lia|lia]|];
      [lia|lia|by rewrite zlen_zupd, zlen_app|].
    intros t' HT'. wstep. wstep. eexists. split; [by constructor|]. exists t', D, zs.
    rewrite zlen_zupd. split; [done|]. split; [done|]. by rewrite <- zupd_app_l.
  - pose proof (u64_range l). pose proof (u64_range r). unfold scl_segtree_query. rewrite Z.geb_leb, Z.gtb_ltb.
    destruct (Z.leb_spec (u64 r) (u64 l)); cbn [orb]; [exists a; split; [constructor; auto|done]|].
    destruct (Z.ltb_spec (zlen a) (u64 r)); [exists a; split; [constructor; auto|done]|].
    rewrite !(u64_small (_ + 2 ^ D)) by lia. wstep. wstep.
    eapply (wp_collect combine t D (a ++ zs) HT); [done|lia|lia|]. intros L Rr lefts rights S1 S2 D1 D2 E.
    rewrite range_app in E by lia. destruct (range_some combine a (u64 l) (u64 r)) as [x Hx]; [lia|lia|].
    wstep. eapply wp_mono; [apply (wp_query_loops combine t L Rr lefts rights (fun acc => acc = Some x)
      S1 S2 D1 D2); by rewrite E|].
    intros acc Hacc. simpl in Hacc. wstep. eapply wp_mono; [exact Hacc|]. intros acc' ->. wstep. wstep.
    exists a. split; [by constructor|done].
Qed.

(** ** Initialisation *)
Lemma leaf_count_spec n :
  0 < n < 2 ^ 64 ->
  wp (leaf_count n) (fun r => match r with
    | None => 2 ^ 62 < n
    | Some s => exists D, 0 <= D <= 62 /\ s = 2 ^ D /\ n <= s
    end).
Proof.
  intros Hn. unfold leaf_count. wstep.
  apply (wp_loop_rel (fun m s => exists D, 0 <= D <= 63 /\ m = 64 - D /\ s = 2 ^ D /\ (1 <= D -> 2 ^ (D - 1) < n)) 64);
    [|lia|lia|].
  { by exists 0. }
  change (SIZE_MAX / 2) with (2 ^ 63 - 1).
  intros m s (D & HD & -> & -> & Hlt). destruct (Z.ltb_spec (2 ^ D) n).
  - rewrite Z.gtb_ltb. destruct (Z.ltb_spec (2 ^ 63 - 1) (2 ^ D)).
    + wstep. wstep. assert (2 ^ 62 <= 2 ^ D) by lia. lia.
    + wstep. assert (D < 63) as HD63 by (apply (Z.pow_lt_mono_r_iff 2); lia).
      assert (2 ^ (D + 1) = 2 * 2 ^ D) as E by (rewrite Z.pow_add_r by lia; lia).
      exists (64 - (D + 1)). split; [lia|]. exists (D + 1). split; [lia|]. split; [done|]. split.
      * rewrite Z.shiftl_mul_pow2, u64_small by lia. lia.
      * intros _. by replace (D + 1 - 1) with D by lia.
  - wstep. wstep. rewrite Z.gtb_ltb. destruct (Z.ltb_spec (2 ^ 63 - 1) (2 ^ D)).
    + assert (D = 63) as -> by (destruct (decide (D = 63)) as [|Hne]; [done|exfalso];
        assert (2 ^ D <= 2 ^ 62) by (apply Z.pow_le_mono_r; lia); lia).
      specialize (Hlt ltac:(lia)). change (63 - 1) with 62 in Hlt. done.
    + exists D. assert (D < 63) as HD63 by (apply (Z.pow_lt_mono_r_iff 2); lia). split; [lia|done].
Qed.

Lemma wp_leaves a b D (zero : A) (Q : block A -> Prop) :
  0 <= D -> zlen a <= 2 ^ D -> b = replicate (Z.to_nat (2 * 2 ^ D)) (Some zero) ->
  (forall b' zs, leaves_set b' D (a ++ zs) -> Q b') ->
  wp (zfor 0 (zlen a) (fun i b => x ← get a i; set b (2 ^ D + i) (Some x)) b) Q.
Proof.
  intros HD Ha -> HQ. pose proof (pow_pos D HD). pose proof (zlen_nonneg a).
  apply (wp_zfor (fun i b' => zlen b' = 2 * 2 ^ D /\ forall j, 0 <= j < 2 ^ D ->
    zlook b' (2 ^ D + j) = if j <? i then Some (zlook a j) else Some (Some zero))).
  - split; [rewrite zlen_replicate; lia|]. intros j Hj. rewrite zlook_replicate.
    destruct (Z.ltb_spec j 0); [lia|]. destruct (Z.leb_spec 0 (2 ^ D + j)), (Z.ltb_spec (2 ^ D + j)
      (Z.of_nat (Z.to_nat (2 * 2 ^ D)))); simpl; (done || lia).
  - intros i b' Hi [Eb H']. wstep. wstep. apply wp_set; [lia|]. split; [by rewrite zlen_zupd|]. intros j Hj.
    destruct (decide (j = i)) as [->|Hne].
    + rewrite zlook_zupd_eq by lia. bcase; [by rewrite Hx|lia].
    + rewrite zlook_zupd_ne, H' by lia. destruct (Z.ltb_spec j i), (Z.ltb_spec j (i + 1)); (done || lia).
  - intros b' [Eb H']. rewrite Z.max_r in H' by lia. apply (HQ b' (replicate (Z.to_nat (2 ^ D - zlen a)) zero)).
    split; [done|]. split; [rewrite zlen_app, zlen_replicate; lia|]. intros j Hj. rewrite H' by done.
    rewrite zlook_app, zlook_replicate. destruct (Z.ltb_spec j (zlen a)); [done|].
    destruct (Z.leb_spec 0 (j - zlen a)), (Z.ltb_spec (j - zlen a) (Z.of_nat (Z.to_nat (2 ^ D - zlen a))));
      simpl; (done || lia).
Qed.

Lemma segtree_init_spec (al : scl_allocator_t) `{!AllocatorOk al} w (t0 : scl_segtree_t A) a es zero :
  1 <= es < 2 ^ 64 -> 1 <= zlen a < 2 ^ 64 ->
  wp (scl_segtree_init al w (Some t0) (zlen a) es (Some a) zero (Some combine)) (fun '(err, tree, w') =>
    (err = SCL_OK /\ segtree_rep es tree a /\ w_live w' = w_live w + 1) \/
    (err = SCL_ERR_SIZE_OVERFLOW /\ 2 ^ 62 < zlen a /\ tree = Some t0 /\ w' = w) \/
    (err = SCL_ERR_OUT_OF_MEMORY /\ w_live w' = w_live w /\
     scl_segtree_destroy w' tree = Ok (tree, w'))).
Proof.
  intros Hes Hn. unfold scl_segtree_init. destruct (Z.eqb_spec (zlen a) 0); [lia|].
  destruct (Z.eqb_spec es 0); [lia|]. cbn [orb]. wstep. eapply wp_mono; [apply leaf_count_spec; lia|].
  intros [s|] Hs; [|wstep; right; left; auto]. destruct Hs as (D & HD & -> & Hle).
  unfold scl_calloc. destruct (calloc_fn al (w_reqs w) (2 * 2 ^ D) es MAX_ALIGN).
  - wstep. eapply wp_leaves; [lia|done|done|]. intros b' zs HL. wstep.
    apply (wp_build_tree combine b' D (a ++ zs)); [lia|done|]. intros t HT. wstep. left.
    split; [done|]. split; [by exists t, D, zs|simpl; lia].
  - wstep. right. right. split; [done|]. split; [simpl; lia|done].
Qed.
End Refinement.

(** The segment tree refines an array with point assignments and range
    queries, for every associative [combine] (commutative or not, without a
    unit): the construction combines the data bottom-up, a query answers the
    combination of the elements of its range in order, an assignment changes
    one element, every sequence of operations terminates without stray
    accesses (the two arrays of 64 node indices never overflow), and bad
    indices are refused.  Destroying the tree returns its block; a refused
    initialisation keeps nothing and can be destroyed. *)
Theorem segtree_refines {A} (al : scl_allocator_t) (combine : A -> A -> A) (zero : A) (w : world)
  (t0 : scl_segtree_t A) (a : list A) (es : Z) (ops : list (segtree_op A))
  (Hal : AllocatorOk al) (Hc : Associative combine) (Hes : 1 <= es < 2 ^ 64) (Hn : 1 <= zlen a < 2 ^ 64) :
  (exists err tree w1,
    scl_segtree_init al w (Some t0) (zlen a) es (Some a) zero (Some combine) = Ok (err, tree, w1) /\
    ((err = SCL_OK /\
      exists outs tree2 a2 tree3 w2, run segtree_step tree ops = Ok (outs, tree2) /\
        trace (segtree_spec combine) a ops outs a2 /\
        scl_segtree_destroy w1 tree2 = Ok (tree3, w2) /\ w_live w2 = w_live w) \/
     (err = SCL_ERR_SIZE_OVERFLOW /\ 2 ^ 62 < zlen a /\ tree = Some t0 /\ w1 = w) \/
     (err = SCL_ERR_OUT_OF_MEMORY /\ w_live w1 = w_live w /\
      scl_segtree_destroy w1 tree = Ok (tree, w1)))) /\
  (forall op, segtree_step None op = Ok (Code (A := A) SCL_ERR_NULL_PTR, None)).
Proof.
  split; [|by intros []].
  destruct (proj1 (wp_ok _ _) (segtree_init_spec combine al w t0 a es zero Hes Hn)) as ([[err tree] w1] & E & H).
  exists err, tree, w1. split; [done|]. destruct H as [(-> & R & Hw)|H]; [left|by right]. split; [done|].
  pose proof (segtree_simulates combine es) as Sim.
  destruct (proj1 (wp_ok _ _) (run_refines _ _ _ tree _ ops R)) as ([outs tree2] & E2 & a2 & T & R2).
  destruct R2 as (t & D & zs & -> & _). exists outs. eexists. exists a2. do 2 eexists.
  do 3 (split; [done|]). simpl. lia.
Qed.

#[export] Instance max_associative : Associative Z.max.
Proof. intros x y z. lia. Qed.

Lemma segtree_refines_witness :
  exists outs a, trace (segtree_spec Z.max) [5; 7; 6] [GUpdate 1 (Some 2); GQuery 0 3 true] outs a.
Proof.
  destruct (segtree_refines small_allocator Z.max 0 (World 0 0) (SegTree Null 0 0 0 Z.max)
    [5; 7; 6] 8 [GUpdate 1 (Some 2); GQuery 0 3 true] _ _ ltac:(lia) ltac:(vm_compute; split; congruence))
    as [(err & tree & w1 & E & [(_ & outs & _ & a & _ & _ & _ & T & _)|[(H & _)|(H & _)]]) _].
  - exists outs, a. exact T.
  - exfalso. vm_compute in E. rewrite H in E. discriminate E.
  - exfalso. vm_compute in E. rewrite H in E. discriminate E.
Defined.
