(* ===== verification/SparseTable.v ===== *)
(** The sparse table of [libs/structures/sparse/scl_sparse.c]: range queries of
    an idempotent operation in constant time, over a table of the ranges whose
    lengths are powers of two. *)

From S2P Require Import Prelude Core Refine UnionFind SegTree.
#[local] Open Scope Z_scope.

Record scl_sparse_t (A : Type) : Type := Sparse {
  sp_levels : ptr (ptr A);
  sp_n : Z;
  sp_levels_count : Z;
  sp_element_size : Z;
  sp_scratch : ptr A;
  sp_combine : A -> A -> A
}.
Arguments Sparse {A}.
Arguments sp_levels {A}.
Arguments sp_n {A}.
Arguments sp_levels_count {A}.
Arguments sp_element_size {A}.
Arguments sp_scratch {A}.
Arguments sp_combine {A}.

(** [1UL << k]: undefined from the width of the type on. *)
Definition shl1 (k : Z) : res Z := if (0 <=? k) && (k <? 64) then mret (2 ^ k) else UB.

(** [while ((1UL << (k + d)) <= n) k++], from 0. *)
Definition log_loop (d n : Z) : res Z :=
  loop 66 (fun k => p ← shl1 (k + d); if p <=? n then mret (inl (k + 1)) else mret (inr k)) 0.

Section Defs.
Context {A : Type} (al : scl_allocator_t).
Notation sparse := (scl_sparse_t A).

(** Element [i] of level [k]. *)
Definition get_level (levels : ptr (ptr A)) (k i : Z) : res A := p ← get_elem levels k; get_elem p i.
Definition set_level (levels : ptr (ptr A)) (k i : Z) (x : A) : res (ptr (ptr A)) :=
  p ← get_elem levels k; p ← set_elem p i x; set_elem levels k p.

(** The levels are allocated one by one until one is refused. *)
Definition alloc_levels (w : world) (levels : ptr (ptr A)) (levels_count level_sz es : Z)
    : res (ptr (ptr A) * world + ptr (ptr A) * world) :=
  zfor_ret 0 levels_count
    (fun k '(levels, w) =>
       let '(b, w) := scl_alloc (A := A) al w level_sz MAX_ALIGN es in
       levels ← set_elem levels k (to_ptr b);
       match b with Some _ => mret (inl (levels, w)) | None => mret (inr (levels, w)) end) (levels, w).

Definition free_levels (w : world) (levels : ptr (ptr A)) (levels_count : Z) : res world :=
  zfor 0 levels_count (fun k w => p ← get_elem levels k; free_ptr w p) w.

(** The ranges of length [2 ^ k] from those of length [2 ^ (k - 1)]. *)
Definition fill_level (combine : A -> A -> A) (n k : Z) (levels : ptr (ptr A)) : res (ptr (ptr A)) :=
  len ← shl1 k;
  prev_len ← shl1 (k - 1);
  zfor 0 (n - len + 1)
    (fun i levels =>
       a ← get_level levels (k - 1) i;
       b ← get_level levels (k - 1) (i + prev_len);
       set_level levels k i (combine a b)) levels.

Definition freed (s : sparse) (levels : option (block (ptr A))) (scratch : option (block A)) : option sparse :=
  Some (Sparse (after_free (to_ptr levels)) (sp_n s) (sp_levels_count s) (sp_element_size s) (after_free (to_ptr scratch)) (sp_combine s)).

Definition scl_sparse_init (w : world) (st : option sparse) (n es : Z) (data : option (list A)) (combine : option (A -> A -> A))
    : res (scl_error_t * option sparse * world) :=
  match st, combine, data with
  | Some s, Some combine, Some data =>
      if (n =? 0) || (es =? 0) then mret (SCL_ERR_INVALID_ARG, Some s, w)
      else
        levels_count ← log_loop 0 n;
        let '(levels, w) := scl_calloc al w levels_count 8 MAX_ALIGN Null in
        let '(scratch, w) := scl_alloc (A := A) al w es MAX_ALIGN es in
        match levels, scratch with
        | Some lv, Some sc =>
            match scl_mul_overflow n es with
            | None => mret (SCL_ERR_SIZE_OVERFLOW, freed s levels scratch, scl_free (scl_free w levels) scratch)
            | Some level_sz =>
                r ← alloc_levels w (Ptr lv) levels_count level_sz es;
                match r with
                | inr (lv, w) =>
                    w ← free_levels w lv levels_count;
                    w ← free_ptr w lv;
                    mret (SCL_ERR_OUT_OF_MEMORY, freed s levels scratch, scl_free w scratch)
                | inl (lv, w) =>
                    lv ← zfor 0 n (fun i lv => x ← get data i; set_level lv 0 i x) lv;
                    lv ← zfor 1 levels_count (fill_level combine n) lv;
                    mret (SCL_OK, Some (Sparse lv n levels_count es (Ptr sc) combine), w)
                end
            end
        | _, _ => mret (SCL_ERR_OUT_OF_MEMORY, freed s levels scratch, scl_free (scl_free w levels) scratch)
        end
  | _, _, _ => mret (SCL_ERR_NULL_PTR, st, w)
  end.

Definition scl_sparse_destroy (w : world) (st : option sparse) : res (option sparse * world) :=
  match st with
  | None => mret (None, w)
  | Some s =>
      w ← free_levels w (sp_levels s) (sp_levels_count s);
      w ← free_ptr w (sp_levels s);
      w ← free_ptr w (sp_scratch s);
      mret (Some (Sparse Null 0 0 (sp_element_size s) Null (sp_combine s)), w)
  end.

Definition scl_sparse_query (st : option sparse) (l r : Z) (out : bool) : res (scl_error_t * option A * option sparse) :=
  match st, out with
  | Some s, true =>
      if (l >? r) || (r >=? sp_n s) then mret (SCL_ERR_INVALID_ARG, None, st)
      else
        k ← log_loop 1 (r - l + 1);
        p ← shl1 k;
        a ← get_level (sp_levels s) k l;
        b ← get_level (sp_levels s) k (r - p + 1);
        scratch ← set_elem (sp_scratch s) 0 (sp_combine s a b);
        x ← get_elem scratch 0;
        mret (SCL_OK, Some x, Some (Sparse (sp_levels s) (sp_n s) (sp_levels_count s) (sp_element_size s) scratch (sp_combine s)))
  | _, _ => mret (SCL_ERR_NULL_PTR, None, st)
  end.
End Defs.

(** [combine x x = x]. *)
Class Idempotent {A : Type} (combine : A -> A -> A) : Prop := combine_idemp : forall x, combine x x = x.

(** ** The logarithm loops *)
Lemma wp_log_loop d n (Q : Z -> Prop) : 0 <= d <= 1 -> 1 <= n < 2 ^ 63 ->
  (forall k, k = Z.log2 n + 1 - d -> Q k) -> wp (log_loop d n) Q.
Proof.
  intros Hd Hn HQ. pose proof (Z.log2_nonneg n). assert (Z.log2 n < 63) as Hl by (apply Z.log2_lt_pow2; lia). pose proof (Z.log2_spec n ltac:(lia)) as Hs.
  unfold log_loop. apply (wp_loop (fun k => 0 <= k <= Z.log2 n + 1 - d) (fun k => 64 - k)); [lia|lia|lia|].
  intros k Hk. unfold shl1. destruct (Z.leb_spec 0 (k + d)), (Z.ltb_spec (k + d) 64); try lia. cbn [andb]. wstep. wstep.
  destruct (Z.leb_spec (2 ^ (k + d)) n) as [Hp|Hp]; wstep.
  - assert (k + d <= Z.log2 n) by (apply Z.log2_le_pow2; lia). lia.
  - apply HQ. enough (Z.log2 n < k + d) by lia. apply Z.log2_lt_pow2; lia.
Qed.

Lemma shl1_ok k (Q : Z -> Prop) : 0 <= k < 64 -> Q (2 ^ k) -> wp (shl1 k) Q.
Proof. intros Hk HQ. unfold shl1. by destruct (Z.leb_spec 0 k), (Z.ltb_spec k 64); try lia. Qed.

Section Table.
Context {A : Type} (combine : A -> A -> A) `{!Associative combine}.
Implicit Types (a : list A) (L : block (ptr A)) (b : block A).

Definition level_cell L k i (x : A) : Prop := exists b, zlook L k = Some (Some (Ptr b)) /\ zlook b i = Some (Some x).
(** Every level is a block of [n] cells. *)
Definition levels_ok L lc n : Prop := zlen L = lc /\ forall k, 0 <= k < lc -> exists b, zlook L k = Some (Some (Ptr b)) /\ zlen b = n.
(** Level [k] holds the combinations of the ranges of length [2 ^ k]. *)
Definition filled a L k hi : Prop := forall i, 0 <= i < hi -> exists x, level_cell L k i x /\ range combine a i (i + 2 ^ k) = Some x.

Lemma wp_get_level L k i x (Q : A -> Prop) : level_cell L k i x -> Q x -> wp (get_level (Ptr L) k i) Q.
Proof. intros (b & Eb & Ex) HQ. unfold get_level. wstep. eapply wp_get_elem; [exact Eb|]. by eapply wp_get_elem. Qed.

Lemma wp_set_level L lc n k i x (Q : ptr (ptr A) -> Prop) : levels_ok L lc n -> 0 <= k < lc -> 0 <= i < n ->
  (forall L', levels_ok L' lc n -> level_cell L' k i x -> (forall k' i' y, (k', i') <> (k, i) -> level_cell L k' i' y -> level_cell L' k' i' y) ->
     Q (Ptr L')) -> wp (set_level (Ptr L) k i x) Q.
Proof.
  intros [El HL] Hk Hi HQ. destruct (HL k Hk) as (b & Eb & Hb). unfold set_level. wstep. eapply wp_get_elem; [exact Eb|].
  wstep. apply wp_set_elem; [lia|]. apply wp_set_elem; [lia|]. apply HQ.
  - split; [by rewrite zlen_zupd|]. intros k' Hk'. rewrite zlook_zupd. case_decide; [|by apply HL].
    eexists. split; [done|]. by rewrite zlen_zupd.
  - eexists. split; [rewrite zlook_zupd_eq by lia; done|]. by rewrite zlook_zupd_eq by lia.
  - intros k' i' y Hne (b' & Eb' & Ey). destruct (decide (k = k')) as [->|].
    + rewrite Eb in Eb'. injection Eb' as <-. eexists. split; [rewrite zlook_zupd_eq by lia; done|].
      rewrite zlook_zupd_ne; [done|congruence].
    + exists b'. rewrite zlook_zupd_ne by done. done.
Qed.

Lemma level_cell_fun L k i x y : level_cell L k i x -> level_cell L k i y -> x = y.
Proof. intros (b & E1 & E2) (b' & E3 & E4). congruence. Qed.

Lemma wp_fill_level a L lc k (Q : ptr (ptr A) -> Prop) : levels_ok L lc (zlen a) -> 1 <= k < lc -> lc <= 63 -> 2 ^ k <= zlen a ->
  (forall j, 0 <= j < k -> filled a L j (zlen a - 2 ^ j + 1)) ->
  (forall L', levels_ok L' lc (zlen a) -> (forall j, 0 <= j < k + 1 -> filled a L' j (zlen a - 2 ^ j + 1)) -> Q (Ptr L')) ->
  wp (fill_level combine (zlen a) k (Ptr L)) Q.
Proof.
  intros HL Hk Hlc Hp Hf HQ. unfold fill_level. wstep. apply shl1_ok; [lia|]. wstep. apply shl1_ok; [lia|].
  assert (2 ^ k = 2 ^ (k - 1) + 2 ^ (k - 1)) as E2 by (replace k with (k - 1 + 1) at 1 by lia; rewrite Z.pow_add_r by lia; lia).
  assert (0 < 2 ^ (k - 1)) by lia.
  apply (wp_zfor (fun i p => exists L', p = Ptr L' /\ levels_ok L' lc (zlen a) /\
    (forall j, 0 <= j < k -> filled a L' j (zlen a - 2 ^ j + 1)) /\ filled a L' k i)).
  - exists L. split; [done|]. split; [done|]. split; [done|]. intros i Hi. lia.
  - intros i p Hi (L' & -> & HL' & Hf' & Hk'). destruct (Hf' (k - 1) ltac:(lia) i ltac:(lia)) as (x & Hx & Rx).
    destruct (Hf' (k - 1) ltac:(lia) (i + 2 ^ (k - 1)) ltac:(lia)) as (y & Hy & Ry).
    wstep. eapply wp_get_level; [exact Hx|]. wstep. eapply wp_get_level; [exact Hy|].
    eapply wp_set_level; [exact HL'|lia|lia|]. intros L2 HL2 Hc2 Hfr. exists L2. split; [done|]. split; [done|]. split.
    + intros j Hj i' Hi'. destruct (Hf' j Hj i' Hi') as (z & Hz & Rz). exists z. split; [|done]. apply Hfr; [|done]. intros [= ?]. lia.
    + intros i' Hi'. destruct (decide (i' = i)) as [->|].
      * exists (combine x y). split; [done|]. rewrite E2, (range_split combine a i (i + 2 ^ (k - 1))), Rx by lia.
        replace (i + (2 ^ (k - 1) + 2 ^ (k - 1))) with (i + 2 ^ (k - 1) + 2 ^ (k - 1)) by lia. by rewrite Ry.
      * destruct (Hk' i' ltac:(lia)) as (z & Hz & Rz). exists z. split; [|done]. apply Hfr; [|done]. intros [= ?]. lia.
  - intros p (L' & -> & HL' & Hf' & Hk'). apply HQ; [done|]. intros j Hj. rewrite Z.max_r in Hk' by lia.
    destruct (decide (j = k)) as [->|]; [done|apply Hf'; lia].
Qed.

(** The combination of two overlapping ranges. *)
Lemma range_overlap `{!Idempotent combine} a l m1 m2 r : 0 <= l <= m1 -> m1 <= m2 -> m2 <= r -> r <= zlen a ->
  ocombine combine (range combine a l m2) (range combine a m1 r) = range combine a l r.
Proof.
  intros H1 H2 H3 H4. rewrite (range_split combine a l m1 m2), (range_split combine a m1 m2 r) by lia.
  rewrite (range_split combine a l m1 r), (range_split combine a m1 m2 r) by lia.
  rewrite <- (ocombine_assoc combine), (ocombine_assoc combine (range combine a m1 m2)).
  do 2 f_equal. destruct (range combine a m1 m2) as [x|]; simpl; [|done]. by rewrite combine_idemp.
Qed.
End Table.

(** ** Allocating and freeing the levels *)
Section Alloc.
Context {A : Type} (al : scl_allocator_t) `{!AllocatorOk al}.
Implicit Types (L : block (ptr A)).

(** The first [j] levels are blocks of [n] cells, the others are [NULL]. *)
Definition partly L lc n j : Prop := zlen L = lc /\
  forall k, 0 <= k < lc -> (k < j -> exists b : block A, zlook L k = Some (Some (Ptr b)) /\ zlen b = n) /\ (j <= k -> zlook L k = Some (Some Null)).

Lemma wp_alloc_levels w L lc n es (Q : ptr (ptr A) * world + ptr (ptr A) * world -> Prop) :
  1 <= es -> 0 <= lc -> partly L lc n 0 ->
  (forall L' w', partly L' lc n lc -> w_live w' = w_live w + lc -> Q (inl (Ptr L', w'))) ->
  (forall L' w' j, 0 <= j <= lc -> partly L' lc n j -> w_live w' = w_live w + j -> Q (inr (Ptr L', w'))) ->
  wp (alloc_levels al w (Ptr L) lc (n * es) es) Q.
Proof.
  intros Hes Hlc HL HQ1 HQ2. unfold alloc_levels.
  apply (wp_zfor_ret (fun j '(p, w') => exists L', p = Ptr L' /\ partly L' lc n j /\ w_live w' = w_live w + j)).
  - exists L. split; [done|]. split; [done|lia].
  - intros j [p w1] Hj (L' & -> & [El HL'] & Hw). destruct (scl_alloc al w1 (n * es) MAX_ALIGN es) as [b w2] eqn:E.
    apply (owns_alloc (A := A) al) in E as [Hw2 Ho]; [|lia]. wstep. apply wp_set_elem; [lia|].
    destruct b as [b|]; simpl in Hw2; wstep.
    + destruct Ho as (Zb & _). eexists. split; [done|]. split; [|lia]. split; [by rewrite zlen_zupd|].
      intros k Hk. destruct (HL' k Hk) as [H1 H2]. rewrite zlook_zupd. case_decide as Hd.
      * destruct Hd as [<- _]. split; [|lia]. intros _. by exists b.
      * split; [intros Hkj; apply H1; lia|intros Hkj; apply H2; lia].
    + apply (HQ2 _ _ j); [lia| |lia]. split; [by rewrite zlen_zupd|]. intros k Hk. destruct (HL' k Hk) as [H1 H2].
      rewrite zlook_zupd. case_decide as Hd; [|done]. destruct Hd as [<- _]. split; [lia|done].
  - intros [p w1] (L' & -> & HL' & Hw). rewrite Z.max_r in * by lia. by apply HQ1.
Qed.

Lemma wp_free_levels w L lc n j (Q : world -> Prop) : 0 <= j <= lc -> partly L lc n j ->
  (forall w', w_live w' = w_live w - j -> Q w') -> wp (free_levels w (Ptr L) lc) Q.
Proof.
  intros Hj [El HL] HQ. unfold free_levels. apply (wp_zfor (fun k w' => w_live w' = w_live w - Z.min k j)).
  - lia.
  - intros k w1 Hk Hw. destruct (HL k Hk) as [H1 H2]. wstep. destruct (Z.lt_ge_cases k j).
    + destruct (H1 ltac:(lia)) as (b & Eb & _). eapply wp_get_elem; [exact Eb|]. simpl. lia.
    + eapply wp_get_elem; [apply H2; lia|]. simpl. lia.
  - intros w1 Hw. apply HQ. lia.
Qed.

Lemma partly_full L lc n : partly L lc n lc -> levels_ok L lc n.
Proof. intros [El HL]. split; [done|]. intros k Hk. apply HL; lia. Qed.

Lemma full_partly L lc n : levels_ok L lc n -> partly L lc n lc.
Proof. intros [El HL]. split; [done|]. intros k Hk. split; [intros _; by apply HL|lia]. Qed.
End Alloc.

(** ** Initialisation, queries, destruction *)
Section Sparse.
Context {A : Type} (al : scl_allocator_t) `{!AllocatorOk al} (combine : A -> A -> A) `{!Associative combine}.
Implicit Types (a : list A).

Definition sparse_rep (es live0 : Z) (st : option (scl_sparse_t A) * world) a : Prop :=
  exists L sc lc, st.1 = Some (Sparse (Ptr L) (zlen a) lc es (Ptr sc) combine) /\ lc = Z.log2 (zlen a) + 1 /\
    levels_ok L lc (zlen a) /\ (forall k, 0 <= k < lc -> filled combine a L k (zlen a - 2 ^ k + 1)) /\ zlen sc = 1 /\
    w_live st.2 = live0 + lc + 2.

Lemma wp_copy_data a L lc (Q : ptr (ptr A) -> Prop) : levels_ok L lc (zlen a) -> 1 <= lc ->
  (forall L', levels_ok L' lc (zlen a) -> filled combine a L' 0 (zlen a) -> Q (Ptr L')) ->
  wp (zfor 0 (zlen a) (fun i lv => x ← get a i; set_level lv 0 i x) (Ptr L)) Q.
Proof.
  intros HL Hlc HQ. pose proof (zlen_nonneg a).
  apply (wp_zfor (fun i p => exists L', p = Ptr L' /\ levels_ok L' lc (zlen a) /\ filled combine a L' 0 i)).
  - exists L. split; [done|]. split; [done|]. intros i Hi. lia.
  - intros i p Hi (L' & -> & HL' & Hf). wstep. wstep. eapply wp_set_level; [exact HL'|lia|lia|].
    intros L2 HL2 Hc2 Hfr. exists L2. split; [done|]. split; [done|]. intros i' Hi'. destruct (decide (i' = i)) as [->|].
    + exists x. split; [done|]. by apply range_one.
    + destruct (Hf i' ltac:(lia)) as (y & Hy & Ry). exists y. split; [|done]. apply Hfr; [congruence|done].
  - intros p (L' & -> & HL' & Hf). rewrite Z.max_r in Hf by lia. by apply HQ.
Qed.

Lemma sparse_init_spec w s a es : 1 <= es < 2 ^ 64 -> 1 <= zlen a < 2 ^ 63 ->
  wp (scl_sparse_init al w (Some s) (zlen a) es (Some a) (Some combine)) (fun '(e, st, w') =>
    (e = SCL_OK /\ sparse_rep es (w_live w) (st, w') a) \/
    ((e = SCL_ERR_OUT_OF_MEMORY \/ (e = SCL_ERR_SIZE_OVERFLOW /\ 2 ^ 64 <= zlen a * es)) /\ w_live w' = w_live w)).
Proof.
  intros Hes Hn. unfold scl_sparse_init. set (n := zlen a) in *.
  destruct (Z.eqb_spec n 0); [lia|]. destruct (Z.eqb_spec es 0); [lia|]. cbn [orb].
  pose proof (Z.log2_nonneg n). assert (Z.log2 n < 63) as Hl by (apply Z.log2_lt_pow2; lia). wstep.
  apply wp_log_loop; [lia|lia|]. intros lc Elc. rewrite Z.sub_0_r in Elc.
  unfold scl_calloc. destruct (calloc_fn al (w_reqs w) lc 8 MAX_ALIGN).
  2:{ destruct (scl_alloc al _ es MAX_ALIGN es) as [sc w2] eqn:E2. replace es with (1 * es) in E2 at 1 by lia.
      apply (owns_alloc (A := A) al) in E2 as [L2 _]; [|lia]. wstep. right. split; [auto|].
      destruct sc; simpl in *; lia. }
  destruct (scl_alloc al _ es MAX_ALIGN es) as [sc w2] eqn:E2. replace es with (1 * es) in E2 at 1 by lia.
  apply (owns_alloc (A := A) al) in E2 as [L2 O2]; [|lia]. simpl in L2.
  destruct sc as [sc|]; [|wstep; right; split; [auto|]; simpl in *; lia]. destruct O2 as (Z2 & _). simpl in L2.
  rewrite scl_mul_overflow_spec by (unfold is_u64; lia).
  destruct (Z.ltb_spec (n * es) (2 ^ 64)); [|wstep; right; split; [auto|]; simpl; lia].
  wstep. apply (wp_alloc_levels al); [lia|lia| | |].
  - split; [rewrite zlen_replicate; lia|]. intros k Hk. split; [lia|]. intros _. rewrite zlook_replicate.
    destruct (Z.leb_spec 0 k), (Z.ltb_spec k (Z.of_nat (Z.to_nat lc))); try lia. done.
  - intros L w3 HL Hw3. apply partly_full in HL. cbv beta iota. wstep. apply (wp_copy_data a L lc); [done|lia|]. intros L3 HL3 Hf0.
    wstep. apply (wp_zfor (fun k p => exists L', p = Ptr L' /\ levels_ok L' lc n /\
      forall j, 0 <= j < k -> filled combine a L' j (n - 2 ^ j + 1))).
    + exists L3. split; [done|]. split; [done|]. intros j Hj. assert (j = 0) as -> by lia. by replace (n - 2 ^ 0 + 1) with n by lia.
    + intros k p Hk (L' & -> & HL' & Hf). apply (wp_fill_level combine a L' lc k); [done|lia|lia| |done|].
      * pose proof (Z.log2_spec n ltac:(lia)). assert (2 ^ k <= 2 ^ Z.log2 n) by (apply Z.pow_le_mono_r; lia). fold n. lia.
      * intros L4 HL4 Hf4. by exists L4.
    + intros p (L' & -> & HL' & Hf). wstep. left. split; [done|]. exists L', sc, lc. rewrite Z.max_r in Hf by lia.
      split; [done|]. split; [done|]. split; [done|]. split; [done|]. split; [lia|]. simpl. lia.
  - intros L w3 j Hj HL Hw3. cbv beta iota. wstep. apply (wp_free_levels w3 L lc n j); [done|done|]. intros w4 Hw4. wstep. cbn [free_ptr]. wstep. wstep.
    right. split; [auto|]. simpl. lia.
Qed.

Lemma sparse_destroy_spec es live0 st a : sparse_rep es live0 st a ->
  wp (scl_sparse_destroy st.2 st.1) (fun '(_, w') => w_live w' = live0).
Proof.
  destruct st as [s w]. intros (L & sc & lc & E & Elc & HL & Hf & Hsc & Hw). cbn [fst snd] in *. subst s. unfold scl_sparse_destroy.
  cbn [sp_levels sp_levels_count sp_scratch]. pose proof (Z.log2_nonneg (zlen a)).
  wstep. apply (wp_free_levels w L lc (zlen a) lc); [lia|by apply full_partly|]. intros w2 Hw2. simpl. lia.
Qed.
End Sparse.

Inductive sparse_op : Type := SpQuery (l r : Z) (out : bool).

Definition sparse_step {A} (st : option (scl_sparse_t A) * world) (op : sparse_op)
    : res (reply A * (option (scl_sparse_t A) * world)) :=
  let '(s, w) := st in
  match op with SpQuery l r out => '(e, x, s) ← scl_sparse_query s l r out; mret (match x with Some x => Value x | None => Code e end, (s, w)) end.

Inductive sparse_spec {A} (combine : A -> A -> A) : list A -> sparse_op -> reply A -> list A -> Prop :=
| sq_value a l r x : 0 <= l <= r -> r < zlen a -> range combine a l (r + 1) = Some x ->
    sparse_spec combine a (SpQuery l r true) (Value x) a
| sq_bad a l r : r < l \/ zlen a <= r -> sparse_spec combine a (SpQuery l r true) (Code SCL_ERR_INVALID_ARG) a
| sq_null a l r : sparse_spec combine a (SpQuery l r false) (Code SCL_ERR_NULL_PTR) a.

Definition sparse_args {A} (_ : list A) (op : sparse_op) : Prop := match op with SpQuery l r _ => 0 <= l /\ 0 <= r end.

Lemma sparse_simulates {A} (combine : A -> A -> A) `{!Associative combine} `{!Idempotent combine} es live0 st a op :
  zlen a < 2 ^ 63 -> sparse_rep combine es live0 st a -> sparse_args a op ->
  wp (sparse_step st op) (fun '(out, st') => exists a', sparse_spec combine a op out a' /\ sparse_rep combine es live0 st' a').
Proof.
  intros Hn R Hop. destruct st as [s w], op as [l r [|]]; [|pose proof R as (L & sc & lc & E & _); cbn [fst] in E; subst s; by exists a; split; [constructor|]].
  pose proof R as (L & sc & lc & E & Elc & HL & Hf & Hsc & Hw). cbn [fst snd] in *. subst s. destruct Hop as [Hl0 Hr0].
  cbn [sparse_step scl_sparse_query sp_n sp_levels sp_scratch sp_combine].
  rewrite Z.gtb_ltb, Z.geb_leb. destruct (Z.ltb_spec r l), (Z.leb_spec (zlen a) r); cbn [orb];
    try (exists a; split; [apply sq_bad; lia|exact R]).
  set (len := r - l + 1). assert (1 <= len <= zlen a) as Hlen by lia. pose proof (Z.log2_nonneg len).
  assert (Z.log2 len <= Z.log2 (zlen a)) as Hll by (apply Z.log2_le_mono; lia). pose proof (Z.log2_spec len ltac:(lia)) as Hs.
  assert (Z.log2 (zlen a) < 63) by (apply Z.log2_lt_pow2; lia).
  wstep. wstep. apply wp_log_loop; [lia|lia|]. intros k Ek. fold len. replace (Z.log2 len + 1 - 1) with (Z.log2 len) in Ek by lia.
  rewrite <- Ek in *. wstep. apply shl1_ok; [lia|].
  replace (2 ^ Z.succ k) with (2 * 2 ^ k) in Hs by (rewrite Z.pow_succ_r by lia; lia).
  destruct (Hf k ltac:(lia) l ltac:(lia)) as (x & Hx & Rx). destruct (Hf k ltac:(lia) (r - 2 ^ k + 1) ltac:(lia)) as (y & Hy & Ry).
  wstep. eapply wp_get_level; [exact Hx|]. wstep. eapply wp_get_level; [exact Hy|]. wstep. apply wp_set_elem; [lia|].
  wstep. eapply wp_get_elem; [apply zlook_zupd_eq; lia|]. wstep. wstep. exists a. split.
  - apply sq_value; [lia|lia|]. replace (r - 2 ^ k + 1 + 2 ^ k) with (r + 1) in Ry by lia.
    rewrite <- (range_overlap combine a l (r - 2 ^ k + 1) (l + 2 ^ k) (r + 1)) by lia. by rewrite Rx, Ry.
  - eexists L, _, lc. split; [done|]. split; [done|]. split; [done|]. split; [done|]. split; [by rewrite zlen_zupd|done].
Qed.

(** The sparse table answers range queries: after a successful
    initialisation from any array, over any allocator and any associative and
    idempotent operation (commutative or not), every sequence of queries
    returns, without stray access, the combination of the elements of its
    range in order, and refuses empty and outlying ranges; destroying the
    table returns its memory.  A refused initialisation keeps nothing. *)
Theorem sparse_refines {A} (al : scl_allocator_t) `{!AllocatorOk al} (combine : A -> A -> A) `{!Associative combine}
  `{!Idempotent combine} (w : world) (s : scl_sparse_t A) (a : list A) (es : Z) (ops : list sparse_op)
  (Hes : 1 <= es < 2 ^ 64) (Hn : 1 <= zlen a < 2 ^ 63) (Hops : Forall (sparse_args a) ops) :
  exists e st w1, scl_sparse_init al w (Some s) (zlen a) es (Some a) (Some combine) = Ok (e, st, w1) /\
    ((e = SCL_OK /\ exists outs st2 w2 st3 w3, run sparse_step (st, w1) ops = Ok (outs, (st2, w2)) /\
        trace (sparse_spec combine) a ops outs a /\ scl_sparse_destroy w2 st2 = Ok (st3, w3) /\ w_live w3 = w_live w) \/
     ((e = SCL_ERR_OUT_OF_MEMORY \/ (e = SCL_ERR_SIZE_OVERFLOW /\ 2 ^ 64 <= zlen a * es)) /\ w_live w1 = w_live w)).
Proof.
  destruct (proj1 (wp_ok _ _) (sparse_init_spec al combine w s a es Hes Hn)) as ([[e st] w1] & E & H).
  exists e, st, w1. split; [done|]. destruct H as [[-> R]|H]; [left|by right]. split; [done|].
  assert (permitted (sparse_spec combine) (fun a' op => zlen a' < 2 ^ 63 /\ sparse_args a' op) a ops) as Hperm.
  { intros ops1 o ops2 outs a' -> T. assert (a' = a) as -> by (clear -T; induction T as [|? ? ? ? ? ? ? S]; [done|by inversion S; subst]).
    apply Forall_app in Hops as [_ Ho%Forall_cons_1]. split; [lia|apply Ho]. }
  destruct (proj1 (wp_ok _ _) (run_refines_on sparse_step (sparse_spec combine) _ (sparse_rep combine es (w_live w)) _ _ ops
    (fun st a op R H => sparse_simulates combine es (w_live w) st a op (proj1 H) R (proj2 H)) R Hperm)) as ([outs [st2 w2]] & E2 & a' & T & R2).
  assert (a' = a) as -> by (clear -T; induction T as [|? ? ? ? ? ? ? S]; [done|by inversion S; subst]).
  destruct (proj1 (wp_ok _ _) (sparse_destroy_spec combine es (w_live w) _ _ R2)) as ([st3 w3] & E3 & Hw3).
  by exists outs, st2, w2, st3, w3.
Qed.

#[export] Instance max_idempotent : Idempotent Z.max.
Proof. intros x. lia. Qed.

Lemma sparse_refines_witness :
  exists outs, trace (sparse_spec Z.max) [5; 7; 6] [SpQuery 0 2 true; SpQuery 2 2 true; SpQuery 2 1 true] outs [5; 7; 6].
Proof.
  destruct (sparse_refines small_allocator Z.max (World 0 0) (Sparse Null 0 0 0 Null Z.max) [5; 7; 6] 8
    [SpQuery 0 2 true; SpQuery 2 2 true; SpQuery 2 1 true]) as (e & st & w1 & E & H); [lia|by vm_compute|repeat constructor; simpl; lia|].
  destruct H as [(_ & outs & _ & _ & _ & _ & _ & T & _)|[H _]]; [exists outs; exact T|].
  exfalso. vm_compute in E. destruct H as [H|[H _]]; rewrite H in E; discriminate E.
Defined.
