(* ===== verification/Graph.v ===== *)
(** The graph of [libs/structures/graph/scl_graph.c]: vertices and edges in two
    dynamic arrays, one chain of edge indices per vertex and one of recycled
    slots.  Refined to the adjacency lists, with their edges most recent
    first. *)

From stdpp Require Import sets.
From S2P Require Import Prelude Core Refine Containers Array.
#[local] Open Scope Z_scope.
#[local] Arguments scl_mul_overflow : simpl never.

Definition SCL_GRAPH_NIL : Z := SIZE_MAX.
Definition SCL_GRAPH_DEFAULT_SHARD_LEN : Z := 256.

Record scl_graph_node_t : Type := Node { nd_head : Z }.

Record scl_graph_edge_t : Type := Edge {
  ed_to : Z;
  ed_weight : Z;
  ed_next : Z
}.

Record scl_graph_t : Type := Graph {
  g_nodes : scl_array_t scl_graph_node_t;
  g_edges : scl_array_t scl_graph_edge_t;
  g_vertex_count : Z;
  g_edge_count : Z;
  g_free_head : Z
}.

(** [sizeof] of the two records. *)
Definition SIZEOF_NODE : Z := 8.
Definition SIZEOF_EDGE : Z := 24.

(** An array embedded by value: what a function given its address leaves. *)
Definition embedded {A} (a0 : scl_array_t A) (a : option (scl_array_t A)) : scl_array_t A :=
  match a with Some a => a | None => a0 end.

Section Defs.
Context (al : scl_allocator_t).
Implicit Types (w : world) (g : option scl_graph_t).

(** One record per vertex, each with an empty chain of edges. *)
Definition push_nodes w (nodes : scl_array_t scl_graph_node_t) (vertex_count : Z)
    : res (scl_array_t scl_graph_node_t * world + scl_array_t scl_graph_node_t * world) :=
  zfor_ret 0 vertex_count
    (fun _ '(nodes, w) =>
       '(err, a, w) ← scl_array_push al w (Some nodes) (Some (Node SCL_GRAPH_NIL));
       let nodes := embedded nodes a in
       if decide (err = SCL_OK) then mret (inl (nodes, w)) else mret (inr (nodes, w)))
    (nodes, w).

Definition scl_graph_init_ex w g (vertex_count shard_len : Z) : res (scl_error_t * option scl_graph_t * world) :=
  match g with
  | None => mret (SCL_ERR_NULL_PTR, None, w)
  | Some (Graph nodes edges vc ec fh) =>
      if vertex_count =? 0 then mret (SCL_ERR_INVALID_ARG, g, w)
      else
        let shard_len := if shard_len =? 0 then SCL_GRAPH_DEFAULT_SHARD_LEN else shard_len in
        let '(err, a, w) := scl_array_init al w (Some nodes) SIZEOF_NODE shard_len in
        let nodes := embedded nodes a in
        if decide (err = SCL_OK) then
          let '(err, a, w) := scl_array_init al w (Some edges) SIZEOF_EDGE shard_len in
          let edges := embedded edges a in
          if decide (err = SCL_OK) then
            r ← push_nodes w nodes vertex_count;
            match r with
            | inl (nodes, w) => mret (SCL_OK, Some (Graph nodes edges vertex_count 0 SCL_GRAPH_NIL), w)
            | inr (nodes, w) =>
                '(a, w) ← scl_array_destroy w (Some nodes);
                '(b, w) ← scl_array_destroy w (Some edges);
                mret (SCL_ERR_OUT_OF_MEMORY,
                      Some (Graph (embedded nodes a) (embedded edges b) vertex_count 0 SCL_GRAPH_NIL), w)
            end
          else
            '(a, w) ← scl_array_destroy w (Some nodes);
            mret (err, Some (Graph (embedded nodes a) edges 0 0 SCL_GRAPH_NIL), w)
        else mret (err, Some (Graph nodes edges 0 0 SCL_GRAPH_NIL), w)
  end.

Definition scl_graph_init w g (vertex_count : Z) : res (scl_error_t * option scl_graph_t * world) :=
  scl_graph_init_ex w g vertex_count SCL_GRAPH_DEFAULT_SHARD_LEN.

Definition scl_graph_destroy w g : res (option scl_graph_t * world) :=
  match g with
  | None => mret (None, w)
  | Some (Graph nodes edges _ _ _) =>
      '(a, w) ← scl_array_destroy w (Some nodes);
      '(b, w) ← scl_array_destroy w (Some edges);
      mret (Some (Graph (embedded nodes a) (embedded edges b) 0 0 SCL_GRAPH_NIL), w)
  end.

(** The data of an array with one element replaced. *)
Definition poke {A} (a : scl_array_t A) (i : Z) (x : A) : res (scl_array_t A) :=
  data ← set_elem (a_data a) i x; mret (Arr data (a_element_size a) (a_capacity a) (a_count a)).

Definition scl_graph_add_edge w g (from to weight : Z) : res (scl_error_t * option scl_graph_t * world) :=
  match g with
  | None => mret (SCL_ERR_NULL_PTR, None, w)
  | Some (Graph nodes edges vc ec fh) =>
      if (from >=? vc) || (to >=? vc) then mret (SCL_ERR_INVALID_INDEX, g, w)
      else
        src ← get_elem (a_data nodes) from;
        if negb (fh =? SCL_GRAPH_NIL) then
          let idx := fh in
          e ← get_elem (a_data edges) idx;
          let fh := ed_next e in
          edges ← poke edges idx (Edge to weight (nd_head src));
          nodes ← poke nodes from (Node idx);
          mret (SCL_OK, Some (Graph nodes edges vc (u64 (ec + 1)) fh), w)
        else
          '(err, a, w) ← scl_array_push al w (Some edges) (Some (Edge to weight (nd_head src)));
          let edges := embedded edges a in
          if decide (err = SCL_OK) then
            let idx := u64 (a_count edges - 1) in
            nodes ← poke nodes from (Node idx);
            mret (SCL_OK, Some (Graph nodes edges vc (u64 (ec + 1)) fh), w)
          else mret (err, Some (Graph nodes edges vc ec fh), w)
  end.

(** [link] points into the vertex ([None]) or into the edge before [e]. *)
Definition set_link (nodes : scl_array_t scl_graph_node_t) (edges : scl_array_t scl_graph_edge_t) (from : Z)
    (link : option Z) (x : Z) : res (scl_array_t scl_graph_node_t * scl_array_t scl_graph_edge_t) :=
  match link with
  | None => nodes ← poke nodes from (Node x); mret (nodes, edges)
  | Some p => pe ← get_elem (a_data edges) p; edges ← poke edges p (Edge (ed_to pe) (ed_weight pe) x); mret (nodes, edges)
  end.

Definition scl_graph_remove_edge g (from to : Z) : res (scl_error_t * option scl_graph_t) :=
  match g with
  | None => mret (SCL_ERR_NULL_PTR, None)
  | Some (Graph nodes edges vc ec fh) =>
      if (from >=? vc) || (to >=? vc) then mret (SCL_ERR_INVALID_INDEX, g)
      else
        src ← get_elem (a_data nodes) from;
        loop (S (S (Z.to_nat (a_count edges))))
          (fun '(link, e) =>
             if negb (e =? SCL_GRAPH_NIL) then
               ed ← get_elem (a_data edges) e;
               if ed_to ed =? to then
                 '(nodes, edges) ← set_link nodes edges from link (ed_next ed);
                 edges ← poke edges e (Edge (ed_to ed) (ed_weight ed) fh);
                 mret (inr (SCL_OK, Some (Graph nodes edges vc (u64 (ec - 1)) e)))
               else mret (inl (Some e, ed_next ed))
             else mret (inr (SCL_ERR_NOT_FOUND, g)))
          (None, nd_head src)
  end.
End Defs.

(** ** Walking the adjacency *)
Definition scl_graph_adj_head (g : scl_graph_t) (v : Z) : res Z :=
  if v >=? a_count (g_nodes g) then mret SCL_GRAPH_NIL
  else n ← get_elem (a_data (g_nodes g)) v; mret (nd_head n).

Definition scl_graph_edge (g : scl_graph_t) (e : Z) : res (option scl_graph_edge_t) :=
  if e >=? a_count (g_edges g) then mret None
  else ed ← get_elem (a_data (g_edges g)) e; mret (Some ed).

(** [for (e = scl_graph_adj_head(g, v); e != SCL_GRAPH_NIL;) { ed =
    scl_graph_edge(g, e); body; e = ed->next; }], whose body may return. *)
Definition for_edges {St R} (g : scl_graph_t) (v : Z) (body : scl_graph_edge_t -> St -> res (St + R)) (s : St)
    : res (St + R) :=
  h ← scl_graph_adj_head g v;
  loop (S (S (Z.to_nat (a_count (g_edges g)))))
    (fun '(e, s) =>
       if negb (e =? SCL_GRAPH_NIL) then
         ed ← scl_graph_edge g e;
         match ed with
         | Some ed =>
             r ← body ed s;
             match r with inl s => mret (inl (ed_next ed, s)) | inr r => mret (inr (inr r)) end
         | None => UB
         end
       else mret (inr (inl s)))
    (h, s).

Definition scl_graph_has_edge (g : option scl_graph_t) (from to : Z) : res bool :=
  match g with
  | None => mret false
  | Some g =>
      if (from >=? g_vertex_count g) || (to >=? g_vertex_count g) then mret false
      else
        r ← for_edges g from (fun ed s => if ed_to ed =? to then mret (inr true) else mret (inl s)) tt;
        mret (match r with inl _ => false | inr b => b end)
  end.

Definition scl_graph_vertex_count (g : option scl_graph_t) : Z := match g with Some g => g_vertex_count g | None => 0 end.
Definition scl_graph_edge_count (g : option scl_graph_t) : Z := match g with Some g => g_edge_count g | None => 0 end.

(** ** Adjacency lists

    The abstract graph gives, per vertex, its edges as target and weight. *)
Notation adjacency := (list (list (Z * Z))).

Definition edge_total (adj : adjacency) : Z := zlen (concat adj).

(** Every target is a vertex. *)
Definition targets_ok (adj : adjacency) : Prop := forall v l t w, zlook adj v = Some l -> (t, w) ∈ l -> 0 <= t < zlen adj.

(** The first edge to [t], if any, is left out. *)
Fixpoint drop_first (t : Z) (l : list (Z * Z)) : option (list (Z * Z)) :=
  match l with
  | [] => None
  | (t', w) :: l => if t' =? t then Some l else cons (t', w) <$> drop_first t l
  end.

(** [seg es m h ixs l]: starting at [h], the indices [ixs] are linked, hold the
    edges [l], and lead to [m].  A chain leads to the end mark. *)
Fixpoint seg (es : list scl_graph_edge_t) (m h : Z) (ixs : list Z) (l : list (Z * Z)) : Prop :=
  match ixs, l with
  | [], [] => h = m
  | i :: ixs, (t, wt) :: l => h = i /\ exists nx, zlook es i = Some (Edge t wt nx) /\ seg es m nx ixs l
  | _, _ => False
  end.
Notation chain es := (seg es SCL_GRAPH_NIL).

Lemma seg_len es m h ixs l : seg es m h ixs l -> zlen ixs = zlen l.
Proof.
  revert h l. induction ixs as [|i ixs IH]; intros h [|[t wt] l]; simpl; try done.
  intros (_ & nx & _ & H). rewrite !zlen_cons. by rewrite (IH _ _ H).
Qed.

Lemma seg_slot es m h ixs l i : seg es m h ixs l -> i ∈ ixs -> 0 <= i < zlen es.
Proof.
  revert h l. induction ixs as [|j ixs IH]; intros h [|[t wt] l]; simpl; try done; [by intros _ ?%elem_of_nil|].
  intros (_ & nx & Hj & H) [->|Hi]%elem_of_cons; [by eapply zlook_Some|by eapply IH].
Qed.

(** Chains depend on their own slots only. *)
Lemma seg_frame es es' m h ixs l :
  seg es m h ixs l -> (forall i, i ∈ ixs -> zlook es' i = zlook es i) -> seg es' m h ixs l.
Proof.
  revert h l. induction ixs as [|j ixs IH]; intros h [|[t wt] l]; simpl; try done.
  intros (-> & nx & Hj & H) E. split; [done|]. exists nx. split; [rewrite E; [done|by left]|].
  apply IH; [done|]. intros i Hi. apply E. by right.
Qed.

Lemma seg_upd es m h ixs l i x : seg es m h ixs l -> i ∉ ixs -> seg (zupd es i x) m h ixs l.
Proof. intros H Hi. eapply seg_frame; [done|]. intros j Hj. apply zlook_zupd_ne. by intros ->. Qed.

Lemma seg_push es m h ixs l x : seg es m h ixs l -> seg (es ++ [x]) m h ixs l.
Proof.
  intros H. eapply seg_frame; [done|]. intros i Hi. apply (seg_slot _ _ _ _ _ i H) in Hi.
  rewrite zlook_app. by destruct (Z.ltb_spec i (zlen es)); [|lia].
Qed.

Lemma seg_app es m h ixs ixs' l l' k : seg es k h ixs l -> seg es m k ixs' l' -> seg es m h (ixs ++ ixs') (l ++ l').
Proof.
  revert h l. induction ixs as [|j ixs IH]; intros h [|[t wt] l]; simpl; try done; [by intros ->|].
  intros (-> & nx & Hj & H) H'. split; [done|]. exists nx. split; [done|]. by eapply IH.
Qed.

(** The end of a segment is the link of its last slot. *)
Lemma seg_snoc es m h ixs p l t wt :
  seg es m h (ixs ++ [p]) (l ++ [(t, wt)]) <-> seg es p h ixs l /\ zlook es p = Some (Edge t wt m).
Proof.
  revert h l. induction ixs as [|j ixs IH]; intros h [|[t' wt'] l]; simpl.
  - split; [intros (-> & nx & H & ->); done|intros [-> H]; by eauto].
  - split; [|by intros [? _]]. intros (_ & nx & _ & H). by destruct l.
  - split; [|by intros [? _]]. intros (_ & nx & _ & H). by destruct ixs.
  - split.
    + intros (-> & nx & Hj & H%IH). destruct H as [H1 H2]. split; [|done]. split; [done|]. by exists nx.
    + intros [(-> & nx & Hj & H) H2]. split; [done|]. exists nx. split; [done|]. by apply IH.
Qed.

(** A list around the cell at an index. *)
Lemma zsplit {A} (L : list A) i x :
  zlook L i = Some x -> exists L1 L2, L = L1 ++ x :: L2 /\ zlen L1 = i /\ forall y, zupd L i y = L1 ++ y :: L2.
Proof.
  intros H. pose proof (zlook_Some _ _ _ H) as Hi. unfold zlook in H. destruct (Z.leb_spec 0 i); [|lia].
  exists (take (Z.to_nat i) L), (drop (S (Z.to_nat i)) L). split; [by rewrite take_drop_middle|].
  split; [rewrite zlen_take; unfold zlen in *; lia|]. intros y. unfold zupd. destruct (Z.leb_spec 0 i); [|lia].
  apply insert_take_drop. unfold zlen in Hi. lia.
Qed.

Lemma edge_total_upd (adj : adjacency) v l l' : zlook adj v = Some l -> edge_total (zupd adj v l') = edge_total adj - zlen l + zlen l'.
Proof.
  intros H. destruct (zsplit _ _ _ H) as (L1 & L2 & -> & _ & E). unfold edge_total. rewrite E, !concat_app. simpl.
  rewrite !zlen_app. lia.
Qed.

(** ** What readers rely on *)
Fixpoint readable (g : scl_graph_t) (h : Z) (ixs : list Z) (l : list (Z * Z)) : Prop :=
  match ixs, l with
  | [], [] => h = SCL_GRAPH_NIL
  | i :: ixs, (t, wt) :: l => h = i /\ h <> SCL_GRAPH_NIL /\
      exists nx, scl_graph_edge g i = Ok (Some (Edge t wt nx)) /\ readable g nx ixs l
  | _, _ => False
  end.

Record graph_ok (g : scl_graph_t) (adj : adjacency) : Prop := GraphOk {
  go_vertices : g_vertex_count g = zlen adj;
  go_edges : g_edge_count g = edge_total adj;
  go_range : 0 < zlen adj < 2 ^ 63;
  go_nodes : exists b, a_data (g_nodes g) = Ptr b;
  go_total : edge_total adj < 2 ^ 63;
  go_adj : forall v l, zlook adj v = Some l ->
    exists h ixs, scl_graph_adj_head g v = Ok h /\ readable g h ixs l /\ zlen ixs <= a_count (g_edges g);
  go_targets : targets_ok adj
}.

Lemma wp_for_edges {St R} g adj v l (body : scl_graph_edge_t -> St -> res (St + R)) s (I : list (Z * Z) -> St -> Prop) Q :
  graph_ok g adj -> zlook adj v = Some l -> I [] s ->
  (forall done t wt nx rest s, l = done ++ (t, wt) :: rest -> I done s ->
     wp (body (Edge t wt nx) s) (fun r => match r with inl s => I (done ++ [(t, wt)]) s | inr r => Q (inr r) end)) ->
  (forall s, I l s -> Q (inl s)) -> wp (for_edges g v body s) Q.
Proof.
  intros G Hv HI Hb HQ. destruct (go_adj _ _ G _ _ Hv) as (h & ixs & Eh & Hr & Hl). unfold for_edges. rewrite Eh. wstep. wstep.
  apply (wp_loop_rel (fun m '(e, s) => exists done rest ixs', l = done ++ rest /\ readable g e ixs' rest /\ m = zlen ixs' /\ I done s)
    (zlen ixs)); [by exists [], l, ixs|lia|lia|].
  intros m [e t] (done & rest & ixs' & El & Hr' & -> & HI').
  destruct ixs' as [|i ixs'], rest as [|[to wt] rest]; try done; cbn [readable] in Hr'.
  - rewrite Hr', Z.eqb_refl. cbn [negb]. wstep. apply HQ. by rewrite El, app_nil_r.
  - destruct Hr' as (-> & Hne & nx & Ed & Hr'). destruct (Z.eqb_spec i SCL_GRAPH_NIL); [done|]. cbn [negb]. rewrite Ed. do 2 wstep.
    wstep. eapply wp_mono; [by apply (Hb done to wt nx rest t)|]. intros [t'|r] H; wstep; [|done].
    exists (zlen ixs'). rewrite zlen_cons. pose proof (zlen_nonneg ixs'). split; [lia|].
    exists (done ++ [(to, wt)]), rest, ixs'. by rewrite <- app_assoc.
Qed.

(** ** Operations and specification

    Indices are converted to [size_t], weights to [int]. *)
Inductive graph_op : Type :=
| GAdd (from to weight : Z)
| GRemove (from to : Z)
| GHas (from to : Z)
| GVertices
| GEdges.

Definition graph_step (al : scl_allocator_t) (st : option scl_graph_t * world) (op : graph_op)
    : res (reply Z * (option scl_graph_t * world)) :=
  let '(g, w) := st in
  match op with
  | GAdd f t wt => '(e, g, w) ← scl_graph_add_edge al w g (u64 f) (u64 t) (i32 wt); mret (Code e, (g, w))
  | GRemove f t => '(e, g) ← scl_graph_remove_edge g (u64 f) (u64 t); mret (Code e, (g, w))
  | GHas f t => b ← scl_graph_has_edge g (u64 f) (u64 t); mret (Flag b, (g, w))
  | GVertices => mret (Size (scl_graph_vertex_count g), (g, w))
  | GEdges => mret (Size (scl_graph_edge_count g), (g, w))
  end.

(** The abstract state: the adjacency lists and the number of edge slots. *)
Inductive graph_spec : adjacency * Z -> graph_op -> reply Z -> adjacency * Z -> Prop :=
| gs_add adj s f t wt l :
    zlook adj (u64 f) = Some l -> u64 t < zlen adj ->
    graph_spec (adj, s) (GAdd f t wt) (Code SCL_OK) (zupd adj (u64 f) ((u64 t, i32 wt) :: l), Z.max s (edge_total adj + 1))
| gs_add_refused adj s f t wt e :
    edge_total adj = s -> e = SCL_ERR_SIZE_OVERFLOW \/ e = SCL_ERR_OUT_OF_MEMORY -> graph_spec (adj, s) (GAdd f t wt) (Code e) (adj, s)
| gs_remove adj s f t l l' :
    zlook adj (u64 f) = Some l -> u64 t < zlen adj -> drop_first (u64 t) l = Some l' ->
    graph_spec (adj, s) (GRemove f t) (Code SCL_OK) (zupd adj (u64 f) l', s)
| gs_remove_missing adj s f t l :
    zlook adj (u64 f) = Some l -> u64 t < zlen adj -> drop_first (u64 t) l = None ->
    graph_spec (adj, s) (GRemove f t) (Code SCL_ERR_NOT_FOUND) (adj, s)
| gs_index adj s op f t :
    (exists wt, op = GAdd f t wt) \/ op = GRemove f t -> zlen adj <= u64 f \/ zlen adj <= u64 t ->
    graph_spec (adj, s) op (Code SCL_ERR_INVALID_INDEX) (adj, s)
| gs_has adj s f t l :
    zlook adj (u64 f) = Some l -> graph_spec (adj, s) (GHas f t) (Flag (existsb (fun e => e.1 =? u64 t) l)) (adj, s)
| gs_has_outside adj s f t : zlen adj <= u64 f \/ zlen adj <= u64 t -> graph_spec (adj, s) (GHas f t) (Flag false) (adj, s)
| gs_vertices adj s : graph_spec (adj, s) GVertices (Size (zlen adj)) (adj, s)
| gs_edges adj s : graph_spec (adj, s) GEdges (Size (edge_total adj)) (adj, s).

(** ** The representation *)
Record graph_shape (adj : adjacency) (ns : list scl_graph_node_t) (es : list scl_graph_edge_t) (fh : Z)
    (chains : list (list Z)) (fr : list Z) (fl : list (Z * Z)) : Prop := GraphShape {
  gh_nodes : zlen ns = zlen adj;
  gh_chains : zlen chains = zlen adj;
  gh_adj : forall v l ixs, zlook adj v = Some l -> zlook chains v = Some ixs ->
    exists h, zlook ns v = Some (Node h) /\ chain es h ixs l;
  gh_free : chain es fh fr fl;
  gh_disjoint : NoDup (concat chains ++ fr);
  gh_slots : zlen es = edge_total adj + zlen fr;
  gh_targets : targets_ok adj
}.

Definition graph_rep (live0 : Z) (st : option scl_graph_t * world) (a : adjacency * Z) : Prop :=
  let '(adj, s) := a in
  exists nd c1 ed c2 fh w ns es chains fr fl,
    st = (Some (Graph (Arr nd SIZEOF_NODE c1 (zlen ns)) (Arr ed SIZEOF_EDGE c2 (zlen es)) (zlen adj) (edge_total adj) fh), w) /\
    owns nd c1 SIZEOF_NODE ns /\ owns ed c2 SIZEOF_EDGE es /\ graph_shape adj ns es fh chains fr fl /\ 0 < zlen adj /\
    zlen es = s /\ w_live w = live0 + held nd + held ed.

Lemma zlook_total {A B} (l : list A) (l' : list B) i x : zlen l = zlen l' -> zlook l i = Some x -> exists y, zlook l' i = Some y.
Proof. intros E H%zlook_Some. apply zlook_lt. lia. Qed.

(** The slots of a chain are those of the list of chains. *)
Lemma in_chains (chains : list (list Z)) v ixs i : zlook chains v = Some ixs -> i ∈ ixs -> i ∈ concat chains.
Proof. intros H Hi. destruct (zsplit _ _ _ H) as (L1 & L2 & -> & _ & _). rewrite concat_app. simpl. set_solver. Qed.

Lemma chains_apart (chains : list (list Z)) v v' ixs ixs' i :
  NoDup (concat chains) -> zlook chains v = Some ixs -> zlook chains v' = Some ixs' -> i ∈ ixs -> i ∈ ixs' -> v = v'.
Proof.
  intros N H H' Hi Hi'. destruct (zsplit _ _ _ H) as (L1 & L2 & E & El & _). destruct (decide (v = v')) as [|Hne]; [done|exfalso].
  rewrite E, concat_app in N. simpl in N. apply NoDup_app in N as (_ & N1 & N2). apply NoDup_app in N2 as (_ & N3 & _).
  rewrite E, zlook_app, zlook_cons, El in H'. destruct (Z.ltb_spec v' v).
  - apply (N1 i); [by eapply in_chains|]. set_solver.
  - destruct (Z.eqb_spec (v' - v) 0); [lia|]. apply (N3 i); [done|by eapply in_chains].
Qed.

(** Replacing one chain and the free chain, within the same set of slots. *)
Lemma nodup_rechain (chains : list (list Z)) v ixs ixs' fr fr' :
  zlook chains v = Some ixs -> ixs' ++ fr' ≡ₚ ixs ++ fr -> NoDup (concat chains ++ fr) -> NoDup (concat (zupd chains v ixs') ++ fr').
Proof.
  intros H P N. destruct (zsplit _ _ _ H) as (L1 & L2 & -> & _ & ->). rewrite concat_app in *. cbn [concat] in *.
  eapply NoDup_Permutation_proper; [|exact N]. rewrite <- !app_assoc. apply Permutation_app_head.
  rewrite !(Permutation_app_comm (concat L2)), !app_assoc. by rewrite P.
Qed.

(** Updating one vertex. *)
Lemma shape_update adj ns es es' fh chains fr fl v l h ixs l' h' ixs' fh' fr' fl' :
  graph_shape adj ns es fh chains fr fl -> zlook adj v = Some l -> zlook chains v = Some ixs ->
  (forall i, i ∉ ixs -> i ∉ fr -> i < zlen es -> zlook es' i = zlook es i) ->
  chain es' h' ixs' l' -> chain es' fh' fr' fl' -> NoDup (concat (zupd chains v ixs') ++ fr') ->
  zlen es' = edge_total adj - zlen l + zlen l' + zlen fr' -> (forall t wt, (t, wt) ∈ l' -> 0 <= t < zlen adj) ->
  zlook ns v = Some (Node h) ->
  graph_shape (zupd adj v l') (zupd ns v (Node h')) es' fh' (zupd chains v ixs') fr' fl'.
Proof.
  intros [H1 H2 H3 H4 H5 H6 H7] Hl Hi Hf Hc Hc' N Hs Ht Hh. pose proof (zlook_Some _ _ _ Hl) as Hv. split.
  - by rewrite !zlen_zupd.
  - by rewrite !zlen_zupd.
  - intros u lu iu. rewrite !zlook_zupd. destruct (decide (v = u)) as [<-|Hne].
    + rewrite !decide_True by lia. intros [= <-] [= <-]. by exists h'.
    + rewrite !decide_False by lia. intros Hlu Hiu. destruct (H3 _ _ _ Hlu Hiu) as (hu & Hnu & Hcu). exists hu. split; [done|].
      eapply seg_frame; [done|]. apply NoDup_app in H5 as (N1 & N2 & _). intros i Hiu'. apply Hf.
      * intros Hi'. apply Hne. by eapply chains_apart.
      * apply N2. by eapply in_chains.
      * by apply (seg_slot _ _ _ _ _ i Hcu).
  - done.
  - done.
  - by rewrite (edge_total_upd adj v l l' Hl).
  - intros u lu t wt. rewrite zlook_zupd, zlen_zupd. case_decide; [intros [= <-]; by apply Ht|by apply H7].
Qed.

(** The slots in use are slots of the edge array. *)
Lemma chains_slot adj ns es fh chains fr fl i : graph_shape adj ns es fh chains fr fl -> i ∈ concat chains -> i < zlen es.
Proof.
  intros S Hin. apply list_elem_of_In, in_concat in Hin as (j & Hj & Hij). apply list_elem_of_In, elem_zlook in Hj as [v Hv].
  apply list_elem_of_In in Hij. destruct (zlook_total chains adj v j (gh_chains _ _ _ _ _ _ _ S) Hv) as [lv Hl].
  destruct (gh_adj _ _ _ _ _ _ _ S _ _ _ Hl Hv) as (hv & _ & Hcv). pose proof (seg_slot _ _ _ _ _ _ Hcv Hij). lia.
Qed.

(** ** The operations *)
Lemma wp_poke {A} (d : ptr A) es c n l i x (Q : scl_array_t A -> Prop) :
  owns d c es l -> 0 <= i < zlen l ->
  (forall d', owns d' c es (zupd l i x) -> held d' = held d -> Q (Arr d' es c n)) -> wp (poke (Arr d es c n) i x) Q.
Proof.
  intros Ho Hi HQ. destruct (owned_block _ _ _ _ Ho ltac:(lia)) as [b ->]. destruct Ho as (Eb & H1 & H2 & S).
  pose proof (stored_len _ _ S). unfold poke. cbn [a_data a_element_size a_capacity a_count]. wstep. apply wp_set_elem; [lia|].
  wstep. apply HQ; [|done]. split; [by rewrite zlen_zupd|]. split; [done|]. split; [done|]. by apply stored_update.
Qed.

Lemma graph_rep_intro live0 nd c1 ed c2 fh w ns es chains fr fl adj n1 n2 n3 n4 s :
  owns nd c1 SIZEOF_NODE ns -> owns ed c2 SIZEOF_EDGE es -> graph_shape adj ns es fh chains fr fl -> 0 < zlen adj ->
  n1 = zlen ns -> n2 = zlen es -> n3 = zlen adj -> n4 = edge_total adj -> s = zlen es -> w_live w = live0 + held nd + held ed ->
  graph_rep live0 (Some (Graph (Arr nd SIZEOF_NODE c1 n1) (Arr ed SIZEOF_EDGE c2 n2) n3 n4 fh), w) (adj, s).
Proof. intros H1 H2 H3 H4 -> -> -> -> -> Hw. by exists nd, c1, ed, c2, fh, w, ns, es, chains, fr, fl. Qed.

Lemma edge_total_nonneg (adj : adjacency) : 0 <= edge_total adj.
Proof. apply zlen_nonneg. Qed.

Lemma edge_total_row (adj : adjacency) v l : zlook adj v = Some l -> zlen l <= edge_total adj.
Proof.
  intros H. destruct (zsplit _ _ _ H) as (L1 & L2 & -> & _). unfold edge_total. rewrite concat_app. simpl.
  rewrite !zlen_app. pose proof (zlen_nonneg (concat L1)). pose proof (zlen_nonneg (concat L2)). lia.
Qed.

Lemma owned_count {A} (p : ptr A) cap es l : 1 <= es -> owns p cap es l -> 0 <= zlen l < 2 ^ 63.
Proof. intros Hes Ho. destruct (owns_len _ _ _ _ Ho) as (H1 & H2 & H3). specialize (H3 Hes). unfold PTRDIFF_MAX in H3. lia. Qed.

Section Operations.
Context (al : scl_allocator_t) `{!AllocatorOk al}.

Lemma wp_add_edge live0 nd c1 ed c2 fh w ns es chains fr fl adj f t wt l
    (Q : scl_error_t * option scl_graph_t * world -> Prop) :
  owns nd c1 SIZEOF_NODE ns -> owns ed c2 SIZEOF_EDGE es -> graph_shape adj ns es fh chains fr fl -> 0 < zlen adj ->
  w_live w = live0 + held nd + held ed -> zlook adj f = Some l -> 0 <= t < zlen adj ->
  (forall g w', graph_rep live0 (g, w') (zupd adj f ((t, wt) :: l), Z.max (zlen es) (edge_total adj + 1)) -> Q (SCL_OK, g, w')) ->
  (forall e g w', edge_total adj = zlen es -> e = SCL_ERR_SIZE_OVERFLOW \/ e = SCL_ERR_OUT_OF_MEMORY ->
     graph_rep live0 (g, w') (adj, zlen es) -> Q (e, g, w')) ->
  wp (scl_graph_add_edge al w (Some (Graph (Arr nd SIZEOF_NODE c1 (zlen ns)) (Arr ed SIZEOF_EDGE c2 (zlen es)) (zlen adj) (edge_total adj) fh)) f t wt) Q.
Proof.
  intros Hn He S Hpos Hw Hl Ht HQ1 HQ2. pose proof (zlook_Some _ _ _ Hl) as Hf. pose proof (edge_total_nonneg adj) as Htot.
  pose proof (owned_count ed c2 SIZEOF_EDGE es ltac:(by vm_compute) He) as Hes. pose proof (zlen_nonneg fr).
  destruct (zlook_total adj chains f l (eq_sym (gh_chains _ _ _ _ _ _ _ S)) Hl) as [ixs Hix].
  destruct (gh_adj _ _ _ _ _ _ _ S _ _ _ Hl Hix) as (h & Hh & Hc). pose proof (gh_slots _ _ _ _ _ _ _ S) as Hsl.
  unfold scl_graph_add_edge. destruct (Z.geb_spec f (zlen adj)); [lia|]. destruct (Z.geb_spec t (zlen adj)); [lia|]. cbn [orb a_data].
  wstep. eapply owned_get; [done|done|]. pose proof (gh_disjoint _ _ _ _ _ _ _ S) as N.
  assert (forall t' w', (t', w') ∈ (t, wt) :: l -> 0 <= t' < zlen adj) as Htl.
  { intros t' w' [[= -> _]|H']%elem_of_cons; [done|]. by eapply (gh_targets _ _ _ _ _ _ _ S). }
  pose proof (gh_free _ _ _ _ _ _ _ S) as Hfr. destruct fr as [|i fr], fl as [|[ft fw] fl]; try done; cbn [seg] in Hfr.
  - assert (zlook ns f = Some (Node h)) as Hh' by done. subst fh. rewrite Z.eqb_refl. cbn [negb nd_head]. wstep. change (zlen (@nil Z)) with 0 in *. eapply wp_array_push; [done|by vm_compute|exact He| | |].
    + instantiate (1 := w_live w - held ed). lia.
    + intros a w' (ed' & w1 & [= -> ->] & Ho' & Hw'). cbn [fst snd] in Ho', Hw'. rewrite decide_True by done.
      cbn [embedded a_count]. rewrite zlen_app. change (zlen [_]) with 1. rewrite (u64_small (zlen es + 1 - 1)) by lia.
      replace (zlen es + 1 - 1) with (zlen es) by lia. wstep.
      eapply wp_poke; [done|rewrite (gh_nodes _ _ _ _ _ _ _ S); lia|]. intros nd' Hn' Hhd. wstep. apply HQ1.
      rewrite u64_small by lia.
      eapply graph_rep_intro; [exact Hn'|exact Ho'| | | | | | | |].
      * eapply (shape_update _ _ _ _ _ _ _ _ _ _ _ _ _ (zlen es) (zlen es :: ixs) SCL_GRAPH_NIL [] []); try done.
        -- intros j _ _ Hj. rewrite zlook_app. by destruct (Z.ltb_spec j (zlen es)); [|lia].
        -- cbn [seg]. split; [done|]. exists h. split; [rewrite zlook_app, Z.sub_diag; by destruct (Z.ltb_spec (zlen es) (zlen es)); [lia|]|].
           by apply seg_push.
        -- rewrite app_nil_r in N |- *. destruct (zsplit _ _ _ Hix) as (L1 & L2 & E & _ & Eu). rewrite Eu, E in *.
           rewrite concat_app in *. cbn [concat app] in *. rewrite <- Permutation_middle. constructor; [|done].
           intros Hin. enough (zlen es < zlen es) by lia. eapply chains_slot; [exact S|].
           rewrite concat_app. exact Hin.
        -- rewrite zlen_app, !zlen_cons. change (zlen (@nil Z)) with 0. change (zlen (@nil scl_graph_edge_t)) with 0. lia.
      * by rewrite zlen_zupd.
      * by rewrite zlen_zupd.
      * rewrite zlen_app. done.
      * by rewrite zlen_zupd.
      * rewrite (edge_total_upd _ _ _ _ Hl), zlen_cons. lia.
      * rewrite zlen_app. change (zlen [_]) with 1. lia.
      * lia.
    + intros e a w' _ He' R. destruct R as (ed' & w1 & [= -> ->] & Ho' & Hw'). cbn [fst snd] in Ho', Hw'.
      rewrite decide_False by (destruct He'; congruence). wstep. cbn [embedded]. apply HQ2; [lia|done|].
      eapply graph_rep_intro; [done|done|exact S|done..|lia].
  - destruct Hfr as (-> & nx & Hi & Hfr). pose proof (zlook_Some _ _ _ Hi) as Hir. assert (i <> SCL_GRAPH_NIL) as Hnil by (unfold SCL_GRAPH_NIL, SIZE_MAX; lia).
    destruct (Z.eqb_spec i SCL_GRAPH_NIL); [done|]. cbn [negb]. wstep. eapply owned_get; [done|done|]. cbn [ed_next nd_head]. wstep.
    eapply wp_poke; [done|lia|]. intros ed' He' Hed. wstep. eapply wp_poke; [done|rewrite (gh_nodes _ _ _ _ _ _ _ S); lia|].
    intros nd' Hn' Hnd. wstep. apply HQ1. rewrite zlen_cons in *. pose proof (zlen_nonneg fr). rewrite u64_small by lia.
    apply NoDup_app in N as (N1 & N2 & N3). apply NoDup_cons in N3 as [N3 N4].
    assert (i ∉ ixs) as Hni by (intros Hin; eapply (N2 i); [by eapply in_chains|by left]).
    eapply graph_rep_intro; [exact Hn'|exact He'| | | | | | | |].
    + eapply (shape_update _ _ _ _ _ _ _ _ _ _ _ _ _ i (i :: ixs) nx fr fl); try done.
      * intros j _ Hj _. apply zlook_zupd_ne. intros ->. apply Hj. by left.
      * cbn [seg]. split; [done|]. exists h. split; [by apply zlook_zupd_eq|]. by apply seg_upd.
      * by apply seg_upd.
      * eapply (nodup_rechain _ _ _ _ (i :: fr)); [done| |].
        { by rewrite <- Permutation_middle. }
        apply NoDup_app. split; [done|]. split; [done|]. by constructor.
      * rewrite zlen_zupd, zlen_cons. lia.
    + by rewrite zlen_zupd.
    + by rewrite zlen_zupd.
    + by rewrite zlen_zupd.
    + by rewrite zlen_zupd.
    + rewrite (edge_total_upd _ _ _ _ Hl), zlen_cons. lia.
    + rewrite zlen_zupd. lia.
    + lia.
Qed.

End Operations.

(** Redirecting the link that leads to [i] to what [i] leads to. *)
Lemma wp_set_link nd c1 ed c2 ns es f h d i r l1 t wt l2 nx (Q : scl_array_t scl_graph_node_t * scl_array_t scl_graph_edge_t -> Prop) :
  owns nd c1 SIZEOF_NODE ns -> owns ed c2 SIZEOF_EDGE es -> zlook ns f = Some (Node h) -> NoDup (d ++ i :: r) ->
  seg es i h d l1 -> zlook es i = Some (Edge t wt nx) -> chain es nx r l2 ->
  (forall nd' ed' es' h', owns nd' c1 SIZEOF_NODE (zupd ns f (Node h')) -> owns ed' c2 SIZEOF_EDGE es' -> zlen es' = zlen es ->
     held nd' = held nd -> held ed' = held ed -> (forall j, j ∉ d -> zlook es' j = zlook es j) -> chain es' h' (d ++ r) (l1 ++ l2) ->
     Q (Arr nd' SIZEOF_NODE c1 (zlen ns), Arr ed' SIZEOF_EDGE c2 (zlen es))) ->
  wp (set_link (Arr nd SIZEOF_NODE c1 (zlen ns)) (Arr ed SIZEOF_EDGE c2 (zlen es)) f (last d) nx) Q.
Proof.
  intros Hn He Hh N Hd Hi Hr HQ. pose proof (zlook_Some _ _ _ Hh) as Hf. unfold set_link.
  destruct (list_last_case d) as [->|(d' & p & ->)].
  - simpl. destruct l1; [|done]. wstep. eapply wp_poke; [done|lia|]. intros nd' Hn' Hhd. wstep. by apply (HQ nd' ed es nx).
  - rewrite last_snoc. cbn [a_data]. destruct (list_last_case l1) as [->|(l1' & [t' w'] & ->)].
    { apply seg_len in Hd. pose proof (zlen_nonneg d'). exfalso. zl. }
    apply seg_snoc in Hd as [Hd Hp]. pose proof (zlook_Some _ _ _ Hp). wstep. eapply owned_get; [done|done|]. cbn [ed_to ed_weight]. wstep.
    eapply wp_poke; [done|lia|]. intros ed' He' Hhd. wstep. rewrite <- app_assoc in N. apply NoDup_app in N as (N1 & N2 & N3).
    apply NoDup_app in N3 as (_ & N3 & N4). apply NoDup_cons in N4 as [N4 _].
    apply (HQ nd ed' (zupd es p (Edge t' w' nx)) h); try done; [by rewrite zupd_id|by rewrite zlen_zupd| |].
    + intros j Hj. apply zlook_zupd_ne. intros ->. apply Hj. set_solver.
    + rewrite <- !app_assoc. eapply seg_app; [apply seg_upd; [exact Hd|]|]. { intros Hin. apply (N2 p); [done|by left]. }
      cbn [app seg]. split; [done|]. exists nx. split; [by apply zlook_zupd_eq|]. apply seg_upd; [done|]. intros Hin. apply (N3 p); [by left|by right].
Qed.

Lemma wp_remove_edge live0 nd c1 ed c2 fh w ns es chains fr fl adj f t l (Q : scl_error_t * option scl_graph_t -> Prop) :
  owns nd c1 SIZEOF_NODE ns -> owns ed c2 SIZEOF_EDGE es -> graph_shape adj ns es fh chains fr fl -> 0 < zlen adj ->
  w_live w = live0 + held nd + held ed -> zlook adj f = Some l -> 0 <= t < zlen adj ->
  (forall l' g, drop_first t l = Some l' -> graph_rep live0 (g, w) (zupd adj f l', zlen es) -> Q (SCL_OK, g)) ->
  (forall g, drop_first t l = None -> graph_rep live0 (g, w) (adj, zlen es) -> Q (SCL_ERR_NOT_FOUND, g)) ->
  wp (scl_graph_remove_edge (Some (Graph (Arr nd SIZEOF_NODE c1 (zlen ns)) (Arr ed SIZEOF_EDGE c2 (zlen es)) (zlen adj) (edge_total adj) fh)) f t) Q.
Proof.
  intros Hn He S Hpos Hw Hl Ht HQ1 HQ2. pose proof (zlook_Some _ _ _ Hl) as Hf. pose proof (edge_total_row _ _ _ Hl) as Htot.
  pose proof (owned_count ed c2 SIZEOF_EDGE es ltac:(by vm_compute) He) as Hes. pose proof (zlen_nonneg fr). pose proof (zlen_nonneg l).
  destruct (zlook_total adj chains f l (eq_sym (gh_chains _ _ _ _ _ _ _ S)) Hl) as [ixs Hix].
  destruct (gh_adj _ _ _ _ _ _ _ S _ _ _ Hl Hix) as (h & Hh & Hc). pose proof (gh_slots _ _ _ _ _ _ _ S) as Hsl.
  pose proof (seg_len _ _ _ _ _ Hc) as Hlen. unfold scl_graph_remove_edge.
  destruct (Z.geb_spec f (zlen adj)); [lia|]. destruct (Z.geb_spec t (zlen adj)); [lia|]. cbn [orb a_data a_count].
  wstep. eapply owned_get; [done|done|]. pose proof (gh_disjoint _ _ _ _ _ _ _ S) as N.
  apply (wp_loop_rel (fun m '(link, e) => exists d r l1 l2, ixs = d ++ r /\ l = l1 ++ l2 /\ link = last d /\ seg es e h d l1 /\
    chain es e r l2 /\ m = zlen r /\ forall l', drop_first t (l1 ++ l') = (l1 ++.) <$> drop_first t l') (zlen ixs)); [|lia|lia|].
  { exists [], ixs, [], l. repeat (split; [done|]). intros l'. simpl. by destruct (drop_first t l'). }
  intros m [link e] (d & r & l1 & l2 & Ei & El & -> & Hd & Hr & -> & Hdf).
  destruct r as [|i r], l2 as [|[t' wt] l2]; try done; cbn [seg] in Hr.
  { rewrite Hr, Z.eqb_refl. cbn [negb]. wstep. apply HQ2; [rewrite El, Hdf; done|]. by eapply graph_rep_intro. }
  destruct Hr as (-> & nx & Hi & Hr). pose proof (zlook_Some _ _ _ Hi) as Hir.
  assert (i <> SCL_GRAPH_NIL) as Hnil by (unfold SCL_GRAPH_NIL, SIZE_MAX; lia).
  destruct (Z.eqb_spec i SCL_GRAPH_NIL); [done|]. cbn [negb]. wstep. eapply owned_get; [done|done|]. cbn [ed_to ed_next ed_weight].
  destruct (Z.eqb_spec t' t) as [->|Hne].
  2:{ wstep. exists (zlen r). rewrite zlen_cons. pose proof (zlen_nonneg r). split; [lia|]. exists (d ++ [i]), r, (l1 ++ [(t', wt)]), l2.
      rewrite <- !app_assoc, last_snoc. repeat (split; [done|]). split; [by apply seg_snoc|]. split; [done|]. split; [done|].
      intros l'. rewrite <- app_assoc, Hdf. simpl. destruct (Z.eqb_spec t' t); [done|]. by destruct (drop_first t l'); simpl; rewrite <- ?app_assoc. }
  assert (NoDup ixs) as Ni by (destruct (zsplit _ _ _ Hix) as (L1 & L2 & -> & _); rewrite concat_app in N; cbn [concat] in N;
    apply NoDup_app in N as [N _]; apply NoDup_app in N as (_ & _ & N); by apply NoDup_app in N as [N _]).
  assert (forall j, j ∈ ixs -> j ∉ fr) as Nf by (intros j Hj; apply NoDup_app in N as (_ & N & _); apply N; by eapply in_chains).
  rewrite Ei in Ni, Nf. wstep. eapply wp_set_link; [exact Hn|exact He|exact Hh|exact Ni|exact Hd|exact Hi|exact Hr|].
  intros nd' ed' es' h' Hn' He' Ees Hhn Hhe Hfr Hc'. cbn [fst snd]. wstep. assert (zlen es = zlen es') as Ees' by done. rewrite Ees'.
  eapply wp_poke; [done|lia|]. intros ed2 He2 Hh2. wstep. eapply HQ1; [by rewrite El, Hdf; simpl; rewrite Z.eqb_refl|].
  apply NoDup_app in Ni as (Ni1 & Ni2 & Ni3). apply NoDup_cons in Ni3 as [Ni3 Ni4].
  rewrite u64_small by (rewrite El in Htot; rewrite zlen_app, zlen_cons in Htot; pose proof (zlen_nonneg l1); pose proof (zlen_nonneg l2); lia).
  eapply (graph_rep_intro live0 nd' c1 ed2 c2 i w); [exact Hn'|exact He2| | | | | | | |].
  + eapply (shape_update _ _ _ _ _ _ _ _ _ _ _ _ _ h' (d ++ r) i (i :: fr) ((t, wt) :: fl)); try done.
    * rewrite Ei. intros j Hj _ _. rewrite zlook_zupd_ne by set_solver. apply Hfr. set_solver.
    * apply seg_upd; [done|]. intros [Hin|Hin]%elem_of_app; [apply (Ni2 i Hin); by left|done].
    * cbn [seg]. split; [done|]. exists fh. split; [apply zlook_zupd_eq; lia|]. apply seg_upd; [|apply Nf; set_solver].
      eapply seg_frame; [by eapply gh_free|]. intros j Hj. apply Hfr. intros Hjd. apply (Nf j); [set_solver|done].
    * eapply (nodup_rechain _ _ _ _ fr); [done| |done]. rewrite Ei, <- !app_assoc. simpl. by rewrite <- (Permutation_middle r fr i).
    * rewrite zlen_zupd, El, !zlen_app, !zlen_cons. lia.
    * intros t2 w2 Hin. apply (gh_targets _ _ _ _ _ _ _ S f l t2 w2 Hl). rewrite El, elem_of_app, elem_of_cons. apply elem_of_app in Hin. tauto.
  + by rewrite zlen_zupd.
  + by rewrite zlen_zupd.
  + by rewrite zlen_zupd.
  + by rewrite zlen_zupd.
  + rewrite (edge_total_upd _ _ _ _ Hl), El, !zlen_app, !zlen_cons. lia.
  + by rewrite zlen_zupd.
  + lia.
Qed.

(** A represented graph can be read. *)
Lemma seg_readable nd c1 ed c2 vc ec fh n es h ixs l :
  owns ed c2 SIZEOF_EDGE es -> chain es h ixs l ->
  readable (Graph (Arr nd SIZEOF_NODE c1 n) (Arr ed SIZEOF_EDGE c2 (zlen es)) vc ec fh) h ixs l.
Proof.
  intros He. pose proof (owned_count ed c2 SIZEOF_EDGE es ltac:(by vm_compute) He) as Hes.
  revert h l. induction ixs as [|i ixs IH]; intros h [|[t wt] l]; try done.
  cbn [seg readable]. intros (-> & nx & Hi & H). pose proof (zlook_Some _ _ _ Hi). split; [done|].
  split; [unfold SCL_GRAPH_NIL, SIZE_MAX; lia|]. exists nx. split; [|by apply IH].
  assert (wp (scl_graph_edge (Graph (Arr nd SIZEOF_NODE c1 n) (Arr ed SIZEOF_EDGE c2 (zlen es)) vc ec fh) i) (eq (Some (Edge t wt nx)))) as (x & -> & <-)%wp_ok; [|done].
  unfold scl_graph_edge. cbn [g_edges a_count a_data]. destruct (Z.geb_spec i (zlen es)); [lia|]. wstep. by eapply owned_get.
Qed.

Lemma nodup_length (ixs : list Z) n : NoDup ixs -> (forall i, i ∈ ixs -> 0 <= i < n) -> zlen ixs <= Z.max 0 n.
Proof.
  intros N H. assert (ixs ⊆ seqZ 0 n) as Hs by (intros i Hi; apply elem_of_seqZ; apply H in Hi; lia).
  apply (NoDup_submseteq _ _ N), submseteq_length in Hs. rewrite length_seqZ in Hs. unfold zlen. lia.
Qed.

Lemma graph_rep_ok live0 g w adj s : graph_rep live0 (Some g, w) (adj, s) -> graph_ok g adj.
Proof.
  intros (nd & c1 & ed & c2 & fh & w0 & ns & es & chains & fr & fl & [= -> ->] & Hn & He & S & Hpos & _ & _).
  pose proof (owned_count ed c2 SIZEOF_EDGE es ltac:(by vm_compute) He) as Hes.
  pose proof (owned_count nd c1 SIZEOF_NODE ns ltac:(by vm_compute) Hn) as Hns.
  pose proof (gh_slots _ _ _ _ _ _ _ S). pose proof (gh_nodes _ _ _ _ _ _ _ S) as Ens. pose proof (zlen_nonneg fr).
  split; cbn [g_vertex_count g_edge_count g_nodes g_edges a_data a_count]; [done|done|lia| |lia| |by eapply gh_targets].
  - destruct nd as [|b|]; [|by exists b|done]. destruct Hn as [_ ->]. change (zlen []) with 0 in *. lia.
  - intros v l Hl. pose proof (zlook_Some _ _ _ Hl). destruct (zlook_total adj chains v l (eq_sym (gh_chains _ _ _ _ _ _ _ S)) Hl) as [ixs Hix].
    destruct (gh_adj _ _ _ _ _ _ _ S _ _ _ Hl Hix) as (h & Hh & Hc). exists h, ixs. split; [|split; [by apply seg_readable|]].
    + assert (wp (scl_graph_adj_head (Graph (Arr nd SIZEOF_NODE c1 (zlen ns)) (Arr ed SIZEOF_EDGE c2 (zlen es)) (zlen adj) (edge_total adj) fh) v) (eq h)) as (x & -> & <-)%wp_ok; [|done].
      unfold scl_graph_adj_head. cbn [g_nodes a_count a_data]. destruct (Z.geb_spec v (zlen ns)); [lia|]. wstep. by eapply owned_get.
    + apply Z.le_trans with (Z.max 0 (zlen es)); [|lia]. apply nodup_length; [|by intros i; eapply seg_slot].
      destruct (zsplit _ _ _ Hix) as (L1 & L2 & E & _). pose proof (gh_disjoint _ _ _ _ _ _ _ S) as N.
      rewrite E, concat_app in N. cbn [concat] in N. apply NoDup_app in N as [N _]. apply NoDup_app in N as (_ & _ & N). by apply NoDup_app in N as [N _].
Qed.

Lemma wp_has_edge g adj f t l (Q : bool -> Prop) :
  graph_ok g adj -> zlook adj f = Some l -> 0 <= t -> Q ((t <? zlen adj) && existsb (fun e => e.1 =? t) l) -> wp (scl_graph_has_edge (Some g) f t) Q.
Proof.
  intros G Hl Ht HQ. pose proof (zlook_Some _ _ _ Hl) as Hf. unfold scl_graph_has_edge. rewrite (go_vertices _ _ G).
  destruct (Z.geb_spec f (zlen adj)); [lia|]. destruct (Z.ltb_spec t (zlen adj)), (Z.geb_spec t (zlen adj)); try lia; cbn [orb andb] in *; [|done].
  wstep. eapply (wp_for_edges g adj f l _ _ (fun done _ => existsb (fun e => e.1 =? t) done = false)); [done|done|done| |].
  - intros d t' wt nx rest [] -> Hd. cbn [ed_to]. destruct (Z.eqb_spec t' t) as [->|Hne]; wstep.
    + wstep. rewrite existsb_app in HQ. simpl in HQ. rewrite Z.eqb_refl, orb_true_r in HQ. done.
    + rewrite existsb_app, Hd. simpl. by destruct (Z.eqb_spec t' t).
  - intros [] Hd. wstep. by rewrite Hd in HQ.
Qed.

#[export] Instance graph_simulates al live0 : AllocatorOk al -> Simulates (graph_step al) graph_spec (graph_rep live0).
Proof.
  intros Hal [g w] [adj s] op R. pose proof R as (nd & c1 & ed & c2 & fh & w0 & ns & es & chains & fr & fl & [= -> ->] & Hn & He & S & Hpos & Es & Hw).
  pose proof (graph_rep_ok _ _ _ _ _ R) as G. subst s.
  assert (forall f, zlen adj <= u64 f \/ exists l, zlook adj (u64 f) = Some l) as Hrow.
  { intros f. pose proof (u64_range f). destruct (Z.le_gt_cases (zlen adj) (u64 f)); [by left|right]. apply zlook_lt. lia. }
  destruct op as [f t wt|f t|f t| |]; unfold graph_step.
  - destruct (Hrow f) as [Hf|[l Hl]]; [|pose proof (u64_range t); destruct (Z.le_gt_cases (zlen adj) (u64 t)) as [Ht|Ht]].
    + wstep. unfold scl_graph_add_edge. destruct (Z.geb_spec (u64 f) (zlen adj)); [|lia]. cbn [orb]. wstep. wstep.
      eexists. split; [eapply gs_index; eauto|exact R].
    + wstep. unfold scl_graph_add_edge. destruct (Z.geb_spec (u64 t) (zlen adj)); [|lia]. rewrite orb_true_r. wstep. wstep.
      eexists. split; [eapply gs_index; eauto|exact R].
    + wstep. eapply (wp_add_edge al live0); [done..|lia| |].
      * intros g w R'. wstep. eexists. split; [by apply gs_add|done].
      * intros e g w E He' R'. wstep. eexists. split; [by apply gs_add_refused|done].
  - destruct (Hrow f) as [Hf|[l Hl]]; [|pose proof (u64_range t); destruct (Z.le_gt_cases (zlen adj) (u64 t)) as [Ht|Ht]].
    + wstep. unfold scl_graph_remove_edge. destruct (Z.geb_spec (u64 f) (zlen adj)); [|lia]. cbn [orb]. wstep. wstep.
      eexists. split; [eapply gs_index; eauto|exact R].
    + wstep. unfold scl_graph_remove_edge. destruct (Z.geb_spec (u64 t) (zlen adj)); [|lia]. rewrite orb_true_r. wstep. wstep.
      eexists. split; [eapply gs_index; eauto|exact R].
    + wstep. eapply (wp_remove_edge live0 nd c1 ed c2 fh w0); [done..|lia| |].
      * intros l' g Ed R'. wstep. eexists. split; [by eapply gs_remove|done].
      * intros g Ed R'. wstep. eexists. split; [by eapply gs_remove_missing|done].
  - destruct (Hrow f) as [Hf|[l Hl]].
    + wstep. unfold scl_graph_has_edge. cbn [g_vertex_count]. destruct (Z.geb_spec (u64 f) (zlen adj)); [|lia]. cbn [orb]. wstep. wstep.
      eexists. split; [apply gs_has_outside; auto|exact R].
    + wstep. pose proof (u64_range t). eapply wp_has_edge; [done|done|lia|]. wstep. eexists. split; [|exact R].
      destruct (Z.ltb_spec (u64 t) (zlen adj)); [by apply gs_has|apply gs_has_outside; auto].
  - wstep. eexists. split; [apply gs_vertices|exact R].
  - wstep. eexists. split; [apply gs_edges|exact R].
Qed.

(** ** Initialisation and destruction *)
Section Lifetime.
Context (al : scl_allocator_t) `{!AllocatorOk al}.

Lemma wp_push_nodes live0 w nodes c n (Q : scl_array_t scl_graph_node_t * world + scl_array_t scl_graph_node_t * world -> Prop) :
  array_rep SIZEOF_NODE live0 (Some nodes, w) ([], c) -> 0 <= n ->
  (forall nodes' w' c', array_rep SIZEOF_NODE live0 (Some nodes', w') (replicate (Z.to_nat n) (Node SCL_GRAPH_NIL), c') -> Q (inl (nodes', w'))) ->
  (forall nodes' w' l c', array_rep SIZEOF_NODE live0 (Some nodes', w') (l, c') -> Q (inr (nodes', w'))) ->
  wp (push_nodes al w nodes n) Q.
Proof.
  intros R Hn HQ1 HQ2. unfold push_nodes.
  apply (wp_zfor_ret (fun i '(a, w) => exists c', array_rep SIZEOF_NODE live0 (Some a, w) (replicate (Z.to_nat i) (Node SCL_GRAPH_NIL), c'))).
  - by exists c.
  - intros i [a w'] Hi (c' & d & w1 & [= -> ->] & Ho & Hw). cbn [fst snd] in *. wstep.
    eapply wp_array_push; [done|by vm_compute|done|done| |].
    + intros a' w' R'. pose proof R' as (d' & w2 & [= -> _] & _). rewrite decide_True by done. wstep. exists (roomy (replicate (Z.to_nat i) (Node SCL_GRAPH_NIL)) c').
      replace (Z.to_nat (i + 1)) with (Z.to_nat i + 1)%nat by lia. by rewrite replicate_add.
    + intros e a' w' _ He R'. rewrite decide_False by (destruct He; congruence). wstep. by eapply HQ2.
  - intros [a w'] [c' R']. rewrite Z.max_r in R' by lia. by eapply HQ1.
Qed.

Lemma wp_array_destroy {A} es live0 (a : scl_array_t A) w l c (Q : option (scl_array_t A) * world -> Prop) :
  array_rep es live0 (Some a, w) (l, c) -> (forall w', w_live w' = live0 -> Q (Some (Arr Null es 0 0), w')) -> wp (scl_array_destroy w (Some a)) Q.
Proof.
  intros (d & w1 & [= -> ->] & Ho & Hw) HQ. cbn [fst snd] in *. unfold scl_array_destroy. cbn [a_data a_element_size]. wstep.
  eapply wp_free_owned; [done|]. intros w' Hw'. wstep. apply HQ. lia.
Qed.

Lemma empty_shape n : 0 < n -> graph_shape (replicate (Z.to_nat n) []) (replicate (Z.to_nat n) (Node SCL_GRAPH_NIL)) [] SCL_GRAPH_NIL (replicate (Z.to_nat n) []) [] [].
Proof.
  intros Hn. assert (forall A, concat (replicate (Z.to_nat n) (@nil A)) = []) as E.
  { intros A. generalize (Z.to_nat n). clear. intros m. by induction m. }
  split.
  - by rewrite !zlen_replicate.
  - by rewrite !zlen_replicate.
  - intros v l ixs. rewrite !zlook_replicate. destruct ((0 <=? v) && (v <? Z.of_nat (Z.to_nat n))); [|done]. intros [= <-] [= <-]. by exists SCL_GRAPH_NIL.
  - done.
  - rewrite E. constructor.
  - unfold edge_total. by rewrite E.
  - intros v l t wt. rewrite !zlook_replicate. destruct ((0 <=? v) && (v <? Z.of_nat (Z.to_nat n))); [|done]. intros [= <-] H. by apply elem_of_nil in H.
Qed.

Lemma graph_init_spec w g0 n shard :
  0 < n < 2 ^ 64 -> 0 <= shard < 2 ^ 64 ->
  wp (scl_graph_init_ex al w (Some g0) n shard) (fun '(e, g, w1) =>
    e = SCL_OK /\ graph_rep (w_live w) (g, w1) (replicate (Z.to_nat n) [], 0) \/
    (e = SCL_ERR_SIZE_OVERFLOW \/ e = SCL_ERR_OUT_OF_MEMORY) /\ w_live w1 = w_live w).
Proof.
  intros Hn Hs. unfold scl_graph_init_ex. destruct g0 as [nodes edges vc ec fh]. destruct (Z.eqb_spec n 0); [lia|].
  set (sh := if shard =? 0 then SCL_GRAPH_DEFAULT_SHARD_LEN else shard).
  assert (0 <= sh < 2 ^ 64) as Hsh by (unfold sh, SCL_GRAPH_DEFAULT_SHARD_LEN; bcase; lia). clearbody sh. cbv zeta.
  pose proof (array_init_spec al w nodes SIZEOF_NODE sh ltac:(by vm_compute) Hsh) as H.
  destruct (scl_array_init al w (Some nodes) SIZEOF_NODE sh) as [[e a] w1].
  destruct H as [[-> R]|(He & Hw & ->)].
  2:{ rewrite decide_False by (destruct He as [[-> _]|[-> _]]; done). wstep. right. split; [|done]. destruct He as [[-> _]|[-> _]]; auto. }
  rewrite decide_True by done. pose proof R as (nd & w1' & [= -> <-] & Hno & Hnw). cbn [fst snd embedded] in *.
  pose proof (array_init_spec al w1 edges SIZEOF_EDGE sh ltac:(by vm_compute) Hsh) as H.
  destruct (scl_array_init al w1 (Some edges) SIZEOF_EDGE sh) as [[e b] w2].
  destruct H as [[-> R2]|(He & Hw & ->)].
  2:{ rewrite decide_False by (destruct He as [[-> _]|[-> _]]; done). wstep. eapply wp_array_destroy.
      { apply array_rep_intro; [exact Hno|done|]. instantiate (1 := w_live w). lia. }
      intros w3 Hw3. wstep. right. split; [|lia]. destruct He as [[-> _]|[-> _]]; auto. }
  rewrite decide_True by done. pose proof R2 as (ed & w2' & [= -> <-] & Heo & Hew). cbn [fst snd embedded] in *. wstep.
  apply (wp_push_nodes (w_live w2 - held nd) w2 _ sh n); [by apply array_rep_intro; [| |lia]|lia| |].
  - intros nodes' w3 c' (nd' & w3' & [= -> ->] & Hno' & Hnw'). cbn [fst snd] in *. wstep. left. split; [done|].
    eapply graph_rep_intro; [exact Hno'|exact Heo|by apply empty_shape; lia|rewrite zlen_replicate; lia|done|done|by rewrite zlen_replicate; lia| |done|lia].
    unfold edge_total. clear. by induction (Z.to_nat n).
  - intros nodes' w3 l c' R3. wstep. eapply wp_array_destroy; [exact R3|]. intros w4 Hw4. wstep. eapply wp_array_destroy.
    { apply array_rep_intro; [exact Heo|done|]. instantiate (1 := w_live w4 - held ed). lia. }
    intros w5 Hw5. wstep. right. split; [auto|lia].
Qed.

Lemma graph_destroy_spec live0 g w a :
  graph_rep live0 (g, w) a -> wp (scl_graph_destroy w g) (fun '(g', w') => w_live w' = live0 /\
    g' = Some (Graph (Arr Null SIZEOF_NODE 0 0) (Arr Null SIZEOF_EDGE 0 0) 0 0 SCL_GRAPH_NIL)).
Proof.
  destruct a as [adj s]. intros (nd & c1 & ed & c2 & fh & w0 & ns & es & chains & fr & fl & [= -> ->] & Hn & He & _ & _ & _ & Hw).
  unfold scl_graph_destroy. wstep. eapply wp_array_destroy.
  { apply array_rep_intro; [exact Hn|done|]. instantiate (1 := w_live w0 - held nd). lia. }
  intros w1 Hw1. wstep. eapply wp_array_destroy.
  { apply array_rep_intro; [exact He|done|]. instantiate (1 := w_live w1 - held ed). lia. }
  intros w2 Hw2. wstep. split; [lia|done].
Qed.
End Lifetime.

(** C10. The graph refines its adjacency lists: after a successful initialisation,
    over any allocator, vertex count and initial capacity, every sequence of
    operations runs without stray accesses and answers as the adjacency lists
    do, where new edges come first, a removal takes the first edge to the
    target, indices are checked, slots of removed edges are used again before
    the edge array grows, and a refused growth changes nothing.  Destroying the
    graph returns its memory, a failed initialisation keeps none, and a [NULL]
    graph is refused. *)
Theorem graph_refines (al : scl_allocator_t) `{!AllocatorOk al} (w : world) (g0 : scl_graph_t) (n shard : Z) (ops : list graph_op)
  (Hn : 0 < n < 2 ^ 64) (Hs : 0 <= shard < 2 ^ 64) :
  (exists e g w1, scl_graph_init_ex al w (Some g0) n shard = Ok (e, g, w1) /\
    (e = SCL_OK /\
     (exists outs g2 w2 adj s g3 w3, run (graph_step al) (g, w1) ops = Ok (outs, (g2, w2)) /\
        trace graph_spec (replicate (Z.to_nat n) [], 0) ops outs (adj, s) /\ edge_total adj <= s /\
        scl_graph_destroy w2 g2 = Ok (g3, w3) /\ w_live w3 = w_live w) \/
     (e = SCL_ERR_SIZE_OVERFLOW \/ e = SCL_ERR_OUT_OF_MEMORY) /\ w_live w1 = w_live w)) /\
  scl_graph_init_ex al w (Some g0) 0 shard = Ok (SCL_ERR_INVALID_ARG, Some g0, w) /\
  (forall f t wt, scl_graph_add_edge al w None f t wt = Ok (SCL_ERR_NULL_PTR, None, w) /\
     scl_graph_remove_edge None f t = Ok (SCL_ERR_NULL_PTR, None) /\ scl_graph_has_edge None f t = Ok false).
Proof.
  split; [|split; [by destruct g0|done]].
  destruct (proj1 (wp_ok _ _) (graph_init_spec al w g0 n shard Hn Hs)) as ([[e g] w1] & E & H). exists e, g, w1. split; [done|].
  destruct H as [[-> R]|H]; [left|by right]. split; [done|].
  destruct (proj1 (wp_ok _ _) (run_refines (graph_step al) _ _ (Simulates0 := graph_simulates al (w_live w) _) (g, w1) _ ops R))
    as ([outs [g2 w2]] & E2 & [adj s] & T & R2).
  destruct (proj1 (wp_ok _ _) (graph_destroy_spec _ _ _ _ R2)) as ([g3 w3] & E3 & Hw & _).
  assert (edge_total adj <= s) as Hle.
  { destruct R2 as (nd & c1 & ed & c2 & fh & w0 & ns & es & chains & fr & fl & _ & _ & _ & S & _ & <- & _).
    rewrite (gh_slots _ _ _ _ _ _ _ S). pose proof (zlen_nonneg fr). lia. }
  exists outs, g2, w2, adj, s, g3, w3. done.
Qed.

Lemma graph_refines_witness :
  exists outs a, trace graph_spec (replicate 3 [], 0)
    [GAdd 0 1 5; GAdd 0 2 7; GRemove 0 1; GHas 0 2; GAdd 2 0 (-1); GEdges] outs a.
Proof.
  destruct (graph_refines small_allocator (World 0 0) (Graph (Arr Null 0 0 0) (Arr Null 0 0 0) 0 0 0) 3 2
    [GAdd 0 1 5; GAdd 0 2 7; GRemove 0 1; GHas 0 2; GAdd 2 0 (-1); GEdges]) as [(e & g & w1 & E & H) _]; [lia|lia|].
  destruct H as [(_ & outs & _ & _ & adj & s & _ & _ & _ & T & _)|[H _]]; [by exists outs, (adj, s)|].
  exfalso. destruct H as [->| ->]; vm_compute in E; discriminate E.
Defined.

(** ** A sample graph: 0 to 1 (weight 9), 0 to 2 (weight 5), 2 to 1 (weight 3). *)
Definition sample_adj : adjacency := [[(2, 5); (1, 9)]; []; [(1, 3)]].
Definition sample_graph : scl_graph_t :=
  Graph (Arr (Ptr [Some (Node 1); Some (Node SCL_GRAPH_NIL); Some (Node 2)]) SIZEOF_NODE 3 3)
        (Arr (Ptr [Some (Edge 1 9 SCL_GRAPH_NIL); Some (Edge 2 5 0); Some (Edge 1 3 SCL_GRAPH_NIL)]) SIZEOF_EDGE 3 3) 3 3 SCL_GRAPH_NIL.

Lemma sample_ok : graph_ok sample_graph sample_adj.
Proof.
  assert (forall v (l : list (Z * Z)), zlook sample_adj v = Some l -> v = 0 /\ l = [(2, 5); (1, 9)] \/ v = 1 /\ l = [] \/ v = 2 /\ l = [(1, 3)]) as H.
  { intros v l Hv. pose proof (zlook_Some _ _ _ Hv) as Hr. change (zlen sample_adj) with 3 in Hr.
    assert (v = 0 \/ v = 1 \/ v = 2) as [->|[->| ->]] by lia; injection Hv as <-; auto. }
  split; [done|done|split; reflexivity|by eexists|reflexivity| |].
  - intros v l [[-> ->]|[[-> ->]|[-> ->]]]%H.
    + exists 1, [1; 0]. split; [done|]. split; [|by vm_compute]. split; [done|]. split; [done|]. exists 0. split; [done|].
      split; [done|]. split; [done|]. by exists SCL_GRAPH_NIL.
    + by exists SCL_GRAPH_NIL, [].
    + exists 2, [2]. split; [done|]. split; [|by vm_compute]. split; [done|]. split; [done|]. by exists SCL_GRAPH_NIL.
  - intros v l t wt [[-> ->]|[[-> ->]|[-> ->]]]%H; change (zlen sample_adj) with 3;
      rewrite ?elem_of_cons, elem_of_nil; intros Hin; naive_solver lia.
Qed.
