(* ===== verification/GraphSearch.v ===== *)
(** Breadth-first and depth-first traversal of graphs: [scl_graph_bfs] and
    [scl_graph_dfs] ([libs/structures/graph/scl_graph.c]), which call back on
    every vertex, and [scl_search_breadth_first_search] and
    [scl_search_depth_first_search] ([libs/search]), which mark them and keep
    vertices in [int]s. *)

From stdpp Require Import relations.
From S2P Require Import Prelude Core Refine Containers Array Graph.
#[local] Open Scope Z_scope.
#[local] Arguments scl_mul_overflow : simpl never.

(** [x++] on a [size_t] and on an [int]. *)
Definition size_inc (x : Z) : res Z := mret (u64 (x + 1)).
Definition int_inc (x : Z) : res Z := if x <? 2 ^ 31 - 1 then mret (x + 1) else UB.

(** The loop over the edges of [v]: unvisited targets are marked and stored at
    [top].  [conv] and [inc] are those of the type of the stored vertices. *)
Definition discover (conv : Z -> Z) (inc : Z -> res Z) (g : scl_graph_t) (v : Z) (s : ptr bool * ptr Z * Z)
    : res (ptr bool * ptr Z * Z) :=
  r ← for_edges (R := Empty_set) g v
    (fun ed '(visited, store, top) =>
       b ← get_elem visited (ed_to ed);
       if negb b then
         visited ← set_elem visited (ed_to ed) true;
         store ← set_elem store top (conv (ed_to ed));
         top ← inc top;
         mret (inl (visited, store, top))
       else mret (inl (visited, store, top))) s;
  match r with inl s => mret s | inr e => match e : Empty_set with end end.

Section Loops.
Context {C : Type} (conv : Z -> Z) (inc : Z -> res Z) (g : scl_graph_t) (visit : Z -> C -> C).

(** [while (qh < qt) { v = queue[qh++]; ... }] *)
Definition bfs_loop (visited : ptr bool) (queue : ptr Z) (qt : Z) (ctx : C) : res (ptr bool * ptr Z * C) :=
  loop (S (S (Z.to_nat (g_vertex_count g))))
    (fun '(visited, queue, qh, qt, ctx) =>
       if qh <? qt then
         v ← get_elem queue qh;
         qh ← inc qh;
         let ctx := visit v ctx in
         '(visited, queue, qt) ← discover conv inc g (u64 v) (visited, queue, qt);
         mret (inl (visited, queue, qh, qt, ctx))
       else mret (inr (visited, queue, ctx)))
    (visited, queue, 0, qt, ctx).

(** [while (sp > 0) { v = stack[--sp]; ... }] *)
Definition dfs_loop (visited : ptr bool) (stack : ptr Z) (sp : Z) (ctx : C) : res (ptr bool * ptr Z * C) :=
  loop (S (S (Z.to_nat (g_vertex_count g))))
    (fun '(visited, stack, sp, ctx) =>
       if sp >? 0 then
         let sp := sp - 1 in
         v ← get_elem stack sp;
         let ctx := visit v ctx in
         '(visited, stack, sp) ← discover conv inc g (u64 v) (visited, stack, sp);
         mret (inl (visited, stack, sp, ctx))
       else mret (inr (visited, stack, ctx)))
    (visited, stack, sp, ctx).
End Loops.

Section Defs.
Context (al : scl_allocator_t).
Implicit Types (w : world) (g : option scl_graph_t).

(** The two callback traversals differ in the loop only. *)
Definition graph_traversal {C} (walk : scl_graph_t -> (Z -> C -> C) -> ptr bool -> ptr Z -> Z -> C -> res (ptr bool * ptr Z * C))
    w g (start : Z) (visit : option (Z -> C -> C)) (ctx : C) : res (scl_error_t * C * world) :=
  match g, visit with
  | Some g, Some visit =>
      if start >=? g_vertex_count g then mret (SCL_ERR_INVALID_INDEX, ctx, w)
      else
        match scl_calloc al w (g_vertex_count g) 1 MAX_ALIGN false with
        | (None, w) => mret (SCL_ERR_OUT_OF_MEMORY, ctx, w)
        | (Some visited, w) =>
            match scl_mul_overflow (g_vertex_count g) 8 with
            | None => mret (SCL_ERR_SIZE_OVERFLOW, ctx, scl_free w (Some visited))
            | Some sz =>
                match scl_alloc (A := Z) al w sz MAX_ALIGN 8 with
                | (None, w) => mret (SCL_ERR_OUT_OF_MEMORY, ctx, scl_free w (Some visited))
                | (Some store, w) =>
                    visited ← set_elem (Ptr visited) start true;
                    store ← set_elem (Ptr store) 0 start;
                    '(visited, store, ctx) ← walk g visit visited store 1 ctx;
                    w ← free_ptr w store;
                    w ← free_ptr w visited;
                    mret (SCL_OK, ctx, w)
                end
            end
        end
  | _, _ => mret (SCL_ERR_NULL_PTR, ctx, w)
  end.

Definition scl_graph_dfs {C} w g (start : Z) (visit : option (Z -> C -> C)) (ctx : C) : res (scl_error_t * C * world) :=
  graph_traversal (dfs_loop (fun x => x) size_inc) w g start visit ctx.

Definition scl_graph_bfs {C} w g (start : Z) (visit : option (Z -> C -> C)) (ctx : C) : res (scl_error_t * C * world) :=
  graph_traversal (bfs_loop (fun x => x) size_inc) w g start visit ctx.

(** The two marking searches; [visited] is the caller's array. *)
Definition marking_search (walk : scl_graph_t -> (Z -> unit -> unit) -> ptr bool -> ptr Z -> Z -> unit -> res (ptr bool * ptr Z * unit))
    w g (start : Z) (visited : ptr bool) : res (scl_error_t * ptr bool * world) :=
  match g, visited with
  | None, _ => mret (SCL_ERR_NULL_PTR, visited, w)
  | _, Null => mret (SCL_ERR_NULL_PTR, visited, w)
  | Some g, _ =>
      match a_data (g_nodes g) with
      | Null => mret (SCL_ERR_INVALID_ARG, visited, w)
      | _ =>
          if (start <? 0) || (u64 start >=? g_vertex_count g) then mret (SCL_ERR_INVALID_INDEX, visited, w)
          else if g_vertex_count g =? 0 then mret (SCL_ERR_EMPTY, visited, w)
          else
            match scl_mul_overflow (g_vertex_count g) 4 with
            | None => mret (SCL_ERR_SIZE_OVERFLOW, visited, w)
            | Some bytes =>
                match scl_alloc (A := Z) al w bytes MAX_ALIGN 4 with
                | (None, w) => mret (SCL_ERR_OUT_OF_MEMORY, visited, w)
                | (Some store, w) =>
                    visited ← set_elem visited start true;
                    store ← set_elem (Ptr store) 0 start;
                    '(visited, store, _) ← walk g (fun _ u => u) visited store 1 tt;
                    w ← free_ptr w store;
                    mret (SCL_OK, visited, w)
                end
            end
      end
  end.

Definition scl_search_breadth_first_search w g (start : Z) (visited : ptr bool) : res (scl_error_t * ptr bool * world) :=
  marking_search (bfs_loop i32 int_inc) w g start visited.

Definition scl_search_depth_first_search w g (start : Z) (visited : ptr bool) : res (scl_error_t * ptr bool * world) :=
  marking_search (dfs_loop i32 int_inc) w g start visited.
End Defs.

(** * Reachability *)
Definition adj_edge (adj : adjacency) (u v : Z) : Prop := exists l wt, zlook adj u = Some l /\ (v, wt) ∈ l.

(** Steps that do not enter a vertex marked beforehand. *)
Definition open_edge (adj : adjacency) (wall : Z -> bool) (u v : Z) : Prop := adj_edge adj u v /\ wall v = false.
Notation reaches adj wall := (rtc (open_edge adj wall)).

(** [flags p n B]: the array [p] of [n] booleans holds [B]. *)
Definition flags (p : ptr bool) (n : Z) (B : Z -> bool) : Prop :=
  exists b, p = Ptr b /\ zlen b = n /\ forall v, 0 <= v < n -> zlook b v = Some (Some (B v)).

(** [holds_list p n l]: the array [p] of [n] cells starts with [l]. *)
Definition holds_list (p : ptr Z) (n : Z) (l : list Z) : Prop := exists b, p = Ptr b /\ zlen b = n /\ stored b l.

Lemma flags_ext p n B B' : flags p n B -> (forall v, 0 <= v < n -> B v = B' v) -> flags p n B'.
Proof. intros (b & -> & Hb & H) E. exists b. split; [done|]. split; [done|]. intros v Hv. rewrite H by done. by rewrite E. Qed.

Lemma wp_flag_get p n B v (Q : bool -> Prop) : flags p n B -> 0 <= v < n -> Q (B v) -> wp (get_elem p v) Q.
Proof. intros (b & -> & Hb & H) Hv HQ. eapply wp_get_elem; [by apply H|done]. Qed.

Lemma wp_flag_set p n B v (Q : ptr bool -> Prop) :
  flags p n B -> 0 <= v < n -> (forall p', flags p' n (fun x => B x || (x =? v)) -> Q p') -> wp (set_elem p v true) Q.
Proof.
  intros (b & -> & Hb & H) Hv HQ. apply wp_set_elem; [lia|]. apply HQ. eexists. split; [done|]. split; [by rewrite zlen_zupd|].
  intros x Hx. rewrite zlook_zupd. case_decide as Hd.
  - destruct Hd as [-> _]. by rewrite Z.eqb_refl, orb_true_r.
  - rewrite H by done. destruct (Z.eqb_spec x v) as [->|]; [naive_solver lia|]. by rewrite orb_false_r.
Qed.

Lemma holds_list_take p n l l' : holds_list p n (l ++ l') -> holds_list p n l.
Proof.
  intros (b & -> & Hb & S). exists b. split; [done|]. split; [done|]. intros i x Hi. apply S. rewrite zlook_app.
  pose proof (zlook_Some _ _ _ Hi). by destruct (Z.ltb_spec i (zlen l)); [|lia].
Qed.

Lemma wp_store_get p n l i x (Q : Z -> Prop) : holds_list p n l -> zlook l i = Some x -> Q x -> wp (get_elem p i) Q.
Proof. intros (b & -> & _ & S) Hi HQ. eapply wp_get_elem; [by apply S|done]. Qed.

Lemma wp_store_push p n l i x (Q : ptr Z -> Prop) :
  holds_list p n l -> i = zlen l -> zlen l < n -> (forall p', holds_list p' n (l ++ [x]) -> Q p') -> wp (set_elem p i x) Q.
Proof.
  intros (b & -> & Hb & S) -> Hl HQ. pose proof (zlen_nonneg l). apply wp_set_elem; [lia|]. apply HQ. eexists. split; [done|].
  split; [by rewrite zlen_zupd|]. apply stored_snoc; [lia|done].
Qed.

Lemma open_edge_row adj wall u v l : zlook adj u = Some l -> open_edge adj wall u v <-> (exists wt, (v, wt) ∈ l) /\ wall v = false.
Proof.
  intros Hl. split.
  - intros [(l' & wt & Hl' & Hin) Hw]. simplify_eq. eauto.
  - intros [[wt Hin] Hw]. split; [|done]. by exists l, wt.
Qed.

(** ** Discovering the targets of one vertex *)
Section Discover.
Context (g : scl_graph_t) (adj : adjacency) (G : graph_ok g adj) (conv : Z -> Z) (inc : Z -> res Z).
Context (Hconv : forall x, 0 <= x < zlen adj -> conv x = x) (Hinc : forall x, 0 <= x < zlen adj -> inc x = Ok (x + 1)).

Lemma wp_discover v l visited store lst B (Q : ptr bool * ptr Z * Z -> Prop) :
  zlook adj v = Some l -> flags visited (zlen adj) B -> holds_list store (zlen adj) lst ->
  (forall new, NoDup new -> (forall x, x ∈ new -> 0 <= x < zlen adj /\ B x = false) -> zlen lst + zlen new <= zlen adj) ->
  (forall visited' store' new, NoDup new -> (forall x, x ∈ new <-> (exists wt, (x, wt) ∈ l) /\ B x = false) ->
     flags visited' (zlen adj) (fun x => B x || bool_decide (x ∈ new)) -> holds_list store' (zlen adj) (lst ++ new) ->
     Q (visited', store', zlen (lst ++ new))) ->
  wp (discover conv inc g v (visited, store, zlen lst)) Q.
Proof.
  intros Hl Hf Hs Hroom HQ. unfold discover. wstep.
  eapply (wp_for_edges g adj v l _ _ (fun seen '(visited, store, top) => exists new, top = zlen (lst ++ new) /\ NoDup new /\
    (forall x, x ∈ new <-> (exists wt, (x, wt) ∈ seen) /\ B x = false) /\
    flags visited (zlen adj) (fun x => B x || bool_decide (x ∈ new)) /\ holds_list store (zlen adj) (lst ++ new))); [done|done| | |].
  - exists []. split; [by rewrite app_nil_r|]. split; [constructor|]. split; [|split].
    + intros x. split; [by intros ?%elem_of_nil|]. by intros [[wt ?%elem_of_nil] _].
    + eapply flags_ext; [done|]. intros x _. rewrite bool_decide_eq_false_2 by by apply not_elem_of_nil. by rewrite orb_false_r.
    + by rewrite app_nil_r.
  - intros seen t wt nx rest [[visited' store'] top] -> (new & -> & N & Hnew & Hf' & Hs'). cbn [ed_to].
    assert (0 <= t < zlen adj) as Ht by (eapply (go_targets _ _ G); [done|]; apply elem_of_app; right; by left).
    wstep. eapply wp_flag_get; [done|done|]. cbv beta. destruct (B t) eqn:Bt; cbn [orb negb].
    + wstep. exists new. split; [done|]. split; [done|]. split; [|done]. intros x. rewrite Hnew. split.
      * intros [[wt' H] HB]. split; [|done]. exists wt'. apply elem_of_app. by left.
      * intros [[wt' [H|H]%elem_of_app] HB]; [by eauto|]. apply list_elem_of_singleton in H. simplify_eq; congruence.
    + destruct (bool_decide_reflect (t ∈ new)) as [Hin|Hin]; cbn [negb].
      * wstep. exists new. split; [done|]. split; [done|]. split; [|done]. intros x. rewrite Hnew. split.
        -- intros [[wt' H] HB]. split; [|done]. exists wt'. apply elem_of_app. by left.
        -- intros [[wt' [H|H]%elem_of_app] HB]; [by eauto|]. apply list_elem_of_singleton in H. simplify_eq. by apply Hnew.
      * assert (NoDup (new ++ [t])) as N' by (apply NoDup_app; split; [done|]; split; [|apply NoDup_singleton]; intros x Hx ->%list_elem_of_singleton; done).
        assert (forall x, x ∈ new ++ [t] -> 0 <= x < zlen adj /\ B x = false) as Hr.
        { intros x [Hx| ->%list_elem_of_singleton]%elem_of_app; [|done]. apply Hnew in Hx as [[wt' Hx] HB]. split; [|done].
          eapply (go_targets _ _ G); [done|]. apply elem_of_app. by left. }
        pose proof (Hroom _ N' Hr) as Hlen. rewrite zlen_app in Hlen. change (zlen [t]) with 1 in Hlen.
        pose proof (zlen_nonneg lst). pose proof (zlen_nonneg new).
        wstep. eapply wp_flag_set; [done|done|]. intros p' Hp'. wstep. rewrite Hconv by done.
        eapply wp_store_push; [done|done|rewrite zlen_app; lia|]. intros q' Hq'. wstep. rewrite Hinc by (rewrite zlen_app; lia). wstep. wstep.
        exists (new ++ [t]). split; [rewrite !zlen_app; change (zlen [t]) with 1; lia|]. split; [done|]. split; [|split].
        -- intros x. rewrite !elem_of_app, Hnew, list_elem_of_singleton. split.
           ++ intros [[[wt' H1] HB]| ->]; [split; [exists wt'; apply elem_of_app; by left|done]|]. split; [|done].
              exists wt. apply elem_of_app. right. by left.
           ++ intros [[wt' [H1|H1]%elem_of_app] HB]; [left; by eauto|right]. apply list_elem_of_singleton in H1. by simplify_eq.
        -- eapply flags_ext; [exact Hp'|]. intros x _. cbv beta. rewrite <- orb_assoc. f_equal. apply eq_bool_prop_intro.
           rewrite orb_True, !bool_decide_spec, elem_of_app, list_elem_of_singleton, Is_true_true, Z.eqb_eq. done.
        -- by rewrite app_assoc.
  - intros [[visited' store'] top] (new & -> & N & Hnew & Hf' & Hs'). wstep. by apply HQ.
Qed.
End Discover.

(** ** The state of a traversal

    [done]: the vertices whose edges were followed, in order; [pend]: those
    found but not yet followed. *)
Record explored (adj : adjacency) (wall : Z -> bool) (start : Z) (done pend : list Z) : Prop := Explored {
  ex_nodup : NoDup (done ++ pend);
  ex_range : forall x, x ∈ done ++ pend -> 0 <= x < zlen adj;
  ex_start : start ∈ done ++ pend;
  ex_reach : forall x, x ∈ done ++ pend -> reaches adj wall start x;
  ex_closed : forall u v, u ∈ done -> open_edge adj wall u v -> v ∈ done ++ pend
}.

Definition seen_flag (wall : Z -> bool) (l : list Z) (x : Z) : bool := wall x || bool_decide (x ∈ l).

Lemma explored_start adj wall start : 0 <= start < zlen adj -> explored adj wall start [] [start].
Proof.
  intros Hs. split; simpl.
  - apply NoDup_singleton.
  - by intros x ->%list_elem_of_singleton.
  - by left.
  - intros x ->%list_elem_of_singleton. done.
  - by intros u v ?%elem_of_nil.
Qed.

Lemma explored_perm adj wall start done pend pend' : pend ≡ₚ pend' -> explored adj wall start done pend -> explored adj wall start done pend'.
Proof. intros P [H1 H2 H3 H4 H5]. split; intros *; rewrite <- P; auto. apply H5. Qed.

Lemma explored_room adj wall start done pend : explored adj wall start done pend -> zlen done + zlen pend <= zlen adj.
Proof.
  intros [N R _ _ _]. pose proof (nodup_length _ (zlen adj) N R) as H. rewrite zlen_app in H. pose proof (zlen_nonneg adj). lia.
Qed.

(** Following the edges of a pending vertex. *)
Lemma explored_step adj wall start done v pend new l :
  explored adj wall start done (v :: pend) -> zlook adj v = Some l -> NoDup new ->
  (forall x, x ∈ new <-> (exists wt, (x, wt) ∈ l) /\ seen_flag wall (done ++ v :: pend) x = false) -> targets_ok adj ->
  explored adj wall start (done ++ [v]) (pend ++ new).
Proof.
  intros [H1 H2 H3 H4 H5] Hl N Hnew Ht.
  assert ((done ++ [v]) ++ pend ++ new ≡ₚ (done ++ v :: pend) ++ new) as P by (by rewrite <- !app_assoc).
  assert (forall x, x ∈ new -> x ∉ done ++ v :: pend /\ open_edge adj wall v x) as Hn.
  { intros x [Hx Hs]%Hnew. unfold seen_flag in Hs. apply orb_false_iff in Hs as [Hw Hs%bool_decide_eq_false]. split; [done|].
    by eapply open_edge_row. }
  split; intros *; rewrite ?P.
  - apply NoDup_app. split; [done|]. split; [|done]. intros x Hx Hx'. by apply Hn in Hx' as [? _].
  - intros [Hx|Hx]%elem_of_app; [by apply H2|]. apply Hnew in Hx as [[wt Hx] _]. by eapply Ht.
  - apply elem_of_app. by left.
  - intros [Hx|Hx]%elem_of_app; [by apply H4|]. apply Hn in Hx as [_ Hx]. eapply rtc_r; [|done]. apply H4. apply elem_of_app. right. by left.
  - rewrite !elem_of_app, list_elem_of_singleton. intros [Hu| ->] He.
    + pose proof (H5 _ _ Hu He) as Hv. apply elem_of_app in Hv. by left.
    + destruct (decide (v0 ∈ done ++ v :: pend)) as [Hin|Hin]; [left; by apply elem_of_app in Hin|right]. apply Hnew.
      eapply open_edge_row in He as [He Hw]; [|done]. split; [done|]. unfold seen_flag. rewrite Hw. simpl. by apply bool_decide_eq_false.
Qed.

Lemma explored_end adj wall start done : explored adj wall start done [] -> forall x, x ∈ done <-> reaches adj wall start x.
Proof.
  intros [H1 H2 H3 H4 H5]. rewrite app_nil_r in *. intros x. split; [by apply H4|].
  revert x. apply rtc_ind_r; [done|]. intros y z _ Hyz Hy. by apply (H5 y).
Qed.

(** ** Levels

    [D] gives every queued vertex the length of a path to it; the queue is
    ordered by it and spans two levels at most. *)
Record levelled (adj : adjacency) (wall : Z -> bool) (start : Z) (D : Z -> nat) (done pend : list Z) : Prop := Levelled {
  lv_start : D start = 0%nat;
  lv_path : forall x, x ∈ done ++ pend -> nsteps (open_edge adj wall) (D x) start x;
  lv_sorted : forall i j x y, i <= j -> zlook (done ++ pend) i = Some x -> zlook (done ++ pend) j = Some y -> (D x <= D y)%nat;
  lv_edge : forall u v, u ∈ done -> open_edge adj wall u v -> (D v <= S (D u))%nat;
  lv_span : forall h x, head pend = Some h -> x ∈ done ++ pend -> (D x <= S (D h))%nat
}.

Lemma levelled_start adj wall start : levelled adj wall start (fun _ => 0%nat) [] [start].
Proof.
  split; simpl; try done.
  - intros x ->%list_elem_of_singleton. constructor.
  - intros; lia.
  - intros; lia.
Qed.

Lemma levelled_step adj wall start D done v pend new :
  levelled adj wall start D done (v :: pend) -> start ∈ done ++ v :: pend ->
  (forall x, x ∈ new <-> open_edge adj wall v x /\ x ∉ done ++ v :: pend) ->
  (forall u x, u ∈ done -> open_edge adj wall u x -> x ∈ done ++ v :: pend) ->
  levelled adj wall start (fun x => if decide (x ∈ new) then S (D v) else D x) (done ++ [v]) (pend ++ new).
Proof.
  intros [H1 H2 H3 H4 H5] Hs Hnew Hcl.
  assert (forall x, x ∈ done ++ v :: pend -> x ∉ new) as Hold by (intros x Hx [_ Hx']%Hnew; done).
  assert ((done ++ [v]) ++ pend ++ new = (done ++ v :: pend) ++ new) as Eq by (by rewrite <- !app_assoc).
  assert (v ∈ done ++ v :: pend) as Hv by (apply elem_of_app; right; by left).
  assert (forall x, x ∈ done ++ v :: pend -> (D x <= S (D v))%nat) as Hspan by (intros x; by apply H5).
  set (D' := fun x => if decide (x ∈ new) then S (D v) else D x).
  assert (forall x, x ∈ done ++ v :: pend -> D' x = D x) as Ho by (intros x Hx; unfold D'; rewrite decide_False; auto).
  assert (forall x, x ∈ new -> D' x = S (D v)) as Hn by (intros x Hx; unfold D'; by rewrite decide_True).
  clearbody D'. split; rewrite ?Eq.
  - by rewrite Ho.
  - intros x [Hx|Hx]%elem_of_app; [rewrite Ho by done; auto|]. rewrite Hn by done. eapply nsteps_r; [by apply H2|]. by apply Hnew.
  - intros i j x y Hij. rewrite (zlook_app (done ++ v :: pend) new i), (zlook_app (done ++ v :: pend) new j). pose proof (zlen_nonneg (done ++ v :: pend)).
    destruct (Z.ltb_spec i (zlen (done ++ v :: pend))), (Z.ltb_spec j (zlen (done ++ v :: pend))); try lia; intros Hx Hy.
    + pose proof (zlook_elem _ _ _ Hx). pose proof (zlook_elem _ _ _ Hy). rewrite !Ho by done. by eapply (H3 i j).
    + pose proof (zlook_elem _ _ _ Hx). pose proof (zlook_elem _ _ _ Hy). rewrite (Ho x), (Hn y) by done. by apply Hspan.
    + pose proof (zlook_elem _ _ _ Hx). pose proof (zlook_elem _ _ _ Hy). rewrite !Hn by done. lia.
  - intros u x [Hu|Hu]%elem_of_app He.
    + pose proof (Hcl _ _ Hu He). rewrite !Ho; [by apply H4|apply elem_of_app; by left|done].
    + apply list_elem_of_singleton in Hu as ->. rewrite (Ho v) by done. destruct (decide (x ∈ done ++ v :: pend)).
      * rewrite Ho by done. by apply Hspan.
      * rewrite Hn; [done|]. by apply Hnew.
  - intros h x Hh Hx. assert (D v <= D' h)%nat as Hle.
    { destruct pend as [|p pend]; simpl in Hh.
      - rewrite Hn; [lia|]. destruct new; [done|]. injection Hh as ->. by left.
      - injection Hh as ->. rewrite Ho by (rewrite elem_of_app, !elem_of_cons; auto). apply (H3 (zlen done) (zlen done + 1)); [lia| |];
          rewrite zlook_app; [destruct (Z.ltb_spec (zlen done) (zlen done)); [lia|]; by rewrite Z.sub_diag|].
        destruct (Z.ltb_spec (zlen done + 1) (zlen done)); [lia|]. by replace (zlen done + 1 - zlen done) with 1 by lia. }
    apply elem_of_app in Hx as [Hx|Hx]; [rewrite Ho by done; pose proof (Hspan x Hx); lia|]. rewrite Hn by done. lia.
Qed.

(** Vertices come in the order of their distance from the start. *)
Definition level_order (adj : adjacency) (wall : Z -> bool) (start : Z) (order : list Z) : Prop :=
  forall i j x y m, i <= j -> zlook order i = Some x -> zlook order j = Some y -> nsteps (open_edge adj wall) m start y ->
    exists k, (k <= m)%nat /\ nsteps (open_edge adj wall) k start x.

Lemma levelled_end adj wall start D done : levelled adj wall start D done [] -> explored adj wall start done [] -> level_order adj wall start done.
Proof.
  intros [H1 H2 H3 H4 H5] [_ _ E3 _ E5] i j x y m Hij Hx Hy Hm. rewrite app_nil_r in *.
  assert (forall n z, nsteps (open_edge adj wall) n start z -> z ∈ done /\ (D z <= n)%nat) as Hmin.
  { intros n. induction n as [|n IH]; intros z Hz.
    - inversion Hz; subst. split; [done|lia].
    - apply nsteps_inv_r in Hz as (u & Hu & Huz). apply IH in Hu as [Hu Hd]. split; [by eapply E5|]. pose proof (H4 _ _ Hu Huz). lia. }
  exists (D x). split; [|apply H2; eauto using zlook_elem]. apply Hmin in Hm as [_ Hm]. pose proof (H3 _ _ _ _ Hij Hx Hy). lia.
Qed.

(** ** The loops *)
Section Walk.
Context {C : Type} (g : scl_graph_t) (adj : adjacency) (G : graph_ok g adj) (conv : Z -> Z) (inc : Z -> res Z).
Context (Hconv : forall x, 0 <= x < zlen adj -> conv x = x) (Hinc : forall x, 0 <= x < zlen adj -> inc x = Ok (x + 1)).
Context (visit : Z -> C -> C) (wall : Z -> bool) (start : Z) (Hstart : 0 <= start < zlen adj).
Notation calls order ctx := (fold_left (fun c v => visit v c) order ctx).

(** Discovery from a pending vertex keeps the invariant. *)
Lemma wp_discover_step done v pend lst visited store l (Q : ptr bool * ptr Z * Z -> Prop) :
  zlook adj v = Some l -> explored adj wall start done (v :: pend) ->
  flags visited (zlen adj) (seen_flag wall (done ++ v :: pend)) -> holds_list store (zlen adj) lst ->
  zlen lst <= zlen (done ++ v :: pend) ->
  (forall visited' store' new, explored adj wall start (done ++ [v]) (pend ++ new) -> NoDup new ->
     (forall x, x ∈ new <-> open_edge adj wall v x /\ x ∉ done ++ v :: pend) ->
     flags visited' (zlen adj) (seen_flag wall ((done ++ [v]) ++ pend ++ new)) -> holds_list store' (zlen adj) (lst ++ new) ->
     Q (visited', store', zlen (lst ++ new))) ->
  wp (discover conv inc g v (visited, store, zlen lst)) Q.
Proof.
  intros Hl E Hf Hs Hle HQ. eapply (wp_discover g adj G conv inc Hconv Hinc); [exact Hl|exact Hf|exact Hs| |].
  - intros new N Hnew. pose proof (nodup_length ((done ++ v :: pend) ++ new) (zlen adj)) as H.
    rewrite zlen_app in H. pose proof (zlen_nonneg adj). enough (zlen (done ++ v :: pend) + zlen new <= Z.max 0 (zlen adj)) by lia. apply H.
    + apply NoDup_app. split; [by eapply ex_nodup|]. split; [|done]. intros x Hx Hx'. apply Hnew in Hx' as [_ Hx']. unfold seen_flag in Hx'.
      rewrite bool_decide_eq_true_2, orb_true_r in Hx' by done. done.
    + intros x [Hx|Hx]%elem_of_app; [by eapply ex_range|by apply Hnew].
  - intros visited' store' new N Hnew Hf' Hs'. apply HQ; [|done| | |done].
    + eapply explored_step; [done|done|done|done|by eapply go_targets].
    + intros x. rewrite Hnew, (open_edge_row _ _ _ _ _ Hl). unfold seen_flag. rewrite orb_false_iff, bool_decide_eq_false. tauto.
    + eapply flags_ext; [exact Hf'|]. intros x _. cbv beta. unfold seen_flag. rewrite <- orb_assoc. f_equal. apply eq_bool_prop_intro.
      rewrite orb_True, !bool_decide_spec, !elem_of_app, elem_of_cons, list_elem_of_singleton. tauto.
Qed.

Lemma wp_dfs_loop visited stack ctx (Q : ptr bool * ptr Z * C -> Prop) :
  flags visited (zlen adj) (seen_flag wall [start]) -> holds_list stack (zlen adj) [start] ->
  (forall visited' b order, NoDup order -> head order = Some start -> (forall x, x ∈ order <-> reaches adj wall start x) ->
     flags visited' (zlen adj) (seen_flag wall order) -> Q (visited', Ptr b, calls order ctx)) ->
  wp (dfs_loop conv inc g visit visited stack 1 ctx) Q.
Proof.
  intros Hf Hs HQ. unfold dfs_loop. rewrite (go_vertices _ _ G). pose proof (go_range _ _ G) as Hn.
  apply (wp_loop_rel (fun m '(visited, stack, sp, c) => exists order stk, m = zlen adj - zlen order /\ sp = zlen stk /\
    explored adj wall start order stk /\ flags visited (zlen adj) (seen_flag wall (order ++ stk)) /\ holds_list stack (zlen adj) stk /\
    (order = [] /\ stk = [start] \/ head order = Some start) /\ c = calls order ctx) (zlen adj)); [|lia|lia|].
  { exists [], [start]. simpl. split; [change (zlen (@nil Z)) with 0; lia|]. split_and!; try done; [by apply explored_start|by left]. }
  intros m [[[visited' stack'] sp] c] (order & stk & -> & -> & E & Hf' & Hs' & Hh & ->). rewrite Z.gtb_ltb.
  destruct (list_last_case stk) as [->|(stk' & v & ->)].
  - change (zlen (@nil Z)) with 0. destruct (Z.ltb_spec 0 0); [lia|]. wstep. destruct Hs' as (b & -> & _). rewrite app_nil_r in *.
    apply HQ; [|by destruct Hh as [[_ Hh]|Hh]|by apply explored_end|done]. pose proof (ex_nodup _ _ _ _ _ E) as N. by rewrite app_nil_r in N.
  - rewrite zlen_app. change (zlen [v]) with 1. pose proof (zlen_nonneg stk'). destruct (Z.ltb_spec 0 (zlen stk' + 1)); [|lia].
    replace (zlen stk' + 1 - 1) with (zlen stk') by lia. cbv zeta. wstep. eapply wp_store_get; [done| |].
    { rewrite zlook_app. destruct (Z.ltb_spec (zlen stk') (zlen stk')); [lia|]. by rewrite Z.sub_diag. }
    assert (0 <= v < zlen adj) as Hv by (eapply (ex_range _ _ _ _ _ E); rewrite !elem_of_app, list_elem_of_singleton; auto).
    destruct (zlook_lt adj v Hv) as [l Hl]. rewrite u64_small by lia. pose proof (explored_room _ _ _ _ _ E) as Hroom.
    assert (order ++ stk' ++ [v] ≡ₚ order ++ v :: stk') as P by (by rewrite <- (Permutation_cons_append stk' v)).
    wstep. eapply (wp_discover_step order v stk' stk'); [done| | | | |].
    + eapply explored_perm; [|exact E]. by rewrite <- Permutation_cons_append.
    + eapply flags_ext; [exact Hf'|]. intros x _. unfold seen_flag. f_equal. apply bool_decide_ext. by rewrite P.
    + by eapply holds_list_take.
    + rewrite zlen_app, zlen_cons. pose proof (zlen_nonneg order). lia.
    + intros visited2 stack2 new E2 _ _ Hf2 Hs2. wstep. exists (zlen adj - zlen (order ++ [v])).
      pose proof (explored_room _ _ _ _ _ E2) as Hroom2. pose proof (zlen_nonneg (stk' ++ new)). rewrite zlen_app in *. change (zlen [v]) with 1 in *.
      split; [lia|]. exists (order ++ [v]), (stk' ++ new). rewrite fold_left_app. split_and!; try done.
      * by rewrite zlen_app.
      * right. destruct Hh as [[-> Hh]|Hh]; [|by destruct order].
        destruct stk' as [|x stk']; [|by destruct stk']. simpl in *. congruence.
Qed.

Lemma wp_bfs_loop visited queue ctx (Q : ptr bool * ptr Z * C -> Prop) :
  flags visited (zlen adj) (seen_flag wall [start]) -> holds_list queue (zlen adj) [start] ->
  (forall visited' b order, NoDup order -> head order = Some start -> (forall x, x ∈ order <-> reaches adj wall start x) ->
     level_order adj wall start order -> flags visited' (zlen adj) (seen_flag wall order) -> Q (visited', Ptr b, calls order ctx)) ->
  wp (bfs_loop conv inc g visit visited queue 1 ctx) Q.
Proof.
  intros Hf Hs HQ. unfold bfs_loop. rewrite (go_vertices _ _ G). pose proof (go_range _ _ G) as Hn.
  apply (wp_loop_rel (fun m '(visited, queue, qh, qt, c) => exists order pend D, m = zlen adj - zlen order /\ qh = zlen order /\
    qt = zlen (order ++ pend) /\ explored adj wall start order pend /\ levelled adj wall start D order pend /\
    flags visited (zlen adj) (seen_flag wall (order ++ pend)) /\ holds_list queue (zlen adj) (order ++ pend) /\
    head (order ++ pend) = Some start /\ c = calls order ctx) (zlen adj)); [|lia|lia|].
  { exists [], [start], (fun _ => 0%nat). change (zlen (@nil Z)) with 0. split; [lia|]. split_and!; try done; [by apply explored_start|apply levelled_start]. }
  intros m [[[[visited' queue'] qh] qt] c] (order & pend & D & -> & -> & -> & E & L & Hf' & Hs' & Hh & ->).
  rewrite zlen_app. destruct pend as [|v pend].
  - change (zlen (@nil Z)) with 0. rewrite Z.add_0_r, Z.ltb_irrefl. wstep. destruct Hs' as (b & -> & _). rewrite app_nil_r in *.
    apply HQ; [|done|by apply explored_end|by eapply levelled_end|done]. pose proof (ex_nodup _ _ _ _ _ E) as N. by rewrite app_nil_r in N.
  - rewrite zlen_cons. pose proof (zlen_nonneg pend). pose proof (zlen_nonneg order).
    destruct (Z.ltb_spec (zlen order) (zlen order + (zlen pend + 1))); [|lia]. wstep. eapply wp_store_get; [done| |].
    { rewrite zlook_app. destruct (Z.ltb_spec (zlen order) (zlen order)); [lia|]. by rewrite Z.sub_diag. }
    assert (0 <= v < zlen adj) as Hv by (eapply (ex_range _ _ _ _ _ E); rewrite elem_of_app, elem_of_cons; auto).
    destruct (zlook_lt adj v Hv) as [l Hl]. pose proof (explored_room _ _ _ _ _ E) as Hroom. rewrite zlen_cons in Hroom.
    wstep. rewrite Hinc by lia. wstep. cbv zeta. rewrite u64_small by lia. wstep.
    assert (zlen order + (zlen pend + 1) = zlen (order ++ v :: pend)) as -> by (by rewrite zlen_app, zlen_cons).
    eapply (wp_discover_step order v pend (order ++ v :: pend)); [done|done|done|done|lia|].
    intros visited2 queue2 new E2 N Hnew Hf2 Hs2. wstep. exists (zlen adj - zlen (order ++ [v])).
    pose proof (explored_room _ _ _ _ _ E2) as Hroom2. pose proof (zlen_nonneg (pend ++ new)). rewrite (zlen_app order [v]) in *. change (zlen [v]) with 1 in *.
    assert ((order ++ [v]) ++ pend ++ new = (order ++ v :: pend) ++ new) as Eq by (by rewrite <- !app_assoc).
    split; [lia|]. eexists (order ++ [v]), (pend ++ new), _. rewrite fold_left_app, Eq. split_and!; try done.
    + by rewrite zlen_app.
    + by rewrite zlen_app.
    + apply (levelled_step _ _ _ D); [done|by eapply ex_start|done|]. intros u x Hu He. by eapply ex_closed.
    + by rewrite <- Eq.
    + by destruct order.
Qed.
End Walk.

(** ** The functions *)
Lemma alloc_store al `{!AllocatorOk al} w n es :
  0 < n -> 1 <= es -> wp (mret (scl_alloc (A := Z) al w (n * es) MAX_ALIGN es)) (fun '(b, w') =>
    match b with
    | Some b => w_live w' = w_live w + 1 /\ holds_list (Ptr b) n []
    | None => w_live w' = w_live w
    end).
Proof.
  intros Hn Hes. wstep. unfold scl_alloc. destruct (malloc_fn _ _ _ _); simpl; [|lia]. split; [lia|].
  eexists. split; [done|]. split; [by apply zlen_fresh; lia|apply stored_nil].
Qed.

(** What one run of a traversal amounts to, for the order [P] its loop gives. *)
Definition walks (adj : adjacency) (P : list Z -> Prop) (wall : Z -> bool) (start : Z) (order : list Z) : Prop :=
  NoDup order /\ head order = Some start /\ (forall x, x ∈ order <-> reaches adj wall start x) /\ P order.

(** A loop that walks. *)
Definition loop_walks {C} (g : scl_graph_t) (adj : adjacency) (wall : Z -> bool) (start : Z) (P : list Z -> Prop) (visit : Z -> C -> C)
    (walk : ptr bool -> ptr Z -> Z -> C -> res (ptr bool * ptr Z * C)) : Prop :=
  forall visited store ctx (Q : ptr bool * ptr Z * C -> Prop),
    flags visited (zlen adj) (seen_flag wall [start]) -> holds_list store (zlen adj) [start] ->
    (forall visited' b order, walks adj P wall start order -> flags visited' (zlen adj) (seen_flag wall order) ->
       Q (visited', Ptr b, fold_left (fun c v => visit v c) order ctx)) ->
    wp (walk visited store 1 ctx) Q.

Lemma dfs_walks {C} g adj wall start conv inc (visit : Z -> C -> C) :
  graph_ok g adj -> 0 <= start < zlen adj -> (forall x, 0 <= x < zlen adj -> conv x = x) -> (forall x, 0 <= x < zlen adj -> inc x = Ok (x + 1)) ->
  loop_walks g adj wall start (fun _ => True) visit (dfs_loop conv inc g visit).
Proof.
  intros G Hs Hc Hi visited store ctx Q Hf Hl HQ. eapply (wp_dfs_loop g adj G conv inc Hc Hi visit wall start Hs); [done|done|].
  intros v b order N Hh Hr Hf'. by apply HQ.
Qed.

Lemma bfs_walks {C} g adj wall start conv inc (visit : Z -> C -> C) :
  graph_ok g adj -> 0 <= start < zlen adj -> (forall x, 0 <= x < zlen adj -> conv x = x) -> (forall x, 0 <= x < zlen adj -> inc x = Ok (x + 1)) ->
  loop_walks g adj wall start (level_order adj wall start) visit (bfs_loop conv inc g visit).
Proof.
  intros G Hs Hc Hi visited store ctx Q Hf Hl HQ. eapply (wp_bfs_loop g adj G conv inc Hc Hi visit wall start Hs); [done|done|].
  intros v b order N Hh Hr Hlv Hf'. by apply HQ.
Qed.

Definition no_wall (_ : Z) : bool := false.

Lemma reaches_no_wall adj start x : reaches adj no_wall start x <-> rtc (adj_edge adj) start x.
Proof.
  split; apply rtc_subrel; [by intros ? ? [? _]|]. by intros u v He.
Qed.

Lemma wp_graph_traversal al `{!AllocatorOk al} {C} walk w g adj start (visit : Z -> C -> C) ctx P :
  graph_ok g adj -> 0 <= start < zlen adj -> loop_walks g adj no_wall start P visit (walk g visit) ->
  wp (graph_traversal al walk w (Some g) start (Some visit) ctx) (fun '(e, c, w') => w_live w' = w_live w /\
    (e = SCL_OK /\ (exists order, walks adj P no_wall start order /\ c = fold_left (fun c v => visit v c) order ctx) \/
     (e = SCL_ERR_OUT_OF_MEMORY \/ e = SCL_ERR_SIZE_OVERFLOW) /\ c = ctx)).
Proof.
  intros G Hs Hw. unfold graph_traversal. rewrite (go_vertices _ _ G). pose proof (go_range _ _ G) as Hn.
  destruct (Z.geb_spec start (zlen adj)); [lia|]. unfold scl_calloc. destruct (calloc_fn _ _ _ _ _); [|wstep; auto].
  rewrite scl_mul_overflow_spec by (unfold is_u64; lia). destruct (Z.ltb_spec (zlen adj * 8) (2 ^ 64)).
  2:{ wstep. split; [simpl; lia|]. right. auto. }
  set (w1 := World _ _). pose proof (alloc_store al w1 (zlen adj) 8 ltac:(lia) ltac:(lia)) as Ha. apply wp_ok in Ha as ([b w2] & [= E] & Ha).
  rewrite E. destruct b as [b|].
  2:{ wstep. split; [simpl in *; lia|]. right. auto. }
  destruct Ha as [Hw2 Hb]. wstep.
  eapply (wp_flag_set _ (zlen adj) no_wall).
  { eexists. split; [done|]. split; [rewrite zlen_replicate; lia|]. intros v Hv. rewrite zlook_replicate.
    destruct (Z.leb_spec 0 v), (Z.ltb_spec v (Z.of_nat (Z.to_nat (zlen adj)))); try lia. done. }
  { done. }
  intros vis Hvis. wstep. eapply (wp_store_push _ (zlen adj) []); [exact Hb|done|change (zlen (@nil Z)) with 0; lia|]. intros st Hst.
  wstep. eapply Hw; [|exact Hst|].
  { eapply flags_ext; [exact Hvis|]. intros v _. unfold seen_flag. f_equal. symmetry. apply eq_bool_prop_intro.
    by rewrite bool_decide_spec, list_elem_of_singleton, Is_true_true, Z.eqb_eq. }
  intros vis' sb order Hwalk (vb & -> & _). wstep. simpl. split; [simpl in *; lia|]. left. split; [done|]. by exists order.
Qed.

(** C12. The callback traversals visit every vertex reachable from the start
    exactly once, the start first, whatever the callback; breadth-first visits
    them in the order of their distance in edges.  The marks and the queue or
    stack never overflow their [V] cells and are freed, and when they cannot be
    allocated no vertex is visited; an outlying start and [NULL] are refused. *)
Theorem graph_traversals_visit {C} (al : scl_allocator_t) `{!AllocatorOk al} (w : world) (g : scl_graph_t) (adj : adjacency)
  (start : Z) (visit : Z -> C -> C) (ctx : C) (G : graph_ok g adj) (Hs : 0 <= start) :
  (zlen adj <= start -> scl_graph_dfs al w (Some g) start (Some visit) ctx = Ok (SCL_ERR_INVALID_INDEX, ctx, w) /\
     scl_graph_bfs al w (Some g) start (Some visit) ctx = Ok (SCL_ERR_INVALID_INDEX, ctx, w)) /\
  (start < zlen adj ->
   (exists e c w', scl_graph_dfs al w (Some g) start (Some visit) ctx = Ok (e, c, w') /\ w_live w' = w_live w /\
      (e = SCL_OK /\ (exists order, c = fold_left (fun c v => visit v c) order ctx /\ NoDup order /\ head order = Some start /\
         forall x, x ∈ order <-> rtc (adj_edge adj) start x) \/
       (e = SCL_ERR_OUT_OF_MEMORY \/ e = SCL_ERR_SIZE_OVERFLOW) /\ c = ctx)) /\
   (exists e c w', scl_graph_bfs al w (Some g) start (Some visit) ctx = Ok (e, c, w') /\ w_live w' = w_live w /\
      (e = SCL_OK /\ (exists order, c = fold_left (fun c v => visit v c) order ctx /\ NoDup order /\ head order = Some start /\
         (forall x, x ∈ order <-> rtc (adj_edge adj) start x) /\ level_order adj no_wall start order) \/
       (e = SCL_ERR_OUT_OF_MEMORY \/ e = SCL_ERR_SIZE_OVERFLOW) /\ c = ctx))) /\
  (scl_graph_dfs al w (Some g) start (None : option (Z -> C -> C)) ctx = Ok (SCL_ERR_NULL_PTR, ctx, w) /\
   scl_graph_bfs al w None start (Some visit) ctx = Ok (SCL_ERR_NULL_PTR, ctx, w)).
Proof.
  pose proof (go_range _ _ G) as Hn.
  assert (forall x, 0 <= x < zlen adj -> size_inc x = Ok (x + 1)) as Hinc by (intros x Hx; unfold size_inc; rewrite u64_small by lia; done).
  split; [|split; [|done]].
  - intros Hge. unfold scl_graph_dfs, scl_graph_bfs, graph_traversal. rewrite (go_vertices _ _ G).
    destruct (Z.geb_spec start (zlen adj)); [done|lia].
  - intros Hlt. split.
    + destruct (proj1 (wp_ok _ _) (wp_graph_traversal al (dfs_loop (fun x => x) size_inc) w g adj start visit ctx _ G ltac:(lia)
        (dfs_walks g adj no_wall start _ _ visit G ltac:(lia) (fun _ _ => eq_refl) Hinc))) as ([[e c] w'] & E & Hw & H).
      exists e, c, w'. split; [exact E|]. split; [done|]. destruct H as [[-> (order & (N & Hh & Hr & _) & ->)]|H]; [left|by right].
      split; [done|]. exists order. split_and!; try done. intros x. by rewrite Hr, reaches_no_wall.
    + destruct (proj1 (wp_ok _ _) (wp_graph_traversal al (bfs_loop (fun x => x) size_inc) w g adj start visit ctx _ G ltac:(lia)
        (bfs_walks g adj no_wall start _ _ visit G ltac:(lia) (fun _ _ => eq_refl) Hinc))) as ([[e c] w'] & E & Hw & H).
      exists e, c, w'. split; [exact E|]. split; [done|]. destruct H as [[-> (order & (N & Hh & Hr & Hl) & ->)]|H]; [left|by right].
      split; [done|]. exists order. split_and!; try done. intros x. by rewrite Hr, reaches_no_wall.
Qed.

Lemma graph_traversals_visit_witness :
  exists order w', scl_graph_bfs small_allocator (World 0 0) (Some sample_graph) 0 (Some (fun v l => v :: l)) [] =
      Ok (SCL_OK, fold_left (fun c v => v :: c) order [], w') /\ (forall x, x ∈ order <-> rtc (adj_edge sample_adj) 0 x).
Proof.
  destruct (graph_traversals_visit small_allocator (World 0 0) sample_graph sample_adj 0 (fun v l => v :: l) [] sample_ok ltac:(lia)) as (_ & H & _).
  destruct (H ltac:(by vm_compute)) as [_ (e & c & w' & E & _ & [[-> (order & -> & _ & _ & Hr & _)]|[H' _]])]; [by exists order, w'|].
  exfalso. destruct H' as [->| ->]; vm_compute in E; discriminate E.
Defined.

(** The marking searches mark, besides what the caller's array marks already,
    exactly the vertices reachable from the start through unmarked ones; the
    queue or stack of [V] [int]s never overflows and is freed, on graphs whose
    vertices fit in an [int].  An array that cannot be allocated leaves the
    marks as they were, and bad arguments are refused. *)
Theorem marking_searches_mark (al : scl_allocator_t) `{!AllocatorOk al} (w : world) (g : scl_graph_t) (adj : adjacency)
  (start : Z) (visited : ptr bool) (B : Z -> bool) (G : graph_ok g adj) (Hn : zlen adj <= 2 ^ 31 - 1) (Hs : is_i32 start)
  (Hv : flags visited (zlen adj) B) :
  (start < 0 \/ zlen adj <= start ->
     scl_search_breadth_first_search al w (Some g) start visited = Ok (SCL_ERR_INVALID_INDEX, visited, w) /\
     scl_search_depth_first_search al w (Some g) start visited = Ok (SCL_ERR_INVALID_INDEX, visited, w)) /\
  (0 <= start < zlen adj -> forall search, search = scl_search_breadth_first_search al \/ search = scl_search_depth_first_search al ->
     exists e visited' w', search w (Some g) start visited = Ok (e, visited', w') /\ w_live w' = w_live w /\
       (e = SCL_OK /\ (exists B', flags visited' (zlen adj) B' /\
          forall x, 0 <= x < zlen adj -> (B' x = true <-> B x = true \/ reaches adj B start x)) \/
        (e = SCL_ERR_OUT_OF_MEMORY \/ e = SCL_ERR_SIZE_OVERFLOW) /\ visited' = visited)) /\
  scl_search_breadth_first_search al w None start visited = Ok (SCL_ERR_NULL_PTR, visited, w) /\
  scl_search_depth_first_search al w (Some g) start Null = Ok (SCL_ERR_NULL_PTR, Null, w).
Proof.
  pose proof (go_range _ _ G) as Hr. destruct (go_nodes _ _ G) as [nb Hnb]. unfold is_i32 in Hs.
  assert (exists b, visited = Ptr b) as [vb Evb] by (destruct Hv as (b & -> & _); by exists b).
  split; [|split; [|done]].
  - intros Hout. assert ((start <? 0) || (u64 start >=? zlen adj) = true) as E.
    { destruct (Z.ltb_spec start 0); [done|]. rewrite u64_small by lia. destruct (Z.geb_spec start (zlen adj)); [done|lia]. }
    unfold scl_search_breadth_first_search, scl_search_depth_first_search, marking_search. rewrite Evb, Hnb, (go_vertices _ _ G), E. done.
  - intros Hin search Hsearch.
    assert (exists P walk, search = marking_search al walk /\ loop_walks g adj B start P (fun _ u => u) (walk g (fun _ u => u))) as (P & walk & -> & Hw).
    { assert (forall x, 0 <= x < zlen adj -> i32 x = x) as Hc by (intros x Hx; apply i32_small; unfold is_i32; lia).
      assert (forall x, 0 <= x < zlen adj -> int_inc x = Ok (x + 1)) as Hi by (intros x Hx; unfold int_inc; bcase; [done|lia]).
      destruct Hsearch as [->| ->]; do 2 eexists; (split; [reflexivity|]).
      - apply (bfs_walks g adj B start i32 int_inc (fun _ u => u) G Hin Hc Hi).
      - apply (dfs_walks g adj B start i32 int_inc (fun _ u => u) G Hin Hc Hi). }
    enough (wp (marking_search al walk w (Some g) start visited) (fun '(e, visited', w') => w_live w' = w_live w /\
       (e = SCL_OK /\ (exists B', flags visited' (zlen adj) B' /\ forall x, 0 <= x < zlen adj -> (B' x = true <-> B x = true \/ reaches adj B start x)) \/
        (e = SCL_ERR_OUT_OF_MEMORY \/ e = SCL_ERR_SIZE_OVERFLOW) /\ visited' = visited))) as Hwp.
    { apply wp_ok in Hwp as ([[e v'] w'] & E & H). by exists e, v', w'. }
    unfold marking_search. rewrite Hnb, (go_vertices _ _ G), Evb. destruct (Z.ltb_spec start 0); [lia|]. rewrite u64_small by lia.
    destruct (Z.geb_spec start (zlen adj)); [lia|]. cbn [orb]. destruct (Z.eqb_spec (zlen adj) 0); [lia|]. rewrite <- Evb.
    rewrite scl_mul_overflow_spec by (unfold is_u64; lia). destruct (Z.ltb_spec (zlen adj * 4) (2 ^ 64)); [|lia].
    pose proof (alloc_store al w (zlen adj) 4 ltac:(lia) ltac:(lia)) as Ha. apply wp_ok in Ha as ([b w2] & [= E] & Ha).
    rewrite E. destruct b as [b|]; [|wstep; auto]. destruct Ha as [Hw2 Hb]. wstep. eapply wp_flag_set; [exact Hv|done|]. intros vis Hvis.
    wstep. eapply (wp_store_push _ (zlen adj) []); [exact Hb|done|change (zlen (@nil Z)) with 0; lia|]. intros st Hst.
    wstep. eapply Hw; [|exact Hst|].
    { eapply flags_ext; [exact Hvis|]. intros v _. unfold seen_flag. f_equal. symmetry. apply eq_bool_prop_intro.
      by rewrite bool_decide_spec, list_elem_of_singleton, Is_true_true, Z.eqb_eq. }
    intros vis' sb order (N & Hh & Hro & _) Hvis'. wstep. simpl. split; [lia|]. left. split; [done|]. eexists. split; [exact Hvis'|].
    intros x Hx. unfold seen_flag. by rewrite orb_true_iff, bool_decide_eq_true, Hro.
Qed.

Lemma marking_searches_mark_witness :
  exists visited w', scl_search_depth_first_search small_allocator (World 0 0) (Some sample_graph) 2 (Ptr [Some false; Some false; Some false]) =
      Ok (SCL_OK, visited, w') /\ exists B, flags visited 3 B /\ B 1 = true.
Proof.
  destruct (marking_searches_mark small_allocator (World 0 0) sample_graph sample_adj 2 (Ptr [Some false; Some false; Some false]) (fun _ => false) sample_ok)
    as (_ & H & _).
  - by vm_compute.
  - unfold is_i32. lia.
  - exists [Some false; Some false; Some false]. split; [done|]. split; [done|]. intros v Hv. change (zlen sample_adj) with 3 in Hv.
    assert (v = 0 \/ v = 1 \/ v = 2) as [->|[->| ->]] by lia; done.
  - destruct (H ltac:(by vm_compute) (scl_search_depth_first_search small_allocator)) as (e & v & w' & E & _ & H'); [by right|].
    destruct H' as [[-> (B & HB & Hr)]|[H' _]].
    + exists v, w'. split; [exact E|]. exists B. split; [exact HB|]. apply Hr; [by vm_compute|]. right. apply rtc_once. split; [|done].
      exists [(1, 3)], 3. split; [done|]. by left.
    + exfalso. destruct H' as [->| ->]; vm_compute in E; discriminate E.
Defined.

(** Marking on push keeps the stack bounded, but the order of visits is not
    depth-first: here 3 has an edge to 1, yet 4, which is no successor of 3, is
    visited between them. *)
Definition fan_graph : scl_graph_t :=
  Graph (Arr (Ptr [Some (Node 1); Some (Node SCL_GRAPH_NIL); Some (Node 3); Some (Node 4); Some (Node SCL_GRAPH_NIL)]) SIZEOF_NODE 5 5)
        (Arr (Ptr [Some (Edge 2 0 SCL_GRAPH_NIL); Some (Edge 1 0 0); Some (Edge 3 0 SCL_GRAPH_NIL); Some (Edge 4 0 2); Some (Edge 1 0 SCL_GRAPH_NIL)])
          SIZEOF_EDGE 5 5) 5 5 SCL_GRAPH_NIL.

Theorem dfs_not_depth_first :
  match scl_graph_dfs small_allocator (World 0 0) (Some fan_graph) 0 (Some (fun v l => l ++ [v])) [] with
  | Ok (e, order, _) => e = SCL_OK /\ order = [0; 2; 3; 4; 1]
  | _ => False
  end /\
  scl_graph_has_edge (Some fan_graph) 3 1 = Ok true /\ scl_graph_has_edge (Some fan_graph) 3 4 = Ok false.
Proof. by vm_compute. Qed.
