(* ===== verification/Walks.v ===== *)
(** Weighted walks in a graph given by adjacency lists: their targets and
    costs, negative cycles, and the removal of cycles. *)

From S2P Require Import Prelude Graph.
#[local] Open Scope Z_scope.

(** An edge from [u] to [v] of weight [w]. *)
Definition arc (adj : adjacency) (u v w : Z) : Prop := exists row, zlook adj u = Some row /\ (v, w) ∈ row.

(** A walk from [s] is the list of the targets and weights of its edges. *)
Fixpoint trail (E : Z -> Z -> Z -> Prop) (s : Z) (l : list (Z * Z)) : Prop :=
  match l with [] => True | (v, w) :: l => E s v w /\ trail E v l end.
Fixpoint dest (s : Z) (l : list (Z * Z)) : Z := match l with [] => s | (v, _) :: l => dest v l end.
Fixpoint cost (l : list (Z * Z)) : Z := match l with [] => 0 | (_, w) :: l => w + cost l end.

Section Trails.
Context (E : Z -> Z -> Z -> Prop).
Implicit Types (l : list (Z * Z)) (s : Z).

Lemma trail_app s l l' : trail E s (l ++ l') <-> trail E s l /\ trail E (dest s l) l'.
Proof. revert s. induction l as [|[v w] l IH]; intros s; simpl; [tauto|]. rewrite IH. tauto. Qed.

Lemma dest_app s l l' : dest s (l ++ l') = dest (dest s l) l'.
Proof. revert s. induction l as [|[v w] l IH]; intros s; simpl; auto. Qed.

Lemma cost_app l l' : cost (l ++ l') = cost l + cost l'.
Proof. induction l as [|[v w] l IH]; simpl; lia. Qed.

Lemma dest_snoc s l v w : dest s (l ++ [(v, w)]) = v.
Proof. by rewrite dest_app. Qed.

Lemma cost_snoc l v w : cost (l ++ [(v, w)]) = cost l + w.
Proof. rewrite cost_app. simpl. lia. Qed.

Lemma trail_snoc s l v w : trail E s (l ++ [(v, w)]) <-> trail E s l /\ E (dest s l) v w.
Proof. rewrite trail_app. simpl. tauto. Qed.

(** No closed walk that starts where a walk from [s] leads has negative cost. *)
Definition no_negative_cycle s : Prop :=
  forall l c, trail E s l -> trail E (dest s l) c -> dest (dest s l) c = dest s l -> 0 <= cost c.

(** Weights bound costs. *)
Lemma cost_bound W s l : (forall u v w, E u v w -> - W <= w) -> 0 <= W -> trail E s l -> - (W * zlen l) <= cost l.
Proof.
  intros HW H0. revert s. induction l as [|[v w] l IH]; intros s; simpl; [intros _; change (zlen []) with 0; lia|].
  intros [He Ht]. rewrite zlen_cons. pose proof (HW _ _ _ He). pose proof (IH _ Ht). nia.
Qed.
End Trails.

(** A list with a repetition. *)
Lemma repeated_split (l : list Z) : NoDup l \/ exists x l1 l2 l3, l = l1 ++ x :: l2 ++ x :: l3.
Proof.
  induction l as [|y l IH]; [left; constructor|]. destruct (decide (y ∈ l)) as [Hy|Hy].
  - right. apply list_elem_of_split in Hy as (l2 & l3 & ->). by exists y, [], l2, l3.
  - destruct IH as [N|(x & l1 & l2 & l3 & ->)]; [left; by constructor|right]. by exists x, (y :: l1), l2, l3.
Qed.

(** The vertices of a walk are its start and the targets of its edges. *)
Lemma fmap_fst_split (l : list (Z * Z)) l1 x l2 : l.*1 = l1 ++ x :: l2 -> exists k1 w k2, l = k1 ++ (x, w) :: k2 /\ k1.*1 = l1 /\ k2.*1 = l2.
Proof.
  intros E. apply fmap_app_inv in E as (k1 & k & -> & E2 & ->). destruct k as [|[y w] k2]; simplify_eq/=. by exists k1, w, k2.
Qed.

Lemma repeated_vertex s (l : list (Z * Z)) : NoDup (s :: l.*1) \/ exists k1 c k3, l = k1 ++ c ++ k3 /\ c <> [] /\ dest (dest s k1) c = dest s k1.
Proof.
  destruct (repeated_split (s :: l.*1)) as [N|(x & l1 & l2 & l3 & E)]; [by left|right]. destruct l1 as [|y l1]; simpl in E.
  - injection E as -> E. apply fmap_fst_split in E as (k1 & w & k2 & -> & _ & _). exists [], (k1 ++ [(x, w)]), k2.
    rewrite dest_snoc, <- app_assoc. split; [done|]. split; [by destruct k1|done].
  - injection E as -> E. apply fmap_fst_split in E as (k1 & w & k & -> & _ & E). apply fmap_fst_split in E as (k2 & w' & k3 & -> & _ & _).
    exists (k1 ++ [(x, w)]), (k2 ++ [(x, w')]), k3. rewrite !dest_snoc, <- !app_assoc. split; [done|]. split; [by destruct k2|done].
Qed.

(** Every walk can be replaced by one of fewer edges than there are vertices,
    which costs no more when there are no negative cycles. *)
Lemma short_trail E s n l :
  (forall u v w, E u v w -> 0 <= v < n) -> 0 <= s < n -> trail E s l ->
  exists l', trail E s l' /\ dest s l' = dest s l /\ zlen l' < n /\ (no_negative_cycle E s -> cost l' <= cost l).
Proof.
  intros Hr Hs. remember (length l) as m eqn:Hm. assert (length l <= m)%nat as Hle by lia. clear Hm. revert l Hle.
  induction m as [|m IH]; intros l Hle Ht.
  - exists l. destruct l; [|simpl in Hle; lia]. by split_and!; [| |change (zlen []) with 0; lia|].
  - destruct (repeated_vertex s l) as [N|(k1 & c & k3 & -> & Hc & Ed)].
    + exists l. split_and!; [done|done| |done]. assert (zlen (s :: l.*1) <= Z.max 0 n) as H.
      { apply nodup_length; [done|]. intros i [->|Hi]%elem_of_cons; [done|]. clear -Hr Ht Hi. revert s Ht.
        induction l as [|[v w] l IH]; intros s Ht; simpl in *; [by apply elem_of_nil in Hi|]. destruct Ht as [He Ht].
        apply elem_of_cons in Hi as [->|Hi]; [by eapply Hr|by eapply IH]. }
      rewrite zlen_cons in H. unfold zlen in *. rewrite length_fmap in H. lia.
    + apply trail_app in Ht as [H1 Ht]. apply trail_app in Ht as [H2 H3]. rewrite Ed in H3.
      destruct (IH (k1 ++ k3)) as (l' & Ht' & Hd & Hlen & Hcost).
      * rewrite !length_app in *. destruct c; [done|]. simpl in Hle. lia.
      * by apply trail_app.
      * exists l'. split; [done|]. rewrite Hd, !dest_app, Ed. split; [done|]. split; [done|]. intros Hneg. specialize (Hcost Hneg).
        rewrite !cost_app in *. pose proof (Hneg k1 c H1 H2 Ed). lia.
Qed.

Lemma cost_upper E W s l : (forall u v w, E u v w -> w <= W) -> 0 <= W -> trail E s l -> cost l <= W * zlen l.
Proof.
  intros HW H0. revert s. induction l as [|[v w] l IH]; intros s; simpl; [intros _; change (zlen []) with 0; lia|].
  intros [He Ht]. rewrite zlen_cons. pose proof (HW _ _ _ He). pose proof (IH _ Ht). nia.
Qed.

(** What shortest-path distances from [s] are, with [inf] where there is no
    walk. *)
Definition shortest (E : Z -> Z -> Z -> Prop) (inf s n : Z) (d : Z -> Z) : Prop :=
  forall v, 0 <= v < n ->
    (d v = inf /\ (forall l, trail E s l -> dest s l <> v)) \/
    (d v <> inf /\ (exists l, trail E s l /\ dest s l = v /\ cost l = d v) /\ forall l, trail E s l -> dest s l = v -> d v <= cost l).

Lemma arc_source adj u v w : arc adj u v w -> 0 <= u < zlen adj.
Proof. intros (row & H & _). by eapply zlook_Some. Qed.

Lemma arc_target adj u v w : targets_ok adj -> arc adj u v w -> 0 <= v < zlen adj.
Proof. intros T (row & H & Hin). by eapply T. Qed.
