(* ===== verification/BellmanFord.v ===== *)
(** Single-source shortest paths with negative weights:
    [scl_search_bellman_ford] ([libs/search/bellman_ford]). *)

From S2P Require Import Prelude Core Refine Containers Array Graph Walks.
#[local] Open Scope Z_scope.

Definition INT64_MAX : Z := 2 ^ 63 - 1.

(** [__builtin_add_overflow] at [int64_t]. *)
Definition add_overflow_i64 (a b : Z) : option Z :=
  if (- 2 ^ 63 <=? a + b) && (a + b <=? INT64_MAX) then Some (a + b) else None.

(** [dist[i] = INT64_MAX; prev[i] = -1] for every vertex. *)
Definition fill_unreached (n : Z) (dist prev : ptr Z) : res (ptr Z * ptr Z) :=
  zfor 0 n
    (fun i '(dist, prev) =>
       dist ← set_elem dist i INT64_MAX;
       prev ← set_elem prev i (-1);
       mret (dist, prev)) (dist, prev).

(** Relaxing the edges of [u]. *)
Definition relax_edges (g : scl_graph_t) (u : Z) (s : ptr Z * ptr Z * bool) : res (ptr Z * ptr Z * bool) :=
  r ← for_edges (R := Empty_set) g u
    (fun ed '(dist, prev, updated) =>
       du ← get_elem dist u;
       match add_overflow_i64 du (ed_weight ed) with
       | Some nd =>
           dt ← get_elem dist (ed_to ed);
           if nd <? dt then
             dist ← set_elem dist (ed_to ed) nd;
             prev ← set_elem prev (ed_to ed) (i32 u);
             mret (inl (dist, prev, true))
           else mret (inl (dist, prev, updated))
       | None => mret (inl (dist, prev, updated))
       end) s;
  match r with inl s => mret s | inr e => match e : Empty_set with end end.

Definition relax_all (g : scl_graph_t) (n : Z) (dist prev : ptr Z) : res (ptr Z * ptr Z * bool) :=
  zfor 0 n
    (fun u '(dist, prev, updated) =>
       du ← get_elem dist u;
       if du =? INT64_MAX then mret (dist, prev, updated)
       else relax_edges g u (dist, prev, updated)) (dist, prev, false).

(** The last loop: is some edge still relaxable? *)
Definition still_relaxable (g : scl_graph_t) (n : Z) (dist : ptr Z) : res bool :=
  r ← zfor_ret 0 n
    (fun u s =>
       du ← get_elem dist u;
       if du =? INT64_MAX then mret (inl s)
       else
         for_edges g u
           (fun ed s =>
              du ← get_elem dist u;
              match add_overflow_i64 du (ed_weight ed) with
              | Some nd =>
                  dt ← get_elem dist (ed_to ed);
                  if nd <? dt then mret (inr tt) else mret (inl s)
              | None => mret (inl s)
              end) s) tt;
  mret (match r with inl _ => false | inr _ => true end).

Definition scl_search_bellman_ford (graph : option scl_graph_t) (start : Z) (dist prev : ptr Z)
    : res (scl_error_t * ptr Z * ptr Z) :=
  match graph, dist, prev with
  | None, _, _ | _, Null, _ | _, _, Null => mret (SCL_ERR_NULL_PTR, dist, prev)
  | Some g, _, _ =>
      match a_data (g_nodes g) with
      | Null => mret (SCL_ERR_INVALID_ARG, dist, prev)
      | _ =>
          let n := g_vertex_count g in
          if (start <? 0) || (u64 start >=? n) then mret (SCL_ERR_INVALID_INDEX, dist, prev)
          else if n =? 0 then mret (SCL_ERR_EMPTY, dist, prev)
          else
            '(dist, prev) ← fill_unreached n dist prev;
            dist ← set_elem dist start 0;
            r ← zfor_ret 0 (n - 1)
              (fun _ '(dist, prev) =>
                 '(dist, prev, updated) ← relax_all g n dist prev;
                 if negb updated then mret (inr (dist, prev)) else mret (inl (dist, prev))) (dist, prev);
            let '(dist, prev) := match r with inl s => s | inr s => s end in
            b ← still_relaxable g n dist;
            if b : bool then mret (SCL_ERR_INVALID_STATE, dist, prev) else mret (SCL_OK, dist, prev)
      end
  end.

(** * The functions computed

    Distances and predecessors as functions on vertices. *)
Definition update (f : Z -> Z) (x y : Z) : Z -> Z := fun z => if z =? x then y else f z.

Record labels : Type := Labels { lb_dist : Z -> Z; lb_prev : Z -> Z; lb_upd : bool }.

Definition relax (s : labels) (a : Z * Z * Z) : labels :=
  let '(u, t, w) := a in
  if lb_dist s u =? INT64_MAX then s
  else match add_overflow_i64 (lb_dist s u) w with
       | Some nd => if nd <? lb_dist s t then Labels (update (lb_dist s) t nd) (update (lb_prev s) t u) true else s
       | None => s
       end.

Definition row_arcs (u : Z) (row : list (Z * Z)) : list (Z * Z * Z) := (fun '(t, w) => (u, t, w)) <$> row.

(** The edges of the vertices from [u] on. *)
Fixpoint arcs_from (u : Z) (rows : adjacency) : list (Z * Z * Z) :=
  match rows with [] => [] | row :: rows => row_arcs u row ++ arcs_from (u + 1) rows end.
Definition arcs (adj : adjacency) : list (Z * Z * Z) := arcs_from 0 adj.

(** [ints p n f]: the array [p] of [n] cells holds [f]. *)
Definition ints (p : ptr Z) (n : Z) (f : Z -> Z) : Prop :=
  exists b, p = Ptr b /\ zlen b = n /\ forall v, 0 <= v < n -> zlook b v = Some (Some (f v)).

Lemma wp_ints_get p n f v (Q : Z -> Prop) : ints p n f -> 0 <= v < n -> Q (f v) -> wp (get_elem p v) Q.
Proof. intros (b & -> & Hb & H) Hv HQ. eapply wp_get_elem; [by apply H|done]. Qed.

Lemma wp_ints_set p n f v x (Q : ptr Z -> Prop) :
  ints p n f -> 0 <= v < n -> (forall p', ints p' n (update f v x) -> Q p') -> wp (set_elem p v x) Q.
Proof.
  intros (b & -> & Hb & H) Hv HQ. apply wp_set_elem; [lia|]. apply HQ. eexists. split; [done|]. split; [by rewrite zlen_zupd|].
  intros z Hz. unfold update. rewrite zlook_zupd. destruct (Z.eqb_spec z v) as [->|].
  - by rewrite decide_True by lia.
  - rewrite decide_False by lia. by apply H.
Qed.

Lemma elem_row_arcs u row a : a ∈ row_arcs u row <-> exists t w, a = (u, t, w) /\ (t, w) ∈ row.
Proof. unfold row_arcs. rewrite list_elem_of_fmap. split; [intros ([t w] & -> & H); eauto|intros (t & w & -> & H); by exists (t, w)]. Qed.

Lemma elem_arcs_from u0 rows u t w : (u, t, w) ∈ arcs_from u0 rows <-> exists row, zlook rows (u - u0) = Some row /\ (t, w) ∈ row.
Proof.
  revert u0. induction rows as [|row rows IH]; intros u0; simpl.
  - split; [by intros ?%elem_of_nil|]. intros (row & H & _). by rewrite zlook_nil in H.
  - rewrite elem_of_app, IH, elem_row_arcs. split.
    + intros [(t' & w' & [= -> -> ->] & H)|(r & Hr & H)].
      * exists row. by rewrite Z.sub_diag.
      * exists r. split; [|done]. rewrite zlook_cons. pose proof (zlook_Some _ _ _ Hr). destruct (Z.eqb_spec (u - u0) 0); [lia|].
        rewrite <- Hr. f_equal. lia.
    + intros (r & Hr & H). rewrite zlook_cons in Hr. destruct (Z.eqb_spec (u - u0) 0) as [E|E].
      * injection Hr as ->. assert (u = u0) as -> by lia. left. by exists t, w.
      * right. exists r. split; [|done]. rewrite <- Hr. f_equal. lia.
Qed.

Lemma elem_arcs adj u t w : (u, t, w) ∈ arcs adj <-> arc adj u t w.
Proof. unfold arcs, arc. rewrite elem_arcs_from. by rewrite Z.sub_0_r. Qed.

Lemma arcs_from_app u l l' : arcs_from u (l ++ l') = arcs_from u l ++ arcs_from (u + zlen l) l'.
Proof.
  revert u. induction l as [|row l IH]; intros u; simpl.
  - change (zlen []) with 0. by rewrite Z.add_0_r.
  - rewrite IH, <- app_assoc, zlen_cons. do 3 f_equal. lia.
Qed.

Lemma length_arcs_from u rows : zlen (arcs_from u rows) = edge_total rows.
Proof.
  revert u. induction rows as [|row rows IH]; intros u; [done|]. simpl. unfold edge_total in *. simpl. rewrite !zlen_app, IH.
  unfold zlen, row_arcs. rewrite length_fmap. lia.
Qed.

(** ** The loops compute the folds *)
Definition capped (d : Z -> Z) : Prop := forall v, d v <= INT64_MAX.

Lemma relax_capped s a : capped (lb_dist s) -> capped (lb_dist (relax s a)).
Proof.
  intros H. destruct a as [[u t] w]. unfold relax. destruct (lb_dist s u =? INT64_MAX); [done|].
  destruct (add_overflow_i64 (lb_dist s u) w) as [nd|]; [|done]. destruct (Z.ltb_spec nd (lb_dist s t)); [|done].
  intros v. simpl. unfold update. pose proof (H v). pose proof (H t). bcase; lia.
Qed.

(** A finite distance stays finite. *)
Lemma relax_finite s a v : capped (lb_dist s) -> lb_dist s v <> INT64_MAX -> lb_dist (relax s a) v <> INT64_MAX.
Proof.
  intros H Hv. destruct a as [[u t] w]. unfold relax. destruct (lb_dist s u =? INT64_MAX); [done|].
  destruct (add_overflow_i64 (lb_dist s u) w) as [nd|]; [|done]. destruct (Z.ltb_spec nd (lb_dist s t)); [|done].
  simpl. unfold update. pose proof (H t). bcase; [lia|done].
Qed.

Definition holds_labels (n : Z) (s : ptr Z * ptr Z * bool) (l : labels) : Prop :=
  let '(dist, prev, upd) := s in ints dist n (lb_dist l) /\ ints prev n (lb_prev l) /\ upd = lb_upd l.

Section Loops.
Context (g : scl_graph_t) (adj : adjacency) (G : graph_ok g adj) (Hn : zlen adj <= 2 ^ 31).

Lemma wp_relax_edges u row s l (Q : ptr Z * ptr Z * bool -> Prop) :
  zlook adj u = Some row -> holds_labels (zlen adj) s l -> capped (lb_dist l) -> lb_dist l u <> INT64_MAX ->
  (forall s', holds_labels (zlen adj) s' (fold_left relax (row_arcs u row) l) -> Q s') -> wp (relax_edges g u s) Q.
Proof.
  intros Hu Hs Hc Hf HQ. pose proof (zlook_Some _ _ _ Hu) as Hur. unfold relax_edges. wstep.
  eapply (wp_for_edges g adj u row _ _ (fun seen s => let l' := fold_left relax (row_arcs u seen) l in
    holds_labels (zlen adj) s l' /\ capped (lb_dist l') /\ lb_dist l' u <> INT64_MAX)); [done|done|done| |].
  - intros seen t w nx rest [[dist prev] upd] -> ((Hd & Hp & ->) & Hc' & Hf'). cbn [ed_to ed_weight].
    assert (0 <= t < zlen adj) as Ht by (eapply (go_targets _ _ G); [done|]; apply elem_of_app; right; by left).
    unfold row_arcs. rewrite fmap_app, fold_left_app. fold (row_arcs u seen). cbn [fmap list_fmap fold_left].
    set (l' := fold_left relax (row_arcs u seen) l) in *. clearbody l'.
    assert (forall s', holds_labels (zlen adj) s' (relax l' (u, t, w)) -> holds_labels (zlen adj) s' (relax l' (u, t, w)) /\
      capped (lb_dist (relax l' (u, t, w))) /\ lb_dist (relax l' (u, t, w)) u <> INT64_MAX) as Hall.
    { intros s' Hs'. split; [done|]. split; [by apply relax_capped|by apply relax_finite]. }
    remember (relax l' (u, t, w)) as l2 eqn:El. unfold relax in El. destruct (Z.eqb_spec (lb_dist l' u) INT64_MAX); [done|].
    wstep. eapply wp_ints_get; [done|done|]. destruct (add_overflow_i64 (lb_dist l' u) w) as [nd|]; [|wstep; apply Hall; by rewrite El].
    wstep. eapply wp_ints_get; [done|done|]. destruct (nd <? lb_dist l' t); [|wstep; apply Hall; by rewrite El].
    wstep. eapply wp_ints_set; [done|done|]. intros dist' Hd'. wstep. rewrite i32_small by (unfold is_i32; lia).
    eapply wp_ints_set; [done|done|]. intros prev' Hp'. wstep. apply Hall. by rewrite El.
  - intros s' (Hs' & _ & _). wstep. by apply HQ.
Qed.

Lemma relax_row_unreached u row l : lb_dist l u = INT64_MAX -> fold_left relax (row_arcs u row) l = l.
Proof.
  intros H. induction row as [|[t w] row IH]; [done|]. unfold row_arcs in *. cbn [fmap list_fmap fold_left].
  unfold relax at 2. rewrite H, Z.eqb_refl. done.
Qed.

Lemma fold_capped as' l : capped (lb_dist l) -> capped (lb_dist (fold_left relax as' l)).
Proof. revert l. induction as' as [|a as' IH]; intros l H; [done|]. simpl. by apply IH, relax_capped. Qed.

Lemma wp_relax_all dist prev d p (Q : ptr Z * ptr Z * bool -> Prop) :
  ints dist (zlen adj) d -> ints prev (zlen adj) p -> capped d ->
  (forall s', holds_labels (zlen adj) s' (fold_left relax (arcs adj) (Labels d p false)) -> Q s') ->
  wp (relax_all g (zlen adj) dist prev) Q.
Proof.
  intros Hd Hp Hc HQ. unfold relax_all. pose proof (zlen_nonneg adj).
  apply (wp_zfor (fun i s => holds_labels (zlen adj) s (fold_left relax (arcs_from 0 (take (Z.to_nat i) adj)) (Labels d p false)))).
  - done.
  - intros u [[dist' prev'] upd] Hu Hs. destruct (zlook_lt adj u Hu) as [row Hrow].
    assert (arcs_from 0 (take (Z.to_nat (u + 1)) adj) = arcs_from 0 (take (Z.to_nat u) adj) ++ row_arcs u row) as E.
    { replace (Z.to_nat (u + 1)) with (S (Z.to_nat u)) by lia. unfold zlook in Hrow. destruct (Z.leb_spec 0 u); [|lia].
      rewrite (take_S_r _ _ row) by done. rewrite arcs_from_app. simpl. rewrite app_nil_r, zlen_take by lia. do 2 f_equal. lia. }
    rewrite E, fold_left_app. set (l := fold_left relax (arcs_from 0 (take (Z.to_nat u) adj)) _) in *.
    assert (capped (lb_dist l)) as Hcl by by apply fold_capped. clearbody l. destruct Hs as (Hd' & Hp' & ->).
    wstep. eapply wp_ints_get; [done|done|]. destruct (Z.eqb_spec (lb_dist l u) INT64_MAX).
    + wstep. by rewrite relax_row_unreached.
    + eapply wp_relax_edges; [done|by split|done|done|]. auto.
  - intros s Hs. apply HQ. rewrite Z.max_r in Hs by lia. rewrite take_ge in Hs by (unfold zlen; lia). done.
Qed.

(** An edge that could still be relaxed. *)
Definition improvable (d : Z -> Z) (a : Z * Z * Z) : Prop :=
  let '(u, t, w) := a in d u <> INT64_MAX /\ - 2 ^ 63 <= d u + w <= INT64_MAX /\ d u + w < d t.

Lemma wp_still_relaxable dist d (Q : bool -> Prop) :
  ints dist (zlen adj) d ->
  (forall b : bool, (b = true -> exists u t w, arc adj u t w /\ improvable d (u, t, w)) ->
     (b = false -> forall u t w, arc adj u t w -> ~ improvable d (u, t, w)) -> Q b) -> wp (still_relaxable g (zlen adj) dist) Q.
Proof.
  intros Hd HQ. unfold still_relaxable. pose proof (zlen_nonneg adj). wstep.
  apply (wp_zfor_ret (fun i _ => forall u t w, u < i -> arc adj u t w -> ~ improvable d (u, t, w))).
  - intros u t w Hu Ha%arc_source. lia.
  - intros u [] Hu Hno. destruct (zlook_lt adj u Hu) as [row Hrow]. wstep. eapply wp_ints_get; [done|done|].
    destruct (Z.eqb_spec (d u) INT64_MAX) as [E|E].
    + wstep. intros u' t w Hu' Ha. destruct (decide (u' = u)) as [->|]; [by intros [? _]|]. apply Hno; [lia|done].
    + eapply (wp_for_edges g adj u row _ _ (fun seen _ => forall t w, (t, w) ∈ seen -> ~ improvable d (u, t, w))); [done|done| | |].
      * by intros t w ?%elem_of_nil.
      * intros seen t w nx rest [] -> Hseen. cbn [ed_to ed_weight].
        assert (0 <= t < zlen adj) as Ht by (eapply (go_targets _ _ G); [done|]; apply elem_of_app; right; by left).
        assert (~ improvable d (u, t, w) -> forall t' w', (t', w') ∈ seen ++ [(t, w)] -> ~ improvable d (u, t', w')) as Hnext.
        { intros Hnot t' w' [Hin|Hin%list_elem_of_singleton]%elem_of_app; [by apply Hseen|by simplify_eq]. }
        wstep. eapply wp_ints_get; [done|done|]. unfold add_overflow_i64.
        destruct (Z.leb_spec (- 2 ^ 63) (d u + w)), (Z.leb_spec (d u + w) INT64_MAX); cbn [andb];
          try (wstep; apply Hnext; unfold improvable; lia).
        wstep. eapply wp_ints_get; [done|done|]. destruct (Z.ltb_spec (d u + w) (d t)); wstep.
        -- wstep. apply HQ; [|done]. intros _. exists u, t, w. split; [|by split].
           eexists. split; [done|]. apply elem_of_app. right. by left.
        -- apply Hnext. unfold improvable. lia.
      * intros [] Hseen u' t w Hu' Ha. destruct (decide (u' = u)) as [->|]; [|apply Hno; [lia|done]].
        destruct Ha as (row' & Hrow' & Hin). simplify_eq. by apply Hseen.
  - intros [] Hno. wstep. apply HQ; [done|]. intros _ u t w Ha. apply Hno; [|done]. apply arc_source in Ha. lia.
Qed.
End Loops.

(** ** What relaxation keeps *)
Section Relaxation.
Context (adj : adjacency) (s : Z).
Notation E := (arc adj).

(** Every finite distance is the cost of a walk, and every predecessor the
    source of an edge that explains it. *)
Record sound (d p : Z -> Z) : Prop := Sound {
  so_capped : capped d;
  so_walk : forall v, d v <> INT64_MAX -> exists l, trail E s l /\ dest s l = v /\ cost l = d v;
  so_start : d s <= 0;
  so_prev : forall v, (p v = -1 /\ (d v = INT64_MAX \/ v = s /\ d v = 0)) \/
    exists w, E (p v) v w /\ d (p v) <> INT64_MAX /\ d (p v) + w <= d v
}.

Lemma sound_start : sound (update (fun _ => INT64_MAX) s 0) (fun _ => -1).
Proof.
  split; unfold update.
  - intros v. unfold INT64_MAX. bcase; lia.
  - intros v. destruct (Z.eqb_spec v s) as [->|]; [|done]. intros _. by exists [].
  - rewrite Z.eqb_refl. lia.
  - intros v. left. split; [done|]. destruct (Z.eqb_spec v s); auto.
Qed.

Lemma relax_le l a v : lb_dist (relax l a) v <= lb_dist l v.
Proof.
  destruct a as [[u t] w]. unfold relax. destruct (lb_dist l u =? INT64_MAX); [lia|].
  destruct (add_overflow_i64 (lb_dist l u) w) as [nd|]; [|lia]. destruct (Z.ltb_spec nd (lb_dist l t)); [|lia].
  simpl. unfold update. bcase; subst; lia.
Qed.

Lemma relax_sound l u t w : E u t w -> sound (lb_dist l) (lb_prev l) -> sound (lb_dist (relax l (u, t, w))) (lb_prev (relax l (u, t, w))).
Proof.
  intros Ha S. pose proof (relax_capped l (u, t, w) (so_capped _ _ S)) as Hc. pose proof (fun v => relax_le l (u, t, w) v) as Hle.
  pose proof (fun v => relax_finite l (u, t, w) v (so_capped _ _ S)) as Hf. revert Hc Hle Hf.
  unfold relax. destruct (Z.eqb_spec (lb_dist l u) INT64_MAX) as [|Hu]; [done|].
  unfold add_overflow_i64. destruct ((- 2 ^ 63 <=? lb_dist l u + w) && (lb_dist l u + w <=? INT64_MAX)); [|done].
  destruct (Z.ltb_spec (lb_dist l u + w) (lb_dist l t)) as [Hlt|]; [|done]. cbn [lb_dist lb_prev]. intros Hc Hle Hf. split.
  - done.
  - intros v. unfold update. destruct (Z.eqb_spec v t) as [->|]; [|apply S]. intros _.
    destruct (so_walk _ _ S u Hu) as (k & Hk & Ed & Ec). exists (k ++ [(t, w)]). rewrite trail_snoc, dest_snoc, cost_snoc, Ed. by split_and!; [| | |lia].
  - pose proof (Hle s). pose proof (so_start _ _ S). lia.
  - intros v. change (update (lb_prev l) t u v) with (if v =? t then u else lb_prev l v).
    destruct (Z.eqb_spec v t) as [->|Hv].
    + right. exists w. split; [done|]. split; [by apply Hf|]. pose proof (Hle u).
      assert (update (lb_dist l) t (lb_dist l u + w) t = lb_dist l u + w) as -> by (unfold update; by rewrite Z.eqb_refl). lia.
    + assert (update (lb_dist l) t (lb_dist l u + w) v = lb_dist l v) as -> by (unfold update; by destruct (Z.eqb_spec v t)).
      destruct (so_prev _ _ S v) as [[Hp Hd]|(w' & Hw' & Hp & Hd)]; [by left|right]. exists w'.
      split; [done|]. split; [by apply Hf|]. pose proof (Hle (lb_prev l v)). lia.
Qed.

(** Distances go down by at most [2 ^ 31] per relaxation. *)
Definition above (k : Z) (d : Z -> Z) : Prop := forall v, d v <> INT64_MAX -> - (k * 2 ^ 31) <= d v.

Lemma relax_above k l u t w : - 2 ^ 31 <= w -> 0 <= k -> above k (lb_dist l) -> above (k + 1) (lb_dist (relax l (u, t, w))).
Proof.
  intros Hw Hk H v. unfold relax. pose proof (H v) as Hv. destruct (Z.eqb_spec (lb_dist l u) INT64_MAX) as [|Hu]; [intros; lia|].
  unfold add_overflow_i64. destruct ((- 2 ^ 63 <=? lb_dist l u + w) && (lb_dist l u + w <=? INT64_MAX)); [|intros; lia].
  destruct (Z.ltb_spec (lb_dist l u + w) (lb_dist l t)) as [Hlt|]; [|intros; lia]. simpl. unfold update.
  pose proof (H u Hu). bcase; intros; lia.
Qed.

Context (Hw : forall u v w, E u v w -> is_i32 w) (Hn : zlen adj <= 2 ^ 31) (Ht : targets_ok adj) (Hs : 0 <= s < zlen adj).

(** No relaxation is skipped for underflow: there is no negative cycle, or the
    number [k] of relaxations so far is small. *)
Definition deep_enough (k : Z) : Prop := no_negative_cycle E s \/ k + 1 <= 2 ^ 32.

Lemma no_underflow k d p u t w : deep_enough k -> sound d p -> above k d -> d u <> INT64_MAX -> E u t w -> - 2 ^ 63 <= d u + w.
Proof.
  intros Hk S Ha Hu He. pose proof (Hw _ _ _ He) as Hwi. unfold is_i32 in Hwi. destruct Hk as [Hneg|Hk].
  - destruct (so_walk _ _ S u Hu) as (l & Hl & Ed & Ec).
    destruct (short_trail E s (zlen adj) l (fun _ _ _ => arc_target _ _ _ _ Ht) Hs Hl) as (l' & Hl' & Ed' & Hlen & Ec'). specialize (Ec' Hneg).
    pose proof (cost_bound E (2 ^ 31) s l' (fun u v w H => proj1 (Hw u v w H)) ltac:(lia) Hl') as Hb. lia.
  - pose proof (Ha u Hu). lia.
Qed.

Lemma relax_done l k u t w : deep_enough k -> sound (lb_dist l) (lb_prev l) -> above k (lb_dist l) -> E u t w -> lb_dist l u <> INT64_MAX ->
  lb_dist (relax l (u, t, w)) t <= lb_dist l u + w.
Proof.
  intros Hk S Ha He Hu. pose proof (no_underflow _ _ _ _ _ _ Hk S Ha Hu He). unfold relax. destruct (Z.eqb_spec (lb_dist l u) INT64_MAX); [done|].
  pose proof (so_capped _ _ S t). unfold add_overflow_i64.
  destruct (Z.leb_spec (- 2 ^ 63) (lb_dist l u + w)), (Z.leb_spec (lb_dist l u + w) INT64_MAX); cbn [andb]; [|lia..].
  destruct (Z.ltb_spec (lb_dist l u + w) (lb_dist l t)); [|lia]. simpl. unfold update. rewrite Z.eqb_refl. lia.
Qed.

(** A sequence of relaxations: everything above, and, when nothing was updated,
    nothing changed. *)
Lemma relax_all_spec as' l k :
  (forall u t w, (u, t, w) ∈ as' -> E u t w) -> sound (lb_dist l) (lb_prev l) -> above k (lb_dist l) -> 0 <= k ->
  let l' := fold_left relax as' l in
  sound (lb_dist l') (lb_prev l') /\ above (k + zlen as') (lb_dist l') /\ (forall v, lb_dist l' v <= lb_dist l v) /\
  (deep_enough (k + zlen as') -> forall u t w, (u, t, w) ∈ as' -> lb_dist l u <> INT64_MAX -> lb_dist l' t <= lb_dist l u + w) /\
  (lb_upd l' = false -> l' = l).
Proof.
  revert l k. induction as' as [|[[u t] w] as' IH]; intros l k Has S Ha Hk; cbn [fold_left].
  - change (zlen []) with 0. rewrite Z.add_0_r. split_and!; try done. by intros _ u t w ?%elem_of_nil.
  - assert (E u t w) as He by (apply Has; by left). pose proof (Hw _ _ _ He) as [Hwi _].
    destruct (IH (relax l (u, t, w)) (k + 1)) as (S' & Ha' & Hle & Hd & Hu').
    + intros u' t' w' Hin. apply Has. by right.
    + by apply relax_sound.
    + by apply relax_above.
    + lia.
    + rewrite zlen_cons. replace (k + (zlen as' + 1)) with (k + 1 + zlen as') by lia. split_and!; try done.
      * intros v. pose proof (relax_le l (u, t, w) v). pose proof (Hle v). lia.
      * intros Hdeep u' t' w' Hin Hfin. pose proof (zlen_nonneg as'). apply elem_of_cons in Hin as [[= -> -> ->]|Hin].
        -- pose proof (relax_done l k u t w ltac:(unfold deep_enough in *; destruct Hdeep; [by left|right; lia]) S Ha He Hfin) as Hone. pose proof (Hle t). lia.
        -- pose proof (Hd Hdeep u' t' w' Hin (relax_finite l (u, t, w) u' (so_capped _ _ S) Hfin)). pose proof (relax_le l (u, t, w) u'). lia.
      * intros Hf. assert (lb_upd (relax l (u, t, w)) = false -> relax l (u, t, w) = l) as Hone.
        { unfold relax. destruct (lb_dist l u =? INT64_MAX); [done|]. destruct (add_overflow_i64 (lb_dist l u) w); [|done].
          by destruct (_ <? _). }
        pose proof (Hu' Hf) as Eq. rewrite Eq in Hf. rewrite Eq. by apply Hone.
Qed.

(** Walks of at most [k] edges are accounted for. *)
Definition covers (k : Z) (d : Z -> Z) : Prop := forall l, trail E s l -> zlen l <= k -> d (dest s l) <> INT64_MAX /\ d (dest s l) <= cost l.

Lemma covers_start : covers 0 (update (fun _ => INT64_MAX) s 0).
Proof.
  intros l _ Hl. destruct l as [|a l]; [|rewrite zlen_cons in Hl; pose proof (zlen_nonneg l); lia].
  simpl. unfold update. rewrite Z.eqb_refl. done.
Qed.

(** One more edge, in new distances [d'] in which every edge is accounted for. *)
Lemma covers_more k d d' : 0 <= k < 2 ^ 31 -> covers k d -> (forall v, d' v <= d v) -> capped d' ->
  (forall u t w, E u t w -> d u <> INT64_MAX -> d' t <= d u + w) -> covers (k + 1) d'.
Proof.
  intros Hk C Hle Hc H l Hl Hlen. pose proof (cost_upper E (2 ^ 31) s l (fun u v w Ha => Z.lt_le_incl _ _ (proj2 (Hw u v w Ha))) ltac:(lia) Hl) as Hb.
  enough (d' (dest s l) <= cost l) by (unfold INT64_MAX; lia).
  destruct l as [|[t w] l _] using rev_ind.
  - pose proof (Hle (dest s [])). destruct (C [] ltac:(done)) as [_ Hz]; [change (zlen []) with 0; lia|]. lia.
  - apply trail_snoc in Hl as [Hl He]. rewrite zlen_app in Hlen. change (zlen [(t, w)]) with 1 in Hlen. rewrite dest_snoc, cost_snoc.
    destruct (C l Hl ltac:(lia)) as [H1 H2]. pose proof (H _ _ _ He H1). lia.
Qed.

(** Reachable vertices stay far from overflow. *)
Lemma covers_bound d l : covers (zlen adj - 1) d -> trail E s l -> d (dest s l) <= 2 ^ 62.
Proof.
  intros C Hl. destruct (short_trail E s (zlen adj) l (fun _ _ _ => arc_target _ _ _ _ Ht) Hs Hl) as (l' & Hl' & Ed & Hlen & _).
  pose proof (cost_upper E (2 ^ 31) s l' (fun u v w Ha => Z.lt_le_incl _ _ (proj2 (Hw u v w Ha))) ltac:(lia) Hl').
  destruct (C l' Hl' ltac:(lia)) as [_ Hz]. rewrite Ed in Hz. lia.
Qed.

(** No edge can be improved: every walk is accounted for. *)
Lemma settled d p : sound d p -> (forall u t w, E u t w -> d u <> INT64_MAX -> d t <= d u + w /\ d t <> INT64_MAX) ->
  forall l, trail E s l -> d (dest s l) <> INT64_MAX /\ d (dest s l) <= cost l.
Proof.
  intros S H l. induction l as [|[t w] l IH] using rev_ind; intros Hl.
  - simpl. pose proof (so_start _ _ S). unfold INT64_MAX. lia.
  - apply trail_snoc in Hl as [Hl He]. destruct (IH Hl) as [H1 H2]. rewrite dest_snoc, cost_snoc. destruct (H _ _ _ He H1). split; [done|lia].
Qed.

(** Without negative cycles the distances after the last round are final. *)
Lemma covers_final d p a : no_negative_cycle E s -> sound d p -> covers (zlen adj - 1) d -> a ∈ arcs adj -> ~ improvable d a.
Proof.
  destruct a as [[u t] w]. intros Hneg S C He%elem_arcs (Hu & _ & Hlt).
  destruct (so_walk _ _ S u Hu) as (l & Hl & Ed & Ec).
  assert (trail E s (l ++ [(t, w)])) as Hl2 by (apply trail_snoc; by rewrite Ed).
  destruct (short_trail E s (zlen adj) _ (fun _ _ _ => arc_target _ _ _ _ Ht) Hs Hl2) as (l' & Hl' & Ed' & Hlen & Hcost).
  rewrite dest_snoc in Ed'. rewrite cost_snoc in Hcost. destruct (C l' Hl' ltac:(lia)) as [_ H]. rewrite Ed' in H. specialize (Hcost Hneg). lia.
Qed.

Definition explains (d p : Z -> Z) : Prop := forall v, 0 <= v < zlen adj -> d v <> INT64_MAX ->
  p v = -1 /\ v = s \/ exists w, E (p v) v w /\ d v = d (p v) + w.

(** When no edge can be improved, the distances are exact. *)
Lemma settled_exact d p : sound d p -> (forall u t w, E u t w -> d u <> INT64_MAX -> d t <= d u + w /\ d t <> INT64_MAX) ->
  shortest E INT64_MAX s (zlen adj) d /\ no_negative_cycle E s /\ explains d p.
Proof.
  intros S Hset. pose proof (settled d p S Hset) as Hall. split_and!.
  - intros v Hv. destruct (decide (d v = INT64_MAX)) as [Hi|Hi].
    + left. split; [done|]. intros l Hl Ed. apply Hall in Hl as [Hl _]. by rewrite Ed in Hl.
    + right. split; [done|]. split; [by apply (so_walk _ _ S)|]. intros l Hl Ed. apply Hall in Hl as [_ Hl]. by rewrite Ed in Hl.
  - intros l c Hl Hc Ec. destruct (Hall l Hl) as [Hi _]. destruct (so_walk _ _ S _ Hi) as (l' & Hl' & Ed' & Ec').
    destruct (Hall (l' ++ c)) as [_ H]; [apply trail_app; by rewrite Ed'|]. rewrite dest_app, Ed', Ec, cost_app in H. lia.
  - intros v Hv Hi. destruct (so_prev _ _ S v) as [[Hp Hd]|(w & He & Hp & Hd)].
    + left. split; [done|]. by destruct Hd as [|[? _]].
    + right. exists w. split; [done|]. pose proof (Hset _ _ _ He Hp) as [H _]. lia.
Qed.

Lemma unimprovable_exact d p k : deep_enough k -> sound d p -> above k d -> covers (zlen adj - 1) d ->
  (forall u t w, E u t w -> ~ improvable d (u, t, w)) ->
  shortest E INT64_MAX s (zlen adj) d /\ no_negative_cycle E s /\ explains d p.
Proof.
  intros Hk S Ha C Hno. apply settled_exact; [done|]. intros u t w He Hu.
  pose proof (no_underflow _ _ _ _ _ _ Hk S Ha Hu He). destruct (so_walk _ _ S u Hu) as (l & Hl & Ed & Ec).
  pose proof (covers_bound d l C Hl) as Hb. rewrite Ed in Hb. pose proof (Hw _ _ _ He) as [_ Hwi]. pose proof (Hno _ _ _ He) as Hi.
  unfold improvable, INT64_MAX in *. lia.
Qed.
End Relaxation.

(** ** The function *)
Lemma wp_fill_unreached n db pb (Q : ptr Z * ptr Z -> Prop) :
  0 <= n -> zlen db = n -> zlen pb = n ->
  (forall dist prev, ints dist n (fun _ => INT64_MAX) -> ints prev n (fun _ => -1) -> Q (dist, prev)) ->
  wp (fill_unreached n (Ptr db) (Ptr pb)) Q.
Proof.
  intros Hn Hd Hp HQ. unfold fill_unreached.
  apply (wp_zfor (fun i '(dist, prev) => exists db pb, dist = Ptr db /\ prev = Ptr pb /\ zlen db = n /\ zlen pb = n /\
    forall v, 0 <= v < i -> zlook db v = Some (Some INT64_MAX) /\ zlook pb v = Some (Some (-1)))).
  - exists db, pb. split_and!; try done. intros; lia.
  - intros i [dist prev] Hi (d & p & -> & -> & Hd' & Hp' & H). wstep. apply wp_set_elem; [lia|]. wstep. apply wp_set_elem; [lia|]. wstep.
    exists (zupd d i (Some INT64_MAX)), (zupd p i (Some (-1))). rewrite !zlen_zupd. split_and!; try done. intros v Hv.
    rewrite !zlook_zupd. destruct (decide (v = i)) as [->|]; [by rewrite !decide_True by lia|].
    rewrite !decide_False by lia. apply H. lia.
  - intros [dist prev] (d & p & -> & -> & Hd' & Hp' & H). rewrite Z.max_r in H by lia.
    apply HQ; eexists; (split; [done|]); (split; [done|]); intros v Hv; by apply H.
Qed.

Lemma bellman_ford_spec g adj start db pb :
  graph_ok g adj -> zlen adj <= 2 ^ 31 -> (forall u v w, arc adj u v w -> is_i32 w) -> 0 <= start < zlen adj ->
  zlen db = zlen adj -> zlen pb = zlen adj ->
  wp (scl_search_bellman_ford (Some g) start (Ptr db) (Ptr pb)) (fun '(e, dist, prev) => exists d p,
    ints dist (zlen adj) d /\ ints prev (zlen adj) p /\ (e = SCL_OK \/ e = SCL_ERR_INVALID_STATE) /\
    (no_negative_cycle (arc adj) start -> e = SCL_OK) /\
    (e = SCL_OK -> no_negative_cycle (arc adj) start \/ zlen adj * edge_total adj <= 2 ^ 32 ->
       shortest (arc adj) INT64_MAX start (zlen adj) d /\ no_negative_cycle (arc adj) start /\ explains adj start d p)).
Proof.
  intros G Hn Hw Hs Hdb Hpb. pose proof (go_range _ _ G) as Hr. destruct (go_nodes _ _ G) as [nb Hnb]. pose proof (edge_total_nonneg adj) as Htot.
  assert (zlen (arcs adj) = edge_total adj) as Hlen by apply length_arcs_from.
  pose proof (go_targets _ _ G) as Ht.
  unfold scl_search_bellman_ford. rewrite Hnb, (go_vertices _ _ G). destruct (Z.ltb_spec start 0); [lia|]. rewrite u64_small by lia.
  destruct (Z.geb_spec start (zlen adj)); [lia|]. cbn [orb]. destruct (Z.eqb_spec (zlen adj) 0) as [|Hne]; [lia|].
  wstep. apply wp_fill_unreached; [lia|done|done|]. intros dist prev Hd Hp. wstep. eapply wp_ints_set; [done|done|]. intros dist' Hd'.
  set (n := zlen adj) in *. set (M := edge_total adj) in *.
  set (D := no_negative_cycle (arc adj) start \/ n * M <= 2 ^ 32).
  assert (D -> forall k, 0 <= k <= (n - 1) * M -> deep_enough adj start k) as HD.
  { intros [HD|HD] k Hk; [by left|right]. destruct (Z.eq_dec M 0) as [E|E]; [rewrite E in Hk; lia|]. nia. }
  pose proof (sound_start adj start) as S0. clear Hd.
  wstep. apply (wp_zfor_ret (fun i '(dist, prev) => exists d p, ints dist n d /\ ints prev n p /\ sound adj start d p /\
    above (i * M) d /\ (D -> covers adj start i d)) 0 (n - 1) _ _ (fun r => wp _ _)).
  - do 2 eexists. split; [exact Hd'|]. split; [exact Hp|]. split; [exact S0|]. split; [|intros _; apply covers_start].
    intros v Hv. unfold update in *. destruct (v =? start); [lia|done].
  - intros i [dist1 prev1] Hi (d & p & Hd1 & Hp1 & S & Ha & Hc). wstep.
    apply (wp_relax_all g adj G Hn dist1 prev1 d p); [done|done|by apply S|]. intros [[dist2 prev2] upd] (Hd2 & Hp2 & ->).
    assert (0 <= i * M) as HiM by nia.
    destruct (relax_all_spec adj start Hw Hn Ht Hs (arcs adj) (Labels d p false) (i * M)) as (S2 & Ha2 & Hle & Hdone & Hupd);
      [by intros u t w ?%elem_arcs|done|done|done|]. cbn [lb_dist lb_prev] in *. rewrite Hlen in Ha2, Hdone.
    set (l' := fold_left relax (arcs adj) (Labels d p false)) in *. replace (i * M + M) with ((i + 1) * M) in * by lia.
    assert (D -> covers adj start (i + 1) (lb_dist l')) as Hc2.
    { intros HDD. apply (covers_more adj start Hw i d); [lia|by apply Hc|done|apply S2|]. intros u t w He Hu. apply Hdone; [|by apply elem_arcs|done].
      apply HD; [done|]. nia. }
    destruct (lb_upd l') eqn:Eu; cbn [negb]; wstep; [by exists (lb_dist l'), (lb_prev l')|].
    specialize (Hupd eq_refl). rewrite Hupd in *. cbn [lb_dist lb_prev] in *. wstep.
    apply (wp_still_relaxable g adj G dist2 d); [done|]. intros b Hb1 Hb2.
    assert (D -> covers adj start (n - 1) d) as Hcn.
    { intros HDD. assert (forall j : nat, i + Z.of_nat j <= n - 1 -> covers adj start (i + Z.of_nat j) d) as Hj.
      { intros j. induction j as [|j IH]; intros Hj; [rewrite Z.add_0_r; by apply Hc|].
        replace (i + Z.of_nat (Datatypes.S j)) with (i + Z.of_nat j + 1) by lia.
        apply (covers_more adj start Hw _ d); [lia|apply IH; lia|done|apply S|]. intros u t w He Hu. apply Hdone; [|by apply elem_arcs|done].
        apply HD; [done|]. nia. }
      replace (n - 1) with (i + Z.of_nat (Z.to_nat (n - 1 - i))) by lia. apply Hj. lia. }
    assert (0 <= i * M <= (n - 1) * M) as HiM2 by nia.
    destruct b; wstep; exists d, p; (split; [done|]); (split; [done|]).
    + split; [auto|]. split; [|done]. intros Hneg. exfalso. destruct (Hb1 eq_refl) as (u & t & w & He & Himp).
      apply elem_arcs in He. by apply (covers_final adj start Ht Hs d p _ Hneg S (Hcn (or_introl Hneg)) He).
    + split; [auto|]. split; [done|]. intros _ HDD. apply (unimprovable_exact adj start Hw Hn Ht Hs d p (i * M)); auto.
  - intros [dist1 prev1] (d & p & Hd1 & Hp1 & S & Ha & Hc). replace (Z.max 0 (n - 1)) with (n - 1) in * by lia. wstep.
    apply (wp_still_relaxable g adj G dist1 d); [done|]. intros b Hb1 Hb2.
    destruct b; wstep; exists d, p; (split; [done|]); (split; [done|]).
    + split; [auto|]. split; [|done]. intros Hneg. exfalso. destruct (Hb1 eq_refl) as (u & t & w & He & Himp).
      apply elem_arcs in He. by apply (covers_final adj start Ht Hs d p _ Hneg S (Hc (or_introl Hneg)) He).
    + split; [auto|]. split; [done|]. intros _ HDD. apply (unimprovable_exact adj start Hw Hn Ht Hs d p ((n - 1) * M)); auto. apply HD; [done|]. nia.
Qed.

(** C9. Bellman-Ford on a graph with [int] weights always returns, without signed
    overflow or stray access.  It reports a negative cycle only if one is
    reachable; without one it succeeds with the exact distances, the sentinel
    marking the unreachable vertices, and predecessors that explain them.  On
    graphs of at most 2^32 pairs of a vertex and an edge a reachable negative
    cycle is always reported (on larger ones the distances may run into the
    lower end of [int64_t], where relaxations are skipped).  Arguments that are
    [NULL] or out of range are refused. *)
Theorem bellman_ford_shortest (g : scl_graph_t) (adj : adjacency) (start : Z) (db pb : block Z) (G : graph_ok g adj)
  (Hn : zlen adj <= 2 ^ 31) (Hw : forall u v w, arc adj u v w -> is_i32 w) (Hs : is_i32 start)
  (Hdb : zlen db = zlen adj) (Hpb : zlen pb = zlen adj) :
  (0 <= start < zlen adj -> exists e dist prev d p,
     scl_search_bellman_ford (Some g) start (Ptr db) (Ptr pb) = Ok (e, dist, prev) /\ ints dist (zlen adj) d /\ ints prev (zlen adj) p /\
     (e = SCL_OK \/ e = SCL_ERR_INVALID_STATE) /\ (no_negative_cycle (arc adj) start -> e = SCL_OK) /\
     (e = SCL_OK -> no_negative_cycle (arc adj) start \/ zlen adj * edge_total adj <= 2 ^ 32 ->
        shortest (arc adj) INT64_MAX start (zlen adj) d /\ no_negative_cycle (arc adj) start /\ explains adj start d p)) /\
  (start < 0 \/ zlen adj <= start ->
     scl_search_bellman_ford (Some g) start (Ptr db) (Ptr pb) = Ok (SCL_ERR_INVALID_INDEX, Ptr db, Ptr pb)) /\
  (forall dist prev, scl_search_bellman_ford None start dist prev = Ok (SCL_ERR_NULL_PTR, dist, prev) /\
     scl_search_bellman_ford (Some g) start Null prev = Ok (SCL_ERR_NULL_PTR, Null, prev)).
Proof.
  split; [|split].
  - intros Hst. destruct (proj1 (wp_ok _ _) (bellman_ford_spec g adj start db pb G Hn Hw Hst Hdb Hpb)) as ([[e dist] prev] & E & d & p & H).
    by exists e, dist, prev, d, p.
  - intros Hout. destruct (go_nodes _ _ G) as [nb Hnb]. pose proof (go_range _ _ G). unfold is_i32 in Hs.
    unfold scl_search_bellman_ford. rewrite Hnb, (go_vertices _ _ G).
    destruct (Z.ltb_spec start 0); [done|]. rewrite u64_small by lia. by destruct (Z.geb_spec start (zlen adj)); [|lia].
  - intros dist prev. split; [done|]. by destruct prev.
Qed.

Lemma sample_arcs u v w : arc sample_adj u v w -> 0 < w < 10.
Proof.
  intros He%elem_arcs. change (arcs sample_adj) with [(0, 2, 5); (0, 1, 9); (2, 1, 3)] in He.
  rewrite !elem_of_cons, elem_of_nil in He. naive_solver lia.
Qed.

Lemma bellman_ford_shortest_witness :
  exists dist prev d, scl_search_bellman_ford (Some sample_graph) 0 (Ptr [None; None; None]) (Ptr [None; None; None]) = Ok (SCL_OK, dist, prev) /\
    ints dist 3 d /\ shortest (arc sample_adj) INT64_MAX 0 3 d.
Proof.
  destruct (bellman_ford_shortest sample_graph sample_adj 0 [None; None; None] [None; None; None] sample_ok) as [H _].
  - by vm_compute.
  - intros u v w He%sample_arcs. unfold is_i32. lia.
  - unfold is_i32. lia.
  - done.
  - done.
  - destruct (H ltac:(by vm_compute)) as (e & dist & prev & d & p & E & Hd & Hp & He & _ & Hok).
    destruct He as [->|He]; [|exfalso; rewrite He in E; vm_compute in E; discriminate E].
    destruct Hok as [Hsh _]; [done|right; by vm_compute|]. by exists dist, prev, d.
Defined.
