(* ===== verification/FloydWarshall.v ===== *)
(** All-pairs shortest paths: [scl_search_floyd_warshall]
    ([libs/search/floyd_warshall]), on a matrix updated in place. *)

From S2P Require Import Prelude Core Refine Graph Walks BellmanFord.
#[local] Open Scope Z_scope.
#[local] Arguments scl_mul_overflow : simpl never.

Record scl_edge_t : Type := FwEdge { fe_from : Z; fe_to : Z; fe_weight : Z }.

(** [(i % (sn + 1) == 0) ? 0 : INT64_MAX] in every cell. *)
Definition fw_clear (sn nelems : Z) (dist : ptr Z) : res (ptr Z) :=
  zfor 0 nelems (fun i dist => set_elem dist i (if i mod (sn + 1) =? 0 then 0 else INT64_MAX)) dist.

Definition fw_edges (sn ecount : Z) (edges : list scl_edge_t) (dist : ptr Z) : res (ptr Z) :=
  zfor 0 ecount
    (fun e dist =>
       ed ← get edges e;
       let f := fe_from ed in
       let t := fe_to ed in
       if (f <? sn) && (t <? sn) then set_elem dist (f * sn + t) (fe_weight ed) else mret dist) dist.

(** The innermost loop. *)
Definition fw_row (sn k i dik : Z) (dist : ptr Z) : res (ptr Z) :=
  zfor 0 sn
    (fun j dist =>
       dkj ← get_elem dist (k * sn + j);
       if dkj =? INT64_MAX then mret dist
       else
         match add_overflow_i64 dik dkj with
         | None => mret dist
         | Some nd =>
             dij ← get_elem dist (i * sn + j);
             if nd <? dij then set_elem dist (i * sn + j) nd else mret dist
         end) dist.

Definition fw_round (sn k : Z) (dist : ptr Z) : res (ptr Z) :=
  zfor 0 sn
    (fun i dist =>
       dik ← get_elem dist (i * sn + k);
       if dik =? INT64_MAX then mret dist else fw_row sn k i dik dist) dist.

Definition scl_search_floyd_warshall (n : Z) (edges : option (list scl_edge_t)) (ecount : Z) (dist : ptr Z)
    : res (scl_error_t * ptr Z) :=
  match edges, dist with
  | None, _ | _, Null => mret (SCL_ERR_NULL_PTR, dist)
  | Some edges, _ =>
      if n <=? 0 then mret (SCL_ERR_EMPTY, dist)
      else
        let sn := u64 n in
        if sn >? SIZE_MAX / sn then mret (SCL_ERR_SIZE_OVERFLOW, dist)
        else
          let nelems := u64 (sn * sn) in
          match scl_mul_overflow nelems 8 with
          | None => mret (SCL_ERR_SIZE_OVERFLOW, dist)
          | Some _ =>
              dist ← fw_clear sn nelems dist;
              dist ← fw_edges sn ecount edges dist;
              dist ← zfor 0 sn (fun k dist => fw_round sn k dist) dist;
              r ← zfor_ret 0 sn
                (fun i s => d ← get_elem dist (i * sn + i); if d <? 0 then mret (inr tt) else mret (inl s)) tt;
              mret (match r with inl _ => SCL_OK | inr _ => SCL_ERR_INVALID_STATE end, dist)
          end
  end.

(** * Matrices as functions *)
Notation matrix_fun := (Z -> Z -> Z).
Definition put2 (D : matrix_fun) (x y z : Z) : matrix_fun := fun i j => if (i =? x) && (j =? y) then z else D i j.

Lemma put2_eq D x y z : put2 D x y z x y = z.
Proof. unfold put2. by rewrite !Z.eqb_refl. Qed.

Lemma put2_ne D x y z i j : i <> x \/ j <> y -> put2 D x y z i j = D i j.
Proof. intros H. unfold put2. destruct (Z.eqb_spec i x), (Z.eqb_spec j y); simpl; try done. lia. Qed.

(** [matrix p n D]: the array [p] holds [D] row by row. *)
Definition matrix (p : ptr Z) (n : Z) (D : matrix_fun) : Prop :=
  exists b, p = Ptr b /\ zlen b = n * n /\ forall i j, 0 <= i < n -> 0 <= j < n -> zlook b (i * n + j) = Some (Some (D i j)).

Lemma cell_inj n i j i' j' : 0 <= j < n -> 0 <= j' < n -> i * n + j = i' * n + j' -> i = i' /\ j = j'.
Proof. intros. assert (i = i') as -> by nia. split; [done|lia]. Qed.

Lemma wp_matrix_get p n D i j (Q : Z -> Prop) : matrix p n D -> 0 <= i < n -> 0 <= j < n -> Q (D i j) -> wp (get_elem p (i * n + j)) Q.
Proof. intros (b & -> & _ & H) Hi Hj HQ. eapply wp_get_elem; [by apply H|done]. Qed.

Lemma wp_matrix_set p n D i j z (Q : ptr Z -> Prop) :
  matrix p n D -> 0 <= i < n -> 0 <= j < n -> (forall p', matrix p' n (put2 D i j z) -> Q p') -> wp (set_elem p (i * n + j) z) Q.
Proof.
  intros (b & -> & Hb & H) Hi Hj HQ. apply wp_set_elem; [nia|]. apply HQ. eexists. split; [done|]. split; [by rewrite zlen_zupd|].
  intros i' j' Hi' Hj'. rewrite zlook_zupd. case_decide as Hd.
  - destruct Hd as [E _]. apply cell_inj in E as [-> ->]; [|lia..]. by rewrite put2_eq.
  - rewrite put2_ne; [by apply H|]. assert (0 <= i * n + j < zlen b) by nia.
    destruct (Z.eq_dec i i') as [->|]; [|lia]. destruct (Z.eq_dec j j') as [->|]; [|lia]. exfalso. by apply Hd.
Qed.

(** The initial matrix: the last edge of every pair of vertices, zero on the
    rest of the diagonal. *)
Definition fw_blank : matrix_fun := fun i j => if i =? j then 0 else INT64_MAX.
Definition fw_add (n : Z) (D : matrix_fun) (ed : scl_edge_t) : matrix_fun :=
  if (fe_from ed <? n) && (fe_to ed <? n) then put2 D (fe_from ed) (fe_to ed) (fe_weight ed) else D.
Definition fw_matrix (n : Z) (edges : list scl_edge_t) : matrix_fun := fold_left (fw_add n) edges fw_blank.

(** Its finite cells as a weighted graph. *)
Definition cell_arc (n : Z) (D : matrix_fun) (u v w : Z) : Prop := 0 <= u < n /\ 0 <= v < n /\ D u v = w /\ w <> INT64_MAX.

Lemma wp_fw_clear n b (Q : ptr Z -> Prop) :
  0 < n -> zlen b = n * n -> (forall p, matrix p n fw_blank -> Q p) -> wp (fw_clear n (n * n) (Ptr b)) Q.
Proof.
  intros Hn Hb HQ. unfold fw_clear.
  apply (wp_zfor (fun x p => exists b, p = Ptr b /\ zlen b = n * n /\
    forall y, 0 <= y < x -> zlook b y = Some (Some (if y mod (n + 1) =? 0 then 0 else INT64_MAX)))).
  - exists b. split_and!; try done. intros; lia.
  - intros x p Hx (b' & -> & Hb' & H). apply wp_set_elem; [lia|]. eexists. split; [done|]. split; [by rewrite zlen_zupd|].
    intros y Hy. rewrite zlook_zupd. destruct (decide (x = y)) as [->|]; [by rewrite decide_True by lia|].
    rewrite decide_False by lia. apply H. lia.
  - intros p (b' & -> & Hb' & H). apply HQ. exists b'. split; [done|]. split; [done|]. intros i j Hi Hj.
    rewrite H by nia. unfold fw_blank.
    assert ((i * n + j) mod (n + 1) = (j - i) mod (n + 1)) as ->.
    { replace (i * n + j) with (j - i + i * (n + 1)) by lia. apply Z.mod_add. lia. }
    destruct (Z.eqb_spec i j) as [->|Hne]; [by rewrite Z.sub_diag|].
    destruct (Z.eqb_spec ((j - i) mod (n + 1)) 0) as [E|]; [|done]. apply Z.mod_divide in E as [q E]; [|lia]. assert (q = 0) by nia. nia.
Qed.

Lemma wp_fw_edges n ecount edges p D (Q : ptr Z -> Prop) :
  0 < n -> 0 <= ecount <= zlen edges -> Forall (fun ed => 0 <= fe_from ed /\ 0 <= fe_to ed) edges -> matrix p n D ->
  (forall p', matrix p' n (fold_left (fw_add n) (take (Z.to_nat ecount) edges) D) -> Q p') -> wp (fw_edges n ecount edges p) Q.
Proof.
  intros Hn He Hr Hp HQ. unfold fw_edges.
  apply (wp_zfor (fun e p => matrix p n (fold_left (fw_add n) (take (Z.to_nat e) edges) D))); [done| |].
  - intros e p' Hi Hp'. wstep. apply wp_get; [lia|]. intros x Hx. replace (Z.to_nat (e + 1)) with (S (Z.to_nat e)) by lia.
    assert (take (S (Z.to_nat e)) edges = take (Z.to_nat e) edges ++ [x]) as ->.
    { apply take_S_r. unfold zlook in Hx. by destruct (Z.leb_spec 0 e); [|lia]. }
    rewrite fold_left_app. cbn [fold_left]. unfold fw_add at 1.
    pose proof (proj1 (Forall_forall _ _) Hr x (zlook_elem _ _ _ Hx)) as [Hf Ht].
    destruct (Z.ltb_spec (fe_from x) n), (Z.ltb_spec (fe_to x) n); cbn [andb]; try (wstep; done).
    eapply wp_matrix_set; [done|lia|lia|done].
  - intros p'. rewrite Z.max_r by lia. apply HQ.
Qed.

(** ** What a round computes *)
Definition relax3 (a b c : Z) : Z :=
  if c =? INT64_MAX then a
  else match add_overflow_i64 b c with Some nd => if nd <? a then nd else a | None => a end.

Definition fw_step (D : matrix_fun) (k i j : Z) : Z := if D i k =? INT64_MAX then D i j else relax3 (D i j) (D i k) (D k j).

Lemma relax3_le a b c : relax3 a b c <= a.
Proof.
  unfold relax3. destruct (c =? INT64_MAX); [lia|]. destruct (add_overflow_i64 b c) as [nd|]; [|lia]. destruct (Z.ltb_spec nd a); lia.
Qed.

(** A loop around an intermediate vertex of non-negative length gains nothing. *)
Lemma relax3_idle a b : 0 <= b -> relax3 a b a = a.
Proof.
  intros Hb. unfold relax3. destruct (a =? INT64_MAX); [done|]. unfold add_overflow_i64.
  destruct ((- 2 ^ 63 <=? b + a) && (b + a <=? INT64_MAX)); [|done]. destruct (Z.ltb_spec (b + a) a); [lia|done].
Qed.

Lemma relax3_idle_r a b : 0 <= b -> relax3 a a b = a.
Proof.
  intros Hb. unfold relax3. destruct (b =? INT64_MAX); [done|]. unfold add_overflow_i64.
  destruct ((- 2 ^ 63 <=? a + b) && (a + b <=? INT64_MAX)); [|done]. destruct (Z.ltb_spec (a + b) a); [lia|done].
Qed.

Section Rounds.
Context (n : Z) (Hn : 0 < n) (E : Z -> Z -> Z -> Prop).

(** Every finite cell is the cost of a walk with at least one edge. *)
Record fw_sound (D : matrix_fun) : Prop := FwSound {
  fs_capped : forall i j, 0 <= i < n -> 0 <= j < n -> D i j <= INT64_MAX;
  fs_walk : forall i j, 0 <= i < n -> 0 <= j < n -> D i j <> INT64_MAX -> exists l, l <> [] /\ trail E i l /\ dest i l = j /\ cost l = D i j
}.

Lemma relax3_sound D i k j b :
  0 <= i < n -> 0 <= k < n -> 0 <= j < n -> fw_sound D -> (exists l, l <> [] /\ trail E i l /\ dest i l = k /\ cost l = b) ->
  fw_sound (put2 D i j (relax3 (D i j) b (D k j))).
Proof.
  intros Hi Hk Hj S (l & Hl & Ht & Ed & Ec).
  assert (relax3 (D i j) b (D k j) <= INT64_MAX) as Hcap.
  { pose proof (relax3_le (D i j) b (D k j)). pose proof (fs_capped _ S i j Hi Hj). lia. }
  assert (relax3 (D i j) b (D k j) = D i j \/ D k j <> INT64_MAX /\ relax3 (D i j) b (D k j) = b + D k j) as Hcase.
  { unfold relax3. destruct (Z.eqb_spec (D k j) INT64_MAX); [by left|]. unfold add_overflow_i64.
    destruct ((- 2 ^ 63 <=? b + D k j) && (b + D k j <=? INT64_MAX)); [|by left]. destruct (b + D k j <? D i j); [by right|by left]. }
  split; intros x y Hx Hy; destruct (decide (x = i /\ y = j)) as [[-> ->]|Hne];
    [rewrite put2_eq; done|rewrite put2_ne by (destruct (Z.eq_dec x i), (Z.eq_dec y j); tauto); by apply S
    |rewrite put2_eq|rewrite put2_ne by (destruct (Z.eq_dec x i), (Z.eq_dec y j); tauto); by apply S].
  destruct Hcase as [->|[Hf ->]]; [by apply S|]. intros _. destruct (fs_walk _ S k j Hk Hj Hf) as (l2 & Hl2 & Ht2 & Ed2 & Ec2).
  exists (l ++ l2). rewrite trail_app, dest_app, cost_app, Ed. split; [by destruct l|]. split; [by split|]. split; [done|]. lia.
Qed.

(** [same_rows P D D']: the rows satisfying [P] are equal. *)
Definition same_rows (P : Z -> Prop) (D D' : matrix_fun) : Prop := forall i j, 0 <= i < n -> 0 <= j < n -> P i -> D' i j = D i j.
Definition below_all (D D' : matrix_fun) : Prop := forall i j, 0 <= i < n -> 0 <= j < n -> D' i j <= D i j.

Lemma wp_fw_row k i p D (Q : ptr Z -> Prop) :
  0 <= k < n -> 0 <= i < n -> matrix p n D -> fw_sound D -> D i k <> INT64_MAX ->
  (forall p' D', matrix p' n D' -> fw_sound D' -> below_all D D' -> same_rows (fun x => x <> i) D D' ->
     (forall j, 0 <= j < n -> D' i j = relax3 (D i j) (D i k) (D k j)) -> Q p') ->
  wp (fw_row n k i (D i k) p) Q.
Proof.
  intros Hk Hi Hp S Hf HQ. unfold fw_row. pose proof (fs_walk _ S i k Hi Hk Hf) as Hw.
  apply (wp_zfor (fun j p => exists D', matrix p n D' /\ fw_sound D' /\ below_all D D' /\ same_rows (fun x => x <> i) D D' /\
    forall y, 0 <= y < n -> D' i y = if y <? j then relax3 (D i y) (D i k) (D k y) else D i y)).
  - exists D. split; [done|]. split; [done|]. split; [by intros ????; lia|]. split; [done|]. intros y Hy. by destruct (Z.ltb_spec y 0); [lia|].
  - intros j p' Hj (D' & Hp' & S' & Hb & Hs & Hr).
    assert (D' i j = D i j) as Eij by (rewrite Hr by lia; destruct (Z.ltb_spec j j); [lia|done]).
    assert (D' k j = D k j) as Ekj by (destruct (Z.eq_dec k i) as [->|]; [done|by apply Hs]).
    assert (forall p2, matrix p2 n (put2 D' i j (relax3 (D i j) (D i k) (D k j))) -> exists D', matrix p2 n D' /\ fw_sound D' /\ below_all D D' /\
      same_rows (fun x => x <> i) D D' /\ forall y, 0 <= y < n -> D' i y = if y <? j + 1 then relax3 (D i y) (D i k) (D k y) else D i y) as Hnext.
    { intros p2 Hp2. eexists. split; [exact Hp2|]. split; [|split; [|split]].
      - rewrite <- Eij, <- Ekj. apply relax3_sound; [done|lia|lia|done|done].
      - intros x y Hx Hy. destruct (decide (x = i /\ y = j)) as [[-> ->]|Hne]; [rewrite put2_eq; apply relax3_le|].
        rewrite put2_ne by (destruct (Z.eq_dec x i), (Z.eq_dec y j); tauto). by apply Hb.
      - intros x y Hx Hy Hne. rewrite put2_ne by auto. by apply Hs.
      - intros y Hy. destruct (Z.eq_dec y j) as [->|Hne].
        + rewrite put2_eq. by destruct (Z.ltb_spec j (j + 1)); [|lia].
        + rewrite put2_ne, Hr by (auto || lia). destruct (Z.ltb_spec y j), (Z.ltb_spec y (j + 1)); try done; lia. }
    assert (D' i j = relax3 (D i j) (D i k) (D k j) -> matrix p' n (put2 D' i j (relax3 (D i j) (D i k) (D k j)))) as Hsame.
    { intros Eq. destruct Hp' as (b & -> & Hb2 & Hc). exists b. split; [done|]. split; [done|]. intros x y Hx Hy. rewrite Hc by done.
      destruct (decide (x = i /\ y = j)) as [[-> ->]|Hne]; [by rewrite put2_eq, Eq|].
      by rewrite put2_ne by (destruct (Z.eq_dec x i), (Z.eq_dec y j); tauto). }
    wstep. eapply wp_matrix_get; [done|lia|lia|]. rewrite Ekj. unfold relax3 in Hnext at 1, Hsame. 
    destruct (Z.eqb_spec (D k j) INT64_MAX) as [Ei|Ei]; [wstep; by apply Hnext, Hsame|].
    destruct (add_overflow_i64 (D i k) (D k j)) as [nd|]; [|wstep; by apply Hnext, Hsame].
    wstep. eapply wp_matrix_get; [done|lia|lia|]. rewrite Eij. destruct (nd <? D i j); [|wstep; by apply Hnext, Hsame].
    eapply wp_matrix_set; [done|lia|lia|]. intros p2 Hp2. by apply Hnext.
  - intros p' (D' & Hp' & S' & Hb & Hs & Hr). rewrite Z.max_r in Hr by lia. apply (HQ _ D'); [done..|]. intros j Hj. rewrite Hr by done.
    by destruct (Z.ltb_spec j n); [|lia].
Qed.

Lemma wp_fw_round k p D (Q : ptr Z -> Prop) :
  0 <= k < n -> matrix p n D -> fw_sound D ->
  (forall p' D', matrix p' n D' -> fw_sound D' -> below_all D D' ->
     (0 <= D k k -> forall i j, 0 <= i < n -> 0 <= j < n -> D' i j = fw_step D k i j) -> Q p') ->
  wp (fw_round n k p) Q.
Proof.
  intros Hk Hp S HQ. unfold fw_round.
  apply (wp_zfor (fun i p => exists D', matrix p n D' /\ fw_sound D' /\ below_all D D' /\ same_rows (fun x => i <= x) D D' /\
    (0 <= D k k -> forall x y, 0 <= x < i -> 0 <= y < n -> D' x y = fw_step D k x y))).
  - exists D. split; [done|]. split; [done|]. split; [by intros ????; lia|]. split; [done|]. intros; lia.
  - intros i p' Hi (D' & Hp' & S' & Hb & Hs & Hr). assert (D' i k = D i k) as Eik by (apply Hs; lia).
    wstep. eapply wp_matrix_get; [done|lia|lia|]. rewrite Eik. destruct (Z.eqb_spec (D i k) INT64_MAX) as [Ei|Ei].
    + wstep. exists D'. split; [done|]. split; [done|]. split; [done|]. split; [intros x y Hx Hy Hx2; apply Hs; lia|].
      intros Hkk x y Hx Hy. destruct (Z.eq_dec x i) as [->|]; [|apply Hr; lia]. unfold fw_step. rewrite Ei, Z.eqb_refl. apply Hs; lia.
    + rewrite <- Eik. apply wp_fw_row; [lia|lia|done|done|by rewrite Eik|]. intros p2 D2 Hp2 S2 Hb2 Hs2 Hr2. exists D2.
      split; [done|]. split; [done|]. split; [intros x y Hx Hy; pose proof (Hb x y Hx Hy); pose proof (Hb2 x y Hx Hy); lia|].
      split; [intros x y Hx Hy Hx2; rewrite Hs2 by lia; apply Hs; lia|]. intros Hkk x y Hx Hy.
      destruct (Z.eq_dec x i) as [->|]; [|rewrite Hs2 by lia; apply Hr; lia]. rewrite Hr2 by lia. rewrite Eik.
      assert (D' i y = D i y) as -> by (apply Hs; lia). unfold fw_step. destruct (Z.eqb_spec (D i k) INT64_MAX); [done|]. f_equal.
      destruct (Z_lt_dec k i); [|apply Hs; lia]. rewrite Hr by lia. unfold fw_step. destruct (D k k =? INT64_MAX); [done|]. by apply relax3_idle.
  - intros p' (D' & Hp' & S' & Hb & _ & Hr). rewrite Z.max_r in Hr by lia. by apply (HQ _ D').
Qed.
End Rounds.

(** ** Walks through the first vertices *)
Definition via (k : Z) (l : list (Z * Z)) : Prop := Forall (fun a => a.1 < k) (removelast l).

Lemma via_snoc k l a : via k (l ++ [a]) <-> Forall (fun a => a.1 < k) l.
Proof. unfold via. by rewrite removelast_last. Qed.

Lemma via_inner k l : Forall (fun a => a.1 < k) l -> via k l.
Proof.
  intros H. unfold via. destruct l as [|a l _] using rev_ind; [done|]. rewrite removelast_last. by apply Forall_app in H as [H _].
Qed.

Lemma via_app k l l' : l' <> [] -> via k l' -> Forall (fun a => a.1 < k) l -> via k (l ++ l').
Proof.
  destruct l' as [|a l' _] using rev_ind; [done|]. rewrite via_snoc, app_assoc, via_snoc. intros _ H H'. apply Forall_app. by split.
Qed.

Lemma via_last k s l : l <> [] -> via k l -> dest s l <= k -> Forall (fun a => a.1 <= k) l.
Proof.
  destruct l as [|[v w] l _] using rev_ind; [done|]. rewrite via_snoc, dest_snoc. intros _ H Hk. apply Forall_app. split.
  - eapply Forall_impl; [done|]. simpl. lia.
  - by constructor.
Qed.

Lemma via_mono k k' l : k <= k' -> via k l -> via k' l.
Proof. intros Hk H. eapply Forall_impl; [done|]. simpl. lia. Qed.

(** A walk through the first [k + 1] vertices avoids [k], or ends with a part
    that leaves [k] for the last time. *)
Lemma via_split k l s : via (k + 1) l -> via k l \/ exists l1 l2, l = l1 ++ l2 /\ l1 <> [] /\ l2 <> [] /\ dest s l1 = k /\ via (k + 1) l1 /\ via k l2.
Proof.
  destruct l as [|a l _] using rev_ind; [left; apply Forall_nil_2|]. rewrite !via_snoc. revert a.
  induction l as [|[v w] l IH] using rev_ind; intros a H; [left; apply Forall_nil_2|]. apply Forall_app in H as [H Hv]. apply Forall_cons in Hv as [Hv _]. simpl in Hv.
  destruct (Z.eq_dec v k) as [->|Hne].
  - right. exists (l ++ [(k, w)]), [a]. split; [done|]. split; [by destruct l|]. split; [done|]. rewrite dest_snoc, via_snoc. split; [done|]. split; [done|]. constructor.
  - destruct (IH (v, w) H) as [Hk|(l1 & l2 & El & H1 & H2 & H3 & H4 & H5)].
    + left. apply Forall_app. split; [done|]. by apply Forall_singleton; simpl; lia.
    + right. exists l1, (l2 ++ [a]). rewrite El. split; [by rewrite <- app_assoc|]. split; [done|]. split; [by destruct l2|]. split; [done|]. split; [done|].
      rewrite via_snoc. destruct l2 as [|[v' w'] l2 _] using rev_ind; [done|]. rewrite app_assoc in El. apply app_inj_tail in El as [_ [= <- <-]].
      rewrite via_snoc in H5. apply Forall_app. split; [done|]. constructor; [simpl; lia|done].
Qed.

Section Exact.
Context (n : Z) (Hn : 0 < n) (E : Z -> Z -> Z -> Prop).
Context (HE : forall u v w, E u v w -> 0 <= u < n /\ 0 <= v < n /\ is_i32 w).

Record fw_exact (k : Z) (D : matrix_fun) : Prop := FwExact {
  fx_min : forall i l, 0 <= i < n -> l <> [] -> trail E i l -> via k l -> D i (dest i l) <> INT64_MAX /\ D i (dest i l) <= cost l;
  fx_walk : forall i j, 0 <= i < n -> 0 <= j < n -> D i j <> INT64_MAX -> exists l, l <> [] /\ trail E i l /\ dest i l = j /\ cost l = D i j /\ via k l;
  fx_diag : forall i, 0 <= i < n -> 0 <= D i i
}.

Lemma trail_dest i l : 0 <= i < n -> trail E i l -> 0 <= dest i l < n.
Proof. revert i. induction l as [|[v w] l IH]; intros i Hi; [done|]. intros [He Ht]. apply IH; [|done]. apply HE in He; tauto. Qed.

Lemma trail_targets i l v : trail E i l -> v ∈ l.*1 -> 0 <= v < n.
Proof.
  revert i. induction l as [|[x w] l IH]; intros i; [by intros _ ?%elem_of_nil|]. intros [He Ht] [->|Hv]%elem_of_cons; [apply HE in He; tauto|by eapply IH].
Qed.

(** Dropping cycles, but not the last edge. *)
Lemma via_short k D i l :
  fw_exact k D -> 0 <= i < n -> l <> [] -> trail E i l -> via k l ->
  exists l', l' <> [] /\ trail E i l' /\ dest i l' = dest i l /\ via k l' /\ zlen l' <= n /\ cost l' <= cost l.
Proof.
  intros X Hi. remember (length l) as m eqn:Hm. assert (length l <= m)%nat as Hle by lia. clear Hm. revert l Hle.
  induction m as [|m IH]; intros l Hle Hl Ht Hv; [by destruct l; simpl in Hle; [|lia]|].
  destruct l as [|[x w] l _] using rev_ind; [done|]. apply trail_snoc in Ht as [Ht He]. rewrite via_snoc in Hv.
  destruct (repeated_vertex i l) as [N|(k1 & c & k3 & -> & Hc & Ed)].
  - exists (l ++ [(x, w)]). split; [done|]. split; [by apply trail_snoc|]. split; [done|]. split; [by rewrite via_snoc|]. split; [|lia].
    assert (zlen (i :: l.*1) <= Z.max 0 n) as H.
    { apply nodup_length; [done|]. intros y [->|Hy]%elem_of_cons; [done|by eapply trail_targets]. }
    rewrite zlen_cons in H. rewrite zlen_app. change (zlen [(x, w)]) with 1. unfold zlen in *. rewrite length_fmap in H. lia.
  - apply trail_app in Ht as [H1 Ht]. apply trail_app in Ht as [H2 H3]. apply Forall_app in Hv as [V1 Hv]. apply Forall_app in Hv as [V2 V3].
    pose proof (trail_dest _ _ Hi H1) as Hx. destruct (fx_min _ _ X _ c Hx Hc H2 (via_inner _ _ V2)) as [_ Hcost]. rewrite Ed in Hcost.
    pose proof (fx_diag _ _ X _ Hx). rewrite !dest_app, Ed in He. rewrite Ed in H3.
    destruct (IH ((k1 ++ k3) ++ [(x, w)])) as (l' & Hl' & Ht' & Ed' & Hv' & Hlen & Hc').
    + rewrite !length_app in *. destruct c; [done|]. simpl in *. lia.
    + by destruct (k1 ++ k3).
    + rewrite trail_snoc, trail_app, dest_app. done.
    + rewrite via_snoc. apply Forall_app. by split.
    + exists l'. split; [done|]. split; [done|]. rewrite Ed', !dest_snoc. split; [done|]. split; [done|]. split; [done|].
      rewrite cost_snoc, !cost_app in *. lia.
Qed.

Lemma fw_bounds k D i j : fw_exact k D -> 0 <= i < n -> 0 <= j < n -> D i j <> INT64_MAX -> - (2 ^ 31 * n) <= D i j <= 2 ^ 31 * n.
Proof.
  intros X Hi Hj Hf. destruct (fx_walk _ _ X i j Hi Hj Hf) as (l & Hl & Ht & <- & Ec & Hv).
  destruct (via_short k D i l X Hi Hl Ht Hv) as (l' & Hl' & Ht' & Ed & Hv' & Hlen & Hc).
  pose proof (cost_bound E (2 ^ 31) i l' (fun u v w H => proj1 (proj2 (proj2 (HE u v w H)))) ltac:(lia) Ht').
  pose proof (cost_upper E (2 ^ 31) i l' (fun u v w H => Z.lt_le_incl _ _ (proj2 (proj2 (proj2 (HE u v w H))))) ltac:(lia) Ht').
  destruct (fx_min _ _ X i l' Hi Hl' Ht' Hv') as [_ Hm]. rewrite Ed in Hm. lia.
Qed.

Context (Hsmall : n < 2 ^ 31).

(** One round, when it makes no diagonal cell negative. *)
Lemma fw_exact_step k D D' :
  0 <= k < n -> fw_exact k D -> (forall i j, 0 <= i < n -> 0 <= j < n -> D' i j = fw_step D k i j) -> (forall i, 0 <= i < n -> 0 <= D' i i) ->
  fw_exact (k + 1) D'.
Proof.
  intros Hk X HD Hdiag. pose proof (fx_diag _ _ X k Hk) as Hkk.
  assert (forall i j, 0 <= i < n -> 0 <= j < n -> D i k <> INT64_MAX -> D k j <> INT64_MAX -> D' i j = Z.min (D i j) (D i k + D k j)) as Hmin.
  { intros i j Hi Hj H1 H2. rewrite HD by done. unfold fw_step, relax3. destruct (Z.eqb_spec (D i k) INT64_MAX); [done|].
    destruct (Z.eqb_spec (D k j) INT64_MAX); [done|]. pose proof (fw_bounds _ _ _ _ X Hi Hk H1). pose proof (fw_bounds _ _ _ _ X Hk Hj H2).
    unfold add_overflow_i64, INT64_MAX. destruct (Z.leb_spec (- 2 ^ 63) (D i k + D k j)), (Z.leb_spec (D i k + D k j) (2 ^ 63 - 1)); cbn [andb]; try lia.
    destruct (Z.ltb_spec (D i k + D k j) (D i j)); lia. }
  assert (forall i j, 0 <= i < n -> 0 <= j < n -> D i k = INT64_MAX \/ D k j = INT64_MAX -> D' i j = D i j) as Hsame.
  { intros i j Hi Hj H. rewrite HD by done. unfold fw_step, relax3. destruct (Z.eqb_spec (D i k) INT64_MAX); [done|].
    destruct (Z.eqb_spec (D k j) INT64_MAX); [done|]. lia. }
  assert (forall i, 0 <= i < n -> D' i k = D i k) as Hcol.
  { intros i Hi. rewrite HD by done. unfold fw_step. destruct (Z.eqb_spec (D i k) INT64_MAX); [done|]. by apply relax3_idle_r. }
  assert (forall i j, 0 <= i < n -> 0 <= j < n -> D' i j <= D i j) as Hle.
  { intros i j Hi Hj. rewrite HD by done. unfold fw_step. destruct (D i k =? INT64_MAX); [lia|]. apply relax3_le. }
  split; [| |done].
  - intros i l Hi. remember (length l) as m eqn:Hm. assert (length l <= m)%nat as Hlm by lia. clear Hm. revert l Hlm.
    induction m as [|m IH]; intros l Hlm Hl Ht Hv; [by destruct l; simpl in Hlm; [|lia]|].
    pose proof (trail_dest _ _ Hi Ht) as Hj. destruct (via_split k l i Hv) as [Hv'|(l1 & l2 & -> & H1 & H2 & H3 & H4 & H5)].
    + destruct (fx_min _ _ X i l Hi Hl Ht Hv') as [Hf Hc]. pose proof (Hle i (dest i l) Hi Hj). split; [|lia].
      pose proof (fw_bounds _ _ _ _ X Hi Hj Hf). unfold INT64_MAX. lia.
    + apply trail_app in Ht as [Ht1 Ht2]. rewrite dest_app, H3, cost_app in *.
      destruct (IH l1) as [Hf1 Hc1]; [rewrite length_app in Hlm; destruct l2; [done|simpl in Hlm; lia]|done|done|done|]. rewrite H3, Hcol in Hf1, Hc1 by done.
      destruct (fx_min _ _ X k l2 Hk H2 Ht2 H5) as [Hf2 Hc2]. rewrite Hmin by done.
      pose proof (fw_bounds _ _ _ _ X Hi Hk Hf1). pose proof (fw_bounds _ _ _ _ X Hk Hj Hf2). unfold INT64_MAX. lia.
  - intros i j Hi Hj. destruct (Z.eq_dec (D i k) INT64_MAX) as [E1|E1]; [|destruct (Z.eq_dec (D k j) INT64_MAX) as [E2|E2]].
    1,2: rewrite Hsame by auto; intros Hf; destruct (fx_walk _ _ X i j Hi Hj Hf) as (l & Hl & Ht & Ed & Ec & Hv); exists l; split_and!; try done;
      eapply via_mono; [|done]; lia.
    rewrite Hmin by done. intros _. destruct (Z.min_spec (D i j) (D i k + D k j)) as [[Hlt ->]|[Hlt ->]].
    + assert (D i j <> INT64_MAX) as Hf.
      { pose proof (fw_bounds _ _ _ _ X Hi Hk E1). pose proof (fw_bounds _ _ _ _ X Hk Hj E2). unfold INT64_MAX. lia. }
      destruct (fx_walk _ _ X i j Hi Hj Hf) as (l & Hl & Ht & Ed & Ec & Hv). exists l. split_and!; try done. eapply via_mono; [|done]; lia.
    + destruct (fx_walk _ _ X i k Hi Hk E1) as (l1 & Hl1 & Ht1 & Ed1 & Ec1 & Hv1). destruct (fx_walk _ _ X k j Hk Hj E2) as (l2 & Hl2 & Ht2 & Ed2 & Ec2 & Hv2).
      exists (l1 ++ l2). rewrite trail_app, dest_app, cost_app, Ed1. split; [by destruct l1|]. split; [done|]. split; [done|]. split; [lia|].
      apply via_app; [done|eapply via_mono; [|done]; lia|]. assert (Forall (fun a => a.1 <= k) l1) as HF by (eapply (via_last k i); [done|done|lia]).
      eapply Forall_impl; [exact HF|]. simpl. lia.
Qed.
End Exact.

(** ** The function *)
Lemma fw_matrix_cells n edges D :
  Forall (fun ed => is_i32 (fe_weight ed)) edges -> (forall i j, D i j = INT64_MAX \/ is_i32 (D i j)) ->
  forall i j, fold_left (fw_add n) edges D i j = INT64_MAX \/ is_i32 (fold_left (fw_add n) edges D i j).
Proof.
  intros He. revert D. induction He as [|ed edges Hw _ IH]; intros D HD; [done|]. simpl. apply IH. intros i j. unfold fw_add.
  destruct ((fe_from ed <? n) && (fe_to ed <? n)); [|done]. unfold put2. destruct ((i =? fe_from ed) && (j =? fe_to ed)); auto.
Qed.

Section Matrix.
Context (n : Z) (D0 : matrix_fun) (Hn : 0 < n < 2 ^ 31) (Hcells : forall i j, D0 i j = INT64_MAX \/ is_i32 (D0 i j)).
Notation E := (cell_arc n D0).

Lemma cell_arc_ok u v w : E u v w -> 0 <= u < n /\ 0 <= v < n /\ is_i32 w.
Proof. intros (Hu & Hv & <- & Hw). split; [done|]. split; [done|]. by destruct (Hcells u v). Qed.

Lemma matrix_sound : fw_sound n E D0.
Proof.
  split; intros i j Hi Hj.
  - destruct (Hcells i j) as [->|H]; [lia|]. unfold is_i32, INT64_MAX in *. lia.
  - intros Hf. exists [(j, D0 i j)]. simpl. split_and!; try done. lia.
Qed.

Lemma matrix_exact : (forall i, 0 <= i < n -> 0 <= D0 i i) -> fw_exact n E 0 D0.
Proof.
  intros Hd. split; [| |done].
  - intros i l Hi Hl Ht Hv. destruct l as [|[v w] l _] using rev_ind; [done|]. rewrite via_snoc in Hv.
    destruct l as [|[x y] l].
    + destruct Ht as [(_ & Hj & Ew & Hw) _]. simpl. rewrite Ew. split; [done|lia].
    + destruct Ht as [He _]. apply cell_arc_ok in He. apply Forall_cons in Hv as [Hv _]. simpl in Hv. lia.
  - intros i j Hi Hj Hf. exists [(j, D0 i j)]. split; [done|]. split; [done|]. split; [done|]. split; [simpl; lia|]. apply Forall_nil_2.
Qed.

Lemma negative_or_not (D : matrix_fun) : (exists x, 0 <= x < n /\ D x x < 0) \/ forall x, 0 <= x < n -> 0 <= D x x.
Proof.
  destruct (decide (Exists (fun x => D x x < 0) (seqZ 0 n))) as [H|H].
  - left. apply Exists_exists in H as (x & Hx%elem_of_seqZ & Hlt). exists x. split; [lia|done].
  - right. intros x Hx. apply not_Exists_Forall in H; [|apply _]. apply Z.le_ngt. intros Hlt.
    apply (proj1 (Forall_forall _ _) H x); [apply elem_of_seqZ; lia|done].
Qed.

(** The state between rounds: a negative cell of the diagonal, or exact
    distances through the first [k] vertices. *)
Definition fw_state (k : Z) (D : matrix_fun) : Prop := fw_sound n E D /\ ((exists x, 0 <= x < n /\ D x x < 0) \/ fw_exact n E k D).

Lemma wp_fw_rounds p (Q : ptr Z -> Prop) :
  matrix p n D0 -> (forall p' D, matrix p' n D -> fw_state n D -> Q p') -> wp (zfor 0 n (fun k dist => fw_round n k dist) p) Q.
Proof.
  intros Hp HQ. apply (wp_zfor (fun k p => exists D, matrix p n D /\ fw_state k D)).
  - exists D0. split; [done|]. split; [apply matrix_sound|]. destruct (negative_or_not D0) as [H|H]; [by left|right; by apply matrix_exact].
  - intros k p' Hk (D & Hp' & S & HD). eapply (wp_fw_round n ltac:(lia) E); [done|done|exact S|]. intros p2 D2 Hp2 S2 Hb Hstep.
    exists D2. split; [done|]. split; [done|]. destruct (negative_or_not D2) as [H|H]; [by left|right].
    destruct HD as [(x & Hx & Hneg)|X]; [pose proof (H x Hx); pose proof (Hb x x Hx Hx); lia|].
    apply (fw_exact_step n ltac:(lia) E cell_arc_ok ltac:(lia) k D D2); [done|done|apply Hstep; by apply X|done].
  - intros p' (D & Hp' & HD). rewrite Z.max_r in HD by lia. by apply (HQ p' D).
Qed.

(** Walks with at least one edge; distances between all pairs are their least
    costs. *)
Definition all_shortest (D : matrix_fun) : Prop := forall i j, 0 <= i < n -> 0 <= j < n ->
  (D i j = INT64_MAX /\ forall l, l <> [] -> trail E i l -> dest i l <> j) \/
  (D i j <> INT64_MAX /\ (exists l, l <> [] /\ trail E i l /\ dest i l = j /\ cost l = D i j) /\
   forall l, l <> [] -> trail E i l -> dest i l = j -> D i j <= cost l).

Lemma via_all i l : trail E i l -> via n l.
Proof.
  intros Ht. destruct l as [|a l _] using rev_ind; [apply Forall_nil_2|]. rewrite via_snoc. apply trail_app in Ht as [Ht _].
  apply Forall_forall. intros [v w] Hin. pose proof (trail_targets n E cell_arc_ok i l v Ht) as H. simpl. apply H. apply list_elem_of_fmap. by exists (v, w).
Qed.

Lemma exact_shortest D : fw_exact n E n D ->
  all_shortest D /\ forall i l, 0 <= i < n -> trail E i l -> dest i l = i -> 0 <= cost l.
Proof.
  intros X. split.
  - intros i j Hi Hj. destruct (Z.eq_dec (D i j) INT64_MAX) as [Hf|Hf].
    + left. split; [done|]. intros l Hl Ht Ed. destruct (fx_min _ _ _ _ X i l Hi Hl Ht (via_all i l Ht)) as [H _]. by rewrite Ed in H.
    + right. split; [done|]. split.
      * destruct (fx_walk _ _ _ _ X i j Hi Hj Hf) as (l & Hl & Ht & Ed & Ec & _). by exists l.
      * intros l Hl Ht Ed. destruct (fx_min _ _ _ _ X i l Hi Hl Ht (via_all i l Ht)) as [_ H]. by rewrite Ed in H.
  - intros i l Hi Ht Ed. destruct (decide (l = [])) as [->|Hl]; [done|].
    destruct (fx_min _ _ _ _ X i l Hi Hl Ht (via_all i l Ht)) as [_ H]. rewrite Ed in H. pose proof (fx_diag _ _ _ _ X i Hi). lia.
Qed.
End Matrix.

Lemma floyd_warshall_spec n edges ecount b :
  0 < n < 2 ^ 31 -> n * n * 8 < 2 ^ 64 -> 0 <= ecount <= zlen edges -> zlen b = n * n ->
  Forall (fun ed => 0 <= fe_from ed /\ 0 <= fe_to ed) edges -> Forall (fun ed => is_i32 (fe_weight ed)) edges ->
  let D0 := fw_matrix n (take (Z.to_nat ecount) edges) in
  wp (scl_search_floyd_warshall n (Some edges) ecount (Ptr b)) (fun '(e, dist) => exists D, matrix dist n D /\
    (e = SCL_OK /\ all_shortest n D0 D /\ (forall i l, 0 <= i < n -> trail (cell_arc n D0) i l -> dest i l = i -> 0 <= cost l) \/
     e = SCL_ERR_INVALID_STATE /\ exists i l, 0 <= i < n /\ trail (cell_arc n D0) i l /\ dest i l = i /\ cost l < 0)).
Proof.
  intros Hn Hfit He Hb Hr Hw D0. unfold scl_search_floyd_warshall. destruct (Z.leb_spec n 0); [lia|]. rewrite (u64_small n) by lia.
  assert (n <= SIZE_MAX / n) as Hq by (unfold SIZE_MAX; apply Z.div_le_lower_bound; nia). cbv zeta. rewrite Z.gtb_ltb.
  destruct (Z.ltb_spec (SIZE_MAX / n) n); [lia|]. rewrite (u64_small (n * n)) by nia. rewrite scl_mul_overflow_spec by (unfold is_u64; nia).
  destruct (Z.ltb_spec (n * n * 8) (2 ^ 64)); [|lia].
  assert (forall i j, D0 i j = INT64_MAX \/ is_i32 (D0 i j)) as Hcells.
  { apply fw_matrix_cells; [by apply Forall_take|]. intros i j. unfold fw_blank, is_i32. destruct (i =? j); [right; lia|by left]. }
  wstep. apply wp_fw_clear; [lia|done|]. intros p1 M1. wstep. eapply wp_fw_edges; [lia|done|done|exact M1|]. intros p2 M2. wstep.
  apply (wp_fw_rounds n D0 Hn Hcells p2); [exact M2|]. intros p3 D M3 [S HD]. wstep.
  apply (wp_zfor_ret (fun i _ => forall x, 0 <= x < i -> 0 <= D x x) 0 n _ _ (fun r => wp _ _)).
  - intros x Hx. lia.
  - intros i [] Hi Hx. wstep. eapply wp_matrix_get; [done|done|done|]. destruct (Z.ltb_spec (D i i) 0); wstep.
    + wstep. exists D. split; [exact M3|]. right. split; [done|]. destruct (fs_walk _ _ _ S i i Hi Hi) as (l & _ & Ht & Ed & Ec); [unfold INT64_MAX; lia|].
      exists i, l. split; [done|]. split; [done|]. split; [done|]. lia.
    + intros x Hx'. destruct (Z.eq_dec x i) as [->|]; [done|]. apply Hx. lia.
  - intros [] Hx. rewrite Z.max_r in Hx by lia. wstep. exists D. split; [exact M3|]. left. split; [done|].
    destruct HD as [(x & Hxr & Hneg)|X]; [pose proof (Hx x Hxr); lia|]. by apply exact_shortest.
Qed.

(** C11. Floyd-Warshall, on at most [INT_MAX] vertices and any list of edges with
    [int] weights, returns without signed overflow or stray access, and decides
    whether there is a negative cycle; without one the matrix holds, for every
    pair, the least cost of a walk with at least one edge, or the sentinel where
    there is none.  The graph is that of the last edge given for every pair,
    and of zero weights on the rest of the diagonal; edges outside the matrix
    are ignored.  A matrix whose size overflows, and bad arguments, are
    refused. *)
Theorem floyd_warshall_shortest (n : Z) (edges : list scl_edge_t) (ecount : Z) (b : block Z) (Hn : is_i32 n)
  (He : 0 <= ecount <= zlen edges) (Hr : Forall (fun ed => 0 <= fe_from ed /\ 0 <= fe_to ed) edges)
  (Hw : Forall (fun ed => is_i32 (fe_weight ed)) edges) :
  (0 < n -> n * n * 8 < 2 ^ 64 -> zlen b = n * n -> let D0 := fw_matrix n (take (Z.to_nat ecount) edges) in
     exists e dist D, scl_search_floyd_warshall n (Some edges) ecount (Ptr b) = Ok (e, dist) /\ matrix dist n D /\
       (e = SCL_OK /\ all_shortest n D0 D /\ (forall i l, 0 <= i < n -> trail (cell_arc n D0) i l -> dest i l = i -> 0 <= cost l) \/
        e = SCL_ERR_INVALID_STATE /\ exists i l, 0 <= i < n /\ trail (cell_arc n D0) i l /\ dest i l = i /\ cost l < 0)) /\
  (0 < n -> 2 ^ 64 <= n * n * 8 -> scl_search_floyd_warshall n (Some edges) ecount (Ptr b) = Ok (SCL_ERR_SIZE_OVERFLOW, Ptr b)) /\
  (n <= 0 -> scl_search_floyd_warshall n (Some edges) ecount (Ptr b) = Ok (SCL_ERR_EMPTY, Ptr b)) /\
  (forall dist, scl_search_floyd_warshall n None ecount dist = Ok (SCL_ERR_NULL_PTR, dist)).
Proof.
  unfold is_i32 in Hn. split; [|split; [|split]].
  - intros H0 Hfit Hb D0. destruct (proj1 (wp_ok _ _) (floyd_warshall_spec n edges ecount b ltac:(lia) Hfit He Hb Hr Hw)) as ([e dist] & E & D & H).
    by exists e, dist, D.
  - intros H0 Hbig. unfold scl_search_floyd_warshall. destruct (Z.leb_spec n 0); [lia|]. rewrite (u64_small n) by lia.
    assert (n <= SIZE_MAX / n) as Hq by (unfold SIZE_MAX; apply Z.div_le_lower_bound; nia). cbv zeta. rewrite Z.gtb_ltb.
    destruct (Z.ltb_spec (SIZE_MAX / n) n); [lia|]. rewrite (u64_small (n * n)) by nia. rewrite scl_mul_overflow_spec by (unfold is_u64; nia).
    by destruct (Z.ltb_spec (n * n * 8) (2 ^ 64)); [lia|].
  - intros H0. unfold scl_search_floyd_warshall. by destruct (Z.leb_spec n 0); [|lia].
  - by intros [].
Qed.

Lemma floyd_warshall_shortest_witness :
  exists dist D, scl_search_floyd_warshall 2 (Some [FwEdge 0 1 5; FwEdge 1 0 (-3)]) 2 (Ptr [None; None; None; None]) = Ok (SCL_OK, dist) /\
    matrix dist 2 D /\ all_shortest 2 (fw_matrix 2 [FwEdge 0 1 5; FwEdge 1 0 (-3)]) D.
Proof.
  destruct (floyd_warshall_shortest 2 [FwEdge 0 1 5; FwEdge 1 0 (-3)] 2 [None; None; None; None]) as [H _].
  - unfold is_i32. lia.
  - by vm_compute.
  - by repeat constructor.
  - repeat constructor; simpl; lia.
  - destruct (H ltac:(lia) ltac:(lia) ltac:(by vm_compute)) as (e & dist & D & E & Hm & [(-> & Hs & _)|(-> & _)]); [by exists dist, D|].
    exfalso. vm_compute in E. discriminate E.
Defined.

(** A self-loop of positive weight replaces the zero of its diagonal cell, and
    a heavier duplicate of an edge replaces the lighter one. *)
Theorem floyd_warshall_overwrites :
  match scl_search_floyd_warshall 2 (Some [FwEdge 0 0 5; FwEdge 0 1 1; FwEdge 0 1 9]) 3 (Ptr [None; None; None; None]) with
  | Ok (e, Ptr b) => e = SCL_OK /\ zlook b 0 = Some (Some 5) /\ zlook b 1 = Some (Some 9)
  | _ => False
  end.
Proof. by vm_compute. Qed.
