(* ===== verification/Dijkstra.v ===== *)
(** Single-source shortest paths with non-negative weights:
    [scl_search_dijkstra] ([libs/search/dijkstra]), with a binary heap whose
    stale entries are skipped. *)

From stdpp Require Import relations.
From S2P Require Import Prelude Core Refine Containers Array Heap Graph GraphSearch Walks BellmanFord.
#[local] Open Scope Z_scope.
#[local] Arguments scl_mul_overflow : simpl never.

Record dj_heap_entry_t : Type := Entry { de_d : Z; de_v : Z }.

Notation heap_ptr := (ptr dj_heap_entry_t).

(** [t = h[a]; h[a] = h[b]; h[b] = t]. *)
Definition dj_swap (h : heap_ptr) (a b : Z) : res heap_ptr :=
  t ← get_elem h a; y ← get_elem h b;
  h ← set_elem h a y; set_elem h b t.

Definition dj_sift_up (h : heap_ptr) (i : Z) : res heap_ptr :=
  loop (S (Z.to_nat i))
    (fun '(h, i) =>
       if i >? 0 then
         let p := u64 (i - 1) / 2 in
         x ← get_elem h p; y ← get_elem h i;
         if de_d x <=? de_d y then mret (inr h)
         else h ← dj_swap h p i; mret (inl (h, p))
       else mret (inr h))
    (h, i).

(** [if (c < n && h[c].d < h[m].d) m = c]. *)
Definition dj_pick (h : heap_ptr) (n c m : Z) : res Z :=
  if c <? n then
    x ← get_elem h c; y ← get_elem h m;
    mret (if de_d x <? de_d y then c else m)
  else mret m.

Definition dj_sift_down (h : heap_ptr) (n i : Z) : res heap_ptr :=
  loop (S (Z.to_nat n))
    (fun '(h, i) =>
       m ← dj_pick h n (u64 (2 * i + 1)) i;
       m ← dj_pick h n (u64 (2 * i + 2)) m;
       if m =? i then mret (inr h)
       else h ← dj_swap h m i; mret (inl (h, m)))
    (h, i).

(** The edges of the vertex popped last; a negative weight ends the search. *)
Definition dj_scan (g : scl_graph_t) (cap v : Z) (s : ptr Z * ptr Z * heap_ptr * Z)
    : res ((ptr Z * ptr Z * heap_ptr * Z) + (ptr Z * ptr Z * heap_ptr)) :=
  for_edges g v
    (fun ed '(dist, prev, heap, hn) =>
       let w := ed_weight ed in
       let to := ed_to ed in
       if w <? 0 then mret (inr (dist, prev, heap))
       else
         dv ← get_elem dist v;
         match add_overflow_i64 dv w with
         | Some nd =>
             dt ← get_elem dist to;
             if nd <? dt then
               dist ← set_elem dist to nd;
               prev ← set_elem prev to (i32 v);
               if hn <? cap then
                 heap ← set_elem heap hn (Entry nd to);
                 heap ← dj_sift_up heap hn;
                 mret (inl (dist, prev, heap, hn + 1))
               else mret (inl (dist, prev, heap, hn))
             else mret (inl (dist, prev, heap, hn))
         | None => mret (inl (dist, prev, heap, hn))
         end) s.

(** [while (hn > 0)]: every round removes an entry, and at most [cap] are ever
    stored. *)
Definition dj_loop (g : scl_graph_t) (cap : Z) (s : ptr Z * ptr Z * heap_ptr * Z)
    : res (scl_error_t * (ptr Z * ptr Z * heap_ptr)) :=
  loop (S (S (Z.to_nat cap)))
    (fun '(dist, prev, heap, hn) =>
       if hn >? 0 then
         top ← get_elem heap 0;
         let hn := hn - 1 in
         last ← get_elem heap hn;
         heap ← set_elem heap 0 last;
         heap ← dj_sift_down heap hn 0;
         dv ← get_elem dist (de_v top);
         if de_d top >? dv then mret (inl (dist, prev, heap, hn))
         else
           r ← dj_scan g cap (de_v top) (dist, prev, heap, hn);
           match r with
           | inl s => mret (inl s)
           | inr s => mret (inr (SCL_ERR_INVALID_ARG, s))
           end
       else mret (inr (SCL_OK, (dist, prev, heap)))) s.

Definition scl_search_dijkstra (al : scl_allocator_t) (w : world) (graph : option scl_graph_t) (start : Z) (dist prev : ptr Z)
    : res (scl_error_t * ptr Z * ptr Z * world) :=
  match graph, dist, prev with
  | None, _, _ | _, Null, _ | _, _, Null => mret (SCL_ERR_NULL_PTR, dist, prev, w)
  | Some g, _, _ =>
      match a_data (g_nodes g) with
      | Null => mret (SCL_ERR_INVALID_ARG, dist, prev, w)
      | _ =>
          let n := g_vertex_count g in
          if (start <? 0) || (u64 start >=? n) then mret (SCL_ERR_INVALID_INDEX, dist, prev, w)
          else if n =? 0 then mret (SCL_ERR_EMPTY, dist, prev, w)
          else
            '(dist, prev) ← fill_unreached n dist prev;
            dist ← set_elem dist start 0;
            match scl_add_overflow (g_edge_count g) 1 with
            | None => mret (SCL_ERR_SIZE_OVERFLOW, dist, prev, w)
            | Some cap =>
                match scl_mul_overflow cap 16 with
                | None => mret (SCL_ERR_SIZE_OVERFLOW, dist, prev, w)
                | Some capbytes =>
                    match scl_alloc (A := dj_heap_entry_t) al w capbytes 8 16 with
                    | (None, w) => mret (SCL_ERR_OUT_OF_MEMORY, dist, prev, w)
                    | (Some heap, w) =>
                        heap ← set_elem (Ptr heap) 0 (Entry 0 start);
                        '(result, (dist, prev, heap)) ← dj_loop g cap (dist, prev, heap, 1);
                        w ← free_ptr w heap;
                        mret (result, dist, prev, w)
                    end
                end
            end
      end
  end.

(** * The heap

    It is the heap of [Heap], ordered by distance. *)
Definition by_dist (x y : dj_heap_entry_t) : Z := Zcmp (de_d x) (de_d y).

#[export] Instance by_dist_comparator : Comparator by_dist.
Proof.
  split; unfold by_dist.
  - intros x y. apply Zcmp_comparator.
  - intros x y z. apply Zcmp_comparator.
Qed.

Lemma dj_swap_eq h a b : dj_swap h a b = scl_heap_swap h a b.
Proof. done. Qed.

Lemma heap_swap_comm {A} (h : ptr A) i j : scl_heap_swap h i j = scl_heap_swap h j i.
Proof.
  destruct h as [|b|]; [done| |done]. destruct (Z.eq_dec i j) as [->|Hne]; [done|]. unfold scl_heap_swap, get_elem, set_elem, get_cell, get.
  destruct (zlook b i) as [[x|]|] eqn:Ei, (zlook b j) as [[y|]|] eqn:Ej; try done.
  apply zlook_Some in Ei, Ej. simpl. unfold set. rewrite ?zlen_zupd.
  destruct (Z.leb_spec 0 i), (Z.leb_spec 0 j), (Z.ltb_spec i (zlen b)), (Z.ltb_spec j (zlen b)); try lia. simpl.
  rewrite !zlen_zupd. destruct (Z.leb_spec 0 i), (Z.leb_spec 0 j), (Z.ltb_spec i (zlen b)), (Z.ltb_spec j (zlen b)); try lia. simpl.
  do 2 f_equal. apply zlook_ext. intros k. rewrite !zlook_zupd, !zlen_zupd. repeat case_decide; try done; lia.
Qed.

Lemma dj_sift_up_eq h i : dj_sift_up h i = scl_heap_sift_up by_dist h i.
Proof.
  apply loop_ext. intros [h' j]. destruct (j >? 0); [|done]. cbv zeta. unfold scl_heap_parent.
  destruct (get_elem h' (u64 (j - 1) / 2)) as [x| |]; [|done..]. simpl. destruct (get_elem h' j) as [y| |]; [|done..]. simpl.
  assert (de_d x <=? de_d y = (by_dist x y <=? 0)) as ->.
  { unfold by_dist. pose proof (Zcmp_le (de_d x) (de_d y)). destruct (Z.leb_spec (de_d x) (de_d y)), (Z.leb_spec (Zcmp (de_d x) (de_d y)) 0); tauto || lia. }
  destruct (by_dist x y <=? 0); [done|]. by rewrite dj_swap_eq, heap_swap_comm.
Qed.

Lemma dj_pick_eq h n c m : dj_pick h n c m = smaller_child by_dist h n c m.
Proof.
  unfold dj_pick, smaller_child. destruct (c <? n); [|done]. destruct (get_elem h c) as [x| |]; [|done..]. simpl.
  destruct (get_elem h m) as [y| |]; [|done..]. simpl. do 2 f_equal. unfold by_dist, Zcmp.
  destruct (Z.ltb_spec (de_d x) (de_d y)), (Z.ltb_spec (de_d y) (de_d x)); lia || done.
Qed.

Lemma dj_sift_down_eq h n i : dj_sift_down h n i = scl_heap_sift_down by_dist h n i.
Proof.
  apply loop_ext. intros [h' j]. rewrite dj_pick_eq. unfold scl_heap_left, scl_heap_right.
  destruct (smaller_child by_dist h' n (u64 (2 * j + 1)) j) as [m| |]; [|done..]. simpl. rewrite dj_pick_eq.
  destruct (smaller_child by_dist h' n (u64 (2 * j + 2)) m) as [m'| |]; [|done..]. simpl.
  destruct (m' =? j); [done|]. by rewrite dj_swap_eq, heap_swap_comm.
Qed.

Lemma bind_assoc {A B C} (m : res A) (f : A -> res B) (k : B -> res C) : (y ← (x ← m; f x); k y) = (x ← m; y ← f x; k y).
Proof. by destruct m. Qed.

Definition holds_heap (p : heap_ptr) (cap : Z) (l : list dj_heap_entry_t) : Prop :=
  exists b, p = Ptr b /\ zlen b = cap /\ stored b l /\ heap_ordered by_dist l.

Lemma wp_dj_push p cap l x (Q : heap_ptr -> Prop) :
  holds_heap p cap l -> zlen l < cap < 2 ^ 63 -> (forall p' l', l' ≡ₚ x :: l -> holds_heap p' cap l' -> Q p') ->
  wp (h ← set_elem p (zlen l) x; dj_sift_up h (zlen l)) Q.
Proof.
  intros (b & -> & Eb & S & Hh) Hl HQ. pose proof (zlen_nonneg l). assert (zlen (l ++ [x]) = zlen l + 1) as El by by rewrite zlen_app.
  wstep. apply wp_set_elem; [lia|]. rewrite dj_sift_up_eq.
  apply (sift_up_spec by_dist _ (l ++ [x])); [apply stored_snoc; [lia|done]|lia|lia|by apply snoc_up_hole|].
  intros b' l' Eb' S' P Hh'. apply (HQ _ l'); [by rewrite P, Permutation_app_comm|]. exists b'. rewrite zlen_zupd in Eb'. by split_and!; [|lia| |].
Qed.

Lemma wp_dj_pop p cap top l (Q : heap_ptr -> Prop) :
  holds_heap p cap (top :: l) -> cap < 2 ^ 63 -> (forall p' l', l' ≡ₚ l -> holds_heap p' cap l' -> Q p') ->
  wp (last ← get_elem p (zlen l); h ← set_elem p 0 last; dj_sift_down h (zlen l) 0) Q.
Proof.
  intros (b & -> & Eb & S & Hh) Hcap HQ. pose proof (zlen_nonneg l). pose proof (stored_len _ _ S) as Hlen. rewrite zlen_cons in Hlen.
  destruct (list_last_case l) as [->|(t & y & ->)].
  - change (zlen (@nil dj_heap_entry_t)) with 0 in *. wstep. eapply wp_get_elem; [apply S; done|]. wstep. apply wp_set_elem; [lia|]. simpl.
    apply (HQ _ []); [done|]. eexists. split; [done|]. split; [by rewrite zlen_zupd|]. split; [apply stored_nil|].
    intros i c _ u v Hu. by rewrite zlook_nil in Hu.
  - assert (zlen (t ++ [y]) = zlen t + 1) as Et by by rewrite zlen_app. rewrite Et in *. pose proof (zlen_nonneg t).
    rewrite app_comm_cons in S. apply stored_prefix in S as [S Sy]. rewrite zlen_cons in Sy. wstep. eapply wp_get_elem; [done|].
    wstep. apply wp_set_elem; [lia|].
    assert (stored (zupd b 0 (Some y)) (y :: t)) as S'.
    { assert (y :: t = zupd (top :: t) 0 y) as -> by done. apply stored_update; [rewrite zlen_cons; lia|done]. }
    rewrite dj_sift_down_eq. rewrite <- (zlen_cons y t).
    apply (heap_sift_down_spec by_dist _ (y :: t)); [done|rewrite zlen_cons; lia|by eapply last_down_hole|].
    intros b' l' Eb' S2 P Hh'. rewrite zlen_zupd in Eb'. apply (HQ _ l'); [rewrite P; by rewrite <- Permutation_cons_append|].
    exists b'. by split_and!; [|lia| |].
Qed.

(** * The invariant

    [K] are the scanned vertices, [H] the entries of the heap, and [C] the
    edges accounted for. *)
Definition degree (adj : adjacency) (v : Z) : Z := match zlook adj v with Some row => zlen row | None => 0 end.
Fixpoint degrees (adj : adjacency) (K : list Z) : Z := match K with [] => 0 | v :: K => degree adj v + degrees adj K end.

Lemma degree_nonneg adj v : 0 <= degree adj v.
Proof. unfold degree. destruct (zlook adj v); [apply zlen_nonneg|lia]. Qed.

Lemma degrees_perm adj K K' : K ≡ₚ K' -> degrees adj K = degrees adj K'.
Proof. induction 1; simpl; lia. Qed.

Lemma degrees_app adj K K' : degrees adj (K ++ K') = degrees adj K + degrees adj K'.
Proof. induction K; simpl; lia. Qed.

Lemma degrees_nonneg adj K : 0 <= degrees adj K.
Proof. induction K as [|v K IH]; simpl; [lia|]. pose proof (degree_nonneg adj v). lia. Qed.

Lemma degrees_prefix adj k : (k <= length adj)%nat -> degrees adj (seqZ 0 (Z.of_nat k)) = edge_total (take k adj).
Proof.
  induction k as [|k IH]; intros Hk; [done|]. rewrite seqZ_S, degrees_app, IH by lia.
  destruct (lookup_lt_is_Some_2 adj k ltac:(lia)) as [row Hrow]. rewrite (take_S_r _ _ row) by done.
  unfold edge_total. rewrite concat_app, zlen_app. simpl. rewrite app_nil_r. unfold degree, zlook.
  destruct (Z.leb_spec 0 (0 + Z.of_nat k)); [|lia]. replace (Z.to_nat (0 + Z.of_nat k)) with k by lia. rewrite Hrow. lia.
Qed.

Lemma degrees_total adj K : NoDup K -> (forall v, v ∈ K -> 0 <= v < zlen adj) -> degrees adj K <= edge_total adj.
Proof.
  intros N Hr. assert (K ⊆+ seqZ 0 (zlen adj)) as Hsub.
  { apply NoDup_submseteq; [done|]. intros v Hv%Hr. apply elem_of_seqZ. lia. }
  apply submseteq_Permutation in Hsub as [k Hp]. pose proof (degrees_prefix adj (length adj) ltac:(lia)) as E.
  rewrite take_ge in E by lia. fold (zlen adj) in E. rewrite (degrees_perm _ _ _ Hp), degrees_app in E. pose proof (degrees_nonneg adj k). lia.
Qed.

Section Invariant.
Context (adj : adjacency) (s : Z).
Notation E := (arc adj).
Implicit Types (d p : Z -> Z) (K : list Z) (H : list dj_heap_entry_t) (C : Z -> Z -> Z -> Prop).

Record dj_inv d p K H C : Prop := DjInv {
  dj_sound : sound adj s d p;
  dj_nodup : NoDup K;
  dj_range : forall v, v ∈ K -> 0 <= v < zlen adj;
  dj_low : forall v, 0 <= d v;
  dj_bound : forall v, d v <> INT64_MAX -> d v <= zlen K * 2 ^ 31;
  dj_heap : NoDup H;
  dj_entry : forall x v, Entry x v ∈ H ->
    0 <= v < zlen adj /\ d v <> INT64_MAX /\ d v <= x /\ (v ∈ K -> d v < x) /\ forall u, u ∈ K -> d u <= x;
  dj_queued : forall v, d v <> INT64_MAX -> v ∈ K \/ Entry (d v) v ∈ H;
  dj_closed : forall u t w, C u t w -> u ∈ K /\ 0 <= w /\ d u <> INT64_MAX /\ d t <= d u + w
}.

Lemma dj_inv_perm d p K H H' C C' : H ≡ₚ H' -> (forall u t w, C' u t w -> C u t w) -> dj_inv d p K H C -> dj_inv d p K H' C'.
Proof.
  intros P HC [A1 A2 A3 A4 A5 A6 A7 A8 A9]. split; try done.
  - by rewrite <- P.
  - intros x v. rewrite <- P. apply A7.
  - intros v. rewrite <- P. apply A8.
  - intros u t w Hu. by apply A9, HC.
Qed.

Lemma dj_inv_start : 0 <= s < zlen adj ->
  dj_inv (update (fun _ => INT64_MAX) s 0) (fun _ => -1) [] [Entry 0 s] (fun _ _ _ => False).
Proof.
  intros Hs. assert (forall v, update (fun _ => INT64_MAX) s 0 v = 0 /\ v = s \/ update (fun _ => INT64_MAX) s 0 v = INT64_MAX) as Hup.
  { intros v. unfold update. destruct (Z.eqb_spec v s); auto. }
  split; [apply sound_start|constructor| | | |apply NoDup_singleton| | |done].
  - by intros v ?%elem_of_nil.
  - intros v. unfold INT64_MAX in *. destruct (Hup v) as [[-> _]| ->]; lia.
  - intros v Hv. change (zlen []) with 0. destruct (Hup v) as [[-> _]|]; [lia|done].
  - intros x v [= -> ->]%list_elem_of_singleton. destruct (Hup s) as [[-> _]|Hx].
    + split_and!; try lia; [done|by intros ?%elem_of_nil|by intros u ?%elem_of_nil].
    + unfold update in Hx. by rewrite Z.eqb_refl in Hx.
  - intros v Hv. right. destruct (Hup v) as [[-> ->]|]; [by left|done].
Qed.

(** A popped entry is stale, or it is the next vertex to scan. *)
Lemma dj_pop_stale d p K H C x v : dj_inv d p K (Entry x v :: H) C -> d v < x -> dj_inv d p K H C.
Proof.
  intros [A1 A2 A3 A4 A5 A6 A7 A8 A9] Hlt. split; try done.
  - by apply NoDup_cons in A6 as [_ ?].
  - intros y u Hy. apply A7. by right.
  - intros u Hu. destruct (A8 u Hu) as [|[[= Ex ->]|]%elem_of_cons]; [by left|lia|by right].
Qed.

Lemma dj_pop_fresh d p K H C x v : dj_inv d p K (Entry x v :: H) C -> x <= d v -> (forall y u, Entry y u ∈ H -> x <= y) ->
  dj_inv d p (v :: K) H C /\ 0 <= v < zlen adj /\ d v <= zlen K * 2 ^ 31 /\ (forall u, u ∈ v :: K -> d u <= d v).
Proof.
  intros [A1 A2 A3 A4 A5 A6 A7 A8 A9] Hge Hleast. destruct (A7 x v) as (Hv & Hfin & Hle & Hset & Hmin); [by left|].
  assert (x = d v) as -> by lia. apply NoDup_cons in A6 as [Hnew A6].
  assert (v ∉ K) as HvS by (intros ?%Hset; lia).
  split; [split; try done| ].
  - by constructor.
  - intros u [->|Hu]%elem_of_cons; auto.
  - intros u Hu%A5. rewrite zlen_cons. lia.
  - intros y u Hy. destruct (A7 y u) as (Hu & Hf & Hle' & Hs' & Hm'); [by right|]. split_and!; try lia; try done.
    + intros [->|Hin]%elem_of_cons; [|by apply Hs']. assert (d v <> y) by (intros <-; done). lia.
    + intros z [->|Hz]%elem_of_cons; [by eapply Hleast|by apply Hm'].
  - intros u Hu. destruct (A8 u Hu) as [|[[= Ex ->]|]%elem_of_cons]; [left; by right|left; by left|by right].
  - intros u t w HC. destruct (A9 u t w HC) as (Hu & Hx). split; [by right|done].
  - split; [done|]. split; [by apply A5|]. intros u [->|Hu]%elem_of_cons; [lia|by apply Hmin].
Qed.

(** An edge of the scanned vertex is accounted for, with or without an
    improvement. *)
Definition also C u t w : Z -> Z -> Z -> Prop := fun u' t' w' => C u' t' w' \/ u' = u /\ t' = t /\ w' = w.

Lemma dj_keep d p K H C u t w : dj_inv d p K H C -> u ∈ K -> d u <> INT64_MAX -> 0 <= w -> d t <= d u + w -> dj_inv d p K H (also C u t w).
Proof.
  intros [A1 A2 A3 A4 A5 A6 A7 A8 A9] Hu Hf Hw Hle. split; try done. intros u' t' w' [HC|(-> & -> & ->)]; [by apply A9|done].
Qed.

Lemma sound_update d p u t w : sound adj s d p -> E u t w -> d u <> INT64_MAX -> - 2 ^ 63 <= d u + w -> d u + w < d t ->
  sound adj s (update d t (d u + w)) (update p t u).
Proof.
  intros K He Hu Hlow Hlt. pose proof (relax_sound adj s (Labels d p false) u t w He K) as Hr. unfold relax in Hr. cbn [lb_dist lb_prev] in Hr.
  destruct (Z.eqb_spec (d u) INT64_MAX); [done|]. pose proof (so_capped _ _ _ _ K t). unfold add_overflow_i64 in Hr.
  destruct (Z.leb_spec (- 2 ^ 63) (d u + w)), (Z.leb_spec (d u + w) INT64_MAX); try lia. cbn [andb] in Hr.
  destruct (Z.ltb_spec (d u + w) (d t)); [done|lia].
Qed.

Lemma dj_improve d p K H C u t w : dj_inv d p K H C -> targets_ok adj -> E u t w -> u ∈ K -> d u <> INT64_MAX -> 0 <= w < 2 ^ 31 ->
  d u <= (zlen K - 1) * 2 ^ 31 -> (forall v, v ∈ K -> d v <= d u) -> d u + w < d t ->
  dj_inv (update d t (d u + w)) (update p t u) K (Entry (d u + w) t :: H) (also C u t w).
Proof.
  intros [A1 A2 A3 A4 A5 A6 A7 A8 A9] T He Hu Hf Hw Hb Hmax Hlt. pose proof (A4 u) as Hlow.
  assert (d u + w < INT64_MAX) as Hcap by (pose proof (so_capped _ _ _ _ A1 t); lia).
  assert (t ∉ K) as HtS by (intros ?%Hmax; lia). pose proof (arc_target _ _ _ _ T He) as Htr.
  assert (forall v, update d t (d u + w) v <= d v) as Hle by (intros v; unfold update; destruct (Z.eqb_spec v t) as [->|]; lia).
  assert (forall v, v <> t -> update d t (d u + w) v = d v) as Hne by (intros v Hv; unfold update; by destruct (Z.eqb_spec v t)).
  assert (update d t (d u + w) t = d u + w) as Et by (unfold update; by rewrite Z.eqb_refl).
  assert (forall v, v ∈ K -> update d t (d u + w) v = d v) as HeS by (intros v Hv; apply Hne; by intros ->).
  assert (forall v, d v <> INT64_MAX -> update d t (d u + w) v <> INT64_MAX) as Hfin.
  { intros v Hv. destruct (decide (v = t)) as [->|]; [lia|by rewrite Hne]. }
  split; try done.
  - apply sound_update; auto. lia.
  - intros v. destruct (decide (v = t)) as [->|]; [lia|by rewrite Hne].
  - intros v. destruct (decide (v = t)) as [->|]; [lia|rewrite Hne by done; apply A5].
  - constructor; [|done]. intros Hin. apply A7 in Hin as (_ & _ & ? & _). lia.
  - intros x v [[= -> ->]|Hin]%elem_of_cons.
    + split_and!; try lia; [done|]. intros z Hz. rewrite HeS by done. pose proof (Hmax z Hz). lia.
    + destruct (A7 x v Hin) as (Hv & Hfv & Hx & Hs & Hm). pose proof (Hle v). split_and!; try lia; [by apply Hfin| |].
      * intros HvS. rewrite HeS by done. by apply Hs.
      * intros z Hz. rewrite HeS by done. by apply Hm.
  - intros v. destruct (decide (v = t)) as [->|Hv]; [right; rewrite Et; by left|]. rewrite Hne by done.
    intros [|]%A8; [by left|right; by right].
  - intros u' t' w' [HC|(-> & -> & ->)].
    + destruct (A9 _ _ _ HC) as (Hu' & Hw' & Hf' & Hle'). rewrite HeS by done. pose proof (Hle t'). split_and!; try done. lia.
    + rewrite HeS by done. split_and!; try done; lia.
Qed.

(** With an empty heap the distances are exact. *)
Lemma dj_finished d p K : zlen adj <= 2 ^ 31 -> (forall u t w, E u t w -> is_i32 w) ->
  dj_inv d p K [] (fun u t w => u ∈ K /\ E u t w) ->
  shortest E INT64_MAX s (zlen adj) d /\ explains adj s d p /\ (forall l t w, trail E s l -> E (dest s l) t w -> 0 <= w).
Proof.
  intros Hn Hw [A1 A2 A3 A4 A5 A6 A7 A8 A9]. pose proof (nodup_length K (zlen adj) A2 A3) as HS. pose proof (zlen_nonneg adj).
  assert (forall u t w, E u t w -> d u <> INT64_MAX -> (d t <= d u + w /\ d t <> INT64_MAX) /\ 0 <= w) as Hset.
  { intros u t w He Hu. destruct (A8 u Hu) as [HuS|?%elem_of_nil]; [|done]. destruct (A9 u t w) as (_ & Hw0 & _ & Hle); [done|].
    pose proof (A5 u Hu). pose proof (Hw _ _ _ He). unfold is_i32, INT64_MAX in *. nia. }
  destruct (settled_exact adj s d p A1) as (H1 & H2 & H3); [intros u t w He Hu; by apply Hset|]. split; [done|]. split; [done|].
  intros l t w Hl He. destruct (settled adj s d p A1) with (l := l) as [Hf _]; [intros u' t' w' He' Hu'; by apply (Hset u' t' w')|done|].
  by apply (Hset _ t w He).
Qed.
End Invariant.

(** * The loops *)
Section Loops.
Context (g : scl_graph_t) (adj : adjacency) (G : graph_ok g adj) (Hn : zlen adj <= 2 ^ 31).
Context (Hw : forall u v w, arc adj u v w -> is_i32 w) (s : Z) (cap : Z) (Hcap : cap < 2 ^ 63).

Definition dj_state (st : ptr Z * ptr Z * heap_ptr * Z) d p (H : list dj_heap_entry_t) : Prop :=
  let '(dist, prev, heap, hn) := st in ints dist (zlen adj) d /\ ints prev (zlen adj) p /\ holds_heap heap cap H /\ hn = zlen H.

(** The vertex being scanned is the farthest one settled. *)
Definition frontier d (K : list Z) (u : Z) : Prop :=
  u ∈ K /\ d u <> INT64_MAX /\ d u <= (zlen K - 1) * 2 ^ 31 /\ forall v, v ∈ K -> d v <= d u.

(** A walk reaches an edge of negative weight. *)
Definition reaches_negative : Prop := exists l t w, trail (arc adj) s l /\ arc adj (dest s l) t w /\ w < 0.

Definition scanned (C : Z -> Z -> Z -> Prop) (u : Z) (row : list (Z * Z)) : Z -> Z -> Z -> Prop :=
  fun u' t w => C u' t w \/ u' = u /\ (t, w) ∈ row.

Lemma frontier_kept d K u t nd : frontier d K u -> d u <= nd < d t -> frontier (update d t nd) K u.
Proof.
  intros (Hu & Hf & Hb & Hm) Hnd. assert (forall v, v ∈ K -> update d t nd v = d v) as E.
  { intros v Hv. unfold update. destruct (Z.eqb_spec v t) as [->|]; [|done]. pose proof (Hm t Hv). lia. }
  unfold frontier. rewrite (E u Hu). split_and!; try done. intros v Hv. rewrite E by done. by apply Hm.
Qed.

Lemma wp_dj_scan u row K C st d p H (Q : (ptr Z * ptr Z * heap_ptr * Z) + (ptr Z * ptr Z * heap_ptr) -> Prop) :
  zlook adj u = Some row -> dj_state st d p H -> dj_inv adj s d p K H C -> frontier d K u -> zlen H + zlen row <= cap ->
  (forall st' d' p' H', dj_state st' d' p' H' -> dj_inv adj s d' p' K H' (scanned C u row) -> zlen H' <= zlen H + zlen row -> Q (inl st')) ->
  (forall dist prev b d' p', ints dist (zlen adj) d' -> ints prev (zlen adj) p' -> reaches_negative -> Q (inr (dist, prev, Ptr b))) ->
  wp (dj_scan g cap u st) Q.
Proof.
  intros Hrow Hst I F Hroom HQ HQr.
  apply (wp_for_edges g adj u row _ _ (fun done st => exists d p H', dj_state st d p H' /\ dj_inv adj s d p K H' (scanned C u done) /\
    frontier d K u /\ zlen H' <= zlen H + zlen done)); [done|done| | |].
  - exists d, p, H. split_and!; try done; [|change (zlen []) with 0; lia]. eapply dj_inv_perm; [done| |exact I].
    by intros u' t w [HC|[_ ?%elem_of_nil]].
  - clear dependent d p st. intros seen t w nx rest [[[dist prev] heap] hn] Erow (d & p & H' & (Hd & Hp & Hh & ->) & I & F & Hlen). cbn [ed_to ed_weight].
    assert (arc adj u t w) as He by (exists row; split; [done|]; rewrite Erow; apply elem_of_app; right; by left).
    pose proof F as (Hu & Hf & Hb & Hm). pose proof (dj_range _ _ _ _ _ _ _ I u Hu) as Hur. pose proof (arc_target _ _ _ _ (go_targets _ _ G) He) as Htr.
    pose proof (Hw _ _ _ He) as Hwi. unfold is_i32 in Hwi. pose proof (dj_low _ _ _ _ _ _ _ I u) as Hlow.
    pose proof (nodup_length K (zlen adj) (dj_nodup _ _ _ _ _ _ _ I) (dj_range _ _ _ _ _ _ _ I)) as HK. pose proof (zlen_nonneg rest).
    rewrite Erow, zlen_app, zlen_cons in Hroom.
    destruct (Z.ltb_spec w 0).
    { wstep. destruct Hh as (b & -> & _). eapply HQr; [exact Hd|exact Hp|]. destruct (so_walk _ _ _ _ (dj_sound _ _ _ _ _ _ _ I) u Hf) as (l & Hl & El & _).
      exists l, t, w. by rewrite El. }
    assert (forall u' t' w', scanned C u (seen ++ [(t, w)]) u' t' w' -> also (scanned C u seen) u t w u' t' w') as HC.
    { intros u' t' w' [HC|[-> [Hin|[= -> ->]%list_elem_of_singleton]%elem_of_app]]; [left; by left|left; by right|by right]. }
    rewrite zlen_app. change (zlen [(t, w)]) with 1. wstep. eapply wp_ints_get; [done|done|].
    unfold add_overflow_i64. destruct (Z.leb_spec (- 2 ^ 63) (d u + w)); [|lia]. destruct (Z.leb_spec (d u + w) INT64_MAX); [|unfold INT64_MAX in *; lia].
    cbn [andb]. wstep. eapply wp_ints_get; [done|done|]. destruct (Z.ltb_spec (d u + w) (d t)).
    + pose proof (dj_improve _ _ _ _ _ _ _ u t w I (go_targets _ _ G) He Hu Hf ltac:(lia) Hb Hm ltac:(lia)) as I2.
      wstep. eapply wp_ints_set; [done|done|]. intros dist' Hd'. wstep. rewrite i32_small by (unfold is_i32; lia).
      eapply wp_ints_set; [done|done|]. intros prev' Hp'. destruct (Z.ltb_spec (zlen H') cap); [|lia].
      rewrite <- (bind_assoc (set_elem heap (zlen H') _)). wstep.
      eapply wp_dj_push; [exact Hh|lia|]. intros heap' l' P Hh'. assert (zlen l' = zlen H' + 1) as El' by (unfold zlen; rewrite P; simpl; lia). wstep.
      exists (update d t (d u + w)), (update p t u), l'. split.
      * split_and!; done || lia.
      * split; [by eapply dj_inv_perm; [symmetry; exact P|exact HC|]|]. split; [apply frontier_kept; [done|lia]|]. lia.
    + wstep. exists d, p, H'. split; [done|]. split; [|split; [done|lia]].
      eapply dj_inv_perm; [done|exact HC|]. apply dj_keep; (done || lia).
  - intros st' (d' & p' & H' & Hst' & I' & F' & Hlen). by eapply HQ.
Qed.

Lemma holds_heap_top p x l y : holds_heap p cap (x :: l) -> y ∈ l -> de_d x <= de_d y.
Proof.
  intros (b & _ & _ & _ & Hh) Hy. destruct (heap_least by_dist _ x Hh) as [_ H]; [done|]. apply Zcmp_le, H. by right.
Qed.

Lemma wp_get_top p x l (Q : dj_heap_entry_t -> Prop) : holds_heap p cap (x :: l) -> Q x -> wp (get_elem p 0) Q.
Proof. intros (b & -> & _ & S & _) HQ. eapply wp_get_elem; [by apply S|done]. Qed.

Definition searched (e : scl_error_t) d p : Prop :=
  e = SCL_OK /\ shortest (arc adj) INT64_MAX s (zlen adj) d /\ explains adj s d p /\ ~ reaches_negative \/
  e = SCL_ERR_INVALID_ARG /\ reaches_negative.

(** Settling a vertex pays for the pushes its edges may cause. *)
Lemma room_left K : NoDup K -> (forall v, v ∈ K -> 0 <= v < zlen adj) -> 0 <= edge_total adj - degrees adj K.
Proof. intros N Hr. pose proof (degrees_total adj K N Hr). lia. Qed.

Lemma wp_dj_loop st d p (Q : scl_error_t * (ptr Z * ptr Z * heap_ptr) -> Prop) :
  cap = edge_total adj + 1 -> dj_state st d p [Entry 0 s] -> dj_inv adj s d p [] [Entry 0 s] (fun _ _ _ => False) ->
  (forall e dist prev b d p, ints dist (zlen adj) d -> ints prev (zlen adj) p -> searched e d p -> Q (e, (dist, prev, Ptr b))) ->
  wp (dj_loop g cap st) Q.
Proof.
  intros Ecap Hst I HQ. pose proof (edge_total_nonneg adj) as Htot. unfold dj_loop.
  apply (wp_loop_rel (fun m st => exists K d p H, dj_state st d p H /\ dj_inv adj s d p K H (fun u t w => u ∈ K /\ arc adj u t w) /\
    m = zlen H + (edge_total adj - degrees adj K) /\ m <= cap) cap); [|lia|lia|].
  { exists [], d, p, [Entry 0 s]. split_and!; [done| |change (zlen [Entry 0 s]) with 1; simpl; lia|lia].
    eapply dj_inv_perm; [done| |exact I]. by intros u t w [?%elem_of_nil _]. }
  clear dependent d p st. intros m [[[dist prev] heap] hn] (K & d & p & H & (Hd & Hp & Hh & ->) & I & -> & Hm).
  pose proof (room_left K (dj_nodup _ _ _ _ _ _ _ I) (dj_range _ _ _ _ _ _ _ I)) as HK.
  destruct H as [|[x v] l].
  { change (zlen (@nil dj_heap_entry_t)) with 0. cbn [Z.gtb Z.compare]. apply wp_ret. destruct Hh as (b & -> & _). eapply HQ; [done|done|]. left. destruct (dj_finished _ _ _ _ _ Hn Hw I) as (H1 & H2 & H3).
    split_and!; try done. intros (l & t & w & Hl & He & Hneg). pose proof (H3 _ _ _ Hl He). lia. }
  rewrite zlen_cons in *. pose proof (zlen_nonneg l). destruct (Z.gtb_spec (zlen l + 1) 0); [|lia].
  wstep. eapply wp_get_top; [exact Hh|]. replace (zlen l + 1 - 1) with (zlen l) by lia.
  destruct (dj_entry _ _ _ _ _ _ _ I x v) as (Hv & Hfin & Hx & _); [by left|].
  assert (forall k, (last ← get_elem heap (zlen l); h ← set_elem heap 0 last; h ← dj_sift_down h (zlen l) 0; k h) =
    (h ← (last ← get_elem heap (zlen l); h ← set_elem heap 0 last; dj_sift_down h (zlen l) 0); k h :
       res ((ptr Z * ptr Z * heap_ptr * Z) + (scl_error_t * (ptr Z * ptr Z * heap_ptr))))) as Eassoc.
  { intros k. destruct (get_elem heap (zlen l)) as [y| |]; [|done..]. simpl. by destruct (set_elem heap 0 y). }
  rewrite Eassoc. clear Eassoc. wstep. eapply wp_dj_pop; [exact Hh|lia|]. intros heap' l' P Hh'.
  assert (zlen l' = zlen l) as El' by (unfold zlen; by rewrite P). wstep. eapply wp_ints_get; [done|done|]. cbn [de_v de_d].
  destruct (Z.gtb_spec x (d v)).
  - wstep. exists (zlen l' + (edge_total adj - degrees adj K)). split; [lia|]. exists K, d, p, l'. split; [by split_and!|]. split; [|lia].
    eapply dj_inv_perm; [symmetry; exact P|by intros u t w HC; exact HC|]. by eapply dj_pop_stale; [exact I|lia].
  - destruct (dj_pop_fresh _ _ _ _ _ _ _ _ _ I ltac:(lia)) as (I' & _ & Hb & Hmax).
    { intros y u Hy. by apply (holds_heap_top _ _ _ _ Hh Hy). }
    destruct (zlook_lt adj v Hv) as [row Hrow]. assert (degrees adj (v :: K) = zlen row + degrees adj K) as Edeg by (simpl; unfold degree; by rewrite Hrow).
    pose proof (room_left (v :: K) (dj_nodup _ _ _ _ _ _ _ I') (dj_range _ _ _ _ _ _ _ I')) as HvK. pose proof (zlen_nonneg row).
    wstep. eapply (wp_dj_scan v row (v :: K) _ _ d p l'); [done| | | |lia| |].
    + by split_and!.
    + eapply dj_inv_perm; [symmetry; exact P|intros u t w HC; exact HC|exact I'].
    + split; [by left|]. split; [done|]. split; [rewrite zlen_cons; lia|done].
    + intros st d' p' H' Hst' I2 Hlen. wstep. exists (zlen H' + (edge_total adj - degrees adj (v :: K))). pose proof (zlen_nonneg H').
      split; [lia|]. exists (v :: K), d', p', H'. split; [done|]. split; [|split; [done|lia]].
      eapply dj_inv_perm; [done| |exact I2]. intros u t w [[->|Hu]%elem_of_cons He]; [right|by left].
      split; [done|]. destruct He as (row' & Hrow' & Hin). by simplify_eq.
    + intros dist' prev' b d' p' Hd' Hp' Hneg. wstep. eapply HQ; [done|done|by right].
Qed.
End Loops.

(** * The function *)
Lemma dijkstra_spec al `{!AllocatorOk al} w g adj start db pb :
  graph_ok g adj -> zlen adj <= 2 ^ 31 -> (forall u v w, arc adj u v w -> is_i32 w) -> 0 <= start < zlen adj ->
  zlen db = zlen adj -> zlen pb = zlen adj ->
  wp (scl_search_dijkstra al w (Some g) start (Ptr db) (Ptr pb)) (fun '(e, dist, prev, w') => w_live w' = w_live w /\
    exists d p, ints dist (zlen adj) d /\ ints prev (zlen adj) p /\
      (searched adj start e d p \/ e = SCL_ERR_OUT_OF_MEMORY \/ e = SCL_ERR_SIZE_OVERFLOW)).
Proof.
  intros G Hn Hw Hs Hdb Hpb. destruct (go_nodes _ _ G) as [nb Hnb]. pose proof (edge_total_nonneg adj) as Htot. pose proof (go_total _ _ G).
  unfold scl_search_dijkstra. rewrite Hnb, (go_vertices _ _ G), (go_edges _ _ G). destruct (Z.ltb_spec start 0); [lia|]. rewrite u64_small by lia.
  destruct (Z.geb_spec start (zlen adj)); [lia|]. cbn [orb]. destruct (Z.eqb_spec (zlen adj) 0) as [|Hne]; [lia|].
  wstep. apply wp_fill_unreached; [lia|done|done|]. intros dist prev Hd Hp. wstep. eapply wp_ints_set; [done|done|]. intros dist' Hd'.
  rewrite scl_add_overflow_spec by (unfold is_u64; lia). destruct (Z.ltb_spec (edge_total adj + 1) (2 ^ 64)); [|lia].
  rewrite scl_mul_overflow_spec by (unfold is_u64; lia). destruct (Z.ltb_spec ((edge_total adj + 1) * 16) (2 ^ 64)) as [Hsz|Hsz].
  2:{ wstep. split; [done|]. do 2 eexists. split; [exact Hd'|]. split; [exact Hp|auto]. }
  unfold scl_alloc. destruct (malloc_fn al (w_reqs w) _ _) eqn:Em.
  2:{ wstep. split; [done|]. do 2 eexists. split; [exact Hd'|]. split; [exact Hp|auto]. }
  assert (zlen (fresh_cells ((edge_total adj + 1) * 16) 16 (@None dj_heap_entry_t)) = edge_total adj + 1) as Ecap by (apply zlen_fresh; lia).
  wstep. apply wp_set_elem; [lia|]. wstep.
  eapply (wp_dj_loop g adj G Hn Hw start (edge_total adj + 1) ltac:(lia)); [done| |by apply dj_inv_start| ].
  - split_and!; [done|done| |done]. eexists. split; [done|]. split; [by rewrite zlen_zupd|].
    split; [apply (stored_snoc _ []); [change (zlen (@nil dj_heap_entry_t)) with 0; lia|apply stored_nil]|].
    intros i c [Hi Hc] x y Hx Hy. apply zlook_Some in Hy. change (zlen [Entry 0 start]) with 1 in Hy. lia.
  - intros e dist2 prev2 b2 d p Hd2 Hp2 Hres. simpl. split; [lia|]. exists d, p. auto.
Qed.

(** C8. Dijkstra's algorithm on a graph with [int] weights: it always returns, the
    heap of [E + 1] entries never overflows and is freed.  If some walk from
    the start meets a negative weight it says [SCL_ERR_INVALID_ARG]; otherwise
    the distances are those of the shortest walks, the sentinel marking the
    unreachable vertices, and the predecessors explain them.  Arguments that are
    [NULL] or out of range are refused. *)
Theorem dijkstra_shortest (al : scl_allocator_t) `{!AllocatorOk al} (w : world) (g : scl_graph_t) (adj : adjacency) (start : Z)
  (db pb : block Z) (G : graph_ok g adj) (Hn : zlen adj <= 2 ^ 31) (Hw : forall u v w, arc adj u v w -> is_i32 w) (Hs : is_i32 start)
  (Hdb : zlen db = zlen adj) (Hpb : zlen pb = zlen adj) :
  (0 <= start < zlen adj -> exists e dist prev w' d p,
     scl_search_dijkstra al w (Some g) start (Ptr db) (Ptr pb) = Ok (e, dist, prev, w') /\ w_live w' = w_live w /\
     ints dist (zlen adj) d /\ ints prev (zlen adj) p /\
     (e = SCL_OK /\ shortest (arc adj) INT64_MAX start (zlen adj) d /\ explains adj start d p /\ ~ reaches_negative adj start \/
      e = SCL_ERR_INVALID_ARG /\ reaches_negative adj start \/ e = SCL_ERR_OUT_OF_MEMORY \/ e = SCL_ERR_SIZE_OVERFLOW)) /\
  (start < 0 \/ zlen adj <= start ->
     scl_search_dijkstra al w (Some g) start (Ptr db) (Ptr pb) = Ok (SCL_ERR_INVALID_INDEX, Ptr db, Ptr pb, w)) /\
  (forall dist prev, scl_search_dijkstra al w None start dist prev = Ok (SCL_ERR_NULL_PTR, dist, prev, w) /\
     scl_search_dijkstra al w (Some g) start Null prev = Ok (SCL_ERR_NULL_PTR, Null, prev, w)).
Proof.
  split; [|split].
  - intros Hst. destruct (proj1 (wp_ok _ _) (dijkstra_spec al w g adj start db pb G Hn Hw Hst Hdb Hpb)) as ([[[e dist] prev] w'] & E & Hlive & d & p & Hd & Hp & H).
    exists e, dist, prev, w', d, p. unfold searched in H. tauto.
  - intros Hout. destruct (go_nodes _ _ G) as [nb Hnb]. pose proof (go_range _ _ G). unfold is_i32 in Hs.
    unfold scl_search_dijkstra. rewrite Hnb, (go_vertices _ _ G).
    destruct (Z.ltb_spec start 0); [done|]. rewrite u64_small by lia. by destruct (Z.geb_spec start (zlen adj)); [|lia].
  - intros dist prev. split; [done|]. by destruct prev.
Qed.

Lemma dijkstra_shortest_witness :
  exists dist prev w' d, scl_search_dijkstra small_allocator (World 0 0) (Some sample_graph) 0 (Ptr [None; None; None]) (Ptr [None; None; None]) =
      Ok (SCL_OK, dist, prev, w') /\ ints dist 3 d /\ shortest (arc sample_adj) INT64_MAX 0 3 d.
Proof.
  destruct (dijkstra_shortest small_allocator (World 0 0) sample_graph sample_adj 0 [None; None; None] [None; None; None] sample_ok) as [H _].
  - by vm_compute.
  - intros u v w He%sample_arcs. unfold is_i32. lia.
  - unfold is_i32. lia.
  - done.
  - done.
  - destruct (H ltac:(by vm_compute)) as (e & dist & prev & w' & d & p & E & _ & Hd & _ & [[-> [Hsh _]]|[[-> _]|[-> | ->]]]).
    + by exists dist, prev, w', d.
    + vm_compute in E. discriminate E.
    + vm_compute in E. discriminate E.
    + vm_compute in E. discriminate E.
Defined.
