(* ===== verification/BitIO.v ===== *)
(** Bit streams of [libs/compress/gzip/scl_gzip.c]: the reader and the writer,
    least significant bit first.  A position in a stream is a number of bits; the
    reader's state at [c] is determined by the number the bytes spell, the
    writer's by the fields written so far. *)

From S2P Require Import Prelude Core.
#[local] Open Scope Z_scope.

(** ** Machine arithmetic of [int] and [unsigned] *)
Definition int_of (z : Z) : res Z := if (- 2 ^ 31 <=? z) && (z <? 2 ^ 31) then mret z else UB.
Definition shl32 (x n : Z) : res Z := if (0 <=? n) && (n <? 32) then mret (u32 (Z.shiftl x n)) else UB.
Definition shr32 (x n : Z) : res Z := if (0 <=? n) && (n <? 32) then mret (Z.shiftr x n) else UB.

(** ** The reader *)
Record bit_reader : Type := Reader {
  br_buf : list Z;
  br_cap : Z;
  br_pos : Z;
  br_bits : Z;
  br_nbits : Z
}.

Definition bit_reader_init (buf : list Z) (len : Z) : bit_reader := Reader buf len 0 0 0.

Definition bit_reader_fill (br : bit_reader) : res (bool * bit_reader) :=
  br ← loop 6
    (fun br =>
       if (br_nbits br <=? 24) && (br_pos br <? br_cap br) then
         b ← get (br_buf br) (br_pos br);
         x ← shl32 b (br_nbits br);
         n ← int_of (br_nbits br + 8);
         mret (inl (Reader (br_buf br) (br_cap br) (u64 (br_pos br + 1)) (Z.lor (br_bits br) x) n))
       else mret (inr br)) br;
  mret (br_nbits br >? 0, br).

Definition bit_reader_peek (br : bit_reader) (n : Z) : res (Z * bit_reader) :=
  '(ok, br) ← bit_reader_fill br;
  if ok : bool then m ← shl32 1 n; mret (Z.land (br_bits br) (u32 (m - 1)), br) else mret (0, br).

Definition bit_reader_read (br : bit_reader) (n : Z) : res (Z * bit_reader) :=
  '(val, br) ← bit_reader_peek br n;
  bits ← shr32 (br_bits br) n;
  nbits ← int_of (br_nbits br - n);
  mret (val, Reader (br_buf br) (br_cap br) (br_pos br) bits nbits).

Definition bit_reader_align (br : bit_reader) : res bit_reader :=
  let discard := Z.land (br_nbits br) 7 in
  bits ← shr32 (br_bits br) discard;
  nbits ← int_of (br_nbits br - discard);
  mret (Reader (br_buf br) (br_cap br) (u64 (br_pos br - u64 (Z.shiftr nbits 3))) 0 0).

(** ** The writer

    [bw_buf] is the block written to, of which [buf] is the part from [bw_base] on. *)
Record bit_writer : Type := Writer {
  bw_buf : block Z;
  bw_base : Z;
  bw_cap : Z;
  bw_pos : Z;
  bw_bits : Z;
  bw_nbits : Z
}.

Definition bit_writer_init (buf : block Z) (base cap : Z) : bit_writer := Writer buf base cap 0 0 0.

(** [bw->buf[bw->pos++] = c] *)
Definition put_byte (bw : bit_writer) (c : Z) : res bit_writer :=
  buf ← set (bw_buf bw) (bw_base bw + bw_pos bw) (Some c);
  mret (Writer buf (bw_base bw) (bw_cap bw) (u64 (bw_pos bw + 1)) (bw_bits bw) (bw_nbits bw)).

Definition bit_writer_write (bw : bit_writer) (val n : Z) : res (bool * bit_writer) :=
  m ← shl32 1 n;
  x ← shl32 (Z.land val (u32 (m - 1))) (bw_nbits bw);
  nbits ← int_of (bw_nbits bw + n);
  loop 6
    (fun bw =>
       if bw_nbits bw >=? 8 then
         if bw_pos bw >=? bw_cap bw then mret (inr (false, bw))
         else
           bw ← put_byte bw (Z.land (bw_bits bw) 0xFF);
           mret (inl (Writer (bw_buf bw) (bw_base bw) (bw_cap bw) (bw_pos bw) (Z.shiftr (bw_bits bw) 8) (bw_nbits bw - 8)))
       else mret (inr (true, bw)))
    (Writer (bw_buf bw) (bw_base bw) (bw_cap bw) (bw_pos bw) (Z.lor (bw_bits bw) x) nbits).

Definition bit_writer_flush (bw : bit_writer) : res (bool * bit_writer) :=
  if bw_nbits bw >? 0 then
    if bw_pos bw >=? bw_cap bw then mret (false, bw)
    else
      bw ← put_byte bw (Z.land (bw_bits bw) 0xFF);
      mret (true, Writer (bw_buf bw) (bw_base bw) (bw_cap bw) (bw_pos bw) 0 0)
  else mret (true, bw).

(** ** Numbers and fields *)
Definition is_bytes (l : list Z) : Prop := Forall (fun b => 0 <= b < 256) l.

(** The number whose bytes, least significant first, are [l]. *)
Fixpoint num (l : list Z) : Z := match l with [] => 0 | b :: l => b + 256 * num l end.

(** A field is a value and its width in bits. *)
Notation field := (Z * Z)%type.
Definition field_ok (f : field) : Prop := 0 <= f.2 /\ 0 <= f.1 < 2 ^ f.2.
Fixpoint width (fs : list field) : Z := match fs with [] => 0 | f :: fs => f.2 + width fs end.
Fixpoint fnum (fs : list field) : Z := match fs with [] => 0 | f :: fs => f.1 + 2 ^ f.2 * fnum fs end.

(** The fields [fs] stand in the number [N] from bit [c] on. *)
Definition at_bits (N c : Z) (fs : list field) : Prop := (N / 2 ^ c) mod 2 ^ width fs = fnum fs.

Lemma pow2_positive n : 0 < 2 ^ n \/ n < 0.
Proof. destruct (Z.lt_ge_cases n 0); [by right|left; by apply Z.pow_pos_nonneg]. Qed.

Lemma div_pow2_lt a m n : 0 <= n -> 0 <= m -> 0 <= a < 2 ^ (m + n) -> 0 <= a / 2 ^ m < 2 ^ n.
Proof.
  intros Hn Hm Ha. assert (0 < 2 ^ m) by (by apply Z.pow_pos_nonneg). rewrite Z.pow_add_r in Ha by lia.
  split; [apply Z.div_pos; lia|apply Z.div_lt_upper_bound; lia].
Qed.

Lemma mod_pow2_add a m n : 0 <= m -> 0 <= n -> a mod 2 ^ (m + n) = a mod 2 ^ m + 2 ^ m * ((a / 2 ^ m) mod 2 ^ n).
Proof. intros Hm Hn. rewrite Z.pow_add_r by lia. apply Z.rem_mul_r; [pose proof (Z.pow_pos_nonneg 2 m); lia|pose proof (Z.pow_pos_nonneg 2 n); lia]. Qed.

Lemma div_pow2_add a m n : 0 <= m -> 0 <= n -> a / 2 ^ (m + n) = a / 2 ^ m / 2 ^ n.
Proof. intros Hm Hn. rewrite Z.pow_add_r by lia. symmetry. apply Z.div_div; [pose proof (Z.pow_pos_nonneg 2 m); lia|by apply Z.pow_pos_nonneg]. Qed.

Lemma mod_pow2_le a m n : 0 <= n <= m -> (a mod 2 ^ m) mod 2 ^ n = a mod 2 ^ n.
Proof.
  intros Hn. replace m with (n + (m - n)) by lia. rewrite mod_pow2_add by lia. rewrite Z.mul_comm, Z.mod_add by (pose proof (Z.pow_pos_nonneg 2 n); lia).
  apply Z.mod_mod. pose proof (Z.pow_pos_nonneg 2 n). lia.
Qed.

Lemma mod_pow2_div a m n : 0 <= n <= m -> (a mod 2 ^ m) / 2 ^ n = (a / 2 ^ n) mod 2 ^ (m - n).
Proof.
  intros Hn. replace m with (n + (m - n)) at 1 by lia. rewrite mod_pow2_add by lia. assert (0 < 2 ^ n) by (apply Z.pow_pos_nonneg; lia).
  rewrite Z.mul_comm, Z.div_add by lia. rewrite (Z.div_small (a mod 2 ^ n)) by (apply Z.mod_pos_bound; lia). lia.
Qed.

Lemma lor_shift a b n : 0 <= n -> 0 <= a < 2 ^ n -> Z.lor a (Z.shiftl b n) = a + b * 2 ^ n.
Proof.
  intros Hn Ha. assert (Z.land a (Z.shiftl b n) = 0) as E.
  { apply Z.bits_inj'. intros i Hi. rewrite Z.land_spec, Z.bits_0. destruct (Z.lt_ge_cases i n).
    - rewrite Z.shiftl_spec_low by lia. apply andb_false_r.
    - rewrite <- (Z.mod_small a (2 ^ n)) by lia. by rewrite Z.mod_pow2_bits_high by lia. }
  rewrite <- Z.lxor_lor, <- Z.add_nocarry_lxor by done. by rewrite Z.shiftl_mul_pow2.
Qed.

Lemma mask_u32 n : 0 <= n < 32 -> u32 (u32 (Z.shiftl 1 n) - 1) = Z.ones n.
Proof.
  intros Hn. rewrite Z.shiftl_1_l, Z.ones_equiv, <- Z.sub_1_r. unfold u32. assert (0 < 2 ^ n) by (apply Z.pow_pos_nonneg; lia).
  assert (2 ^ n < 2 ^ 32) by (apply Z.pow_lt_mono_r; lia). rewrite (Z.mod_small (2 ^ n)) by lia. apply Z.mod_small. lia.
Qed.

(** ** Numbers of bytes *)
Lemma num_range l : is_bytes l -> 0 <= num l < 2 ^ (8 * zlen l).
Proof.
  induction 1 as [|b l Hb Hl IH]; [done|]. cbn [num]. rewrite zlen_cons. pose proof (zlen_nonneg l).
  replace (8 * (zlen l + 1)) with (8 + 8 * zlen l) by lia. rewrite Z.pow_add_r by lia. change (2 ^ 8) with 256. lia.
Qed.

Lemma num_app l l' : num (l ++ l') = num l + 2 ^ (8 * zlen l) * num l'.
Proof.
  induction l as [|b l IH]; [change (2 ^ (8 * zlen (@nil Z))) with 1; cbn [app num]; lia|]. cbn [app num]. rewrite IH, zlen_cons. pose proof (zlen_nonneg l).
  replace (8 * (zlen l + 1)) with (8 + 8 * zlen l) by lia. rewrite Z.pow_add_r by lia. change (2 ^ 8) with 256. lia.
Qed.

Lemma num_byte l i b : is_bytes l -> zlook l i = Some b -> (num l / 2 ^ (8 * i)) mod 2 ^ 8 = b.
Proof.
  intros Hl. revert i. induction Hl as [|x l Hx Hl IH]; intros i Hi; [by rewrite zlook_nil in Hi|]. rewrite zlook_cons in Hi. cbn [num]. destruct (decide (i = 0)) as [->|Hne].
  - rewrite Z.eqb_refl in Hi. injection Hi as <-. change (2 ^ (8 * 0)) with 1. rewrite Z.div_1_r. change (2 ^ 8) with 256. rewrite Z.mul_comm, Z.mod_add by lia. by apply Z.mod_small.
  - destruct (Z.eqb_spec i 0); [done|]. pose proof (zlook_Some _ _ _ Hi). replace (8 * i) with (8 + 8 * (i - 1)) by lia. rewrite div_pow2_add by lia.
    change (2 ^ 8) with 256 at 1. rewrite (Z.mul_comm 256), Z.div_add, (Z.div_small x) by lia. by apply IH.
Qed.

(** ** Fields *)
Lemma width_nonneg fs : Forall field_ok fs -> 0 <= width fs.
Proof. induction 1 as [|f fs [Hf _] _ IH]; cbn [width]; lia. Qed.

Lemma width_app fs fs' : width (fs ++ fs') = width fs + width fs'.
Proof. induction fs as [|f fs IH]; cbn [app width]; lia. Qed.

Lemma fnum_range fs : Forall field_ok fs -> 0 <= fnum fs < 2 ^ width fs.
Proof.
  induction 1 as [|[v n] fs [Hn Hv] Hfs IH]; cbn [fnum width fst snd] in *; [done|]. pose proof (width_nonneg fs Hfs). rewrite Z.pow_add_r by lia.
  assert (2 ^ n * fnum fs <= 2 ^ n * (2 ^ width fs - 1)) by (apply Z.mul_le_mono_nonneg_l; lia). lia.
Qed.

Lemma fnum_app fs fs' : Forall field_ok fs -> Forall field_ok fs' -> fnum (fs ++ fs') = fnum fs + 2 ^ width fs * fnum fs'.
Proof.
  intros H H'. induction H as [|f fs [Hf _] Hfs IH]; cbn [app fnum width]; [change (2 ^ 0) with 1; lia|]. rewrite IH. pose proof (width_nonneg fs Hfs).
  rewrite Z.pow_add_r by lia. lia.
Qed.

Lemma at_bits_app N c fs fs' : 0 <= c -> Forall field_ok fs -> Forall field_ok fs' ->
  at_bits N c (fs ++ fs') <-> at_bits N c fs /\ at_bits N (c + width fs) fs'.
Proof.
  intros Hc H H'. unfold at_bits. rewrite width_app, fnum_app by done. pose proof (width_nonneg fs H). pose proof (width_nonneg fs' H').
  rewrite mod_pow2_add, div_pow2_add by lia. pose proof (fnum_range fs H). assert (0 < 2 ^ width fs) by (by apply Z.pow_pos_nonneg).
  pose proof (Z.mod_pos_bound (N / 2 ^ c) (2 ^ width fs)). split; [|intros [-> ->]; done]. intros E.
  destruct (Z.div_mod_unique (2 ^ width fs) ((N / 2 ^ c / 2 ^ width fs) mod 2 ^ width fs') (fnum fs') ((N / 2 ^ c) mod 2 ^ width fs) (fnum fs)); [left; lia|left; lia|lia|done].
Qed.

Lemma at_bits_one N c v n : at_bits N c [(v, n)] <-> (N / 2 ^ c) mod 2 ^ n = v.
Proof. unfold at_bits. cbn [width fnum fst snd]. rewrite Z.add_0_r, Z.mul_0_r, Z.add_0_r. done. Qed.

Lemma at_bits_cons N c v n fs : 0 <= c -> field_ok (v, n) -> Forall field_ok fs -> at_bits N c ((v, n) :: fs) <-> (N / 2 ^ c) mod 2 ^ n = v /\ at_bits N (c + n) fs.
Proof.
  intros Hc Hf H. rewrite (at_bits_app N c [(v, n)] fs); [|done|by apply Forall_singleton|done]. rewrite at_bits_one. cbn [width snd]. by rewrite Z.add_0_r.
Qed.

Lemma in_shift n : 0 <= n < 32 -> (0 <=? n) && (n <? 32) = true.
Proof. intros Hn. rewrite andb_true_iff, Z.leb_le, Z.ltb_lt. lia. Qed.
Lemma in_int z : - 2 ^ 31 <= z < 2 ^ 31 -> (- 2 ^ 31 <=? z) && (z <? 2 ^ 31) = true.
Proof. intros Hz. rewrite andb_true_iff, Z.leb_le, Z.ltb_lt. lia. Qed.

Lemma wp_to_int z (Q : Z -> Prop) : - 2 ^ 31 <= z < 2 ^ 31 -> Q z -> wp (int_of z) Q.
Proof. intros Hz HQ. unfold int_of. by rewrite in_int. Qed.
Lemma wp_shl32 x n (Q : Z -> Prop) : 0 <= n < 32 -> Q (u32 (Z.shiftl x n)) -> wp (shl32 x n) Q.
Proof. intros Hn HQ. unfold shl32. by rewrite in_shift. Qed.
Lemma wp_shr32 x n (Q : Z -> Prop) : 0 <= n < 32 -> Q (Z.shiftr x n) -> wp (shr32 x n) Q.
Proof. intros Hn HQ. unfold shr32. by rewrite in_shift. Qed.

(** ** The reader *)
Section Reader.
Context (buf : list Z) (Hbytes : is_bytes buf) (Hlen : zlen buf <= PTRDIFF_MAX).
Notation N := (num buf).
Notation total := (8 * zlen buf).
Implicit Types (br : bit_reader) (c : Z).

(** The reader has consumed [c] bits; more than there are, when reads ran past
    the end. *)
Record reads br c : Prop := Reads {
  rd_buf : br_buf br = buf;
  rd_cap : br_cap br = zlen buf;
  rd_start : 0 <= c;
  rd_pos : 0 <= br_pos br <= zlen buf;
  rd_nbits : br_nbits br = 8 * br_pos br - c;
  rd_room : br_nbits br <= 32;
  rd_bits : br_bits br = (N / 2 ^ c) mod 2 ^ Z.max 0 (br_nbits br);
  rd_debt : br_nbits br < 0 -> br_pos br = zlen buf
}.

Lemma reads_init : reads (bit_reader_init buf (zlen buf)) 0.
Proof.
  pose proof (zlen_nonneg buf). split; cbn [bit_reader_init br_buf br_cap br_pos br_bits br_nbits]; try lia; try done. by rewrite Z.max_id, Z.mod_1_r.
Qed.

Lemma past_end c : total <= c -> N / 2 ^ c = 0.
Proof.
  intros Hc. pose proof (num_range buf Hbytes). apply Z.div_small. split; [lia|]. apply Z.lt_le_trans with (2 ^ total); [lia|]. apply Z.pow_le_mono_r; lia.
Qed.

(** What the loop still has to read. *)
Definition to_fill br : Z := if (br_nbits br <=? 24) && (br_pos br <? br_cap br) then (32 - br_nbits br) / 8 else 0.

Lemma wp_br_fill br c (Q : bool * bit_reader -> Prop) :
  reads br c -> (forall br', reads br' c -> (25 <= br_nbits br' \/ br_pos br' = zlen buf) -> Q (c <? total, br')) -> wp (bit_reader_fill br) Q.
Proof.
  intros R HQ. pose proof (zlen_nonneg buf) as Hz. unfold bit_reader_fill. wstep.
  assert (forall br, reads br c -> 0 <= to_fill br < 6) as Hm.
  { intros b [_ Ec _ Hp _ _ _ Hd]. unfold to_fill. rewrite Ec. destruct (Z.leb_spec (br_nbits b) 24), (Z.ltb_spec (br_pos b) (zlen buf)); cbn [andb]; try lia.
    assert (0 <= br_nbits b) by (destruct (Z.lt_ge_cases (br_nbits b) 0) as [Hn|]; [specialize (Hd Hn); lia|done]).
    split; [apply Z.div_pos; lia|apply Z.div_lt_upper_bound; lia]. }
  apply (wp_loop_rel (fun f br => reads br c /\ f = to_fill br) (to_fill br)); [done|specialize (Hm br R); lia|lia|].
  clear br R. intros f br [R ->]. pose proof R as [Eb Ec Hc Hp En Hr Ebits Hd]. rewrite Ec.
  destruct (Z.leb_spec (br_nbits br) 24) as [Hn|Hn], (Z.ltb_spec (br_pos br) (zlen buf)) as [Hpos|Hpos]; cbn [andb].
  - assert (0 <= br_nbits br) as Hn0 by (destruct (Z.lt_ge_cases (br_nbits br) 0) as [Hneg|]; [specialize (Hd Hneg); lia|done]).
    rewrite Eb. wstep. apply wp_get; [lia|]. intros b Hb. pose proof (num_byte buf _ b Hbytes Hb) as Hnum.
    assert (0 <= b < 256) as Hb256 by (rewrite <- Hnum; apply Z.mod_pos_bound; done). rewrite Z.max_r in Ebits by lia.
    assert (2 ^ br_nbits br <= 2 ^ 24) by (apply Z.pow_le_mono_r; lia). assert (0 < 2 ^ br_nbits br) by (apply Z.pow_pos_nonneg; lia).
    wstep. apply wp_shl32; [lia|]. wstep. apply wp_to_int; [lia|]. wstep.
    set (br1 := Reader _ _ _ _ _). assert (reads br1 c) as R1.
    { unfold br1. rewrite u64_small by (unfold PTRDIFF_MAX in Hlen; lia). split; cbn [br_buf br_cap br_pos br_bits br_nbits]; try lia; try done.
      rewrite Z.max_r by lia. unfold u32. rewrite Z.shiftl_mul_pow2, Z.mod_small by nia. rewrite <- Z.shiftl_mul_pow2 by lia.
      rewrite lor_shift; [|lia|rewrite Ebits; apply Z.mod_pos_bound; lia]. rewrite mod_pow2_add by lia. rewrite Ebits, <- Hnum.
      replace (8 * br_pos br) with (c + br_nbits br) by lia. rewrite div_pow2_add by lia. lia. }
    exists (to_fill br1). split; [|done]. specialize (Hm br1 R1). split; [lia|]. unfold to_fill. rewrite Ec. destruct (Z.leb_spec (br_nbits br) 24), (Z.ltb_spec (br_pos br) (zlen buf)); try lia.
    cbn [andb br1 br_nbits br_pos br_cap]. replace ((32 - br_nbits br) / 8) with ((32 - (br_nbits br + 8)) / 8 + 1) by (rewrite <- Z.div_add by lia; f_equal; lia).
    assert (0 <= (32 - (br_nbits br + 8)) / 8) by (apply Z.div_pos; lia). destruct (_ && _); lia.
  - wstep. replace (br_nbits br >? 0) with (c <? total); [apply HQ; [done|lia]|]. rewrite Z.gtb_ltb. bcase; bcase; try lia.
  - wstep. replace (br_nbits br >? 0) with (c <? total); [apply HQ; [done|lia]|]. rewrite Z.gtb_ltb. bcase; bcase; try lia.
  - wstep. replace (br_nbits br >? 0) with (c <? total); [apply HQ; [done|lia]|]. rewrite Z.gtb_ltb. bcase; bcase; try lia.
Qed.

(** Reading [n] bits delivers them whatever their number, the missing ones as
    zeros. *)
Lemma peek_value br c n : reads br c -> (25 <= br_nbits br \/ br_pos br = zlen buf) -> 0 <= n <= 25 -> 0 <= br_nbits br ->
  (br_bits br) mod 2 ^ n = (N / 2 ^ c) mod 2 ^ n.
Proof.
  intros [Eb Ec Hc Hp En Hr Ebits Hd] Hfull Hn Hn0. rewrite Ebits, Z.max_r by lia. destruct (Z.le_gt_cases n (br_nbits br)); [apply mod_pow2_le; lia|].
  destruct Hfull as [|Hend]; [lia|]. pose proof (num_range buf Hbytes). f_equal. apply Z.mod_small. apply div_pow2_lt; [lia|lia|].
  replace (c + br_nbits br) with total by lia. done.
Qed.

Lemma wp_peek br c n (Q : Z * bit_reader -> Prop) : reads br c -> 0 <= n <= 16 ->
  (forall br', reads br' c -> (25 <= br_nbits br' \/ br_pos br' = zlen buf) -> Q ((N / 2 ^ c) mod 2 ^ n, br')) -> wp (bit_reader_peek br n) Q.
Proof.
  intros R Hn HQ. unfold bit_reader_peek. wstep. eapply wp_br_fill; [exact R|]. intros br' R' Hfull. cbv beta iota. destruct (Z.ltb_spec c total) as [Hc|Hc].
  - wstep. apply wp_shl32; [lia|]. wstep. rewrite mask_u32, Z.land_ones, (peek_value br' c n R' Hfull) by (lia || (destruct R' as [_ _ _ Hp En _ _ Hd]; lia)). by apply HQ.
  - wstep. specialize (HQ br' R' Hfull). by rewrite past_end, Z.mod_0_l in HQ by (done || (pose proof (Z.pow_pos_nonneg 2 n); lia)).
Qed.

Lemma reads_drop br c n nbits bits : reads br c -> 0 <= n -> nbits = br_nbits br - n -> bits = br_bits br / 2 ^ n -> (br_nbits br < n -> br_pos br = zlen buf) ->
  reads (Reader (br_buf br) (br_cap br) (br_pos br) bits nbits) (c + n).
Proof.
  intros [Eb Ec Hc Hp En Hr Ebits Hd] Hn -> -> Hend. split; cbn [br_buf br_cap br_pos br_bits br_nbits]; try done; try lia; try (intros Hneg; apply Hend; lia).
  rewrite Ebits. destruct (Z.le_gt_cases n (br_nbits br)) as [Hle|Hgt].
  - rewrite mod_pow2_div, div_pow2_add by lia. do 2 f_equal. lia.
  - rewrite (Z.max_l 0 (br_nbits br - n)), Z.mod_1_r by lia. apply Z.div_small. assert (0 < 2 ^ Z.max 0 (br_nbits br)) by (apply Z.pow_pos_nonneg; lia).
    pose proof (Z.mod_pos_bound (N / 2 ^ c) (2 ^ Z.max 0 (br_nbits br)) ltac:(lia)). assert (2 ^ Z.max 0 (br_nbits br) <= 2 ^ n) by (apply Z.pow_le_mono_r; lia). lia.
Qed.

Lemma wp_read br c n (Q : Z * bit_reader -> Prop) : reads br c -> 0 <= n <= 16 -> c + n <= total + 2 ^ 31 ->
  (forall br', reads br' (c + n) -> Q ((N / 2 ^ c) mod 2 ^ n, br')) -> wp (bit_reader_read br n) Q.
Proof.
  intros R Hn Hdebt HQ. unfold bit_reader_read. wstep. eapply wp_peek; [exact R|lia|]. intros br' R' Hfull. cbv beta iota. pose proof R' as [_ _ _ Hp En Hr _ Hd].
  wstep. apply wp_shr32; [lia|]. wstep. apply wp_to_int; [destruct (Z.lt_ge_cases (br_nbits br') 0) as [Hneg|]; [specialize (Hd Hneg)|]; lia|].
  wstep. apply HQ. apply reads_drop; [done|lia|done|by apply Z.shiftr_div_pow2; lia|]. intros Hlt. destruct Hfull; [lia|done].
Qed.

Lemma wp_align br c (Q : bit_reader -> Prop) : reads br c -> c + 7 <= total + 2 ^ 31 -> Q (Reader buf (zlen buf) ((c + 7) / 8) 0 0) -> wp (bit_reader_align br) Q.
Proof.
  intros [Eb Ec Hc Hp En Hr Ebits Hd] Hdebt HQ. pose proof (zlen_nonneg buf). unfold bit_reader_align. change 7 with (Z.ones 3). rewrite Z.land_ones by lia. change (2 ^ 3) with 8.
  pose proof (Z.mod_pos_bound (br_nbits br) 8). wstep. apply wp_shr32; [lia|]. assert (- 2 ^ 31 <= br_nbits br - br_nbits br mod 8 < 2 ^ 31) as Hint.
  { destruct (Z.lt_ge_cases (br_nbits br) 0) as [Hneg|]; [specialize (Hd Hneg)|]; lia. }
  wstep. apply wp_to_int; [exact Hint|]. wstep. rewrite Eb, Ec. replace (u64 _) with ((c + 7) / 8); [exact HQ|].
  pose proof (Z.div_mod (br_nbits br) 8 ltac:(lia)) as Hk. set (k := br_nbits br / 8) in *.
  replace (br_nbits br - br_nbits br mod 8) with (k * 8) by lia. rewrite Z.shiftr_div_pow2 by lia. change (2 ^ 3) with 8. rewrite Z.div_mul by lia.
  assert ((c + 7) / 8 = br_pos br - k) as -> by (symmetry; apply Z.div_unique with (7 - br_nbits br mod 8); lia). unfold u64. rewrite Zminus_mod_idemp_r. symmetry. apply Z.mod_small. unfold PTRDIFF_MAX in *. lia.
Qed.

Lemma reads_aligned c : 0 <= c <= total -> reads (Reader buf (zlen buf) ((c + 7) / 8) 0 0) (8 * ((c + 7) / 8)).
Proof.
  intros Hc. assert (0 <= (c + 7) / 8 <= zlen buf) by zdiv. split; cbn [br_buf br_cap br_pos br_bits br_nbits]; try lia; try done.
  change (2 ^ Z.max 0 0) with 1. by rewrite Z.mod_1_r.
Qed.
End Reader.

(** ** The writer *)
Section Writer.
Context (buf0 : block Z) (base cap : Z).
Implicit Types (bw : bit_writer) (fs : list field).

(** The bits written are those of [fs]: whole bytes [l] in the buffer, the rest,
    less than [k] bits, in the register.  [buf0] is the buffer as it was. *)
Record writing (k : Z) bw fs : Prop := Writing {
  wt_base : bw_base bw = base;
  wt_cap : bw_cap bw = cap;
  wt_room : 0 <= base /\ 0 <= bw_pos bw <= cap /\ base + cap <= zlen (bw_buf bw) /\ cap <= PTRDIFF_MAX;
  wt_size : zlen (bw_buf bw) = zlen buf0;
  wt_fields : Forall field_ok fs;
  wt_width : width fs = 8 * bw_pos bw + bw_nbits bw;
  wt_low : 0 <= bw_nbits bw < k;
  wt_before : forall i, 0 <= i < base -> zlook (bw_buf bw) i = zlook buf0 i;
  wt_bytes : exists l, zlen l = bw_pos bw /\ is_bytes l /\ (forall i, 0 <= i < zlen l -> zlook (bw_buf bw) (base + i) = Some (zlook l i)) /\
    fnum fs = num l + 2 ^ (8 * zlen l) * bw_bits bw
}.
Notation writes := (writing 8).

Lemma writes_init : 0 <= base -> 0 <= cap <= PTRDIFF_MAX -> base + cap <= zlen buf0 -> writes (bit_writer_init buf0 base cap) [].
Proof.
  intros Hb Hc Hz. split; cbn [bit_writer_init bw_buf bw_base bw_cap bw_pos bw_bits bw_nbits]; try done; try lia.
  exists []. split; [done|]. split; [constructor|]. split; [|done]. intros i Hi. rewrite (eq_refl : zlen (@nil Z) = 0) in Hi. lia.
Qed.

Lemma register_range k bw fs : writing k bw fs -> 0 <= bw_bits bw < 2 ^ bw_nbits bw.
Proof.
  intros [_ _ Hr _ Hf Hw Hl _ (l & El & Hb & _ & E)]. pose proof (fnum_range fs Hf) as Hn. rewrite E, Hw in Hn. pose proof (num_range l Hb). pose proof (zlen_nonneg l).
  rewrite El in *. rewrite Z.pow_add_r in Hn by lia. assert (0 < 2 ^ (8 * bw_pos bw)) by (apply Z.pow_pos_nonneg; lia).
  split; [|nia]. destruct (Z.lt_ge_cases (bw_bits bw) 0); [nia|done].
Qed.

Lemma wp_put_low k bw fs (Q : bit_writer -> Prop) : writing k bw fs -> 0 < bw_nbits bw -> bw_pos bw < cap ->
  (forall bw', bw_base bw' = base -> bw_cap bw' = cap -> bw_pos bw' = bw_pos bw + 1 -> bw_bits bw' = bw_bits bw -> bw_nbits bw' = bw_nbits bw -> zlen (bw_buf bw') = zlen buf0 ->
     (forall i, 0 <= i < base -> zlook (bw_buf bw') i = zlook buf0 i) ->
     (exists l, zlen l = bw_pos bw + 1 /\ is_bytes l /\ (forall i, 0 <= i < zlen l -> zlook (bw_buf bw') (base + i) = Some (zlook l i)) /\
        fnum fs = num l + 2 ^ (8 * zlen l) * (bw_bits bw / 2 ^ 8)) -> Q bw') ->
  wp (put_byte bw (Z.land (bw_bits bw) 0xFF)) Q.
Proof.
  intros W Hn Hroom HQ. pose proof W as [Ebase Ecap Hr Hz Hf Hw Hl Hbef (l & El & Hb & Hcells & E)]. unfold put_byte. rewrite Ebase, Ecap.
  change 0xFF with (Z.ones 8). rewrite Z.land_ones by lia. pose proof (Z.mod_pos_bound (bw_bits bw) (2 ^ 8) ltac:(lia)) as Hmod. set (b := bw_bits bw mod 2 ^ 8) in *.
  wstep. apply wp_set; [lia|]. wstep. rewrite u64_small by (unfold PTRDIFF_MAX in Hr; lia). apply HQ; cbn [bw_buf bw_base bw_cap bw_pos bw_bits bw_nbits]; try done.
  - by rewrite zlen_zupd.
  - intros i Hi. rewrite zlook_zupd. rewrite decide_False by lia. by apply Hbef.
  - exists (l ++ [b]). rewrite zlen_app. change (zlen [b]) with 1. split; [lia|]. split; [apply Forall_app; split; [done|]; by apply Forall_singleton|]. split.
    + intros i Hi. rewrite zlook_zupd, zlook_app. destruct (Z.ltb_spec i (zlen l)).
      * rewrite decide_False by lia. apply Hcells. lia.
      * rewrite decide_True by lia. replace (i - zlen l) with 0 by lia. done.
    + rewrite num_app, E. cbn [num]. rewrite (Z.div_mod (bw_bits bw) (2 ^ 8)) at 1 by lia. fold b. pose proof (zlen_nonneg l).
      replace (8 * (zlen l + 1)) with (8 * zlen l + 8) by lia. rewrite Z.pow_add_r by lia. ring.
Qed.

Lemma wp_write bw fs v n (Q : bool * bit_writer -> Prop) : writes bw fs -> 0 <= n <= 16 -> 0 <= v < 2 ^ n ->
  (forall bw', writes bw' (fs ++ [(v, n)]) -> Q (true, bw')) ->
  (forall bw', 8 * cap < width fs + n -> zlen (bw_buf bw') = zlen buf0 -> Q (false, bw')) ->
  wp (bit_writer_write bw v n) Q.
Proof.
  intros W Hn Hv HQ1 HQ2. pose proof (register_range _ _ _ W) as Hreg. pose proof W as [Ebase Ecap Hr Hz Hf Hw Hl Hbef (l & El & Hb & Hcells & E)].
  unfold bit_writer_write. wstep. apply wp_shl32; [lia|]. wstep. rewrite mask_u32, Z.land_ones, (Z.mod_small v) by lia. apply wp_shl32; [lia|].
  assert (field_ok (v, n)) as Hfn by (split; cbn; lia). assert (Forall field_ok (fs ++ [(v, n)])) as Hfs by (apply Forall_app; split; [done|]; by apply Forall_singleton).
  assert (0 < 2 ^ bw_nbits bw <= 2 ^ 7 /\ 0 < 2 ^ n <= 2 ^ 16) as [[] []].
  { split; split; try (apply Z.pow_pos_nonneg; lia); apply Z.pow_le_mono_r; lia. }
  assert (v * 2 ^ bw_nbits bw < 2 ^ 32) by nia.
  assert (Z.lor (bw_bits bw) (u32 (Z.shiftl v (bw_nbits bw))) = bw_bits bw + v * 2 ^ bw_nbits bw) as Eor.
  { unfold u32. rewrite Z.mod_small by (rewrite Z.shiftl_mul_pow2 by lia; nia). apply lor_shift; lia. }
  wstep. apply wp_to_int; [lia|]. rewrite Eor.
  apply (wp_loop_rel (fun f bw => writing (8 + 8 * f) bw (fs ++ [(v, n)]) /\ f <= 2) 2); [|lia|lia|].
  - split; [|lia]. split; cbn [bw_buf bw_base bw_cap bw_pos bw_bits bw_nbits]; try done; try lia.
    + rewrite width_app. cbn [width snd]. lia.
    + exists l. split; [done|]. split; [done|]. split; [done|]. rewrite fnum_app, E by (done || by apply Forall_singleton). cbn [fnum fst].
      rewrite Hw, El, Z.pow_add_r by lia. ring.
  - clear W Hreg Ebase Ecap Hr Hz Hf Hl Hbef l El Hb Hcells E Eor H H0 H1 H2 H3. intros f b1 [W Hf2]. pose proof W as [Ebase Ecap Hr Hz _ Hwid Hl Hbef Hbytes].
    rewrite width_app in Hwid. cbn [width snd] in Hwid. rewrite !Z.geb_leb, Ecap. destruct (Z.leb_spec 8 (bw_nbits b1)) as [H8|H8].
    + destruct (Z.leb_spec cap (bw_pos b1)) as [Hend|Hend]; [wstep; apply HQ2; [lia|done]|].
      wstep. eapply wp_put_low; [exact W|lia|lia|]. intros b2 E1 E2 E3 E4 E5 E6 E7 E8. wstep. exists (f - 1). split; [lia|]. split; [|lia].
      split; cbn [bw_buf bw_base bw_cap bw_pos bw_bits bw_nbits]; try done; try lia.
      * rewrite width_app. cbn [width snd]. lia.
      * rewrite E4, Z.shiftr_div_pow2, E3 by lia. done.
    + wstep. apply HQ1. destruct W. split; try done; lia.
Qed.

(** Flushing fills the last byte with zeros. *)
Lemma wp_flush bw fs (Q : bool * bit_writer -> Prop) : writes bw fs ->
  (forall bw' pad, writes bw' (fs ++ [(0, pad)]) -> bw_nbits bw' = 0 -> pad = (- width fs) mod 8 -> Q (true, bw')) ->
  (bw_pos bw = cap -> width fs mod 8 <> 0 -> Q (false, bw)) ->
  wp (bit_writer_flush bw) Q.
Proof.
  intros W HQ1 HQ2. pose proof (register_range _ _ _ W) as Hreg. pose proof W as [Ebase Ecap Hr Hz Hf Hw Hl Hbef Hbytes]. unfold bit_writer_flush.
  assert (Forall field_ok [(0, (- width fs) mod 8)]) as Hpad.
  { apply Forall_singleton. pose proof (Z.mod_pos_bound (- width fs) 8 ltac:(lia)). split; cbn; [lia|]. pose proof (Z.pow_pos_nonneg 2 ((- width fs) mod 8)). lia. }
  assert (fnum (fs ++ [(0, (- width fs) mod 8)]) = fnum fs) as Efn by (rewrite fnum_app by done; cbn [fnum fst]; lia).
  assert (width (fs ++ [(0, (- width fs) mod 8)]) = width fs + (- width fs) mod 8) as Ewid by (rewrite width_app; cbn [width snd]; lia).
  rewrite Z.gtb_ltb, Z.geb_leb, Ecap. destruct (Z.ltb_spec 0 (bw_nbits bw)) as [Hpos|Hpos].
  - assert (width fs mod 8 = bw_nbits bw) as Hm by (rewrite Hw; zdiv). destruct (Z.leb_spec cap (bw_pos bw)); [wstep; apply HQ2; lia|].
    wstep. eapply wp_put_low; [exact W|lia|lia|]. intros b2 E1 E2 E3 E4 E5 E6 E7 (l & El & Hb & Hc & En). wstep. eapply HQ1; [|done|reflexivity].
    split; cbn [bw_buf bw_base bw_cap bw_pos bw_bits bw_nbits]; try done; try lia; [by apply Forall_app|rewrite Ewid; zdiv|].
    exists l. split; [lia|]. split; [done|]. split; [done|]. rewrite Efn, En, Z.div_small; [lia|]. assert (2 ^ bw_nbits bw <= 2 ^ 7) by (apply Z.pow_le_mono_r; lia). lia.
  - assert ((- width fs) mod 8 = 0) as Hm by (rewrite Hw; zdiv). wstep. eapply HQ1; [|lia|reflexivity].
    split; try done; try lia; [by apply Forall_app|by rewrite Efn].
Qed.
End Writer.
Notation writes buf0 base cap := (writing buf0 base cap 8).

(** ** What was written is what is read *)

Fixpoint write_fields (bw : bit_writer) (fs : list field) : res (bool * bit_writer) :=
  match fs with
  | [] => bit_writer_flush bw
  | (v, n) :: fs => '(ok, bw) ← bit_writer_write bw v n; if ok : bool then write_fields bw fs else mret (false, bw)
  end.

Fixpoint read_fields (br : bit_reader) (widths : list Z) : res (list Z) :=
  match widths with
  | [] => mret []
  | n :: widths => '(v, br) ← bit_reader_read br n; vs ← read_fields br widths; mret (v :: vs)
  end.

Lemma writes_bytes buf0 base cap bw fs : writes buf0 base cap bw fs -> bw_nbits bw = 0 ->
  exists l, slice (bw_buf bw) base (base + bw_pos bw) = Some <$> l /\ is_bytes l /\ num l = fnum fs /\ 8 * zlen l = width fs /\ zlen l = bw_pos bw.
Proof.
  intros W Hn. pose proof (register_range _ _ _ _ _ _ W) as Hreg. rewrite Hn in Hreg. change (2 ^ 0) with 1 in Hreg.
  destruct W as [_ _ Hr _ _ Hw _ _ (l & El & Hb & Hc & E)]. exists l. assert (bw_bits bw = 0) as E0 by lia. rewrite E0 in E. split; [|split; [done|lia]].
  apply zlook_ext. intros i. rewrite zlook_slice, zlook_fmap by lia. destruct (Z.leb_spec 0 i) as [H0|H0]; cbn [andb]; [|by rewrite zlook_neg by lia].
  destruct (Z.ltb_spec i (base + bw_pos bw - base)) as [H1|H1]; [|by rewrite zlook_ge by lia]. rewrite Hc by lia.
  destruct (zlook_lt l i) as [x ->]; [lia|done].
Qed.

Definition at_most_16 (f : field) : Prop := field_ok f /\ f.2 <= 16.

Lemma fields_at_most fs : Forall at_most_16 fs -> Forall field_ok fs.
Proof. intros H. eapply Forall_impl; [exact H|]. by intros f []. Qed.

Lemma wp_write_fields buf0 base cap bw gs fs (Q : bool * bit_writer -> Prop) : writes buf0 base cap bw gs -> Forall at_most_16 fs -> width gs + width fs <= 8 * cap ->
  (forall bw' pad, writes buf0 base cap bw' (gs ++ fs ++ [(0, pad)]) -> bw_nbits bw' = 0 -> 0 <= pad < 8 -> Q (true, bw')) -> wp (write_fields bw fs) Q.
Proof.
  intros W Hf. revert bw gs W. induction Hf as [|[v n] fs [[Hn Hv] H16] Hfs IH]; intros bw gs W Hcap HQ; cbn [write_fields].
  - eapply wp_flush; [exact W| |].
    + intros bw' pad W' Hn' ->. eapply HQ; [exact W'|done|apply Z.mod_pos_bound; lia].
    + intros Epos Hm. exfalso. pose proof (wt_width _ _ _ _ _ _ W). pose proof (wt_low _ _ _ _ _ _ W). cbn [width] in Hcap. rewrite Epos in *.
      assert (bw_nbits bw = 0) as E0 by lia. apply Hm. zdiv.
  - cbn [fst snd width] in *. wstep. eapply wp_write; [exact W|lia|exact Hv| |].
    + intros bw' W'. cbv beta iota. eapply IH; [exact W'|rewrite width_app; cbn [width snd]; lia|]. intros bw2 pad W2 Hn2 Hp2. eapply HQ; [|exact Hn2|exact Hp2]. by rewrite <- app_assoc in W2.
    + intros bw' Hlt _. pose proof (width_nonneg fs (fields_at_most fs Hfs)). lia.
Qed.

Lemma wp_read_fields buf (Hb : is_bytes buf) (Hl : zlen buf <= PTRDIFF_MAX) br c fs (Q : list Z -> Prop) : reads buf br c -> Forall at_most_16 fs -> at_bits (num buf) c fs ->
  c + width fs <= 8 * zlen buf -> Q (fst <$> fs) -> wp (read_fields br (snd <$> fs)) Q.
Proof.
  intros R Hf. revert br c Q R. induction Hf as [|[v n] fs [[Hn Hv] H16] Hfs IH]; intros br c Q R Hat Hc HQ; cbn [fmap list_fmap read_fields fst snd width] in *; [done|].
  pose proof (fields_at_most fs Hfs) as Hok. pose proof (width_nonneg fs Hok). apply at_bits_cons in Hat as [Ev Hat]; [|by destruct R|done|done].
  wstep. eapply wp_read; [exact Hb|exact Hl|exact R|lia|lia|]. intros br' R'. cbv beta iota. wstep. eapply IH; [exact R'|exact Hat|lia|]. wstep. by rewrite Ev.
Qed.

Lemma at_bits_prefix l tail fs : is_bytes l -> num l = fnum fs -> 8 * zlen l = width fs -> at_bits (num (l ++ tail)) 0 fs.
Proof.
  intros Hl En Ew. unfold at_bits. rewrite Z.div_1_r, num_app, En, Ew, (Z.mul_comm (2 ^ width fs)), Z.mod_add by (pose proof (zlen_nonneg l); pose proof (Z.pow_pos_nonneg 2 (width fs)); lia).
  apply Z.mod_small. rewrite <- En, <- Ew. by apply num_range.
Qed.

(** The bit writer and the bit reader are inverse to each other: fields of up to
    16 bits that fit the buffer are all written and flushed, to its first
    [width / 8] bytes rounded up, and the same widths read from a stream that starts
    with these bytes deliver the same values. *)
Theorem bit_io_roundtrip (buf0 : block Z) (base cap : Z) (fs : list field) (tail : list Z) (Hfs : Forall at_most_16 fs) (Hbase : 0 <= base)
  (Hfit : base + cap <= zlen buf0) (Hcap : width fs <= 8 * cap) (Hmax : cap + zlen tail <= PTRDIFF_MAX) (Htail : is_bytes tail) :
  exists bw l, write_fields (bit_writer_init buf0 base cap) fs = Ok (true, bw) /\
    slice (bw_buf bw) base (base + bw_pos bw) = Some <$> l /\ bw_pos bw = (width fs + 7) / 8 /\
    read_fields (bit_reader_init (l ++ tail) (zlen (l ++ tail))) (snd <$> fs) = Ok (fst <$> fs).
Proof.
  pose proof (fields_at_most fs Hfs) as Hok. pose proof (width_nonneg fs Hok). pose proof (zlen_nonneg tail).
  assert (writes buf0 base cap (bit_writer_init buf0 base cap) []) as W0 by (apply writes_init; lia).
  destruct (proj1 (wp_ok (write_fields (bit_writer_init buf0 base cap) fs) (fun r => r.1 = true /\ exists pad, writes buf0 base cap r.2 (fs ++ [(0, pad)]) /\ bw_nbits r.2 = 0 /\ 0 <= pad < 8)))
    as ([ok bw] & E & Eok & pad & W & Hn & Hp).
  { eapply wp_write_fields; [exact W0|done|cbn [width]; lia|]. intros bw pad W Hn Hp. split; [done|]. by exists pad. }
  cbn [fst snd] in Eok, W, Hn. subst ok. destruct (writes_bytes _ _ _ _ _ W Hn) as (l & El & Hb & En & Ew & Ep). exists bw, l. split; [done|]. split; [done|].
  pose proof (wt_room _ _ _ _ _ _ W) as Hr. pose proof (wt_fields _ _ _ _ _ _ W) as [_ Hpad]%Forall_app. pose proof (at_bits_prefix l tail _ Hb En Ew) as Hat.
  apply at_bits_app in Hat as [Hat _]; [|lia|done|done]. rewrite width_app in Ew. cbn [width snd] in Ew. split; [zdiv|].
  assert (is_bytes (l ++ tail)) as Hlt by (by apply Forall_app). assert (zlen (l ++ tail) <= PTRDIFF_MAX) as Hz by (rewrite zlen_app; lia).
  destruct (proj1 (wp_ok (read_fields (bit_reader_init (l ++ tail) (zlen (l ++ tail))) (snd <$> fs)) (fun r => r = fst <$> fs))) as (r & Er & ->); [|done].
  eapply wp_read_fields; [exact Hlt|exact Hz|by apply reads_init|done|exact Hat|rewrite zlen_app; lia|done].
Qed.

Lemma bit_io_roundtrip_witness :
  exists bw l, write_fields (bit_writer_init (replicate 10 None) 2 8) [(1, 1); (2, 2); (5, 7); (257, 9); (3, 16)] = Ok (true, bw) /\
    slice (bw_buf bw) 2 (2 + bw_pos bw) = Some <$> l /\ bw_pos bw = 5 /\
    read_fields (bit_reader_init (l ++ [255]) (zlen (l ++ [255]))) [1; 2; 7; 9; 16] = Ok [1; 2; 5; 257; 3].
Proof.
  apply (bit_io_roundtrip (replicate 10 None) 2 8 [(1, 1); (2, 2); (5, 7); (257, 9); (3, 16)] [255]).
  - repeat (constructor; [split; [split; cbn; lia|cbn; lia]|]). constructor.
  - lia.
  - done.
  - done.
  - done.
  - repeat constructor; lia.
Defined.
