(* ===== verification/Huffman.v ===== *)
(** Canonical Huffman codes ([scl_huff_build], [scl_huff_decode] of
    [libs/compress/gzip/scl_gzip.c]): the decoder reads exactly the codes that
    RFC 1951 assigns to the code lengths. *)

From S2P Require Import Prelude Core Bytes BitIO.
#[local] Open Scope Z_scope.

Definition u16 (x : Z) : Z := x mod 2 ^ 16.

Definition SCL_HUFF_MAX_BITS : Z := 15.
Definition SCL_HUFF_MAX_SYMS : Z := 288.

Record scl_huff_tree_t : Type := HuffTree { ht_count : list Z; ht_syms : block Z }.

(** A tree on the stack, before it is built. *)
Definition huff_uninit : scl_huff_tree_t := HuffTree (replicate 16 0) (replicate 288 None).

Definition count_lens (lens : block Z) (count : Z) : res (list Z + list Z) :=
  zfor_ret 0 count
    (fun i cnt =>
       l ← get_cell lens i;
       if l >? SCL_HUFF_MAX_BITS then mret (inr cnt)
       else c ← get cnt l; cnt ← set cnt l (u16 (c + 1)); mret (inl cnt)) (replicate 16 0).

Definition check_left (cnt : list Z) : res (Z + unit) :=
  zfor_ret 1 (SCL_HUFF_MAX_BITS + 1)
    (fun len left =>
       left ← int_of (left * 2);
       c ← get cnt len;
       left ← int_of (left - c);
       if left <? 0 then mret (inr tt) else mret (inl left)) 1.

Definition first_offsets (cnt : list Z) : res (block Z) :=
  offs ← set (replicate 16 None) 1 (Some 0);
  zfor 1 SCL_HUFF_MAX_BITS
    (fun len offs => o ← get_cell offs len; c ← get cnt len; set offs (len + 1) (Some (u16 (o + c)))) offs.

Definition fill_syms (lens : block Z) (count : Z) (offs syms : block Z) : res (block Z * block Z) :=
  zfor 0 count
    (fun i '(offs, syms) =>
       l ← get_cell lens i;
       if negb (l =? 0) then
         o ← get_cell offs l;
         syms ← set syms o (Some (u16 i));
         offs ← set offs l (Some (u16 (o + 1)));
         mret (offs, syms)
       else mret (offs, syms)) (offs, syms).

Definition scl_huff_build (t : scl_huff_tree_t) (lens : block Z) (count : Z) : res (scl_error_t * scl_huff_tree_t) :=
  if count >? SCL_HUFF_MAX_SYMS then mret (SCL_ERR_INVALID_ARG, t)
  else
    r ← count_lens lens count;
    match r with
    | inr cnt => mret (SCL_ERR_PARSE, HuffTree cnt (ht_syms t))
    | inl cnt =>
        cnt ← set cnt 0 0;
        r ← check_left cnt;
        match r with
        | inr _ => mret (SCL_ERR_PARSE, HuffTree cnt (ht_syms t))
        | inl _ =>
            offs ← first_offsets cnt;
            '(_, syms) ← fill_syms lens count offs (ht_syms t);
            mret (SCL_OK, HuffTree cnt syms)
        end
    end.

Definition scl_huff_decode (br : bit_reader) (t : scl_huff_tree_t) : res (Z * bit_reader) :=
  r ← zfor_ret 1 (SCL_HUFF_MAX_BITS + 1)
    (fun len '(br, code, first, index) =>
       '(ok, br) ← (if br_nbits br =? 0 then bit_reader_fill br else mret (true, br));
       if negb ok then mret (inr (-1, br))
       else
         let code := Z.lor code (Z.land (br_bits br) 1) in
         nbits ← int_of (br_nbits br - 1);
         let br := Reader (br_buf br) (br_cap br) (br_pos br) (Z.shiftr (br_bits br) 1) nbits in
         cnt ← get (ht_count t) len;
         if u32 (code - first) <? cnt then
           s ← get_cell (ht_syms t) (u32 (index + u32 (code - first)));
           mret (inr (s, br))
         else mret (inl (br, u32 (Z.shiftl code 1), u32 (Z.shiftl (u32 (first + cnt)) 1), u32 (index + cnt))))
    (br, 0, 0, 0);
  match r with
  | inl (br, _, _, _) => mret (-1, br)
  | inr (s, br) => mret (s, br)
  end.

(** ** The codes of RFC 1951 *)

(** How often [l] occurs. *)
Fixpoint occ (l : Z) (ls : list Z) : Z :=
  match ls with [] => 0 | x :: ls => (if x =? l then 1 else 0) + occ l ls end.

Section Codes.
Context (ls : list Z).

(** [bl_count]: the number of codes of a length. *)
Definition bl_count (l : Z) : Z := if l =? 0 then 0 else occ l ls.

(** [code = (code + bl_count[bits - 1]) << 1] *)
Fixpoint first_code (n : nat) : Z :=
  match n with O => 0 | S n => (first_code n + bl_count (Z.of_nat n)) * 2 end.

(** The number of shorter codes, which come first in the table. *)
Fixpoint first_sym (n : nat) : Z :=
  match n with O => 0 | S n => first_sym n + bl_count (Z.of_nat n) end.

(** The symbols of the same length before symbol [i]. *)
Definition rank (l i : Z) : Z := occ l (take (Z.to_nat i) ls).

Definition canon (l i : Z) : Z := first_code (Z.to_nat l) + rank l i.

(** The lengths fit a binary tree. *)
Definition lens_ok : Prop :=
  Forall (fun l => 0 <= l <= 15) ls /\ forall n, (1 <= n <= 15)%nat -> first_code n + bl_count (Z.of_nat n) <= 2 ^ Z.of_nat n.

Record tree_ok (t : scl_huff_tree_t) : Prop := TreeOk {
  to_fits : zlen ls <= 288;
  to_lens : lens_ok;
  to_count : forall l, 0 <= l <= 15 -> zlook (ht_count t) l = Some (bl_count l);
  to_syms : forall i l, zlook ls i = Some l -> 0 < l -> zlook (ht_syms t) (first_sym (Z.to_nat l) + rank l i) = Some (Some i)
}.
End Codes.

(** The [n] bits of [N] from [c] on, the first of them the most significant. *)
Fixpoint msb (N c : Z) (n : nat) : Z :=
  match n with O => 0 | S n => 2 * msb N c n + (N / 2 ^ (c + Z.of_nat n)) mod 2 end.

(** ** Occurrences *)
Lemma occ_nonneg l ls : 0 <= occ l ls.
Proof. induction ls as [|x ls IH]; cbn [occ]; [done|]. destruct (x =? l); lia. Qed.

Lemma occ_app l ls ls' : occ l (ls ++ ls') = occ l ls + occ l ls'.
Proof. induction ls as [|x ls IH]; cbn [app occ]; [done|]. rewrite IH. lia. Qed.

Lemma take_next (ls : list Z) i x : zlook ls i = Some x -> take (Z.to_nat (i + 1)) ls = take (Z.to_nat i) ls ++ [x].
Proof.
  intros Hx. pose proof (zlook_Some _ _ _ Hx). unfold zlook in Hx. destruct (Z.leb_spec 0 i); [|lia].
  replace (Z.to_nat (i + 1)) with (S (Z.to_nat i)) by lia. by apply take_S_r.
Qed.

Lemma occ_next l ls i x : zlook ls i = Some x -> occ l (take (Z.to_nat (i + 1)) ls) = occ l (take (Z.to_nat i) ls) + (if x =? l then 1 else 0).
Proof. intros Hx. rewrite (take_next _ _ _ Hx), occ_app. cbn [occ]. lia. Qed.

Lemma rank_le ls l i j : 0 <= i <= j -> rank ls l i <= rank ls l j.
Proof.
  intros Hij. unfold rank. replace (take (Z.to_nat j) ls) with (take (Z.to_nat i) ls ++ drop (Z.to_nat i) (take (Z.to_nat j) ls)).
  - rewrite occ_app. pose proof (occ_nonneg l (drop (Z.to_nat i) (take (Z.to_nat j) ls))). lia.
  - rewrite <- (take_drop (Z.to_nat i) (take (Z.to_nat j) ls)) at 2. rewrite take_take. do 2 f_equal. lia.
Qed.

Lemma rank_all ls l i : zlen ls <= i -> rank ls l i = occ l ls.
Proof. intros Hi. unfold rank. rewrite take_ge; [done|]. unfold zlen in Hi. lia. Qed.

Lemma rank_lt ls l i j : zlook ls i = Some l -> i < j -> rank ls l i < rank ls l j.
Proof.
  intros Hi Hij. pose proof (zlook_Some _ _ _ Hi). pose proof (occ_next l _ _ _ Hi) as E. rewrite Z.eqb_refl in E. pose proof (rank_le ls l (i + 1) j ltac:(lia)). unfold rank in *. lia.
Qed.

Lemma rank_occ ls l i : zlook ls i = Some l -> rank ls l i < occ l ls.
Proof. intros Hi. rewrite <- (rank_all ls l (zlen ls)) by lia. apply rank_lt; [done|]. apply zlook_Some in Hi. lia. Qed.

(** Every rank below the count is that of a symbol. *)
Lemma rank_onto ls l k : 0 <= k < occ l ls -> exists i, zlook ls i = Some l /\ rank ls l i = k.
Proof.
  revert k. induction ls as [|x ls IH] using rev_ind; intros k Hk; [cbn [occ] in Hk; lia|]. rewrite occ_app in Hk. cbn [occ] in Hk.
  destruct (Z.lt_ge_cases k (occ l ls)) as [Hlt|Hge].
  - destruct (IH k ltac:(lia)) as (i & Hi & Hr). pose proof (zlook_Some _ _ _ Hi). exists i. split; [rewrite zlook_app; by destruct (Z.ltb_spec i (zlen ls)); [|lia]|].
    unfold rank in *. rewrite take_app_le; [done|]. unfold zlen in *. lia.
  - destruct (Z.eqb_spec x l) as [->|]; [|lia]. exists (zlen ls). rewrite zlook_app. rewrite Z.ltb_irrefl, Z.sub_diag. split; [done|].
    unfold rank, zlen. rewrite Nat2Z.id, take_app_length. lia.
Qed.

Section Table.
Context (ls : list Z).

Lemma bl_count_nonneg l : 0 <= bl_count ls l.
Proof. unfold bl_count. pose proof (occ_nonneg l ls). destruct (l =? 0); lia. Qed.

Lemma first_sym_le m n : (m <= n)%nat -> first_sym ls m <= first_sym ls n.
Proof. induction 1 as [|n Hmn IH]; [done|]. cbn [first_sym]. pose proof (bl_count_nonneg (Z.of_nat n)). lia. Qed.

End Table.

Lemma first_sym_cons x ls n : first_sym (x :: ls) n = first_sym ls n + (if (0 <? x) && (x <? Z.of_nat n) then 1 else 0).
Proof.
  induction n as [|n IH]; [cbn [first_sym]; bcase; bcase; cbn [andb]; lia|]. cbn [first_sym]. rewrite IH. unfold bl_count. cbn [occ].
  destruct (Z.eqb_spec (Z.of_nat n) 0), (Z.eqb_spec x (Z.of_nat n)), (Z.ltb_spec 0 x), (Z.ltb_spec x (Z.of_nat n)), (Z.ltb_spec x (Z.of_nat (S n))); cbn [andb]; lia.
Qed.

(** The table holds no more symbols than there are. *)
Lemma first_sym_total ls n : first_sym ls n <= zlen ls.
Proof.
  induction ls as [|x ls IH].
  - enough (first_sym [] n = 0) as -> by done. induction n as [|n IH]; [done|]. cbn [first_sym]. rewrite IH. unfold bl_count. cbn [occ]. by destruct (_ =? 0).
  - rewrite first_sym_cons, zlen_cons. destruct (_ && _); lia.
Qed.

(** Where the symbol of a length and a rank stands. *)
Lemma position_lt ls l k n : 0 < l -> 0 <= k < bl_count ls l -> (Z.to_nat l < n)%nat -> first_sym ls (Z.to_nat l) + k < first_sym ls n.
Proof.
  intros Hl Hk Hn. apply Z.lt_le_trans with (first_sym ls (S (Z.to_nat l))); [cbn [first_sym]; rewrite Z2Nat.id by lia; lia|]. by apply first_sym_le.
Qed.

Lemma position_unique ls l k l' k' : 0 < l -> 0 < l' -> 0 <= k < bl_count ls l -> 0 <= k' < bl_count ls l' ->
  first_sym ls (Z.to_nat l) + k = first_sym ls (Z.to_nat l') + k' -> l = l' /\ k = k'.
Proof.
  intros Hl Hl' Hk Hk' E. destruct (Z.lt_trichotomy l l') as [Hlt|[->|Hgt]]; [|lia|].
  - pose proof (position_lt ls l k (Z.to_nat l') Hl Hk ltac:(lia)). lia.
  - pose proof (position_lt ls l' k' (Z.to_nat l) Hl' Hk' ltac:(lia)). lia.
Qed.

Lemma rank_bl ls l i : zlook ls i = Some l -> 0 < l -> 0 <= rank ls l i < bl_count ls l.
Proof.
  intros Hi Hl. unfold bl_count. destruct (Z.eqb_spec l 0); [lia|]. split; [apply occ_nonneg|by apply rank_occ].
Qed.

(** ** Codes *)
Lemma pow2_S n : 2 ^ Z.of_nat (S n) = 2 * 2 ^ Z.of_nat n.
Proof. rewrite Nat2Z.inj_succ, Z.pow_succ_r by lia. done. Qed.

Lemma first_code_nonneg ls n : 0 <= first_code ls n.
Proof. induction n as [|n IH]; cbn [first_code]; [done|]. pose proof (bl_count_nonneg ls (Z.of_nat n)). lia. Qed.

(** The codes of a length are past the extensions of the shorter ones. *)
Lemma first_code_past ls j n : (first_code ls j + bl_count ls (Z.of_nat j)) * 2 ^ Z.of_nat (S n) <= first_code ls (j + S n).
Proof.
  induction n as [|n IH].
  - replace (j + 1)%nat with (S j) by lia. cbn [first_code]. change (2 ^ Z.of_nat 1) with 2. lia.
  - replace (j + S (S n))%nat with (S (j + S n)) by lia. cbn [first_code]. rewrite pow2_S. pose proof (bl_count_nonneg ls (Z.of_nat (j + S n))). lia.
Qed.

Lemma msb_range N c n : 0 <= msb N c n < 2 ^ Z.of_nat n.
Proof.
  induction n as [|n IH]; [done|]. cbn [msb]. rewrite pow2_S. pose proof (Z.mod_pos_bound (N / 2 ^ (c + Z.of_nat n)) 2). lia.
Qed.

Lemma msb_prefix N c n k : msb N c (n + k) < (msb N c n + 1) * 2 ^ Z.of_nat k.
Proof.
  induction k as [|k IH]; [rewrite Nat.add_0_r; change (2 ^ Z.of_nat 0) with 1; lia|]. rewrite Nat.add_succ_r. cbn [msb]. rewrite pow2_S.
  pose proof (Z.mod_pos_bound (N / 2 ^ (c + Z.of_nat (n + k))) 2). lia.
Qed.

Lemma canon_longer ls N c l i m : zlook ls i = Some l -> 0 < l -> l < m -> msb N c (Z.to_nat l) = canon ls l i -> msb N c (Z.to_nat m) < first_code ls (Z.to_nat m).
Proof.
  intros Hi Hl Hm E. pose proof (rank_bl ls l i Hi Hl) as Hr. unfold canon in E. pose proof (msb_prefix N c (Z.to_nat l) (S (Z.to_nat (m - l - 1)))) as Hp.
  pose proof (first_code_past ls (Z.to_nat l) (Z.to_nat (m - l - 1))) as Hf. rewrite Z2Nat.id in Hf by lia.
  replace (Z.to_nat l + S (Z.to_nat (m - l - 1)))%nat with (Z.to_nat m) in * by lia. assert (0 < 2 ^ Z.of_nat (S (Z.to_nat (m - l - 1)))) by (apply Z.pow_pos_nonneg; lia). nia.
Qed.

Lemma canon_unique ls N c l i m j : zlook ls i = Some l -> zlook ls j = Some m -> 0 < l -> 0 < m ->
  msb N c (Z.to_nat l) = canon ls l i -> msb N c (Z.to_nat m) = canon ls m j -> i = j /\ l = m.
Proof.
  intros Hi Hj Hl Hm El Em. destruct (Z.lt_trichotomy l m) as [Hlt|[<-|Hgt]].
  - pose proof (canon_longer ls N c l i m Hi Hl Hlt El). pose proof (rank_bl ls m j Hj Hm). unfold canon in Em. lia.
  - split; [|done]. unfold canon in El, Em. destruct (Z.lt_trichotomy i j) as [Hlt|[->|Hgt]]; [pose proof (rank_lt ls l i j Hi Hlt); lia|done|pose proof (rank_lt ls l j i Hj Hgt); lia].
  - pose proof (canon_longer ls N c m j l Hj Hm Hgt Em). pose proof (rank_bl ls l i Hi Hl). unfold canon in El. lia.
Qed.

(** ** Building the table *)
Section Build.
Context (ls : list Z) (lens : block Z).
Context (Hbytes : Forall (fun l => 0 <= l) ls) (Hcells : forall i l, zlook ls i = Some l -> zlook lens i = Some (Some l)) (Hfits : zlen ls <= 288).

Lemma len_at i : 0 <= i < zlen ls -> exists l, zlook ls i = Some l /\ 0 <= l.
Proof.
  intros Hi. destruct (zlook_lt ls i Hi) as [l Hl]. exists l. split; [done|]. unfold zlook in Hl. destruct (Z.leb_spec 0 i); [|lia].
  rewrite Forall_forall in Hbytes. apply Hbytes. by apply list_elem_of_lookup_2 in Hl.
Qed.

Lemma occ_le l xs : occ l xs <= zlen xs.
Proof. induction xs as [|x xs IH]; [done|]. cbn [occ]. rewrite zlen_cons. destruct (x =? l); lia. Qed.

Lemma wp_count_lens (Q : list Z + list Z -> Prop) :
  (forall cnt, zlen cnt = 16 -> Forall (fun l => 0 <= l <= 15) ls -> (forall l, 0 <= l <= 15 -> zlook cnt l = Some (occ l ls)) -> Q (inl cnt)) ->
  (forall cnt, ~ Forall (fun l => 0 <= l <= 15) ls -> Q (inr cnt)) ->
  wp (count_lens lens (zlen ls)) Q.
Proof.
  intros HQ1 HQ2. pose proof (zlen_nonneg ls). unfold count_lens.
  apply (wp_zfor_ret (fun i cnt => zlen cnt = 16 /\ (forall j l, j < i -> zlook ls j = Some l -> l <= 15) /\ forall l, 0 <= l <= 15 -> zlook cnt l = Some (rank ls l i))).
  - split; [done|]. split; [intros j l Hj Hl%zlook_Some; lia|]. intros l Hl. rewrite zlook_replicate. destruct (Z.leb_spec 0 l), (Z.ltb_spec l (Z.of_nat 16)); try lia. done.
  - intros i cnt Hi (Hz & Hle & Hc). destruct (len_at i Hi) as (l & Hl & H0). wstep. eapply wp_get_cell; [by apply Hcells|]. unfold SCL_HUFF_MAX_BITS. rewrite Z.gtb_ltb.
    destruct (Z.ltb_spec 15 l) as [Hbig|Hsmall].
    + wstep. apply HQ2. rewrite Forall_forall. intros Hall. unfold zlook in Hl. destruct (Z.leb_spec 0 i); [|lia]. apply list_elem_of_lookup_2, Hall in Hl. lia.
    + wstep. apply wp_get; [lia|]. intros c Hcl. rewrite Hc in Hcl by lia. injection Hcl as <-. wstep. apply wp_set; [lia|]. wstep. split; [by rewrite zlen_zupd|]. split.
      * intros j l' Hj Hl'. destruct (decide (j = i)) as [->|]; [congruence|]. apply (Hle j); [lia|done].
      * intros l' Hl'. rewrite zlook_zupd. unfold rank. rewrite (occ_next l' _ _ _ Hl). pose proof (occ_le l (take (Z.to_nat i) ls)) as Ho. pose proof (occ_nonneg l (take (Z.to_nat i) ls)).
        assert (zlen (take (Z.to_nat i) ls) <= 288) by (unfold zlen in *; rewrite length_take; lia). destruct (Z.eqb_spec l l') as [<-|Hne].
        -- rewrite decide_True by lia. unfold rank, u16. rewrite Z.mod_small by lia. done.
        -- rewrite decide_False by lia. rewrite Z.add_0_r. by apply Hc.
  - intros cnt (Hz & Hle & Hc). rewrite Z.max_r in * by lia. apply HQ1; [done| |].
    + rewrite Forall_forall in Hbytes |- *. intros l Hin. split; [by apply Hbytes|]. apply list_elem_of_lookup_1 in Hin as [k Hk]. apply (Hle (Z.of_nat k)); [apply lookup_lt_Some in Hk; unfold zlen; lia|].
      unfold zlook. rewrite Nat2Z.id. destruct (Z.leb_spec 0 (Z.of_nat k)); [done|lia].
    + intros l Hl. rewrite Hc by lia. by rewrite rank_all.
Qed.

(** The loop over the lengths: what is left of the tree at each depth. *)
Definition left_at (n : nat) : Z := 2 ^ Z.of_nat n - (first_code ls n + bl_count ls (Z.of_nat n)).

Lemma left_next n : left_at (S n) = left_at n * 2 - bl_count ls (Z.of_nat (S n)).
Proof. unfold left_at. rewrite pow2_S. cbn [first_code]. lia. Qed.

Lemma wp_check_left cnt (Q : Z + unit -> Prop) :
  zlen cnt = 16 -> (forall l, 0 <= l <= 15 -> zlook cnt l = Some (bl_count ls l)) ->
  ((forall n, (1 <= n <= 15)%nat -> 0 <= left_at n) -> forall x, Q (inl x)) ->
  (~ (forall n, (1 <= n <= 15)%nat -> 0 <= left_at n) -> Q (inr tt)) ->
  wp (check_left cnt) Q.
Proof.
  intros Hz Hc HQ1 HQ2. unfold check_left, SCL_HUFF_MAX_BITS. change (15 + 1) with 16.
  apply (wp_zfor_ret (fun i left => left = left_at (Z.to_nat (i - 1)) /\ 0 <= left /\ forall n, (1 <= n)%nat -> Z.of_nat n < i -> 0 <= left_at n)).
  - split; [done|]. split; [lia|]. intros n H1 H2. lia.
  - intros i left Hi (Eleft & H0 & Hall). assert (left <= 2 ^ 15) as Hle.
    { rewrite Eleft. unfold left_at. pose proof (first_code_nonneg ls (Z.to_nat (i - 1))). pose proof (bl_count_nonneg ls (Z.of_nat (Z.to_nat (i - 1)))).
      assert (2 ^ Z.of_nat (Z.to_nat (i - 1)) <= 2 ^ 15) by (apply Z.pow_le_mono_r; lia). lia. }
    wstep. apply wp_to_int; [lia|]. wstep. apply wp_get; [lia|]. intros c Ec. rewrite Hc in Ec by lia. injection Ec as <-.
    assert (0 <= bl_count ls i <= 288) as Hb.
    { split; [apply bl_count_nonneg|]. unfold bl_count. pose proof (occ_le i ls). pose proof (zlen_nonneg ls). destruct (i =? 0); lia. }
    wstep. apply wp_to_int; [lia|]. assert (left * 2 - bl_count ls i = left_at (Z.to_nat i)) as En.
    { replace (Z.to_nat i) with (S (Z.to_nat (i - 1))) by lia. rewrite left_next, <- Eleft. do 2 f_equal. lia. }
    rewrite En. destruct (Z.ltb_spec (left_at (Z.to_nat i)) 0) as [Hneg|Hpos].
    + wstep. apply HQ2. intros Hx. specialize (Hx (Z.to_nat i) ltac:(lia)). lia.
    + wstep. split; [do 2 f_equal; lia|]. split; [done|]. intros n H1 H2. destruct (decide (n = Z.to_nat i)) as [->|]; [done|]. apply Hall; lia.
  - intros x (_ & _ & Hall). apply HQ1. intros n Hn. apply Hall; lia.
Qed.

Lemma wp_first_offsets cnt (Q : block Z -> Prop) :
  zlen cnt = 16 -> (forall l, 0 <= l <= 15 -> zlook cnt l = Some (bl_count ls l)) ->
  (forall offs, zlen offs = 16 -> (forall l, 1 <= l <= 15 -> zlook offs l = Some (Some (first_sym ls (Z.to_nat l)))) -> Q offs) ->
  wp (first_offsets cnt) Q.
Proof.
  intros Hz Hc HQ. unfold first_offsets, SCL_HUFF_MAX_BITS. wstep. apply wp_set; [done|].
  apply (wp_zfor (fun i offs => zlen offs = 16 /\ forall l, 1 <= l <= i -> zlook offs l = Some (Some (first_sym ls (Z.to_nat l))))).
  - split; [by rewrite zlen_zupd|]. intros l Hl. replace l with 1 by lia. rewrite zlook_zupd, decide_True by done. done.
  - intros i offs Hi [Ho Hoffs]. wstep. eapply wp_get_cell; [apply Hoffs; lia|]. wstep. apply wp_get; [lia|]. intros c Ec. rewrite Hc in Ec by lia. injection Ec as <-.
    apply wp_set; [lia|]. split; [by rewrite zlen_zupd|]. intros l Hl. rewrite zlook_zupd. destruct (decide (l = i + 1)) as [->|].
    + rewrite decide_True by lia. do 2 f_equal. replace (Z.to_nat (i + 1)) with (S (Z.to_nat i)) by lia. cbn [first_sym]. rewrite Z2Nat.id by lia.
      unfold u16. apply Z.mod_small. pose proof (first_sym_total ls (S (Z.to_nat i))) as Ht. cbn [first_sym] in Ht. rewrite Z2Nat.id in Ht by lia.
      pose proof (bl_count_nonneg ls i). pose proof (first_sym_le ls 0 (Z.to_nat i) ltac:(lia)) as H0. cbn [first_sym] in H0. lia.
    + rewrite decide_False by lia. apply Hoffs. lia.
  - intros offs [Ho Hoffs]. apply HQ; [done|]. intros l Hl. apply Hoffs. lia.
Qed.

Lemma wp_fill_syms offs syms (Q : block Z * block Z -> Prop) :
  Forall (fun l => 0 <= l <= 15) ls -> zlen offs = 16 -> (forall l, 1 <= l <= 15 -> zlook offs l = Some (Some (first_sym ls (Z.to_nat l)))) -> zlen syms = 288 ->
  (forall offs' syms', zlen syms' = 288 -> (forall i l, zlook ls i = Some l -> 0 < l -> zlook syms' (first_sym ls (Z.to_nat l) + rank ls l i) = Some (Some i)) -> Q (offs', syms')) ->
  wp (fill_syms lens (zlen ls) offs syms) Q.
Proof.
  intros Hlens Hz Hoffs Hs HQ. pose proof (zlen_nonneg ls). unfold fill_syms.
  apply (wp_zfor (fun i '(offs, syms) => zlen offs = 16 /\ zlen syms = 288 /\ (forall l, 1 <= l <= 15 -> zlook offs l = Some (Some (first_sym ls (Z.to_nat l) + rank ls l i))) /\
    (forall j l, j < i -> zlook ls j = Some l -> 0 < l -> zlook syms (first_sym ls (Z.to_nat l) + rank ls l j) = Some (Some j)))).
  - split; [done|]. split; [done|]. split; [intros l Hl; rewrite Hoffs by done; change (rank ls l 0) with 0; by rewrite Z.add_0_r|]. intros j l Hj Hl%zlook_Some. lia.
  - clear offs syms Hz Hoffs Hs. intros i [offs syms] Hi (Hz & Hs & Hoffs & Hsyms). destruct (len_at i Hi) as (l & Hl & H0).
    assert (l <= 15) as Hl15. { rewrite Forall_forall in Hlens. apply Hlens. unfold zlook in Hl. destruct (Z.leb_spec 0 i); [|lia]. by apply list_elem_of_lookup_2 in Hl. }
    wstep. eapply wp_get_cell; [by apply Hcells|]. assert (forall l', rank ls l' (i + 1) = rank ls l' i + (if l =? l' then 1 else 0)) as Hrank by (intros l'; by apply occ_next).
    destruct (Z.eqb_spec l 0) as [->|Hne]; cbn [negb].
    + wstep. split; [done|]. split; [done|]. split.
      * intros l' Hl'. rewrite Hoffs, Hrank by done. destruct (Z.eqb_spec 0 l'); [lia|]. do 2 f_equal. lia.
      * intros j l' Hj Hl' Hpos. destruct (decide (j = i)) as [->|]; [assert (l' = 0) by congruence; lia|]. apply Hsyms; [lia|done|done].
    + wstep. eapply wp_get_cell; [apply Hoffs; lia|]. pose proof (rank_bl ls l i Hl ltac:(lia)) as Hr. pose proof (position_lt ls l _ 16 ltac:(lia) Hr ltac:(lia)) as Hpos.
      pose proof (first_sym_total ls 16). pose proof (first_sym_le ls 0 (Z.to_nat l) ltac:(lia)) as Hfs. cbn [first_sym] in Hfs.
      wstep. apply wp_set; [lia|]. wstep. apply wp_set; [lia|]. wstep. split; [by rewrite zlen_zupd|]. split; [by rewrite zlen_zupd|]. split.
      * intros l' Hl'. rewrite zlook_zupd, Hrank. destruct (Z.eqb_spec l l') as [<-|Hne'].
        -- rewrite decide_True by lia. unfold u16. rewrite Z.mod_small by lia. f_equal. f_equal. lia.
        -- rewrite decide_False by lia. rewrite Z.add_0_r. by apply Hoffs.
      * intros j l' Hj Hl' Hp. pose proof (rank_bl ls l' j Hl' Hp) as Hr'. rewrite zlook_zupd. destruct (decide (j = i)) as [->|Hji].
        -- assert (l' = l) as -> by congruence. rewrite decide_True by lia. unfold u16. rewrite Z.mod_small by lia. done.
        -- rewrite decide_False; [apply Hsyms; [lia|done|done]|]. intros [E _]. destruct (position_unique ls l (rank ls l i) l' (rank ls l' j)) as [<- Er]; [lia|lia|done|done|done|].
           pose proof (rank_lt ls l j i Hl' ltac:(lia)). lia.
  - intros [offs' syms'] (_ & Hs' & _ & Hsyms). rewrite Z.max_r in Hsyms by lia. apply HQ; [done|]. intros i l Hi. apply Hsyms; [|done]. apply zlook_Some in Hi. lia.
Qed.

Lemma wp_huff_build t (Q : scl_error_t * scl_huff_tree_t -> Prop) : zlen (ht_syms t) = 288 ->
  (forall t', zlen (ht_syms t') = 288 -> tree_ok ls t' -> Q (SCL_OK, t')) -> (forall t', zlen (ht_syms t') = 288 -> ~ lens_ok ls -> Q (SCL_ERR_PARSE, t')) -> wp (scl_huff_build t lens (zlen ls)) Q.
Proof.
  intros Ht HQ1 HQ2. unfold scl_huff_build, SCL_HUFF_MAX_SYMS. rewrite Z.gtb_ltb. destruct (Z.ltb_spec 288 (zlen ls)); [lia|]. wstep. apply wp_count_lens.
  - intros cnt Hz Hlens Hcnt. cbv beta iota. wstep. apply wp_set; [lia|]. assert (forall l, 0 <= l <= 15 -> zlook (zupd cnt 0 0) l = Some (bl_count ls l)) as Hc.
    { intros l Hl. rewrite zlook_zupd. unfold bl_count. destruct (Z.eqb_spec l 0) as [->|]; [by rewrite decide_True by lia|]. rewrite decide_False by lia. by apply Hcnt. }
    assert (zlen (zupd cnt 0 0) = 16) as Hz' by (by rewrite zlen_zupd). wstep. apply wp_check_left; [done|done| |].
    + intros Hleft x. cbv beta iota. assert (lens_ok ls) as Hok by (split; [done|]; intros n Hn; specialize (Hleft n Hn); unfold left_at in Hleft; lia).
      wstep. eapply wp_first_offsets; [exact Hz'|exact Hc|]. intros offs Ho Hoffs. wstep. eapply wp_fill_syms; [done|exact Ho|exact Hoffs|exact Ht|].
      intros offs' syms' Hs Hsyms. wstep. apply HQ1; [done|]. by split.
    + intros Hleft. cbv beta iota. wstep. apply HQ2; [done|]. intros [_ Hk]. apply Hleft. intros n Hn. specialize (Hk n Hn). unfold left_at. lia.
  - intros cnt Hbad. cbv beta iota. wstep. apply HQ2; [done|]. by intros [? _].
Qed.
End Build.

(** ** Decoding *)
Section Decode.
Context (buf : list Z) (Hbuf : is_bytes buf) (Hlen : zlen buf <= PTRDIFF_MAX).
Context (ls : list Z) (t : scl_huff_tree_t) (T : tree_ok ls t).
Notation N := (num buf).
Notation total := (8 * zlen buf).

(** The lowest bit of a register that is not empty, or is in debt. *)
Lemma next_bit br c : reads buf br c -> br_nbits br <> 0 -> Z.land (br_bits br) 1 = (N / 2 ^ c) mod 2.
Proof.
  intros [Eb Ec Hc Hp En Hr Ebits Hd] Hn. change 1 with (Z.ones 1). rewrite Z.land_ones by lia. change (2 ^ 1) with 2. rewrite Ebits.
  destruct (Z.lt_ge_cases (br_nbits br) 0) as [Hneg|Hpos].
  - rewrite Z.max_l, Z.mod_1_r by lia. rewrite (past_end buf Hbuf); [done|]. specialize (Hd Hneg). lia.
  - rewrite Z.max_r by lia. change 2 with (2 ^ 1) at 3 5. apply mod_pow2_le. lia.
Qed.

Lemma wp_bit br c (Q : bool * bit_reader -> Prop) : reads buf br c ->
  (forall br', reads buf br' c -> br_nbits br' <> 0 -> Q (true, br')) ->
  (forall br', reads buf br' c -> total <= c -> Q (false, br')) ->
  wp (if br_nbits br =? 0 then bit_reader_fill br else mret (true, br)) Q.
Proof.
  intros R HQ1 HQ2. destruct (Z.eqb_spec (br_nbits br) 0) as [Hn|Hn]; [|by apply HQ1].
  eapply wp_br_fill; [exact Hbuf|exact Hlen|exact R|]. intros br' R' Hfull. destruct (Z.ltb_spec c total) as [Hc|Hc]; [|by apply HQ2].
  apply HQ1; [done|]. destruct R' as [_ _ _ _ En _ _ _]. lia.
Qed.

Lemma wp_decode br c (Q : Z * bit_reader -> Prop) : reads buf br c -> c + 15 <= total + 2 ^ 31 ->
  (forall br' i l, reads buf br' (c + l) -> zlook ls i = Some l -> 1 <= l <= 15 -> msb N c (Z.to_nat l) = canon ls l i -> Q (i, br')) ->
  (forall br' c', reads buf br' c' -> c <= c' <= c + 15 ->
     (forall i l, zlook ls i = Some l -> 0 < l -> c + l <= total -> msb N c (Z.to_nat l) <> canon ls l i) -> Q (-1, br')) ->
  wp (scl_huff_decode br t) Q.
Proof.
  intros R Hdebt HQ1 HQ2. destruct T as [Hfits [Hl15 Hkraft] Hcount Hsyms]. unfold scl_huff_decode, SCL_HUFF_MAX_BITS. change (15 + 1) with 16. wstep.
  apply (wp_zfor_ret (fun len '(br, code, first, index) => reads buf br (c + (len - 1)) /\ code = 2 * msb N c (Z.to_nat (len - 1)) /\
    first = first_code ls (Z.to_nat len) /\ index = first_sym ls (Z.to_nat len) /\ first <= code /\
    forall i l, zlook ls i = Some l -> 0 < l < len -> msb N c (Z.to_nat l) <> canon ls l i)).
  - split; [by replace (c + (1 - 1)) with c by lia|]. split; [done|]. split; [done|]. split; [done|]. split; [done|]. intros i l Hi Hl. lia.
  - clear br R. intros len [[[br code] first] index] Hlen' (R & Ecode & Efirst & Eindex & Hge & Hno). wstep. eapply wp_bit; [exact R| |].
    2: { intros br' R' Htot. cbv beta iota. cbn [negb]. wstep. wstep. eapply HQ2; [exact R'|lia|]. intros i l Hi Hl Hc. apply Hno; [done|lia]. }
    clear br R. intros br R Hn. cbv beta iota. cbn [negb]. pose proof (next_bit br _ R Hn) as Hbit. set (n := Z.to_nat (len - 1)) in *.
    assert (Z.to_nat len = S n) as En by lia. assert (len = Z.of_nat (S n)) as Elen by lia.
    pose proof R as [_ _ Hc0 Hp Enb Hr _ Hd]. pose proof (msb_range N c (S n)) as Hmr. rewrite <- Elen in Hmr. assert (2 ^ len <= 2 ^ 15) as H15 by (apply Z.pow_le_mono_r; lia).
    pose proof (Z.mod_pos_bound (N / 2 ^ (c + (len - 1))) 2 ltac:(lia)) as Hb2. pose proof (msb_range N c n) as Hmn.
    assert (Z.lor code (Z.land (br_bits br) 1) = msb N c (S n)) as Elor.
    { rewrite Hbit, Ecode, Z.lor_comm. replace (2 * msb N c n) with (Z.shiftl (msb N c n) 1) by (rewrite Z.shiftl_mul_pow2 by lia; lia).
      rewrite lor_shift; [|lia|change (2 ^ 1) with 2; lia]. cbn [msb]. replace (c + Z.of_nat n) with (c + (len - 1)) by lia. change (2 ^ 1) with 2. lia. }
    rewrite Elor. wstep. apply wp_to_int; [destruct (Z.lt_ge_cases (br_nbits br) 0) as [Hneg|]; [specialize (Hd Hneg)|]; lia|].
    assert (reads buf (Reader (br_buf br) (br_cap br) (br_pos br) (Z.shiftr (br_bits br) 1) (br_nbits br - 1)) (c + len)) as R1.
    { replace (c + len) with (c + (len - 1) + 1) by lia. apply reads_drop; [exact R|lia|done|by apply Z.shiftr_div_pow2; lia|]. intros. apply Hd. lia. }
    pose proof (zlook_Some _ _ _ (Hcount 15 ltac:(lia))) as Hz15. wstep. apply wp_get; [lia|]. intros cnt Ecnt. rewrite Hcount in Ecnt by lia. injection Ecnt as <-.
    pose proof (Hkraft (Z.to_nat len) ltac:(lia)) as Hk. rewrite Z2Nat.id in Hk by lia. pose proof (first_code_nonneg ls (Z.to_nat len)) as Hf0. pose proof (bl_count_nonneg ls len) as Hb0.
    assert (2 * msb N c n <= msb N c (S n)) as Hms by (cbn [msb]; replace (c + Z.of_nat n) with (c + (len - 1)) by lia; lia).
    assert (u32 (msb N c (S n) - first) = msb N c (S n) - first) as Eu by (unfold u32; apply Z.mod_small; lia). rewrite Eu.
    destruct (Z.ltb_spec (msb N c (S n) - first) (bl_count ls len)) as [Hlt|Hge'].
    + assert (exists i, zlook ls i = Some len /\ rank ls len i = msb N c (S n) - first) as (i & Hi & Hrk).
      { apply rank_onto. unfold bl_count in Hlt. destruct (Z.eqb_spec len 0); lia. }
      pose proof (position_lt ls len (msb N c (S n) - first) 16 ltac:(lia) ltac:(lia) ltac:(lia)) as Hpos. pose proof (first_sym_total ls 16).
      pose proof (first_sym_le ls 0 (Z.to_nat len) ltac:(lia)) as Hs0. cbn [first_sym] in Hs0.
      assert (u32 (index + (msb N c (S n) - first)) = first_sym ls (Z.to_nat len) + rank ls len i) as Eu2 by (rewrite Hrk, Eindex; unfold u32; apply Z.mod_small; lia).
      rewrite Eu2. wstep. eapply wp_get_cell; [by apply Hsyms; [exact Hi|lia]|]. wstep. eapply HQ1; [exact R1|exact Hi|lia|]. unfold canon. rewrite En, Hrk, <- En. lia.
    + wstep. split; [by replace (c + (len + 1 - 1)) with (c + len) by lia|]. replace (Z.to_nat (len + 1 - 1)) with (S n) by lia. replace (Z.to_nat (len + 1)) with (S (S n)) by lia.
      assert (first_code ls (S (S n)) = (first + bl_count ls len) * 2) as Ef2 by (rewrite Efirst, En; rewrite Elen at 1; reflexivity).
      assert (first_sym ls (S (S n)) = index + bl_count ls len) as Es2 by (rewrite Eindex, En; rewrite Elen at 1; reflexivity).
      assert (0 <= first + bl_count ls len <= 2 ^ len) as Hfl by lia. pose proof (first_sym_total ls (S (S n))) as Hs1. pose proof (first_sym_le ls 0 (S (S n)) ltac:(lia)) as Hs0. change (first_sym ls 0) with 0 in Hs0.
      rewrite Ef2, Es2 in *. rewrite !Z.shiftl_mul_pow2 by lia. change (2 ^ 1) with 2. assert (forall x, 0 <= x < 2 ^ 32 -> u32 x = x) as Hu by (intros x Hx; by apply Z.mod_small).
      rewrite (Hu (first + bl_count ls len)), !Hu by lia. split; [lia|]. split; [lia|]. split; [done|]. split; [lia|].
      intros i l Hi Hl. destruct (decide (l = len)) as [->|]; [|apply Hno; [done|lia]]. unfold canon. rewrite <- Efirst, En. pose proof (rank_bl ls len i Hi ltac:(lia)). lia.
  - intros [[[br' code] first] index] (R' & _ & _ & _ & _ & Hno). wstep. eapply HQ2; [exact R'|lia|]. intros i l Hi Hl _. apply Hno; [done|].
    rewrite Forall_forall in Hl15. specialize (Hl15 l). assert (l ∈ ls) as Hin by (unfold zlook in Hi; destruct (Z.leb_spec 0 i); [by apply list_elem_of_lookup_2 in Hi|done]). specialize (Hl15 Hin). lia.
Qed.
End Decode.

(** C4. A canonical Huffman code is built exactly from the code lengths (at most
    288, of at most 15 bits) that fit a binary tree, and refused otherwise; and
    from any place in a stream its decoder answers symbol [i] and moves past its
    code when the bits there spell the code RFC 1951 gives to [i], answers -1 when
    they spell no code of the stream, and never reads or writes outside its
    tables. *)
Theorem huffman_canonical (t0 : scl_huff_tree_t) (lens : block Z) (ls : list Z) (H0 : zlen (ht_syms t0) = 288)
  (Hbytes : Forall (fun l => 0 <= l) ls) (Hcells : forall i l, zlook ls i = Some l -> zlook lens i = Some (Some l)) :
  exists e t, scl_huff_build t0 lens (zlen ls) = Ok (e, t) /\
    (288 < zlen ls /\ e = SCL_ERR_INVALID_ARG \/
     zlen ls <= 288 /\ ~ lens_ok ls /\ e = SCL_ERR_PARSE \/
     zlen ls <= 288 /\ lens_ok ls /\ e = SCL_OK /\
       (forall buf br c i l, is_bytes buf -> zlen buf <= PTRDIFF_MAX -> reads buf br c -> zlook ls i = Some l -> 0 < l -> c + l <= 8 * zlen buf ->
          msb (num buf) c (Z.to_nat l) = canon ls l i ->
          exists br', scl_huff_decode br t = Ok (i, br') /\ reads buf br' (c + l)) /\
       (forall buf br c, is_bytes buf -> zlen buf <= PTRDIFF_MAX -> reads buf br c -> c + 15 <= 8 * zlen buf ->
          (forall i l, zlook ls i = Some l -> 0 < l -> msb (num buf) c (Z.to_nat l) <> canon ls l i) ->
          exists br', scl_huff_decode br t = Ok (-1, br'))).
Proof.
  destruct (Z.le_gt_cases (zlen ls) 288) as [Hle|Hgt].
  2: { exists SCL_ERR_INVALID_ARG, t0. split; [|auto]. unfold scl_huff_build, SCL_HUFF_MAX_SYMS. rewrite Z.gtb_ltb. by destruct (Z.ltb_spec 288 (zlen ls)); [|lia]. }
  destruct (proj1 (wp_ok (scl_huff_build t0 lens (zlen ls)) (fun '(e, t) => (e = SCL_OK /\ tree_ok ls t) \/ (e = SCL_ERR_PARSE /\ ~ lens_ok ls)))) as ([e t] & E & H).
  { eapply wp_huff_build; [exact Hbytes|exact Hcells|exact Hle|exact H0|auto|auto]. }
  exists e, t. split; [done|]. right. destruct H as [[-> T]|[-> Hbad]]; [right|by left]. split; [done|]. split; [apply T|]. split; [done|]. split.
  - intros buf br c i l Hb Hl R Hi Hpos Hc Hspell.
    assert (1 <= l <= 15) as Hl15. { destruct (to_lens _ _ T) as [H15 _]. rewrite Forall_forall in H15. specialize (H15 l). unfold zlook in Hi. destruct (Z.leb_spec 0 i); [|done]. apply list_elem_of_lookup_2 in Hi. specialize (H15 Hi). lia. }
    destruct (proj1 (wp_ok (scl_huff_decode br t) (fun r => r.1 = i /\ reads buf r.2 (c + l)))) as ([s br'] & Ed & <- & R').
    { eapply (wp_decode buf Hb Hl ls t T); [exact R|lia| |].
      - intros br' j m R' Hj Hm Em. destruct (canon_unique ls (num buf) c l i m j Hi Hj Hpos ltac:(lia) Hspell Em) as [<- <-]. done.
      - intros br' c' _ _ Hno. by destruct (Hno i l Hi Hpos Hc). }
    by exists br'.
  - intros buf br c Hb Hl R Hc Hno. destruct (proj1 (wp_ok (scl_huff_decode br t) (fun r => r.1 = -1))) as ([s br'] & Ed & Es).
    { eapply (wp_decode buf Hb Hl ls t T); [exact R|lia| |done]. intros br' j m _ Hj Hm Em. by destruct (Hno j m Hj ltac:(lia)). }
    exists br'. simpl in Es. by rewrite Ed, Es.
Qed.

Lemma huffman_canonical_witness :
  exists e t, scl_huff_build huff_uninit (Some <$> [2; 1; 3; 3; 0]) (zlen [2; 1; 3; 3; 0]) = Ok (e, t) /\ e = SCL_OK /\
    exists br', scl_huff_decode (bit_reader_init [3] (zlen [3])) t = Ok (2, br').
Proof.
  destruct (huffman_canonical huff_uninit (Some <$> [2; 1; 3; 3; 0]) [2; 1; 3; 3; 0]) as (e & t & E & H).
  - done.
  - repeat constructor; done.
  - intros i l Hi. rewrite zlook_fmap, Hi. done.
  - assert (e = SCL_OK) as He by (assert (exists t', scl_huff_build huff_uninit (Some <$> [2; 1; 3; 3; 0]) (zlen [2; 1; 3; 3; 0]) = Ok (SCL_OK, t')) as [t' E'] by (eexists; vm_compute; reflexivity); congruence).
    exists e, t. split; [done|]. split; [done|]. destruct H as [[H _]|[(_ & _ & H)|(_ & _ & _ & H & _)]]; [by vm_compute in H|congruence|].
    destruct (H [3] (bit_reader_init [3] (zlen [3])) 0 2 3) as (br' & Ed & _); [repeat constructor; lia|done|by apply reads_init|done|lia|done|done|by exists br'].
Defined.
