(* ===== verification/Inflate.v ===== *)
(** DEFLATE decompression ([deflate_decompress] of
    [libs/compress/gzip/scl_gzip.c]): stored, fixed and dynamic blocks into a
    growing buffer.  On any input it stays inside its objects and ends, and it
    decodes what stored and fixed blocks say. *)

From S2P Require Import Prelude Core Bytes Refine BitIO Huffman.
#[local] Open Scope Z_scope.

Definition FIXED_LIT_COUNT : Z := 288.
Definition FIXED_DIST_COUNT : Z := 32.
Definition SCL_LZ77_MAX_MATCH : Z := 258.

(** The base lengths and distances of the codes, and their extra bits. *)
Definition scl_len_base : list Z :=
  [3; 4; 5; 6; 7; 8; 9; 10; 11; 13; 15; 17; 19; 23; 27; 31; 35; 43; 51; 59; 67; 83; 99; 115; 131; 163; 195; 227; 258; 0; 0].
Definition scl_len_extra : list Z := [0; 0; 0; 0; 0; 0; 0; 0; 1; 1; 1; 1; 2; 2; 2; 2; 3; 3; 3; 3; 4; 4; 4; 4; 5; 5; 5; 5; 0; 0; 0].
Definition scl_dist_base : list Z :=
  [1; 2; 3; 4; 5; 7; 9; 13; 17; 25; 33; 49; 65; 97; 129; 193; 257; 385; 513; 769; 1025; 1537; 2049; 3073; 4097; 6145; 8193; 12289; 16385; 24577].
Definition scl_dist_extra : list Z := [0; 0; 0; 0; 1; 1; 2; 2; 3; 3; 4; 4; 5; 5; 6; 6; 7; 7; 8; 8; 9; 9; 10; 10; 11; 11; 12; 12; 13; 13].
Definition cl_order : list Z := [16; 17; 18; 0; 8; 7; 9; 6; 10; 5; 11; 4; 12; 3; 13; 2; 14; 1; 15].

(** The lengths of the fixed code: runs of 8, 9, 7, 8 bits (and 5 past them). *)
Definition fill_run (count hi v : Z) (s : block Z * Z) : res (block Z * Z) :=
  let '(lens, i) := s in
  lens ← zfor i (Z.min count hi) (fun j lens => set lens j (Some v)) lens;
  mret (lens, Z.max i (Z.min count hi)).

Definition scl_huff_fixed_lens (lens : block Z) (count : Z) : res (block Z) :=
  let count := if count >? FIXED_LIT_COUNT then FIXED_LIT_COUNT else count in
  s ← fill_run count 144 8 (lens, 0);
  s ← fill_run count 256 9 s;
  s ← fill_run count 280 7 s;
  s ← fill_run count 288 8 s;
  '(lens, _) ← fill_run count count 5 s;
  mret lens.

(** The output buffer: [*out_buf], [*out_len], [*out_cap]. *)
Record output : Type := Output { ou_buf : ptr Z; ou_len : Z; ou_cap : Z }.

Section Inflate.
Context (al : scl_allocator_t) (fuel : nat) (max_out : Z).
Implicit Types (br : bit_reader) (out : output) (w : world).

Definition inflate_ensure_cap out w (needed : Z) : res (scl_error_t * output * world) :=
  if needed >? max_out then mret (SCL_ERR_SIZE_OVERFLOW, out, w)
  else if needed <=? ou_cap out then mret (SCL_OK, out, w)
  else
    r ← loop 66
      (fun c => if c <? needed then match scl_mul_overflow c 2 with None => mret (inr None) | Some c => mret (inl c) end
                else mret (inr (Some c)))
      (if ou_cap out =? 0 then 4096 else ou_cap out);
    match r with
    | None => mret (SCL_ERR_SIZE_OVERFLOW, out, w)
    | Some new_cap =>
        let new_cap := if new_cap >? max_out then max_out else new_cap in
        '(nb, old, w) ← scl_realloc al w (ou_buf out) (ou_cap out) new_cap MAX_ALIGN 1;
        match nb with
        | None => mret (SCL_ERR_OUT_OF_MEMORY, Output old (ou_len out) (ou_cap out), w)
        | Some b => mret (SCL_OK, Output (Ptr b) (ou_len out) new_cap, w)
        end
    end.

(** A stored block: LEN and NLEN, then the bytes. *)
Definition inflate_stored br out w : res (scl_error_t * bit_reader * output * world) :=
  br ← bit_reader_align br;
  if u64 (br_pos br + 4) >? br_cap br then mret (SCL_ERR_PARSE, br, out, w)
  else
    b0 ← get (br_buf br) (br_pos br); b1 ← get (br_buf br) (br_pos br + 1);
    b2 ← get (br_buf br) (br_pos br + 2); b3 ← get (br_buf br) (br_pos br + 3);
    let len := Z.lor b0 (Z.shiftl b1 8) in
    let nlen := Z.lor b2 (Z.shiftl b3 8) in
    let br := Reader (br_buf br) (br_cap br) (u64 (br_pos br + 4)) (br_bits br) (br_nbits br) in
    if negb (Z.lxor len nlen =? 0xFFFF) then mret (SCL_ERR_PARSE, br, out, w)
    else if u64 (br_pos br + len) >? br_cap br then mret (SCL_ERR_PARSE, br, out, w)
    else
      '(err, out, w) ← inflate_ensure_cap out w (u64 (ou_len out + len));
      if negb (bool_decide (err = SCL_OK)) then mret (err, br, out, w)
      else
        buf ← zfor 0 len (fun k p => b ← get (br_buf br) (br_pos br + k); set_elem p (ou_len out + k) b) (ou_buf out);
        mret (SCL_OK, Reader (br_buf br) (br_cap br) (u64 (br_pos br + len)) (br_bits br) (br_nbits br),
              Output buf (u64 (ou_len out + len)) (ou_cap out), w).

(** The code lengths of a dynamic block: literal and distance lengths with
    their numbers. *)
Definition lengths : Type := (block Z * block Z * Z * Z)%type.

Definition read_cl_lens br (hclen : Z) : res (scl_error_t * block Z * bit_reader) :=
  r ← zfor_ret 0 hclen
    (fun i '(cl_lens, br) =>
       '(v, br) ← bit_reader_read br 3;
       o ← get cl_order i;
       cl_lens ← set cl_lens o (Some (u8 v));
       x ← get_cell cl_lens o;
       mret (if x >? 7 then inr (SCL_ERR_PARSE, cl_lens, br) else inl (cl_lens, br))) (replicate 19 (Some 0), br);
  mret (match r with inl (cl_lens, br) => (SCL_OK, cl_lens, br) | inr e => e end).

(** A run of [repeat] times [val], cut at the end. *)
Definition fill_lens (dyn_lens : block Z) (idx total val repeat : Z) : res (block Z) :=
  zfor 0 (Z.min repeat (total - idx)) (fun k d => set d (idx + k) (Some val)) dyn_lens.

Definition read_dyn_lens br (cl_tree : scl_huff_tree_t) (total : Z) : res (scl_error_t * block Z * bit_reader) :=
  loop (S (Z.to_nat total))
    (fun '(dyn_lens, idx, br) =>
       if idx <? total then
         '(sym, br) ← scl_huff_decode br cl_tree;
         if (sym <? 0) || (sym >? 18) then mret (inr (SCL_ERR_PARSE, dyn_lens, br))
         else if sym <? 16 then
           dyn_lens ← set dyn_lens idx (Some sym);
           mret (inl (dyn_lens, idx + 1, br))
         else if sym =? 16 then
           if idx =? 0 then mret (inr (SCL_ERR_PARSE, dyn_lens, br))
           else
             val ← get_cell dyn_lens (idx - 1);
             '(v, br) ← bit_reader_read br 2;
             dyn_lens ← fill_lens dyn_lens idx total val (v + 3);
             mret (inl (dyn_lens, idx + Z.min (v + 3) (total - idx), br))
         else if sym =? 17 then
           '(v, br) ← bit_reader_read br 3;
           dyn_lens ← fill_lens dyn_lens idx total 0 (v + 3);
           mret (inl (dyn_lens, idx + Z.min (v + 3) (total - idx), br))
         else
           '(v, br) ← bit_reader_read br 7;
           dyn_lens ← fill_lens dyn_lens idx total 0 (v + 11);
           mret (inl (dyn_lens, idx + Z.min (v + 11) (total - idx), br))
       else mret (inr (SCL_OK, dyn_lens, br)))
    (replicate 320 None, 0, br).

Definition read_dynamic br : res (scl_error_t * lengths * bit_reader) :=
  let none := (replicate 288 None, replicate 32 None, 0, 0) in
  '(v, br) ← bit_reader_read br 5; let hlit := v + 257 in
  '(v, br) ← bit_reader_read br 5; let hdist := v + 1 in
  '(v, br) ← bit_reader_read br 4; let hclen := v + 4 in
  if (hlit >? 286) || (hdist >? 30) || (hclen >? 19) then mret (SCL_ERR_PARSE, none, br)
  else
    '(err, cl_lens, br) ← read_cl_lens br hclen;
    if negb (bool_decide (err = SCL_OK)) then mret (err, none, br)
    else
      '(err, cl_tree) ← scl_huff_build huff_uninit cl_lens 19;
      if negb (bool_decide (err = SCL_OK)) then mret (err, none, br)
      else
        '(err, dyn_lens, br) ← read_dyn_lens br cl_tree (hlit + hdist);
        if negb (bool_decide (err = SCL_OK)) then mret (err, none, br)
        else
          lit_lens ← zfor 0 hlit (fun i l => x ← get_cell dyn_lens i; set l i (Some x)) (replicate 288 None);
          dist_lens ← zfor hlit (hlit + hdist) (fun i l => x ← get_cell dyn_lens i; set l (i - hlit) (Some x)) (replicate 32 None);
          mret (SCL_OK, (lit_lens, dist_lens, hlit, hdist), br).

Definition fixed_lengths : res lengths :=
  lit_lens ← scl_huff_fixed_lens (replicate 288 None) FIXED_LIT_COUNT;
  dist_lens ← zfor 0 FIXED_DIST_COUNT (fun i l => set l i (Some 5)) (replicate 32 None);
  mret (lit_lens, dist_lens, FIXED_LIT_COUNT, FIXED_DIST_COUNT).

(** [length += bit_reader_read(br, extra)] *)
Definition add_extra br (base extra : Z) : res (Z * bit_reader) :=
  if extra >? 0 then '(v, br) ← bit_reader_read br extra; mret (u32 (base + v), br) else mret (base, br).

(** The [length] bytes at [distance] before the end, [memcpy] when they are
    disjoint and one by one otherwise. *)
Definition copy_match (buf : ptr Z) (len distance length : Z) : res (ptr Z) :=
  match buf with
  | Ptr b =>
      b ← (if distance >=? length then copy_cells b len (len - distance) length
           else zfor 0 length (fun k b => c ← get_cell b (len - distance + k); set b (len + k) (Some c)) b);
      mret (Ptr b)
  | _ => UB
  end.

Definition inflate_symbol (lit_tree dist_tree : scl_huff_tree_t) (s : bit_reader * output * world)
    : res (bit_reader * output * world + scl_error_t * bit_reader * output * world) :=
  let '(br, out, w) := s in
  '(sym, br) ← scl_huff_decode br lit_tree;
  if sym <? 0 then mret (inr (SCL_ERR_PARSE, br, out, w))
  else if sym <? 256 then
    '(err, out, w) ← inflate_ensure_cap out w (u64 (ou_len out + 1));
    if negb (bool_decide (err = SCL_OK)) then mret (inr (err, br, out, w))
    else
      buf ← set_elem (ou_buf out) (ou_len out) sym;
      mret (inl (br, Output buf (u64 (ou_len out + 1)) (ou_cap out), w))
  else if sym =? 256 then mret (inr (SCL_OK, br, out, w))
  else if sym <=? 285 then
    let len_code := sym - 257 in
    if len_code >=? zlen scl_len_base then mret (inr (SCL_ERR_PARSE, br, out, w))
    else
      base ← get scl_len_base len_code; extra ← get scl_len_extra len_code;
      '(length, br) ← add_extra br base extra;
      '(dist_sym, br) ← scl_huff_decode br dist_tree;
      if (dist_sym <? 0) || (dist_sym >=? zlen scl_dist_base) then mret (inr (SCL_ERR_PARSE, br, out, w))
      else
        base ← get scl_dist_base dist_sym; extra ← get scl_dist_extra dist_sym;
        '(distance, br) ← add_extra br base extra;
        if (distance >? ou_len out) || (length >? SCL_LZ77_MAX_MATCH) then mret (inr (SCL_ERR_PARSE, br, out, w))
        else
          '(err, out, w) ← inflate_ensure_cap out w (u64 (ou_len out + length));
          if negb (bool_decide (err = SCL_OK)) then mret (inr (err, br, out, w))
          else
            buf ← copy_match (ou_buf out) (ou_len out) distance length;
            mret (inl (br, Output buf (u64 (ou_len out + length)) (ou_cap out), w))
  else mret (inr (SCL_ERR_PARSE, br, out, w)).

Definition inflate_codes br out w (l : lengths) : res (scl_error_t * bit_reader * output * world) :=
  let '(lit_lens, dist_lens, hlit, hdist) := l in
  '(err, lit_tree) ← scl_huff_build huff_uninit lit_lens hlit;
  '(err, dist_tree) ← (if bool_decide (err = SCL_OK) then scl_huff_build huff_uninit dist_lens hdist else mret (err, huff_uninit));
  if negb (bool_decide (err = SCL_OK)) then mret (err, br, out, w)
  else loop fuel (inflate_symbol lit_tree dist_tree) (br, out, w).

(** One block: whether it is the last, and how it ended. *)
Definition inflate_block br out w : res (bool * scl_error_t * bit_reader * output * world) :=
  '(v, br) ← bit_reader_read br 1; let final := negb (v =? 0) in
  '(btype, br) ← bit_reader_read br 2;
  if btype =? 0 then '(err, br, out, w) ← inflate_stored br out w; mret (final, err, br, out, w)
  else if (btype =? 1) || (btype =? 2) then
    '(err, l, br) ← (if btype =? 1 then l ← fixed_lengths; mret (SCL_OK, l, br) else read_dynamic br);
    if negb (bool_decide (err = SCL_OK)) then mret (final, err, br, out, w)
    else '(err, br, out, w) ← inflate_codes br out w l; mret (final, err, br, out, w)
  else mret (final, SCL_ERR_PARSE, br, out, w).

Definition deflate_decompress br out w : res (scl_error_t * bit_reader * output * world) :=
  loop fuel
    (fun '(br, out, w) =>
       '(ok, br) ← bit_reader_fill br;
       if negb ok then mret (inr (SCL_ERR_PARSE, br, out, w))
       else
         '(final, err, br, out, w) ← inflate_block br out w;
         if negb (bool_decide (err = SCL_OK)) then mret (inr (err, br, out, w))
         else if final : bool then mret (inr (SCL_OK, br, out, w))
         else mret (inl (br, out, w))) (br, out, w).
End Inflate.

(** ** The output buffer *)
Section Output.
Context (al : scl_allocator_t) `{!AllocatorOk al} (max_out live0 : Z) (Hmax : 0 <= max_out <= PTRDIFF_MAX).
Implicit Types (out : output) (w : world) (data : list Z).

(** The buffer starts with [data] and is no larger than allowed; [live0] blocks
    were live before it was allocated. *)
Record out_rep out w data : Prop := OutRep {
  or_len : ou_len out = zlen data;
  or_fits : zlen data <= ou_cap out <= max_out;
  or_buf : match ou_buf out with
           | Null => ou_cap out = 0 /\ w_live w = live0
           | Ptr b => zlen b = ou_cap out /\ w_live w = live0 + 1 /\ forall i x, zlook data i = Some x -> zlook b i = Some (Some x)
           | Dangling => False
           end
}.

Lemma wp_out_grow needed c0 (Q : option Z -> Prop) : 0 <= needed <= PTRDIFF_MAX -> 1 <= c0 -> (forall c, needed <= c -> Q (Some c)) ->
  wp (loop 66 (fun c => if c <? needed then match scl_mul_overflow c 2 with None => mret (inr None) | Some c => mret (inl c) end
                        else mret (inr (Some c))) c0) Q.
Proof.
  intros Hn Hc HQ. apply (wp_loop_rel (fun f c => 0 <= f <= 64 /\ 1 <= c /\ needed <= c * 2 ^ f) 64); [|lia|lia|].
  - split; [lia|]. split; [done|]. unfold PTRDIFF_MAX in Hn. nia.
  - intros f c (Hf & Hc1 & Hle). destruct (Z.ltb_spec c needed) as [Hlt|Hge]; [|wstep; by apply HQ].
    rewrite scl_mul_overflow_spec by (unfold PTRDIFF_MAX, is_u64 in *; lia). destruct (Z.ltb_spec (c * 2) (2 ^ 64)); [|unfold PTRDIFF_MAX in Hn; lia]. wstep. assert (f <> 0) as Hf0 by (intros ->; change (2 ^ 0) with 1 in Hle; lia).
    exists (f - 1). split; [lia|]. split; [lia|]. split; [lia|]. replace (2 ^ f) with (2 * 2 ^ (f - 1)) in Hle by (rewrite <- Z.pow_succ_r by lia; f_equal; lia). lia.
Qed.

Lemma wp_ensure_cap out w data k (Q : scl_error_t * output * world -> Prop) : out_rep out w data -> 0 <= k ->
  (forall out' w', out_rep out' w' data -> zlen data + k <= ou_cap out' -> ou_cap out' = 0 \/ (exists b, ou_buf out' = Ptr b) -> Q (SCL_OK, out', w')) ->
  (forall e out' w', (e = SCL_ERR_SIZE_OVERFLOW /\ max_out < zlen data + k) \/ e = SCL_ERR_OUT_OF_MEMORY -> out_rep out' w' data -> Q (e, out', w')) ->
  wp (inflate_ensure_cap al max_out out w (zlen data + k)) Q.
Proof.
  intros R Hk HQ1 HQ2. pose proof R as [El Hf Hb]. pose proof (zlen_nonneg data). unfold inflate_ensure_cap. rewrite Z.gtb_ltb.
  destruct (Z.ltb_spec max_out (zlen data + k)) as [Hbig|Hsmall]; [wstep; apply HQ2; [left; done|done]|].
  destruct (Z.leb_spec (zlen data + k) (ou_cap out)) as [Hroom|Hfull].
  { wstep. apply HQ1; [done|done|]. destruct (ou_buf out) as [|b|]; [left; apply Hb|right; by exists b|done]. }
  wstep. apply wp_out_grow; [lia|destruct (Z.eqb_spec (ou_cap out) 0); lia|]. intros c Hc. cbv beta iota zeta. rewrite Z.gtb_ltb. set (nc := if max_out <? c then max_out else c).
  assert (zlen data + k <= nc <= max_out) as Hnc by (unfold nc; destruct (Z.ltb_spec max_out c); lia).
  assert (1 <= nc) as Hnc1 by lia. wstep. unfold scl_realloc. pose proof (realloc_fn_ok (al := al) (w_reqs w)) as Hok. pose proof (realloc_fn_kept (al := al) (w_reqs w)) as Hkept.
  destruct (ou_buf out) as [|b|] eqn:Ebuf; [| |done].
  - destruct Hb as [Ecap Ew]. assert (data = []) as -> by (destruct data as [|x data]; [done|rewrite zlen_cons in Hf; pose proof (zlen_nonneg data); lia]). destruct (realloc_fn al (w_reqs w) false (ou_cap out) nc MAX_ALIGN) eqn:Er.
    + wstep. wstep. apply HQ1; [|cbn [ou_cap]; lia|right; eauto]. split; cbn [ou_len ou_cap ou_buf]; [done|lia|]. split; [|split; [cbn [w_live]; lia|by intros i x Hx; rewrite zlook_nil in Hx]].
      rewrite take_nil, zlen_app, zlen_replicate, Z.div_1_r. cbn [length]. rewrite (eq_refl : zlen (@nil (option Z)) = 0). lia.
    + wstep. wstep. apply HQ2; [by right|]. split; cbn [ou_len ou_cap ou_buf]; [done|lia|done].
    + wstep. wstep. apply HQ2; [by right|]. split; cbn [ou_len ou_cap ou_buf]; [done|lia|]. split; [done|]. cbn [w_live]. lia.
  - destruct Hb as (Eb & Ew & Hcells). destruct (realloc_fn al (w_reqs w) true (ou_cap out) nc MAX_ALIGN) eqn:Er.
    + wstep. wstep. apply HQ1; [|cbn [ou_cap]; lia|right; eauto]. split; cbn [ou_len ou_cap ou_buf]; [done|lia|].
      assert (scl_min_sz (ou_cap out) nc = ou_cap out) as Emin by (unfold scl_min_sz; bcase; lia). rewrite Emin, !Z.div_1_r. rewrite take_ge by (unfold zlen in Eb; lia). split; [|split; [done|]].
      * rewrite zlen_app, zlen_replicate. unfold zlen in *. lia.
      * intros i x Hx. pose proof (zlook_Some _ _ _ Hx). rewrite zlook_app. destruct (Z.ltb_spec i (zlen b)); [by apply Hcells|lia].
    + wstep. wstep. apply HQ2; [by right|]. split; cbn [ou_len ou_cap ou_buf]; [done|lia|done].
    + exfalso. apply Hkept in Er; [lia|]. unfold PTRDIFF_MAX, SIZE_MAX in *. lia.
Qed.

(** Cells written after the data. *)
Lemma out_extend out w data (more : list Z) b : out_rep out w data -> zlen data + zlen more <= ou_cap out -> (exists b0, ou_buf out = Ptr b0) -> zlen b = ou_cap out ->
  (forall i x, zlook data i = Some x -> zlook b i = Some (Some x)) -> (forall i x, zlook more i = Some x -> zlook b (zlen data + i) = Some (Some x)) ->
  out_rep (Output (Ptr b) (u64 (ou_len out + zlen more)) (ou_cap out)) w (data ++ more).
Proof.
  intros [El Hf Hb] Hroom [b0 E0] Ez Hd Hm. rewrite E0 in Hb. destruct Hb as (_ & Ew & _). pose proof (zlen_nonneg data). pose proof (zlen_nonneg more). unfold PTRDIFF_MAX in Hmax.
  split; cbn [ou_len ou_cap ou_buf]; [rewrite El, zlen_app; apply u64_small; lia|rewrite zlen_app; lia|]. split; [done|]. split; [done|].
  intros i x Hx. rewrite zlook_app in Hx. destruct (Z.ltb_spec i (zlen data)); [by apply Hd|]. replace i with (zlen data + (i - zlen data)) by lia. by apply Hm.
Qed.
End Output.

(** ** Tokens *)
Inductive token : Type := Lit (b : Z) | Match (len dist : Z).

(** [n] bytes repeated from [d] before the end. *)
Fixpoint rep (n : nat) (d : Z) (data : list Z) : list Z :=
  match n with O => data | S n => let data := rep n d data in data ++ [default 0 (zlook data (zlen data - d))] end.

Definition expand (data : list Z) (t : token) : list Z :=
  match t with Lit b => data ++ [b] | Match n d => rep (Z.to_nat n) d data end.

(** A match reaches back into the data. *)
Definition token_ok (data : list Z) (t : token) : Prop :=
  match t with Lit b => 0 <= b < 256 | Match n d => 3 <= n <= 258 /\ 1 <= d <= zlen data end.

Lemma zlen_rep n d data : zlen (rep n d data) = zlen data + Z.of_nat n.
Proof. induction n as [|n IH]; cbn [rep]; [lia|]. rewrite zlen_app, IH. change (zlen [_]) with 1. lia. Qed.

Lemma rep_below n d data i : i < zlen data -> zlook (rep n d data) i = zlook data i.
Proof.
  intros Hi. induction n as [|n IH]; cbn [rep]; [done|]. rewrite zlook_app, zlen_rep. destruct (Z.ltb_spec i (zlen data + Z.of_nat n)); [done|lia].
Qed.

Lemma rep_back n d data k : 1 <= d <= zlen data -> 0 <= k < Z.of_nat n -> zlook (rep n d data) (zlen data + k) = zlook (rep n d data) (zlen data + k - d).
Proof.
  intros Hd. revert k. induction n as [|n IH]; intros k Hk; [lia|]. cbn [rep]. rewrite !zlook_app, zlen_rep.
  destruct (Z.ltb_spec (zlen data + k - d) (zlen data + Z.of_nat n)); [|lia]. destruct (Z.ltb_spec (zlen data + k) (zlen data + Z.of_nat n)); [apply IH; lia|].
  replace (zlen data + k) with (zlen data + Z.of_nat n) by lia. rewrite Z.sub_diag.
  destruct (zlook_lt (rep n d data) (zlen data + Z.of_nat n - d)) as [x ->]; [rewrite zlen_rep; lia|]. done.
Qed.

Lemma rep_disjoint n d data k : 1 <= d <= zlen data -> Z.of_nat n <= d -> 0 <= k < Z.of_nat n -> zlook (rep n d data) (zlen data + k) = zlook data (zlen data + k - d).
Proof. intros Hd Hn Hk. rewrite rep_back by lia. apply rep_below. lia. Qed.

Section Copies.
Context (al : scl_allocator_t) `{!AllocatorOk al} (max_out live0 : Z) (Hmax : 0 <= max_out <= PTRDIFF_MAX).
Notation out_rep := (out_rep max_out live0).

Lemma cells_room out w data b : out_rep out w data -> ou_buf out = Ptr b -> zlen b = ou_cap out /\ forall i x, zlook data i = Some x -> zlook b i = Some (Some x).
Proof. intros [_ _ Hb] E. rewrite E in Hb. by destruct Hb as (? & _ & ?). Qed.

Lemma out_with out w data data' b : out_rep out w data -> (exists b0, ou_buf out = Ptr b0) -> zlen data <= zlen data' <= ou_cap out -> zlen b = ou_cap out ->
  (forall i x, zlook data' i = Some x -> zlook b i = Some (Some x)) -> out_rep (Output (Ptr b) (u64 (zlen data')) (ou_cap out)) w data'.
Proof.
  intros [El Hf Hb] [b0 E0] Hroom Ez Hd. rewrite E0 in Hb. destruct Hb as (_ & Ew & _). pose proof (zlen_nonneg data). unfold PTRDIFF_MAX in Hmax.
  split; cbn [ou_len ou_cap ou_buf]; [apply u64_small; lia|lia|done].
Qed.

Lemma wp_out_push out w data x (Q : ptr Z -> Prop) : out_rep out w data -> zlen data + 1 <= ou_cap out ->
  (forall p, out_rep (Output p (u64 (zlen data + 1)) (ou_cap out)) w (data ++ [x]) -> Q p) -> wp (set_elem (ou_buf out) (zlen data) x) Q.
Proof.
  intros R Hroom HQ. pose proof (zlen_nonneg data). destruct (ou_buf out) as [|b|] eqn:E.
  - destruct R as [_ _ Hb]. rewrite E in Hb. lia.
  - destruct (cells_room _ _ _ _ R E) as [Ez Hc]. eapply wp_set_elem; [lia|]. apply HQ. replace (zlen data + 1) with (zlen (data ++ [x])) by (by rewrite zlen_app).
    eapply out_with; [exact R|by exists b|rewrite zlen_app; change (zlen [x]) with 1; lia|by rewrite zlen_zupd|].
    intros i y Hy. rewrite zlook_zupd. rewrite zlook_app in Hy. destruct (Z.ltb_spec i (zlen data)).
    + rewrite decide_False by lia. by apply Hc.
    + pose proof (zlook_Some _ _ _ Hy) as Hr. change (zlen [x]) with 1 in Hr. rewrite decide_True by lia. replace (i - zlen data) with 0 in Hy by lia. exact (f_equal Some Hy).
  - destruct R as [_ _ Hb]. by rewrite E in Hb.
Qed.

Lemma wp_copy_match out w data n d (Q : ptr Z -> Prop) : out_rep out w data -> 1 <= d <= zlen data -> 0 <= n -> zlen data + n <= ou_cap out ->
  (forall p, out_rep (Output p (u64 (zlen data + n)) (ou_cap out)) w (rep (Z.to_nat n) d data) -> Q p) -> wp (copy_match (ou_buf out) (zlen data) d n) Q.
Proof.
  intros R Hd Hn Hroom HQ. destruct (ou_buf out) as [|b|] eqn:E.
  - destruct R as [_ _ Hb]. rewrite E in Hb. lia.
  - destruct (cells_room _ _ _ _ R E) as [Ez Hc]. cbn [copy_match].
    assert (forall b', zlen b' = ou_cap out -> (forall i x, zlook (rep (Z.to_nat n) d data) i = Some x -> zlook b' i = Some (Some x)) -> Q (Ptr b')) as Hdone.
    { intros b' Ez' Hc'. apply HQ. replace (zlen data + n) with (zlen (rep (Z.to_nat n) d data)) by (rewrite zlen_rep; lia).
      eapply out_with; [exact R|by exists b|rewrite zlen_rep; lia|done|done]. }
    rewrite Z.geb_leb. destruct (Z.leb_spec n d) as [Hdis|Hover].
    + wstep. eapply wp_copy_cells; [lia|lia|lia|lia|lia|lia|]. intros b' Ez' Hb'. wstep. apply Hdone; [lia|]. intros i x Hx. rewrite Hb'.
      pose proof (zlook_Some _ _ _ Hx) as Hr. rewrite zlen_rep in Hr. destruct (Z.leb_spec (zlen data) i) as [Hi|Hi]; cbn [andb].
      * destruct (Z.ltb_spec i (zlen data + n)); [|lia]. apply Hc. rewrite <- Hx. replace i with (zlen data + (i - zlen data)) at 2 by lia. rewrite rep_disjoint by lia. f_equal. lia.
      * apply Hc. by rewrite rep_below in Hx by lia.
    + wstep. apply (wp_zfor (fun k b' => zlen b' = ou_cap out /\ forall i x, zlook (rep (Z.to_nat k) d data) i = Some x -> zlook b' i = Some (Some x))).
      * by split.
      * intros k b' Hk [Ez' Hc']. destruct (zlook_lt (rep (Z.to_nat k) d data) (zlen data + k - d)) as [x Hx]; [rewrite zlen_rep; lia|].
        wstep. eapply wp_get_cell; [replace (zlen data - d + k) with (zlen data + k - d) by lia; by apply Hc'|]. apply wp_set; [lia|]. split; [by rewrite zlen_zupd|].
        intros i y Hy. replace (Z.to_nat (k + 1)) with (S (Z.to_nat k)) in Hy by lia. cbn [rep] in Hy. rewrite zlook_app, zlen_rep in Hy. rewrite zlook_zupd.
        destruct (Z.ltb_spec i (zlen data + Z.of_nat (Z.to_nat k))); [rewrite decide_False by lia; by apply Hc'|].
        pose proof (zlook_Some _ _ _ Hy) as Hr. change (zlen [_]) with 1 in Hr. rewrite decide_True by lia. replace (i - (zlen data + Z.of_nat (Z.to_nat k))) with 0 in Hy by lia.
        replace (zlen data + Z.of_nat (Z.to_nat k) - d) with (zlen data + k - d) in Hy by lia. rewrite Hx in Hy. exact (f_equal Some Hy).
      * intros b' [Ez' Hc']. wstep. rewrite Z.max_r in Hc' by lia. by apply Hdone.
  - destruct R as [_ _ Hb]. by rewrite E in Hb.
Qed.

(** The bytes of a stored block. *)
Lemma wp_copy_stored out w data (src : list Z) pos n (Q : ptr Z -> Prop) : out_rep out w data -> 0 <= pos -> 0 <= n -> pos + n <= zlen src -> zlen data + n <= ou_cap out ->
  (forall p, out_rep (Output p (u64 (zlen data + n)) (ou_cap out)) w (data ++ slice src pos (pos + n)) -> Q p) ->
  wp (zfor 0 n (fun k p => b ← get src (pos + k); set_elem p (zlen data + k) b) (ou_buf out)) Q.
Proof.
  intros R Hp Hn Hsrc Hroom HQ. apply (wp_zfor (fun k p => out_rep (Output p (u64 (zlen data + k)) (ou_cap out)) w (data ++ slice src pos (pos + k)))).
  - rewrite slice_nil, app_nil_r by lia. destruct R as [El Hf Hb]. pose proof (zlen_nonneg data). unfold PTRDIFF_MAX in Hmax. rewrite Z.add_0_r. split; cbn [ou_len ou_cap ou_buf]; [apply u64_small; lia|lia|done].
  - intros k p Hk R'. wstep. apply wp_get; [lia|]. intros x Hx. assert (zlen (data ++ slice src pos (pos + k)) = zlen data + k) as Ez by (rewrite zlen_app, zlen_slice; lia).
    rewrite <- Ez. eapply (wp_out_push (Output p (u64 (zlen data + k)) (ou_cap out))); [exact R'|cbn [ou_cap]; lia|]. cbn [ou_cap]. intros p' R2. rewrite Ez, <- app_assoc in R2.
    replace (zlen data + (k + 1)) with (zlen data + k + 1) by lia. replace (pos + (k + 1)) with (pos + k + 1) by lia.
    rewrite <- (slice_app src pos (pos + k) (pos + k + 1)) by lia. rewrite (slice_cons src (pos + k) (pos + k + 1) x) by (lia || done). by rewrite (slice_nil src (pos + k + 1) (pos + k + 1)) by lia.
  - intros p R'. rewrite Z.max_r in R' by lia. by apply HQ.
Qed.
End Copies.

(** ** Symbols *)
Lemma len_tables i : 0 <= i <= 28 -> exists b e, zlook scl_len_base i = Some b /\ zlook scl_len_extra i = Some e /\ 3 <= b <= 258 /\ 0 <= e <= 5.
Proof.
  intros Hi. assert (exists n : nat, i = Z.of_nat n /\ (n < 29)%nat) as (n & -> & Hn) by (exists (Z.to_nat i); lia).
  do 29 (destruct n as [|n]; [eexists _, _; split; [reflexivity|split; [reflexivity|lia]]|]). lia.
Qed.

Lemma dist_tables i : 0 <= i < 30 -> exists b e, zlook scl_dist_base i = Some b /\ zlook scl_dist_extra i = Some e /\ 1 <= b <= 24577 /\ 0 <= e <= 13.
Proof.
  intros Hi. assert (exists n : nat, i = Z.of_nat n /\ (n < 30)%nat) as (n & -> & Hn) by (exists (Z.to_nat i); lia).
  do 30 (destruct n as [|n]; [eexists _, _; split; [reflexivity|split; [reflexivity|lia]]|]). lia.
Qed.

Section Symbols.
Context (al : scl_allocator_t) `{!AllocatorOk al} (max_out live0 : Z) (Hmax : 0 <= max_out <= PTRDIFF_MAX).
Context (buf : list Z) (Hbuf : is_bytes buf) (Hlen : zlen buf <= PTRDIFF_MAX).
Context (lits dists : list Z) (lt dt : scl_huff_tree_t) (Tl : tree_ok lits lt) (Td : tree_ok dists dt).
Notation out_rep := (out_rep max_out live0).
Notation N := (num buf).
Notation total := (8 * zlen buf).
Notation reads := (reads buf).

Lemma wp_add_extra br c base extra (Q : Z * bit_reader -> Prop) : reads br c -> 0 <= extra <= 13 -> 0 <= base <= 2 ^ 16 -> c + extra <= total + 2 ^ 31 ->
  (forall br', reads br' (c + extra) -> Q (base + (N / 2 ^ c) mod 2 ^ extra, br')) -> wp (add_extra br base extra) Q.
Proof.
  intros R He Hb Hc HQ. unfold add_extra. rewrite Z.gtb_ltb. destruct (Z.ltb_spec 0 extra).
  - wstep. eapply wp_read; [exact Hbuf|exact Hlen|exact R|lia|lia|]. intros br' R'. wstep. assert (2 ^ extra <= 2 ^ 13) by (apply Z.pow_le_mono_r; lia).
    pose proof (Z.mod_pos_bound (N / 2 ^ c) (2 ^ extra) ltac:(lia)). unfold u32. rewrite Z.mod_small by lia. by apply HQ.
  - replace extra with 0 in * by lia. specialize (HQ br). rewrite Z.add_0_r, Z.mod_1_r, Z.add_0_r in HQ. wstep. by apply HQ.
Qed.

Lemma wp_symbol_safe br c out w data (Q : _ -> Prop) : reads br c -> out_rep out w data -> c + 48 <= total + 2 ^ 31 ->
  (forall br' out' w' c' t, reads br' c' -> token_ok data t -> out_rep out' w' (expand data t) -> c <= c' <= c + 16 * (zlen (expand data t) - zlen data) -> Q (inl (br', out', w'))) ->
  (forall e br' out' w' c', reads br' c' -> c <= c' <= c + 48 -> out_rep out' w' data -> Q (inr (e, br', out', w'))) ->
  wp (inflate_symbol al max_out lt dt (br, out, w)) Q.
Proof.
  intros R O Hc HQ1 HQ2. pose proof O as [El Hf _]. pose proof (zlen_nonneg data). pose proof (to_fits _ _ Tl) as Hl288. assert (max_out < 2 ^ 63) by (unfold PTRDIFF_MAX in Hmax; lia).
  unfold inflate_symbol. wstep. eapply (wp_decode buf Hbuf Hlen lits lt Tl); [exact R|lia| |].
  2: { intros br' c' R' Hc' _. cbv beta iota. change (-1 <? 0) with true. cbv iota. wstep. eapply HQ2; [exact R'|lia|exact O]. }
  intros br1 sym l R1 Hsym Hl _. pose proof (zlook_Some _ _ _ Hsym) as Hsr. cbv beta iota. destruct (Z.ltb_spec sym 0); [lia|]. destruct (Z.ltb_spec sym 256) as [Hlit|Hlit].
  { rewrite El, u64_small by lia. wstep. eapply wp_ensure_cap; [exact AllocatorOk0|exact Hmax|exact O|lia| |].
    - intros out' w' O' Hroom _. cbv beta iota. rewrite bool_decide_true by done. cbn [negb]. wstep. rewrite (or_len _ _ _ _ _ O').
      eapply wp_out_push; [exact Hmax|exact O'|lia|]. intros p O2. wstep. eapply (HQ1 _ _ _ (c + l) (Lit sym)); [exact R1|cbn; lia|exact O2|]. cbn [expand]. rewrite zlen_app. change (zlen [sym]) with 1. lia.
    - intros e out' w' He O'. cbv beta iota. rewrite bool_decide_false by (destruct He as [[-> _]| ->]; done). cbn [negb]. wstep. eapply HQ2; [exact R1|lia|exact O']. }
  destruct (Z.eqb_spec sym 256) as [->|Hn256]; [wstep; eapply HQ2; [exact R1|lia|exact O]|]. destruct (Z.leb_spec sym 285) as [H285|H285]; [|wstep; eapply HQ2; [exact R1|lia|exact O]].
  cbv zeta. rewrite Z.geb_leb. change (zlen scl_len_base) with 31. destruct (Z.leb_spec 31 (sym - 257)); [lia|].
  destruct (len_tables (sym - 257) ltac:(lia)) as (lb & le & Elb & Ele & Hlb & Hle). wstep. apply wp_get; [by apply zlook_Some in Elb|]. intros ? E1. rewrite Elb in E1. injection E1 as <-.
  wstep. apply wp_get; [by apply zlook_Some in Ele|]. intros ? E1. rewrite Ele in E1. injection E1 as <-.
  wstep. eapply wp_add_extra; [exact R1|lia|lia|lia|]. intros br2 R2. cbv beta iota. assert (2 ^ le <= 2 ^ 5) by (apply Z.pow_le_mono_r; lia). assert (0 < 2 ^ le) by (apply Z.pow_pos_nonneg; lia).
  pose proof (Z.mod_pos_bound (N / 2 ^ (c + l)) (2 ^ le) ltac:(lia)) as Hext. set (n := lb + _) in *. assert (3 <= n <= 289) as Hn by (unfold n; lia).
  wstep. eapply (wp_decode buf Hbuf Hlen dists dt Td); [exact R2|lia| |].
  2: { intros br' c' R' Hc' _. cbv beta iota. change (-1 <? 0) with true. cbn [orb]. wstep. eapply HQ2; [exact R'|lia|exact O]. }
  intros br3 ds m R3 Hds Hm _. pose proof (zlook_Some _ _ _ Hds) as Hdr. cbv beta iota. destruct (Z.ltb_spec ds 0); [lia|]. cbn [orb]. rewrite Z.geb_leb. change (zlen scl_dist_base) with 30.
  destruct (Z.leb_spec 30 ds); [wstep; eapply HQ2; [exact R3|lia|exact O]|].
  destruct (dist_tables ds ltac:(lia)) as (db & de & Edb & Ede & Hdb & Hde). wstep. apply wp_get; [by apply zlook_Some in Edb|]. intros ? E1. rewrite Edb in E1. injection E1 as <-.
  wstep. apply wp_get; [by apply zlook_Some in Ede|]. intros ? E1. rewrite Ede in E1. injection E1 as <-.
  wstep. eapply wp_add_extra; [exact R3|lia|lia|lia|]. intros br4 R4. cbv beta iota. assert (0 < 2 ^ de) by (apply Z.pow_pos_nonneg; lia).
  pose proof (Z.mod_pos_bound (N / 2 ^ (c + l + le + m)) (2 ^ de) ltac:(lia)) as Hdext. set (d := db + _) in *. assert (1 <= d) as Hd by (unfold d; lia).
  rewrite !Z.gtb_ltb, El. unfold SCL_LZ77_MAX_MATCH. destruct (Z.ltb_spec (zlen data) d); [cbn [orb]; wstep; eapply HQ2; [exact R4|lia|exact O]|].
  destruct (Z.ltb_spec 258 n); cbn [orb]; [wstep; eapply HQ2; [exact R4|lia|exact O]|]. rewrite u64_small by lia. wstep. eapply wp_ensure_cap; [exact AllocatorOk0|exact Hmax|exact O|lia| |].
  - intros out' w' O' Hroom _. cbv beta iota. rewrite bool_decide_true by done. cbn [negb]. wstep. rewrite (or_len _ _ _ _ _ O').
    eapply wp_copy_match; [exact Hmax|exact O'|lia|lia|lia|]. intros p O2. wstep. eapply (HQ1 _ _ _ _ (Match n d)); [exact R4|cbn; lia|exact O2|]. cbn [expand]. rewrite zlen_rep. lia.
  - intros e out' w' He O'. cbv beta iota. rewrite bool_decide_false by (destruct He as [[-> _]| ->]; done). cbn [negb]. wstep. eapply HQ2; [exact R4|lia|exact O'].
Qed.
End Symbols.

(** ** Code lengths *)

(** The first [n] cells hold values satisfying [P]. *)
Definition filled (P : Z -> Prop) (b : block Z) (n : Z) : Prop := forall i, 0 <= i < n -> exists x, zlook b i = Some (Some x) /\ P x.

Lemma filled_list P b n : 0 <= n -> filled P b n -> exists xs, zlen xs = n /\ Forall P xs /\ forall i x, zlook xs i = Some x -> zlook b i = Some (Some x).
Proof.
  intros Hn. assert (exists k : nat, n = Z.of_nat k) as [k ->] by (exists (Z.to_nat n); lia). clear Hn. induction k as [|k IH]; intros H.
  - exists []. split; [done|]. split; [constructor|]. intros i x Hx. by rewrite zlook_nil in Hx.
  - destruct IH as (xs & Ez & HP & Hc); [intros i Hi; apply H; lia|]. destruct (H (Z.of_nat k) ltac:(lia)) as (x & Hx & HPx). exists (xs ++ [x]).
    rewrite zlen_app. change (zlen [x]) with 1. split; [lia|]. split; [apply Forall_app; split; [done|by apply Forall_singleton]|].
    intros i y Hy. rewrite zlook_app in Hy. destruct (Z.ltb_spec i (zlen xs)); [by apply Hc|]. pose proof (zlook_Some _ _ _ Hy) as Hr. change (zlen [x]) with 1 in Hr.
    replace i with (Z.of_nat k) by lia. rewrite Hx. replace (i - zlen xs) with 0 in Hy by lia. exact (f_equal Some Hy).
Qed.

Lemma filled_upd P b n i x : 0 <= i < zlen b -> filled P b n -> P x -> filled P (zupd b i (Some x)) n.
Proof. intros Hi H Hx j Hj. rewrite zlook_zupd. case_decide as Hd; [by exists x|]. by apply H. Qed.

Lemma filled_next P b n x : 0 <= n < zlen b -> filled P b n -> P x -> filled P (zupd b n (Some x)) (n + 1).
Proof. intros Hn H Hx j Hj. rewrite zlook_zupd. case_decide as Hd; [by exists x|]. apply H. destruct (decide (n = j)); [|lia]. exfalso. apply Hd. lia. Qed.

Section Lengths.
Context (buf : list Z) (Hbuf : is_bytes buf) (Hlen : zlen buf <= PTRDIFF_MAX).
Notation N := (num buf).
Notation total := (8 * zlen buf).
Notation reads := (reads buf).

Definition is_len (x : Z) : Prop := 0 <= x <= 15.

Lemma cl_order_range i : 0 <= i < 19 -> exists o, zlook cl_order i = Some o /\ 0 <= o < 19.
Proof.
  intros Hi. assert (exists n : nat, i = Z.of_nat n /\ (n < 19)%nat) as (n & -> & Hn) by (exists (Z.to_nat i); lia).
  do 19 (destruct n as [|n]; [eexists; split; [reflexivity|lia]|]). lia.
Qed.

(** Three bits are at most 7, so the check on them never fails. *)
Lemma wp_read_cl_lens br c n (Q : scl_error_t * block Z * bit_reader -> Prop) : reads br c -> 0 <= n <= 19 -> c + 57 <= total + 2 ^ 31 ->
  (forall b br', filled is_len b 19 -> reads br' (c + 3 * n) -> Q (SCL_OK, b, br')) -> wp (read_cl_lens br n) Q.
Proof.
  intros R Hn Hc HQ. unfold read_cl_lens. wstep. apply (wp_zfor_ret (fun i '(b, br) => zlen b = 19 /\ filled is_len b 19 /\ reads br (c + 3 * i))).
  - split; [done|]. split; [|by replace (c + 3 * 0) with c by lia]. intros i Hi. exists 0. rewrite zlook_replicate. split; [|split; lia].
    destruct (Z.leb_spec 0 i), (Z.ltb_spec i (Z.of_nat 19)); try lia. done.
  - intros i [b br'] Hi (Ez & Hf & R'). wstep. eapply wp_read; [exact Hbuf|exact Hlen|exact R'|lia|lia|]. intros br2 R2. cbv beta iota.
    destruct (cl_order_range i ltac:(lia)) as (o & Eo & Ho). wstep. apply wp_get; [by apply zlook_Some in Eo|]. intros ? E1. rewrite Eo in E1. injection E1 as <-.
    pose proof (Z.mod_pos_bound (N / 2 ^ (c + 3 * i)) (2 ^ 3) ltac:(lia)). set (v := (N / 2 ^ (c + 3 * i)) mod 2 ^ 3) in *.
    replace (u8 v) with v by (unfold u8; by rewrite Z.mod_small by lia).
    wstep. apply wp_set; [lia|]. wstep. eapply wp_get_cell; [apply zlook_zupd_eq; lia|]. wstep. destruct (Z.gtb_spec v 7); [lia|].
    split; [by rewrite zlen_zupd|]. split; [|by replace (c + 3 * (i + 1)) with (c + 3 * i + 3) by lia].
    apply filled_upd; [lia|done|]. split; lia.
  - intros [b br'] (Ez & Hf & R'). rewrite Z.max_r in R' by lia. wstep. by apply HQ.
Qed.

Lemma wp_fill_lens b idx tot val rpt (Q : block Z -> Prop) : zlen b = 320 -> 0 <= idx < tot -> tot <= 320 -> 0 <= rpt -> is_len val -> filled is_len b idx ->
  (forall b', zlen b' = 320 -> filled is_len b' (idx + Z.min rpt (tot - idx)) -> Q b') -> wp (fill_lens b idx tot val rpt) Q.
Proof.
  intros Ez Hi Ht Hr Hv Hf HQ. unfold fill_lens. apply (wp_zfor (fun k b => zlen b = 320 /\ filled is_len b (idx + k))).
  - by rewrite Z.add_0_r.
  - intros k b' Hk [Ez' Hf']. apply wp_set; [lia|]. split; [by rewrite zlen_zupd|]. rewrite Z.add_assoc. apply filled_next; [lia|done|done].
  - intros b' [Ez' Hf']. rewrite Z.max_r in Hf' by lia. by apply HQ.
Qed.

Lemma wp_read_dyn_lens br c tree tot cl (Q : scl_error_t * block Z * bit_reader -> Prop) : reads br c -> tree_ok cl tree -> zlen cl = 19 -> 0 <= tot <= 316 -> c + 7000 <= total + 2 ^ 31 ->
  (forall e b br', (e = SCL_OK -> filled is_len b tot /\ exists c', reads br' c' /\ c <= c' <= c + 6952) -> Q (e, b, br')) -> wp (read_dyn_lens br tree tot) Q.
Proof.
  intros R T Hcl Ht Hc HQ. unfold read_dyn_lens.
  apply (wp_loop_rel (fun f '(b, idx, br) => f = tot - idx /\ 0 <= idx <= tot /\ zlen b = 320 /\ filled is_len b idx /\ exists c', reads br c' /\ c <= c' <= c + 22 * idx) tot);
    [|lia|lia|].
  { split; [lia|]. split; [lia|]. split; [done|]. split; [intros i Hi; lia|]. exists c. split; [done|lia]. }
  clear br R. intros f [[b idx] br] (-> & Hi & Ez & Hf & c' & R & Hc'). destruct (Z.ltb_spec idx tot) as [Hlt|Hge].
  2: { wstep. apply HQ. intros _. split; [by replace tot with idx by lia|]. exists c'. split; [done|lia]. }
  wstep. eapply (wp_decode buf Hbuf Hlen cl tree T); [exact R|lia| |].
  2: { intros br' c2 R' Hc2 _. cbv beta iota. change (-1 <? 0) with true. cbn [orb]. wstep. by apply HQ. }
  intros br2 sym l R2 Hsym Hl _. pose proof (zlook_Some _ _ _ Hsym) as Hsr. cbv beta iota. rewrite Z.gtb_ltb. destruct (Z.ltb_spec sym 0); [lia|]. destruct (Z.ltb_spec 18 sym); [lia|]. cbn [orb].
  assert (forall val v add n br3, is_len val -> 0 <= v -> 0 < add -> 0 <= n <= 7 -> reads br3 (c' + l + n) ->
    wp (d ← fill_lens b idx tot val (v + add); mret (inl (d, idx + Z.min (v + add) (tot - idx), br3))) (fun r => match r with
      | inl (b, i2, br) => exists m', 0 <= m' < tot - idx /\ m' = tot - i2 /\ 0 <= i2 <= tot /\ zlen b = 320 /\ filled is_len b i2 /\ exists c'', reads br c'' /\ c <= c'' <= c + 22 * i2
      | inr r => Q r end)) as Hrun.
  { intros val v add n br3 Hv Hv0 Hadd Hn R3. wstep. eapply wp_fill_lens; [exact Ez|lia|lia|lia|exact Hv|exact Hf|]. intros b' Ez' Hf'. wstep.
    eexists. split; [|split; [reflexivity|]]; [lia|]. split; [lia|]. split; [done|]. split; [done|]. eexists. split; [exact R3|lia]. }
  assert (forall r : (block Z * Z * bit_reader) + (scl_error_t * block Z * bit_reader), match r with
      | inl (b, i2, br) => exists m', 0 <= m' < tot - idx /\ m' = tot - i2 /\ 0 <= i2 <= tot /\ zlen b = 320 /\ filled is_len b i2 /\ exists c'', reads br c'' /\ c <= c'' <= c + 22 * i2
      | inr r => Q r end -> match r with inl s' => exists m', 0 <= m' < tot - idx /\ (let '(b, idx, br) := s' in m' = tot - idx /\ 0 <= idx <= tot /\ zlen b = 320 /\ filled is_len b idx /\ exists c', reads br c' /\ c <= c' <= c + 22 * idx)
      | inr r => Q r end) as Hweak by (intros [[[? ?] ?]|?]; done).
  destruct (Z.ltb_spec sym 16) as [H16|H16].
  { wstep. apply wp_set; [lia|]. wstep. exists (tot - (idx + 1)). split; [lia|]. split; [done|]. split; [lia|]. split; [by rewrite zlen_zupd|]. split; [apply filled_next; [lia|done|split; lia]|].
    eexists. split; [exact R2|lia]. }
  destruct (Z.eqb_spec sym 16) as [->|H16'].
  { destruct (Z.eqb_spec idx 0); [wstep; by apply HQ|]. destruct (Hf (idx - 1) ltac:(lia)) as (val & Eval & Hval). wstep. eapply wp_get_cell; [exact Eval|].
    wstep. eapply wp_read; [exact Hbuf|exact Hlen|exact R2|lia|lia|]. intros br3 R3. cbv beta iota. eapply wp_mono; [|exact Hweak].
    eapply (Hrun _ _ _ 2); [exact Hval|apply Z.mod_pos_bound; lia|lia|lia|exact R3]. }
  assert (is_len 0) as Hl0 by (split; lia). destruct (Z.eqb_spec sym 17) as [->|H17].
  - wstep. eapply wp_read; [exact Hbuf|exact Hlen|exact R2|lia|lia|]. intros br3 R3. cbv beta iota. eapply wp_mono; [|exact Hweak].
    eapply (Hrun _ _ _ 3); [exact Hl0|apply Z.mod_pos_bound; lia|lia|lia|exact R3].
  - wstep. eapply wp_read; [exact Hbuf|exact Hlen|exact R2|lia|lia|]. intros br3 R3. cbv beta iota. eapply wp_mono; [|exact Hweak].
    eapply (Hrun _ _ _ 7); [exact Hl0|apply Z.mod_pos_bound; lia|lia|lia|exact R3].
Qed.
End Lengths.

(** The code lengths of a block, as lists. *)
Definition lengths_of (l : lengths) (lits dists : list Z) : Prop :=
  let '(lb, db, hlit, hdist) := l in
  hlit = zlen lits /\ hdist = zlen dists /\ zlen lits <= 288 /\ zlen dists <= 32 /\ Forall (fun x => 0 <= x) lits /\ Forall (fun x => 0 <= x) dists /\
  (forall i x, zlook lits i = Some x -> zlook lb i = Some (Some x)) /\ (forall i x, zlook dists i = Some x -> zlook db i = Some (Some x)).

Definition fixed_lits : list Z := replicate 144 8 ++ replicate 112 9 ++ replicate 24 7 ++ replicate 8 8.
Definition fixed_dists : list Z := replicate 32 5.

Lemma fixed_lengths_ok : fixed_lengths = Ok (Some <$> fixed_lits, Some <$> fixed_dists, 288, 32).
Proof. vm_compute. reflexivity. Qed.

Lemma fixed_lengths_of : lengths_of (Some <$> fixed_lits, Some <$> fixed_dists, 288, 32) fixed_lits fixed_dists.
Proof.
  split; [done|]. split; [done|]. split; [done|]. split; [done|]. split; [apply (Forall_impl (fun x => 7 <= x)); [by repeat (apply Forall_app; split; [by apply Forall_replicate|]); apply Forall_replicate|intros; lia]|].
  split; [by apply Forall_replicate|]. split; intros i x Hx; by rewrite zlook_fmap, Hx.
Qed.

Section Safety.
Context (al : scl_allocator_t) `{!AllocatorOk al} (fuel : nat) (max_out live0 : Z) (Hmax : 0 <= max_out <= 2 ^ 26) (Hfuel : max_out < Z.of_nat fuel).
Context (buf : list Z) (Hbuf : is_bytes buf) (Hlen : zlen buf <= PTRDIFF_MAX) (Hfuel2 : 8 * zlen buf < Z.of_nat fuel).
Notation out_rep := (out_rep max_out live0).
Notation N := (num buf).
Notation total := (8 * zlen buf).
Notation reads := (reads buf).

Lemma max_out_small : 0 <= max_out <= PTRDIFF_MAX.
Proof. unfold PTRDIFF_MAX. lia. Qed.

Lemma wp_read_dynamic br c (Q : scl_error_t * lengths * bit_reader -> Prop) : reads br c -> c + 7100 <= total + 2 ^ 31 ->
  (forall e l br', (e = SCL_OK -> (exists lits dists, lengths_of l lits dists) /\ exists c', reads br' c' /\ c <= c' <= c + 7100) -> Q (e, l, br')) -> wp (read_dynamic br) Q.
Proof.
  intros R Hc HQ. unfold read_dynamic. wstep. eapply wp_read; [exact Hbuf|exact Hlen|exact R|lia|lia|]. intros br1 R1. cbv beta iota zeta.
  pose proof (Z.mod_pos_bound (N / 2 ^ c) (2 ^ 5) ltac:(lia)). set (v1 := (N / 2 ^ c) mod 2 ^ 5) in *.
  wstep. eapply wp_read; [exact Hbuf|exact Hlen|exact R1|lia|lia|]. intros br2 R2. cbv beta iota zeta.
  pose proof (Z.mod_pos_bound (N / 2 ^ (c + 5)) (2 ^ 5) ltac:(lia)). set (v2 := (N / 2 ^ (c + 5)) mod 2 ^ 5) in *.
  wstep. eapply wp_read; [exact Hbuf|exact Hlen|exact R2|lia|lia|]. intros br3 R3. cbv beta iota zeta.
  pose proof (Z.mod_pos_bound (N / 2 ^ (c + 5 + 5)) (2 ^ 4) ltac:(lia)). set (v3 := (N / 2 ^ (c + 5 + 5)) mod 2 ^ 4) in *. rewrite !Z.gtb_ltb.
  destruct (Z.ltb_spec 286 (v1 + 257)); [cbn [orb]; wstep; by apply HQ|]. destruct (Z.ltb_spec 30 (v2 + 1)); [cbn [orb]; wstep; by apply HQ|].
  destruct (Z.ltb_spec 19 (v3 + 4)); cbn [orb]; [wstep; by apply HQ|]. wstep. eapply wp_read_cl_lens; [exact Hbuf|exact Hlen|exact R3|lia|lia|]. intros b br4 Hb R4. cbv beta iota. rewrite bool_decide_true by done. cbn [negb].
  destruct (filled_list is_len b 19 ltac:(lia) Hb) as (cl & Ecl & Hcl & Hcells). wstep. rewrite <- Ecl.
  apply (wp_huff_build cl b (Forall_impl _ _ _ Hcl (fun x H => proj1 H)) Hcells); [lia|done| |].
  2: { intros t' _ _. cbv beta iota. rewrite bool_decide_false by done. cbn [negb]. wstep. by apply HQ. }
  intros tree _ T. cbv beta iota. rewrite bool_decide_true by done. cbn [negb]. wstep.
  eapply wp_read_dyn_lens; [exact Hbuf|exact Hlen|exact R4|exact T|exact Ecl|lia|lia|]. intros e dl br5 Hdl. cbv beta iota. case_bool_decide as He; cbn [negb]; [|wstep; by apply HQ].
  destruct (Hdl He) as (Hfill & c5 & R5 & Hc5). wstep.
  apply (wp_zfor (fun i l => zlen l = 288 /\ filled is_len l i)); [split; [done|intros i Hi; lia]| |].
  { intros i l Hi [Ez Hf]. destruct (Hfill i ltac:(lia)) as (x & Ex & Hx). wstep. eapply wp_get_cell; [exact Ex|]. apply wp_set; [lia|]. split; [by rewrite zlen_zupd|apply filled_next; [lia|done|done]]. }
  intros lb [Ezl Hfl]. rewrite Z.max_r in Hfl by lia. wstep.
  apply (wp_zfor (fun i l => zlen l = 32 /\ filled is_len l (i - (v1 + 257)))); [split; [done|intros i Hi; lia]| |].
  { intros i l Hi [Ez Hf]. destruct (Hfill i ltac:(lia)) as (x & Ex & Hx). wstep. eapply wp_get_cell; [exact Ex|]. apply wp_set; [lia|]. split; [by rewrite zlen_zupd|].
    replace (i + 1 - (v1 + 257)) with (i - (v1 + 257) + 1) by lia. apply filled_next; [lia|done|done]. }
  intros db [Ezd Hfd]. replace (Z.max (v1 + 257) (v1 + 257 + (v2 + 1)) - (v1 + 257)) with (v2 + 1) in Hfd by lia. wstep. apply HQ. intros _. split.
  - destruct (filled_list is_len lb (v1 + 257) ltac:(lia) Hfl) as (lits & El & Hl & Hlc). destruct (filled_list is_len db (v2 + 1) ltac:(lia) Hfd) as (dists & Ed & Hd & Hdc).
    exists lits, dists. split; [done|]. split; [done|]. split; [lia|]. split; [lia|]. split; [exact (Forall_impl _ _ _ Hl (fun x H => proj1 H))|]. split; [exact (Forall_impl _ _ _ Hd (fun x H => proj1 H))|done].
  - exists c5. split; [exact R5|lia].
Qed.

(** Both tables are built, or the block is refused. *)
Lemma wp_codes_start br out w l lits dists (Q : scl_error_t * bit_reader * output * world -> Prop) : lengths_of l lits dists ->
  (forall lt dt, tree_ok lits lt -> tree_ok dists dt -> wp (loop fuel (inflate_symbol al max_out lt dt) (br, out, w)) Q) ->
  (~ (lens_ok lits /\ lens_ok dists) -> Q (SCL_ERR_PARSE, br, out, w)) -> wp (inflate_codes al fuel max_out br out w l) Q.
Proof.
  destruct l as [[[lb db] hlit] hdist]. intros (-> & -> & Hl & Hd & Hl0 & Hd0 & Hlc & Hdc) HQ1 HQ2. unfold inflate_codes. wstep.
  apply (wp_huff_build lits lb Hl0 Hlc Hl); [done| |].
  2: { intros t' _ Hbad. cbv beta iota. rewrite bool_decide_false by done. wstep. wstep. rewrite bool_decide_false by done. cbn [negb]. wstep. apply HQ2. by intros []. }
  intros lt _ Tl. cbv beta iota. rewrite bool_decide_true by done. wstep. apply (wp_huff_build dists db Hd0 Hdc); [lia|done| |].
  - intros dt _ Td. cbv beta iota. rewrite bool_decide_true by done. cbn [negb]. by apply HQ1.
  - intros t' _ Hbad. cbv beta iota. rewrite bool_decide_false by done. cbn [negb]. wstep. apply HQ2. by intros [].
Qed.

(** The output, of bytes. *)
Definition byte_rep (out : output) (w : world) (data : list Z) : Prop := out_rep out w data /\ is_bytes data.

Lemma expand_bytes data t : is_bytes data -> token_ok data t -> is_bytes (expand data t).
Proof.
  intros B Ht. destruct t as [b|n d]; cbn [expand]; [apply Forall_app; split; [done|]; by apply Forall_singleton|]. generalize (Z.to_nat n) as k. intros k. induction k as [|k IH]; [done|]. cbn [rep].
  apply Forall_app. split; [done|]. apply Forall_singleton. destruct (zlook (rep k d data) (zlen (rep k d data) - d)) as [x|] eqn:E; cbn [default from_option id]; [|lia].
  unfold zlook in E. destruct (0 <=? _); [|done]. apply list_elem_of_lookup_2 in E. unfold is_bytes in IH. rewrite Forall_forall in IH. by apply IH.
Qed.

(** What a part of the stream may use up: it stays in debt by no more than the
    output explains. *)
Definition within (c : Z) (data : list Z) : Prop := c <= total + 8000 + 16 * zlen data.

Lemma wp_codes_safe br c out w data l lits dists (Q : scl_error_t * bit_reader * output * world -> Prop) : reads br c -> byte_rep out w data -> within c data -> lengths_of l lits dists ->
  (forall e br' out' w' c' data', reads br' c' -> byte_rep out' w' data' -> c <= c' -> within (c' - 48) data' -> Q (e, br', out', w')) -> wp (inflate_codes al fuel max_out br out w l) Q.
Proof.
  intros R O Hw Hl HQ. eapply wp_codes_start; [exact Hl| |intros _; eapply HQ; [exact R|exact O|lia|unfold within in *; lia]]. intros lt dt Tl Td. pose proof (zlen_nonneg data).
  apply (wp_loop_rel (fun f '(br, out, w) => exists c' data, reads br c' /\ byte_rep out w data /\ c <= c' /\ within c' data /\ f = max_out - zlen data) (max_out - zlen data));
    [exists c, data; done|lia|lia|].
  clear br out w R O Hw. intros f [[br out] w] (c1 & data1 & R & [O B] & Hc & Hw & ->). pose proof (or_fits _ _ _ _ _ O). pose proof (zlen_nonneg data1). unfold within in *.
  eapply (wp_symbol_safe al max_out live0 max_out_small buf Hbuf Hlen lits dists lt dt Tl Td); [exact R|exact O|lia| |].
  - intros br' out' w' c' t R' Hok O' Hc'. pose proof (or_fits _ _ _ _ _ O'). assert (zlen data1 < zlen (expand data1 t)).
    { destruct t as [b|n d]; cbn [expand]; [rewrite zlen_app; change (zlen [b]) with 1; lia|rewrite zlen_rep; cbn in Hok; lia]. }
    eexists. split; [|exists c', (expand data1 t); split; [exact R'|split; [split; [exact O'|by apply expand_bytes]|split; [lia|split; [lia|reflexivity]]]]]. lia.
  - intros e br' out' w' c' R' Hc' O'. eapply HQ; [exact R'|split; [exact O'|exact B]|lia|lia].
Qed.

Lemma wp_stored_safe br c out w data (Q : scl_error_t * bit_reader * output * world -> Prop) : reads br c -> byte_rep out w data -> c + 7 <= total + 2 ^ 31 ->
  (forall br' out' w' c' data', reads br' c' -> byte_rep out' w' data' -> c <= c' <= total -> Q (SCL_OK, br', out', w')) ->
  (forall e br' out' w' data', e <> SCL_OK -> byte_rep out' w' data' -> Q (e, br', out', w')) -> wp (inflate_stored al max_out br out w) Q.
Proof.
  intros R OB Hc HQ1 HQ2. pose proof OB as [O B]. unfold inflate_stored. wstep. eapply wp_align; [exact Hlen|exact R|exact Hc|]. cbn [br_buf br_cap br_pos br_bits br_nbits]. pose proof (rd_start _ _ _ R).
  pose proof (zlen_nonneg buf). set (p := (c + 7) / 8). assert (c <= 8 * p /\ 0 <= p <= zlen buf + 2 ^ 28) as [Hp Hp'] by (unfold p; zdiv).
  unfold PTRDIFF_MAX in *. rewrite u64_small by lia. rewrite !Z.gtb_ltb. destruct (Z.ltb_spec (zlen buf) (p + 4)); [wstep; by eapply HQ2|].
  wstep. apply wp_get; [lia|]. intros b0 E0. wstep. apply wp_get; [lia|]. intros b1 E1. wstep. apply wp_get; [lia|]. intros b2 E2. wstep. apply wp_get; [lia|]. intros b3 E3. cbv zeta.
  pose proof (num_byte buf p b0 Hbuf E0) as N0. pose proof (num_byte buf (p + 1) b1 Hbuf E1) as N1.
  pose proof (Z.mod_pos_bound (N / 2 ^ (8 * p)) (2 ^ 8) ltac:(lia)) as B0. rewrite N0 in B0. pose proof (Z.mod_pos_bound (N / 2 ^ (8 * (p + 1))) (2 ^ 8) ltac:(lia)) as B1. rewrite N1 in B1.
  rewrite (lor_shift b0 b1 8) by lia. destruct (Z.eqb_spec (Z.lxor (b0 + b1 * 2 ^ 8) (Z.lor b2 (Z.shiftl b3 8))) 0xFFFF); cbn [negb]; [|wstep; by eapply HQ2].
  set (n := b0 + b1 * 2 ^ 8) in *. assert (0 <= n < 2 ^ 16) by (unfold n; lia). cbn [br_pos br_cap br_buf br_bits br_nbits]. rewrite u64_small, ?Z.gtb_ltb by lia. destruct (Z.ltb_spec (zlen buf) (p + 4 + n)); [wstep; by eapply HQ2|].
  pose proof (zlen_nonneg data). pose proof (or_fits _ _ _ _ _ O). rewrite (or_len _ _ _ _ _ O), u64_small by lia. wstep.
  eapply wp_ensure_cap; [exact AllocatorOk0|exact max_out_small|exact O|lia| |].
  - intros out' w' O' Hroom _. cbv beta iota. rewrite bool_decide_true by done. cbn [negb]. wstep. rewrite (or_len _ _ _ _ _ O').
    eapply wp_copy_stored; [exact max_out_small|exact O'|lia|lia|lia|lia|]. intros pt O2. wstep. rewrite u64_small in O2 by lia. rewrite !u64_small by lia. eapply (HQ1 _ _ _ (8 * (p + 4 + n))); [|split; [exact O2|apply Forall_app; split; [exact B|unfold slice; by apply Forall_take, Forall_drop]]|lia].
    pose proof (reads_aligned buf (8 * (p + 4 + n)) ltac:(lia)) as Ra. replace ((8 * (p + 4 + n) + 7) / 8) with (p + 4 + n) in Ra by (apply Z.div_unique with 7; lia). exact Ra.
  - intros er out' w' He O'. cbv beta iota. assert (er <> SCL_OK) as Hne by (destruct He as [[-> _]| ->]; done). rewrite bool_decide_false by done. cbn [negb]. wstep. by eapply HQ2.
Qed.

Lemma wp_block_safe br c out w data (Q : bool * scl_error_t * bit_reader * output * world -> Prop) : reads br c -> c < total -> byte_rep out w data ->
  (forall final br' out' w' c' data', reads br' c' -> c < c' -> c' + 7 <= total + 2 ^ 31 -> byte_rep out' w' data' -> Q (final, SCL_OK, br', out', w')) ->
  (forall final e br' out' w' data', e <> SCL_OK -> byte_rep out' w' data' -> Q (final, e, br', out', w')) -> wp (inflate_block al fuel max_out br out w) Q.
Proof.
  intros R Hc O HQ1 HQ2. pose proof (rd_start _ _ _ R). pose proof (zlen_nonneg data). unfold inflate_block. wstep. eapply wp_read; [exact Hbuf|exact Hlen|exact R|lia|lia|]. intros br1 R1. cbv beta iota zeta.
  wstep. eapply wp_read; [exact Hbuf|exact Hlen|exact R1|lia|lia|]. intros br2 R2. cbv beta iota. set (final := negb _). set (bt := (N / 2 ^ (c + 1)) mod 2 ^ 2).
  destruct (bt =? 0).
  - wstep. eapply wp_stored_safe; [exact R2|exact O|lia| |].
    + intros br' out' w' c' data' R' O' Hc'. cbv beta iota. wstep. eapply HQ1; [exact R'|lia|lia|exact O'].
    + intros e br' out' w' data' He O'. cbv beta iota. wstep. by eapply HQ2.
  - assert (forall l br3 c3, (exists lits dists, lengths_of l lits dists) -> reads br3 c3 -> c + 3 <= c3 <= c + 7200 -> wp ('(err, br, out, w) ← inflate_codes al fuel max_out br3 out w l; mret (final, err, br, out, w)) Q) as Hcodes.
    { intros l br3 c3 (lits & dists & Hl) R3 Hc3. wstep. eapply wp_codes_safe; [exact R3|exact O|unfold within; lia|exact Hl|]. intros e br' out' w' c' data' R' O' Hc' Hw'.
      cbv beta iota. wstep. pose proof (or_fits _ _ _ _ _ (proj1 O')). unfold within in Hw'. destruct (decide (e = SCL_OK)) as [->|He]; [eapply HQ1; [exact R'|lia|lia|exact O']|by eapply HQ2]. }
    destruct (Z.eqb_spec bt 1) as [->|Hbt]; cbn [orb].
    + wstep. rewrite fixed_lengths_ok. wstep. cbv beta iota. rewrite ?bool_decide_true by done. cbn [negb]. eapply Hcodes; [exists fixed_lits, fixed_dists; apply fixed_lengths_of|exact R2|lia].
    + destruct (bt =? 2); [|wstep; by eapply HQ2]. wstep. eapply wp_read_dynamic; [exact R2|lia|]. intros e l br3 Hd. cbv beta iota. case_bool_decide as He; cbn [negb]; [|wstep; by eapply HQ2].
      destruct (Hd He) as (Hl & c3 & R3 & Hc3). eapply Hcodes; [exact Hl|exact R3|lia].
Qed.

Lemma wp_inflate_safe br c out w data (Q : scl_error_t * bit_reader * output * world -> Prop) : reads br c -> byte_rep out w data ->
  (forall e br' out' w' data', (e = SCL_OK -> exists c', reads br' c' /\ c' + 7 <= total + 2 ^ 31) -> byte_rep out' w' data' -> Q (e, br', out', w')) ->
  wp (deflate_decompress al fuel max_out br out w) Q.
Proof.
  intros R O HQ. pose proof (rd_start _ _ _ R). pose proof (zlen_nonneg buf). unfold deflate_decompress.
  apply (wp_loop_rel (fun f '(br, out, w) => exists c data, reads br c /\ byte_rep out w data /\ f = Z.max 0 (total - c)) (Z.max 0 (total - c))); [by exists c, data|lia|lia|].
  clear br c out w data R O H. intros f [[br out] w] (c & data & R & O & ->). wstep. eapply wp_br_fill; [exact Hbuf|exact Hlen|exact R|]. intros br1 R1 _. cbv beta iota.
  destruct (Z.ltb_spec c total) as [Hc|Hc]; cbn [negb]; [|wstep; by eapply HQ]. wstep. eapply wp_block_safe; [exact R1|exact Hc|exact O| |].
  - intros final br' out' w' c' data' R' Hc' Hd O'. cbv beta iota. rewrite bool_decide_true by done. cbn [negb]. destruct final.
    + wstep. eapply HQ; [intros _; by exists c'|exact O'].
    + wstep. eexists. split; [|exists c', data'; split; [exact R'|split; [exact O'|reflexivity]]]. lia.
  - intros final e br' out' w' data' He O'. cbv beta iota. rewrite bool_decide_false by done. cbn [negb]. wstep. by eapply HQ.
Qed.
End Safety.

Definition no_output : output := Output Null 0 0.

Lemma out_rep_start max_out w : 0 <= max_out -> out_rep max_out (w_live w) no_output w [].
Proof. intros H. split; [done|rewrite zlen_nil; cbn; lia|done]. Qed.

(** C2. Decompressing untrusted data is memory safe and ends: whatever the bytes,
    stored, fixed and dynamic blocks or none, and whatever the allocator answers,
    [deflate_decompress] with a limit of at most 64 MiB on its output reads only
    the input, the tables and what it has written, shifts by legal amounts,
    overflows no [int], and returns within a number of rounds bounded by the limit
    and the length of the input; the buffer it leaves, whether it succeeded or not,
    starts with the bytes decompressed so far, is no longer than the limit, and is
    the only block it holds. *)
Theorem inflate_safe (al : scl_allocator_t) `{!AllocatorOk al} (w : world) (fuel : nat) (max_out : Z) (buf : list Z)
  (Hbuf : is_bytes buf) (Hlen : zlen buf <= PTRDIFF_MAX) (Hmax : 0 <= max_out <= 2 ^ 26) (Hfuel : max_out + 8 * zlen buf < Z.of_nat fuel) :
  exists e br out w' data, deflate_decompress al fuel max_out (bit_reader_init buf (zlen buf)) no_output w = Ok (e, br, out, w') /\
    ou_len out = zlen data /\ zlen data <= max_out /\ is_bytes data /\
    (ou_buf out = Null /\ data = [] \/ exists b, ou_buf out = Ptr b /\ zlen b <= max_out /\ slice b 0 (zlen data) = Some <$> data) /\
    exists w2, free_ptr w' (ou_buf out) = Ok w2 /\ w_live w2 = w_live w.
Proof.
  pose proof (zlen_nonneg buf).
  destruct (proj1 (wp_ok (deflate_decompress al fuel max_out (bit_reader_init buf (zlen buf)) no_output w) (fun '(e, br, out, w') => exists data, byte_rep max_out (w_live w) out w' data)))
    as ([[[e br] out] w'] & E & data & [O B]).
  { eapply wp_inflate_safe; [exact AllocatorOk0|exact Hmax|lia|exact Hbuf|exact Hlen|lia|by apply reads_init|split; [apply out_rep_start; lia|constructor]|]. intros e br' out' w' data' _ O'. by exists data'. }
  exists e, br, out, w', data. pose proof O as [El Hf Hb]. split; [done|]. split; [done|]. split; [lia|]. split; [exact B|]. destruct (ou_buf out) as [|b|]; [| |done].
  - destruct Hb as [Hcap Hw]. split; [left; split; [done|]; destruct data as [|x data]; [done|rewrite zlen_cons in Hf; pose proof (zlen_nonneg data); lia]|]. exists w'. done.
  - destruct Hb as (Hz & Hw & Hc). pose proof (zlen_nonneg data). split; [|eexists; split; [reflexivity|]; cbn [scl_free w_live]; lia]. right. exists b. split; [done|]. split; [lia|].
    apply zlook_ext. intros i. rewrite zlook_slice, zlook_fmap by lia. destruct (Z.leb_spec 0 i) as [Hi0|Hi0]; cbn [andb]; [|by rewrite zlook_neg by lia].
    destruct (Z.ltb_spec i (zlen data - 0)) as [Hi1|Hi1]; [|by rewrite zlook_ge by lia]. rewrite Z.add_0_l. destruct (zlook_lt data i) as [x Hx]; [lia|]. rewrite Hx. by apply Hc.
Qed.

Lemma inflate_safe_witness :
  exists e br out w' (data : list Z), deflate_decompress small_allocator 200 100 (bit_reader_init [75; 76; 4; 2; 0] 5) no_output (World 0 0) = Ok (e, br, out, w') /\ zlen data <= 100.
Proof.
  destruct (inflate_safe small_allocator (World 0 0) 200 100 [75; 76; 4; 2; 0]) as (e & br & out & w' & data & E & _ & Hd & _).
  - repeat constructor; lia.
  - done.
  - lia.
  - done.
  - exists e, br, out, w', data. split; [exact E|exact Hd].
Defined.
