(* ===== verification/DeflateFormat.v ===== *)
(** What DEFLATE streams say: the tokens that the fields of a block spell under
    given code lengths, and blocks and streams as sequences of fields.
    [deflate_decompress] ([Inflate]) delivers what a stream says. *)

From S2P Require Import Prelude Core Bytes Refine BitIO Huffman Inflate.
#[local] Open Scope Z_scope.

(** One round of a loop. *)
Lemma wp_loop_next {St R} n (f : St -> res (St + R)) s (Q : R -> Prop) :
  wp (f s) (fun r => match r with inl s' => wp (loop n f s') Q | inr r => Q r end) -> wp (loop (S n) f s) Q.
Proof. intros H. cbn [loop]. apply wp_bind. eapply wp_mono; [exact H|]. by intros [s'|r]. Qed.

(** ** What blocks say

    The fields of a stream that spell tokens under given code lengths. *)

(** The [n] lowest bits of [x] in the reverse order. *)
Fixpoint rev_bits (n : nat) (x : Z) : Z := match n with O => 0 | S n => 2 * rev_bits n x + (x / 2 ^ Z.of_nat n) mod 2 end.

Lemma rev_range n x : 0 <= rev_bits n x < 2 ^ Z.of_nat n.
Proof. induction n as [|n IH]; [done|]. cbn [rev_bits]. rewrite pow2_S. pose proof (Z.mod_pos_bound (x / 2 ^ Z.of_nat n) 2). lia. Qed.

Lemma rev_testbit n x j : 0 <= j < Z.of_nat n -> Z.testbit (rev_bits n x) j = Z.testbit x (Z.of_nat n - 1 - j).
Proof.
  revert j. induction n as [|n IH]; intros j Hj; [lia|]. cbn [rev_bits]. destruct (decide (j = 0)) as [->|Hne].
  - rewrite Z.bit0_odd, Z.add_comm, Z.odd_add_mul_2, Zmod_odd, Z.testbit_odd, Z.shiftr_div_pow2 by lia. replace (Z.of_nat (S n) - 1 - 0) with (Z.of_nat n) by lia. by destruct (Z.odd (x / 2 ^ Z.of_nat n)).
  - replace j with (Z.succ (j - 1)) by lia. replace ((x / 2 ^ Z.of_nat n) mod 2) with (Z.b2z (Z.odd (x / 2 ^ Z.of_nat n))) by (by rewrite Zmod_odd; destruct (Z.odd _)).
    rewrite Z.testbit_succ_r, IH by lia. f_equal. lia.
Qed.

Lemma rev_rev n x : 0 <= x < 2 ^ Z.of_nat n -> rev_bits n (rev_bits n x) = x.
Proof.
  intros Hx. apply Z.bits_inj'. intros j Hj. destruct (Z.lt_ge_cases j (Z.of_nat n)).
  - rewrite !rev_testbit by lia. f_equal. lia.
  - rewrite <- (Z.mod_small (rev_bits n _) (2 ^ Z.of_nat n)) by apply rev_range. rewrite <- (Z.mod_small x (2 ^ Z.of_nat n)) by done. by rewrite !Z.mod_pow2_bits_high by lia.
Qed.

Lemma rev_mod n m x : (n <= m)%nat -> rev_bits n (x mod 2 ^ Z.of_nat m) = rev_bits n x.
Proof.
  intros Hn. induction n as [|n IH]; [done|]. cbn [rev_bits]. rewrite IH by lia. f_equal. rewrite mod_pow2_div by lia.
  pose proof (mod_pow2_le (x / 2 ^ Z.of_nat n) (Z.of_nat m - Z.of_nat n) 1 ltac:(lia)) as E. by rewrite Z.pow_1_r in E.
Qed.

Lemma msb_rev N c n : 0 <= c -> msb N c n = rev_bits n (N / 2 ^ c).
Proof. intros Hc. induction n as [|n IH]; [done|]. cbn [msb rev_bits]. rewrite IH, div_pow2_add by lia. done. Qed.

(** A code is written with its first bit lowest. *)
Definition code_field (ls : list Z) (l i : Z) : field := (rev_bits (Z.to_nat l) (canon ls l i), l).

(** No field for no bits. *)
Definition opt_field (x n : Z) : list field := if 0 <? n then [(x, n)] else [].

Inductive codes (lits dists : list Z) : token -> list field -> Prop :=
| codes_lit b l : 0 <= b < 256 -> zlook lits b = Some l -> 0 < l -> codes lits dists (Lit b) [code_field lits l b]
| codes_match s l lb le x ds m db de y :
    257 <= s <= 285 -> zlook lits s = Some l -> 0 < l -> zlook scl_len_base (s - 257) = Some lb -> zlook scl_len_extra (s - 257) = Some le -> 0 <= x < 2 ^ le ->
    0 <= ds < 30 -> zlook dists ds = Some m -> 0 < m -> zlook scl_dist_base ds = Some db -> zlook scl_dist_extra ds = Some de -> 0 <= y < 2 ^ de ->
    codes lits dists (Match (lb + x) (db + y)) (code_field lits l s :: opt_field x le ++ code_field dists m ds :: opt_field y de).

Inductive tokens_code (lits dists : list Z) : list token -> list field -> Prop :=
| tc_nil : tokens_code lits dists [] []
| tc_cons t ts fs fss : codes lits dists t fs -> tokens_code lits dists ts fss -> tokens_code lits dists (t :: ts) (fs ++ fss).

(** Tokens that can be expanded one after the other. *)
Fixpoint expand_all (data : list Z) (ts : list token) : list Z := match ts with [] => data | t :: ts => expand_all (expand data t) ts end.
Fixpoint tokens_ok (data : list Z) (ts : list token) : Prop := match ts with [] => True | t :: ts => token_ok data t /\ tokens_ok (expand data t) ts end.

Lemma code_field_ok ls l i : lens_ok ls -> zlook ls i = Some l -> 0 < l -> field_ok (code_field ls l i) /\ 0 <= canon ls l i < 2 ^ l /\ 1 <= l <= 15.
Proof.
  intros [H15 Hk] Hi Hl. assert (1 <= l <= 15) as Hl15.
  { rewrite Forall_forall in H15. specialize (H15 l). unfold zlook in Hi. destruct (Z.leb_spec 0 i); [|done]. apply list_elem_of_lookup_2 in Hi. specialize (H15 Hi). lia. }
  pose proof (rank_bl ls l i Hi Hl). specialize (Hk (Z.to_nat l) ltac:(lia)). rewrite Z2Nat.id in Hk by lia. pose proof (first_code_nonneg ls (Z.to_nat l)).
  split; [|split; [unfold canon; lia|done]]. unfold code_field, field_ok. cbn [fst snd]. pose proof (rev_range (Z.to_nat l) (canon ls l i)) as Hr. rewrite Z2Nat.id in Hr by lia. lia.
Qed.

Lemma opt_field_ok x n : 0 <= n -> 0 <= x < 2 ^ n -> Forall field_ok (opt_field x n) /\ width (opt_field x n) = n.
Proof. intros Hn Hx. unfold opt_field. destruct (Z.ltb_spec 0 n); [split; [by apply Forall_singleton|cbn [width snd]; lia]|split; [constructor|cbn [width]; lia]]. Qed.

Lemma at_opt_field N c x n : 0 <= n -> 0 <= x < 2 ^ n -> at_bits N c (opt_field x n) -> (N / 2 ^ c) mod 2 ^ n = x.
Proof.
  intros Hn Hx. unfold opt_field. destruct (Z.ltb_spec 0 n); [by rewrite at_bits_one|]. intros _. replace n with 0 in * by lia. change (2 ^ 0) with 1 in *. rewrite Z.mod_1_r. lia.
Qed.

Lemma codes_fields lits dists t fs : lens_ok lits -> lens_ok dists -> codes lits dists t fs -> Forall field_ok fs.
Proof.
  intros Ll Ld H. destruct H as [b l Hb Hi Hl|s l lb le x ds m db de y Hs Hi Hl Elb Ele Hx Hd Hdi Hm Edb Ede Hy].
  - apply Forall_singleton. by eapply code_field_ok.
  - destruct (len_tables (s - 257) ltac:(lia)) as (? & ? & E1 & E2 & _ & He). rewrite Ele in E2. injection E2 as <-. destruct (dist_tables ds Hd) as (? & ? & E3 & E4 & _ & He'). rewrite Ede in E4. injection E4 as <-.
    constructor; [by eapply code_field_ok|]. apply Forall_app. split; [by apply opt_field_ok; lia|]. constructor; [by eapply code_field_ok|]. by apply opt_field_ok; lia.
Qed.

Section Known.
Context (al : scl_allocator_t) `{!AllocatorOk al} (fuel : nat) (max_out live0 : Z) (Hmax : 0 <= max_out <= PTRDIFF_MAX).
Context (buf : list Z) (Hbuf : is_bytes buf) (Hlen : zlen buf <= PTRDIFF_MAX).
Context (lits dists : list Z) (lt dt : scl_huff_tree_t) (Tl : tree_ok lits lt) (Td : tree_ok dists dt).
Notation out_rep := (out_rep max_out live0).
Notation N := (num buf).
Notation total := (8 * zlen buf).
Notation reads := (reads buf).

Lemma wp_decode_known ls t br c i l (Q : Z * bit_reader -> Prop) : tree_ok ls t -> reads br c -> zlook ls i = Some l -> 0 < l -> c + l <= total -> at_bits N c [code_field ls l i] ->
  (forall br', reads br' (c + l) -> Q (i, br')) -> wp (scl_huff_decode br t) Q.
Proof.
  intros T R Hi Hl Hc Hat HQ. destruct (code_field_ok ls l i (to_lens _ _ T) Hi Hl) as (_ & Hcan & Hl15). pose proof (rd_start _ _ _ R).
  assert (msb N c (Z.to_nat l) = canon ls l i) as Hspell.
  { unfold code_field in Hat. rewrite at_bits_one in Hat. rewrite msb_rev by lia. rewrite <- (rev_mod (Z.to_nat l) (Z.to_nat l)) by lia. rewrite Z2Nat.id by lia. rewrite Hat. apply rev_rev. by rewrite Z2Nat.id by lia. }
  eapply (wp_decode buf Hbuf Hlen ls t T); [exact R|lia| |].
  - intros br' j m R' Hj Hm Em. destruct (canon_unique ls N c l i m j Hi Hj Hl ltac:(lia) Hspell Em) as [<- <-]. by apply HQ.
  - intros br' c' _ _ Hno. by destruct (Hno i l Hi Hl Hc).
Qed.

(** What stops a block that is well formed. *)
Definition refused (e : scl_error_t) (data : list Z) : Prop := (e = SCL_ERR_SIZE_OVERFLOW /\ max_out < zlen data) \/ e = SCL_ERR_OUT_OF_MEMORY.

Lemma wp_symbol_known br c out w data t fs (Q : _ -> Prop) : codes lits dists t fs -> token_ok data t -> at_bits N c fs -> c + width fs <= total -> reads br c -> out_rep out w data ->
  (forall br' out' w', reads br' (c + width fs) -> out_rep out' w' (expand data t) -> Q (inl (br', out', w'))) ->
  (forall e br' out' w', refused e (expand data t) -> out_rep out' w' data -> Q (inr (e, br', out', w'))) ->
  wp (inflate_symbol al max_out lt dt (br, out, w)) Q.
Proof.
  intros C Hok Hat Hc R O HQ1 HQ2. pose proof O as [El Hf _]. pose proof (zlen_nonneg data). assert (max_out < 2 ^ 63) by (unfold PTRDIFF_MAX in Hmax; lia). pose proof (rd_start _ _ _ R) as Hc0.
  pose proof (codes_fields lits dists t fs (to_lens _ _ Tl) (to_lens _ _ Td) C) as Hfs. unfold inflate_symbol.
  destruct C as [b l Hb Hi Hl|s l lb le x ds m db de y Hs Hi Hl Elb Ele Hx Hd Hdi Hm Edb Ede Hy].
  - cbn [width code_field snd] in *. rewrite Z.add_0_r in *. wstep. eapply wp_decode_known; [exact Tl|exact R|exact Hi|exact Hl|lia|exact Hat|]. intros br1 R1. cbv beta iota.
    destruct (Z.ltb_spec b 0); [lia|]. destruct (Z.ltb_spec b 256); [|lia]. rewrite El, u64_small by lia. wstep. eapply wp_ensure_cap; [exact AllocatorOk0|exact Hmax|exact O|lia| |].
    + intros out' w' O' Hroom _. cbv beta iota. rewrite bool_decide_true by done. cbn [negb]. wstep. rewrite (or_len _ _ _ _ _ O'). eapply wp_out_push; [exact Hmax|exact O'|lia|]. intros p O2. wstep. by apply HQ1.
    + intros e out' w' He O'. cbv beta iota. rewrite bool_decide_false by (destruct He as [[-> _]| ->]; done). cbn [negb]. wstep. apply HQ2; [|exact O']. unfold refused. cbn [expand]. rewrite zlen_app. exact He.
  - destruct (len_tables (s - 257) ltac:(lia)) as (? & ? & E1 & E2 & Hlb & Hle). rewrite Elb in E1. rewrite Ele in E2. injection E1 as <-. injection E2 as <-.
    destruct (dist_tables ds Hd) as (? & ? & E3 & E4 & Hdb & Hde). rewrite Edb in E3. rewrite Ede in E4. injection E3 as <-. injection E4 as <-.
    destruct (opt_field_ok x le ltac:(lia) Hx) as [Fx Wx]. destruct (opt_field_ok y de ltac:(lia) Hy) as [Fy Wy].
    destruct (code_field_ok dists m ds (to_lens _ _ Td) Hdi Hm) as (Fd & _ & Hm15). destruct (code_field_ok lits l s (to_lens _ _ Tl) Hi Hl) as (Fl & _ & Hl15).
    apply at_bits_cons in Hat as [Hat1 Hat]; [|lia|exact Fl|by apply Forall_inv_tail in Hfs]. apply at_bits_app in Hat as [Hat2 Hat]; [|lia|exact Fx|by constructor].
    apply at_bits_cons in Hat as [Hat3 Hat4]; [|lia|exact Fd|exact Fy]. rewrite Wx in *. cbn [width] in Hc, HQ1. rewrite width_app in Hc, HQ1. cbn [width code_field snd] in Hc, HQ1. rewrite Wx, Wy in Hc, HQ1.
    cbn [expand token_ok] in *. wstep. eapply wp_decode_known; [exact Tl|exact R|exact Hi|exact Hl|lia|by apply at_bits_one|]. intros br1 R1. cbv beta iota.
    destruct (Z.ltb_spec s 0); [lia|]. destruct (Z.ltb_spec s 256); [lia|]. destruct (Z.eqb_spec s 256); [lia|]. destruct (Z.leb_spec s 285); [|lia].
    cbv zeta. rewrite Z.geb_leb. change (zlen scl_len_base) with 31. destruct (Z.leb_spec 31 (s - 257)); [lia|].
    wstep. apply wp_get; [by apply zlook_Some in Elb|]. intros ? E1. rewrite Elb in E1. injection E1 as <-. wstep. apply wp_get; [by apply zlook_Some in Ele|]. intros ? E1. rewrite Ele in E1. injection E1 as <-.
    wstep. eapply wp_add_extra; [exact Hbuf|exact Hlen|exact R1|lia|lia|lia|]. intros br2 R2. cbv beta iota. rewrite (at_opt_field N (c + l) x le) by (lia || done).
    wstep. eapply wp_decode_known; [exact Td|exact R2|exact Hdi|exact Hm|lia|by apply at_bits_one|]. intros br3 R3. cbv beta iota. destruct (Z.ltb_spec ds 0); [lia|]. cbn [orb]. rewrite Z.geb_leb. change (zlen scl_dist_base) with 30.
    destruct (Z.leb_spec 30 ds); [lia|]. wstep. apply wp_get; [by apply zlook_Some in Edb|]. intros ? E1. rewrite Edb in E1. injection E1 as <-. wstep. apply wp_get; [by apply zlook_Some in Ede|]. intros ? E1. rewrite Ede in E1. injection E1 as <-.
    wstep. eapply wp_add_extra; [exact Hbuf|exact Hlen|exact R3|lia|lia|lia|]. intros br4 R4. cbv beta iota. rewrite (at_opt_field N _ y de) by (lia || done).
    rewrite !Z.gtb_ltb, El. unfold SCL_LZ77_MAX_MATCH. destruct (Z.ltb_spec (zlen data) (db + y)); [lia|]. destruct (Z.ltb_spec 258 (lb + x)); [lia|]. cbn [orb]. rewrite u64_small by lia.
    wstep. eapply wp_ensure_cap; [exact AllocatorOk0|exact Hmax|exact O|lia| |].
    + intros out' w' O' Hroom _. cbv beta iota. rewrite bool_decide_true by done. cbn [negb]. wstep. rewrite (or_len _ _ _ _ _ O').
      eapply wp_copy_match; [exact Hmax|exact O'|lia|lia|lia|]. intros p O2. wstep. apply HQ1; [|exact O2]. by replace (c + (l + (le + (m + de)))) with (c + l + le + m + de) by lia.
    + intros e out' w' He O'. cbv beta iota. rewrite bool_decide_false by (destruct He as [[-> _]| ->]; done). cbn [negb]. wstep. apply HQ2; [|exact O']. unfold refused. rewrite zlen_rep, Z2Nat.id by lia. exact He.
Qed.
End Known.

(** ** Whole blocks *)
Lemma opt_field_width x n : 0 <= n -> width (opt_field x n) = n.
Proof. intros Hn. unfold opt_field. destruct (Z.ltb_spec 0 n); cbn [width snd]; lia. Qed.

Lemma codes_width lits dists t fs : codes lits dists t fs -> 1 <= width fs.
Proof.
  intros [b l Hb Hi Hl|s l lb le x ds m db de y Hs Hi Hl Elb Ele Hx Hd Hdi Hm Edb Ede Hy]; [cbn; lia|].
  destruct (len_tables (s - 257) ltac:(lia)) as (? & ? & E1 & E2 & _ & He). rewrite Ele in E2. injection E2 as <-. destruct (dist_tables ds Hd) as (? & ? & E3 & E4 & _ & He'). rewrite Ede in E4. injection E4 as <-.
  cbn [width]. rewrite width_app. cbn [width code_field snd]. rewrite !opt_field_width by lia. lia.
Qed.

Lemma tokens_width lits dists ts fs : tokens_code lits dists ts fs -> zlen ts <= width fs.
Proof.
  induction 1 as [|t ts fs fss C _ IH]; [done|]. rewrite zlen_cons, width_app. pose proof (codes_width _ _ _ _ C). lia.
Qed.

Lemma tokens_fields lits dists ts fs : lens_ok lits -> lens_ok dists -> tokens_code lits dists ts fs -> Forall field_ok fs.
Proof. intros Ll Ld. induction 1 as [|t ts fs fss C _ IH]; [constructor|]. apply Forall_app. split; [exact (codes_fields _ _ _ _ Ll Ld C)|done]. Qed.

(** The end of a block. *)
Definition end_field (lits : list Z) : field := code_field lits (default 0 (zlook lits 256)) 256.

(** The bytes of [l] as fields. *)
Definition byte_fields (l : list Z) : list field := (fun b => (b, 8)) <$> l.

Lemma byte_fields_ok l : is_bytes l -> Forall field_ok (byte_fields l).
Proof. induction 1 as [|b l Hb _ IH]; [constructor|]. constructor; [split; cbn; lia|exact IH]. Qed.

Lemma byte_fields_width l : width (byte_fields l) = 8 * zlen l.
Proof. induction l as [|b l IH]; [done|]. cbn [byte_fields fmap list_fmap width snd]. rewrite zlen_cons. change ((fun b => (b, 8)) <$> l) with (byte_fields l). lia. Qed.

Lemma at_byte_fields buf p l : is_bytes buf -> is_bytes l -> 0 <= p -> p + zlen l <= zlen buf -> at_bits (num buf) (8 * p) (byte_fields l) -> slice buf p (p + zlen l) = l.
Proof.
  intros Hbuf Hl. revert p. induction Hl as [|b l Hb Hl IH]; intros p Hp Hfit Hat; [by rewrite slice_nil by (change (zlen (@nil Z)) with 0; lia)|].
  rewrite zlen_cons in *. pose proof (zlen_nonneg l). change (byte_fields (b :: l)) with ((b, 8) :: byte_fields l) in Hat.
  apply at_bits_cons in Hat as [Hat1 Hat2]; [|lia|split; cbn; lia|by apply byte_fields_ok].
  destruct (zlook_lt buf p) as [x Hx]; [lia|]. pose proof (num_byte buf p x Hbuf Hx) as Hn. rewrite Hn in Hat1. subst x.
  rewrite (slice_cons buf p _ b) by (lia || done). f_equal. replace (p + (zlen l + 1)) with (p + 1 + zlen l) by lia. apply IH; [lia|lia|]. by replace (8 * (p + 1)) with (8 * p + 8) by lia.
Qed.

(** A stored block after its header: [pad] bits up to a byte, LEN, NLEN, the bytes. *)
Definition stored_fields (pad : field) (chunk : list Z) : list field :=
  let n := zlen chunk in
  pad :: byte_fields [n mod 256; n / 256; 255 - n mod 256; 255 - n / 256] ++ byte_fields chunk.

Definition b2z (b : bool) : Z := if b then 1 else 0.

(** [block final c data data' fs]: from bit [c] on, the fields [fs] take the output
    from [data] to [data']. *)
Inductive block_says (final : bool) (c : Z) (data : list Z) : list Z -> list field -> Prop :=
| says_stored pad chunk : field_ok pad -> pad.2 = (- (c + 3)) mod 8 -> is_bytes chunk -> zlen chunk <= 65535 ->
    block_says final c data (data ++ chunk) ((b2z final, 1) :: (0, 2) :: stored_fields pad chunk)
| says_fixed ts fs : tokens_ok data ts -> tokens_code fixed_lits fixed_dists ts fs ->
    block_says final c data (expand_all data ts) ((b2z final, 1) :: (1, 2) :: fs ++ [end_field fixed_lits]).

Inductive stream_says (c : Z) (data : list Z) : list Z -> list field -> Prop :=
| says_last data' fs : block_says true c data data' fs -> stream_says c data data' fs
| says_more data' data'' fs fss : block_says false c data data' fs -> stream_says (c + width fs) data' data'' fss -> stream_says c data data'' (fs ++ fss).

Lemma expand_longer data t : zlen data <= zlen (expand data t).
Proof. destruct t as [b|n d]; cbn [expand]; [rewrite zlen_app; change (zlen [b]) with 1; lia|rewrite zlen_rep; lia]. Qed.

Lemma expand_all_longer ts data : zlen data <= zlen (expand_all data ts).
Proof. revert data. induction ts as [|t ts IH]; intros data; cbn [expand_all]; [lia|]. pose proof (expand_longer data t). specialize (IH (expand data t)). lia. Qed.

Lemma refused_longer max_out e data data' : refused max_out e data -> zlen data <= zlen data' -> refused max_out e data'.
Proof. intros [[-> H]| ->] Hle; [left; split; [done|lia]|by right]. Qed.

Section Blocks.
Context (al : scl_allocator_t) `{!AllocatorOk al} (fuel : nat) (max_out live0 : Z) (Hmax : 0 <= max_out <= PTRDIFF_MAX).
Context (buf : list Z) (Hbuf : is_bytes buf) (Hlen : zlen buf <= PTRDIFF_MAX) (Hfuel : 8 * zlen buf < Z.of_nat fuel).
Notation out_rep := (out_rep max_out live0).
Notation N := (num buf).
Notation total := (8 * zlen buf).
Notation reads := (reads buf).

Lemma wp_tokens_known lits dists lt dt (Tl : tree_ok lits lt) (Td : tree_ok dists dt) le ts fs : zlook lits 256 = Some le -> 0 < le -> tokens_code lits dists ts fs ->
  forall n br c out w data (Q : scl_error_t * bit_reader * output * world -> Prop), tokens_ok data ts -> at_bits N c (fs ++ [code_field lits le 256]) -> c + width fs + le <= total ->
  reads br c -> out_rep out w data -> zlen ts < Z.of_nat n ->
  (forall br' out' w', reads br' (c + width fs + le) -> out_rep out' w' (expand_all data ts) -> Q (SCL_OK, br', out', w')) ->
  (forall e br' out' w' data', refused max_out e (expand_all data ts) -> out_rep out' w' data' -> Q (e, br', out', w')) ->
  wp (loop n (inflate_symbol al max_out lt dt) (br, out, w)) Q.
Proof.
  intros Hle Hle0 C. induction C as [|t ts fs fss Ct C IH]; intros n br c out w data Q Hok Hat Hc R O Hn HQ1 HQ2.
  - destruct n as [|n]; [change (zlen (@nil token)) with 0 in Hn; lia|]. apply wp_loop_next. cbn [width] in *. rewrite Z.add_0_r in *. unfold inflate_symbol. wstep.
    eapply (wp_decode_known buf Hbuf Hlen lits lt); [exact Tl|exact R|exact Hle|exact Hle0|lia|exact Hat|]. intros br' R'. cbv beta iota. change (256 <? 0) with false. change (256 <? 256) with false. change (256 =? 256) with true. cbv iota.
    wstep. by apply HQ1.
  - destruct n as [|n]; [pose proof (zlen_nonneg (t :: ts)); lia|]. rewrite zlen_cons in Hn. cbn [tokens_ok expand_all] in *. destruct Hok as [Hok Hoks]. rewrite width_app in *. rewrite <- app_assoc in Hat.
    pose proof (rd_start _ _ _ R). pose proof (to_lens _ _ Tl) as Ll. pose proof (to_lens _ _ Td) as Ld. pose proof (codes_fields lits dists t fs Ll Ld Ct) as Ffs. pose proof (tokens_fields lits dists ts fss Ll Ld C) as Ffss.
    assert (Forall field_ok (fss ++ [code_field lits le 256])) as Frest by (apply Forall_app; split; [done|]; apply Forall_singleton; by eapply code_field_ok).
    apply at_bits_app in Hat as [Hat1 Hat2]; [|lia|exact Ffs|exact Frest]. pose proof (width_nonneg fss Ffss).
    apply wp_loop_next. eapply (wp_symbol_known al max_out live0 Hmax buf Hbuf Hlen lits dists lt dt Tl Td); [exact Ct|exact Hok|exact Hat1|lia|exact R|exact O| |].
    + intros br' out' w' R' O'. cbv beta iota. eapply IH; [exact Hoks|exact Hat2|lia|exact R'|exact O'|lia| |exact HQ2].
      intros br2 out2 w2 R2 O2. apply HQ1; [|exact O2]. by replace (c + (width fs + width fss) + le) with (c + width fs + width fss + le) by lia.
    + intros e br' out' w' He O'. cbv beta iota. eapply HQ2; [|exact O']. eapply refused_longer; [exact He|]. apply expand_all_longer.
Qed.

Lemma wp_codes_known br c out w data l lits dists le ts fs (Q : scl_error_t * bit_reader * output * world -> Prop) : lengths_of l lits dists -> lens_ok lits -> lens_ok dists ->
  zlook lits 256 = Some le -> 0 < le -> tokens_code lits dists ts fs -> tokens_ok data ts -> at_bits N c (fs ++ [code_field lits le 256]) -> c + width fs + le <= total -> reads br c -> out_rep out w data ->
  (forall br' out' w', reads br' (c + width fs + le) -> out_rep out' w' (expand_all data ts) -> Q (SCL_OK, br', out', w')) ->
  (forall e br' out' w' data', refused max_out e (expand_all data ts) -> out_rep out' w' data' -> Q (e, br', out', w')) ->
  wp (inflate_codes al fuel max_out br out w l) Q.
Proof.
  intros Hl Ll Ld Hle Hle0 C Hok Hat Hc R O HQ1 HQ2. eapply (wp_codes_start al fuel max_out); [exact Hl| |by intros []]. intros lt dt Tl Td. pose proof (rd_start _ _ _ R).
  eapply (wp_tokens_known lits dists lt dt Tl Td le ts fs Hle Hle0 C); [exact Hok|exact Hat|exact Hc|exact R|exact O| |exact HQ1|exact HQ2].
  pose proof (tokens_width _ _ _ _ C). lia.
Qed.
End Blocks.

(** ** Stored blocks and streams *)
Lemma lxor_complement n : 0 <= n < 2 ^ 16 -> Z.lxor n (65535 - n) = 65535.
Proof.
  intros Hn. assert (Z.ldiff n (Z.ones 16) = 0) as H0 by (apply Z.ldiff_ones_r_low; [lia|]; destruct (decide (n = 0)) as [->|]; [done|]; apply Z.log2_lt_pow2; lia).
  change 65535 with (Z.ones 16). rewrite (Z.sub_nocarry_ldiff (Z.ones 16) n H0). apply Z.bits_inj'. intros i Hi. rewrite Z.lxor_spec, Z.ldiff_spec.
  assert (Z.testbit n i && negb (Z.testbit (Z.ones 16) i) = false) as Hb by (rewrite <- Z.ldiff_spec, H0; apply Z.bits_0).
  destruct (Z.testbit n i), (Z.testbit (Z.ones 16) i); done.
Qed.

Lemma bytes_of_len n : 0 <= n <= 65535 -> is_bytes [n mod 256; n / 256; 255 - n mod 256; 255 - n / 256].
Proof. intros Hn. assert (0 <= n mod 256 < 256 /\ 0 <= n / 256 < 256) as [] by zdiv. repeat constructor; lia. Qed.

Lemma stored_width pad chunk : width (stored_fields pad chunk) = pad.2 + 32 + 8 * zlen chunk.
Proof. unfold stored_fields. cbn [width]. rewrite width_app, !byte_fields_width. change (zlen [_; _; _; _]) with 4. lia. Qed.

Lemma stored_fields_ok pad chunk : field_ok pad -> is_bytes chunk -> zlen chunk <= 65535 -> Forall field_ok (stored_fields pad chunk).
Proof.
  intros Hp Hc Hn. pose proof (zlen_nonneg chunk). constructor; [done|]. apply Forall_app. split; apply byte_fields_ok; [apply bytes_of_len; lia|done].
Qed.

Lemma fixed_ok : lens_ok fixed_lits /\ lens_ok fixed_dists.
Proof.
  split; (split; [repeat (apply Forall_app; split); by apply Forall_replicate; lia || (apply Forall_replicate; lia)|]); intros n Hn;
    do 16 (destruct n as [|n]; [first [lia | by vm_compute]|]); lia.
Qed.

Lemma b2z_bool b : negb (b2z b =? 0) = b.
Proof. by destruct b. Qed.

Lemma b2z_field b : field_ok (b2z b, 1).
Proof. destruct b; split; cbn; lia. Qed.

Lemma fixed_end : zlook fixed_lits 256 = Some 7.
Proof. vm_compute. reflexivity. Qed.

Lemma fixed_fields_ok ts fs : tokens_code fixed_lits fixed_dists ts fs -> Forall field_ok (fs ++ [end_field fixed_lits]).
Proof.
  intros C. destruct fixed_ok as [Ll Ld]. apply Forall_app. split; [exact (tokens_fields _ _ _ _ Ll Ld C)|]. apply Forall_singleton. by apply (code_field_ok fixed_lits 7 256 Ll fixed_end).
Qed.

Lemma fixed_end_field : end_field fixed_lits = code_field fixed_lits 7 256.
Proof. unfold end_field. by rewrite fixed_end. Qed.

Lemma block_width final c data data' fs : block_says final c data data' fs -> Forall field_ok fs /\ 3 <= width fs.
Proof.
  intros [pad chunk Hp Ep Hc Hn|ts gs Hok C]; cbn [width snd].
  - pose proof (stored_fields_ok pad chunk Hp Hc Hn) as F. split; [constructor; [apply b2z_field|constructor; [by split|exact F]]|]. pose proof (width_nonneg _ F). lia.
  - pose proof (fixed_fields_ok ts gs C) as F. split; [constructor; [apply b2z_field|constructor; [by split|exact F]]|]. pose proof (width_nonneg _ F). lia.
Qed.

Lemma stream_fields_ok c data data' fs : stream_says c data data' fs -> Forall field_ok fs /\ 3 <= width fs.
Proof.
  induction 1 as [c data data' fs B|c data data' data'' fs fss B _ [F IH]]; [by eapply block_width|]. destruct (block_width _ _ _ _ _ B) as [F' H3].
  split; [by apply Forall_app|]. rewrite width_app. lia.
Qed.

Lemma block_longer final c data data' fs : block_says final c data data' fs -> zlen data <= zlen data'.
Proof. intros [pad chunk _ _ _ _|ts gs _ _]. { rewrite zlen_app. pose proof (zlen_nonneg chunk). lia. } apply expand_all_longer. Qed.

Lemma stream_longer c data data' fs : stream_says c data data' fs -> zlen data <= zlen data'.
Proof. induction 1 as [c data data' fs B|c data data' data'' fs fss B _ IH]; [by eapply block_longer|]. pose proof (block_longer _ _ _ _ _ B). lia. Qed.

Section Streams.
Context (al : scl_allocator_t) `{!AllocatorOk al} (fuel : nat) (max_out live0 : Z) (Hmax : 0 <= max_out <= PTRDIFF_MAX).
Context (buf : list Z) (Hbuf : is_bytes buf) (Hlen : zlen buf <= PTRDIFF_MAX) (Hfuel : 8 * zlen buf < Z.of_nat fuel).
Notation out_rep := (out_rep max_out live0).
Notation N := (num buf).
Notation total := (8 * zlen buf).
Notation reads := (reads buf).

Lemma wp_stored_known br c out w data pad chunk (Q : scl_error_t * bit_reader * output * world -> Prop) : reads br c -> out_rep out w data ->
  field_ok pad -> pad.2 = (- c) mod 8 -> is_bytes chunk -> zlen chunk <= 65535 -> at_bits N c (stored_fields pad chunk) -> c + width (stored_fields pad chunk) <= total ->
  (forall br' out' w', reads br' (c + width (stored_fields pad chunk)) -> out_rep out' w' (data ++ chunk) -> Q (SCL_OK, br', out', w')) ->
  (forall e br' out' w' data', refused max_out e (data ++ chunk) -> out_rep out' w' data' -> Q (e, br', out', w')) -> wp (inflate_stored al max_out br out w) Q.
Proof.
  intros R O Hpad Epad Hchunk Hn Hat Hc HQ1 HQ2. rewrite stored_width in *. pose proof (rd_start _ _ _ R). pose proof (zlen_nonneg buf). pose proof (zlen_nonneg chunk).
  set (p := (c + 7) / 8). assert (c + pad.2 = 8 * p) as Ep by (rewrite Epad; unfold p; zdiv). assert (0 <= pad.2 < 8) by (rewrite Epad; zdiv).
  set (n := zlen chunk) in *. pose proof (bytes_of_len n ltac:(lia)) as Hb4. unfold stored_fields in Hat. fold n in Hat. destruct pad as [v k]. cbn [snd] in *.
  apply at_bits_cons in Hat as [_ Hat]; [|lia|done|apply Forall_app; split; by apply byte_fields_ok]. rewrite Ep in Hat.
  apply at_bits_app in Hat as [Hat4 Hat]; [|lia|by apply byte_fields_ok|by apply byte_fields_ok]. rewrite byte_fields_width in Hat. change (zlen [_; _; _; _]) with 4 in Hat.
  apply at_byte_fields in Hat4; [|done|done|lia|change (zlen [_; _; _; _]) with 4; lia]. change (zlen [_; _; _; _]) with 4 in Hat4.
  replace (8 * p + 8 * 4) with (8 * (p + 4)) in Hat by lia. apply at_byte_fields in Hat; [|done|done|lia|fold n; lia]. fold n in Hat.
  assert (forall i x, zlook [n mod 256; n / 256; 255 - n mod 256; 255 - n / 256] i = Some x -> zlook buf (p + i) = Some x) as Hb.
  { intros i x Hx. pose proof (zlook_Some _ _ _ Hx) as Hr. change (zlen [_; _; _; _]) with 4 in Hr. rewrite <- Hat4, zlook_slice in Hx by lia. by destruct (_ && _). }
  unfold inflate_stored. wstep. eapply wp_align; [exact Hlen|exact R|lia|]. cbn [br_buf br_cap br_pos br_bits br_nbits]. fold p. unfold PTRDIFF_MAX in *.
  rewrite u64_small by lia. rewrite !Z.gtb_ltb. destruct (Z.ltb_spec (zlen buf) (p + 4)); [lia|].
  wstep. apply wp_get; [lia|]. intros b0 E0. wstep. apply wp_get; [lia|]. intros b1 E1. wstep. apply wp_get; [lia|]. intros b2 E2. wstep. apply wp_get; [lia|]. intros b3 E3. cbv zeta.
  pose proof (Hb 0 _ eq_refl) as F0. rewrite Z.add_0_r, E0 in F0. pose proof (Hb 1 _ eq_refl) as F1. rewrite E1 in F1. pose proof (Hb 2 _ eq_refl) as F2. rewrite E2 in F2. pose proof (Hb 3 _ eq_refl) as F3. rewrite E3 in F3.
  injection F0 as ->. injection F1 as ->. injection F2 as ->. injection F3 as ->. assert (0 <= n mod 256 < 256 /\ 0 <= n / 256 < 256 /\ n = n mod 256 + 256 * (n / 256)) as (? & ? & En) by zdiv.
  rewrite !lor_shift by lia. replace (n mod 256 + n / 256 * 2 ^ 8) with n by lia. replace (255 - n mod 256 + (255 - n / 256) * 2 ^ 8) with (65535 - n) by lia.
  rewrite lxor_complement by lia. change (negb (65535 =? 0xFFFF)) with false. cbv iota. cbn [br_pos br_cap br_buf br_bits br_nbits]. rewrite u64_small, ?Z.gtb_ltb by lia. destruct (Z.ltb_spec (zlen buf) (p + 4 + n)); [lia|].
  pose proof (zlen_nonneg data). pose proof (or_fits _ _ _ _ _ O). rewrite (or_len _ _ _ _ _ O), u64_small by lia. wstep.
  eapply wp_ensure_cap; [exact AllocatorOk0|exact Hmax|exact O|lia| |].
  - intros out' w' O' Hroom _. cbv beta iota. rewrite bool_decide_true by done. cbn [negb]. wstep. rewrite (or_len _ _ _ _ _ O').
    eapply wp_copy_stored; [exact Hmax|exact O'|lia|lia|lia|lia|]. intros pt O2. wstep. rewrite u64_small in O2 by lia. rewrite !u64_small by lia. rewrite Hat in O2. apply HQ1; [|exact O2].
    pose proof (reads_aligned buf (8 * (p + 4 + n)) ltac:(lia)) as Ra. replace ((8 * (p + 4 + n) + 7) / 8) with (p + 4 + n) in Ra by (apply Z.div_unique with 7; lia).
    replace (c + (k + 32 + 8 * n)) with (8 * (p + 4 + n)) by lia. exact Ra.
  - intros er out' w' He O'. cbv beta iota. rewrite bool_decide_false by (destruct He as [[-> _]| ->]; done). cbn [negb]. wstep. eapply HQ2; [|exact O']. unfold refused. rewrite zlen_app. exact He.
Qed.


Lemma wp_block_known final br c out w data data' fs (Q : bool * scl_error_t * bit_reader * output * world -> Prop) : block_says final c data data' fs -> reads br c -> out_rep out w data ->
  at_bits N c fs -> c + width fs <= total ->
  (forall br' out' w', reads br' (c + width fs) -> out_rep out' w' data' -> Q (final, SCL_OK, br', out', w')) ->
  (forall e br' out' w' data1, refused max_out e data' -> out_rep out' w' data1 -> Q (final, e, br', out', w')) -> wp (inflate_block al fuel max_out br out w) Q.
Proof.
  intros B R O Hat Hc HQ1 HQ2. pose proof (rd_start _ _ _ R). unfold inflate_block. destruct B as [pad chunk Hp Ep Hchunk Hn|ts gs Hok C]; cbn [width snd] in Hc, HQ1.
  - pose proof (stored_fields_ok pad chunk Hp Hchunk Hn) as F. pose proof (width_nonneg _ F). apply at_bits_cons in Hat as [H1 Hat]; [|lia|apply b2z_field|constructor; [by split|exact F]].
    apply at_bits_cons in Hat as [H2 Hat]; [|lia|by split|exact F]. wstep. eapply wp_read; [exact Hbuf|exact Hlen|exact R|lia|lia|]. intros br1 R1. cbv beta iota zeta. rewrite H1, b2z_bool.
    wstep. eapply wp_read; [exact Hbuf|exact Hlen|exact R1|lia|lia|]. intros br2 R2. cbv beta iota. rewrite H2. change (0 =? 0) with true. cbv iota. wstep. replace (c + (1 + (2 + width (stored_fields pad chunk)))) with (c + 1 + 2 + width (stored_fields pad chunk)) in * by lia.
    eapply wp_stored_known; [exact R2|exact O|exact Hp|rewrite Ep; f_equal; lia|exact Hchunk|exact Hn|exact Hat|lia| |].
    + intros br' out' w' R' O'. cbv beta iota. wstep. by apply HQ1.
    + intros e br' out' w' d1 He O'. cbv beta iota. wstep. by eapply HQ2.
  - pose proof (fixed_fields_ok ts gs C) as F. pose proof (width_nonneg _ F). apply at_bits_cons in Hat as [H1 Hat]; [|lia|apply b2z_field|constructor; [by split|exact F]].
    apply at_bits_cons in Hat as [H2 Hat]; [|lia|by split|exact F]. wstep. eapply wp_read; [exact Hbuf|exact Hlen|exact R|lia|lia|]. intros br1 R1. cbv beta iota zeta. rewrite H1, b2z_bool.
    wstep. eapply wp_read; [exact Hbuf|exact Hlen|exact R1|lia|lia|]. intros br2 R2. cbv beta iota. rewrite H2. change (1 =? 0) with false. change (1 =? 1) with true. cbn [orb]. wstep. rewrite fixed_lengths_ok. wstep. cbv beta iota.
    rewrite width_app in Hc, HQ1. rewrite fixed_end_field in *. cbn [width code_field snd] in Hc, HQ1. rewrite Z.add_0_r in Hc, HQ1. destruct fixed_ok as [Ll Ld].
    do 2 (apply wp_ret; cbv beta iota). rewrite bool_decide_true by done. cbn [negb]. apply wp_bind.
    eapply (wp_codes_known al fuel max_out live0 Hmax buf Hbuf Hlen Hfuel br2 (c + 1 + 2) out w data (Some <$> fixed_lits, Some <$> fixed_dists, 288, 32) fixed_lits fixed_dists 7 ts gs).
    { apply fixed_lengths_of. } { exact Ll. } { exact Ld. } { exact fixed_end. } { done. } { exact C. } { exact Hok. } { exact Hat. } { lia. } { exact R2. } { exact O. }
    + intros br' out' w' R' O'. cbv beta iota. wstep. apply HQ1; [|exact O']. by replace (c + (1 + (2 + (width gs + 7)))) with (c + 1 + 2 + width gs + 7) by lia.
    + intros e br' out' w' d1 He O'. cbv beta iota. wstep. by eapply HQ2.
Qed.

Lemma wp_stream_known br c out w data data' fs (Q : scl_error_t * bit_reader * output * world -> Prop) : stream_says c data data' fs -> reads br c -> out_rep out w data ->
  at_bits N c fs -> c + width fs <= total ->
  (forall br' out' w', reads br' (c + width fs) -> out_rep out' w' data' -> Q (SCL_OK, br', out', w')) ->
  (forall e br' out' w' data1, refused max_out e data' -> out_rep out' w' data1 -> Q (e, br', out', w')) -> wp (deflate_decompress al fuel max_out br out w) Q.
Proof.
  intros Hs R O Hat Hc HQ1 HQ2. unfold deflate_decompress. assert (total - c < Z.of_nat fuel) as Hn by (pose proof (rd_start _ _ _ R); lia). revert Hn. generalize fuel at 1 2 as n. intros n Hn.
  revert n Hn br out w R O Hat Hc HQ1 HQ2. induction Hs as [c data data' fs B|c data data' data'' fs fss B Hs IH]; intros n Hn br out w R O Hat Hc HQ1 HQ2;
    destruct (block_width _ _ _ _ _ B) as [F H3]; pose proof (rd_start _ _ _ R).
  - destruct n as [|n]; [lia|]. apply wp_loop_next. wstep. eapply wp_br_fill; [exact Hbuf|exact Hlen|exact R|]. intros br1 R1 _. cbv beta iota.
    destruct (Z.ltb_spec c total); [|lia]. cbn [negb]. wstep. eapply wp_block_known; [exact B|exact R1|exact O|exact Hat|exact Hc| |].
    + intros br' out' w' R' O'. cbv beta iota. rewrite bool_decide_true by done. cbn [negb]. wstep. by apply HQ1.
    + intros e br' out' w' d1 He O'. cbv beta iota. rewrite bool_decide_false by (destruct He as [[-> _]| ->]; done). cbn [negb]. wstep. by eapply HQ2.
  - destruct (stream_fields_ok _ _ _ _ Hs) as [Fs Hs3]. apply at_bits_app in Hat as [Hat1 Hat2]; [|lia|exact F|exact Fs]. rewrite width_app in Hc, HQ1. rewrite Z.add_assoc in Hc, HQ1.
    destruct n as [|n]; [lia|].
    apply wp_loop_next. wstep. eapply wp_br_fill; [exact Hbuf|exact Hlen|exact R|]. intros br1 R1 _. cbv beta iota.
    destruct (Z.ltb_spec c total); [|lia]. cbn [negb]. wstep. eapply wp_block_known; [exact B|exact R1|exact O|exact Hat1|lia| |].
    + intros br' out' w' R' O'. cbv beta iota. rewrite bool_decide_true by done. cbn [negb]. wstep. apply (IH n ltac:(lia) br' out' w' R' O' Hat2 Hc HQ1 HQ2).
    + intros e br' out' w' d1 He O'. cbv beta iota. rewrite bool_decide_false by (destruct He as [[-> _]| ->]; done). cbn [negb]. wstep. eapply HQ2; [|exact O']. eapply refused_longer; [exact He|]. by eapply stream_longer.
Qed.
End Streams.

(** The output is [data]. *)
Definition holds (out : output) (data : list Z) : Prop :=
  ou_len out = zlen data /\ match ou_buf out with Null => data = [] | Ptr b => slice b 0 (zlen data) = Some <$> data | Dangling => False end.

Lemma out_rep_holds max_out live0 out w data : out_rep max_out live0 out w data -> holds out data.
Proof.
  intros [El Hf Hb]. split; [done|]. pose proof (zlen_nonneg data). destruct (ou_buf out) as [|b|]; [|destruct Hb as (Hz & Hw & Hc)|done].
  - destruct Hb as [Hcap _]. destruct data as [|x data]; [done|]. rewrite zlen_cons in *. pose proof (zlen_nonneg data). lia.
  - apply zlook_ext. intros i. rewrite zlook_slice, zlook_fmap by lia. destruct (Z.leb_spec 0 i) as [Hi0|Hi0]; cbn [andb]; [|by rewrite zlook_neg by lia].
    destruct (Z.ltb_spec i (zlen data - 0)) as [Hi1|Hi1]; [|by rewrite zlook_ge by lia]. rewrite Z.add_0_l. destruct (zlook_lt data i) as [x Hx]; [lia|]. rewrite Hx. by apply Hc.
Qed.

(** C3. Decompression delivers what the stream says: when the input starts with
    the fields of stored blocks and fixed Huffman blocks whose tokens (literals,
    and matches that may overlap what they produce) expand to [data], then
    [deflate_decompress] ends with exactly [data] in its buffer and the reader just
    after the last field, or refuses because [data] is longer than the limit, or
    because memory ran out. *)
Theorem inflate_decodes (al : scl_allocator_t) `{!AllocatorOk al} (w : world) (fuel : nat) (max_out : Z) (buf data : list Z) (fs : list field)
  (Hbuf : is_bytes buf) (Hlen : zlen buf <= PTRDIFF_MAX) (Hmax : 0 <= max_out <= PTRDIFF_MAX) (Hfuel : 8 * zlen buf < Z.of_nat fuel)
  (Hsays : stream_says 0 [] data fs) (Hat : at_bits (num buf) 0 fs) (Hfit : width fs <= 8 * zlen buf) :
  exists e br out w', deflate_decompress al fuel max_out (bit_reader_init buf (zlen buf)) no_output w = Ok (e, br, out, w') /\
    (e = SCL_OK /\ holds out data /\ bit_reader_align br = Ok (Reader buf (zlen buf) ((width fs + 7) / 8) 0 0) \/
     e = SCL_ERR_SIZE_OVERFLOW /\ max_out < zlen data \/ e = SCL_ERR_OUT_OF_MEMORY).
Proof.
  destruct (proj1 (wp_ok (deflate_decompress al fuel max_out (bit_reader_init buf (zlen buf)) no_output w)
    (fun '(e, br, out, w') => e = SCL_OK /\ holds out data /\ reads buf br (width fs) \/ refused max_out e data))) as ([[[e br] out] w'] & E & H).
  - eapply wp_stream_known; [exact AllocatorOk0|exact Hmax|exact Hbuf|exact Hlen|exact Hfuel|exact Hsays|by apply reads_init|apply (out_rep_start max_out w); lia|exact Hat|exact Hfit| |].
    + intros br' out' w' R' O'. left. split; [done|]. split; [by eapply out_rep_holds|exact R'].
    + intros e br' out' w' d He _. by right.
  - exists e, br, out, w'. split; [exact E|]. destruct H as [(-> & Ho & R)|[[-> Hbig]| ->]]; [left|by right; left|by right; right]. split; [done|]. split; [done|].
    destruct (proj1 (wp_ok (bit_reader_align br) (fun br' => br' = Reader buf (zlen buf) ((width fs + 7) / 8) 0 0))) as (br' & -> & ->); [|done].
    eapply wp_align; [exact Hlen|exact R|lia|done].
Qed.

Lemma inflate_decodes_witness :
  exists e br out w', deflate_decompress small_allocator 41 100 (bit_reader_init [75; 132; 3; 0] 4) no_output (World 0 0) = Ok (e, br, out, w') /\
    (e = SCL_OK /\ holds out (replicate 10 97) /\ bit_reader_align br = Ok (Reader [75; 132; 3; 0] 4 4 0 0) \/
     e = SCL_ERR_SIZE_OVERFLOW /\ 100 < 10 \/ e = SCL_ERR_OUT_OF_MEMORY).
Proof.
  apply (inflate_decodes small_allocator (World 0 0) 41 100 [75; 132; 3; 0] (replicate 10 97)
    ((1, 1) :: (1, 2) :: (code_field fixed_lits 8 97 :: [] ++ code_field fixed_lits 7 263 :: [] ++ code_field fixed_dists 5 0 :: []) ++ [end_field fixed_lits])).
  - repeat constructor; lia.
  - done.
  - done.
  - done.
  - apply says_last. apply (says_fixed true 0 [] [Lit 97; Match 9 1]).
    + cbn [tokens_ok token_ok expand app]. change (zlen [97]) with 1. repeat split; lia.
    + apply (tc_cons _ _ _ _ [code_field fixed_lits 8 97] (code_field fixed_lits 7 263 :: [] ++ code_field fixed_dists 5 0 :: [])).
      * apply codes_lit; [lia|by vm_compute|lia].
      * apply (tc_cons _ _ _ _ (code_field fixed_lits 7 263 :: [] ++ code_field fixed_dists 5 0 :: []) []); [|apply tc_nil].
        apply (codes_match fixed_lits fixed_dists 263 7 9 0 0 0 5 1 0 0); first [lia | by vm_compute].
  - by vm_compute.
  - by vm_compute.
Defined.
