(* ===== verification/Deflate.v ===== *)
(** DEFLATE compression ([deflate_write_stored], [deflate_compress_fixed] of
    [libs/compress/gzip/scl_gzip.c]): what is written is a stream that says the
    data ([DeflateFormat]).  The match finder never finds a match, so that a
    fixed block holds literals only. *)

From S2P Require Import Prelude Core Bytes Refine BitIO Huffman Inflate DeflateFormat.
#[local] Open Scope Z_scope.

Definition SCL_LZ77_WINDOW_SIZE : Z := 32 * 1024.
Definition SCL_LZ77_MIN_MATCH : Z := 3.
Definition SCL_LZ77_HASH_SIZE : Z := 32768.

(** ** Stored blocks *)
Definition deflate_write_stored (bw : bit_writer) (data : list Z) (len : Z) (final : bool) : res (scl_error_t * bit_writer) :=
  loop (Z.to_nat (len / 65535) + 2)
    (fun '(bw, off) =>
       let chunk := if u64 (len - off) >? 65535 then 65535 else u64 (len - off) in
       let last := final && (u64 (off + chunk) =? len) in
       '(_, bw) ← bit_writer_flush bw;
       '(ok, bw) ← bit_writer_write bw (if last then 1 else 0) 1;
       if negb ok then mret (inr (SCL_ERR_SIZE_OVERFLOW, bw))
       else
         '(ok, bw) ← bit_writer_write bw 0 2;
         if negb ok then mret (inr (SCL_ERR_SIZE_OVERFLOW, bw))
         else
           '(_, bw) ← bit_writer_flush bw;
           if u64 (bw_pos bw + 4) >? bw_cap bw then mret (inr (SCL_ERR_SIZE_OVERFLOW, bw))
           else
             let l := u16 chunk in
             let nl := u16 (Z.lnot l) in
             bw ← put_byte bw (Z.land l 0xFF);
             bw ← put_byte bw (Z.land (Z.shiftr l 8) 0xFF);
             bw ← put_byte bw (Z.land nl 0xFF);
             bw ← put_byte bw (Z.land (Z.shiftr nl 8) 0xFF);
             if u64 (bw_pos bw + chunk) >? bw_cap bw then mret (inr (SCL_ERR_SIZE_OVERFLOW, bw))
             else
               buf ← zfor 0 chunk (fun k buf => c ← get data (off + k); set buf (bw_base bw + bw_pos bw + k) (Some c)) (bw_buf bw);
               let bw := Writer buf (bw_base bw) (bw_cap bw) (u64 (bw_pos bw + chunk)) (bw_bits bw) (bw_nbits bw) in
               let off := u64 (off + chunk) in
               if off <? len then mret (inl (bw, off)) else mret (inr (SCL_OK, bw)))
    (bw, 0).

(** ** Codes of lengths and distances *)
Definition length_code (len : Z) : Z :=
  if len <? 3 then 0
  else if len <=? 10 then 257 + (len - 3)
  else if len <=? 18 then 265 + (len - 11) / 2
  else if len <=? 34 then 269 + (len - 19) / 4
  else if len <=? 66 then 273 + (len - 35) / 8
  else if len <=? 130 then 277 + (len - 67) / 16
  else if len <=? 257 then 281 + (len - 131) / 32
  else 285.

Definition distance_code (dist : Z) : res Z :=
  if dist <? 1 then mret 0
  else if dist <=? 4 then mret (dist - 1)
  else
    let d := dist - 1 in
    let log := scl_log2_u32 d in
    x ← shr32 d (log - 1);
    mret (u32 (u32 (Z.shiftl log 1) + Z.land x 1)).

(** [for (i = 0; i < n; i++) rev = (rev << 1) | ((c >> i) & 1)] *)
Definition reverse_bits (c n : Z) : res Z :=
  zfor 0 n (fun i rev => x ← shr32 c i; mret (Z.lor (u32 (Z.shiftl rev 1)) (Z.land x 1))) 0.

(** A write whose failure is an error. *)
Definition emit (bw : bit_writer) (v n : Z) : res (scl_error_t * bit_writer) :=
  '(ok, bw) ← bit_writer_write bw v n;
  mret (if ok : bool then SCL_OK else SCL_ERR_SIZE_OVERFLOW, bw).

Definition emit_literal_fixed (bw : bit_writer) (sym : Z) : res (scl_error_t * bit_writer) :=
  if sym <=? 143 then rev ← reverse_bits (48 + sym) 8; emit bw rev 8
  else if sym <=? 255 then rev ← reverse_bits (256 + sym) 9; emit bw rev 9
  else mret (SCL_ERR_INVALID_ARG, bw).

Definition emit_match_fixed (bw : bit_writer) (len_code len_extra len_extra_bits dist_code dist_extra dist_extra_bits : Z)
    : res (scl_error_t * bit_writer) :=
  '(e, bw) ← (if len_code <=? 279 then rev ← reverse_bits (u32 (len_code - 256)) 7; emit bw rev 7
              else rev ← reverse_bits (u32 (192 + (len_code - 280))) 8; emit bw rev 8);
  if negb (bool_decide (e = SCL_OK)) then mret (e, bw)
  else
    '(e, bw) ← (if len_extra_bits >? 0 then emit bw len_extra len_extra_bits else mret (SCL_OK, bw));
    if negb (bool_decide (e = SCL_OK)) then mret (e, bw)
    else
      rev ← reverse_bits dist_code 5;
      '(e, bw) ← emit bw rev 5;
      if negb (bool_decide (e = SCL_OK)) then mret (e, bw)
      else if dist_extra_bits >? 0 then emit bw dist_extra dist_extra_bits else mret (SCL_OK, bw).

(** ** The match finder *)
Definition lz77_hash (data : list Z) (p : Z) : res Z :=
  a ← get data p; b ← get data (p + 1); c ← get data (p + 2);
  mret (Z.lxor (Z.lxor (u32 (Z.shiftl a 4)) (u32 (Z.shiftl b 2))) c).

(** [h = lz77_hash(data + pos) & (SCL_LZ77_HASH_SIZE - 1)] *)
Definition hash_at (data : list Z) (pos : Z) : res Z := h ← lz77_hash data pos; mret (Z.land h (SCL_LZ77_HASH_SIZE - 1)).

(** [hash_prev[pos] = hash_head[h]; hash_head[h] = pos] *)
Definition hash_insert (head prev : ptr Z) (h pos : Z) : res (ptr Z * ptr Z) :=
  x ← get_elem head h;
  prev ← set_elem prev pos x;
  head ← set_elem head h (u32 pos);
  mret (head, prev).

Definition match_length (data : list Z) (chain pos max_lookahead : Z) : res Z :=
  loop (S (Z.to_nat max_lookahead))
    (fun m =>
       if m <? max_lookahead then
         a ← get data (chain + m); b ← get data (pos + m);
         if a =? b then mret (inl (m + 1)) else mret (inr m)
       else mret (inr m)) 0.

(** The best match along the chain: its length and distance. *)
Definition longest_match (data : list Z) (prev : ptr Z) (pos max_lookahead level chain : Z) : res (Z * Z) :=
  loop 66
    (fun '(chain, count, best_len, best_dist) =>
       if negb (chain =? 2 ^ 32 - 1) && (chain <? pos) && (pos - chain <=? SCL_LZ77_WINDOW_SIZE) && (count <? (if level >? 1 then 64 else 8)) then
         m ← match_length data chain pos max_lookahead;
         let better := (m >=? SCL_LZ77_MIN_MATCH) && (m >? best_len) in
         let best_len := if better then m else best_len in
         let best_dist := if better then u32 (pos - chain) else best_dist in
         if better && (m =? max_lookahead) then mret (inr (best_len, best_dist))
         else chain ← get_elem prev chain; mret (inl (chain, count + 1, best_len, best_dist))
       else mret (inr (best_len, best_dist))) (chain, 0, 0, 0).

Section Compress.
Context (al : scl_allocator_t) (data : list Z) (len level : Z).

(** The search of one round, which also stores the position. *)
Definition find_match (head prev : ptr Z) (pos max_lookahead : Z) : res (Z * Z * ptr Z * ptr Z) :=
  if (level >? 0) && (max_lookahead >=? SCL_LZ77_MIN_MATCH) && (u64 (pos + SCL_LZ77_MIN_MATCH) <=? len) then
    h ← hash_at data pos;
    chain ← get_elem head h;
    '(best_len, best_dist) ← longest_match data prev pos max_lookahead level chain;
    '(head, prev) ← hash_insert head prev h pos;
    mret (best_len, best_dist, head, prev)
  else mret (0, 0, head, prev).

Definition emit_match (bw : bit_writer) (best_len best_dist : Z) : res (scl_error_t * bit_writer) :=
  let lc := length_code best_len in
  lb ← get scl_len_base (lc - 257); leb ← get scl_len_extra (lc - 257);
  dc ← distance_code best_dist;
  db ← get scl_dist_base dc; deb ← get scl_dist_extra dc;
  emit_match_fixed bw lc (u32 (best_len - lb)) leb dc (u32 (best_dist - db)) deb.

Definition lz77_step (s : bit_writer * ptr Z * ptr Z * Z) : res (bit_writer * ptr Z * ptr Z * Z + scl_error_t * bit_writer * ptr Z * ptr Z) :=
  let '(bw, head, prev, pos) := s in
  if pos <? len then
    let max_lookahead := if len - pos <? SCL_LZ77_MAX_MATCH then len - pos else SCL_LZ77_MAX_MATCH in
    '(best_len, best_dist, head, prev) ← find_match head prev pos max_lookahead;
    if (best_len >=? SCL_LZ77_MIN_MATCH) && (best_dist >? 0) then
      '(e, bw) ← emit_match bw best_len best_dist;
      if negb (bool_decide (e = SCL_OK)) then mret (inr (e, bw, head, prev))
      else mret (inl (bw, head, prev, u64 (pos + best_len)))
    else
      c ← get data pos;
      '(e, bw) ← emit_literal_fixed bw c;
      if negb (bool_decide (e = SCL_OK)) then mret (inr (e, bw, head, prev))
      else
        let pos := u64 (pos + 1) in
        '(head, prev) ← (if (level >? 0) && (u64 (pos + 2) <? len) then h ← hash_at data pos; hash_insert head prev h pos else mret (head, prev));
        mret (inl (bw, head, prev, pos))
  else mret (inr (SCL_OK, bw, head, prev)).

(** [finish]: the end of the block. *)
Definition finish (bw : bit_writer) : res (scl_error_t * bit_writer) := emit bw 0 7.

(** A pointer that was passed to [scl_free]. *)
Definition dangling (p : ptr Z) : ptr Z := match p with Null => Null | _ => Dangling end.

(** [do_literals]: what was freed before is freed again when it is not [NULL]. *)
Definition do_literals (w : world) (head prev : ptr Z) (bw : bit_writer) : res (scl_error_t * bit_writer * world) :=
  w ← free_ptr w head;
  w ← free_ptr w prev;
  r ← zfor_ret 0 len
    (fun i bw =>
       c ← get data i;
       '(e, bw) ← emit_literal_fixed bw c;
       if negb (bool_decide (e = SCL_OK)) then mret (inr (e, bw)) else mret (inl bw)) bw;
  match r with
  | inr (e, bw) => mret (e, bw, w)
  | inl bw => '(e, bw) ← finish bw; mret (e, bw, w)
  end.

Definition deflate_compress_fixed (w : world) (bw : bit_writer) (final : bool) : res (scl_error_t * bit_writer * world) :=
  '(e, bw) ← emit bw (if final then 1 else 0) 1;
  if negb (bool_decide (e = SCL_OK)) then mret (e, bw, w)
  else
    '(e, bw) ← emit bw 1 2;
    if negb (bool_decide (e = SCL_OK)) then mret (e, bw, w)
    else if (len =? 0) || (level =? 0) then '(e, bw) ← finish bw; mret (e, bw, w)
    else
      let '(hash_head, w) := if level >? 0 then scl_calloc al w SCL_LZ77_HASH_SIZE 4 MAX_ALIGN 0 else (None, w) in
      let '(hash_prev, w) := if level >? 0 then scl_calloc al w len 4 MAX_ALIGN 0 else (None, w) in
      let head := to_ptr hash_head in
      let prev := to_ptr hash_prev in
      if (level >? 0) && negb (bool_decide (is_Some hash_head) && bool_decide (is_Some hash_prev)) then
        w ← free_ptr w head;
        w ← free_ptr w prev;
        do_literals w (dangling head) (dangling prev) bw
      else
        '(e, bw, head, prev) ← loop (S (Z.to_nat len)) lz77_step (bw, head, prev, 0);
        w ← free_ptr w head;
        w ← free_ptr w prev;
        if negb (bool_decide (e = SCL_OK)) then mret (e, bw, w)
        else '(e, bw) ← finish bw; mret (e, bw, w).
End Compress.

(** ** The writer, byte by byte *)
Section Bytes.
Context (buf0 : block Z) (base cap : Z).
Notation writes := (writes buf0 base cap).

Lemma wp_set_byte bw fs c (Q : block Z -> Prop) : writes bw fs -> bw_nbits bw = 0 -> bw_pos bw < cap -> 0 <= c < 256 ->
  (forall buf, writes (Writer buf (bw_base bw) (bw_cap bw) (bw_pos bw + 1) (bw_bits bw) (bw_nbits bw)) (fs ++ [(c, 8)]) -> Q buf) -> wp (set (bw_buf bw) (bw_base bw + bw_pos bw) (Some c)) Q.
Proof.
  intros W Hn Hroom Hc HQ. pose proof (register_range _ _ _ _ _ _ W) as Hreg. rewrite Hn in Hreg. change (2 ^ 0) with 1 in Hreg. pose proof W as [Ebase Ecap Hr Hz Hf Hw Hl Hbef (l & El & Hb & Hcells & E)].
  assert (Forall field_ok [(c, 8)]) as Hfc by (apply Forall_singleton; split; cbn; lia). assert (bw_bits bw = 0) as E0 by lia. rewrite E0 in E.
  apply wp_set; [lia|]. apply HQ. rewrite Ebase. split; cbn [bw_buf bw_base bw_cap bw_pos bw_bits bw_nbits]; try done; try lia.
  - rewrite zlen_zupd. lia.
  - by rewrite zlen_zupd.
  - by apply Forall_app.
  - rewrite width_app. cbn [width snd]. lia.
  - intros i Hi. rewrite zlook_zupd, decide_False by lia. by apply Hbef.
  - exists (l ++ [c]). rewrite zlen_app. change (zlen [c]) with 1. split; [lia|]. split; [apply Forall_app; split; [done|by apply Forall_singleton]|]. split.
    + intros i Hi. rewrite zlook_zupd, zlook_app. destruct (Z.ltb_spec i (zlen l)); [rewrite decide_False by lia; apply Hcells; lia|]. rewrite decide_True by lia. by replace (i - zlen l) with 0 by lia.
    + rewrite fnum_app, num_app, E, Hw, Hn, El, E0 by done. cbn [fnum fst num]. replace (8 * bw_pos bw + 0) with (8 * bw_pos bw) by lia. lia.
Qed.

Lemma wp_put_byte bw fs c (Q : bit_writer -> Prop) : writes bw fs -> bw_nbits bw = 0 -> bw_pos bw < cap -> 0 <= c < 256 ->
  (forall bw', writes bw' (fs ++ [(c, 8)]) -> bw_nbits bw' = 0 -> bw_pos bw' = bw_pos bw + 1 -> Q bw') -> wp (put_byte bw c) Q.
Proof.
  intros W Hn Hroom Hc HQ. unfold put_byte. wstep. eapply wp_set_byte; [exact W|done|done|done|]. intros buf W'. wstep. pose proof (wt_room _ _ _ _ _ _ W). unfold PTRDIFF_MAX in *.
  rewrite u64_small by lia. by apply HQ.
Qed.

Lemma wp_put_bytes bw fs src off n (Q : block Z -> Prop) : writes bw fs -> bw_nbits bw = 0 -> bw_pos bw + n <= cap -> is_bytes src -> 0 <= off -> 0 <= n -> off + n <= zlen src ->
  (forall buf, writes (Writer buf (bw_base bw) (bw_cap bw) (bw_pos bw + n) (bw_bits bw) (bw_nbits bw)) (fs ++ byte_fields (slice src off (off + n))) -> Q buf) ->
  wp (zfor 0 n (fun k buf => c ← get src (off + k); set buf (bw_base bw + bw_pos bw + k) (Some c)) (bw_buf bw)) Q.
Proof.
  intros W Hnb Hroom Hsrc Hoff Hn Hfit HQ.
  apply (wp_zfor (fun k buf => writes (Writer buf (bw_base bw) (bw_cap bw) (bw_pos bw + k) (bw_bits bw) (bw_nbits bw)) (fs ++ byte_fields (slice src off (off + k))))).
  - rewrite slice_nil, Z.add_0_r by lia. cbn [byte_fields fmap list_fmap]. rewrite app_nil_r. by destruct bw.
  - intros k buf Hk W'. wstep. apply wp_get; [lia|]. intros c Hc. assert (0 <= c < 256) as Hc256.
    { unfold is_bytes in Hsrc. rewrite Forall_forall in Hsrc. apply Hsrc. unfold zlook in Hc. destruct (Z.leb_spec 0 (off + k)); [|lia]. by apply list_elem_of_lookup_2 in Hc. }
    pose proof (wp_set_byte _ _ c (fun buf' => writes (Writer buf' (bw_base bw) (bw_cap bw) (bw_pos bw + (k + 1)) (bw_bits bw) (bw_nbits bw)) (fs ++ byte_fields (slice src off (off + (k + 1))))) W') as Hs.
    cbn [bw_buf bw_base bw_cap bw_pos bw_bits bw_nbits] in Hs. rewrite <- (Z.add_assoc (bw_base bw)). apply Hs; [done|lia|done|]. intros b' W2. rewrite <- (Z.add_assoc (bw_pos bw)) in W2.
    replace (off + (k + 1)) with (off + k + 1) by lia. rewrite <- (slice_app src off (off + k) (off + k + 1)) by lia. rewrite (slice_cons src (off + k) (off + k + 1) c), (slice_nil src (off + k + 1) (off + k + 1)) by (lia || done).
    unfold byte_fields at 1. rewrite fmap_app, app_assoc. exact W2.
  - intros buf W'. rewrite Z.max_r in W' by lia. by apply HQ.
Qed.

Lemma wp_emit bw fs v n (Q : scl_error_t * bit_writer -> Prop) : writes bw fs -> 0 <= n <= 16 -> 0 <= v < 2 ^ n ->
  (forall bw', writes bw' (fs ++ [(v, n)]) -> Q (SCL_OK, bw')) ->
  (forall bw', 8 * cap < width fs + n -> zlen (bw_buf bw') = zlen buf0 -> Q (SCL_ERR_SIZE_OVERFLOW, bw')) -> wp (emit bw v n) Q.
Proof.
  intros W Hn Hv HQ1 HQ2. unfold emit. wstep. eapply wp_write; [exact W|done|done| |].
  - intros bw' W'. cbv beta iota. wstep. by apply HQ1.
  - intros bw' Hfull Hz. cbv beta iota. wstep. by apply HQ2.
Qed.
End Bytes.

(** ** Literals *)
Lemma reverse_bits_spec c n : 0 <= c < 2 ^ 32 -> 0 <= n <= 16 -> reverse_bits c n = Ok (rev_bits (Z.to_nat n) c).
Proof.
  intros Hc Hn. destruct (proj1 (wp_ok (reverse_bits c n) (fun r => r = rev_bits (Z.to_nat n) c))) as (r & -> & ->); [|done].
  apply (wp_zfor (fun i r => r = rev_bits (Z.to_nat i) c)); [done| |intros r ->; by rewrite Z.max_r by lia].
  intros i r Hi ->. wstep. apply wp_shr32; [lia|]. wstep. replace (Z.to_nat (i + 1)) with (S (Z.to_nat i)) by lia. cbn [rev_bits]. rewrite Z2Nat.id by lia.
  pose proof (rev_range (Z.to_nat i) c) as Hr. rewrite Z2Nat.id in Hr by lia. assert (2 ^ i <= 2 ^ 16) by (apply Z.pow_le_mono_r; lia).
  change 1 with (Z.ones 1) at 2. rewrite Z.land_ones, Z.shiftr_div_pow2 by lia. change (2 ^ 1) with 2. pose proof (Z.mod_pos_bound (c / 2 ^ i) 2).
  unfold u32. rewrite Z.mod_small by (rewrite Z.shiftl_mul_pow2 by lia; change (2 ^ 1) with 2; lia). rewrite Z.lor_comm, lor_shift by (change (2 ^ 1) with 2; lia). change (2 ^ 1) with 2. lia.
Qed.

Definition lit_len (b : Z) : Z := if b <=? 143 then 8 else 9.
Definition lit_field (b : Z) : field := code_field fixed_lits (lit_len b) b.
Definition lit_fields (l : list Z) : list field := lit_field <$> l.

Lemma fixed_literal b : 0 <= b < 256 -> zlook fixed_lits b = Some (lit_len b) /\ canon fixed_lits (lit_len b) b = (if b <=? 143 then 48 + b else 256 + b).
Proof.
  intros Hb. assert (forallb (fun n => let b := Z.of_nat n in bool_decide (zlook fixed_lits b = Some (lit_len b)) && (canon fixed_lits (lit_len b) b =? (if b <=? 143 then 48 + b else 256 + b))) (seq 0 256) = true) as H by (vm_compute; reflexivity).
  rewrite forallb_forall in H. specialize (H (Z.to_nat b)). cbv zeta in H. rewrite Z2Nat.id in H by lia. destruct (proj1 (andb_true_iff _ _) (H ltac:(apply in_seq; lia))) as [H1 H2].
  split; [by apply bool_decide_eq_true in H1|by apply Z.eqb_eq in H2].
Qed.

Lemma lit_len_range b : 8 <= lit_len b <= 9.
Proof. unfold lit_len. destruct (b <=? 143); lia. Qed.

Lemma lit_fields_ok l : is_bytes l -> Forall field_ok (lit_fields l).
Proof.
  induction 1 as [|b l Hb _ IH]; [constructor|]. constructor; [|exact IH]. pose proof (lit_len_range b). apply code_field_ok; [apply fixed_ok|by apply fixed_literal|lia].
Qed.

Lemma lit_fields_width l : 8 * zlen l <= width (lit_fields l) <= 9 * zlen l.
Proof.
  induction l as [|b l IH]; [done|]. cbn [lit_fields fmap list_fmap width lit_field code_field snd]. rewrite zlen_cons. change (lit_field <$> l) with (lit_fields l). pose proof (lit_len_range b). lia.
Qed.

Lemma wp_emit_literal buf0 base cap bw fs b (Q : scl_error_t * bit_writer -> Prop) : writes buf0 base cap bw fs -> 0 <= b < 256 ->
  (forall bw', writes buf0 base cap bw' (fs ++ [lit_field b]) -> Q (SCL_OK, bw')) ->
  (forall bw', 8 * cap < width fs + lit_len b -> zlen (bw_buf bw') = zlen buf0 -> Q (SCL_ERR_SIZE_OVERFLOW, bw')) -> wp (emit_literal_fixed bw b) Q.
Proof.
  intros W Hb HQ1 HQ2. destruct (fixed_literal b Hb) as [_ Ec]. unfold emit_literal_fixed, lit_field, code_field in *. rewrite Ec in HQ1. unfold lit_len in *. destruct (Z.leb_spec b 143).
  - rewrite reverse_bits_spec by lia. wstep. eapply wp_emit; [exact W|lia|apply (rev_range 8)|exact HQ1|exact HQ2].
  - destruct (Z.leb_spec b 255); [|lia]. rewrite reverse_bits_spec by lia. wstep. eapply wp_emit; [exact W|lia|apply (rev_range 9)|exact HQ1|exact HQ2].
Qed.

(** What a block of literals says. *)
Lemma literals_code l : is_bytes l -> tokens_code fixed_lits fixed_dists (Lit <$> l) (lit_fields l).
Proof.
  induction 1 as [|b l Hb _ IH]; [constructor|]. apply (tc_cons _ _ (Lit b) _ [lit_field b]); [|exact IH]. destruct (fixed_literal b Hb) as [E _]. pose proof (lit_len_range b). apply codes_lit; [done|done|lia].
Qed.

Lemma literals_ok l data : is_bytes l -> tokens_ok data (Lit <$> l).
Proof. intros Hl. revert data. induction Hl as [|b l Hb _ IH]; intros data; [done|]. by split. Qed.

Lemma literals_expand l data : expand_all data (Lit <$> l) = data ++ l.
Proof. revert data. induction l as [|b l IH]; intros data; cbn [fmap list_fmap expand_all expand]; [by rewrite app_nil_r|]. change (list_fmap _ _ Lit l) with (Lit <$> l). rewrite IH, <- app_assoc. done. Qed.

(** ** The match finder finds nothing *)
Definition in_u32 (x : Z) : Prop := 0 <= x < 2 ^ 32.

Section Compressing.
Context (al : scl_allocator_t) (data : list Z) (level : Z) (Hdata : is_bytes data) (Hlen : zlen data <= PTRDIFF_MAX).
Context (buf0 : block Z) (base cap : Z).
Notation len := (zlen data).
Notation writes := (writes buf0 base cap).

(** The tables at [pos]: where a chain would start there is no earlier position
    within the window, because there is [pos] itself, stored by the round before. *)
Definition tables_ok (pos : Z) (head prev : ptr Z) : Prop :=
  if level >? 0 then
    exists hb pb, head = Ptr hb /\ prev = Ptr pb /\ zlen hb = SCL_LZ77_HASH_SIZE /\ zlen pb = len /\ filled in_u32 hb SCL_LZ77_HASH_SIZE /\
      forall h x, hash_at data pos = Ok h -> zlook hb h = Some (Some x) -> x < pos -> SCL_LZ77_WINDOW_SIZE < pos - x
  else head = Null /\ prev = Null.

Lemma hash_at_ok pos : 0 <= pos -> pos + 3 <= len -> exists h, hash_at data pos = Ok h /\ 0 <= h < SCL_LZ77_HASH_SIZE.
Proof.
  intros Hp Hfit. destruct (proj1 (wp_ok (hash_at data pos) (fun h => 0 <= h < SCL_LZ77_HASH_SIZE))) as (h & E & Hh); [|by exists h].
  unfold hash_at, lz77_hash. wstep. wstep. apply wp_get; [lia|]. intros a _. wstep. apply wp_get; [lia|]. intros b _. wstep. apply wp_get; [lia|]. intros c _. wstep. wstep.
  change (SCL_LZ77_HASH_SIZE - 1) with (Z.ones 15). rewrite Z.land_ones by lia. apply Z.mod_pos_bound. done.
Qed.

Lemma wp_chain_insert hb pb pos h (Q : ptr Z * ptr Z -> Prop) : zlen hb = SCL_LZ77_HASH_SIZE -> zlen pb = len -> filled in_u32 hb SCL_LZ77_HASH_SIZE -> 0 <= pos < len -> hash_at data pos = Ok h -> 0 <= h < SCL_LZ77_HASH_SIZE ->
  level >? 0 = true -> (forall head prev, tables_ok pos head prev -> Q (head, prev)) -> wp (hash_insert (Ptr hb) (Ptr pb) h pos) Q.
Proof.
  intros Ez Ezp Hf Hp Eh Hh Hlev HQ. destruct (Hf h Hh) as (x & Ex & _). unfold hash_insert. wstep. eapply wp_get_elem; [exact Ex|]. wstep. eapply wp_set_elem; [lia|]. wstep. eapply wp_set_elem; [lia|].
  wstep. apply HQ. unfold tables_ok. rewrite Hlev. eexists _, _. split; [done|]. split; [done|]. rewrite !zlen_zupd. split; [done|]. split; [done|]. unfold PTRDIFF_MAX in *.
  assert (in_u32 (u32 pos)) as Hu by (apply Z.mod_pos_bound; lia). split; [apply filled_upd; [rewrite Ez; lia|done|done]|].
  intros h' y Eh' Ey Hlt. rewrite Eh in Eh'. injection Eh' as <-. rewrite zlook_zupd, decide_True in Ey by lia. injection Ey as <-. unfold u32 in *. unfold SCL_LZ77_WINDOW_SIZE. zdiv.
Qed.

(** The round stores the position again, and its search is over at once. *)
Lemma wp_find_match pos max_lookahead head prev (Q : Z * Z * ptr Z * ptr Z -> Prop) : 0 <= pos < len -> tables_ok pos head prev ->
  (forall head prev, tables_ok pos head prev -> Q (0, 0, head, prev)) -> wp (find_match data len level head prev pos max_lookahead) Q.
Proof.
  intros Hp T HQ. unfold find_match, SCL_LZ77_MIN_MATCH. unfold PTRDIFF_MAX in *. rewrite u64_small by lia. destruct (level >? 0) eqn:Hlev; [|cbn [andb]; wstep; by apply HQ].
  destruct (max_lookahead >=? 3); cbn [andb]; [|wstep; by apply HQ]. destruct (Z.leb_spec (pos + 3) len) as [Hfit|]; [|wstep; by apply HQ].
  pose proof T as T'. unfold tables_ok in T'. rewrite Hlev in T'. destruct T' as (hb & pb & -> & -> & Ez & Ezp & Hf & Hstart). destruct (hash_at_ok pos ltac:(lia) Hfit) as (h & Eh & Hh). rewrite Eh. wstep. wstep.
  destruct (Hf h Hh) as (x & Ex & Hx). wstep. eapply wp_get_elem; [exact Ex|]. specialize (Hstart h x Eh Ex). wstep. unfold longest_match. apply wp_loop_next.
  assert (negb (x =? 2 ^ 32 - 1) && (x <? pos) && (pos - x <=? SCL_LZ77_WINDOW_SIZE) && (0 <? (if level >? 1 then 64 else 8)) = false) as ->.
  { destruct (Z.ltb_spec x pos) as [Hlt|]; [|by rewrite andb_false_r]. specialize (Hstart Hlt). destruct (Z.leb_spec (pos - x) SCL_LZ77_WINDOW_SIZE); [lia|]. by rewrite andb_false_r. }
  wstep. wstep. eapply wp_chain_insert; [exact Ez|exact Ezp|exact Hf|exact Hp|exact Eh|exact Hh|exact Hlev|]. intros head prev T'. cbv beta iota. wstep. by apply HQ.
Qed.

Lemma tables_far pos head prev hb pb : level >? 0 = true -> head = Ptr hb -> prev = Ptr pb -> zlen hb = SCL_LZ77_HASH_SIZE -> zlen pb = len -> filled in_u32 hb SCL_LZ77_HASH_SIZE ->
  len < pos + 3 \/ pos = 0 -> 0 <= pos -> tables_ok pos head prev.
Proof.
  intros Hlev -> -> Ez Ezp Hf Hend Hp. unfold tables_ok. rewrite Hlev. exists hb, pb. do 5 (split; [done|]). intros h x Eh Ex Hlt. destruct Hend as [Hend| ->].
  - exfalso. unfold hash_at, lz77_hash in Eh. destruct (get data pos) eqn:E1; [|done|done]. destruct (get data (pos + 1)) eqn:E2; [|done|done]. destruct (get data (pos + 2)) eqn:E3; [|done|done].
    unfold get in E3. destruct (zlook data (pos + 2)) eqn:E; [|done]. apply zlook_Some in E. lia.
  - destruct (Hf h) as (y & Ey & Hy); [apply zlook_Some in Ex; lia|]. rewrite Ex in Ey. injection Ey as <-. unfold in_u32 in Hy. lia.
Qed.

Definition all_fields (final : bool) : list field := (b2z final, 1) :: (1, 2) :: lit_fields data ++ [end_field fixed_lits].

Lemma lits_next pos c : zlook data pos = Some c -> lit_fields (slice data 0 (pos + 1)) = lit_fields (slice data 0 pos) ++ [lit_field c].
Proof.
  intros Hc. pose proof (zlook_Some _ _ _ Hc). rewrite <- (slice_app data 0 pos (pos + 1)) by lia. rewrite (slice_cons data pos (pos + 1) c), (slice_nil data (pos + 1) (pos + 1)) by (lia || done).
  unfold lit_fields. by rewrite fmap_app.
Qed.

Lemma data_byte pos : 0 <= pos < len -> exists c, zlook data pos = Some c /\ 0 <= c < 256.
Proof.
  intros Hp. destruct (zlook_lt data pos Hp) as [c Hc]. exists c. split; [done|]. unfold is_bytes in Hdata. rewrite Forall_forall in Hdata. apply Hdata. unfold zlook in Hc.
  destruct (Z.leb_spec 0 pos); [|lia]. by apply list_elem_of_lookup_2 in Hc.
Qed.

Lemma lits_prefix_width pos c : zlook data pos = Some c -> width (lit_fields (slice data 0 pos)) + lit_len c <= width (lit_fields data).
Proof.
  intros Hc. pose proof (zlook_Some _ _ _ Hc). assert (lit_fields data = lit_fields (slice data 0 (pos + 1)) ++ lit_fields (slice data (pos + 1) len)) as ->.
  { unfold lit_fields. rewrite <- fmap_app. f_equal. rewrite slice_app by lia. symmetry. apply slice_all. }
  rewrite (lits_next pos c Hc), !width_app. cbn [width lit_field code_field snd]. pose proof (lit_fields_width (slice data (pos + 1) len)). pose proof (zlen_nonneg (slice data (pos + 1) len)). lia.
Qed.

(** Every round writes a literal. *)
Lemma wp_lz77_step bw head prev pos gs (Q : _ -> Prop) : writes bw (gs ++ lit_fields (slice data 0 pos)) -> 0 <= pos < len -> tables_ok pos head prev ->
  (forall bw' head' prev', writes bw' (gs ++ lit_fields (slice data 0 (pos + 1))) -> tables_ok (pos + 1) head' prev' -> Q (inl (bw', head', prev', pos + 1))) ->
  (forall bw' head' prev', tables_ok pos head' prev' -> 8 * cap < width gs + width (lit_fields data) -> zlen (bw_buf bw') = zlen buf0 -> Q (inr (SCL_ERR_SIZE_OVERFLOW, bw', head', prev'))) ->
  wp (lz77_step data len level (bw, head, prev, pos)) Q.
Proof.
  intros W Hp T HQ1 HQ2. destruct (data_byte pos Hp) as (c & Hc & Hc256). unfold PTRDIFF_MAX in *. unfold lz77_step. destruct (Z.ltb_spec pos len); [|lia]. cbv zeta. wstep. eapply wp_find_match; [exact Hp|exact T|].
  clear head prev T. intros head prev T. cbv beta iota. change (0 >=? SCL_LZ77_MIN_MATCH) with false. cbn [andb]. wstep. apply wp_get; [lia|]. intros c' Hc'. rewrite Hc in Hc'. injection Hc' as <-.
  wstep. eapply wp_emit_literal; [exact W|exact Hc256| |].
  - intros bw' W'. cbv beta iota. rewrite bool_decide_true by done. cbn [negb]. rewrite <- app_assoc, <- (lits_next pos c Hc) in W'. rewrite !u64_small by lia. wstep.
    destruct (level >? 0) eqn:Hlev; cbn [andb].
    + pose proof T as T'. unfold tables_ok in T'. rewrite Hlev in T'. destruct T' as (hb & pb & -> & -> & Ez & Ezp & Hf & _). destruct (Z.ltb_spec (pos + 1 + 2) len) as [Hmore|Hend].
      * destruct (hash_at_ok (pos + 1) ltac:(lia) ltac:(lia)) as (h & Eh & Hh). rewrite Eh. wstep. wstep. eapply wp_chain_insert; [exact Ez|exact Ezp|exact Hf|lia|exact Eh|exact Hh|exact Hlev|]. intros head prev T'. wstep. by apply HQ1.
      * wstep. wstep. apply HQ1; [exact W'|]. eapply tables_far; [exact Hlev|done|done|exact Ez|exact Ezp|exact Hf|lia|lia].
    + wstep. wstep. apply HQ1; [exact W'|]. unfold tables_ok in *. rewrite Hlev in *. done.
  - intros bw' Hfull Hz. cbv beta iota. rewrite bool_decide_false by done. cbn [negb]. wstep. apply HQ2; [exact T| |exact Hz]. rewrite width_app in Hfull. pose proof (lits_prefix_width pos c Hc). lia.
Qed.

Lemma wp_lz77_loop bw head prev gs (Q : scl_error_t * bit_writer * ptr Z * ptr Z -> Prop) : writes bw gs -> tables_ok 0 head prev ->
  (forall bw' head' prev' pos, writes bw' (gs ++ lit_fields data) -> tables_ok pos head' prev' -> Q (SCL_OK, bw', head', prev')) ->
  (forall bw' head' prev' pos, tables_ok pos head' prev' -> 8 * cap < width gs + width (lit_fields data) -> zlen (bw_buf bw') = zlen buf0 -> Q (SCL_ERR_SIZE_OVERFLOW, bw', head', prev')) ->
  wp (loop (S (Z.to_nat len)) (lz77_step data len level) (bw, head, prev, 0)) Q.
Proof.
  intros W T HQ1 HQ2. pose proof (zlen_nonneg data).
  apply (wp_loop_rel (fun f '(bw, head, prev, pos) => writes bw (gs ++ lit_fields (slice data 0 pos)) /\ 0 <= pos <= len /\ tables_ok pos head prev /\ f = len - pos) len);
    [split; [rewrite slice_nil by lia; cbn [lit_fields fmap list_fmap]; by rewrite app_nil_r|split; [lia|split; [done|lia]]]|lia|lia|].
  clear bw head prev W T. intros f [[[bw head] prev] pos] (W & Hp & T & ->). destruct (Z.lt_ge_cases pos len) as [Hlt|Hge].
  - eapply wp_lz77_step; [exact W|lia|exact T| |].
    + intros bw' head' prev' W' T'. cbv beta iota. exists (len - (pos + 1)). split; [lia|]. split; [exact W'|]. split; [lia|]. split; [exact T'|done].
    + intros bw' head' prev' T' Hfull Hz. cbv beta iota. by eapply HQ2.
  - unfold lz77_step. destruct (Z.ltb_spec pos len); [lia|]. wstep. replace pos with len in W by lia. rewrite slice_all in W. by eapply HQ1.
Qed.

(** The tables are freed. *)
Lemma wp_free_tables {R} w pos head prev (k : world -> res R) (Q : R -> Prop) : tables_ok pos head prev ->
  (forall w', w_live w' = w_live w - (if level >? 0 then 2 else 0) -> wp (k w') Q) -> wp (w ← free_ptr w head; w ← free_ptr w prev; k w) Q.
Proof.
  intros T HQ. unfold tables_ok in T. destruct (level >? 0).
  - destruct T as (hb & pb & -> & -> & _). wstep. apply wp_ret. wstep. apply wp_ret. apply HQ. cbn [scl_free w_live]. lia.
  - destruct T as [-> ->]. wstep. apply wp_ret. wstep. apply wp_ret. apply HQ. cbn [scl_free w_live]. lia.
Qed.

Lemma wp_finish bw fs (Q : scl_error_t * bit_writer -> Prop) : writes bw fs -> (forall bw', writes bw' (fs ++ [end_field fixed_lits]) -> Q (SCL_OK, bw')) ->
  (forall bw', 8 * cap < width fs + 7 -> zlen (bw_buf bw') = zlen buf0 -> Q (SCL_ERR_SIZE_OVERFLOW, bw')) -> wp (finish bw) Q.
Proof.
  intros W HQ1 HQ2. unfold finish. eapply wp_emit; [exact W|lia|lia| |exact HQ2]. intros bw' W'. apply HQ1. replace (end_field fixed_lits) with (0, 7); [done|by vm_compute].
Qed.

Lemma wp_do_literals w bw gs (Q : scl_error_t * bit_writer * world -> Prop) : writes bw gs ->
  (forall bw', writes bw' (gs ++ lit_fields data ++ [end_field fixed_lits]) -> Q (SCL_OK, bw', w)) ->
  (forall bw', 8 * cap < width gs + width (lit_fields data) + 7 -> zlen (bw_buf bw') = zlen buf0 -> Q (SCL_ERR_SIZE_OVERFLOW, bw', w)) ->
  wp (do_literals data len w Null Null bw) Q.
Proof.
  intros W HQ1 HQ2. pose proof (zlen_nonneg data). unfold do_literals. wstep. apply wp_ret. wstep. apply wp_ret. wstep. cbn [scl_free].
  apply (wp_zfor_ret (fun i bw => writes bw (gs ++ lit_fields (slice data 0 i)))).
  - rewrite slice_nil by lia. cbn [lit_fields fmap list_fmap]. by rewrite app_nil_r.
  - intros i b Hi W'. destruct (data_byte i Hi) as (c & Hc & Hc256). wstep. apply wp_get; [lia|]. intros c' Hc'. rewrite Hc in Hc'. injection Hc' as <-. wstep. eapply wp_emit_literal; [exact W'|exact Hc256| |].
    + intros b' W2. cbv beta iota. rewrite bool_decide_true by done. cbn [negb]. wstep. rewrite <- app_assoc, <- (lits_next i c Hc) in W2. exact W2.
    + intros b' Hfull Hz. cbv beta iota. rewrite bool_decide_false by done. cbn [negb]. wstep. wstep. apply HQ2; [|exact Hz]. rewrite width_app in Hfull. pose proof (lits_prefix_width i c Hc). lia.
  - intros b W'. rewrite Z.max_r, slice_all in W' by lia. wstep. eapply wp_finish; [exact W'| |].
    + intros b' W2. cbv beta iota. wstep. apply HQ1. by rewrite app_assoc.
    + intros b' Hfull Hz. cbv beta iota. wstep. apply HQ2; [|exact Hz]. rewrite width_app in Hfull. lia.
Qed.

Lemma all_fields_width final : width (all_fields final) = 3 + width (lit_fields data) + 7.
Proof. unfold all_fields. cbn [width snd]. rewrite width_app. change (width [end_field fixed_lits]) with 7. lia. Qed.

(** Both tables are obtained, or neither is. *)
Definition callocs_agree (w : world) : Prop :=
  0 < level -> 0 < len -> calloc_fn al (w_reqs w) SCL_LZ77_HASH_SIZE 4 MAX_ALIGN = calloc_fn al (S (w_reqs w)) len 4 MAX_ALIGN.

Lemma wp_compress_fixed w bw gs final (Q : scl_error_t * bit_writer * world -> Prop) : writes bw gs -> level <> 0 -> callocs_agree w ->
  (forall bw' w', writes bw' (gs ++ all_fields final) -> w_live w' = w_live w -> Q (SCL_OK, bw', w')) ->
  (forall bw' w', 8 * cap < width gs + width (all_fields final) -> zlen (bw_buf bw') = zlen buf0 -> w_live w' = w_live w -> Q (SCL_ERR_SIZE_OVERFLOW, bw', w')) ->
  wp (deflate_compress_fixed al data len level w bw final) Q.
Proof.
  intros W Hlev Hagree HQ1 HQ2. pose proof (zlen_nonneg data). pose proof (lit_fields_width data). unfold deflate_compress_fixed. rewrite all_fields_width in HQ2.
  change (if final then 1 else 0) with (b2z final). wstep. eapply wp_emit; [exact W|lia|destruct final; cbn; lia| |].
  2: { intros b1 Hfull Hz. cbv beta iota. rewrite bool_decide_false by done. cbn [negb]. wstep. apply HQ2; [lia|exact Hz|done]. }
  intros b1 W1. cbv beta iota. rewrite bool_decide_true by done. cbn [negb]. wstep. eapply wp_emit; [exact W1|lia|lia| |].
  2: { intros b2 Hfull Hz. cbv beta iota. rewrite bool_decide_false by done. cbn [negb]. wstep. rewrite width_app in Hfull. cbn [width snd] in Hfull. apply HQ2; [lia|exact Hz|done]. }
  intros b2 W2. cbv beta iota. rewrite bool_decide_true by done. cbn [negb]. rewrite <- app_assoc in W2. cbn [app] in W2. destruct (Z.eqb_spec level 0); [done|]. rewrite orb_false_r.
  assert (forall b w', writes b ((gs ++ [(b2z final, 1); (1, 2)]) ++ lit_fields data ++ [end_field fixed_lits]) -> w_live w' = w_live w -> Q (SCL_OK, b, w')) as Hdone.
  { intros b w' Wb Hw. apply HQ1; [|done]. by rewrite <- app_assoc in Wb. }
  assert (width (gs ++ [(b2z final, 1); (1, 2)]) = width gs + 3) as Ew by (rewrite width_app; cbn [width snd]; lia).
  assert (forall b, writes b ((gs ++ [(b2z final, 1); (1, 2)]) ++ lit_fields data) -> forall w', w_live w' = w_live w -> wp ('(e, bw) ← finish b; mret (e, bw, w')) Q) as Hfin.
  { intros b Wb w' Hw. wstep. eapply wp_finish; [exact Wb| |].
    - intros b' Wb'. cbv beta iota. wstep. apply Hdone; [by rewrite app_assoc|done].
    - intros b' Hfull Hz. cbv beta iota. wstep. rewrite width_app, Ew in Hfull. apply HQ2; [lia|exact Hz|done]. }
  destruct (Z.eqb_spec len 0) as [Hz0|Hnz].
  { assert (data = []) as Hnil by (destruct data as [|x l]; [done|rewrite zlen_cons in Hz0; pose proof (zlen_nonneg l); lia]). apply Hfin; [|done]. rewrite Hnil. cbn [lit_fields fmap list_fmap]. by rewrite app_nil_r. }
  assert (forall b head prev w', writes b (gs ++ [(b2z final, 1); (1, 2)]) -> tables_ok 0 head prev -> w_live w' = w_live w + (if level >? 0 then 2 else 0) ->
    wp ('(e, bw, head, prev) ← loop (S (Z.to_nat len)) (lz77_step data len level) (b, head, prev, 0); w ← free_ptr w' head; w ← free_ptr w prev;
        if negb (bool_decide (e = SCL_OK)) then mret (e, bw, w) else '(e, bw) ← finish bw; mret (e, bw, w)) Q) as Hloop.
  { intros b head prev w' Wb T Hw. wstep. eapply wp_lz77_loop; [exact Wb|exact T| |].
    - intros b3 head' prev' pos W3 T3. cbv beta iota. apply wp_free_tables with (pos := pos); [exact T3|]. intros w3 Hw3. rewrite bool_decide_true by done. cbn [negb]. apply Hfin; [exact W3|lia].
    - intros b3 head' prev' pos T3 Hfull Hz. cbv beta iota. apply wp_free_tables with (pos := pos); [exact T3|]. intros w3 Hw3. rewrite bool_decide_false by done. cbn [negb]. wstep.
      rewrite Ew in Hfull. apply HQ2; [lia|exact Hz|lia]. }
  destruct (level >? 0) eqn:Hl.
  - rewrite Z.gtb_ltb, Z.ltb_lt in Hl. specialize (Hagree Hl ltac:(lia)). unfold scl_calloc. destruct (calloc_fn al (w_reqs w) SCL_LZ77_HASH_SIZE 4 MAX_ALIGN); cbn [w_reqs w_live]; rewrite <- Hagree.
    + rewrite !bool_decide_true by done. cbn [negb andb to_ptr]. apply Hloop; [exact W2| |cbn [w_live]; lia].
      eapply (tables_far 0); [by rewrite Z.gtb_ltb, Z.ltb_lt|done|done|by rewrite zlen_replicate|rewrite zlen_replicate; lia| |by right|lia].
      intros i Hi. exists 0. split; [|split; lia]. rewrite zlook_replicate. destruct (Z.leb_spec 0 i), (Z.ltb_spec i (Z.of_nat (Z.to_nat SCL_LZ77_HASH_SIZE))); try done; try lia.
    + rewrite bool_decide_false by (by intros []). cbn [negb andb to_ptr dangling]. wstep. apply wp_ret. wstep. apply wp_ret. cbn [scl_free]. eapply wp_do_literals; [exact W2| |].
      * intros b Wb. by apply Hdone.
      * intros b Hfull Hz. rewrite Ew in Hfull. apply HQ2; [lia|exact Hz|done].
  - cbn [andb to_ptr]. apply Hloop; [exact W2| |lia]. unfold tables_ok. by rewrite Hl.
Qed.
End Compressing.

(** ** Stored blocks *)
Section Stored.
Context (data : list Z) (Hdata : is_bytes data) (Hlen : zlen data <= PTRDIFF_MAX).
Context (buf0 : block Z) (base cap : Z).
Notation len := (zlen data).
Notation writes := (writes buf0 base cap).

Lemma flush_aligned bw : bw_nbits bw = 0 -> bit_writer_flush bw = Ok (true, bw).
Proof. intros E. unfold bit_writer_flush. by rewrite E. Qed.

Lemma len_bytes n : 0 <= n <= 65535 ->
  Z.land (u16 n) 0xFF = n mod 256 /\ Z.land (Z.shiftr (u16 n) 8) 0xFF = n / 256 /\ Z.land (u16 (Z.lnot (u16 n))) 0xFF = 255 - n mod 256 /\ Z.land (Z.shiftr (u16 (Z.lnot (u16 n))) 8) 0xFF = 255 - n / 256.
Proof.
  intros Hn. unfold u16. rewrite (Z.mod_small n) by lia. replace (Z.lnot n mod 2 ^ 16) with (65535 - n) by (unfold Z.lnot; rewrite <- Z.sub_1_r; apply Z.mod_unique with (-1); lia).
  change 0xFF with (Z.ones 8). rewrite !Z.land_ones, !Z.shiftr_div_pow2 by lia. change (Z.ones 8) with 255. change (2 ^ 8) with 256.
  assert (0 <= n / 256 < 256 /\ 0 <= n mod 256 < 256 /\ n = 256 * (n / 256) + n mod 256) as (Hq & Hm & En) by zdiv.
  assert ((65535 - n) / 256 = 255 - n / 256) as E1 by (symmetry; apply Z.div_unique with (255 - n mod 256); lia).
  rewrite E1, (Z.mod_small (n / 256)), (Z.mod_small (255 - n / 256)) by lia. split; [done|]. split; [done|]. split; [|done]. symmetry. apply Z.mod_unique with (255 - n / 256); lia.
Qed.

(** What one round writes. *)
Definition stored_block (final : bool) (c off n : Z) : list field :=
  (b2z (final && (off + n =? len)), 1) :: (0, 2) :: stored_fields (0, (- (c + 3)) mod 8) (slice data off (off + n)).

Definition stored_size (r : Z) : Z := 40 * (r / 65535 + 1) + 8 * r.

Lemma wp_write_stored bw gs (Q : scl_error_t * bit_writer -> Prop) : writes bw gs -> bw_nbits bw = 0 -> width gs + stored_size len <= 8 * cap ->
  (forall bw' fs, writes bw' (gs ++ fs) -> bw_nbits bw' = 0 -> width fs <= stored_size len -> (forall d, stream_says (width gs) d (d ++ data) fs) -> Q (SCL_OK, bw')) ->
  wp (deflate_write_stored bw data len true) Q.
Proof.
  intros W Hn Hroom HQ. pose proof (zlen_nonneg data). unfold deflate_write_stored, PTRDIFF_MAX in *.
  apply (wp_loop_rel (fun f '(bw, off) => 0 <= off <= len /\ f = (len - off) / 65535 /\ bw_nbits bw = 0 /\ (off < len \/ len = 0) /\ exists fs, writes bw (gs ++ fs) /\
     width fs + stored_size (len - off) <= stored_size len /\ Forall field_ok fs /\
     forall d fss, stream_says (width gs + width fs) (d ++ slice data 0 off) (d ++ data) fss -> stream_says (width gs) d (d ++ data) (fs ++ fss)) (len / 65535)).
  - split; [lia|]. split; [f_equal; lia|]. split; [done|]. split; [lia|]. exists []. rewrite app_nil_r. split; [done|]. split; [cbn [width]; rewrite Z.sub_0_r; lia|]. split; [constructor|].
    intros d fss. cbn [width app]. rewrite Z.add_0_r, slice_nil, app_nil_r by lia. done.
  - assert (0 <= len / 65535) by zdiv. lia.
  - lia.
  - clear bw W Hn. intros f [bw off] (Hoff & -> & Hn & Hmore & fs & W & Hw & Hfs & Hs). set (c := width gs + width fs) in *.
    assert (width (gs ++ fs) = c) as Ec by (apply width_app). pose proof (wt_width _ _ _ _ _ _ W) as Hwid. rewrite Ec, Hn in Hwid. pose proof (wt_room _ _ _ _ _ _ W) as Hr. unfold PTRDIFF_MAX in Hr.
    rewrite (u64_small (len - off)), Z.gtb_ltb by lia. set (n := if 65535 <? len - off then 65535 else len - off). assert (0 <= n <= 65535 /\ off + n <= len) as [Hn1 Hn2] by (unfold n; destruct (Z.ltb_spec 65535 (len - off)); lia).
    assert (width fs + 40 + 8 * n <= stored_size len) as Hsize.
    { unfold stored_size in *. unfold n in *. destruct (Z.ltb_spec 65535 (len - off)); zdiv. }
    rewrite (u64_small (off + n)) by lia. cbn [andb]. cbv zeta. rewrite (flush_aligned bw Hn). wstep. wstep. wstep.
    eapply wp_write; [exact W|lia|destruct (off + n =? len); lia| |].
    2: { intros b1 Hfull _. rewrite Ec in Hfull. lia. }
    intros b1 W1. cbv beta iota. cbn [negb]. wstep. eapply wp_write; [exact W1|lia|lia| |].
    2: { intros b2 Hfull _. rewrite width_app, Ec in Hfull. cbn [width snd] in Hfull. lia. }
    intros b2 W2. cbv beta iota. cbn [negb]. wstep. eapply wp_flush; [exact W2| |].
    2: { intros Hend Hm. pose proof (wt_width _ _ _ _ _ _ W2) as Hw2. rewrite width_app, width_app, Ec in Hw2. cbn [width snd] in Hw2. pose proof (wt_low _ _ _ _ _ _ W2). lia. }
    intros b3 pad W3 Hn3 Ep. cbv beta iota. rewrite width_app, width_app, Ec in Ep. cbn [width snd] in Ep. replace (c + (1 + 0) + (2 + 0)) with (c + 3) in Ep by lia.
    assert (pad = 5) as Hpad by (rewrite Ep, Hwid; zdiv). pose proof (wt_width _ _ _ _ _ _ W3) as Hw3. rewrite width_app, width_app, width_app, Ec, Hn3 in Hw3. cbn [width snd] in Hw3.
    pose proof (wt_cap _ _ _ _ _ _ W3) as Ecap3. rewrite Z.gtb_ltb, u64_small, Ecap3 by lia. destruct (Z.ltb_spec cap (bw_pos b3 + 4)); [lia|].
    destruct (len_bytes n Hn1) as (E0 & E1 & E2 & E3). rewrite E0, E1, E2, E3. pose proof (bytes_of_len n Hn1) as Hb4. inversion_clear Hb4 as [|? ? B0 Hb3]. inversion_clear Hb3 as [|? ? B1 Hb2]. inversion_clear Hb2 as [|? ? B2 Hb1]. inversion_clear Hb1 as [|? ? B3 _].
    wstep. eapply wp_put_byte; [exact W3|exact Hn3|lia|exact B0|]. intros b4 W4 Hn4 Hp4. wstep. eapply wp_put_byte; [exact W4|exact Hn4|lia|exact B1|]. intros b5 W5 Hn5 Hp5.
    wstep. eapply wp_put_byte; [exact W5|exact Hn5|lia|exact B2|]. intros b6 W6 Hn6 Hp6. wstep. eapply wp_put_byte; [exact W6|exact Hn6|lia|exact B3|]. intros b7 W7 Hn7 Hp7.
    pose proof (wt_cap _ _ _ _ _ _ W7) as Ecap7. cbv beta. rewrite Z.gtb_ltb, u64_small, Ecap7 by lia. destruct (Z.ltb_spec cap (bw_pos b7 + n)); [lia|].
    wstep. eapply wp_put_bytes; [exact W7|exact Hn7|lia|exact Hdata|lia|lia|lia|]. intros buf W8. rewrite Ecap7 in W8.
    set (bw8 := Writer _ _ _ _ _ _). fold bw8 in W8. assert (bw_nbits bw8 = 0) as Hn8 by exact Hn7.
    pose (blk := stored_block true c off n). assert (writes bw8 (gs ++ fs ++ blk)) as W9.
    { unfold blk, stored_block, stored_fields. rewrite zlen_slice by lia. replace (off + n - off) with n by lia. cbn [andb]. rewrite <- Ep. rewrite <- !app_assoc in W8. cbn [app] in W8. exact W8. }
    assert (zlen (slice data off (off + n)) = n) as Ezs by (rewrite zlen_slice; lia). assert (is_bytes (slice data off (off + n))) as Hsb by (unfold slice; by apply Forall_take, Forall_drop).
    assert (field_ok (0, (- (c + 3)) mod 8)) as Hpf by (rewrite <- Ep, Hpad; split; cbn; lia).
    assert (width blk = 40 + 8 * n) as Ewb by (unfold blk, stored_block; cbn [width snd]; rewrite stored_width, Ezs; cbn [snd]; rewrite <- Ep; lia).
    assert (forall d, block_says (off + n =? len) c d (d ++ slice data off (off + n)) blk) as Hblk.
    { intros d. unfold blk, stored_block. cbn [andb]. apply says_stored; [exact Hpf|done|exact Hsb|lia]. }
    assert (forall d, (d ++ slice data 0 off) ++ slice data off (off + n) = d ++ slice data 0 (off + n)) as Esl by (intros d; by rewrite <- app_assoc, slice_app by lia).
    destruct (Z.ltb_spec (off + n) len) as [Hlt|Hge]; wstep.
    + assert (n = 65535) as En by (unfold n in *; destruct (Z.ltb_spec 65535 (len - off)); lia). destruct (Z.eqb_spec (off + n) len); [lia|].
      exists ((len - (off + n)) / 65535). split; [rewrite En; zdiv|]. split; [lia|]. split; [done|]. split; [exact Hn8|]. split; [lia|]. exists (fs ++ blk). split; [exact W9|]. split; [|split].
      * rewrite width_app, Ewb. unfold stored_size in *. rewrite En. zdiv.
      * apply Forall_app. split; [done|]. pose proof (proj1 (block_width false c [] _ blk (Hblk []))) as F. exact F.
      * intros d fss Hrest. rewrite <- app_assoc. apply Hs. eapply says_more; [apply Hblk|]. rewrite Esl. rewrite width_app, Z.add_assoc in Hrest. exact Hrest.
    + eapply (HQ bw8 (fs ++ blk)); [exact W9|exact Hn8|rewrite width_app, Ewb; lia|]. intros d. apply Hs. apply says_last. assert (off + n = len) as El by lia. specialize (Hblk (d ++ slice data 0 off)).
      rewrite El, Z.eqb_refl in Hblk. rewrite <- El in Hblk at 1. rewrite Esl, El, slice_all in Hblk. exact Hblk.
Qed.
End Stored.

(** ** Matches

    The codes of lengths and distances agree with the tables of the decoder. *)
Lemma length_code_ok n : 3 <= n <= 258 -> exists lb le, 257 <= length_code n <= 285 /\ zlook scl_len_base (length_code n - 257) = Some lb /\ zlook scl_len_extra (length_code n - 257) = Some le /\
  0 <= n - lb < 2 ^ le /\ 0 <= lb.
Proof.
  intros Hn. assert (forallb (fun k => let n := Z.of_nat k in let c := length_code n in
    match zlook scl_len_base (c - 257), zlook scl_len_extra (c - 257) with Some lb, Some le => (257 <=? c) && (c <=? 285) && (0 <=? n - lb) && (n - lb <? 2 ^ le) && (0 <=? lb) | _, _ => false end) (seq 3 256) = true) as H by (vm_compute; reflexivity).
  rewrite forallb_forall in H. specialize (H (Z.to_nat n) ltac:(apply in_seq; lia)). cbv zeta in H. rewrite Z2Nat.id in H by lia.
  destruct (zlook scl_len_base (length_code n - 257)) as [lb|]; [|done]. destruct (zlook scl_len_extra (length_code n - 257)) as [le|]; [|done]. exists lb, le. rewrite !andb_true_iff, !Z.leb_le, !Z.ltb_lt in H. split; [lia|]. do 2 (split; [done|]). lia.
Qed.

(** A distance above 4, less one, has its leading bit at [L]; the next bit is the
    last of the code. *)
Lemma distance_code_at d L : 2 <= L < 15 -> 2 ^ L <= d - 1 < 2 ^ (L + 1) -> distance_code d = Ok (2 * L + ((d - 1) / 2 ^ (L - 1)) mod 2).
Proof.
  intros HL Hd. assert (2 ^ 2 <= 2 ^ L) as H4 by (apply Z.pow_le_mono_r; lia). unfold distance_code. destruct (Z.ltb_spec d 1), (Z.leb_spec d 4); try lia. cbv zeta.
  assert (scl_log2_u32 (d - 1) = L) as ->.
  { unfold scl_log2_u32, builtin_clz. rewrite Z.log2_lor by lia. change (Z.log2 1) with 0. rewrite (Z.log2_unique (d - 1) L) by lia. rewrite Z.max_l by lia.
    replace (31 - (32 - 1 - L)) with L by lia. apply Z.mod_small. lia. }
  unfold shr32. destruct (Z.leb_spec 0 (L - 1)), (Z.ltb_spec (L - 1) 32); try lia. cbn [andb]. rewrite bind_Ok.
  assert (forall x, Z.land x 1 = x mod 2) as Hland by (intros x; by apply (Z.land_ones x 1)). rewrite Hland, Z.shiftr_div_pow2, Z.shiftl_mul_pow2 by lia.
  change (2 ^ 1) with 2. pose proof (Z.mod_pos_bound ((d - 1) / 2 ^ (L - 1)) 2 ltac:(lia)). unfold u32. rewrite (Z.mod_small (L * 2)), Z.mod_small by lia. do 2 f_equal. lia.
Qed.

Lemma distance_code_ok d : 1 <= d <= SCL_LZ77_WINDOW_SIZE -> exists dc db de, distance_code d = Ok dc /\ 0 <= dc < 30 /\ zlook scl_dist_base dc = Some db /\ zlook scl_dist_extra dc = Some de /\
  0 <= d - db < 2 ^ de /\ 0 <= db.
Proof.
  unfold SCL_LZ77_WINDOW_SIZE. intros Hd. destruct (Z.le_gt_cases d 4).
  { assert (d = 1 \/ d = 2 \/ d = 3 \/ d = 4) as [->|[->|[->| ->]]] by lia; eexists _, _, _; repeat (split; [vm_compute; first [reflexivity | split; congruence]|]); vm_compute; first [split; congruence | congruence]. }
  pose proof (Z.log2_spec (d - 1) ltac:(lia)) as Hl. set (L := Z.log2 (d - 1)) in *. unfold Z.succ in Hl.
  assert (2 <= L) as H2 by (apply Z.log2_le_pow2; lia). assert (L < 15) as H15 by (apply Z.log2_lt_pow2; lia).
  rewrite (distance_code_at d L) by lia.
  assert (exists L' b, L = L' /\ (b = 0 \/ b = 1) /\ ((d - 1) / 2 ^ (L - 1)) mod 2 = b /\ (2 + b) * 2 ^ (L - 1) <= d - 1 < (3 + b) * 2 ^ (L - 1)) as (L' & b & EL & Hb & -> & Hr).
  { exists L. assert (2 ^ (L + 1) = 4 * 2 ^ (L - 1) /\ 2 ^ L = 2 * 2 ^ (L - 1)) as [E1 E2].
    { replace (L + 1) with (L - 1 + 2) by lia. replace L with (L - 1 + 1) at 3 by lia. rewrite !Z.pow_add_r by lia. change (2 ^ 2) with 4. change (2 ^ 1) with 2. lia. }
    pose proof (Z.pow_pos_nonneg 2 (L - 1) ltac:(lia) ltac:(lia)) as Hp. set (p := 2 ^ (L - 1)) in *.
    destruct (Z.lt_ge_cases (d - 1) (3 * p)).
    - exists 0. rewrite <- (Z.div_unique (d - 1) p 2 (d - 1 - p * 2)) by lia. split_and!; [done|by left|done|lia|lia].
    - exists 1. rewrite <- (Z.div_unique (d - 1) p 3 (d - 1 - p * 3)) by lia. split_and!; [done|by right|done|lia|lia]. }
  clearbody L. subst L'. exists (2 * L + b).
  assert (L = 2 \/ L = 3 \/ L = 4 \/ L = 5 \/ L = 6 \/ L = 7 \/ L = 8 \/ L = 9 \/ L = 10 \/ L = 11 \/ L = 12 \/ L = 13 \/ L = 14) as HL by lia. clear Hl H2 H15.
  repeat destruct HL as [->|HL]; try subst L; destruct Hb as [-> | ->]; (eexists _, _; split; [done|]; split; [lia|]; split; [vm_compute; reflexivity|]; split; [vm_compute; reflexivity|]; split; lia).
Qed.

Lemma fixed_length_code s : 257 <= s <= 285 -> exists l, zlook fixed_lits s = Some l /\ l = (if s <=? 279 then 7 else 8) /\ canon fixed_lits l s = (if s <=? 279 then s - 256 else 192 + (s - 280)).
Proof.
  intros Hs. assert (forallb (fun k => let s := Z.of_nat k in let l := if s <=? 279 then 7 else 8 in
    bool_decide (zlook fixed_lits s = Some l) && (canon fixed_lits l s =? (if s <=? 279 then s - 256 else 192 + (s - 280)))) (seq 257 29) = true) as H by (vm_compute; reflexivity).
  rewrite forallb_forall in H. specialize (H (Z.to_nat s) ltac:(apply in_seq; lia)). cbv zeta in H. rewrite Z2Nat.id in H by lia. apply andb_true_iff in H as [H1 H2]. apply bool_decide_eq_true in H1. apply Z.eqb_eq in H2. eauto.
Qed.

Lemma fixed_distance_code s : 0 <= s < 30 -> zlook fixed_dists s = Some 5 /\ canon fixed_dists 5 s = s.
Proof.
  intros Hs. assert (forallb (fun k => let s := Z.of_nat k in bool_decide (zlook fixed_dists s = Some 5) && (canon fixed_dists 5 s =? s)) (seq 0 30) = true) as H by (vm_compute; reflexivity).
  rewrite forallb_forall in H. specialize (H (Z.to_nat s) ltac:(apply in_seq; lia)). cbv zeta in H. rewrite Z2Nat.id in H by lia. apply andb_true_iff in H as [H1 H2]. apply bool_decide_eq_true in H1. by apply Z.eqb_eq in H2.
Qed.

Section Matches.
Context (buf0 : block Z) (base cap : Z).
Notation writes := (writes buf0 base cap).

Lemma wp_emit_opt bw fs v n (Q : scl_error_t * bit_writer -> Prop) : writes bw fs -> 0 <= n <= 16 -> 0 <= v < 2 ^ n ->
  (forall bw', writes bw' (fs ++ opt_field v n) -> Q (SCL_OK, bw')) ->
  (forall bw', 8 * cap < width fs + n -> Q (SCL_ERR_SIZE_OVERFLOW, bw')) -> wp (if n >? 0 then emit bw v n else mret (SCL_OK, bw)) Q.
Proof.
  intros W Hn Hv HQ1 HQ2. unfold opt_field in HQ1. rewrite Z.gtb_ltb. destruct (Z.ltb_spec 0 n).
  - eapply wp_emit; [exact W|done|done|exact HQ1|intros bw' Hf _; by apply HQ2].
  - wstep. apply HQ1. by rewrite app_nil_r.
Qed.

Lemma wp_emit_match bw fs n d (Q : scl_error_t * bit_writer -> Prop) : writes bw fs -> 3 <= n <= 258 -> 1 <= d <= SCL_LZ77_WINDOW_SIZE ->
  (forall bw' gs, writes bw' (fs ++ gs) -> codes fixed_lits fixed_dists (Match n d) gs -> width gs <= 31 -> Q (SCL_OK, bw')) ->
  (forall bw', 8 * cap < width fs + 31 -> Q (SCL_ERR_SIZE_OVERFLOW, bw')) -> wp (emit_match bw n d) Q.
Proof.
  intros W Hn Hd HQ1 HQ2. destruct (length_code_ok n Hn) as (lb & le & Hlc & Elb & Ele & Hx & Hlb). destruct (distance_code_ok d Hd) as (dc & db & de & Edc & Hdc & Edb & Ede & Hy & Hdb).
  destruct (fixed_length_code _ Hlc) as (l & El & Hl & Ec). destruct (fixed_distance_code dc Hdc) as [Ed Ecd]. destruct (len_tables (length_code n - 257) ltac:(lia)) as (? & ? & E1 & E2 & _ & Hle). rewrite Ele in E2. injection E2 as <-.
  destruct (dist_tables dc Hdc) as (? & ? & E3 & E4 & _ & Hde). rewrite Ede in E4. injection E4 as <-. unfold SCL_LZ77_WINDOW_SIZE in Hd.
  assert (codes fixed_lits fixed_dists (Match n d) (code_field fixed_lits l (length_code n) :: opt_field (n - lb) le ++ code_field fixed_dists 5 dc :: opt_field (d - db) de)) as C.
  { replace n with (lb + (n - lb)) at 1 by lia. replace d with (db + (d - db)) at 1 by lia. eapply codes_match; first [eassumption | lia | idtac]. rewrite Hl. destruct (_ <=? _); lia. }
  unfold emit_match. cbv zeta. wstep. apply wp_get; [change (zlen scl_len_base) with 31; lia|]. intros ? F. rewrite Elb in F. injection F as <-. wstep. apply wp_get; [change (zlen scl_len_extra) with 31; lia|]. intros ? F. rewrite Ele in F. injection F as <-.
  rewrite Edc. wstep. wstep. wstep. apply wp_get; [change (zlen scl_dist_base) with 30; lia|]. intros ? F. rewrite Edb in F. injection F as <-. wstep. apply wp_get; [change (zlen scl_dist_extra) with 30; lia|]. intros ? F. rewrite Ede in F. injection F as <-.
  rewrite (eq_refl : u32 (n - lb) = (n - lb) mod 2 ^ 32), (eq_refl : u32 (d - db) = (d - db) mod 2 ^ 32), !Z.mod_small by lia. unfold emit_match_fixed. wstep.
  assert (0 <= l <= 8) as Hl8 by (rewrite Hl; destruct (_ <=? _); lia).
  assert (forall b (R : scl_error_t * bit_writer -> Prop), writes b fs -> (forall b', writes b' (fs ++ [code_field fixed_lits l (length_code n)]) -> R (SCL_OK, b')) -> (forall b', 8 * cap < width fs + 31 -> R (SCL_ERR_SIZE_OVERFLOW, b')) ->
    wp (if length_code n <=? 279 then rev ← reverse_bits (u32 (length_code n - 256)) 7; emit b rev 7 else rev ← reverse_bits (u32 (192 + (length_code n - 280))) 8; emit b rev 8) R) as Hlen.
  { intros b R Wb HR1 HR2. unfold code_field in HR1. rewrite Ec in HR1. unfold u32. destruct (Z.leb_spec (length_code n) 279); subst l; rewrite Z.mod_small by lia; rewrite reverse_bits_spec by lia; wstep; wstep.
    - eapply wp_emit; [exact Wb|lia|apply (rev_range 7)|exact HR1|intros b' Hf _; apply HR2; lia].
    - eapply wp_emit; [exact Wb|lia|apply (rev_range 8)|exact HR1|intros b' Hf _; apply HR2; lia]. }
  apply Hlen; [exact W| |intros b Hf; cbv beta iota; rewrite bool_decide_false by done; cbn [negb]; wstep; by apply HQ2]. intros b1 W1. cbv beta iota. rewrite bool_decide_true by done. cbn [negb].
  wstep. eapply wp_emit_opt; [exact W1|lia|exact Hx| |intros b Hf; cbv beta iota; rewrite bool_decide_false by done; cbn [negb]; wstep; apply HQ2; rewrite width_app in Hf; cbn [width code_field snd] in Hf; lia].
  intros b2 W2. cbv beta iota. rewrite bool_decide_true by done. cbn [negb]. rewrite reverse_bits_spec by lia. wstep. wstep. wstep.
  eapply wp_emit; [exact W2|lia|apply (rev_range 5)| |intros b Hf _; cbv beta iota; rewrite bool_decide_false by done; cbn [negb]; wstep; apply HQ2; rewrite !width_app in Hf; cbn [width code_field snd] in Hf; rewrite opt_field_width in Hf; lia].
  intros b3 W3. cbv beta iota. rewrite bool_decide_true by done. cbn [negb].
  eapply wp_emit_opt; [exact W3|lia|exact Hy| |intros b Hf; apply HQ2; rewrite !width_app in Hf; cbn [width code_field snd] in Hf; rewrite opt_field_width in Hf; lia].
  intros b4 W4. eapply HQ1; [|exact C|].
  - unfold code_field at 2. rewrite Ecd. change (Z.to_nat 5) with 5%nat in *. rewrite <- !app_assoc in W4. exact W4.
  - cbn [width]. rewrite width_app. cbn [width code_field snd]. rewrite !opt_field_width by lia. lia.
Qed.
End Matches.

(** ** What the compressor does *)

(** What the code does, where its comments promise matches: the compressor
    writes literals and nothing else: [deflate_compress_fixed],
    at every level but 0, for any data and any allocator whose two answers agree,
    writes the fields of one block that says the data literally, whatever repeats in
    it, frees its tables, and stays inside its objects; it refuses only when the
    block does not fit the buffer.  The match finder never finds a match, because
    each position is stored before it is searched. *)
Theorem compress_writes_literals (al : scl_allocator_t) (w : world) (data : list Z) (level : Z) (final : bool) (buf0 : block Z) (base cap : Z) (bw : bit_writer) (gs : list field)
  (Hdata : is_bytes data) (Hlen : zlen data <= PTRDIFF_MAX) (Hw : writes buf0 base cap bw gs) (Hlevel : level <> 0) (Hagree : callocs_agree al data level w) :
  exists e bw' w', deflate_compress_fixed al data (zlen data) level w bw final = Ok (e, bw', w') /\ w_live w' = w_live w /\
    (e = SCL_OK /\ writes buf0 base cap bw' (gs ++ all_fields data final) /\ (forall c before, block_says final c before (before ++ data) (all_fields data final)) \/
     e = SCL_ERR_SIZE_OVERFLOW /\ 8 * cap < width gs + width (all_fields data final)).
Proof.
  destruct (proj1 (wp_ok (deflate_compress_fixed al data (zlen data) level w bw final) (fun '(e, bw', w') => w_live w' = w_live w /\
    (e = SCL_OK /\ writes buf0 base cap bw' (gs ++ all_fields data final) \/ e = SCL_ERR_SIZE_OVERFLOW /\ 8 * cap < width gs + width (all_fields data final)))))
    as ([[e bw'] w'] & E & Hl & H); [eapply wp_compress_fixed; [exact Hdata|exact Hlen|exact Hw|done|exact Hagree| |]; auto|].
  exists e, bw', w'. split; [done|]. split; [done|]. destruct H as [[-> W]|H]; [left|by right]. split; [done|]. split; [done|]. intros c before. rewrite <- (literals_expand data before).
  apply says_fixed; [by apply literals_ok|by apply literals_code].
Qed.

Lemma compress_writes_literals_witness :
  let data := [97; 98; 99; 97; 98; 99; 97; 98; 99; 200] in
  exists e bw' w', deflate_compress_fixed small_allocator data 10 6 (World 0 0) (bit_writer_init (replicate 20 None) 0 20) true = Ok (e, bw', w') /\ w_live w' = 0 /\
    (e = SCL_OK /\ writes (replicate 20 None) 0 20 bw' (all_fields data true) /\ (forall c before, block_says true c before (before ++ data) (all_fields data true)) \/
     e = SCL_ERR_SIZE_OVERFLOW /\ 160 < width (all_fields data true)).
Proof.
  apply (compress_writes_literals small_allocator (World 0 0) [97; 98; 99; 97; 98; 99; 97; 98; 99; 200] 6 true (replicate 20 None) 0 20 (bit_writer_init (replicate 20 None) 0 20) []).
  - repeat constructor; lia.
  - done.
  - by apply writes_init.
  - done.
  - intros _ _. by vm_compute.
Defined.

(** When one of the tables is obtained and the other is not, the one that was is
    freed twice. *)
Lemma compress_double_free (al : scl_allocator_t) (w : world) (data : list Z) (level : Z) (final : bool) (buf0 : block Z) (base cap : Z) :
  0 <= base -> 1 <= cap <= PTRDIFF_MAX -> base + cap <= zlen buf0 -> 0 < level -> 0 < zlen data ->
  calloc_fn al (w_reqs w) SCL_LZ77_HASH_SIZE 4 MAX_ALIGN <> calloc_fn al (S (w_reqs w)) (zlen data) 4 MAX_ALIGN ->
  deflate_compress_fixed al data (zlen data) level w (bit_writer_init buf0 base cap) final = UB.
Proof.
  intros Hb Hc Hz Hlev Hlen Hdis. assert (writes buf0 base cap (bit_writer_init buf0 base cap) []) as W0 by (apply writes_init; lia). unfold deflate_compress_fixed.
  destruct (proj1 (wp_ok (emit (bit_writer_init buf0 base cap) (if final then 1 else 0) 1) (fun r => r.1 = SCL_OK /\ writes buf0 base cap r.2 [(b2z final, 1)]))) as ([e b1] & -> & He & W1).
  { eapply wp_emit; [exact W0|lia|destruct final; cbn; lia|intros b1 W1; by split|intros b1 Hf; cbn [width] in Hf; lia]. }
  cbn [fst snd] in He, W1. subst e. rewrite bind_Ok. cbv beta iota. rewrite bool_decide_true by done. cbn [negb].
  destruct (proj1 (wp_ok (emit b1 1 2) (fun r => r.1 = SCL_OK))) as ([e b2] & -> & He).
  { eapply wp_emit; [exact W1|lia|lia|intros b2 _; done|intros b2 Hf; cbn [width snd] in Hf; lia]. }
  cbn [fst] in He. subst e. rewrite bind_Ok. cbv beta iota. rewrite bool_decide_true by done. cbn [negb]. destruct (Z.eqb_spec (zlen data) 0); [lia|]. destruct (Z.eqb_spec level 0); [lia|]. cbn [orb].
  rewrite Z.gtb_ltb. destruct (Z.ltb_spec 0 level); [|lia]. unfold scl_calloc. destruct (calloc_fn al (w_reqs w) SCL_LZ77_HASH_SIZE 4 MAX_ALIGN); cbn [w_reqs]; destruct (calloc_fn al (S (w_reqs w)) (zlen data) 4 MAX_ALIGN); try done;
    cbn [andb to_ptr dangling]; rewrite ?bool_decide_true by done; by rewrite bool_decide_false by (by intros []).
Qed.

(** Level 0 drops the data. *)
Lemma compress_level0_drops : exists bw w, deflate_compress_fixed small_allocator [1; 2; 3] 3 0 (World 0 0) (bit_writer_init (replicate 20 None) 0 20) true = Ok (SCL_OK, bw, w) /\
  bw_pos bw = 1 /\ zlook (bw_buf bw) 0 = Some (Some 3).
Proof. eexists _, _. split; [vm_compute; reflexivity|]. by vm_compute. Qed.

(** A match is encoded as what it is: for lengths from 3 to 258 and distances up
    to the window, [length_code], [distance_code] and the writing of their codes and
    extra bits produce the fields that the decoder's tables say are this match, in at
    most 31 bits, or report that the buffer is full. *)
Theorem match_codes_agree (buf0 : block Z) (base cap : Z) (bw : bit_writer) (fs : list field) (n d : Z)
  (Hw : writes buf0 base cap bw fs) (Hn : SCL_LZ77_MIN_MATCH <= n <= SCL_LZ77_MAX_MATCH) (Hd : 1 <= d <= SCL_LZ77_WINDOW_SIZE) :
  exists e bw', emit_match bw n d = Ok (e, bw') /\
    (e = SCL_OK /\ (exists gs, codes fixed_lits fixed_dists (Match n d) gs /\ writes buf0 base cap bw' (fs ++ gs)) \/ e = SCL_ERR_SIZE_OVERFLOW /\ 8 * cap < width fs + 31).
Proof.
  destruct (proj1 (wp_ok (emit_match bw n d) (fun '(e, bw') => e = SCL_OK /\ (exists gs, codes fixed_lits fixed_dists (Match n d) gs /\ writes buf0 base cap bw' (fs ++ gs)) \/ e = SCL_ERR_SIZE_OVERFLOW /\ 8 * cap < width fs + 31)))
    as ([e bw'] & E & H); [|by exists e, bw'].
  eapply wp_emit_match; [exact Hw|exact Hn|exact Hd| |]; eauto 6.
Qed.

Lemma match_codes_agree_witness : exists e bw', emit_match (bit_writer_init (replicate 8 None) 0 8) 258 32768 = Ok (e, bw') /\
  (e = SCL_OK /\ (exists gs, codes fixed_lits fixed_dists (Match 258 32768) gs /\ writes (replicate 8 None) 0 8 bw' ([] ++ gs)) \/ e = SCL_ERR_SIZE_OVERFLOW /\ 8 * 8 < width [] + 31).
Proof.
  apply (match_codes_agree (replicate 8 None) 0 8 (bit_writer_init (replicate 8 None) 0 8) [] 258 32768).
  - by apply writes_init.
  - done.
  - done.
Defined.
