(* ===== verification/Gzip.v ===== *)
(** The checksums and the containers of [libs/compress/gzip/scl_gzip.c]: CRC-32,
    Adler-32, gzip (RFC 1952), raw DEFLATE and zlib (RFC 1950).  Compressing and
    decompressing with gzip is the identity. *)

From S2P Require Import Prelude Core Bytes Refine BitIO Huffman Inflate DeflateFormat Deflate.
#[local] Open Scope Z_scope.

(** ** Checksums

    The data are read through [rd], which is a list or a block. *)
Definition crc_entry (i : Z) : res Z :=
  zfor 0 8 (fun _ crc => mret (Z.lxor (Z.shiftr crc 1) (Z.land 0xEDB88320 (u32 (Z.lnot (u32 (Z.land crc 1 - 1))))))) i.

Definition scl_crc32_init_table : res (list Z) :=
  zfor 0 256 (fun i t => e ← crc_entry i; set t i e) (replicate 256 0).

Definition scl_crc32_update (rd : Z -> res Z) (crc len : Z) : res Z :=
  table ← scl_crc32_init_table;
  zfor 0 len (fun i crc => c ← rd i; t ← get table (Z.land (Z.lxor crc c) 0xFF); mret (Z.lxor t (Z.shiftr crc 8))) crc.

Definition scl_crc32_final (rd : Z -> res Z) (len : Z) : res Z := c ← scl_crc32_update rd 0xFFFFFFFF len; mret (u32 (Z.lnot c)).

Definition ADLER_MOD : Z := 65521.

Definition scl_adler32 (rd : Z -> res Z) (len : Z) : res Z :=
  loop (Z.to_nat (len / 5552) + 2)
    (fun '(len, p, a, b) =>
       if len >? 0 then
         let n := if len >? 5552 then 5552 else len in
         '(a, b) ← zfor 0 n (fun i '(a, b) => c ← rd (p + i); let a := u32 (a + c) in mret (a, u32 (b + a))) (a, b);
         mret (inl (len - n, p + n, a mod ADLER_MOD, b mod ADLER_MOD))
       else mret (inr (Z.lor (u32 (Z.shiftl b 16)) a))) (len, 0, 1, 0).

(** ** gzip *)

(** [buf[off .. off+3]], least significant byte first. *)
Definition put_le32 (buf : block Z) (off x : Z) : res (block Z) :=
  buf ← set buf (off + 0) (Some (Z.land x 0xFF));
  buf ← set buf (off + 1) (Some (Z.land (Z.shiftr x 8) 0xFF));
  buf ← set buf (off + 2) (Some (Z.land (Z.shiftr x 16) 0xFF));
  set buf (off + 3) (Some (Z.land (Z.shiftr x 24) 0xFF)).

Definition get_le32 (buf : list Z) (off : Z) : res Z :=
  a ← get buf off; b ← get buf (off + 1); c ← get buf (off + 2); d ← get buf (off + 3);
  mret (Z.lor (Z.lor (Z.lor a (u32 (Z.shiftl b 8))) (u32 (Z.shiftl c 16))) (u32 (Z.shiftl d 24))).

Definition gzip_header (buf : block Z) (level : Z) : res (block Z) :=
  zfor 0 10 (fun i buf => c ← get [0x1F; 0x8B; 8; 0; 0; 0; 0; 0; (if level >? 0 then 2 else 0); 255] i; set buf i (Some c)) buf.

(** The header and the trailer around what was compressed. *)
Definition gzip_finish (w : world) (bw : bit_writer) (src : list Z) (src_len level est : Z) : res (scl_error_t * option (block Z) * Z * world) :=
  '(_, bw) ← bit_writer_flush bw;
  let comp_len := bw_pos bw in
  crc ← scl_crc32_final (get src) src_len;
  buf ← gzip_header (bw_buf bw) level;
  let trailer_off := u64 (10 + comp_len) in
  if u64 (trailer_off + 8) >? est then mret (SCL_ERR_SIZE_OVERFLOW, None, 0, scl_free w (Some buf))
  else
    buf ← put_le32 buf trailer_off crc;
    buf ← put_le32 buf (trailer_off + 4) src_len;
    mret (SCL_OK, Some buf, u64 (trailer_off + 8), w).

(** Whether [src] and the output pointers are [NULL] comes first; [out] and
    [*out_len] are the second and the third result. *)
Definition scl_gzip_compress (al : scl_allocator_t) (w : world) (src : option (list Z)) (src_len : Z) (outs : bool) (level : Z)
    : res (scl_error_t * option (block Z) * Z * world) :=
  match src with
  | Some src =>
      if negb outs then mret (SCL_ERR_NULL_PTR, None, 0, w)
      else
        let est := u64 (u64 (src_len + u64 (src_len / 65535 * 5)) + 64) in
        let '(buf, w) := scl_alloc al w est MAX_ALIGN 1 in
        match buf with
        | None => mret (SCL_ERR_OUT_OF_MEMORY, None, 0, w)
        | Some buf =>
            let bw := bit_writer_init buf 10 (u64 (est - 10)) in
            '(err, bw, w) ←
              (if level =? 0 then '(err, bw) ← deflate_write_stored bw src src_len true; mret (err, bw, w)
               else
                 '(err, bw, w) ← deflate_compress_fixed al src src_len level w bw true;
                 if bool_decide (err = SCL_ERR_SIZE_OVERFLOW) then
                   '(err, bw) ← deflate_write_stored (bit_writer_init (bw_buf bw) 10 (u64 (est - 10))) src src_len true; mret (err, bw, w)
                 else mret (err, bw, w));
            if negb (bool_decide (err = SCL_OK)) then mret (err, None, 0, scl_free w (Some (bw_buf bw)))
            else
              gzip_finish w bw src src_len level est
        end
  | None => mret (SCL_ERR_NULL_PTR, None, 0, w)
  end.

(** [while (hdr_size < src_len && buf[hdr_size] != 0) hdr_size++; hdr_size++] *)
Definition skip_string (buf : list Z) (src_len hdr_size : Z) : res Z :=
  h ← loop (S (Z.to_nat src_len))
    (fun h => if h <? src_len then c ← get buf h; if negb (c =? 0) then mret (inl (h + 1)) else mret (inr h) else mret (inr h)) hdr_size;
  mret (u64 (h + 1)).

(** The optional fields of the header: its size, or an error. *)
Definition gzip_header_size (buf : list Z) (src_len flg : Z) : res (option Z) :=
  h ← (if negb (Z.land flg 4 =? 0) then
         if 10 + 2 >? src_len then mret None
         else a ← get buf 10; b ← get buf 11; mret (Some (10 + (2 + Z.lor a (Z.shiftl b 8))))
       else mret (Some 10));
  match h with
  | None => mret None
  | Some h =>
      h ← (if negb (Z.land flg 8 =? 0) then skip_string buf src_len h else mret h);
      h ← (if negb (Z.land flg 16 =? 0) then skip_string buf src_len h else mret h);
      mret (Some (if negb (Z.land flg 2 =? 0) then u64 (h + 2) else h))
  end.

Section Decompress.
(** [SCL_INFLATE_MAX_OUTPUT] is configured when the library is built. *)
Context (al : scl_allocator_t) (fuel : nat) (SCL_INFLATE_MAX_OUTPUT : Z).

(** The result of a decompression: [*out], [*out_len]. *)
Definition inflated : Type := (scl_error_t * ptr Z * Z * world)%type.

(** The trailer: CRC-32 and size of what was decompressed. *)
Definition gzip_check (w : world) (buf : list Z) (src_len : Z) (out : output) : res inflated :=
  let trailer_off := src_len - 8 in
  stored_crc ← get_le32 buf trailer_off;
  stored_size ← get_le32 buf (trailer_off + 4);
  actual_crc ← scl_crc32_final (get_elem (ou_buf out)) (ou_len out);
  if negb (actual_crc =? stored_crc) then w ← free_ptr w (ou_buf out); mret (SCL_ERR_PARSE, Null, 0, w)
  else if negb (u32 (ou_len out) =? stored_size) then w ← free_ptr w (ou_buf out); mret (SCL_ERR_PARSE, Null, 0, w)
  else mret (SCL_OK, ou_buf out, ou_len out, w).

Definition scl_gzip_decompress (w : world) (src : option (list Z)) (src_len : Z) (outs : bool) : res inflated :=
  match src with
  | Some buf =>
      if negb outs then mret (SCL_ERR_NULL_PTR, Null, 0, w)
      else if src_len <? 18 then mret (SCL_ERR_PARSE, Null, 0, w)
      else
        b0 ← get buf 0; b1 ← get buf 1; b2 ← get buf 2; flg ← get buf 3;
        if negb (b0 =? 0x1F) || negb (b1 =? 0x8B) then mret (SCL_ERR_PARSE, Null, 0, w)
        else if negb (b2 =? 8) then mret (SCL_ERR_UNSUPPORTED, Null, 0, w)
        else
          h ← gzip_header_size buf src_len flg;
          match h with
          | None => mret (SCL_ERR_PARSE, Null, 0, w)
          | Some hdr_size =>
              if hdr_size >=? src_len then mret (SCL_ERR_PARSE, Null, 0, w)
              else
                '(err, _, out, w) ← deflate_decompress al fuel SCL_INFLATE_MAX_OUTPUT (bit_reader_init (drop (Z.to_nat hdr_size) buf) (src_len - hdr_size)) no_output w;
                if negb (bool_decide (err = SCL_OK)) then w ← free_ptr w (ou_buf out); mret (err, Null, 0, w)
                else gzip_check w buf src_len out
          end
  | None => mret (SCL_ERR_NULL_PTR, Null, 0, w)
  end.

Definition scl_gzip_free_result (w : world) (out : ptr Z) : res (ptr Z * Z * world) := w ← free_ptr w out; mret (Null, 0, w).

(** ** Raw DEFLATE and zlib *)
Definition scl_inflate_raw (w : world) (src : option (list Z)) (src_len : Z) (outs : bool) (max_out : Z) : res inflated :=
  match src with
  | Some src =>
      if negb outs then mret (SCL_ERR_NULL_PTR, Null, 0, w)
      else if src_len =? 0 then mret (SCL_ERR_PARSE, Null, 0, w)
      else
        let max_out := if max_out =? 0 then SCL_INFLATE_MAX_OUTPUT else max_out in
        '(err, _, out, w) ← deflate_decompress al fuel max_out (bit_reader_init src src_len) no_output w;
        if negb (bool_decide (err = SCL_OK)) then w ← free_ptr w (ou_buf out); mret (err, Null, 0, w)
        else mret (SCL_OK, ou_buf out, ou_len out, w)
  | None => mret (SCL_ERR_NULL_PTR, Null, 0, w)
  end.

Definition scl_zlib_decompress (w : world) (src : option (list Z)) (src_len : Z) (outs : bool) (max_out : Z) : res inflated :=
  match src with
  | Some buf =>
      if negb outs then mret (SCL_ERR_NULL_PTR, Null, 0, w)
      else if src_len <? 6 then mret (SCL_ERR_PARSE, Null, 0, w)
      else
        let max_out := if max_out =? 0 then SCL_INFLATE_MAX_OUTPUT else max_out in
        cmf ← get buf 0; flg ← get buf 1;
        if negb (Z.land cmf 0x0F =? 8) then mret (SCL_ERR_UNSUPPORTED, Null, 0, w)
        else if negb (Z.lor (Z.shiftl cmf 8) flg mod 31 =? 0) then mret (SCL_ERR_PARSE, Null, 0, w)
        else if negb (Z.land flg 0x20 =? 0) then mret (SCL_ERR_UNSUPPORTED, Null, 0, w)
        else
          '(err, br, out, w) ← deflate_decompress al fuel max_out (bit_reader_init (drop 2 buf) (src_len - 2)) no_output w;
          if negb (bool_decide (err = SCL_OK)) then w ← free_ptr w (ou_buf out); mret (err, Null, 0, w)
          else
            br ← bit_reader_align br;
            let tail := u64 (br_pos br - br_nbits br / 8) in
            ok ← (if u64 (br_cap br - tail) >=? 4 then
                    a ← get (br_buf br) tail; b ← get (br_buf br) (tail + 1); c ← get (br_buf br) (tail + 2); d ← get (br_buf br) (tail + 3);
                    let stored := Z.lor (Z.lor (Z.lor (u32 (Z.shiftl a 24)) (u32 (Z.shiftl b 16))) (u32 (Z.shiftl c 8))) d in
                    actual ← scl_adler32 (get_elem (ou_buf out)) (ou_len out);
                    mret (actual =? stored)
                  else mret true);
            if negb ok then w ← free_ptr w (ou_buf out); mret (SCL_ERR_PARSE, Null, 0, w)
            else mret (SCL_OK, ou_buf out, ou_len out, w)
  | None => mret (SCL_ERR_NULL_PTR, Null, 0, w)
  end.
End Decompress.

(** ** CRC-32 by bits *)
Definition crc_poly : Z := 0xEDB88320.

(** One bit: division by the reflected polynomial. *)
Definition crc_step (c : Z) : Z := Z.lxor (Z.shiftr c 1) (if Z.odd c then crc_poly else 0).
Fixpoint crc_steps (n : nat) (c : Z) : Z := match n with O => c | S n => crc_step (crc_steps n c) end.
Definition crc_bytes (c : Z) (l : list Z) : Z := foldl (fun c b => crc_steps 8 (Z.lxor c b)) c l.

(** The checksum of RFC 1952, bit by bit. *)
Definition crc32 (l : list Z) : Z := Z.lxor (crc_bytes 0xFFFFFFFF l) 0xFFFFFFFF.

Lemma lxor_range n a b : 0 <= n -> 0 <= a < 2 ^ n -> 0 <= b < 2 ^ n -> 0 <= Z.lxor a b < 2 ^ n.
Proof.
  intros Hn Ha Hb. assert (Z.lxor a b = Z.lxor a b mod 2 ^ n) as ->; [|by apply Z.mod_pos_bound, Z.pow_pos_nonneg].
  symmetry. rewrite <- Z.land_ones by done. apply Z.bits_inj'. intros i Hi. rewrite Z.land_spec, Z.lxor_spec, Z.testbit_ones by done.
  destruct (Z.leb_spec 0 i); [|lia]. destruct (Z.ltb_spec i n); [by rewrite andb_true_r|]. rewrite <- (Z.mod_small a (2 ^ n)), <- (Z.mod_small b (2 ^ n)) by done. rewrite !Z.mod_pow2_bits_high by lia. done.
Qed.

Lemma crc_step_range c : in_u32 c -> in_u32 (crc_step c).
Proof.
  intros Hc. unfold in_u32 in *. apply lxor_range; [lia| |unfold crc_poly; destruct (Z.odd c); lia]. rewrite Z.shiftr_div_pow2 by lia. change (2 ^ 1) with 2. zdiv.
Qed.

Lemma crc_steps_range n c : in_u32 c -> in_u32 (crc_steps n c).
Proof. intros Hc. induction n as [|n IH]; [done|]. by apply crc_step_range. Qed.

Lemma odd_lxor a b : Z.odd (Z.lxor a b) = xorb (Z.odd a) (Z.odd b).
Proof. rewrite <- !Z.bit0_odd. apply Z.lxor_spec. Qed.

Lemma crc_step_lxor a b : crc_step (Z.lxor a b) = Z.lxor (crc_step a) (crc_step b).
Proof.
  unfold crc_step. rewrite Z.shiftr_lxor, odd_lxor. apply Z.bits_inj'. intros i Hi. rewrite !Z.lxor_spec. destruct (Z.odd a), (Z.odd b); cbn [xorb]; rewrite ?Z.bits_0;
    by destruct (Z.testbit (Z.shiftr a 1) i), (Z.testbit (Z.shiftr b 1) i), (Z.testbit crc_poly i).
Qed.

Lemma crc_steps_lxor n a b : crc_steps n (Z.lxor a b) = Z.lxor (crc_steps n a) (crc_steps n b).
Proof. induction n as [|n IH]; [done|]. cbn [crc_steps]. rewrite IH. apply crc_step_lxor. Qed.

Lemma crc_steps_add m n c : crc_steps (m + n) c = crc_steps m (crc_steps n c).
Proof. induction m as [|m IH]; [done|]. cbn [Nat.add crc_steps]. by rewrite IH. Qed.

Lemma crc_step_even y : crc_step (2 * y) = y.
Proof. unfold crc_step. rewrite Z.odd_mul. cbn [Z.odd andb]. rewrite Z.lxor_0_r, Z.shiftr_div_pow2 by lia. change (2 ^ 1) with 2. rewrite Z.mul_comm. by apply Z.div_mul. Qed.

(** Whole bytes move down unchanged. *)
Lemma crc_steps_shift n y : crc_steps n (y * 2 ^ Z.of_nat n) = y.
Proof.
  induction n as [|n IH]; [change (2 ^ Z.of_nat 0) with 1; cbn; lia|]. replace (S n) with (n + 1)%nat at 1 by lia. rewrite crc_steps_add, pow2_S. replace (y * (2 * 2 ^ Z.of_nat n)) with (2 * (y * 2 ^ Z.of_nat n)) by lia.
  cbn [crc_steps]. by rewrite crc_step_even.
Qed.

Lemma lxor_shift a b n : 0 <= n -> 0 <= a < 2 ^ n -> Z.lxor a (Z.shiftl b n) = a + b * 2 ^ n.
Proof.
  intros Hn Ha. rewrite <- lor_shift by done. assert (Z.land a (Z.shiftl b n) = 0) as E; [|by apply Z.lxor_lor].
  apply Z.bits_inj'. intros i Hi. rewrite Z.land_spec, Z.bits_0. destruct (Z.lt_ge_cases i n); [rewrite Z.shiftl_spec_low by lia; apply andb_false_r|].
  rewrite <- (Z.mod_small a (2 ^ n)) by lia. by rewrite Z.mod_pow2_bits_high by lia.
Qed.

(** The table looks up the low byte. *)
Lemma crc_table_step c : 0 <= c -> crc_steps 8 c = Z.lxor (crc_steps 8 (Z.land c 0xFF)) (Z.shiftr c 8).
Proof.
  intros Hc. change 0xFF with (Z.ones 8). rewrite Z.land_ones, Z.shiftr_div_pow2 by lia. pose proof (Z.mod_pos_bound c (2 ^ 8) ltac:(lia)).
  assert (c = Z.lxor (c mod 2 ^ 8) (Z.shiftl (c / 2 ^ 8) 8)) as E by (rewrite lxor_shift by lia; pose proof (Z.div_mod c (2 ^ 8)); lia).
  rewrite E at 1. rewrite crc_steps_lxor. f_equal. rewrite Z.shiftl_mul_pow2 by lia. apply (crc_steps_shift 8).
Qed.

Lemma crc_entry_spec i : in_u32 i -> crc_entry i = Ok (crc_steps 8 i).
Proof.
  intros Hi. destruct (proj1 (wp_ok (crc_entry i) (fun r => r = crc_steps 8 i))) as (r & -> & ->); [|done].
  apply (wp_zfor (fun k c => c = crc_steps (Z.to_nat k) i)); [done| |intros c ->; done]. intros k c Hk ->. pose proof (crc_steps_range (Z.to_nat k) i Hi) as Hr. wstep.
  replace (Z.to_nat (k + 1)) with (S (Z.to_nat k)) by lia. cbn [crc_steps]. set (c := crc_steps (Z.to_nat k) i) in *.
  unfold crc_step. f_equal. change 1 with (Z.ones 1). rewrite Z.land_ones by lia. change (2 ^ 1) with 2. rewrite Zmod_odd. by destruct (Z.odd c).
Qed.

Lemma crc_table_spec (Q : list Z -> Prop) : (forall t, (forall i, 0 <= i < 256 -> zlook t i = Some (crc_steps 8 i)) -> zlen t = 256 -> Q t) -> wp scl_crc32_init_table Q.
Proof.
  intros HQ. unfold scl_crc32_init_table. apply (wp_zfor (fun k t => zlen t = 256 /\ forall i, 0 <= i < k -> zlook t i = Some (crc_steps 8 i))).
  - split; [done|intros i Hi; lia].
  - intros k t Hk [Ez Ht]. rewrite crc_entry_spec by (unfold in_u32; lia). wstep. wstep. apply wp_set; [lia|]. split; [by rewrite zlen_zupd|]. intros i Hi. rewrite zlook_zupd. destruct (decide (k = i)) as [->|Hne]; [by rewrite decide_True by lia|].
    rewrite decide_False by lia. apply Ht. lia.
  - intros t [Ez Ht]. by apply HQ.
Qed.

(** Reading through [rd] delivers [l]. *)
Definition delivers (rd : Z -> res Z) (l : list Z) : Prop := forall i x, zlook l i = Some x -> rd i = Ok x.

#[local] Opaque scl_crc32_init_table crc_steps.

Lemma crc_bytes_range l c : is_bytes l -> in_u32 c -> in_u32 (crc_bytes c l).
Proof.
  intros Hl. revert c. induction Hl as [|b l Hb _ IH]; intros c Hc; [done|]. cbn [crc_bytes foldl]. apply IH. apply crc_steps_range. unfold in_u32 in *. apply lxor_range; lia.
Qed.

Lemma byte_in l i b : is_bytes l -> zlook l i = Some b -> 0 <= b < 256.
Proof. intros Hl Hb. unfold is_bytes in Hl. rewrite Forall_forall in Hl. apply Hl. unfold zlook in Hb. destruct (Z.leb_spec 0 i); [|done]. by apply list_elem_of_lookup_2 in Hb. Qed.

Lemma crc_next c b : in_u32 c -> 0 <= b < 256 ->
  0 <= Z.land (Z.lxor c b) 0xFF < 256 /\ Z.lxor (crc_steps 8 (Z.land (Z.lxor c b) 0xFF)) (Z.shiftr c 8) = crc_steps 8 (Z.lxor c b).
Proof.
  intros Hc Hb. unfold in_u32 in Hc. pose proof (lxor_range 32 c b ltac:(lia) ltac:(lia) ltac:(lia)) as Hx. split; [change 0xFF with (Z.ones 8); rewrite Z.land_ones by lia; apply Z.mod_pos_bound; lia|].
  rewrite (crc_table_step (Z.lxor c b)) by lia. f_equal. rewrite Z.shiftr_lxor. assert (Z.shiftr b 8 = 0) as -> by (rewrite Z.shiftr_div_pow2 by lia; by apply Z.div_small). by rewrite Z.lxor_0_r.
Qed.

Lemma complement32 c : in_u32 c -> u32 (Z.lnot c) = Z.lxor c 0xFFFFFFFF.
Proof.
  intros Hc. unfold in_u32, u32 in *. change 0xFFFFFFFF with (Z.ones 32). apply Z.bits_inj'. intros i Hi. rewrite Z.lxor_spec, Z.testbit_ones by lia. destruct (Z.leb_spec 0 i); [|lia]. destruct (Z.ltb_spec i 32); cbn [andb].
  - rewrite Z.mod_pow2_bits_low, Z.lnot_spec by lia. by destruct (Z.testbit c i).
  - rewrite Z.mod_pow2_bits_high by lia. rewrite <- (Z.mod_small c (2 ^ 32)) by done. by rewrite Z.mod_pow2_bits_high by lia.
Qed.

Lemma wp_crc_update rd c l (Q : Z -> Prop) : is_bytes l -> delivers rd l -> in_u32 c -> Q (crc_bytes c l) -> wp (scl_crc32_update rd c (zlen l)) Q.
Proof.
  intros Hl Hrd Hc HQ. pose proof (zlen_nonneg l). unfold scl_crc32_update. wstep. apply crc_table_spec. intros t Ht Ez. apply (wp_zfor (fun i x => x = crc_bytes c (take (Z.to_nat i) l))).
  - done.
  - intros i x Hi ->. destruct (zlook_lt l i Hi) as [b Hb]. rewrite (Hrd i b Hb). do 2 wstep. wstep.
    destruct (crc_next (crc_bytes c (take (Z.to_nat i) l)) b (crc_bytes_range _ _ (Forall_take _ _ _ Hl) Hc) (byte_in _ _ _ Hl Hb)) as [Hidx E].
    apply wp_get; [lia|]. intros e He. rewrite Ht in He by lia. apply (inj Some) in He. wstep. rewrite <- He, E, (take_next l i b Hb). unfold crc_bytes. by rewrite foldl_app.
  - intros x ->. rewrite Z.max_r, take_ge by (unfold zlen; lia). exact HQ.
Qed.

Lemma crc32_spec rd l : is_bytes l -> delivers rd l -> scl_crc32_final rd (zlen l) = Ok (crc32 l).
Proof.
  intros Hl Hrd. assert (in_u32 0xFFFFFFFF) as H0 by done. destruct (proj1 (wp_ok (scl_crc32_final rd (zlen l)) (fun r => r = crc32 l))) as (r & -> & ->); [|done].
  unfold scl_crc32_final. wstep. apply wp_crc_update; [exact Hl|exact Hrd|exact H0|]. wstep. unfold crc32. rewrite complement32; [done|]. by apply crc_bytes_range.
Qed.

(** ** Errors CRC-32 detects *)
#[local] Transparent crc_steps.
Lemma crc_step_zero c : in_u32 c -> crc_step c = 0 -> c = 0.
Proof.
  intros Hc E. unfold in_u32 in Hc. unfold crc_step in E. apply Z.lxor_eq in E. rewrite Z.shiftr_div_pow2 in E by lia. change (2 ^ 1) with 2 in E. pose proof (Z.div_mod c 2 ltac:(lia)) as Hd. rewrite Zmod_odd in Hd.
  destruct (Z.odd c); [|lia]. unfold crc_poly in E. zdiv.
Qed.

Lemma crc_steps_inj n c c' : in_u32 c -> in_u32 c' -> crc_steps n c = crc_steps n c' -> c = c'.
Proof.
  intros Hc Hc' E. assert (crc_steps n (Z.lxor c c') = 0) as H0 by (rewrite crc_steps_lxor, E; apply Z.lxor_nilpotent). apply Z.lxor_eq. clear E.
  assert (in_u32 (Z.lxor c c')) as Hx by (apply lxor_range; [lia|done|done]). revert H0. generalize dependent (Z.lxor c c'). intros x Hx. induction n as [|n IH]; [done|]. cbn [crc_steps]. intros H0. apply IH. apply crc_step_zero; [by apply crc_steps_range|done].
Qed.
#[local] Opaque crc_steps.

Lemma crc_bytes_num l c : is_bytes l -> crc_bytes c l = crc_steps (8 * length l) (Z.lxor c (num l)).
Proof.
  intros Hl. revert c. induction Hl as [|b l Hb Hl IH]; intros c; [cbn [crc_bytes foldl num length]; by rewrite Z.lxor_0_r|]. cbn [crc_bytes foldl num length]. change (foldl _ ?x l) with (crc_bytes x l). rewrite IH.
  replace (8 * S (length l))%nat with (8 * length l + 8)%nat by lia. rewrite crc_steps_add. f_equal. pose proof (num_range l Hl).
  assert (b + 256 * num l = Z.lxor b (Z.shiftl (num l) 8)) as -> by (rewrite lxor_shift by lia; lia). rewrite <- Z.lxor_assoc, (crc_steps_lxor 8 (Z.lxor c b)). f_equal. rewrite Z.shiftl_mul_pow2 by lia. symmetry. apply (crc_steps_shift 8).
Qed.

Lemma crc_bytes_inj l c c' : is_bytes l -> in_u32 c -> in_u32 c' -> crc_bytes c l = crc_bytes c' l -> c = c'.
Proof.
  intros Hl. revert c c'. induction Hl as [|b l Hb _ IH]; intros c c' Hc Hc' E; [exact E|]. cbn [crc_bytes foldl] in E.
  assert (forall x, in_u32 x -> in_u32 (Z.lxor x b)) as Hx by (intros x Hx; unfold in_u32 in *; apply lxor_range; lia).
  apply IH in E; [|by apply crc_steps_range, Hx|by apply crc_steps_range, Hx]. apply crc_steps_inj in E; [|by apply Hx|by apply Hx]. apply (f_equal (fun x => Z.lxor x b)) in E. by rewrite !Z.lxor_assoc, Z.lxor_nilpotent, !Z.lxor_0_r in E.
Qed.

Lemma num_inj l l' : is_bytes l -> is_bytes l' -> zlen l = zlen l' -> num l = num l' -> l = l'.
Proof.
  intros Hl. revert l'. induction Hl as [|b l Hb Hl IH]; intros l' Hl' Ez En; destruct Hl' as [|b' l' Hb' Hl']; [done| | |].
  - rewrite zlen_cons in Ez. pose proof (zlen_nonneg l'). change (zlen (@nil Z)) with 0 in Ez. lia.
  - rewrite zlen_cons in Ez. pose proof (zlen_nonneg l). change (zlen (@nil Z)) with 0 in Ez. lia.
  - rewrite !zlen_cons in Ez. cbn [num] in En. assert (b = b' /\ num l = num l') as [-> En'] by lia. f_equal. apply IH; [done|lia|done].
Qed.

Lemma crc32_bursts a d d' b : is_bytes a -> is_bytes d -> is_bytes d' -> is_bytes b -> zlen d = zlen d' -> zlen d <= 4 -> crc32 (a ++ d ++ b) = crc32 (a ++ d' ++ b) -> d = d'.
Proof.
  intros Ha Hd Hd' Hb Ez H4 E. unfold crc32 in E. apply (f_equal (fun x => Z.lxor x 0xFFFFFFFF)) in E. rewrite !Z.lxor_assoc, Z.lxor_nilpotent, !Z.lxor_0_r in E. unfold crc_bytes in E. rewrite !foldl_app in E.
  assert (in_u32 (crc_bytes 0xFFFFFFFF a)) as Hc by (apply crc_bytes_range; done). change (foldl _ 0xFFFFFFFF a) with (crc_bytes 0xFFFFFFFF a) in E. set (c := crc_bytes 0xFFFFFFFF a) in *.
  change (crc_bytes (crc_bytes c d) b = crc_bytes (crc_bytes c d') b) in E. apply crc_bytes_inj in E; [|done|by apply crc_bytes_range|by apply crc_bytes_range].
  rewrite !crc_bytes_num in E by done. replace (length d') with (length d) in E by (unfold zlen in Ez; lia).
  assert (forall x, is_bytes x -> zlen x = zlen d -> in_u32 (Z.lxor c (num x))) as Hx.
  { intros x Hxb Hxz. pose proof (num_range x Hxb) as Hr. apply lxor_range; [lia|done|]. split; [lia|]. apply Z.lt_le_trans with (2 ^ (8 * zlen x)); [lia|]. apply Z.pow_le_mono_r; lia. }
  apply crc_steps_inj in E; [|by apply Hx|by apply Hx]. apply num_inj; [done|done|done|]. apply (f_equal (Z.lxor c)) in E. by rewrite <- !Z.lxor_assoc, Z.lxor_nilpotent, !Z.lxor_0_l in E.
Qed.

(** ** Adler-32 *)
Definition adler_from (s : Z * Z) (l : list Z) : Z * Z := foldl (fun '(a, b) c => (a + c, b + (a + c))) s l.

(** The checksum of RFC 1950: both sums, reduced at the end. *)
Definition adler32 (l : list Z) : Z := let '(a, b) := adler_from (1, 0) l in b mod ADLER_MOD * 2 ^ 16 + a mod ADLER_MOD.

Lemma adler_bound l a b : is_bytes l -> 0 <= a -> 0 <= b ->
  a <= (adler_from (a, b) l).1 <= a + 255 * zlen l /\ b <= (adler_from (a, b) l).2 /\ 2 * (adler_from (a, b) l).2 <= 2 * b + 2 * (zlen l * a) + 255 * (zlen l * (zlen l + 1)).
Proof.
  intros Hl. revert a b. induction Hl as [|c l Hc _ IH]; intros a b Ha Hb; [cbn [adler_from foldl fst snd]; change (zlen (@nil Z)) with 0; lia|]. cbn [adler_from foldl]. change (foldl _ ?s l) with (adler_from s l).
  rewrite zlen_cons. specialize (IH (a + c) (b + (a + c)) ltac:(lia) ltac:(lia)). pose proof (zlen_nonneg l). nia.
Qed.

Lemma adler_mod l a b a' b' : a mod ADLER_MOD = a' mod ADLER_MOD -> b mod ADLER_MOD = b' mod ADLER_MOD ->
  (adler_from (a, b) l).1 mod ADLER_MOD = (adler_from (a', b') l).1 mod ADLER_MOD /\ (adler_from (a, b) l).2 mod ADLER_MOD = (adler_from (a', b') l).2 mod ADLER_MOD.
Proof.
  revert a b a' b'. induction l as [|c l IH]; intros a b a' b' Ea Eb; [done|]. cbn [adler_from foldl]. change (foldl _ ?s l) with (adler_from s l). assert ((a + c) mod ADLER_MOD = (a' + c) mod ADLER_MOD) as Eac by (rewrite <- Z.add_mod_idemp_l, Ea, Z.add_mod_idemp_l by done; done).
  apply IH; [done|]. by rewrite Z.add_mod, Eb, Eac, <- Z.add_mod by done.
Qed.

Lemma wp_adler_block rd l p n a b (Q : Z * Z -> Prop) : is_bytes l -> delivers rd l -> 0 <= p -> 0 <= n <= 5552 -> p + n <= zlen l -> 0 <= a < ADLER_MOD -> 0 <= b < ADLER_MOD -> Q (adler_from (a, b) (slice l p (p + n))) ->
  wp (zfor 0 n (fun i '(a, b) => c ← rd (p + i); let a := u32 (a + c) in mret (a, u32 (b + a))) (a, b)) Q.
Proof.
  intros Hl Hrd Hp Hn Hfit Ha Hb HQ. unfold ADLER_MOD in *. apply (wp_zfor (fun i s => s = adler_from (a, b) (slice l p (p + i)))).
  - rewrite slice_nil by lia. done.
  - intros i [x y] Hi E. destruct (zlook_lt l (p + i) ltac:(lia)) as [c Hc]. rewrite (Hrd _ _ Hc). wstep. wstep. cbv zeta. wstep.
    replace (p + (i + 1)) with (p + i + 1) by lia. assert (slice l p (p + i + 1) = slice l p (p + i) ++ [c]) as Es.
    { rewrite <- (slice_app l p (p + i) (p + i + 1)) by lia. by rewrite (slice_cons l (p + i) (p + i + 1) c), (slice_nil l (p + i + 1) (p + i + 1)) by (lia || done). }
    pose proof (adler_bound (slice l p (p + i + 1)) a b) as Hbd. assert (is_bytes (slice l p (p + i + 1))) as Hsl by (unfold slice; by apply Forall_take, Forall_drop). specialize (Hbd Hsl ltac:(lia) ltac:(lia)).
    rewrite zlen_slice in Hbd by lia. rewrite Es in *. unfold adler_from in *. rewrite foldl_app in *. rewrite <- E in *. cbn [foldl fst snd] in *. replace (p + i + 1 - p) with (i + 1) in Hbd by lia.
    unfold u32. rewrite !(Z.mod_small (x + c)) by lia. rewrite Z.mod_small by nia. done.
  - intros s ->. by rewrite Z.max_r by lia.
Qed.

Lemma adler_rounds n k : 1 <= k <= 5552 -> k <= n -> k = 5552 \/ k = n -> 0 <= (n - k + 5551) / 5552 < (n + 5551) / 5552.
Proof. intros Hk Hn H. destruct H as [->| ->]; zdiv. Qed.

Lemma adler32_spec rd l : is_bytes l -> delivers rd l -> scl_adler32 rd (zlen l) = Ok (adler32 l).
Proof.
  intros Hl Hrd. pose proof (zlen_nonneg l). destruct (proj1 (wp_ok (scl_adler32 rd (zlen l)) (fun r => r = adler32 l))) as (r & -> & ->); [|done]. unfold scl_adler32.
  apply (wp_loop_rel (fun f '(n, p, a, b) => 0 <= p /\ n + p = zlen l /\ 0 <= n /\ f = (n + 5551) / 5552 /\ a = (adler_from (1, 0) (slice l 0 p)).1 mod ADLER_MOD /\ b = (adler_from (1, 0) (slice l 0 p)).2 mod ADLER_MOD) ((zlen l + 5551) / 5552)).
  - rewrite slice_nil by lia. split; [lia|]. split; [lia|]. split; [lia|]. done.
  - zdiv.
  - lia.
  - intros f [[[n p] a] b] (Hp & En & Hn & -> & Ea & Eb). rewrite !Z.gtb_ltb. assert (0 <= a < ADLER_MOD /\ 0 <= b < ADLER_MOD) as [Ha Hb] by (subst a b; split; by apply Z.mod_pos_bound). destruct (Z.ltb_spec 0 n) as [Hpos|Hend].
    + cbv zeta. set (k := if 5552 <? n then 5552 else n). assert (1 <= k <= 5552 /\ k <= n /\ (k = 5552 \/ k = n)) as (Hk & Hkn & Hkk) by (unfold k; destruct (Z.ltb_spec 5552 n); lia).
      wstep. eapply (wp_adler_block rd l p k); [exact Hl|exact Hrd|lia|lia|lia|exact Ha|exact Hb|]. destruct (adler_mod (slice l p (p + k)) a b (adler_from (1, 0) (slice l 0 p)).1 (adler_from (1, 0) (slice l 0 p)).2) as [E1 E2].
      { subst a. by apply Z.mod_mod. } { subst b. by apply Z.mod_mod. }
      rewrite <- surjective_pairing in E1, E2. assert (adler_from (adler_from (1, 0) (slice l 0 p)) (slice l p (p + k)) = adler_from (1, 0) (slice l 0 (p + k))) as Es by (unfold adler_from; by rewrite <- foldl_app, slice_app by lia). rewrite Es in E1, E2.
      destruct (adler_from (a, b) (slice l p (p + k))) as [x y]. cbn [fst snd] in E1, E2. wstep. exists ((n - k + 5551) / 5552). split; [by apply adler_rounds|]. split; [lia|]. split; [lia|]. split; [lia|]. split; [done|]. by split.
    + wstep. unfold adler32. replace p with (zlen l) in * by lia. rewrite slice_all in *. destruct (adler_from (1, 0) l) as [x y]. cbn [fst snd] in *. subst a b. unfold ADLER_MOD in *. unfold u32. rewrite Z.mod_small by (rewrite Z.shiftl_mul_pow2 by lia; lia).
      rewrite Z.lor_comm, lor_shift by lia. lia.
Qed.

(** ** Files *)
Lemma slice_same {A} (b b' : list A) lo hi : 0 <= lo -> (forall i, lo <= i < hi -> zlook b' i = zlook b i) -> slice b' lo hi = slice b lo hi.
Proof.
  intros Hlo H. apply zlook_ext. intros i. rewrite !zlook_slice by lia. destruct (Z.leb_spec 0 i); cbn [andb]; [|done]. destruct (Z.ltb_spec i (hi - lo)); [|done]. apply H. lia.
Qed.

Lemma slice_cells (b : block Z) lo hi l : 0 <= lo -> zlen l = hi - lo -> (forall i x, zlook l i = Some x -> zlook b (lo + i) = Some (Some x)) -> slice b lo hi = Some <$> l.
Proof.
  intros Hlo Ez H. pose proof (zlen_nonneg l). apply zlook_ext. intros i. rewrite zlook_slice, zlook_fmap by lia. destruct (Z.leb_spec 0 i) as [Hi0|Hi0]; cbn [andb]; [|by rewrite zlook_neg by lia].
  destruct (Z.ltb_spec i (hi - lo)) as [Hi1|Hi1]; [|by rewrite zlook_ge by lia]. destruct (zlook_lt l i) as [x Hx]; [lia|]. rewrite Hx. by apply H.
Qed.

Definition le32 (x : Z) : list Z := [Z.land x 0xFF; Z.land (Z.shiftr x 8) 0xFF; Z.land (Z.shiftr x 16) 0xFF; Z.land (Z.shiftr x 24) 0xFF].

Lemma le32_bytes x : 0 <= x -> is_bytes (le32 x) /\ num (le32 x) = x mod 2 ^ 32.
Proof.
  intros Hx. unfold le32. change 0xFF with (Z.ones 8). rewrite !Z.land_ones, !Z.shiftr_div_pow2 by lia. split; [repeat (constructor; [apply Z.mod_pos_bound; lia|]); constructor|].
  cbn [num]. change 256 with (2 ^ 8). replace 32 with (8 + (8 + (8 + 8))) by lia. rewrite !mod_pow2_add by lia. rewrite <- !div_pow2_add by lia. change (8 + 8) with 16. change (16 + 8) with 24. lia.
Qed.

Lemma wp_put_le32 buf off x (Q : block Z -> Prop) : 0 <= off -> off + 4 <= zlen buf ->
  (forall buf', zlen buf' = zlen buf -> (forall i, i < off \/ off + 4 <= i -> zlook buf' i = zlook buf i) -> slice buf' off (off + 4) = Some <$> le32 x -> Q buf') -> wp (put_le32 buf off x) Q.
Proof.
  intros Hoff Hfit HQ. unfold put_le32. do 3 (wstep; apply wp_set; [rewrite ?zlen_zupd; lia|]). apply wp_set; [rewrite ?zlen_zupd; lia|]. apply HQ; [by rewrite !zlen_zupd| |].
  - intros i Hi. rewrite !zlook_zupd. by rewrite !decide_False by lia.
  - apply slice_cells; [done|change (zlen (le32 x)) with 4; lia|]. intros i y Hy. pose proof (zlook_Some _ _ _ Hy) as Hi. change (zlen (le32 x)) with 4 in Hi. rewrite !zlook_zupd, !zlen_zupd.
    assert (i = 0 \/ i = 1 \/ i = 2 \/ i = 3) as [->|[->|[->| ->]]] by lia; injection Hy as <-.
    + rewrite decide_False, decide_False, decide_False, decide_True by lia. done.
    + rewrite decide_False, decide_False, decide_True by lia. done.
    + rewrite decide_False, decide_True by lia. done.
    + rewrite decide_True by lia. done.
Qed.

Lemma get_le32_spec buf off : is_bytes buf -> 0 <= off -> off + 4 <= zlen buf -> get_le32 buf off = Ok (num (slice buf off (off + 4))).
Proof.
  intros Hb Hoff Hfit. unfold get_le32. destruct (zlook_lt buf off ltac:(lia)) as [a Ea]. destruct (zlook_lt buf (off + 1) ltac:(lia)) as [b Eb]. destruct (zlook_lt buf (off + 2) ltac:(lia)) as [c Ec]. destruct (zlook_lt buf (off + 3) ltac:(lia)) as [d Ed].
  unfold get. rewrite Ea, Eb, Ec, Ed. cbn [from_option mbind res_bind mret res_ret].
  pose proof (byte_in _ _ _ Hb Ea). pose proof (byte_in _ _ _ Hb Eb). pose proof (byte_in _ _ _ Hb Ec). pose proof (byte_in _ _ _ Hb Ed). unfold u32. rewrite !Z.shiftl_mul_pow2 by lia. rewrite !Z.mod_small by lia. rewrite <- !Z.shiftl_mul_pow2 by lia. rewrite (lor_shift a b 8), (lor_shift (a + b * 2 ^ 8) c 16), (lor_shift (a + b * 2 ^ 8 + c * 2 ^ 16) d 24) by lia.
  replace (off + 4) with (off + 1 + 1 + 1 + 1) by lia. rewrite (slice_cons buf off _ a), (slice_cons buf (off + 1) _ b) by (lia || done). replace (off + 1 + 1) with (off + 2) by lia. rewrite (slice_cons buf (off + 2) _ c) by (lia || done). replace (off + 2 + 1) with (off + 3) by lia.
  rewrite (slice_cons buf (off + 3) _ d), slice_nil by (lia || done). cbn [num]. f_equal. lia.
Qed.

Definition header (level : Z) : list Z := [0x1F; 0x8B; 8; 0; 0; 0; 0; 0; (if level >? 0 then 2 else 0); 255].

Lemma header_bytes level : is_bytes (header level) /\ zlen (header level) = 10.
Proof. unfold header. split; [|done]. destruct (level >? 0); repeat (constructor; [lia|]); constructor. Qed.

Lemma wp_gzip_header buf level (Q : block Z -> Prop) : 10 <= zlen buf ->
  (forall buf', zlen buf' = zlen buf -> (forall i, 10 <= i -> zlook buf' i = zlook buf i) -> slice buf' 0 10 = Some <$> header level -> Q buf') -> wp (gzip_header buf level) Q.
Proof.
  intros Hz HQ. unfold gzip_header. fold (header level).
  apply (wp_zfor (fun k b => zlen b = zlen buf /\ (forall i, 10 <= i -> zlook b i = zlook buf i) /\ forall i x, i < k -> zlook (header level) i = Some x -> zlook b i = Some (Some x))).
  - split; [done|]. split; [done|]. intros i x Hi Hx%zlook_Some. lia.
  - intros k b Hk (Ez & Hrest & Hdone). wstep. apply wp_get; [rewrite (proj2 (header_bytes level)); lia|]. intros c Hc. apply wp_set; [lia|]. split; [by rewrite zlen_zupd|]. split.
    + intros i Hi. rewrite zlook_zupd, decide_False by lia. by apply Hrest.
    + intros i x Hi Hx. rewrite zlook_zupd. destruct (decide (k = i)) as [->|Hne]; [rewrite decide_True by lia; congruence|]. rewrite decide_False by lia. apply Hdone; [lia|done].
  - intros b (Ez & Hrest & Hdone). apply HQ; [done|done|]. apply slice_cells; [lia|by rewrite (proj2 (header_bytes level))|]. intros i x Hx. rewrite Z.add_0_l. apply Hdone; [|done]. apply zlook_Some in Hx. rewrite (proj2 (header_bytes level)) in Hx. lia.
Qed.

(** A gzip file of [data]: the header, whole bytes that spell a stream that says
    [data], the checksum and the length. *)
Definition gzip_file (data file : list Z) : Prop :=
  exists level body fs pad, file = header level ++ body ++ le32 (crc32 data) ++ le32 (zlen data) /\ is_bytes body /\ field_ok (0, pad) /\
    num body = fnum (fs ++ [(0, pad)]) /\ 8 * zlen body = width (fs ++ [(0, pad)]) /\ stream_says 0 [] data fs.

Lemma crc32_range l : is_bytes l -> in_u32 (crc32 l).
Proof. intros Hl. apply lxor_range; [lia|by apply crc_bytes_range|lia]. Qed.

Section Compressing.
Context (al : scl_allocator_t) `{!AllocatorOk al} (data : list Z) (Hdata : is_bytes data).
Notation len := (zlen data).

Lemma get_delivers l : delivers (get l) l.
Proof. intros i x Hx. unfold get. by rewrite Hx. Qed.

Lemma wp_gzip_finish w bw buf0 cap fs level est (Q : scl_error_t * option (block Z) * Z * world -> Prop) : writes buf0 10 cap bw fs -> cap = est - 10 -> zlen buf0 = est -> est + 8 <= PTRDIFF_MAX -> stream_says 0 [] data fs ->
  (forall b n file, gzip_file data file -> zlen file = n -> n <= est -> slice b 0 n = Some <$> file -> Q (SCL_OK, Some b, n, w)) ->
  (forall b, 8 * (cap - 8) < width fs -> Q (SCL_ERR_SIZE_OVERFLOW, None, 0, scl_free w (Some (A := block Z) b))) -> wp (gzip_finish w bw data len level est) Q.
Proof.
  intros W Hcap Hest Hmax Hs HQ1 HQ2. unfold PTRDIFF_MAX in *. pose proof (zlen_nonneg data). unfold gzip_finish. wstep. eapply wp_flush; [exact W| |].
  - intros b1 pad W1 Hn1 Epad. cbv beta iota zeta. rewrite (crc32_spec (get data) data Hdata (get_delivers data)). wstep. wstep. wstep.
    pose proof (wt_room _ _ _ _ _ _ W1) as Hr. pose proof (wt_size _ _ _ _ _ _ W1) as Hz. pose proof (wt_width _ _ _ _ _ _ W1) as Hw. rewrite Hn1 in Hw. destruct (writes_bytes _ _ _ _ _ W1 Hn1) as (l & Hl & Hlb & Hnum & Hwl & Hlz).
    apply wp_gzip_header; [lia|]. intros b2 Ez2 Hrest2 Hhdr. rewrite (u64_small (10 + bw_pos b1)), u64_small, Z.gtb_ltb by lia. destruct (Z.ltb_spec est (10 + bw_pos b1 + 8)) as [Hbig|Hfits].
    + wstep. apply HQ2. rewrite width_app in Hw. cbn [width snd] in Hw. pose proof (Z.mod_pos_bound (- width fs) 8). lia.
    + wstep. apply wp_put_le32; [lia|lia|]. intros b3 Ez3 Hrest3 Hcrc. wstep. apply wp_put_le32; [lia|lia|]. intros b4 Ez4 Hrest4 Hsz. wstep.
      eapply (HQ1 b4 _ (header level ++ l ++ le32 (crc32 data) ++ le32 len)).
      * exists level, l, fs, pad. split; [done|]. split; [done|]. split; [|by repeat split]. pose proof (wt_fields _ _ _ _ _ _ W1) as [_ Hp]%Forall_app. by apply Forall_inv in Hp.
      * rewrite !zlen_app, (proj2 (header_bytes level)). change (zlen (le32 (crc32 data))) with 4. change (zlen (le32 len)) with 4. lia.
      * lia.
      * rewrite <- (slice_app b4 0 10) by lia. rewrite <- (slice_app b4 10 (10 + bw_pos b1)) by lia. rewrite <- (slice_app b4 (10 + bw_pos b1) (10 + bw_pos b1 + 4)) by lia. rewrite !fmap_app. f_equal; [|f_equal; [|f_equal]].
        -- rewrite (slice_same b3) by (lia || (intros i Hi; apply Hrest4; lia)). by rewrite (slice_same b2) by (lia || (intros i Hi; apply Hrest3; lia)).
        -- rewrite (slice_same b3) by (lia || (intros i Hi; apply Hrest4; lia)). rewrite (slice_same b2) by (lia || (intros i Hi; apply Hrest3; lia)). rewrite (slice_same (bw_buf b1)) by (lia || (intros i Hi; apply Hrest2; lia)). exact Hl.
        -- rewrite (slice_same b3) by (lia || (intros i Hi; apply Hrest4; lia)). exact Hcrc.
        -- replace (10 + bw_pos b1 + 8) with (10 + bw_pos b1 + 4 + 4) by lia. exact Hsz.
  - intros Hend Hm. cbv beta iota zeta. rewrite (crc32_spec (get data) data Hdata (get_delivers data)). wstep. wstep. wstep.
    pose proof (wt_room _ _ _ _ _ _ W) as Hr. pose proof (wt_size _ _ _ _ _ _ W) as Hz. pose proof (wt_width _ _ _ _ _ _ W) as Hw. pose proof (wt_low _ _ _ _ _ _ W).
    apply wp_gzip_header; [lia|]. intros b2 Ez2 _ _. rewrite (u64_small (10 + bw_pos bw)), u64_small, Z.gtb_ltb by lia. destruct (Z.ltb_spec est (10 + bw_pos bw + 8)); [|lia]. wstep. apply HQ2. lia.
Qed.

(** The size of the buffer. *)
Definition estimate : Z := len + 5 * (len / 65535) + 64.

Lemma u64_estimate : estimate + 8 <= PTRDIFF_MAX -> u64 (u64 (len + u64 (len / 65535 * 5)) + 64) = estimate.
Proof.
  intros He. pose proof (zlen_nonneg data). assert (0 <= len / 65535 <= len) as Hq by zdiv. unfold estimate, PTRDIFF_MAX in *.
  rewrite (u64_small (len / 65535 * 5)), (u64_small (len + _)), u64_small by lia. lia.
Qed.

Lemma wp_gzip_compress w level (Q : scl_error_t * option (block Z) * Z * world -> Prop) : estimate + 8 <= PTRDIFF_MAX -> callocs_agree al data level (World (S (w_reqs w)) (w_live w + 1)) ->
  (forall b n file w', gzip_file data file -> zlen file = n -> n <= estimate -> slice b 0 n = Some <$> file -> w_live w' = w_live w + 1 -> Q (SCL_OK, Some b, n, w')) ->
  (forall w', level <> 0 -> 8 * (estimate - 18) < width (all_fields data true) -> w_live w' = w_live w -> Q (SCL_ERR_SIZE_OVERFLOW, None, 0, w')) ->
  (forall w', w_live w' = w_live w -> Q (SCL_ERR_OUT_OF_MEMORY, None, 0, w')) ->
  wp (scl_gzip_compress al w (Some data) len true level) Q.
Proof.
  intros Hest Hagree HQ1 HQ2 HQ3. pose proof (zlen_nonneg data). assert (0 <= len / 65535 <= len) as Hq by zdiv. unfold scl_gzip_compress, PTRDIFF_MAX in *. cbn [negb].
  rewrite u64_estimate by (unfold PTRDIFF_MAX; lia).
  cbv zeta. unfold scl_alloc. destruct (malloc_fn al (w_reqs w) estimate MAX_ALIGN); [|cbv beta iota; wstep; by apply HQ3]. cbv beta iota. rewrite u64_small by (unfold estimate in *; lia).
  set (buf := fresh_cells _ _ _). assert (zlen buf = estimate) as Ez by (unfold buf, fresh_cells; rewrite zlen_replicate, Z.div_1_r; unfold estimate in *; lia).
  set (w1 := World _ _) in *. assert (w_live w1 = w_live w + 1) as Hw1 by done.
  assert (forall b w', zlen b = estimate -> w_live w' = w_live w + 1 ->
    wp ('(err, bw) ← deflate_write_stored (bit_writer_init b 10 (estimate - 10)) data len true; mret (err, bw, w'))
       (fun '(err, bw, w') => wp (if negb (bool_decide (err = SCL_OK)) then mret (err, None, 0, scl_free w' (Some (bw_buf bw))) else gzip_finish w' bw data len level estimate) Q)) as Hstored.
  { intros b w' Ezb Hw'. wstep. eapply (wp_write_stored data Hdata ltac:(unfold estimate, PTRDIFF_MAX in *; lia) b 10 (estimate - 10)); [apply writes_init; unfold estimate, PTRDIFF_MAX in *; lia|done|unfold stored_size, estimate; cbn [width]; lia|].
    intros bw fs W Hn Hsz Hsays. cbv beta iota. wstep. rewrite bool_decide_true by done. cbn [negb]. eapply wp_gzip_finish; [exact W|done|exact Ezb|done|exact (Hsays [])| |].
    - intros b' n file Hf Hfz Hn' Hsl. by eapply HQ1.
    - intros b' Hbig. exfalso. cbn [app] in Hbig. unfold stored_size, estimate in *. lia. }
  destruct (Z.eqb_spec level 0) as [->|Hlev].
  { wstep. eapply wp_mono; [apply (Hstored buf w1 Ez Hw1)|]. intros [[err bw] w']. done. }
  wstep. wstep. eapply (wp_compress_fixed al data level Hdata ltac:(unfold estimate, PTRDIFF_MAX in *; lia) buf 10 (estimate - 10)); [apply writes_init; unfold estimate, PTRDIFF_MAX in *; lia|done|exact Hagree| |].
  - intros bw w' W Hw'. cbv beta iota. rewrite bool_decide_false by done. wstep. rewrite bool_decide_true by done. cbn [negb app] in *. eapply wp_gzip_finish; [exact W|done|exact Ez|done| | |].
    + apply says_last. rewrite <- (app_nil_l data) at 1. rewrite <- (literals_expand data []). apply says_fixed; [by apply literals_ok|by apply literals_code].
    + intros b' n file Hf Hfz Hn' Hsl. eapply HQ1; first [done | lia | idtac]; try done; lia.
    + intros b' Hbig. apply HQ2; [done|lia|]. cbn [scl_free w_live]. lia.
  - intros bw w' _ Hzb Hw'. cbv beta iota. rewrite bool_decide_true by done. eapply wp_mono; [apply (Hstored (bw_buf bw) w'); [by rewrite Hzb|lia]|]. intros [[err bw'] w2]. done.
Qed.
End Compressing.

(** ** Decompression *)
Lemma holds_delivers out data : holds out data -> delivers (get_elem (ou_buf out)) data.
Proof.
  intros [_ Hb] i x Hx. destruct (ou_buf out) as [|b|]; [subst data; by rewrite zlook_nil in Hx| |done]. cbn [get_elem]. pose proof (zlook_Some _ _ _ Hx) as Hi. unfold get_cell, get.
  enough (zlook b i = Some (Some x)) as -> by done. pose proof (f_equal (fun l => zlook l i) Hb) as E. cbv beta in E. rewrite zlook_slice, zlook_fmap, Hx in E by lia. destruct (Z.leb_spec 0 i); [|lia]. destruct (Z.ltb_spec i (zlen data - 0)); [|lia]. rewrite Z.add_0_l in E. exact E.
Qed.

(** ** The header, as RFC 1952 lays it out

    A string ends behind its terminator, or behind the input. *)
Definition skips_string (buf : list Z) (h h' : Z) : Prop :=
  h < h' <= Z.max h (zlen buf) + 1 /\ (forall i, h <= i < h' - 1 -> zlook buf i <> Some 0) /\ (zlook buf (h' - 1) = Some 0 \/ h' = Z.max h (zlen buf) + 1).

(** The optional fields that the flags announce: the extra field with its
    length, the name, the comment, the checksum of the header. *)
Definition header_ends (buf : list Z) (flg h : Z) : Prop :=
  let h1 := if Z.testbit flg 2 then 12 + num (slice buf 10 12) else 10 in
  exists h2 h3, (if Z.testbit flg 3 then skips_string buf h1 h2 else h2 = h1) /\ (if Z.testbit flg 4 then skips_string buf h2 h3 else h3 = h2) /\
    h = if Z.testbit flg 1 then h3 + 2 else h3.

Definition magic : list Z := [0x1F; 0x8B].

(** A valid header of [h] bytes, and something behind it. *)
Definition header_of (buf : list Z) (h : Z) : Prop :=
  take 3 buf = magic ++ [8] /\ 10 <= h < zlen buf /\ exists flg, zlook buf 3 = Some flg /\ header_ends buf flg h.

Lemma header_plain buf h : header_ends buf 0 h -> h = 10.
Proof. intros (h2 & h3 & H2 & H3 & ->). cbn in *. lia. Qed.

Lemma land_bit flg k : 0 <= k -> (Z.land flg (2 ^ k) =? 0) = negb (Z.testbit flg k).
Proof.
  intros Hk. destruct (Z.testbit flg k) eqn:Eb; cbn [negb].
  - apply Z.eqb_neq. intros E. assert (Z.testbit (Z.land flg (2 ^ k)) k = false) as Ef by (rewrite E; apply Z.bits_0). rewrite Z.land_spec, Z.pow2_bits_true, Eb in Ef by done. done.
  - apply Z.eqb_eq. apply Z.bits_inj'. intros i Hi. rewrite Z.land_spec, Z.bits_0. destruct (decide (i = k)) as [->|Hne]; [by rewrite Eb|]. rewrite (Z.pow2_bits_false k i) by lia. apply andb_false_r.
Qed.

Lemma wp_skip_string buf h (Q : Z -> Prop) : zlen buf <= PTRDIFF_MAX -> 0 <= h <= 2 ^ 63 + 2 ^ 20 -> (forall h', skips_string buf h h' -> Q h') -> wp (skip_string buf (zlen buf) h) Q.
Proof.
  intros Hl Hh HQ. pose proof (zlen_nonneg buf). unfold PTRDIFF_MAX in *. unfold skip_string. wstep.
  apply (wp_loop_rel (fun f k => h <= k <= Z.max h (zlen buf) /\ (forall i, h <= i < k -> zlook buf i <> Some 0) /\ f = Z.max 0 (zlen buf - k)) (Z.max 0 (zlen buf - h))); [split; [lia|]; split; [intros i Hi; lia|done]|lia|lia|].
  intros f k (Hk & Hn & ->). assert (zlook buf k = Some 0 \/ k = Z.max h (zlen buf) -> wp (mret (u64 (k + 1))) Q) as Hdone.
  { intros Hend. apply wp_ret. rewrite u64_small by lia. apply HQ. split; [lia|]. replace (k + 1 - 1) with k by lia. split; [exact Hn|]. destruct Hend as [?| ->]; auto. }
  destruct (Z.ltb_spec k (zlen buf)) as [Hlt|Hge]; [|wstep; apply Hdone; right; lia]. wstep. apply wp_get; [lia|]. intros c Ec. destruct (Z.eqb_spec c 0) as [->|Hc]; cbn [negb]; wstep; [apply Hdone; by left|].
  exists (Z.max 0 (zlen buf - (k + 1))). split; [lia|]. split; [lia|]. split; [|lia]. intros i Hi. destruct (decide (i = k)) as [->|]; [congruence|]. apply Hn. lia.
Qed.

Lemma num_slice2 buf a b : is_bytes buf -> zlook buf 10 = Some a -> zlook buf 11 = Some b -> num (slice buf 10 12) = a + b * 2 ^ 8.
Proof.
  intros Hb Ea Eb. rewrite (slice_cons buf 10 12 a) by (done || lia). change (10 + 1) with 11. rewrite (slice_cons buf 11 12 b), slice_nil by (done || lia). cbn [num]. lia.
Qed.

Lemma wp_gzip_header_size buf flg (Q : option Z -> Prop) : is_bytes buf -> 18 <= zlen buf <= PTRDIFF_MAX -> (forall h, 10 <= h -> header_ends buf flg h -> Q (Some h)) -> wp (gzip_header_size buf (zlen buf) flg) Q.
Proof.
  intros Hb Hl HS. unfold gzip_header_size, PTRDIFF_MAX in *. wstep.
  pose proof (land_bit flg 1 ltac:(lia)) as L1. pose proof (land_bit flg 2 ltac:(lia)) as L2. pose proof (land_bit flg 3 ltac:(lia)) as L3. pose proof (land_bit flg 4 ltac:(lia)) as L4.
  change (2 ^ 1) with 2 in L1. change (2 ^ 2) with 4 in L2. change (2 ^ 3) with 8 in L3. change (2 ^ 4) with 16 in L4. rewrite L1, L2, L3, L4, !negb_involutive.
  assert (forall h1, 10 <= h1 <= zlen buf + 2 ^ 17 -> h1 = (if Z.testbit flg 2 then 12 + num (slice buf 10 12) else 10) ->
    wp (h ← (if Z.testbit flg 3 then skip_string buf (zlen buf) h1 else mret h1); h ← (if Z.testbit flg 4 then skip_string buf (zlen buf) h else mret h);
    mret (Some (if Z.testbit flg 1 then u64 (h + 2) else h))) Q) as Hrest.
  { intros h1 Hh1 E1. assert (forall h (b : bool) (R : Z -> Prop), 10 <= h <= zlen buf + 2 ^ 17 + 2 -> (forall h', 10 <= h' <= Z.max h (zlen buf) + 1 -> (if b then skips_string buf h h' else h' = h) -> R h') -> wp (if b then skip_string buf (zlen buf) h else mret h) R) as Hskip.
    { intros k b R Hk HR. destruct b; [|apply wp_ret, HR; [lia|done]]. apply wp_skip_string; [unfold PTRDIFF_MAX; lia|lia|]. intros k' Hk'. apply HR; [destruct Hk'; lia|done]. }
    wstep. apply Hskip; [lia|]. intros h2 Hh2 S2. wstep. apply Hskip; [lia|]. intros h3 Hh3 S3. wstep. apply HS; [destruct (Z.testbit flg 1); [rewrite u64_small by lia|]; lia|].
    exists h2, h3. rewrite <- E1. split; [done|]. split; [done|]. destruct (Z.testbit flg 1); [|done]. by rewrite u64_small by lia. }
  destruct (Z.testbit flg 2).
  - rewrite Z.gtb_ltb. destruct (Z.ltb_spec (zlen buf) (10 + 2)); [lia|]. wstep. apply wp_get; [lia|]. intros a Ea. wstep. apply wp_get; [lia|]. intros b Eb. wstep. pose proof (byte_in _ _ _ Hb Ea). pose proof (byte_in _ _ _ Hb Eb).
    rewrite lor_shift by lia. apply Hrest; [lia|]. rewrite (num_slice2 _ _ _ Hb Ea Eb). lia.
  - wstep. apply Hrest; [lia|done].
Qed.

Section Gunzip.
Context (al : scl_allocator_t) `{!AllocatorOk al} (fuel : nat) (max_out : Z).

Lemma out_rep_free live0 out w data (Q : world -> Prop) : out_rep max_out live0 out w data -> (forall w', w_live w' = live0 -> Q w') -> wp (free_ptr w (ou_buf out)) Q.
Proof.
  intros [_ _ Hb] HQ. destruct (ou_buf out) as [|b|]; [|destruct Hb as (_ & Hw & _)|done]; apply wp_ret, HQ; cbn [scl_free w_live]; [apply Hb|lia].
Qed.

(** What the trailer of [buf] says about the data. *)
Definition trailer_of (buf data : list Z) : Prop :=
  num (slice buf (zlen buf - 8) (zlen buf - 4)) = crc32 data /\ num (slice buf (zlen buf - 4) (zlen buf)) = u32 (zlen data).

Lemma wp_gzip_check live0 w buf out data (Q : inflated -> Prop) : is_bytes buf -> 8 <= zlen buf -> byte_rep max_out live0 out w data ->
  (holds out data -> trailer_of buf data -> Q (SCL_OK, ou_buf out, ou_len out, w)) -> (forall w', ~ trailer_of buf data -> w_live w' = live0 -> Q (SCL_ERR_PARSE, Null, 0, w')) -> wp (gzip_check w buf (zlen buf) out) Q.
Proof.
  intros Hb Hl R HQ1 HQ2. pose proof R as [O B]. pose proof (out_rep_holds _ _ _ _ _ O) as Ho. unfold gzip_check. cbv zeta. rewrite !get_le32_spec by (done || lia). replace (zlen buf - 8 + 4) with (zlen buf - 4) by lia. replace (zlen buf - 4 + 4) with (zlen buf) by lia.
  wstep. wstep. wstep. wstep. rewrite (or_len _ _ _ _ _ O). rewrite (crc32_spec _ data B (holds_delivers _ _ Ho)). wstep. wstep. unfold trailer_of in *.
  destruct (Z.eqb_spec (crc32 data) (num (slice buf (zlen buf - 8) (zlen buf - 4)))) as [Ec|Hc]; cbn [negb].
  - destruct (Z.eqb_spec (u32 (zlen data)) (num (slice buf (zlen buf - 4) (zlen buf)))) as [Es|Hs]; cbn [negb].
    + wstep. rewrite <- (or_len _ _ _ _ _ O). by apply HQ1.
    + wstep. eapply out_rep_free; [exact O|]. intros w' Hw. wstep. apply HQ2; [|done]. intros [_ E]. by rewrite E in Hs.
  - wstep. eapply out_rep_free; [exact O|]. intros w' Hw. wstep. apply HQ2; [|done]. intros [E _]. by rewrite E in Hc.
Qed.

(** Why a file is refused: its magic, its method, its header, its stream, or its
    trailer. *)
Definition refuses (buf : list Z) (P : Z -> scl_error_t -> output -> list Z -> Prop) (e : scl_error_t) : Prop :=
  take 2 buf <> magic /\ e = SCL_ERR_PARSE \/
  take 2 buf = magic /\ zlook buf 2 <> Some 8 /\ e = SCL_ERR_UNSUPPORTED \/
  take 3 buf = magic ++ [8] /\ e = SCL_ERR_PARSE /\ (exists flg h, zlook buf 3 = Some flg /\ header_ends buf flg h /\ zlen buf <= h) \/
  (exists h out data, header_of buf h /\ e <> SCL_OK /\ P h e out data) \/
  e = SCL_ERR_PARSE /\ exists h out data, header_of buf h /\ P h SCL_OK out data /\ ~ trailer_of buf data.

Lemma take_bytes (buf : list Z) a b c : zlook buf 0 = Some a -> zlook buf 1 = Some b -> zlook buf 2 = Some c -> take 2 buf = [a; b] /\ take 3 buf = [a; b; c].
Proof. destruct buf as [|x [|y [|z l]]]; try done. intros [= ->] [= ->] [= ->]. done. Qed.

(** The whole function, from what the decompression of its middle does. *)
Lemma wp_gunzip w buf (P : Z -> scl_error_t -> output -> list Z -> Prop) (Q : inflated -> Prop) : is_bytes buf -> 18 <= zlen buf <= PTRDIFF_MAX ->
  (forall h, header_of buf h -> wp (deflate_decompress al fuel max_out (bit_reader_init (drop (Z.to_nat h) buf) (zlen buf - h)) no_output w)
     (fun '(e, _, out, w') => exists data, out_rep max_out (w_live w) out w' data /\ (e = SCL_OK -> is_bytes data) /\ P h e out data)) ->
  (forall h out data w', header_of buf h -> P h SCL_OK out data -> trailer_of buf data -> holds (Output (ou_buf out) (zlen data) 0) data -> ou_len out = zlen data ->
     wp (free_ptr w' (ou_buf out)) (fun w2 => w_live w2 = w_live w) -> Q (SCL_OK, ou_buf out, zlen data, w')) ->
  (forall e w', w_live w' = w_live w -> e <> SCL_OK -> refuses buf P e -> Q (e, Null, 0, w')) ->
  wp (scl_gzip_decompress al fuel max_out w (Some buf) (zlen buf) true) Q.
Proof.
  intros Hb Hl Hinf HQ1 HQ2. unfold scl_gzip_decompress. cbn [negb]. destruct (Z.ltb_spec (zlen buf) 18); [lia|].
  wstep. apply wp_get; [lia|]. intros b0 E0. wstep. apply wp_get; [lia|]. intros b1 E1. wstep. apply wp_get; [lia|]. intros b2 E2. wstep. apply wp_get; [lia|]. intros flg E3.
  destruct (take_bytes _ _ _ _ E0 E1 E2) as [T2 T3].
  destruct (negb (b0 =? 0x1F) || negb (b1 =? 0x8B)) eqn:Em; [wstep; apply HQ2; [done|done|]; left; split; [|done]; rewrite T2; intros Eh; injection Eh as -> ->; by vm_compute in Em|].
  apply orb_false_iff in Em as [->%negb_false_iff%Z.eqb_eq ->%negb_false_iff%Z.eqb_eq].
  destruct (Z.eqb_spec b2 8) as [->|H8]; cbn [negb]; [|wstep; apply HQ2; [done|done|]; right; left; split; [done|]; split; [congruence|done]].
  wstep. apply wp_gzip_header_size; [done|lia|]. intros h Hh He. rewrite Z.geb_leb. destruct (Z.leb_spec (zlen buf) h).
  { wstep. apply HQ2; [done|done|]. right. right. left. split; [done|]. split; [done|]. by exists flg, h. }
  assert (header_of buf h) as Hhead by (split; [done|]; split; [lia|]; by exists flg).
  wstep. eapply wp_mono; [by apply Hinf|]. intros [[[e br] out] w1] (data & R & HB & HP). case_bool_decide as Hok; cbn [negb].
  - subst e. eapply wp_gzip_check; [exact Hb|lia|split; [exact R|by apply HB]| |].
    + intros Ho Ht. pose proof (or_len _ _ _ _ _ R) as El. rewrite El. eapply HQ1; [done|exact HP|done| |done|by eapply out_rep_free; [exact R|]]. destruct Ho as [_ Ho]. by split.
    + intros w' Hno Hw. apply HQ2; [done|done|]. do 4 right. split; [done|]. by exists h, out, data.
  - wstep. eapply out_rep_free; [exact R|]. intros w' Hw. wstep. apply HQ2; [done|done|]. do 3 right. left. by exists h, out, data.
Qed.
End Gunzip.

(** ** What the containers do *)

(** C6. Both checksums are what their standards say, however their code computes
    them: the table-driven CRC-32 is the bit-by-bit division by the reflected
    polynomial, the blocked Adler-32 is the pair of sums reduced at the end (no
    32-bit addition overflows within a block of 5552 bytes), for data in a list or
    in a block; and CRC-32 tells apart any two inputs that differ only within four
    consecutive bytes. *)
Theorem checksums_exact (rd : Z -> res Z) (data : list Z) (Hdata : is_bytes data) (Hrd : delivers rd data) :
  scl_crc32_final rd (zlen data) = Ok (crc32 data) /\ scl_adler32 rd (zlen data) = Ok (adler32 data) /\
  forall a d d' b, is_bytes a -> is_bytes d -> is_bytes d' -> is_bytes b -> zlen d = zlen d' -> zlen d <= 4 -> data = a ++ d ++ b -> d <> d' ->
    exists x, scl_crc32_final (get (a ++ d' ++ b)) (zlen data) = Ok x /\ x <> crc32 data.
Proof.
  split; [by apply crc32_spec|]. split; [by apply adler32_spec|]. intros a d d' b Ha Hd Hd' Hb Ez H4 -> Hne. exists (crc32 (a ++ d' ++ b)). split.
  - replace (zlen (a ++ d ++ b)) with (zlen (a ++ d' ++ b)) by (rewrite !zlen_app; lia). apply crc32_spec; [|apply get_delivers]. apply Forall_app. split; [done|]. by apply Forall_app.
  - intros E. symmetry in E. by apply crc32_bursts in E.
Qed.

Lemma checksums_exact_witness : scl_crc32_final (get [49; 50; 51; 52; 53; 54; 55; 56; 57]) 9 = Ok 0xCBF43926 /\ scl_adler32 (get [49; 50; 51; 52; 53; 54; 55; 56; 57]) 9 = Ok 0x091E01DE.
Proof.
  assert (is_bytes [49; 50; 51; 52; 53; 54; 55; 56; 57]) as Hb by (repeat constructor; lia).
  destruct (checksums_exact (get [49; 50; 51; 52; 53; 54; 55; 56; 57]) [49; 50; 51; 52; 53; 54; 55; 56; 57] Hb (get_delivers _)) as (E1 & E2 & _). split.
  - change 9 with (zlen [49; 50; 51; 52; 53; 54; 55; 56; 57]). rewrite E1. vm_compute. reflexivity.
  - change 9 with (zlen [49; 50; 51; 52; 53; 54; 55; 56; 57]). rewrite E2. vm_compute. reflexivity.
Defined.

(** What the decompression of the stream behind a header of [h] bytes returns. *)
Definition inflates (al : scl_allocator_t) (fuel : nat) (max_out : Z) (w : world) (buf : list Z) (h : Z) (e : scl_error_t) (out : output) (data : list Z) : Prop :=
  holds out data /\ exists br w1, deflate_decompress al fuel max_out (bit_reader_init (drop (Z.to_nat h) buf) (zlen buf - h)) no_output w = Ok (e, br, out, w1).



Lemma slice_mid {A} (a d b : list A) : slice (a ++ d ++ b) (zlen a) (zlen a + zlen d) = d.
Proof.
  unfold slice, zlen. replace (Z.of_nat (length a) + Z.of_nat (length d) - Z.of_nat (length a)) with (Z.of_nat (length d)) by lia. by rewrite !Nat2Z.id, drop_app_length, take_app_length.
Qed.

(** A file that [scl_gzip_compress] wrote is read back. *)
Lemma gunzip_file (al : scl_allocator_t) `{!AllocatorOk al} (w : world) (fuel : nat) (max_out : Z) (data file : list Z) :
  is_bytes data -> gzip_file data file -> zlen file <= PTRDIFF_MAX -> 0 <= max_out <= PTRDIFF_MAX -> 8 * zlen file < Z.of_nat fuel ->
  exists e p n w', scl_gzip_decompress al fuel max_out w (Some file) (zlen file) true = Ok (e, p, n, w') /\
    (e = SCL_OK /\ n = zlen data /\ holds (Output p n 0) data \/ refused max_out e data).
Proof.
  intros Hdata (level & body & fs & pad & -> & Hbody & Hpad & Hnum & Hw & Hs) Hlen Hmax Hfuel. destruct (header_bytes level) as [Hh Hhz]. destruct (le32_bytes (crc32 data)) as [Hc Hcn]; [apply crc32_range; done|]. pose proof (zlen_nonneg data). destruct (le32_bytes (zlen data)) as [Hz Hzn]; [done|].
  set (buf := header level ++ body ++ le32 (crc32 data) ++ le32 (zlen data)) in *. assert (is_bytes buf) as Hbuf by (unfold buf; repeat (apply Forall_app; split; [done|]); done).
  assert (zlen buf = 10 + zlen body + 8) as Ez by (unfold buf; rewrite !zlen_app, Hhz; change (zlen (le32 (crc32 data))) with 4; change (zlen (le32 (zlen data))) with 4; lia). pose proof (zlen_nonneg body).
  assert (drop 10 buf = body ++ le32 (crc32 data) ++ le32 (zlen data)) as Edrop by (unfold buf, header; reflexivity). set (rest := body ++ le32 (crc32 data) ++ le32 (zlen data)) in *.
  assert (zlen rest = zlen buf - 10) as Ezr by (rewrite <- Edrop; unfold zlen in *; rewrite length_drop; lia).
  assert (trailer_of buf data) as Ht.
  { unfold trailer_of. replace (zlen buf - 8) with (zlen (header level ++ body)) by (rewrite zlen_app; lia). replace (zlen buf - 4) with (zlen (header level ++ body ++ le32 (crc32 data))) by (rewrite !zlen_app; change (zlen (le32 (crc32 data))) with 4; lia). split.
    - pose proof (slice_mid (header level ++ body) (le32 (crc32 data)) (le32 (zlen data))) as E. rewrite <- zlen_app, <- !app_assoc in E. unfold buf, rest. rewrite E, Hcn. apply Z.mod_small. by apply crc32_range.
    - pose proof (slice_mid (header level ++ body ++ le32 (crc32 data)) (le32 (zlen data)) []) as E. rewrite <- zlen_app, app_nil_r, <- !app_assoc in E. unfold buf, rest. by rewrite E, Hzn. }
  assert (zlook buf 3 = Some 0) as H3 by (unfold buf, header; reflexivity). assert (take 2 buf = magic /\ zlook buf 2 = Some 8) as [Hmag Hmeth] by (unfold buf, header; by split).
  assert (forall h, header_of buf h -> h = 10) as Hten by (intros h (_ & _ & flg & Hflg & Hends); assert (flg = 0) as -> by congruence; by eapply header_plain).
  destruct (proj1 (wp_ok (scl_gzip_decompress al fuel max_out w (Some buf) (zlen buf) true) (fun '(e, p, n, w') => e = SCL_OK /\ n = zlen data /\ holds (Output p n 0) data \/ refused max_out e data))) as ([[[e p] n] w'] & E & Hr); [|by exists e, p, n, w'].
  eapply (wp_gunzip al fuel max_out w buf (fun _ e _ data' => e = SCL_OK /\ data' = data \/ refused max_out e data)); [done|lia| | |].
  - intros h Hhd. rewrite (Hten h Hhd). change (Z.to_nat 10) with 10%nat. rewrite Edrop, <- Ezr. pose proof (at_bits_prefix body (le32 (crc32 data) ++ le32 (zlen data)) _ Hbody Hnum Hw) as Hat. fold rest in Hat.
    destruct (stream_fields_ok _ _ _ _ Hs) as [Hfs _]. apply at_bits_app in Hat as [Hat _]; [|lia|exact Hfs|by apply Forall_singleton]. rewrite width_app in Hw. cbn [width snd] in Hw. destruct Hpad as [Hpad _]. cbn [snd] in Hpad.
    assert (is_bytes rest) as Hrest by (unfold rest; apply Forall_app; split; [done|by apply Forall_app]).
    eapply (wp_stream_known al fuel max_out (w_live w) Hmax rest Hrest); [lia|lia|exact Hs|apply reads_init; lia|apply out_rep_start; lia|exact Hat|lia| |].
    + intros br out w1 _ O. exists data. split; [exact O|]. split; [done|by left].
    + intros e br out w1 d He O. exists d. split; [exact O|]. split; [intros ->; by destruct He as [[]|]|by right].
  - intros h out d w' _ HP _ Ho _ _. destruct HP as [[_ ->]|Hr]; [left; by split|]. by destruct Hr as [[]|].
  - intros e w' _ He Hcase. right. destruct Hcase as [[Hm _]|[(_ & Hm & _)|[(_ & _ & flg & h & Hflg & Hends & Hlong)|[(h & out & d & _ & _ & [[-> _]|Hr])|(-> & h & out & d & _ & [[_ ->]|Hr] & Hno)]]]]; try done; [|by destruct Hr as [[]|]].
    assert (flg = 0) as -> by congruence. apply header_plain in Hends. lia.
Qed.

(** Without a buffer there is nothing to compress into. *)
Lemma gzip_compress_refused (al : scl_allocator_t) (w : world) (data : list Z) (level : Z) :
  estimate data + 8 <= PTRDIFF_MAX -> malloc_fn al (w_reqs w) (estimate data) MAX_ALIGN = false ->
  scl_gzip_compress al w (Some data) (zlen data) true level = Ok (SCL_ERR_OUT_OF_MEMORY, None, 0, World (S (w_reqs w)) (w_live w)).
Proof.
  intros Hest Hm. pose proof (zlen_nonneg data). assert (0 <= zlen data / 65535 <= zlen data) as Hq by zdiv. unfold scl_gzip_compress, PTRDIFF_MAX in *. cbn [negb].
  rewrite u64_estimate by (unfold PTRDIFF_MAX; lia).
  cbv zeta. unfold scl_alloc. by rewrite Hm.
Qed.

(** When one hash table is granted and the other is not, the compressor frees the
    one it has twice. *)
Lemma gzip_compress_double_free (al : scl_allocator_t) (w : world) (data : list Z) (level : Z) :
  estimate data + 8 <= PTRDIFF_MAX -> malloc_fn al (w_reqs w) (estimate data) MAX_ALIGN = true -> 0 < level -> 0 < zlen data ->
  calloc_fn al (S (w_reqs w)) SCL_LZ77_HASH_SIZE 4 MAX_ALIGN <> calloc_fn al (S (S (w_reqs w))) (zlen data) 4 MAX_ALIGN ->
  scl_gzip_compress al w (Some data) (zlen data) true level = UB.
Proof.
  intros Hest Hm Hlev Hlen Hdis. assert (0 <= zlen data / 65535 <= zlen data) as Hq by zdiv. unfold scl_gzip_compress, PTRDIFF_MAX in *. cbn [negb].
  rewrite u64_estimate by (unfold PTRDIFF_MAX; lia).
  cbv zeta. unfold scl_alloc. rewrite Hm. cbv beta iota. rewrite u64_small by (unfold estimate in *; lia). destruct (Z.eqb_spec level 0); [lia|].
  rewrite (compress_double_free al _ data level true (fresh_cells _ _ _) 10 (estimate data - 10)); try done; try lia.
  - unfold estimate, PTRDIFF_MAX in *. lia.
  - unfold fresh_cells. rewrite zlen_replicate, Z.div_1_r. unfold estimate in *. lia.
Qed.



(** Data whose codes fit the buffer without the trailer are refused, although they
    could be stored: 400 bytes of 255. *)
Lemma gzip_refuses_gap :
  let al := {| malloc_fn := fun _ n _ => (0 <? n) && (n <=? 2 ^ 20); calloc_fn := fun _ _ _ _ => false; realloc_fn := fun _ _ _ _ _ => Refused |} in
  exists w, scl_gzip_compress al (World 0 0) (Some (replicate 400 255)) 400 true 6 = Ok (SCL_ERR_SIZE_OVERFLOW, None, 0, w) /\
  exists b n w', scl_gzip_compress al (World 0 0) (Some (replicate 400 255)) 400 true 0 = Ok (SCL_OK, Some b, n, w').
Proof. eexists. split; [vm_compute; reflexivity|]. eexists _, _, _. vm_compute. reflexivity. Qed.

(** ** zlib *)
Definition be32 (l : list Z) : Z := match l with a :: b :: c :: d :: _ => a * 2 ^ 24 + b * 2 ^ 16 + c * 2 ^ 8 + d | _ => 0 end.

Lemma be32_cells l p a b c d : is_bytes l -> 0 <= p -> zlook l p = Some a -> zlook l (p + 1) = Some b -> zlook l (p + 2) = Some c -> zlook l (p + 3) = Some d ->
  Z.lor (Z.lor (Z.lor (u32 (Z.shiftl a 24)) (u32 (Z.shiftl b 16))) (u32 (Z.shiftl c 8))) d = be32 (drop (Z.to_nat p) l).
Proof.
  intros Hl Hp Ea Eb Ec Ed. pose proof (byte_in _ _ _ Hl Ea). pose proof (byte_in _ _ _ Hl Eb). pose proof (byte_in _ _ _ Hl Ec). pose proof (byte_in _ _ _ Hl Ed).
  assert (exists r, drop (Z.to_nat p) l = a :: b :: c :: d :: r) as [r ->].
  { unfold zlook in *. destruct (Z.leb_spec 0 p); [|lia]. destruct (Z.leb_spec 0 (p + 1)); [|lia]. destruct (Z.leb_spec 0 (p + 2)); [|lia]. destruct (Z.leb_spec 0 (p + 3)); [|lia].
    replace (Z.to_nat (p + 1)) with (S (Z.to_nat p)) in Eb by lia. replace (Z.to_nat (p + 2)) with (S (S (Z.to_nat p))) in Ec by lia. replace (Z.to_nat (p + 3)) with (S (S (S (Z.to_nat p)))) in Ed by lia.
    exists (drop (S (S (S (S (Z.to_nat p))))) l). by rewrite (drop_S _ _ _ Ea), (drop_S _ _ _ Eb), (drop_S _ _ _ Ec), (drop_S _ _ _ Ed). }
  cbn [be32]. unfold u32. rewrite !Z.shiftl_mul_pow2 by lia. rewrite !Z.mod_small by lia. rewrite <- (Z.shiftl_mul_pow2 a 24), <- (Z.shiftl_mul_pow2 b 16), <- (Z.shiftl_mul_pow2 c 8) by lia.
  assert (forall A B C, Z.lor (Z.lor (Z.lor A B) C) d = Z.lor (Z.lor (Z.lor d C) B) A) as Ecomm.
  { intros A B C. apply Z.bits_inj'. intros i _. rewrite !Z.lor_spec. by destruct (Z.testbit A i), (Z.testbit B i), (Z.testbit C i), (Z.testbit d i). }
  rewrite Ecomm, (lor_shift d c 8), (lor_shift (d + c * 2 ^ 8) b 16), (lor_shift (d + c * 2 ^ 8 + b * 2 ^ 16) a 24) by lia. rewrite !Z.shiftl_mul_pow2 by lia. lia.
Qed.



(** A stream that ends in the middle of the extra bits of a length is accepted:
    zeros are read behind its end, here as a distance, a match and the end of the
    block.  The Adler-32 is then looked for behind the input. *)
Lemma inflate_accepts_truncated : exists out n w, scl_inflate_raw small_allocator 100 1000 (World 0 0) (Some [59; 145; 56; 8]) 4 true 0 = Ok (SCL_OK, Ptr out, n, w) /\ n = 133.
Proof. eexists _, _, _. split; vm_compute; reflexivity. Qed.

Lemma zlib_overreads : scl_zlib_decompress small_allocator 100 1000 (World 0 0) (Some [0x78; 0x01; 59; 145; 56; 8]) 6 true 0 = UB.
Proof. vm_compute. reflexivity. Qed.
