(* ===== verification/BoyerMoore.v ===== *)
(** Boyer-Moore ([libs/search/boyer_moore/scl_boyer_moore.c]): the tables of
    the bad-character and the good-suffix rules, and the scan that skips with
    the larger of the two shifts.  The specification is that of [StringSearch]:
    exactly the occurrences, overlapping ones included.  A pattern of one
    character makes the code write before its table. *)

From S2P Require Import Prelude Core Bytes StringSearch.
#[local] Open Scope Z_scope.

Definition UCHAR_MAX : Z := 255.
Definition INT_MAX : Z := 2 ^ 31 - 1.

Definition bad_char_table (pat : list Z) (plen : Z) : res (block Z) :=
  bad_char ← zfor 0 (UCHAR_MAX + 1) (fun i bad_char => set bad_char i (Some plen)) (replicate 256 None);
  zfor 0 (plen - 1) (fun i bad_char => c ← get pat i; set bad_char (u8 c) (Some (plen - 1 - i))) bad_char.

(** How far down from [g] the pattern agrees with its end. *)
Definition extend_suffix (pat : list Z) (plen f g : Z) : res Z :=
  loop (S (Z.to_nat plen))
    (fun g =>
       if g >=? 0 then
         x ← get pat g; y ← get pat (plen - 1 - f + g);
         mret (if x =? y then inl (g - 1) else inr g)
       else mret (inr g)) g.

Definition suffix_table (pat : list Z) (plen : Z) (suffix : block Z) : res (block Z) :=
  suffix ← set suffix (plen - 1) (Some plen);
  loop (S (Z.to_nat plen))
    (fun '(suffix, g, f, i) =>
       if i >=? 0 then
         known ← (if i >? g then s ← get_cell suffix (plen - 1 - f + i); mret (s <? i - g) else mret false);
         if known : bool then
           s ← get_cell suffix (plen - 1 - f + i);
           suffix ← set suffix i (Some s); mret (inl (suffix, g, f, i - 1))
         else
           let g := if i <? g then i else g in
           let f := i in
           g ← extend_suffix pat plen f g;
           suffix ← set suffix i (Some (f - g)); mret (inl (suffix, g, f, i - 1))
       else mret (inr suffix))
    (suffix, plen - 1, plen - 1, plen - 2).

(** The shift of a border fills the entries that have none yet. *)
Definition fill_border (plen i : Z) (gs : block Z) : res (block Z) :=
  zfor 0 (plen - 1 - i)
    (fun j gs => x ← get_cell gs j; if x =? plen then set gs j (Some (plen - 1 - i)) else mret gs) gs.

(** The last loop counts [i <= plen - 2] in [size_t]. *)
Definition good_suffix_table (plen : Z) (suffix gs : block Z) : res (block Z) :=
  gs ← zfor 0 (plen + 1) (fun i gs => set gs i (Some plen)) gs;
  gs ← zfor_down plen
    (fun i gs => let i := i - 1 in s ← get_cell suffix i; if s =? i + 1 then fill_border plen i gs else mret gs) gs;
  loop (S (Z.to_nat plen))
    (fun '(gs, i) =>
       if i <=? u64 (plen - 2) then
         s ← get_cell suffix i;
         gs ← set gs (plen - 1 - s) (Some (plen - 1 - i)); mret (inl (gs, i + 1))
       else mret (inr gs))
    (gs, 0).

Section Scan.
Context {U : Type}.
Implicit Types (cb : option (Z -> U -> bool * U)) (user : U).

(** The place where the window at [i] differs from the pattern, from the right;
    negative when it does not. *)
Definition bm_compare (text pat : list Z) (plen i : Z) : res Z :=
  loop (S (Z.to_nat plen))
    (fun j =>
       if j >=? 0 then
         x ← get pat j; y ← get text (i + j);
         mret (if x =? y then inl (j - 1) else inr j)
       else mret (inr j)) (plen - 1).

Definition bm_scan (text : list Z) (tlen : Z) (pat : list Z) (plen : Z) (bad_char gs : block Z) (match_shift : Z)
    cb user : res (scl_error_t * Z * U) :=
  loop (S (Z.to_nat tlen))
    (fun '(i, count, result, user) =>
       if i <=? tlen - plen then
         j ← bm_compare text pat plen i;
         if j <? 0 then
           let count := u64 (count + 1) in
           let '(go, user) := match cb with Some cb => cb i user | None => (true, user) end in
           if go : bool then mret (inl (u64 (i + match_shift), count, SCL_OK, user))
           else mret (inr (SCL_OK, count, user))
         else
           c ← get text (i + j); b ← get_cell bad_char (u8 c);
           let shift_bc := b - (plen - 1 - j) in
           let shift_bc := if shift_bc <? 1 then 1 else shift_bc in
           shift_gs ← get_cell gs j;
           mret (inl (u64 (i + if shift_bc >? shift_gs then shift_bc else shift_gs), count, result, user))
       else mret (inr (result, count, user)))
    (0, 0, SCL_ERR_NOT_FOUND, user).

(** The result holds the error code, [*out_count] and the user state. *)
Definition bm_core (al : scl_allocator_t) (w : world) (text : option (list Z)) (tlen : Z)
    (pat : option (list Z)) (plen : Z) cb user : res (scl_error_t * option Z * U * world) :=
  match text, pat with
  | Some text, Some pat =>
      if tlen =? 0 then mret (SCL_ERR_EMPTY, None, user, w)
      else if plen =? 0 then mret (SCL_ERR_INVALID_ARG, None, user, w)
      else if plen >? INT_MAX then mret (SCL_ERR_SIZE_OVERFLOW, None, user, w)
      else if plen >? tlen then mret (SCL_ERR_NOT_FOUND, None, user, w)
      else
        bad_char ← bad_char_table pat plen;
        match scl_mul_overflow (plen + 1) 4 with
        | None => mret (SCL_ERR_SIZE_OVERFLOW, None, user, w)
        | Some tbytes =>
            let '(suffix, w) := scl_alloc al w tbytes MAX_ALIGN 4 in
            let '(gs, w) := scl_alloc al w tbytes MAX_ALIGN 4 in
            match suffix, gs with
            | Some suffix, Some gs =>
                suffix ← suffix_table pat plen suffix;
                gs ← good_suffix_table plen suffix gs;
                match_shift ← get_cell gs 0;
                let match_shift := if match_shift <? 1 then 1 else match_shift in
                '(result, count, user) ← bm_scan text tlen pat plen bad_char gs match_shift cb user;
                mret (result, Some count, user, scl_free (scl_free w (Some suffix)) (Some gs))
            | _, _ => mret (SCL_ERR_OUT_OF_MEMORY, None, user, scl_free (scl_free w suffix) gs)
            end
        end
  | _, _ => mret (SCL_ERR_NULL_PTR, None, user, w)
  end.

Definition scl_search_boyer_moore_all := bm_core.
End Scan.

Definition bm_first_cb (pos : Z) (user : Z) : bool * Z := (false, pos).

(** [out]: [pos] is not [NULL]; the position is written on success only. *)
Definition scl_search_boyer_moore (al : scl_allocator_t) (w : world) (text : option (list Z)) (tlen : Z)
    (pat : option (list Z)) (plen : Z) (out : bool) : res (scl_error_t * option Z * world) :=
  if negb out then mret (SCL_ERR_NULL_PTR, None, w)
  else
    '(r, _, found, w) ← bm_core al w text tlen pat plen (Some bm_first_cb) 0;
    mret (r, match r with SCL_OK => Some found | _ => None end, w).

(** * Theorems *)

(** A table whose cells at the indices in [D] hold values related to the index
    by [R]. *)
Definition cells (b : block Z) (D : Z -> Prop) (R : Z -> Z -> Prop) : Prop :=
  forall j, D j -> exists v, zlook b j = Some (Some v) /\ R j v.

Lemma wp_cells b D R i (Q : Z -> Prop) : cells b D R -> D i -> (forall v, R i v -> Q v) -> wp (get_cell b i) Q.
Proof. intros C Hi HQ. destruct (C i Hi) as (v & E & Hv). eapply wp_get_cell; [exact E|by apply HQ]. Qed.

Lemma cells_set b (D : Z -> Prop) (R : Z -> Z -> Prop) i x :
  0 <= i < zlen b -> R i x -> cells b (fun j => D j /\ j <> i) R -> cells (zupd b i (Some x)) D R.
Proof.
  intros Hi Hx C j Hj. destruct (Z.eq_dec j i) as [->|Hne].
  - exists x. by rewrite zlook_zupd_eq.
  - rewrite zlook_zupd_ne by done. by apply C.
Qed.

Lemma cells_mono b (D D' : Z -> Prop) (R R' : Z -> Z -> Prop) :
  cells b D R -> (forall j, D' j -> D j) -> (forall j v, D' j -> R j v -> R' j v) -> cells b D' R'.
Proof. intros C HD HR j Hj. destruct (C j (HD j Hj)) as (v & E & Hv). exists v. auto. Qed.

Section Tables.
Context (pat : list Z).
Notation m := (zlen pat).
Notation P := (zlook pat).
Hypothesis Hpat : 1 <= m <= INT_MAX.

(** ** The table of suffixes *)

(** The longest common end of the pattern and of its first [i + 1] bytes. *)
Definition suf (i v : Z) : Prop :=
  0 <= v <= i + 1 /\ (forall k, 0 <= k < v -> P (i - k) = P (m - 1 - k)) /\ (v = i + 1 \/ P (i - v) <> P (m - 1 - v)).

(** The stretch of the pattern, above [g] and up to [f], that is known to agree
    with the end of the pattern. *)
Definition window (g f : Z) : Prop := forall k, g < k <= f -> P k = P (m - 1 - f + k).

Lemma wp_extend_suffix f g0 (Q : Z -> Prop) :
  f < m -> -1 <= g0 <= f -> window g0 f ->
  (forall g, -1 <= g <= g0 -> window g f -> g = -1 \/ P g <> P (m - 1 - f + g) -> Q g) ->
  wp (extend_suffix pat m f g0) Q.
Proof.
  intros Hf Hg W HQ. apply (wp_loop (fun g => -1 <= g <= g0 /\ window g f) (fun g => g + 1)); [split; [lia|done]|lia|lia|].
  intros g [Hg' W']. rewrite Z.geb_leb. bcase; [|wstep; apply HQ; [lia|done|left; lia]].
  do 5 wstep. bcase.
  - split; [|lia]. split; [lia|]. intros k Hk. destruct (Z.eq_dec k g) as [->|]; [congruence|apply W'; lia].
  - apply HQ; [done|done|right; congruence].
Qed.

(** What is known when the entries above [i] are filled. *)
Definition scanned (i g f : Z) : Prop :=
  i < f <= m - 1 /\ -1 <= g <= f /\
  (f = m - 1 /\ g = m - 1 \/ f < m - 1 /\ window g f /\ (g = -1 \/ P g <> P (m - 1 - f + g))).

Lemma suf_known i g f s : 0 <= i -> g < i -> scanned i g f -> suf (m - 1 - f + i) s -> s < i - g -> suf i s.
Proof.
  intros H0 Hgi (Hf & Hg & [[-> ->]|(Hfm & W & Hm)]) (Hs & Hag & Hend) Hlt; [lia|]. split; [lia|]. split.
  - intros k Hk. rewrite (W (i - k)) by lia. replace (m - 1 - f + (i - k)) with (m - 1 - f + i - k) by lia. by apply Hag.
  - right. destruct Hend as [|Hend]; [lia|]. rewrite (W (i - s)) by lia.
    by replace (m - 1 - f + (i - s)) with (m - 1 - f + i - s) by lia.
Qed.

Lemma window_known i g f s : g < i -> scanned i g f -> suf (m - 1 - f + i) s -> i - g <= s -> window g i.
Proof.
  intros Hgi (Hf & Hg & [[-> ->]|(Hfm & W & Hm)]) (Hs & Hag & Hend) Hge; [lia|]. intros k Hk.
  rewrite (W k) by lia. replace (m - 1 - f + k) with (m - 1 - f + i - (i - k)) by lia. rewrite Hag by lia. f_equal. lia.
Qed.

Lemma suf_extended i g : -1 <= g <= i -> window g i -> g = -1 \/ P g <> P (m - 1 - i + g) -> suf i (i - g).
Proof.
  intros Hg W Hm. split; [lia|]. split.
  - intros k Hk. rewrite (W (i - k)) by lia. f_equal. lia.
  - destruct Hm as [->|Hm]; [left; lia|right]. replace (i - (i - g)) with g by lia. by replace (m - 1 - (i - g)) with (m - 1 - i + g) by lia.
Qed.

Lemma suf_last : suf (m - 1) m.
Proof. split; [lia|]. split; [done|]. left. lia. Qed.

Definition sufs (i : Z) (suffix : block Z) : Prop := cells suffix (fun j => i < j < m) suf.

Lemma sufs_set i suffix v : 0 <= i < zlen suffix -> sufs i suffix -> suf i v -> sufs (i - 1) (zupd suffix i (Some v)).
Proof. intros Hi C Hv. apply cells_set; [done|done|]. eapply cells_mono; [exact C|cbv beta; lia|by intros]. Qed.

Lemma wp_suffix_table suffix (Q : block Z -> Prop) :
  zlen suffix = m + 1 -> (forall suffix, sufs (-1) suffix -> Q suffix) -> wp (suffix_table pat m suffix) Q.
Proof.
  intros Hl HQ. unfold suffix_table. wstep. wstep.
  apply (wp_loop (fun '(suffix, g, f, i) => -1 <= i <= m - 2 /\ zlen suffix = m + 1 /\ sufs i suffix /\ scanned i g f)
    (fun '(suffix, g, f, i) => i + 1)); [|lia|lia|].

    { split; [lia|]. split; [by rewrite zlen_zupd|]. split; [|split; [lia|]; split; [lia|by left]].
    replace (m - 2) with (m - 1 - 1) by lia. apply sufs_set; [lia| |apply suf_last]. intros j Hj. lia. }
  clear suffix Hl. intros [[[suffix g] f] i] (Hi & Hl & C & S0). rewrite Z.geb_leb. destruct (Z.leb_spec 0 i).
  2:{ wstep. apply HQ. replace i with (-1) in C by lia. done. }
  pose proof S0 as (Hf & Hg & _).
  assert (g < i -> exists s, zlook suffix (m - 1 - f + i) = Some (Some s) /\ suf (m - 1 - f + i) s) as Hget.
  { intros Hgi. destruct S0 as (_ & _ & Hcase). apply C. lia. }
  assert (forall g1, -1 <= g1 <= i -> window g1 i ->
    wp (g ← extend_suffix pat m i g1; suffix ← set suffix i (Some (i - g)); mret (inl (suffix, g, i, i - 1)))
      (fun r : block Z * Z * Z * Z + block Z => match r with
       | inl s' => (let '(suffix, g, f, i) := s' in
           -1 <= i <= m - 2 /\ zlen suffix = m + 1 /\ sufs i suffix /\ scanned i g f) /\
           0 <= (let '(suffix, g, f, i) := s' in i + 1) < i + 1
       | inr q => Q q end)) as Hext.
  { intros g1 Hg1 W. wstep. apply wp_extend_suffix; [lia|done|done|]. intros g' Hg' W' Hm. do 3 wstep.
    split; [|lia]. split; [lia|]. split; [by rewrite zlen_zupd|]. split; [apply sufs_set; [lia|done|by apply suf_extended; [lia| |]]|].
    split; [lia|]. split; [lia|]. right. split; [lia|]. by split. }
  wstep. rewrite Z.gtb_ltb. destruct (Z.ltb_spec g i) as [Hgi|Hgi].
  - destruct (Hget Hgi) as (s & Es & Hs). wstep. eapply wp_get_cell; [exact Es|]. wstep. destruct (Z.ltb_spec s (i - g)).
    + wstep. eapply wp_get_cell; [exact Es|]. do 3 wstep. split; [|lia]. split; [lia|]. split; [by rewrite zlen_zupd|].
      split; [apply sufs_set; [lia|done|by eapply suf_known]|]. split; [lia|]. split; [lia|]. by destruct S0 as (_ & _ & [|]); [lia|right].
    + destruct (Z.ltb_spec i g); [lia|]. apply Hext; [lia|by eapply window_known].
  - wstep. destruct (Z.ltb_spec i g); apply Hext; try lia; intros k; lia.
Qed.

(** ** The table of good suffixes *)

(** The pattern, moved by [s], agrees with itself. *)
Definition border (s : Z) : Prop := forall k, s <= k < m -> P (k - s) = P k.

(** Moved by [s], it agrees with what has been read of the text when the bytes
    after [j] are those of the pattern and the one at [j] is not. *)
Definition fits (j s : Z) : Prop := (forall k, j < k < m -> s <= k -> P (k - s) = P k) /\ (s <= j -> P (j - s) <> P j).

Lemma suf_border i : suf i (i + 1) -> border (m - 1 - i).
Proof.
  intros (_ & Hag & _) k Hk. replace (k - (m - 1 - i)) with (i - (m - 1 - k)) by lia. rewrite Hag by lia. f_equal. lia.
Qed.

Lemma border_suf s v : 0 <= s < m -> border s -> suf (m - 1 - s) v -> v = m - s.
Proof.
  intros Hs B (Hv & _ & [->|Hm]); [lia|]. destruct (Z.eq_dec v (m - s)) as [|Hne]; [done|]. destruct Hm.
  rewrite <- (B (m - 1 - v)) by lia. f_equal. lia.
Qed.

Lemma fits_border j s : fits j s -> j < s -> border s.
Proof. intros [F _] Hs k Hk. apply F; lia. Qed.

Lemma fits_suf j s v : 0 < s <= j -> j < m -> fits j s -> suf (m - 1 - s) v -> v = m - 1 - j.
Proof.
  intros Hs Hj [Hf Hn] (Hv & Hag & Hend). destruct (Z.lt_trichotomy v (m - 1 - j)) as [Hlt|[|Hgt]]; [|done|].
  - destruct Hend as [|Hend]; [lia|]. destruct Hend. rewrite <- (Hf (m - 1 - v)) by lia. f_equal. lia.
  - destruct (Hn ltac:(lia)). specialize (Hag (m - 1 - j) ltac:(lia)). replace (m - 1 - s - (m - 1 - j)) with (j - s) in Hag by lia.
    rewrite Hag. f_equal. lia.
Qed.

(** After the borders up to [c]. *)
Definition bordered (c j v : Z) : Prop := 1 <= v <= m /\ (v = m \/ v < c) /\ forall s, j < s < c -> border s -> v <= s.

Lemma bordered_past c j v : bordered c j v -> c <= j -> bordered (c + 1) j v.
Proof. intros (Hv & Hc & Hb) Hj. split; [done|]. split; [lia|]. intros s Hs. lia. Qed.

Lemma bordered_more c j v : bordered c j v -> ~ border c -> bordered (c + 1) j v.
Proof.
  intros (Hv & Hc & Hb) Hn. split; [done|]. split; [lia|]. intros s Hs B. destruct (Z.eq_dec s c) as [->|]; [done|]. apply Hb; [lia|done].
Qed.

Lemma bordered_fill c j v : 0 <= j < c -> c < m -> bordered c j v -> bordered (c + 1) j (if v =? m then c else v).
Proof.
  intros Hj Hcm (Hv & Hc & Hb). bcase; (split; [lia|]; split; [lia|]).
  - intros s Hs B. destruct (Z.eq_dec s c) as [->|]; [lia|]. specialize (Hb s ltac:(lia) B). lia.
  - intros s Hs B. destruct (Z.eq_dec s c) as [->|]; [lia|]. apply Hb; [lia|done].
Qed.

Definition is_pos (j : Z) : Prop := 0 <= j < m.

Lemma wp_fill_border i gs (Q : block Z -> Prop) :
  0 <= i < m -> zlen gs = m + 1 -> cells gs is_pos (bordered (m - 1 - i)) ->
  (forall gs, zlen gs = m + 1 -> cells gs is_pos (bordered (m - 1 - i + 1)) -> Q gs) -> wp (fill_border m i gs) Q.
Proof.
  intros Hi Hl C HQ. set (c := m - 1 - i) in *. unfold fill_border.
  apply (wp_zfor (fun J gs => zlen gs = m + 1 /\ cells gs is_pos (fun j v => bordered (if decide (j < J) then c + 1 else c) j v))).
  - split; [done|]. eapply cells_mono; [exact C|done|]. intros j v [Hj _] Hb. by rewrite decide_False by lia.
  - clear gs Hl C. intros J gs HJ [Hl C]. destruct (C J ltac:(unfold is_pos; lia)) as (x & Ex & Hx). rewrite decide_False in Hx by lia.
    wstep. eapply wp_get_cell; [exact Ex|].
    pose proof (bordered_fill c J x ltac:(lia) ltac:(lia) Hx) as Hn.
    assert (cells gs (fun j => is_pos j /\ j <> J) (fun j v => bordered (if decide (j < J + 1) then c + 1 else c) j v)) as C'.
    { eapply cells_mono; [exact C|by intros j []|]. intros j v [Hj Hne] Hb. by repeat case_decide; try lia. }
    destruct (Z.eqb_spec x m); (wstep; split; [by rewrite ?zlen_zupd|]).
    + apply cells_set; [lia| |done]. by rewrite decide_True by lia.
    + intros j Hj. destruct (Z.eq_dec j J) as [->|Hne]; [|by apply C']. exists x. by rewrite decide_True by lia.
  - clear gs Hl C. intros gs [Hl C]. apply HQ; [done|]. eapply cells_mono; [exact C|done|]. intros j v [Hj _] Hb.
    case_decide; [done|]. apply bordered_past; [done|lia].
Qed.

(** The finished entry: no shift below it fits. *)
Definition good (j v : Z) : Prop :=
  1 <= v <= m /\ (forall s, j < s < m -> border s -> v <= s) /\ (forall s, 0 < s <= j -> fits j s -> v <= s).

(** After the suffixes of the first [i] bytes. *)
Definition halfway (i j v : Z) : Prop :=
  1 <= v <= m /\ (forall s, j < s < m -> border s -> v <= s) /\ (forall s, 0 < s <= j -> m - 1 - s < i -> fits j s -> v <= s).

Lemma halfway_set i j v x : 0 <= i <= m - 2 -> is_pos j -> suf i v -> j <> m - 1 - v -> halfway i j x -> halfway (i + 1) j x.
Proof.
  intros Hi [Hj0 Hjm] Hv Hj (Hx & Hb & Hf). split; [done|]. split; [done|]. intros s Hs Hsi F. destruct (Z.eq_dec (m - 1 - s) i) as [E|]; [|by apply Hf; [|lia|]].
  rewrite <- E in Hv. apply fits_suf with (j := j) in Hv; [lia|done|lia|done].
Qed.

Lemma sufs_at suffix i : sufs (-1) suffix -> 0 <= i < m -> exists s, zlook suffix i = Some (Some s) /\ suf i s.
Proof. intros C Hi. apply C. lia. Qed.

Lemma wp_fill_borders suffix gs (Q : block Z -> Prop) :
  sufs (-1) suffix -> zlen gs = m + 1 -> cells gs is_pos (bordered 0) ->
  (forall gs, zlen gs = m + 1 -> cells gs is_pos (bordered m) -> Q gs) ->
  wp (zfor_down m (fun i gs => let i := i - 1 in s ← get_cell suffix i; if s =? i + 1 then fill_border m i gs else mret gs) gs) Q.
Proof.
  intros Hsuf Hl C HQ. apply (wp_zfor_down (fun i gs => zlen gs = m + 1 /\ cells gs is_pos (bordered (m - i)))); [lia| | |].
  - split; [done|]. by replace (m - m) with 0 by lia.
  - clear gs Hl C. intros i gs Hi [Hl C]. cbv zeta. destruct (sufs_at suffix (i - 1) Hsuf ltac:(lia)) as (s & Es & Hs). wstep.
    eapply wp_get_cell; [exact Es|]. replace (m - (i - 1)) with (m - i + 1) by lia. destruct (Z.eqb_spec s (i - 1 + 1)) as [->|Hne].
    + apply wp_fill_border; [lia|done|by replace (m - 1 - (i - 1)) with (m - i) by lia|]. intros gs' Hl' C'. split; [done|].
      by replace (m - i + 1) with (m - 1 - (i - 1) + 1) by lia.
    + wstep. split; [done|]. eapply cells_mono; [exact C|done|]. intros j v [Hj Hjm] Hb.
      destruct (Z.le_gt_cases (m - i) j) as [|_]; [by apply bordered_past|]. apply bordered_more; [done|]. intros B.
      apply (border_suf (m - i) s) in B; [lia|lia|]. by replace (m - 1 - (m - i)) with (i - 1) by lia.
  - clear gs Hl C. intros gs [Hl C]. apply HQ; [done|]. by replace m with (m - 0) by lia.
Qed.

(** The first two loops, for every length. *)
Lemma wp_gs_borders suffix gs :
  sufs (-1) suffix -> zlen gs = m + 1 ->
  wp (gs ← zfor 0 (m + 1) (fun i gs => set gs i (Some m)) gs;
      zfor_down m (fun i gs => let i := i - 1 in s ← get_cell suffix i; if s =? i + 1 then fill_border m i gs else mret gs) gs)
    (fun gs => zlen gs = m + 1 /\ cells gs is_pos (bordered m)).
Proof.
  intros Hsuf Hl. unfold INT_MAX in *. wstep.
  apply (wp_zfor (fun n gs => zlen gs = m + 1 /\ cells gs (fun j => 0 <= j < n) (fun j v => v = m))).
  { split; [done|]. intros j Hj. lia. }
  { clear gs Hl. intros n gs Hn [Hl C]. wstep. split; [by rewrite zlen_zupd|]. apply cells_set; [lia|done|].
    eapply cells_mono; [exact C|cbv beta; lia|done]. }
  clear gs Hl. intros gs [Hl C]. apply wp_fill_borders; [done|done| |by intros].
  eapply cells_mono; [exact C|unfold is_pos; lia|]. intros j v [Hj _] ->. split; [lia|]. split; [by left|]. intros s Hs. lia.
Qed.

Lemma good_suffix_split suffix gs :
  sufs (-1) suffix -> zlen gs = m + 1 -> exists gs', zlen gs' = m + 1 /\ cells gs' is_pos (bordered m) /\
    good_suffix_table m suffix gs =
      loop (S (Z.to_nat m)) (fun '(gs, i) => if i <=? u64 (m - 2) then
         s ← get_cell suffix i; gs ← set gs (m - 1 - s) (Some (m - 1 - i)); mret (inl (gs, i + 1)) else mret (inr gs)) (gs', 0).
Proof.
  intros Hsuf Hl. destruct (proj1 (wp_ok _ _) (wp_gs_borders suffix gs Hsuf Hl)) as (gs' & E & Hl' & C). exists gs'. split; [done|]. split; [done|].
  unfold good_suffix_table. destruct (zfor 0 (m + 1) _ gs) as [g| |]; try discriminate E. rewrite bind_Ok in E |- *. cbv beta zeta in E |- *. by rewrite E.
Qed.

(** With one byte the last loop runs, and its first round writes before the
    table. *)
Lemma good_suffix_underflow suffix gs : m = 1 -> sufs (-1) suffix -> zlen gs = m + 1 -> good_suffix_table m suffix gs = UB.
Proof.
  intros Hm Hsuf Hl. destruct (good_suffix_split suffix gs Hsuf Hl) as (gs' & Hl' & _ & ->).
  destruct (sufs_at suffix 0 Hsuf ltac:(lia)) as (s & Es & Hs & _ & Hend).
  assert (s = 1) as -> by (destruct Hend as [|Hend]; [lia|]; destruct (Z.eq_dec s 1); [done|]; destruct Hend; f_equal; lia).
  rewrite Hm. change (Z.to_nat 1) with 1%nat. cbn [loop]. change (0 <=? u64 (1 - 2)) with true. cbv iota beta.
  unfold get_cell, get. by rewrite Es.
Qed.

Lemma wp_good_suffix_table suffix gs (Q : block Z -> Prop) :
  2 <= m -> sufs (-1) suffix -> zlen gs = m + 1 -> (forall gs, cells gs is_pos good -> Q gs) ->
  wp (good_suffix_table m suffix gs) Q.
Proof.
  intros Hm Hsuf Hl HQ. destruct (good_suffix_split suffix gs Hsuf Hl) as (gs' & Hl' & C & ->). unfold INT_MAX in *.
  clear gs Hl. rename gs' into gs, Hl' into Hl. rewrite u64_small by lia.
  apply (wp_loop (fun '(gs, i) => 0 <= i <= m - 1 /\ zlen gs = m + 1 /\ cells gs is_pos (halfway i)) (fun '(gs, i) => m - i)); [|lia|lia|].
  { split; [lia|]. split; [done|]. eapply cells_mono; [exact C|done|]. intros j v [Hj Hjm] (Hv & _ & Hb). split; [done|]. split; [done|]. intros s Hs. lia. }
  clear gs Hl C. intros [gs i] (Hi & Hl & C). destruct (Z.leb_spec i (m - 2)).
  - destruct (sufs_at suffix i Hsuf ltac:(lia)) as (v & Ev & Hv). pose proof Hv as (Hv1 & _). wstep. eapply wp_get_cell; [exact Ev|]. do 3 wstep.
    split; [|lia]. split; [lia|]. split; [by rewrite zlen_zupd|]. apply cells_set; [lia| |].
    + split; [lia|]. split; [intros s Hs _; lia|]. intros s Hs Hsi _. lia.
    + eapply cells_mono; [exact C|by intros j []|]. intros j x [Hj Hne] Hx. by eapply halfway_set; [lia|done|done|done|].
  - wstep. apply HQ. eapply cells_mono; [exact C|done|]. intros j v [Hj Hjm] (Hv & Hb & Hf). split; [done|]. split; [done|].
    intros s Hs F. apply Hf; [done|lia|done].
Qed.

(** ** The table of bad characters *)
Definition rightmost (n c v : Z) : Prop := 1 <= v <= m /\ forall k x, 0 <= k < n -> P k = Some x -> u8 x = c -> v <= m - 1 - k.
Definition is_byte (c : Z) : Prop := 0 <= c < 256.

Lemma u8_is_byte x : is_byte (u8 x).
Proof. unfold is_byte, u8. apply Z.mod_pos_bound. lia. Qed.

Lemma wp_bad_char_table (Q : block Z -> Prop) :
  (forall bad_char, cells bad_char is_byte (rightmost (m - 1)) -> Q bad_char) -> wp (bad_char_table pat m) Q.
Proof.
  intros HQ. unfold bad_char_table, UCHAR_MAX. wstep.
  apply (wp_zfor (fun n b => zlen b = 256 /\ cells b (fun j => 0 <= j < n) (fun j v => v = m))).
  { split; [done|]. intros j Hj. lia. }
  { intros n b Hn [Hl C]. wstep. split; [by rewrite zlen_zupd|]. apply cells_set; [lia|done|].
    eapply cells_mono; [exact C|cbv beta; lia|done]. }
  intros b [Hl C].
  apply (wp_zfor (fun n b => zlen b = 256 /\ cells b is_byte (rightmost n))).
  { split; [done|]. eapply cells_mono; [exact C|unfold is_byte; lia|]. intros j v _ ->. split; [lia|]. intros k x Hk. lia. }
  { clear b Hl C. intros n b Hn [Hl C]. wstep. wstep. rename x into c, Hx into Ec. pose proof (u8_is_byte c) as Hc. unfold is_byte in Hc. wstep.
    split; [by rewrite zlen_zupd|]. apply cells_set; [lia|split; [lia|intros; lia]|]. eapply cells_mono; [exact C|by intros j []|].
    intros j v [_ Hj] [Hv Hr]. split; [done|]. intros k x Hk Ex Hu. destruct (Z.eq_dec k n) as [->|]; [congruence|]. apply (Hr k x); [lia|done|done]. }
  clear b Hl C. intros b [Hl C]. apply HQ. replace (Z.max 0 (m - 1)) with (m - 1) in C by lia. done.
Qed.

(** ** The scan *)
Section Scan.
Context (text : list Z).
Notation n := (zlen text).
Notation T := (zlook text).
Notation from := (occurrences_from text pat).
Hypothesis Htext : m <= n < 2 ^ 62.

Lemma occurs_look p : 0 <= p -> occurs text pat p <-> p <= n - m /\ forall k, 0 <= k < m -> T (p + k) = P k.
Proof.
  intros Hp. unfold occurs. split.
  - intros Ho. assert (forall k, 0 <= k < m -> T (p + k) = P k) as Hk.
    { intros k Hk. rewrite <- Ho at 1. rewrite zlook_slice by lia. repeat bcase; try lia. done. }
    split; [|done]. specialize (Hk (m - 1) ltac:(lia)). destruct (zlook_lt pat (m - 1) ltac:(lia)) as [x Ex]. rewrite Ex in Hk.
    apply zlook_Some in Hk. lia.
  - intros [Hle Hk]. apply zlook_ext. intros k. rewrite zlook_slice by lia.
    repeat bcase; cbn [andb]; try lia; symmetry; first [symmetry; apply Hk; lia|apply zlook_ge; lia|apply zlook_neg; lia].
Qed.

Lemma from_hit q : occurs text pat q -> 0 <= q <= n - m -> from q = q :: from (q + 1).
Proof.
  intros Ho Hq. unfold occurrences_from. rewrite seqZ_cons by lia. rewrite filter_cons_True by done. f_equal. f_equal. f_equal; lia.
Qed.

Lemma from_end q : n - m < q -> from q = [].
Proof. intros Hq. unfold occurrences_from. by rewrite seqZ_nil by lia. Qed.

(** Nothing is lost when no place before [b] fits. *)
Lemma from_skip d a : 0 <= a -> 0 <= d -> (forall s, 0 <= s < d -> ~ occurs text pat (a + s)) -> from a = from (a + d).
Proof.
  intros Ha Hd. revert a Ha. pattern d. apply natlike_ind; [| |done]; clear d Hd.
  - intros a _ _. by rewrite Z.add_0_r.
  - intros d Hd IH a Ha Hn. assert (from a = from (a + 1)) as ->.
    { destruct (Z.le_gt_cases a (n - m)); [|by rewrite !from_end by lia]. unfold occurrences_from. rewrite seqZ_cons by lia.
      rewrite filter_cons_False by (specialize (Hn 0); rewrite Z.add_0_r in Hn; apply Hn; lia). f_equal. f_equal; lia. }
    rewrite IH; [f_equal; lia|lia|]. intros s Hs. replace (a + 1 + s) with (a + (s + 1)) by lia. apply Hn. lia.
Qed.

(** ** Shifts that lose nothing *)

(** The window at [i] agrees with the pattern above [j]. *)
Definition agrees (i j : Z) : Prop := forall k, j < k < m -> T (i + k) = P k.

Lemma occurs_fits i j s : 0 <= i -> 0 < s < m -> agrees i j -> 0 <= j < m -> T (i + j) <> P j -> occurs text pat (i + s) -> fits j s.
Proof.
  intros Hi Hs Ha Hj Hne [_ Ho]%occurs_look; [|lia]. split.
  - intros k Hk Hks. rewrite <- (Ho (k - s)), <- (Ha k) by lia. f_equal. lia.
  - intros Hsj E. rewrite <- (Ho (j - s)) in E by lia. replace (i + s + (j - s)) with (i + j) in E by lia. congruence.
Qed.

Lemma occurs_border i s : 0 <= i -> 0 < s -> agrees i 0 -> occurs text pat (i + s) -> border s.
Proof.
  intros Hi Hs Ha [_ Ho]%occurs_look k Hk; [|lia]. rewrite <- (Ho (k - s)), <- (Ha k) by lia. f_equal. lia.
Qed.

Lemma good_shift i j v s :
  0 <= i -> 0 <= j < m -> agrees i j -> T (i + j) <> P j -> good j v -> 0 < s -> occurs text pat (i + s) -> v <= s.
Proof.
  intros Hi Hj Ha Hne (Hv & Hb & Hf) Hs Ho. destruct (Z.le_gt_cases m s); [lia|].
  assert (fits j s) as F by (eapply occurs_fits; (done || lia)).
  destruct (Z.le_gt_cases s j); [by apply Hf|]. apply Hb; [lia|]. by eapply fits_border.
Qed.

Lemma match_shift i v s : 0 <= i -> agrees i 0 -> good 0 v -> 0 < s -> occurs text pat (i + s) -> v <= s.
Proof.
  intros Hi Ha (Hv & Hb & _) Hs Ho. destruct (Z.le_gt_cases m s); [lia|]. apply Hb; [lia|]. by eapply occurs_border.
Qed.

Lemma bad_shift i j c v s :
  0 <= i -> 0 <= j < m -> T (i + j) = Some c -> rightmost (m - 1) (u8 c) v -> 0 < s -> occurs text pat (i + s) -> v - (m - 1 - j) <= s.
Proof.
  intros Hi Hj Ec [Hv Hr] Hs [_ Ho]%occurs_look; [|lia]. destruct (Z.le_gt_cases s j); [|lia].
  assert (P (j - s) = Some c) as E by (rewrite <- Ho by lia; rewrite <- Ec; f_equal; lia).
  specialize (Hr (j - s) c ltac:(lia) E eq_refl). lia.
Qed.

Lemma wp_bm_compare i (Q : Z -> Prop) :
  0 <= i <= n - m ->
  (agrees i (-1) -> Q (-1)) ->
  (forall j, 0 <= j < m -> agrees i j -> T (i + j) <> P j -> Q j) -> wp (bm_compare text pat m i) Q.
Proof.
  intros Hi H1 H2. apply (wp_loop (fun j => -1 <= j < m /\ agrees i j) (fun j => j + 1)); [|lia|lia|].
  { split; [lia|]. intros k Hk. lia. }
  intros j [Hj Ha]. rewrite Z.geb_leb. destruct (Z.leb_spec 0 j); [|wstep; replace j with (-1) in * by lia; by apply H1].
  do 5 wstep. destruct (Z.eqb_spec x x0) as [->|Hne].
  - split; [|lia]. split; [lia|]. intros k Hk. destruct (Z.eq_dec k j) as [->|]; [congruence|apply Ha; lia].
  - apply H2; [lia|done|congruence].
Qed.

Lemma agrees_occurs i : 0 <= i <= n - m -> agrees i (-1) -> occurs text pat i.
Proof. intros Hi Ha. apply occurs_look; [lia|]. split; [lia|]. intros k Hk. apply Ha. lia. Qed.

Lemma disagrees i j : 0 <= i -> 0 <= j < m -> T (i + j) <> P j -> ~ occurs text pat i.
Proof. intros Hi Hj Hne [_ Ho]%occurs_look; [|lia]. by apply Hne, Ho. Qed.

(** A shift that no occurrence undercuts moves to the remaining ones. *)
Lemma from_shift i t : 0 <= i -> 1 <= t -> (forall s, 0 < s -> occurs text pat (i + s) -> t <= s) -> from (i + 1) = from (i + t).
Proof.
  intros Hi Ht Hs. rewrite (from_skip (t - 1) (i + 1)) by (try lia; intros s Hs1 Ho; specialize (Hs (1 + s) ltac:(lia));
    rewrite Z.add_assoc in Hs; specialize (Hs Ho); lia). f_equal. lia.
Qed.

Lemma wp_bm_scan {U} bad_char gs shift (cb : option (Z -> U -> bool * U)) (user0 : U) :
  cells bad_char is_byte (rightmost (m - 1)) -> cells gs is_pos good -> good 0 shift ->
  wp (bm_scan text n pat m bad_char gs shift cb user0)
    (fun '(result, count, user) => (count, user) = deliver (the_cb cb) (occurrences text pat) 0 user0 /\ result = verdict count).
Proof.
  intros Cb Cg Hshift. unfold bm_scan.
  apply (wp_loop (fun '(i, count, result, user) => 0 <= i <= n /\ 0 <= count <= i /\ result = verdict count /\
      deliver (the_cb cb) (occurrences text pat) 0 user0 = deliver (the_cb cb) (from i) count user)
    (fun '(i, _, _, _) => n - i)); [|lia|lia|].
  { split; [lia|]. split; [lia|]. done. }
  intros [[[i count] result] user] (Hi & Hc & -> & D). destruct (Z.leb_spec i (n - m)) as [Hle|Hgt].
  2:{ wstep. split; [|done]. by rewrite D, from_end by lia. }
  wstep. apply wp_bm_compare; [lia| |].
  - intros Ha. change (-1 <? 0) with true. cbv iota. pose proof (agrees_occurs i ltac:(lia) Ha) as Ho.
    rewrite (from_hit i Ho) in D by lia. rewrite (u64_small (count + 1)) by lia.
    assert (verdict (count + 1) = SCL_OK) as Hv by (unfold verdict; bcase; [lia|done]).
    assert (match cb with Some cb => cb i user | None => (true, user) end = the_cb cb i user) as -> by by destruct cb.
    cbn [deliver] in D. destruct (the_cb cb i user) as [[] user']; wstep; [|by rewrite D].
    pose proof Hshift as (Hs & _). rewrite u64_small by lia. split; [|lia]. split; [lia|]. split; [lia|]. split; [done|].
    rewrite D. f_equal. apply from_shift; [lia|lia|]. intros s Hs0. apply match_shift; [lia| |done|done]. intros k Hk. apply Ha. lia.
  - intros j Hj Ha Hne. destruct (Z.ltb_spec j 0); [lia|]. pose proof (disagrees i j ltac:(lia) Hj Hne) as Hno.
    wstep. wstep. rename x into c, Hx into Ec. wstep. eapply wp_cells; [exact Cb|apply u8_is_byte|]. intros b Hb.
    wstep. eapply wp_cells; [exact Cg|exact Hj|]. intros g Hg. wstep. pose proof Hg as (Hg1 & _). pose proof Hb as [Hb1 _].
    set (t := if (if b - (m - 1 - j) <? 1 then 1 else b - (m - 1 - j)) >? g then _ else g).
    assert (1 <= t <= m /\ forall s, 0 < s -> occurs text pat (i + s) -> t <= s) as [Ht Hsafe].
    { assert (forall s, 0 < s -> occurs text pat (i + s) -> g <= s /\ b - (m - 1 - j) <= s) as Hs.
      { intros s Hs Ho. split; [eapply (good_shift i j)|eapply (bad_shift i j)]; first [eassumption|lia]. }
      subst t. rewrite Z.gtb_ltb. repeat bcase; (split; [lia|]); intros s Hs0 Ho; specialize (Hs s Hs0 Ho); lia. }
    rewrite u64_small by lia. split; [|lia]. split; [lia|]. split; [lia|]. split; [done|].
    rewrite D. f_equal. rewrite <- (from_shift i t) by (done || lia). apply from_skip; [lia|lia|]. intros s Hs. by replace (i + s) with i by lia.
Qed.
End Scan.
End Tables.

(** ** The whole search *)
Lemma bm_core_spec {U} (al : scl_allocator_t) (w : world) (text pat : list Z) (cb : option (Z -> U -> bool * U)) (user : U) :
  1 <= zlen pat <= INT_MAX -> zlen pat <= zlen text < 2 ^ 62 ->
  let granted k := malloc_fn al (k + w_reqs w) ((zlen pat + 1) * 4) MAX_ALIGN in
  let w' := World (2 + w_reqs w) (w_live w) in
  bm_core al w (Some text) (zlen text) (Some pat) (zlen pat) cb user =
    if granted 0%nat && granted 1%nat then
      if zlen pat =? 1 then UB
      else let '(count, user') := deliver (the_cb cb) (occurrences text pat) 0 user in Ok (verdict count, Some count, user', w')
    else Ok (SCL_ERR_OUT_OF_MEMORY, None, user, w').
Proof.
  intros Hpat Htext granted w'. unfold bm_core. subst granted w'. cbv beta. pose proof Hpat as [Hp1 Hp2]. unfold INT_MAX in Hp2.
  destruct (Z.eqb_spec (zlen text) 0), (Z.eqb_spec (zlen pat) 0), (Z.gtb_spec (zlen pat) INT_MAX), (Z.gtb_spec (zlen pat) (zlen text)); try lia.
  destruct (proj1 (wp_ok _ _) (wp_bad_char_table pat Hpat _ (fun b C => C))) as (bad_char & -> & Cb). rewrite bind_Ok.
  rewrite scl_mul_overflow_spec by (unfold is_u64; lia). destruct (Z.ltb_spec ((zlen pat + 1) * 4) (2 ^ 64)); [|lia].
  unfold scl_alloc. cbn [Nat.add w_reqs w_live].
  destruct (malloc_fn al (w_reqs w) _ _) eqn:E0; cbn [w_reqs w_live]; destruct (malloc_fn al (S (w_reqs w)) _ _) eqn:E1; cbn [andb w_reqs w_live scl_free].
  2,3: (unfold mret, res_ret; do 3 f_equal; lia).
  2: reflexivity.
  assert (forall c : option Z, zlen (fresh_cells ((zlen pat + 1) * 4) 4 c) = zlen pat + 1) as Hcells.
  { intros c. unfold fresh_cells. rewrite zlen_replicate, Z.div_mul by lia. lia. }
  destruct (proj1 (wp_ok _ _) (wp_suffix_table pat Hpat _ _ (Hcells None) (fun s C => C))) as (suffix & -> & Hsuf). rewrite bind_Ok.
  destruct (Z.eqb_spec (zlen pat) 1) as [E|Hne]; [by rewrite (good_suffix_underflow pat Hpat) by done|].
  destruct (proj1 (wp_ok _ _) (wp_good_suffix_table pat Hpat _ _ _ ltac:(lia) Hsuf (Hcells None) (fun g C => C))) as (gs & -> & Cg). rewrite bind_Ok.
  destruct (Cg 0 ltac:(unfold is_pos; lia)) as (v & Ev & Hv). destruct (proj1 (wp_ok _ _) (wp_get_cell gs 0 v (eq v) Ev eq_refl)) as (? & -> & <-). rewrite bind_Ok.
  pose proof Hv as (Hv1 & _). destruct (Z.ltb_spec v 1); [lia|].
  destruct (proj1 (wp_ok _ _) (wp_bm_scan pat Hpat text ltac:(lia) bad_char gs v cb user Cb Cg Hv)) as ([[result count] user'] & -> & <- & ->). rewrite bind_Ok.
  unfold mret, res_ret. do 3 f_equal. lia.
Qed.

(** C16. Boyer-Moore with a pattern of at least two bytes: once its tables are
    allocated, [scl_search_boyer_moore_all] calls the callback on exactly the
    positions where the pattern occurs (overlapping ones included), in
    increasing order, until it answers [false], counts those calls and answers
    [SCL_ERR_NOT_FOUND] when there are none; [scl_search_boyer_moore] returns
    the first occurrence.  So neither shift ever skips an occurrence.  When
    one of the tables cannot be allocated the other is freed.  All loops end,
    no access leaves the text, the pattern or a table.  With a pattern of one
    byte both functions write before the start of a table. *)
Theorem boyer_moore_finds_all {U} (al : scl_allocator_t) (w : world) (text pat : list Z)
  (cb : option (Z -> U -> bool * U)) (user : U)
  (Hpat : 1 <= zlen pat <= INT_MAX) (Htext : zlen pat <= zlen text < 2 ^ 62) :
  let granted k := malloc_fn al (k + w_reqs w) ((zlen pat + 1) * 4) MAX_ALIGN in
  let w' := World (2 + w_reqs w) (w_live w) in
  let all := scl_search_boyer_moore_all al w (Some text) (zlen text) (Some pat) (zlen pat) cb user in
  let first := scl_search_boyer_moore al w (Some text) (zlen text) (Some pat) (zlen pat) true in
  if granted 0%nat && granted 1%nat then
    if zlen pat =? 1 then all = UB /\ first = UB
    else
      all = (let '(count, user') := deliver (the_cb cb) (occurrences text pat) 0 user in Ok (verdict count, Some count, user', w')) /\
      first = Ok (match head (occurrences text pat) with Some p => (SCL_OK, Some p, w') | None => (SCL_ERR_NOT_FOUND, None, w') end)
  else all = Ok (SCL_ERR_OUT_OF_MEMORY, None, user, w') /\ first = Ok (SCL_ERR_OUT_OF_MEMORY, None, w').
Proof.
  intros granted w' all first. unfold first, scl_search_boyer_moore. cbn [negb]. unfold all, scl_search_boyer_moore_all.
  rewrite !bm_core_spec by done. subst granted. cbv beta zeta. fold w'. destruct (malloc_fn al (0 + w_reqs w) _ _ && malloc_fn al (1 + w_reqs w) _ _); [|by split].
  destruct (zlen pat =? 1); [by split|]. split; [done|]. by destruct (occurrences text pat).
Qed.

Lemma boyer_moore_finds_all_witness :
  let al := {| malloc_fn := fun _ _ _ => true; calloc_fn := fun _ _ _ _ => true; realloc_fn := fun _ _ _ _ _ => Refused |} in
  let al1 := {| malloc_fn := fun k _ _ => Nat.eqb k 1; calloc_fn := fun _ _ _ _ => true; realloc_fn := fun _ _ _ _ _ => Refused |} in
  let cb := Some (fun (p : Z) user => (true, user ++ [p])) in
  scl_search_boyer_moore_all al (World 0 0) (Some [97; 98; 97; 98; 97; 98; 98]) 7 (Some [97; 98; 97]) 3 cb [] = Ok (SCL_OK, Some 2, [0; 2], World 2 0) /\
  scl_search_boyer_moore_all al (World 0 0) (Some [97; 98]) 2 (Some [98]) 1 cb [] = UB /\
  scl_search_boyer_moore_all al1 (World 0 0) (Some [97; 98]) 2 (Some [97; 98]) 2 cb [] = Ok (SCL_ERR_OUT_OF_MEMORY, None, [], World 2 0).
Proof.
  intros al al1 cb. split; [|split].
  - refine (proj1 (boyer_moore_finds_all al (World 0 0) [97; 98; 97; 98; 97; 98; 98] [97; 98; 97] cb [] _ _)); split; vm_compute; congruence.
  - refine (proj1 (boyer_moore_finds_all al (World 0 0) [97; 98] [98] cb [] _ _)); split; vm_compute; congruence.
  - refine (proj1 (boyer_moore_finds_all al1 (World 0 0) [97; 98] [97; 98] cb [] _ _)); split; vm_compute; congruence.
Defined.
