(* ===== verification/Delimited.v ===== *)
(** The streaming readers of delimited text ([libs/docparse/csv/scl_parse_csv.c]
    and [libs/docparse/tsv/scl_parse_tsv.c]).  The two files are the same but
    for the delimiter and the function that reads one field; here they share
    their definitions, over a [dialect], and their proofs, over what
    [DialectOk] promises of the fields.  [Csv] and [Tsv] are the instances. *)

From S2P Require Import Prelude Core Refine.
#[local] Open Scope Z_scope.

(** ** Memory *)

(** [scl_memmove] of [n] bytes inside a buffer. *)
Definition read_bytes (buf : ptr Z) (off n : Z) : res (list Z) :=
  zfor 0 n (fun i l => c ← get_elem buf (off + i); mret (l ++ [c])) [].
Definition write_bytes (buf : ptr Z) (off : Z) (l : list Z) : res (ptr Z) :=
  zfor 0 (zlen l) (fun i buf => c ← get l i; set_elem buf (off + i) c) buf.
Definition scl_memmove (buf : ptr Z) (dst src n : Z) : res (ptr Z) := l ← read_bytes buf src n; write_bytes buf dst l.

(** ** The parser *)

(** [ps_state] is only ever set to 0, the [FIELD_START] of both enumerations,
    and never read. *)
Record parser : Type := Parser {
  ps_state : Z;
  ps_buffer : ptr Z;
  ps_buffer_cap : Z;
  ps_buffer_len : Z;
  ps_pos : Z;
  ps_row_started : bool;
  ps_eof : bool;
  ps_total_rows : Z;
  ps_field_count : Z;
  ps_max_rows : Z;
  ps_max_fields : Z
}.

(** What a file has of its own: the delimiter, the default limits, the first
    size of the buffer, and its reader of one field, which gets the buffer,
    [buffer_len] and [pos], rewrites the field in place and answers where it
    is, how long it is and where it ends. *)
Record dialect : Type := Dialect {
  d_delimiter : Z;
  d_max_fields : Z;
  d_max_rows : Z;
  d_init_buf : Z;
  d_parse_field : ptr Z -> Z -> Z -> res (ptr Z * Z * Z * Z)
}.

Section Parser.
Context (d : dialect) (al : scl_allocator_t).

Definition init_with_limits (w : world) (parser : option parser) (max_fields_per_row max_rows : Z)
    : scl_error_t * option Delimited.parser * world :=
  match parser with
  | None => (SCL_ERR_NULL_PTR, None, w)
  | Some p =>
      let max_fields := if negb (max_fields_per_row =? 0) then max_fields_per_row else d_max_fields d in
      let max_rows := if negb (max_rows =? 0) then max_rows else d_max_rows d in
      match scl_alloc al w (d_init_buf d) MAX_ALIGN 1 with
      | (None, w) =>
          (SCL_ERR_OUT_OF_MEMORY,
           Some (Parser 0 Null (ps_buffer_cap p) (ps_buffer_len p) (ps_pos p) (ps_row_started p) (ps_eof p)
                   (ps_total_rows p) (ps_field_count p) max_rows max_fields), w)
      | (Some b, w) => (SCL_OK, Some (Parser 0 (Ptr b) (d_init_buf d) 0 0 false false 0 0 max_rows max_fields), w)
      end
  end.

Definition init (w : world) (parser : option parser) : scl_error_t * option Delimited.parser * world :=
  init_with_limits w parser 0 0.

(** The doubling of the capacity. *)
Definition grow_cap (fuel : nat) (cap needed : Z) : res Z :=
  loop fuel (fun new_cap =>
    if new_cap <? needed then
      mret (if new_cap >? SIZE_MAX / 2 then inr needed else inl (u64 (new_cap * 2)))
    else mret (inr new_cap)) cap.

(** [true]: 0 was returned.  64 doublings reach any size. *)
Definition ensure_buf (w : world) (p : parser) (needed : Z) : res (bool * parser * world) :=
  if needed <=? ps_buffer_cap p then mret (true, p, w)
  else if (ps_max_rows p >? 0) && (ps_max_fields p >? 0) && (needed >? u64 (u64 (ps_max_rows p * ps_max_fields p) * 64)) then
    mret (false, p, w)
  else
    new_cap ← grow_cap 65 (ps_buffer_cap p) needed;
    '(nb, old, w) ← scl_realloc al w (ps_buffer p) (ps_buffer_cap p) new_cap MAX_ALIGN 1;
    let set_buffer b cap := Parser (ps_state p) b cap (ps_buffer_len p) (ps_pos p) (ps_row_started p) (ps_eof p)
      (ps_total_rows p) (ps_field_count p) (ps_max_rows p) (ps_max_fields p) in
    match nb with
    | None => mret (false, set_buffer old (ps_buffer_cap p), w)
    | Some nb => mret (true, set_buffer (Ptr nb) new_cap, w)
    end.

(** [scl_memcpy] does nothing when [data] is [NULL]. *)
Definition append_data (p : parser) (data : option (list Z)) (len : Z) : res parser :=
  buf ← zfor 0 (match data with Some _ => len | None => 0 end)
    (fun i buf => c ← get (default [] data) i; set_elem buf (ps_buffer_len p + i) c) (ps_buffer p);
  let buffer_len := u64 (ps_buffer_len p + len) in
  buf ← set_elem buf buffer_len 0;
  mret (Parser (ps_state p) buf (ps_buffer_cap p) buffer_len (ps_pos p) (ps_row_started p) (ps_eof p)
          (ps_total_rows p) (ps_field_count p) (ps_max_rows p) (ps_max_fields p)).

Definition feed (w : world) (parser : option parser) (data : option (list Z)) (len : Z)
    : res (scl_error_t * option Delimited.parser * world) :=
  match parser with
  | None => mret (SCL_ERR_NULL_PTR, None, w)
  | Some p =>
      if negb (bool_decide (is_Some data)) && (len >? 0) then mret (SCL_ERR_NULL_PTR, Some p, w)
      else if ps_eof p then mret (SCL_ERR_SIZE_OVERFLOW, Some p, w)
      else if negb (ps_max_rows p =? 0) && (ps_total_rows p >=? ps_max_rows p) then mret (SCL_ERR_SIZE_OVERFLOW, Some p, w)
      else
        match need ← scl_add_overflow (ps_buffer_len p) len; scl_add_overflow need 1 with
        | None => mret (SCL_ERR_SIZE_OVERFLOW, Some p, w)
        | Some need =>
            '(ok, p, w) ← ensure_buf w p need;
            if ok : bool then p ← append_data p data len; mret (SCL_OK, Some p, w)
            else mret (SCL_ERR_OUT_OF_MEMORY, Some p, w)
        end
  end.

(** The reader of a field and the count of fields. *)
Definition take_field (p : parser) : res (scl_error_t * option (Z * Z) * option parser) :=
  '(buf, out, out_len, pos) ← d_parse_field d (ps_buffer p) (ps_buffer_len p) (ps_pos p);
  mret (SCL_OK, Some (out, out_len),
        Some (Parser (ps_state p) buf (ps_buffer_cap p) (ps_buffer_len p) pos (ps_row_started p) (ps_eof p)
                (ps_total_rows p) (u64 (ps_field_count p + 1)) (ps_max_rows p) (ps_max_fields p))).

(** A field is the offset of its first byte in the buffer and its length;
    [outs]: [out] and [out_len] are not [NULL]. *)
Definition next_field (parser : option parser) (outs : bool) : res (scl_error_t * option (Z * Z) * option Delimited.parser) :=
  match parser, outs with
  | Some p, true =>
      if ps_pos p >=? ps_buffer_len p then mret (SCL_ERR_EMPTY, None, Some p)
      else
        let p := if negb (ps_row_started p) then
            Parser (ps_state p) (ps_buffer p) (ps_buffer_cap p) (ps_buffer_len p) (ps_pos p) (ps_row_started p) (ps_eof p)
              (ps_total_rows p) 0 (ps_max_rows p) (ps_max_fields p) else p in
        c ← get_elem (ps_buffer p) (ps_pos p);
        if negb (ps_row_started p) then
          if (c =? 13) || (c =? 10) then mret (SCL_ERR_EMPTY, None, Some p)
          else
            take_field (Parser (ps_state p) (ps_buffer p) (ps_buffer_cap p) (ps_buffer_len p) (ps_pos p) true (ps_eof p)
              (u64 (ps_total_rows p + 1)) (ps_field_count p) (ps_max_rows p) (ps_max_fields p))
        else if (c =? 13) || (c =? 10) then mret (SCL_ERR_EMPTY, None, Some p)
        else
          let p := if c =? d_delimiter d then
            Parser (ps_state p) (ps_buffer p) (ps_buffer_cap p) (ps_buffer_len p) (u64 (ps_pos p + 1)) (ps_row_started p) (ps_eof p)
              (ps_total_rows p) (ps_field_count p) (ps_max_rows p) (ps_max_fields p) else p in
          if negb (ps_max_fields p =? 0) && (ps_field_count p >=? ps_max_fields p) then mret (SCL_ERR_SIZE_OVERFLOW, None, Some p)
          else take_field p
  | _, _ => mret (SCL_ERR_NULL_PTR, None, parser)
  end.

(** The next terminator from [pos] on. *)
Definition skip_to_end (buf : ptr Z) (len pos : Z) : res Z :=
  loop (S (Z.to_nat (len - pos)))
    (fun pos => if pos <? len then c ← get_elem buf pos; mret (if (c =? 13) || (c =? 10) then inr pos else inl (pos + 1))
                else mret (inr pos)) pos.

Definition next_row (parser : option parser) : res (scl_error_t * option Delimited.parser) :=
  match parser with
  | None => mret (SCL_ERR_NULL_PTR, None)
  | Some p =>
      let set_pos pos := Parser (ps_state p) (ps_buffer p) (ps_buffer_cap p) (ps_buffer_len p) pos (ps_row_started p) (ps_eof p)
        (ps_total_rows p) (ps_field_count p) (ps_max_rows p) (ps_max_fields p) in
      let buf := ps_buffer p in
      let len := ps_buffer_len p in
      pos ← skip_to_end buf len (ps_pos p);
      let p := set_pos pos in
      if ps_pos p >=? len then
        mret (SCL_ERR_EMPTY, Some (Parser (ps_state p) (ps_buffer p) (ps_buffer_cap p) (ps_buffer_len p) (ps_pos p) (ps_row_started p) true
          (ps_total_rows p) (ps_field_count p) (ps_max_rows p) (ps_max_fields p)))
      else
        c ← get_elem buf (ps_pos p);
        pos ← (if c =? 13 then
                 let pos := ps_pos p + 1 in
                 if pos <? len then c ← get_elem buf pos; mret (if c =? 10 then pos + 1 else pos) else mret pos
               else mret (ps_pos p + 1));
        let finish eof := Parser 0 (ps_buffer p) (ps_buffer_cap p) (ps_buffer_len p) pos false eof
          (ps_total_rows p) (ps_field_count p) (ps_max_rows p) (ps_max_fields p) in
        if negb (ps_max_rows p =? 0) && (ps_total_rows p >=? ps_max_rows p) then mret (SCL_ERR_SIZE_OVERFLOW, Some (finish true))
        else mret (if pos <? len then SCL_OK else SCL_ERR_EMPTY, Some (finish (ps_eof p)))
  end.

Definition destroy (w : world) (parser : option parser) : res (scl_error_t * option Delimited.parser * world) :=
  match parser with
  | None => mret (SCL_ERR_NULL_PTR, None, w)
  | Some p =>
      w ← free_ptr w (ps_buffer p);
      mret (SCL_OK, Some (Parser (ps_state p) Null 0 0 0 (ps_row_started p) false 0 0 (ps_max_rows p) (ps_max_fields p)), w)
  end.
End Parser.

(** * Theorems *)

(** ** The abstract reader

    What is left of the text, whether a row has been begun, whether the end
    has been reached, and the two counts. *)
Record doc : Type := Doc { dc_rest : list Z; dc_started : bool; dc_eof : bool; dc_rows : Z; dc_fields : Z }.

Definition is_eol (c : Z) : bool := (c =? 13) || (c =? 10).

(** The rest from the next terminator on, and what follows a terminator. *)
Fixpoint drop_row (l : list Z) : list Z := match l with [] => [] | c :: l' => if is_eol c then l else drop_row l' end.
Definition drop_eol (l : list Z) : list Z :=
  match l with [] => [] | c :: l => if c =? 13 then match l with c' :: l' => if c' =? 10 then l' else l | [] => [] end else l end.

Section Spec.
(** [split] cuts the first field off: its contents, and the rest from its end on. *)
Context (d : dialect) (split : list Z -> list Z * list Z) (max_rows max_fields : Z).

Definition doc_field (t : doc) (rest : list Z) (rows fields : Z) : scl_error_t * option (list Z) * doc :=
  let '(f, rest) := split rest in (SCL_OK, Some f, Doc rest true (dc_eof t) rows (u64 (fields + 1))).

Definition doc_next_field (t : doc) : scl_error_t * option (list Z) * doc :=
  match dc_rest t with
  | [] => (SCL_ERR_EMPTY, None, t)
  | c :: l =>
      if negb (dc_started t) then
        if is_eol c then (SCL_ERR_EMPTY, None, Doc (c :: l) false (dc_eof t) (dc_rows t) 0)
        else doc_field t (c :: l) (u64 (dc_rows t + 1)) 0
      else if is_eol c then (SCL_ERR_EMPTY, None, t)
      else
        let rest := if c =? d_delimiter d then l else c :: l in
        if dc_fields t >=? max_fields then (SCL_ERR_SIZE_OVERFLOW, None, Doc rest true (dc_eof t) (dc_rows t) (dc_fields t))
        else doc_field t rest (dc_rows t) (dc_fields t)
  end.

Definition doc_next_row (t : doc) : scl_error_t * doc :=
  match drop_row (dc_rest t) with
  | [] => (SCL_ERR_EMPTY, Doc [] (dc_started t) true (dc_rows t) (dc_fields t))
  | l =>
      let l := drop_eol l in
      if dc_rows t >=? max_rows then (SCL_ERR_SIZE_OVERFLOW, Doc l false true (dc_rows t) (dc_fields t))
      else (match l with [] => SCL_ERR_EMPTY | _ => SCL_OK end, Doc l false (dc_eof t) (dc_rows t) (dc_fields t))
  end.
End Spec.

(** ** What a dialect promises *)

(** A field read at [pos]: it lies between [pos] and its end [pos'], holds
    what [split] says, and nothing before it has changed. *)
Definition field_read (split : list Z -> list Z * list Z) (bytes bytes' : list Z) (pos off n pos' : Z) : Prop :=
  zlen bytes' = zlen bytes /\ pos <= off /\ 0 <= n /\ off + n <= pos' <= zlen bytes /\
  split (drop (Z.to_nat pos) bytes) = (slice bytes' off (off + n), drop (Z.to_nat pos') bytes') /\
  take (Z.to_nat pos) bytes' = take (Z.to_nat pos) bytes.

Class DialectOk (d : dialect) (split : list Z -> list Z * list Z) : Prop := {
  d_init_buf_ok : 0 < d_init_buf d;
  d_limits_ok : 0 < d_max_rows d < 2 ^ 64 /\ 0 < d_max_fields d < 2 ^ 64;
  d_parse_field_ok : forall b bytes pos, stored b bytes -> zlen bytes <= PTRDIFF_MAX -> 0 <= pos <= zlen bytes ->
    wp (d_parse_field d (Ptr b) (zlen bytes) pos)
      (fun '(buf, off, n, pos') => exists b' bytes', buf = Ptr b' /\ zlen b' = zlen b /\ stored b' bytes' /\
        field_read split bytes bytes' pos off n pos')
}.

(** ** Reading and writing bytes *)
Lemma wp_read_bytes b bytes off n (Q : list Z -> Prop) :
  stored b bytes -> 0 <= off -> 0 <= n -> off + n <= zlen bytes -> Q (slice bytes off (off + n)) -> wp (read_bytes (Ptr b) off n) Q.
Proof.
  intros S0 Ho Hn Hle HQ. unfold read_bytes.
  apply (wp_zfor (fun i l => l = slice bytes off (off + i))).
  - by rewrite slice_nil by lia.
  - intros i l Hi ->. destruct (zlook_lt bytes (off + i) ltac:(lia)) as [c Ec]. wstep. eapply wp_get_elem; [by apply S0|]. wstep.
    rewrite <- (slice_app bytes off (off + i) (off + (i + 1))) by lia. f_equal. rewrite (slice_cons bytes (off + i) (off + (i + 1)) c) by (done || lia).
    by rewrite slice_nil by lia.
  - intros l ->. by rewrite Z.max_r by lia.
Qed.

Lemma drop_step (l : list Z) pos c : 0 <= pos -> zlook l pos = Some c -> drop (Z.to_nat pos) l = c :: drop (Z.to_nat (pos + 1)) l.
Proof.
  intros H0 E. unfold zlook in E. destruct (Z.leb_spec 0 pos); [|lia]. rewrite (drop_S _ c) by done.
  do 2 f_equal. lia.
Qed.

(** [put l off s]: [s] written over [l] from [off] on. *)
Definition put (l : list Z) (off : Z) (s : list Z) : list Z := take (Z.to_nat off) l ++ s ++ drop (Z.to_nat (off + zlen s)) l.

Lemma zlen_put l off s : 0 <= off -> off + zlen s <= zlen l -> zlen (put l off s) = zlen l.
Proof. intros H1 H2. unfold put. pose proof (zlen_nonneg s). rewrite !zlen_app, zlen_take, zlen_drop by lia. lia. Qed.

Lemma zlook_put l off s i : 0 <= off -> off + zlen s <= zlen l ->
  zlook (put l off s) i = if (off <=? i) && (i <? off + zlen s) then zlook s (i - off) else zlook l i.
Proof.
  intros H1 H2. unfold put. pose proof (zlen_nonneg s). rewrite !zlook_app, zlen_take by lia. rewrite Z.min_l by lia.
  repeat bcase; cbn [andb]; try lia; rewrite ?zlook_take, ?zlook_drop by lia; repeat bcase; try lia; try done; f_equal; lia.
Qed.

(** What a write leaves alone, and what it leaves behind. *)
Lemma take_put l off s k : 0 <= off -> off + zlen s <= zlen l -> 0 <= k <= off -> take (Z.to_nat k) (put l off s) = take (Z.to_nat k) l.
Proof.
  intros H1 H2 Hk. apply zlook_ext. intros i. rewrite !zlook_take, zlook_put by done. repeat bcase; cbn [andb]; try lia; done.
Qed.

Lemma drop_put l off s k : 0 <= off -> off + zlen s <= k -> off + zlen s <= zlen l -> drop (Z.to_nat k) (put l off s) = drop (Z.to_nat k) l.
Proof.
  intros H1 Hk H2. pose proof (zlen_nonneg s). apply zlook_ext. intros i. rewrite !zlook_drop, zlook_put by lia. repeat bcase; cbn [andb]; try lia; done.
Qed.

Lemma slice_put l off s : 0 <= off -> off + zlen s <= zlen l -> slice (put l off s) off (off + zlen s) = s.
Proof.
  intros H1 H2. pose proof (zlen_nonneg s). apply zlook_ext. intros i. rewrite zlook_slice by (rewrite ?zlen_put; lia).
  rewrite zlook_put by done. repeat bcase; cbn [andb]; try lia; first [f_equal; lia|symmetry; apply zlook_ge; lia|symmetry; apply zlook_neg; lia].
Qed.

Lemma zupd_put l i x : 0 <= i < zlen l -> zupd l i x = put l i [x].
Proof.
  intros Hi. apply zlook_ext. intros j. rewrite zlook_put by (rewrite ?zlen_cons, ?zlen_nil; lia). rewrite zlen_cons, zlen_nil.
  destruct (Z.eq_dec j i) as [->|Hne].
  - rewrite zlook_zupd_eq by lia. repeat bcase; cbn [andb]; try lia. by rewrite Z.sub_diag.
  - rewrite zlook_zupd_ne by done. repeat bcase; cbn [andb]; try lia; done.
Qed.

(** A slice depends on what is before its end, and on what is after its start. *)
Lemma slice_take (l l' : list Z) k lo hi : take (Z.to_nat k) l' = take (Z.to_nat k) l -> 0 <= lo <= hi -> hi <= k -> slice l' lo hi = slice l lo hi.
Proof.
  intros T H1 H2. unfold slice. apply (f_equal (drop (Z.to_nat lo))) in T. rewrite !skipn_firstn_comm in T.
  apply (f_equal (take (Z.to_nat (hi - lo)))) in T. rewrite !take_take in T. by rewrite !Nat.min_l in T by lia.
Qed.

Lemma slice_drop (l l' : list Z) k lo hi : drop (Z.to_nat k) l' = drop (Z.to_nat k) l -> 0 <= k <= lo -> slice l' lo hi = slice l lo hi.
Proof.
  intros T H. unfold slice. f_equal. apply (f_equal (drop (Z.to_nat (lo - k)))) in T. rewrite !drop_drop in T.
  by replace (Z.to_nat k + Z.to_nat (lo - k))%nat with (Z.to_nat lo) in T by lia.
Qed.

Lemma drop_later (l l' : list Z) k j : drop (Z.to_nat k) l' = drop (Z.to_nat k) l -> 0 <= k <= j -> drop (Z.to_nat j) l' = drop (Z.to_nat j) l.
Proof.
  intros T H. apply (f_equal (drop (Z.to_nat (j - k)))) in T. rewrite !drop_drop in T.
  by replace (Z.to_nat k + Z.to_nat (j - k))%nat with (Z.to_nat j) in T by lia.
Qed.

Lemma take_sooner (l l' : list Z) k j : take (Z.to_nat k) l' = take (Z.to_nat k) l -> 0 <= j <= k -> take (Z.to_nat j) l' = take (Z.to_nat j) l.
Proof. intros T H. apply (f_equal (take (Z.to_nat j))) in T. rewrite !take_take in T. by rewrite !Nat.min_l in T by lia. Qed.

Lemma wp_write_bytes b bytes off s (Q : ptr Z -> Prop) :
  stored b bytes -> 0 <= off -> off + zlen s <= zlen bytes ->
  (forall b', zlen b' = zlen b -> stored b' (put bytes off s) -> Q (Ptr b')) -> wp (write_bytes (Ptr b) off s) Q.
Proof.
  intros S0 Ho Hle HQ. unfold write_bytes. pose proof (zlen_nonneg s).
  apply (wp_zfor (fun i buf => exists b', buf = Ptr b' /\ zlen b' = zlen b /\ stored b' (put bytes off (take (Z.to_nat i) s)))).
  - exists b. split; [done|]. split; [done|]. unfold put. rewrite take_0. cbn [app]. rewrite zlen_nil, Z.add_0_r. by rewrite take_drop.
  - intros i buf Hi (b' & -> & Hl & S1). wstep. wstep. rename x into c, Hx into Ec.
    pose proof (stored_len _ _ S1) as Hb. rewrite zlen_put in Hb by (rewrite ?zlen_take; lia).
    apply wp_set_elem; [lia|]. eexists. split; [done|]. split; [by rewrite zlen_zupd|].
    intros j x Ej. rewrite zlook_put in Ej by (rewrite ?zlen_take; lia). rewrite zlen_take, zlook_take in Ej by lia.
    destruct (Z.eq_dec j (off + i)) as [->|Hne].
    + rewrite zlook_zupd_eq by lia. replace (off + i - off) with i in Ej by lia. revert Ej. repeat bcase; cbn [andb]; try lia; congruence.
    + rewrite zlook_zupd_ne by done. apply S1. rewrite zlook_put by (rewrite ?zlen_take; lia). rewrite zlen_take, zlook_take by lia.
      revert Ej. repeat bcase; cbn [andb]; try lia; done.
  - intros buf (b' & -> & Hl & S1). apply HQ; [done|]. rewrite Z.max_r in S1 by lia. rewrite take_ge in S1 by (unfold zlen in *; lia). done.
Qed.

Lemma wp_memmove b bytes dst src n (Q : ptr Z -> Prop) :
  stored b bytes -> 0 <= dst -> 0 <= src -> 0 <= n -> src + n <= zlen bytes -> dst + n <= zlen bytes ->
  (forall b', zlen b' = zlen b -> stored b' (put bytes dst (slice bytes src (src + n))) -> Q (Ptr b')) ->
  wp (scl_memmove (Ptr b) dst src n) Q.
Proof.
  intros S0 Hd Hs Hn H1 H2 HQ. unfold scl_memmove. wstep. apply (wp_read_bytes b bytes); [done|lia|lia|lia|].
  apply (wp_write_bytes b bytes); [done|lia|rewrite zlen_slice; lia|done].
Qed.

(** ** The operations refine the abstract ones *)
Section Operations.
Context (d : dialect) (split : list Z -> list Z * list Z) `{!DialectOk d split} (max_rows max_fields : Z).
Hypothesis (Hrows : 0 < max_rows) (Hfields : 0 < max_fields).

(** [bytes] is what has been fed, partly rewritten; [t] what is left of it. *)
Record rep (p : parser) (bytes : list Z) (t : doc) : Prop := Rep {
  rep_owns : owns (ps_buffer p) (ps_buffer_cap p) 1 bytes;
  rep_buffer : exists b, ps_buffer p = Ptr b;
  rep_len : ps_buffer_len p = zlen bytes;
  rep_pos : 0 <= ps_pos p <= zlen bytes;
  rep_rest : dc_rest t = drop (Z.to_nat (ps_pos p)) bytes;
  rep_started : dc_started t = ps_row_started p;
  rep_eof : dc_eof t = ps_eof p;
  rep_rows : dc_rows t = ps_total_rows p;
  rep_fields : dc_fields t = ps_field_count p;
  rep_max_rows : ps_max_rows p = max_rows;
  rep_max_fields : ps_max_fields p = max_fields
}.

(** Where the parser stands only moves on, and what it has passed stays. *)
Definition later (p : parser) (bytes : list Z) (p' : parser) (bytes' : list Z) : Prop :=
  ps_pos p <= ps_pos p' /\ take (Z.to_nat (ps_pos p)) bytes' = take (Z.to_nat (ps_pos p)) bytes.

Lemma later_trans p bytes p1 bytes1 p2 bytes2 : 0 <= ps_pos p -> later p bytes p1 bytes1 -> later p1 bytes1 p2 bytes2 -> later p bytes p2 bytes2.
Proof.
  intros H0 [H1 T1] [H2 T2]. split; [lia|]. rewrite <- T1. by eapply take_sooner.
Qed.

(** The contents behind the pointers of a field. *)
Definition contents (bytes : list Z) (f : Z * Z) : list Z := slice bytes f.1 (f.1 + f.2).

(** A field that lies in what the parser has passed. *)
Definition inside (f : Z * Z) (pos : Z) : Prop := 0 <= f.1 /\ 0 <= f.2 /\ f.1 + f.2 <= pos.

Lemma contents_later p bytes p' bytes' f : inside f (ps_pos p) -> later p bytes p' bytes' -> contents bytes' f = contents bytes f.
Proof.
  intros (H1 & H2 & H3) [_ T]. unfold contents. by eapply slice_take; [exact T|lia|lia].
Qed.

Lemma zlen_drop_pos (bytes : list Z) pos : 0 <= pos <= zlen bytes -> zlen (drop (Z.to_nat pos) bytes) = zlen bytes - pos.
Proof. intros H. rewrite zlen_drop by lia. lia. Qed.

(** What an operation on the rest leaves, as the parser and the bytes it
    leaves; [fields] are the pointers it delivers. *)
Definition next_to (p : parser) (bytes : list Z) (t : doc) (f : option (Z * Z)) (c : option (list Z)) (p' : option parser) : Prop :=
  exists p1 bytes1, p' = Some p1 /\ rep p1 bytes1 t /\ later p bytes p1 bytes1 /\ zlen bytes1 = zlen bytes /\
    contents bytes1 <$> f = c /\ match f with Some f => inside f (ps_pos p1) | None => True end.

Lemma wp_take_field p bytes t (Q : scl_error_t * option (Z * Z) * option parser -> Prop) :
  rep p bytes t -> dc_started t = true ->
  (forall f c p' t', doc_field split t (dc_rest t) (dc_rows t) (dc_fields t) = (SCL_OK, c, t') -> next_to p bytes t' f c p' -> Q (SCL_OK, f, p')) ->
  wp (take_field d p) Q.
Proof.
  intros [Ho [b Eb] Hl Hp Hr Hs He Hro Hf Hmr Hmf] Hst HQ. rewrite Eb in Ho. destruct Ho as (Hbl & Hcap & Hmax & S0).
  unfold take_field. rewrite Hl, Eb. wstep.
  eapply wp_mono; [apply d_parse_field_ok; [done| |done]; pose proof (stored_len _ _ S0); unfold PTRDIFF_MAX in *; lia|].
  intros [[[buf off] n] pos'] (b' & bytes' & -> & Hbl' & S1 & Hlb & Hoff & Hn & Hend & Hsp & T). wstep.
  apply (HQ _ (Some (slice bytes' off (off + n))) _ (Doc (drop (Z.to_nat pos') bytes') true (dc_eof t) (dc_rows t) (u64 (dc_fields t + 1)))).
  { unfold doc_field. by rewrite Hr, Hsp. }
  eexists _, bytes'. split; [done|]. split.
  - split; cbn [ps_buffer ps_buffer_cap ps_buffer_len ps_pos ps_row_started ps_eof ps_total_rows ps_field_count ps_max_rows ps_max_fields dc_rest dc_started dc_eof dc_rows dc_fields];
      [|by exists b'|lia|lia|done|congruence|done|done|by rewrite Hf|done|done].
    split; [lia|]. by split_and!.
  - split; [split; cbn [ps_pos]; [lia|done]|]. split; [done|]. split; [done|]. unfold inside. cbn [fst snd ps_pos]. lia.
Qed.

Lemma rep_get p bytes t c l (Q : Z -> Prop) : rep p bytes t -> dc_rest t = c :: l -> Q c -> wp (get_elem (ps_buffer p) (ps_pos p)) Q.
Proof.
  intros [Ho [b Eb] Hl Hp Hr _ _ _ _ _ _] E HQ. rewrite Eb in *. destruct Ho as (_ & _ & _ & S0). eapply wp_get_elem; [|exact HQ].
  apply S0. rewrite Hr in E. assert (zlook (drop (Z.to_nat (ps_pos p)) bytes) 0 = Some c) as H by by rewrite E.
  rewrite zlook_drop in H by lia. revert H. repeat bcase; try lia. by rewrite Z.add_0_r.
Qed.

Lemma rep_nil p bytes t : rep p bytes t -> ps_pos p >=? ps_buffer_len p = bool_decide (dc_rest t = []).
Proof.
  intros [Ho [b Eb] Hl Hp Hr _ _ _ _ _ _]. rewrite Hl, Z.geb_leb, Hr. pose proof (zlen_drop_pos bytes _ Hp) as Hd.
  destruct (drop _ bytes) as [|c l]; [rewrite zlen_nil in Hd; bcase; [done|lia]|]. rewrite zlen_cons in Hd. pose proof (zlen_nonneg l). bcase; [lia|done].
Qed.

(** A parser that differs in its flags and counts only. *)
Lemma rep_flags p bytes t started eof rows fields :
  rep p bytes t ->
  rep (Parser (ps_state p) (ps_buffer p) (ps_buffer_cap p) (ps_buffer_len p) (ps_pos p) started eof rows fields (ps_max_rows p) (ps_max_fields p))
    bytes (Doc (dc_rest t) started eof rows fields).
Proof. intros []. by split. Qed.

(** One that stands further on. *)
Lemma rep_move p bytes t pos : rep p bytes t -> 0 <= pos <= zlen bytes ->
  rep (Parser (ps_state p) (ps_buffer p) (ps_buffer_cap p) (ps_buffer_len p) pos (ps_row_started p) (ps_eof p) (ps_total_rows p) (ps_field_count p) (ps_max_rows p) (ps_max_fields p))
    bytes (Doc (drop (Z.to_nat pos) bytes) (dc_started t) (dc_eof t) (dc_rows t) (dc_fields t)).
Proof. intros [] Hpos. by split. Qed.

Lemma next_to_same p bytes t p' : rep p' bytes t -> ps_pos p <= ps_pos p' -> next_to p bytes t None None (Some p').
Proof. intros R Hp. exists p', bytes. by split_and!. Qed.

Lemma next_to_from p bytes t f c p1 p' : ps_pos p <= ps_pos p1 -> next_to p1 bytes t f c p' -> 0 <= ps_pos p -> next_to p bytes t f c p'.
Proof.
  intros Hp (p2 & bytes2 & -> & R & L & Hl & Hc & Hf) H0. exists p2, bytes2. split_and!; try done.
  eapply later_trans; [done| |exact L]. by split.
Qed.

Lemma wp_next_field p bytes t :
  rep p bytes t ->
  wp (next_field d (Some p) true)
    (fun '(e, f, p') => exists c t', doc_next_field d split max_fields t = (e, c, t') /\ next_to p bytes t' f c p').
Proof.
  intros R. unfold next_field. rewrite (rep_nil _ _ _ R). pose proof (rep_pos _ _ _ R) as Hp. unfold doc_next_field.
  destruct (dc_rest t) as [|c l] eqn:Er; cbn [bool_decide decide_rel decide list_eq_dec].
  { rewrite bool_decide_true by done. wstep. eexists _, _. split; [done|]. by apply next_to_same; [done|lia]. }
  rewrite bool_decide_false by done. pose proof (rep_started _ _ _ R) as Hs.
  destruct (ps_row_started p) eqn:Es; rewrite Hs; cbn [negb].
  - wstep. eapply rep_get; [exact R|done|]. rewrite Es. cbn [negb]. fold (is_eol c). destruct (is_eol c); [wstep; eexists _, _; split; [done|by apply next_to_same; [done|lia]]|].
    set (p1 := if c =? d_delimiter d then _ else p). set (rest := if c =? d_delimiter d then l else c :: l).
    assert (rep p1 bytes (Doc rest true (dc_eof t) (dc_rows t) (dc_fields t)) /\ ps_pos p <= ps_pos p1) as [R1 Hp1].
    { pose proof (rep_len _ _ _ R) as Hlen. pose proof (rep_rest _ _ _ R) as Hrest. rewrite Er in Hrest. pose proof (zlen_drop_pos bytes _ Hp) as Hd. rewrite <- Hrest, zlen_cons in Hd.
      pose proof (zlen_nonneg l). pose proof (owns_len _ _ _ _ (rep_owns _ _ _ R)) as (Ho1 & Ho2 & Ho3). specialize (Ho3 ltac:(lia)). unfold PTRDIFF_MAX in Ho3.
      subst p1 rest. destruct (c =? d_delimiter d).
      - rewrite u64_small by lia. split; [|cbn [ps_pos]; lia]. replace l with (drop (Z.to_nat (ps_pos p + 1)) bytes).
        + pose proof (rep_move p bytes t (ps_pos p + 1) R ltac:(lia)) as R1. by rewrite Hs, Es in R1.
        + rewrite Z2Nat.inj_add by lia. change (Z.to_nat 1) with 1%nat. rewrite <- drop_drop. by rewrite <- Hrest.
      - split; [|lia]. pose proof (rep_flags p bytes t (ps_row_started p) (ps_eof p) (ps_total_rows p) (ps_field_count p) R) as R1.
        rewrite Er, Es in R1. destruct R as [? ? ? ? ? ? -> -> -> ? ?]. destruct p; cbn in *. by subst. }
    pose proof (rep_max_fields _ _ _ R1) as Hmf. pose proof (rep_fields _ _ _ R1) as Hfc. cbn [dc_fields] in Hfc. rewrite Hmf, <- Hfc.
    destruct (Z.eqb_spec max_fields 0); [lia|]. cbn [negb andb]. destruct (dc_fields t >=? max_fields).
    + wstep. eexists _, _. split; [done|]. by apply next_to_same.
    + eapply wp_take_field; [exact R1|done|]. intros f c' p' t' E N. eexists _, _. split; [exact E|]. by eapply next_to_from; [| |lia].
  - pose proof (rep_flags p bytes t false (dc_eof t) (dc_rows t) 0 R) as R1. rewrite <- (rep_eof _ _ _ R), <- (rep_rows _ _ _ R).
    wstep. eapply rep_get; [exact R1|exact Er|]. fold (is_eol c). rewrite Er in R1. cbn [ps_row_started negb]. destruct (is_eol c).
    + wstep. eexists _, _. split; [done|]. by apply next_to_same; [|cbn [ps_pos]; lia].
    + cbn [ps_state ps_buffer ps_buffer_cap ps_buffer_len ps_pos ps_eof ps_total_rows ps_field_count ps_max_rows ps_max_fields].
      pose proof (rep_flags _ bytes _ true (dc_eof t) (u64 (dc_rows t + 1)) 0 R1) as R2. 
      eapply wp_take_field; [exact R2|done|]. intros f c' p' t' E N. eexists _, _. split; [exact E|]. eapply next_to_from; [|exact N|lia]. cbn [ps_pos]. lia.
Qed.

Lemma wp_skip_to_end b bytes pos (Q : Z -> Prop) :
  stored b bytes -> 0 <= pos <= zlen bytes ->
  (forall pos', pos <= pos' <= zlen bytes -> drop (Z.to_nat pos') bytes = drop_row (drop (Z.to_nat pos) bytes) -> Q pos') ->
  wp (skip_to_end (Ptr b) (zlen bytes) pos) Q.
Proof.
  intros S0 Hpos HQ.
  apply (wp_loop (fun k => pos <= k <= zlen bytes /\ drop_row (drop (Z.to_nat k) bytes) = drop_row (drop (Z.to_nat pos) bytes)) (fun k => zlen bytes - k)); [split; [lia|done]|lia|lia|].
  intros k [Hk E]. destruct (Z.ltb_spec k (zlen bytes)).
  - destruct (zlook_lt bytes k ltac:(lia)) as [c Ec]. wstep. eapply wp_get_elem; [by apply S0|]. wstep.
    rewrite (drop_step _ _ c) in E by (done || lia). cbn [drop_row] in E. fold (is_eol c). destruct (is_eol c) eqn:Ee.
    + apply HQ; [lia|]. by rewrite <- E, (drop_step _ _ c) by (done || lia).
    + split; [|lia]. split; [lia|done].
  - wstep. apply HQ; [lia|]. rewrite <- E. rewrite drop_ge by (unfold zlen in *; lia). done.
Qed.

Lemma wp_next_row p bytes t :
  rep p bytes t ->
  wp (next_row (Some p)) (fun '(e, p') => exists p1 t1, doc_next_row max_rows t = (e, t1) /\ p' = Some p1 /\ rep p1 bytes t1 /\ ps_pos p <= ps_pos p1).
Proof.
  intros R. pose proof R as [Ho [b Eb] Hl Hp Hr Hs He Hro Hf Hmr Hmf]. rewrite Eb in Ho. pose proof Ho as (_ & _ & _ & S0).
  unfold next_row, doc_next_row. cbv zeta. rewrite Eb, Hl. wstep. apply wp_skip_to_end; [done|done|]. intros pos Hpos E.
  cbn [ps_state ps_buffer ps_buffer_cap ps_buffer_len ps_pos ps_row_started ps_eof ps_total_rows ps_field_count ps_max_rows ps_max_fields].
  pose proof (rep_move p bytes t pos R ltac:(lia)) as R1. rewrite Hr, <- E. pose proof (zlen_drop_pos bytes pos ltac:(lia)) as Hd.
  pose proof (rep_flags _ bytes _ (dc_started t) true (dc_rows t) (dc_fields t) R1) as R2.
  rewrite Z.geb_leb. destruct (drop (Z.to_nat pos) bytes) as [|c l] eqn:Ed.
  - rewrite zlen_nil in Hd. destruct (Z.leb_spec (zlen bytes) pos); [|lia]. wstep. eexists _, _. split; [done|]. split; [done|]. split; [|cbn [ps_pos]; lia].
    rewrite Hl, Eb, Hs, Hro, Hf in R2. rewrite Hs, Hro, Hf. exact R2.
  - rewrite zlen_cons in Hd. pose proof (zlen_nonneg l). destruct (Z.leb_spec (zlen bytes) pos); [lia|].
    destruct (zlook_lt bytes pos ltac:(lia)) as [c' Ec]. rewrite (drop_step _ _ c') in Ed by (done || lia). injection Ed as -> El.
    wstep. eapply wp_get_elem; [by apply S0|].
    wstep. apply (wp_mono _ (fun pos' => pos < pos' <= zlen bytes /\ drop (Z.to_nat pos') bytes = drop_eol (c :: l))).
    { cbn [drop_eol]. destruct (c =? 13); [|wstep; split; [lia|done]]. destruct (Z.ltb_spec (pos + 1) (zlen bytes)).
      - destruct (zlook_lt bytes (pos + 1) ltac:(lia)) as [c2 Ec2]. wstep. eapply wp_get_elem; [by apply S0|]. wstep.
        rewrite (drop_step _ _ c2) in El by (done || lia). rewrite <- El. destruct (c2 =? 10); (split; [lia|]); [done|]. by rewrite El, <- El, (drop_step _ _ c2) by (done || lia).
      - wstep. split; [lia|]. rewrite El. rewrite drop_ge in El by (unfold zlen in *; lia). by rewrite <- El. }
    intros pos' [Hpos' E']. rewrite Hmr, <- Hro.
    pose proof (rep_move p bytes t pos' R ltac:(lia)) as R3. rewrite E' in R3.
    pose proof (fun eof => rep_flags _ bytes _ false eof (dc_rows t) (dc_fields t) R3) as R4.
    cbn [ps_state ps_buffer ps_buffer_cap ps_buffer_len ps_pos ps_row_started ps_eof ps_total_rows ps_field_count ps_max_rows ps_max_fields dc_rest] in R4.
    rewrite Eb, Hl, Hf, Hmf, Hmr in R4.
    destruct (Z.eqb_spec max_rows 0); [lia|]. cbn [negb andb]. rewrite Hf, Hmf.
    assert (forall eof, rep (Parser 0 (Ptr b) (ps_buffer_cap p) (zlen bytes) pos' false eof (dc_rows t) (ps_field_count p) max_rows max_fields) bytes
        (Doc (drop_eol (c :: l)) false eof (dc_rows t) (ps_field_count p))) as R5 by (intros eof; by destruct (R4 eof)).
    destruct (dc_rows t >=? max_rows).
    + wstep. eexists _, _. split; [done|]. split; [done|]. split; [apply R5|cbn [ps_pos]; lia].
    + wstep. pose proof (zlen_drop_pos bytes pos' ltac:(lia)) as Hd'. rewrite E' in Hd'.
      eexists _, _. split; [|split; [done|split; [apply R5|cbn [ps_pos]; lia]]].
      destruct (drop_eol (c :: l)) as [|c3 l3]; [rewrite zlen_nil in Hd'|rewrite zlen_cons in Hd'; pose proof (zlen_nonneg l3)]; (bcase; [try lia|try lia]; by rewrite He).
Qed.

(** ** Feeding *)
Lemma wp_grow_cap cap needed (Q : Z -> Prop) :
  1 <= cap < 2 ^ 64 -> needed < 2 ^ 64 -> (forall n, needed <= n < 2 ^ 64 -> cap <= n -> Q n) -> wp (grow_cap 65 cap needed) Q.
Proof.
  intros Hcap Hn HQ. apply (wp_loop (fun c => cap <= c < 2 ^ 64) (fun c => 64 - Z.log2 c)); [lia| | |].
  - pose proof (proj1 (Z.log2_lt_pow2 cap 64 ltac:(lia)) ltac:(lia)). pose proof (Z.log2_nonneg cap). lia.
  - pose proof (Z.log2_nonneg cap). lia.
  - intros c Hc. unfold SIZE_MAX. rewrite Z.gtb_ltb. change ((2 ^ 64 - 1) / 2) with (2 ^ 63 - 1).
    destruct (Z.ltb_spec c needed); [|wstep; apply HQ; lia]. destruct (Z.ltb_spec (2 ^ 63 - 1) c); wstep; [apply HQ; lia|].
    rewrite u64_small by lia. rewrite (Z.mul_comm c 2), Z.log2_double by lia. split; [lia|].
    pose proof (proj1 (Z.log2_lt_pow2 c 63 ltac:(lia)) ltac:(lia)). lia.
Qed.

(** A buffer of no capacity never grows. *)
Lemma grow_cap_zero fuel needed : 0 < needed -> grow_cap fuel 0 needed = Fuel.
Proof.
  intros Hn. apply (loop_diverges (fun c => c = 0)); [|done]. intros c ->. exists 0. split; [|done].
  destruct (Z.ltb_spec 0 needed); [|lia]. reflexivity.
Qed.

Lemma stored_after (b : block Z) (l : list Z) x : stored b l -> zlen l < zlen b -> stored (zupd b (zlen l) (Some x)) l.
Proof. intros S0 Hl i y Ey. pose proof (zlook_Some _ _ _ Ey). rewrite zlook_zupd_ne by lia. by apply S0. Qed.

Lemma wp_append_data p bytes t data (Q : parser -> Prop) :
  rep p bytes t -> zlen bytes + zlen data + 1 <= ps_buffer_cap p ->
  (forall p', rep p' (bytes ++ data) (Doc (dc_rest t ++ data) (dc_started t) (dc_eof t) (dc_rows t) (dc_fields t)) -> ps_pos p' = ps_pos p ->
    ps_buffer_cap p' = ps_buffer_cap p -> Q p') ->
  wp (append_data p (Some data) (zlen data)) Q.
Proof.
  intros R Hroom HQ. pose proof R as [Ho [b Eb] Hl Hp Hr Hs He Hro Hf Hmr Hmf]. rewrite Eb in Ho. destruct Ho as (Hbl & Hcap & Hmax & S0).
  pose proof (zlen_nonneg data). unfold append_data. cbn [default]. rewrite Eb, Hl. unfold PTRDIFF_MAX in Hmax. wstep.
  apply (wp_zfor (fun i buf => exists b, buf = Ptr b /\ zlen b = ps_buffer_cap p /\ stored b (bytes ++ take (Z.to_nat i) data))).
  - exists b. split; [done|]. split; [done|]. by rewrite take_0, app_nil_r.
  - clear b Eb Hbl S0. intros i buf Hi (b & -> & Hbl & S0). wstep. wstep. rename x into c, Hx into Ec.
    assert (zlen (bytes ++ take (Z.to_nat i) data) = zlen bytes + i) as Hz by (rewrite zlen_app, zlen_take by lia; lia).
    apply wp_set_elem; [lia|]. eexists. split; [done|]. split; [by rewrite zlen_zupd|].
    replace (take (Z.to_nat (i + 1)) data) with (take (Z.to_nat i) data ++ [c]).
    + rewrite app_assoc, <- Hz. apply stored_snoc; [lia|done].
    + replace (Z.to_nat (i + 1)) with (S (Z.to_nat i)) by lia. rewrite (take_S_r _ _ c); [done|]. unfold zlook in Ec. destruct (Z.leb_spec 0 i); [done|lia].
  - clear b Eb Hbl S0. intros buf (b & -> & Hbl & S0). rewrite Z.max_r in S0 by lia. rewrite take_ge in S0 by (unfold zlen in *; lia).
    rewrite u64_small by lia. wstep. apply wp_set_elem; [lia|]. wstep. apply HQ; [|done|done].
    assert (zlen (bytes ++ data) = zlen bytes + zlen data) as Hz by (by rewrite zlen_app).
    split; cbn [ps_buffer ps_buffer_cap ps_buffer_len ps_pos ps_row_started ps_eof ps_total_rows ps_field_count ps_max_rows ps_max_fields dc_rest dc_started dc_eof dc_rows dc_fields];
      [|by eexists|lia|lia| |done|done|done|done|done|done].
    + split; [by rewrite zlen_zupd|]. split; [done|]. split; [done|]. rewrite <- Hz. apply stored_after; [done|lia].
    + rewrite Hr, drop_app_le; [done|]. unfold zlen in *. lia.
Qed.

(** What feeding answers: nothing is taken after the end or once the rows are
    spent, and otherwise the data are appended or there is no memory. *)
Definition closed (t : doc) : Prop := dc_eof t = true \/ max_rows <= dc_rows t.
Inductive doc_feed (t : doc) (data : list Z) : scl_error_t -> doc -> Prop :=
| feed_closed : closed t -> doc_feed t data SCL_ERR_SIZE_OVERFLOW t
| feed_ok : ~ closed t -> doc_feed t data SCL_OK (Doc (dc_rest t ++ data) (dc_started t) (dc_eof t) (dc_rows t) (dc_fields t))
| feed_refused : ~ closed t -> doc_feed t data SCL_ERR_OUT_OF_MEMORY t.

Context (al : scl_allocator_t) `{!AllocatorOk al}.

Lemma wp_feed w p bytes t data :
  rep p bytes t -> zlen data <= PTRDIFF_MAX ->
  wp (feed al w (Some p) (Some data) (zlen data))
    (fun '(e, p', w') => exists p1 t1, p' = Some p1 /\ doc_feed t data e t1 /\ w_live w' = w_live w /\ ps_pos p1 = ps_pos p /\
       rep p1 (bytes ++ match e with SCL_OK => data | _ => [] end) t1 /\
       (e = SCL_ERR_OUT_OF_MEMORY -> ps_buffer_cap p < zlen bytes + zlen data + 1) /\ ps_buffer_cap p <= ps_buffer_cap p1).
Proof.
  intros R Hdata. pose proof R as [Ho [b Eb] Hl Hp Hr Hs He Hro Hf Hmr Hmf]. pose proof (zlen_nonneg data) as Hd0.
  pose proof (owns_len _ _ _ _ Ho) as (Hc1 & Hc2 & Hc3). specialize (Hc3 ltac:(lia)). unfold PTRDIFF_MAX in *.
  assert (forall e (t1 : doc), doc_feed t data e t1 -> (e = SCL_ERR_OUT_OF_MEMORY -> ps_buffer_cap p < zlen bytes + zlen data + 1) -> e <> SCL_OK -> t1 = t ->
    exists p1 t1, Some p = Some p1 /\ doc_feed t data e t1 /\ w_live w = w_live w /\ ps_pos p1 = ps_pos p /\
       rep p1 (bytes ++ match e with SCL_OK => data | _ => [] end) t1 /\
       (e = SCL_ERR_OUT_OF_MEMORY -> ps_buffer_cap p < zlen bytes + zlen data + 1) /\ ps_buffer_cap p <= ps_buffer_cap p1) as Hstay.
  { intros e t1 F Ho' Hne ->. exists p, t. replace (match e with SCL_OK => data | _ => [] end) with (@nil Z) by by destruct e. rewrite app_nil_r. by split_and!. }
  unfold feed. rewrite bool_decide_true by by eexists. cbn [negb andb]. rewrite <- He.
  destruct (dc_eof t) eqn:Eeof; [wstep; eapply Hstay; [constructor; by left|done|done|done]|].
  rewrite Hmr, <- Hro. destruct (Z.eqb_spec max_rows 0) as [|_]; [lia|]. cbn [negb andb]. rewrite Z.geb_leb. destruct (Z.leb_spec max_rows (dc_rows t)) as [Hge|Hlt];
    [wstep; eapply Hstay; [constructor; by right|done|done|done]|].
  assert (~ closed t) as Hopen by (intros [?|?]; [congruence|lia]).
  rewrite Hl. rewrite scl_add_overflow_spec by (unfold is_u64; lia). destruct (Z.ltb_spec (zlen bytes + zlen data) (2 ^ 64)); [|lia].
  cbn [mbind option_bind]. rewrite scl_add_overflow_spec by (unfold is_u64; lia). destruct (Z.ltb_spec (zlen bytes + zlen data + 1) (2 ^ 64)); [|lia].
  unfold ensure_buf. destruct (Z.leb_spec (zlen bytes + zlen data + 1) (ps_buffer_cap p)) as [Hroom|Hbig].
  { do 2 wstep. wstep. eapply wp_append_data; [exact R|lia|]. intros p1 R1 Hp1 Hcap1. wstep. eexists _, _. split; [done|]. split; [by constructor|].
    split; [done|]. split; [done|]. split; [done|]. split; [done|lia]. }
  wstep. case_match; [wstep; eapply Hstay; [by constructor 3|lia|done|done]|].
  wstep. apply wp_grow_cap; [rewrite Eb in Ho; destruct Ho; lia|lia|]. intros n Hn Hn2.
  wstep. rewrite <- (Z.mul_1_r (ps_buffer_cap p)) at 1. rewrite <- (Z.mul_1_r n).
  eapply (wp_realloc_grow al w (ps_buffer p) (ps_buffer_cap p) 1 bytes n); [lia|done|lia|lia| |].
  - intros tmp old w' Ho' Hw'. wstep. cbv beta iota zeta. wstep. 
    assert (rep (Parser (ps_state p) (Ptr tmp) (n * 1) (ps_buffer_len p) (ps_pos p) (ps_row_started p) (ps_eof p) (ps_total_rows p) (ps_field_count p) (ps_max_rows p) (ps_max_fields p)) bytes t) as R1.
    { rewrite Z.mul_1_r. split; try done; [by eexists|cbn [ps_eof]; congruence]. }
    eapply wp_append_data; [exact R1|cbn [ps_buffer_cap]; lia|]. intros p1 R2 Hp1 Hcap1. wstep. cbn [ps_buffer_cap ps_pos] in *. eexists _, _. split; [done|]. split; [by constructor|].
    split; [rewrite Hw', Eb; cbn [held]; lia|]. split; [done|]. split; [done|]. split; [done|lia].
  - intros w' Hw'. wstep. cbv beta iota zeta. wstep. rewrite Hw'. replace (Parser _ _ _ _ _ _ _ _ _ _ _) with p by by destruct p.
    eapply Hstay; [by constructor 3|lia|done|done].
Qed.

(** ** Beginning and end *)
Lemma init_spec w p0 mf mr :
  mr = 0 /\ max_rows = d_max_rows d \/ mr <> 0 /\ max_rows = mr -> mf = 0 /\ max_fields = d_max_fields d \/ mf <> 0 /\ max_fields = mf ->
  let '(e, p, w1) := init_with_limits d al w (Some p0) mf mr in
  (e = SCL_OK /\ w_live w1 = w_live w + 1 /\ exists p1, p = Some p1 /\ rep p1 [] (Doc [] false false 0 0) /\ ps_buffer_cap p1 = d_init_buf d) \/
  (e = SCL_ERR_OUT_OF_MEMORY /\ w_live w1 = w_live w /\ malloc_fn al (w_reqs w) (d_init_buf d) MAX_ALIGN = false).
Proof.
  intros Hr Hf. unfold init_with_limits. cbv zeta. destruct (scl_alloc al w (d_init_buf d) MAX_ALIGN 1) as [[b|] w1] eqn:Ea.
  - left. rewrite <- (Z.mul_1_r (d_init_buf d)) in Ea. apply (owns_alloc (A := Z) al) in Ea as [Hw Ho]; [|lia]. cbn [to_ptr held] in Hw. split; [done|]. split; [done|].
    eexists. split; [done|]. split; [|done]. split; cbn [ps_buffer ps_buffer_cap ps_buffer_len ps_pos ps_row_started ps_eof ps_total_rows ps_field_count ps_max_rows ps_max_fields dc_rest dc_started dc_eof dc_rows dc_fields]; try done; [by eexists| |].
    + destruct Hr as [[-> ->]|[Hne ->]]; [done|]. by destruct (Z.eqb_spec mr 0).
    + destruct Hf as [[-> ->]|[Hne ->]]; [done|]. by destruct (Z.eqb_spec mf 0).
  - right. unfold scl_alloc in Ea. destruct (malloc_fn al (w_reqs w) _ _); [done|]. by injection Ea as <-.
Qed.

Lemma wp_parser_destroy w p bytes t (Q : scl_error_t * option parser * world -> Prop) :
  rep p bytes t -> (forall p' w', w_live w' = w_live w - 1 -> ps_buffer p' = Null -> Q (SCL_OK, Some p', w')) -> wp (destroy w (Some p)) Q.
Proof.
  intros R HQ. destruct (rep_buffer _ _ _ R) as [b Eb]. unfold destroy. wstep. rewrite Eb. cbn [free_ptr]. wstep. wstep. by apply HQ.
Qed.
End Operations.

(** ** Sequences of operations

    A field is answered by its contents, read through the pointers it was
    delivered by. *)
Inductive reader_op : Type :=
| RFeed (data : list Z)
| RNextField (outs : bool)
| RNextRow.

Section Refinement.
Context (d : dialect) (split : list Z -> list Z * list Z) `{!DialectOk d split} (max_rows max_fields : Z) (al : scl_allocator_t) `{!AllocatorOk al}.
Hypothesis (Hrows : 0 < max_rows) (Hfields : 0 < max_fields).

Definition reader_step (s : option parser * world) (op : reader_op) : res (reply (list Z) * (option parser * world)) :=
  let '(p, w) := s in
  match op with
  | RFeed data => '(e, p, w) ← feed al w p (Some data) (zlen data); mret (Code e, (p, w))
  | RNextField outs =>
      '(e, f, p) ← next_field d p outs;
      match f, p with
      | Some (off, n), Some q => l ← read_bytes (ps_buffer q) off n; mret (Value l, (p, w))
      | _, _ => mret (Code e, (p, w))
      end
  | RNextRow => '(e, p) ← next_row p; mret (Code e, (p, w))
  end.

Inductive reader_spec : doc -> reader_op -> reply (list Z) -> doc -> Prop :=
| spec_feed t data e t' : doc_feed max_rows t data e t' -> reader_spec t (RFeed data) (Code e) t'
| spec_field t f t' : doc_next_field d split max_fields t = (SCL_OK, Some f, t') -> reader_spec t (RNextField true) (Value f) t'
| spec_no_field t e t' : doc_next_field d split max_fields t = (e, None, t') -> reader_spec t (RNextField true) (Code e) t'
| spec_field_null t : reader_spec t (RNextField false) (Code SCL_ERR_NULL_PTR) t
| spec_row t e t' : doc_next_row max_rows t = (e, t') -> reader_spec t RNextRow (Code e) t'.

Definition reader_rep (w0 : world) (s : option parser * world) (t : doc) : Prop :=
  exists p bytes, s.1 = Some p /\ rep max_rows max_fields p bytes t /\ w_live s.2 = w_live w0 + 1.

(** What is fed at a time is an object. *)
Definition op_ok (t : doc) (op : reader_op) : Prop := match op with RFeed data => zlen data <= PTRDIFF_MAX | _ => True end.

Lemma reader_step_refines w0 s t op :
  reader_rep w0 s t -> op_ok t op -> wp (reader_step s op) (fun '(out, s') => exists t', reader_spec t op out t' /\ reader_rep w0 s' t').
Proof.
  intros (p & bytes & Ep & R & Hw) Hop. destruct s as [q w]. cbn [fst snd] in *. subst q. destruct op as [data|[]|]; cbn [reader_step].
  - wstep. eapply wp_mono; [eapply wp_feed; [| | |exact R|exact Hop]; done|]. intros [[e p'] w'] (p1 & t1 & -> & F & Hw' & _ & R1 & _). wstep.
    exists t1. split; [by constructor|]. exists p1. eexists. cbn [fst snd]. split; [done|]. split; [exact R1|lia].
  - wstep. eapply wp_mono; [eapply wp_next_field; [..|exact R]; done|].
    intros [[e f] p'] (c & t1 & E & p1 & bytes1 & -> & R1 & _ & _ & Hc & Hin). destruct f as [[off n]|]; cbn [fmap option_fmap option_map] in Hc; subst c.
    + destruct Hin as (H1 & H2 & H3). cbn [fst snd] in *. pose proof R1 as [Ho [b Eb] _ Hp _ _ _ _ _ _ _]. rewrite Eb in *. destruct Ho as (_ & _ & _ & S0).
      wstep. eapply wp_read_bytes; [exact S0|lia|lia|lia|]. wstep. exists t1. split; [|by eexists p1, bytes1].
      constructor. rewrite E. revert E. unfold doc_next_field, doc_field. repeat case_match; intros; by simplify_eq.
    + wstep. exists t1. split; [by constructor|]. by exists p1, bytes1.
  - wstep. exists t. split; [constructor|]. by exists p, bytes.
  - wstep. eapply wp_mono; [eapply wp_next_row; [..|exact R]; done|]. intros [e p'] (p1 & t1 & E & -> & R1 & _). wstep.
    exists t1. split; [by constructor|]. by exists p1, bytes.
Qed.

(** A parser that was initialised, used in any way and destroyed. *)
Lemma reader_refines w (p0 : parser) mf mr ops :
  (if mr =? 0 then d_max_rows d else mr) = max_rows -> (if mf =? 0 then d_max_fields d else mf) = max_fields ->
  Forall (op_ok (Doc [] false false 0 0)) ops ->
  let '(e, p, w1) := init_with_limits d al w (Some p0) mf mr in
  (e = SCL_OK /\ exists outs p2 w2 t p3 w3, run reader_step (p, w1) ops = Ok (outs, (p2, w2)) /\
     trace reader_spec (Doc [] false false 0 0) ops outs t /\ destroy w2 p2 = Ok (SCL_OK, p3, w3) /\ w_live w3 = w_live w) \/
  (e = SCL_ERR_OUT_OF_MEMORY /\ w_live w1 = w_live w).
Proof.
  intros Er Ef Hops.
  assert (mr = 0 /\ max_rows = d_max_rows d \/ mr <> 0 /\ max_rows = mr) as Hr by (destruct (Z.eqb_spec mr 0); auto).
  assert (mf = 0 /\ max_fields = d_max_fields d \/ mf <> 0 /\ max_fields = mf) as Hf by (destruct (Z.eqb_spec mf 0); auto).
  pose proof (init_spec d max_rows max_fields Hrows Hfields al w p0 mf mr Hr Hf) as I.
  destruct (init_with_limits d al w (Some p0) mf mr) as [[e p] w1]. destruct I as [(-> & Hw & p1 & -> & R & _)|(-> & Hw & _)]; [left|by right].
  split; [done|].
  assert (reader_rep w (Some p1, w1) (Doc [] false false 0 0)) as R0 by by exists p1, [].
  assert (permitted reader_spec op_ok (Doc [] false false 0 0) ops) as Hok.
  { intros ops1 o ops2 outs a' -> _. apply Forall_app in Hops as [_ Ho]. by apply Forall_cons in Ho as [Ho _]. }
  destruct (proj1 (wp_ok _ _) (run_refines_on reader_step reader_spec op_ok (reader_rep w) _ _ ops (reader_step_refines w) R0 Hok)) as ([outs [p2 w2]] & E & t & T & R2).
  destruct R2 as (q & bytes & Eq & Rq & Hw2). cbn [fst snd] in *. subst p2.
  destruct (proj1 (wp_ok _ _) (wp_parser_destroy max_rows max_fields w2 q bytes t (fun '(e, p', w') => e = SCL_OK /\ w_live w' = w_live w2 - 1) Rq ltac:(by intros))) as ([[e' p3] w3] & Ed & -> & Hw3).
  exists outs, (Some q), w2, t, p3, w3. split_and!; [done|done|done|lia].
Qed.
End Refinement.
