(* ===== verification/Documents.v ===== *)
(** Whole documents of delimited text: what a text says, as rows of fields, and
    the reading of all of it by the loop the two headers prescribe.  The
    fields are collected as pointers into the buffer and looked at when
    everything has been read, so their contents have to survive the parsing of
    the later ones. *)

From S2P Require Import Prelude Core Refine Delimited.
#[local] Open Scope Z_scope.

(** ** The loop of the client

    [do { while (next_field == SCL_OK) ...; } while (next_row == SCL_OK);] *)
Section Client.
Context (d : dialect) (al : scl_allocator_t).

Fixpoint feed_all (w : world) (p : option parser) (chunks : list (list Z)) : res (scl_error_t * option parser * world) :=
  match chunks with
  | [] => mret (SCL_OK, p, w)
  | c :: chunks =>
      '(e, p, w) ← feed al w p (Some c) (zlen c);
      match e with SCL_OK => feed_all w p chunks | _ => mret (e, p, w) end
  end.

Definition read_fields (fuel : nat) (p : option parser) : res (list (Z * Z) * option parser) :=
  loop fuel (fun '(p, fields) =>
    '(e, f, p) ← next_field d p true;
    mret (match e, f with SCL_OK, Some f => inl (p, fields ++ [f]) | _, _ => inr (fields, p) end)) (p, []).

Definition read_rows (fuel : nat) (p : option parser) : res (scl_error_t * list (list (Z * Z)) * option parser) :=
  loop fuel (fun '(p, rows) =>
    '(row, p) ← read_fields fuel p;
    '(e, p) ← next_row p;
    mret (match e with SCL_OK => inl (p, rows ++ [row]) | _ => inr (e, rows ++ [row], p) end)) (p, []).

(** The fields behind their pointers. *)
Definition look (p : option parser) (f : Z * Z) : res (list Z) :=
  match p with Some p => read_bytes (ps_buffer p) f.1 f.2 | None => UB end.
Definition look_rows (p : option parser) (rows : list (list (Z * Z))) : res (list (list (list Z))) := mapM (mapM (look p)) rows.
End Client.

(** ** What a text says

    [encodes f e]: [e] is a way of writing the field [f]. *)
Section Says.
Context (d : dialect) (encodes : list Z -> list Z -> Prop).

(** Further fields, each behind a delimiter. *)
Inductive more_says : list (list Z) -> list Z -> Prop :=
| more_nil : more_says [] []
| more_cons f e fs txt : encodes f e -> more_says fs txt -> more_says (f :: fs) (d_delimiter d :: e ++ txt).

(** An empty line has no fields; a row of fields is not an empty line. *)
Inductive row_says : list (list Z) -> list Z -> Prop :=
| row_nil : row_says [] []
| row_cons f e fs txt : encodes f e -> more_says fs txt -> e ++ txt <> [] -> row_says (f :: fs) (e ++ txt).

Definition eol (t : list Z) : Prop := t = [10] \/ t = [13; 10].

(** The last line end may be missing. *)
Inductive doc_says : list (list (list Z)) -> list Z -> Prop :=
| doc_last row e : row_says row e -> e <> [] -> doc_says [row] e
| doc_end row e t : row_says row e -> eol t -> doc_says [row] (e ++ t)
| doc_cons row e t rows txt : row_says row e -> eol t -> doc_says rows txt -> doc_says (row :: rows) (e ++ t ++ txt).

(** The end of a field. *)
Definition stops (tail : list Z) : Prop := match tail with [] => True | c :: _ => c = d_delimiter d \/ is_eol c = true end.

(** What the encoding promises: the field read from an encoded field is that
    field, and its encoding does not begin with a line end. *)
Class Encoding (split : list Z -> list Z * list Z) : Prop := {
  enc_split f e tail : encodes f e -> stops tail -> split (e ++ tail) = (f, tail);
  enc_head f c e : encodes f (c :: e) -> is_eol c = false;
  enc_delimiter : is_eol (d_delimiter d) = false
}.
End Says.

(** The rows that have fields. *)
Definition full_rows (rows : list (list (list Z))) : Z := zlen (filter (fun row => row <> []) rows).

(** * Theorems *)
Section Reading.
Context (d : dialect) (split : list Z -> list Z * list Z) (encodes : list Z -> list Z -> Prop) `{!DialectOk d split, !Encoding d encodes split}.
Context (max_rows max_fields : Z).
Hypothesis (Hrows : 0 < max_rows < 2 ^ 64) (Hfields : 0 < max_fields < 2 ^ 64).
Notation rep := (rep max_rows max_fields).

(** Pointers to the given fields, among what has been passed. *)
Definition point_to (p : parser) (bytes : list Z) (ptrs : list (Z * Z)) (fs : list (list Z)) : Prop :=
  contents bytes <$> ptrs = fs /\ Forall (fun f => inside f (ps_pos p)) ptrs.

Lemma point_to_later p bytes p' bytes' ptrs fs : point_to p bytes ptrs fs -> later p bytes p' bytes' -> point_to p' bytes' ptrs fs.
Proof.
  intros [<- F] L. split.
  - apply list_fmap_ext. intros i f Hf. apply (contents_later p bytes p' bytes'); [|done]. by apply (Forall_lookup_1 _ _ _ _ F Hf).
  - eapply Forall_impl; [exact F|]. intros f (H1 & H2 & H3). destruct L as [L _]. unfold inside. lia.
Qed.

Lemma point_to_snoc p bytes ptrs fs f : point_to p bytes ptrs fs -> inside f (ps_pos p) -> point_to p bytes (ptrs ++ [f]) (fs ++ [contents bytes f]).
Proof. intros [<- F] Hf. split; [by rewrite fmap_app|]. apply Forall_app. split; [done|]. by constructor; [|constructor]. Qed.

(** What is left of a row when [row0] of its fields have been read. *)
Definition mid_row (p0 : parser) (bytes0 : list Z) (row : list (list Z)) (tail : list Z) (rows : Z) (m : Z) (s : option parser * list (Z * Z)) : Prop :=
  exists p bytes t row0 fs txt, s.1 = Some p /\ rep p bytes t /\ later p0 bytes0 p bytes /\ zlen bytes = zlen bytes0 /\
    point_to p bytes s.2 row0 /\ row = row0 ++ fs /\ more_says d encodes fs txt /\ t = Doc (txt ++ tail) true false rows (zlen row0) /\ m = zlen fs.

Lemma more_stops fs txt tail : more_says d encodes fs txt -> stops d tail -> stops d (txt ++ tail).
Proof. intros [|f e fs' txt' _ _] Ht; [done|]. by left. Qed.

(** What [next_field] answers for a field that is there. *)
Lemma wp_field_there p bytes t e c t1 (Q : scl_error_t * option (Z * Z) * option parser -> Prop) :
  rep p bytes t -> doc_next_field d split max_fields t = (e, c, t1) ->
  (forall f p1 bytes1, rep p1 bytes1 t1 -> later p bytes p1 bytes1 -> zlen bytes1 = zlen bytes -> contents bytes1 <$> f = c ->
     match f with Some f => inside f (ps_pos p1) | None => True end -> Q (e, f, Some p1)) ->
  wp (next_field d (Some p) true) Q.
Proof.
  intros R E HQ. eapply wp_mono; [eapply wp_next_field; [..|exact R]; lia || done|].
  intros [[e' f] p'] (c' & t' & E' & p1 & bytes1 & -> & R1 & L & Hl & Hc & Hf). rewrite E in E'. injection E' as <- <- <-. by apply HQ with bytes1.
Qed.

Lemma mid_row_step p0 bytes0 row tail rows m s (Q : list (Z * Z) * option parser -> Prop) :
  zlen row <= max_fields -> (tail = [] \/ exists c l, tail = c :: l /\ is_eol c = true) -> 0 <= ps_pos p0 ->
  mid_row p0 bytes0 row tail rows m s ->
  (forall ptrs p bytes, rep p bytes (Doc tail true false rows (zlen row)) -> later p0 bytes0 p bytes -> zlen bytes = zlen bytes0 -> point_to p bytes ptrs row -> Q (ptrs, Some p)) ->
  wp ('(e, f, p) ← next_field d s.1 true; mret (match e, f with SCL_OK, Some f => inl (p, s.2 ++ [f]) | _, _ => inr (s.2, p) end))
    (fun r => match r with inl s' => exists m', mid_row p0 bytes0 row tail rows m' s' /\ 0 <= m' < m | inr q => Q q end).
Proof.
  intros Hmax Htail H0 (p & bytes & t & row0 & fs & txt & Es & R & L & Hl & Hp & -> & M & -> & ->) HQ. destruct s as [q ptrs]. cbn [fst snd] in *. subst q.
  assert (stops d tail) as Hstop by (destruct Htail as [->|(c & l & -> & Hc)]; [done|by right]).
  wstep. destruct M as [|f e fs txt He M].
  - rewrite app_nil_r in *. cbn [app] in R. eapply (wp_field_there _ _ _ SCL_ERR_EMPTY None); [exact R| |].
    { unfold doc_next_field. cbn [dc_rest dc_started negb]. destruct Htail as [->|(c & l & -> & Hc)]; [done|]. by rewrite Hc. }
    intros f p1 bytes1 R1 L1 Hl1 Hf _. wstep. eapply HQ; [exact R1|by eapply later_trans|lia|by eapply point_to_later].
  - rewrite zlen_app, zlen_cons in Hmax. pose proof (zlen_nonneg fs). pose proof (zlen_nonneg row0).
    eapply (wp_field_there _ _ _ SCL_OK (Some f) (Doc (txt ++ tail) true false rows (zlen row0 + 1))); [exact R| |].
    { unfold doc_next_field. cbn [dc_rest dc_started negb app dc_fields dc_rows dc_eof]. rewrite (enc_delimiter d encodes), Z.eqb_refl. rewrite Z.geb_leb. destruct (Z.leb_spec max_fields (zlen row0)); [lia|].
      unfold doc_field. rewrite <- app_assoc, (enc_split d encodes f) by (done || by apply (more_stops fs)). cbn [dc_eof]. by rewrite u64_small by lia. }
    intros f' p1 bytes1 R1 L1 Hl1 Hf Hin. destruct f' as [f'|]; [|done]. injection Hf as Hf. wstep. exists (zlen fs). split; [|rewrite zlen_cons; lia].
    exists p1, bytes1, (Doc (txt ++ tail) true false rows (zlen row0 + 1)), (row0 ++ [f]), fs, txt. cbn [fst snd]. split_and!; try done.
    + by eapply later_trans.
    + lia.
    + rewrite <- Hf. apply point_to_snoc; [by eapply point_to_later|done].
    + by rewrite <- app_assoc.
    + by rewrite zlen_app, zlen_cons, zlen_nil.
Qed.

Definition row_end (tail : list Z) : Prop := tail = [] \/ exists c l, tail = c :: l /\ is_eol c = true.

(** One for a row with fields. *)
Definition row_count (row : list (list Z)) : Z := match row with [] => 0 | _ => 1 end.

Lemma row_head row e c l : row_says d encodes row e -> e = c :: l -> is_eol c = false.
Proof.
  intros [|f e' fs txt He M _] E; [done|]. destruct e' as [|c' e']; cbn [app] in E.
  - destruct M; [done|]. injection E as <- <-. apply (enc_delimiter d encodes).
  - injection E as <- <-. by eapply (enc_head d encodes).
Qed.

Lemma wp_read_row_fields fuel p bytes row e tail rows k (Q : list (Z * Z) * option parser -> Prop) :
  rep p bytes (Doc (e ++ tail) false false rows k) -> row_says d encodes row e -> row_end tail -> zlen row <= max_fields ->
  zlen row + 1 < Z.of_nat fuel -> 0 <= rows -> rows + 1 < 2 ^ 64 ->
  (forall ptrs p1 bytes1 started k1, rep p1 bytes1 (Doc tail started false (rows + row_count row) k1) -> later p bytes p1 bytes1 -> zlen bytes1 = zlen bytes ->
     point_to p1 bytes1 ptrs row -> Q (ptrs, Some p1)) ->
  wp (read_fields d fuel (Some p)) Q.
Proof.
  intros R Hrow Htail Hmax Hfuel Hr0 Hr HQ. pose proof (rep_pos _ _ _ _ _ R) as [H0 _]. pose proof (zlen_nonneg row).
  apply (wp_loop_rel (fun m s => s = (Some p, []) /\ m = zlen row + 1 \/ row <> [] /\ mid_row p bytes row tail (rows + 1) m s) (zlen row + 1)); [by left|lia|lia|].
  intros m s [[-> ->]|[Hne M]].
  2:{ pose proof (mid_row_step p bytes row tail (rows + 1) m s Q Hmax Htail H0 M) as W. destruct s as [q ptrs]. cbn [fst snd] in W. cbn beta iota in W |- *.
      eapply wp_mono; [apply W|].
      - intros ptrs' p1 bytes1 R1 L Hl Hp. eapply HQ; [|done|done|done]. replace (row_count row) with 1 by (by destruct row). exact R1.
      - intros [s'|q']; [|done]. intros (m' & M' & Hm). exists m'. split; [lia|by right]. }
  wstep. destruct Hrow as [|f e fs txt He M Hne].
  - cbn [app] in R. eapply (wp_field_there _ _ _ SCL_ERR_EMPTY None (match tail with [] => _ | _ => Doc tail false false rows 0 end)); [exact R| |].
    { unfold doc_next_field. cbn [dc_rest dc_started negb]. destruct Htail as [->|(c & l & -> & Hc)]; [done|]. by rewrite Hc. }
    intros f p1 bytes1 R1 L1 Hl1 Hf _. wstep. cbn [row_count] in HQ. rewrite Z.add_0_r in HQ.
    destruct tail as [|c l]; (eapply HQ; [exact R1|exact L1|done|by split]).
  - assert (stops d tail) as Hstop by (destruct Htail as [->|(c & l & -> & Hc)]; [done|by right]).
    eapply (wp_field_there _ _ _ SCL_OK (Some f) (Doc (txt ++ tail) true false (rows + 1) 1)); [exact R| |].
    { unfold doc_next_field. cbn [dc_rest dc_started negb dc_fields dc_rows dc_eof]. destruct (e ++ txt) as [|c l] eqn:E; [done|]. cbn [app].
      rewrite (row_head (f :: fs) (e ++ txt) c l) by (try done; constructor; (done || by rewrite E)). unfold doc_field. change (c :: l ++ tail) with ((c :: l) ++ tail). rewrite <- E.
      rewrite <- app_assoc, (enc_split d encodes f) by (done || by apply (more_stops fs)). cbn [dc_eof]. rewrite (u64_small (rows + 1)) by lia. done. }
    intros f' p1 bytes1 R1 L1 Hl1 Hf Hin. destruct f' as [f'|]; [|done]. injection Hf as Hf. wstep. pose proof (zlen_nonneg fs). exists (zlen fs). rewrite zlen_cons. split; [lia|].
    right. split; [done|]. exists p1, bytes1, (Doc (txt ++ tail) true false (rows + 1) 1), [f], fs, txt. cbn [fst snd]. split_and!; try done.
    split; [by rewrite <- Hf|]. by constructor; [|constructor].
Qed.

Lemma more_len fs txt : more_says d encodes fs txt -> zlen fs <= zlen txt.
Proof. induction 1 as [|f e fs txt _ _ IH]; [done|]. rewrite !zlen_cons, zlen_app. pose proof (zlen_nonneg e). lia. Qed.

Lemma row_len row e : row_says d encodes row e -> zlen row <= zlen e + 1.
Proof.
  intros [|f e' fs txt _ M%more_len _]; [change (zlen (@nil (list Z))) with 0; change (zlen (@nil Z)) with 0; lia|].
  rewrite zlen_cons, zlen_app. pose proof (zlen_nonneg e'). lia.
Qed.

Lemma row_end_eol t txt : eol t -> row_end (t ++ txt).
Proof. intros [->| ->]; right; eexists _, _; by split. Qed.

Lemma doc_len rows txt : doc_says d encodes rows txt -> zlen rows <= zlen txt /\ txt <> [] /\ Forall (fun row => zlen row <= zlen txt + 1) rows.
Proof.
  induction 1 as [row e Hr Hne|row e t Hr Ht|row e t rows txt Hr Ht _ (IH1 & IH2 & IH3)]; apply row_len in Hr.
  - rewrite zlen_cons, zlen_nil. split; [destruct e; [done|]; rewrite zlen_cons; pose proof (zlen_nonneg e); lia|]. split; [done|]. by constructor; [|constructor].
  - assert (1 <= zlen t) by (by destruct Ht as [->| ->]). rewrite zlen_cons, zlen_nil, zlen_app. pose proof (zlen_nonneg e). split; [lia|].
    split; [by destruct e, Ht as [->| ->]|]. by constructor; [lia|constructor].
  - assert (1 <= zlen t) by (by destruct Ht as [->| ->]). rewrite zlen_cons, !zlen_app. pose proof (zlen_nonneg e). pose proof (zlen_nonneg txt). split; [lia|].
    split; [by destruct e, Ht as [->| ->]|]. constructor; [lia|]. eapply Forall_impl; [exact IH3|]. cbv beta. intros x Hx. lia.
Qed.

Lemma full_rows_cons row rows : full_rows (row :: rows) = row_count row + full_rows rows.
Proof.
  unfold full_rows. destruct row as [|f fs]; cbn [row_count].
  - by rewrite filter_cons_False by auto.
  - rewrite filter_cons_True by done. rewrite zlen_cons. lia.
Qed.

(** What [next_row] does at the end of a row. *)
Lemma doc_next_row_at t txt started rows k : eol t -> rows < max_rows ->
  doc_next_row max_rows (Doc (t ++ txt) started false rows k) = (match txt with [] => SCL_ERR_EMPTY | _ => SCL_OK end, Doc txt false false rows k).
Proof.
  intros Ht Hr. unfold doc_next_row. cbn [dc_rest dc_rows dc_eof dc_fields]. rewrite Z.geb_leb.
  destruct Ht as [->| ->]; cbn [app drop_row is_eol Z.eqb orb drop_eol Pos.eqb]; (destruct (Z.leb_spec max_rows rows); [lia|done]).
Qed.

Definition points (p : parser) (bytes : list Z) (ptrs : list (list (Z * Z))) (rows : list (list (list Z))) : Prop := Forall2 (point_to p bytes) ptrs rows.

Lemma points_later p bytes p' bytes' ptrs rows : points p bytes ptrs rows -> later p bytes p' bytes' -> points p' bytes' ptrs rows.
Proof. intros F L. eapply Forall2_impl; [exact F|]. intros x y Hx. by eapply point_to_later. Qed.

(** What is left of a document when [rows0] have been read. *)
Definition mid_doc (n : Z) (all : list (list (list Z))) (m : Z) (s : option parser * list (list (Z * Z))) : Prop :=
  exists p bytes rows0 rest txt rows k, s.1 = Some p /\ rep p bytes (Doc txt false false rows k) /\ doc_says d encodes rest txt /\ points p bytes s.2 rows0 /\
    all = rows0 ++ rest /\ 0 <= rows /\ rows + full_rows rest < max_rows /\ m = zlen rest /\ zlen bytes = n.

Lemma wp_read_rows fuel p bytes text all k :
  rep p bytes (Doc text false false 0 k) -> doc_says d encodes all text -> full_rows all < max_rows -> Forall (fun row => zlen row <= max_fields) all ->
  zlen text + 2 < Z.of_nat fuel ->
  wp (read_rows d fuel (Some p)) (fun '(e, ptrs, p') => e = SCL_ERR_EMPTY /\ exists p1 bytes1 t1, p' = Some p1 /\ rep p1 bytes1 t1 /\ points p1 bytes1 ptrs all).
Proof.
  intros R D Hfull Hmax Hfuel. destruct (doc_len _ _ D) as (Hl & _ & Hrl). pose proof (zlen_nonneg text).
  assert (Forall (fun row => zlen row + 1 < Z.of_nat fuel) all) as Hrf by (eapply Forall_impl; [exact Hrl|]; cbv beta; intros x Hx; lia).
  apply (wp_loop_rel (mid_doc (zlen bytes) all) (zlen all)); [|lia|lia|].
  { exists p, bytes, [], all, text, 0, k. cbn [fst snd]. split_and!; try done; try lia. constructor. }
  clear p R D text Hl Hrl Hfuel H Hfull k.
  intros m [q ptrs] (p & b & rows0 & rest & txt & rows & k & Eq & R & D & Hp & Eall & Hr0 & Hfull & -> & Hb). cbn [fst snd] in *. subst q.
  assert (forall row rest', rest = row :: rest' -> zlen row <= max_fields /\ zlen row + 1 < Z.of_nat fuel /\ 0 <= row_count row <= 1 /\ 0 <= full_rows rest') as Hin.
  { intros row rest' ->. rewrite Eall in Hmax, Hrf. apply Forall_app in Hmax as [_ Hmax], Hrf as [_ Hrf]. apply Forall_cons in Hmax as [Hmax _], Hrf as [Hrf _].
    split_and!; [done|done|destruct row; cbn; lia|destruct row; cbn; lia|apply zlen_nonneg]. }
  assert (forall row e tail (Q : list (Z * Z) * option parser -> Prop), txt = e ++ tail -> row_says d encodes row e -> row_end tail -> (exists rest', rest = row :: rest') ->
    (forall row_ptrs p1 b1 started k1, rep p1 b1 (Doc tail started false (rows + row_count row) k1) -> zlen b1 = zlen bytes -> points p1 b1 (ptrs ++ [row_ptrs]) (rows0 ++ [row]) -> Q (row_ptrs, Some p1)) ->
    wp (read_fields d fuel (Some p)) Q) as Hrow.
  { intros row e tail Q -> Hrs Htail [rest' Er] HQ. destruct (Hin row rest' Er) as (H1 & H2 & H3 & H4). rewrite Er, full_rows_cons in Hfull.
    eapply (wp_read_row_fields fuel p b row e tail rows k); [exact R|done|done|done|done|lia|lia|]. intros rp p1 b1 st k1 R1 L1 Hl1 Hp1. eapply HQ; [exact R1|lia|].
    apply Forall2_app; [by eapply points_later|by constructor; [|constructor]]. }
  assert (forall row_ptrs p1 b1 t e t1 row rest' , rep p1 b1 t -> zlen b1 = zlen bytes -> points p1 b1 (ptrs ++ [row_ptrs]) (rows0 ++ [row]) -> rest = row :: rest' -> doc_next_row max_rows t = (e, t1) ->
    (e = SCL_ERR_EMPTY /\ rest' = [] \/ e = SCL_OK /\ exists txt' k', t1 = Doc txt' false false (rows + row_count row) k' /\ doc_says d encodes rest' txt') ->
    wp ('(e, p) ← next_row (Some p1); mret (match e with SCL_OK => inl (p, ptrs ++ [row_ptrs]) | _ => inr (e, ptrs ++ [row_ptrs], p) end))
      (fun r => match r with
       | inl s' => exists m', 0 <= m' < zlen rest /\ mid_doc (zlen bytes) all m' s'
       | inr q => (fun '(e, ptrs, p') => e = SCL_ERR_EMPTY /\ exists p1 bytes1 t1, p' = Some p1 /\ rep p1 bytes1 t1 /\ points p1 bytes1 ptrs all) q end)) as Hnext.
  { intros rp p1 b1 t e t1 row rest' R1 Hb1 Hp1 Er E Hcase. destruct (Hin row rest' Er) as (H1 & H2 & H3 & H4). wstep.
    eapply wp_mono; [eapply wp_next_row; [..|exact R1]; lia|]. intros [e' p'] (p2 & t2 & E2 & -> & R2 & Hpos). rewrite E in E2. injection E2 as <- <-. cbv beta iota. wstep.
    assert (points p2 b1 (ptrs ++ [rp]) (rows0 ++ [row])) as Hp2 by (eapply points_later; [exact Hp1|by split]).
    destruct Hcase as [[-> ->]|(-> & txt' & k' & -> & D')].
    - split; [done|]. exists p2, b1, t1. split_and!; [done|done|]. by rewrite Eall, Er.
    - exists (zlen rest'). rewrite Er, zlen_cons. pose proof (zlen_nonneg rest'). split; [lia|]. rewrite Er, full_rows_cons in Hfull.
      exists p2, b1, (rows0 ++ [row]), rest', txt', (rows + row_count row), k'. cbn [fst snd]. split_and!; try done; [|lia|lia]. by rewrite Eall, Er, <- app_assoc. }
  destruct D as [row e Hrs Hne|row e t Hrs Ht|row e t rest' txt' Hrs Ht D'].
  - wstep. apply (Hrow row e []); [by rewrite app_nil_r|done|by left|by eexists|]. intros rp p1 b1 st k1 R1 Hb1 Hp1. cbv beta iota.
    eapply Hnext; [exact R1|done|exact Hp1|done|reflexivity|by left].
  - rewrite full_rows_cons in Hfull. destruct (Hin row [] eq_refl) as (H1 & H2 & H3 & H4). wstep.
    apply (Hrow row e t); [done|done|rewrite <- (app_nil_r t); by apply row_end_eol|by eexists|]. intros rp p1 b1 st k1 R1 Hb1 Hp1. cbv beta iota.
    eapply Hnext; [exact R1|done|exact Hp1|done| |by left]. rewrite <- (app_nil_r t). apply doc_next_row_at; [done|lia].
  - rewrite full_rows_cons in Hfull. destruct (Hin row rest' eq_refl) as (H1 & H2 & H3 & H4). destruct (doc_len _ _ D') as (_ & Hne & _). wstep.
    apply (Hrow row e (t ++ txt')); [done|done|by apply row_end_eol|by eexists|]. intros rp p1 b1 st k1 R1 Hb1 Hp1. cbv beta iota.
    eapply Hnext; [exact R1|done|exact Hp1|done|apply doc_next_row_at; [done|lia]|]. right. destruct txt' as [|c l]; [done|]. split; [done|]. by eexists _, _.
Qed.

(** Looking at the fields in the end. *)
Lemma look_ok p bytes t f : rep p bytes t -> inside f (ps_pos p) -> look (Some p) f = Ok (contents bytes f).
Proof.
  intros [Ho [b Eb] _ Hp _ _ _ _ _ _ _] (H1 & H2 & H3). unfold look. rewrite Eb in *. destruct Ho as (_ & _ & _ & S0).
  destruct (proj1 (wp_ok _ _) (wp_read_bytes b bytes f.1 f.2 (eq (contents bytes f)) S0 H1 H2 ltac:(lia) eq_refl)) as (l & -> & <-). done.
Qed.

Lemma look_row_ok p bytes t ptrs fs : rep p bytes t -> point_to p bytes ptrs fs -> mapM (look (Some p)) ptrs = Ok fs.
Proof.
  intros R [<- F]. induction F as [|f ptrs Hf F IH]; [done|]. cbn [mapM]. rewrite (look_ok p bytes t f R Hf), bind_Ok, IH, bind_Ok. done.
Qed.

Lemma look_rows_ok p bytes t ptrs rows : rep p bytes t -> points p bytes ptrs rows -> look_rows (Some p) ptrs = Ok rows.
Proof.
  intros R F. unfold look_rows. induction F as [|x y ptrs rows Hxy F IH]; [done|]. cbn [mapM]. rewrite (look_row_ok p bytes t x y R Hxy), bind_Ok, IH, bind_Ok. done.
Qed.

Context (al : scl_allocator_t) `{!AllocatorOk al}.

Lemma wp_feed_all chunks : forall w p bytes rest, rep p bytes (Doc rest false false 0 0) -> Forall (fun c => zlen c <= PTRDIFF_MAX) chunks ->
  wp (feed_all al w (Some p) chunks) (fun '(e, p', w') => w_live w' = w_live w /\ exists p1 bytes1 t1, p' = Some p1 /\ rep p1 bytes1 t1 /\
    (e = SCL_OK /\ t1 = Doc (rest ++ concat chunks) false false 0 0 \/ e = SCL_ERR_OUT_OF_MEMORY /\ ps_buffer_cap p <= zlen bytes + zlen (concat chunks))).
Proof.
  induction chunks as [|c chunks IH]; intros w p bytes rest R Hc; cbn [feed_all concat].
  { wstep. split; [done|]. exists p, bytes, (Doc rest false false 0 0). split; [done|]. split; [done|]. left. by rewrite app_nil_r. }
  apply Forall_cons in Hc as [Hc1 Hc2]. wstep. eapply wp_mono; [eapply wp_feed; [..|exact R|exact Hc1]; lia || done|].
  intros [[e p'] w'] (p1 & t1 & -> & F & Hw & _ & R1 & Hoom & Hcap). cbv beta iota. pose proof (zlen_nonneg (concat chunks)).
  inversion F as [[Hcl|Hcl]|Hop|Hop]; subst e t1; cbn [dc_eof dc_rows dc_rest dc_started dc_fields] in *; [done|lia| |].
  - eapply wp_mono; [apply (IH w' p1 _ _ R1 Hc2)|]. intros [[e p'] w2] (Hw2 & p2 & bytes2 & t2 & -> & R2 & Hcase). split; [lia|].
    exists p2, bytes2, t2. split; [done|]. split; [done|]. destruct Hcase as [[-> ->]|[-> Hbig]]; [left; by rewrite app_assoc|right].
    rewrite zlen_app in Hbig |- *. split; [done|lia].
  - wstep. split; [done|]. eexists p1, _, _. split; [done|]. split; [exact R1|]. right. split; [done|]. specialize (Hoom eq_refl). rewrite zlen_app. lia.
Qed.

(** A document that is fed in any pieces and read to its end. *)
Lemma document_read w (p0 : parser) mf mr all chunks fuel :
  (if mr =? 0 then d_max_rows d else mr) = max_rows -> (if mf =? 0 then d_max_fields d else mf) = max_fields ->
  doc_says d encodes all (concat chunks) -> full_rows all < max_rows -> Forall (fun row => zlen row <= max_fields) all ->
  Forall (fun c => zlen c <= PTRDIFF_MAX) chunks -> zlen (concat chunks) + 2 < Z.of_nat fuel ->
  let '(e, p, w1) := init_with_limits d al w (Some p0) mf mr in
  (e = SCL_OK /\ exists e2 p2 w2, feed_all al w1 p chunks = Ok (e2, p2, w2) /\ w_live w2 = w_live w + 1 /\
     (e2 = SCL_OK /\ (exists ptrs p3, read_rows d fuel p2 = Ok (SCL_ERR_EMPTY, ptrs, p3) /\ look_rows p3 ptrs = Ok all /\
        exists p4 w3, destroy w2 p3 = Ok (SCL_OK, p4, w3) /\ w_live w3 = w_live w) \/
      e2 = SCL_ERR_OUT_OF_MEMORY /\ d_init_buf d <= zlen (concat chunks) /\
        exists p4 w3, destroy w2 p2 = Ok (SCL_OK, p4, w3) /\ w_live w3 = w_live w)) \/
  (e = SCL_ERR_OUT_OF_MEMORY /\ w_live w1 = w_live w).
Proof.
  intros Er Ef D Hfull Hmax Hch Hfuel.
  assert (mr = 0 /\ max_rows = d_max_rows d \/ mr <> 0 /\ max_rows = mr) as Hr by (destruct (Z.eqb_spec mr 0); auto).
  assert (mf = 0 /\ max_fields = d_max_fields d \/ mf <> 0 /\ max_fields = mf) as Hf by (destruct (Z.eqb_spec mf 0); auto).
  pose proof (init_spec d max_rows max_fields ltac:(lia) ltac:(lia) al w p0 mf mr Hr Hf) as I.
  destruct (init_with_limits d al w (Some p0) mf mr) as [[e p] w1]. destruct I as [(-> & Hw & p1 & -> & R & Hcap)|(-> & Hw & _)]; [left|by right]. split; [done|].
  destruct (proj1 (wp_ok _ _) (wp_feed_all chunks w1 p1 [] [] R Hch)) as ([[e2 p2] w2] & E & Hw2 & q & bytes & t & -> & R2 & Hcase).
  exists e2, (Some q), w2. split; [done|]. split; [lia|].
  assert (forall q bytes t, rep q bytes t -> exists p4 w3, destroy w2 (Some q) = Ok (SCL_OK, p4, w3) /\ w_live w3 = w_live w) as Hfree.
  { intros q' bytes' t' R'. destruct (proj1 (wp_ok _ _) (wp_parser_destroy max_rows max_fields w2 q' bytes' t' (fun '(e, p', w') => e = SCL_OK /\ w_live w' = w_live w2 - 1) R' ltac:(by intros))) as ([[e' p4] w3] & Ed & -> & Hw3). exists p4, w3. split; [done|lia]. }
  destruct Hcase as [[-> ->]|[-> Hbig]]; [left|right; split; [done|]; change (zlen (@nil Z)) with 0 in Hbig; split; [lia|by eapply Hfree]].
  split; [done|]. destruct (proj1 (wp_ok _ _) (wp_read_rows fuel q bytes (concat chunks) all 0 R2 D Hfull Hmax Hfuel)) as ([[e3 ptrs] p3] & E3 & -> & q3 & b3 & t3 & -> & R3 & P3).
  exists ptrs, (Some q3). split; [done|]. split; [by eapply look_rows_ok|by eapply Hfree].
Qed.
End Reading.
