(* ===== verification/Csv.v ===== *)
(** The CSV reader ([libs/docparse/csv/scl_parse_csv.c]): fields that may be
    quoted, with doubled quotes inside. *)

From S2P Require Import Prelude Core Refine Delimited Documents.
#[local] Open Scope Z_scope.

Definition COMMA : Z := 44.
Definition QUOTE : Z := 34.

(** The end of a field that is not quoted. *)
Definition csv_stop (c : Z) : bool := (c =? COMMA) || (c =? 13) || (c =? 10).

Definition csv_skip (buf : ptr Z) (len pos : Z) : res Z :=
  loop (S (Z.to_nat (len - pos)))
    (fun pos => if pos <? len then c ← get_elem buf pos; mret (if negb (csv_stop c) then inl (pos + 1) else inr pos)
                else mret (inr pos)) pos.

(** The bytes since [run] move down to [w]. *)
Definition move_run (buf : ptr Z) (pos w run : Z) : res (ptr Z * Z) :=
  if pos >? run then buf ← scl_memmove buf w run (pos - run); mret (buf, w + (pos - run)) else mret (buf, w).

(** The contents of a quoted field: the buffer, the position behind it, the
    end of the contents, the start of the last run and whether the quote was
    closed. *)
Definition csv_quoted (buf : ptr Z) (len pos : Z) : res (ptr Z * Z * Z * Z * bool) :=
  loop (S (Z.to_nat (len - pos)))
    (fun '(buf, pos, w, run) =>
       if pos <? len then
         c ← get_elem buf pos;
         if c =? QUOTE then
           double ← (if pos + 1 <? len then c ← get_elem buf (pos + 1); mret (c =? QUOTE) else mret false);
           '(buf, w) ← move_run buf pos w run;
           if double : bool then
             buf ← set_elem buf w QUOTE; mret (inl (buf, pos + 2, w + 1, pos + 2))
           else mret (inr (buf, pos + 1, w, run, true))
         else mret (inl (buf, pos + 1, w, run))
       else mret (inr (buf, pos, w, run, false)))
    (buf, pos, pos, pos).

Definition csv_parse_field (buf : ptr Z) (len pos : Z) : res (ptr Z * Z * Z * Z) :=
  quoted ← (if pos <? len then c ← get_elem buf pos; mret (c =? QUOTE) else mret false);
  if quoted : bool then
    let content0 := pos + 1 in
    '(buf, pos, w, run, closed) ← csv_quoted buf len content0;
    '(buf, w) ← (if negb closed then move_run buf pos w run else mret (buf, w));
    pos ← (if closed : bool then csv_skip buf len pos else mret pos);
    mret (buf, content0, w - content0, pos)
  else
    let start := pos in
    pos ← csv_skip buf len pos;
    mret (buf, start, pos - start, pos).

Definition SCL_CSV_MAX_FIELDS : Z := 8192.
Definition SCL_CSV_MAX_ROWS : Z := 65536.
Definition CSV_INIT_BUF : Z := 4096.

Definition csv : dialect := Dialect COMMA SCL_CSV_MAX_FIELDS SCL_CSV_MAX_ROWS CSV_INIT_BUF csv_parse_field.

Definition scl_parse_csv_init := init csv.
Definition scl_parse_csv_init_with_limits := init_with_limits csv.
Definition csv_ensure_buf := ensure_buf.
Definition scl_parse_csv_feed := feed.
Definition scl_parse_csv_next_field := next_field csv.
Definition scl_parse_csv_next_row := next_row.
Definition scl_parse_csv_destroy := destroy.

(** * Theorems *)

(** ** The first field of a text *)
Definition csv_ends (c : Z) : bool := (c =? 44) || is_eol c.

Lemma csv_stop_ends c : csv_stop c = csv_ends c.
Proof. unfold csv_stop, csv_ends, is_eol. by rewrite <- orb_assoc. Qed.

(** Up to the first byte that ends it, or up to the closing quote. *)
Fixpoint plain (l : list Z) : list Z * list Z :=
  match l with
  | [] => ([], [])
  | c :: l' => if csv_ends c then ([], l) else let '(f, rest) := plain l' in (c :: f, rest)
  end.

Fixpoint unquote (l : list Z) : list Z * list Z * bool :=
  match l with
  | [] => ([], [], false)
  | c :: l =>
      if c =? QUOTE then
        match l with
        | c' :: l' => if c' =? QUOTE then let '(f, rest, closed) := unquote l' in (QUOTE :: f, rest, closed) else ([], l, true)
        | [] => ([], [], true)
        end
      else let '(f, rest, closed) := unquote l in (c :: f, rest, closed)
  end.

(** What follows a closing quote is skipped. *)
Definition csv_split (l : list Z) : list Z * list Z :=
  match l with
  | c :: l' =>
      if c =? QUOTE then let '(f, rest, closed) := unquote l' in (f, if closed : bool then (plain rest).2 else rest)
      else plain l
  | [] => ([], [])
  end.

(** ** The field reader computes the split *)
Lemma slice_snoc (l : list Z) lo k c : 0 <= lo <= k -> zlook l k = Some c -> slice l lo k ++ [c] = slice l lo (k + 1).
Proof.
  intros H E. pose proof (zlook_Some _ _ _ E). rewrite <- (slice_app l lo k (k + 1)) by lia. f_equal.
  rewrite (slice_cons l k (k + 1) c) by (done || lia). by rewrite slice_nil by lia.
Qed.

Lemma wp_csv_skip b bytes pos (Q : Z -> Prop) :
  stored b bytes -> 0 <= pos <= zlen bytes ->
  (forall pos', pos <= pos' <= zlen bytes -> plain (drop (Z.to_nat pos) bytes) = (slice bytes pos pos', drop (Z.to_nat pos') bytes) -> Q pos') ->
  wp (csv_skip (Ptr b) (zlen bytes) pos) Q.
Proof.
  intros S0 Hpos HQ.
  apply (wp_loop (fun k => pos <= k <= zlen bytes /\ plain (drop (Z.to_nat pos) bytes) =
      (slice bytes pos k ++ (plain (drop (Z.to_nat k) bytes)).1, (plain (drop (Z.to_nat k) bytes)).2)) (fun k => zlen bytes - k)); [|lia|lia|].
  { split; [lia|]. rewrite slice_nil by lia. by destruct (plain _). }
  intros k [Hk E]. destruct (Z.ltb_spec k (zlen bytes)).
  - destruct (zlook_lt bytes k ltac:(lia)) as [c Ec]. wstep. eapply wp_get_elem; [by apply S0|]. wstep.
    rewrite (drop_step bytes k c) in E by (done || lia). cbn [plain] in E. rewrite csv_stop_ends. destruct (csv_ends c); cbn [negb].
    + apply HQ; [lia|]. cbn [fst snd] in E. by rewrite E, app_nil_r, (drop_step bytes k c) by (done || lia).
    + split; [|lia]. split; [lia|]. rewrite E, <- (slice_snoc bytes pos k c), <- app_assoc by (done || lia). destruct (plain (drop (Z.to_nat (k + 1)) bytes)). reflexivity.
  - wstep. apply HQ; [lia|]. rewrite E, (drop_ge bytes) by (unfold zlen in *; lia). cbn [plain fst snd]. by rewrite app_nil_r.
Qed.

(** Moving a run: what was written before it and what has not been read yet
    stay. *)
Lemma wp_move_run b bytes pos w run (Q : ptr Z * Z -> Prop) :
  stored b bytes -> 0 <= w -> w <= run <= pos -> pos <= zlen bytes ->
  (forall b' bytes', zlen b' = zlen b -> stored b' bytes' -> zlen bytes' = zlen bytes ->
    take (Z.to_nat w) bytes' = take (Z.to_nat w) bytes -> drop (Z.to_nat pos) bytes' = drop (Z.to_nat pos) bytes ->
    slice bytes' w (w + (pos - run)) = slice bytes run pos -> Q (Ptr b', w + (pos - run))) ->
  wp (move_run (Ptr b) pos w run) Q.
Proof.
  intros S0 Hw Hr Hp HQ. unfold move_run. rewrite Z.gtb_ltb. destruct (Z.ltb_spec run pos).
  - wstep. apply (wp_memmove b bytes); [done|lia|lia|lia|lia|lia|]. intros b' Hl S1. wstep.
    replace (run + (pos - run)) with pos in S1 by lia. assert (zlen (slice bytes run pos) = pos - run) as Hz by (rewrite zlen_slice; lia).
    eapply HQ; [done|exact S1|by rewrite zlen_put by lia|by rewrite take_put by lia|by rewrite drop_put by lia|].
    rewrite <- Hz. by rewrite slice_put by lia.
  - wstep. assert (run = pos) as -> by lia. assert (w = w + (pos - pos)) as E by lia. rewrite E. eapply HQ; try done. rewrite <- E. by rewrite !slice_nil by lia.
Qed.

(** The state of the loop over a quoted field that starts at [c0]: the
    contents so far are in place below [w], the bytes from [run] on are those
    of the text. *)
Record quoting (text : list Z) (size c0 : Z) (bytes : list Z) (b : block Z) (pos w run : Z) : Prop := Quoting {
  qu_stored : stored b bytes;
  qu_size : zlen b = size;
  qu_len : zlen bytes = zlen text;
  qu_order : c0 <= w <= run /\ run <= pos <= zlen text;
  qu_before : take (Z.to_nat c0) bytes = take (Z.to_nat c0) text;
  qu_after : drop (Z.to_nat run) bytes = drop (Z.to_nat run) text
}.

Lemma quoting_flush text size c0 bytes b pos w run (Q : ptr Z * Z -> Prop) :
  quoting text size c0 bytes b pos w run -> 0 <= c0 ->
  (forall b' bytes' w', w' = w + (pos - run) -> quoting text size c0 bytes' b' pos w' pos -> slice bytes' c0 w' = slice bytes c0 w ++ slice text run pos -> Q (Ptr b', w')) ->
  wp (move_run (Ptr b) pos w run) Q.
Proof.
  intros [S0 Hs Hl Ho Hb Ha] H0 HQ. apply (wp_move_run b bytes); [done|lia|lia|lia|]. intros b' bytes' Hbl S1 Hl1 T D E. eapply HQ; [done| |].
  - split; [done|lia|lia|lia| |].
    + rewrite <- Hb. by eapply take_sooner; [exact T|lia].
    + rewrite D. by eapply drop_later; [exact Ha|lia].
  - rewrite <- (slice_app bytes' c0 w) by lia. f_equal; [by eapply slice_take; [exact T|lia|lia]|]. rewrite E. by eapply slice_drop; [exact Ha|lia].
Qed.

Lemma quoting_get text size c0 bytes b pos w run i (Q : Z -> Prop) :
  quoting text size c0 bytes b pos w run -> 0 <= c0 -> run <= i < zlen text -> (forall c, zlook text i = Some c -> Q c) -> wp (get_elem (Ptr b) i) Q.
Proof.
  intros [S0 Hs Hl Ho Hb Ha] H0 Hi HQ. destruct (zlook_lt text i ltac:(lia)) as [c Ec]. eapply wp_get_elem; [|by apply HQ]. apply S0.
  assert (zlook (drop (Z.to_nat run) bytes) (i - run) = zlook (drop (Z.to_nat run) text) (i - run)) as E by by rewrite Ha.
  rewrite !zlook_drop in E by lia. revert E. repeat bcase; try lia. replace (run + (i - run)) with i by lia. by rewrite Ec.
Qed.

(** Passing one byte of the text, or the two that stand for a quote. *)
Lemma quoting_pass text size c0 bytes b pos w run : quoting text size c0 bytes b pos w run -> pos < zlen text -> quoting text size c0 bytes b (pos + 1) w run.
Proof. intros [] H. split; try done; lia. Qed.

Lemma quoting_skip text size c0 bytes b pos w pos' :
  quoting text size c0 bytes b pos w pos -> 0 <= c0 -> pos <= pos' <= zlen text -> quoting text size c0 bytes b pos' w pos'.
Proof. intros [S0 Hs Hl Ho Hb Ha] H0 H. split; try done; try lia. eapply drop_later; [exact Ha|lia]. Qed.

Lemma quoting_put text size c0 bytes b pos w c (Q : ptr Z -> Prop) :
  quoting text size c0 bytes b pos w pos -> 0 <= c0 -> pos + 1 < zlen text ->
  (forall b' bytes', quoting text size c0 bytes' b' (pos + 2) (w + 1) (pos + 2) -> slice bytes' c0 (w + 1) = slice bytes c0 w ++ [c] -> Q (Ptr b')) ->
  wp (set_elem (Ptr b) w c) Q.
Proof.
  intros [S0 Hs Hl Ho Hb Ha] H0 H HQ. pose proof (stored_len _ _ S0). apply wp_set_elem; [lia|].
  assert (zlen [c] = 1) as Hc1 by done. assert (zlen (put bytes w [c]) = zlen bytes) as Hz by (apply zlen_put; lia).
  eapply (HQ _ (put bytes w [c])).
  - split; [|by rewrite zlen_zupd|lia|lia| |].
    + rewrite <- zupd_put by lia. apply stored_update; [lia|done].
    + rewrite take_put by lia. done.
    + rewrite drop_put by lia. eapply drop_later; [exact Ha|lia].
  - rewrite <- (slice_app (put bytes w [c]) c0 w (w + 1)) by lia. f_equal.
    + eapply slice_take; [apply (take_put bytes w [c] w)|..]; lia.
    + change 1 with (zlen [c]). apply slice_put; lia.
Qed.

Lemma wp_csv_quoted text b c0 (Q : ptr Z * Z * Z * Z * bool -> Prop) :
  stored b text -> 0 <= c0 <= zlen text ->
  (forall b' bytes pos w run, quoting text (zlen b) c0 bytes b' pos w pos -> unquote (drop (Z.to_nat c0) text) = (slice bytes c0 w, drop (Z.to_nat pos) text, true) ->
     Q (Ptr b', pos, w, run, true)) ->
  (forall b' bytes w run, quoting text (zlen b) c0 bytes b' (zlen text) w run ->
     unquote (drop (Z.to_nat c0) text) = (slice bytes c0 w ++ slice text run (zlen text), [], false) -> Q (Ptr b', zlen text, w, run, false)) ->
  wp (csv_quoted (Ptr b) (zlen text) c0) Q.
Proof.
  intros S0 Hc HQ1 HQ2. unfold csv_quoted.
  apply (wp_loop (fun '(buf, pos, w, run) => exists b' bytes, buf = Ptr b' /\ quoting text (zlen b) c0 bytes b' pos w run /\
      unquote (drop (Z.to_nat c0) text) = (let '(f, rest, cl) := unquote (drop (Z.to_nat pos) text) in (slice bytes c0 w ++ slice text run pos ++ f, rest, cl)))
    (fun '(_, pos, _, _) => zlen text - pos)); [|lia|lia|].
  { exists b, text. split; [done|]. split; [split; first [done|lia]|]. rewrite !slice_nil by lia. by destruct (unquote _) as [[f rest] cl]. }
  intros [[[buf pos] w] run] (b' & bytes & -> & G & E). pose proof (qu_order _ _ _ _ _ _ _ _ G) as Ho. destruct (Z.ltb_spec pos (zlen text)).
  2:{ wstep. assert (pos = zlen text) as -> by lia. eapply HQ2; [exact G|]. rewrite E, (drop_ge text) by (unfold zlen; lia). cbn [unquote]. by rewrite app_nil_r. }
  wstep. eapply quoting_get; [exact G|lia|lia|]. intros c Ec. rewrite (drop_step text pos c) in E by (done || lia). cbn [unquote] in E.
  destruct (Z.eqb_spec c QUOTE) as [Hq|Hne].
  2:{ wstep. split; [|lia]. exists b', bytes. split; [done|]. split; [by apply quoting_pass|]. rewrite E, <- (slice_snoc text run pos c) by (done || lia).
      destruct (unquote (drop (Z.to_nat (pos + 1)) text)) as [[f rest] cl]. by rewrite <- app_assoc. }
  set (double := bool_decide (zlook text (pos + 1) = Some QUOTE)). wstep. apply (wp_mono _ (fun r => r = double)).
  { subst double. destruct (Z.ltb_spec (pos + 1) (zlen text)).
    - wstep. eapply quoting_get; [exact G|lia|lia|]. intros c' ->. wstep. destruct (Z.eqb_spec c' QUOTE) as [->|]; [by rewrite bool_decide_true|]. rewrite bool_decide_false; congruence.
    - wstep. rewrite zlook_ge by lia. by rewrite bool_decide_false. }
  intros ? ->. wstep. eapply quoting_flush; [exact G|lia|]. intros b1 bytes1 w1 _ G1 E1. pose proof (qu_order _ _ _ _ _ _ _ _ G1) as Ho1. cbv beta iota.
  subst double. destruct (decide (zlook text (pos + 1) = Some QUOTE)) as [Eq|Eq].
  - rewrite bool_decide_true by done. pose proof (zlook_Some _ _ _ Eq). rewrite (drop_step text (pos + 1) QUOTE) in E by (done || lia). rewrite Z.eqb_refl in E.
    replace (pos + 1 + 1) with (pos + 2) in E by lia. wstep. eapply quoting_put; [exact G1|lia|lia|]. intros b2 bytes2 G2 E2. wstep. split; [|lia].
    exists b2, bytes2. split; [done|]. split; [done|]. rewrite E, E2, E1. destruct (unquote (drop (Z.to_nat (pos + 2)) text)) as [[f rest] cl]. rewrite (slice_nil text (pos + 2) (pos + 2)) by lia. cbn [app]. by rewrite <- !app_assoc.
  - rewrite bool_decide_false by done. wstep. apply (HQ1 b1 bytes1 (pos + 1)); [by eapply quoting_skip; [exact G1|lia|lia]|]. rewrite E, E1.
    destruct (drop (Z.to_nat (pos + 1)) text) as [|c' l'] eqn:Ed; [by rewrite app_nil_r|].
    destruct (Z.eqb_spec c' QUOTE) as [->|]; [|by rewrite app_nil_r]. destruct Eq.
    assert (zlook (drop (Z.to_nat (pos + 1)) text) 0 = Some QUOTE) as Eq by by rewrite Ed.
    rewrite zlook_drop in Eq by lia. revert Eq. repeat bcase; try lia. by rewrite Z.add_0_r.
Qed.

Lemma csv_parse_field_split b bytes pos :
  stored b bytes -> 0 <= pos <= zlen bytes ->
  wp (csv_parse_field (Ptr b) (zlen bytes) pos)
    (fun '(buf, off, n, pos') => exists b' bytes', buf = Ptr b' /\ zlen b' = zlen b /\ stored b' bytes' /\ field_read csv_split bytes bytes' pos off n pos').
Proof.
  intros S0 Hpos. unfold csv_parse_field.
  assert (forall (quoted : bool), quoted = bool_decide (zlook bytes pos = Some QUOTE) -> csv_split (drop (Z.to_nat pos) bytes) =
    if quoted then let '(f, rest, closed) := unquote (drop (Z.to_nat (pos + 1)) bytes) in (f, if closed : bool then (plain rest).2 else rest)
    else plain (drop (Z.to_nat pos) bytes)) as Hsplit.
  { intros quoted ->. destruct (Z.le_gt_cases (zlen bytes) pos) as [Hge|Hlt].
    - rewrite zlook_ge, bool_decide_false by done. rewrite drop_ge by (unfold zlen in *; lia). done.
    - destruct (zlook_lt bytes pos ltac:(lia)) as [c Ec]. rewrite (drop_step bytes pos c) by (done || lia). cbn [csv_split]. rewrite Ec.
      destruct (Z.eqb_spec c QUOTE) as [->|]; [by rewrite bool_decide_true|]. by rewrite bool_decide_false by congruence. }
  wstep. apply (wp_mono _ (fun r => r = bool_decide (zlook bytes pos = Some QUOTE))).
  { destruct (Z.ltb_spec pos (zlen bytes)).
    - destruct (zlook_lt bytes pos ltac:(lia)) as [c Ec]. wstep. eapply wp_get_elem; [by apply S0|]. wstep. rewrite Ec.
      destruct (Z.eqb_spec c QUOTE) as [->|]; [by rewrite bool_decide_true|]. rewrite bool_decide_false; congruence.
    - wstep. rewrite zlook_ge by lia. by rewrite bool_decide_false. }
  intros ? ->. specialize (Hsplit _ eq_refl). destruct (decide (zlook bytes pos = Some QUOTE)) as [Eq|Eq].
  - rewrite bool_decide_true in * by done. cbv iota in Hsplit. pose proof (zlook_Some _ _ _ Eq). cbv zeta. wstep. apply wp_csv_quoted; [done|lia| |].
    + intros b' bytes' pos' w run G E. destruct (G) as [S1 Hs Hl Ho Hb Ha]. cbn [negb]. wstep. wstep. wstep. rewrite E in Hsplit. rewrite <- Hl.
      apply (wp_csv_skip b' bytes'); [done|lia|]. intros pos2 Hp2 E2. wstep. exists b', bytes'. split_and!; [done|done|done|]. split; [lia|]. split; [lia|]. split; [lia|]. split; [lia|].
      rewrite Ha in E2. rewrite E2 in Hsplit. split; [by replace (pos + 1 + (w - (pos + 1))) with w by lia|]. by eapply take_sooner; [exact Hb|lia].
    + intros b' bytes' w run G E. rewrite E in Hsplit. cbn [negb]. wstep. eapply quoting_flush; [exact G|lia|]. intros b1 bytes1 w1 _ [S1 Hs Hl Ho Hb Ha] E1.
      cbv beta iota. wstep. wstep. wstep. exists b1, bytes1. split_and!; [done|done|done|]. split; [lia|]. split; [lia|]. split; [lia|]. split; [lia|].
      split; [|by eapply take_sooner; [exact Hb|lia]]. rewrite Hsplit, drop_ge by (unfold zlen in *; lia). replace (pos + 1 + (w1 - (pos + 1))) with w1 by lia. by rewrite E1.
  - rewrite bool_decide_false in * by done. cbv iota zeta in Hsplit |- *. wstep. apply (wp_csv_skip b bytes); [done|done|]. intros pos2 Hp2 E2. wstep.
    exists b, bytes. split_and!; [done|done|done|]. split; [lia|]. split; [lia|]. split; [lia|]. split; [lia|]. split; [|done].
    rewrite Hsplit, E2. by replace (pos + (pos2 - pos)) with pos2 by lia.
Qed.

#[export] Instance csv_dialect_ok : DialectOk csv csv_split.
Proof. split; [done|done|]. intros b bytes pos S0 _ Hpos. by apply csv_parse_field_split. Qed.

(** ** Ways of writing a field *)
Fixpoint double_quotes (f : list Z) : list Z :=
  match f with [] => [] | c :: f => if c =? QUOTE then QUOTE :: QUOTE :: double_quotes f else c :: double_quotes f end.

(** As it is, when nothing in it would end it or quote it; in quotes, always. *)
Inductive csv_encodes : list Z -> list Z -> Prop :=
| csv_plain f : Forall (fun c => csv_ends c = false) f -> head f <> Some QUOTE -> csv_encodes f f
| csv_in_quotes f : csv_encodes f (QUOTE :: double_quotes f ++ [QUOTE]).

Lemma csv_stops tail : stops csv tail -> match tail with [] => True | c :: _ => csv_ends c = true end.
Proof. destruct tail as [|c l]; [done|]. cbn. unfold csv_ends. intros [->|H]; [done|]. rewrite H. apply orb_true_r. Qed.

Lemma plain_stop tail : stops csv tail -> plain tail = ([], tail).
Proof. intros H%csv_stops. destruct tail as [|c l]; [done|]. cbn [plain]. by rewrite H. Qed.

Lemma plain_app f tail : Forall (fun c => csv_ends c = false) f -> stops csv tail -> plain (f ++ tail) = (f, tail).
Proof. intros F Ht. induction F as [|c f Hc F IH]; [by apply plain_stop|]. cbn [app plain]. by rewrite Hc, IH. Qed.

Lemma unquote_double f tail : head tail <> Some QUOTE -> unquote (double_quotes f ++ QUOTE :: tail) = (f, tail, true).
Proof.
  intros Ht. induction f as [|c f IH]; cbn [double_quotes].
  - cbn [app unquote]. rewrite Z.eqb_refl. destruct tail as [|c l]; [done|]. destruct (Z.eqb_spec c QUOTE) as [->|]; done.
  - destruct (Z.eqb_spec c QUOTE) as [->|Hne]; cbn [app unquote]; [by rewrite Z.eqb_refl, IH|]. destruct (Z.eqb_spec c QUOTE); [done|]. by rewrite IH.
Qed.

#[export] Instance csv_encoding : Encoding csv csv_encodes csv_split.
Proof.
  split; [|intros f c e He; inversion He as [f' F Hh E|f' E1 E2]; subst|done].
  - intros f e tail [f' F Hh|f'] Ht.
    + destruct f' as [|c f']; cbn [app].
      * destruct tail as [|c l]; [done|]. pose proof (csv_stops _ Ht) as Hs. cbn [csv_split]. destruct (Z.eqb_spec c QUOTE) as [->|]; [done|]. by apply plain_stop.
      * cbn [csv_split]. destruct (Z.eqb_spec c QUOTE) as [->|]; [done|]. by apply (plain_app (c :: f')).
    + cbn [app csv_split]. rewrite Z.eqb_refl, <- app_assoc. cbn [app]. rewrite unquote_double; [by rewrite plain_stop|].
      intros Hq. apply csv_stops in Ht. destruct tail as [|c l]; [done|]. injection Hq as ->. done.
  - apply Forall_cons in F as [Hc _]. unfold csv_ends in Hc. by apply orb_false_iff in Hc as [_ Hc].
  - done.
Qed.

(** C14. The CSV reader refines the abstract reader of [csv_split]: after an
    initialisation with any limits, every sequence of feeding (any bytes, in any
    pieces), [next_field] and [next_row] is answered as the text demands, each
    field by its contents although it is unquoted in place; the limits on rows
    and fields hold; no access leaves the buffer, whose growth loses nothing;
    destruction returns it. *)
Theorem csv_refines (al : scl_allocator_t) `{!AllocatorOk al} (w : world) (p0 : parser) (mf mr : Z) (ops : list reader_op)
  (Hmf : 0 <= mf < 2 ^ 64) (Hmr : 0 <= mr < 2 ^ 64) (Hops : Forall (op_ok (Doc [] false false 0 0)) ops) :
  let max_rows := if mr =? 0 then SCL_CSV_MAX_ROWS else mr in
  let max_fields := if mf =? 0 then SCL_CSV_MAX_FIELDS else mf in
  (let '(e, p, w1) := scl_parse_csv_init_with_limits al w (Some p0) mf mr in
   (e = SCL_OK /\ exists outs p2 w2 t p3 w3, run (reader_step csv al) (p, w1) ops = Ok (outs, (p2, w2)) /\
      trace (reader_spec csv csv_split max_rows max_fields) (Doc [] false false 0 0) ops outs t /\
      scl_parse_csv_destroy w2 p2 = Ok (SCL_OK, p3, w3) /\ w_live w3 = w_live w) \/
   (e = SCL_ERR_OUT_OF_MEMORY /\ w_live w1 = w_live w)) /\
  (forall op, reader_step csv al (None, w) op = Ok (Code SCL_ERR_NULL_PTR, (None, w))).
Proof.
  intros max_rows max_fields. split; [|by intros [data|[]|]].
  apply (reader_refines csv csv_split max_rows max_fields al); try done; unfold max_rows, max_fields; case_match; lia || done.
Qed.

Lemma csv_refines_witness :
  exists outs t, trace (reader_spec csv csv_split 65536 8192) (Doc [] false false 0 0)
    [RFeed [34; 97]; RFeed [34; 34; 44; 34; 10]; RNextField true; RNextField true; RNextRow] outs t.
Proof.
  destruct (csv_refines small_allocator (World 0 0) (Parser 0 Null 0 0 0 false false 0 0 0 0) 0 0
    [RFeed [34; 97]; RFeed [34; 34; 44; 34; 10]; RNextField true; RNextField true; RNextRow]) as [H _].
  - lia.
  - lia.
  - repeat constructor; vm_compute; congruence.
  - vm_compute scl_parse_csv_init_with_limits in H. destruct H as [(_ & outs & _ & _ & t & _ & _ & _ & T & _)|[H _]]; [by exists outs, t|discriminate H].
Defined.



(** With as many rows as allowed, the end of the text is reported as an
    overflow. *)
Lemma csv_last_row_overflows :
  exists p w p2 f p3, scl_parse_csv_feed small_allocator w (Some p) (Some [97; 10]) 2 = Ok (SCL_OK, Some p2, w) /\ ps_max_rows p = 1 /\
    scl_parse_csv_next_field (Some p2) true = Ok (SCL_OK, Some f, Some p3) /\ ps_buffer_len p3 = 2 /\
    (exists p4, scl_parse_csv_next_row (Some p3) = Ok (SCL_ERR_SIZE_OVERFLOW, Some p4) /\ ps_pos p4 = 2).
Proof.
  exists (Parser 0 (Ptr (replicate 4 None)) 4 0 0 false false 0 0 1 9), (World 1 1). eexists _, _, _. split; [vm_compute; reflexivity|]. split; [done|].
  split; [vm_compute; reflexivity|]. split; [done|]. eexists. split; [vm_compute; reflexivity|done].
Qed.

(** The heuristic limit on the buffer wraps: with these limits it is 0, and
    nothing is taken beyond the first buffer. *)
Lemma csv_limit_wraps al w b len pos started rows fields needed :
  4096 < needed -> csv_ensure_buf al w (Parser 0 b 4096 len pos started false rows fields (2 ^ 32) (2 ^ 26)) needed =
    Ok (false, Parser 0 b 4096 len pos started false rows fields (2 ^ 32) (2 ^ 26), w).
Proof.
  intros Hn. unfold csv_ensure_buf, ensure_buf. cbn [ps_buffer_cap ps_max_rows ps_max_fields]. destruct (Z.leb_spec needed 4096); [lia|].
  change (u64 (u64 (2 ^ 32 * 2 ^ 26) * 64)) with 0. destruct (Z.gtb_spec needed 0); [done|lia].
Qed.
