(* ===== verification/Tsv.v ===== *)
(** The TSV reader ([libs/docparse/tsv/scl_parse_tsv.c]): fields in which tabs,
    line ends and backslashes are written with a backslash. *)

From S2P Require Import Prelude Core Refine Delimited Documents.
#[local] Open Scope Z_scope.

Definition TAB : Z := 9.
Definition BACKSLASH : Z := 92.

Definition tsv_stop (c : Z) : bool := (c =? TAB) || (c =? 10) || (c =? 13).

(** What the byte after a backslash stands for; 0 when it is no escape. *)
Definition tsv_escape (c : Z) : Z :=
  if c =? 116 then TAB else if c =? 110 then 10 else if c =? 114 then 13 else if c =? BACKSLASH then BACKSLASH else 0.

Definition tsv_parse_field (buf : ptr Z) (len pos : Z) : res (ptr Z * Z * Z * Z) :=
  let start := pos in
  '(buf, pos, w) ← loop (S (Z.to_nat (len - pos)))
    (fun '(buf, pos, w) =>
       if pos <? len then
         c ← get_elem buf pos;
         if tsv_stop c then mret (inr (buf, pos, w))
         else
           dec ← (if (c =? BACKSLASH) && (pos + 1 <? len) then e ← get_elem buf (pos + 1); mret (tsv_escape e) else mret 0);
           if negb (dec =? 0) then buf ← set_elem buf w dec; mret (inl (buf, pos + 2, w + 1))
           else buf ← set_elem buf w c; mret (inl (buf, pos + 1, w + 1))
       else mret (inr (buf, pos, w)))
    (buf, pos, pos);
  mret (buf, start, w - start, pos).

Definition SCL_TSV_MAX_FIELDS : Z := 8192.
Definition SCL_TSV_MAX_ROWS : Z := 65536.
Definition TSV_INIT_BUF : Z := 4096.

Definition tsv : dialect := Dialect TAB SCL_TSV_MAX_FIELDS SCL_TSV_MAX_ROWS TSV_INIT_BUF tsv_parse_field.

Definition scl_parse_tsv_init := init tsv.
Definition scl_parse_tsv_init_with_limits := init_with_limits tsv.
Definition tsv_ensure_buf := ensure_buf.
Definition scl_parse_tsv_feed := feed.
Definition scl_parse_tsv_next_field := next_field tsv.
Definition scl_parse_tsv_next_row := next_row.
Definition scl_parse_tsv_destroy := destroy.

(** * Theorems *)

(** ** The first field of a text *)

(** What ends a field, and what the byte after a backslash stands for. *)
Definition tsv_ends (c : Z) : bool := (c =? 9) || is_eol c.
Definition unescape (x : Z) : Z := if x =? 116 then 9 else if x =? 110 then 10 else if x =? 114 then 13 else if x =? 92 then 92 else 0.

Lemma tsv_stop_ends c : tsv_stop c = tsv_ends c.
Proof. unfold tsv_stop, tsv_ends, is_eol. by rewrite <- orb_assoc, (orb_comm (c =? 10)). Qed.

Lemma tsv_escape_unescape x : tsv_escape x = unescape x.
Proof. done. Qed.

Fixpoint tsv_split (l : list Z) : list Z * list Z :=
  match l with
  | [] => ([], [])
  | c :: l1 =>
      if tsv_ends c then ([], l)
      else
        match l1 with
        | e :: l2 =>
            if (c =? BACKSLASH) && negb (unescape e =? 0) then let '(f, rest) := tsv_split l2 in (unescape e :: f, rest)
            else let '(f, rest) := tsv_split l1 in (c :: f, rest)
        | [] => ([c], [])
        end
  end.

(** One byte is written below the position and the rest stays. *)
Lemma put_one (bytes : list Z) b w pos c (Q : ptr Z -> Prop) :
  stored b bytes -> 0 <= w < pos -> pos <= zlen bytes ->
  (forall b' bytes', zlen b' = zlen b -> stored b' bytes' -> zlen bytes' = zlen bytes ->
    take (Z.to_nat w) bytes' = take (Z.to_nat w) bytes -> drop (Z.to_nat pos) bytes' = drop (Z.to_nat pos) bytes ->
    slice bytes' w (w + 1) = [c] -> Q (Ptr b')) ->
  wp (set_elem (Ptr b) w c) Q.
Proof.
  intros S0 Hw Hp HQ. pose proof (stored_len _ _ S0). assert (zlen [c] = 1) as H1 by done. apply wp_set_elem; [lia|].
  apply (HQ _ (put bytes w [c])); [by rewrite zlen_zupd| | | | |].
  - rewrite <- zupd_put by lia. by apply stored_update; [lia|].
  - apply zlen_put; lia.
  - apply take_put; lia.
  - apply drop_put; lia.
  - change 1 with (zlen [c]). apply slice_put; lia.
Qed.

(** The state of the loop over a field that starts at [pos0]: what has been
    decoded is in place below [w], the bytes from [pos] on are those of the
    text. *)
Section Decoding.
Context (text : list Z) (size pos0 : Z).
Hypothesis Hpos0 : 0 <= pos0.
Notation rest pos := (drop (Z.to_nat pos) text).

Definition decoding (s : ptr Z * Z * Z) : Prop :=
  let '(buf, pos, w) := s in
  exists b bytes, buf = Ptr b /\ stored b bytes /\ zlen b = size /\ zlen bytes = zlen text /\ (pos0 <= w <= pos /\ pos <= zlen text) /\
    take (Z.to_nat pos0) bytes = take (Z.to_nat pos0) text /\ drop (Z.to_nat pos) bytes = rest pos /\
    tsv_split (rest pos0) = (let '(f, r) := tsv_split (rest pos) in (slice bytes pos0 w ++ f, r)).

Lemma decoding_start b : stored b text -> zlen b = size -> pos0 <= zlen text -> decoding (Ptr b, pos0, pos0).
Proof.
  intros S0 Hs Hp. exists b, text. split_and!; try done; try lia. rewrite slice_nil by lia. by destruct (tsv_split (rest pos0)).
Qed.

Lemma decoding_get buf pos w i (Q : Z -> Prop) :
  decoding (buf, pos, w) -> pos <= i < zlen text -> (forall c, zlook text i = Some c -> Q c) -> wp (get_elem buf i) Q.
Proof.
  intros (b & bytes & -> & S1 & _ & _ & Ho & _ & Haft & _) Hi HQ. destruct (zlook_lt text i ltac:(lia)) as [c Ec]. eapply wp_get_elem; [|by apply HQ]. apply S1.
  assert (zlook (drop (Z.to_nat pos) bytes) (i - pos) = zlook (rest pos) (i - pos)) as E1 by by rewrite Haft.
  rewrite !zlook_drop in E1 by lia. revert E1. repeat bcase; try lia. replace (pos + (i - pos)) with i by lia. by rewrite Ec.
Qed.

(** One more byte [x] is decoded, from the bytes up to [pos']. *)
Lemma decoding_put buf pos w pos' x (Q : ptr Z -> Prop) :
  decoding (buf, pos, w) -> pos < pos' <= zlen text ->
  tsv_split (rest pos) = (let '(f, r) := tsv_split (rest pos') in (x :: f, r)) ->
  (forall buf', decoding (buf', pos', w + 1) -> Q buf') -> wp (set_elem buf w x) Q.
Proof.
  intros (b & bytes & -> & S1 & Hb & Hl & Ho & Hbef & Haft & E) Hpos' E' HQ.
  apply (put_one bytes b w pos' x); [done|lia|lia|]. intros b2 bytes2 Hb2 S2 Hl2 T2 D2 Ex. apply HQ.
  exists b2, bytes2. split_and!; [done|done|lia|lia|lia|lia|lia| | |].
  - rewrite <- Hbef. eapply take_sooner; [exact T2|lia].
  - rewrite D2. eapply drop_later; [exact Haft|lia].
  - rewrite E, E'. destruct (tsv_split (rest pos')) as [f r]. rewrite <- (slice_app bytes2 pos0 w (w + 1)), Ex by lia.
    rewrite (slice_take bytes bytes2 w pos0 w) by (done || lia). by rewrite <- app_assoc.
Qed.

Lemma decoding_end buf pos w :
  decoding (buf, pos, w) -> tsv_split (rest pos) = ([], rest pos) ->
  exists b bytes, buf = Ptr b /\ zlen b = size /\ stored b bytes /\ field_read tsv_split text bytes pos0 pos0 (w - pos0) pos.
Proof.
  intros (b & bytes & -> & S1 & Hb & Hl & Ho & Hbef & Haft & E) Esp. rewrite Esp, app_nil_r in E. exists b, bytes. split_and!; try done.
  split; [done|]. split; [lia|]. split; [lia|]. split; [lia|]. split; [|done]. rewrite E, Haft. by replace (pos0 + (w - pos0)) with w by lia.
Qed.
End Decoding.

Lemma tsv_parse_field_split b text pos0 :
  stored b text -> 0 <= pos0 <= zlen text ->
  wp (tsv_parse_field (Ptr b) (zlen text) pos0)
    (fun '(buf, off, n, pos') => exists b' bytes', buf = Ptr b' /\ zlen b' = zlen b /\ stored b' bytes' /\ field_read tsv_split text bytes' pos0 off n pos').
Proof.
  intros S0 Hpos0. unfold tsv_parse_field. cbv zeta. wstep.
  apply (wp_loop (decoding text (zlen b) pos0) (fun '(_, pos, _) => zlen text - pos)); [apply decoding_start; [done|done|lia]|lia|lia|].
  intros [[buf pos] w] D. assert (pos0 <= pos <= zlen text) as Ho by (destruct D as (? & ? & _ & _ & _ & _ & ? & _); lia).
  destruct (Z.ltb_spec pos (zlen text)).
  2:{ wstep. wstep. eapply decoding_end; [exact D|]. by rewrite drop_ge by (unfold zlen in *; lia). }
  wstep. eapply (decoding_get _ _ pos0 ltac:(lia)); [exact D|lia|]. intros c Ec. pose proof (drop_step text pos c ltac:(lia) Ec) as Ed.
  rewrite tsv_stop_ends. destruct (tsv_ends c) eqn:Es.
  { wstep. wstep. eapply decoding_end; [exact D|]. rewrite Ed. cbn [tsv_split]. by rewrite Es. }
  assert (forall pos' x, pos < pos' <= zlen text -> tsv_split (drop (Z.to_nat pos) text) = (let '(f, r) := tsv_split (drop (Z.to_nat pos') text) in (x :: f, r)) ->
    forall Q, (forall buf', decoding text (zlen b) pos0 (buf', pos', w + 1) -> 0 <= zlen text - pos' < zlen text - pos -> Q (inl (buf', pos', w + 1))) ->
    wp (buf ← set_elem buf w x; mret (inl (buf, pos', w + 1)) : res (ptr Z * Z * Z + ptr Z * Z * Z)) Q) as Hput.
  { intros pos' x Hpos' E Q HQ. wstep. eapply (decoding_put _ _ pos0 ltac:(lia)); [exact D|done|done|]. intros buf' D'. wstep. apply HQ; [done|lia]. }
  rewrite Ed in Hput. cbn [tsv_split] in Hput. rewrite Es in Hput.
  destruct (Z.ltb_spec (pos + 1) (zlen text)).
  - destruct (zlook_lt text (pos + 1) ltac:(lia)) as [e Ee]. pose proof (drop_step text (pos + 1) e ltac:(lia) Ee) as Ed2.
    replace (pos + 1 + 1) with (pos + 2) in Ed2 by lia. rewrite Ed2 in Hput. rewrite andb_true_r. wstep.
    apply (wp_mono _ (fun dec => dec = if c =? BACKSLASH then unescape e else 0)).
    { destruct (c =? BACKSLASH); [|by wstep]. wstep. eapply (decoding_get _ _ pos0 ltac:(lia)); [exact D|lia|]. intros e' Ee'. wstep. rewrite tsv_escape_unescape. congruence. }
    intros dec ->. destruct (c =? BACKSLASH); cbn [andb] in Hput; [destruct (negb (unescape e =? 0))|]; cbn [negb Z.eqb].
    all: apply Hput; [lia|rewrite ?Ed2; done|by split].
  - assert (drop (Z.to_nat (pos + 1)) text = []) as Ed2 by (apply drop_ge; unfold zlen in *; lia). rewrite andb_false_r. wstep. wstep. cbn [negb Z.eqb].
    apply Hput; [lia|by rewrite Ed2|by split].
Qed.

#[export] Instance tsv_dialect_ok : DialectOk tsv tsv_split.
Proof. split; [done|done|]. intros b bytes pos S0 _ Hpos. by apply tsv_parse_field_split. Qed.

(** ** Ways of writing a field

    Tabs and line ends are escaped; a backslash is escaped, or stands for
    itself before a byte that is no escape. *)
Inductive tsv_encodes : list Z -> list Z -> Prop :=
| tsv_nil : tsv_encodes [] []
| tsv_plain c f e : tsv_ends c = false -> c <> BACKSLASH -> tsv_encodes f e -> tsv_encodes (c :: f) (c :: e)
| tsv_escaped x f e : unescape x <> 0 -> tsv_encodes f e -> tsv_encodes (unescape x :: f) (BACKSLASH :: x :: e)
| tsv_backslash c f e : tsv_ends c = false -> unescape c = 0 -> tsv_encodes (c :: f) (c :: e) -> tsv_encodes (BACKSLASH :: c :: f) (BACKSLASH :: c :: e).

Lemma tsv_tail_ends tail : stops tsv tail -> match tail with [] => True | c :: _ => tsv_ends c = true end.
Proof.
  destruct tail as [|c l]; [done|]. cbn. unfold tsv_ends. intros [->|H]; [done|]. rewrite H. apply orb_true_r.
Qed.

Lemma unescape_ends x : unescape x <> 0 -> tsv_ends x = false.
Proof. unfold unescape, tsv_ends, is_eol. repeat (bcase; subst; try done). Qed.

(** A byte that is not the start of an escape. *)
Lemma tsv_split_byte c l : tsv_ends c = false -> (c = BACKSLASH -> match l with [] => True | x :: _ => unescape x = 0 end) ->
  tsv_split (c :: l) = (let '(f, rest) := tsv_split l in (c :: f, rest)).
Proof.
  intros Hc Hb. cbn [tsv_split]. rewrite Hc. destruct l as [|x l]; [done|]. destruct (Z.eqb_spec c BACKSLASH) as [->|]; [|done]. by rewrite Hb.
Qed.

#[export] Instance tsv_encoding : Encoding tsv tsv_encodes tsv_split.
Proof.
  split; [|intros f c e He; inversion He; subst|done].
  - intros f e tail He Ht. induction He as [|c f e Hc Hne _ IH|x f e Hx _ IH|c f e Hc Hx _ IH].
    + apply tsv_tail_ends in Ht. destruct tail as [|c l]; [done|]. cbn [app tsv_split]. by rewrite Ht.
    + cbn [app]. rewrite tsv_split_byte, IH by done. done.
    + cbn [app tsv_split]. change (tsv_ends BACKSLASH) with false. cbv iota. rewrite Z.eqb_refl. destruct (Z.eqb_spec (unescape x) 0); [done|]. cbn [andb negb]. by rewrite IH.
    + change ((BACKSLASH :: c :: e) ++ tail) with (BACKSLASH :: (c :: e) ++ tail). rewrite tsv_split_byte, IH by done. done.
  - match goal with H : tsv_ends _ = false |- _ => by apply orb_false_iff in H as [_ H] end.
  - done.
  - done.
Qed.

(** The TSV reader refines the abstract reader of [tsv_split]: after an
    initialisation with any limits, every sequence of feeding (any bytes, in any
    pieces), [next_field] and [next_row] is answered as the text demands, each
    field by its contents although its escapes are decoded in place; the limits
    on rows and fields hold; no access leaves the buffer, whose growth loses
    nothing; destruction returns it. *)
Theorem tsv_refines (al : scl_allocator_t) `{!AllocatorOk al} (w : world) (p0 : parser) (mf mr : Z) (ops : list reader_op)
  (Hmf : 0 <= mf < 2 ^ 64) (Hmr : 0 <= mr < 2 ^ 64) (Hops : Forall (op_ok (Doc [] false false 0 0)) ops) :
  let max_rows := if mr =? 0 then SCL_TSV_MAX_ROWS else mr in
  let max_fields := if mf =? 0 then SCL_TSV_MAX_FIELDS else mf in
  (let '(e, p, w1) := scl_parse_tsv_init_with_limits al w (Some p0) mf mr in
   (e = SCL_OK /\ exists outs p2 w2 t p3 w3, run (reader_step tsv al) (p, w1) ops = Ok (outs, (p2, w2)) /\
      trace (reader_spec tsv tsv_split max_rows max_fields) (Doc [] false false 0 0) ops outs t /\
      scl_parse_tsv_destroy w2 p2 = Ok (SCL_OK, p3, w3) /\ w_live w3 = w_live w) \/
   (e = SCL_ERR_OUT_OF_MEMORY /\ w_live w1 = w_live w)) /\
  (forall op, reader_step tsv al (None, w) op = Ok (Code SCL_ERR_NULL_PTR, (None, w))).
Proof.
  intros max_rows max_fields. split; [|by intros [data|[]|]].
  apply (reader_refines tsv tsv_split max_rows max_fields al); try done; unfold max_rows, max_fields; case_match; lia || done.
Qed.

Lemma tsv_refines_witness :
  exists outs t, trace (reader_spec tsv tsv_split 65536 8192) (Doc [] false false 0 0)
    [RFeed [97; 92]; RFeed [116; 9; 10]; RNextField true; RNextField true; RNextRow] outs t.
Proof.
  destruct (tsv_refines small_allocator (World 0 0) (Parser 0 Null 0 0 0 false false 0 0 0 0) 0 0
    [RFeed [97; 92]; RFeed [116; 9; 10]; RNextField true; RNextField true; RNextRow]) as [H _].
  - lia.
  - lia.
  - repeat constructor; vm_compute; congruence.
  - vm_compute scl_parse_tsv_init_with_limits in H. destruct H as [(_ & outs & _ & _ & t & _ & _ & _ & T & _)|[H _]]; [by exists outs, t|discriminate H].
Defined.


