(* ===== verification/Threads.v ===== *)
(** Threads that share memory: each executes one atomic action at a time, in
    any interleaving.  A run is a sequence of actions and of calls of the
    clients; it leaves a trace of events, the points at which operations take
    effect, which an abstract specification accepts. *)

From S2P Require Import Prelude.
#[local] Open Scope Z_scope.

Section Threads.
(** [Sh]: the shared memory.  [Op]: where a thread is in its operation.
    [Cl]: what the clients hold outside the data structure. *)
Context {Sh Op Ev Cl : Type}.
(** One atomic action; the flag says that a weak compare-and-exchange fails
    without a reason. *)
Variable exec : bool -> Sh -> Op -> res (Sh * Op * option Ev).
(** The operation of a thread has returned. *)
Variable returned : Op -> bool.
(** A call the clients may make, and what an event hands back to them. *)
Variable call : Cl -> Op -> option Cl.
Variable see : Cl -> Ev -> Cl.

Record config : Type := Config { cf_shared : Sh; cf_clients : Cl; cf_threads : list Op }.

Inductive step : config -> option (nat * Ev) -> config -> Prop :=
| step_call sh cl ts i op op' cl' :
    ts !! i = Some op -> returned op = true -> call cl op' = Some cl' ->
    step (Config sh cl ts) None (Config sh cl' (<[i := op']> ts))
| step_exec sh cl ts i op weak sh' op' e :
    ts !! i = Some op -> returned op = false -> exec weak sh op = Ok (sh', op', e) ->
    step (Config sh cl ts) ((i,.) <$> e)
      (Config sh' (match e with Some e => see cl e | None => cl end) (<[i := op']> ts)).

(** [run n c t c']: [n] steps, with the trace [t]. *)
Inductive run : nat -> config -> list (nat * Ev) -> config -> Prop :=
| run_nil c : run 0 c [] c
| run_snoc n c t c1 l c2 : run n c t c1 -> step c1 l c2 -> run (S n) c (t ++ option_list l) c2.

Lemma run_app n c t c1 n' t' c2 : run n c t c1 -> run n' c1 t' c2 -> run (n + n') c (t ++ t') c2.
Proof.
  intros H1 H2. induction H2 as [c1|n' c1 t' c2 l c3 H2 IH Hs]; [by rewrite Nat.add_0_r, app_nil_r|].
  rewrite Nat.add_succ_r, app_assoc. econstructor; [by apply IH|done].
Qed.

(** Playing a schedule. *)
Inductive action : Type := Call (i : nat) (op : Op) | Act (i : nat) (weak : bool).

Definition act (c : config) (x : action) : option (option (nat * Ev) * config) :=
  let '(Config sh cl ts) := c in
  match x with
  | Call i op' =>
      op ← ts !! i; if returned op then cl' ← call cl op'; Some (None, Config sh cl' (<[i := op']> ts)) else None
  | Act i weak =>
      op ← ts !! i;
      if returned op then None
      else match exec weak sh op with
           | Ok (sh', op', e) => Some ((i,.) <$> e, Config sh' (match e with Some e => see cl e | None => cl end) (<[i := op']> ts))
           | _ => None
           end
  end.

Fixpoint play (c : config) (xs : list action) : option (list (nat * Ev) * config) :=
  match xs with
  | [] => Some ([], c)
  | x :: xs => '(l, c) ← act c x; '(t, c) ← play c xs; Some (option_list l ++ t, c)
  end.

Lemma act_step c x l c' : act c x = Some (l, c') -> step c l c'.
Proof.
  destruct c as [sh cl ts]. destruct x as [i op'|i weak]; cbn [act].
  - destruct (ts !! i) as [op|] eqn:Hi; [|done]. cbn. destruct (returned op) eqn:Hr; [|done].
    destruct (call cl op') as [cl'|] eqn:Hc; [|done]. intros [= <- <-]. by eapply step_call.
  - destruct (ts !! i) as [op|] eqn:Hi; [|done]. cbn. destruct (returned op) eqn:Hr; [done|].
    destruct (exec weak sh op) as [[[sh' op'] e]| |] eqn:E; [|done..]. intros [= <- <-]. by eapply step_exec.
Qed.

Lemma play_run c xs t c' : play c xs = Some (t, c') -> run (length xs) c t c'.
Proof.
  revert c t. induction xs as [|x xs IH]; intros c t; cbn [play]; [intros [= <- <-]; constructor|].
  destruct (act c x) as [[l c1]|] eqn:Ex; [|done]. cbn. destruct (play c1 xs) as [[t' c2]|] eqn:Ep; [|done]. intros [= <- <-].
  apply (run_app 1 c (option_list l) c1); [|by apply IH]. apply (run_snoc 0 c [] c l c1); [constructor|by eapply act_step].
Qed.

(** No thread is about to do something undefined. *)
Definition never_stuck (c : config) : Prop :=
  forall i op weak, cf_threads c !! i = Some op -> returned op = false -> wp (exec weak (cf_shared c) op) (fun _ => True).

(** ** Refinement *)
Context {Sp : Type}.
Variable spec : Sp -> nat -> Ev -> Sp -> Prop.

Inductive accepts : Sp -> list (nat * Ev) -> Sp -> Prop :=
| accepts_nil a : accepts a [] a
| accepts_snoc a t b i e c : accepts a t b -> spec b i e c -> accepts a (t ++ [(i, e)]) c.

(** What an event does to the specification. *)
Definition spec_step (a : Sp) (l : option (nat * Ev)) (b : Sp) : Prop :=
  match l with Some (i, e) => spec a i e b | None => a = b end.

(** [rep n c a]: after [n] steps, [c] represents [a]; for [bound] steps the
    counters of the implementation do not wrap around. *)
Class Implements (bound : Z) (rep : nat -> config -> Sp -> Prop) : Prop := {
  impl_step n c a l c' : Z.of_nat n < bound -> rep n c a -> step c l c' -> exists a', spec_step a l a' /\ rep (S n) c' a';
  impl_safe n c a : Z.of_nat n < bound -> rep n c a -> never_stuck c
}.

Lemma run_accepted bound rep `{!Implements bound rep} c a n t c' :
  rep 0%nat c a -> run n c t c' -> Z.of_nat n <= bound -> exists a', accepts a t a' /\ rep n c' a'.
Proof.
  intros H0 Hr. induction Hr as [c|n c t c1 l c2 Hr IH Hs]; intros Hn; [exists a; split; [constructor|done]|].
  destruct (IH H0 ltac:(lia)) as (b & Ha & Hb). edestruct (impl_step n c1 b l c2) as (b' & Hl & Hb'); [lia|done|done|].
  exists b'. split; [|done]. destruct l as [[i e]|]; simpl in *; [by econstructor|]. subst. by rewrite app_nil_r.
Qed.
(** ** A thread that runs alone *)
Fixpoint alone (n : nat) (sh : Sh) (op : Op) : res (Sh * Op) :=
  match n with
  | O => mret (sh, op)
  | S n => if returned op then mret (sh, op) else '(sh, op, _) ← exec false sh op; alone n sh op
  end.

(** With a rank that its actions decrease, it returns. *)
Lemma alone_returns bound rep `{!Implements bound rep} (rank : Sh -> Op -> nat) :
  (forall n sh cl ts a i op sh' op' e, Z.of_nat n < bound -> rep n (Config sh cl ts) a -> ts !! i = Some op -> returned op = false -> exec false sh op = Ok (sh', op', e) -> (rank sh' op' < rank sh op)%nat) ->
  forall k n sh cl ts a i op, rep n (Config sh cl ts) a -> Z.of_nat n + Z.of_nat k < bound -> ts !! i = Some op -> (rank sh op <= k)%nat ->
  wp (alone k sh op) (fun '(_, op') => returned op' = true).
Proof.
  intros Hrank. induction k as [|k IH]; intros n sh cl ts a i op Hrep Hn Hi Hk; cbn [alone].
  - destruct (returned op) eqn:Er; [exact Er|]. assert (Z.of_nat n < bound) as Hb by lia. pose proof (impl_safe n (Config sh cl ts) a Hb Hrep i op false Hi Er) as Hs. cbn in Hs.
    destruct (exec false sh op) as [[[sh' op'] e]| |] eqn:E; [|done..]. specialize (Hrank n sh cl ts a i op sh' op' e Hb Hrep Hi Er E). lia.
  - destruct (returned op) eqn:Er; [exact Er|]. assert (Z.of_nat n < bound) as Hb by lia. pose proof (impl_safe n (Config sh cl ts) a Hb Hrep i op false Hi Er) as Hs. cbn in Hs.
    destruct (exec false sh op) as [[[sh' op'] e]| |] eqn:E; [|done..]. cbn. specialize (Hrank n sh cl ts a i op sh' op' e Hb Hrep Hi Er E).
    edestruct (impl_step n (Config sh cl ts) a) as (a' & _ & Hrep'); [lia|exact Hrep|by eapply (step_exec _ _ _ i op false)|].
    eapply IH; [exact Hrep'|lia|by apply list_lookup_insert_eq, lookup_lt_is_Some_1; eauto|lia].
Qed.
End Threads.
Arguments Call {Op}.
Arguments Act {Op}.
Arguments Config {Sh Op Cl}.
Arguments cf_shared {Sh Op Cl}.
Arguments cf_clients {Sh Op Cl}.
Arguments cf_threads {Sh Op Cl}.

(** ** Invariants of the threads

    An invariant [P] of each thread and a relation [R] between any two; after
    an action of thread [i] both are checked for it, and kept for the others. *)
Section Each.
Context {Op : Type}.
Implicit Types (ts : list Op).

Definition each (P : nat -> Op -> Prop) ts : Prop := forall i op, ts !! i = Some op -> P i op.
Definition pairwise (R : Op -> Op -> Prop) ts : Prop :=
  forall i j op op', i <> j -> ts !! i = Some op -> ts !! j = Some op' -> R op op'.

Lemma insert_case ts i op' j op : <[i := op']> ts !! j = Some op -> (j = i /\ op = op') \/ (j <> i /\ ts !! j = Some op).
Proof. intros [(-> & -> & _)|[Hne Hl]]%list_lookup_insert_Some; auto. Qed.

Lemma each_update (P P' : nat -> Op -> Prop) ts i op' :
  each P ts -> P' i op' -> (forall j op, j <> i -> ts !! j = Some op -> P j op -> P' j op) -> each P' (<[i := op']> ts).
Proof. intros He Hn Hk j op [[-> ->]|[Hj Hl]]%insert_case; [done|]. eauto. Qed.

Lemma pairwise_update (R R' : Op -> Op -> Prop) ts i op' :
  pairwise R ts -> (forall x y, R' x y -> R' y x) -> (forall j op, j <> i -> ts !! j = Some op -> R' op' op) -> (forall x y, R x y -> R' x y) ->
  pairwise R' (<[i := op']> ts).
Proof.
  intros Hp Hs Hn Hk j k x y Hjk [[-> ->]|[Hj Hx]]%insert_case [[-> ->]|[Hk' Hy]]%insert_case; [done|eauto..].
Qed.

(** Some thread satisfies [P]. *)
Definition some_op (P : nat -> Op -> Prop) ts : Prop := exists i op, ts !! i = Some op /\ P i op.

Lemma some_update (P P' : nat -> Op -> Prop) ts i op op' :
  ts !! i = Some op -> some_op P ts -> (P i op -> P' i op') -> (forall j o, j <> i -> P j o -> P' j o) -> some_op P' (<[i := op']> ts).
Proof.
  intros Hi (j & o & Hj & Ho) Hc Hk. destruct (decide (j = i)) as [->|Hne].
  - exists i, op'. rewrite list_lookup_insert_eq by by eapply lookup_lt_Some. split; [done|]. apply Hc. congruence.
  - exists j, o. rewrite list_lookup_insert_ne by done. auto.
Qed.

(** [M] are the threads at whose operation [f] is defined. *)
Definition marks {X} (f : Op -> option X) ts (M : nat -> Prop) : Prop := forall i, M i <-> exists op, ts !! i = Some op /\ is_Some (f op).

Lemma marks_update {X} (f : Op -> option X) ts (M M' : nat -> Prop) i op op' :
  marks f ts M -> ts !! i = Some op -> (forall j, j <> i -> M' j <-> M j) -> (M' i <-> is_Some (f op')) -> marks f (<[i := op']> ts) M'.
Proof.
  intros HM Hi Hk Hn j. destruct (decide (j = i)) as [->|Hne].
  - rewrite Hn, list_lookup_insert_eq by by eapply lookup_lt_Some. naive_solver.
  - rewrite Hk, (HM j), list_lookup_insert_ne by done. done.
Qed.
End Each.
