(* ===== verification/Lfstack.v ===== *)
(** The lock-free stack of [libs/structures/lfstack]: nodes of a pool, linked
    through their first word, under a head that a double-word
    compare-and-exchange replaces together with a tag. *)

From stdpp Require Import gmap.
From S2P Require Import Prelude Store Threads.
#[local] Open Scope Z_scope.

(** [scl_dwcas_t]: two words that are read and exchanged as one. *)
Record scl_dwcas_t : Type := Dwcas { lo : addr; hi : Z }.

#[export] Instance dwcas_eq_dec : EqDecision scl_dwcas_t.
Proof. solve_decision. Defined.

(** The target and the expected value after the exchange, and its answer. *)
Definition scl_dwcas (target expected desired : scl_dwcas_t) : scl_dwcas_t * scl_dwcas_t * bool :=
  if decide (target = expected) then (desired, expected, true) else (target, target, false).

(** The head and the first words of the nodes of the pool. *)
Record scl_lfstack_t : Type := Lfstack { head : scl_dwcas_t; links : gmap positive addr }.

Definition scl_lfstack_init (pool : gmap positive addr) : scl_lfstack_t := Lfstack (Dwcas None 0) pool.

Definition load_link (s : scl_lfstack_t) (p : addr) : res addr :=
  match p with Some a => match links s !! a with Some q => mret q | None => UB end | None => UB end.

Definition store_link (s : scl_lfstack_t) (p q : addr) : res scl_lfstack_t :=
  match p with
  | Some a => match links s !! a with Some _ => mret (Lfstack (head s) (<[a := q]> (links s))) | None => UB end
  | None => UB
  end.

(** Where a thread is: before its first load of the head, before the access
    to a link, before the exchange, or back from its call. *)
Inductive stack_op : Type :=
| Push (node : addr) | PushLink (node : addr) (old : scl_dwcas_t) | PushCas (node : addr) (old neu : scl_dwcas_t) | Pushed
| Pop | PopNext (old : scl_dwcas_t) | PopCas (old neu : scl_dwcas_t) | Popped (r : addr)
| Empty | IsEmpty (b : bool).

(** When an operation takes effect. *)
Inductive stack_event : Type := EPush (a : positive) | EPop (a : positive) | ENone | EEmpty (b : bool).

Definition scl_lfstack_empty (s : scl_lfstack_t) : bool := bool_decide (lo (head s) = None).

(** The body of the loop of push, up to the exchange. *)
Definition push_link (s : scl_lfstack_t) (node : addr) (old : scl_dwcas_t) : res (scl_lfstack_t * stack_op) :=
  s ← store_link s node (lo old);
  mret (s, PushCas node old (Dwcas node (u64 (hi old + 1)))).

Definition push_cas (s : scl_lfstack_t) (node : addr) (old neu : scl_dwcas_t) : scl_lfstack_t * stack_op * option stack_event :=
  let '(h, old, ok) := scl_dwcas (head s) old neu in
  let s := Lfstack h (links s) in
  if ok : bool then (s, Pushed, EPush <$> node) else (s, PushLink node old, None).

(** The body of the loop of pop, up to the test, the load and the exchange. *)
Definition pop_test (old : scl_dwcas_t) : stack_op * option stack_event :=
  match lo old with None => (Popped None, Some ENone) | Some _ => (PopNext old, None) end.

Definition pop_next (s : scl_lfstack_t) (old : scl_dwcas_t) : res stack_op :=
  q ← load_link s (lo old);
  mret (PopCas old (Dwcas q (u64 (hi old + 1)))).

Definition pop_cas (s : scl_lfstack_t) (old neu : scl_dwcas_t) : scl_lfstack_t * stack_op * option stack_event :=
  let '(h, old', ok) := scl_dwcas (head s) old neu in
  let s := Lfstack h (links s) in
  if ok : bool then (s, Popped (lo old), EPop <$> lo old) else let '(op, e) := pop_test old' in (s, op, e).

Definition scl_lfstack_push (s : scl_lfstack_t) (op : stack_op) : res (scl_lfstack_t * stack_op * option stack_event) :=
  match op with
  | Push node => mret (s, PushLink node (head s), None)
  | PushLink node old => '(s, op) ← push_link s node old; mret (s, op, None)
  | PushCas node old neu => mret (push_cas s node old neu)
  | _ => mret (s, op, None)
  end.

Definition scl_lfstack_pop (s : scl_lfstack_t) (op : stack_op) : res (scl_lfstack_t * stack_op * option stack_event) :=
  match op with
  | Pop => let '(op, e) := pop_test (head s) in mret (s, op, e)
  | PopNext old => op ← pop_next s old; mret (s, op, None)
  | PopCas old neu => mret (pop_cas s old neu)
  | _ => mret (s, op, None)
  end.

(** One atomic action of a thread; the double-word exchange never fails
    without a reason. *)
Definition stack_exec (weak : bool) (s : scl_lfstack_t) (op : stack_op) : res (scl_lfstack_t * stack_op * option stack_event) :=
  match op with
  | Empty => let b := scl_lfstack_empty s in mret (s, IsEmpty b, Some (EEmpty b))
  | Push _ | PushLink _ _ | PushCas _ _ _ => scl_lfstack_push s op
  | _ => scl_lfstack_pop s op
  end.

Definition stack_returned (op : stack_op) : bool := match op with Pushed | Popped _ | IsEmpty _ => true | _ => false end.

(** The clients: they push nodes they hold, and hold the nodes popped. *)
Definition stack_call (held : gset positive) (op : stack_op) : option (gset positive) :=
  match op with
  | Push (Some a) => if decide (a ∈ held) then Some (held ∖ {[a]}) else None
  | Pop | Empty => Some held
  | _ => None
  end.

Definition stack_see (held : gset positive) (e : stack_event) : gset positive := match e with EPop a => held ∪ {[a]} | _ => held end.

(** ** Specification: a list of nodes *)
Inductive stack_spec : list positive -> nat -> stack_event -> list positive -> Prop :=
| spec_push l i a : a ∉ l -> stack_spec l i (EPush a) (a :: l)
| spec_pop l i a : stack_spec (a :: l) i (EPop a) l
| spec_none i : stack_spec [] i ENone []
| spec_empty l i : stack_spec l i (EEmpty (bool_decide (l = []))) l.

(** ** Invariant *)
Fixpoint chain (h : gmap positive addr) (p : addr) (l : list positive) : Prop :=
  match l with [] => p = None | a :: l => p = Some a /\ exists q, h !! a = Some q /\ chain h q l end.

Lemma chain_insert h p l a q : a ∉ l -> chain h p l -> chain (<[a := q]> h) p l.
Proof.
  revert p. induction l as [|b l IH]; intros p Ha; [done|]. intros (-> & q' & Hq & Hc).
  apply not_elem_of_cons in Ha as [Hne Ha]. split; [done|]. exists q'. rewrite lookup_insert_ne by done. eauto.
Qed.

Lemma chain_none h l : chain h None l -> l = [].
Proof. destruct l; [done|]. intros [[=] _]. Qed.

Lemma chain_some h a l : chain h (Some a) l -> exists q l', l = a :: l' /\ h !! a = Some q /\ chain h q l'.
Proof. destruct l as [|b l]; [done|]. intros ([= ->] & q & Hq & Hc). eauto. Qed.

(** The node a thread is about to push. *)
Definition pushing (op : stack_op) : addr :=
  match op with Push n => n | PushLink n _ => n | PushCas n _ _ => n | _ => None end.

Definition different (op op' : stack_op) : Prop := forall a, pushing op = Some a -> pushing op' <> Some a.

(** Some thread is about to push it. *)
Definition pushed_by (ts : list stack_op) (a : positive) : Prop := some_op (fun _ op => pushing op = Some a) ts.

Lemma pushed_update ts i op op' a : ts !! i = Some op -> pushed_by ts a -> pushing op <> Some a \/ pushing op' = Some a -> pushed_by (<[i := op']> ts) a.
Proof. intros Hi Hp Hc. eapply some_update; [done|exact Hp| |by intros]. destruct Hc; [done|by intros]. Qed.

(** What a thread knows of the head it loaded: as long as the tag is the
    same, so is the head. *)
Definition seen (now old : scl_dwcas_t) : Prop := hi old <= hi now /\ (hi old = hi now -> old = now).

Definition op_ok (s : scl_lfstack_t) (op : stack_op) : Prop :=
  match op with
  | Push n => is_Some n
  | PushLink n old => is_Some n /\ seen (head s) old
  | PushCas n old neu => seen (head s) old /\ exists a, n = Some a /\ links s !! a = Some (lo old) /\ neu = Dwcas n (u64 (hi old + 1))
  | PopNext old => seen (head s) old /\ exists a, lo old = Some a /\ is_Some (links s !! a)
  | PopCas old neu => seen (head s) old /\ exists a q, lo old = Some a /\ neu = Dwcas q (u64 (hi old + 1)) /\ (old = head s -> links s !! a = Some q)
  | _ => True
  end.

Record stack_rep (pool : gset positive) (n : nat) (c : config (Sh := scl_lfstack_t) (Op := stack_op) (Cl := gset positive)) (l : list positive) : Prop := StackRep {
  sr_pool : dom (links (cf_shared c)) = pool;
  sr_chain : chain (links (cf_shared c)) (lo (head (cf_shared c))) l;
  sr_nodup : NoDup l;
  sr_in : forall a, a ∈ l -> a ∈ pool;
  sr_held : forall a, a ∈ cf_clients c -> a ∈ pool /\ a ∉ l;
  sr_tag : 0 <= hi (head (cf_shared c)) <= Z.of_nat n;
  sr_ops : each (fun _ => op_ok (cf_shared c)) (cf_threads c);
  sr_pushing : each (fun _ op => forall a, pushing op = Some a -> a ∈ pool /\ a ∉ l /\ a ∉ cf_clients c) (cf_threads c);
  sr_all : forall a, a ∈ pool -> a ∈ l \/ a ∈ cf_clients c \/ pushed_by (cf_threads c) a;
  sr_different : pairwise different (cf_threads c)
}.

Section Proof.
Context (pool : gset positive).
Notation rep := (stack_rep pool).

(** An action that changes neither the stack nor the clients. *)
Lemma rep_same n s cl ts l i op op' :
  rep n (Config s cl ts) l -> ts !! i = Some op -> pushing op' = pushing op -> op_ok s op' -> rep (S n) (Config s cl (<[i := op']> ts)) l.
Proof.
  intros [H1 H2 H3 H4 H5 H6 H7 H8 HA H9] Hi Hp Hok. cbn [cf_shared cf_clients cf_threads] in *. split; cbn [cf_shared cf_clients cf_threads]; try done; [lia|..].
  - eapply each_update; [exact H7|done|by intros j o _ _ Ho].
  - eapply each_update; [exact H8| |by intros j o _ _ Ho]. intros a Ha. apply (H8 i op Hi). congruence.
  - intros a Ha. destruct (HA a Ha) as [?|[?|?]]; [auto..|]. right. right. eapply pushed_update; [done..|]. rewrite Hp. destruct (decide (pushing op = Some a)); auto.
  - eapply pairwise_update; [exact H9| | |by intros x y Hxy].
    + intros x y Hxy a Ha Hy. by apply (Hxy a).
    + intros j x Hj Hx a Ha. apply (H9 i j op x); [done..|]. congruence.
Qed.

Lemma seen_new h old neu : seen h old -> hi neu = hi h + 1 -> seen neu old /\ neu <> old.
Proof. intros [H1 H2] E. split; [split; [lia|intros; lia]|]. intros <-. lia. Qed.

(** A thread that sees a new head knows nothing of it. *)
Lemma op_ok_new s h op : hi h = hi (head s) + 1 -> op_ok s op -> op_ok (Lfstack h (links s)) op.
Proof.
  intros E Hok. destruct op; cbn in *; try done.
  - destruct Hok as [? Hs]. split; [done|]. by eapply seen_new.
  - destruct Hok as [Hs ?]. split; [by eapply seen_new|done].
  - destruct Hok as [Hs ?]. split; [by eapply seen_new|done].
  - destruct Hok as (Hs & a & q & Ha & Hn & Hq). split; [by eapply seen_new|]. exists a, q. split; [done|]. split; [done|].
    intros ->. by destruct (seen_new (head s) h h Hs E).
Qed.

(** A link that no other thread is about to push, and outside the stack. *)
Lemma op_ok_link s op a q l : is_Some (links s !! a) -> chain (links s) (lo (head s)) l -> a ∉ l -> pushing op <> Some a ->
  op_ok s op -> op_ok (Lfstack (head s) (<[a := q]> (links s))) op.
Proof.
  intros Hs Hc Ha Hp Hok. destruct op; cbn in *; try done.
  - destruct Hok as (H1 & b & -> & Hb & ->). split; [done|]. exists b. rewrite lookup_insert_ne by congruence. done.
  - destruct Hok as (H1 & b & Hb & Hl). split; [done|]. exists b. split; [done|]. destruct (decide (a = b)) as [<-|]; [rewrite lookup_insert_eq; eauto|].
    by rewrite lookup_insert_ne by done.
  - destruct Hok as (H1 & b & q' & Hb & -> & Hq). split; [done|]. exists b, q'. split; [done|]. split; [done|]. intros ->.
    rewrite Hb in Hc. apply chain_some in Hc as (? & l' & -> & ? & ?). rewrite lookup_insert_ne by set_solver. by apply Hq.
Qed.

Lemma seen_refl h : seen h h.
Proof. split; [lia|done]. Qed.

Lemma load_link_ok s p a : p = Some a -> is_Some (links s !! a) -> exists q, links s !! a = Some q /\ load_link s p = Ok q.
Proof. intros -> [q E]. exists q. cbn. by rewrite E. Qed.

Lemma stack_safe n c l : Z.of_nat n < 2 ^ 64 -> rep n c l -> never_stuck stack_exec stack_returned c.
Proof.
  intros _ [H1 _ _ _ _ _ H7 H8 _ _] i op weak Hi Hr. specialize (H7 i op Hi). specialize (H8 i op Hi). cbn in H8.
  destruct op; try done; cbn in *.
  - destruct H7 as [[a ->] _]. destruct (H8 a eq_refl) as (Ha & _ & _). rewrite <- H1, elem_of_dom in Ha. destruct Ha as [q Hq]. unfold push_link. cbn. by rewrite Hq.
  - by destruct (pop_test (head (cf_shared c))).
  - destruct H7 as (_ & a & Ha & Hl). destruct (load_link_ok _ _ _ Ha Hl) as (q & _ & E). unfold pop_next. by rewrite E.
Qed.

Lemma pop_test_rep n s cl ts l i op : rep n (Config s cl ts) l -> ts !! i = Some op -> pushing op = None ->
  let '(op', e) := pop_test (head s) in
  exists l', spec_step stack_spec l ((i,.) <$> e) l' /\ rep (S n) (Config s (match e with Some e => stack_see cl e | None => cl end) (<[i := op']> ts)) l'.
Proof.
  intros Hrep Hi Hp. unfold pop_test. pose proof (sr_chain _ _ _ _ Hrep) as Hc. cbn in Hc. destruct (lo (head s)) as [a|] eqn:E.
  - exists l. split; [done|]. eapply rep_same; [done|done|done|]. split; [apply seen_refl|]. exists a. split; [done|].
    apply chain_some in Hc as (q & l' & -> & Hq & _). eauto.
  - exists l. apply chain_none in Hc as ->. split; [constructor|]. by eapply rep_same.
Qed.

Lemma scl_dwcas_case h old neu : scl_dwcas h old neu = (neu, old, true) /\ h = old \/ scl_dwcas h old neu = (h, h, false) /\ h <> old.
Proof. unfold scl_dwcas. destruct (decide (h = old)); auto. Qed.

Lemma push_link_rep n s cl ts l i a old : rep n (Config s cl ts) l -> ts !! i = Some (PushLink (Some a) old) ->
  exists s', push_link s (Some a) old = Ok (s', PushCas (Some a) old (Dwcas (Some a) (u64 (hi old + 1)))) /\
    rep (S n) (Config s' cl (<[i := PushCas (Some a) old (Dwcas (Some a) (u64 (hi old + 1)))]> ts)) l.
Proof.
  intros [H1 H2 H3 H4 H5 H6 H7 H8 HA H9] Hi. cbn [cf_shared cf_clients cf_threads] in *.
  destruct (H8 i _ Hi a eq_refl) as (Ha & Hl & Hcl). destruct (H7 i _ Hi) as [_ Hseen]. rewrite <- H1, elem_of_dom in Ha. destruct Ha as [q0 Hq0].
  exists (Lfstack (head s) (<[a := lo old]> (links s))). unfold push_link. cbn [store_link]. rewrite Hq0. split; [done|].
  split; cbn [cf_shared cf_clients cf_threads head links]; try done; [|by apply chain_insert|lia|..].
  - rewrite dom_insert_L. assert (a ∈ dom (links s)) by (apply elem_of_dom; eauto). set_solver.
  - eapply each_update; [exact H7| |].
    + split; [done|]. exists a. cbn. by rewrite lookup_insert_eq.
    + intros j op Hj Hop Hok. eapply op_ok_link; [eauto|exact H2|done| |done]. apply (H9 i j _ _ ltac:(done) Hi Hop). done.
  - eapply each_update; [exact H8| |by intros j o _ _ Ho]. apply (H8 i _ Hi).
  - intros b Hb. destruct (HA b Hb) as [?|[?|?]]; [auto..|]. right. right. eapply pushed_update; [done..|]. cbn. destruct (decide (a = b)) as [->|]; [auto|left; congruence].
  - eapply pairwise_update; [exact H9| | |by intros x y Hxy].
    + intros x y Hxy b Hb Hy. by apply (Hxy b).
    + intros j x Hj Hx b Hb. apply (H9 i j _ x ltac:(done) Hi Hx). done.
Qed.

(** A successful exchange: the new head is that of the new list. *)
Lemma new_head_rep n s cl ts l i op op' cl' h l' : rep n (Config s cl ts) l -> ts !! i = Some op -> hi h = hi (head s) + 1 -> hi h <= Z.of_nat (S n) ->
  chain (links s) (lo h) l' -> NoDup l' -> (forall a, a ∈ l' -> a ∈ l \/ pushing op = Some a) ->
  (forall a, a ∈ cl' -> a ∈ pool /\ a ∉ l' /\ (a ∈ cl \/ a ∈ l)) ->
  (forall a, a ∈ l \/ a ∈ cl \/ pushing op = Some a -> a ∈ l' \/ a ∈ cl') -> pushing op' = None -> op_ok (Lfstack h (links s)) op' ->
  rep (S n) (Config (Lfstack h (links s)) cl' (<[i := op']> ts)) l'.
Proof.
  intros [H1 H2 H3 H4 H5 H6 H7 H8 HA H9] Hi Hh Hn Hc Hd Hin Hcl Hall Hp Hok. cbn [cf_shared cf_clients cf_threads] in *.
  split; cbn [cf_shared cf_clients cf_threads head links]; try done; [| |lia|..].
  - intros a [Ha|Ha]%Hin; [by apply H4|]. by apply (H8 i op Hi).
  - intros a Ha. destruct (Hcl a Ha) as (? & ? & _). done.
  - eapply each_update; [exact H7|done|]. intros j o Hj Ho Hoo. by apply op_ok_new.
  - eapply each_update; [exact H8|by rewrite Hp|]. intros j o Hj Ho Hoo a Ha. destruct (Hoo a Ha) as (Hpool & Hl & Hc').
    split; [done|]. split; [intros [?|Hpo]%Hin; [done|]; by apply (H9 i j op o ltac:(done) Hi Ho a)|]. intros (_ & _ & [?|?])%Hcl; done.
  - intros a Ha. destruct (decide (pushing op = Some a)); [destruct (Hall a); auto|]. destruct (HA a Ha) as [?|[?|?]]; [destruct (Hall a); auto..|].
    right. right. by eapply pushed_update; [done..|left].
  - eapply pairwise_update; [exact H9| | |by intros x y Hxy].
    + intros x y Hxy b Hb Hy. by apply (Hxy b).
    + intros j x Hj Hx b Hb. by rewrite Hp in Hb.
Qed.

Lemma call_rep n s cl ts l i op op' cl' : rep n (Config s cl ts) l -> ts !! i = Some op -> stack_returned op = true -> stack_call cl op' = Some cl' ->
  rep (S n) (Config s cl' (<[i := op']> ts)) l.
Proof.
  intros Hrep Hi Hr Hc. destruct op' as [[a|]| | | | | | | | |]; try done; cbn in Hc; [destruct (decide (a ∈ cl)) as [Ha|]; [|done]|..]; injection Hc as <-.
  2,3: by eapply rep_same; [done|done|by destruct op|].
  destruct Hrep as [H1 H2 H3 H4 H5 H6 H7 H8 HA H9]. cbn [cf_shared cf_clients cf_threads] in *. destruct (H5 a Ha) as [Hpool Hl].
  split; cbn [cf_shared cf_clients cf_threads]; try done; [|lia|..].
  - intros b [Hb _]%elem_of_difference. by apply H5.
  - eapply each_update; [exact H7|by eexists|by intros j o _ _ Ho].
  - eapply each_update; [exact H8| |].
    + intros b [= <-]. split; [done|]. split; [done|]. set_solver.
    + intros j o _ _ Ho b Hb. destruct (Ho b Hb) as (? & ? & ?). set_solver.
  - intros b Hb. destruct (decide (b = a)) as [->|].
    + right. right. exists i, (Push (Some a)). rewrite list_lookup_insert_eq by by eapply lookup_lt_Some. done.
    + destruct (HA b Hb) as [?|[?|?]]; [auto|right; left; set_solver|]. right. right. eapply pushed_update; [done..|]. left. by destruct op.
  - eapply pairwise_update; [exact H9| | |by intros x y Hxy].
    + intros x y Hxy b Hb Hy. by apply (Hxy b).
    + intros j o Hj Ho b [= <-] Hb. by destruct (H8 j o Ho a Hb) as (_ & _ & ?).
Qed.

Lemma exec_rep n s cl ts l i op weak s' op' e : Z.of_nat n < 2 ^ 64 - 1 -> rep n (Config s cl ts) l -> ts !! i = Some op -> stack_returned op = false ->
  stack_exec weak s op = Ok (s', op', e) ->
  exists l', spec_step stack_spec l ((i,.) <$> e) l' /\ rep (S n) (Config s' (match e with Some e => stack_see cl e | None => cl end) (<[i := op']> ts)) l'.
Proof.
  intros Hn Hrep Hi Hr E. pose proof (sr_ops _ _ _ _ Hrep i op Hi) as Hok. pose proof (sr_tag _ _ _ _ Hrep) as Ht. pose proof (sr_chain _ _ _ _ Hrep) as Hc.
  cbn [cf_shared] in *. destruct op as [a|a old|a old neu| | |old|old neu| | |b]; cbn in Hr; try done; cbn [stack_exec scl_lfstack_push scl_lfstack_pop op_ok] in *.
  - injection E as <- <- <-. exists l. split; [done|]. eapply rep_same; [done|done|done|]. split; [done|apply seen_refl].
  - destruct Hok as [[b ->] _]. destruct (push_link_rep _ _ _ _ _ _ _ _ Hrep Hi) as (s1 & E1 & Hrep1). rewrite E1 in E. injection E as <- <- <-. by exists l.
  - destruct Hok as (Hs & b & -> & Hl & ->). unfold push_cas in E.
    destruct (scl_dwcas_case (head s) old (Dwcas (Some b) (u64 (hi old + 1)))) as [[Ed <-]|[Ed _]]; rewrite Ed in E; injection E as <- <- <-.
    + destruct (sr_pushing _ _ _ _ Hrep i _ Hi b eq_refl) as (Hb1 & Hb2 & Hb3). exists (b :: l). split; [by constructor|].
      rewrite u64_small by lia. eapply new_head_rep; [done|done|cbn; lia|cbn; lia| | | | | |done|done].
      * split; [done|]. eauto.
      * constructor; [done|]. apply (sr_nodup _ _ _ _ Hrep).
      * intros c [->|]%elem_of_cons; auto.
      * intros c Hcl. cbn in Hcl. destruct (sr_held _ _ _ _ Hrep c Hcl). split; [done|]. split; [|by left]. apply not_elem_of_cons. split; [|done]. intros ->. done.
      * intros c [?|[?|[= <-]]]; [left; by constructor|by right|left; constructor].
    + exists l. split; [done|]. destruct s as [h k]. eapply rep_same; [done|done|done|]. split; [done|apply seen_refl].
  - pose proof (pop_test_rep _ _ _ _ _ _ _ Hrep Hi eq_refl) as Hp. destruct (pop_test (head s)) as [op1 e1]. injection E as <- <- <-. done.
  - destruct Hok as (Hs & a & Ha & Hl). destruct (load_link_ok _ _ _ Ha Hl) as (q & Hq & E1). unfold pop_next in E. rewrite E1 in E. injection E as <- <- <-.
    exists l. split; [done|]. eapply rep_same; [done|done|done|]. split; [done|]. exists a, q. done.
  - destruct Hok as (Hs & a & q & Ha & -> & Hq). unfold pop_cas in E.
    destruct (scl_dwcas_case (head s) old (Dwcas q (u64 (hi old + 1)))) as [[Ed <-]|[Ed Hne]]; rewrite Ed in E.
    + rewrite Ha in E. injection E as <- <- <-. specialize (Hq eq_refl). rewrite Ha in Hc. apply chain_some in Hc as (q' & l' & -> & Hq' & Hc').
      assert (q' = q) as -> by congruence. pose proof (sr_nodup _ _ _ _ Hrep) as [Hal Hd]%NoDup_cons. exists l'. split; [constructor|].
      rewrite u64_small by lia. eapply new_head_rep; [done|done|cbn; lia|cbn; lia|done|done| | | |done|done].
      * intros c Hcl. left. by constructor.
      * cbn [stack_see]. intros c [Hcl|Hcl%elem_of_singleton]%elem_of_union; [|subst c].
        -- destruct (sr_held _ _ _ _ Hrep c Hcl) as [? Hcn]. apply not_elem_of_cons in Hcn as [_ ?]. auto.
        -- split; [apply (sr_in _ _ _ _ Hrep); constructor|]. split; [done|]. right. constructor.
      * intros c [[->|?]%elem_of_cons|[?|?]]; cbn [stack_see]; [right; set_solver|by left|right; set_solver|done].
    + pose proof (pop_test_rep _ _ _ _ _ _ _ Hrep Hi eq_refl) as Hp. destruct (pop_test (head s)) as [op1 e1]. injection E as <- <- <-. by destruct s.
  - injection E as <- <- <-. exists l. split.
    + unfold scl_lfstack_empty. replace (bool_decide (lo (head s) = None)) with (bool_decide (l = [])); [constructor|]. apply bool_decide_ext.
      destruct (lo (head s)) as [a|]; [|by apply chain_none in Hc as ->]. apply chain_some in Hc as (? & ? & -> & _). done.
    + by eapply rep_same.
Qed.

#[export] Instance stack_implements : Implements stack_exec stack_returned stack_call stack_see stack_spec (2 ^ 64 - 1) rep.
Proof.
  split; [|intros n c l Hn; apply stack_safe; lia].
  intros n [s cl ts] l lb c' Hn Hrep Hstep. inversion Hstep as [sh cl0 ts0 i op op' cl' Hi Hr Hc|sh cl0 ts0 i op weak s' op' e Hi Hr E]; subst.
  - exists l. split; [done|]. by eapply call_rep.
  - by eapply exec_rep.
Qed.
End Proof.

(** ** What a thread has left to do when it runs alone *)
Definition stack_rank (s : scl_lfstack_t) (op : stack_op) : nat :=
  let fresh (old : scl_dwcas_t) (k : nat) := if decide (old = head s) then k else S (S k) in
  match op with
  | Push _ | Pop => 3
  | PushLink _ old | PopNext old => fresh old 2%nat
  | PushCas _ old _ | PopCas old _ => fresh old 1%nat
  | Empty => 1
  | _ => 0
  end.

Lemma pop_test_rank s s' : head s' = head s -> (stack_rank s' (pop_test (head s)).1 <= 2)%nat.
Proof. intros E. unfold pop_test. destruct (lo (head s)); cbn; [|lia]. rewrite E. case_decide; [lia|done]. Qed.

Lemma exec_rank weak s op s' op' e : stack_returned op = false -> stack_exec weak s op = Ok (s', op', e) -> (stack_rank s' op' < stack_rank s op)%nat.
Proof.
  destruct op as [a|a old|a old neu| | |old|old neu| | |b]; cbn [stack_returned]; try done; intros _; cbn [stack_exec scl_lfstack_push scl_lfstack_pop]; intros E.
  - injection E as <- <- <-. cbn. case_decide; [lia|done].
  - unfold push_link in E. destruct (store_link s a (lo old)) as [s1| |] eqn:Es; [|done..]. cbn in E. injection E as <- <- <-.
    assert (head s1 = head s) as Eh by (destruct a as [a|]; [|done]; cbn in Es; destruct (links s !! a); [by injection Es as <-|done]).
    cbn. rewrite Eh. case_decide; lia.
  - injection E as E. unfold push_cas in E. destruct (scl_dwcas_case (head s) old neu) as [[Ed Eh]|[Ed Hne]]; rewrite Ed in E; injection E as <- <- <-; cbn.
    + case_decide; lia.
    + destruct (decide (old = head s)); [congruence|]. case_decide; [lia|done].
  - pose proof (pop_test_rank s s eq_refl) as Hp. destruct (pop_test (head s)) as [op1 e1]. injection E as <- <- <-. cbn in *. lia.
  - unfold pop_next in E. destruct (load_link s (lo old)) as [q| |]; [|done..]. cbn in E. injection E as <- <- <-. cbn. case_decide; lia.
  - injection E as E. unfold pop_cas in E. destruct (scl_dwcas_case (head s) old neu) as [[Ed Eh]|[Ed Hne]]; rewrite Ed in E.
    + injection E as <- <- <-. cbn. case_decide; lia.
    + pose proof (pop_test_rank s (Lfstack (head s) (links s)) eq_refl) as Hp. destruct (pop_test (head s)) as [op1 e1]. injection E as <- <- <-.
      cbn [fst] in Hp. cbn [stack_rank]. destruct (decide (old = head s)); [congruence|]. lia.
  - injection E as <- <- <-. cbn. lia.
Qed.

(** The stack after its initialisation, with all nodes in the hands of the
    clients and [k] threads. *)
Definition stack_start (pool : gmap positive addr) (k : nat) : config := Config (scl_lfstack_init pool) (dom pool) (replicate k Pushed).

Lemma stack_start_rep pool k : stack_rep (dom pool) 0 (stack_start pool k) [].
Proof.
  split; cbn; try done; try lia.
  - constructor.
  - intros a Ha. by apply elem_of_nil in Ha.
  - intros a Ha. split; [done|]. apply not_elem_of_nil.
  - by intros i op [-> _]%lookup_replicate.
  - by intros i op [-> _]%lookup_replicate.
  - intros a Ha. auto.
  - by intros i j op op' _ [-> _]%lookup_replicate.
Qed.

(** C20. The lock-free stack is linearizable: under any interleaving of any number of
    threads, for runs shorter than the range of the tag, the events of a run,
    each one action of its operation, are those of a list to which nodes are
    pushed and from which they are popped; a pop that finds nothing and the
    test for emptiness are right at their event.  Every node of the pool is in
    exactly one place, on the stack, with the clients or on its way to the
    stack: none is lost, none is handed out twice, in spite of stale heads and
    reused nodes; and every link read is that of a node of the pool.  At any
    moment of a run a thread that is left alone returns after at most four
    actions, however stale what it has read. *)
Theorem lfstack_linearizable (pool : gmap positive addr) (k n : nat) (t : list (nat * stack_event)) (c : config)
  (Hn : Z.of_nat n + 4 < 2 ^ 64 - 1) (Hrun : run stack_exec stack_returned stack_call stack_see n (stack_start pool k) t c) :
  never_stuck stack_exec stack_returned c /\
  (exists l, accepts stack_spec [] t l /\ chain (links (cf_shared c)) (lo (head (cf_shared c))) l /\ NoDup l /\
    (forall a, a ∈ dom pool <-> a ∈ l \/ a ∈ cf_clients c \/ pushed_by (cf_threads c) a) /\
    (forall a, a ∈ l -> a ∉ cf_clients c /\ ~ pushed_by (cf_threads c) a) /\ (forall a, a ∈ cf_clients c -> ~ pushed_by (cf_threads c) a)) /\
  (forall i op, cf_threads c !! i = Some op ->
    wp (alone stack_exec stack_returned 4 (cf_shared c) op) (fun '(_, op') => stack_returned op' = true)).
Proof.
  assert (Z.of_nat n <= 2 ^ 64 - 1 /\ Z.of_nat n < 2 ^ 64 - 1) as [Hb Hlt] by lia.
  destruct (run_accepted _ _ _ _ _ _ (stack_rep (dom pool)) _ _ _ _ _ (stack_start_rep pool k) Hrun Hb) as (l & Ha & Hrep).
  split; [exact (impl_safe _ _ _ _ _ n c l Hlt Hrep)|]. split.
  - exists l. destruct Hrep as [H1 H2 H3 H4 H5 H6 H7 H8 HA H9]. split_and!; try done.
    + intros a. split; [apply HA|]. intros [?|[?|(i & op & Hi & Ho)]]; [by apply H4|by apply H5|]. by apply (H8 i op Hi).
    + intros a Hal. split; [intros Hc; by apply (H5 a Hc)|]. intros (i & op & Hi & Ho). by destruct (H8 i op Hi a Ho) as (_ & ? & _).
    + intros a Hc (i & op & Hi & Ho). by destruct (H8 i op Hi a Ho) as (_ & _ & ?).
  - intros i op Hi. destruct c as [s cl ts]. eapply (alone_returns _ _ _ _ _ _ (stack_rep (dom pool)) stack_rank); [|exact Hrep|cbn; lia|exact Hi|].
    + intros ? ? ? ? ? ? ? ? ? ? _ _ _ Hr E. by eapply exec_rank.
    + destruct op; cbn; try case_decide; lia.
Qed.

(** Two threads push the nodes 1 and 2; the second finds the head changed and
    tries again; the first one pops what the second one pushed.  Before that,
    the second thread still holds the empty head it loaded before the first
    one pushed, and left alone returns. *)
Lemma lfstack_linearizable_witness :
  let pool := {[1%positive := None; 2%positive := None]} : gmap positive addr in
  (exists t c, run stack_exec stack_returned stack_call stack_see 14 (stack_start pool 2) t c /\
    t = [(0%nat, EPush 1); (1%nat, EPush 2); (0%nat, EPop 2)] /\ exists l, accepts stack_spec [] t l) /\
  (exists t c, run stack_exec stack_returned stack_call stack_see 6 (stack_start pool 2) t c /\
    cf_threads c !! 1%nat = Some (PushLink (Some 2%positive) (Dwcas None 0)) /\ lo (head (cf_shared c)) = Some 1%positive /\
    wp (alone stack_exec stack_returned 4 (cf_shared c) (PushLink (Some 2%positive) (Dwcas None 0))) (fun '(_, op') => stack_returned op' = true)).
Proof.
  intros pool. split.
  - pose (xs := [Call 0 (Push (Some 1%positive)); Act 0 false; Call 1 (Push (Some 2%positive)); Act 1 false; Act 0 false; Act 0 false;
      Act 1 false; Act 1 false; Act 1 false; Act 1 false; Call 0 Pop; Act 0 false; Act 0 false; Act 0 false]).
    destruct (play stack_exec stack_returned stack_call stack_see (stack_start pool 2) xs) as [[t c]|] eqn:E; [|vm_compute in E; discriminate E].
    pose proof (play_run _ _ _ _ _ _ _ _ E) as Hrun. exists t, c. split; [exact Hrun|]. split; [vm_compute in E; congruence|].
    destruct (lfstack_linearizable pool 2 14 t c ltac:(lia) Hrun) as (_ & (l & Ha & _) & _). exists l. exact Ha.
  - pose (xs := [Call 0 (Push (Some 1%positive)); Act 0 false; Call 1 (Push (Some 2%positive)); Act 1 false; Act 0 false; Act 0 false]).
    destruct (play stack_exec stack_returned stack_call stack_see (stack_start pool 2) xs) as [[t c]|] eqn:E; [|vm_compute in E; discriminate E].
    pose proof (play_run _ _ _ _ _ _ _ _ E) as Hrun. exists t, c. split; [exact Hrun|].
    assert (cf_threads c !! 1%nat = Some (PushLink (Some 2%positive) (Dwcas None 0)) /\ lo (head (cf_shared c)) = Some 1%positive) as [Hi Hl].
    { vm_compute in E. injection E as _ <-. by split. }
    split; [exact Hi|]. split; [exact Hl|]. destruct (lfstack_linearizable pool 2 6 t c ltac:(lia) Hrun) as (_ & _ & H). exact (H 1%nat _ Hi).
Defined.
