(* ===== verification/Mpmc.v ===== *)
(** The bounded queue of [libs/structures/mpmc]: a ring of cells, each with a
    sequence number that says whose turn it is, between two positions that
    producers and consumers claim by compare-and-exchange. *)

From stdpp Require Import gmap.
From S2P Require Import Prelude Core Refine Threads.
#[local] Open Scope Z_scope.

(** [scl_mpmc_cell_t], [scl_mpmc_queue_t]; the allocator is an argument. *)
Record scl_mpmc_cell_t : Type := Cell { seq : Z; value : Z }.
Record scl_mpmc_queue_t : Type := Mpmc { buffer : ptr scl_mpmc_cell_t; mask : Z; enqueue_pos : Z; dequeue_pos : Z }.

Definition set_buffer (q : scl_mpmc_queue_t) (b : ptr scl_mpmc_cell_t) : scl_mpmc_queue_t := Mpmc b (mask q) (enqueue_pos q) (dequeue_pos q).
Definition set_enqueue_pos (q : scl_mpmc_queue_t) (p : Z) : scl_mpmc_queue_t := Mpmc (buffer q) (mask q) p (dequeue_pos q).
Definition set_dequeue_pos (q : scl_mpmc_queue_t) (p : Z) : scl_mpmc_queue_t := Mpmc (buffer q) (mask q) (enqueue_pos q) p.

(** [intptr_t]: two's complement; a difference that does not fit is undefined. *)
Definition intptr (x : Z) : Z := (x + 2 ^ 63) mod 2 ^ 64 - 2 ^ 63.
Definition sub_intptr (a b : Z) : res Z := let d := a - b in if (- 2 ^ 63 <=? d) && (d <? 2 ^ 63) then mret d else UB.

(** The new word, the word the caller is left with, and the answer. *)
Definition cas_weak (weak : bool) (word expected desired : Z) : Z * Z * bool :=
  if (word =? expected) && negb weak then (desired, expected, true) else (word, word, false).

Section Sequential.
(** A cell fills a cache line: 64 bytes, 128 on ARM64. *)
Variable SCL_CACHE_LINE_SIZE : Z.

Definition scl_mpmc_init (al : option scl_allocator_t) (w : world) (q : option scl_mpmc_queue_t) (capacity : Z)
    : res (scl_error_t * option scl_mpmc_queue_t * world) :=
  match q, al with
  | Some q, Some al =>
      let capacity := if capacity <? 2 then 2 else capacity in
      let capacity := scl_bit_ceil_sz capacity in
      let '(buf, w) := scl_calloc al w capacity SCL_CACHE_LINE_SIZE SCL_CACHE_LINE_SIZE (Cell 0 0) in
      let q := set_buffer q (to_ptr buf) in
      match buf with
      | None => mret (SCL_ERR_OUT_OF_MEMORY, Some q, w)
      | Some _ =>
          let q := Mpmc (buffer q) (u64 (capacity - 1)) (enqueue_pos q) (dequeue_pos q) in
          b ← zfor 0 capacity (fun i b => c ← get_elem b i; set_elem b i (Cell i (value c))) (buffer q);
          mret (SCL_OK, Some (Mpmc b (mask q) 0 0), w)
      end
  | _, _ => mret (SCL_ERR_NULL_PTR, q, w)
  end.

Definition scl_mpmc_destroy (w : world) (q : option scl_mpmc_queue_t) : res (option scl_mpmc_queue_t * world) :=
  match q with
  | None => mret (None, w)
  | Some q =>
      match buffer q with
      | Null => mret (Some q, w)
      | _ => w ← free_ptr w (buffer q); mret (Some (set_buffer q Null), w)
      end
  end.
End Sequential.

(** Where a thread is: before the first load of the position, at the load of
    the sequence number, at the exchange, at the reload of the position, at
    the access to the value, at the store of the sequence number, returned. *)
Inductive mpmc_op : Type :=
| Enq (v : Z) | EnqSeq (v pos : Z) | EnqCas (v pos : Z) | EnqReload (v : Z) | EnqWrite (v pos : Z) | EnqStore (v pos : Z) | Enqueued (ok : bool)
| Deq | DeqSeq (pos : Z) | DeqCas (pos : Z) | DeqReload | DeqRead (pos : Z) | DeqStore (pos out : Z) | Dequeued (r : option Z).

(** A position is claimed, a value is published or handed out, or an operation
    gives up. *)
Inductive mpmc_event : Type := EClaim (v : Z) | EPublish | EFull | ETake | EGive (v : Z) | EEmpty.

(** [&q->buffer[pos & q->mask]]. *)
Definition cell_index (q : scl_mpmc_queue_t) (pos : Z) : Z := Z.land pos (mask q).

Definition enqueue_test (q : scl_mpmc_queue_t) (v pos : Z) : res (mpmc_op * option mpmc_event) :=
  c ← get_elem (buffer q) (cell_index q pos);
  dif ← sub_intptr (intptr (seq c)) (intptr pos);
  mret (if dif =? 0 then (EnqCas v pos, None) else if dif <? 0 then (Enqueued false, Some EFull) else (EnqReload v, None)).

Definition enqueue_cas (weak : bool) (q : scl_mpmc_queue_t) (v pos : Z) : scl_mpmc_queue_t * mpmc_op * option mpmc_event :=
  let '(p, pos', ok) := cas_weak weak (enqueue_pos q) pos (u64 (pos + 1)) in
  (set_enqueue_pos q p, if ok : bool then EnqWrite v pos else EnqSeq v pos', if ok : bool then Some (EClaim v) else None).

Definition enqueue_write (q : scl_mpmc_queue_t) (v pos : Z) : res scl_mpmc_queue_t :=
  c ← get_elem (buffer q) (cell_index q pos);
  b ← set_elem (buffer q) (cell_index q pos) (Cell (seq c) v); mret (set_buffer q b).

Definition store_seq (q : scl_mpmc_queue_t) (pos s : Z) : res scl_mpmc_queue_t :=
  c ← get_elem (buffer q) (cell_index q pos);
  b ← set_elem (buffer q) (cell_index q pos) (Cell s (value c)); mret (set_buffer q b).

Definition scl_mpmc_enqueue (weak : bool) (q : scl_mpmc_queue_t) (op : mpmc_op) : res (scl_mpmc_queue_t * mpmc_op * option mpmc_event) :=
  match op with
  | Enq v | EnqReload v => mret (q, EnqSeq v (enqueue_pos q), None)
  | EnqSeq v pos => '(op, e) ← enqueue_test q v pos; mret (q, op, e)
  | EnqCas v pos => mret (enqueue_cas weak q v pos)
  | EnqWrite v pos => q ← enqueue_write q v pos; mret (q, EnqStore v pos, None)
  | EnqStore v pos => q ← store_seq q pos (u64 (pos + 1)); mret (q, Enqueued true, Some EPublish)
  | _ => mret (q, op, None)
  end.

Definition dequeue_test (q : scl_mpmc_queue_t) (pos : Z) : res (mpmc_op * option mpmc_event) :=
  c ← get_elem (buffer q) (cell_index q pos);
  dif ← sub_intptr (intptr (seq c)) (intptr (u64 (pos + 1)));
  mret (if dif =? 0 then (DeqCas pos, None) else if dif <? 0 then (Dequeued None, Some EEmpty) else (DeqReload, None)).

Definition dequeue_cas (weak : bool) (q : scl_mpmc_queue_t) (pos : Z) : scl_mpmc_queue_t * mpmc_op * option mpmc_event :=
  let '(p, pos', ok) := cas_weak weak (dequeue_pos q) pos (u64 (pos + 1)) in
  (set_dequeue_pos q p, if ok : bool then DeqRead pos else DeqSeq pos', if ok : bool then Some ETake else None).

Definition scl_mpmc_dequeue (weak : bool) (q : scl_mpmc_queue_t) (op : mpmc_op) : res (scl_mpmc_queue_t * mpmc_op * option mpmc_event) :=
  match op with
  | Deq | DeqReload => mret (q, DeqSeq (dequeue_pos q), None)
  | DeqSeq pos => '(op, e) ← dequeue_test q pos; mret (q, op, e)
  | DeqCas pos => mret (dequeue_cas weak q pos)
  | DeqRead pos => c ← get_elem (buffer q) (cell_index q pos); mret (q, DeqStore pos (value c), None)
  | DeqStore pos out => q ← store_seq q pos (u64 (u64 (pos + mask q) + 1)); mret (q, Dequeued (Some out), Some (EGive out))
  | _ => mret (q, op, None)
  end.

Definition mpmc_exec (weak : bool) (q : scl_mpmc_queue_t) (op : mpmc_op) : res (scl_mpmc_queue_t * mpmc_op * option mpmc_event) :=
  match op with
  | Enq _ | EnqSeq _ _ | EnqCas _ _ | EnqReload _ | EnqWrite _ _ | EnqStore _ _ => scl_mpmc_enqueue weak q op
  | _ => scl_mpmc_dequeue weak q op
  end.

Definition mpmc_returned (op : mpmc_op) : bool := match op with Enqueued _ | Dequeued _ => true | _ => false end.

(** The clients call either operation at any time. *)
Definition mpmc_call (u : unit) (op : mpmc_op) : option unit := match op with Enq _ | Deq => Some u | _ => None end.
Definition mpmc_see (u : unit) (e : mpmc_event) : unit := u.

(** ** Specification

    A bounded FIFO list.  Values enter when their position is claimed, and
    leave when theirs is; [writing] are the threads whose value is not
    published yet, [taking] those that have claimed a value and not returned
    it.  A queue with such a thread may seem full or empty. *)
Record fifo : Type := Fifo { items : list Z; writing : gset nat; taking : gmap nat Z }.

Inductive mpmc_spec (cap : Z) : fifo -> nat -> mpmc_event -> fifo -> Prop :=
| spec_claim l wr tk i v : zlen l < cap -> i ∉ wr -> mpmc_spec cap (Fifo l wr tk) i (EClaim v) (Fifo (l ++ [v]) (wr ∪ {[i]}) tk)
| spec_publish l wr tk i : i ∈ wr -> mpmc_spec cap (Fifo l wr tk) i EPublish (Fifo l (wr ∖ {[i]}) tk)
| spec_full l wr tk i : zlen l = cap \/ tk <> ∅ -> mpmc_spec cap (Fifo l wr tk) i EFull (Fifo l wr tk)
| spec_take l wr tk i v : tk !! i = None -> mpmc_spec cap (Fifo (v :: l) wr tk) i ETake (Fifo l wr (<[i := v]> tk))
| spec_give l wr tk i v : tk !! i = Some v -> mpmc_spec cap (Fifo l wr tk) i (EGive v) (Fifo l wr (delete i tk))
| spec_empty l wr tk i : l = [] \/ wr <> ∅ -> mpmc_spec cap (Fifo l wr tk) i EEmpty (Fifo l wr tk).

(** ** Invariant *)
Definition writes (op : mpmc_op) : option Z := match op with EnqWrite _ pos | EnqStore _ pos => Some pos | _ => None end.
Definition reads (op : mpmc_op) : option Z := match op with DeqRead pos | DeqStore pos _ => Some pos | _ => None end.

Definition apart (op op' : mpmc_op) : Prop :=
  (forall p, writes op = Some p -> writes op' <> Some p) /\ (forall p, reads op = Some p -> reads op' <> Some p).

Section Invariant.
Context (cap : Z).

Definition cell_at (q : scl_mpmc_queue_t) (pos : Z) : option scl_mpmc_cell_t :=
  match buffer q with Ptr b => c ← zlook b (pos mod cap); c | _ => None end.

Definition some_writes (ts : list mpmc_op) (p : Z) : Prop := some_op (fun _ op => writes op = Some p) ts.
Definition some_reads (ts : list mpmc_op) (a : fifo) (p v : Z) : Prop := some_op (fun i op => reads op = Some p /\ taking a !! i = Some v) ts.

(** A cell whose turn is [p]: free for it, or published. *)
Definition turn (q : scl_mpmc_queue_t) (a : fifo) (ts : list mpmc_op) (p : Z) (c : scl_mpmc_cell_t) : Prop :=
  (seq c = p /\ (p < enqueue_pos q -> some_writes ts p)) \/
  (seq c = p + 1 /\ p < enqueue_pos q /\ (dequeue_pos q <= p -> zlook (items a) (p - dequeue_pos q) = Some (value c)) /\
    (p < dequeue_pos q -> some_reads ts a p (value c))).

Definition cell_ok (q : scl_mpmc_queue_t) (a : fifo) (ts : list mpmc_op) (s : Z) : Prop :=
  exists p c, p mod cap = s /\ cell_at q p = Some c /\ enqueue_pos q - cap <= p < dequeue_pos q + cap /\ 0 <= p /\ turn q a ts p c.

(** The sequence number of the cell of a position is at least [s]. *)
Definition seq_from (q : scl_mpmc_queue_t) (pos s : Z) : Prop := exists c, cell_at q pos = Some c /\ s <= seq c.

Definition op_ok (q : scl_mpmc_queue_t) (a : fifo) (i : nat) (op : mpmc_op) : Prop :=
  match op with
  | EnqSeq _ pos => 0 <= pos <= enqueue_pos q
  | EnqCas _ pos => 0 <= pos <= enqueue_pos q /\ seq_from q pos pos
  | EnqWrite v pos => dequeue_pos q <= pos < enqueue_pos q /\ zlook (items a) (pos - dequeue_pos q) = Some v /\
      exists c, cell_at q pos = Some c /\ seq c = pos
  | EnqStore v pos => dequeue_pos q <= pos < enqueue_pos q /\ zlook (items a) (pos - dequeue_pos q) = Some v /\
      cell_at q pos = Some (Cell pos v)
  | DeqSeq pos => 0 <= pos <= dequeue_pos q
  | DeqCas pos => 0 <= pos <= dequeue_pos q /\ seq_from q pos (pos + 1)
  | DeqRead pos => 0 <= pos < dequeue_pos q /\ exists v, taking a !! i = Some v /\ cell_at q pos = Some (Cell (pos + 1) v)
  | DeqStore pos v => 0 <= pos < dequeue_pos q /\ taking a !! i = Some v /\ cell_at q pos = Some (Cell (pos + 1) v)
  | _ => True
  end.

Record mpmc_rep (n : nat) (c : config (Sh := scl_mpmc_queue_t) (Op := mpmc_op) (Cl := unit)) (a : fifo) : Prop := MpmcRep {
  mr_mask : mask (cf_shared c) = cap - 1;
  mr_len : exists b, buffer (cf_shared c) = Ptr b /\ zlen b = cap;
  mr_pos : 0 <= dequeue_pos (cf_shared c) <= enqueue_pos (cf_shared c) /\ enqueue_pos (cf_shared c) <= Z.of_nat n;
  mr_items : zlen (items a) = enqueue_pos (cf_shared c) - dequeue_pos (cf_shared c) /\ zlen (items a) <= cap;
  mr_cells : forall s, 0 <= s < cap -> cell_ok (cf_shared c) a (cf_threads c) s;
  mr_ops : each (op_ok (cf_shared c) a) (cf_threads c);
  mr_writing : marks writes (cf_threads c) (fun i => i ∈ writing a);
  mr_taking : marks reads (cf_threads c) (fun i => is_Some (taking a !! i));
  mr_apart : pairwise apart (cf_threads c)
}.
End Invariant.

Section Proof.
Context (k : Z) (Hk : 1 <= k <= 62).
Notation cap := (2 ^ k).
Notation rep := (mpmc_rep cap).
Notation cell_at := (cell_at cap).
Implicit Types (q : scl_mpmc_queue_t) (a : fifo) (ts : list mpmc_op).

Lemma cap_bounds : 2 <= cap <= 2 ^ 62.
Proof. split; [change 2 with (2 ^ 1) at 1|]; apply Z.pow_le_mono_r; lia. Qed.

Lemma same_slot p p' : p mod cap = p' mod cap -> p = p' \/ p <= p' - cap \/ p' + cap <= p.
Proof.
  pose proof cap_bounds. intros E. pose proof (Z.div_mod p cap ltac:(lia)). pose proof (Z.div_mod p' cap ltac:(lia)).
  assert (p - p' = cap * (p / cap - p' / cap)) as Hd by lia. destruct (Z.lt_trichotomy (p / cap) (p' / cap)) as [?|[E'|?]]; [right; left; nia|left; rewrite E' in Hd; lia|right; right; nia].
Qed.

Lemma index_mod q pos : mask q = cap - 1 -> cell_index q pos = pos mod cap.
Proof. intros E. unfold cell_index. rewrite E. replace (cap - 1) with (Z.ones k) by (rewrite Z.ones_equiv; lia). apply Z.land_ones. lia. Qed.

Lemma intptr_small x : 0 <= x < 2 ^ 63 -> intptr x = x.
Proof. intros Hx. unfold intptr. rewrite Z.mod_small; lia. Qed.

Lemma sub_intptr_small x y : 0 <= x < 2 ^ 63 -> 0 <= y < 2 ^ 63 -> sub_intptr (intptr x) (intptr y) = mret (x - y).
Proof. intros Hx Hy. rewrite !intptr_small by done. unfold sub_intptr. cbv zeta. destruct (Z.leb_spec (- 2 ^ 63) (x - y)), (Z.ltb_spec (x - y) (2 ^ 63)); done || lia. Qed.

(** The cell of a position: whose turn it is. *)
Lemma rep_cell n q ts a pos : rep n (Config q tt ts) a ->
  exists p c, p mod cap = pos mod cap /\ cell_at q pos = Some c /\ get_elem (buffer q) (cell_index q pos) = Ok c /\
    enqueue_pos q - cap <= p < dequeue_pos q + cap /\ 0 <= p /\ turn q a ts p c.
Proof.
  intros [H1 (b & Hb & Hl) _ _ H5 _ _ _ _]. cbn [cf_shared cf_threads] in *. pose proof cap_bounds.
  destruct (H5 (pos mod cap) ltac:(apply Z.mod_pos_bound; lia)) as (p & c & Hp & Hc & Hr & Hp0 & Ht). exists p, c.
  unfold Mpmc.cell_at in *. rewrite Hp in Hc. split; [done|]. split; [done|]. split; [|done]. rewrite index_mod by done. rewrite Hb in *. cbn. unfold get_cell, get.
  destruct (zlook b (pos mod cap)) as [[c'|]|]; cbn in Hc |- *; by simplify_eq.
Qed.

Lemma cell_at_same q p p' : p mod cap = p' mod cap -> cell_at q p = cell_at q p'.
Proof. unfold Mpmc.cell_at. by intros ->. Qed.

(** Storing into a cell. *)
Definition put_cell q (pos : Z) (c : scl_mpmc_cell_t) : scl_mpmc_queue_t :=
  match buffer q with Ptr b => set_buffer q (Ptr (zupd b (pos mod cap) (Some c))) | _ => q end.

Lemma put_pos q pos c : enqueue_pos (put_cell q pos c) = enqueue_pos q /\ dequeue_pos (put_cell q pos c) = dequeue_pos q /\ mask (put_cell q pos c) = mask q.
Proof. unfold put_cell. by destruct (buffer q). Qed.

Lemma set_put q b pos c : mask q = cap - 1 -> buffer q = Ptr b -> zlen b = cap ->
  (set_elem (buffer q) (cell_index q pos) c ≫= fun b => mret (set_buffer q b)) = Ok (put_cell q pos c) /\
  (exists b', buffer (put_cell q pos c) = Ptr b' /\ zlen b' = cap) /\
  forall p, cell_at (put_cell q pos c) p = if decide (p mod cap = pos mod cap) then Some c else cell_at q p.
Proof.
  intros Hm Hb Hl. pose proof cap_bounds. pose proof (Z.mod_pos_bound pos cap ltac:(lia)). rewrite index_mod by done. unfold put_cell, Mpmc.cell_at. rewrite Hb. split_and!.
  - cbn. unfold set. destruct (Z.leb_spec 0 (pos mod cap)), (Z.ltb_spec (pos mod cap) (zlen b)); try lia. done.
  - cbn. eexists. split; [done|]. by rewrite zlen_zupd.
  - intros p. cbn. destruct (decide (p mod cap = pos mod cap)) as [->|Hne]; [by rewrite zlook_zupd_eq by lia|]. by rewrite zlook_zupd_ne.
Qed.

(** ** Actions on nothing but the operation *)
Lemma rep_local n q ts a i op op' : rep n (Config q tt ts) a -> ts !! i = Some op -> writes op' = writes op -> reads op' = reads op -> op_ok cap q a i op' ->
  rep (S n) (Config q tt (<[i := op']> ts)) a.
Proof.
  intros [H1 H2 H3 H4 H5 H6 H7 H8 H9] Hi Hw Hr Hok. cbn [cf_shared cf_threads cf_clients] in *. split; cbn [cf_shared cf_threads cf_clients]; try done; [lia|..].
  - intros s Hs. destruct (H5 s Hs) as (p & c & Hp & Hc & Hr' & Hp0 & Ht). exists p, c. split_and!; try done; try lia.
    destruct Ht as [[E Ht]|(E & Hlt & Ht1 & Ht2)]; [left|right]; split_and!; try done.
    + intros Hlt. eapply some_update; [exact Hi|by apply Ht|cbn; by rewrite Hw|by intros].
    + intros Hlt'. eapply some_update; [exact Hi|by apply Ht2|cbn; by rewrite Hr|by intros].
  - eapply each_update; [exact H6|done|by intros].
  - eapply marks_update; [exact H7|exact Hi|done|]. rewrite (H7 i), Hw. naive_solver.
  - eapply marks_update; [exact H8|exact Hi|done|]. rewrite (H8 i), Hr. naive_solver.
  - eapply pairwise_update; [exact H9| | |by intros].
    + intros x y [Hx Hy]. split; intros p Hp Hp'; [by apply (Hx p)|by apply (Hy p)].
    + intros j o Hj Ho. destruct (H9 i j op o ltac:(done) Hi Ho) as [Hx Hy]. split; [by rewrite Hw|by rewrite Hr].
Qed.

(** ** Threads that hold a cell *)
Definition holds (op : mpmc_op) : option Z := match writes op with Some p => Some p | None => reads op end.

(** The sequence number of a cell that a thread writes or reads. *)
Lemma holds_seq q a i op p : op_ok cap q a i op -> holds op = Some p ->
  exists c, cell_at q p = Some c /\ ((writes op = Some p /\ seq c = p /\ dequeue_pos q <= p) \/ (reads op = Some p /\ seq c = p + 1 /\ p < dequeue_pos q)).
Proof.
  destruct op; try done; cbn; intros Hok [= <-].
  - destruct Hok as (? & _ & c & Hc & Hs). exists c. split; [done|]. left. split; [done|]. split; [done|lia].
  - destruct Hok as (? & _ & Hc). eexists. split; [done|]. left. split; [done|]. split; [done|lia].
  - destruct Hok as (? & v & _ & Hc). eexists. split; [done|]. right. split; [done|]. split; [done|lia].
  - destruct Hok as (? & _ & Hc). eexists. split; [done|]. right. split; [done|]. split; [done|lia].
Qed.

Lemma mod_succ p p' : p mod cap = p' mod cap -> p <> p' + 1.
Proof. pose proof cap_bounds. intros E. apply same_slot in E. lia. Qed.

(** Two of them hold different cells. *)
Lemma holders_apart n q ts a i j op op' p p' : rep n (Config q tt ts) a -> i <> j -> ts !! i = Some op -> ts !! j = Some op' ->
  holds op = Some p -> holds op' = Some p' -> p mod cap <> p' mod cap.
Proof.
  intros H Hij Hi Hj Hp Hp' E. destruct (holds_seq _ _ _ _ _ (mr_ops _ _ _ _ H i op Hi) Hp) as (c & Hc & Hs).
  destruct (holds_seq _ _ _ _ _ (mr_ops _ _ _ _ H j op' Hj) Hp') as (c' & Hc' & Hs'). cbn [cf_shared] in *.
  rewrite (cell_at_same q p p' E) in Hc. assert (c = c') as <- by congruence. destruct (mr_apart _ _ _ _ H i j op op' Hij Hi Hj) as [Hw Hr].
  pose proof (mod_succ _ _ E). pose proof (mod_succ _ _ (eq_sym E)).
  destruct Hs as [(Hx & Hs & _)|(Hx & Hs & _)], Hs' as [(Hy & Hs' & _)|(Hy & Hs' & _)]; [|lia|lia|].
  - apply (Hw p Hx). rewrite Hy. f_equal. lia.
  - apply (Hr p Hx). rewrite Hy. f_equal. lia.
Qed.

(** What the others know survives a store into a cell they do not hold. *)
Lemma op_ok_put q b a a' j op pos c c' : mask q = cap - 1 -> buffer q = Ptr b -> zlen b = cap -> op_ok cap q a j op -> cell_at q pos = Some c -> seq c <= seq c' ->
  (forall p, holds op = Some p -> p mod cap <> pos mod cap) -> items a' = items a -> taking a' !! j = taking a !! j -> op_ok cap (put_cell q pos c') a' j op.
Proof.
  intros Hm Hb Hl Hok Hc Hs Hh Ei Et. destruct (set_put q b pos c' Hm Hb Hl) as (_ & _ & Hat). destruct (put_pos q pos c') as (E1 & E2 & _).
  assert (forall p s, seq_from cap q p s -> seq_from cap (put_cell q pos c') p s) as Hfrom.
  { intros p s (c0 & Hc0 & Hs0). unfold seq_from. rewrite Hat. destruct (decide (p mod cap = pos mod cap)) as [E|]; [|eauto].
    exists c'. split; [done|]. rewrite (cell_at_same q p pos E) in Hc0. assert (c0 = c) as -> by congruence. lia. }
  destruct op; cbn in *; rewrite ?E1, ?E2, ?Ei, ?Et; try done; try (specialize (Hh _ eq_refl); rewrite Hat; destruct (decide _); done).
  - destruct Hok as [? ?]. auto.
  - destruct Hok as [? ?]. auto.
Qed.

(** A store into the cell that a thread holds, which then has its turn at [p']. *)
Lemma rep_store n q ts a a' i op op' pos c c' p' : rep n (Config q tt ts) a -> ts !! i = Some op -> holds op = Some pos -> cell_at q pos = Some c -> seq c <= seq c' ->
  items a' = items a -> (forall j, j <> i -> (j ∈ writing a' <-> j ∈ writing a) /\ taking a' !! j = taking a !! j) ->
  (i ∈ writing a' <-> is_Some (writes op')) -> (is_Some (taking a' !! i) <-> is_Some (reads op')) ->
  (forall p, writes op' = Some p -> writes op = Some p) -> (forall p, reads op' = Some p -> reads op = Some p) ->
  op_ok cap (put_cell q pos c') a' i op' ->
  p' mod cap = pos mod cap -> enqueue_pos q - cap <= p' < dequeue_pos q + cap -> 0 <= p' -> turn (put_cell q pos c') a' (<[i := op']> ts) p' c' ->
  rep (S n) (Config (put_cell q pos c') tt (<[i := op']> ts)) a'.
Proof.
  intros H Hi Hh Hc Hs Ei Hj Hwi Hti Hw Hr Hok Hp' Hrange Hp0 Hturn. pose proof H as [H1 (b & Hb & Hl) H3 H4 H5 H6 H7 H8 H9]. cbn [cf_shared cf_threads cf_clients] in *.
  destruct (set_put q b pos c' H1 Hb Hl) as (_ & Hlen & Hat). destruct (put_pos q pos c') as (E1 & E2 & E3).
  split; cbn [cf_shared cf_threads cf_clients]; rewrite ?E1, ?E2, ?E3, ?Ei; try done; [lia|..].
  - intros s Hs'. destruct (decide (s = pos mod cap)) as [->|Hne].
    { exists p', c'. rewrite Hat, E1, E2. split; [done|]. split; [|done]. by rewrite decide_True. }
    destruct (H5 s Hs') as (p & c0 & Hp & Hc0 & Hr0 & Hp1 & Ht). exists p, c0. rewrite Hat, E1, E2. split; [done|].
    split; [rewrite decide_False by congruence; done|]. split; [done|]. split; [done|]. unfold turn. rewrite E1, E2, Ei.
    assert (p <> pos) as Hpp by congruence. unfold holds in Hh.
    destruct Ht as [[E Ht]|(E & Hlt & Ht1 & Ht2)]; [left|right]; split_and!; try done.
    + intros Hlt. eapply some_update; [exact Hi|by apply Ht| |by intros]. intros Hx. rewrite Hx in Hh. congruence.
    + intros Hlt'. destruct (Ht2 Hlt') as (j & o & Hjo & Hro & Hto). assert (j <> i) as Hji.
      { intros ->. assert (o = op) as -> by congruence. destruct (holds_seq q a i op pos (H6 i op Hi) Hh) as (_ & _ & [(Hx & _)|(Hx & _)]); [|congruence].
        destruct op; cbn in *; congruence. }
      exists j, o. rewrite list_lookup_insert_ne by done. split; [done|]. split; [done|]. by rewrite (proj2 (Hj j Hji)).
  - eapply each_update; [exact H6|exact Hok|]. intros j o Hji Ho Hoo. destruct (Hj j Hji) as [_ Ht].
    eapply op_ok_put; try done. intros p Hp. eapply holders_apart; [exact H|exact Hji|done..].
  - eapply marks_update; [exact H7|exact Hi|intros j Hji; by apply Hj|done].
  - eapply marks_update; [exact H8|exact Hi|intros j Hji; by rewrite (proj2 (Hj j Hji))|done].
  - eapply pairwise_update; [exact H9| | |by intros].
    + intros x y [Hx Hy]. split; intros p Hp Hpp; [by apply (Hx p)|by apply (Hy p)].
    + intros j o Hji Ho. destruct (H9 i j op o ltac:(done) Hi Ho) as [Hx Hy]. split; intros p Hp; [apply Hx|apply Hy]; auto.
Qed.

(** ** Claiming a position *)
Lemma seq_turn n q ts a pos s : rep n (Config q tt ts) a -> seq_from cap q pos s -> s = pos \/ s = pos + 1 -> exists p c, p mod cap = pos mod cap /\ cell_at q pos = Some c /\
  pos <= p /\ enqueue_pos q - cap <= p < dequeue_pos q + cap /\ turn q a ts p c /\ s <= seq c.
Proof.
  intros H (c & Hc & Hs) Hpos. destruct (rep_cell _ _ _ _ pos H) as (p & c' & Hp & Hc' & _ & Hr & _ & Ht). assert (c' = c) as -> by congruence.
  exists p, c. split_and!; try done; try lia. pose proof (mod_succ _ _ (eq_sym Hp)). destruct Ht as [[E _]|[E _]]; lia.
Qed.

Lemma claim_rep n q ts a i v : rep n (Config q tt ts) a -> ts !! i = Some (EnqCas v (enqueue_pos q)) -> seq_from cap q (enqueue_pos q) (enqueue_pos q) ->
  let a' := Fifo (items a ++ [v]) (writing a ∪ {[i]}) (taking a) in
  mpmc_spec cap a i (EClaim v) a' /\ rep (S n) (Config (set_enqueue_pos q (enqueue_pos q + 1)) tt (<[i := EnqWrite v (enqueue_pos q)]> ts)) a'.
Proof.
  intros H Hi Hseq a'.  pose proof cap_bounds. pose proof H as [H1 H2 H3 H4 H5 H6 H7 H8 H9]. cbn [cf_shared cf_threads cf_clients] in *.
  destruct (seq_turn _ _ _ _ _ _ H Hseq (or_introl eq_refl)) as (p & c & Hp & Hc & Hle & Hr & Ht & Hs).
  assert (p = (enqueue_pos q)) as Ep by (apply same_slot in Hp; lia). subst p.
  assert (seq c = (enqueue_pos q)) as Es by (destruct Ht as [[E _]|(_ & Hlt & _)]; [done|lia]).
  assert (i ∉ writing a) as Hiw by (intros Hin; apply H7 in Hin as (o & Ho & [x Hx]); by simplify_eq).
  split; [destruct a as [l wr tk]; cbn in *; constructor; [lia|done]|].
  assert (forall x, cell_at (set_enqueue_pos q ((enqueue_pos q) + 1)) x = cell_at q x) as Hat by done.
  split; cbn [cf_shared cf_threads cf_clients set_enqueue_pos mask buffer enqueue_pos dequeue_pos items a']; try done; [lia|rewrite zlen_app; change (zlen [v]) with 1; lia|..].
  - intros s Hs'. destruct (decide (s = (enqueue_pos q) mod cap)) as [->|Hne].
    { exists (enqueue_pos q), c. split; [done|]. split; [done|]. cbn. split; [lia|]. split; [lia|]. left. split; [done|]. intros _. exists i, (EnqWrite v (enqueue_pos q)).
      rewrite list_lookup_insert_eq by by eapply lookup_lt_Some. done. }
    destruct (H5 s Hs') as (p & c0 & Hp' & Hc0 & Hr0 & Hp1 & Ht0). exists p, c0. assert (p <> (enqueue_pos q) /\ p <> (enqueue_pos q) - cap) as [Hpp1 Hpp2].
    { split; intros Ex; apply Hne; rewrite <- Hp', Ex; [done|]. rewrite Zminus_mod, Z.mod_same, Z.sub_0_r, Z.mod_mod by lia. done. }
    split; [done|]. split; [done|]. cbn. split; [lia|]. split; [done|]. destruct Ht0 as [[E Ht0]|(E & Hlt & Ht1 & Ht2)]; [left|right]; cbn in *; split_and!; try done; try lia.
    + intros Hlt. eapply some_update; [exact Hi|apply Ht0; lia|done|by intros].
    + intros Hd. specialize (Ht1 Hd). rewrite zlook_app. pose proof (zlook_Some _ _ _ Ht1). by bcase; [|lia].
    + intros Hd. eapply some_update; [exact Hi|by apply Ht2|by intros [? _]|by intros].
  - eapply each_update; [exact H6| |].
    + cbn. split; [lia|]. split; [|by exists c]. rewrite zlook_app, zlook_cons. destruct H4 as [-> _]. bcase; [lia|]. by rewrite Z.sub_diag.
    + intros j o Hj Ho Hoo. destruct o; cbn in *; try done.
      * lia.
      * split; [lia|apply Hoo].
      * destruct Hoo as (? & Hx & ?). split; [lia|]. split; [|done]. rewrite zlook_app. pose proof (zlook_Some _ _ _ Hx). by bcase; [|lia].
      * destruct Hoo as (? & Hx & ?). split; [lia|]. split; [|done]. rewrite zlook_app. pose proof (zlook_Some _ _ _ Hx). by bcase; [|lia].
  - eapply marks_update; [exact H7|exact Hi| |]; cbn; [set_solver|]. split; [by eexists|set_solver].
  - eapply marks_update; [exact H8|exact Hi|done|]. cbn. rewrite (H8 i). naive_solver.
  - eapply pairwise_update; [exact H9| | |by intros].
    + intros x y [Hx Hy]. split; intros p Hp0 Hpp; [by apply (Hx p)|by apply (Hy p)].
    + intros j o Hj Ho. split; intros p; [|done]. intros [= <-] Hw. specialize (H6 j o Ho). destruct o; cbn in *; try done; injection Hw as ->; lia.
Qed.

Lemma take_rep n q ts a i : rep n (Config q tt ts) a -> ts !! i = Some (DeqCas (dequeue_pos q)) -> seq_from cap q (dequeue_pos q) (dequeue_pos q + 1) ->
  exists a', mpmc_spec cap a i ETake a' /\ rep (S n) (Config (set_dequeue_pos q (dequeue_pos q + 1)) tt (<[i := DeqRead (dequeue_pos q)]> ts)) a'.
Proof.
  intros H Hi Hseq.  pose proof cap_bounds. pose proof H as [H1 H2 H3 H4 H5 H6 H7 H8 H9]. cbn [cf_shared cf_threads cf_clients] in *.
  destruct (seq_turn _ _ _ _ _ _ H Hseq (or_intror eq_refl)) as (p & c & Hp & Hc & Hle & Hr & Ht & Hs).
  assert (p = (dequeue_pos q)) as Ep by (apply same_slot in Hp; lia). subst p.
  destruct Ht as [[E _]|(Es & Hlt & Hv & _)]; [lia|]. specialize (Hv ltac:(lia)). rewrite Z.sub_diag in Hv.
  destruct a as [[|v l] wr tk]; cbn [items writing taking] in *; [done|]. rewrite zlook_cons in Hv. cbn in Hv. injection Hv as ->. rewrite zlen_cons in H4.
  assert (tk !! i = None) as Hti by (apply eq_None_not_Some; rewrite (H8 i); intros (o & Ho & [x Hx]); by simplify_eq).
  exists (Fifo l wr (<[i := value c]> tk)). split; [by constructor|].
  assert (forall x, cell_at (set_dequeue_pos q ((dequeue_pos q) + 1)) x = cell_at q x) as Hat by done.
  assert (forall x y, x <> (dequeue_pos q) -> zlook (value c :: l) (x - (dequeue_pos q)) = y -> zlook l (x - ((dequeue_pos q) + 1)) = y) as Htl.
  { intros x y Hx. rewrite zlook_cons. bcase; [lia|]. by replace (x - (dequeue_pos q) - 1) with (x - ((dequeue_pos q) + 1)) by lia. }
  split; cbn [cf_shared cf_threads cf_clients set_dequeue_pos mask buffer enqueue_pos dequeue_pos items writing taking]; try done; [lia|lia|..].
  - intros s Hs'. destruct (H5 s Hs') as (p & c0 & Hp' & Hc0 & Hr0 & Hp1 & Ht0). assert (p = dequeue_pos q -> c0 = c) as Hcc by (intros Ex; subst p; congruence). exists p, c0. split; [done|]. split; [done|]. cbn. split; [lia|]. split; [done|].
    destruct Ht0 as [[E Ht0]|(E & Hlt0 & Ht1 & Ht2)]; [left|right]; cbn in *; split_and!; try done.
    + intros Hl. eapply some_update; [exact Hi|by apply Ht0|done|by intros].
    + intros Hd. apply Htl; [lia|]. apply Ht1. lia.
    + intros Hd. destruct (decide (p = (dequeue_pos q))) as [Ex|Hne]; [subst p|].
      * exists i, (DeqRead (dequeue_pos q)). rewrite list_lookup_insert_eq by by eapply lookup_lt_Some. split; [done|]. split; [done|]. cbn. rewrite lookup_insert_eq.
        by rewrite (Hcc eq_refl).
      * destruct (Ht2 ltac:(lia)) as (j & o & Hj & Hro & Hto). assert (j <> i) by (intros ->; cbn in Hto; by rewrite Hti in Hto). exists j, o.
        rewrite list_lookup_insert_ne by done. split; [done|]. split; [done|]. cbn. by rewrite lookup_insert_ne.
  - eapply each_update; [exact H6| |].
    + cbn. split; [lia|]. exists (value c). rewrite lookup_insert_eq. split; [done|]. rewrite Hat, Hc. destruct c; cbn in *. congruence.
    + intros j o Hj Ho Hoo. assert (forall x, writes o = Some x -> x <> (dequeue_pos q)) as Hne.
      { intros x Hx Ex. subst x. destruct (holds_seq q _ j o (dequeue_pos q) Hoo) as (c1 & Hc1 & [(_ & E1 & _)|(E1 & _)]); [unfold holds; by rewrite Hx| |].
        - assert (c1 = c) as -> by congruence. lia.
        - destruct o; cbn in *; congruence. }
      destruct o; cbn in *; try done.
      * destruct Hoo as (? & Hx & ?). specialize (Hne _ eq_refl). split; [lia|]. split; [by apply Htl|done].
      * destruct Hoo as (? & Hx & ?). specialize (Hne _ eq_refl). split; [lia|]. split; [by apply Htl|done].
      * lia.
      * split; [lia|apply Hoo].
      * split; [lia|]. destruct Hoo as (_ & x & Hx & ?). exists x. by rewrite lookup_insert_ne.
      * split; [lia|]. destruct Hoo as (_ & Hx & ?). by rewrite lookup_insert_ne.
  - eapply marks_update; [exact H7|exact Hi|done|]. cbn. rewrite (H7 i). naive_solver.
  - eapply marks_update; [exact H8|exact Hi| |]; cbn; [intros j Hj; by rewrite lookup_insert_ne|]. rewrite lookup_insert_eq. split; by eexists.
  - eapply pairwise_update; [exact H9| | |by intros].
    + intros x y [Hx Hy]. split; intros p Hp0 Hpp; [by apply (Hx p)|by apply (Hy p)].
    + intros j o Hj Ho. split; intros p; [done|]. intros [= <-] Hw. specialize (H6 j o Ho). destruct o; cbn in *; try done; injection Hw as ->; lia.
Qed.

(** ** Every action *)
Lemma cell_get q b pos c : mask q = cap - 1 -> buffer q = Ptr b -> cell_at q pos = Some c -> get_elem (buffer q) (cell_index q pos) = Ok c.
Proof.
  intros Hm Hb Hc. rewrite index_mod, Hb by done. unfold Mpmc.cell_at in Hc. rewrite Hb in Hc. cbn. unfold get_cell, get.
  destruct (zlook b (pos mod cap)) as [[c'|]|]; cbn in Hc |- *; by simplify_eq.
Qed.

(** The sequence numbers and positions are far from the range of [intptr_t]. *)
Lemma seq_bound n q ts a p c : Z.of_nat n < 2 ^ 62 -> rep n (Config q tt ts) a -> 0 <= p -> p < dequeue_pos q + cap -> turn q a ts p c -> 0 <= seq c < 2 ^ 63.
Proof.
  intros Hn H Hp0 Hp Ht. pose proof (mr_pos _ _ _ _ H) as Hq. cbn in Hq. pose proof cap_bounds. assert (p < 2 ^ 63 - 1) by lia.
  destruct Ht as [[-> _]|[-> _]]; lia.
Qed.

Lemma enqueue_test_rep n q ts a i v pos op' e : Z.of_nat n < 2 ^ 62 -> rep n (Config q tt ts) a -> ts !! i = Some (EnqSeq v pos) -> enqueue_test q v pos = Ok (op', e) ->
  spec_step (mpmc_spec cap) a ((i,.) <$> e) a /\ rep (S n) (Config q tt (<[i := op']> ts)) a.
Proof.
  intros Hn H Hi E. pose proof cap_bounds. destruct (rep_cell _ _ _ _ pos H) as (p & c & Hp & Hc & Hg & Hr & Hp0 & Ht). unfold enqueue_test in E. rewrite Hg in E. cbn in E.
  pose proof (mr_ops _ _ _ _ H i _ Hi) as Hok. pose proof (mr_pos _ _ _ _ H) as Hq. pose proof (mr_items _ _ _ _ H) as Hit. cbn in Hok, Hq, Hit.
  pose proof (seq_bound _ _ _ _ _ _ Hn H Hp0 ltac:(lia) Ht). rewrite sub_intptr_small in E by lia. cbn in E.
  destruct (Z.eqb_spec (seq c - pos) 0); [|destruct (Z.ltb_spec (seq c - pos) 0)]; injection E as <- <-.
  - split; [done|]. eapply rep_local; [exact H|exact Hi|done|done|]. split; [done|]. exists c. split; [done|lia].
  - split; [|by eapply rep_local]. cbn. destruct a as [l wr tk]. constructor. cbn [items taking] in *.
    assert (p = pos - cap /\ pos = enqueue_pos q) as [-> ->] by (apply same_slot in Hp; destruct Ht as [[? _]|[? _]]; lia).
    destruct Ht as [[Es Hw]|(Es & Hlt & _ & Ht2)].
    + left. destruct (Hw ltac:(lia)) as (j & o & Hj & Hwo). destruct (holds_seq q _ j o (enqueue_pos q - cap) (mr_ops _ _ _ _ H j o Hj)) as (c1 & Hc1 & [(_ & _ & Hd)|(Hx & _)]).
      * unfold holds. by rewrite Hwo.
      * lia.
      * destruct o; cbn in *; congruence.
    + destruct (Z.lt_ge_cases (enqueue_pos q - cap) (dequeue_pos q)) as [Hd|]; [|left; lia]. right. destruct (Ht2 Hd) as (j & o & _ & _ & Hto). cbn in Hto. intros ->. done.
  - split; [done|]. by eapply rep_local.
Qed.

Lemma dequeue_test_rep n q ts a i pos op' e : Z.of_nat n < 2 ^ 62 -> rep n (Config q tt ts) a -> ts !! i = Some (DeqSeq pos) -> dequeue_test q pos = Ok (op', e) ->
  spec_step (mpmc_spec cap) a ((i,.) <$> e) a /\ rep (S n) (Config q tt (<[i := op']> ts)) a.
Proof.
  intros Hn H Hi E. pose proof cap_bounds. destruct (rep_cell _ _ _ _ pos H) as (p & c & Hp & Hc & Hg & Hr & Hp0 & Ht). unfold dequeue_test in E. rewrite Hg in E. cbn in E.
  pose proof (mr_ops _ _ _ _ H i _ Hi) as Hok. pose proof (mr_pos _ _ _ _ H) as Hq. pose proof (mr_items _ _ _ _ H) as Hit. cbn in Hok, Hq, Hit.
  pose proof (seq_bound _ _ _ _ _ _ Hn H Hp0 ltac:(lia) Ht). rewrite (u64_small (pos + 1)), sub_intptr_small in E by lia. cbn in E.
  destruct (Z.eqb_spec (seq c - (pos + 1)) 0); [|destruct (Z.ltb_spec (seq c - (pos + 1)) 0)]; injection E as <- <-.
  - split; [done|]. eapply rep_local; [exact H|exact Hi|done|done|]. split; [done|]. exists c. split; [done|lia].
  - split; [|by eapply rep_local]. cbn. destruct a as [l wr tk]. constructor. cbn [items writing] in *.
    assert (enqueue_pos q = dequeue_pos q -> l = []) as Hnil.
    { intros Eq. destruct l as [|x l]; [done|]. exfalso. rewrite zlen_cons in Hit. pose proof (zlen_nonneg l). lia. }
    destruct (same_slot _ _ Hp) as [->|[?|?]]; [|left; apply Hnil; lia|exfalso; destruct Ht as [[? _]|[? _]]; lia].
    destruct Ht as [[Es Hw]|(? & _)]; [|lia]. destruct (Z.lt_ge_cases pos (enqueue_pos q)) as [Hlt|]; [|left; apply Hnil; lia].
    right. destruct (Hw Hlt) as (j & o & Hj & Hwo). assert (j ∈ wr) as Hin by (apply (mr_writing _ _ _ _ H); cbn; eauto). set_solver.
  - split; [done|]. by eapply rep_local.
Qed.

Lemma write_rep n q ts a i v pos : rep n (Config q tt ts) a -> ts !! i = Some (EnqWrite v pos) ->
  exists q', enqueue_write q v pos = Ok q' /\ rep (S n) (Config q' tt (<[i := EnqStore v pos]> ts)) a.
Proof.
  intros H Hi. pose proof H as [H1 (b & Hb & Hl) H3 H4 H5 H6 H7 H8 H9]. cbn [cf_shared cf_threads] in *. pose proof (H6 i _ Hi) as (Hr & Hv & c & Hc & Es).
  exists (put_cell q pos (Cell (seq c) v)). unfold enqueue_write. rewrite (cell_get _ _ _ _ H1 Hb Hc). rewrite bind_Ok.
  destruct (set_put q b pos (Cell (seq c) v) H1 Hb Hl) as (-> & _ & Hat). split; [done|].
  destruct (put_pos q pos (Cell (seq c) v)) as (E1 & E2 & _). pose proof (mr_items _ _ _ _ H) as Hit. cbn in Hit.
  eapply (rep_store n q ts a a i _ _ pos c (Cell (seq c) v) pos); try done; cbn; try lia.
  - rewrite (H7 i). split; [intros _; eauto|]. intros _. eexists. split; [exact Hi|by eexists].
  - rewrite (H8 i). naive_solver.
  - rewrite E1, E2, Hat, decide_True by done. by rewrite Es.
  - left. split; [done|]. intros _. exists i, (EnqStore v pos). rewrite list_lookup_insert_eq by by eapply lookup_lt_Some. done.
Qed.

Lemma publish_rep n q ts a i v pos : Z.of_nat n < 2 ^ 62 -> rep n (Config q tt ts) a -> ts !! i = Some (EnqStore v pos) ->
  exists q' a', store_seq q pos (u64 (pos + 1)) = Ok q' /\ mpmc_spec cap a i EPublish a' /\ rep (S n) (Config q' tt (<[i := Enqueued true]> ts)) a'.
Proof.
  intros Hn H Hi. pose proof H as [H1 (b & Hb & Hl) H3 H4 H5 H6 H7 H8 H9]. cbn [cf_shared cf_threads] in *. pose proof (H6 i _ Hi) as (Hr & Hv & Hc).
  pose proof cap_bounds. rewrite u64_small by lia. destruct a as [l wr tk]. cbn [items writing taking] in *. assert (i ∈ wr) as Hin by (apply H7; eauto).
  exists (put_cell q pos (Cell (pos + 1) v)), (Fifo l (wr ∖ {[i]}) tk). unfold store_seq. rewrite (cell_get _ _ _ _ H1 Hb Hc). rewrite bind_Ok. cbn [value].
  destruct (set_put q b pos (Cell (pos + 1) v) H1 Hb Hl) as (-> & _ & Hat). split; [done|]. split; [by constructor|].
  destruct (put_pos q pos (Cell (pos + 1) v)) as (E1 & E2 & _).
  eapply (rep_store n q ts (Fifo l wr tk) _ i _ _ pos (Cell pos v) (Cell (pos + 1) v) pos); try done; cbn; try lia.
  - intros j Hj. split; [set_solver|done].
  - split; [set_solver|by intros [? ?]].
  - rewrite (H8 i). naive_solver.
  - right. rewrite E1, E2. split; [done|]. split; [lia|]. split; [done|]. cbn. lia.
Qed.

Lemma give_rep n q ts a i pos v : Z.of_nat n < 2 ^ 62 -> rep n (Config q tt ts) a -> ts !! i = Some (DeqStore pos v) ->
  exists q' a', store_seq q pos (u64 (u64 (pos + mask q) + 1)) = Ok q' /\ mpmc_spec cap a i (EGive v) a' /\ rep (S n) (Config q' tt (<[i := Dequeued (Some v)]> ts)) a'.
Proof.
  intros Hn H Hi. pose proof H as [H1 (b & Hb & Hl) H3 H4 H5 H6 H7 H8 H9]. cbn [cf_shared cf_threads] in *. pose proof (H6 i _ Hi) as (Hr & Hv & Hc).
  pose proof cap_bounds. rewrite H1, !u64_small by (rewrite ?u64_small; lia). replace (pos + (cap - 1) + 1) with (pos + cap) by lia.
  destruct a as [l wr tk]. cbn [items writing taking] in *.
  exists (put_cell q pos (Cell (pos + cap) v)), (Fifo l wr (delete i tk)). unfold store_seq. rewrite (cell_get _ _ _ _ H1 Hb Hc). rewrite bind_Ok. cbn [value].
  destruct (set_put q b pos (Cell (pos + cap) v) H1 Hb Hl) as (-> & _ & Hat). split; [done|]. split; [by constructor|].
  destruct (put_pos q pos (Cell (pos + cap) v)) as (E1 & E2 & _).
  destruct (rep_cell _ _ _ _ pos H) as (p & c & Hp & Hc' & _ & Hp1 & Hp2 & Ht). cbn in Hc'. assert (c = Cell (pos + 1) v) as -> by congruence.
  assert (p = pos) as -> by (apply same_slot in Hp; destruct Ht as [[Ex _]|[Ex _]]; cbn in Ex; lia).
  eapply (rep_store n q ts (Fifo l wr tk) _ i _ _ pos (Cell (pos + 1) v) (Cell (pos + cap) v) (pos + cap)); try done; cbn; try lia.
  - intros j Hj. split; [done|]. by rewrite lookup_delete_ne.
  - rewrite (H7 i). naive_solver.
  - rewrite lookup_delete_eq. split; by intros [? ?].
  - rewrite Zplus_mod, Z.mod_same, Z.add_0_r, Z.mod_mod by lia. done.
  - left. split; [done|]. rewrite E1. lia.
Qed.

Lemma rep_buffer n q ts a : rep n (Config q tt ts) a -> mask q = cap - 1 /\ exists b, buffer q = Ptr b.
Proof. intros [H1 (b & Hb & _) _ _ _ _ _ _ _]. split; [done|]. by exists b. Qed.

Notation step_rep n q ts a i q' op' e := (exists a', spec_step (mpmc_spec cap) a ((i,.) <$> e) a' /\ rep (S n) (Config q' tt (<[i := op']> ts)) a').

Lemma mpmc_exec_rep n q ts a i op weak q' op' e : Z.of_nat n < 2 ^ 62 -> rep n (Config q tt ts) a -> ts !! i = Some op -> mpmc_returned op = false ->
  mpmc_exec weak q op = Ok (q', op', e) -> step_rep n q ts a i q' op' e.
Proof.
  intros Hn H Hi Hr E. pose proof (mr_ops _ _ _ _ H i op Hi) as Hok. pose proof (mr_pos _ _ _ _ H) as Hq. pose proof cap_bounds.
  cbn [cf_shared] in *. destruct op as [v|v pos|v pos|v|v pos|v pos|b| |pos|pos| |pos|pos v|r]; cbn in Hr; try done; cbn [mpmc_exec scl_mpmc_enqueue scl_mpmc_dequeue op_ok] in *.
  - injection E as <- <- <-. exists a. split; [done|]. eapply rep_local; try done. cbn. lia.
  - destruct (enqueue_test q v pos) as [[op1 e1]| |] eqn:Et; [|done..]. injection E as <- <- <-. exists a. by eapply enqueue_test_rep.
  - injection E as E. unfold enqueue_cas, cas_weak in E. destruct (Z.eqb_spec (enqueue_pos q) pos) as [Ep|], weak; cbn in E; injection E as <- <- <-;
      try (exists a; split; [done|]; destruct q; eapply rep_local; try done; cbn in *; lia).
    subst pos. rewrite u64_small by lia. destruct (claim_rep _ _ _ _ _ _ H Hi (proj2 Hok)) as [Hs Hrep]. eexists. split; [exact Hs|exact Hrep].
  - injection E as <- <- <-. exists a. split; [done|]. eapply rep_local; try done. cbn. lia.
  - destruct (write_rep _ _ _ _ _ _ _ H Hi) as (q1 & E1 & Hrep). rewrite E1 in E. injection E as <- <- <-. by exists a.
  - destruct (publish_rep _ _ _ _ _ _ _ Hn H Hi) as (q1 & a1 & E1 & Hs & Hrep). rewrite E1 in E. injection E as <- <- <-. by exists a1.
  - injection E as <- <- <-. exists a. split; [done|]. eapply rep_local; try done. cbn. lia.
  - destruct (dequeue_test q pos) as [[op1 e1]| |] eqn:Et; [|done..]. injection E as <- <- <-. exists a. by eapply dequeue_test_rep.
  - injection E as E. unfold dequeue_cas, cas_weak in E. destruct (Z.eqb_spec (dequeue_pos q) pos) as [Ep|], weak; cbn in E; injection E as <- <- <-;
      try (exists a; split; [done|]; destruct q; eapply rep_local; try done; cbn in *; lia).
    subst pos. rewrite u64_small by lia. destruct (take_rep _ _ _ _ _ H Hi (proj2 Hok)) as (a1 & Hs & Hrep). by exists a1.
  - injection E as <- <- <-. exists a. split; [done|]. eapply rep_local; try done. cbn. lia.
  - destruct Hok as (Hd & v & Hv & Hc). destruct (rep_buffer _ _ _ _ H) as (Hm & b & Hb). rewrite (cell_get _ _ _ _ Hm Hb Hc) in E. injection E as <- <- <-.
    exists a. split; [done|]. eapply rep_local; try done.
  - destruct (give_rep _ _ _ _ _ _ _ Hn H Hi) as (q1 & a1 & E1 & Hs & Hrep). rewrite E1 in E. injection E as <- <- <-. by exists a1.
Qed.

Lemma mpmc_safe n c a : Z.of_nat n < 2 ^ 62 -> rep n c a -> never_stuck mpmc_exec mpmc_returned c.
Proof.
  destruct c as [q [] ts]. intros Hn H i op weak Hi Hr. cbn [cf_shared cf_threads] in *. pose proof (mr_ops _ _ _ _ H i op Hi) as Hok. pose proof (mr_pos _ _ _ _ H) as Hq. pose proof cap_bounds.
  cbn [cf_shared] in *. destruct op as [v|v pos|v pos|v|v pos|v pos|b| |pos|pos| |pos|pos v|r]; cbn in Hr; try done; cbn [mpmc_exec scl_mpmc_enqueue scl_mpmc_dequeue op_ok] in *.
  - destruct (rep_cell _ _ _ _ pos H) as (p & c & _ & _ & Hg & Hrg & Hp0 & Ht). unfold enqueue_test. rewrite Hg. pose proof (seq_bound _ _ _ _ _ _ Hn H Hp0 ltac:(lia) Ht).
    rewrite bind_Ok, sub_intptr_small by lia. cbn. by repeat case_match.
  - by destruct (write_rep _ _ _ _ _ _ _ H Hi) as (q1 & -> & _).
  - by destruct (publish_rep _ _ _ _ _ _ _ Hn H Hi) as (q1 & a1 & -> & _).
  - destruct (rep_cell _ _ _ _ pos H) as (p & c & _ & _ & Hg & Hrg & Hp0 & Ht). unfold dequeue_test. rewrite Hg. pose proof (seq_bound _ _ _ _ _ _ Hn H Hp0 ltac:(lia) Ht).
    rewrite bind_Ok, (u64_small (pos + 1)), sub_intptr_small by lia. cbn. by repeat case_match.
  - destruct Hok as (Hd & v & Hv & Hc). destruct (rep_buffer _ _ _ _ H) as (Hm & b & Hb). by rewrite (cell_get _ _ _ _ Hm Hb Hc).
  - by destruct (give_rep _ _ _ _ _ _ _ Hn H Hi) as (q1 & a1 & -> & _).
Qed.

#[local] Instance mpmc_implements : Implements mpmc_exec mpmc_returned mpmc_call mpmc_see (mpmc_spec cap) (2 ^ 62) rep.
Proof.
  split; [|exact mpmc_safe]. intros n c a l c' Hn H Hs. destruct Hs as [q [] ts i op op' [] Hi Hr Hc|q [] ts i op weak q' op' e Hi Hr E].
  - exists a. split; [done|]. destruct op'; try done; (eapply rep_local; [exact H|exact Hi|by destruct op|by destruct op|done]).
  - destruct (mpmc_exec_rep _ _ _ _ _ _ _ _ _ _ Hn H Hi Hr E) as (a' & Hl & Hrep). exists a'. split; [exact Hl|]. by destruct e.
Qed.

(** ** A thread that runs alone *)
Definition mpmc_rank (q : scl_mpmc_queue_t) (op : mpmc_op) : nat :=
  let fresh (pos now : Z) (k : nat) := if decide (pos = now) then k else S (S k) in
  match op with
  | Enq _ | EnqReload _ | Deq | DeqReload => 5
  | EnqSeq _ pos => fresh pos (enqueue_pos q) 4%nat
  | DeqSeq pos => fresh pos (dequeue_pos q) 4%nat
  | EnqCas _ pos => fresh pos (enqueue_pos q) 3%nat
  | DeqCas pos => fresh pos (dequeue_pos q) 3%nat
  | EnqWrite _ _ | DeqRead _ => 2
  | EnqStore _ _ | DeqStore _ _ => 1
  | _ => 0
  end.

Lemma mpmc_exec_rank n q ts a i op q' op' e : Z.of_nat n < 2 ^ 62 -> rep n (Config q tt ts) a -> ts !! i = Some op -> mpmc_returned op = false ->
  mpmc_exec false q op = Ok (q', op', e) -> (mpmc_rank q' op' < mpmc_rank q op)%nat.
Proof.
  intros Hn H Hi Hr E. pose proof (mr_ops _ _ _ _ H i op Hi) as Hok. pose proof (mr_pos _ _ _ _ H) as Hq. pose proof cap_bounds.
  cbn [cf_shared] in *. destruct op as [v|v pos|v pos|v|v pos|v pos|b| |pos|pos| |pos|pos v|r]; cbn in Hr; try done; cbn [mpmc_exec scl_mpmc_enqueue scl_mpmc_dequeue op_ok] in *.
  - injection E as <- <- <-. cbn. case_decide; [lia|done].
  - destruct (rep_cell _ _ _ _ pos H) as (p & c & Hp & _ & Hg & Hrg & Hp0 & Ht). unfold enqueue_test in E. rewrite Hg in E. pose proof (seq_bound _ _ _ _ _ _ Hn H Hp0 ltac:(lia) Ht).
    rewrite bind_Ok, sub_intptr_small in E by lia. cbn in E. destruct (Z.eqb_spec (seq c - pos) 0); [|destruct (Z.ltb_spec (seq c - pos) 0)]; injection E as <- <- <-; cbn; case_decide; try lia.
    subst pos. apply same_slot in Hp. destruct Ht as [[? _]|(? & ? & _)]; lia.
  - injection E as E. unfold enqueue_cas, cas_weak in E. destruct (Z.eqb_spec (enqueue_pos q) pos) as [Ep|]; cbn in E; injection E as <- <- <-; cbn; repeat case_decide; lia.
  - injection E as <- <- <-. cbn. case_decide; [lia|done].
  - destruct (enqueue_write q v pos); [|done..]. injection E as <- <- <-. cbn. lia.
  - destruct (store_seq q pos _); [|done..]. injection E as <- <- <-. cbn. lia.
  - injection E as <- <- <-. cbn. case_decide; [lia|done].
  - destruct (rep_cell _ _ _ _ pos H) as (p & c & Hp & _ & Hg & Hrg & Hp0 & Ht). unfold dequeue_test in E. rewrite Hg in E. pose proof (seq_bound _ _ _ _ _ _ Hn H Hp0 ltac:(lia) Ht).
    rewrite bind_Ok, (u64_small (pos + 1)), sub_intptr_small in E by lia. cbn in E. destruct (Z.eqb_spec (seq c - (pos + 1)) 0); [|destruct (Z.ltb_spec (seq c - (pos + 1)) 0)]; injection E as <- <- <-; cbn; case_decide; try lia.
    subst pos. apply same_slot in Hp. destruct Ht as [[? _]|(? & ? & _)]; lia.
  - injection E as E. unfold dequeue_cas, cas_weak in E. destruct (Z.eqb_spec (dequeue_pos q) pos) as [Ep|]; cbn in E; injection E as <- <- <-; cbn; repeat case_decide; lia.
  - injection E as <- <- <-. cbn. case_decide; [lia|done].
  - destruct (get_elem _ _); [|done..]. injection E as <- <- <-. cbn. lia.
  - destruct (store_seq q pos _); [|done..]. injection E as <- <- <-. cbn. lia.
Qed.
End Proof.

(** ** Initialisation *)
Definition mpmc_start (q : scl_mpmc_queue_t) (threads : nat) : config := Config q tt (replicate threads (Dequeued None)).

Lemma start_rep k b m : 1 <= k <= 62 -> zlen b = 2 ^ k -> (forall s, 0 <= s < 2 ^ k -> zlook b s = Some (Some (Cell s 0))) ->
  mpmc_rep (2 ^ k) 0 (mpmc_start (Mpmc (Ptr b) (2 ^ k - 1) 0 0) m) (Fifo [] ∅ ∅).
Proof.
  intros Hk Hl Hb. pose proof (cap_bounds k Hk).
  assert (forall i op, replicate m (Dequeued None) !! i = Some op -> op = Dequeued None) as Hop by (by intros i op [-> _]%lookup_replicate).
  split; cbn; try done; [by exists b|change (zlen (@nil Z)) with 0; lia|..].
  - intros s Hs. exists s, (Cell s 0). split; [by apply Z.mod_small|]. unfold cell_at. cbn. rewrite Z.mod_small by lia. split; [by rewrite Hb|].
    split; [lia|]. split; [lia|]. left. split; [done|]. cbn. lia.
  - by intros i op ->%Hop.
  - intros i. split; [set_solver|]. by intros (op & ->%Hop & [? ?]).
  - intros i. rewrite lookup_empty. split; [by intros [? ?]|]. by intros (op & ->%Hop & [? ?]).
  - by intros i j op op' _ ->%Hop ->%Hop.
Qed.

Lemma mpmc_init_spec (al : scl_allocator_t) `{!AllocatorOk al} SCL_CACHE_LINE_SIZE w q0 capacity :
  1 <= SCL_CACHE_LINE_SIZE < 2 ^ 64 -> 0 <= capacity < 2 ^ 64 ->
  wp (scl_mpmc_init SCL_CACHE_LINE_SIZE (Some al) w (Some q0) capacity) (fun '(e, q, w1) =>
    (e = SCL_ERR_OUT_OF_MEMORY /\ w_live w1 = w_live w /\ exists q1, q = Some q1 /\ buffer q1 = Null) \/
    (e = SCL_OK /\ w_live w1 = w_live w + 1 /\ exists k b, 1 <= k <= 62 /\ 2 ^ k = scl_bit_ceil_sz (Z.max 2 capacity) /\ capacity <= 2 ^ k /\
       q = Some (Mpmc (Ptr b) (2 ^ k - 1) 0 0) /\ zlen b = 2 ^ k /\ forall s, 0 <= s < 2 ^ k -> zlook b s = Some (Some (Cell s 0)))).
Proof.
  intros Hline Hcap. unfold scl_mpmc_init. cbv zeta. assert ((if capacity <? 2 then 2 else capacity) = Z.max 2 capacity) as -> by (bcase; lia).
  set (cap := scl_bit_ceil_sz (Z.max 2 capacity)). unfold scl_calloc. destruct (calloc_fn al (w_reqs w) cap SCL_CACHE_LINE_SIZE SCL_CACHE_LINE_SIZE) eqn:C.
  2:{ wstep. left. split; [done|]. split; [done|]. by eexists. }
  destruct (bit_ceil_sz_pow (Z.max 2 capacity) ltac:(lia)) as [E|(k & Hk & E & Hle)]; fold cap in E.
  { exfalso. apply calloc_fn_ok in C; unfold is_u64; lia. }
  assert (1 <= k) by (destruct (decide (k = 0)) as [->|]; [change (2 ^ 0) with 1 in Hle; lia|lia]).
  assert (0 < 2 ^ k < 2 ^ 64) by (split; [apply Z.pow_pos_nonneg; lia|apply Z.pow_lt_mono_r; lia]).
  rewrite E in *. apply calloc_fn_ok in C as (_ & _ & C); [|unfold is_u64; lia..]. unfold PTRDIFF_MAX in C.
  assert (k <= 62) by (destruct (Z.le_gt_cases k 62) as [|Hgt]; [done|]; exfalso; assert (2 ^ 63 <= 2 ^ k) by (apply Z.pow_le_mono_r; lia); nia).
  wstep. cbn [buffer set_buffer to_ptr enqueue_pos dequeue_pos mask value]. rewrite (u64_small (2 ^ k - 1)) by lia.
  apply (wp_zfor (fun i b => exists b', b = Ptr b' /\ zlen b' = 2 ^ k /\ (forall s, 0 <= s < i -> zlook b' s = Some (Some (Cell s 0))) /\
    forall s, i <= s < 2 ^ k -> zlook b' s = Some (Some (Cell 0 0)))).
  - eexists. split; [done|]. rewrite zlen_replicate. split; [lia|]. split; [lia|]. intros s Hs. rewrite zlook_replicate.
    destruct (Z.leb_spec 0 s), (Z.ltb_spec s (Z.of_nat (Z.to_nat (2 ^ k)))); try lia. done.
  - intros i b Hi (b' & -> & Hl & Hlo & Hhi). wstep. eapply wp_get_elem; [apply Hhi; lia|]. apply wp_set_elem; [lia|]. eexists. split; [done|]. rewrite zlen_zupd.
    split; [done|]. split; intros s Hs; rewrite zlook_zupd; case_decide; try lia; [destruct_and?; by subst|apply Hlo; lia|apply Hhi; lia].
  - intros b (b' & -> & Hl & Hlo & _). wstep. right. split; [done|]. split; [done|]. exists k, b'. split; [lia|]. split; [done|]. split; [lia|]. split; [done|].
    split; [done|]. intros s Hs. apply Hlo. lia.
Qed.


